(* ===== verification/_CoqProject ===== *)
-Q . S2P
Prelude.v
PackedInts.v
PackedIntsProofs.v
SimpleMemoryArena.v
ArenaPlanner.v
PlannerLifetimes.v
PlannerExecution.v
PlannerSafety.v
GraphPartition.v
PartitionProofs.v
Subgraph.v
SubgraphExecution.v
SubgraphDelegation.v
SubgraphProofs.v
SubgraphRunProofs.v
PlannerInterface.v
SubgraphDelegateProofs.v
SubgraphUndoProofs.v
SubgraphExamples.v
SubgraphDelegateExamples.v
UsageRecords.v
ObjectAssignment.v
SharingProofs.v
GreedyProofs.v
MinCostFlow.v
MemoryManagement.v
MemoryProofs.v
ReallocationProofs.v
FlowNetwork.v
ShortestPaths.v
MinCostFlowProofs.v
OpCodes.v
LiteRtIr.v
LiteRtGraphProofs.v
OpShapes.v
ConvShapes.v
ShapeInference.v
ShapeProofs.v
LayoutShapeProofs.v
WindowShapeProofs.v
EngineProofs.v
PluginPartitions.v
PluginProofs.v
PluginRewrites.v
OutlineProofs.v
IslandProofs.v
ModelTransfer.v
ModelTransferProofs.v
TensorLayout.v
TensorCopy.v
KernelUtil.v
KernelProofs.v
KernelBroadcast.v
MaximumMinimum.v
Transpose.v
TransposeProofs.v
TransposeKernelProofs.v
KernelBroadcastProofs.v
MaximumMinimumProofs.v
StridedSlice.v
StridedSliceProofs.v
StridedSliceRanges.v
StridedSliceExpansion.v
StridedSliceKernelProofs.v
SparsityFormat.v
SparseBlocks.v
SparsityEncoding.v
SparsityDecoding.v
SparsityLayout.v
SparsityProofs.v
SparseWeights.v
SparseWeightsProofs.v
