(* ===== verification/Prelude.v ===== *)
(** * A verification development for the LiteRT runtime

    The repository holds the LiteRT runtime ([src/litert]) and the TensorFlow Lite
    runtime it grew out of ([src/tflite]). This library models the parts of it that
    carry the program's own logic: how memory is planned, how graphs are split
    and rewritten, how shapes are inferred, and how kernels move elements. Most
    kernels, drivers, generated schema code and bindings are left aside (see the
    end of this comment).

    ** The parts and how they interact

    A model is a graph of operations and tensors. On its way to execution

    - the compiler plugin of LiteRT takes the operations that a vendor selected,
      groups them into partitions, outlines each of them into a subgraph of its
      own, inlines what was not taken and moves subgraphs to the model that is
      compiled; it rewrites the doubly linked graph of the LiteRT intermediate
      representation, whose shapes an inference engine computes;
    - a subgraph of the interpreter is built from nodes and tensors; delegates
      replace nodes of its plan by kernels of their own, for which the graph is
      partitioned; it is allocated, which prepares the kernels and plans the
      memory, and run, which prepares again what depends on dynamic tensors;
    - the arena planner decides when each tensor lives and places the tensors in
      memory arenas; the GPU delegate has a planner of its own, with a choice of
      strategies that share buffers between tensors;
    - constant weights may be compressed: the converter of models encodes them in
      a sparse format, its exporter writes the parameters of the format into the
      model, the interpreter reads them and a kernel restores the dense tensor.

    ** Files

    Each component has a file with its data and operations, which only requires
    the components it calls, and files with its theorems.

    - [SimpleMemoryArena] ([tflite/simple_memory_arena.{h,cc}]): a heap of blocks,
      the C allocation functions as a class with laws, the aligned buffer that
      grows by reallocation, and the arena. [Allocate] keeps the arena's
      invariant and never overlaps two allocations used at a common node; from a
      fresh arena all requests that fit are served; [Commit] and [ResolveAlloc]
      give disjoint addresses; purging has no effect on later requests.
    - [ArenaPlanner] ([tflite/arena_planner.{h,cc}]) on top of it: one record for
      the planner's fields, the arenas and the tensors. [PlannerLifetimes]: the
      plan keeps the memory of a tensor from its definition to its last use.
      [PlannerExecution]: after planning and executing, tensors in use together
      that share no owner have disjoint memory, and it only fails where the platform
      has no block for a buffer; and concrete runs in which in-place sharing goes wrong.
      [PlannerSafety]: called on any nodes of the plan, after tensors were added and
      memory was refused or released, the planner keeps its vectors and arenas
      consistent ([steady]).
    - [GraphPartition] ([tflite/graph_info.{h,cc}]): the partitioner by epochs.
      [PartitionProofs]: it terminates, and its subsets are a partition of the
      nodes that respects data and control dependencies; when a graph is in
      dependency order it always succeeds.
    - [Subgraph], [SubgraphExecution], [SubgraphDelegation]
      ([tflite/core/subgraph.{h,cc}], [tflite/util.cc], [tflite/core/c/common.cc]): the
      record [Subgraph] with the fields of the class; construction and tensors;
      [AllocateTensors] and [InvokeImpl]; [ModifyGraphWithDelegate], undoing and redoing
      delegates. Kernels are components of the registration of a node, the planner,
      the C heap and the delegates are classes; what only they know is a type [W]. A
      delegate's [Prepare] is an inductive ([DelegateRun]) that asks for changes
      and continues with their results.
      [SubgraphProofs]: sizes in bytes; nested redoing ends.
      [SubgraphRunProofs]: a [Contract] says what kernels, planner and callbacks
      keep of each other's state, of the planner only for the calls that the graph
      makes ([planner_ok]); under it every kernel runs on the shapes it was
      prepared for ([Invoke_prepared]), after whatever successful requests of a
      client that has applied no delegate ([requests_sound]). [PlannerInterface] makes
      [ArenaPlanner] an instance of the class [MemoryPlanner], reading the graph as
      [InterpreterInfo] does, and shows that it keeps the contract on every graph that
      can be planned ([arena_planner_ok]). [SubgraphDelegateProofs]: replacing nodes, on top of
      the theorem on partitioning; how [ModifyGraphWithDelegate] ends.
      [SubgraphUndoProofs]: undoing restores the graph. [SubgraphExamples],
      [SubgraphDelegateExamples]: a concrete world with the arena planner that meets the
      contract, the theorems at it, and runs in corners where the code goes wrong.
    - [UsageRecords], [ObjectAssignment], [MinCostFlow], [MemoryManagement]
      ([tflite/delegates/gpu/common/memory_management*]): usage records, every
      strategy, the offsets. What an assignment must satisfy is stated once at
      the end of [UsageRecords]; [SharingProofs], [GreedyProofs] and
      [MinCostFlowProofs] show that each strategy meets it, the last by way of
      [FlowNetwork], an abstract view of the residual graph, and [ShortestPaths].
      [MemoryProofs] composes them into theorems about the entry points,
      [ReallocationProofs] characterises the reallocation graph.
    - [OpCodes], [LiteRtIr] ([litert/c], [litert/core/model/model.{h,cc}],
      [ir_allocator.h], [graph_validation.cc]): the objects of the intermediate
      representation live in a heap ([ir]) and refer to each other by addresses,
      so that aliasing is that of the pointers of the code. [LiteRtGraphProofs]:
      [wf_ir] says that the two directions of every link agree; attaching,
      disconnecting, [Drop] and [DCE] keep it, and validation accepts exactly
      the operations whose links agree.
    - [OpShapes], [ConvShapes] ([litert/core/model/ops/*.h]) and
      [ShapeInference] ([shape_inference.cc]): the inference functions and the
      engine. [ShapeProofs], [LayoutShapeProofs], [WindowShapeProofs]: what
      they compute, round trips, bounds. [EngineProofs]: inference changes only
      shapes, and what it infers passes validation.
    - [PluginPartitions], [PluginRewrites] ([litert/compiler/plugin/algo.cc],
      [compiler_plugin.cc], [litert/core/insert_order_map.h]). [PluginProofs]:
      the union-find computes connected components, the other strategy maximal
      runs. [OutlineProofs]: outlining gives an isomorphic copy that computes the
      same values and leaves a well-formed graph. [IslandProofs] composes the two
      into the partitioning of a subgraph.
    - [ModelTransfer] ([ir_allocator.h], [model.cc]) and [ModelTransferProofs]:
      moving subgraphs to another model keeps every composite operation
      referring to the same subgraph.
    - [SparsityFormat] ([tflite/kernels/internal/utils/sparsity_format_converter.{h,cc}]):
      both directions of the converter between the dense layout and the
      compressed levels. [SparseBlocks] says what the format stores, level by
      level. [SparsityEncoding]: the traversal, which pushes what it meets and
      erases what turns out to be empty, computes that. [SparsityDecoding]: the
      recursion writes every stored element to its place. [SparsityLayout]: how
      dimensions and blocks make up the levels, one index of each for every
      position. [SparsityProofs] composes them: refinement and round trip.
    - [SparseWeights] ([tflite/converter/transforms/dense_to_sparse_pass.cc],
      [tflite/converter/flatbuffer_export.cc], [tflite/core/interpreter_builder.cc],
      [tflite/kernels/internal/reference/densify.h]): the way of a sparse weight
      from the converter through the tables of the model to the kernel.
      [SparseWeightsProofs]: it arrives unchanged; what is malformed is an error.
    - [TensorLayout], [TensorCopy]: positions in row-major order, strides, and copies
      that read with one stride for each dimension and write in order; shared by
      the sparse format and the kernels.
    - [PackedInts] ([tflite/kernels/internal/portable_tensor_utils.cc]) and
      [PackedIntsProofs]: integers of two and four bits; packing and unpacking are
      inverse to each other.
    - [KernelUtil], [KernelProofs] ([tflite/kernels/kernel_util.{h,cc}]): the tensors of
      a kernel, whose elements are integers of their size.
    - [Transpose] ([tflite/kernels/transpose.cc],
      [tflite/kernels/internal/reference/transpose.h]). [TransposeProofs]: the recursion
      copies between any strides, and the inverse permutation undoes it.
      [TransposeKernelProofs]: what [Eval] computes for every element size, what is
      checked, and agreement of the output's shape with [InferTranspose]. A
      well-behaved [ResizeTensor] of the context is a hypothesis ([resizes]).
    - [StridedSlice] ([tflite/kernels/strided_slice.cc],
      [tflite/kernels/internal/strided_slice_logic.h],
      [tflite/kernels/internal/reference/strided_slice.h]). [StridedSliceProofs] says what
      an item of an index expression selects ([axis_start], [axis_stop],
      [axis_count]) and that the five loops write these elements in order;
      [StridedSliceRanges]: the parameters encode items, and the bounds computed from
      them are those of the items; [StridedSliceExpansion]: the three loops over the
      masks compute the expansion of ellipsis and new axes ([axes]).
      [StridedSliceKernelProofs] composes them into the meaning of [Eval] and
      agreement with [InferStridedSlice]; and runs where the kernel goes wrong.
    - [KernelBroadcast] ([CalculateShapeForBroadcast] of [tflite/kernels/kernel_util.cc],
      the descriptions of arrays of [tflite/kernels/internal/common.h]) and
      [KernelBroadcastProofs]: the shape is [broadcast], the relation of shapes that
      [ShapeProofs] gives the inference; a repeated dimension has stride zero, so that a
      subscript of the result leads to the element of each operand there
      ([source_index]); the nested loops visit every position once, in order.
    - [MaximumMinimum] ([tflite/kernels/maximum_minimum.cc],
      [tflite/kernels/internal/reference/maximum_minimum.h]). [MaximumMinimumProofs]: the
      result of [Prepare] and [Eval] has the broadcast shape and at every index the
      maximum or minimum of the operands; agreement with [InferElementwiseBinary]; and
      shapes that are not checked. The order of floating-point numbers is a parameter.

    ** Conventions

    - A function that changes state or can fail is a computation of the monad [M]
      of this file: it returns a value and a state, reports an error status with
      the changes made so far, or is [Undefined]. Undefined behaviour of C++
      counts as such (an index out of range, a null or dangling pointer, signed
      overflow, division by zero), and so does an exception ([.at] out of
      range). Theorems are stated with [wp] or as equations; both say that the
      run is defined.
    - Integers are in [Z]; [u64] and [i32] are written where the code can wrap.
      A rank is at most 127, so that loop counters over dimensions fit.
    - The release build is modelled: [ABSL_DCHECK], [TFLITE_DCHECK] and what stands
      under [#ifndef NDEBUG] are left out, and so are logging and profiling; a [TFLITE_CHECK] that fails is [Undefined].
    - What a hash map or a hash set enumerates is left open: a class ([HashOrder]
      and the like) says that it is some order of the entries. [std::sort] is
      the class [StdSort], any sorted permutation, wherever the order of equal
      elements could matter.
    - Tensors of the interpreter carry no quantization parameters, and layouts no
      strides; nothing modelled looks at them.

    ** Fuel

    Loops over the elements of a container are structural. The others have fuel,
    and the theorems show that it suffices: the partitioner makes at most one
    round per node; [Drop] disconnects at most as many edges as there are;
    [GetBucket] climbs at most through all elements; the relaxation of the
    minimum-cost flow takes at most one round per vertex, its augmentations one
    per tensor; a search visits each vertex once. [remove_uses] of the inliner
    makes one step per use; [encode_steps] counts the steps of the traversal of a
    dense tensor, for every index of a dimension the ones inside it, one to leave it
    and one to enter each of the dimensions inside it; [Populate] goes down one level per call.
    [RedoAllDelegates] is nested at most [redo_depth] times: while delegates are
    being redone none are undone ([RedoAllDelegates_depth]). [TransposeImpl] has as many
    levels as dimensions; a loop of a strided slice comes nearer to its end with
    every round ([stride_for]); the expansion of masks advances by one dimension or more.

    ** Not modelled

    The loading of models into the interpreter (but for sparsity parameters) and what
    the interpreter adds to its subgraphs; of a subgraph the inlining of composites,
    opaque delegates and delegates that work on several subgraphs, quantization
    parameters, metadata, profiling and telemetry; the
    kernels but for those above (mostly floating-point and SIMD code; of strided slices the
    copying of strings, of maximum and minimum the optimized loops for bytes), the delegates and vendor plugins (glue to drivers and compilers
    whose code is not here), the converter (passes over MLIR, which is not here; but for sparse weights),
    serialization over generated accessors, the C, C++, Python, Java and
    JavaScript interfaces, tools and tests. Within the modelled parts: the loading
    of compiler plugins and their calls, the signatures and metadata of a model,
    buffers shared between models, and debug output. *)

From Stdlib Require Export ZArith Lia Sorting.Sorted.
From stdpp Require Export base tactics list list_numbers gmap strings sorting.

#[global] Open Scope Z_scope.

Declare Scope litert_scope.
Delimit Scope litert_scope with litert.
#[global] Open Scope litert_scope.

Create HintDb litert.
Create Rewrite HintDb litert.

(** ** Machine integers

    Integers of the program are kept in [Z]; the width shows where the code
    can wrap ([u64] for [size_t], [i32] for [int]) or where it compares with
    the limits of a type. *)

Definition size_max : Z := 2 ^ 64 - 1.
Definition int32_max : Z := 2 ^ 31 - 1.
Definition int32_min : Z := - 2 ^ 31.

Definition u64 (z : Z) : Z := z mod 2 ^ 64.
Definition i32 (z : Z) : Z := (z + 2 ^ 31) mod 2 ^ 32 - 2 ^ 31.

Definition is_size (z : Z) : Prop := 0 ≤ z ≤ size_max.
Definition is_int32 (z : Z) : Prop := int32_min ≤ z ≤ int32_max.

Lemma u64_id z : is_size z → u64 z = z.
Proof. unfold is_size, size_max, u64. intros. apply Z.mod_small. lia. Qed.

Lemma u64_range z : is_size (u64 z).
Proof. unfold is_size, size_max, u64. pose proof (Z.mod_pos_bound z (2 ^ 64)). lia. Qed.

Lemma i32_id z : is_int32 z → i32 z = z.
Proof.
  unfold is_int32, int32_min, int32_max, i32. intros.
  rewrite Z.mod_small; lia.
Qed.

Lemma i32_range z : is_int32 (i32 z).
Proof.
  unfold is_int32, int32_min, int32_max, i32.
  pose proof (Z.mod_pos_bound (z + 2 ^ 31) (2 ^ 32)). lia.
Qed.

#[export] Hint Resolve u64_range i32_range : litert.

(** ** Outcomes

    A C++ function of the runtime works on a state and either returns a value,
    returns an error status (the changes made so far stay), or runs into
    undefined behaviour such as an index out of the range of a vector. *)

Inductive outcome (S A : Type) : Type :=
| Done (a : A) (s : S)
| Error (s : S)
| Undefined.
Arguments Done {S A} a s.
Arguments Error {S A} s.
Arguments Undefined {S A}.

Definition M (S A : Type) : Type := S → outcome S A.

#[export] Instance M_ret {S} : MRet (M S) := λ A a s, Done a s.
#[export] Instance M_bind {S} : MBind (M S) := λ A B f m s,
  match m s with
  | Done a s' => f a s'
  | Error s' => Error s'
  | Undefined => Undefined
  end.

Definition get {S} : M S S := λ s, Done s s.
Definition gets {S A} (f : S → A) : M S A := λ s, Done (f s) s.
Definition put {S} (s : S) : M S unit := λ _, Done tt s.
Definition modify {S} (f : S → S) : M S unit := λ s, Done tt (f s).
Definition fail {S A} : M S A := λ s, Error s.
Definition undefined {S A} : M S A := λ _, Undefined.

(** [TF_LITE_ENSURE] and [if (...) return error]. *)
Definition ensure {S} (b : bool) : M S unit := if b then mret () else fail.

(** Reading a vector: an index out of range is undefined behaviour. *)
Definition deref {S A} (o : option A) : M S A :=
  match o with Some a => mret a | None => undefined end.

(** A call whose error status is looked at. *)
Definition try_m {S A} (m : M S A) : M S (option A) := λ s,
  match m s with
  | Done a s' => Done (Some a) s'
  | Error s' => Done None s'
  | Undefined => Undefined
  end.

(** A range-based [for] loop whose body may return an error. *)
Fixpoint for_each {S A} (l : list A) (body : A → M S unit) : M S unit :=
  match l with
  | [] => mret ()
  | a :: l' => body a ;; for_each l' body
  end.

(** The same with a local variable that the body updates. *)
Fixpoint fold_m {S A B} (l : list A) (b : B) (body : B → A → M S B) : M S B :=
  match l with
  | [] => mret b
  | a :: l' => b' ← body b a; fold_m l' b' body
  end.

(** ** Reasoning about outcomes

    [wp m Q E s]: run from [s], [m] has no undefined behaviour, it ends in a
    state satisfying [Q] if it returns and [E] if it reports an error. *)

Definition wp {S A} (m : M S A) (Q : A → S → Prop) (E : S → Prop) (s : S) : Prop :=
  match m s with
  | Done a s' => Q a s'
  | Error s' => E s'
  | Undefined => False
  end.

Section wp.
Context {S : Type}.
Implicit Types (E : S → Prop) (s : S).

Lemma wp_ret {A} (a : A) Q E s : Q a s → wp (mret a) Q E s.
Proof. done. Qed.

Lemma wp_bind_inv {A B} (m : M S A) (k : A → M S B) (Q : B → S → Prop) E s :
  wp (m ≫= k) Q E s → wp m (λ a, wp (k a) Q E) E s.
Proof. unfold wp, mbind, M_bind. by destruct (m s). Qed.

Lemma wp_bind {A B} (m : M S A) (f : A → M S B) Q E s :
  wp m (λ a s', wp (f a) Q E s') E s → wp (m ≫= f) Q E s.
Proof. unfold wp, mbind, M_bind. by destruct (m s). Qed.

Lemma wp_mono {A} (m : M S A) Q Q' E E' s :
  wp m Q E s → (∀ a s', Q a s' → Q' a s') → (∀ s', E s' → E' s') →
  wp m Q' E' s.
Proof. unfold wp. destruct (m s); naive_solver. Qed.

Lemma wp_post {A} (m : M S A) Q Q' E s :
  (∀ a s', Q a s' → Q' a s') → wp m Q E s → wp m Q' E s.
Proof. intros HQ Hm. eapply wp_mono; [exact Hm|exact HQ|done]. Qed.

Lemma wp_get Q E s : Q s s → wp get Q E s.
Proof. done. Qed.

Lemma wp_gets {A} (f : S → A) Q E s : Q (f s) s → wp (gets f) Q E s.
Proof. done. Qed.

Lemma wp_put s' Q E s : Q () s' → wp (put s') Q E s.
Proof. done. Qed.

Lemma wp_modify f Q E s : Q () (f s) → wp (modify f) Q E s.
Proof. done. Qed.

Lemma wp_fail {A} (Q : A → S → Prop) E s : E s → wp fail Q E s.
Proof. done. Qed.

Lemma wp_ensure b Q E s :
  (b = true → Q () s) → (b = false → E s) → wp (ensure b) Q E s.
Proof. destruct b; intros; [apply wp_ret | apply wp_fail]; auto. Qed.

Lemma wp_deref {A} (o : option A) a Q E s :
  o = Some a → Q a s → wp (deref o) Q E s.
Proof. intros ->. done. Qed.

(** The loop rule: [I] is indexed by the elements already visited. *)
Lemma wp_for_each {A} (I : list A → S → Prop) E (l : list A) body s :
  I [] s →
  (∀ done x todo s', l = done ++ x :: todo → I done s' →
     wp (body x) (λ _, I (done ++ [x])) E s') →
  wp (for_each l body) (λ _, I l) E s.
Proof.
  intros H0 Hstep.
  enough (∀ done todo s', l = done ++ todo → I done s' →
    wp (for_each todo body) (λ _, I l) E s') as H; [by apply (H [])|].
  intros done todo. revert done.
  induction todo as [|x todo IH]; intros done s' Hl HI; simpl.
  - apply wp_ret. by rewrite Hl, app_nil_r.
  - apply wp_bind. eapply wp_mono; [by eapply Hstep| |done].
    intros [] s'' HI'. simpl in HI'. apply (IH (done ++ [x])); [|done].
    by rewrite <- app_assoc.
Qed.

(** The rule for a loop with a local variable. *)
Lemma wp_fold_m {A B} (I : list A → B → S → Prop) E (l : list A) b body s :
  I [] b s →
  (∀ done x todo b' s', l = done ++ x :: todo → I done b' s' →
     wp (body b' x) (I (done ++ [x])) E s') →
  wp (fold_m l b body) (I l) E s.
Proof.
  intros H0 Hstep.
  enough (∀ done todo b' s', l = done ++ todo → I done b' s' →
    wp (fold_m todo b' body) (I l) E s') as H; [by apply (H [])|].
  intros done todo. revert done.
  induction todo as [|x todo IH]; intros done b' s' Hl HI; simpl.
  - apply wp_ret. by rewrite Hl, app_nil_r.
  - apply wp_bind. eapply wp_mono; [by eapply Hstep| |done].
    intros b'' s'' HI'. simpl in HI'. apply (IH (done ++ [x])); [|done].
    by rewrite <- app_assoc.
Qed.
End wp.

(** One step of symbolic execution; [wp_steps] runs to the next guard, access,
    loop or call. *)
Ltac wp_step :=
  lazymatch goal with
  | |- wp (mbind _ _) _ _ _ => apply wp_bind
  | |- wp (mret _) _ _ _ => apply wp_ret
  | |- wp get _ _ _ => apply wp_get
  | |- wp (gets _) _ _ _ => apply wp_gets
  | |- wp (put _) _ _ _ => apply wp_put
  | |- wp (modify _) _ _ _ => apply wp_modify
  | |- wp fail _ _ _ => apply wp_fail
  | |- wp (deref (Some _)) _ _ _ => eapply wp_deref; [reflexivity|]
  | |- wp (ensure ?b) _ _ _ =>
      first [change b with true; apply wp_ret | change b with false; apply wp_fail]
  end; simpl.

Ltac wp_steps := repeat wp_step.

(** From [wp] to an equation about the run. *)
Lemma wp_no_error {S A} (m : M S A) Q s :
  wp m Q (λ _, False) s → ∃ a s', m s = Done a s' ∧ Q a s'.
Proof. unfold wp. destruct (m s); naive_solver. Qed.

Lemma wp_done {S A} (m : M S A) Q E s a s' :
  wp m Q E s → m s = Done a s' → Q a s'.
Proof. unfold wp. intros H Hm. by rewrite Hm in H. Qed.

Lemma wp_Done {A S} (m : M S A) (Q : A → S → Prop) s : wp m Q (λ _, False) s → ∃ a s', m s = Done a s' ∧ Q a s'.
Proof. unfold wp. destruct (m s) as [a s'| |]; [|done..]. intros HQ. by exists a, s'. Qed.

(** Running a computation on a component of a larger state. *)
Definition zoom {S T A} (view : S → T) (update : T → S → S) (m : M T A) : M S A := λ s,
  match m (view s) with
  | Done a t => Done a (update t s)
  | Error t => Error (update t s)
  | Undefined => Undefined
  end.

Lemma wp_zoom {S T A} (view : S → T) update (m : M T A) Q E s :
  wp m (λ a t, Q a (update t s)) (λ t, E (update t s)) (view s) →
  wp (zoom view update m) Q E s.
Proof. unfold wp, zoom. by destruct (m (view s)). Qed.

(** ** Sorting

    [std::sort] leaves the order of equivalent elements open and
    [std::stable_sort] keeps it. Both need a strict weak order. The first is an
    interface (any implementation with these laws), the second a function,
    which is also an instance of the first. *)

Record strict_weak {A} (lt : A → A → bool) : Prop := {
  sw_asym a b : lt a b = true → lt b a = false;
  sw_negtrans a b c : lt b a = false → lt c b = false → lt c a = false
}.

Definition sorted_by {A} (lt : A → A → bool) : list A → Prop :=
  StronglySorted (λ a b, lt b a = false).

Class StdSort := {
  std_sort {A} : (A → A → bool) → list A → list A;
  std_sort_perm {A} (lt : A → A → bool) l :
    strict_weak lt → std_sort lt l ≡ₚ l;
  std_sort_sorted {A} (lt : A → A → bool) l :
    strict_weak lt → sorted_by lt (std_sort lt l)
}.

Fixpoint stable_insert {A} (lt : A → A → bool) (x : A) (l : list A) : list A :=
  match l with
  | [] => [x]
  | y :: l' => if lt y x then y :: stable_insert lt x l' else x :: l
  end.

Definition stable_sort {A} (lt : A → A → bool) (l : list A) : list A :=
  foldr (stable_insert lt) [] l.

Lemma stable_insert_perm {A} (lt : A → A → bool) x l :
  stable_insert lt x l ≡ₚ x :: l.
Proof.
  induction l as [|y l IH]; simpl; [done|].
  destruct (lt y x); [|done]. rewrite IH. constructor.
Qed.

Lemma stable_sort_perm {A} (lt : A → A → bool) l : stable_sort lt l ≡ₚ l.
Proof.
  induction l as [|x l IH]; simpl; [done|].
  by rewrite stable_insert_perm, IH.
Qed.

Lemma stable_insert_sorted {A} (lt : A → A → bool) x l :
  strict_weak lt → sorted_by lt l → sorted_by lt (stable_insert lt x l).
Proof.
  intros Hsw Hl. induction Hl as [|y l Hl IH Hy]; simpl.
  - repeat constructor.
  - destruct (lt y x) eqn:Hyx.
    + constructor; [done|]. rewrite stable_insert_perm. constructor; [|done].
      by apply (sw_asym _ Hsw).
    + constructor; [by constructor|]. constructor; [done|].
      eapply Forall_impl; [done|]. intros z Hz. by eapply (sw_negtrans _ Hsw).
Qed.

Lemma stable_sort_sorted {A} (lt : A → A → bool) l :
  strict_weak lt → sorted_by lt (stable_sort lt l).
Proof.
  intros Hsw. induction l as [|x l IH]; simpl; [constructor|].
  by apply stable_insert_sorted.
Qed.

#[export] Instance stable_std_sort : StdSort := {|
  std_sort := @stable_sort;
  std_sort_perm A lt l _ := stable_sort_perm lt l;
  std_sort_sorted A lt l H := stable_sort_sorted lt l H
|}.

#[export] Hint Resolve stable_sort_sorted std_sort_sorted : litert.

(** Searching a sorted vector: from [std::lower_bound] to the end. *)
Fixpoint lower_bound {A} (lt : A → A → bool) (l : list A) (x : A) : list A :=
  match l with
  | [] => []
  | y :: l' => if lt y x then lower_bound lt l' x else l
  end.

Fixpoint take_while {A} (p : A → bool) (l : list A) : list A :=
  match l with
  | [] => []
  | x :: l' => if p x then x :: take_while p l' else []
  end.

(** Comparing by an integer key is a strict weak order. *)
Lemma strict_weak_key {A} (key : A → Z) : strict_weak (λ a b, key a <? key b).
Proof. split; intros *; rewrite ?Z.ltb_lt, ?Z.ltb_ge; lia. Qed.

Lemma strict_weak_key_gt {A} (key : A → Z) : strict_weak (λ a b, key b <? key a).
Proof. split; intros *; rewrite ?Z.ltb_lt, ?Z.ltb_ge; lia. Qed.
#[export] Hint Resolve strict_weak_key strict_weak_key_gt : litert.

(** ** Intervals

    Task intervals are closed, memory ranges are half open. *)

Definition tasks_overlap (first1 last1 first2 last2 : Z) : Prop :=
  first1 ≤ last2 ∧ first2 ≤ last1.

Definition ranges_disjoint (off1 size1 off2 size2 : Z) : Prop :=
  off1 + size1 ≤ off2 ∨ off2 + size2 ≤ off1.

#[export] Instance tasks_overlap_dec f1 l1 f2 l2 : Decision (tasks_overlap f1 l1 f2 l2).
Proof. unfold tasks_overlap. apply _. Defined.

#[export] Instance ranges_disjoint_dec o1 s1 o2 s2 : Decision (ranges_disjoint o1 s1 o2 s2).
Proof. unfold ranges_disjoint. apply _. Defined.

Lemma tasks_overlap_sym f1 l1 f2 l2 :
  tasks_overlap f1 l1 f2 l2 → tasks_overlap f2 l2 f1 l1.
Proof. unfold tasks_overlap. tauto. Qed.

Lemma ranges_disjoint_sym o1 s1 o2 s2 :
  ranges_disjoint o1 s1 o2 s2 → ranges_disjoint o2 s2 o1 s1.
Proof. unfold ranges_disjoint. tauto. Qed.
#[export] Hint Resolve tasks_overlap_sym ranges_disjoint_sym : litert.

(** ** Vectors indexed by machine integers *)

Abbreviation zlen l := (Z.of_nat (length l)).

(** [l[i]], [None] where the C++ index is out of range. *)
Definition zget {A} (l : list A) (i : Z) : option A :=
  if 0 <=? i then l !! Z.to_nat i else None.

(** [l[i] = x] for an index in range. *)
Definition zset {A} (i : Z) (x : A) (l : list A) : list A := <[Z.to_nat i := x]> l.

(** The loop variable of [for (int i = first; i < last; ++i)]. *)
Definition range (first last : Z) : list Z := seqZ first (last - first).

Lemma zget_Some {A} (l : list A) i x :
  zget l i = Some x ↔ 0 ≤ i ∧ l !! Z.to_nat i = Some x.
Proof.
  unfold zget. destruct (Z.leb_spec 0 i); [tauto|].
  split; [done|]. intros [? _]. lia.
Qed.

Lemma zget_is_Some {A} (l : list A) i : 0 ≤ i < zlen l → ∃ x, zget l i = Some x.
Proof.
  intros Hi. destruct (lookup_lt_is_Some_2 l (Z.to_nat i)) as [x Hx]; [lia|].
  exists x. rewrite zget_Some. split; [lia|done].
Qed.

Lemma zget_range {A} (l : list A) i x : zget l i = Some x → 0 ≤ i < zlen l.
Proof. rewrite zget_Some. intros [? H%lookup_lt_Some]. lia. Qed.

Lemma zget_elem {A} (l : list A) i x : zget l i = Some x → x ∈ l.
Proof. rewrite zget_Some. intros [_ H]. by eapply list_elem_of_lookup_2. Qed.

Lemma zget_fmap {A B} (f : A → B) (v : list A) i : zget (f <$> v) i = f <$> zget v i.
Proof. unfold zget. destruct (0 <=? i); [apply list_lookup_fmap|done]. Qed.


Lemma zset_same {A} (l : list A) i x : zget l i = Some x → zset i x l = l.
Proof. intros [_ Hi]%zget_Some. by apply list_insert_id. Qed.

Lemma zset_twice {A} i (x y : A) l : zset i x (zset i y l) = zset i x l.
Proof. apply list_insert_insert_eq. Qed.

Lemma zset_length {A} i (x : A) l : length (zset i x l) = length l.
Proof. apply length_insert. Qed.

Lemma zget_zset_eq {A} (l : list A) i x : 0 ≤ i < zlen l → zget (zset i x l) i = Some x.
Proof.
  intros Hi. apply zget_Some. split; [lia|]. apply list_lookup_insert_eq. lia.
Qed.

Lemma zget_zset_ne {A} (l : list A) i j x :
  0 ≤ i → i ≠ j → zget (zset i x l) j = zget l j.
Proof.
  intros Hi Hij. unfold zget, zset. destruct (Z.leb_spec 0 j); [|done].
  apply list_lookup_insert_ne. lia.
Qed.

Lemma elem_of_range first last i : i ∈ range first last ↔ first ≤ i < last.
Proof. unfold range. rewrite elem_of_seqZ. lia. Qed.

#[export] Hint Rewrite @zset_length : litert.
#[export] Hint Resolve zget_range zget_elem : litert.

(** ** Vectors of a state

    [field] projects the vector out of the state, [set_field] puts it back. *)

Definition vget {S A} (field : S → list A) (i : Z) : M S A :=
  l ← gets field; deref (zget l i).

Definition vset {S A} (field : S → list A) (set_field : list A → S → S) (i : Z) (x : A) :
    M S unit :=
  l ← gets field; _ ← deref (zget l i); modify (set_field (zset i x l)).

(** A vector with a default outside its range. *)

Definition vat {A} (d : A) (l : list A) (i : Z) : A := default d (zget l i).

Lemma vat_zget {A} (d : A) l i : 0 ≤ i < zlen l → zget l i = Some (vat d l i).
Proof. intros Hi. unfold vat. destruct (zget_is_Some l i Hi) as [x ->]. done. Qed.

Lemma vat_range {A} (d : A) l : (λ i, vat d l i) <$> range 0 (zlen l) = l.
Proof.
  apply list_eq. intros i. rewrite list_lookup_fmap. unfold range.
  destruct (decide (i < length l)%nat) as [Hi|Hi].
  - rewrite (proj2 (lookup_seqZ _ _ _ (Z.of_nat i))) by lia. simpl. unfold vat, zget.
    rewrite (proj2 (Z.leb_le 0 _)), Nat2Z.id by lia.
    by destruct (lookup_lt_is_Some_2 l i Hi) as [x ->].
  - rewrite !(proj2 (lookup_ge_None _ _)); [done|lia|rewrite length_seqZ; lia].
Qed.

Lemma vat_zset_eq {A} (d : A) l i x : 0 ≤ i < zlen l → vat d (zset i x l) i = x.
Proof. intros Hi. unfold vat. by rewrite zget_zset_eq. Qed.

Lemma vat_zset_ne {A} (d : A) l i j x : 0 ≤ i → i ≠ j → vat d (zset i x l) j = vat d l j.
Proof. intros Hi Hij. unfold vat. by rewrite zget_zset_ne. Qed.

Lemma vat_replicate {A} (d : A) n i : vat d (replicate n d) i = d.
Proof.
  unfold vat, zget. case_match; [|done].
  destruct (replicate n d !! Z.to_nat i) eqn:Hl; [|done]. simpl.
  by apply lookup_replicate in Hl as [-> _].
Qed.

Lemma wp_vget {S A} (field : S → list A) d i Q E s :
  0 ≤ i < zlen (field s) → Q (vat d (field s) i) s → wp (vget field i) Q E s.
Proof.
  intros Hi HQ. unfold vget. wp_steps. eapply wp_deref; [|done]. by apply vat_zget.
Qed.

Lemma wp_vset {S A} (field : S → list A) set_field i x Q E s :
  0 ≤ i < zlen (field s) → Q () (set_field (zset i x (field s)) s) →
  wp (vset field set_field i x) Q E s.
Proof.
  intros Hi HQ. unfold vset. wp_steps. destruct (zget_is_Some (field s) i Hi) as [y Hy].
  eapply wp_deref; [done|]. by wp_steps.
Qed.

Lemma lookup_split {A} (done : list A) x todo : (done ++ x :: todo) !! length done = Some x.
Proof. by rewrite lookup_app_r, Nat.sub_diag. Qed.

Lemma range_split n done i todo : range 0 n = done ++ i :: todo → i = zlen done ∧ i < n.
Proof.
  intros Hl. assert (range 0 n !! length done = Some i) as Hk by (rewrite Hl; apply lookup_split).
  unfold range in Hk. apply lookup_seqZ in Hk. lia.
Qed.

Lemma range_length a b : length (range a b) = Z.to_nat (b - a).
Proof. unfold range. apply length_seqZ. Qed.


Lemma range_cons a b : a < b → range a b = a :: range (a + 1) b.
Proof.
  intros Hab. unfold range. rewrite seqZ_cons by lia.
  replace (Z.succ a) with (a + 1) by lia. replace (Z.pred (b - a)) with (b - (a + 1)) by lia. done.
Qed.

Lemma range_nil a b : b ≤ a → range a b = [].
Proof. intros Hab. unfold range. apply seqZ_nil. lia. Qed.

Lemma range_snoc a b : a ≤ b → range a (b + 1) = range a b ++ [b].
Proof.
  intros Hab. unfold range. replace (b + 1 - a) with ((b - a) + 1) by lia.
  rewrite seqZ_app by lia. replace (a + (b - a)) with b by lia.
  done.
Qed.

Lemma range_app a b c : a ≤ b → b ≤ c → range a c = range a b ++ range b c.
Proof.
  intros Hab Hbc. unfold range. replace (c - a) with ((b - a) + (c - b)) by lia.
  rewrite seqZ_app by lia. by replace (a + (b - a)) with b by lia.
Qed.

Lemma range_lt a b : StronglySorted Z.lt (range a b).
Proof.
  destruct (decide (a ≤ b)) as [Hab|Hab]; [|rewrite range_nil by lia; constructor].
  apply (Zlt_lower_bound_ind (λ b, StronglySorted Z.lt (range a b)) a); [|done].
  intros b' IH Hb. destruct (decide (a = b')) as [->|Hne]; [rewrite range_nil by lia; constructor|].
  replace b' with (b' - 1 + 1) by lia. rewrite range_snoc by lia. apply StronglySorted_app. split_and!.
  - intros x y Hx%elem_of_range ->%list_elem_of_singleton. lia.
  - apply IH; lia.
  - repeat constructor.
Qed.


(** Membership in lists given by [++] and [::]. *)
Ltac in_list :=
  repeat first [rewrite elem_of_app | rewrite elem_of_cons | rewrite elem_of_nil]; tauto.

Lemma forall_snoc {A} (P : A → Prop) (l : list A) x :
  (∀ y, y ∈ l ++ [x] → P y) ↔ (∀ y, y ∈ l → P y) ∧ P x.
Proof. by rewrite <- !Forall_forall, Forall_app, Forall_singleton. Qed.

Lemma concat_elem {A} (ls : list (list A)) x : x ∈ concat ls ↔ ∃ l, l ∈ ls ∧ x ∈ l.
Proof. rewrite list_elem_of_In, in_concat. setoid_rewrite list_elem_of_In. done. Qed.

(** ** Filtering *)

Lemma filter_none {A} (P : A → Prop) `{∀ x, Decision (P x)} (l : list A) : (∀ x, x ∈ l → ¬ P x) → filter P l = [].
Proof.
  induction l as [|x l IH]; intros Hn; [done|]. rewrite filter_cons, decide_False by (apply Hn; by left).
  apply IH. intros y ?. apply Hn. by right.
Qed.

Lemma filter_all {A} (P : A → Prop) `{∀ x, Decision (P x)} (l : list A) : (∀ x, x ∈ l → P x) → filter P l = l.
Proof.
  induction l as [|x l IH]; intros Hn; [done|]. rewrite filter_cons, decide_True by (apply Hn; by left).
  f_equal. apply IH. intros y ?. apply Hn. by right.
Qed.

Lemma filter_in {A} (P Q : A → Prop) `{∀ x, Decision (P x), ∀ x, Decision (Q x)} (l : list A) :
  (∀ x, x ∈ l → P x ↔ Q x) → filter P l = filter Q l.
Proof.
  induction l as [|x l IH]; intros Hl; [done|]. rewrite !filter_cons, IH by (intros y Hy; apply Hl; by right).
  apply decide_ext, Hl. by left.
Qed.

(** ** Pairwise relations on lists *)

Lemma pairwise_perm {A} (R : relation A) `{!Symmetric R} l k :
  l ≡ₚ k → StronglySorted R l → StronglySorted R k.
Proof.
  induction 1 as [|x l k Hp IH|x y l|l k j _ IH1 _ IH2]; intros Hs; auto.
  - inversion Hs; subst. constructor; [auto|]. by rewrite <- Hp.
  - inversion Hs as [|? ? Hs' Hy]; subst. inversion Hs' as [|? ? Hl Hx]; subst.
    apply Forall_cons in Hy as [Hyx Hy].
    repeat (constructor; auto).
Qed.

Lemma StronglySorted_filter {A} (R : relation A) (P : A → Prop) `{∀ x, Decision (P x)} l :
  StronglySorted R l → StronglySorted R (filter P l).
Proof.
  induction 1 as [|x l _ IH Hx]; [constructor|].
  rewrite filter_cons. destruct (decide (P x)); [|done].
  constructor; [done|]. rewrite Forall_forall in *.
  intros y [_ Hy]%list_elem_of_filter. auto.
Qed.

Lemma StronglySorted_fmap {A B} (R : relation A) (R' : relation B) (g : A → B) l :
  (∀ x y, R x y → R' (g x) (g y)) → StronglySorted R l → StronglySorted R' (g <$> l).
Proof.
  intros Hg. induction 1 as [|x l _ IH Hx]; [constructor|].
  simpl. constructor; [done|]. apply Forall_fmap. eapply Forall_impl; [done|]. auto.
Qed.

Lemma StronglySorted_lookup {A} (R : relation A) l i j x y :
  StronglySorted R l → (i < j)%nat → l !! i = Some x → l !! j = Some y → R x y.
Proof.
  intros Hs. revert i j. induction Hs as [|z l _ IH Hz]; intros [|i] [|j] Hij Hi Hj;
    simplify_eq/=; try lia.
  - rewrite Forall_lookup in Hz. eauto.
  - eapply (IH i j); eauto. lia.
Qed.

Lemma StronglySorted_sublist {A} (R : relation A) l k : l `sublist_of` k → StronglySorted R k → StronglySorted R l.
Proof.
  induction 1 as [|x l k Hlk IH|x l k Hlk IH]; intros Hs; [constructor| |].
  - inversion Hs as [|? ? Hs' Hx]; subst. constructor; [auto|]. rewrite Forall_forall in *.
    intros y Hy. apply Hx. by eapply elem_of_sublist.
  - inversion Hs; auto.
Qed.

Lemma StronglySorted_in {A} (R R' : relation A) l :
  (∀ x y, x ∈ l → y ∈ l → R x y → R' x y) → StronglySorted R l → StronglySorted R' l.
Proof.
  intros Himpl Hs. induction Hs as [|x l Hs IH Hf]; constructor.
  - apply IH. intros y z Hy Hz. apply Himpl; by right.
  - rewrite Forall_forall in *. intros y Hy. apply Himpl; [by left|by right|by apply Hf].
Qed.

Lemma StronglySorted_all {A} (R : relation A) l : (∀ x y, x ∈ l → y ∈ l → R x y) → StronglySorted R l.
Proof.
  induction l as [|x l IH]; intros Hall; constructor.
  - apply IH. intros y z Hy Hz. apply Hall; by right.
  - apply Forall_forall. intros y Hy. apply Hall; [by left|by right].
Qed.

(** ** Sums *)

Definition total (l : list Z) : Z := foldr Z.add 0 l.

Lemma total_cons x l : total (x :: l) = x + total l.
Proof. done. Qed.

Lemma total_app l k : total (l ++ k) = total l + total k.
Proof. induction l as [|x l IH]; simpl; [done|]. rewrite IH. lia. Qed.

Lemma total_nonneg l : (∀ x, x ∈ l → 0 ≤ x) → 0 ≤ total l.
Proof.
  induction l as [|x l IH]; intros Hl; simpl; [lia|].
  assert (0 ≤ x) by (apply Hl; by left).
  assert (0 ≤ total l) by (apply IH; intros y ?; apply Hl; by right). lia.
Qed.

#[export] Instance total_proper : Proper ((≡ₚ) ==> (=)) total.
Proof. induction 1; simpl; lia. Qed.

(** A part of the summands. *)
Lemma total_submseteq l k : (∀ x, x ∈ k → 0 ≤ x) → l ⊆+ k → total l ≤ total k.
Proof.
  intros Hk (r & Hp)%submseteq_Permutation. rewrite Hp, total_app.
  assert (0 ≤ total r); [|lia]. apply total_nonneg. intros x ?. apply Hk. rewrite Hp. in_list.
Qed.

Lemma total_insert l i x y : l !! i = Some x → total (<[i := y]> l) = total l - x + y.
Proof.
  revert i. induction l as [|z l IH]; intros [|i] Hi; simplify_eq/=; [lia|]. rewrite (IH i Hi). lia.
Qed.

(** Sums of a function. *)
Lemma total_ext {A} (f g : A → Z) l : (∀ x, x ∈ l → f x = g x) → total (f <$> l) = total (g <$> l).
Proof. intros Hfg. f_equal. apply list_fmap_ext. intros i x Hx. apply Hfg. by eapply list_elem_of_lookup_2. Qed.

Lemma total_fmap_zero {A} (f : A → Z) l : (∀ x, x ∈ l → f x = 0) → total (f <$> l) = 0.
Proof.
  induction l as [|x l IH]; intros Hf; [done|]. rewrite fmap_cons, total_cons, (Hf x) by (by left).
  rewrite IH; [done|]. intros y Hy. apply Hf. by right.
Qed.

Lemma total_sum {A} (f g : A → Z) l : total ((λ x, f x + g x) <$> l) = total (f <$> l) + total (g <$> l).
Proof. induction l as [|x l IH]; [done|]. rewrite !fmap_cons, !total_cons, IH. lia. Qed.

Lemma total_change {A} (f g : A → Z) l x : NoDup l → x ∈ l → (∀ y, y ≠ x → f y = g y) →
  total (f <$> l) = total (g <$> l) - g x + f x.
Proof.
  intros Hnd Hx Hfg. induction Hnd as [|y l Hy Hnd IH]; [by apply elem_of_nil in Hx|]. rewrite !fmap_cons, !total_cons.
  apply elem_of_cons in Hx as [->|Hx].
  - rewrite (total_ext f g l); [lia|]. intros z Hz. apply Hfg. by intros ->.
  - rewrite IH by done. rewrite Hfg by (by intros ->). lia.
Qed.

(** A function that is zero outside a part of the list. *)
Lemma total_part (f : Z → Z) l k : NoDup l → NoDup k → (∀ x, x ∈ k → x ∈ l) → (∀ x, x ∈ l → (x ∉ k) → f x = 0) →
  total (f <$> l) = total (f <$> k).
Proof.
  intros Hl Hk Hkl Hf. destruct (submseteq_Permutation k l) as [r Hr]; [by apply NoDup_submseteq|].
  rewrite Hr, fmap_app, total_app. rewrite (total_fmap_zero f r); [lia|]. intros x Hx.
  rewrite Hr in Hl. apply NoDup_app in Hl as (_ & Hd & _). apply Hf; [rewrite Hr; in_list|].
  intros Hxk. by apply (Hd x).
Qed.

(** How many elements satisfy a test. *)
Definition count {A} (f : A → bool) (l : list A) : Z := total ((λ x, if f x then 1 else 0) <$> l).

Lemma count_app {A} (f : A → bool) l k : count f (l ++ k) = count f l + count f k.
Proof. unfold count. by rewrite fmap_app, total_app. Qed.

Lemma count_cons {A} (f : A → bool) x l : count f (x :: l) = (if f x then 1 else 0) + count f l.
Proof. done. Qed.

Lemma count_fmap {A B} (f : B → bool) (h : A → B) l : count f (h <$> l) = count (f ∘ h) l.
Proof. unfold count. by rewrite <- list_fmap_compose. Qed.

Lemma count_none {A} (f : A → bool) l : (∀ x, x ∈ l → f x = false) → count f l = 0.
Proof.
  induction l as [|x l IH]; intros Hl; [done|]. rewrite count_cons, Hl, IH; [done| |by left].
  intros y Hy. apply Hl. by right.
Qed.

Lemma count_bound {A} (f : A → bool) l : 0 ≤ count f l ≤ zlen l.
Proof. induction l as [|x l IH]; [done|]. rewrite count_cons. cbn [length]. destruct (f x); lia. Qed.

Lemma count_le {A} (f g : A → bool) l : (∀ x, x ∈ l → f x = true → g x = true) → count f l ≤ count g l.
Proof.
  induction l as [|x l IH]; intros Hfg; [done|]. rewrite !count_cons.
  assert (count f l ≤ count g l) by (apply IH; intros y Hy; apply Hfg; by right).
  destruct (f x) eqn:Hf; [rewrite (Hfg x); [lia|by left|done]|destruct (g x); lia].
Qed.

Lemma count_pos {A} (f : A → bool) l x : x ∈ l → f x = true → 0 < count f l.
Proof.
  intros (l1 & l2 & ->)%list_elem_of_split Hf. rewrite count_app, count_cons, Hf.
  pose proof (count_bound f l1). pose proof (count_bound f l2). lia.
Qed.

Lemma count_unique {A} (f : A → bool) l i j x y : count f l ≤ 1 →
  l !! i = Some x → l !! j = Some y → f x = true → f y = true → i = j.
Proof.
  intros Hc Hi Hj Hx Hy. destruct (decide (i = j)) as [|Hne]; [done|exfalso].
  assert (∀ i j x y, (i < j)%nat → l !! i = Some x → l !! j = Some y → f x = true → f y = true → False) as H.
  { clear i j x y Hi Hj Hx Hy Hne. intros i j x y Hij Hi Hj Hx Hy.
    rewrite <- (take_drop_middle l i x Hi), count_app, count_cons, Hx in Hc.
    pose proof (count_bound f (take i l)).
    assert (0 < count f (drop (S i) l)); [|lia]. apply (count_pos _ _ y); [|done].
    apply list_elem_of_lookup. exists (j - S i)%nat. rewrite lookup_drop. by replace (S i + (j - S i))%nat with j by lia. }
  destruct (decide (i < j)%nat); [by eapply (H i j)|]. eapply (H j i); eauto. lia.
Qed.

(** *** Accesses with a known element *)

Lemma wp_vget_Some {S A} (field : S → list A) i x Q E s :
  zget (field s) i = Some x → Q x s → wp (vget field i) Q E s.
Proof. intros Hx HQ. unfold vget. apply wp_bind, wp_gets. by eapply wp_deref. Qed.

Lemma wp_vset_Some {S A} (field : S → list A) set_field i x y Q E s :
  zget (field s) i = Some y → Q () (set_field (zset i x (field s)) s) →
  wp (vset field set_field i x) Q E s.
Proof. intros Hy HQ. apply wp_vset; [by eapply zget_range|done]. Qed.

(** ** Signed arithmetic and local vectors *)

Definition int64_max : Z := 2 ^ 63 - 1.
Definition int64_min : Z := - 2 ^ 63.

(** The result of a signed operation. *)
Definition int32 {S} (z : Z) : M S Z :=
  if decide (int32_min ≤ z ≤ int32_max) then mret z else undefined.
Definition int64 {S} (z : Z) : M S Z :=
  if decide (int64_min ≤ z ≤ int64_max) then mret z else undefined.

(** [/] and [%]; the quotient of the least integer by [-1] does not exist. *)
Definition div32 {S} (a b : Z) : M S Z := if b =? 0 then undefined else int32 (Z.quot a b).
Definition rem32 {S} (a b : Z) : M S Z :=
  if b =? 0 then undefined else _ ← int32 (Z.quot a b); mret (Z.rem a b).
Definition div64 {S} (a b : Z) : M S Z := if b =? 0 then undefined else int64 (Z.quot a b).
Definition rem64 {S} (a b : Z) : M S Z :=
  if b =? 0 then undefined else _ ← int64 (Z.quot a b); mret (Z.rem a b).

(** Reading and writing a local vector. *)
Definition at_ {S A} (l : list A) (i : Z) : M S A := deref (zget l i).
Definition upd {S A} (l : list A) (i : Z) (x : A) : M S (list A) :=
  _ ← deref (zget l i); mret (zset i x l).

Fixpoint map_m {S A B} (f : A → M S B) (l : list A) : M S (list B) :=
  match l with
  | [] => mret []
  | x :: l' => y ← f x; ys ← map_m f l'; mret (y :: ys)
  end.

Section rules.
Context {S : Type}.
Implicit Types (s : S) (E : S → Prop).

Lemma wp_at {A} (l : list A) i x (Q : A → S → Prop) E s :
  zget l i = Some x → Q x s → wp (at_ l i) Q E s.
Proof. intros Hi HQ. unfold at_. by eapply wp_deref. Qed.

Lemma wp_upd {A} (l : list A) i x (Q : list A → S → Prop) E s :
  0 ≤ i < zlen l → Q (zset i x l) s → wp (upd l i x) Q E s.
Proof.
  intros Hi HQ. unfold upd. wp_steps. destruct (zget_is_Some l i Hi) as [y Hy].
  eapply wp_deref; [exact Hy|]. by wp_steps.
Qed.

Lemma wp_int32 z (Q : Z → S → Prop) E s : is_int32 z → Q z s → wp (int32 z) Q E s.
Proof. intros Hz HQ. unfold int32. by rewrite decide_True. Qed.

Lemma wp_int64 z (Q : Z → S → Prop) E s :
  int64_min ≤ z ≤ int64_max → Q z s → wp (int64 z) Q E s.
Proof. intros Hz HQ. unfold int64. by rewrite decide_True. Qed.

Lemma wp_div32 a b (Q : Z → S → Prop) E s :
  b ≠ 0 → is_int32 (Z.quot a b) → Q (Z.quot a b) s → wp (div32 a b) Q E s.
Proof.
  intros Hb Hq HQ. unfold div32. rewrite (proj2 (Z.eqb_neq b 0)) by done. by apply wp_int32.
Qed.

Lemma wp_rem32 a b (Q : Z → S → Prop) E s :
  b ≠ 0 → is_int32 (Z.quot a b) → Q (Z.rem a b) s → wp (rem32 a b) Q E s.
Proof.
  intros Hb Hq HQ. unfold rem32. rewrite (proj2 (Z.eqb_neq b 0)) by done. wp_steps.
  apply wp_int32; [done|]. by wp_steps.
Qed.

(** A loop whose body only computes. *)
Lemma wp_fold_pure {A B} (l : list A) (b : B) (body : B → A → M S B) (I : list A → B → Prop)
    (Q : B → S → Prop) E s :
  I [] b →
  (∀ done x todo b', l = done ++ x :: todo → I done b' →
     wp (body b' x) (λ b'' s', s' = s ∧ I (done ++ [x]) b'') E s) →
  (∀ b', I l b' → Q b' s) →
  wp (fold_m l b body) Q E s.
Proof.
  intros H0 Hstep HQ. eapply wp_mono; [apply (wp_fold_m (λ done b' s', s' = s ∧ I done b') E)| |done].
  - done.
  - intros done x todo b' s' Hl [-> HI]. by apply Hstep with todo.
  - simpl. intros b' s' [-> HI]. by apply HQ.
Qed.

Lemma wp_map_m {A B} (f : A → M S B) (g : A → B) l (Q : list B → S → Prop) E s :
  (∀ x, x ∈ l → f x s = Done (g x) s) → Q (g <$> l) s → wp (map_m f l) Q E s.
Proof.
  revert Q. induction l as [|x l IH]; intros Q Hf HQ; simpl; wp_steps; [done|].
  unfold wp at 1. rewrite (Hf x) by (by left). apply wp_bind. apply IH.
  - intros y Hy. apply Hf. by right.
  - by wp_steps.
Qed.
End rules.

(** ** Products of sizes *)

Definition volume (s : list Z) : Z := foldr Z.mul 1 s.

Lemma volume_app l k : volume (l ++ k) = volume l * volume k.
Proof. unfold volume. induction l as [|x l IH]; simpl; [lia|]. rewrite IH. lia. Qed.

Lemma volume_pos s : Forall (λ d, 0 < d) s → 0 < volume s.
Proof. unfold volume. induction 1; simpl; [lia|nia]. Qed.
