(* ===== verification/PackedInts.v ===== *)
(** * Integers of two and four bits ([src/tflite/kernels/internal/portable_tensor_utils.cc])

    Packing and unpacking of tensors whose elements are smaller than a byte. A
    buffer of [int8_t] is a list of integers; the destination is the state. *)

From S2P Require Import Prelude.

Definition i8 (z : Z) : Z := (z + 2 ^ 7) mod 2 ^ 8 - 2 ^ 7.

(** [dst_buffer[i] = x]. *)
Definition store {A} (i : Z) (x : A) : M (list A) unit := vset (λ l, l) (λ l _, l) i x.

(** ** Unpacking *)

Definition UnpackDenseInt4IntoInt8 (src_buffer : list Z) (num_elements : Z) : M (list Z) unit :=
  for_each (range 0 (Z.quot num_elements 2)) (λ i,
    byte ← at_ src_buffer i;
    store (2 * i) (Z.shiftr (i8 (Z.shiftl byte 4)) 4);;
    store (2 * i + 1) (Z.shiftr byte 4));;
  if negb (Z.rem num_elements 2 =? 0) then
    byte ← at_ src_buffer (Z.quot num_elements 2);
    store (num_elements - 1) (Z.shiftr (i8 (Z.shiftl byte 4)) 4)
  else mret tt.

Definition unpack4 (src_buffer : list Z) (num_elements : Z) (unpack_unsigned : bool) : M (list Z) unit :=
  for_each (range 0 (Z.quot num_elements 2)) (λ i,
    byte ← at_ src_buffer i;
    let '(lower, higher) :=
      if unpack_unsigned then (Z.land byte 15, Z.land (Z.shiftr byte 4) 15)
      else (Z.shiftr (i8 (Z.shiftl byte 4)) 4, Z.shiftr byte 4) in
    store (2 * i) lower;;
    store (2 * i + 1) higher);;
  if negb (Z.rem num_elements 2 =? 0) then
    byte ← at_ src_buffer (Z.quot num_elements 2);
    store (num_elements - 1) (if unpack_unsigned then Z.land byte 15 else Z.shiftr (i8 (Z.shiftl byte 4)) 4)
  else mret tt.

Definition unpack2 (src_buffer : list Z) (num_elements : Z) (unpack_unsigned : bool) : M (list Z) unit :=
  for_each (range 0 (Z.quot num_elements 4)) (λ i,
    byte ← at_ src_buffer i;
    if unpack_unsigned then
      store (4 * i) (Z.land byte 3);;
      store (4 * i + 1) (Z.land (Z.shiftr byte 2) 3);;
      store (4 * i + 2) (Z.land (Z.shiftr byte 4) 3);;
      store (4 * i + 3) (Z.land (Z.shiftr byte 6) 3)
    else
      store (4 * i) (Z.shiftr (i8 (Z.shiftl byte 6)) 6);;
      store (4 * i + 1) (Z.shiftr (i8 (Z.land (Z.shiftl byte 4) 255)) 6);;
      store (4 * i + 2) (Z.shiftr (i8 (Z.land (Z.shiftl byte 2) 255)) 6);;
      store (4 * i + 3) (Z.shiftr byte 6));;
  let remaining_elements := Z.rem num_elements 4 in
  if 0 <? remaining_elements then
    byte ← at_ src_buffer (Z.quot num_elements 4);
    for_each (range 0 remaining_elements) (λ i,
      store (num_elements - remaining_elements + i)
        (if unpack_unsigned then Z.land (Z.shiftr byte (2 * i)) 3
         else Z.shiftr (i8 (Z.land (Z.shiftl byte (6 - 2 * i)) 255)) 6))
  else mret tt.

Definition UnpackPackedIntToInt8 (src_buffer : list Z) (num_elements bit_width : Z) (unpack_unsigned : bool) : M (list Z) unit :=
  if bit_width =? 4 then unpack4 src_buffer num_elements unpack_unsigned
  else if bit_width =? 2 then unpack2 src_buffer num_elements unpack_unsigned
  else mret tt.

(** ** Packing *)

Definition pack4 (src_buffer : list Z) (num_elements : Z) : M (list Z) unit :=
  for_each (range 0 (Z.quot num_elements 2)) (λ i,
    lower ← at_ src_buffer (2 * i);
    higher ← at_ src_buffer (2 * i + 1);
    store i (i8 (Z.lor (Z.land lower 15) (Z.shiftl higher 4))));;
  if negb (Z.rem num_elements 2 =? 0) then
    last ← at_ src_buffer (num_elements - 1);
    store (Z.quot num_elements 2) (i8 (Z.land last 15))
  else mret tt.

Definition pack2 (src_buffer : list Z) (num_elements : Z) : M (list Z) unit :=
  for_each (range 0 (Z.quot num_elements 4)) (λ i,
    val1 ← at_ src_buffer (4 * i);
    val2 ← at_ src_buffer (4 * i + 1);
    val3 ← at_ src_buffer (4 * i + 2);
    val4 ← at_ src_buffer (4 * i + 3);
    store i (i8 (Z.lor (Z.lor (Z.lor (Z.land val1 3) (Z.shiftl (Z.land val2 3) 2)) (Z.shiftl (Z.land val3 3) 4))
                       (Z.shiftl (Z.land val4 3) 6))));;
  let remaining_elements := Z.rem num_elements 4 in
  if 0 <? remaining_elements then
    packed_val ← fold_m (range 0 remaining_elements) 0 (λ packed_val i,
      x ← at_ src_buffer (num_elements - remaining_elements + i);
      mret (i8 (Z.lor packed_val (Z.shiftl (Z.land x 3) (i * 2)))));
    store (Z.quot num_elements 4) packed_val
  else mret tt.

Definition PackInt8IntoDenseInt (src_buffer : list Z) (num_elements bit_width : Z) : M (list Z) unit :=
  if bit_width =? 4 then pack4 src_buffer num_elements
  else if bit_width =? 2 then pack2 src_buffer num_elements
  else mret tt.
