(* ===== verification/PackedIntsProofs.v ===== *)
(** * Packing and unpacking small integers

    [UnpackPackedIntToInt8] reads the fields of every byte in order,
    [PackInt8IntoDenseInt] writes them, and the two are inverse to each other. *)

From S2P Require Import Prelude PackedInts.

(** ** Bits of a byte *)

Definition is_int8 (z : Z) : Prop := - 2 ^ 7 ≤ z < 2 ^ 7.

Lemma i8_range z : is_int8 (i8 z).
Proof. unfold is_int8, i8. pose proof (Z.mod_pos_bound (z + 2 ^ 7) (2 ^ 8)). lia. Qed.

Lemma i8_id z : is_int8 z → i8 z = z.
Proof. unfold is_int8, i8. intros. rewrite Z.mod_small; lia. Qed.

Lemma i8_mod z : i8 (Z.land z 255) = i8 z.
Proof.
  unfold i8. change 255 with (Z.ones 8). rewrite Z.land_ones by lia.
  rewrite <- (Z.add_mod_idemp_l z) by lia. done.
Qed.

Lemma lor_add a b n : 0 ≤ n → 0 ≤ a < 2 ^ n → Z.lor a (Z.shiftl b n) = a + 2 ^ n * b.
Proof.
  intros Hn Ha. assert (Z.land a (Z.shiftl b n) = 0) as Hd.
  { apply Z.bits_inj'. intros m Hm. rewrite Z.land_spec, Z.bits_0.
    destruct (Z.lt_ge_cases m n) as [Hlt|Hge]; [rewrite Z.shiftl_spec_low by done; apply andb_false_r|].
    rewrite <- (Z.mod_small a (2 ^ n)) by done. by rewrite Z.mod_pow2_bits_high by lia. }
  rewrite <- Z.lxor_lor, <- Z.add_nocarry_lxor by done. rewrite Z.shiftl_mul_pow2 by done. lia.
Qed.

Lemma land_mod z n : 0 ≤ n → Z.land z (Z.ones n) = z mod 2 ^ n.
Proof. apply Z.land_ones. Qed.

(** ** Fields

    A byte holds [per_byte] fields of [w] bits, the first one lowest. *)

Definition per_byte (w : Z) : Z := 8 / w.

Definition field (w : Z) (unpack_unsigned : bool) (byte k : Z) : Z :=
  if unpack_unsigned then Z.land (Z.shiftr byte (w * k)) (2 ^ w - 1)
  else Z.shiftr (i8 (Z.shiftl byte (8 - w - w * k))) (8 - w).

(** Element [e] of a packed buffer. *)
Definition unpacked (w : Z) (unpack_unsigned : bool) (src : list Z) (e : Z) : Z :=
  field w unpack_unsigned (vat 0 src (e / per_byte w)) (e mod per_byte w).

(** The fields that the elements of [src] from [i * per_byte w] on make up. *)
Definition digit (w : Z) (src : list Z) (n e : Z) : Z := if e <? n then vat 0 src e mod 2 ^ w else 0.
Definition packed (w : Z) (src : list Z) (n i : Z) : Z :=
  i8 (foldr (λ k acc, digit w src n (per_byte w * i + k) + 2 ^ w * acc) 0 (range 0 (per_byte w))).

(** The numbers of [w] bits. *)
Definition fits (w : Z) (unsigned : bool) (x : Z) : Prop :=
  if unsigned then 0 ≤ x < 2 ^ w else - 2 ^ (w - 1) ≤ x < 2 ^ (w - 1).

Lemma unpacked_at w b src i k : w = 2 ∨ w = 4 → 0 ≤ k < per_byte w →
  unpacked w b src (per_byte w * i + k) = field w b (vat 0 src i) k.
Proof.
  intros Hw Hk. unfold unpacked. assert (0 < per_byte w) by (destruct Hw as [-> | ->]; done).
  rewrite (Z.mul_comm (per_byte w)), Z.div_add_l, (Z.add_comm (i * _)), Z.mod_add, Z.mod_small, Z.div_small, Z.add_0_r by lia. done.
Qed.

Lemma fields_4 b y : is_int8 y →
  (if (b : bool) then (Z.land y 15, Z.land (Z.shiftr y 4) 15) else (Z.shiftr (i8 (Z.shiftl y 4)) 4, Z.shiftr y 4)) =
  (field 4 b y 0, field 4 b y 1).
Proof.
  intros Hy. destruct b; [done|]. change (field 4 false y 1) with (Z.shiftr (i8 y) 4). by rewrite (i8_id y).
Qed.

Lemma field_2 b y k : is_int8 y → 0 ≤ k < 4 →
  (if (b : bool) then Z.land (Z.shiftr y (2 * k)) 3 else Z.shiftr (i8 (Z.land (Z.shiftl y (6 - 2 * k)) 255)) 6) = field 2 b y k.
Proof. intros Hy Hk. unfold field. destruct b; [done|]. by rewrite i8_mod. Qed.

(** ** Buffers that are filled from the front *)

Definition filled (f : Z → Z) (m : Z) (d0 d : list Z) : Prop :=
  length d = length d0 ∧ (∀ e, 0 ≤ e < m → zget d e = Some (f e)) ∧ ∀ e, m ≤ e → zget d e = zget d0 e.

Lemma filled_0 f d0 : filled f 0 d0 d0.
Proof. split_and!; [done|lia|done]. Qed.

Lemma wp_store_next f m d0 d i x (Q : unit → list Z → Prop) E :
  filled f m d0 d → 0 ≤ m < zlen d0 → i = m → x = f m →
  (∀ d', filled f (m + 1) d0 d' → Q tt d') → wp (store i x) Q E d.
Proof.
  intros (Hl & Hf & Hr) Hm -> -> HQ. apply wp_vset; [lia|]. apply HQ. split_and!.
  - by rewrite zset_length.
  - intros e He. destruct (decide (e = m)) as [->|Hne]; [by rewrite zget_zset_eq by lia|].
    rewrite zget_zset_ne by lia. apply Hf. lia.
  - intros e He. rewrite zget_zset_ne by lia. apply Hr. lia.
Qed.

(** A loop that writes [g] elements each time. *)
Lemma wp_fill_loop f g q d0 d body (E : list Z → Prop) :
  0 ≤ g → 0 ≤ q → filled f 0 d0 d →
  (∀ i d', 0 ≤ i < q → filled f (g * i) d0 d' → wp (body i) (λ _ d'', filled f (g * (i + 1)) d0 d'') E d') →
  wp (for_each (range 0 q) body) (λ _ d', filled f (g * q) d0 d') E d.
Proof.
  intros Hg Hq H0 Hstep. eapply wp_post; [|apply (wp_for_each (λ done d', filled f (g * zlen done) d0 d'))].
  - intros ? d' Hd. simpl in Hd. rewrite range_length in Hd. by replace (g * q) with (g * Z.of_nat (Z.to_nat (q - 0))) by lia.
  - simpl. by rewrite Z.mul_0_r.
  - intros done i todo d' Hs Hd. destruct (range_split _ _ _ _ Hs) as [-> Hlt].
    eapply wp_post; [|by apply Hstep; [lia|]]. intros ? d'' Hd''. simpl in Hd''. rewrite length_app. simpl.
    by replace (Z.of_nat (length done + 1)) with (zlen done + 1) by lia.
Qed.

Lemma quot_rem n g : 0 ≤ n → 0 < g → Z.quot n g = n / g ∧ Z.rem n g = n mod g.
Proof. intros. split; [by apply Z.quot_div_nonneg|by apply Z.rem_mod_nonneg]. Qed.

(** ** Unpacking *)

Section unpacking.
Context (src : list Z) (n : Z) (b : bool) (dst : list Z).
Hypothesis bytes : Forall is_int8 src.
Hypothesis count : 0 ≤ n ≤ zlen dst.

Lemma byte_at i : 0 ≤ i < zlen src → zget src i = Some (vat 0 src i) ∧ is_int8 (vat 0 src i).
Proof.
  intros Hi. pose proof (vat_zget 0 src i Hi) as Hz. split; [done|]. rewrite Forall_forall in bytes.
  apply bytes. by eapply zget_elem.
Qed.

Lemma wp_unpack4 : n ≤ 2 * zlen src →
  wp (unpack4 src n b) (λ _ d, filled (unpacked 4 b src) n dst d) (λ _, False) dst.
Proof.
  intros Hn. destruct (quot_rem n 2) as [Hq Hr]; [lia..|]. pose proof (Z.div_mod n 2 ltac:(lia)) as Hdm.
  pose proof (Z.mod_pos_bound n 2 ltac:(lia)) as Hm. unfold unpack4. rewrite Hq, Hr. apply wp_bind.
  eapply wp_post; [|apply (wp_fill_loop (unpacked 4 b src) 2); [lia|lia|apply filled_0|]].
  - intros ? d Hd. destruct (Z.eqb_spec (n mod 2) 0) as [H0|H0]; simpl; [apply wp_ret; by replace n with (2 * (n / 2)) by lia|].
    apply wp_bind. eapply wp_at; [apply byte_at; lia|].
    eapply wp_store_next; [exact Hd|lia|lia| |]; [|intros d' Hd'; by replace n with (2 * (n / 2) + 1) by lia].
    replace (2 * (n / 2)) with (per_byte 4 * (n / 2) + 0) by (change (per_byte 4) with 2; lia).
    rewrite unpacked_at by (try tauto; done). by destruct b.
  - intros i d Hi Hd. destruct (byte_at i) as [Hb Hrange]; [lia|]. apply wp_bind. eapply wp_at; [done|].
    rewrite fields_4 by done. apply wp_bind.
    eapply wp_store_next; [exact Hd|lia|lia|by rewrite <- (unpacked_at 4 b src i 0), Z.add_0_r by (tauto || done)|].
    intros d' Hd'. eapply wp_store_next; [exact Hd'|lia|lia|by rewrite <- (unpacked_at 4 b src i 1) by (tauto || done)|].
    intros d'' Hd''. by replace (2 * (i + 1)) with (2 * i + 1 + 1) by lia.
Qed.

Lemma wp_unpack2 : n ≤ 4 * zlen src →
  wp (unpack2 src n b) (λ _ d, filled (unpacked 2 b src) n dst d) (λ _, False) dst.
Proof.
  intros Hn. destruct (quot_rem n 4) as [Hq Hr]; [lia..|]. pose proof (Z.div_mod n 4 ltac:(lia)) as Hdm.
  pose proof (Z.mod_pos_bound n 4 ltac:(lia)) as Hm. unfold unpack2. rewrite Hq, Hr. apply wp_bind.
  assert (∀ i k, 0 ≤ k < 4 → field 2 b (vat 0 src i) k = unpacked 2 b src (4 * i + k)) as Hf.
  { intros i k Hk. symmetry. by apply (unpacked_at 2 b src i k); [tauto|]. }
  eapply wp_post; [|apply (wp_fill_loop (unpacked 2 b src) 4); [lia|lia|apply filled_0|]].
  - intros ? d Hd. destruct (Z.ltb_spec 0 (n mod 4)) as [H0|H0]; [|apply wp_ret; by replace n with (4 * (n / 4)) by lia].
    apply wp_bind. destruct (byte_at (n / 4)) as [Hb Hrange]; [lia|]. eapply wp_at; [done|].
    eapply wp_post; [|apply (wp_for_each (λ done d', filled (unpacked 2 b src) (4 * (n / 4) + zlen done) dst d'))].
    + intros ? d' Hd'. simpl in Hd'. rewrite range_length in Hd'.
      by replace n with (4 * (n / 4) + Z.of_nat (Z.to_nat (n mod 4 - 0))) by lia.
    + simpl. by rewrite Z.add_0_r.
    + intros done k todo d' Hs Hd'. destruct (range_split _ _ _ _ Hs) as [-> Hlt].
      eapply wp_store_next; [exact Hd'|lia|lia|by rewrite field_2, Hf by (done || lia)|].
      intros d'' Hd''. rewrite length_app. simpl.
      by replace (4 * (n / 4) + Z.of_nat (length done + 1)) with (4 * (n / 4) + zlen done + 1) by lia.
  - intros i d Hi Hd. destruct (byte_at i) as [Hb Hrange]; [lia|]. apply wp_bind. eapply wp_at; [done|].
    assert (∀ Q : unit → list Z → Prop, (∀ d', filled (unpacked 2 b src) (4 * (i + 1)) dst d' → Q tt d') →
      wp (store (4 * i) (field 2 b (vat 0 src i) 0);; store (4 * i + 1) (field 2 b (vat 0 src i) 1);;
          store (4 * i + 2) (field 2 b (vat 0 src i) 2);; store (4 * i + 3) (field 2 b (vat 0 src i) 3)) Q (λ _, False) d) as Hs.
    { intros Q HQ. rewrite !Hf by lia. apply wp_bind. eapply wp_store_next; [exact Hd|lia|lia|by rewrite Z.add_0_r|].
      intros d1 H1. apply wp_bind. eapply wp_store_next; [exact H1|lia|lia|done|].
      intros d2 H2. apply wp_bind. eapply wp_store_next; [exact H2|lia|lia|f_equal; lia|].
      intros d3 H3. eapply wp_store_next; [exact H3|lia|lia|f_equal; lia|].
      intros d4 H4. apply HQ. by replace (4 * (i + 1)) with (4 * i + 1 + 1 + 1 + 1) by lia. }
    destruct b; [by apply Hs|]. rewrite !i8_mod.
    assert (field 2 false (vat 0 src i) 3 = Z.shiftr (vat 0 src i) 6) as H3.
    { change (field 2 false (vat 0 src i) 3) with (Z.shiftr (i8 (vat 0 src i)) 6). by rewrite (i8_id (vat 0 src i)). }
    rewrite H3 in Hs. by apply Hs.
Qed.

Lemma wp_unpack w : w = 2 ∨ w = 4 → n ≤ per_byte w * zlen src →
  wp (UnpackPackedIntToInt8 src n w b) (λ _ d, filled (unpacked w b src) n dst d) (λ _, False) dst.
Proof. intros [-> | ->]; [apply wp_unpack2|apply wp_unpack4]. Qed.
End unpacking.

(** ** Packing *)

Section packing.
Context (src : list Z) (n : Z) (dst : list Z).
Hypothesis count : 0 ≤ n ≤ zlen src.

Lemma digit_range w e : 0 < w → 0 ≤ digit w src n e < 2 ^ w.
Proof. intros Hw. unfold digit. case_match; [apply Z.mod_pos_bound|]; lia. Qed.

Lemma digit_low w e : 0 ≤ w → e < n → digit w src n e = Z.land (vat 0 src e) (Z.ones w).
Proof. intros Hw He. unfold digit. by rewrite (proj2 (Z.ltb_lt _ _)), Z.land_ones by done. Qed.

Lemma digit_2 e : e < n → Z.land (vat 0 src e) 3 = digit 2 src n e.
Proof. intros He. by rewrite digit_low. Qed.

Lemma digit_past w e : n ≤ e → digit w src n e = 0.
Proof. intros He. unfold digit. by rewrite (proj2 (Z.ltb_ge _ _)). Qed.

Lemma packed_4 i : packed 4 src n i = i8 (digit 4 src n (2 * i) + 2 ^ 4 * digit 4 src n (2 * i + 1)).
Proof.
  unfold packed. change (range 0 (per_byte 4)) with [0; 1]. cbn [foldr]. change (per_byte 4) with 2.
  by rewrite Z.mul_0_r, !Z.add_0_r.
Qed.

Lemma packed_2 i : packed 2 src n i = i8 (digit 2 src n (4 * i) + 2 ^ 2 * digit 2 src n (4 * i + 1) +
  2 ^ 4 * digit 2 src n (4 * i + 2) + 2 ^ 6 * digit 2 src n (4 * i + 3)).
Proof.
  unfold packed. change (range 0 (per_byte 2)) with [0; 1; 2; 3]. cbn [foldr]. change (per_byte 2) with 4.
  rewrite Z.mul_0_r, !Z.add_0_r. f_equal. lia.
Qed.

Lemma i8_high a b : i8 (a + 2 ^ 4 * b) = i8 (a + 2 ^ 4 * (b mod 2 ^ 4)).
Proof.
  clear. unfold i8. f_equal. rewrite (Z.div_mod b (2 ^ 4)) at 1 by lia.
  replace (a + 2 ^ 4 * (2 ^ 4 * (b / 2 ^ 4) + b mod 2 ^ 4) + 2 ^ 7) with (a + 2 ^ 4 * (b mod 2 ^ 4) + 2 ^ 7 + (b / 2 ^ 4) * 2 ^ 8) by lia.
  by rewrite Z.mod_add by lia.
Qed.

Lemma wp_pack4 : n ≤ 2 * zlen dst →
  wp (pack4 src n) (λ _ d, filled (packed 4 src n) ((n + 1) / 2) dst d) (λ _, False) dst.
Proof.
  intros Hn. destruct (quot_rem n 2) as [Hq Hr]; [lia..|]. pose proof (Z.div_mod n 2 ltac:(lia)) as Hdm.
  pose proof (Z.mod_pos_bound n 2 ltac:(lia)) as Hm. unfold pack4. rewrite Hq, Hr. apply wp_bind.
  eapply wp_post; [|apply (wp_fill_loop (packed 4 src n) 1); [lia|lia|apply filled_0|]].
  - intros ? d Hd. simpl in Hd. destruct (Z.eqb_spec (n mod 2) 0) as [H0|H0]; simpl.
    + apply wp_ret. replace ((n + 1) / 2) with (n / 2) by (apply (Z.div_unique _ _ _ 1); lia).
      by rewrite Z.mul_1_l in Hd.
    + apply wp_bind. eapply wp_at; [apply (vat_zget 0); lia|]. rewrite Z.mul_1_l in Hd.
      eapply wp_store_next; [exact Hd|lia|lia| |].
      * rewrite packed_4, (digit_past 4 (2 * (n / 2) + 1)), Z.mul_0_r, Z.add_0_r, digit_low by lia.
        by replace (2 * (n / 2)) with (n - 1) by lia.
      * intros d' Hd'. by replace ((n + 1) / 2) with (n / 2 + 1) by (apply (Z.div_unique _ _ _ 0); lia).
  - intros i d Hi Hd. apply wp_bind. eapply wp_at; [apply (vat_zget 0); lia|]. apply wp_bind.
    eapply wp_at; [apply (vat_zget 0); lia|]. eapply wp_store_next; [exact Hd|lia|lia| |].
    + rewrite Z.mul_1_l, packed_4, !digit_low by lia. change 15 with (Z.ones 4).
      rewrite lor_add by (rewrite ?Z.land_ones by lia; (lia || apply Z.mod_pos_bound; lia)).
      rewrite i8_high. by rewrite <- Z.land_ones by lia.
    + intros d' Hd'. by replace (1 * (i + 1)) with (1 * i + 1) by lia.
Qed.
Lemma wp_pack2 : n ≤ 4 * zlen dst →
  wp (pack2 src n) (λ _ d, filled (packed 2 src n) ((n + 3) / 4) dst d) (λ _, False) dst.
Proof.
  intros Hn. destruct (quot_rem n 4) as [Hq Hr]; [lia..|]. pose proof (Z.div_mod n 4 ltac:(lia)) as Hdm.
  pose proof (Z.mod_pos_bound n 4 ltac:(lia)) as Hm. unfold pack2. rewrite Hq, Hr. apply wp_bind.
  eapply wp_post; [|apply (wp_fill_loop (packed 2 src n) 1); [lia|lia|apply filled_0|]].
  - intros ? d Hd. simpl in Hd. rewrite Z.mul_1_l in Hd. destruct (Z.ltb_spec 0 (n mod 4)) as [H0|H0].
    + apply wp_bind. pose proof (packed_2 (n / 4)) as Hp.
      set (f := λ k, digit 2 src n (4 * (n / 4) + k)).
      assert (∀ k, 0 ≤ f k < 4) as Hf by (intros k; apply (digit_range 2); lia).
      apply (wp_fold_pure _ _ _ (λ done v, v = match zlen done with 0 => 0 | 1 => f 0 | 2 => f 0 + 4 * f 1 | _ => f 0 + 4 * f 1 + 16 * f 2 end)).
      * done.
      * intros done k todo v Hs ->. destruct (range_split _ _ _ _ Hs) as [-> Hlt]. apply wp_bind.
        eapply wp_at; [apply (vat_zget 0); lia|]. apply wp_ret. split; [done|].
        rewrite digit_2, length_app by lia. replace (n - n mod 4 + zlen done) with (4 * (n / 4) + zlen done) by lia.
        fold (f (zlen done)). pose proof (Hf 0). pose proof (Hf 1). pose proof (Hf 2).
        assert (length done = 0%nat ∨ length done = 1%nat ∨ length done = 2%nat) as [-> |[-> | ->]] by lia;
          [change (Z.of_nat 0) with 0|change (Z.of_nat 1) with 1|change (Z.of_nat 2) with 2].
        -- rewrite Z.lor_0_l, Z.shiftl_0_r, i8_id by (unfold is_int8; lia). done.
        -- rewrite (lor_add _ _ 2), i8_id by (unfold is_int8; lia). done.
        -- rewrite (lor_add _ _ 4), i8_id by (unfold is_int8; lia). done.
      * intros v ->. rewrite range_length. eapply wp_store_next; [exact Hd|lia|lia| |].
        -- rewrite Hp. rewrite (digit_past 2 (4 * (n / 4) + 3)) by lia. change (2 ^ 2) with 4. change (2 ^ 4) with 16.
           pose proof (Hf 0) as H00. pose proof (Hf 1). pose proof (Hf 2). unfold f in *. rewrite Z.add_0_r in *.
           rewrite i8_id by (unfold is_int8; lia).
           assert (n mod 4 = 1 ∨ n mod 4 = 2 ∨ n mod 4 = 3) as [Hc|[Hc|Hc]] by lia; rewrite Hc; simpl;
             rewrite ?(digit_past 2 (4 * (n / 4) + 1)), ?(digit_past 2 (4 * (n / 4) + 2)) by lia; lia.
        -- intros d' Hd'. by replace ((n + 3) / 4) with (n / 4 + 1) by (apply (Z.div_unique _ _ _ (n mod 4 - 1)); lia).
    + apply wp_ret. by replace ((n + 3) / 4) with (n / 4) by (apply (Z.div_unique _ _ _ 3); lia).
  - intros i d Hi Hd. do 4 (apply wp_bind; eapply wp_at; [apply (vat_zget 0); lia|]).
    eapply wp_store_next; [exact Hd|lia|lia| |].
    + rewrite Z.mul_1_l, packed_2, !digit_2 by lia.
      pose proof (digit_range 2 (4 * i)). pose proof (digit_range 2 (4 * i + 1)). pose proof (digit_range 2 (4 * i + 2)).
      rewrite (lor_add _ _ 2), (lor_add _ _ 4), (lor_add _ _ 6) by lia. done.
    + intros d' Hd'. by replace (1 * (i + 1)) with (1 * i + 1) by lia.
Qed.

Lemma wp_pack w : w = 2 ∨ w = 4 → n ≤ per_byte w * zlen dst →
  wp (PackInt8IntoDenseInt src n w) (λ _ d, filled (packed w src n) ((n + per_byte w - 1) / per_byte w) dst d) (λ _, False) dst.
Proof.
  intros [-> | ->]; [change (per_byte 2) with 4; intros; replace (n + 4 - 1) with (n + 3) by lia; by apply wp_pack2|].
  change (per_byte 4) with 2. intros. replace (n + 2 - 1) with (n + 1) by lia. by apply wp_pack4.
Qed.
End packing.

(** ** Round trips *)

(** The number whose lowest bits are [d]. *)
Definition extend (w : Z) (unsigned : bool) (d : Z) : Z :=
  if unsigned then d else if d <? 2 ^ (w - 1) then d else d - 2 ^ w.

Lemma extend_fits w b x : w = 2 ∨ w = 4 → fits w b x → extend w b (x mod 2 ^ w) = x.
Proof.
  unfold fits, extend. intros Hw Hx. assert (x mod 2 ^ w = if decide (0 ≤ x) then x else x + 2 ^ w) as ->.
  { case_decide; [apply Z.mod_small|symmetry; apply (Z.mod_unique _ _ (-1))]; destruct Hw as [-> | ->], b; simpl in *; lia. }
  destruct Hw as [-> | ->], b; simpl in *; repeat case_decide; repeat case_match; lia.
Qed.

Lemma forallb_range (f : Z → bool) a c : forallb f (range a c) = true → ∀ x, a ≤ x < c → f x = true.
Proof. intros Hf x Hx. rewrite forallb_forall in Hf. apply Hf, list_elem_of_In, elem_of_range. lia. Qed.

(** Every byte that two or four digits make up has these digits as its fields. *)
Lemma field_digits_4 b d0 d1 k : 0 ≤ d0 < 16 → 0 ≤ d1 < 16 → 0 ≤ k < 2 →
  field 4 b (i8 (d0 + 2 ^ 4 * d1)) k = extend 4 b (if k =? 0 then d0 else d1).
Proof.
  intros H0 H1 Hk.
  assert (forallb (λ d0, forallb (λ d1, forallb (λ k, forallb (λ b,
    field 4 b (i8 (d0 + 2 ^ 4 * d1)) k =? extend 4 b (if k =? 0 then d0 else d1)) [true; false]) (range 0 2)) (range 0 16)) (range 0 16) = true) as H
    by (vm_compute; reflexivity).
  pose proof (forallb_range _ _ _ (forallb_range _ _ _ (forallb_range _ _ _ H d0 H0) d1 H1) k Hk) as Hb.
  apply Z.eqb_eq. rewrite forallb_forall in Hb. apply Hb. destruct b; simpl; auto.
Qed.

Lemma field_digits_2 b d0 d1 d2 d3 k : 0 ≤ d0 < 4 → 0 ≤ d1 < 4 → 0 ≤ d2 < 4 → 0 ≤ d3 < 4 → 0 ≤ k < 4 →
  field 2 b (i8 (d0 + 2 ^ 2 * d1 + 2 ^ 4 * d2 + 2 ^ 6 * d3)) k =
  extend 2 b (if k =? 0 then d0 else if k =? 1 then d1 else if k =? 2 then d2 else d3).
Proof.
  intros H0 H1 H2 H3 Hk.
  assert (forallb (λ d0, forallb (λ d1, forallb (λ d2, forallb (λ d3, forallb (λ k, forallb (λ b,
    field 2 b (i8 (d0 + 2 ^ 2 * d1 + 2 ^ 4 * d2 + 2 ^ 6 * d3)) k =?
    extend 2 b (if k =? 0 then d0 else if k =? 1 then d1 else if k =? 2 then d2 else d3)) [true; false]) (range 0 4))
      (range 0 4)) (range 0 4)) (range 0 4)) (range 0 4) = true) as H by (vm_compute; reflexivity).
  pose proof (forallb_range _ _ _ (forallb_range _ _ _ (forallb_range _ _ _ (forallb_range _ _ _ (forallb_range _ _ _
    H d0 H0) d1 H1) d2 H2) d3 H3) k Hk) as Hb.
  apply Z.eqb_eq. rewrite forallb_forall in Hb. apply Hb. destruct b; simpl; auto.
Qed.

Lemma field_packed w b src n i k : w = 2 ∨ w = 4 → 0 ≤ k < per_byte w → per_byte w * i + k < n →
  fits w b (vat 0 src (per_byte w * i + k)) → field w b (packed w src n i) k = vat 0 src (per_byte w * i + k).
Proof.
  intros Hw Hk Hn Hf. rewrite <- (extend_fits w b _ Hw Hf). set (e := per_byte w * i + k) in *.
  replace (vat 0 src e mod 2 ^ w) with (digit w src n e) by (unfold digit; by rewrite (proj2 (Z.ltb_lt _ _))).
  pose proof (λ e, digit_range src n w e) as Hd. destruct Hw as [-> | ->].
  - change (per_byte 2) with 4 in *. rewrite packed_2, field_digits_2 by (done || apply Hd; lia). f_equal. subst e.
    assert (k = 0 ∨ k = 1 ∨ k = 2 ∨ k = 3) as [-> |[-> |[-> | ->]]] by lia; simpl; try done. by rewrite Z.add_0_r.
  - change (per_byte 4) with 2 in *. rewrite packed_4, field_digits_4 by (done || apply Hd; lia). f_equal. subst e.
    assert (k = 0 ∨ k = 1) as [-> | ->] by lia; simpl; [by rewrite Z.add_0_r|done].
Qed.

(** The fields of a byte make up the byte. *)
Lemma byte_fields w b c : w = 2 ∨ w = 4 → is_int8 c →
  i8 (foldr (λ k acc, field w b c k mod 2 ^ w + 2 ^ w * acc) 0 (range 0 (per_byte w))) = c.
Proof.
  intros Hw Hc.
  assert (forallb (λ c, forallb (λ w, forallb (λ b,
    i8 (foldr (λ k acc, field w b c k mod 2 ^ w + 2 ^ w * acc) 0 (range 0 (per_byte w))) =? c) [true; false]) [2; 4])
    (range (- 2 ^ 7) (2 ^ 7)) = true) as H by (vm_compute; reflexivity).
  pose proof (forallb_range _ _ _ H c Hc) as Hb. apply Z.eqb_eq. rewrite forallb_forall in Hb.
  assert (In w [2; 4]) as Hin by (destruct Hw as [-> | ->]; simpl; auto). specialize (Hb w Hin). rewrite forallb_forall in Hb.
  apply Hb. destruct b; simpl; auto.
Qed.

Lemma zget_take_drop {A} (l k : list A) m : length l = length k →
  (∀ e, Z.of_nat m ≤ e → zget l e = zget k e) → drop m l = drop m k.
Proof.
  intros Hl Hr. apply list_eq. intros i. rewrite !lookup_drop. specialize (Hr (Z.of_nat (m + i)) ltac:(lia)).
  unfold zget in Hr. rewrite (proj2 (Z.leb_le 0 _)), Nat2Z.id in Hr by lia. done.
Qed.

Lemma filled_take f m d0 d l : filled f m d0 d → zlen l = m → m ≤ zlen d0 → (∀ e, 0 ≤ e < m → f e = vat 0 l e) → take (length l) d = l.
Proof.
  intros (Hl & Hf & _) Hm Hle Hfl. apply list_eq. intros i. destruct (decide (i < length l)%nat) as [Hi|Hi].
  - rewrite lookup_take, decide_True by done. specialize (Hf (Z.of_nat i) ltac:(lia)).
    rewrite Hfl in Hf by lia. unfold zget in Hf. rewrite (proj2 (Z.leb_le 0 _)), Nat2Z.id in Hf by lia. rewrite Hf.
    unfold vat, zget. rewrite (proj2 (Z.leb_le 0 _)), Nat2Z.id by lia. by destruct (lookup_lt_is_Some_2 l i Hi) as [x ->].
  - rewrite !(proj2 (lookup_ge_None _ _)); [done|lia|rewrite length_take; lia].
Qed.

Lemma filled_vat f m d0 d e : filled f m d0 d → 0 ≤ e < m → vat 0 d e = f e.
Proof. intros (_ & Hf & _) He. unfold vat. by rewrite Hf. Qed.

Lemma packed_bytes w src n m p0 p : Forall is_int8 p0 → filled (packed w src n) m p0 p → Forall is_int8 p.
Proof.
  intros Hp0 (Hl & Hf & Hr). rewrite Forall_forall. intros x Hx. apply list_elem_of_lookup in Hx as [i Hi].
  assert (zget p (Z.of_nat i) = Some x) as Hz by (unfold zget; by rewrite (proj2 (Z.leb_le 0 _)), Nat2Z.id by lia).
  destruct (Z.lt_ge_cases (Z.of_nat i) m) as [Hlt|Hge].
  - rewrite Hf in Hz by lia. injection Hz as <-. apply i8_range.
  - rewrite Hr in Hz by done. rewrite Forall_forall in Hp0. apply Hp0. by eapply zget_elem.
Qed.

Lemma per_byte_cases w : w = 2 ∨ w = 4 → (w = 2 ∧ per_byte w = 4) ∨ (w = 4 ∧ per_byte w = 2).
Proof. intros [-> | ->]; auto. Qed.

(** Reading what was written gives the elements. *)
Lemma unpacked_packed w b src n m p0 p e :
  w = 2 ∨ w = 4 → filled (packed w src n) m p0 p → n ≤ per_byte w * m → 0 ≤ e < n → fits w b (vat 0 src e) →
  unpacked w b p e = vat 0 src e.
Proof.
  intros Hw Hp Hm He Hf. assert (0 < per_byte w) as Hpos by (destruct (per_byte_cases w Hw) as [[_ ->]|[_ ->]]; lia).
  pose proof (Z.div_mod e (per_byte w) ltac:(lia)) as Hdm. pose proof (Z.mod_pos_bound e (per_byte w) Hpos) as Hr.
  rewrite Hdm, unpacked_at by done. rewrite Hdm in Hf.
  assert (0 ≤ e / per_byte w) by (apply Z.div_pos; lia). assert (e / per_byte w < m) by (apply Z.div_lt_upper_bound; lia).
  rewrite (filled_vat _ _ _ _ _ Hp) by lia. by apply field_packed; [|done|lia|].
Qed.

(** C34: packing integers of two or four bits and unpacking them again gives the integers
    back, signed or unsigned, and leaves what is behind them in the buffer alone;
    neither reads nor writes out of the range of a buffer that is large enough. *)
Theorem packed_roundtrip w b xs p0 d0 :
  w = 2 ∨ w = 4 → Forall (fits w b) xs → Forall is_int8 p0 → zlen xs ≤ per_byte w * zlen p0 → zlen xs ≤ zlen d0 →
  ∃ p d, PackInt8IntoDenseInt xs (zlen xs) w p0 = Done tt p ∧ UnpackPackedIntToInt8 p (zlen xs) w b d0 = Done tt d ∧
    take (length xs) d = xs ∧ drop (length xs) d = drop (length xs) d0.
Proof.
  intros Hw Hf Hp0 Hp Hd. destruct (wp_Done _ _ _ (wp_pack xs (zlen xs) p0 ltac:(lia) w Hw Hp)) as ([] & p & Hpack & Hfp).
  assert (zlen xs ≤ per_byte w * zlen p) as Hlen by (destruct Hfp as [-> _]; done).
  destruct (wp_Done _ _ _ (wp_unpack p (zlen xs) b d0 (packed_bytes _ _ _ _ _ _ Hp0 Hfp) ltac:(lia) w Hw Hlen)) as ([] & d & Hunp & Hfd).
  exists p, d. split_and!; [done..| |].
  - eapply (filled_take _ (zlen xs)); [exact Hfd|done|done|]. intros e He.
    eapply (unpacked_packed w b xs); [done|exact Hfp| |done|].
    + destruct (per_byte_cases w Hw) as [[_ ->]|[_ ->]]; [pose proof (Z.div_mod (zlen xs + 4 - 1) 4)|pose proof (Z.div_mod (zlen xs + 2 - 1) 2)];
        [pose proof (Z.mod_pos_bound (zlen xs + 4 - 1) 4)|pose proof (Z.mod_pos_bound (zlen xs + 2 - 1) 2)]; lia.
    + rewrite Forall_forall in Hf. apply Hf. eapply zget_elem. by apply vat_zget.
  - destruct Hfd as (Hl & _ & Hr). by apply zget_take_drop.
Qed.

Lemma packed_roundtrip_witness :
  Forall (fits 4 false) [3; -8; 7] ∧
  ∃ p d, PackInt8IntoDenseInt [3; -8; 7] 3 4 [0; 0] = Done tt p ∧ UnpackPackedIntToInt8 p 3 4 false [0; 0; 0; 9] = Done tt d ∧
    take 3 d = [3; -8; 7] ∧ drop 3 d = [9].
Proof.
  assert (Forall (fits 4 false) [3; -8; 7]) as Hf by (repeat constructor; discriminate). split; [exact Hf|].
  apply (packed_roundtrip 4 false [3; -8; 7] [0; 0] [0; 0; 0; 9]); [by right|exact Hf|repeat constructor; discriminate|discriminate..].
Defined.

(** Unpacking whole bytes and packing them again gives the bytes. *)
Lemma unpacked_roundtrip w b p d0 p0 :
  w = 2 ∨ w = 4 → Forall is_int8 p → per_byte w * zlen p ≤ zlen d0 → length p0 = length p →
  ∃ d, UnpackPackedIntToInt8 p (per_byte w * zlen p) w b d0 = Done tt d ∧
    PackInt8IntoDenseInt d (per_byte w * zlen p) w p0 = Done tt p.
Proof.
  intros Hw Hp Hd Hp0. assert (0 < per_byte w) as Hpos by (destruct (per_byte_cases w Hw) as [[_ ->]|[_ ->]]; lia).
  destruct (wp_Done _ _ _ (wp_unpack p (per_byte w * zlen p) b d0 Hp ltac:(nia) w Hw ltac:(lia))) as ([] & d & Hunp & Hfd).
  exists d. split; [done|]. assert (zlen d = zlen d0) as Hld by (destruct Hfd as [-> _]; done).
  destruct (wp_Done _ _ _ (wp_pack d (per_byte w * zlen p) p0 ltac:(nia) w Hw ltac:(lia))) as ([] & q & Hpack & Hl & Hf & Hr).
  rewrite Hpack. f_equal. apply list_eq. intros i.
  assert ((per_byte w * zlen p + per_byte w - 1) / per_byte w = zlen p) as Hceil.
  { symmetry. apply (Z.div_unique _ _ _ (per_byte w - 1)); lia. }
  rewrite Hceil in Hf. destruct (decide (i < length p)%nat) as [Hi|Hi]; [|rewrite !(proj2 (lookup_ge_None _ _)) by lia; done].
  specialize (Hf (Z.of_nat i) ltac:(lia)). unfold zget in Hf. rewrite (proj2 (Z.leb_le 0 _)), Nat2Z.id in Hf by lia. rewrite Hf.
  destruct (lookup_lt_is_Some_2 p i Hi) as [c Hc]. rewrite Hc. f_equal. rewrite Forall_forall in Hp.
  assert (vat 0 p (Z.of_nat i) = c) as Hv by (unfold vat, zget; rewrite (proj2 (Z.leb_le 0 _)), Nat2Z.id by lia; by rewrite Hc).
  rewrite <- (byte_fields w b c Hw (Hp c (list_elem_of_lookup_2 _ _ _ Hc))). unfold packed. f_equal.
  assert (∀ k, k ∈ range 0 (per_byte w) → digit w d (per_byte w * zlen p) (per_byte w * Z.of_nat i + k) = field w b c k mod 2 ^ w) as Hdig.
  { intros k Hk%elem_of_range. unfold digit. rewrite (proj2 (Z.ltb_lt _ _)) by nia.
    rewrite (filled_vat _ _ _ _ _ Hfd) by nia. rewrite unpacked_at by done. by rewrite Hv. }
  revert Hdig. generalize (range 0 (per_byte w)). intros l Hdig. induction l as [|k l IH]; [done|]. cbn [foldr].
  rewrite Hdig by (by left). rewrite IH; [done|]. intros j Hj. apply Hdig. by right.
Qed.
