(* ===== verification/SimpleMemoryArena.v ===== *)
(** * The memory arena ([src/tflite/simple_memory_arena.{h,cc}])

    A heap of blocks with the platform's allocation functions, the aligned
    buffer that grows by reallocation ([ResizableAlignedBuffer]) and the arena
    that places allocations with a usage interval at offsets of that buffer
    ([SimpleMemoryArena]). *)

From S2P Require Import Prelude.

(** ** The heap and the C allocation functions *)

(** A byte of a block, [None] while it is indeterminate. *)
Abbreviation cell := (option Byte.byte).

(** Blocks by their base address; address 0 is the null pointer. *)
Abbreviation heap := (gmap Z (list cell)).

(** [size] bytes at [p] are free in [h] (a block keeps its base address even
    when it has no byte). *)
Definition fresh_block (h : heap) (p size : Z) : Prop :=
  0 < p ∧ p + size ≤ size_max ∧ h !! p = None ∧
  ∀ q block, h !! q = Some block → ranges_disjoint p size q (zlen block).

(** What the C library promises of its allocation functions. *)
Class Platform := {
  TF_LITE_HAS_ALIGNED_ALLOC : bool;
  c_aligned_alloc : heap → Z → Z → option Z;
  c_malloc : heap → Z → option Z;
  c_aligned_alloc_spec h alignment size p :
    c_aligned_alloc h alignment size = Some p →
    p mod alignment = 0 ∧ fresh_block h p size;
  c_malloc_spec h size p : c_malloc h size = Some p → fresh_block h p size
}.

(** A pointer argument: [None] is the null pointer, [Some v] points to [v]. *)
Abbreviation ptr := option.

Definition non_null {A} (p : ptr A) : bool := if p is Some _ then true else false.

Definition new_block (p size : Z) : M heap unit :=
  modify (λ h, <[p := replicate (Z.to_nat size) None]> h).

Definition c_free (p : Z) : M heap unit :=
  if p =? 0 then mret ()
  else h ← get; _ ← deref (h !! p); put (delete p h).

(** [memcpy] between two different blocks, each given by its base and an offset
    into it. *)
Definition c_memcpy (dst dst_off src src_off n : Z) : M heap unit :=
  h ← get;
  from ← deref (h !! src);
  to ← deref (h !! dst);
  if decide (0 ≤ src_off ∧ src_off + n ≤ zlen from ∧
             0 ≤ dst_off ∧ dst_off + n ≤ zlen to) then
    put (<[dst := take (Z.to_nat dst_off) to
                  ++ take (Z.to_nat n) (drop (Z.to_nat src_off) from)
                  ++ drop (Z.to_nat (dst_off + n)) to]> h)
  else undefined.

(** ** Checked arithmetic on [size_t] *)

Definition CheckedAdd (lhs rhs : Z) : option Z :=
  if lhs >? size_max - rhs then None else Some (u64 (lhs + rhs)).

Definition CheckedAlignTo (alignment offset : Z) : option Z :=
  if alignment =? 0 then None
  else
    let remainder := offset mod alignment in
    if remainder =? 0 then Some offset
    else CheckedAdd offset (alignment - remainder).

(** ** Aligned allocation *)

Record PointerAlignedPointerPair := { pointer : Z; aligned_pointer : Z }.

Definition null_pair : PointerAlignedPointerPair :=
  {| pointer := 0; aligned_pointer := 0 |}.

Section aligned.
Context `{Platform}.

Definition AlignedAlloc (size alignment : Z) : M heap PointerAlignedPointerPair :=
  if alignment =? 0 then mret null_pair
  else if TF_LITE_HAS_ALIGNED_ALLOC then
    match CheckedAdd size (alignment - 1) ≫= CheckedAlignTo alignment with
    | None => mret null_pair
    | Some allocation_size =>
        h ← get;
        match c_aligned_alloc h alignment allocation_size with
        | None => mret null_pair
        | Some p =>
            new_block p allocation_size ;;
            mret {| pointer := p; aligned_pointer := p |}
        end
    end
  else
    match CheckedAdd size (alignment - 1) with
    | None => mret null_pair
    | Some allocation_size =>
        h ← get;
        match c_malloc h allocation_size with
        | None => mret null_pair
        | Some p =>
            new_block p allocation_size ;;
            match CheckedAlignTo alignment p with
            | None => c_free p ;; mret null_pair
            | Some a => mret {| pointer := p; aligned_pointer := a |}
            end
        end
    end.

Definition AlignedFree (buffer : PointerAlignedPointerPair) : M heap unit :=
  c_free (pointer buffer).

Definition AlignedRealloc (old_buffer : PointerAlignedPointerPair)
    (old_size new_size alignment : Z) : M heap PointerAlignedPointerPair :=
  new_buffer ← AlignedAlloc new_size alignment;
  if (0 <? new_size) && (pointer new_buffer =? 0) then mret null_pair
  else
    (if (0 <? new_size) && (0 <? old_size) then
       let copy_amount := Z.min new_size old_size in
       c_memcpy (pointer new_buffer) (aligned_pointer new_buffer - pointer new_buffer)
         (pointer old_buffer) (aligned_pointer old_buffer - pointer old_buffer)
         copy_amount
     else mret ()) ;;
    AlignedFree old_buffer ;;
    mret new_buffer.
End aligned.

(** ** The resizable buffer *)

Record ResizableAlignedBuffer := {
  buffer_ : PointerAlignedPointerPair;
  data_size_ : Z;
  alignment_ : Z
}.

Definition new_buffer (alignment : Z) : ResizableAlignedBuffer :=
  {| buffer_ := null_pair; data_size_ := 0; alignment_ := alignment |}.

Definition GetPtr (b : ResizableAlignedBuffer) : Z := aligned_pointer (buffer_ b).
Definition GetSize (b : ResizableAlignedBuffer) : Z := data_size_ b.
Definition GetAlignment (b : ResizableAlignedBuffer) : Z := alignment_ b.

Section buffer.
Context `{Platform}.

(** Works on the heap and the buffer, returns the pointee of
    [buffer_reallocated]. *)
Definition Resize (new_size : Z) (buffer_reallocated : ptr bool) :
    M (heap * ResizableAlignedBuffer) bool :=
  b ← gets snd;
  ensure (non_null buffer_reallocated && negb (alignment_ b =? 0)) ;;
  if new_size <=? data_size_ b then mret false
  else
    new_buffer ← zoom fst (λ h s, (h, snd s))
      (AlignedRealloc (buffer_ b) (data_size_ b) new_size (alignment_ b));
    ensure (negb ((0 <? new_size) && (pointer new_buffer =? 0))) ;;
    modify (λ s, (fst s, {| buffer_ := new_buffer; data_size_ := new_size;
                            alignment_ := alignment_ b |})) ;;
    mret (negb (aligned_pointer new_buffer =? aligned_pointer (buffer_ b))).

Definition Release : M (heap * ResizableAlignedBuffer) unit :=
  b ← gets snd;
  if pointer (buffer_ b) =? 0 then mret ()
  else
    zoom fst (λ h s, (h, snd s)) (AlignedFree (buffer_ b)) ;;
    modify (λ s, (fst s, {| buffer_ := null_pair; data_size_ := 0;
                            alignment_ := alignment_ b |})).
End buffer.

(** ** The arena *)

Record Alloc := {
  offset : Z;
  size : Z;
  tensor : Z;
  first_node : Z;
  last_node : Z
}.

(** [ArenaAllocWithUsageInterval::reset]. *)
Definition reset_alloc : Alloc :=
  {| offset := 0; size := 0; tensor := -1; first_node := -1; last_node := -1 |}.

Definition alloc_lt (a b : Alloc) : bool := offset a <? offset b.

Record SimpleMemoryArena := {
  committed_ : bool;
  high_water_mark_ : Z;
  underlying_buffer_ : ResizableAlignedBuffer;
  active_allocs_ : list Alloc
}.

Definition new_arena (arena_alignment : Z) : SimpleMemoryArena :=
  {| committed_ := false; high_water_mark_ := 0;
     underlying_buffer_ := new_buffer arena_alignment; active_allocs_ := [] |}.

Definition set_active (l : list Alloc) (a : SimpleMemoryArena) : SimpleMemoryArena :=
  {| committed_ := committed_ a; high_water_mark_ := high_water_mark_ a;
     underlying_buffer_ := underlying_buffer_ a; active_allocs_ := l |}.

Definition set_committed (b : bool) (a : SimpleMemoryArena) : SimpleMemoryArena :=
  {| committed_ := b; high_water_mark_ := high_water_mark_ a;
     underlying_buffer_ := underlying_buffer_ a; active_allocs_ := active_allocs_ a |}.

Definition set_buffer (u : ResizableAlignedBuffer) (a : SimpleMemoryArena) : SimpleMemoryArena :=
  {| committed_ := committed_ a; high_water_mark_ := high_water_mark_ a;
     underlying_buffer_ := u; active_allocs_ := active_allocs_ a |}.

Definition set_tensor (t : Z) (a : Alloc) : Alloc :=
  {| offset := offset a; size := size a; tensor := t;
     first_node := first_node a; last_node := last_node a |}.

Definition erase_marked (l : list Alloc) : list Alloc :=
  filter (λ a, tensor a ≠ -1) l.

Definition PurgeAfter (node : Z) (a : SimpleMemoryArena) : SimpleMemoryArena :=
  set_active
    (erase_marked
       ((λ x, if first_node x >? node then set_tensor (-1) x else x) <$> active_allocs_ a)) a.

Definition PurgeActiveAllocs (node : Z) (a : SimpleMemoryArena) : SimpleMemoryArena :=
  set_active
    (erase_marked
       ((λ x, if last_node x <? node then set_tensor (-1) x else x) <$> active_allocs_ a)) a.

Definition CalculateActiveAllocs `{StdSort} (allocs : list Alloc) (node : Z)
    (a : SimpleMemoryArena) : SimpleMemoryArena :=
  set_active
    (std_sort alloc_lt (filter (λ x, first_node x ≤ node ∧ node ≤ last_node x) allocs)) a.

Definition ResetAllocs (a : SimpleMemoryArena) : SimpleMemoryArena := set_active [] a.

(** The three variables the gap search of [Allocate] updates. *)
Record GapSearch := { current_offset : Z; best_offset : Z; best_offset_fit : Z }.

Definition kOffsetNotAssigned : Z := size_max.

Definition usage_disjoint (a : Alloc) (first_node' last_node' : Z) : bool :=
  (last_node a <? first_node') || (first_node a >? last_node').

(** The loop over [active_allocs_]; [None] is a failed [TF_LITE_ENSURE]. *)
Fixpoint search_gaps (alignment size' first_node' last_node' : Z)
    (allocs : list Alloc) (g : GapSearch) : option GapSearch :=
  match allocs with
  | [] => Some g
  | a :: rest =>
      if usage_disjoint a first_node' last_node' then
        search_gaps alignment size' first_node' last_node' rest g
      else
        aligned_current_offset ← CheckedAlignTo alignment (current_offset g);
        aligned_current_end ← CheckedAdd aligned_current_offset size';
        let fits := (aligned_current_end <=? offset a) &&
                    (u64 (offset a - aligned_current_offset) <? best_offset_fit g) in
        let best := if fits then aligned_current_offset else best_offset g in
        let fit := if fits then u64 (offset a - current_offset g) else best_offset_fit g in
        alloc_end ← CheckedAdd (offset a) (size a);
        let g' := {| current_offset := Z.max (current_offset g) alloc_end;
                     best_offset := best; best_offset_fit := fit |} in
        if fit =? 0 then Some g'
        else search_gaps alignment size' first_node' last_node' rest g'
  end.

(** [active_allocs_.insert(std::upper_bound(...), x)]. *)
Fixpoint insert_upper_bound (x : Alloc) (l : list Alloc) : list Alloc :=
  match l with
  | [] => [x]
  | y :: l' => if alloc_lt x y then x :: l else y :: insert_upper_bound x l'
  end.

(** Works on the arena and the pointee of [new_alloc]. *)
Definition Allocate (alignment size' tensor' first_node' last_node' : Z) :
    M (SimpleMemoryArena * ptr Alloc) unit :=
  new_alloc ← gets snd;
  ensure (non_null new_alloc) ;;
  ensure (negb (alignment =? 0)) ;;
  arena ← gets fst;
  ensure (alignment <=? GetAlignment (underlying_buffer_ arena)) ;;
  new_alloc ← deref new_alloc;
  let filled off :=
    {| offset := off; size := size'; tensor := tensor';
       first_node := first_node'; last_node := last_node' |} in
  put (arena, Some (filled (offset new_alloc))) ;;
  if size' =? 0 then put (arena, Some (filled 0))
  else
    let found :=
      g ← search_gaps alignment size' first_node' last_node' (active_allocs_ arena)
            {| current_offset := 0; best_offset := kOffsetNotAssigned;
               best_offset_fit := kOffsetNotAssigned |};
      off ← (if best_offset g =? kOffsetNotAssigned
             then CheckedAlignTo alignment (current_offset g)
             else Some (best_offset g));
      required_buffer_size ← CheckedAdd off size';
      Some (off, required_buffer_size) in
    match found with
    | None => fail
    | Some (off, required_buffer_size) =>
        put ({| committed_ := committed_ arena;
                high_water_mark_ := Z.max (high_water_mark_ arena) required_buffer_size;
                underlying_buffer_ := underlying_buffer_ arena;
                active_allocs_ := insert_upper_bound (filled off) (active_allocs_ arena) |},
             Some (filled off))
    end.

Section commit.
Context `{Platform}.

Definition update_arena (f : SimpleMemoryArena → SimpleMemoryArena) :
    M (heap * SimpleMemoryArena) unit := modify (λ s, (fst s, f (snd s))).

Definition Commit (arena_reallocated : ptr bool) : M (heap * SimpleMemoryArena) bool :=
  ensure (non_null arena_reallocated) ;;
  update_arena (set_committed false) ;;
  arena ← gets snd;
  reallocated ←
    zoom (λ s, (fst s, underlying_buffer_ (snd s)))
         (λ hb s, (fst hb, set_buffer (snd hb) (snd s)))
         (Resize (high_water_mark_ arena) arena_reallocated);
  update_arena (set_committed true) ;;
  mret reallocated.

(** Returns the pointee of [output_ptr]. *)
Definition ResolveAlloc (alloc : Alloc) (output_ptr : ptr Z) : M SimpleMemoryArena Z :=
  arena ← get;
  ensure (committed_ arena) ;;
  ensure (non_null output_ptr) ;;
  match CheckedAdd (offset alloc) (size alloc) with
  | None => fail
  | Some alloc_end =>
      ensure (alloc_end <=? GetSize (underlying_buffer_ arena)) ;;
      mret (if size alloc =? 0 then 0
            else u64 (GetPtr (underlying_buffer_ arena) + offset alloc))
  end.

Definition ClearPlan : M (heap * SimpleMemoryArena) unit :=
  modify (λ s, (fst s, {| committed_ := false; high_water_mark_ := 0;
                          underlying_buffer_ := underlying_buffer_ (snd s);
                          active_allocs_ := [] |})).

Definition ReleaseBuffer : M (heap * SimpleMemoryArena) unit :=
  update_arena (set_committed false) ;;
  zoom (λ s, (fst s, underlying_buffer_ (snd s)))
       (λ hb s, (fst hb, set_buffer (snd hb) (snd s))) Release.

Definition GetBufferSize (a : SimpleMemoryArena) : Z := GetSize (underlying_buffer_ a).
Definition BasePointer (a : SimpleMemoryArena) : Z := GetPtr (underlying_buffer_ a).
End commit.

(** * Theorems *)

(** ** Checked arithmetic *)

Lemma CheckedAdd_Some a b c :
  is_size a → is_size b →
  CheckedAdd a b = Some c ↔ c = a + b ∧ a + b ≤ size_max.
Proof.
  unfold CheckedAdd, is_size. intros Ha Hb.
  destruct (Z.gtb_spec a (size_max - b)).
  - split; [done|]. lia.
  - rewrite u64_id by (unfold is_size; lia).
    split; [intros [= <-]; lia | intros [-> _]; done].
Qed.

Lemma CheckedAdd_None a b :
  CheckedAdd a b = None ↔ size_max < a + b.
Proof.
  unfold CheckedAdd. destruct (Z.gtb_spec a (size_max - b)); split; done || lia.
Qed.

(** The smallest multiple of [alignment] that is at least [off]. *)
Definition align_up (alignment off : Z) : Z := (off + alignment - 1) / alignment * alignment.

Lemma align_up_spec alignment off :
  0 < alignment →
  off ≤ align_up alignment off < off + alignment ∧
  align_up alignment off mod alignment = 0.
Proof.
  intros Hal. unfold align_up. split; [|apply Z.mod_mul; lia].
  pose proof (Z.div_mod (off + alignment - 1) alignment ltac:(lia)).
  pose proof (Z.mod_pos_bound (off + alignment - 1) alignment). lia.
Qed.

Lemma align_up_unique alignment off x :
  0 < alignment → off ≤ x < off + alignment → x mod alignment = 0 →
  x = align_up alignment off.
Proof.
  intros Hal Hx Hmod. pose proof (align_up_spec alignment off Hal) as [Hb Hm].
  apply Z.mod_divide in Hmod as [k ->]; [|lia].
  apply Z.mod_divide in Hm as [j Hj]; [|lia]. rewrite Hj in Hb. rewrite Hj.
  f_equal. destruct (Z.lt_trichotomy k j) as [|[]]; [nia|done|nia].
Qed.

Lemma CheckedAlignTo_Some alignment off c :
  is_size alignment → is_size off →
  CheckedAlignTo alignment off = Some c ↔
  0 < alignment ∧ c = align_up alignment off ∧ c ≤ size_max.
Proof.
  intros Hal Hoff. unfold CheckedAlignTo.
  destruct (Z.eqb_spec alignment 0) as [->|Hne]; [split; [done|lia]|].
  assert (0 < alignment) as Hpos by (unfold is_size in *; lia).
  pose proof (Z.mod_pos_bound off alignment Hpos) as Hr.
  destruct (Z.eqb_spec (off mod alignment) 0) as [H0|H0].
  - rewrite <- (align_up_unique alignment off off); [|lia..|done].
    unfold is_size in *. split; [intros [= <-]; lia | intros (_ & -> & _); done].
  - assert (off + (alignment - off mod alignment) = align_up alignment off) as Heq.
    { apply align_up_unique; [lia..|].
      pose proof (Z.div_mod off alignment ltac:(lia)).
      replace (off + _) with ((off / alignment + 1) * alignment) by lia.
      apply Z.mod_mul. lia. }
    rewrite CheckedAdd_Some by (unfold is_size in *; lia). rewrite Heq.
    split; [intros [-> ?] | intros (_ & -> & ?)]; auto.
Qed.

Lemma CheckedAlignTo_None alignment off :
  0 < alignment ≤ size_max → is_size off →
  CheckedAlignTo alignment off = None → size_max < align_up alignment off.
Proof.
  intros Hal Hoff Hnone. apply Z.nle_gt. intros Hle.
  rewrite (proj2 (CheckedAlignTo_Some alignment off (align_up alignment off) ltac:(unfold is_size; lia) Hoff)) in Hnone; [done|].
  by split_and!; [lia|..].
Qed.

(** ** The gap search *)

Definition alloc_wf (a : Alloc) : Prop :=
  0 ≤ offset a ∧ 0 ≤ size a ∧ offset a + size a ≤ size_max.

(** The usage intervals of [a] and of [first, last] share a node. *)
Definition used_in (f l : Z) (a : Alloc) : Prop :=
  tasks_overlap (first_node a) (last_node a) f l.

Lemma usage_disjoint_spec a f l : usage_disjoint a f l = true ↔ ¬ used_in f l a.
Proof.
  unfold usage_disjoint, used_in, tasks_overlap.
  rewrite orb_true_iff, Z.ltb_lt, Z.gtb_lt. lia.
Qed.

Lemma usage_disjoint_false a f l : usage_disjoint a f l = false ↔ used_in f l a.
Proof.
  unfold usage_disjoint, used_in, tasks_overlap.
  rewrite orb_false_iff, Z.ltb_ge, Z.gtb_ltb, Z.ltb_ge. lia.
Qed.

(** [off, off+sz) hits none of the allocations used at the same time. *)
Definition clear_of (off sz f l : Z) (allocs : list Alloc) : Prop :=
  Forall (λ a, used_in f l a → ranges_disjoint off sz (offset a) (size a)) allocs.

Definition ends_before (c f l : Z) (allocs : list Alloc) : Prop :=
  Forall (λ a, used_in f l a → offset a + size a ≤ c) allocs.

Lemma ends_before_mono c c' f l allocs :
  c ≤ c' → ends_before c f l allocs → ends_before c' f l allocs.
Proof. intros Hc H. eapply Forall_impl; [done|]. intros a Ha Hu. specialize (Ha Hu). lia. Qed.

Lemma ends_before_clear c off sz f l allocs :
  c ≤ off → ends_before c f l allocs → clear_of off sz f l allocs.
Proof.
  intros Hc H. eapply Forall_impl; [done|]. intros a Ha Hu. specialize (Ha Hu).
  unfold ranges_disjoint. lia.
Qed.

Section search.
Context (al sz f l : Z) (Hal : 0 < al ≤ size_max) (Hsz : 0 < sz ≤ size_max).

(** [g] is what the loop knows after the allocations [done]. *)
Record search_inv (done : list Alloc) (g : GapSearch) : Prop := {
  si_current : is_size (current_offset g);
  si_ends : ends_before (current_offset g) f l done;
  si_unassigned : best_offset g = kOffsetNotAssigned → best_offset_fit g ≠ 0
}.

(** The offset [best_offset g], when assigned, is usable whatever follows. *)
Definition best_ok (done todo : list Alloc) (g : GapSearch) : Prop :=
  best_offset g ≠ kOffsetNotAssigned →
  0 ≤ best_offset g ∧ best_offset g + sz ≤ size_max ∧
  best_offset g mod al = 0 ∧ clear_of (best_offset g) sz f l (done ++ todo).

(** The new best offset, when the gap left of [a] is taken. *)
Lemma gap_is_clear prefix a rest g aligned_end aligned :
  sorted_by alloc_lt (a :: rest) → search_inv prefix g →
  CheckedAlignTo al (current_offset g) = Some aligned →
  CheckedAdd aligned sz = Some aligned_end → aligned_end ≤ offset a →
  aligned ≠ kOffsetNotAssigned ∧
  0 ≤ aligned ∧ aligned + sz ≤ size_max ∧ aligned mod al = 0 ∧
  clear_of aligned sz f l (prefix ++ a :: rest).
Proof.
  intros Hsort [Hcur Hends _] Hag Hend Hfit.
  apply CheckedAlignTo_Some in Hag as (_ & -> & Hmax); [|unfold is_size in *; lia..].
  destruct (align_up_spec al (current_offset g)) as [Hb Hm]; [lia|].
  unfold is_size in Hcur.
  apply CheckedAdd_Some in Hend as [-> Hend]; [|unfold is_size; lia..].
  unfold kOffsetNotAssigned. do 4 (split; [first [lia | done]|]).
  apply Forall_app. split.
  - eapply ends_before_clear; [|done]. lia.
  - inversion Hsort as [|? ? _ Hle]; subst.
    constructor; [|eapply Forall_impl; [done|]];
      intros *; unfold alloc_lt, ranges_disjoint; rewrite ?Z.ltb_ge; lia.
Qed.

Lemma search_gaps_sound allocs g g' prefix :
  sorted_by alloc_lt allocs → Forall alloc_wf allocs →
  search_inv prefix g → best_ok prefix allocs g →
  search_gaps al sz f l allocs g = Some g' →
  best_ok prefix allocs g' ∧
  (best_offset g' = kOffsetNotAssigned → search_inv (prefix ++ allocs) g').
Proof.
  revert g prefix. induction allocs as [|a rest IH]; intros g prefix Hsort Hwf Hinv Hbest; simpl.
  { intros [= ->]. by rewrite app_nil_r. }
  apply Forall_cons in Hwf as [Ha Hwf].
  assert (∀ g0, best_ok prefix (a :: rest) g0 ↔ best_ok (prefix ++ [a]) rest g0) as Hshift.
  { intros g0. unfold best_ok. by rewrite <- app_assoc. }
  replace (prefix ++ a :: rest) with ((prefix ++ [a]) ++ rest) by by rewrite <- app_assoc.
  assert (sorted_by alloc_lt rest) as Hsort' by by inversion Hsort.
  rewrite Hshift in *. pose proof Hinv as [Hcur Hends Hun].
  destruct (usage_disjoint a f l) eqn:Hu.
  { apply usage_disjoint_spec in Hu. intros Hs. apply (IH g); try done.
    split; [done| |done]. apply Forall_app. by repeat constructor. }
  apply usage_disjoint_false in Hu. intros Hs.
  destruct (CheckedAlignTo _ _) as [aligned|] eqn:Hag; [|done]. simpl in Hs.
  destruct (CheckedAdd aligned _) as [aend|] eqn:Hend; [|done].
  simpl in Hs. destruct (CheckedAdd (offset a) _) as [alloc_end|] eqn:Hae; [|done].
  simpl in Hs. apply CheckedAdd_Some in Hae as [-> Hae]; [|unfold alloc_wf, is_size in *; lia..].
  set (fits := _ && _) in Hs. set (fit := if fits then u64 _ else _) in Hs.
  set (g2 := {| best_offset_fit := fit |}) in Hs.
  assert (best_ok (prefix ++ [a]) rest g2) as Hbest2.
  { rewrite <- Hshift in *. unfold best_ok, g2. simpl. destruct fits eqn:Hf; [|done]. intros _.
    apply andb_true_iff in Hf as [Hf _]. apply Z.leb_le in Hf.
    by eapply gap_is_clear. }
  assert (best_offset g2 = kOffsetNotAssigned → fit ≠ 0) as Hun2.
  { unfold g2, fit. simpl. destruct fits eqn:Hf; [|done]. intros Hna. exfalso.
    apply andb_true_iff in Hf as [Hf _]. apply Z.leb_le in Hf.
    revert Hna. by eapply gap_is_clear. }
  assert (search_inv (prefix ++ [a]) g2) as Hinv2.
  { split; [|..|done]; simpl.
    - unfold is_size, alloc_wf in *. lia.
    - apply Forall_app. split; [eapply ends_before_mono; [|done]; lia|].
      repeat constructor. simpl. lia. }
  destruct (fit =? 0) eqn:Hfit0; [|by apply (IH g2)].
  apply Z.eqb_eq in Hfit0. injection Hs as <-. split; [done|].
  intros Hna. by specialize (Hun2 Hna).
Qed.
End search.

(** ** The invariant of the arena *)

(** Two allocations that are used at a common node do not share a byte. *)
Definition compatible (a b : Alloc) : Prop :=
  used_in (first_node b) (last_node b) a →
  ranges_disjoint (offset a) (size a) (offset b) (size b).

#[export] Instance compatible_sym : Symmetric compatible.
Proof.
  unfold compatible, used_in. intros a b H Hu.
  apply ranges_disjoint_sym, H. by apply tasks_overlap_sym.
Qed.

(** What the gap search relies on. *)
Record arena_sorted (ar : SimpleMemoryArena) : Prop := {
  as_sorted : sorted_by alloc_lt (active_allocs_ ar);
  as_wf : Forall alloc_wf (active_allocs_ ar);
  as_mark : is_size (high_water_mark_ ar)
}.

(** The invariant: the active allocations lie below the high water mark and no
    two of them that are in use together overlap. *)
Record arena_wf (ar : SimpleMemoryArena) : Prop := {
  aw_sorted :> arena_sorted ar;
  aw_mark : Forall (λ a, offset a + size a ≤ high_water_mark_ ar) (active_allocs_ ar);
  aw_compatible : StronglySorted compatible (active_allocs_ ar)
}.

Lemma insert_upper_bound_perm x l : insert_upper_bound x l ≡ₚ x :: l.
Proof.
  induction l as [|y l IH]; simpl; [done|]. destruct (alloc_lt x y); [done|].
  rewrite IH. constructor.
Qed.

Lemma insert_upper_bound_sorted x l :
  sorted_by alloc_lt l → sorted_by alloc_lt (insert_upper_bound x l).
Proof.
  induction 1 as [|y l Hl IH Hy]; simpl; [repeat constructor|].
  unfold alloc_lt in *. destruct (Z.ltb_spec (offset x) (offset y)).
  - constructor; [by constructor|]. constructor; [apply Z.ltb_ge; lia|].
    eapply Forall_impl; [done|]. intros z. simpl. rewrite !Z.ltb_ge. lia.
  - constructor; [done|]. rewrite insert_upper_bound_perm.
    constructor; [apply Z.ltb_ge; lia|done].
Qed.

Lemma found_offset_sound al sz f l allocs off :
  0 < al ≤ size_max → 0 < sz ≤ size_max → sorted_by alloc_lt allocs → Forall alloc_wf allocs →
  (g ← search_gaps al sz f l allocs
         {| current_offset := 0; best_offset := kOffsetNotAssigned;
            best_offset_fit := kOffsetNotAssigned |};
   if best_offset g =? kOffsetNotAssigned then CheckedAlignTo al (current_offset g)
   else Some (best_offset g)) = Some off →
  0 ≤ off ≤ size_max ∧ off mod al = 0 ∧ clear_of off sz f l allocs.
Proof.
  intros Hal Hsz Hsort Hwf Hs.
  destruct (search_gaps _ _ _ _ _ _) as [g|] eqn:Hg; [|done]. simpl in Hs.
  apply (search_gaps_sound al sz f l Hal Hsz _ _ _ []) in Hg as [Hbest Hinv]; [|done..| |].
  - destruct (Z.eqb_spec (best_offset g) kOffsetNotAssigned) as [Hna|Hna].
    + destruct (Hinv Hna) as [Hcur Hends _]. simpl in *.
      apply CheckedAlignTo_Some in Hs as (_ & -> & Hmax); [|unfold is_size in *; lia..].
      destruct (align_up_spec al (current_offset g)) as [Hb Hm]; [lia|].
      unfold is_size in Hcur. split; [lia|]. split; [done|].
      eapply ends_before_clear; [|done]. lia.
    + injection Hs as <-. destruct (Hbest Hna) as (? & ? & ? & ?). split; [lia|done].
  - split; simpl; [done|constructor|done].
  - intros Hne. by destruct Hne.
Qed.

(** ** [Allocate] *)

(** The state after a successful [Allocate] of [na] with alignment [al]. *)
Definition allocated (al : Z) (ar ar' : SimpleMemoryArena) (na : Alloc) : Prop :=
  alloc_wf na ∧
  if size na =? 0 then offset na = 0 ∧ ar' = ar
  else
    offset na mod al = 0 ∧
    clear_of (offset na) (size na) (first_node na) (last_node na) (active_allocs_ ar) ∧
    active_allocs_ ar' = insert_upper_bound na (active_allocs_ ar) ∧
    high_water_mark_ ar' = Z.max (high_water_mark_ ar) (offset na + size na) ∧
    underlying_buffer_ ar' = underlying_buffer_ ar ∧ committed_ ar' = committed_ ar.

Lemma Allocate_spec al sz t f l ar na :
  is_size al → is_size sz → arena_sorted ar →
  wp (Allocate al sz t f l)
    (λ _ s', ∃ na', s'.2 = Some na' ∧ allocated al ar s'.1 na' ∧ arena_sorted s'.1 ∧
       size na' = sz ∧ tensor na' = t ∧ first_node na' = f ∧ last_node na' = l)
    (λ s', s'.1 = ar) (ar, Some na).
Proof.
  intros Hal Hsz [Hsort Hwf Hmark]. unfold Allocate.
  wp_steps. apply wp_ensure; [|done]. intros Hal0%negb_true_iff%Z.eqb_neq.
  wp_steps. apply wp_ensure; [intros _|done]. wp_steps.
  unfold is_size in *. destruct (Z.eqb_spec sz 0) as [->|Hsz0].
  { wp_step. eexists. by split_and!. }
  case_match eqn:Hfound; [|done]. destruct p as [off req]. wp_steps.
  destruct (search_gaps _ _ _ _ _ _) as [g|] eqn:Hg; [|done]. simpl in Hfound.
  destruct (if _ =? _ then _ else _) as [off'|] eqn:Hoff; [|done]. simpl in Hfound.
  destruct (CheckedAdd off' sz) as [req'|] eqn:Hadd; simplify_eq/=.
  destruct (found_offset_sound al sz f l (active_allocs_ ar) off)
    as (Hr & Hmod & Hclear); [lia..|done|done|by rewrite Hg|].
  apply CheckedAdd_Some in Hadd as [-> Hend]; [|unfold is_size; lia..].
  eexists. split; [done|]. split_and!; try done.
  - unfold allocated, alloc_wf. simpl. destruct (Z.eqb_spec sz 0); [lia|].
    split; [lia|]. by split_and!.
  - split; simpl.
    + by apply insert_upper_bound_sorted.
    + rewrite insert_upper_bound_perm. constructor; [|done].
      unfold alloc_wf. simpl. lia.
    + unfold is_size. lia.
Qed.

(** ** The aligned buffer *)

(** The buffer is empty, or its data lie inside a block of the heap. *)
Definition buffer_ok (h : heap) (b : ResizableAlignedBuffer) : Prop :=
  (buffer_ b = null_pair ∧ data_size_ b = 0) ∨
  ∃ block, h !! pointer (buffer_ b) = Some block ∧
    0 < pointer (buffer_ b) ≤ GetPtr b ∧ GetPtr b mod alignment_ b = 0 ∧
    0 ≤ data_size_ b ∧
    GetPtr b + data_size_ b ≤ pointer (buffer_ b) + zlen block ≤ size_max.

(** The data of the buffer. *)
Definition contents (h : heap) (b : ResizableAlignedBuffer) : list cell :=
  let block := default [] (h !! pointer (buffer_ b)) in
  take (Z.to_nat (data_size_ b)) (drop (Z.to_nat (GetPtr b - pointer (buffer_ b))) block).

(** No two blocks overlap. *)
Definition heap_ok (h : heap) : Prop :=
  ∀ p q bp bq, h !! p = Some bp → h !! q = Some bq → p ≠ q →
    ranges_disjoint p (zlen bp) q (zlen bq).

Lemma heap_ok_insert h p block :
  heap_ok h → fresh_block h p (zlen block) → heap_ok (<[p := block]> h).
Proof.
  intros Hh (_ & _ & _ & Hd) q1 q2 b1 b2. rewrite !lookup_insert_Some.
  intros [[<- <-]|[? H1]] [[<- <-]|[? H2]] Hne; try done; eauto with litert.
Qed.

Lemma heap_ok_delete h p : heap_ok h → heap_ok (delete p h).
Proof.
  intros Hh q1 q2 b1 b2. rewrite !lookup_delete_Some. intros [_ ?] [_ ?]. eauto.
Qed.
#[export] Hint Resolve heap_ok_insert heap_ok_delete : litert.

Section buffer_facts.
Context `{Platform}.

(** [np] points to a new block of [h'] with [sz] aligned bytes. *)
Definition allocated_block (h h' : heap) (np : PointerAlignedPointerPair) (sz al : Z) : Prop :=
  ∃ block, h' = <[pointer np := block]> h ∧ fresh_block h (pointer np) (zlen block) ∧
    pointer np ≤ aligned_pointer np ∧ aligned_pointer np mod al = 0 ∧
    aligned_pointer np + sz ≤ pointer np + zlen block.

(** The platform has no block for [sz] bytes aligned to [al], or the size cannot be
    padded within [size_t]. *)
Definition unobtainable (h : heap) (sz al : Z) : Prop :=
  size_max < sz + 2 * al ∨
  if TF_LITE_HAS_ALIGNED_ALLOC
  then ∃ n, sz ≤ n < sz + 2 * al ∧ c_aligned_alloc h al n = None
  else c_malloc h (sz + (al - 1)) = None.

Lemma AlignedAlloc_spec sz al h :
  0 < al ≤ size_max → is_size sz →
  wp (AlignedAlloc sz al)
    (λ np h', (np = null_pair ∧ h' = h ∧ unobtainable h sz al) ∨ allocated_block h h' np sz al)
    (λ _, False) h.
Proof.
  intros Hal Hsz. unfold AlignedAlloc, new_block, unobtainable.
  destruct (Z.eqb_spec al 0); [lia|].
  assert (is_size (al - 1) ∧ is_size al) as [? ?] by (unfold is_size; lia).
  destruct TF_LITE_HAS_ALIGNED_ALLOC.
  - destruct (CheckedAdd sz (al - 1)) as [padded|] eqn:Hadd; simpl.
    2: { apply CheckedAdd_None in Hadd. left. split_and!; [done..|left; lia]. }
    apply CheckedAdd_Some in Hadd as [-> Hadd]; [|done..].
    destruct (align_up_spec al (sz + (al - 1))) as [Hb _]; [lia|].
    destruct (CheckedAlignTo al _) as [total|] eqn:Hto.
    2: { left. split_and!; [done..|left]. apply CheckedAlignTo_None in Hto; unfold is_size in *; lia. }
    apply CheckedAlignTo_Some in Hto as (_ & -> & Hmax); [|unfold is_size in *; lia..].
    wp_steps. case_match eqn:Hc; [|left; split_and!; [done..|right; exists (align_up al (sz + (al - 1))); split; [lia|done]]].
    apply c_aligned_alloc_spec in Hc as [Hmod Hfresh].
    wp_steps. right. eexists. split; [done|]. simpl. unfold is_size in *.
    rewrite length_replicate, Z2Nat.id by lia. split_and!; [done|lia|done|lia].
  - destruct (CheckedAdd sz (al - 1)) as [total|] eqn:Hadd; simpl.
    2: { apply CheckedAdd_None in Hadd. left. split_and!; [done..|left; lia]. }
    apply CheckedAdd_Some in Hadd as [-> Hadd]; [|done..].
    wp_steps. case_match eqn:Hc; [|left; split_and!; [done..|by right]].
    apply c_malloc_spec in Hc. pose proof Hc as (Hp & Hmax & Hnone & _).
    wp_steps. unfold is_size in *.
    destruct (CheckedAlignTo al _) as [a|] eqn:Hto.
    + apply CheckedAlignTo_Some in Hto as (_ & -> & _); [|unfold is_size in *; lia..].
      destruct (align_up_spec al z) as [Hb Hm]; [lia|].
      wp_steps. right. eexists. split; [done|]. simpl.
      rewrite length_replicate, Z2Nat.id by lia. split_and!; [done|lia|done|lia].
    + apply CheckedAlignTo_None in Hto; [|unfold is_size; lia..].
      destruct (align_up_spec al z) as [Hb _]; lia.
Qed.

Lemma c_memcpy_spec dst doff src soff n h bs bd :
  h !! src = Some bs → h !! dst = Some bd → 0 ≤ n →
  0 ≤ soff ∧ soff + n ≤ zlen bs → 0 ≤ doff ∧ doff + n ≤ zlen bd →
  wp (c_memcpy dst doff src soff n)
    (λ _ h', ∃ bd', h' = <[dst := bd']> h ∧ length bd' = length bd ∧
       take (Z.to_nat n) (drop (Z.to_nat doff) bd')
       = take (Z.to_nat n) (drop (Z.to_nat soff) bs))
    (λ _, False) h.
Proof.
  intros Hs Hd Hn Hsoff Hdoff. unfold c_memcpy. wp_steps. rewrite Hs, Hd. wp_steps.
  rewrite decide_True by lia. wp_steps. eexists. split; [done|]. split.
  - rewrite !length_app, !length_take, !length_drop. lia.
  - rewrite drop_app_length' by (rewrite length_take; lia).
    rewrite take_app_length' by (rewrite length_take, length_drop; lia). done.
Qed.

(** The result [np] of growing [b] to [sz] bytes. *)
Definition grown (h h' : heap) (b : ResizableAlignedBuffer)
    (np : PointerAlignedPointerPair) (sz : Z) : Prop :=
  let b' := {| buffer_ := np; data_size_ := sz; alignment_ := alignment_ b |} in
  buffer_ok h' b' ∧ heap_ok h' ∧ pointer np ≠ 0 ∧ h !! pointer np = None ∧
  take (Z.to_nat (data_size_ b)) (contents h' b') = contents h b ∧
  ∀ q, q ≠ pointer (buffer_ b) → q ≠ pointer np → h' !! q = h !! q.

(** Giving the old block back after the copy to the new one. *)
Lemma free_old_block h b np sz block :
  heap_ok h → buffer_ok h b → data_size_ b < sz →
  fresh_block h (pointer np) (zlen block) →
  pointer np ≤ aligned_pointer np → aligned_pointer np mod alignment_ b = 0 →
  aligned_pointer np + sz ≤ pointer np + zlen block →
  take (Z.to_nat (data_size_ b))
    (drop (Z.to_nat (aligned_pointer np - pointer np)) block) = contents h b →
  wp (AlignedFree (buffer_ b)) (λ _ h', grown h h' b np sz)
    (λ _, False) (<[pointer np := block]> h).
Proof.
  intros Hh Hb Hsz (Hp & Hmax & Hnone & Hfr) Hle Hmod Hend Hcont.
  set (b' := {| buffer_ := np; data_size_ := sz; alignment_ := alignment_ b |}).
  assert (∀ h', h' !! pointer np = Some block →
    0 ≤ data_size_ b → heap_ok h' →
    (∀ q, q ≠ pointer (buffer_ b) → q ≠ pointer np → h' !! q = h !! q) →
    grown h h' b np sz) as Hgrown.
  { intros h' Hl Hds Hh' Hq. unfold grown. split_and!; try done; [|lia|].
    - right. exists block. unfold GetPtr. simpl. split_and!; [done|lia..|done|lia|lia|lia].
    - rewrite <- Hcont. unfold contents, GetPtr. simpl. rewrite Hl. simpl.
      rewrite take_take. f_equal. lia. }
  unfold AlignedFree, c_free.
  destruct Hb as [[Hbn Hds]|(old & Hold & Hpos & _ & Hds & Hin)].
  - rewrite Hbn. simpl. apply Hgrown; [by simplify_map_eq|lia| |].
    + apply heap_ok_insert; [done|]. by split_and!.
    + intros q _ Hq. by rewrite lookup_insert_ne.
  - destruct (Z.eqb_spec (pointer (buffer_ b)) 0); [lia|].
    assert (pointer np ≠ pointer (buffer_ b)) as Hne by (intros Heq; congruence).
    wp_steps. rewrite lookup_insert_ne, Hold by done. wp_steps.
    apply Hgrown; [by simplify_map_eq|done| |].
    + apply heap_ok_delete, heap_ok_insert; [done|]. by split_and!.
    + intros q Hq1 Hq2. by rewrite lookup_delete_ne, lookup_insert_ne.
Qed.

Lemma AlignedRealloc_spec h b sz :
  heap_ok h → buffer_ok h b → 0 < alignment_ b ≤ size_max →
  data_size_ b < sz → is_size sz →
  wp (AlignedRealloc (buffer_ b) (data_size_ b) sz (alignment_ b))
    (λ np h', (np = null_pair ∧ h' = h ∧ unobtainable h sz (alignment_ b)) ∨ grown h h' b np sz) (λ _, False) h.
Proof.
  intros Hh Hb Hal Hgt Hsz. unfold AlignedRealloc. wp_steps.
  assert (0 ≤ data_size_ b) as Hds by (destruct Hb as [[_ ->]|(?&?&?&?&?&?)]; lia).
  eapply wp_mono; [by apply AlignedAlloc_spec| |done].
  intros np h1 [(-> & -> & Hun)|(block & -> & Hfr & Hle & Hmod & Hend)]; simpl.
  { rewrite (proj2 (Z.ltb_lt 0 sz)) by lia. simpl. wp_steps. by left. }
  pose proof Hfr as (Hp & Hmax & Hnone & _).
  rewrite (proj2 (Z.ltb_lt 0 sz)) by lia. simpl.
  rewrite (proj2 (Z.eqb_neq (pointer np) 0)) by lia. wp_steps.
  destruct (Z.ltb_spec 0 (data_size_ b)).
  - destruct Hb as [[_ ?]|(old & Hold & Hpos & Hm & _ & Hin)]; [lia|].
    assert (pointer np ≠ pointer (buffer_ b)) as Hne by (intros Heq; congruence).
    unfold GetPtr in *. rewrite Z.min_r by lia.
    eapply wp_mono; [eapply (c_memcpy_spec _ _ _ _ _ _ old block)| |done].
    1: by simplify_map_eq. 1: by simplify_map_eq. 1-3: lia.
    intros [] h2 (block' & -> & Hlen & Hcp). rewrite insert_insert_eq. wp_steps.
    eapply wp_mono; [apply (free_old_block h b np sz block')| |done]; rewrite ?Hlen; try done.
    + right. exists old. unfold GetPtr. repeat split; done || lia.
    + unfold contents, GetPtr. by rewrite Hold.
    + intros [] h3 ?. wp_steps. by right.
  - wp_steps. eapply wp_mono; [apply (free_old_block h b np sz block)| |done]; try done.
    + unfold contents. by replace (data_size_ b) with 0 by lia.
    + intros [] h3 ?. wp_steps. by right.
Qed.
End buffer_facts.

Section buffer_theorems.
Context `{Platform}.

(** [b'] in [h'] is [b] in [h], grown to at least [sz] bytes. *)
Record resized (h : heap) (b : ResizableAlignedBuffer) (sz : Z)
    (h' : heap) (b' : ResizableAlignedBuffer) : Prop := {
  rs_ok : buffer_ok h' b';
  rs_heap : heap_ok h';
  rs_alignment : alignment_ b' = alignment_ b;
  rs_size : data_size_ b' = Z.max (data_size_ b) sz;
  rs_contents : take (Z.to_nat (data_size_ b)) (contents h' b') = contents h b;
  rs_fresh : pointer (buffer_ b') = pointer (buffer_ b) ∨ h !! pointer (buffer_ b') = None;
  rs_frame q : q ≠ pointer (buffer_ b) → q ≠ pointer (buffer_ b') → h' !! q = h !! q
}.

Lemma Resize_spec h b sz r :
  heap_ok h → buffer_ok h b → 0 < alignment_ b ≤ size_max → is_size sz →
  wp (Resize sz (Some r))
    (λ moved s', resized h b sz s'.1 s'.2 ∧ (moved = true ↔ GetPtr s'.2 ≠ GetPtr b))
    (λ s', s' = (h, b) ∧ data_size_ b < sz ∧ unobtainable h sz (alignment_ b)) (h, b).
Proof.
  intros Hh Hb Hal Hsz. unfold Resize. wp_steps.
  rewrite (proj2 (Z.eqb_neq (alignment_ b) 0)) by lia. wp_steps.
  assert (0 ≤ data_size_ b) as Hds by (destruct Hb as [[_ ->]|(?&?&?&?&?&?)]; lia).
  destruct (Z.leb_spec sz (data_size_ b)); wp_steps.
  - split; [|by split]. split; simpl; try done; [lia| |by left].
    unfold contents. rewrite take_take. f_equal. lia.
  - wp_steps. apply wp_zoom. simpl. eapply wp_mono; [by apply AlignedRealloc_spec| |done].
    intros np h1 [(-> & -> & Hun)|(Hok & Hh1 & Hnz & Hfr & Hc & Hq)]; simpl.
    + rewrite (proj2 (Z.ltb_lt 0 sz)) by lia. by wp_steps.
    + rewrite (proj2 (Z.eqb_neq (pointer np) 0)), andb_false_r by done. wp_steps.
      split; [split; simpl; try done; [lia|by right]|].
      rewrite negb_true_iff, Z.eqb_neq. done.
Qed.
End buffer_theorems.

(** ** Committing the arena and resolving its allocations *)

Section arena_theorems.
Context `{Platform}.

Record arena_memory_ok (h : heap) (ar : SimpleMemoryArena) : Prop := {
  am_heap : heap_ok h;
  am_buffer : buffer_ok h (underlying_buffer_ ar);
  am_alignment : 0 < alignment_ (underlying_buffer_ ar) ≤ size_max
}.

Lemma Commit_spec h ar r :
  arena_memory_ok h ar → is_size (high_water_mark_ ar) →
  wp (Commit (Some r))
    (λ moved s',
       arena_memory_ok s'.1 s'.2 ∧
       resized h (underlying_buffer_ ar) (high_water_mark_ ar)
         s'.1 (underlying_buffer_ s'.2) ∧
       committed_ s'.2 = true ∧ high_water_mark_ s'.2 = high_water_mark_ ar ∧
       active_allocs_ s'.2 = active_allocs_ ar ∧
       (moved = true ↔ GetPtr (underlying_buffer_ s'.2) ≠ GetPtr (underlying_buffer_ ar)))
    (λ s', s' = (h, set_committed false ar) ∧ GetSize (underlying_buffer_ ar) < high_water_mark_ ar ∧
       unobtainable h (high_water_mark_ ar) (alignment_ (underlying_buffer_ ar))) (h, ar).
Proof.
  intros [Hh Hb Hal] Hm. unfold Commit, update_arena. wp_steps. apply wp_zoom. simpl.
  eapply wp_mono; [by apply Resize_spec|..]; simpl.
  - intros moved [h' b'] [Hr Hmoved]. simpl in *. wp_steps.
    split_and!; try done; try apply Hmoved. destruct Hr. split; simpl; try done.
    by rewrite rs_alignment0.
  - intros s' (-> & Hlt & Hun). by destruct ar.
Qed.

Lemma ResolveAlloc_spec h ar a o :
  buffer_ok h (underlying_buffer_ ar) → committed_ ar = true → alloc_wf a →
  offset a + size a ≤ GetSize (underlying_buffer_ ar) →
  wp (ResolveAlloc a (Some o))
    (λ p ar', ar' = ar ∧ p = if size a =? 0 then 0
                             else GetPtr (underlying_buffer_ ar) + offset a)
    (λ _, False) ar.
Proof.
  intros Hb Hc (Hoff & Hsz & Hmax) Hin. unfold ResolveAlloc. wp_steps. rewrite Hc. wp_steps.
  assert (CheckedAdd (offset a) (size a) = Some (offset a + size a)) as ->.
  { apply CheckedAdd_Some; unfold is_size; lia. }
  rewrite (proj2 (Z.leb_le _ _)) by done. wp_steps. split; [done|].
  destruct (Z.eqb_spec (size a) 0); [done|]. apply u64_id.
  unfold GetSize in Hin. destruct Hb as [[Hn Hd]|(block & _ & Hp & _ & Hd & He)]; [lia|].
  unfold is_size. lia.
Qed.
End arena_theorems.

(** ** What a client of the arena sees *)

Lemma compatible_zero_size a b : size a = 0 → offset a = 0 → alloc_wf b → compatible a b.
Proof. intros Hs Ho (? & ? & ?) _. unfold ranges_disjoint. lia. Qed.

Lemma clear_of_compatible na allocs :
  clear_of (offset na) (size na) (first_node na) (last_node na) allocs →
  Forall (compatible na) allocs.
Proof.
  intros H. eapply Forall_impl; [done|]. intros a Ha. symmetry. intros Hu.
  by apply ranges_disjoint_sym, Ha.
Qed.

Lemma allocated_wf al ar ar' na :
  arena_wf ar → arena_sorted ar' → allocated al ar ar' na →
  arena_wf ar' ∧ Forall (compatible na) (active_allocs_ ar) ∧
  offset na + size na ≤ high_water_mark_ ar'.
Proof.
  intros [Hs Hm Hc] Hs' [Hwf Hal]. destruct (Z.eqb_spec (size na) 0) as [H0|H0].
  - destruct Hal as [Ho ->]. split; [done|]. split.
    + eapply Forall_impl; [apply (as_wf _ Hs)|]. intros b. by apply compatible_zero_size.
    + destruct Hs as [_ _ Hm0]. unfold is_size in Hm0. lia.
  - destruct Hal as (_ & Hclear & Hact & Hmark & _).
    apply clear_of_compatible in Hclear. split; [|split; [done|lia]].
    split; [done|..]; rewrite Hact.
    + rewrite insert_upper_bound_perm, Hmark. constructor; [lia|].
      eapply Forall_impl; [exact Hm|]. intros x Hx. simpl in Hx. lia.
    + eapply (pairwise_perm compatible (na :: active_allocs_ ar));
        [by rewrite insert_upper_bound_perm|]. by constructor.
Qed.

(** A successful [SimpleMemoryArena::Allocate] keeps the arena's invariant
    and returns an allocation of the requested size and usage interval, aligned
    and below the high water mark, that shares no byte with an active allocation
    used at a common node. It has no undefined behaviour, and a failed call
    leaves the arena as it was. *)
Theorem Allocate_no_overlap ar na al sz t f l :
  arena_wf ar → is_size al → is_size sz →
  wp (Allocate al sz t f l)
    (λ _ s', arena_wf s'.1 ∧ ∃ na', s'.2 = Some na' ∧
       (size na', tensor na', first_node na', last_node na') = (sz, t, f, l) ∧
       offset na' mod al = 0 ∧ offset na' + sz ≤ high_water_mark_ s'.1 ∧
       Forall (compatible na') (active_allocs_ ar) ∧
       (0 < sz → na' ∈ active_allocs_ s'.1))
    (λ s', s'.1 = ar) (ar, Some na).
Proof.
  intros Hwf Hal Hsz. eapply wp_mono; [by eapply Allocate_spec; [..|apply Hwf]| |done].
  intros [] [ar' ptr'] (na' & -> & Hall & Hs' & <- & <- & <- & <-). simpl in *.
  destruct (allocated_wf al ar ar' na') as (Hwf' & Hc & Hm); [done..|].
  split; [done|]. exists na'. split_and!; try done.
  - destruct Hall as [_ Hall]. case_match; [|tauto].
    destruct Hall as [-> _]. apply Zmod_0_l.
  - intros Hpos. destruct Hall as [_ Hall]. case_match; [lia|].
    destruct Hall as (_ & _ & -> & _). rewrite insert_upper_bound_perm. left.
Qed.

(** ** Progress *)

Section progress.
Context (al sz f l m : Z) (Hal : 0 < al) (Hsz : 0 < sz)
  (Hfit : m + (al - 1) + sz ≤ size_max).

Lemma CheckedAlignTo_fits off :
  0 ≤ off ≤ m →
  ∃ a, CheckedAlignTo al off = Some a ∧ off ≤ a ≤ m + (al - 1).
Proof.
  intros Hoff. destruct (align_up_spec al off) as [Hb _]; [lia|].
  exists (align_up al off). split; [|lia].
  apply CheckedAlignTo_Some; unfold is_size; lia.
Qed.

Lemma search_gaps_total allocs g :
  Forall alloc_wf allocs → Forall (λ a, offset a + size a ≤ m) allocs →
  0 ≤ current_offset g ≤ m →
  (best_offset g = kOffsetNotAssigned ∨ 0 ≤ best_offset g ≤ m + (al - 1)) →
  ∃ g', search_gaps al sz f l allocs g = Some g' ∧ 0 ≤ current_offset g' ≤ m ∧
    (best_offset g' = kOffsetNotAssigned ∨ 0 ≤ best_offset g' ≤ m + (al - 1)).
Proof.
  revert g. induction allocs as [|a rest IH]; intros g; simpl; [by eauto|].
  intros [(? & ? & ?) Hwf]%Forall_cons [Ha Hall]%Forall_cons Hcur Hbest.
  destruct (usage_disjoint a f l); [by apply IH|].
  destruct (CheckedAlignTo_fits (current_offset g)) as (al' & -> & Hal'); [done|]. simpl.
  assert (CheckedAdd al' sz = Some (al' + sz)) as ->.
  { apply CheckedAdd_Some; unfold is_size; lia. }
  assert (CheckedAdd (offset a) (size a) = Some (offset a + size a)) as ->.
  { apply CheckedAdd_Some; unfold is_size; lia. }
  simpl. set (fits := _ && _).
  assert ((if fits then al' else best_offset g) = kOffsetNotAssigned ∨
          0 ≤ (if fits then al' else best_offset g) ≤ m + (al - 1)).
  { destruct fits; [right; lia|done]. }
  destruct (_ =? 0); [eexists; split; [done|]; simpl; split; [lia|done]|].
  apply IH; simpl; try done. lia.
Qed.
End progress.

Lemma Allocate_total ar na al sz t f l :
  arena_wf ar → 0 < al ≤ GetAlignment (underlying_buffer_ ar) → 0 ≤ sz →
  high_water_mark_ ar + (al - 1) + sz ≤ size_max →
  ∃ s', Allocate al sz t f l (ar, Some na) = Done () s' ∧
    high_water_mark_ s'.1 ≤ high_water_mark_ ar + (al - 1) + sz.
Proof.
  intros [[Hsort Hwf Hm] Hmark _] Hal Hsz Hfit. unfold is_size in Hm.
  cut (wp (Allocate al sz t f l)
        (λ _ s', high_water_mark_ s'.1 ≤ high_water_mark_ ar + (al - 1) + sz)
        (λ _, False) (ar, Some na)).
  { intros Hwp%wp_no_error. destruct Hwp as ([] & s' & ? & ?). eauto. }
  unfold Allocate. wp_steps. rewrite (proj2 (Z.eqb_neq al 0)) by lia. wp_steps.
  rewrite (proj2 (Z.leb_le al _)) by lia. wp_steps.
  destruct (Z.eqb_spec sz 0); wp_steps; [lia|].
  destruct (search_gaps_total al sz f l (high_water_mark_ ar)
    ltac:(lia) ltac:(lia) Hfit (active_allocs_ ar)
    {| current_offset := 0; best_offset := kOffsetNotAssigned;
       best_offset_fit := kOffsetNotAssigned |}) as (g & -> & Hcur & Hbest);
    [done..|simpl; lia|by left|]. simpl.
  assert (∃ off, (if best_offset g =? kOffsetNotAssigned
    then CheckedAlignTo al (current_offset g) else Some (best_offset g)) = Some off ∧
    0 ≤ off ≤ high_water_mark_ ar + (al - 1)) as (off & -> & Hoff).
  { destruct (Z.eqb_spec (best_offset g) kOffsetNotAssigned) as [|Hne].
    - destruct (CheckedAlignTo_fits al sz (high_water_mark_ ar) ltac:(lia) ltac:(lia)
        Hfit (current_offset g) Hcur) as (a & -> & Ha).
      exists a. split; [done|lia].
    - destruct Hbest as [Hb|Hb]; [done|]. eauto. }
  simpl. assert (CheckedAdd off sz = Some (off + sz)) as ->.
  { apply CheckedAdd_Some; unfold is_size; lia. }
  simpl. wp_steps. lia.
Qed.

(** ** Purging *)

Lemma search_gaps_filter al sz f l (P : Alloc → Prop) `{∀ a, Decision (P a)} allocs g :
  Forall (λ a, ¬ P a → ¬ used_in f l a) allocs →
  search_gaps al sz f l (filter P allocs) g = search_gaps al sz f l allocs g.
Proof.
  revert g. induction allocs as [|a rest IH]; intros g; [done|].
  intros [Ha Hall]%Forall_cons. rewrite filter_cons. destruct (decide (P a)) as [HP|HP].
  - simpl. case_match; [by apply IH|].
    destruct (CheckedAlignTo _ _) as [al'|]; simpl; [|done].
    destruct (CheckedAdd al' _); simpl; [|done].
    destruct (CheckedAdd (offset a) _); simpl; [|done].
    case_match; [done|]. by apply IH.
  - simpl. apply Ha, usage_disjoint_spec in HP. rewrite HP. by apply IH.
Qed.

Lemma PurgeActiveAllocs_filter node ar :
  Forall (λ a, tensor a ≠ -1) (active_allocs_ ar) →
  active_allocs_ (PurgeActiveAllocs node ar)
  = filter (λ a, node ≤ last_node a) (active_allocs_ ar).
Proof.
  unfold PurgeActiveAllocs, erase_marked. simpl.
  induction (active_allocs_ ar) as [|a l IH]; [done|].
  intros [Ha Hl]%Forall_cons. simpl. rewrite !filter_cons.
  destruct (Z.ltb_spec (last_node a) node); simpl.
  - rewrite (decide_False (P := node ≤ last_node a)) by lia. by apply IH.
  - rewrite (decide_True (P := node ≤ last_node a)) by lia. rewrite decide_True by done.
    f_equal. by apply IH.
Qed.

(** Erasing marked entries is a sublist operation. *)
Lemma erase_marked_wf (mark : Alloc → bool) ar :
  arena_wf ar →
  arena_wf (set_active
    (erase_marked ((λ x, if mark x then set_tensor (-1) x else x) <$> active_allocs_ ar)) ar).
Proof.
  intros [[Hs Hw Hm] Hmark Hc].
  assert (∀ (P : Alloc → Prop) l, (∀ x, P x → P (set_tensor (-1) x)) → Forall P l →
    Forall P (erase_marked ((λ x, if mark x then set_tensor (-1) x else x) <$> l))) as Hall.
  { intros P l HP Hl. unfold erase_marked. rewrite Forall_forall in *.
    intros x [_ (y & -> & Hy)%list_elem_of_fmap]%list_elem_of_filter.
    case_match; auto. }
  split; [split; simpl|..]; simpl; auto.
  - apply StronglySorted_filter. eapply StronglySorted_fmap; [|exact Hs].
    intros x y Hxy. destruct (mark x), (mark y); exact Hxy.
  - apply StronglySorted_filter. eapply StronglySorted_fmap; [|done].
    intros x y Hxy. destruct (mark x), (mark y); exact Hxy.
Qed.

Lemma PurgeAfter_wf node ar : arena_wf ar → arena_wf (PurgeAfter node ar).
Proof. apply (erase_marked_wf (λ x, first_node x >? node)). Qed.

Lemma PurgeActiveAllocs_wf node ar : arena_wf ar → arena_wf (PurgeActiveAllocs node ar).
Proof. apply (erase_marked_wf (λ x, last_node x <? node)). Qed.

Lemma ResetAllocs_wf ar : arena_wf ar → arena_wf (ResetAllocs ar).
Proof. intros [[_ _ Hm] _ _]. split; [split|..]; simpl; done || constructor. Qed.

Lemma CalculateActiveAllocs_wf `{StdSort} allocs node ar :
  is_size (high_water_mark_ ar) →
  Forall (λ a, alloc_wf a ∧ offset a + size a ≤ high_water_mark_ ar) allocs →
  StronglySorted compatible allocs →
  arena_wf (CalculateActiveAllocs allocs node ar).
Proof.
  intros Hm Hall Hc. unfold CalculateActiveAllocs.
  set (l := filter _ allocs).
  assert (strict_weak alloc_lt) as Hsw by apply (strict_weak_key offset).
  pose proof (std_sort_perm alloc_lt l Hsw) as Hp.
  assert (∀ P : Alloc → Prop, Forall P allocs → Forall P (std_sort alloc_lt l)) as Hfor.
  { intros P. rewrite Hp, !Forall_forall. intros HP x [_ ?]%list_elem_of_filter. auto. }
  split; [split|..]; simpl; try done.
  - by apply std_sort_sorted.
  - apply Hfor. eapply Forall_impl; [done|]. by intros a [].
  - apply Hfor. eapply Forall_impl; [done|]. by intros a [].
  - eapply (pairwise_perm compatible l); [by symmetry|]. by apply StronglySorted_filter.
Qed.
#[export] Hint Resolve PurgeAfter_wf PurgeActiveAllocs_wf ResetAllocs_wf : litert.

(** ** An instance of the platform: addresses only grow *)

Definition heap_end (h : heap) : Z :=
  foldr (λ kv acc, Z.max acc (kv.1 + zlen kv.2 + 1)) 1 (map_to_list h).

Lemma heap_end_bound h q block : h !! q = Some block → q + zlen block < heap_end h.
Proof.
  intros Hq%elem_of_map_to_list. unfold heap_end.
  induction (map_to_list h) as [|[k b] l IH]; simpl in *; [by apply not_elem_of_nil in Hq|].
  apply elem_of_cons in Hq as [[= <- <-]|Hq]; [lia|]. specialize (IH Hq). lia.
Qed.

Lemma heap_end_pos h : 0 < heap_end h.
Proof. unfold heap_end. induction (map_to_list h); simpl; lia. Qed.

Lemma heap_end_fresh h p sz : heap_end h ≤ p → p + sz ≤ size_max → fresh_block h p sz.
Proof.
  intros Hp Hmax. pose proof (heap_end_pos h). split_and!; [lia|done| |].
  - destruct (h !! p) as [b|] eqn:Hb; [|done]. apply heap_end_bound in Hb. lia.
  - intros q b Hb%heap_end_bound. unfold ranges_disjoint. lia.
Qed.

Definition bump (al : Z) (h : heap) (sz : Z) : option Z :=
  let p := align_up al (heap_end h) in
  if (0 <? al) && (p + sz <=? size_max) then Some p else None.

Lemma bump_spec al h sz p : bump al h sz = Some p → p mod al = 0 ∧ fresh_block h p sz.
Proof.
  unfold bump. intros Hb. case_match eqn:Hc; simplify_eq.
  apply andb_true_iff in Hc as [Hal%Z.ltb_lt Hmax%Z.leb_le].
  destruct (align_up_spec al (heap_end h) Hal). split; [done|]. apply heap_end_fresh; lia.
Qed.

(** [malloc] aligns to 16 bytes. *)
Definition bump_platform (has_aligned_alloc : bool) : Platform := {|
  TF_LITE_HAS_ALIGNED_ALLOC := has_aligned_alloc;
  c_aligned_alloc h al sz := bump al h sz;
  c_malloc h sz := bump 16 h sz;
  c_aligned_alloc_spec h al sz p := bump_spec al h sz p;
  c_malloc_spec h sz p H := proj2 (bump_spec 16 h sz p H)
|}.

(** ** The properties of the arena *)

(** A request to the arena: size, tensor, first and last node. *)
Record request := { rq_size : Z; rq_tensor : Z; rq_first : Z; rq_last : Z }.

(** The requests in order, from the arena [ar]. *)
Fixpoint allocate_requests (al : Z) (rs : list request) (ar : SimpleMemoryArena) :
    option (list Alloc * SimpleMemoryArena) :=
  match rs with
  | [] => Some ([], ar)
  | r :: rs' =>
      match Allocate al (rq_size r) (rq_tensor r) (rq_first r) (rq_last r)
              (ar, Some reset_alloc) with
      | Done _ (ar', Some a) => '(l, ar'') ← allocate_requests al rs' ar'; Some (a :: l, ar'')
      | _ => None
      end
  end.

Definition total_request (al : Z) (rs : list request) : Z :=
  foldr (λ r acc, al - 1 + rq_size r + acc) 0 rs.

(** [Allocate] when the arena has room for the request. *)
Lemma Allocate_fits ar na al sz t f l :
  arena_wf ar → 0 < al ≤ GetAlignment (underlying_buffer_ ar) →
  is_size (GetAlignment (underlying_buffer_ ar)) → 0 ≤ sz →
  high_water_mark_ ar + (al - 1) + sz ≤ size_max →
  ∃ ar' na', Allocate al sz t f l (ar, Some na) = Done () (ar', Some na') ∧
    arena_wf ar' ∧ allocated al ar ar' na' ∧ size na' = sz ∧
    high_water_mark_ ar ≤ high_water_mark_ ar' ≤ high_water_mark_ ar + (al - 1) + sz ∧
    GetAlignment (underlying_buffer_ ar') = GetAlignment (underlying_buffer_ ar) ∧
    Forall (compatible na') (active_allocs_ ar) ∧
    offset na' + size na' ≤ high_water_mark_ ar' ∧
    tensor na' = t ∧ first_node na' = f ∧ last_node na' = l.
Proof.
  intros Hwf Hal Hgal Hsz Hfit. pose proof (as_mark _ Hwf) as Hm. unfold is_size in *.
  destruct (Allocate_total ar na al sz t f l) as ([ar' p'] & Hrun & Hmark); [done..|].
  assert (is_size al ∧ is_size sz) as [Hal' Hsz'] by (unfold is_size; lia).
  pose proof (Allocate_spec al sz t f l ar na Hal' Hsz' Hwf) as Hspec.
  eapply wp_done in Hspec as (na' & Hp & Hall & Hs' & Hsize & ? & ? & ?); [|done].
  simpl in *. subst p'. destruct (allocated_wf _ _ _ _ Hwf Hs' Hall) as (Hwf' & Hc & Hm').
  assert (high_water_mark_ ar ≤ high_water_mark_ ar' ∧
          underlying_buffer_ ar' = underlying_buffer_ ar) as [Hmono Hbuf].
  { destruct Hall as [_ Hall]. case_match; [destruct Hall as [_ ->]; split; [lia|done]|].
    destruct Hall as (_ & _ & _ & -> & -> & _). split; [lia|done]. }
  exists ar', na'. rewrite Hbuf. split_and!; try done; lia.
Qed.

Lemma allocate_requests_total al rs ar :
  arena_wf ar → 0 < al ≤ GetAlignment (underlying_buffer_ ar) →
  is_size (GetAlignment (underlying_buffer_ ar)) →
  Forall (λ r, 0 ≤ rq_size r) rs →
  high_water_mark_ ar + total_request al rs ≤ size_max →
  ∃ l ar', allocate_requests al rs ar = Some (l, ar') ∧ arena_wf ar' ∧
    (size <$> l) = (rq_size <$> rs) ∧
    high_water_mark_ ar ≤ high_water_mark_ ar' ≤ high_water_mark_ ar + total_request al rs ∧
    Forall (λ a, Forall (compatible a) (active_allocs_ ar)) l ∧
    Forall (λ a, alloc_wf a ∧ offset a mod al = 0 ∧
                 offset a + size a ≤ high_water_mark_ ar') l ∧
    StronglySorted compatible l.
Proof.
  revert ar. induction rs as [|r rs IH]; intros ar Hwf Hal Hgal; simpl.
  { intros _ _. exists [], ar. split_and!; try done; try constructor; lia. }
  intros [Hr Hrs]%Forall_cons Hfit.
  assert (0 ≤ total_request al rs) as Htot.
  { clear -Hrs Hal. induction Hrs; simpl; lia. }
  destruct (Allocate_fits ar reset_alloc al (rq_size r) (rq_tensor r) (rq_first r) (rq_last r))
    as (ar1 & a & -> & Hwf1 & Hall & Hsize & Hm1 & Hg1 & Hc1 & He1 & _); [done..|lia|].
  destruct (IH ar1) as (l & ar' & -> & Hwf' & Hlen & Hm & Hcl & Hl & Hs);
    [done|by rewrite Hg1|by rewrite Hg1|done|lia|]. simpl.
  pose proof Hall as [Hawf Hall'].
  exists (a :: l), ar'. split_and!; try done; [by rewrite fmap_cons, Hlen, Hsize|lia|lia|..].
  - constructor; [done|]. eapply Forall_impl; [exact Hcl|]. intros b Hb. simpl in *.
    case_match; [by destruct Hall' as [_ ->]|]. destruct Hall' as (_ & _ & Hact & _).
    rewrite Hact, insert_upper_bound_perm in Hb. by apply Forall_cons in Hb as [_ ?].
  - constructor; [|done]. split; [done|]. split; [|lia].
    case_match; [destruct Hall' as [-> _]; apply Zmod_0_l|tauto].
  - constructor; [done|]. case_match eqn:Hz.
    + apply Z.eqb_eq in Hz. destruct Hall' as [Ho _].
      eapply Forall_impl; [exact Hl|]. intros b [Hb _]. by apply compatible_zero_size.
    + destruct Hall' as (_ & _ & Hact & _). eapply Forall_impl; [exact Hcl|].
      intros b Hb. simpl in Hb. rewrite Hact, insert_upper_bound_perm in Hb.
      apply Forall_cons in Hb as [Hb _]. by symmetry.
Qed.

Lemma new_arena_wf al : arena_wf (new_arena al).
Proof. split; [split|..]; try constructor; done. Qed.

(** C40: A fresh arena serves any sequence of requests whose sizes, each padded
    by the alignment, fit into [size_t]: no call fails, every allocation is
    aligned and lies below the high water mark, the mark is at most the padded
    total, and any two allocations used at a common node are disjoint. *)
Theorem fresh_arena_serves_all al base_al rs :
  0 < al ≤ base_al → base_al ≤ size_max →
  Forall (λ r, 0 ≤ rq_size r) rs → total_request al rs ≤ size_max →
  ∃ l ar, allocate_requests al rs (new_arena base_al) = Some (l, ar) ∧
    size <$> l = rq_size <$> rs ∧
    high_water_mark_ ar ≤ total_request al rs ∧
    Forall (λ a, offset a mod al = 0 ∧ 0 ≤ offset a ∧
                 offset a + size a ≤ high_water_mark_ ar) l ∧
    StronglySorted compatible l.
Proof.
  intros Hal Hbase Hrs Htot.
  destruct (allocate_requests_total al rs (new_arena base_al))
    as (l & ar & Hrun & _ & Hsize & Hm & _ & Hl & Hc).
  1: by apply new_arena_wf. 1: done. 1: unfold is_size; simpl; lia. 1-2: done.
  exists l, ar. split_and!; try done; [simpl in Hm; lia|].
  eapply Forall_impl; [exact Hl|]. intros a ((? & _) & ? & ?). done.
Qed.

Definition three_requests : list request :=
  [ {| rq_size := 10; rq_tensor := 0; rq_first := 0; rq_last := 1 |};
    {| rq_size := 20; rq_tensor := 1; rq_first := 1; rq_last := 2 |};
    {| rq_size := 8; rq_tensor := 2; rq_first := 2; rq_last := 3 |} ].

Lemma fresh_arena_serves_all_witness :
  ∃ l ar, allocate_requests 16 three_requests (new_arena 64) = Some (l, ar) ∧
    size <$> l = [10; 20; 8] ∧ high_water_mark_ ar ≤ 83 ∧
    Forall (λ a, offset a mod 16 = 0 ∧ 0 ≤ offset a ∧
                 offset a + size a ≤ high_water_mark_ ar) l ∧
    StronglySorted compatible l.
Proof.
  apply (fresh_arena_serves_all 16 64 three_requests).
  - lia.
  - unfold size_max. lia.
  - repeat constructor; simpl; lia.
  - vm_compute. discriminate.
Defined.

Definition sample_alloc (off sz f l : Z) : Alloc :=
  {| offset := off; size := sz; tensor := 0; first_node := f; last_node := l |}.

(** Two live allocations with a gap between them. *)
Definition sample_arena : SimpleMemoryArena := {|
  committed_ := false; high_water_mark_ := 100;
  underlying_buffer_ := new_buffer 64;
  active_allocs_ := [sample_alloc 0 16 0 5; sample_alloc 64 36 0 5]
|}.

Lemma sample_arena_wf : arena_wf sample_arena.
Proof.
  split; [split|..]; repeat constructor; try done.
Qed.

Lemma Allocate_no_overlap_witness :
  arena_wf sample_arena ∧
  Allocate 16 40 7 2 3 (sample_arena, Some reset_alloc)
    = Done () ({| committed_ := false; high_water_mark_ := 100;
                  underlying_buffer_ := new_buffer 64;
                  active_allocs_ :=
                    [sample_alloc 0 16 0 5;
                     {| offset := 16; size := 40; tensor := 7; first_node := 2; last_node := 3 |};
                     sample_alloc 64 36 0 5] |},
               Some {| offset := 16; size := 40; tensor := 7; first_node := 2; last_node := 3 |}) ∧
  wp (Allocate 16 40 7 2 3)
    (λ _ s', arena_wf s'.1 ∧ ∃ na', s'.2 = Some na' ∧
       (size na', tensor na', first_node na', last_node na') = (40, 7, 2, 3) ∧
       offset na' mod 16 = 0 ∧ offset na' + 40 ≤ high_water_mark_ s'.1 ∧
       Forall (compatible na') (active_allocs_ sample_arena) ∧
       (0 < 40 → na' ∈ active_allocs_ s'.1))
    (λ s', s'.1 = sample_arena) (sample_arena, Some reset_alloc).
Proof.
  split; [exact sample_arena_wf|]. split; [vm_compute; reflexivity|].
  apply Allocate_no_overlap; [exact sample_arena_wf| |]; vm_compute; split; discriminate.
Defined.

(** What a caller of [Allocate] observes: the status, [*new_alloc] and the high
    water mark. *)
Definition observe (o : outcome (SimpleMemoryArena * ptr Alloc) ()) : option (bool * ptr Alloc * Z) :=
  match o with
  | Done _ s => Some (true, s.2, high_water_mark_ s.1)
  | Error s => Some (false, s.2, high_water_mark_ s.1)
  | Undefined => None
  end.

(** As its comment in the header says, [PurgeActiveAllocs] has no impact on
    the result of later allocations: for nodes from [node] on, [Allocate] returns
    the same status, allocation and high water mark with and without it. *)
Theorem PurgeActiveAllocs_no_impact ar node na al sz t f l :
  Forall (λ a, tensor a ≠ -1) (active_allocs_ ar) → node ≤ f →
  observe (Allocate al sz t f l (PurgeActiveAllocs node ar, Some na))
  = observe (Allocate al sz t f l (ar, Some na)).
Proof.
  intros Ht Hnode.
  assert (∀ g, search_gaps al sz f l (active_allocs_ (PurgeActiveAllocs node ar)) g
               = search_gaps al sz f l (active_allocs_ ar) g) as Hs.
  { intros g. rewrite PurgeActiveAllocs_filter by done. apply search_gaps_filter.
    rewrite Forall_forall. intros a _ Ha [_ Hu]. lia. }
  assert (high_water_mark_ (PurgeActiveAllocs node ar) = high_water_mark_ ar) as Hm by done.
  assert (underlying_buffer_ (PurgeActiveAllocs node ar) = underlying_buffer_ ar) as Hb by done.
  revert Hs Hm Hb. generalize (PurgeActiveAllocs node ar) as ar'. intros ar' Hs Hm Hb.
  unfold Allocate, ensure, mbind, M_bind, gets, put, deref, mret, M_ret, fail. simpl.
  destruct (al =? 0); simpl; [by rewrite Hm|]. rewrite Hb.
  destruct (al <=? _); simpl; [|by rewrite Hm].
  destruct (sz =? 0); simpl; [by rewrite Hm|]. rewrite Hs.
  destruct (option_bind _ _ _) as [[off req]|]; simpl; by rewrite Hm.
Qed.

Lemma PurgeActiveAllocs_no_impact_witness :
  active_allocs_ (PurgeActiveAllocs 6 sample_arena) = [] ∧
  observe (Allocate 16 40 7 6 8 (PurgeActiveAllocs 6 sample_arena, Some reset_alloc))
  = observe (Allocate 16 40 7 6 8 (sample_arena, Some reset_alloc)).
Proof.
  split; [reflexivity|].
  apply PurgeActiveAllocs_no_impact; [repeat constructor; discriminate|lia].
Defined.

(** The header says the same of [PurgeAfter], but there the claim is wrong: the
    allocations it drops start after [node], exactly where the next allocations
    are placed. *)
Theorem PurgeAfter_has_impact :
  let ar := {| committed_ := false; high_water_mark_ := 64;
               underlying_buffer_ := new_buffer 64;
               active_allocs_ := [sample_alloc 0 64 3 5] |} in
  observe (Allocate 16 40 7 3 4 (ar, Some reset_alloc))
    = Some (true, Some {| offset := 64; size := 40; tensor := 7;
                          first_node := 3; last_node := 4 |}, 104) ∧
  observe (Allocate 16 40 7 3 4 (PurgeAfter 2 ar, Some reset_alloc))
    = Some (true, Some {| offset := 0; size := 40; tensor := 7;
                          first_node := 3; last_node := 4 |}, 64).
Proof. by vm_compute. Qed.

Section memory_theorems.
Context `{Platform}.

(** [p, p+n) lies inside one block of the heap. *)
Definition in_block (h : heap) (p n : Z) : Prop :=
  ∃ base block, h !! base = Some block ∧ base ≤ p ∧ p + n ≤ base + zlen block.

(** [ResizableAlignedBuffer::Resize] has no undefined behaviour. On success
    the buffer has at least [sz] aligned bytes inside one block of the heap,
    the old data are still at its front, every other block is unchanged and
    the result says whether the data moved; it fails only if the block cannot be
    obtained, with heap and buffer as before. *)
Theorem Resize_correct h b sz r :
  heap_ok h → buffer_ok h b → 0 < alignment_ b ≤ size_max → is_size sz →
  wp (Resize sz (Some r))
    (λ moved s',
       heap_ok s'.1 ∧ buffer_ok s'.1 s'.2 ∧
       data_size_ s'.2 = Z.max (data_size_ b) sz ∧
       (0 < sz → in_block s'.1 (GetPtr s'.2) sz ∧ GetPtr s'.2 mod alignment_ b = 0) ∧
       take (Z.to_nat (data_size_ b)) (contents s'.1 s'.2) = contents h b ∧
       (∀ q, q ≠ pointer (buffer_ b) → q ≠ pointer (buffer_ s'.2) → s'.1 !! q = h !! q) ∧
       (moved = true ↔ GetPtr s'.2 ≠ GetPtr b))
    (λ s', s' = (h, b) ∧ data_size_ b < sz ∧ unobtainable h sz (alignment_ b)) (h, b).
Proof.
  intros Hh Hb Hal Hsz. eapply wp_mono; [by apply Resize_spec| |done].
  intros moved [h' b'] [[Hok Hh' Hal' Hds Hc _ Hq] Hm]. simpl in *.
  split_and!; try done; [|apply Hm..]. intros Hpos.
  destruct Hok as [[_ H0]|(block & Hl & Hp & Hmod & _ & Hend & _)]; [lia|].
  split; [|by rewrite <- Hal']. exists (pointer (buffer_ b')), block. split; [done|lia].
Qed.

(** After a successful [Commit], [ResolveAlloc] gives every active
    allocation an aligned address inside the arena's block, and two
    allocations in use at a common node disjoint addresses. [Commit] itself
    has no undefined behaviour; it fails only if a larger block cannot be obtained,
    and then only [committed_] changed. *)
Theorem committed_allocs_disjoint h ar r :
  arena_wf ar → arena_memory_ok h ar →
  wp (Commit (Some r))
    (λ _ s', arena_wf s'.2 ∧ arena_memory_ok s'.1 s'.2 ∧
       ∀ i a, active_allocs_ ar !! i = Some a → 0 < size a → ∃ p,
         ResolveAlloc a (Some 0) s'.2 = Done p s'.2 ∧ in_block s'.1 p (size a) ∧
         (∀ al, 0 < al → alignment_ (underlying_buffer_ ar) mod al = 0 →
            offset a mod al = 0 → p mod al = 0) ∧
         ∀ j b q, active_allocs_ ar !! j = Some b → i ≠ j → 0 < size b →
           ResolveAlloc b (Some 0) s'.2 = Done q s'.2 →
           used_in (first_node b) (last_node b) a →
           ranges_disjoint p (size a) q (size b))
    (λ s', s' = (h, set_committed false ar) ∧ GetSize (underlying_buffer_ ar) < high_water_mark_ ar ∧
       unobtainable h (high_water_mark_ ar) (alignment_ (underlying_buffer_ ar))) (h, ar).
Proof.
  intros Hwf Hmem. pose proof Hwf as [[Hsort Hall Hm] Hmark Hcomp].
  eapply wp_mono; [by apply Commit_spec| |done].
  intros moved [h' ar'] (Hmem' & Hr & Hc & Hm' & Ha' & _). simpl in *.
  set (base := GetPtr (underlying_buffer_ ar')).
  assert (∀ i a, active_allocs_ ar !! i = Some a → 0 < size a →
    ResolveAlloc a (Some 0) ar' = Done (base + offset a) ar') as Hres.
  { intros i a Hi Hpos. rewrite Forall_lookup in Hall, Hmark.
    pose proof (Hmark i a Hi) as Hle. simpl in Hle.
    pose proof (ResolveAlloc_spec h' ar' a 0) as Hspec.
    ospecialize (Hspec _ _ _ _); [by apply am_buffer|done|by eapply Hall| |].
    { unfold GetSize. rewrite (rs_size _ _ _ _ _ Hr). lia. }
    apply wp_no_error in Hspec as (p & s & -> & -> & ->). case_match; [lia|done]. }
  split; [|split; [done|]].
  { split; [split|..]; by rewrite ?Ha', ?Hm'. }
  intros i a Hi Hpos. exists (base + offset a). split; [by eapply Hres|].
  rewrite Forall_lookup in Hall, Hmark.
  destruct (Hall i a Hi) as (Ho & _ & _). pose proof (Hmark i a Hi) as Hle. simpl in Hle.
  destruct (am_buffer _ _ Hmem') as [[_ H0]|(block & Hl & Hp & Hmod & _ & Hend & _)].
  { rewrite (rs_size _ _ _ _ _ Hr) in H0. lia. }
  rewrite (rs_size _ _ _ _ _ Hr) in Hend. rewrite (rs_alignment _ _ _ _ _ Hr) in Hmod.
  fold base in Hp, Hmod, Hend. split_and!.
  - eexists _, block. split; [done|lia].
  - intros al Hal Hd1 Hd2. apply Z.mod_divide in Hmod; [|destruct Hmem; lia].
    apply Z.mod_divide in Hd1; [|lia]. apply Z.mod_divide in Hd2; [|lia].
    apply Z.mod_divide; [lia|]. apply Z.divide_add_r; [|done].
    by apply (Z.divide_trans _ (alignment_ (underlying_buffer_ ar))).
  - intros j b q Hj Hij Hb Hq Hu. rewrite (Hres j b Hj Hb) in Hq. injection Hq as <-.
    assert (compatible a b) as Hab.
    { destruct (decide (i < j)%nat).
      - by apply (StronglySorted_lookup compatible (active_allocs_ ar) i j).
      - symmetry. apply (StronglySorted_lookup compatible (active_allocs_ ar) j i); done || lia. }
    specialize (Hab Hu). unfold ranges_disjoint in *. lia.
Qed.
End memory_theorems.

(** A platform with [aligned_alloc] for the witnesses. *)
#[local] Instance test_platform : Platform := bump_platform true.

Lemma empty_heap_ok : heap_ok ∅.
Proof. intros p q bp bq Hp. by rewrite lookup_empty in Hp. Qed.

Lemma Resize_correct_witness :
  heap_ok ∅ ∧ buffer_ok ∅ (new_buffer 64) ∧
  wp (Resize 100 (Some false))
    (λ moved s',
       heap_ok s'.1 ∧ buffer_ok s'.1 s'.2 ∧
       data_size_ s'.2 = Z.max (data_size_ (new_buffer 64)) 100 ∧
       (0 < 100 → in_block s'.1 (GetPtr s'.2) 100 ∧ GetPtr s'.2 mod alignment_ (new_buffer 64) = 0) ∧
       take (Z.to_nat (data_size_ (new_buffer 64))) (contents s'.1 s'.2) = contents ∅ (new_buffer 64) ∧
       (∀ q, q ≠ pointer (buffer_ (new_buffer 64)) → q ≠ pointer (buffer_ s'.2) →
          s'.1 !! q = (∅ : heap) !! q) ∧
       (moved = true ↔ GetPtr s'.2 ≠ GetPtr (new_buffer 64)))
    (λ s', s' = (∅, new_buffer 64) ∧ data_size_ (new_buffer 64) < 100 ∧ unobtainable ∅ 100 (alignment_ (new_buffer 64)))
    (∅, new_buffer 64).
Proof.
  split; [exact empty_heap_ok|]. split; [by left|].
  apply Resize_correct; [exact empty_heap_ok|by left|..]; vm_compute; repeat split; discriminate.
Defined.

Lemma committed_allocs_disjoint_witness :
  arena_wf sample_arena ∧ arena_memory_ok ∅ sample_arena ∧
  wp (Commit (Some false))
    (λ _ s', arena_wf s'.2 ∧ arena_memory_ok s'.1 s'.2 ∧
       ∀ i a, active_allocs_ sample_arena !! i = Some a → 0 < size a → ∃ p,
         ResolveAlloc a (Some 0) s'.2 = Done p s'.2 ∧ in_block s'.1 p (size a) ∧
         (∀ al, 0 < al → alignment_ (underlying_buffer_ sample_arena) mod al = 0 →
            offset a mod al = 0 → p mod al = 0) ∧
         ∀ j b q, active_allocs_ sample_arena !! j = Some b → i ≠ j → 0 < size b →
           ResolveAlloc b (Some 0) s'.2 = Done q s'.2 →
           used_in (first_node b) (last_node b) a →
           ranges_disjoint p (size a) q (size b))
    (λ s', s' = (∅, set_committed false sample_arena) ∧
       GetSize (underlying_buffer_ sample_arena) < high_water_mark_ sample_arena ∧
       unobtainable ∅ (high_water_mark_ sample_arena) (alignment_ (underlying_buffer_ sample_arena))) (∅, sample_arena).
Proof.
  assert (arena_memory_ok ∅ sample_arena) as Hmem.
  { split; [exact empty_heap_ok|by left|]. vm_compute. split; [reflexivity|discriminate]. }
  split; [exact sample_arena_wf|]. split; [exact Hmem|].
  apply committed_allocs_disjoint; [exact sample_arena_wf|exact Hmem].
Defined.
