(* ===== verification/ArenaPlanner.v ===== *)
(** * The arena planner ([src/tflite/arena_planner.{h,cc}])

    [ArenaPlanner] decides when each tensor of a graph has to be allocated and
    freed ([PlanAllocations]), which outputs may reuse the memory of an input
    ([IdentifyInPlaceTensors]), and places the tensors in two memory arenas
    ([ExecuteAllocations]). *)

From S2P Require Import Prelude SimpleMemoryArena.

(** ** The graph ([GraphInfo]) *)

Inductive TfLiteAllocationType :=
| kTfLiteMemNone | kTfLiteMmapRo | kTfLiteArenaRw | kTfLiteArenaRwPersistent
| kTfLiteDynamic | kTfLitePersistentRo | kTfLiteCustom | kTfLiteVariantObject
| kTfLiteNonCpu.

#[export] Instance allocation_type_eq_dec : EqDecision TfLiteAllocationType.
Proof. solve_decision. Defined.

Definition kTfLiteOptionalTensor : Z := -1.

Definition kTfLiteInplaceOpNone : Z := 0.
Definition kTfLiteInplaceOpDataUnmodified : Z := 1.
Definition kTfLiteInplaceOpInput0Shared : Z := 4.
Definition kTfLiteMaxSharableOpInputs : Z := 3.

Record TfLiteTensor := {
  allocation_type : TfLiteAllocationType;
  bytes : Z;
  data : Z
}.

(** A node with the in-place flags of its registration. *)
Record TfLiteNode := {
  inputs : list Z;
  outputs : list Z;
  temporaries : list Z;
  inplace_operator : Z
}.

(** The tensors are part of the planner's state, which writes their pointers. *)
Record GraphInfo := {
  nodes : list TfLiteNode;
  graph_inputs : list Z;
  graph_outputs : list Z;
  graph_variables : list Z
}.

Definition num_execution_nodes (g : GraphInfo) : Z := zlen (nodes g).

(** ** Unordered sets

    A [std::unordered_set] by the insertions that took place; the order in which
    it enumerates its elements is left open. *)

Definition uset := list Z.

Definition uset_insert (x : Z) (s : uset) : uset := if decide (x ∈ s) then s else s ++ [x].

Class UnorderedOrder := {
  uset_elements : uset → list Z;
  uset_elements_perm s : uset_elements s ≡ₚ s
}.

(** ** The state *)

Definition kLastActiveNodeUndefined : Z := int32_max.
Definition kNodeNotAssigned : Z := int32_max.
Definition kScalarTensorBytes : Z := 4.
Definition kDefaultArenaAlignment : Z := 64.

Record ArenaPlanner := MkPlanner {
  memory : heap;
  tensors : list TfLiteTensor;
  allocs_ : list Alloc;
  nodes_to_tensors_ : list uset;
  alloc_node_ : list Z;
  dealloc_node_ : list Z;
  arena_ : SimpleMemoryArena;
  has_nonpersistent_memory_ : bool;
  persistent_arena_ : SimpleMemoryArena;
  last_active_node_ : Z;
  actual_tensor_id_ : gmap Z Z;
  refcounts_ : list Z
}.

Definition new_planner (h : heap) (ts : list TfLiteTensor) : ArenaPlanner :=
  MkPlanner h ts [] [] [] [] (new_arena kDefaultArenaAlignment) false
    (new_arena kDefaultArenaAlignment) kLastActiveNodeUndefined ∅ [].

Definition set_memory v s := MkPlanner v (tensors s) (allocs_ s) (nodes_to_tensors_ s)
  (alloc_node_ s) (dealloc_node_ s) (arena_ s) (has_nonpersistent_memory_ s)
  (persistent_arena_ s) (last_active_node_ s) (actual_tensor_id_ s) (refcounts_ s).
Definition set_tensors v s := MkPlanner (memory s) v (allocs_ s) (nodes_to_tensors_ s)
  (alloc_node_ s) (dealloc_node_ s) (arena_ s) (has_nonpersistent_memory_ s)
  (persistent_arena_ s) (last_active_node_ s) (actual_tensor_id_ s) (refcounts_ s).
Definition set_allocs v s := MkPlanner (memory s) (tensors s) v (nodes_to_tensors_ s)
  (alloc_node_ s) (dealloc_node_ s) (arena_ s) (has_nonpersistent_memory_ s)
  (persistent_arena_ s) (last_active_node_ s) (actual_tensor_id_ s) (refcounts_ s).
Definition set_nodes_to_tensors v s := MkPlanner (memory s) (tensors s) (allocs_ s) v
  (alloc_node_ s) (dealloc_node_ s) (arena_ s) (has_nonpersistent_memory_ s)
  (persistent_arena_ s) (last_active_node_ s) (actual_tensor_id_ s) (refcounts_ s).
Definition set_alloc_node v s := MkPlanner (memory s) (tensors s) (allocs_ s)
  (nodes_to_tensors_ s) v (dealloc_node_ s) (arena_ s) (has_nonpersistent_memory_ s)
  (persistent_arena_ s) (last_active_node_ s) (actual_tensor_id_ s) (refcounts_ s).
Definition set_dealloc_node v s := MkPlanner (memory s) (tensors s) (allocs_ s)
  (nodes_to_tensors_ s) (alloc_node_ s) v (arena_ s) (has_nonpersistent_memory_ s)
  (persistent_arena_ s) (last_active_node_ s) (actual_tensor_id_ s) (refcounts_ s).
Definition set_arena v s := MkPlanner (memory s) (tensors s) (allocs_ s)
  (nodes_to_tensors_ s) (alloc_node_ s) (dealloc_node_ s) v (has_nonpersistent_memory_ s)
  (persistent_arena_ s) (last_active_node_ s) (actual_tensor_id_ s) (refcounts_ s).
Definition set_has_nonpersistent v s := MkPlanner (memory s) (tensors s) (allocs_ s)
  (nodes_to_tensors_ s) (alloc_node_ s) (dealloc_node_ s) (arena_ s) v
  (persistent_arena_ s) (last_active_node_ s) (actual_tensor_id_ s) (refcounts_ s).
Definition set_persistent_arena v s := MkPlanner (memory s) (tensors s) (allocs_ s)
  (nodes_to_tensors_ s) (alloc_node_ s) (dealloc_node_ s) (arena_ s)
  (has_nonpersistent_memory_ s) v (last_active_node_ s) (actual_tensor_id_ s) (refcounts_ s).
Definition set_last_active_node v s := MkPlanner (memory s) (tensors s) (allocs_ s)
  (nodes_to_tensors_ s) (alloc_node_ s) (dealloc_node_ s) (arena_ s)
  (has_nonpersistent_memory_ s) (persistent_arena_ s) v (actual_tensor_id_ s) (refcounts_ s).
Definition set_actual_tensor_id v s := MkPlanner (memory s) (tensors s) (allocs_ s)
  (nodes_to_tensors_ s) (alloc_node_ s) (dealloc_node_ s) (arena_ s)
  (has_nonpersistent_memory_ s) (persistent_arena_ s) (last_active_node_ s) v (refcounts_ s).
Definition set_refcounts v s := MkPlanner (memory s) (tensors s) (allocs_ s)
  (nodes_to_tensors_ s) (alloc_node_ s) (dealloc_node_ s) (arena_ s)
  (has_nonpersistent_memory_ s) (persistent_arena_ s) (last_active_node_ s)
  (actual_tensor_id_ s) v.

Definition set_tensor_data (p : Z) (t : TfLiteTensor) : TfLiteTensor :=
  {| allocation_type := allocation_type t; bytes := bytes t; data := p |}.

(** [tensors[i].data.raw = p]. *)
Definition write_data (i p : Z) : M ArenaPlanner unit :=
  t ← vget tensors i; vset tensors set_tensors i (set_tensor_data p t).

(** [vector::resize]. *)
Definition resize_list {A} (n : nat) (x : A) (l : list A) : list A :=
  take n l ++ replicate (n - length l) x.

(** The arenas with the heap they live in. *)
Definition with_arena {A} (m : M (heap * SimpleMemoryArena) A) : M ArenaPlanner A :=
  zoom (λ s, (memory s, arena_ s)) (λ ha s, set_memory ha.1 (set_arena ha.2 s)) m.

Definition with_persistent_arena {A} (m : M (heap * SimpleMemoryArena) A) : M ArenaPlanner A :=
  zoom (λ s, (memory s, persistent_arena_ s))
       (λ ha s, set_memory ha.1 (set_persistent_arena ha.2 s)) m.

(** Calling a function and dropping its status. *)
Definition ignore_status {S A} (m : M S A) : M S unit := λ s,
  match m s with
  | Done _ s' | Error s' => Done tt s'
  | Undefined => Undefined
  end.

Section planner.
Context `{Platform} `{StdSort} `{UnorderedOrder}.
Context (g : GraphInfo) (preserve_all_tensors_ : bool) (tensor_alignment_ : Z).

(** ** Resetting *)

Definition ResetAllocations : M ArenaPlanner unit :=
  with_arena ClearPlan ;;
  with_persistent_arena ClearPlan ;;
  modify (λ s, set_allocs (replicate (length (tensors s)) reset_alloc) s) ;;
  modify (set_last_active_node kLastActiveNodeUndefined).

Definition ResetAllocationsAfter (node : Z) : M ArenaPlanner unit :=
  allocs ← gets allocs_;
  for_each (range 0 (zlen allocs)) (λ i,
    a ← vget allocs_ i;
    if (first_node a >? node) && (size a >? 0) then
      tensor ← vget tensors i;
      if decide (allocation_type tensor = kTfLiteArenaRw) then
        vset allocs_ set_allocs i reset_alloc ;;
        write_data i 0
      else mret ()
    else mret ()) ;;
  s ← get;
  (if last_active_node_ s >? node
   then modify (set_arena (CalculateActiveAllocs (allocs_ s) node (arena_ s)))
   else modify (set_arena (PurgeAfter node (arena_ s)))) ;;
  modify (set_last_active_node node).

(** ** In-place tensors *)

Definition FindSharedTensor (m : gmap Z Z) (tensor_index : Z) : Z :=
  default tensor_index (m !! tensor_index).

Definition InputTensorCanBeShared (input_tensor output_tensor : TfLiteTensor)
    (input_id output_id : Z) (tensor_changed : bool) : M ArenaPlanner bool :=
  changed_ok ←
    (if tensor_changed then
       if negb (bytes input_tensor =? bytes output_tensor)
          || (bytes input_tensor <=? kScalarTensorBytes) then mret false
       else
         refcount ← vget refcounts_ input_id;
         mret (negb (refcount >? 1))
     else mret true);
  mret (changed_ok &&
        bool_decide (input_id ∉ graph_inputs g) &&
        bool_decide (output_id ∉ graph_outputs g) &&
        negb (bool_decide (allocation_type input_tensor ≠ allocation_type output_tensor) &&
              bool_decide (allocation_type input_tensor ≠ kTfLiteArenaRw)) &&
        negb preserve_all_tensors_).

(** The inner loop: the first shareable input, -1 when there is none. [ids] are
    the inputs from position [i] on. *)
Fixpoint find_shareable_input (inplace : Z) (output_tensor : TfLiteTensor) (output_id : Z)
    (tensor_changed : bool) (i : Z) (ids : list Z) : M ArenaPlanner Z :=
  match ids with
  | [] => mret (-1)
  | id :: ids' =>
      let next := find_shareable_input inplace output_tensor output_id tensor_changed (i + 1) ids' in
      if id =? kTfLiteOptionalTensor then next
      else if negb (Z.land inplace (Z.shiftl kTfLiteInplaceOpInput0Shared i) =? 0) then
        input_tensor ← vget tensors id;
        shared ← InputTensorCanBeShared input_tensor output_tensor id output_id tensor_changed;
        if shared : bool then mret id else next
      else next
  end.

Definition identify_in_place (node : TfLiteNode) : M ArenaPlanner unit :=
  match outputs node with
  | [] => mret ()
  | output_id :: _ =>
      let inplace := inplace_operator node in
      let tensor_changed := Z.land inplace kTfLiteInplaceOpDataUnmodified =? 0 in
      if inplace =? kTfLiteInplaceOpNone then mret ()
      else
        output_tensor ← vget tensors output_id;
        let loop_end := Z.min kTfLiteMaxSharableOpInputs (zlen (inputs node)) in
        input_id ← find_shareable_input inplace output_tensor output_id tensor_changed 0
                     (take (Z.to_nat loop_end) (inputs node));
        if input_id =? -1 then mret ()
        else
          m ← gets actual_tensor_id_;
          let actual_output_tensor_id := FindSharedTensor m input_id in
          referenced ← (if tensor_changed then
                          refcount ← vget refcounts_ actual_output_tensor_id;
                          mret (refcount >? 1)
                        else mret false);
          if referenced : bool then mret ()
          else modify (λ s, set_actual_tensor_id
                              (<[output_id := actual_output_tensor_id]> (actual_tensor_id_ s)) s)
  end.

Definition IdentifyInPlaceTensors : M ArenaPlanner unit :=
  modify (set_actual_tensor_id ∅) ;;
  for_each (nodes g) identify_in_place.

(** ** [PlanAllocations] *)

Definition allocate (node tensor : Z) : M ArenaPlanner unit :=
  a ← vget alloc_node_ tensor;
  if negb (a =? kNodeNotAssigned) then mret ()
  else
    d ← vget dealloc_node_ tensor;
    ensure (d =? kNodeNotAssigned) ;;
    vset alloc_node_ set_alloc_node tensor node.

Definition deallocate (node tensor : Z) : M ArenaPlanner unit :=
  a ← vget alloc_node_ tensor;
  if a =? kNodeNotAssigned then mret ()
  else
    d ← vget dealloc_node_ tensor;
    ensure (d =? kNodeNotAssigned) ;;
    vset dealloc_node_ set_dealloc_node tensor node.

(** [++refcounts_[tensor]]. *)
Definition add_reference (tensor : Z) : M ArenaPlanner unit :=
  c ← vget refcounts_ tensor; vset refcounts_ set_refcounts tensor (c + 1).

(** [nodes_to_tensors_[node].insert(tensor)]. *)
Definition queue_tensor (node tensor : Z) : M ArenaPlanner unit :=
  u ← vget nodes_to_tensors_ node;
  vset nodes_to_tensors_ set_nodes_to_tensors node (uset_insert tensor u).

(** The body of a loop over tensor indices that skips optional tensors. *)
Definition if_present (tensor : Z) (body : M ArenaPlanner unit) : M ArenaPlanner unit :=
  if tensor =? kTfLiteOptionalTensor then mret () else body.

(** Adding [d] to an entry of the local copy of the reference counts. *)
Definition add_count (d : Z) (refcounts : list Z) (tensor : Z) : M ArenaPlanner (list Z) :=
  c ← deref (zget refcounts tensor); mret (zset tensor (c + d) refcounts).

(** One input of node [i] in the last loop, where references are dropped. *)
Definition drop_reference (i : Z) (refcounts : list Z) (tensor_index : Z) :
    M ArenaPlanner (list Z) :=
  if tensor_index =? kTfLiteOptionalTensor then mret refcounts
  else
    m ← gets actual_tensor_id_;
    let tensor_index := FindSharedTensor m tensor_index in
    refcounts ← add_count (-1) refcounts tensor_index;
    c ← deref (zget refcounts tensor_index);
    (if c =? 0 then deallocate i tensor_index else mret ()) ;;
    mret refcounts.

(** One node of the last loop. *)
Definition plan_node (refcounts : list Z) (i_node : Z * TfLiteNode) : M ArenaPlanner (list Z) :=
  let '(i, node) := i_node in
  for_each (outputs node) (λ tensor_index,
    if_present tensor_index (queue_tensor i tensor_index ;; allocate i tensor_index)) ;;
  if negb preserve_all_tensors_ then fold_m (inputs node) refcounts (drop_reference i)
  else mret refcounts.

Definition enumerated_nodes : list (Z * TfLiteNode) :=
  zip (range 0 (num_execution_nodes g)) (nodes g).

Definition PlanAllocations : M ArenaPlanner unit :=
  ResetAllocations ;;
  num_tensors ← gets (λ s, length (tensors s));
  modify (set_alloc_node (replicate num_tensors kNodeNotAssigned)) ;;
  modify (set_dealloc_node (replicate num_tensors kNodeNotAssigned)) ;;
  modify (set_nodes_to_tensors (replicate (Nat.max (length (nodes g)) 1) [])) ;;
  modify (set_refcounts (replicate num_tensors 0)) ;;
  for_each (graph_outputs g) (λ t, if_present t (add_reference t)) ;;
  for_each (graph_variables g) (λ t,
    add_reference t ;;
    ensure (negb (t =? kTfLiteOptionalTensor)) ;;
    allocate 0 t ;;
    queue_tensor 0 t) ;;
  for_each (graph_inputs g) (λ t,
    if_present t (add_reference t ;; allocate 0 t ;; queue_tensor 0 t)) ;;
  refcounts ← gets refcounts_;
  for_each (nodes g) (λ node,
    for_each (inputs node) (λ t, if_present t (add_reference t))) ;;
  IdentifyInPlaceTensors ;;
  m ← gets actual_tensor_id_;
  refcounts ← fold_m (nodes g) refcounts (λ refcounts node,
    fold_m (inputs node) refcounts (λ refcounts t,
      if t =? kTfLiteOptionalTensor then mret refcounts
      else add_count 1 refcounts (FindSharedTensor m t)));
  fold_m enumerated_nodes refcounts plan_node ;;
  mret ().

(** ** [ExecuteAllocations] *)

Definition through_whole_run (s : ArenaPlanner) (idx : Z) : bool :=
  (default 0 (zget (alloc_node_ s) idx) =? 0) &&
  (default 0 (zget (dealloc_node_ s) idx) =? kNodeNotAssigned).

Definition tensor_bytes (s : ArenaPlanner) (idx : Z) : Z :=
  default 0 (bytes <$> zget (tensors s) idx).

Definition tensor_compare (s : ArenaPlanner) (idx1 idx2 : Z) : bool :=
  if through_whole_run s idx1 then
    if through_whole_run s idx2 then idx1 <? idx2 else true
  else if through_whole_run s idx2 then false
  else
    let size1 := tensor_bytes s idx1 in
    let size2 := tensor_bytes s idx2 in
    if negb (size1 =? size2) then size1 >? size2
    else default 0 (zget (alloc_node_ s) idx1) <? default 0 (zget (alloc_node_ s) idx2).

Definition CreateTensorAllocationVector (tensors_to_allocate : list Z) :
    M ArenaPlanner (list Z) :=
  s ← get; mret (std_sort (tensor_compare s) tensors_to_allocate).

Definition GetTensorsToAllocate (first_node last_node : Z) : M ArenaPlanner (list Z) :=
  fold_m (range first_node (last_node + 1)) [] (λ acc i,
    u ← vget nodes_to_tensors_ i; mret (acc ++ uset_elements u)).

(** The first loop of [CalculateAllocations]: the tensors that need memory. *)
Definition needs_allocation (tensors_allocated : list Z) (tensor_index : Z) :
    M ArenaPlanner (list Z) :=
  tensor ← vget tensors tensor_index;
  if decide (allocation_type tensor = kTfLiteArenaRw) then
    a ← vget allocs_ tensor_index;
    mret (if size a <? bytes tensor then tensors_allocated ++ [tensor_index]
          else tensors_allocated)
  else if decide (allocation_type tensor = kTfLiteArenaRwPersistent) then
    mret (tensors_allocated ++ [tensor_index])
  else mret tensors_allocated.

(** [Allocate(..., &allocs_[tensor])] on one of the two arenas. *)
Definition allocate_in (view : ArenaPlanner → SimpleMemoryArena)
    (update : SimpleMemoryArena → ArenaPlanner → ArenaPlanner)
    (sz tensor first_node last_node : Z) : M ArenaPlanner unit :=
  _ ← vget allocs_ tensor;
  zoom (λ s, (view s, zget (allocs_ s) tensor))
       (λ r s, update r.1 (set_allocs (from_option (λ a, zset tensor a (allocs_ s)) (allocs_ s) r.2) s))
       (Allocate tensor_alignment_ sz tensor first_node last_node).

(** The second loop, after the test for shared tensors. *)
Definition allocate_tensor (tensor_index : Z) : M ArenaPlanner unit :=
  tensor ← vget tensors tensor_index;
  (if decide (allocation_type tensor = kTfLiteArenaRw) then
     first ← vget alloc_node_ tensor_index;
     last ← vget dealloc_node_ tensor_index;
     allocate_in arena_ set_arena (bytes tensor) tensor_index first last
   else mret ()) ;;
  a ← vget allocs_ tensor_index;
  if bool_decide (allocation_type tensor = kTfLiteArenaRwPersistent) && (size a =? 0) then
    if size a <? bytes tensor then
      first ← vget alloc_node_ tensor_index;
      allocate_in persistent_arena_ set_persistent_arena (bytes tensor) tensor_index
        first int32_max
    else mret ()
  else mret ().

Definition calculate_allocation (tensor_index : Z) : M ArenaPlanner unit :=
  m ← gets actual_tensor_id_;
  match m !! tensor_index with
  | Some root =>
      root_tensor ← vget tensors root;
      tensor ← vget tensors tensor_index;
      if bool_decide (allocation_type root_tensor ≠ kTfLiteArenaRw)
         || negb (bytes root_tensor =? bytes tensor) then
        modify (set_actual_tensor_id (delete tensor_index m)) ;;
        allocate_tensor tensor_index
      else mret ()
  | None => allocate_tensor tensor_index
  end.

Definition CalculateAllocations (first_node last_node : Z) : M ArenaPlanner (list Z) :=
  tensors_to_allocate ← GetTensorsToAllocate first_node last_node;
  tensors_allocated ← fold_m tensors_to_allocate [] needs_allocation;
  match tensors_allocated with
  | [] =>
      modify (set_last_active_node last_node) ;;
      mret []
  | _ =>
      s ← get;
      (if first_node <? last_active_node_ s then
         modify (λ s, set_last_active_node first_node (set_arena (ResetAllocs (arena_ s)) s))
       else modify (λ s, set_arena (PurgeActiveAllocs first_node (arena_ s)) s)) ;;
      tensors_allocated ← CreateTensorAllocationVector tensors_allocated;
      for_each tensors_allocated calculate_allocation ;;
      modify (set_last_active_node last_node) ;;
      mret tensors_allocated
  end.

(** Returns the pointee of [reallocated]. *)
Definition PlannerCommit : M ArenaPlanner bool :=
  arena_reallocated ← with_arena (Commit (Some false));
  modify (set_has_nonpersistent true) ;;
  persistent_arena_reallocated ← with_persistent_arena (Commit (Some false));
  mret (arena_reallocated || persistent_arena_reallocated).

Definition AreTensorsAllocatedInSameArena (root_tensor tensor : TfLiteTensor) : bool :=
  (bool_decide (allocation_type root_tensor = kTfLiteArenaRw) &&
   bool_decide (allocation_type tensor = kTfLiteArenaRw)) ||
  (bool_decide (allocation_type root_tensor = kTfLiteArenaRwPersistent) &&
   bool_decide (allocation_type tensor = kTfLiteArenaRwPersistent)).

(** [arena.ResolveAlloc(context, allocs_[tensor], &tensor.data.raw)]. *)
Definition resolve_in (view : ArenaPlanner → SimpleMemoryArena) (tensor_index : Z) :
    M ArenaPlanner unit :=
  a ← vget allocs_ tensor_index;
  p ← zoom view (λ _ s, s) (ResolveAlloc a (Some 0));
  write_data tensor_index p.

Definition resolve_own (tensor_index : Z) (tensor : TfLiteTensor) : M ArenaPlanner unit :=
  if decide (allocation_type tensor = kTfLiteArenaRw) then
    a ← vget allocs_ tensor_index;
    if negb (size a =? 0) then resolve_in arena_ tensor_index else mret ()
  else if decide (allocation_type tensor = kTfLiteArenaRwPersistent) then
    resolve_in persistent_arena_ tensor_index
  else mret ().

(** The recursion follows [actual_tensor_id_]: a chain longer than the map is a
    cycle, on which the code does not return. *)
Fixpoint resolve_tensor (fuel : nat) (tensor_index : Z) : M ArenaPlanner unit :=
  match fuel with
  | O => undefined
  | S fuel =>
      m ← gets actual_tensor_id_;
      let root_tensor_index := FindSharedTensor m tensor_index in
      tensor ← vget tensors tensor_index;
      root_tensor ← vget tensors root_tensor_index;
      if negb (root_tensor_index =? tensor_index) &&
         AreTensorsAllocatedInSameArena root_tensor tensor then
        ignore_status (resolve_tensor fuel root_tensor_index) ;;
        root_tensor ← vget tensors root_tensor_index;
        write_data tensor_index (data root_tensor)
      else resolve_own tensor_index tensor
  end.

Definition ResolveTensorAllocation (tensor_index : Z) : M ArenaPlanner unit :=
  m ← gets actual_tensor_id_; resolve_tensor (S (base.size m)) tensor_index.

(** The temporaries of node [i]. *)
Definition plan_temporaries (i : Z) : M ArenaPlanner unit :=
  node ← deref (zget (nodes g) i);
  for_each (temporaries node) (λ tensor_index,
    vset alloc_node_ set_alloc_node tensor_index i ;;
    queue_tensor i tensor_index ;;
    if negb preserve_all_tensors_ then vset dealloc_node_ set_dealloc_node tensor_index i
    else mret ()).

Definition ExecuteAllocations (first_node last_node : Z) : M ArenaPlanner unit :=
  num_tensors ← gets (λ s, length (tensors s));
  allocs ← gets allocs_;
  ensure (zlen allocs <=? Z.of_nat num_tensors) ;;
  modify (λ s, set_alloc_node (resize_list num_tensors kNodeNotAssigned (alloc_node_ s)) s) ;;
  modify (λ s, set_dealloc_node (resize_list num_tensors kNodeNotAssigned (dealloc_node_ s)) s) ;;
  modify (λ s, set_allocs (resize_list num_tensors reset_alloc (allocs_ s)) s) ;;
  for_each (range (u64 first_node) (Z.min (u64 last_node + 1) (num_execution_nodes g)))
    plan_temporaries ;;
  tensors_allocated ← CalculateAllocations first_node last_node;
  arena_reallocated ← PlannerCommit;
  if arena_reallocated : bool then
    for_each (range 0 (Z.of_nat num_tensors)) ResolveTensorAllocation
  else for_each tensors_allocated ResolveTensorAllocation.

(** ** Releasing and reacquiring the memory *)

Definition for_each_rw_tensor (body : Z → M ArenaPlanner unit) : M ArenaPlanner unit :=
  num_tensors ← gets (λ s, length (tensors s));
  for_each (range 0 (Z.of_nat num_tensors)) (λ i,
    tensor ← vget tensors i;
    if decide (allocation_type tensor = kTfLiteArenaRw) then body i else mret ()).

Definition ReleaseNonPersistentMemory : M ArenaPlanner unit :=
  with_arena ReleaseBuffer ;;
  modify (set_has_nonpersistent false) ;;
  for_each_rw_tensor (λ i, write_data i 0).

Definition AcquireNonPersistentMemory : M ArenaPlanner unit :=
  with_arena (Commit (Some false)) ;;
  modify (set_has_nonpersistent true) ;;
  for_each_rw_tensor ResolveTensorAllocation.

Definition HasNonPersistentMemory (s : ArenaPlanner) : bool := has_nonpersistent_memory_ s.

Definition GetAllocInfo (s : ArenaPlanner) : Z * Z :=
  (GetBufferSize (arena_ s), GetBufferSize (persistent_arena_ s)).

Definition PlannerBasePointer (type : TfLiteAllocationType) (s : ArenaPlanner) : Z :=
  if decide (type = kTfLiteArenaRwPersistent) then BasePointer (persistent_arena_ s)
  else if decide (type = kTfLiteArenaRw) then BasePointer (arena_ s)
  else 0.

(** [~ArenaPlanner]. *)
Definition DestroyPlanner : M ArenaPlanner unit :=
  with_arena ReleaseBuffer ;; with_persistent_arena ReleaseBuffer.
End planner.
