(* ===== verification/PlannerLifetimes.v ===== *)
(** * Lifetimes and sharing planned by [PlanAllocations] *)

From S2P Require Import Prelude SimpleMemoryArena ArenaPlanner.

(** ** Counting occurrences *)

Fixpoint occ (t : Z) (l : list Z) : Z :=
  match l with
  | [] => 0
  | x :: l' => (if decide (x = t) then 1 else 0) + occ t l'
  end.

Lemma occ_app t l k : occ t (l ++ k) = occ t l + occ t k.
Proof. induction l as [|x l IH]; simpl; lia. Qed.

Lemma occ_nonneg t l : 0 ≤ occ t l.
Proof. induction l as [|x l IH]; simpl; [lia|]. case_decide; lia. Qed.

Lemma occ_pos t l : t ∈ l ↔ 0 < occ t l.
Proof.
  induction l as [|x l IH]; simpl; [rewrite elem_of_nil; lia|].
  rewrite elem_of_cons, IH. pose proof (occ_nonneg t l).
  case_decide; [subst; split; [lia|by left]|].
  split; [intros [?|?]; [congruence|lia] | right; lia].
Qed.

(** The tensor indices of a list that are not optional. *)
Definition present (l : list Z) : list Z := filter (λ t, t ≠ kTfLiteOptionalTensor) l.

Lemma elem_of_present t l : t ∈ present l ↔ t ≠ -1 ∧ t ∈ l.
Proof. unfold present, kTfLiteOptionalTensor. rewrite list_elem_of_filter. tauto. Qed.

Lemma present_app l k : present (l ++ k) = present l ++ present k.
Proof. apply filter_app. Qed.

Lemma present_cons t l : present (t :: l) = if t =? -1 then present l else t :: present l.
Proof.
  unfold present. rewrite filter_cons. unfold kTfLiteOptionalTensor.
  destruct (Z.eqb_spec t (-1)); case_decide; done || lia.
Qed.

(** ** Access to the planner's vectors *)

Lemma wp_if_present t body Q E s :
  (t = -1 → Q () s) → (t ≠ -1 → wp body Q E s) → wp (if_present t body) Q E s.
Proof.
  intros H1 H2. unfold if_present, kTfLiteOptionalTensor.
  destruct (Z.eqb_spec t (-1)); [wp_steps|]; auto.
Qed.

(** ** Graphs in execution order *)

Definition out_of (g : GraphInfo) (k t : Z) : Prop :=
  ∃ node, zget (nodes g) k = Some node ∧ t ∈ outputs node ∧ t ≠ -1.
Definition in_of (g : GraphInfo) (k t : Z) : Prop :=
  ∃ node, zget (nodes g) k = Some node ∧ t ∈ inputs node ∧ t ≠ -1.
Definition temp_of (g : GraphInfo) (k t : Z) : Prop :=
  ∃ node, zget (nodes g) k = Some node ∧ t ∈ temporaries node.

(** The tensors with a value before the first node runs. *)
Definition sources (g : GraphInfo) : list Z := graph_variables g ++ present (graph_inputs g).

(** The tensors that must survive the run. *)
Definition kept (g : GraphInfo) : list Z := present (graph_outputs g) ++ sources g.

(** A graph over [nt] tensors: indices are in range, a tensor has one producer and
    nodes come after the producers of their inputs. *)
Record plannable_graph (g : GraphInfo) (nt : Z) : Prop := {
  vg_size : num_execution_nodes g < int32_max;
  vg_kept t : t ∈ kept g → 0 ≤ t < nt;
  vg_in k t : in_of g k t → 0 ≤ t < nt;
  vg_out k t : out_of g k t → 0 ≤ t < nt;
  vg_inplace node : node ∈ nodes g → inplace_operator node ≠ kTfLiteInplaceOpNone →
    head (outputs node) ≠ Some kTfLiteOptionalTensor;
  vg_producer k k' t : out_of g k t → out_of g k' t → k = k';
  vg_source k t : out_of g k t → t ∉ sources g;
  vg_order k k' t : in_of g k t → out_of g k' t → k' < k
}.

(** The temporaries belong to one node. *)
Record valid_graph (g : GraphInfo) (nt : Z) : Prop := {
  vg_plannable :> plannable_graph g nt;
  vg_temp k t : temp_of g k t → 0 ≤ t < nt;
  vg_temp_owner k k' t : temp_of g k t → temp_of g k' t → k = k';
  vg_temp_private k k' t : temp_of g k t → ¬ out_of g k' t ∧ ¬ in_of g k' t ∧ t ∉ kept g
}.

Lemma in_of_lookup g k node t :
  nodes g !! k = Some node → t ∈ present (inputs node) → in_of g (Z.of_nat k) t.
Proof.
  intros Hk [? ?]%elem_of_present. exists node. split; [|done].
  apply zget_Some. split; [lia|]. by rewrite Nat2Z.id.
Qed.

Lemma out_of_lookup g k node t :
  nodes g !! k = Some node → t ∈ present (outputs node) → out_of g (Z.of_nat k) t.
Proof.
  intros Hk [? ?]%elem_of_present. exists node. split; [|done].
  apply zget_Some. split; [lia|]. by rewrite Nat2Z.id.
Qed.

(** ** What planning leaves alone *)

Record plan_frame (s s' : ArenaPlanner) : Prop := {
  pf_memory : memory s' = memory s;
  pf_tensors : tensors s' = tensors s;
  pf_allocs : allocs_ s' = allocs_ s;
  pf_arena : arena_ s' = arena_ s;
  pf_np : has_nonpersistent_memory_ s' = has_nonpersistent_memory_ s;
  pf_persistent : persistent_arena_ s' = persistent_arena_ s;
  pf_last : last_active_node_ s' = last_active_node_ s
}.

#[export] Instance plan_frame_preorder : PreOrder plan_frame.
Proof.
  split; [by split|]. intros x y z [] []. split; congruence.
Qed.

Section vectors.
Implicit Types (s : ArenaPlanner) (t k : Z).

Definition alloc s t : Z := vat kNodeNotAssigned (alloc_node_ s) t.
Definition dealloc s t : Z := vat kNodeNotAssigned (dealloc_node_ s) t.
Definition refcount s t : Z := vat 0 (refcounts_ s) t.
Definition queued s k : uset := vat [] (nodes_to_tensors_ s) k.

(** The vectors have one entry per tensor, and per node. *)
Record sized (g : GraphInfo) (nt : nat) s : Prop := {
  sz_alloc : length (alloc_node_ s) = nt;
  sz_dealloc : length (dealloc_node_ s) = nt;
  sz_refcounts : length (refcounts_ s) = nt;
  sz_queues : length (nodes_to_tensors_ s) = Nat.max (length (nodes g)) 1
}.

Lemma wp_add_reference t Q E s :
  0 ≤ t < zlen (refcounts_ s) →
  Q () (set_refcounts (zset t (refcount s t + 1) (refcounts_ s)) s) →
  wp (add_reference t) Q E s.
Proof.
  intros Ht HQ. unfold add_reference. wp_steps. apply (wp_vget _ 0); [done|].
  by apply wp_vset.
Qed.

Lemma wp_queue_tensor k t Q E s :
  0 ≤ k < zlen (nodes_to_tensors_ s) →
  Q () (set_nodes_to_tensors (zset k (uset_insert t (queued s k)) (nodes_to_tensors_ s)) s) →
  wp (queue_tensor k t) Q E s.
Proof.
  intros Hk HQ. unfold queue_tensor. wp_steps. apply (wp_vget _ []); [done|].
  by apply wp_vset.
Qed.

Lemma wp_allocate k t Q E s :
  0 ≤ t < zlen (alloc_node_ s) → 0 ≤ t < zlen (dealloc_node_ s) →
  (alloc s t ≠ kNodeNotAssigned → Q () s) →
  (alloc s t = kNodeNotAssigned → dealloc s t = kNodeNotAssigned ∧
     Q () (set_alloc_node (zset t k (alloc_node_ s)) s)) →
  wp (allocate k t) Q E s.
Proof.
  intros Ht Ht' H1 H2. unfold allocate. wp_steps. apply (wp_vget _ kNodeNotAssigned); [done|].
  fold (alloc s t). destruct (Z.eqb_spec (alloc s t) kNodeNotAssigned) as [He|He]; simpl.
  - destruct (H2 He) as [Hd HQ]. wp_steps. apply (wp_vget _ kNodeNotAssigned); [done|].
    fold (dealloc s t). rewrite Hd, Z.eqb_refl. wp_steps. by apply wp_vset.
  - wp_steps. auto.
Qed.

Lemma elem_of_uset_insert x y u : x ∈ uset_insert y u ↔ x = y ∨ x ∈ u.
Proof.
  unfold uset_insert. case_decide.
  - split; [by right|intros [->|]; done].
  - rewrite elem_of_app, list_elem_of_singleton. tauto.
Qed.

Lemma NoDup_uset_insert y u : NoDup u → NoDup (uset_insert y u).
Proof.
  intros Hu. unfold uset_insert. case_decide; [done|].
  apply NoDup_app. split; [done|]. split; [|apply NoDup_singleton].
  intros x Hx ->%list_elem_of_singleton. done.
Qed.
End vectors.

(** ** Sources *)

Section plan.
Context (g : GraphInfo) (nt : nat).
Hypothesis Hg : plannable_graph g (Z.of_nat nt).

(** [ext] are the references taken so far from outside the nodes, [born] the
    sources allocated so far. *)
Record start_inv (ext born : list Z) (s : ArenaPlanner) : Prop := {
  st_sized : sized g nt s;
  st_refcount t : refcount s t = occ t ext;
  st_alloc t : alloc s t = if decide (t ∈ born) then 0 else kNodeNotAssigned;
  st_dealloc t : dealloc s t = kNodeNotAssigned;
  st_queued t : t ∈ queued s 0 ↔ t ∈ born;
  st_nodup : NoDup (queued s 0);
  st_later k : k ≠ 0 → queued s k = []
}.

Lemma start_reference ext born s t :
  start_inv ext born s → 0 ≤ t < Z.of_nat nt →
  start_inv (ext ++ [t]) born (set_refcounts (zset t (refcount s t + 1) (refcounts_ s)) s).
Proof.
  intros [[] Hr Ha Hd Hq Hn Hl] Ht. split; try done.
  - split; simpl; by rewrite ?zset_length.
  - intros t'. unfold refcount at 1. simpl. rewrite occ_app, <- (Hr t'). simpl.
    case_decide; [subst; rewrite vat_zset_eq by lia; unfold refcount; lia|].
    rewrite vat_zset_ne by lia. unfold refcount. lia.
Qed.

Lemma start_allocate ext born s t Q E :
  start_inv ext born s → 0 ≤ t < Z.of_nat nt →
  (∀ s', plan_frame s s' → start_inv ext (born ++ [t]) s' → Q () s') →
  wp (allocate 0 t ;; queue_tensor 0 t) Q E s.
Proof.
  intros Hs Ht HQ. pose proof Hs as [[Hz1 Hz2 Hz3 Hz4] Hr Ha Hd Hq Hn Hl].
  assert (0 ≤ 0 < zlen (nodes_to_tensors_ s)) as H0 by lia.
  assert (∀ s', plan_frame s s' → sized g nt s' → (∀ t, refcount s' t = refcount s t) →
    (∀ t', alloc s' t' = if decide (t' ∈ born ++ [t]) then 0 else kNodeNotAssigned) →
    dealloc_node_ s' = dealloc_node_ s → nodes_to_tensors_ s' = nodes_to_tensors_ s →
    wp (queue_tensor 0 t) Q E s') as Hqueue.
  { intros s' Hf [] Hr' Ha' Hd' Hq'. apply wp_queue_tensor; [by rewrite Hq'|].
    apply HQ; [etrans; [exact Hf|by split]|]. unfold queued. rewrite Hq'. split; simpl.
    - split; simpl; rewrite ?zset_length; congruence.
    - intros t'. by rewrite <- Hr, <- Hr'.
    - done.
    - intros t'. unfold dealloc. simpl. rewrite Hd'. apply Hd.
    - intros t'. unfold queued. simpl. rewrite vat_zset_eq by done.
      rewrite elem_of_uset_insert, elem_of_app, list_elem_of_singleton. fold (queued s 0).
      rewrite Hq. tauto.
    - unfold queued. simpl. rewrite vat_zset_eq by done. by apply NoDup_uset_insert.
    - intros k Hk. unfold queued. simpl. rewrite vat_zset_ne by lia. by apply Hl. }
  wp_steps. apply wp_allocate; [lia|lia|..]; intros Hal.
  - apply Hqueue; try done. intros t'. rewrite Ha. rewrite Ha in Hal.
    destruct (decide (t ∈ born)) as [Hb|]; [|done].
    destruct (decide (t' ∈ born)) as [Hb'|Hb']; [by rewrite decide_True by set_solver|].
    rewrite decide_False; [done|]. set_solver.
  - split; [apply Hd|]. apply Hqueue; [by split|split; simpl; by rewrite ?zset_length|done| |done|done].
    intros t'. unfold alloc. simpl. destruct (decide (t' = t)) as [->|].
    + rewrite vat_zset_eq by lia. rewrite decide_True; [done|set_solver].
    + rewrite vat_zset_ne by (lia || done). fold (alloc s t'). rewrite Ha.
      destruct (decide (t' ∈ born)); [rewrite decide_True by set_solver|rewrite decide_False by set_solver]; done.
Qed.

Lemma start_outputs s :
  start_inv [] [] s →
  wp (for_each (graph_outputs g) (λ t, if_present t (add_reference t)))
    (λ _ s', plan_frame s s' ∧ start_inv (present (graph_outputs g)) [] s') (λ _, False) s.
Proof.
  intros Hs. apply (wp_for_each (λ done s', plan_frame s s' ∧ start_inv (present done) [] s')).
  { done. }
  intros done t todo s' Hl [Hf Hs']. rewrite present_app, present_cons. simpl.
  apply wp_if_present; intros Ht.
  - rewrite Ht. simpl. by rewrite app_nil_r.
  - rewrite (proj2 (Z.eqb_neq t (-1))) by done.
    assert (0 ≤ t < Z.of_nat nt).
    { apply (vg_kept g _ Hg). unfold kept. rewrite Hl, elem_of_app, elem_of_present. in_list. }
    apply wp_add_reference; [by destruct Hs' as [[_ _ -> _] _]|].
    split; [etrans; [exact Hf|by split]|by apply start_reference].
Qed.

Lemma start_source ext born s t Q E :
  start_inv ext born s → t ∈ sources g →
  (∀ s', plan_frame s s' → start_inv (ext ++ [t]) (born ++ [t]) s' → Q () s') →
  wp (add_reference t ;; allocate 0 t ;; queue_tensor 0 t) Q E s.
Proof.
  intros Hs Ht HQ. assert (0 ≤ t < Z.of_nat nt).
  { apply (vg_kept g _ Hg). unfold kept. apply elem_of_app. by right. }
  wp_steps. apply wp_add_reference; [by destruct Hs as [[_ _ -> _] _]|].
  eapply start_allocate; [by apply start_reference|done|].
  intros s' Hf Hs'. apply HQ; [|done]. etrans; [|exact Hf]. by split.
Qed.

Lemma start_variables ext s :
  start_inv ext [] s →
  wp (for_each (graph_variables g) (λ t, add_reference t ;;
        ensure (negb (t =? kTfLiteOptionalTensor)) ;; allocate 0 t ;; queue_tensor 0 t))
    (λ _ s', plan_frame s s' ∧ start_inv (ext ++ graph_variables g) (graph_variables g) s')
    (λ _, False) s.
Proof.
  intros Hs.
  apply (wp_for_each (λ done s', plan_frame s s' ∧ start_inv (ext ++ done) done s')).
  { by rewrite app_nil_r. }
  intros done t todo s' Hl [Hf Hs']. assert (t ∈ sources g) as Ht.
  { unfold sources. rewrite Hl. in_list. }
  assert (t ≠ -1) as Hne.
  { assert (0 ≤ t < Z.of_nat nt); [|lia]. apply (vg_kept g _ Hg). unfold kept. in_list. }
  apply Z.eqb_neq in Hne. unfold kTfLiteOptionalTensor. rewrite Hne. simpl.
  rewrite app_assoc. apply (start_source (ext ++ done) done); [done..|].
  intros s'' Hf' Hs''. split; [by etrans|done].
Qed.

Lemma start_inputs ext born s :
  start_inv ext born s →
  wp (for_each (graph_inputs g) (λ t,
        if_present t (add_reference t ;; allocate 0 t ;; queue_tensor 0 t)))
    (λ _ s', plan_frame s s' ∧
       start_inv (ext ++ present (graph_inputs g)) (born ++ present (graph_inputs g)) s')
    (λ _, False) s.
Proof.
  intros Hs. apply (wp_for_each (λ done s', plan_frame s s' ∧
    start_inv (ext ++ present done) (born ++ present done) s')).
  { simpl. by rewrite !app_nil_r. }
  intros done t todo s' Hl [Hf Hs']. rewrite present_app, present_cons.
  apply wp_if_present; intros Ht.
  - rewrite Ht. simpl. by rewrite app_nil_r.
  - rewrite (proj2 (Z.eqb_neq t (-1))), !app_assoc by done.
    apply (start_source (ext ++ present done) (born ++ present done)); [done| |].
    + unfold sources. rewrite Hl, elem_of_app, elem_of_present. in_list.
    + intros s'' Hf' Hs''. split; [by etrans|done].
Qed.

(** ** Sharing *)

(** Planning changes only the reference counts and [actual_tensor_id_] here. *)
Record same_plan (s s' : ArenaPlanner) : Prop := {
  sp_frame : plan_frame s s';
  sp_alloc : alloc_node_ s' = alloc_node_ s;
  sp_dealloc : dealloc_node_ s' = dealloc_node_ s;
  sp_queues : nodes_to_tensors_ s' = nodes_to_tensors_ s;
  sp_refcounts : length (refcounts_ s') = length (refcounts_ s)
}.

#[local] Instance same_plan_preorder : PreOrder same_plan.
Proof. split; [by split|]. intros x y z [] []. split; try congruence. by etrans. Qed.

Lemma count_node_inputs s :
  length (refcounts_ s) = nt →
  wp (for_each (nodes g) (λ node,
        for_each (inputs node) (λ t, if_present t (add_reference t))))
    (λ _ s', same_plan s s' ∧ actual_tensor_id_ s' = actual_tensor_id_ s) (λ _, False) s.
Proof.
  intros Hlen. apply (wp_for_each (λ _ s', same_plan s s' ∧ actual_tensor_id_ s' = actual_tensor_id_ s)).
  { done. }
  intros done node todo s1 Hl [Hs1 Ha1].
  apply (wp_for_each (λ _ s', same_plan s s' ∧ actual_tensor_id_ s' = actual_tensor_id_ s)).
  { done. }
  intros done' t todo' s2 Hl' [Hs2 Ha2]. apply wp_if_present; intros Ht; [done|].
  assert (0 ≤ t < Z.of_nat nt).
  { apply (vg_in g _ Hg (Z.of_nat (length done))). eapply in_of_lookup.
    - rewrite Hl. apply lookup_split.
    - rewrite Hl', elem_of_present. in_list. }
  apply wp_add_reference; [rewrite (sp_refcounts _ _ Hs2); lia|].
  split; [|done]. etrans; [exact Hs2|]. split; simpl; rewrite ?zset_length; try done.
Qed.

(** Every tensor that shares memory is the first output of a node one of whose
    inputs has the same owner, and owners do not share in turn. *)
Record sharing (preserve : bool) (done : list TfLiteNode) (m : gmap Z Z) : Prop := {
  sh_node o r : m !! o = Some r → ∃ k node x,
    done !! k = Some node ∧ head (outputs node) = Some o ∧ o ≠ -1 ∧ (o ∉ graph_outputs g) ∧
    x ∈ present (inputs node) ∧ FindSharedTensor m x = r ∧ preserve = false;
  sh_owner o r : m !! o = Some r → m !! r = None;
  sh_used o r : m !! o = Some r → ∃ k node k',
    done !! k = Some node ∧ head (outputs node) = Some o ∧ in_of g k' r ∧ k' ≤ Z.of_nat k
}.

Lemma InputTensorCanBeShared_spec preserve ti to id oid changed s :
  0 ≤ id < zlen (refcounts_ s) →
  wp (InputTensorCanBeShared g preserve ti to id oid changed)
    (λ b s', s' = s ∧ (b = true → (oid ∉ graph_outputs g) ∧ preserve = false)) (λ _, False) s.
Proof.
  intros Hid. unfold InputTensorCanBeShared. wp_step.
  apply (wp_mono _ (λ _ s', s' = s) _ (λ _, False)); [|intros ok s' ->|done].
  - destruct changed; [|by wp_steps]. case_match; [by wp_steps|].
    wp_step. apply (wp_vget _ 0); [done|]. by wp_steps.
  - wp_steps. split; [done|]. rewrite !andb_true_iff, !negb_true_iff, !bool_decide_eq_true. tauto.
Qed.

Lemma find_shareable_input_spec preserve inplace to oid changed ids i s :
  length (tensors s) = nt → length (refcounts_ s) = nt →
  (∀ t, t ∈ present ids → 0 ≤ t < Z.of_nat nt) →
  wp (find_shareable_input g preserve inplace to oid changed i ids)
    (λ id s', s' = s ∧ (id ≠ -1 → id ∈ present ids ∧ (oid ∉ graph_outputs g) ∧ preserve = false))
    (λ _, False) s.
Proof.
  intros Ht Hr. revert i. induction ids as [|id ids IH]; intros i Hids; cbn [find_shareable_input].
  { by wp_steps. }
  rewrite present_cons in *. unfold kTfLiteOptionalTensor. destruct (Z.eqb_spec id (-1)).
  { by apply IH. }
  assert (wp (find_shareable_input g preserve inplace to oid changed (i + 1) ids)
    (λ id' s', s' = s ∧ (id' ≠ -1 → id' ∈ id :: present ids ∧ (oid ∉ graph_outputs g) ∧ preserve = false))
    (λ _, False) s) as Hnext.
  { eapply wp_mono; [apply IH; intros; apply Hids; in_list| |done].
    intros id' s' [-> Hid]. split; [done|]. intros Hne%Hid. in_list. }
  assert (0 ≤ id < Z.of_nat nt) by (apply Hids; in_list).
  case_match; [|done]. apply wp_bind, (wp_vget _ {| allocation_type := kTfLiteMemNone; bytes := 0; data := 0 |}).
  { lia. }
  apply wp_bind. eapply wp_mono; [apply InputTensorCanBeShared_spec; lia| |done].
  intros b s' [-> Hb]. destruct b; [|done]. wp_steps. split; [done|]. intros _. destruct Hb as [? ?]; [done|]. in_list.
Qed.

Lemma sharing_snoc preserve done node todo m oid x :
  nodes g = done ++ node :: todo → sharing preserve done m →
  head (outputs node) = Some oid → oid ≠ -1 → x ∈ present (inputs node) →
  oid ∉ graph_outputs g → preserve = false →
  sharing preserve (done ++ [node]) (<[oid := FindSharedTensor m x]> m).
Proof.
  intros Hl [Hnode Howner Hused] Hhead Hoid Hx Hout Hp.
  assert (∀ k node' o, (done ++ [node]) !! k = Some node' → head (outputs node') = Some o → o ≠ -1 →
    out_of g (Z.of_nat k) o) as Hhd.
  { intros k node' o Hk Ho Hne. eapply out_of_lookup.
    - rewrite Hl, cons_middle, app_assoc. by apply lookup_app_l_Some.
    - apply elem_of_present. split; [done|]. destruct (outputs node'); simplify_eq/=. in_list. }
  assert (∀ k node' y, (done ++ [node]) !! k = Some node' → y ∈ present (inputs node') →
    in_of g (Z.of_nat k) y) as Hin.
  { intros k node' y Hk Hy. eapply in_of_lookup; [|done].
    rewrite Hl, cons_middle, app_assoc. by apply lookup_app_l_Some. }
  assert (∀ k node', done !! k = Some node' → (done ++ [node]) !! k = Some node' ∧ (k < length done)%nat) as Hdone.
  { intros k node' Hk. split; [by apply lookup_app_l_Some|by eapply lookup_lt_Some]. }
  pose proof (lookup_split done node []) as Hlast.
  pose proof (Hhd _ _ _ Hlast Hhead Hoid) as Hoid'.
  assert (∃ k', in_of g k' (FindSharedTensor m x) ∧ k' ≤ Z.of_nat (length done)) as (k' & Hk' & Hle).
  { unfold FindSharedTensor. destruct (m !! x) as [r|] eqn:Hr; simpl.
    - destruct (Hused _ _ Hr) as (k & node' & k' & Hk & _ & Hi & Hle). exists k'.
      apply Hdone in Hk as [_ Hk]. split; [done|lia].
    - exists (Z.of_nat (length done)). split; [|lia]. by eapply Hin. }
  assert (∀ k y, in_of g k y → k ≤ Z.of_nat (length done) → y ≠ oid) as Hne.
  { intros k y Hk Hle' ->. pose proof (vg_order _ _ Hg _ _ _ Hk Hoid'). lia. }
  assert (∀ y, y ≠ oid → FindSharedTensor (<[oid := FindSharedTensor m x]> m) y = FindSharedTensor m y) as Hfind.
  { intros y Hy. unfold FindSharedTensor. by rewrite lookup_insert_ne. }
  split.
  - intros o r. rewrite lookup_insert_Some. intros [[<- <-]|[Ho Hr]].
    + exists (length done), node, x. split_and!; try done. apply Hfind.
      eapply Hne; [by eapply Hin|lia].
    + destruct (Hnode _ _ Hr) as (k & node' & y & Hk & ? & ? & ? & Hy & Hf & ?).
      apply Hdone in Hk as [Hk Hlt]. exists k, node', y. split_and!; try done.
      rewrite Hfind; [done|]. eapply Hne; [by eapply Hin|lia].
  - intros o r. rewrite lookup_insert_Some. intros [[<- <-]|[Ho Hr]].
    + rewrite lookup_insert_ne by (apply not_eq_sym; by eapply Hne).
      unfold FindSharedTensor. destruct (m !! x) eqn:Hr; simpl; [by eapply Howner|done].
    + destruct (Hused _ _ Hr) as (k & node' & j & Hk & _ & Hi & Hle').
      apply Hdone in Hk as [_ Hk]. rewrite lookup_insert_ne; [by eapply Howner|].
      apply not_eq_sym. eapply Hne; [done|lia].
  - intros o r. rewrite lookup_insert_Some. intros [[<- <-]|[Ho Hr]].
    + exists (length done), node, k'. done.
    + destruct (Hused _ _ Hr) as (k & node' & j & Hk & ? & ? & ?).
      apply Hdone in Hk as [Hk _]. by exists k, node', j.
Qed.

Lemma sharing_weaken preserve done node m :
  sharing preserve done m → sharing preserve (done ++ [node]) m.
Proof.
  intros [Hnode Howner Hused]. split; [|done|].
  - intros o r Hr. destruct (Hnode _ _ Hr) as (k & node' & y & Hk & ?).
    exists k, node', y. split; [by apply lookup_app_l_Some|done].
  - intros o r Hr. destruct (Hused _ _ Hr) as (k & node' & y & Hk & ?).
    exists k, node', y. split; [by apply lookup_app_l_Some|done].
Qed.

Lemma IdentifyInPlaceTensors_spec preserve s :
  length (tensors s) = nt → length (refcounts_ s) = nt →
  wp (IdentifyInPlaceTensors g preserve)
    (λ _ s', same_plan s s' ∧ sharing preserve (nodes g) (actual_tensor_id_ s')) (λ _, False) s.
Proof.
  intros Ht Hr. unfold IdentifyInPlaceTensors. wp_steps.
  apply (wp_for_each (λ done s', same_plan s s' ∧ sharing preserve done (actual_tensor_id_ s'))).
  { split; [by split|]. split; simpl; intros *; by rewrite lookup_empty. }
  intros done node todo s1 Hl [Hs Hsh]. unfold identify_in_place.
  assert (length (tensors s1) = nt) by by rewrite (pf_tensors _ _ (sp_frame _ _ Hs)).
  assert (length (refcounts_ s1) = nt) by by rewrite (sp_refcounts _ _ Hs).
  pose proof (lookup_split done node todo) as Hk. rewrite <- Hl in Hk.
  assert (same_plan s s1 ∧ sharing preserve (done ++ [node]) (actual_tensor_id_ s1)) as Hskip.
  { split; [done|by apply sharing_weaken]. }
  destruct (outputs node) as [|oid outs] eqn:Hout; [by wp_steps|].
  destruct (Z.eqb_spec (inplace_operator node) kTfLiteInplaceOpNone) as [|Hip]; [by wp_steps|].
  assert (oid ≠ -1) as Hoid.
  { intros ->. apply (vg_inplace _ _ Hg node); [rewrite Hl; in_list|done|by rewrite Hout]. }
  assert (0 ≤ oid < Z.of_nat nt).
  { eapply (vg_out _ _ Hg), out_of_lookup; [exact Hk|]. rewrite elem_of_present, Hout. in_list. }
  set (ids := take _ (inputs node)).
  assert (∀ t, t ∈ present ids → t ∈ present (inputs node)) as Hids.
  { intros t. rewrite !elem_of_present. intros [? Hin]. split; [done|].
    by eapply subseteq_take. }
  assert (∀ t, t ∈ present (inputs node) → 0 ≤ t < Z.of_nat nt) as Hrange.
  { intros t Hin. eapply (vg_in _ _ Hg), in_of_lookup; [exact Hk|done]. }
  wp_steps. apply (wp_vget _ {| allocation_type := kTfLiteMemNone; bytes := 0; data := 0 |}); [lia|].
  wp_steps. eapply wp_mono; [apply find_shareable_input_spec; auto| |done].
  intros id s2 [-> Hid]. simpl. destruct (Z.eqb_spec id (-1)) as [|Hne]; [by wp_steps|].
  destruct (Hid Hne) as (Hin & Hgo & Hp). wp_steps.
  assert (0 ≤ FindSharedTensor (actual_tensor_id_ s1) id < Z.of_nat nt) as Hroot.
  { unfold FindSharedTensor. destruct (actual_tensor_id_ s1 !! id) as [r|] eqn:Hm; simpl; [|by auto].
    destruct (sh_used _ _ _ Hsh _ _ Hm) as (? & ? & ? & _ & _ & Hu & _). by eapply (vg_in _ _ Hg). }
  apply (wp_mono _ (λ _ s', s' = s1) _ (λ _, False)); [|intros b s' ->|done].
  - case_match; [|by wp_steps]. wp_steps. apply (wp_vget _ 0); [lia|]. by wp_steps.
  - destruct b; wp_steps; [done|]. split; [etrans; [exact Hs|by split]|].
    eapply sharing_snoc; [exact Hl|done|by rewrite Hout|done|by apply Hids|done|done].
Qed.

(** ** Counting the uses of owners *)

(** The owners of the inputs of a node, of several nodes. *)
Definition owners (m : gmap Z Z) (ids : list Z) : list Z := FindSharedTensor m <$> present ids.
Definition uses (m : gmap Z Z) (l : list TfLiteNode) : list Z :=
  concat ((λ node, owners m (inputs node)) <$> l).

(** Node [k] uses the memory of [t]. *)
Definition used_at (m : gmap Z Z) (k t : Z) : Prop :=
  ∃ node, zget (nodes g) k = Some node ∧ t ∈ owners m (inputs node).

Lemma owners_app m l k : owners m (l ++ k) = owners m l ++ owners m k.
Proof. unfold owners. by rewrite present_app, fmap_app. Qed.

Lemma owners_cons m t l :
  owners m (t :: l) = if t =? -1 then owners m l else FindSharedTensor m t :: owners m l.
Proof. unfold owners. rewrite present_cons. by case_match. Qed.

Lemma uses_app m l k : uses m (l ++ k) = uses m l ++ uses m k.
Proof. unfold uses. by rewrite fmap_app, concat_app. Qed.

Lemma uses_cons m node l : uses m (node :: l) = owners m (inputs node) ++ uses m l.
Proof. done. Qed.

Lemma uses_snoc m l node : uses m (l ++ [node]) = uses m l ++ owners m (inputs node).
Proof. unfold uses. rewrite fmap_app, concat_app. simpl. by rewrite app_nil_r. Qed.

(** [m] maps into the tensors and owners do not share. *)
Definition owner_map (m : gmap Z Z) : Prop :=
  ∀ o r, m !! o = Some r → m !! r = None ∧ 0 ≤ r < Z.of_nat nt.

Lemma sharing_owner_map preserve done m : sharing preserve done m → owner_map m.
Proof.
  intros Hsh o r Hr. split; [by eapply sh_owner|].
  destruct (sh_used _ _ _ Hsh _ _ Hr) as (? & ? & ? & _ & _ & Hu & _). by eapply (vg_in _ _ Hg).
Qed.

Lemma owner_range m k node t :
  owner_map m → nodes g !! k = Some node → t ∈ owners m (inputs node) →
  0 ≤ t < Z.of_nat nt ∧ m !! t = None.
Proof.
  intros Hm Hk (x & -> & Hx)%list_elem_of_fmap. unfold FindSharedTensor.
  destruct (m !! x) as [r|] eqn:Hr; simpl; [by apply Hm in Hr as [? ?]|].
  split; [|done]. by eapply (vg_in _ _ Hg), in_of_lookup.
Qed.

(** The counts [rc] are those of the list [l]. *)
Definition counts (rc l : list Z) : Prop := length rc = nt ∧ ∀ t, vat 0 rc t = occ t l.

Lemma wp_add_count d rc t Q E s :
  0 ≤ t < zlen rc → Q (zset t (vat 0 rc t + d) rc) s → wp (add_count d rc t) Q E s.
Proof.
  intros Ht HQ. unfold add_count. wp_steps. eapply wp_deref; [by apply (vat_zget 0)|]. by wp_steps.
Qed.

Lemma counts_set rc l l' t c :
  counts rc l → 0 ≤ t < Z.of_nat nt → occ t l' = c → (∀ x, x ≠ t → occ x l' = occ x l) →
  counts (zset t c rc) l'.
Proof.
  intros [Hlen Hc] Ht Hct Hne. split; [by rewrite zset_length|]. intros x.
  destruct (decide (x = t)) as [->|].
  - by rewrite vat_zset_eq by lia.
  - rewrite vat_zset_ne by (lia || done). by rewrite Hc, Hne.
Qed.

Lemma count_shared m rc0 ext s :
  owner_map m → counts rc0 ext →
  wp (fold_m (nodes g) rc0 (λ rc node,
        fold_m (inputs node) rc (λ rc t,
          if t =? kTfLiteOptionalTensor then mret rc
          else add_count 1 rc (FindSharedTensor m t))))
    (λ rc s', s' = s ∧ counts rc (ext ++ uses m (nodes g))) (λ _, False) s.
Proof.
  intros Hm H0. apply (wp_fold_m (λ done rc s', s' = s ∧ counts rc (ext ++ uses m done))).
  { split; [done|]. unfold uses. simpl. by rewrite app_nil_r. }
  intros done node todo rc1 s1 Hl [-> H1].
  assert (nodes g !! length done = Some node) as Hk by (rewrite Hl; apply lookup_split).
  eapply (wp_mono _ (λ rc s', s' = s ∧ counts rc (ext ++ uses m done ++ owners m (inputs node)))
            _ (λ _, False)); [|intros rc s'; by rewrite uses_snoc|done].
  apply (wp_fold_m (λ done' rc s', s' = s ∧ counts rc (ext ++ uses m done ++ owners m done'))).
  { split; [done|]. unfold owners. simpl. by rewrite app_nil_r. }
  intros done' t todo' rc2 s2 Hl' [-> H2]. unfold kTfLiteOptionalTensor.
  rewrite owners_app, owners_cons. destruct (Z.eqb_spec t (-1)) as [->|Hne].
  - wp_steps. split; [done|]. by rewrite app_nil_r.
  - assert (0 ≤ FindSharedTensor m t < Z.of_nat nt) as Hr.
    { eapply owner_range; [done|exact Hk|]. rewrite Hl', owners_app, owners_cons.
      rewrite (proj2 (Z.eqb_neq t (-1))) by done. in_list. }
    apply wp_add_count; [by rewrite (proj1 H2)|]. split; [done|].
    eapply counts_set; [exact H2|done|..]; [|intros x Hx]; rewrite ?(proj2 H2), !occ_app;
      cbn [occ]; [rewrite decide_True by done|rewrite decide_False by done]; unfold owners; simpl; lia.
Qed.

(** ** The last loop *)

(** [born k t]: output [t] of node [k] has been allocated. [rest] are the uses
    of owners still to come. *)
Record node_inv (preserve : bool) (m : gmap Z Z) (s0 : ArenaPlanner) (i : Z)
    (born : Z → Z → Prop) (rest rc : list Z) (s : ArenaPlanner) : Prop := {
  ni_frame : plan_frame s0 s;
  ni_actual : actual_tensor_id_ s = m;
  ni_sized : sized g nt s;
  ni_rc : preserve = false → counts rc (kept g ++ rest);
  ni_source t : t ∈ sources g → alloc s t = 0;
  ni_born k t : born k t → alloc s t = k;
  ni_assigned t : alloc s t ≠ kNodeNotAssigned → t ∈ sources g ∨ ∃ k, born k t;
  ni_dealloc t : dealloc s t ≠ kNodeNotAssigned →
    preserve = false ∧ (t ∉ kept g) ∧ (t ∉ rest) ∧ m !! t = None ∧
    alloc s t ≤ dealloc s t < i ∧ ∀ k, used_at m k t → k ≤ dealloc s t;
  ni_queued k t : t ∈ queued s k ↔ (k = 0 ∧ t ∈ sources g) ∨ born k t;
  ni_nodup k : NoDup (queued s k)
}.

Lemma queue_index s i : sized g nt s → 0 ≤ i < zlen (nodes g) → 0 ≤ i < zlen (nodes_to_tensors_ s).
Proof. intros [_ _ _ ->]. lia. Qed.

Lemma node_inv_birth preserve m s0 j born rest rc s i t :
  node_inv preserve m s0 j born rest rc s →
  (∀ k t, born k t → out_of g k t) → out_of g i t → 0 ≤ i < num_execution_nodes g → j ≤ num_execution_nodes g →
  wp (queue_tensor i t ;; allocate i t)
    (λ _, node_inv preserve m s0 j (λ k t', born k t' ∨ (k = i ∧ t' = t)) rest rc) (λ _, False) s.
Proof.
  intros [Hf Hm Hz Hrc Hsrc Hborn Has Hd Hq Hn] Hsub Ht Hi Hj.
  pose proof (vg_out _ _ Hg _ _ Ht) as Hr. pose proof (vg_size _ _ Hg) as Hsz.
  assert (i ≠ kNodeNotAssigned) as Hun by (unfold kNodeNotAssigned; lia).
  pose proof (queue_index s i Hz ltac:(done)) as Hqi. destruct Hz as [Hz1 Hz2 Hz3 Hz4].
  wp_steps. apply wp_queue_tensor; [done|].
  set (q' := zset i _ _).
  assert (∀ k t', t' ∈ vat [] q' k ↔ (k = 0 ∧ t' ∈ sources g) ∨ born k t' ∨ (k = i ∧ t' = t)) as Hq'.
  { intros k t'. unfold q'. destruct (decide (k = i)) as [->|].
    - rewrite vat_zset_eq, elem_of_uset_insert, Hq by done. naive_solver.
    - rewrite vat_zset_ne by (lia || done). fold (queued s k). rewrite Hq. naive_solver. }
  assert (∀ k, NoDup (vat [] q' k)) as Hn'.
  { intros k. unfold q'. destruct (decide (k = i)) as [->|].
    - rewrite vat_zset_eq by done. by apply NoDup_uset_insert.
    - rewrite vat_zset_ne by (lia || done). apply Hn. }
  assert (length q' = length (nodes_to_tensors_ s)) as Hlen by apply zset_length.
  apply wp_allocate; simpl; [lia|lia|..]; intros Hal; change (alloc _ t) with (alloc s t) in Hal.
  - assert (born i t) as Hb.
    { destruct (Has t Hal) as [Hs|[k Hk]]; [by apply (vg_source _ _ Hg) in Ht|].
      by rewrite (vg_producer _ _ Hg i k t Ht) by auto. }
    split; simpl; try done.
    + etrans; [exact Hf|by split].
    + split; simpl; congruence.
    + intros k t' [?|[-> ->]]; by apply Hborn.
    + intros t' [?|[k ?]]%Has; eauto.
  - assert (dealloc s t = kNodeNotAssigned) as Hdt.
    { destruct (decide (dealloc s t = kNodeNotAssigned)) as [|Hne]; [done|].
      destruct (Hd t Hne) as (_ & _ & _ & _ & ? & _). exfalso. unfold kNodeNotAssigned in *. lia. }
    split; [done|].
    assert (∀ t', alloc (set_alloc_node (zset t i (alloc_node_ s)) s) t' =
      if decide (t' = t) then i else alloc s t') as Ha.
    { intros t'. unfold alloc at 1. simpl. case_decide; [subst; by rewrite vat_zset_eq by lia|].
      by rewrite vat_zset_ne by (lia || done). }
    split; simpl; try done.
    + etrans; [exact Hf|by split].
    + split; simpl; rewrite ?zset_length; congruence.
    + intros t' Ht'. etrans; [apply Ha|]. rewrite decide_False; [by apply Hsrc|].
      intros ->. by apply (vg_source _ _ Hg) in Ht.
    + intros k t' Hk. etrans; [apply Ha|]. case_decide as Heq.
      * subst. destruct Hk as [Hk|[-> _]]; [|done]. by apply (vg_producer _ _ Hg i k t); auto.
      * destruct Hk as [?|[_ ?]]; [auto|done].
    + intros t' Hne. change (alloc (set_alloc_node (zset t i (alloc_node_ s)) s) t' ≠ kNodeNotAssigned) in Hne.
      rewrite Ha in Hne. case_decide; [subst; eauto|]. apply Has in Hne as [?|[k ?]]; eauto.
    + intros t' Hne. destruct (Hd t' Hne) as (? & ? & ? & ? & Hle & ?). split_and!; try done; [|apply Hle].
      etrans; [|apply Hle]. etrans; [apply Z.eq_le_incl, Ha|]. case_decide; [|done]. subst.
      by destruct Hne.
Qed.

Lemma node_inv_outputs preserve m s0 i node rest rc s :
  nodes g !! Z.to_nat i = Some node → 0 ≤ i →
  node_inv preserve m s0 i (λ k t, k < i ∧ out_of g k t) rest rc s →
  wp (for_each (outputs node) (λ t, if_present t (queue_tensor i t ;; allocate i t)))
    (λ _, node_inv preserve m s0 i (λ k t, k < i + 1 ∧ out_of g k t) rest rc) (λ _, False) s.
Proof.
  intros Hk Hi Hs. pose proof (lookup_lt_Some _ _ _ Hk) as Hlt.
  assert (∀ done t, done ⊆ outputs node → t ∈ present done → out_of g i t) as Hout.
  { intros done t Hsub [? ?]%elem_of_present. rewrite <- (Z2Nat.id i) by done.
    eapply out_of_lookup; [done|]. apply elem_of_present. auto. }
  assert (∀ (b b' : Z → Z → Prop) j rc s, (∀ k t, b k t ↔ b' k t) →
    node_inv preserve m s0 j b rest rc s → node_inv preserve m s0 j b' rest rc s) as Hext.
  { intros b b' j rc' s' Hb []. split; try done.
    - intros k t ?%Hb. auto.
    - intros t [?|[k ?%Hb]]%ni_assigned0; eauto.
    - intros k t. by rewrite <- Hb. }
  eapply wp_mono; [apply (wp_for_each (λ done s', node_inv preserve m s0 i
    (λ k t, (k < i ∧ out_of g k t) ∨ (k = i ∧ t ∈ present done)) rest rc s')
    (λ _, False))|simpl|done].
  - eapply Hext; [|exact Hs]. intros k t. simpl. rewrite elem_of_nil. tauto.
  - intros done t todo s' Hl Hs'.
    assert (done ⊆ outputs node ∧ t ∈ outputs node) as [Hsub Ht].
    { rewrite Hl. split; [intros x ?; in_list|in_list]. }
    apply wp_if_present; intros Hne.
    + eapply Hext; [|exact Hs']. intros k t'. simpl. rewrite present_app, present_cons, Hne. simpl.
      by rewrite app_nil_r.
    + eapply wp_mono; [apply node_inv_birth; [exact Hs'|..]|simpl|done].
      * intros k t' [[_ ?]|[-> ?]]; [done|by eapply Hout].
      * apply (Hout (outputs node)); [done|by apply elem_of_present].
      * unfold num_execution_nodes. lia.
      * unfold num_execution_nodes. lia.
      * intros _ s''. apply Hext. intros k t'.
        rewrite present_app, present_cons, (proj2 (Z.eqb_neq t (-1))) by done. simpl.
        rewrite elem_of_app, list_elem_of_singleton. tauto.
  - intros _ s'. apply Hext. intros k t. simpl. split.
    + intros [[? ?]|[-> ?]]; [split; [lia|done]|split; [lia|by apply (Hout (outputs node))]].
    + intros [? Ho]. destruct (decide (k = i)) as [->|]; [right|left; split; [lia|done]].
        split; [done|]. destruct Ho as (node' & Hk' & Ho). apply zget_Some in Hk' as [_ Hk'].
        simplify_eq. apply elem_of_present. tauto.
Qed.

Lemma node_inv_drop m s0 i t rest rc s :
  owner_map m → t ≠ -1 → 0 ≤ FindSharedTensor m t < Z.of_nat nt → m !! FindSharedTensor m t = None →
  0 ≤ i < num_execution_nodes g →
  (∀ k, used_at m k (FindSharedTensor m t) → i < k → FindSharedTensor m t ∈ rest) →
  node_inv false m s0 (i + 1) (λ k t, k < i + 1 ∧ out_of g k t) (FindSharedTensor m t :: rest) rc s →
  wp (drop_reference i rc t)
    (λ rc', node_inv false m s0 (i + 1) (λ k t, k < i + 1 ∧ out_of g k t) rest rc') (λ _, False) s.
Proof.
  intros Hm Hne Hr Hnone Hi Hlater [Hf Ha Hz Hrc Hsrc Hborn Has Hd Hq Hn].
  unfold drop_reference, kTfLiteOptionalTensor. rewrite (proj2 (Z.eqb_neq t (-1))) by done.
  wp_steps. rewrite Ha. set (r := FindSharedTensor m t) in *.
  specialize (Hrc eq_refl). destruct Hz as [Hz1 Hz2 Hz3 Hz4].
  assert (∀ x, occ x (kept g ++ r :: rest) = (if decide (r = x) then 1 else 0) + occ x (kept g ++ rest)) as Hocc.
  { intros x. rewrite !occ_app. simpl. lia. }
  apply wp_add_count; [by rewrite (proj1 Hrc)|].
  assert (counts (zset r (vat 0 rc r + -1) rc) (kept g ++ rest)) as Hrc'.
  { eapply counts_set; [exact Hrc|done|..]; rewrite ?(proj2 Hrc).
    - rewrite Hocc, decide_True by done. lia.
    - intros x Hx. rewrite Hocc, decide_False by done. lia. }
  wp_steps. eapply wp_deref; [apply (vat_zget 0); by rewrite (proj1 Hrc')|]. wp_steps.
  rewrite (proj2 Hrc').
  assert (∀ t', dealloc s t' ≠ kNodeNotAssigned → false = false ∧ (t' ∉ kept g) ∧ (t' ∉ rest) ∧
    m !! t' = None ∧ alloc s t' ≤ dealloc s t' < i + 1 ∧
    ∀ k, used_at m k t' → k ≤ dealloc s t') as Hd'.
  { intros t' Hne'. destruct (Hd t' Hne') as (?&?&Hrest&?&?&?). split_and!; try done; try lia.
    intros Hin. apply Hrest. in_list. }
  destruct (Z.eqb_spec (occ r (kept g ++ rest)) 0) as [H0|H0]; wp_steps; [|by split].
  rewrite occ_app in H0. pose proof (occ_nonneg r (kept g)). pose proof (occ_nonneg r rest).
  assert (r ∉ kept g) as Hkept by (rewrite occ_pos; lia).
  assert (r ∉ rest) as Hrest by (rewrite occ_pos; lia).
  unfold deallocate. wp_steps. apply (wp_vget _ kNodeNotAssigned); [lia|]. fold (alloc s r).
  destruct (Z.eqb_spec (alloc s r) kNodeNotAssigned) as [|Hal]; wp_steps; [by split|].
  apply (wp_vget _ kNodeNotAssigned); [lia|]. fold (dealloc s r).
  assert (dealloc s r = kNodeNotAssigned) as ->.
  { destruct (decide (dealloc s r = kNodeNotAssigned)) as [|Hne']; [done|].
    destruct (Hd r Hne') as (_ & _ & Hin & _). exfalso. apply Hin. in_list. }
  wp_steps. apply wp_vset; [lia|]. wp_steps. split; simpl; try done.
  - etrans; [exact Hf|by split].
  - split; simpl; rewrite ?zset_length; congruence.
  - intros t'. unfold dealloc. simpl.
    change (alloc (set_dealloc_node _ s) t') with (alloc s t').
    destruct (decide (t' = r)) as [->|].
    + rewrite vat_zset_eq by lia. intros _. split_and!; try done; try lia.
      * destruct (Has r Hal) as [Hs|[k [Hk Ho]]].
        -- exfalso. apply Hkept. unfold kept. in_list.
        -- rewrite (Hborn k r) by done. lia.
      * intros k Hk. destruct (decide (k ≤ i)) as [|Hlt]; [done|].
        exfalso. apply Hrest. apply (Hlater k); [done|lia].
    + rewrite vat_zset_ne by (lia || done). apply Hd'.
Qed.

Lemma plan_node_spec preserve m s0 i node rc s :
  owner_map m → nodes g !! Z.to_nat i = Some node → 0 ≤ i →
  node_inv preserve m s0 i (λ k t, k < i ∧ out_of g k t)
    (owners m (inputs node) ++ uses m (drop (S (Z.to_nat i)) (nodes g))) rc s →
  wp (plan_node preserve rc (i, node))
    (node_inv preserve m s0 (i + 1) (λ k t, k < i + 1 ∧ out_of g k t)
       (uses m (drop (S (Z.to_nat i)) (nodes g)))) (λ _, False) s.
Proof.
  intros Hm Hk Hi Hs. pose proof (lookup_lt_Some _ _ _ Hk) as Hlt. unfold plan_node. wp_steps.
  eapply wp_mono; [by eapply node_inv_outputs| |done]. simpl. intros _ s1 Hs1.
  assert (node_inv preserve m s0 (i + 1) (λ k t, k < i + 1 ∧ out_of g k t)
    (owners m (inputs node) ++ uses m (drop (S (Z.to_nat i)) (nodes g))) rc s1) as Hs1'.
  { destruct Hs1. split; try done. intros t Hne.
    destruct (ni_dealloc0 t Hne) as (?&?&?&?&?&?). split_and!; done || lia. }
  clear Hs1. destruct preserve; simpl.
  - wp_steps. destruct Hs1'. split; try done. intros t Hne. by destruct (ni_dealloc0 t Hne).
  - eapply wp_mono; [apply (wp_fold_m (λ done rc' s', ∃ todo, inputs node = done ++ todo ∧
      node_inv false m s0 (i + 1) (λ k t, k < i + 1 ∧ out_of g k t)
        (owners m todo ++ uses m (drop (S (Z.to_nat i)) (nodes g))) rc' s') (λ _, False))|simpl|done].
    + by exists (inputs node).
    + intros done t todo rc2 s2 Hl (todo' & Hl' & Hs2). rewrite Hl in Hl'.
      apply app_inv_head in Hl' as <-. rewrite owners_cons in Hs2.
      destruct (Z.eqb_spec t (-1)) as [->|Hne].
      { unfold drop_reference. wp_steps. exists todo. split; [by rewrite <- app_assoc|done]. }
      assert (FindSharedTensor m t ∈ owners m (inputs node)) as Hin.
      { rewrite Hl, owners_app, owners_cons, (proj2 (Z.eqb_neq t (-1))) by done. in_list. }
      destruct (owner_range m _ _ _ Hm Hk Hin) as [Hr Hnone].
      eapply wp_mono; [apply node_inv_drop; [done..|unfold num_execution_nodes; lia| |exact Hs2]|simpl|done].
      * intros k (node' & [Hk0 Hk']%zget_Some & Hu) Hik. apply elem_of_app. right.
        unfold uses. apply list_elem_of_In, in_concat. exists (owners m (inputs node')).
        rewrite <- !list_elem_of_In. split; [|done]. apply list_elem_of_fmap. exists node'. split; [done|].
        apply list_elem_of_lookup. exists (Z.to_nat k - S (Z.to_nat i))%nat.
        rewrite lookup_drop. rewrite <- Hk'. f_equal. lia.
      * intros rc3 s3 Hs3. exists todo. split; [by rewrite <- app_assoc|done].
    + intros rc' s' (todo & Hl & Hs'). rewrite <- (app_nil_r (inputs node)) in Hl at 1.
      apply app_inv_head in Hl as <-. by unfold owners in Hs'.
Qed.

Lemma enumerated_split done i node todo :
  enumerated_nodes g = done ++ (i, node) :: todo →
  i = zlen done ∧ nodes g !! length done = Some node.
Proof.
  intros Hl. assert (enumerated_nodes g !! length done = Some (i, node)) as Hk.
  { rewrite Hl. apply lookup_split. }
  unfold enumerated_nodes, num_execution_nodes, range in Hk.
  apply lookup_zip_with_Some in Hk as (j & node' & [= <- <-] & Hj & Hn).
  apply lookup_seqZ in Hj. split; [lia|done].
Qed.

Lemma plan_nodes_spec preserve m s0 rc s :
  owner_map m →
  node_inv preserve m s0 0 (λ k t, k < 0 ∧ out_of g k t) (uses m (nodes g)) rc s →
  wp (fold_m (enumerated_nodes g) rc (plan_node preserve))
    (λ rc', node_inv preserve m s0 (num_execution_nodes g) (out_of g) [] rc') (λ _, False) s.
Proof.
  intros Hm Hs.
  eapply wp_mono; [apply (wp_fold_m (λ done rc' s', node_inv preserve m s0 (zlen done)
    (λ k t, k < zlen done ∧ out_of g k t) (uses m (drop (length done) (nodes g))) rc' s')
    (λ _, False))|simpl|done].
  - by rewrite drop_0.
  - intros done [i node] todo rc' s' [-> Hk]%enumerated_split Hs'.
    pose proof (lookup_lt_Some _ _ _ Hk).
    rewrite length_app, Nat2Z.inj_add. simpl. rewrite (drop_S _ node) in Hs' by done.
    eapply wp_mono; [apply plan_node_spec; rewrite ?Nat2Z.id; [done|exact Hk|lia|exact Hs']|simpl|done].
    rewrite Nat2Z.id, Nat.add_1_r. done.
  - assert (length (enumerated_nodes g) = length (nodes g)) as ->.
    { unfold enumerated_nodes, num_execution_nodes, range. rewrite length_zip, length_seqZ. lia. }
    rewrite drop_all. intros rc' s' [Hf Ha Hz Hrc Hsrc Hborn Has Hd Hq Hn].
    assert (∀ k t, k < zlen (nodes g) ∧ out_of g k t ↔ out_of g k t) as Hout.
    { intros k t. split; [by intros [_ ?]|]. intros Ho. split; [|done].
      destruct Ho as (? & ?%zget_range & _). lia. }
    split; try done.
    + intros k t ?. by apply Hborn, Hout.
    + intros t [?|[k [_ ?]]]%Has; eauto.
    + intros k t. by rewrite <- Hout.
Qed.

(** ** [PlanAllocations] *)

(** What [PlanAllocations] establishes: arenas without allocations, sharing with
    owners, and for every tensor its first node and, when it can be freed, a last
    node not before any use of its memory. *)
Record planned (preserve : bool) (s0 s : ArenaPlanner) : Prop := {
  pl_memory : memory s = memory s0;
  pl_tensors : tensors s = tensors s0;
  pl_allocs : allocs_ s = replicate nt reset_alloc;
  pl_last : last_active_node_ s = kLastActiveNodeUndefined;
  pl_arena : arena_ s = {| committed_ := false; high_water_mark_ := 0;
    underlying_buffer_ := underlying_buffer_ (arena_ s0); active_allocs_ := [] |};
  pl_persistent : persistent_arena_ s = {| committed_ := false; high_water_mark_ := 0;
    underlying_buffer_ := underlying_buffer_ (persistent_arena_ s0); active_allocs_ := [] |};
  pl_sized : sized g nt s;
  pl_sharing : sharing preserve (nodes g) (actual_tensor_id_ s);
  pl_source t : t ∈ sources g → alloc s t = 0;
  pl_out k t : out_of g k t → alloc s t = k;
  pl_assigned t : alloc s t ≠ kNodeNotAssigned → t ∈ sources g ∨ ∃ k, out_of g k t;
  pl_dealloc t : dealloc s t ≠ kNodeNotAssigned →
    preserve = false ∧ (t ∉ kept g) ∧ actual_tensor_id_ s !! t = None ∧
    alloc s t ≤ dealloc s t < num_execution_nodes g ∧
    ∀ k, used_at (actual_tensor_id_ s) k t → k ≤ dealloc s t;
  pl_queued k t : t ∈ queued s k ↔ (k = 0 ∧ t ∈ sources g) ∨ out_of g k t;
  pl_nodup k : NoDup (queued s k)
}.

Lemma PlanAllocations_spec preserve s0 :
  length (tensors s0) = nt →
  wp (PlanAllocations g preserve) (λ _, planned preserve s0) (λ _, False) s0.
Proof.
  intros Hnt. unfold PlanAllocations, ResetAllocations, with_arena, with_persistent_arena, ClearPlan.
  wp_steps. apply wp_zoom. wp_steps. apply wp_zoom. wp_steps. set (s1 := set_refcounts _ _).
  assert (start_inv [] [] s1) as Hs1.
  { split; try (intros; apply vat_replicate).
    - split; simpl; by rewrite length_replicate.
    - intros t. unfold s1, queued. simpl. by rewrite vat_replicate.
    - unfold s1, queued. simpl. rewrite vat_replicate. constructor. }
  eapply wp_mono; [by apply start_outputs| |done]. intros _ s2 [Hf2 Hs2]. wp_steps.
  eapply wp_mono; [by apply start_variables| |done]. intros _ s3 [Hf3 Hs3]. wp_steps.
  eapply wp_mono; [by apply start_inputs| |done]. intros _ s4 [Hf4 Hs4]. wp_steps.
  rewrite <- app_assoc in Hs4. fold (sources g) in Hs4. fold (kept g) in Hs4.
  destruct Hs4 as [Hz4 Hr4 Ha4 Hd4 Hq4 Hn4 Hl4].
  eapply wp_mono; [apply count_node_inputs, Hz4| |done]. intros _ s5 [Hp5 _]. wp_steps.
  assert (plan_frame s1 s5) as Hf5.
  { etrans; [exact Hf2|]. etrans; [exact Hf3|]. etrans; [exact Hf4|apply Hp5]. }
  assert (length (refcounts_ s4) = nt) as Hlen4 by apply Hz4.
  eapply wp_mono; [apply IdentifyInPlaceTensors_spec| |done].
  { rewrite (pf_tensors _ _ Hf5). exact Hnt. }
  { by rewrite (sp_refcounts _ _ Hp5). }
  intros _ s6 [Hp6 Hsh]. wp_steps. pose proof (sharing_owner_map _ _ _ Hsh) as Hm.
  eapply wp_mono; [apply (count_shared _ _ (kept g)); [done|]| |done].
  { split; [done|]. exact Hr4. }
  intros rc s7 [-> Hrc]. wp_steps. assert (same_plan s4 s6) as Hp by by etrans.
  eapply wp_mono; [apply (plan_nodes_spec preserve (actual_tensor_id_ s6) s6); [done|]| |done].
  { destruct Hp as [Hf Halloc Hdealloc Hqueues Hrefs]. destruct Hz4 as [Hz1 Hz2 Hz3 Hz5].
    assert (∀ k t, (k < 0 ∧ out_of g k t) ↔ False) as Hneg.
    { intros k t. split; [|done]. intros [? (? & ?%zget_range & _)]. lia. }
    split; try done.
    - split; congruence.
    - intros t Ht. unfold alloc. rewrite Halloc. etrans; [apply Ha4|]. by rewrite decide_True.
    - intros k t. by rewrite Hneg.
    - intros t. unfold alloc. rewrite Halloc. intros Hne. left.
      change (alloc s4 t ≠ kNodeNotAssigned) in Hne. rewrite Ha4 in Hne. by destruct (decide (t ∈ sources g)).
    - intros t. unfold dealloc. rewrite Hdealloc. intros Hne. by destruct (Hne (Hd4 t)).
    - intros k t. unfold queued. rewrite Hqueues, Hneg. destruct (decide (k = 0)) as [->|Hk].
      + change (t ∈ queued s4 0 ↔ (0 = 0 ∧ t ∈ sources g) ∨ False). rewrite Hq4. tauto.
      + change (t ∈ queued s4 k ↔ (k = 0 ∧ t ∈ sources g) ∨ False). rewrite Hl4 by done.
        rewrite elem_of_nil. tauto.
    - intros k. unfold queued. rewrite Hqueues. destruct (decide (k = 0)) as [->|Hk]; [exact Hn4|].
      change (NoDup (queued s4 k)). rewrite Hl4 by done. constructor. }
  intros rc' s8 [Hf Ha Hz _ Hsrc Hborn Has Hd Hq Hn]. wp_steps.
  assert (plan_frame s1 s8) as [? ? Hal ? ? ? ?].
  { etrans; [exact Hf5|]. etrans; [apply Hp6|exact Hf]. }
  split; try done; [by rewrite Hal; simpl; rewrite Hnt|by rewrite Ha|].
  intros t Hne. destruct (Hd t Hne) as (?&?&?&?&?&?). by rewrite Ha.
Qed.

(** ** Lifetimes *)

(** [t] gets its value at node [p]: before the run, or as an output. *)
Definition born_at (t p : Z) : Prop := (p = 0 ∧ t ∈ sources g) ∨ out_of g p t.

(** The value of [t] is needed at node [u]. *)
Definition needed_at (t u : Z) : Prop :=
  in_of g u t ∨ out_of g u t ∨ (t ∈ kept g ∧ u < num_execution_nodes g).

Lemma node_index_range k t :
  (in_of g k t ∨ out_of g k t ∨ temp_of g k t) → 0 ≤ k < num_execution_nodes g.
Proof. intros [(? & ?%zget_range & _)|[(? & ?%zget_range & _)|(? & ?%zget_range & _)]]; done. Qed.

Lemma planned_alloc preserve s0 s t p :
  planned preserve s0 s → born_at t p → alloc s t = p.
Proof. intros Hp [[-> Ht]|Ht]; [by eapply pl_source|by eapply pl_out]. Qed.

Lemma key_output preserve m o r :
  sharing preserve (nodes g) m → m !! o = Some r → ∃ k, out_of g k o ∧ (o ∉ kept g) ∧
    used_at m k r ∧ (∃ k', in_of g k' r ∧ k' ≤ k) ∧ ∃ node, zget (nodes g) k = Some node ∧
    head (outputs node) = Some o.
Proof.
  intros Hsh Hr. destruct (sh_node _ _ _ Hsh _ _ Hr) as (k & node & x & Hk & Hh & Hne & Hgo & Hx & Hf & _).
  destruct (sh_used _ _ _ Hsh _ _ Hr) as (k2 & node2 & k' & Hk2 & Hh2 & Hin & Hle).
  assert (∀ k node, nodes g !! k = Some node → head (outputs node) = Some o →
    out_of g (Z.of_nat k) o) as Hout.
  { intros j nd Hj Hhd. eapply out_of_lookup; [done|]. apply elem_of_present. split; [done|].
    destruct (outputs nd); simplify_eq/=. in_list. }
  pose proof (Hout _ _ Hk Hh) as Ho. exists (Z.of_nat k).
  pose proof (vg_producer _ _ Hg _ _ _ Ho (Hout _ _ Hk2 Hh2)).
  assert (zget (nodes g) (Z.of_nat k) = Some node) as Hz.
  { apply zget_Some. rewrite Nat2Z.id. split; [lia|done]. }
  split_and!; [done| | |exists k'; split; [done|lia]|by exists node].
  - pose proof (vg_source _ _ Hg _ _ Ho). unfold kept. rewrite elem_of_app, elem_of_present. tauto.
  - exists node. split; [done|]. unfold owners. rewrite <- Hf. by apply list_elem_of_fmap_2.
Qed.

(** The memory of [t] is reserved from where [t] is born to where it is last
    needed. *)
Lemma lifetime_covered preserve s0 s t p u i :
  planned preserve s0 s → born_at t p → needed_at t u → p ≤ i ≤ u →
  (∃ p', born_at (FindSharedTensor (actual_tensor_id_ s) t) p') →
  alloc s (FindSharedTensor (actual_tensor_id_ s) t) ≤ i
    ≤ dealloc s (FindSharedTensor (actual_tensor_id_ s) t).
Proof.
  intros Hp Hborn Hneed Hi [p' Hborn']. set (m := actual_tensor_id_ s) in *.
  set (o := FindSharedTensor m t) in *. rewrite (planned_alloc _ _ _ _ _ Hp Hborn').
  pose proof (pl_sharing _ _ _ Hp) as Hsh. fold m in Hsh.
  assert (t = o ∨ m !! t = Some o) as Hto.
  { unfold o, FindSharedTensor. destruct (m !! t); [by right|by left]. }
  assert (p' ≤ p) as Hpp.
  { destruct Hto as [Ho|Hr].
    - rewrite <- Ho in Hborn'. rewrite <- (planned_alloc _ _ _ _ _ Hp Hborn).
      by rewrite (planned_alloc _ _ _ _ _ Hp Hborn').
    - destruct (key_output _ _ _ _ Hsh Hr) as (k & Ho & Hk & _ & (k' & Hin & Hle) & _).
      destruct Hborn as [[_ Hs]|Hout]; [by apply (vg_source _ _ Hg) in Ho|].
      rewrite (vg_producer _ _ Hg p k t) by done.
      destruct Hborn' as [[-> _]|Hout']; [apply (node_index_range k t); auto|].
      pose proof (vg_order _ _ Hg _ _ _ Hin Hout'). lia. }
  split; [lia|]. assert (u < num_execution_nodes g) as Hu.
  { destruct Hneed as [Hn|[Hn|[_ Hn]]]; [..|done]; apply (node_index_range u t); auto. }
  destruct (decide (dealloc s o = kNodeNotAssigned)) as [->|Hd].
  { pose proof (vg_size _ _ Hg). unfold kNodeNotAssigned. lia. }
  destruct (pl_dealloc _ _ _ Hp o Hd) as (_ & Hkept & Hno & Hd1 & Huse).
  fold m in Hno, Huse. destruct Hneed as [Hin|[Hout|[Hk _]]].
  - etrans; [apply Hi|]. apply Huse. destruct Hin as (node & Hz & Hin & Hne). exists node.
    split; [done|]. apply list_elem_of_fmap_2. by apply elem_of_present.
  - destruct Hto as [Ho|Hr].
    + etrans; [|apply Hd1]. rewrite <- Ho. rewrite (pl_out _ _ _ Hp u t Hout). lia.
    + destruct (key_output _ _ _ _ Hsh Hr) as (k & Ho & _ & Hused & _).
      rewrite (vg_producer _ _ Hg u k t) in Hi by done. etrans; [apply Hi|by apply Huse].
  - destruct Hto as [<-|Hr]; [done|].
    by destruct (key_output _ _ _ _ Hsh Hr) as (_ & _ & Hnk & _).
Qed.
End plan.

(** C25: On a valid graph [PlanAllocations] returns without error or undefined
    behaviour, and the owner of every tensor's memory is allocated no later than
    the tensor is produced and freed no earlier than its last use, at every node in
    between (with [preserve_all_tensors_] nothing is shared or freed). *)
Theorem PlanAllocations_lifetimes g nt preserve s :
  valid_graph g (Z.of_nat nt) → length (tensors s) = nt →
  wp (PlanAllocations g preserve)
    (λ _ s', let owner := FindSharedTensor (actual_tensor_id_ s') in
       (∀ t p u i, born_at g t p → needed_at g t u → p ≤ i ≤ u →
          (∃ p', born_at g (owner t) p') → alloc s' (owner t) ≤ i ≤ dealloc s' (owner t)) ∧
       (preserve = true → ∀ t, owner t = t ∧ dealloc s' t = kNodeNotAssigned))
    (λ _, False) s.
Proof.
  intros Hg Hnt. eapply wp_mono; [by apply (PlanAllocations_spec g nt Hg)| |done].
  simpl. intros _ s' Hp. split; [intros *; by eapply (lifetime_covered g nt Hg)|].
  intros -> t. split.
  - unfold FindSharedTensor. destruct (actual_tensor_id_ s' !! t) eqn:Hr; [|done].
    destruct (sh_node _ _ _ _ (pl_sharing _ _ _ _ _ Hp) _ _ Hr) as (? & ? & ? & H). naive_solver.
  - destruct (decide (dealloc s' t = kNodeNotAssigned)) as [|Hd]; [done|].
    by destruct (pl_dealloc _ _ _ _ _ Hp t Hd).
Qed.

(** A chain of three nodes: input 0, outputs 1, 2, 3; node 0 reshapes, node 1
    adds tensor 0 to tensor 1, node 2 has a temporary 4. *)
Definition sample_graph : GraphInfo := {|
  nodes := [
    {| inputs := [0]; outputs := [1]; temporaries := []; inplace_operator := 5 |};
    {| inputs := [1; 0]; outputs := [2]; temporaries := []; inplace_operator := 4 |};
    {| inputs := [2; -1]; outputs := [3]; temporaries := [4]; inplace_operator := 4 |} ];
  graph_inputs := [0]; graph_outputs := [3]; graph_variables := []
|}.

Definition rw_tensor (n : Z) : TfLiteTensor :=
  {| allocation_type := kTfLiteArenaRw; bytes := n; data := 0 |}.

Definition sample_tensors : list TfLiteTensor := replicate 5 (rw_tensor 16).

Lemma sample_node k node :
  zget (nodes sample_graph) k = Some node →
  (k = 0 ∧ node = {| inputs := [0]; outputs := [1]; temporaries := []; inplace_operator := 5 |}) ∨
  (k = 1 ∧ node = {| inputs := [1; 0]; outputs := [2]; temporaries := []; inplace_operator := 4 |}) ∨
  (k = 2 ∧ node = {| inputs := [2; -1]; outputs := [3]; temporaries := [4]; inplace_operator := 4 |}).
Proof.
  intros Hk. pose proof (zget_range _ _ _ Hk) as Hr. simpl in Hr.
  assert (k = 0 ∨ k = 1 ∨ k = 2) as [H|[H|H]] by lia; subst k; vm_compute in Hk; injection Hk as <-; auto.
Qed.

Lemma sample_valid : valid_graph sample_graph 5.
Proof.
  assert (∀ k t, in_of sample_graph k t → (k = 0 ∧ t = 0) ∨ (k = 1 ∧ (t = 0 ∨ t = 1)) ∨ (k = 2 ∧ t = 2)) as Hin.
  { intros k t (node & Hn & Ht & Hne); apply sample_node in Hn as [[-> ->]|[[-> ->]|[-> ->]]]; simpl in Ht;
      rewrite ?elem_of_cons, ?elem_of_nil in Ht; lia. }
  assert (∀ k t, out_of sample_graph k t → 0 ≤ k ≤ 2 ∧ t = k + 1) as Hout.
  { intros k t (node & Hn & Ht & Hne); apply sample_node in Hn as [[-> ->]|[[-> ->]|[-> ->]]]; simpl in Ht;
      rewrite ?elem_of_cons, ?elem_of_nil in Ht; lia. }
  assert (∀ k t, temp_of sample_graph k t → k = 2 ∧ t = 4) as Htemp.
  { intros k t (node & Hn & Ht); apply sample_node in Hn as [[-> ->]|[[-> ->]|[-> ->]]]; simpl in Ht;
      rewrite ?elem_of_cons, ?elem_of_nil in Ht; lia. }
  assert (∀ t, t ∈ kept sample_graph → t = 3 ∨ t = 0) as Hkept.
  { intros t Ht. change (t ∈ [3; 0]) in Ht. rewrite ?elem_of_cons, ?elem_of_nil in Ht. lia. }
  split; [split|..].
  - done.
  - intros t ?%Hkept. lia.
  - intros k t ?%Hin. lia.
  - intros k t ?%Hout. lia.
  - intros node Hn _. apply list_elem_of_lookup in Hn as [j Hj].
    assert (zget (nodes sample_graph) (Z.of_nat j) = Some node) as Hz.
    { apply zget_Some. rewrite Nat2Z.id. split; [lia|done]. }
    by apply sample_node in Hz as [[_ ->]|[[_ ->]|[_ ->]]].
  - intros k k' t ?%Hout ?%Hout. lia.
  - intros k t ?%Hout Hs. change (t ∈ [0]) in Hs. rewrite elem_of_cons, elem_of_nil in Hs. lia.
  - intros k k' t ?%Hin ?%Hout. lia.
  - intros k t ?%Htemp. lia.
  - intros k k' t ?%Htemp ?%Htemp. lia.
  - intros k k' t ?%Htemp. split_and!; [intros ?%Hout; lia|intros ?%Hin; lia|intros ?%Hkept; lia].
Qed.

Definition sample_planner : ArenaPlanner := new_planner ∅ sample_tensors.

Lemma PlanAllocations_lifetimes_witness :
  valid_graph sample_graph 5 ∧
  wp (PlanAllocations sample_graph false)
    (λ _ s', let owner := FindSharedTensor (actual_tensor_id_ s') in
       (∀ t p u i, born_at sample_graph t p → needed_at sample_graph t u → p ≤ i ≤ u →
          (∃ p', born_at sample_graph (owner t) p') →
          alloc s' (owner t) ≤ i ≤ dealloc s' (owner t)) ∧
       (false = true → ∀ t, owner t = t ∧ dealloc s' t = kNodeNotAssigned))
    (λ _, False) sample_planner.
Proof.
  split; [exact sample_valid|].
  apply (PlanAllocations_lifetimes sample_graph 5); [exact sample_valid|reflexivity].
Defined.
