(* ===== verification/PlannerExecution.v ===== *)
(** * Memory assigned by [ExecuteAllocations]

    From the plan to addresses: the arenas serve every tensor, and tensors with
    different owners that are live at a common node get disjoint memory. *)

From S2P Require Import Prelude SimpleMemoryArena ArenaPlanner PlannerLifetimes.

Definition no_tensor : TfLiteTensor :=
  {| allocation_type := kTfLiteMemNone; bytes := 0; data := 0 |}.

(** Tensors as [ExecuteAllocations] sees them: it changes their data only. *)
Definition type_of (s : ArenaPlanner) (t : Z) : TfLiteAllocationType :=
  allocation_type (vat no_tensor (tensors s) t).
Definition bytes_of (s : ArenaPlanner) (t : Z) : Z := bytes (vat no_tensor (tensors s) t).
Definition data_of (s : ArenaPlanner) (t : Z) : Z := data (vat no_tensor (tensors s) t).
Definition alloc_of (s : ArenaPlanner) (t : Z) : Alloc := vat reset_alloc (allocs_ s) t.

Lemma resize_list_same {A} n (x : A) l : length l = n → resize_list n x l = l.
Proof.
  intros <-. unfold resize_list. by rewrite firstn_all, Nat.sub_diag, app_nil_r.
Qed.

(** ** Temporaries *)

Section execute.
Context `{Platform} `{StdSort} `{UnorderedOrder}.
Context (g : GraphInfo) (nt : nat) (preserve : bool) (al : Z).
Hypothesis Hg : valid_graph g (Z.of_nat nt).

(** The plan [s0] with the temporaries [done k t] of the nodes [k]. *)
Record with_temporaries (s0 : ArenaPlanner) (done : Z → Z → Prop) (s : ArenaPlanner) : Prop := {
  wt_frame : plan_frame s0 s;
  wt_actual : actual_tensor_id_ s = actual_tensor_id_ s0;
  wt_sized : sized g nt s;
  wt_temp k t : done k t → alloc s t = k ∧ k ≤ dealloc s t;
  wt_other t : (∀ k, ¬ done k t) → alloc s t = alloc s0 t ∧ dealloc s t = dealloc s0 t;
  wt_queued k t : t ∈ queued s k ↔ t ∈ queued s0 k ∨ done k t;
  wt_nodup k : NoDup (queued s k)
}.

Lemma with_temporaries_ext s0 done done' s :
  (∀ k t, done k t ↔ done' k t) → with_temporaries s0 done s → with_temporaries s0 done' s.
Proof.
  intros Hd []. split; try done.
  - intros k t ?%Hd. auto.
  - intros t Ht. apply wt_other0. intros k ?%Hd. by eapply Ht.
  - intros k t. by rewrite <- Hd.
Qed.

Lemma plan_temporary_spec s1 s0 done s j t :
  planned g nt preserve s1 s0 → (∀ k t, done k t → temp_of g k t) → temp_of g j t →
  with_temporaries s0 done s →
  wp (vset alloc_node_ set_alloc_node t j ;; queue_tensor j t ;;
      if negb preserve then vset dealloc_node_ set_dealloc_node t j else mret ())
    (λ _, with_temporaries s0 (λ k t', done k t' ∨ (k = j ∧ t' = t))) (λ _, False) s.
Proof.
  intros Hp Hsub Ht [Hf Ha Hz Hdone Hother Hq Hn].
  pose proof (vg_temp _ _ Hg _ _ Ht) as Hr. pose proof (vg_size _ _ Hg) as Hsz.
  assert (0 ≤ j < num_execution_nodes g) as Hj by (apply (node_index_range g j t); auto).
  pose proof (queue_index g nt s j Hz Hj) as Hqj. destruct Hz as [Hz1 Hz2 Hz3 Hz4].
  wp_steps. apply wp_vset; [lia|]. wp_steps. apply wp_queue_tensor; [done|].
  set (q' := zset j _ _).
  assert (∀ k t', t' ∈ vat [] q' k ↔ t' ∈ queued s0 k ∨ done k t' ∨ (k = j ∧ t' = t)) as Hq'.
  { intros k t'. unfold q'. simpl. destruct (decide (k = j)) as [->|].
    - rewrite vat_zset_eq, elem_of_uset_insert by done. change (queued (set_alloc_node _ s) j) with (queued s j).
      rewrite Hq. naive_solver.
    - rewrite vat_zset_ne by (lia || done). fold (queued s k). rewrite Hq. naive_solver. }
  assert (∀ k, NoDup (vat [] q' k)) as Hn'.
  { intros k. unfold q'. simpl. destruct (decide (k = j)) as [->|].
    - rewrite vat_zset_eq by done. apply NoDup_uset_insert, Hn.
    - rewrite vat_zset_ne by (lia || done). apply Hn. }
  assert (length q' = length (nodes_to_tensors_ s)) as Hlen by apply zset_length.
  assert (∀ t', vat kNodeNotAssigned (zset t j (alloc_node_ s)) t' = if decide (t' = t) then j else alloc s t')
    as Hal'.
  { intros t'. case_decide; [subst; by rewrite vat_zset_eq by lia|by rewrite vat_zset_ne by (lia || done)]. }
  assert (∀ s', plan_frame s s' → actual_tensor_id_ s' = actual_tensor_id_ s →
    alloc_node_ s' = zset t j (alloc_node_ s) → nodes_to_tensors_ s' = q' →
    sized g nt s' → j ≤ dealloc s' t → (∀ t', t' ≠ t → dealloc s' t' = dealloc s t') →
    with_temporaries s0 (λ k t', done k t' ∨ (k = j ∧ t' = t)) s') as Hfinal.
  { intros s' Hf' Ha' Halloc Hqueues Hz' Hd1 Hd2.
    split; [by etrans|congruence|done|unfold alloc; rewrite Halloc..|unfold queued; by rewrite Hqueues|
      unfold queued; by rewrite Hqueues].
    - intros k t' Hk. rewrite Hal'. case_decide as Ht'.
      + subst. assert (k = j) as ->; [|done]. destruct Hk as [Hk|[-> _]]; [|done].
        apply (vg_temp_owner _ _ Hg k j t); auto.
      + rewrite Hd2 by done. destruct Hk as [Hk|[_ ?]]; [by apply Hdone|done].
    - intros t' Hno. rewrite Hal'. case_decide as Ht'; [subst; exfalso; apply (Hno j); by right|].
      rewrite Hd2 by done. apply Hother. intros k ?. apply (Hno k). by left. }
  destruct preserve; simpl; wp_steps.
  - apply Hfinal; try done; [split; simpl; rewrite ?zset_length; congruence|].
    change (j ≤ dealloc s t). destruct (decide (dealloc s0 t = kNodeNotAssigned)) as [Hd|Hd].
    + destruct (decide (alloc s t = j ∧ j ≤ dealloc s t)) as [[_ ?]|Hno]; [done|].
      assert (dealloc s t = dealloc s0 t) as ->; [|rewrite Hd; unfold kNodeNotAssigned; lia].
      apply Hother. intros k Hk. assert (k = j) as -> by (apply (vg_temp_owner _ _ Hg k j t); auto).
      by apply Hno, Hdone.
    + by destruct (pl_dealloc _ _ _ _ _ Hp t Hd).
  - apply wp_vset; [simpl; lia|]. apply Hfinal; try done; [split; simpl; rewrite ?zset_length; congruence|..].
    + unfold dealloc. simpl. by rewrite vat_zset_eq by lia.
    + intros t' Hne. unfold dealloc. simpl. by rewrite vat_zset_ne by (lia || done).
Qed.

Lemma plan_temporaries_spec s1 s0 :
  planned g nt preserve s1 s0 →
  wp (for_each (range 0 (num_execution_nodes g)) (plan_temporaries g preserve))
    (λ _, with_temporaries s0 (temp_of g)) (λ _, False) s0.
Proof.
  intros Hp.
  eapply wp_mono; [apply (wp_for_each (λ done, with_temporaries s0
    (λ k t, k < zlen done ∧ temp_of g k t)) (λ _, False))|simpl|done].
  - split; try done.
    + apply Hp.
    + intros k t [Hk Ht]. simpl in Hk. pose proof (node_index_range g k t ltac:(auto)). lia.
    + intros k t. split; [by left|]. intros [?|[Hk Ht]]; [done|]. simpl in Hk.
      pose proof (node_index_range g k t ltac:(auto)). lia.
    + apply Hp.
  - intros done i todo s Hl Hs. apply range_split in Hl as [-> Hi].
    rewrite length_app, Nat2Z.inj_add. simpl. unfold plan_temporaries.
    destruct (zget_is_Some (nodes g) (zlen done)) as [node Hk]; [unfold num_execution_nodes in Hi; lia|].
    wp_steps. eapply wp_deref; [exact Hk|].
    eapply wp_mono; [apply (wp_for_each (λ ts, with_temporaries s0 (λ k t,
      (k < zlen done ∧ temp_of g k t) ∨ (k = zlen done ∧ t ∈ ts))) (λ _, False))|simpl|done].
    + eapply with_temporaries_ext; [|exact Hs]. intros k t. simpl. rewrite elem_of_nil. tauto.
    + intros ts t ts' s' Hl Hs'.
      assert (∀ t', t' ∈ ts ++ [t] → temp_of g (zlen done) t') as Hts.
      { intros t' Ht'. exists node. split; [done|]. rewrite Hl, cons_middle, app_assoc. apply elem_of_app. by left. }
      eapply wp_mono; [eapply (plan_temporary_spec s1); [done| | |exact Hs']|simpl|done].
      * intros k t' [[_ ?]|[-> ?]]; [done|]. apply Hts. in_list.
      * apply Hts. in_list.
      * intros _ s''. apply with_temporaries_ext. intros k t'.
        rewrite elem_of_app, list_elem_of_singleton. tauto.
    + intros _ s'. apply with_temporaries_ext. intros k t. split.
      * intros [[? ?]|[-> ?]]; [split; [lia|done]|]. split; [lia|]. by exists node.
      * intros [Hlt Ht]. destruct (decide (k = zlen done)) as [->|]; [|left; split; [lia|done]].
        right. split; [done|]. destruct Ht as (node' & Hk' & Ht). by simplify_eq.
  - intros _ s'. apply with_temporaries_ext. intros k t. split; [by intros [_ ?]|].
    intros Ht. split; [|done]. unfold range. rewrite length_seqZ. pose proof (node_index_range g k t ltac:(auto)). lia.
Qed.

(** ** The tensors to allocate *)

(** [t] enters the queue of node [k]. *)
Definition enters (k t : Z) : Prop := born_at g t k ∨ temp_of g k t.

Lemma enters_unique k k' t : enters k t → enters k' t → k = k'.
Proof.
  intros [[[-> Hs]|Ho]|Ht] [[[-> Hs']|Ho']|Ht']; try done.
  - by apply (vg_source _ _ Hg) in Ho'.
  - destruct (vg_temp_private _ _ Hg _ 0 _ Ht') as (_ & _ & Hk). exfalso. apply Hk.
    unfold kept. in_list.
  - by apply (vg_source _ _ Hg) in Ho.
  - by apply (vg_producer _ _ Hg k k' t).
  - by destruct (vg_temp_private _ _ Hg _ k _ Ht') as [? _].
  - destruct (vg_temp_private _ _ Hg _ 0 _ Ht) as (_ & _ & Hk). exfalso. apply Hk.
    unfold kept. in_list.
  - by destruct (vg_temp_private _ _ Hg _ k' _ Ht) as [? _].
  - by apply (vg_temp_owner _ _ Hg k k' t).
Qed.

Lemma enters_range k t : enters k t → 0 ≤ t < Z.of_nat nt.
Proof.
  intros [[[_ Hs]|Ho]|Ht].
  - apply (vg_kept _ _ Hg). unfold kept. in_list.
  - by apply (vg_out _ _ Hg k).
  - by apply (vg_temp _ _ Hg k).
Qed.

Lemma GetTensorsToAllocate_spec s :
  sized g nt s → (∀ k t, t ∈ queued s k ↔ enters k t) → (∀ k, NoDup (queued s k)) →
  wp (GetTensorsToAllocate 0 (num_execution_nodes g - 1))
    (λ l s', s' = s ∧ NoDup l ∧
       ∀ t, t ∈ l ↔ ∃ k, enters k t ∧ 0 ≤ k < num_execution_nodes g) (λ _, False) s.
Proof.
  intros Hz Hq Hn. unfold GetTensorsToAllocate. rewrite Z.sub_add.
  eapply wp_mono; [apply (wp_fold_m (λ done l s', s' = s ∧ NoDup l ∧
    ∀ t, t ∈ l ↔ ∃ k, enters k t ∧ 0 ≤ k < zlen done) (λ _, False))|simpl|done].
  - split_and!; [done|constructor|]. intros t. simpl. rewrite elem_of_nil. split; [done|].
    intros (k & _ & ?). lia.
  - intros done i todo l s' Hl (-> & Hnd & Hin). apply range_split in Hl as [-> Hi].
    wp_steps. apply (wp_vget _ []); [apply (queue_index g nt); [done|unfold num_execution_nodes in *; lia]|].
    wp_steps. fold (queued s (zlen done)). rewrite length_app, Nat2Z.inj_add. simpl.
    split; [done|]. assert (∀ t, t ∈ uset_elements (queued s (zlen done)) ↔ enters (zlen done) t) as Hel.
    { intros t. by rewrite uset_elements_perm. }
    split.
    + apply NoDup_app. split_and!; [done| |by rewrite uset_elements_perm].
      intros t (k & Hk & ?)%Hin Ht%Hel. pose proof (enters_unique _ _ _ Hk Ht). lia.
    + intros t. rewrite elem_of_app, Hin, Hel. split.
      * intros [(k & ? & ?)|?]; [exists k|exists (zlen done)]; (split; [done|lia]).
      * intros (k & Hk & ?). destruct (decide (k = zlen done)) as [->|]; [by right|].
        left. exists k. split; [done|lia].
  - intros l s' (-> & Hnd & Hin). split_and!; [done..|]. intros t. rewrite Hin.
    unfold range. rewrite length_seqZ. unfold num_execution_nodes. rewrite Z.sub_0_r, Nat2Z.id. done.
Qed.

Definition arena_type (ty : TfLiteAllocationType) : Prop :=
  ty = kTfLiteArenaRw ∨ ty = kTfLiteArenaRwPersistent.

(** The tensors that get memory, when none has any yet. *)
Definition needs_memory (s : ArenaPlanner) (t : Z) : Prop :=
  (type_of s t = kTfLiteArenaRw ∧ 0 < bytes_of s t) ∨ type_of s t = kTfLiteArenaRwPersistent.

#[local] Instance needs_memory_dec s t : Decision (needs_memory s t).
Proof. unfold needs_memory. apply _. Defined.

Lemma needs_allocation_spec l s :
  length (tensors s) = nt → allocs_ s = replicate nt reset_alloc →
  (∀ t, t ∈ l → 0 ≤ t < Z.of_nat nt) →
  wp (fold_m l [] needs_allocation) (λ ta s', s' = s ∧ ta = filter (needs_memory s) l)
    (λ _, False) s.
Proof.
  intros Hlen Hallocs Hl.
  apply (wp_fold_m (λ done ta s', s' = s ∧ ta = filter (needs_memory s) done)); [done|].
  intros done t todo ta s' -> [-> ->]. assert (0 ≤ t < Z.of_nat nt) by (apply Hl; in_list).
  unfold needs_allocation. wp_steps. apply (wp_vget _ no_tensor); [lia|].
  rewrite filter_app, filter_cons, filter_nil.
  change (allocation_type (vat no_tensor (tensors s) t)) with (type_of s t).
  change (bytes (vat no_tensor (tensors s) t)) with (bytes_of s t).
  destruct (decide (type_of s t = kTfLiteArenaRw)) as [Ht|Ht].
  - wp_steps. apply (wp_vget _ reset_alloc); [rewrite Hallocs, length_replicate; lia|].
    rewrite Hallocs, vat_replicate. wp_steps. split; [done|].
    destruct (Z.ltb_spec 0 (bytes_of s t)).
    + by rewrite decide_True by by left.
    + rewrite decide_False; [by rewrite app_nil_r|]. intros [[_ ?]|?]; [lia|congruence].
  - destruct (decide (type_of s t = kTfLiteArenaRwPersistent)); wp_steps; split; try done.
    + by rewrite decide_True by by right.
    + rewrite decide_False; [by rewrite app_nil_r|]. by intros [[? _]|?].
Qed.

Lemma tensor_compare_strict_weak s : strict_weak (tensor_compare s).
Proof.
  split; unfold tensor_compare.
  - intros a b. destruct (through_whole_run s a), (through_whole_run s b); try done.
    + rewrite Z.ltb_lt, Z.ltb_ge. lia.
    + rewrite (Z.eqb_sym (tensor_bytes s b)). case_match; simpl;
        [rewrite !Z.gtb_ltb|]; rewrite ?Z.ltb_lt, ?Z.ltb_ge; lia.
  - intros a b c. destruct (through_whole_run s a), (through_whole_run s b),
      (through_whole_run s c); try done.
    + rewrite !Z.ltb_ge. lia.
    + repeat match goal with |- context [tensor_bytes s ?x =? tensor_bytes s ?y] =>
        destruct (Z.eqb_spec (tensor_bytes s x) (tensor_bytes s y)) end; simpl;
      rewrite ?Z.gtb_ltb, ?Z.ltb_ge; lia.
Qed.

(** ** Placing the tensors *)

(** Memory for the tensors [l] with padding. *)
Definition demand (s : ArenaPlanner) (l : list Z) : Z :=
  foldr (λ t acc, al - 1 + bytes_of s t + acc) 0 l.

Lemma demand_app s l k : demand s (l ++ k) = demand s l + demand s k.
Proof. induction l as [|t l IH]; simpl; lia. Qed.

Lemma demand_nonneg s l : 0 < al → (∀ t, 0 ≤ bytes_of s t) → 0 ≤ demand s l.
Proof. intros Hal Hb. induction l as [|t l IH]; simpl; [lia|]. specialize (Hb t). lia. Qed.

Lemma demand_subset s l k :
  0 < al → (∀ t, 0 ≤ bytes_of s t) → NoDup l → l ⊆ k → demand s l ≤ demand s k.
Proof.
  intros Hal Hb Hnd Hsub. apply (NoDup_submseteq _ _ Hnd) in Hsub as [rest Hrest]%submseteq_Permutation.
  assert (∀ l1 l2, l1 ≡ₚ l2 → demand s l1 = demand s l2) as Hperm.
  { induction 1; simpl; lia. }
  rewrite (Hperm _ _ Hrest), demand_app. pose proof (demand_nonneg s rest Hal Hb). lia.
Qed.

Lemma allocate_in_spec view update sz t f l Q s :
  arena_wf (view s) → 0 < al ≤ GetAlignment (underlying_buffer_ (view s)) →
  is_size (GetAlignment (underlying_buffer_ (view s))) → 0 ≤ sz →
  high_water_mark_ (view s) + (al - 1) + sz ≤ size_max → 0 ≤ t < zlen (allocs_ s) →
  (∀ ar a, arena_wf ar → allocated al (view s) ar a →
     high_water_mark_ (view s) ≤ high_water_mark_ ar ≤ high_water_mark_ (view s) + (al - 1) + sz →
     (size a, tensor a, first_node a, last_node a) = (sz, t, f, l) →
     Q () (update ar (set_allocs (zset t a (allocs_ s)) s))) →
  wp (allocate_in al view update sz t f l) Q (λ _, False) s.
Proof.
  intros Hwf Hal Hgal Hsz Hfit Ht HQ. unfold allocate_in. wp_steps.
  apply (wp_vget _ reset_alloc); [done|]. apply wp_zoom.
  destruct (Allocate_fits (view s) (alloc_of s t) al sz t f l)
    as (ar & a & Hrun & Hwf' & Hall & Hs & Hm & _ & _ & _ & Hta & Hf & Hla); [done..|].
  unfold alloc_of in Hrun. rewrite (vat_zget reset_alloc) by done. unfold wp. rewrite Hrun. simpl.
  apply HQ; [done..|congruence].
Qed.

Definition arena_for (s : ArenaPlanner) (ty : TfLiteAllocationType) : SimpleMemoryArena :=
  if decide (ty = kTfLiteArenaRwPersistent) then persistent_arena_ s else arena_ s.

(** [t] has memory in its arena, for its planned lifetime. *)
Record placed (s : ArenaPlanner) (t : Z) : Prop := {
  pd_size : size (alloc_of s t) = bytes_of s t;
  pd_positive : 0 < bytes_of s t;
  pd_tensor : tensor (alloc_of s t) = t;
  pd_type : arena_type (type_of s t);
  pd_first : first_node (alloc_of s t) = alloc s t;
  pd_last : last_node (alloc_of s t) =
    if decide (type_of s t = kTfLiteArenaRwPersistent) then int32_max else dealloc s t;
  pd_aligned : offset (alloc_of s t) mod al = 0;
  pd_active : alloc_of s t ∈ active_allocs_ (arena_for s (type_of s t))
}.

(** [s] is [s0] after the tensors [done] have been visited. *)
Record arenas_inv (s0 : ArenaPlanner) (done : list Z) (s : ArenaPlanner) : Prop := {
  ai_memory : memory s = memory s0;
  ai_tensors : tensors s = tensors s0;
  ai_alloc_node : alloc_node_ s = alloc_node_ s0;
  ai_dealloc_node : dealloc_node_ s = dealloc_node_ s0;
  ai_length : length (allocs_ s) = nt;
  ai_wf : arena_wf (arena_ s);
  ai_wf' : arena_wf (persistent_arena_ s);
  ai_buffer : underlying_buffer_ (arena_ s) = underlying_buffer_ (arena_ s0);
  ai_buffer' : underlying_buffer_ (persistent_arena_ s) = underlying_buffer_ (persistent_arena_ s0);
  ai_mark : high_water_mark_ (arena_ s) ≤ demand s0 done;
  ai_mark' : high_water_mark_ (persistent_arena_ s) ≤ demand s0 done;
  ai_reset t : t ∉ done → alloc_of s t = reset_alloc;
  ai_placed t : alloc_of s t = reset_alloc ∨ placed s t
}.

(** The arenas of [s0] accept the alignment; no tensor has a negative size. *)
Record arenas_ready (s0 : ArenaPlanner) : Prop := {
  ar_bytes t : 0 ≤ bytes_of s0 t;
  ar_align : 0 < al;
  ar_buffer : al ≤ GetAlignment (underlying_buffer_ (arena_ s0)) ≤ size_max;
  ar_buffer' : al ≤ GetAlignment (underlying_buffer_ (persistent_arena_ s0)) ≤ size_max
}.

Lemma arenas_inv_skip s0 done t s :
  arenas_ready s0 → arenas_inv s0 done s → arenas_inv s0 (done ++ [t]) s.
Proof.
  intros [] []. pose proof (ar_bytes0 t).
  split; try done; rewrite ?demand_app; simpl; try lia.
  intros t' Hn. apply ai_reset0. intros Hin. apply Hn. in_list.
Qed.

(** Storing a new allocation [a] for [t], in either arena. *)
Lemma placed_update s s' t a ar ar' :
  tensors s' = tensors s → alloc_node_ s' = alloc_node_ s → dealloc_node_ s' = dealloc_node_ s →
  0 ≤ t < zlen (allocs_ s) → allocs_ s' = zset t a (allocs_ s) →
  arena_type (type_of s t) → 0 < bytes_of s t →
  arena_for s (type_of s t) = ar → arena_for s' (type_of s t) = ar' →
  (∀ ty, arena_type ty → ty ≠ type_of s t → arena_for s' ty = arena_for s ty) →
  allocated al ar ar' a →
  (size a, tensor a, first_node a, last_node a) =
    (bytes_of s t, t, alloc s t,
     if decide (type_of s t = kTfLiteArenaRwPersistent) then int32_max else dealloc s t) →
  placed s' t ∧ (∀ t', t' ≠ t → alloc_of s' t' = alloc_of s t') ∧
  ∀ t', t' ≠ t → placed s t' → placed s' t'.
Proof.
  intros Hts Han Hdn Ht Hal Hty Hb Har Har' Hother [Hwf Halloc] Ha.
  assert (∀ t', type_of s' t' = type_of s t') as Hty' by (intros; unfold type_of; by rewrite Hts).
  assert (∀ t', bytes_of s' t' = bytes_of s t') as Hb' by (intros; unfold bytes_of; by rewrite Hts).
  assert (∀ t', alloc s' t' = alloc s t') as Han' by (intros; unfold alloc; by rewrite Han).
  assert (∀ t', dealloc s' t' = dealloc s t') as Hdn' by (intros; unfold dealloc; by rewrite Hdn).
  injection Ha as Hs1 Hs2 Hs3 Hs4. rewrite Hs1, (proj2 (Z.eqb_neq _ 0)) in Halloc by lia.
  destruct Halloc as (Hmod & _ & Hact & _).
  assert (alloc_of s' t = a) as Hat by (unfold alloc_of; rewrite Hal; by apply vat_zset_eq).
  assert (∀ t', t' ≠ t → alloc_of s' t' = alloc_of s t') as Hne.
  { intros t' ?. unfold alloc_of. rewrite Hal. apply vat_zset_ne; [lia|done]. }
  split_and!; [|done|].
  - split; rewrite ?Hat, ?Hb', ?Hty', ?Han', ?Hdn'; try done.
    rewrite Har', Hact, insert_upper_bound_perm. in_list.
  - intros t' Hne' []. split; rewrite ?Hne, ?Hb', ?Hty', ?Han', ?Hdn' by done; try done.
    destruct (decide (type_of s t' = type_of s t)) as [He|He]; [|by rewrite Hother].
    rewrite He in *. rewrite Har', Hact, insert_upper_bound_perm, <- Har. in_list.
Qed.

Lemma allocate_tensor_spec s0 done t s :
  arenas_ready s0 → sized g nt s → arenas_inv s0 done s → t ∉ done → 0 ≤ t < Z.of_nat nt →
  length (tensors s) = nt → needs_memory s t → demand s0 (done ++ [t]) ≤ size_max →
  wp (allocate_tensor al t)
    (λ _ s', arenas_inv s0 (done ++ [t]) s' ∧ sized g nt s' ∧
       actual_tensor_id_ s' = actual_tensor_id_ s ∧ (0 < bytes_of s t → placed s' t) ∧
       (∀ t', t' ≠ t → placed s t' → placed s' t')) (λ _, False) s.
Proof.
  intros Hready Hz Hinv Hnd Ht Hlen Hneed Hdem.
  assert (bytes_of s t = bytes_of s0 t) as Hbytes by (unfold bytes_of; by rewrite (ai_tensors _ _ _ Hinv)).
  pose proof Hready as [Hb Hal Hb1 Hb2]. specialize (Hb t). rewrite demand_app in Hdem. simpl in Hdem.
  pose proof (arenas_inv_skip _ _ t _ Hready Hinv) as Hskip. destruct Hz as [Hz1 Hz2 Hz3 Hz4].
  unfold allocate_tensor. wp_steps. apply (wp_vget _ no_tensor); [lia|].
  change (allocation_type (vat no_tensor (tensors s) t)) with (type_of s t).
  change (bytes (vat no_tensor (tensors s) t)) with (bytes_of s t).
  pose proof Hinv as [Hmem Hten Han Hdn Hla Hwf Hwf' Hbuf Hbuf' Hm Hm' Hreset Hpl].
  assert (∀ t', t' ∉ done ++ [t] → (t' ∉ done) ∧ t' ≠ t) as Hsnoc.
  { intros t' Hn. split; [intros ?|intros ->]; apply Hn; in_list. }
  destruct (decide (type_of s t = kTfLiteArenaRw)) as [Hrw|Hrw].
  - destruct Hneed as [[_ Hpos]|Hneed]; [|congruence]. wp_steps.
    apply (wp_vget _ kNodeNotAssigned); [lia|]. wp_steps.
    apply (wp_vget _ kNodeNotAssigned); [lia|]. fold (alloc s t) (dealloc s t).
    apply allocate_in_spec; try done; unfold is_size; rewrite ?Hbuf; try lia.
    intros ar a Hwar Hall Hmark Ha.
    destruct (placed_update s (set_arena ar (set_allocs (zset t a (allocs_ s)) s)) t a (arena_ s) ar)
      as (Hp & Hsame & Hkeep); try done; [lia|by left|by rewrite Hrw|by rewrite Hrw| |by rewrite Hrw|].
    { intros ty [->| ->]; [congruence|done]. }
    wp_steps. apply (wp_vget _ reset_alloc); [simpl; rewrite zset_length; lia|].
    rewrite Hrw. wp_steps. split_and!; [|split; simpl; rewrite ?zset_length; try done; lia|done|done|done].
    split; simpl; rewrite ?zset_length, ?demand_app; try done; simpl; try lia.
    + by destruct Hall as [_ Hall]; rewrite (proj2 (Z.eqb_neq _ 0)) in Hall by (injection Ha; lia);
        destruct Hall as (_ & _ & _ & _ & -> & _).
    + intros t' [Hd Hne]%Hsnoc. rewrite Hsame by done. by apply Hreset.
    + intros t'. destruct (decide (t' = t)) as [->|Hne]; [by right|].
      rewrite Hsame by done. destruct (Hpl t') as [?|?]; [by left|right; by apply Hkeep].
  - destruct Hneed as [[? _]|Hper]; [congruence|]. wp_steps.
    apply (wp_vget _ reset_alloc); [lia|]. fold (alloc_of s t). rewrite (Hreset t), Hper by done.
    simpl. destruct (Z.ltb_spec 0 (bytes_of s t)) as [Hpos|Hpos]; wp_steps.
    2:{ split_and!; try done. intros. lia. }
    apply (wp_vget _ kNodeNotAssigned); [lia|]. fold (alloc s t).
    apply allocate_in_spec; try done; unfold is_size; rewrite ?Hbuf'; try lia.
    intros ar a Hwar Hall Hmark Ha.
    destruct (placed_update s (set_persistent_arena ar (set_allocs (zset t a (allocs_ s)) s)) t a
      (persistent_arena_ s) ar)
      as (Hp & Hsame & Hkeep); try done; [lia|by right|by rewrite Hper|by rewrite Hper| |by rewrite Hper|].
    { intros ty [->| ->]; [done|congruence]. }
    split_and!; [|split; simpl; rewrite ?zset_length; try done; lia|done|done|done].
    split; simpl; rewrite ?zset_length, ?demand_app; try done; simpl; try lia.
    + by destruct Hall as [_ Hall]; rewrite (proj2 (Z.eqb_neq _ 0)) in Hall by (injection Ha; lia);
        destruct Hall as (_ & _ & _ & _ & -> & _).
    + intros t' [Hd Hne]%Hsnoc. rewrite Hsame by done. by apply Hreset.
    + intros t'. destruct (decide (t' = t)) as [->|Hne]; [by right|].
      rewrite Hsame by done. destruct (Hpl t') as [?|?]; [by left|right; by apply Hkeep].
Qed.

(** The loop of [CalculateAllocations] after the tensors [done]. *)
Record calculated (s0 : ArenaPlanner) (done : list Z) (s : ArenaPlanner) : Prop := {
  ca_arenas : arenas_inv s0 done s;
  ca_sized : sized g nt s;
  ca_actual o r : actual_tensor_id_ s !! o = Some r → actual_tensor_id_ s0 !! o = Some r;
  ca_shared o r : o ∈ done → actual_tensor_id_ s !! o = Some r →
    type_of s0 r = kTfLiteArenaRw ∧ bytes_of s0 r = bytes_of s0 o;
  ca_placed t : t ∈ done → actual_tensor_id_ s !! t = None → 0 < bytes_of s0 t → placed s t
}.

Lemma calculate_allocation_spec s0 done t s :
  arenas_ready s0 → owner_map nt (actual_tensor_id_ s0) → calculated s0 done s → t ∉ done →
  0 ≤ t < Z.of_nat nt → length (tensors s0) = nt → needs_memory s0 t →
  demand s0 (done ++ [t]) ≤ size_max →
  wp (calculate_allocation al t) (λ _, calculated s0 (done ++ [t])) (λ _, False) s.
Proof.
  intros Hready Hown [Hinv Hz Hact Hsh Hpl] Hnd Ht Hlen Hneed Hdem.
  pose proof (ai_tensors _ _ _ Hinv) as Hten.
  assert (∀ x, type_of s x = type_of s0 x) as Hty by (intros; unfold type_of; by rewrite Hten).
  assert (∀ x, bytes_of s x = bytes_of s0 x) as Hby by (intros; unfold bytes_of; by rewrite Hten).
  assert (∀ m s1, (∀ o r, m !! o = Some r → actual_tensor_id_ s !! o = Some r) → m !! t = None →
    (∀ o, o ≠ t → m !! o = actual_tensor_id_ s !! o) →
    arenas_inv s0 done s1 → sized g nt s1 → actual_tensor_id_ s1 = m → tensors s1 = tensors s →
    (∀ x, placed s x → placed s1 x) →
    wp (allocate_tensor al t) (λ _, calculated s0 (done ++ [t])) (λ _, False) s1) as Halloc.
  { intros m s1 Hsub Hnone Heq Hinv1 Hz1 Hm Hten1 Hpl1.
    assert (bytes_of s1 t = bytes_of s0 t) as Hb1 by (unfold bytes_of; by rewrite Hten1, Hten).
    eapply wp_mono; [apply (allocate_tensor_spec s0 done)| |done]; try done; [by rewrite Hten1, Hten| |].
    { unfold needs_memory, type_of, bytes_of. by rewrite Hten1, Hten. }
    intros _ s2 (Hinv2 & Hz2 & Hm2 & Hpt & Hkeep). rewrite Hm in Hm2.
    split; rewrite ?Hm2; try done.
    - intros o r Hr. by apply Hact, Hsub.
    - intros o r [Ho|Ho]%elem_of_app Hr; [by apply (Hsh o r); [|apply Hsub]|].
      apply list_elem_of_singleton in Ho. congruence.
    - intros x Hx Hnx Hpos. destruct (decide (x = t)) as [->|Hne]; [by apply Hpt; rewrite Hb1|].
      apply Hkeep, Hpl1, Hpl; [done| |by rewrite <- Heq|done].
      apply elem_of_app in Hx as [?|?%list_elem_of_singleton]; done. }
  unfold calculate_allocation. wp_steps. destruct (actual_tensor_id_ s !! t) as [root|] eqn:Hroot.
  - destruct (Hown _ _ (Hact _ _ Hroot)) as [_ Hr].
    wp_steps. apply (wp_vget _ no_tensor); [rewrite Hten; lia|].
    wp_steps. apply (wp_vget _ no_tensor); [rewrite Hten; lia|].
    change (allocation_type (vat no_tensor (tensors s) root)) with (type_of s root).
    change (bytes (vat no_tensor (tensors s) root)) with (bytes_of s root).
    change (bytes (vat no_tensor (tensors s) t)) with (bytes_of s t). rewrite Hty, !Hby.
    destruct (bool_decide _ || _) eqn:Hb; wp_steps.
    + eapply (Halloc (delete t (actual_tensor_id_ s))); try done.
      * intros o r. by rewrite lookup_delete_Some; intros [_ ?].
      * apply lookup_delete_eq.
      * intros o ?. by apply lookup_delete_ne.
      * by destruct Hinv; split; try done; intros x; destruct (ai_placed0 x) as [?|[]]; [left|right; split].
      * by destruct Hz.
      * by intros x []; split.
    + apply orb_false_iff in Hb as [Hb1 Hb2]. apply bool_decide_eq_false in Hb1.
      apply negb_false_iff, Z.eqb_eq in Hb2. apply dec_stable in Hb1.
      split; try done; [by apply arenas_inv_skip|..].
      * intros o r [Ho| ->%list_elem_of_singleton]%elem_of_app Hor; [by apply (Hsh o r)|].
        simplify_eq. done.
      * intros x [?| ->%list_elem_of_singleton]%elem_of_app Hx; [by apply Hpl|congruence].
  - by apply (Halloc (actual_tensor_id_ s)).
Qed.

Lemma calculated_last s0 done s v :
  calculated s0 done s → calculated s0 done (set_last_active_node v s).
Proof.
  intros [Hinv [] Hact Hsh Hpl]. split; try done.
  - by destruct Hinv; split; try done; intros x; destruct (ai_placed0 x) as [?|[]]; [left|right; split].
  - intros x ? ? ?. by destruct (Hpl x); [done..|]; split.
Qed.

(** The planner between planning and [CalculateAllocations]. *)
Record ready_to_calculate (s : ArenaPlanner) : Prop := {
  rc_ready : arenas_ready s;
  rc_sized : sized g nt s;
  rc_tensors : length (tensors s) = nt;
  rc_owners : owner_map nt (actual_tensor_id_ s);
  rc_allocs : allocs_ s = replicate nt reset_alloc;
  rc_arena : active_allocs_ (arena_ s) = [] ∧ high_water_mark_ (arena_ s) = 0;
  rc_arena' : active_allocs_ (persistent_arena_ s) = [] ∧ high_water_mark_ (persistent_arena_ s) = 0;
  rc_queued k t : t ∈ queued s k ↔ enters k t;
  rc_nodup k : NoDup (queued s k);
  rc_demand : demand s (range 0 (Z.of_nat nt)) ≤ size_max
}.

Lemma empty_arena_wf ar : active_allocs_ ar = [] → high_water_mark_ ar = 0 → arena_wf ar.
Proof. intros Ha Hm. split; [split|..]; rewrite ?Ha, ?Hm; try constructor; done. Qed.

Lemma arenas_inv_start s : ready_to_calculate s → arenas_inv s [] s.
Proof.
  intros [Hr Hz Ht Ho Hal [Ha Hm] [Ha' Hm'] Hq Hn Hd].
  split; simpl; try done; try lia; try by apply empty_arena_wf.
  - by rewrite Hal, length_replicate.
  - intros t _. unfold alloc_of. by rewrite Hal, vat_replicate.
  - intros t. left. unfold alloc_of. by rewrite Hal, vat_replicate.
Qed.

Lemma CalculateAllocations_spec s :
  ready_to_calculate s → last_active_node_ s = kLastActiveNodeUndefined →
  wp (CalculateAllocations al 0 (num_execution_nodes g - 1))
    (λ ta s', ∃ s1, calculated s1 ta s' ∧ arenas_ready s1 ∧ length (tensors s1) = nt ∧
       tensors s1 = tensors s ∧ memory s1 = memory s ∧ actual_tensor_id_ s1 = actual_tensor_id_ s ∧
       alloc_node_ s1 = alloc_node_ s ∧ dealloc_node_ s1 = dealloc_node_ s ∧
       underlying_buffer_ (arena_ s1) = underlying_buffer_ (arena_ s) ∧
       underlying_buffer_ (persistent_arena_ s1) = underlying_buffer_ (persistent_arena_ s) ∧
       demand s1 ta ≤ demand s (range 0 (Z.of_nat nt)) ∧
       ∀ t, t ∈ ta ↔ (∃ k, enters k t ∧ 0 ≤ k < num_execution_nodes g) ∧ needs_memory s t)
    (λ _, False) s.
Proof.
  intros Hrc Hl. pose proof Hrc as [Hr Hz Ht Ho Hal [Ha Hm] [Ha' Hm'] Hq Hnd Hd].
  pose proof Hr as [Hb Hal0 _ _]. unfold CalculateAllocations. wp_steps.
  eapply wp_mono; [by apply GetTensorsToAllocate_spec| |done]. intros l s' (-> & Hndl & Hin).
  assert (∀ t, t ∈ l → 0 ≤ t < Z.of_nat nt) as Hrange.
  { intros t (k & Hk & _)%Hin. by eapply enters_range. }
  wp_steps. eapply wp_mono; [by apply needs_allocation_spec| |done].
  intros ta s' [-> Hta]. simpl.
  assert (∀ t, t ∈ ta ↔ (∃ k, enters k t ∧ 0 ≤ k < num_execution_nodes g) ∧ needs_memory s t) as Hel.
  { intros t. rewrite Hta, list_elem_of_filter, Hin. tauto. }
  assert (NoDup ta) as Hndt by (rewrite Hta; by apply NoDup_filter).
  assert (∀ l', l' ≡ₚ ta → demand s l' ≤ demand s (range 0 (Z.of_nat nt))) as Hdem.
  { intros l' Hl'. apply demand_subset; [done|done|by rewrite Hl'|].
    intros t Ht'. rewrite Hl' in Ht'. apply elem_of_range, Hrange, Hin, Hel, Ht'. }
  clear Hta. destruct ta as [|t0 ta].
  { wp_steps. exists s. split_and!; try done; [|by apply (Hdem [])].
    apply calculated_last. split; try done; [by apply arenas_inv_start|..]; intros *; by rewrite elem_of_nil. }
  set (tas := t0 :: ta) in *. clearbody tas. wp_steps.
  rewrite Hl. unfold kLastActiveNodeUndefined, int32_max. simpl. unfold CreateTensorAllocationVector.
  wp_steps. set (s1 := set_last_active_node _ _).
  pose proof (std_sort_perm (tensor_compare s1) tas (tensor_compare_strict_weak s1)) as Hperm.
  set (sorted := std_sort _ _) in *. clearbody sorted.
  assert (ready_to_calculate s1) as Hrc1 by by (destruct Hr, Hz; split; try done; split).
  assert (∀ t, t ∈ sorted ↔ (∃ k, enters k t ∧ 0 ≤ k < num_execution_nodes g) ∧ needs_memory s t) as Hels.
  { intros t. by rewrite Hperm. }
  assert (NoDup sorted) as Hnds by by rewrite Hperm.
  eapply wp_mono; [apply (wp_for_each (calculated s1) (λ _, False))| |done].
  - split; try done; [by apply arenas_inv_start|by apply Hrc1|..]; intros *; by rewrite elem_of_nil.
  - intros done t todo s2 Hsplit Hs2. rewrite Hsplit in Hnds.
    apply NoDup_app in Hnds as (_ & Hdisj & _).
    assert (t ∈ sorted) as Hts by (rewrite Hsplit; in_list).
    apply calculate_allocation_spec; try done; [by apply Hrc1| | | |].
    + intros Hin'. by apply (Hdisj t Hin'); left.
    + apply Hrange, Hin, Hels, Hts.
    + by apply Hels.
    + assert (0 ≤ demand s1 todo) by by apply demand_nonneg.
      pose proof (Hdem sorted Hperm) as Hle. change (demand s sorted) with (demand s1 sorted) in Hle.
      rewrite Hsplit, cons_middle, app_assoc, demand_app in Hle. lia.
  - simpl. intros _ s2 Hs2. wp_steps. exists s1. split_and!; try done; [by apply calculated_last|by apply Hrc1|].
    by apply Hdem.
Qed.

(** ** Committing both arenas *)

(** The buffers of the arenas are good and are different blocks. *)
Record planner_memory_ok (s : ArenaPlanner) : Prop := {
  pm_arena : arena_memory_ok (memory s) (arena_ s);
  pm_persistent : arena_memory_ok (memory s) (persistent_arena_ s);
  pm_separate : pointer (buffer_ (underlying_buffer_ (arena_ s))) =
    pointer (buffer_ (underlying_buffer_ (persistent_arena_ s))) →
    pointer (buffer_ (underlying_buffer_ (arena_ s))) = 0
}.

(** Growing one buffer leaves another one alone. *)
Lemma resized_other h b sz h' b' b2 :
  resized h b sz h' b' → buffer_ok h b2 →
  (pointer (buffer_ b) = pointer (buffer_ b2) → pointer (buffer_ b) = 0) →
  buffer_ok h' b2 ∧ (pointer (buffer_ b') = pointer (buffer_ b2) → pointer (buffer_ b') = 0).
Proof.
  intros [_ _ _ _ _ Hfresh Hframe] [[Hn Hd]|(block & Hl & Hp & Hr)] Hsep.
  - split; [by left|]. by rewrite Hn.
  - assert (pointer (buffer_ b2) ≠ pointer (buffer_ b)) as Hn1.
    { intros Heq. rewrite <- Heq in Hsep. specialize (Hsep eq_refl). lia. }
    assert (pointer (buffer_ b2) ≠ pointer (buffer_ b')) as Hn2.
    { destruct Hfresh as [->|Hf]; [done|]. intros Heq. congruence. }
    split; [right; exists block; by rewrite Hframe|]. intros Heq. by destruct Hn2.
Qed.

(** Only memory and arenas change in a commit. *)
Record committed (s s' : ArenaPlanner) : Prop := {
  cm_memory : planner_memory_ok s';
  cm_tensors : tensors s' = tensors s;
  cm_allocs : allocs_ s' = allocs_ s;
  cm_alloc_node : alloc_node_ s' = alloc_node_ s;
  cm_dealloc_node : dealloc_node_ s' = dealloc_node_ s;
  cm_actual : actual_tensor_id_ s' = actual_tensor_id_ s;
  cm_arena ty : committed_ (arena_for s' ty) = true ∧
    active_allocs_ (arena_for s' ty) = active_allocs_ (arena_for s ty) ∧
    high_water_mark_ (arena_for s' ty) = high_water_mark_ (arena_for s ty) ∧
    alignment_ (underlying_buffer_ (arena_for s' ty)) = alignment_ (underlying_buffer_ (arena_for s ty)) ∧
    high_water_mark_ (arena_for s ty) ≤ GetSize (underlying_buffer_ (arena_for s' ty))
}.

(** One of the arenas needs a larger block, of at most [most] bytes, and cannot have
    it. *)
Definition memory_refused (s0 : ArenaPlanner) (most : Z) (s : ArenaPlanner) : Prop :=
  ∃ ty sz, let b := underlying_buffer_ (arena_for s0 ty) in
    GetSize b < sz ≤ most ∧ unobtainable (memory s) sz (alignment_ b).

Lemma PlannerCommit_spec s most :
  planner_memory_ok s → 0 ≤ high_water_mark_ (arena_ s) ≤ most →
  0 ≤ high_water_mark_ (persistent_arena_ s) ≤ most → most ≤ size_max →
  wp PlannerCommit (λ _, committed s) (memory_refused s most) s.
Proof.
  intros [Hm1 Hm2 Hsep] Hs1 Hs2 Hmost.
  assert (is_size (high_water_mark_ (arena_ s)) ∧ is_size (high_water_mark_ (persistent_arena_ s))) as [? ?]
    by (unfold is_size; lia). unfold PlannerCommit, with_arena, with_persistent_arena.
  wp_steps. apply wp_zoom. simpl.
  eapply wp_mono; [by apply Commit_spec|simpl|].
  2: { intros [h ar] ([= -> ->] & Hlt & Hun). exists kTfLiteArenaRw, (high_water_mark_ (arena_ s)). split; [split; [exact Hlt|lia]|exact Hun]. }
  intros moved [h ar] (Hmem & Hr & Hc & Hmark & Hact & _). simpl in *. wp_steps. apply wp_zoom. simpl.
  destruct (resized_other _ _ _ _ _ _ Hr (am_buffer _ _ Hm2) Hsep) as [Hb2 Hsep2].
  assert (arena_memory_ok h (persistent_arena_ s)) as Hm2'.
  { split; [apply Hmem|done|apply Hm2]. }
  eapply wp_mono; [by apply Commit_spec|simpl|].
  2: { intros [h' ar'] ([= -> ->] & Hlt & Hun). exists kTfLiteArenaRwPersistent, (high_water_mark_ (persistent_arena_ s)). split; [split; [exact Hlt|lia]|exact Hun]. }
  intros moved' [h' ar'] (Hmem' & Hr' & Hc' & Hmark' & Hact' & _). simpl in *. wp_steps.
  destruct (resized_other _ _ _ _ _ (underlying_buffer_ ar) Hr' (am_buffer _ _ Hmem)) as [Hb1 Hsep1].
  { intros Heq. rewrite Heq. by apply Hsep2. }
  split; simpl; try done.
  - split; simpl; [split; [apply Hmem'|done|apply Hmem]|done|].
    intros Heq. rewrite Heq. by apply Hsep1.
  - intros ty. unfold arena_for. simpl. unfold GetSize. case_decide; split_and!; try done.
    + apply (rs_alignment _ _ _ _ _ Hr').
    + rewrite (rs_size _ _ _ _ _ Hr'). lia.
    + apply (rs_alignment _ _ _ _ _ Hr).
    + rewrite (rs_size _ _ _ _ _ Hr). lia.
Qed.

(** ** Resolving addresses *)

Definition address (s : ArenaPlanner) (t : Z) : Z :=
  GetPtr (underlying_buffer_ (arena_for s (type_of s t))) + offset (alloc_of s t).

(** The tensor whose memory [t] uses. *)
Definition owner_of (s : ArenaPlanner) (t : Z) : Z :=
  let root := FindSharedTensor (actual_tensor_id_ s) t in
  if AreTensorsAllocatedInSameArena (vat no_tensor (tensors s) root) (vat no_tensor (tensors s) t)
  then root else t.

Record resolvable (s : ArenaPlanner) : Prop := {
  rv_tensors : length (tensors s) = nt;
  rv_allocs : length (allocs_ s) = nt;
  rv_owners : owner_map nt (actual_tensor_id_ s);
  rv_memory : planner_memory_ok s;
  rv_committed ty : committed_ (arena_for s ty) = true;
  rv_alloc t : alloc_of s t = reset_alloc ∨ placed s t;
  rv_fits t : placed s t → alloc_wf (alloc_of s t) ∧
    offset (alloc_of s t) + size (alloc_of s t) ≤
      GetSize (underlying_buffer_ (arena_for s (type_of s t)))
}.

(** [s'] is [s] up to the data pointers. *)
Record data_only (s s' : ArenaPlanner) : Prop := {
  do_state : s' = set_tensors (tensors s') s;
  do_length : length (tensors s') = length (tensors s);
  do_type t : type_of s' t = type_of s t;
  do_bytes t : bytes_of s' t = bytes_of s t
}.

Lemma write_data_spec s0 s t p Q E :
  data_only s0 s → 0 ≤ t < zlen (tensors s) →
  (∀ s', data_only s0 s' → data_of s' t = p → (∀ t', t' ≠ t → data_of s' t' = data_of s t') → Q () s') →
  wp (write_data t p) Q E s.
Proof.
  intros [Hs Hlen Hty Hby] Ht HQ. unfold write_data. wp_steps. apply (wp_vget _ no_tensor); [done|].
  apply wp_vset; [done|]. set (x := set_tensor_data p _).
  assert (∀ t', vat no_tensor (zset t x (tensors s)) t' =
    if decide (t' = t) then x else vat no_tensor (tensors s) t') as Hx.
  { intros t'. case_decide; [subst; by apply vat_zset_eq|apply vat_zset_ne; [lia|done]]. }
  apply HQ.
  - split; simpl.
    + by rewrite Hs.
    + by rewrite zset_length.
    + intros t'. rewrite <- Hty. unfold type_of. simpl. rewrite Hx. by case_decide; subst.
    + intros t'. rewrite <- Hby. unfold bytes_of. simpl. rewrite Hx. by case_decide; subst.
  - unfold data_of. simpl. by rewrite Hx, decide_True.
  - intros t' Hne. unfold data_of. simpl. by rewrite Hx, decide_False.
Qed.

Lemma wp_ignore_status {A} (m : M ArenaPlanner A) Q E s :
  wp m (λ _, Q ()) (Q ()) s → wp (ignore_status m) Q E s.
Proof. unfold wp, ignore_status. by destruct (m s). Qed.

(** [t] has the address of its owner. *)
Definition resolved (s0 : ArenaPlanner) (s : ArenaPlanner) (t : Z) : Prop :=
  placed s0 (owner_of s0 t) → data_of s t = address s0 (owner_of s0 t).

Lemma data_only_field {A} (f : ArenaPlanner → A) s0 s :
  data_only s0 s → (∀ ts, f (set_tensors ts s0) = f s0) → f s = f s0.
Proof. intros Hd Hf. by rewrite (do_state _ _ Hd), Hf. Qed.

Lemma resolve_in_spec view s0 s t Q :
  resolvable s0 → data_only s0 s → 0 ≤ t < Z.of_nat nt →
  view s0 = arena_for s0 (type_of s0 t) → (∀ ts, view (set_tensors ts s0) = view s0) →
  (∀ s', data_only s0 s' → (placed s0 t → data_of s' t = address s0 t) →
     (∀ t', t' ≠ t → data_of s' t' = data_of s t') → Q () s') →
  wp (resolve_in view t) Q (λ _, False) s.
Proof.
  intros Hr Hd Ht Hview Hts HQ. pose proof Hr as [Hl1 Hl2 _ [Hm1 Hm2 _] Hc Halloc Hfits].
  unfold resolve_in. wp_steps.
  assert (allocs_ s = allocs_ s0) as Hal by by apply (data_only_field allocs_).
  apply (wp_vget _ reset_alloc); [rewrite Hal; lia|]. rewrite Hal. fold (alloc_of s0 t).
  wp_steps. apply wp_zoom. rewrite (data_only_field view _ _ Hd Hts), Hview.
  set (ar := arena_for s0 (type_of s0 t)).
  assert (buffer_ok (memory s0) (underlying_buffer_ ar)) as Hb.
  { unfold ar, arena_for. case_decide; [apply Hm2|apply Hm1]. }
  assert (alloc_wf (alloc_of s0 t) ∧
    offset (alloc_of s0 t) + size (alloc_of s0 t) ≤ GetSize (underlying_buffer_ ar)) as [Hwf Hfit].
  { destruct (Halloc t) as [->|?]; [|by apply Hfits]. split; [done|]. simpl.
    unfold GetSize. destruct Hb as [[_ ->]|(?&?&?&?&?&?)]; lia. }
  eapply wp_mono; [eapply ResolveAlloc_spec; [exact Hb|apply Hc|done|done]|simpl|done].
  intros p ar' [-> ->]. eapply write_data_spec; [exact Hd|rewrite (do_length _ _ Hd); lia|].
  intros s' Hd' Hp Hne. apply HQ; [done| |done]. intros [Hsz Hpos _ _ _ _ _ _].
  rewrite Hp. case_match; [lia|done].
Qed.

Lemma resolve_own_spec s0 s t :
  resolvable s0 → data_only s0 s → 0 ≤ t < Z.of_nat nt → owner_of s0 t = t →
  wp (resolve_own t (vat no_tensor (tensors s) t))
    (λ _ s', data_only s0 s' ∧ resolved s0 s' t ∧ ∀ x, resolved s0 s x → resolved s0 s' x)
    (λ _, False) s.
Proof.
  intros Hr Hd Ht Ho. unfold resolve_own.
  change (allocation_type (vat no_tensor (tensors s) t)) with (type_of s t).
  rewrite (do_type _ _ Hd). pose proof Hr as [Hl1 Hl2 _ _ _ Halloc _].
  assert (allocs_ s = allocs_ s0) as Hal by by apply (data_only_field allocs_).
  assert (∀ s', data_only s0 s' → (placed s0 t → data_of s' t = address s0 t) →
    (∀ t', t' ≠ t → data_of s' t' = data_of s t') →
    data_only s0 s' ∧ resolved s0 s' t ∧ ∀ x, resolved s0 s x → resolved s0 s' x) as Hpost.
  { intros s' Hd' Hp Hne. assert (resolved s0 s' t) as Hres by (unfold resolved; by rewrite Ho).
    split_and!; [done..|]. intros x Hx. destruct (decide (x = t)) as [->|]; [done|].
    unfold resolved. rewrite Hne by done. apply Hx. }
  assert (¬ placed s0 t → data_only s0 s ∧ resolved s0 s t ∧
    ∀ x, resolved s0 s x → resolved s0 s x) as Hskip.
  { intros Hnp. split_and!; [done| |done]. unfold resolved. by rewrite Ho. }
  destruct (decide (type_of s0 t = kTfLiteArenaRw)) as [Hrw|Hrw].
  - wp_steps. apply (wp_vget _ reset_alloc); [rewrite Hal; lia|]. rewrite Hal. fold (alloc_of s0 t).
    destruct (Z.eqb_spec (size (alloc_of s0 t)) 0) as [Hz|Hz]; simpl.
    + wp_steps. apply Hskip. intros []. lia.
    + eapply (resolve_in_spec arena_ s0); try done. unfold arena_for. by rewrite Hrw.
  - destruct (decide (type_of s0 t = kTfLiteArenaRwPersistent)) as [Hp|Hp].
    + eapply (resolve_in_spec persistent_arena_ s0); try done. unfold arena_for. by rewrite Hp.
    + wp_steps. apply Hskip. intros [_ _ _ [?|?] _ _ _ _]; done.
Qed.

Lemma FindSharedTensor_owner m x : owner_map nt m → m !! FindSharedTensor m x = None.
Proof.
  intros Hm. unfold FindSharedTensor. destruct (m !! x) eqn:Hx; [by eapply Hm|done].
Qed.

Lemma owner_of_root s r : actual_tensor_id_ s !! r = None → owner_of s r = r.
Proof. intros Hr. unfold owner_of, FindSharedTensor. rewrite Hr. simpl. by case_match. Qed.

Lemma resolve_tensor_root s0 s r fuel :
  resolvable s0 → data_only s0 s → 0 ≤ r < Z.of_nat nt → actual_tensor_id_ s0 !! r = None →
  wp (resolve_tensor (S fuel) r)
    (λ _ s', data_only s0 s' ∧ resolved s0 s' r ∧ ∀ x, resolved s0 s x → resolved s0 s' x)
    (λ _, False) s.
Proof.
  intros Hr Hd Ht Hno. cbn [resolve_tensor]. wp_steps.
  rewrite (data_only_field actual_tensor_id_ _ _ Hd) by done. unfold FindSharedTensor. rewrite Hno.
  simpl. pose proof (rv_tensors _ Hr). pose proof (do_length _ _ Hd).
  apply (wp_vget _ no_tensor); [lia|]. wp_steps. apply (wp_vget _ no_tensor); [lia|].
  rewrite Z.eqb_refl. simpl. apply resolve_own_spec; try done. by apply owner_of_root.
Qed.

Lemma ResolveTensorAllocation_spec s0 s t :
  resolvable s0 → data_only s0 s → 0 ≤ t < Z.of_nat nt →
  wp (ResolveTensorAllocation t)
    (λ _ s', data_only s0 s' ∧ resolved s0 s' t ∧ ∀ x, resolved s0 s x → resolved s0 s' x)
    (λ _, False) s.
Proof.
  intros Hr Hd Ht. unfold ResolveTensorAllocation. apply wp_bind, wp_gets.
  pose proof (data_only_field actual_tensor_id_ _ _ Hd (λ _, eq_refl)) as Hm. rewrite Hm.
  destruct (actual_tensor_id_ s0 !! t) as [r|] eqn:Hroot; [|by apply resolve_tensor_root].
  pose proof (rv_tensors _ Hr) as Hlen. pose proof (do_length _ _ Hd) as Hlen'.
  destruct (rv_owners _ Hr _ _ Hroot) as [Hno Hrr].
  destruct (base.size (actual_tensor_id_ s0)) as [|fuel] eqn:Hsize.
  { apply map_size_empty_inv in Hsize. rewrite Hsize in Hroot. by rewrite lookup_empty in Hroot. }
  remember (S fuel) as fuel' eqn:Hf. cbn [resolve_tensor]. wp_steps. rewrite Hm.
  unfold FindSharedTensor. rewrite Hroot. simpl.
  apply (wp_vget _ no_tensor); [lia|]. wp_steps. apply (wp_vget _ no_tensor); [lia|].
  assert (r ≠ t) as Hne by congruence. rewrite (proj2 (Z.eqb_neq r t)) by done. simpl.
  assert (∀ a b, AreTensorsAllocatedInSameArena (vat no_tensor (tensors s) a) (vat no_tensor (tensors s) b) =
    AreTensorsAllocatedInSameArena (vat no_tensor (tensors s0) a) (vat no_tensor (tensors s0) b)) as Hsame.
  { intros a b. unfold AreTensorsAllocatedInSameArena.
    pose proof (do_type _ _ Hd a) as Ha. pose proof (do_type _ _ Hd b) as Hb.
    unfold type_of in Ha, Hb. by rewrite Ha, Hb. }
  rewrite Hsame. destruct (AreTensorsAllocatedInSameArena _ _) eqn:Harena.
  - assert (owner_of s0 t = r) as Ho.
    { unfold owner_of, FindSharedTensor. rewrite Hroot. simpl. by rewrite Harena. }
    wp_steps. subst fuel'. apply wp_ignore_status.
    eapply wp_mono; [apply (resolve_tensor_root s0 s r fuel Hr Hd Hrr Hno)|simpl|done].
    intros _ s1 (Hd1 & Hres & Hkeep). pose proof (do_length _ _ Hd1).
    wp_steps. apply (wp_vget _ no_tensor); [lia|].
    eapply write_data_spec; [exact Hd1|lia|]. intros s' Hd' Hp Hoth.
    assert (resolved s0 s' t) as Ht'.
    { unfold resolved. rewrite Ho. intros Hpl. rewrite Hp. fold (data_of s1 r).
      unfold resolved in Hres. rewrite owner_of_root in Hres by done. by apply Hres. }
    split_and!; [done..|]. intros x Hx. destruct (decide (x = t)) as [->|]; [done|].
    unfold resolved. rewrite Hoth by done. by apply Hkeep.
  - apply resolve_own_spec; try done. unfold owner_of, FindSharedTensor. rewrite Hroot. simpl.
    by rewrite Harena.
Qed.

Lemma resolve_all_spec s0 l :
  resolvable s0 → (∀ t, t ∈ l → 0 ≤ t < Z.of_nat nt) →
  wp (for_each l ResolveTensorAllocation)
    (λ _ s', data_only s0 s' ∧ ∀ t, t ∈ l → resolved s0 s' t) (λ _, False) s0.
Proof.
  intros Hr Hl. apply (wp_for_each (λ done s', data_only s0 s' ∧ ∀ t, t ∈ done → resolved s0 s' t)).
  { split; [split; try done; by destruct s0|]. intros t. by rewrite elem_of_nil. }
  intros done t todo s -> [Hd Hdone].
  eapply wp_mono; [apply ResolveTensorAllocation_spec; [done..|apply Hl; in_list]|simpl|done].
  intros _ s' (Hd' & Ht & Hkeep). split; [done|].
  intros x [?| ->%list_elem_of_singleton]%elem_of_app; auto.
Qed.

(** ** [ExecuteAllocations] on a fresh plan *)

(** A tensor that gets memory. *)
Definition wanted (s : ArenaPlanner) (t : Z) : Prop :=
  (∃ k, enters k t ∧ 0 ≤ k < num_execution_nodes g) ∧ needs_memory s t.

Record executed (s0 s : ArenaPlanner) : Prop := {
  ex_type t : type_of s t = type_of s0 t;
  ex_bytes t : bytes_of s t = bytes_of s0 t;
  ex_memory : planner_memory_ok s;
  ex_actual o r : actual_tensor_id_ s !! o = Some r → actual_tensor_id_ s0 !! o = Some r;
  ex_shared o r : wanted s0 o → actual_tensor_id_ s !! o = Some r →
    type_of s0 r = kTfLiteArenaRw ∧ bytes_of s0 r = bytes_of s0 o;
  ex_placed t : wanted s0 t → actual_tensor_id_ s !! t = None → 0 < bytes_of s0 t → placed s t;
  ex_wf ty : arena_wf (arena_for s ty);
  ex_fits ty : high_water_mark_ (arena_for s ty) ≤ GetSize (underlying_buffer_ (arena_for s ty));
  ex_alignment ty : alignment_ (underlying_buffer_ (arena_for s ty)) =
    alignment_ (underlying_buffer_ (arena_for s0 ty));
  ex_resolved t : wanted s0 t → placed s (owner_of s t) → data_of s t = address s (owner_of s t);
  ex_temp k t : temp_of g k t → alloc s t = k ∧ k ≤ dealloc s t;
  ex_other t : (∀ k, ¬ temp_of g k t) → alloc s t = alloc s0 t ∧ dealloc s t = dealloc s0 t
}.

Lemma placed_transport s s' t :
  (∀ x, type_of s' x = type_of s x) → (∀ x, bytes_of s' x = bytes_of s x) →
  allocs_ s' = allocs_ s → alloc_node_ s' = alloc_node_ s → dealloc_node_ s' = dealloc_node_ s →
  (∀ ty, active_allocs_ (arena_for s' ty) = active_allocs_ (arena_for s ty)) →
  placed s t → placed s' t.
Proof.
  intros Hty Hby Hal Han Hdn Har []. unfold alloc_of, alloc, dealloc in *.
  split; unfold alloc_of, alloc, dealloc; rewrite ?Hty, ?Hby, ?Hal, ?Han, ?Hdn, ?Har; done.
Qed.

(** From the commit on: the tensors can be resolved. *)
Lemma committed_resolvable s1 ta s2 s3 :
  calculated s1 ta s2 → committed s2 s3 → length (tensors s1) = nt →
  owner_map nt (actual_tensor_id_ s1) →
  (∀ x, type_of s3 x = type_of s1 x) ∧ (∀ x, bytes_of s3 x = bytes_of s1 x) ∧
  (∀ x, placed s2 x → placed s3 x) ∧ (∀ ty, arena_wf (arena_for s3 ty)) ∧ resolvable s3.
Proof.
  intros [Hai Hz Hact Hsh Hpl] [Hmem Ht3 Ha3 Han3 Hdn3 Hm3 Harena] Hlen Hown.
  assert (∀ x, type_of s3 x = type_of s1 x) as Hty3.
  { intros x. unfold type_of. by rewrite Ht3, (ai_tensors _ _ _ Hai). }
  assert (∀ x, bytes_of s3 x = bytes_of s1 x) as Hby3.
  { intros x. unfold bytes_of. by rewrite Ht3, (ai_tensors _ _ _ Hai). }
  assert (∀ x, placed s2 x → placed s3 x) as Hpl3.
  { intros x. apply placed_transport; try done; intros y; rewrite ?Hty3, ?Hby3; [..|apply Harena];
      unfold type_of, bytes_of; by rewrite (ai_tensors _ _ _ Hai). }
  assert (∀ ty, arena_wf (arena_for s3 ty)) as Hwf3.
  { intros ty. destruct (Harena ty) as (_ & Hac & Hmk & _).
    assert (arena_wf (arena_for s2 ty)) as [[W1 W2 W3] W4 W5] by (unfold arena_for; case_decide; apply Hai).
    split; [split|..]; by rewrite ?Hac, ?Hmk. }
  split_and!; try done. split; try done.
  - by rewrite Ht3, (ai_tensors _ _ _ Hai).
  - by rewrite Ha3, (ai_length _ _ _ Hai).
  - rewrite Hm3. intros o r Hr. destruct (Hown _ _ (Hact _ _ Hr)) as [Hno ?]. split; [|done].
    destruct (actual_tensor_id_ s2 !! r) eqn:He; [|done]. apply Hact in He. congruence.
  - intros ty. apply Harena.
  - intros t. unfold alloc_of at 1. rewrite Ha3. destruct (ai_placed _ _ _ Hai t); [by left|right; auto].
  - intros t Hp. pose proof (pd_active _ _ Hp) as Hin. destruct (Hwf3 (type_of s3 t)) as [[_ W2 _] W4 _].
    rewrite Forall_forall in W2, W4. specialize (W2 _ Hin). specialize (W4 _ Hin). simpl in W4.
    destruct (Harena (type_of s3 t)) as (_ & _ & Hmk & _ & Hfit). split; [done|lia].
Qed.

(** Resolving changes no owner and no place. *)
Lemma resolved_places s3 s : data_only s3 s →
  (∀ x, placed s3 x ↔ placed s x) ∧ (∀ t, owner_of s t = owner_of s3 t) ∧
  (∀ ty, arena_for s ty = arena_for s3 ty).
Proof.
  intros Hd. pose proof (do_type _ _ Hd) as Hty. pose proof (do_bytes _ _ Hd) as Hby.
  assert (∀ ty, arena_for s ty = arena_for s3 ty) as Harf.
  { intros ty. by apply (data_only_field (λ s, arena_for s ty)). }
  assert (allocs_ s = allocs_ s3 ∧ alloc_node_ s = alloc_node_ s3 ∧ dealloc_node_ s = dealloc_node_ s3 ∧
    actual_tensor_id_ s = actual_tensor_id_ s3) as (E1 & E2 & E3 & E4).
  { split_and!; by apply (data_only_field _ _ _ Hd). }
  split_and!; [| |done].
  - intros x. split; apply placed_transport; intros; rewrite ?Hty, ?Hby, ?Harf; done.
  - intros t. unfold owner_of. rewrite E4. unfold AreTensorsAllocatedInSameArena.
    pose proof (Hty (FindSharedTensor (actual_tensor_id_ s3) t)) as T1. pose proof (Hty t) as T2.
    unfold type_of in T1, T2. by rewrite T1, T2.
Qed.

(** From the commit on: addresses are resolved. *)
Lemma executed_end s0 s1 ta s2 s3 l :
  arenas_ready s1 → calculated s1 ta s2 → committed s2 s3 → length (tensors s1) = nt →
  demand s1 ta ≤ size_max → tensors s1 = tensors s0 →
  owner_map nt (actual_tensor_id_ s1) → (∀ o r, actual_tensor_id_ s1 !! o = Some r → actual_tensor_id_ s0 !! o = Some r) →
  underlying_buffer_ (arena_ s1) = underlying_buffer_ (arena_ s0) →
  underlying_buffer_ (persistent_arena_ s1) = underlying_buffer_ (persistent_arena_ s0) →
  (∀ k t, temp_of g k t → alloc s1 t = k ∧ k ≤ dealloc s1 t) →
  (∀ t, (∀ k, ¬ temp_of g k t) → alloc s1 t = alloc s0 t ∧ dealloc s1 t = dealloc s0 t) →
  (∀ t, t ∈ ta ↔ wanted s0 t) → (∀ t, t ∈ ta → t ∈ l) → (∀ t, t ∈ l → 0 ≤ t < Z.of_nat nt) →
  wp (for_each l ResolveTensorAllocation) (λ _, executed s0) (λ _, False) s3.
Proof.
  intros Hready Hca Hcm Hlen Hdem Hten Hown Hsub Hbuf1 Hbuf2 Htemp Hother Hta Hl Hrange.
  destruct (committed_resolvable _ _ _ _ Hca Hcm Hlen Hown) as (Hty3 & Hby3 & Hpl3 & Hwf3 & Hres).
  pose proof Hca as [Hai Hz Hact Hsh Hpl]. pose proof Hcm as [Hmem Ht3 Ha3 Han3 Hdn3 Hm3 Harena].
  eapply wp_mono; [by apply resolve_all_spec| |done]. simpl. intros _ s [Hd Hresolved].
  destruct (resolved_places _ _ Hd) as (Hpls & Hos & Harf).
  assert (allocs_ s = allocs_ s3 ∧ alloc_node_ s = alloc_node_ s1 ∧ dealloc_node_ s = dealloc_node_ s1 ∧
    actual_tensor_id_ s = actual_tensor_id_ s3 ∧ memory s = memory s3 ∧ arena_ s = arena_ s3 ∧
    persistent_arena_ s = persistent_arena_ s3) as (E1 & E8 & E9 & E4 & E5 & E6 & E7).
  { split_and!; rewrite <- ?(ai_alloc_node _ _ _ Hai), <- ?(ai_dealloc_node _ _ _ Hai), <- ?Han3, <- ?Hdn3;
      by apply (data_only_field _ _ _ Hd). }
  pose proof (do_type _ _ Hd) as Hty. pose proof (do_bytes _ _ Hd) as Hby.
  assert (∀ x, type_of s0 x = type_of s1 x) as Hty0 by (intros x; unfold type_of; by rewrite Hten).
  assert (∀ x, bytes_of s0 x = bytes_of s1 x) as Hby0 by (intros x; unfold bytes_of; by rewrite Hten).
  split.
  - intros t. by rewrite Hty, Hty3, Hty0.
  - intros t. by rewrite Hby, Hby3, Hby0.
  - destruct Hmem as [M1 M2 M3]. split; rewrite ?E5, ?E6, ?E7; done.
  - intros o r. rewrite E4, Hm3. intros ?%Hact. auto.
  - intros o r Ho. rewrite E4, Hm3, Hty0, !Hby0. apply Hsh. by apply Hta.
  - intros t Ht. rewrite E4, Hm3, Hby0. intros Hno Hpos. apply Hpls, Hpl3, Hpl; [by apply Hta|done..].
  - intros ty. by rewrite Harf.
  - intros ty. rewrite Harf. destruct (Harena ty) as (_ & _ & -> & _ & Hfit). done.
  - intros ty. rewrite Harf. destruct (Harena ty) as (_ & _ & _ & -> & _). unfold arena_for.
    case_decide; [rewrite (ai_buffer' _ _ _ Hai)|rewrite (ai_buffer _ _ _ Hai)]; congruence.
  - intros t Ht. rewrite Hos, <- Hpls. intros Hp. rewrite (Hresolved t (Hl _ (proj2 (Hta t) Ht)) Hp).
    unfold address, alloc_of. by rewrite Hty, Harf, E1.
  - intros k t Ht. unfold alloc, dealloc. rewrite E8, E9. by apply Htemp.
  - intros t Ht. unfold alloc, dealloc. rewrite E8, E9. by apply Hother.
Qed.

(** With the temporaries planned, the sizes can be calculated. *)
Lemma temporaries_ready s1 s0 sA :
  planned g nt preserve s1 s0 → length (tensors s0) = nt → arenas_ready s0 →
  demand s0 (range 0 (Z.of_nat nt)) ≤ size_max → with_temporaries s0 (temp_of g) sA → ready_to_calculate sA.
Proof.
  intros Hp Hlen [R1 R2 R3 R4] Hdem [Hf Hact Hz Ht Ho Hq Hn]. pose proof Hf as [F1 F2 F3 F4 F5 F6 F7].
  assert (∀ t, bytes_of sA t = bytes_of s0 t) as HbyA by (intros; unfold bytes_of; by rewrite F2).
  assert (∀ l, demand sA l = demand s0 l) as HdA.
  { induction l as [|t l IH]; simpl; [done|]. by rewrite HbyA, IH. }
  split; try done.
  - split; [intros t; by rewrite HbyA|done|by rewrite F4|by rewrite F6].
  - by rewrite F2.
  - rewrite Hact. eapply sharing_owner_map; [exact Hg|apply Hp].
  - by rewrite F3, (pl_allocs _ _ _ _ _ Hp).
  - rewrite F4, (pl_arena _ _ _ _ _ Hp). done.
  - rewrite F6, (pl_persistent _ _ _ _ _ Hp). done.
  - intros k t. rewrite Hq, (pl_queued _ _ _ _ _ Hp). unfold enters, born_at. tauto.
  - by rewrite HdA.
Qed.

Lemma planner_memory_same s s' : planner_memory_ok s → memory s' = memory s →
  underlying_buffer_ (arena_ s') = underlying_buffer_ (arena_ s) →
  underlying_buffer_ (persistent_arena_ s') = underlying_buffer_ (persistent_arena_ s) → planner_memory_ok s'.
Proof.
  intros [[M1 M2 M3] [M4 M5 M6] M7] Em E1 E2. split; [split|split|]; rewrite ?Em, ?E1, ?E2; done.
Qed.

Lemma ExecuteAllocations_spec s1 s0 :
  planned g nt preserve s1 s0 → length (tensors s0) = nt → planner_memory_ok s0 →
  arenas_ready s0 → demand s0 (range 0 (Z.of_nat nt)) ≤ size_max →
  wp (ExecuteAllocations g preserve al 0 (num_execution_nodes g - 1))
    (λ _, executed s0) (memory_refused s0 (demand s0 (range 0 (Z.of_nat nt)))) s0.
Proof.
  intros Hp Hlen Hmem Hready Hdem. pose proof (vg_size _ _ Hg) as Hsize.
  pose proof (sz_alloc _ _ _ (pl_sized _ _ _ _ _ Hp)) as L1.
  pose proof (sz_dealloc _ _ _ (pl_sized _ _ _ _ _ Hp)) as L2.
  assert (length (allocs_ s0) = nt) as L3 by by rewrite (pl_allocs _ _ _ _ _ Hp), length_replicate.
  unfold ExecuteAllocations. wp_steps. rewrite L3, Hlen, Z.leb_refl. wp_steps.
  set (s0' := set_allocs _ _).
  assert (s0' = s0) as Heq.
  { unfold s0'. simpl. rewrite !resize_list_same by done. by destruct s0. }
  rewrite Heq. clearbody s0'. clear s0' Heq.
  assert (range (u64 0) (Z.min (u64 (num_execution_nodes g - 1) + 1) (num_execution_nodes g)) =
          range 0 (num_execution_nodes g)) as ->.
  { unfold u64. rewrite Z.mod_0_l by lia. f_equal. unfold num_execution_nodes in *.
    destruct (nodes g) as [|n ns]; [done|]. rewrite Z.mod_small; [lia|].
    unfold int32_max in Hsize. simpl length in *. lia. }
  eapply wp_mono; [by eapply plan_temporaries_spec| |done]. simpl. intros _ sA HA. wp_steps.
  pose proof (temporaries_ready _ _ _ Hp Hlen Hready Hdem HA) as Hrc.
  pose proof HA as [[F1 F2 F3 F4 F5 F6 F7] Hact Hz Ht Ho Hq Hn].
  eapply wp_mono; [by apply CalculateAllocations_spec; [|rewrite F7; apply (pl_last _ _ _ _ _ Hp)]| |done].
  intros ta sB (sS & Hca & HrS & HlS & HtS & HmS & HacS & HanS & HdnS & Hb1S & Hb2S & HdS & Hta).
  wp_steps. pose proof (ca_arenas _ _ _ Hca) as Hai.
  assert (planner_memory_ok sB) as HmemB.
  { apply (planner_memory_same s0); [done|rewrite (ai_memory _ _ _ Hai)|rewrite (ai_buffer _ _ _ Hai)|
      rewrite (ai_buffer' _ _ _ Hai)]; congruence. }
  pose proof (as_mark _ (aw_sorted _ (ai_wf _ _ _ Hai))) as Hmk1.
  pose proof (as_mark _ (aw_sorted _ (ai_wf' _ _ _ Hai))) as Hmk2. unfold is_size in Hmk1, Hmk2.
  assert (demand sS ta ≤ demand s0 (range 0 (Z.of_nat nt))) as HdS0.
  { etrans; [exact HdS|]. clear -F2. induction (range _ _) as [|t l IH]; simpl; [done|]. unfold bytes_of in *. rewrite F2. lia. }
  pose proof (ai_mark _ _ _ Hai) as Hle1. pose proof (ai_mark' _ _ _ Hai) as Hle2.
  eapply wp_mono; [apply (PlannerCommit_spec sB (demand s0 (range 0 (Z.of_nat nt)))); [done|lia..]| |]; simpl.
  2: { intros s (ty & sz & Hsz & Hun). exists ty, sz.
       assert (underlying_buffer_ (arena_for sB ty) = underlying_buffer_ (arena_for s0 ty)) as Heb.
       { unfold arena_for. case_decide; [rewrite (ai_buffer' _ _ _ Hai)|rewrite (ai_buffer _ _ _ Hai)]; congruence. }
       by rewrite Heb in Hsz, Hun. }
  intros moved sC Hcm. assert (demand sS ta ≤ size_max) by lia.
  assert (∀ t, t ∈ ta ↔ wanted s0 t) as Hta'.
  { intros t. rewrite Hta. unfold wanted, needs_memory, type_of, bytes_of. by rewrite F2. }
  assert (∀ t, t ∈ ta → 0 ≤ t < Z.of_nat nt) as Hrange.
  { intros t [(k & Hk & _) _]%Hta. by eapply enters_range. }
  assert (∀ l, (∀ t, t ∈ ta → t ∈ l) → (∀ t, t ∈ l → 0 ≤ t < Z.of_nat nt) →
    wp (for_each l ResolveTensorAllocation) (λ _, executed s0) (λ _, False) sC) as Hend.
  { intros l H1l H2l. eapply (executed_end s0 sS ta sB sC l); try done; try congruence.
    - rewrite HacS. apply Hrc.
    - intros k t. unfold alloc, dealloc. rewrite HanS, HdnS. apply Ht.
    - intros t. unfold alloc at 1, dealloc at 1. rewrite HanS, HdnS. apply Ho. }
  destruct moved; [|by eapply wp_mono; [by apply Hend|..]].
  eapply wp_mono; [apply Hend|done|done]; intros t; rewrite elem_of_range; [apply Hrange|done].
Qed.

(** ** Live tensors *)

(** The value of [t] is in use at node [i]. *)
Definition live_at (t i : Z) : Prop :=
  ∃ p u, enters p t ∧ (needed_at g t u ∨ temp_of g u t) ∧ p ≤ i ≤ u.

(** A planner whose graph can be run: the arenas have room for all tensors,
    arena tensors that a node reads have a producer, and the first output of a
    node, which may share an input's memory, is not persistent. *)
Record runnable (s : ArenaPlanner) : Prop := {
  rn_tensors : length (tensors s) = nt;
  rn_memory : planner_memory_ok s;
  rn_arenas : arenas_ready s;
  rn_demand : demand s (range 0 (Z.of_nat nt)) ≤ size_max;
  rn_inputs k t : in_of g k t → type_of s t = kTfLiteArenaRw → ∃ p, born_at g t p;
  rn_outputs k node o : zget (nodes g) k = Some node → head (outputs node) = Some o →
    type_of s o ≠ kTfLiteArenaRwPersistent
}.

Lemma live_range t i : live_at t i → 0 ≤ i < num_execution_nodes g.
Proof.
  intros (p & u & Hp & Hu & Hi). assert (0 ≤ p) as Hp0.
  { destruct Hp as [[[-> _]|Ho]|Ht]; [done|..]; apply (node_index_range g p t); auto. }
  assert (u < num_execution_nodes g); [|lia].
  destruct Hu as [[Hu|[Hu|[_ Hu]]]|Hu]; [..|done|]; apply (node_index_range g u t); auto.
Qed.

(** What holds of the memory that [t] uses. *)
Definition owned (s : ArenaPlanner) (t i : Z) (o : Z) : Prop :=
  placed s o ∧ type_of s o = type_of s t ∧ bytes_of s o = bytes_of s t ∧
  alloc s o ≤ i ∧ (type_of s o ≠ kTfLiteArenaRwPersistent → i ≤ dealloc s o).

Lemma live_wanted s0 t i : live_at t i → arena_type (type_of s0 t) → 0 < bytes_of s0 t → wanted s0 t.
Proof.
  intros Hlive Hty Hpos. pose proof (live_range _ _ Hlive) as Hi.
  destruct Hlive as (p & u & He & _ & Hi'). split; [|destruct Hty; [by left|by right]].
  exists p. split; [done|]. destruct He as [[[-> _]|Ho]|Ht]; [lia|..];
    apply (node_index_range g p t); auto.
Qed.

(** A tensor that shares the memory of an input. *)
Lemma shared_owned s1 s0 s t i r :
  planned g nt preserve s1 s0 → runnable s0 → executed s0 s → arena_type (type_of s0 t) →
  0 < bytes_of s0 t → live_at t i → actual_tensor_id_ s !! t = Some r → owner_of s t = r ∧ owned s t i r.
Proof.
  intros Hp Hrun Hex Hty Hpos Hlive Hr. pose proof (live_wanted _ _ _ Hlive Hty Hpos) as Hw.
  pose proof (vg_size _ _ Hg) as Hsize. pose proof (pl_sharing _ _ _ _ _ Hp) as Hsh.
  pose proof (ex_actual _ _ Hex _ _ Hr) as Hr0. destruct (ex_shared _ _ Hex _ _ Hw Hr) as [Htr Hbr].
  destruct (key_output g nt Hg _ _ _ _ Hsh Hr0) as (k & Hout & _ & _ & (k' & Hin & _) & node & Hk & Hhd).
  pose proof (rn_outputs _ Hrun _ _ _ Hk Hhd) as Hnp. destruct Hty as [Hty|?]; [|done].
  destruct (rn_inputs _ Hrun _ _ Hin Htr) as [p' Hborn]. split.
  { unfold owner_of, FindSharedTensor. rewrite Hr. simpl. unfold AreTensorsAllocatedInSameArena.
    pose proof (ex_type _ _ Hex r) as E1. pose proof (ex_type _ _ Hex t) as E2.
    unfold type_of in *. by rewrite !bool_decide_eq_true_2 by congruence. }
  pose proof (live_range _ _ Hlive) as Hi. assert (wanted s0 r) as Hwr.
  { split; [exists p'; split; [by left|]|left; split; [done|lia]].
    destruct Hborn as [[-> _]|Ho]; [lia|apply (node_index_range g p' r); auto]. }
  assert (actual_tensor_id_ s !! r = None) as Hno.
  { destruct (actual_tensor_id_ s !! r) eqn:He; [|done]. apply (ex_actual _ _ Hex) in He.
    by rewrite (sh_owner _ _ _ _ Hsh _ _ Hr0) in He. }
  assert (∀ x, in_of g k' x ∨ out_of g k x → ∀ j, ¬ temp_of g j x) as Hnt.
  { intros x Hx j Hj. destruct (vg_temp_private _ _ Hg j k x Hj) as (? & _ & _).
    destruct (vg_temp_private _ _ Hg j k' x Hj) as (_ & ? & _). naive_solver. }
  unfold owned. destruct (ex_other _ _ Hex r) as [-> ->]; [by apply Hnt; left|].
  destruct Hlive as (p & u & [Hb|Ht] & [Hn|Hn] & Hiu);
    try by (exfalso; eapply (Hnt t); [by right|done]).
  pose proof (lifetime_covered g nt Hg _ _ _ _ _ _ i Hp Hb Hn Hiu) as Hcov.
  unfold FindSharedTensor in Hcov. rewrite Hr0 in Hcov. simpl in Hcov.
  destruct Hcov as [Hc1 Hc2]; [eauto|].
  rewrite !(ex_type _ _ Hex), !(ex_bytes _ _ Hex). split_and!; try done; [|congruence].
  apply (ex_placed _ _ Hex); [done..|lia].
Qed.

(** A temporary is live at its own node only. *)
Lemma temp_live s0 s t i k : executed s0 s → live_at t i → temp_of g k t →
  alloc s t = k ∧ k ≤ dealloc s t ∧ i = k.
Proof.
  intros Hex (p & u & He & Hu & Hiu) Hk. destruct (ex_temp _ _ Hex _ _ Hk) as [-> Hd].
  assert (p = k) by (apply (enters_unique p k t); [done|by right]).
  assert (u = k).
  { destruct Hu as [Hu|Hu]; [|by apply (vg_temp_owner _ _ Hg u k t)].
    destruct (vg_temp_private _ _ Hg k u t Hk) as (? & ? & ?). by destruct Hu as [?|[?|[? _]]]. }
  split_and!; done || lia.
Qed.

(** A tensor with memory of its own. *)
Lemma self_owned s1 s0 s t i :
  planned g nt preserve s1 s0 → executed s0 s → arena_type (type_of s0 t) →
  0 < bytes_of s0 t → live_at t i → actual_tensor_id_ s !! t = None → owned s t i t.
Proof.
  intros Hp Hex Hty Hpos Hlive Hr. pose proof (live_wanted _ _ _ Hlive Hty Hpos) as Hw.
  pose proof (vg_size _ _ Hg) as Hsize.
  assert (placed s t) as Hpl by by apply (ex_placed _ _ Hex).
  pose proof (λ k, temp_live _ _ _ _ k Hex Hlive) as Htemp. pose proof Hlive as (p & u & He & Hu & Hiu).
  assert ((∃ k, temp_of g k t) ∨ (born_at g t p ∧ needed_at g t u ∧ ∀ k, ¬ temp_of g k t)) as Hcase.
  { destruct He as [Hb|Hk]; [|eauto]. destruct Hu as [Hn|Hk]; [|eauto]. right. split_and!; [done..|]. intros k Hk.
    destruct (vg_temp_private _ _ Hg k p t Hk) as (? & _ & Hkept).
    destruct Hb as [[_ Hs]|?]; [apply Hkept; unfold kept; in_list|done]. }
  unfold owned. destruct Hcase as [[k Hk]|(Hb & Hn & Hnt)].
  { destruct (Htemp k Hk) as (-> & Hd & ->). by split_and!. }
  destruct (ex_other _ _ Hex t Hnt) as [-> ->]. split_and!; try done.
  - rewrite (planned_alloc g nt _ _ _ _ _ Hp Hb). lia.
  - intros _. destruct (actual_tensor_id_ s0 !! t) as [r|] eqn:Hr0.
    + destruct (decide (dealloc s0 t = kNodeNotAssigned)) as [->|Hd].
      * pose proof (live_range _ _ Hlive). unfold kNodeNotAssigned. lia.
      * destruct (pl_dealloc _ _ _ _ _ Hp t Hd) as (_ & _ & Hno & _). congruence.
    + pose proof (lifetime_covered g nt Hg _ _ _ _ _ _ i Hp Hb Hn Hiu) as Hcov.
      unfold FindSharedTensor in Hcov. rewrite Hr0 in Hcov. simpl in Hcov. apply Hcov. eauto.
Qed.

Lemma owner_facts s1 s0 s t i :
  planned g nt preserve s1 s0 → runnable s0 → executed s0 s → arena_type (type_of s0 t) →
  0 < bytes_of s0 t → live_at t i →
  let o := owner_of s t in
  data_of s t = address s o ∧ placed s o ∧ type_of s o = type_of s t ∧ bytes_of s o = bytes_of s t ∧
  first_node (alloc_of s o) ≤ i ≤ last_node (alloc_of s o).
Proof.
  intros Hp Hrun Hex Hty Hpos Hlive o. pose proof (live_range _ _ Hlive) as Hi.
  pose proof (vg_size _ _ Hg) as Hsize. pose proof (live_wanted _ _ _ Hlive Hty Hpos) as Hw.
  assert (owned s t i o) as (Hpl & Hto & Hbo & Hal & Hde).
  { unfold o. destruct (actual_tensor_id_ s !! t) as [r|] eqn:Hr.
    - by destruct (shared_owned _ _ _ _ _ _ Hp Hrun Hex Hty Hpos Hlive Hr) as [-> ?].
    - rewrite owner_of_root by done. by eapply self_owned. }
  split_and!; try done; [by apply (ex_resolved _ _ Hex)|by rewrite (pd_first _ _ Hpl)|].
  rewrite (pd_last _ _ Hpl). case_decide; [lia|auto].
Qed.

(** The memory of a placed tensor lies in its arena's block. *)
Lemma placed_block s0 s o :
  executed s0 s → placed s o →
  ∃ block, let b := buffer_ (underlying_buffer_ (arena_for s (type_of s o))) in
    memory s !! pointer b = Some block ∧ 0 < pointer b ∧
    pointer b ≤ address s o ∧ address s o + bytes_of s o ≤ pointer b + zlen block ∧
    aligned_pointer b mod alignment_ (underlying_buffer_ (arena_for s (type_of s o))) = 0 ∧
    alloc_wf (alloc_of s o).
Proof.
  intros Hex Hp. set (ar := arena_for s (type_of s o)).
  destruct (ex_wf _ _ Hex (type_of s o)) as [[_ W2 _] W4 _]. fold ar in W2, W4.
  rewrite Forall_forall in W2, W4. pose proof (pd_active _ _ Hp) as Hin. fold ar in Hin.
  specialize (W2 _ Hin). specialize (W4 _ Hin). simpl in W4.
  pose proof (ex_fits _ _ Hex (type_of s o)) as Hfit. fold ar in Hfit.
  pose proof (pd_positive _ _ Hp) as Hpos. pose proof (pd_size _ _ Hp) as Hsz.
  assert (buffer_ok (memory s) (underlying_buffer_ ar)) as Hb.
  { destruct (ex_memory _ _ Hex) as [[_ M1 _] [_ M2 _] _]. unfold ar, arena_for. by case_decide. }
  pose proof W2 as (Ho & _ & _). unfold GetSize in Hfit.
  destruct Hb as [[_ Hd]|(block & Hl & Hptr & Hmod & _ & Hend & _)]; [lia|].
  exists block. unfold address. fold ar. unfold GetPtr in *. split_and!; done || lia.
Qed.

Lemma placed_disjoint s0 s o1 o2 i :
  executed s0 s → placed s o1 → placed s o2 → o1 ≠ o2 →
  first_node (alloc_of s o1) ≤ i ≤ last_node (alloc_of s o1) →
  first_node (alloc_of s o2) ≤ i ≤ last_node (alloc_of s o2) →
  ranges_disjoint (address s o1) (bytes_of s o1) (address s o2) (bytes_of s o2).
Proof.
  intros Hex H1p H2p Hne Hi1 Hi2. destruct (decide (type_of s o1 = type_of s o2)) as [Heq|Hty].
  - pose proof (pd_active _ _ H1p) as Ha1. pose proof (pd_active _ _ H2p) as Ha2. rewrite <- Heq in Ha2.
    destruct (ex_wf _ _ Hex (type_of s o1)) as [_ _ Hcompat].
    apply list_elem_of_lookup in Ha1 as [j1 Hj1]. apply list_elem_of_lookup in Ha2 as [j2 Hj2].
    assert (j1 ≠ j2) as Hj.
    { intros ->. rewrite Hj1 in Hj2. injection Hj2 as Hj2. apply (f_equal tensor) in Hj2.
      rewrite (pd_tensor _ _ H1p), (pd_tensor _ _ H2p) in Hj2. done. }
    assert (compatible (alloc_of s o1) (alloc_of s o2)) as Hc.
    { destruct (decide (j1 < j2)%nat).
      - by eapply (StronglySorted_lookup compatible _ j1 j2).
      - symmetry. eapply (StronglySorted_lookup compatible _ j2 j1); done || lia. }
    assert (used_in (first_node (alloc_of s o2)) (last_node (alloc_of s o2)) (alloc_of s o1)) as Hu.
    { unfold used_in, tasks_overlap. lia. }
    specialize (Hc Hu). rewrite (pd_size _ _ H1p), (pd_size _ _ H2p) in Hc.
    unfold address. rewrite Heq. unfold ranges_disjoint in *. lia.
  - destruct (placed_block _ _ _ Hex H1p) as (b1 & Hl1 & Hp1 & Ha1 & He1 & _).
    destruct (placed_block _ _ _ Hex H2p) as (b2 & Hl2 & Hp2 & Ha2 & He2 & _).
    destruct (ex_memory _ _ Hex) as [[Hh _ _] _ Hsep].
    assert (∀ o o', placed s o → placed s o' → type_of s o = kTfLiteArenaRw →
      type_of s o' = kTfLiteArenaRwPersistent →
      0 < pointer (buffer_ (underlying_buffer_ (arena_for s (type_of s o)))) →
      pointer (buffer_ (underlying_buffer_ (arena_for s (type_of s o)))) ≠
      pointer (buffer_ (underlying_buffer_ (arena_for s (type_of s o'))))) as Hsep'.
    { intros o o' _ _ -> -> Hpos. unfold arena_for in *. simpl in *. intros Heq.
      specialize (Hsep Heq). lia. }
    assert (pointer (buffer_ (underlying_buffer_ (arena_for s (type_of s o1)))) ≠
            pointer (buffer_ (underlying_buffer_ (arena_for s (type_of s o2))))) as Hptr.
    { destruct (pd_type _ _ H1p) as [T1|T1], (pd_type _ _ H2p) as [T2|T2]; try congruence.
      - by apply Hsep'.
      - apply not_eq_sym. by apply Hsep'. }
    pose proof (Hh _ _ _ _ Hl1 Hl2 Hptr) as Hd. unfold ranges_disjoint in *. lia.
Qed.
End execute.

(** C1: Planning and executing a runnable graph from any planner never has
    undefined behaviour. It fails only if the platform refuses a block that one of the
    arenas needs, of no more bytes than all tensors take with their padding. Otherwise
    every arena tensor in use at some node points to enough aligned memory inside a
    block of the heap, and two tensors in use at the same node that do not share
    an owner have disjoint memory. *)
Theorem live_tensors_disjoint `{Platform} `{StdSort} `{UnorderedOrder} g nt preserve al s0 :
  valid_graph g (Z.of_nat nt) → runnable g nt al s0 →
  wp (PlanAllocations g preserve ;; ExecuteAllocations g preserve al 0 (num_execution_nodes g - 1))
    (λ _ s, ∀ t i, arena_type (type_of s0 t) → 0 < bytes_of s0 t → live_at g t i →
       in_block (memory s) (data_of s t) (bytes_of s0 t) ∧
       (kDefaultArenaAlignment mod al = 0 →
          (∀ ty, alignment_ (underlying_buffer_ (arena_for s0 ty)) = kDefaultArenaAlignment) →
          data_of s t mod al = 0) ∧
       ∀ t', arena_type (type_of s0 t') → 0 < bytes_of s0 t' → live_at g t' i →
         owner_of s t ≠ owner_of s t' →
         ranges_disjoint (data_of s t) (bytes_of s0 t) (data_of s t') (bytes_of s0 t'))
    (memory_refused s0 (demand al s0 (range 0 (Z.of_nat nt)))) s0.
Proof.
  intros Hg Hrun. apply wp_bind. pose proof Hrun as [R1 R2 R3 R4 R5 R6].
  eapply wp_mono; [by apply (PlanAllocations_spec g nt Hg)|simpl|done]. intros _ s1 Hp.
  assert (runnable g nt al s1) as Hrun1.
  { pose proof (pl_tensors _ _ _ _ _ Hp) as Ht. pose proof (pl_memory _ _ _ _ _ Hp) as Hm.
    pose proof (pl_arena _ _ _ _ _ Hp) as Ha. pose proof (pl_persistent _ _ _ _ _ Hp) as Hpa.
    assert (∀ t, type_of s1 t = type_of s0 t ∧ bytes_of s1 t = bytes_of s0 t) as Htb.
    { intros t. unfold type_of, bytes_of. by rewrite Ht. }
    assert (∀ l, demand al s1 l = demand al s0 l) as Hd.
    { induction l as [|t l IH]; simpl; [done|]. by rewrite (proj2 (Htb t)), IH. }
    split; rewrite ?Hd; try congruence.
    - destruct R2 as [[] [] ?]. by split; [split|split|]; rewrite ?Hm, ?Ha, ?Hpa.
    - destruct R3. split; rewrite ?Ha, ?Hpa; try done. intros t. by rewrite (proj2 (Htb t)).
    - intros k t. rewrite (proj1 (Htb t)). apply R5.
    - intros k node o. rewrite (proj1 (Htb o)). apply R6. }
  assert (∀ t, type_of s0 t = type_of s1 t ∧ bytes_of s0 t = bytes_of s1 t) as Htb.
  { intros t. unfold type_of, bytes_of. by rewrite (pl_tensors _ _ _ _ _ Hp). }
  assert (∀ ty, underlying_buffer_ (arena_for s0 ty) = underlying_buffer_ (arena_for s1 ty)) as Hali.
  { intros ty. unfold arena_for. by rewrite (pl_arena _ _ _ _ _ Hp), (pl_persistent _ _ _ _ _ Hp); case_decide. }
  eapply wp_mono; [eapply (ExecuteAllocations_spec g nt preserve al Hg _ s1 Hp); apply Hrun1|simpl|].
  2: { intros s (ty & sz & Hsz & Hun). exists ty, sz. rewrite Hali. split; [|exact Hun]. split; [apply Hsz|].
       etrans; [apply Hsz|]. clear -Htb. induction (range _ _) as [|t l IH]; simpl; [done|]. rewrite (proj2 (Htb t)). lia. }
  intros _ s Hex t i Hty Hb Hlive. rewrite (proj1 (Htb t)) in Hty. rewrite (proj2 (Htb t)) in *.
  destruct (owner_facts g nt preserve al Hg _ _ _ _ _ Hp Hrun1 Hex Hty Hb Hlive)
    as (Hdat & Hpl & Hto & Hbo & Hint).
  rewrite <- (ex_bytes _ _ _ _ Hex t), <- Hbo, Hdat.
  destruct (placed_block _ _ _ _ _ Hex Hpl) as (block & Hl & Hp0 & Hlo & Hhi & Hmod & _).
  split; [|split].
  - by eexists _, block.
  - intros Hdiv Hal64. pose proof (ar_align _ _ R3) as Hal0.
    rewrite (ex_alignment _ _ _ _ Hex), <- Hali, Hal64 in Hmod.
    unfold address, GetPtr. pose proof (pd_aligned _ _ _ Hpl) as Ho.
    apply Z.mod_divide in Hmod; [|done]. apply Z.mod_divide in Hdiv; [|lia].
    apply Z.mod_divide in Ho; [|lia]. apply Z.mod_divide; [lia|].
    apply Z.divide_add_r; [|done]. eapply Z.divide_trans; [exact Hdiv|exact Hmod].
  - intros t' Hty' Hb' Hlive' Hne. rewrite (proj1 (Htb t')) in Hty'. rewrite (proj2 (Htb t')) in *.
    destruct (owner_facts g nt preserve al Hg _ _ _ _ _ Hp Hrun1 Hex Hty' Hb' Hlive')
      as (Hdat' & Hpl' & Hto' & Hbo' & Hint').
    rewrite <- (ex_bytes _ _ _ _ Hex t'), <- Hbo', Hdat'. by eapply placed_disjoint.
Qed.

(** ** Runs *)

(** Instances for concrete runs: a bump allocator and insertion order. *)
#[local] Instance run_platform : Platform := bump_platform true.
#[local] Instance insertion_order : UnorderedOrder :=
  {| uset_elements s := s; uset_elements_perm s := reflexivity s |}.

Definition plan_and_execute (g : GraphInfo) (ts : list TfLiteTensor) :
    outcome ArenaPlanner unit :=
  (PlanAllocations g false ;; ExecuteAllocations g false 16 0 (num_execution_nodes g - 1))
    (new_planner ∅ ts).

(** The data pointers after a successful run. *)
Definition addresses (o : outcome ArenaPlanner unit) : option (list Z) :=
  match o with Done _ s => Some (data <$> tensors s) | _ => None end.

Lemma sample_runnable : runnable sample_graph 5 16 sample_planner.
Proof.
  assert (∀ t, vat no_tensor sample_tensors t = rw_tensor 16 ∨ vat no_tensor sample_tensors t = no_tensor) as Hv.
  { intros t. unfold vat. destruct (zget sample_tensors t) as [x|] eqn:Hx; [|by right].
    apply zget_elem in Hx. unfold sample_tensors in Hx. apply elem_of_replicate in Hx as [-> _]. by left. }
  split.
  - done.
  - assert (heap_ok ∅) as Hh by (intros p q bp bq Hp; by rewrite lookup_empty in Hp).
    split; [split|split|done]; try exact Hh; try (by left); vm_compute; (split; [reflexivity|discriminate]).
  - split; [|done|vm_compute; split; discriminate..].
    intros t. unfold bytes_of. simpl. destruct (Hv t) as [->| ->]; done.
  - vm_compute. discriminate.
  - intros k t (node & [Hk Hin]) _. destruct Hin as [Hin Hne].
    apply sample_node in Hk as [[-> ->]|[[-> ->]|[-> ->]]]; simpl in Hin;
      rewrite ?elem_of_cons, ?elem_of_nil in Hin.
    + exists 0. left. split; [done|]. destruct Hin as [->|?]; [vm_compute; by left|done].
    + destruct Hin as [->|[->|?]]; [| |done].
      * exists 0. right. eexists. split; [reflexivity|]. split; [by left|done].
      * exists 0. left. split; [done|]. vm_compute. by left.
    + destruct Hin as [->|[->|?]]; [|done..].
      exists 1. right. eexists. split; [reflexivity|]. split; [by left|done].
  - intros k node o _ _. unfold type_of. simpl. destruct (Hv o) as [->| ->]; done.
Qed.

Lemma live_tensors_disjoint_witness :
  addresses (plan_and_execute sample_graph sample_tensors) = Some [64; 80; 80; 96; 112] ∧
  runnable sample_graph 5 16 sample_planner ∧
  wp (PlanAllocations sample_graph false ;; ExecuteAllocations sample_graph false 16 0 2)
    (λ _ s, ∀ t i, arena_type (type_of sample_planner t) → 0 < bytes_of sample_planner t →
       live_at sample_graph t i →
       in_block (memory s) (data_of s t) (bytes_of sample_planner t) ∧
       (kDefaultArenaAlignment mod 16 = 0 →
          (∀ ty, alignment_ (underlying_buffer_ (arena_for sample_planner ty)) = kDefaultArenaAlignment) →
          data_of s t mod 16 = 0) ∧
       ∀ t', arena_type (type_of sample_planner t') → 0 < bytes_of sample_planner t' →
         live_at sample_graph t' i → owner_of s t ≠ owner_of s t' →
         ranges_disjoint (data_of s t) (bytes_of sample_planner t)
                         (data_of s t') (bytes_of sample_planner t'))
    (memory_refused sample_planner (demand 16 sample_planner (range 0 5))) sample_planner.
Proof.
  split; [vm_compute; reflexivity|]. split; [exact sample_runnable|].
  apply (live_tensors_disjoint sample_graph 5 false 16); [exact sample_valid|exact sample_runnable].
Defined.

(** A chain of two reshapes with a second reader of its middle: node 1 reshapes
    1 to 2, node 2 reshapes 2 to 3, node 3 computes 4 from 3 in place, node 4
    reads 2 and 4. *)
Definition reshape_chain : GraphInfo := {|
  nodes := [
    {| inputs := [0]; outputs := [1]; temporaries := []; inplace_operator := 0 |};
    {| inputs := [1]; outputs := [2]; temporaries := []; inplace_operator := 5 |};
    {| inputs := [2]; outputs := [3]; temporaries := []; inplace_operator := 5 |};
    {| inputs := [3]; outputs := [4]; temporaries := []; inplace_operator := 4 |};
    {| inputs := [2; 4]; outputs := [5]; temporaries := []; inplace_operator := 0 |} ];
  graph_inputs := [0]; graph_outputs := [5]; graph_variables := []
|}.

(** [IdentifyInPlaceTensors] looks at the reference counts of the node's input
    and of the owner of its memory, not of the tensors in between: in a chain of
    reshapes whose middle tensor 2 is read again at node 4, node 3, which modifies
    its data, writes its output 4 over tensor 2. *)
Theorem shared_chain_overwritten :
  addresses (plan_and_execute reshape_chain (replicate 6 (rw_tensor 16)))
    = Some [64; 80; 80; 80; 80; 96] ∧
  in_of reshape_chain 4 2 ∧ out_of reshape_chain 3 4 ∧
  Z.land kTfLiteInplaceOpDataUnmodified 4 = 0.
Proof.
  split; [vm_compute; reflexivity|]. split; [|split; [|done]].
  - eexists. split; [reflexivity|]. split; [by left|done].
  - eexists. split; [reflexivity|]. split; [by left|done].
Qed.

Definition persistent_output : GraphInfo := {|
  nodes := [
    {| inputs := [0]; outputs := [1]; temporaries := []; inplace_operator := 0 |};
    {| inputs := [1]; outputs := [2]; temporaries := []; inplace_operator := 4 |} ];
  graph_inputs := [0]; graph_outputs := []; graph_variables := []
|}.

(** [InputTensorCanBeShared] lets a persistent output share the memory of an
    ordinary arena input. [CalculateAllocations] then gives the output no memory
    of its own and [ResolveTensorAllocation] does not use the input's, so that its
    data pointer is null. *)
Theorem persistent_output_null :
  addresses (plan_and_execute persistent_output
    [rw_tensor 16; rw_tensor 16;
     {| allocation_type := kTfLiteArenaRwPersistent; bytes := 16; data := 0 |}])
  = Some [64; 80; 0].
Proof. vm_compute. reflexivity. Qed.

(** [PlanAllocations] counts a reference to a variable before it checks that the
    index is not [kTfLiteOptionalTensor], so the check comes too late: the
    reference count at index -1 has already been accessed. *)
Theorem optional_variable_undefined :
  PlanAllocations {| nodes := []; graph_inputs := []; graph_outputs := []; graph_variables := [-1] |}
    false (new_planner ∅ [rw_tensor 16]) = Undefined.
Proof. vm_compute. reflexivity. Qed.
