(* ===== verification/PlannerSafety.v ===== *)
(** * The planner in a steady state

    [PlanAllocations] and [ExecuteAllocations] place the tensors of a whole run. A
    subgraph with dynamic tensors calls the planner in other ways too: on some of the
    nodes, after tensors have been added, after memory was refused or released. This
    file shows that a planned planner keeps its vectors and its two arenas consistent
    in all of these calls, whether they succeed or report an error, and that none of
    them has undefined behaviour. *)

From S2P Require Import Prelude SimpleMemoryArena ArenaPlanner PlannerLifetimes PlannerExecution.

(** ** The arenas *)

Section arenas.
Context `{Platform}.

(** The allocations may be arbitrary. *)
Lemma Allocate_safe al sz t f l ar na :
  is_size (high_water_mark_ ar) →
  wp (Allocate al sz t f l)
    (λ _ s', is_size (high_water_mark_ s'.1) ∧ underlying_buffer_ s'.1 = underlying_buffer_ ar ∧ is_Some s'.2)
    (λ s', s'.1 = ar ∧ is_Some s'.2) (ar, Some na).
Proof.
  intros Hm. unfold Allocate. wp_steps. apply wp_ensure; [intros _|done]. wp_steps. apply wp_ensure; [intros _|done]. wp_steps.
  destruct (_ =? 0); [by wp_steps|]. case_match eqn:Hf; [|by wp_steps]. destruct p as [off req]. wp_steps. split_and!; [|done..].
  assert (is_size req) as Hreq; [|unfold is_size in *; lia].
  destruct (search_gaps _ _ _ _ _ _) as [gs|]; [|done]. simpl in Hf.
  destruct (if _ =? _ then _ else _) as [off'|]; [|done]. simpl in Hf.
  destruct (CheckedAdd off' sz) as [r|] eqn:Hadd; [|done]. simpl in Hf. injection Hf as _ <-.
  unfold CheckedAdd in Hadd. case_match; [done|]. injection Hadd as <-. unfold is_size, size_max, u64.
  pose proof (Z.mod_pos_bound (off' + sz) (2 ^ 64)). lia.
Qed.

(** Freeing one buffer leaves another one alone. *)
Lemma Release_spec h b :
  heap_ok h → buffer_ok h b →
  wp Release (λ _ s', s'.1 = (if pointer (buffer_ b) =? 0 then h else delete (pointer (buffer_ b)) h) ∧
      buffer_ok s'.1 s'.2 ∧ alignment_ s'.2 = alignment_ b ∧ heap_ok s'.1 ∧ pointer (buffer_ s'.2) = 0) (λ _, False) (h, b).
Proof.
  intros Hh Hb. unfold Release. wp_steps. destruct (Z.eqb_spec (pointer (buffer_ b)) 0) as [Hz|Hnz].
  - wp_steps. by split_and!.
  - destruct Hb as [[Hn _]|(block & Hl & Hp & _)]; [by rewrite Hn in Hnz|]. wp_steps. apply wp_zoom.
    unfold AlignedFree, c_free. simpl. rewrite (proj2 (Z.eqb_neq _ 0)) by done. wp_steps. eapply wp_deref; [exact Hl|].
    wp_steps. split_and!; [done|by left|done|by apply heap_ok_delete|done].
Qed.

Lemma ReleaseBuffer_spec s :
  planner_memory_ok s →
  wp (with_arena ReleaseBuffer)
    (λ _ s', ∃ h ar, s' = ArenaPlanner.set_memory h (set_arena ar s) ∧ planner_memory_ok s' ∧ high_water_mark_ ar = high_water_mark_ (arena_ s))
    (λ _, False) s.
Proof.
  intros [[Hh Hb Ha] [_ Hb' Ha'] Hsep]. unfold with_arena, ReleaseBuffer, update_arena. apply wp_zoom. wp_steps. apply wp_zoom. simpl.
  eapply wp_post; [|by apply Release_spec]. intros [] [h b] (Hm & Hok & Hal & Hh' & Hz). simpl in *. eexists _, _. split_and!; [done| |done].
  split; simpl; [by split; simpl; [..|rewrite Hal]| |by intros _].
  split; simpl; [done| |done]. rewrite Hm. destruct (Z.eqb_spec (pointer (buffer_ (underlying_buffer_ (arena_ s)))) 0) as [|Hnz]; [done|].
  destruct Hb' as [?|(block & Hl & Hrest)]; [by left|]. right. exists block. split; [|done].
  rewrite lookup_delete_ne; [done|]. intros Heq. by apply Hnz, Hsep.
Qed.
End arenas.

(** ** The invariant *)

(** What is kept between calls of a planner that has planned a graph of [len] nodes,
    while there are [n] tensors; their number may grow. *)
Record steady (len : Z) (n : nat) (s : ArenaPlanner) : Prop := {
  sy_memory : planner_memory_ok s;
  sy_mark : is_size (high_water_mark_ (arena_ s));
  sy_mark' : is_size (high_water_mark_ (persistent_arena_ s));
  sy_allocs : (length (allocs_ s) ≤ n)%nat;
  sy_alloc_node : (length (alloc_node_ s) ≤ n)%nat;
  sy_dealloc_node : (length (dealloc_node_ s) ≤ n)%nat;
  sy_queues : zlen (nodes_to_tensors_ s) = Z.max len 1;
  sy_queued k t : t ∈ queued s k → 0 ≤ t < Z.of_nat n;
  sy_owners : owner_map n (actual_tensor_id_ s)
}.

(** During a call the tensors are there, and [ExecuteAllocations] sees to it that all
    vectors have an entry for each ([sizes]). With [has_memory] the memory is not
    released. *)
Record running (len : Z) (n : nat) (has_memory sizes : bool) (s : ArenaPlanner) : Prop := {
  rn_steady : steady len n s;
  rn_tensors : length (tensors s) = n;
  rn_sizes : sizes = true → length (allocs_ s) = n ∧ length (alloc_node_ s) = n ∧ length (dealloc_node_ s) = n;
  rn_memory : has_memory = true → HasNonPersistentMemory s = true
}.

Lemma steady_grows len n n' ts s : steady len n s → (n ≤ n')%nat → steady len n' (set_tensors ts s).
Proof.
  intros [H1 H2 H3 H4 H5 H6 H7 H8 H9] Hn. split; simpl; try done; try lia.
  - destruct H1 as [[] [] ?]. by split; [split|split|].
  - intros k t Ht. apply H8 in Ht. lia.
  - intros o r Hr. apply H9 in Hr as [? ?]. split; [done|lia].
Qed.

Section safety.
Context `{Platform} `{StdSort} `{UnorderedOrder} (len : Z) (n : nat) (np : bool).
Implicit Types (s : ArenaPlanner) (t : Z).

(** A call that keeps the planner running, whatever it returns. *)
Definition safe {A} (b : bool) (m : M ArenaPlanner A) : Prop := ∀ s,
  running len n np b s → wp m (λ _, running len n np b) (running len n np b) s.

Lemma safe_ret {A} b (a : A) : safe b (mret a).
Proof. intros s Hs. by apply wp_ret. Qed.

Lemma safe_bind {A B} b (m : M ArenaPlanner A) (k : A → M ArenaPlanner B) : safe b m → (∀ a, safe b (k a)) → safe b (m ≫= k).
Proof. intros Hm Hk s Hs. apply wp_bind. eapply wp_post; [|by apply Hm]. intros a s' Hs'. by apply Hk. Qed.

Lemma safe_read {A B} b (f : ArenaPlanner → A) (k : A → M ArenaPlanner B) : (∀ a, safe b (k a)) → safe b (gets f ≫= k).
Proof. intros Hk s Hs. wp_steps. by apply Hk. Qed.

Lemma safe_for_each {A} b (l : list A) body : (∀ x, x ∈ l → safe b (body x)) → safe b (for_each l body).
Proof.
  intros Hb s Hs. apply (wp_for_each (λ _, running len n np b)); [done|]. intros done x todo s' -> Hs'.
  apply Hb; [set_solver|exact Hs'].
Qed.

(** *** Changes of one component *)

Lemma running_tensors b ts s : running len n np b s → length ts = n → running len n np b (set_tensors ts s).
Proof. intros [Hs Ht Hb Hnp] Hl. split; [by eapply steady_grows|done..]. Qed.

Lemma running_allocs b t a s : running len n np b s → running len n np b (set_allocs (zset t a (allocs_ s)) s).
Proof.
  intros [[[] ? ? ? ? ? ? ? ?] Ht Hb Hnp]. split; [split|..]; simpl; rewrite ?zset_length; done.
Qed.

Lemma running_alloc_node b t k s : running len n np b s → running len n np b (set_alloc_node (zset t k (alloc_node_ s)) s).
Proof.
  intros [[[] ? ? ? ? ? ? ? ?] Ht Hb Hnp]. split; [split|..]; simpl; rewrite ?zset_length; done.
Qed.

Lemma running_dealloc_node b t k s : running len n np b s → running len n np b (set_dealloc_node (zset t k (dealloc_node_ s)) s).
Proof.
  intros [[[] ? ? ? ? ? ? ? ?] Ht Hb Hnp]. split; [split|..]; simpl; rewrite ?zset_length; done.
Qed.

Lemma running_queue b k t s :
  running len n np b s → 0 ≤ k < Z.max len 1 → 0 ≤ t < Z.of_nat n →
  running len n np b (set_nodes_to_tensors (zset k (uset_insert t (queued s k)) (nodes_to_tensors_ s)) s).
Proof.
  intros [[[] ? ? ? ? ? Hl Hq ?] Ht Hb Hnp] Hk Hr. split; [split|..]; simpl; rewrite ?zset_length; try done.
  intros j u. unfold queued at 1. simpl. destruct (decide (j = k)) as [->|Hne].
  - rewrite vat_zset_eq by (rewrite <- Hl in Hk; exact Hk). intros [->|Hu]%elem_of_uset_insert; [done|by eapply Hq].
  - rewrite vat_zset_ne by lia. apply Hq.
Qed.

Lemma running_arena b ar s :
  running len n np b s → is_size (high_water_mark_ ar) → underlying_buffer_ ar = underlying_buffer_ (arena_ s) →
  running len n np b (set_arena ar s).
Proof.
  intros [[? ? ? ? ? ? ? ? ?] Ht Hb Hnp] Hm Hu. split; [split|..]; simpl; try done. by apply planner_memory_same with s.
Qed.

Lemma running_persistent_arena b ar s :
  running len n np b s → is_size (high_water_mark_ ar) → underlying_buffer_ ar = underlying_buffer_ (persistent_arena_ s) →
  running len n np b (set_persistent_arena ar s).
Proof.
  intros [[? ? ? ? ? ? ? ? ?] Ht Hb Hnp] Hm Hu. split; [split|..]; simpl; try done. by apply planner_memory_same with s.
Qed.

Lemma running_flags b k s : running len n np b s → running len n np b (set_last_active_node k s) ∧ running len n np b (set_has_nonpersistent true s).
Proof.
  intros [[? ? ? ? ? ? ? ? ?] Ht Hb Hnp]. split; (split; [split|..]); simpl; try done; by apply planner_memory_same with s.
Qed.

Lemma running_actual b t s : running len n np b s → running len n np b (set_actual_tensor_id (delete t (actual_tensor_id_ s)) s).
Proof.
  intros [[? ? ? ? ? ? ? ? Ho] Ht Hb Hnp]. split; [split|..]; simpl; try done; [by apply planner_memory_same with s|].
  intros o r [_ Hr]%lookup_delete_Some. apply Ho in Hr as [Hn ?]. split; [|done].
  destruct (decide (r = t)) as [->|]; [apply lookup_delete_eq|by rewrite lookup_delete_ne].
Qed.

(** ** Executing a part of the plan *)

Lemma safe_plan_temporaries g preserve i :
  num_execution_nodes g = len → (∀ t, temp_of g i t → 0 ≤ t < Z.of_nat n) → 0 ≤ i < len →
  safe true (plan_temporaries g preserve i).
Proof.
  intros Hg Ht Hi s Hs. unfold plan_temporaries. destruct (zget_is_Some (nodes g) i) as [node Hk]; [by rewrite <- Hg in Hi|].
  wp_steps. eapply wp_deref; [exact Hk|]. apply safe_for_each; [|exact Hs]. clear s Hs. intros t Hin s Hs.
  pose proof (Ht t ltac:(by exists node)) as Hr. destruct (rn_sizes _ _ _ _ _ Hs eq_refl) as (L1 & L2 & L3).
  wp_steps. apply wp_vset; [lia|]. pose proof (running_alloc_node _ t i _ Hs) as Hs1. wp_steps. apply wp_queue_tensor.
  { simpl. rewrite (sy_queues _ _ _ (rn_steady _ _ _ _ _ Hs)). lia. }
  pose proof (running_queue _ i t _ Hs1 ltac:(lia) Hr) as Hs2. destruct (negb preserve); [|by wp_steps].
  apply wp_vset; [simpl; lia|]. by apply running_dealloc_node.
Qed.

Lemma GetTensorsToAllocate_safe first last s :
  running len n np true s → 0 ≤ first → last < Z.max len 1 →
  wp (GetTensorsToAllocate first last) (λ l s', s' = s ∧ ∀ t, t ∈ l → 0 ≤ t < Z.of_nat n) (λ _, False) s.
Proof.
  intros Hs Hf Hl. unfold GetTensorsToAllocate. pose proof (rn_steady _ _ _ _ _ Hs) as Hst.
  apply (wp_fold_m (λ _ l s', s' = s ∧ ∀ t, t ∈ l → 0 ≤ t < Z.of_nat n)); [split; [done|set_solver]|].
  intros done i todo l s' Hr [-> Hin]. assert (i ∈ range first (last + 1)) as Hi by (rewrite Hr; set_solver).
  apply elem_of_range in Hi. wp_steps. apply (wp_vget _ []).
  { assert (0 ≤ i < zlen (nodes_to_tensors_ s)) as Hi' by (rewrite (sy_queues _ _ _ Hst); lia). exact Hi'. }
  wp_steps. split; [done|]. intros t [Ht|Ht]%elem_of_app; [by apply Hin|].
  rewrite uset_elements_perm in Ht. by eapply (sy_queued _ _ _ Hst).
Qed.

Lemma needs_allocation_safe l s :
  running len n np true s → (∀ t, t ∈ l → 0 ≤ t < Z.of_nat n) →
  wp (fold_m l [] needs_allocation) (λ ta s', s' = s ∧ ∀ t, t ∈ ta → 0 ≤ t < Z.of_nat n) (λ _, False) s.
Proof.
  intros Hs Hl. destruct (rn_sizes _ _ _ _ _ Hs eq_refl) as (L1 & L2 & L3). pose proof (rn_tensors _ _ _ _ _ Hs) as L4.
  apply (wp_fold_m (λ _ ta s', s' = s ∧ ∀ t, t ∈ ta → 0 ≤ t < Z.of_nat n)); [split; [done|set_solver]|].
  intros done t todo ta s' -> [-> Hta]. assert (0 ≤ t < Z.of_nat n) as Ht by (apply Hl; in_list).
  assert (∀ u, u ∈ ta ++ [t] → 0 ≤ u < Z.of_nat n) as Happ by (intros u [?|Hu%list_elem_of_singleton]%elem_of_app; [auto|by subst]).
  unfold needs_allocation. wp_steps. apply (wp_vget _ no_tensor); [lia|]. case_decide.
  - wp_steps. apply (wp_vget _ reset_alloc); [lia|]. wp_steps. split; [done|]. by case_match.
  - case_decide; wp_steps; by split.
Qed.


(** [Allocate] in one of the two arenas. *)
Lemma allocate_in_safe view update al sz t first last s :
  running len n np true s → 0 ≤ t < Z.of_nat n → is_size (high_water_mark_ (view s)) →
  (∀ ar a, is_size (high_water_mark_ ar) → underlying_buffer_ ar = underlying_buffer_ (view s) →
     running len n np true (update ar (set_allocs (zset t a (allocs_ s)) s))) →
  wp (allocate_in al view update sz t first last) (λ _, running len n np true) (running len n np true) s.
Proof.
  intros Hs Ht Hm Hup. unfold allocate_in. destruct (rn_sizes _ _ _ _ _ Hs eq_refl) as (L1 & _).
  wp_steps. apply (wp_vget _ reset_alloc); [lia|]. apply wp_zoom.
  rewrite (vat_zget reset_alloc) by lia. eapply wp_mono; [by apply Allocate_safe|..]; simpl.
  - intros [] [ar na] (Hm' & Hu & a & Ha). simpl in *. subst na. simpl. by apply Hup.
  - intros [ar na] (-> & a & Ha). simpl in *. subst na. simpl. by apply Hup.
Qed.

Lemma safe_allocate_tensor al t : 0 ≤ t < Z.of_nat n → safe true (allocate_tensor al t).
Proof.
  intros Ht s Hs. destruct (rn_sizes _ _ _ _ _ Hs eq_refl) as (L1 & L2 & L3). pose proof (rn_tensors _ _ _ _ _ Hs) as L4.
  unfold allocate_tensor. wp_steps. apply (wp_vget _ no_tensor); [lia|]. wp_steps.
  eapply wp_post with (Q := λ _, running len n np true).
  2: { case_decide; [|by wp_steps]. wp_steps. apply (wp_vget _ kNodeNotAssigned); [lia|]. wp_steps.
       apply (wp_vget _ kNodeNotAssigned); [lia|]. apply allocate_in_safe; [done|done|apply Hs|].
       intros ar a Hm Hu. apply running_arena; [by apply running_allocs|done|done]. }
  clear Hs L1 L2 L3 L4. intros [] s' Hs. destruct (rn_sizes _ _ _ _ _ Hs eq_refl) as (L1 & L2 & L3).
  wp_steps. apply (wp_vget _ reset_alloc); [lia|]. destruct (_ && _); [|by wp_steps]. destruct (_ <? _); [|by wp_steps]. wp_steps.
  apply (wp_vget _ kNodeNotAssigned); [lia|]. apply allocate_in_safe; [done|done|apply Hs|].
  intros ar a Hm Hu. apply running_persistent_arena; [by apply running_allocs|done|done].
Qed.

Lemma safe_calculate_allocation al t : 0 ≤ t < Z.of_nat n → safe true (calculate_allocation al t).
Proof.
  intros Ht s Hs. pose proof (rn_tensors _ _ _ _ _ Hs) as L4. unfold calculate_allocation. wp_steps.
  destruct (actual_tensor_id_ s !! t) as [r|] eqn:Hr; [|by apply safe_allocate_tensor].
  destruct (sy_owners _ _ _ (rn_steady _ _ _ _ _ Hs) _ _ Hr) as [_ Hrange].
  wp_steps. apply (wp_vget _ no_tensor); [lia|]. wp_steps. apply (wp_vget _ no_tensor); [lia|].
  destruct (_ || _); [|by wp_steps]. wp_steps. apply safe_allocate_tensor; [done|]. by apply running_actual.
Qed.

Lemma CalculateAllocations_safe al first last s :
  running len n np true s → 0 ≤ first → last < Z.max len 1 →
  wp (CalculateAllocations al first last)
    (λ l s', running len n np true s' ∧ ∀ t, t ∈ l → 0 ≤ t < Z.of_nat n) (running len n np true) s.
Proof.
  intros Hs Hf Hl. unfold CalculateAllocations. wp_steps.
  eapply wp_mono; [exact (GetTensorsToAllocate_safe first last s Hs Hf Hl)| |done]. intros l s' [-> Hin]. wp_steps.
  eapply wp_mono; [exact (needs_allocation_safe l s Hs Hin)| |done]. intros ta s' [-> Hta]. destruct ta as [|t0 ta].
  { wp_steps. split; [exact (proj1 (running_flags true last _ Hs))|set_solver]. }
  set (l0 := t0 :: ta) in *. clearbody l0. wp_steps.
  eapply wp_post with (Q := λ _, running len n np true).
  2: { destruct (_ <? _); wp_steps.
       - apply (running_flags true first). apply running_arena; [done|apply Hs|done].
       - apply running_arena; [done|apply Hs|done]. }
  clear s Hs. intros [] s Hs. unfold CreateTensorAllocationVector. wp_steps. 
  assert (∀ t, t ∈ std_sort (tensor_compare s) l0 → 0 ≤ t < Z.of_nat n) as Hsorted.
  { intros t. rewrite std_sort_perm by apply tensor_compare_strict_weak. apply Hta. }
  eapply wp_post; [|apply safe_for_each; [|exact Hs]].
  - intros [] s' Hs'. wp_steps. split; [exact (proj1 (running_flags true last _ Hs'))|exact Hsorted].
  - intros t Ht. by apply safe_calculate_allocation, Hsorted.
Qed.

(** *** Committing the arenas *)

(** The memory and the arenas change, and the vectors do not. *)
Lemma running_memory b s s' :
  running len n np b s → planner_memory_ok s' → is_size (high_water_mark_ (arena_ s')) →
  is_size (high_water_mark_ (persistent_arena_ s')) → tensors s' = tensors s → allocs_ s' = allocs_ s →
  nodes_to_tensors_ s' = nodes_to_tensors_ s → alloc_node_ s' = alloc_node_ s → dealloc_node_ s' = dealloc_node_ s →
  actual_tensor_id_ s' = actual_tensor_id_ s → (np = true → HasNonPersistentMemory s = true → HasNonPersistentMemory s' = true) →
  running len n np b s'.
Proof.
  intros [[? ? ? ? ? ? ? Hq ?] Ht Hb Hnp] Hm M1 M2 E1 E2 E3 E4 E5 E6 E7.
  split; [split|..]; rewrite ?E1, ?E2, ?E3, ?E4, ?E5, ?E6; try done; [|by auto]. intros k t. unfold queued. rewrite E3. apply Hq.
Qed.

Lemma commit_arena_safe s : running len n np true s →
  wp (with_arena (Commit (Some false))) (λ _ s', running len n np true s' ∧ has_nonpersistent_memory_ s' = has_nonpersistent_memory_ s)
    (running len n np true) s.
Proof.
  intros Hs. pose proof (rn_steady _ _ _ _ _ Hs) as [[Hm1 Hm2 Hsep] Hk Hk' _ _ _ _ _ _].
  unfold with_arena. apply wp_zoom. eapply wp_mono; [by apply Commit_spec|..]; simpl.
  - intros r [h ar] (Hm & Hr & _ & Hmark & _ & _). simpl in *. split; [|done].
    destruct (resized_other _ _ _ _ _ _ Hr (am_buffer _ _ Hm2) Hsep) as [Hb2 Hsep2].
    apply (running_memory _ _ _ Hs); simpl; try done; [|by rewrite Hmark].
    split; [done| |done]. split; [apply Hm|done|apply Hm2].
  - intros [h ar] ([= -> ->] & _). simpl. apply (running_memory _ _ _ Hs); simpl; try done.
    split; [by split; apply Hm1|done|done].
Qed.

Lemma commit_persistent_safe s : running len n np true s →
  wp (with_persistent_arena (Commit (Some false))) (λ _ s', running len n np true s' ∧ has_nonpersistent_memory_ s' = has_nonpersistent_memory_ s)
    (running len n np true) s.
Proof.
  intros Hs. pose proof (rn_steady _ _ _ _ _ Hs) as [[Hm1 Hm2 Hsep] Hk Hk' _ _ _ _ _ _].
  unfold with_persistent_arena. apply wp_zoom. eapply wp_mono; [by apply Commit_spec|..]; simpl.
  - intros r [h ar] (Hm & Hr & _ & Hmark & _ & _). simpl in *. split; [|done].
    destruct (resized_other _ _ _ _ _ (underlying_buffer_ (arena_ s)) Hr (am_buffer _ _ Hm1)) as [Hb2 Hsep2].
    { intros Heq. rewrite Heq. by apply Hsep. }
    apply (running_memory _ _ _ Hs); simpl; try done; [|by rewrite Hmark].
    split; [split; [apply Hm|done|apply Hm1]|done|]. intros Heq. rewrite Heq. by apply Hsep2.
  - intros [h ar] ([= -> ->] & _). simpl. apply (running_memory _ _ _ Hs); simpl; try done.
    split; [done|by split; apply Hm2|done].
Qed.

Lemma PlannerCommit_safe s : running len n np true s →
  wp PlannerCommit (λ _ s', running len n np true s' ∧ has_nonpersistent_memory_ s' = true) (running len n np true) s.
Proof.
  intros Hs. unfold PlannerCommit. wp_steps. eapply wp_post; [|by apply commit_arena_safe]. intros r s1 [Hs1 _]. wp_steps.
  eapply wp_post; [|apply commit_persistent_safe; exact (proj2 (running_flags true 0 _ Hs1))]. intros r' s2 [Hs2 Hnp]. by wp_steps.
Qed.

(** *** Resolving addresses *)

(** Only the data of tensors change. *)
Definition safe_data {A} (m : M ArenaPlanner A) : Prop := ∀ s, running len n np true s →
  wp m (λ _ s', running len n np true s' ∧ ∃ ts, s' = set_tensors ts s)
       (λ s', running len n np true s' ∧ ∃ ts, s' = set_tensors ts s) s.

Lemma data_refl s : running len n np true s → running len n np true s ∧ ∃ ts, s = set_tensors ts s.
Proof. intros Hs. split; [done|]. exists (tensors s). by destruct s. Qed.

Lemma safe_write_data t p : 0 ≤ t < Z.of_nat n → safe_data (write_data t p).
Proof.
  intros Ht s Hs. pose proof (rn_tensors _ _ _ _ _ Hs) as L4. unfold write_data. wp_steps. apply (wp_vget _ no_tensor); [lia|].
  apply wp_vset; [lia|]. split; [apply running_tensors; [done|by rewrite zset_length]|by eexists].
Qed.

Lemma safe_data_bind {A B} (m : M ArenaPlanner A) (k : A → M ArenaPlanner B) :
  safe_data m → (∀ a, safe_data (k a)) → safe_data (m ≫= k).
Proof.
  intros Hm Hk s Hs. apply wp_bind. eapply wp_post; [|by apply Hm]. intros a s' [Hs' [ts ->]].
  eapply wp_mono; [by apply Hk|..]; simpl; [intros _|]; intros s'' [Hs'' [ts' ->]]; (split; [done|by exists ts']).
Qed.

Lemma safe_resolve_in view t : 0 ≤ t < Z.of_nat n → safe_data (resolve_in view t).
Proof.
  intros Ht s Hs. destruct (rn_sizes _ _ _ _ _ Hs eq_refl) as (L1 & _). unfold resolve_in. wp_steps.
  apply (wp_vget _ reset_alloc); [lia|]. wp_steps. apply wp_zoom. unfold ResolveAlloc. wp_steps.
  apply wp_ensure; [intros _|by intros _; apply data_refl]. wp_steps. destruct (CheckedAdd _ _); [|by wp_steps; apply data_refl].
  wp_steps. apply wp_ensure; [intros _|by intros _; apply data_refl]. wp_steps. by apply safe_write_data.
Qed.

Lemma safe_resolve_own t x : 0 ≤ t < Z.of_nat n → safe_data (resolve_own t x).
Proof.
  intros Ht s Hs. destruct (rn_sizes _ _ _ _ _ Hs eq_refl) as (L1 & _). unfold resolve_own. case_decide.
  - wp_steps. apply (wp_vget _ reset_alloc); [lia|]. case_match; [by apply safe_resolve_in|wp_steps; by apply data_refl].
  - case_decide; [by apply safe_resolve_in|wp_steps; by apply data_refl].
Qed.

(** An owner resolves its own memory: the recursion is at most two calls deep. *)
Lemma safe_resolve_tensor fuel t s :
  running len n np true s → 0 ≤ t < Z.of_nat n → (base.size (actual_tensor_id_ s) < fuel)%nat ∨ (actual_tensor_id_ s !! t = None ∧ fuel ≠ 0%nat) →
  wp (resolve_tensor fuel t) (λ _ s', running len n np true s' ∧ ∃ ts, s' = set_tensors ts s)
    (λ s', running len n np true s' ∧ ∃ ts, s' = set_tensors ts s) s.
Proof.
  revert t s. induction fuel as [|fuel IH]; intros t s Hs Ht Hfuel; [naive_solver lia|].
  pose proof (rn_tensors _ _ _ _ _ Hs) as L4. pose proof (sy_owners _ _ _ (rn_steady _ _ _ _ _ Hs)) as Ho.
  cbn [resolve_tensor]. wp_steps. set (r := FindSharedTensor _ t).
  assert (0 ≤ r < Z.of_nat n ∧ (r ≠ t → actual_tensor_id_ s !! r = None ∧ fuel ≠ 0%nat)) as [Hr Hroot].
  { unfold r, FindSharedTensor. destruct (actual_tensor_id_ s !! t) as [r'|] eqn:Hm; simpl; [|done].
    destruct (Ho _ _ Hm) as [? ?]. split; [done|]. intros _. split; [done|]. destruct Hfuel as [Hf|[? _]]; [|done].
    intros ->. assert (base.size (actual_tensor_id_ s) = 0)%nat as Hz by lia. apply map_size_empty_iff in Hz.
    by rewrite Hz in Hm. }
  apply (wp_vget _ no_tensor); [lia|]. wp_steps. apply (wp_vget _ no_tensor); [lia|].
  destruct (Z.eqb_spec r t) as [_|Hne]; simpl; [by apply safe_resolve_own|]. case_match; [|by apply safe_resolve_own].
  wp_steps. apply wp_ignore_status. destruct (Hroot Hne) as [Hn Hf].
  eapply wp_mono; [apply IH; [done|done|by right]|..]; simpl; [intros _|]; intros s' [Hs' [ts ->]].
  all: wp_steps; apply (wp_vget _ no_tensor); [simpl; pose proof (rn_tensors _ _ _ _ _ Hs') as L; simpl in L; lia|].
  all: eapply wp_mono; [by apply safe_write_data|..]; simpl; [intros _|]; intros s'' [Hs'' [ts' ->]]; (split; [done|by exists ts']).
Qed.

Lemma safe_ResolveTensorAllocation t : 0 ≤ t < Z.of_nat n → safe_data (ResolveTensorAllocation t).
Proof. intros Ht s Hs. unfold ResolveTensorAllocation. apply wp_bind, wp_gets, safe_resolve_tensor; [done|done|left; lia]. Qed.

Lemma safe_resolve_all l s : running len n np true s → (∀ t, t ∈ l → 0 ≤ t < Z.of_nat n) →
  wp (for_each l ResolveTensorAllocation) (λ _ s', running len n np true s' ∧ ∃ ts, s' = set_tensors ts s) (running len n np true) s.
Proof.
  intros Hs Hl. apply (wp_for_each (λ _ s', running len n np true s' ∧ ∃ ts, s' = set_tensors ts s)); [by apply data_refl|].
  intros done t todo s' -> [Hs' [ts ->]]. eapply wp_mono; [apply safe_ResolveTensorAllocation; [apply Hl; set_solver|done]|..]; simpl.
  - intros _ s'' [Hs'' [ts' ->]]. split; [done|by exists ts'].
  - by intros s'' [? _].
Qed.

(** ** The operations *)

Lemma running_weaken b s : running len n np b s → running len n np false s.
Proof. by intros [? ? ? ?]. Qed.

Lemma resize_list_length {A} m (x : A) l : (length l ≤ m)%nat → length (resize_list m x l) = m.
Proof. intros Hl. unfold resize_list. rewrite length_app, length_take, length_replicate. lia. Qed.

(** A call on any interval of nodes, whatever memory the platform grants. *)
Lemma ExecuteAllocations_safe g preserve al first last s :
  num_execution_nodes g = len → (∀ k t, temp_of g k t → 0 ≤ t < Z.of_nat n) → 0 ≤ first → last < Z.max len 1 →
  running len n np false s →
  wp (ExecuteAllocations g preserve al first last)
    (λ _ s', running len n np false s' ∧ HasNonPersistentMemory s' = true) (running len n np false) s.
Proof.
  intros Hg Htemp Hf Hl Hs. pose proof Hs as [[H1' H2' H3' L1 L2 L3 Hq Hqd Ho] L4 _ Hmem]. unfold ExecuteAllocations. wp_steps.
  apply wp_ensure; [intros _|by intros _]. wp_steps. set (s1 := set_allocs _ _).
  assert (running len n np true s1) as Hs1.
  { split; [split|..]; simpl; rewrite ?L4, ?resize_list_length by lia; try done. by apply planner_memory_same with s. }
  eapply wp_mono; [apply safe_for_each; [|exact Hs1]| |apply running_weaken].
  { intros i Hi%elem_of_range. apply safe_plan_temporaries; [done|apply Htemp|]. split; [|lia].
    unfold u64 in Hi. pose proof (Z.mod_pos_bound first (2 ^ 64)). lia. }
  intros [] s2 Hs2. wp_steps. eapply wp_mono; [by apply CalculateAllocations_safe| |apply running_weaken].
  intros ta s3 [Hs3 Hta]. wp_steps. eapply wp_mono; [by apply PlannerCommit_safe| |apply running_weaken].
  intros moved s4 [Hs4 Hnp].
  assert (∀ l, (∀ t, t ∈ l → 0 ≤ t < Z.of_nat n) → wp (for_each l ResolveTensorAllocation)
    (λ _ s', running len n np false s' ∧ HasNonPersistentMemory s' = true) (running len n np false) s4) as Hend.
  { intros l Hin. eapply wp_mono; [by apply safe_resolve_all| |apply running_weaken].
    intros [] s5 [Hs5 [ts ->]]. split; [by eapply running_weaken|done]. }
  destruct moved; apply Hend; [|done]. intros t Ht%elem_of_range. lia.
Qed.

(** A planner that is cleared keeps its buffers. *)
Lemma ResetAllocations_safe s : running len n np false s →
  wp ResetAllocations (λ _ s', running len n np false s') (λ _, False) s.
Proof.
  intros [[Hm H2' H3' L1 L2 L3 Hq Hqd Ho] L4 _ Hnp]. unfold ResetAllocations, with_arena, with_persistent_arena, ClearPlan.
  wp_steps. apply wp_zoom. wp_steps. apply wp_zoom. wp_steps. split; [split|..]; simpl; try done.
  - by apply planner_memory_same with s.
  - rewrite length_replicate. lia.
Qed.

Lemma ResetAllocationsAfter_safe node s : running len n np false s →
  wp (ResetAllocationsAfter node) (λ _ s', running len n np false s') (λ _, False) s.
Proof.
  intros Hs. pose proof (sy_allocs _ _ _ (rn_steady _ _ _ _ _ Hs)) as Hle. unfold ResetAllocationsAfter. wp_steps.
  eapply wp_post with (Q := λ _ s', running len n np false s').
  - intros [] s1 Hs1. wp_steps. pose proof (rn_steady _ _ _ _ _ Hs1) as [Hm Hk _ _ _ _ _ _ _].
    destruct (_ >? _); wp_steps; apply (running_flags false node); by apply running_arena.
  - eapply wp_post; [|apply (wp_for_each (λ _ s', running len n np false s' ∧
      length (allocs_ s') = length (allocs_ s)))]; [by intros [] s' [? _]|done|].
    intros done i todo s' Hr [Hs' Hlen]. assert (i ∈ range 0 (zlen (allocs_ s))) as Hi by (rewrite Hr; set_solver).
    apply elem_of_range in Hi. pose proof (rn_tensors _ _ _ _ _ Hs') as L4.
    wp_steps. apply (wp_vget _ reset_alloc); [lia|]. destruct (_ && _); [|by wp_steps]. wp_steps.
    apply (wp_vget _ no_tensor); [lia|]. case_decide; [|by wp_steps]. wp_steps. apply wp_vset; [lia|]. wp_steps. unfold write_data.
    wp_steps. apply (wp_vget _ no_tensor); [simpl; lia|]. apply wp_vset; [simpl; lia|]. split; [|simpl; by rewrite zset_length].
    apply running_tensors; [by apply running_allocs|by rewrite zset_length].
Qed.
End safety.

Lemma running_released len n np b s : running len n np b s → running len n false b s.
Proof. by intros [? ? ? ?]. Qed.

Lemma ReleaseNonPersistentMemory_safe `{Platform} `{StdSort} `{UnorderedOrder} len n np s : running len n np false s →
  wp ReleaseNonPersistentMemory (λ _, running len n false false) (λ _, False) s.
Proof.
  intros Hs%running_released. unfold ReleaseNonPersistentMemory. wp_steps. eapply wp_post; [|apply ReleaseBuffer_spec, Hs].
  intros [] s1 (h & ar & -> & Hm & Hk). wp_steps. set (s1 := set_has_nonpersistent _ _).
  assert (running len n false false s1) as Hs1.
  { apply (running_memory _ _ _ _ _ _ Hs); unfold s1; try done; simpl; [by eapply planner_memory_same; [exact Hm|..]|rewrite Hk; apply Hs|apply Hs]. }
  clearbody s1. unfold for_each_rw_tensor. wp_steps.
  apply (wp_for_each (λ _, running len n false false)); [done|]. intros done i todo s' Hr Hs'.
  assert (i ∈ range 0 (zlen (tensors s1))) as Hi by (rewrite Hr; set_solver). apply elem_of_range in Hi.
  pose proof (rn_tensors _ _ _ _ _ Hs1) as L1. pose proof (rn_tensors _ _ _ _ _ Hs') as L4.
  wp_steps. apply (wp_vget _ no_tensor); [lia|]. case_decide; [|by wp_steps]. unfold write_data. wp_steps.
  apply (wp_vget _ no_tensor); [lia|]. apply wp_vset; [lia|]. apply running_tensors; [done|by rewrite zset_length].
Qed.

(** A planner that has just planned a graph, from any state of its arenas. *)
Lemma PlanAllocations_safe `{Platform} `{StdSort} `{UnorderedOrder} g n preserve s :
  plannable_graph g (Z.of_nat n) → length (tensors s) = n → planner_memory_ok s →
  wp (PlanAllocations g preserve) (λ _, running (num_execution_nodes g) n false false) (λ _, False) s.
Proof.
  intros Hg Hn Hm. eapply wp_post; [|by apply PlanAllocations_spec]. intros [] s' Hp.
  pose proof Hp as [P1 P2 P3 P4 P5 P6 [Z1 Z2 Z3 Z4] P8 _ _ _ _ Pq _]. split; [split|..]; rewrite ?P2, ?P3, ?P5, ?P6, ?length_replicate; unfold num_execution_nodes; try lia; try done.
  - by apply planner_memory_same with s; [|rewrite ?P1, ?P5, ?P6..].
  - intros k t [[_ Ht]|Ht]%Pq; [|by eapply vg_out]. apply (vg_kept _ _ Hg). unfold kept. in_list.
  - by eapply sharing_owner_map.
Qed.
