(* ===== verification/GraphPartition.v ===== *)
(** * Partitioning a graph ([src/tflite/graph_info.{h,cc}])

    [PartitionGraphIntoIndependentNodeSubsets] splits the nodes of a graph into
    subsets that can be run one after the other, each of them made only of nodes
    a delegate takes or only of the others. *)

From S2P Require Import Prelude.

(** ** Data *)

Definition kTfLiteOptionalTensor : Z := -1.

Record Node := {
  inputs : list Z;
  outputs : list Z;
  might_have_side_effect : bool
}.

Record GraphInfo := {
  num_tensors : Z;
  num_total_nodes : Z;
  (** the nodes of the execution plan, and their indices among all nodes *)
  execution_nodes : list Node;
  node_index : list Z;
  graph_outputs : list Z
}.

Definition num_execution_nodes (info : GraphInfo) : Z := zlen (execution_nodes info).

Inductive NodeSubsetType := kTfUnexplored | kTfPartition | kTfNonPartition.

#[export] Instance node_subset_type_eq_dec : EqDecision NodeSubsetType.
Proof. solve_decision. Defined.

Record NodeSubset := {
  type : NodeSubsetType;
  nodes : list Z;
  input_tensors : list Z;
  output_tensors : list Z
}.

Definition empty_subset : NodeSubset :=
  {| type := kTfUnexplored; nodes := []; input_tensors := []; output_tensors := [] |}.

Abbreviation ControlEdge := (Z * Z)%type.

(** The order of [std::pair]. *)
Definition edge_lt (a b : ControlEdge) : bool :=
  (a.1 <? b.1) || ((a.1 =? b.1) && (a.2 <? b.2)).

(** [std::unique]: drops the elements equal to the one before. *)
Fixpoint unique {A} `{EqDecision A} (l : list A) : list A :=
  match l with
  | x :: (y :: _) as l' => if decide (x = y) then unique l' else x :: unique l'
  | _ => l
  end.

Definition Uniquefy `{StdSort} {A} `{EqDecision A} (lt : A → A → bool) (items : list A) : list A :=
  unique (std_sort lt items).

Definition kEpochNotReady : Z := -1.
Definition kEpochAlwaysReady : Z := -2.

(** The members of the partitioner that change. *)
Record Partitioner := {
  node_subsets_ : list NodeSubset;
  tensor_epochs_ : list Z;
  node_epochs_ : list Z;
  num_incoming_control_edges_ : list Z
}.

Definition set_subsets v s := {| node_subsets_ := v; tensor_epochs_ := tensor_epochs_ s;
  node_epochs_ := node_epochs_ s; num_incoming_control_edges_ := num_incoming_control_edges_ s |}.
Definition set_tensor_epochs v s := {| node_subsets_ := node_subsets_ s; tensor_epochs_ := v;
  node_epochs_ := node_epochs_ s; num_incoming_control_edges_ := num_incoming_control_edges_ s |}.
Definition set_node_epochs v s := {| node_subsets_ := node_subsets_ s;
  tensor_epochs_ := tensor_epochs_ s; node_epochs_ := v;
  num_incoming_control_edges_ := num_incoming_control_edges_ s |}.
Definition set_num_incoming v s := {| node_subsets_ := node_subsets_ s;
  tensor_epochs_ := tensor_epochs_ s; node_epochs_ := node_epochs_ s;
  num_incoming_control_edges_ := v |}.

(** Changing the subset at an index. *)
Definition update_subset (k : Z) (f : NodeSubset → NodeSubset) : M Partitioner unit :=
  sub ← vget node_subsets_ k; vset node_subsets_ set_subsets k (f sub).

Definition set_type t (b : NodeSubset) := {| type := t; nodes := nodes b;
  input_tensors := input_tensors b; output_tensors := output_tensors b |}.
Definition push_node x (b : NodeSubset) := {| type := type b; nodes := nodes b ++ [x];
  input_tensors := input_tensors b; output_tensors := output_tensors b |}.
Definition push_input x (b : NodeSubset) := {| type := type b; nodes := nodes b;
  input_tensors := input_tensors b ++ [x]; output_tensors := output_tensors b |}.
Definition push_output x (b : NodeSubset) := {| type := type b; nodes := nodes b;
  input_tensors := input_tensors b; output_tensors := output_tensors b ++ [x] |}.

(** ** The partitioner *)

Section partitioner.
Context `{StdSort}.
Context (info_ : GraphInfo) (node_type_ : list NodeSubsetType) (greedily_ : bool).
Context (control_edges_ : list ControlEdge) (disable_node_fusion_ : bool).

(** The loop over the inputs of a node that are not ready. *)
Fixpoint inputs_ready (ids : list Z) : M Partitioner bool :=
  match ids with
  | [] => mret true
  | t :: ids' =>
      if t =? kTfLiteOptionalTensor then inputs_ready ids'
      else
        e ← vget tensor_epochs_ t;
        if e =? kEpochNotReady then mret false else inputs_ready ids'
  end.

(** The three loops at the end of [UpdateNode]. *)
Definition assign_output (current_epoch t : Z) : M Partitioner unit :=
  if t =? kTfLiteOptionalTensor then mret ()
  else vset tensor_epochs_ set_tensor_epochs t current_epoch.

Definition note_input (current_epoch t : Z) : M Partitioner unit :=
  if t =? kTfLiteOptionalTensor then mret ()
  else
    input_epoch ← vget tensor_epochs_ t;
    if negb (input_epoch =? current_epoch) then
      update_subset current_epoch (push_input t) ;;
      if 0 <=? input_epoch then update_subset input_epoch (push_output t) else mret ()
    else mret ().

Definition release_edge (edge : ControlEdge) : M Partitioner unit :=
  c ← vget num_incoming_control_edges_ edge.2;
  vset num_incoming_control_edges_ set_num_incoming edge.2 (c - 1).

Definition outgoing_edges (i : Z) : list ControlEdge :=
  take_while (λ e, e.1 =? i) (lower_bound edge_lt control_edges_ (i, 0)).

Definition UpdateNode (i : Z) : M Partitioner bool :=
  node ← deref (zget (execution_nodes info_) i);
  subsets ← gets node_subsets_;
  let current_epoch := zlen subsets - 1 in
  current_subset ← vget node_subsets_ current_epoch;
  if disable_node_fusion_ && bool_decide (nodes current_subset ≠ []) then mret false
  else
    epoch ← vget node_epochs_ i;
    if negb (epoch =? kEpochNotReady) then mret false
    else
      ready ← inputs_ready (inputs node);
      if negb ready then mret false
      else
        incoming ← vget num_incoming_control_edges_ i;
        if negb (incoming =? 0) then mret false
        else
          original_node_idx ← deref (zget (node_index info_) i);
          node_type ← deref (zget node_type_ original_node_idx);
          (if decide (type current_subset = kTfUnexplored)
           then update_subset current_epoch (set_type node_type) else mret ()) ;;
          current_subset ← vget node_subsets_ current_epoch;
          if decide (type current_subset = node_type) then
            vset node_epochs_ set_node_epochs i current_epoch ;;
            update_subset current_epoch (push_node original_node_idx) ;;
            for_each (outputs node) (assign_output current_epoch) ;;
            for_each (inputs node) (note_input current_epoch) ;;
            for_each (outgoing_edges i) release_edge ;;
            mret true
          else mret false.

(** How the [for] loop of [BuildNodeSubset] ends: by [return], or at its end with
    the value of [did_something]. *)
Inductive scan_result := Returned | Finished (did_something : bool).

Fixpoint scan_nodes (ids : list Z) (did_something : bool) : M Partitioner scan_result :=
  match ids with
  | [] => mret (Finished did_something)
  | i :: ids' =>
      updated ← UpdateNode i;
      if updated : bool then scan_nodes ids' true
      else if did_something && negb greedily_ then mret Returned
      else scan_nodes ids' did_something
  end.

(** The [while] loop; every round but the last schedules a node. *)
Fixpoint build_rounds (fuel : nat) : M Partitioner unit :=
  match fuel with
  | O => undefined
  | S fuel =>
      r ← scan_nodes (range 0 (num_execution_nodes info_)) false;
      match r with
      | Returned => mret ()
      | Finished did_something => if did_something then build_rounds fuel else mret ()
      end
  end.

Definition BuildNodeSubset : M Partitioner unit :=
  modify (λ s, set_subsets (node_subsets_ s ++ [empty_subset]) s) ;;
  build_rounds (S (length (execution_nodes info_))).

(** The [while] loop of [Partition]; every round but the last schedules a node. *)
Fixpoint partition_rounds (fuel : nat) : M Partitioner unit :=
  match fuel with
  | O => undefined
  | S fuel =>
      BuildNodeSubset ;;
      subsets ← gets node_subsets_;
      back ← deref (zget subsets (zlen subsets - 1));
      if decide (nodes back = []) then
        modify (set_subsets (take (length subsets - 1) subsets))
      else partition_rounds fuel
  end.

Definition initial_edge_count (edge : ControlEdge) : M Partitioner unit :=
  c ← vget num_incoming_control_edges_ edge.2;
  vset num_incoming_control_edges_ set_num_incoming edge.2 (c + 1).

Definition mark_outputs (node : Node) : M Partitioner unit :=
  for_each (outputs node) (assign_output kEpochNotReady).

Definition mark_graph_output (output_index : Z) : M Partitioner unit :=
  output_epoch ← vget tensor_epochs_ output_index;
  if output_epoch =? kEpochAlwaysReady then mret ()
  else
    subsets ← gets node_subsets_;
    ensure (negb ((output_epoch <? 0) || (zlen subsets <=? output_epoch))) ;;
    update_subset output_epoch (push_output output_index).

Definition uniquefy_subset (b : NodeSubset) : NodeSubset :=
  {| type := type b; nodes := nodes b;
     input_tensors := Uniquefy Z.ltb (input_tensors b);
     output_tensors := Uniquefy Z.ltb (output_tensors b) |}.

Definition Partition : M Partitioner unit :=
  let n := length (execution_nodes info_) in
  put {| node_subsets_ := [];
         tensor_epochs_ := replicate (Z.to_nat (num_tensors info_)) kEpochAlwaysReady;
         node_epochs_ := replicate n kEpochNotReady;
         num_incoming_control_edges_ := replicate n 0 |} ;;
  for_each control_edges_ initial_edge_count ;;
  for_each (execution_nodes info_) mark_outputs ;;
  partition_rounds (S n) ;;
  epochs ← gets node_epochs_;
  ensure (negb (existsb (λ e, e =? kEpochNotReady) epochs)) ;;
  for_each (graph_outputs info_) mark_graph_output ;;
  modify (λ s, set_subsets (uniquefy_subset <$> node_subsets_ s) s).
End partitioner.

(** ** The entry point *)

Definition IsValidIndex (index size : Z) : bool := (0 <=? index) && (index <? size).

Definition ValidateNodesToPartition (info : GraphInfo) (nodes_to_partition : list Z) : bool :=
  forallb (λ i, IsValidIndex i (num_total_nodes info)) nodes_to_partition.

Definition ValidateControlEdges (info : GraphInfo) (control_edges : list ControlEdge) : bool :=
  forallb (λ e, IsValidIndex e.1 (num_execution_nodes info) &&
                IsValidIndex e.2 (num_execution_nodes info)) control_edges.

(** A dependency chain between the nodes with side effects. *)
Fixpoint side_effect_chain (last_op_with_side_effect i : Z) (ns : list Node) : list ControlEdge :=
  match ns with
  | [] => []
  | node :: ns' =>
      if might_have_side_effect node then
        (if negb (last_op_with_side_effect =? -1) then [(last_op_with_side_effect, i)] else [])
        ++ side_effect_chain i (i + 1) ns'
      else side_effect_chain last_op_with_side_effect (i + 1) ns'
  end.

Definition default_control_edges (info : GraphInfo) (greedily : bool) : list ControlEdge :=
  if greedily then side_effect_chain (-1) 0 (execution_nodes info) else [].

(** [node_type_] as the constructor fills it. *)
Definition populate_node_types (info : GraphInfo) (nodes_to_partition : list Z) :
    list NodeSubsetType :=
  foldl (λ types i, zset i kTfPartition types)
    (replicate (Z.to_nat (num_total_nodes info)) kTfNonPartition) nodes_to_partition.

Definition PartitionGraphIntoIndependentNodeSubsets `{StdSort} (info : GraphInfo)
    (nodes_to_partition : list Z) (greedily : bool) (control_edges : option (list ControlEdge))
    (disable_node_fusion : bool) : M Partitioner unit :=
  ensure (ValidateNodesToPartition info nodes_to_partition) ;;
  let control_edges := default (default_control_edges info greedily) control_edges in
  ensure (ValidateControlEdges info control_edges) ;;
  Partition info (populate_node_types info nodes_to_partition) greedily
    (Uniquefy edge_lt control_edges) disable_node_fusion.
