(* ===== verification/PartitionProofs.v ===== *)
(** * Correctness of the graph partitioner *)

From S2P Require Import Prelude GraphPartition.

(** ** Sorted lists without duplicates *)

Lemma unique_cons {A} `{EqDecision A} (x y : A) l :
  unique (x :: y :: l) = if decide (x = y) then unique (y :: l) else x :: unique (y :: l).
Proof. done. Qed.

Lemma unique_elem {A} `{EqDecision A} (l : list A) x : x ∈ unique l ↔ x ∈ l.
Proof.
  induction l as [|y l IH]; [done|]. destruct l as [|z l]; [done|].
  cbn [unique]. destruct (decide (y = z)) as [->|]; rewrite ?elem_of_cons, IH, ?elem_of_cons; tauto.
Qed.

Lemma unique_sorted {A} `{EqDecision A} (lt : A → A → bool) (l : list A) :
  strict_weak lt → (∀ x y, lt x y = false → lt y x = false → x = y) →
  sorted_by lt l → StronglySorted (λ x y, lt x y = true) (unique l).
Proof.
  intros Hsw Htotal. induction 1 as [|x l Hl IH Hx]; [constructor|].
  destruct l as [|y l]; [repeat constructor|]. rewrite unique_cons.
  destruct (decide (x = y)) as [->|Hne]; [done|]. constructor; [done|].
  rewrite Forall_forall. intros z Hz. rewrite unique_elem in Hz.
  rewrite Forall_forall in Hx. destruct (lt x z) eqn:Hxz; [done|].
  assert (z = x) as -> by (apply Htotal; [by apply Hx|done]).
  inversion Hl as [|? ? _ Hy]; subst. rewrite Forall_forall in Hy.
  apply elem_of_cons in Hz as [->|Hz]; [done|].
  exfalso. apply Hne, Htotal; [by apply Hy|apply Hx; by left].
Qed.

Section uniquefy.
Context `{StdSort}.

Lemma Uniquefy_elem {A} `{EqDecision A} lt (l : list A) x :
  strict_weak lt → x ∈ Uniquefy lt l ↔ x ∈ l.
Proof. intros Hlt. unfold Uniquefy. by rewrite unique_elem, std_sort_perm. Qed.

Lemma Uniquefy_sorted {A} `{EqDecision A} lt (l : list A) :
  strict_weak lt → (∀ x y, lt x y = false → lt y x = false → x = y) →
  StronglySorted (λ x y, lt x y = true) (Uniquefy lt l).
Proof. intros Hlt Ht. apply unique_sorted; [done..|]. by apply std_sort_sorted. Qed.
End uniquefy.

Lemma edge_lt_spec a b : edge_lt a b = true ↔ a.1 < b.1 ∨ (a.1 = b.1 ∧ a.2 < b.2).
Proof. unfold edge_lt. rewrite orb_true_iff, andb_true_iff, !Z.ltb_lt, Z.eqb_eq. done. Qed.

Lemma edge_lt_false a b : edge_lt a b = false ↔ b.1 < a.1 ∨ (a.1 = b.1 ∧ b.2 ≤ a.2).
Proof. rewrite <- not_true_iff_false, edge_lt_spec. lia. Qed.

Lemma edge_lt_strict_weak : strict_weak edge_lt.
Proof.
  split; intros *; rewrite ?edge_lt_spec, ?edge_lt_false; lia.
Qed.

Lemma edge_lt_total a b : edge_lt a b = false → edge_lt b a = false → a = b.
Proof.
  rewrite !edge_lt_false. destruct a, b; simpl. intros. f_equal; lia.
Qed.

Lemma sorted_edges_first l x y :
  Forall (λ z, edge_lt x z = true) l → y ∈ l → x.1 ≤ y.1.
Proof.
  rewrite Forall_forall. intros Hx Hy. specialize (Hx _ Hy). simpl in Hx.
  apply edge_lt_spec in Hx. lia.
Qed.

Lemma take_while_filter i l :
  StronglySorted (λ x y, edge_lt x y = true) l → (∀ y, y ∈ l → i ≤ y.1) →
  take_while (λ e, e.1 =? i) l = filter (λ e : ControlEdge, e.1 = i) l.
Proof.
  induction 1 as [|x l Hl IH Hx]; intros Hge; [done|]. rewrite filter_cons. cbn [take_while].
  assert (i ≤ x.1) by (apply Hge; by left).
  destruct (Z.eqb_spec x.1 i).
  - rewrite decide_True by done. f_equal. apply IH. intros y ?. apply Hge. by right.
  - rewrite decide_False by done. symmetry. apply filter_none. intros y Hy.
    pose proof (sorted_edges_first _ _ _ Hx Hy). lia.
Qed.

(** The edges that leave a node, in a sorted list. *)
Lemma outgoing_edges_spec edges i :
  StronglySorted (λ x y, edge_lt x y = true) edges → (∀ e, e ∈ edges → 0 ≤ e.2) →
  outgoing_edges edges i = filter (λ e, e.1 = i) edges.
Proof.
  intros Hs Hpos. unfold outgoing_edges. induction Hs as [|x l Hl IH Hx]; [done|].
  cbn [lower_bound]. assert (0 ≤ x.2) by (apply Hpos; by left).
  destruct (edge_lt x (i, 0)) eqn:Hlt.
  - apply edge_lt_spec in Hlt. simpl in Hlt. rewrite filter_cons, decide_False by lia.
    apply IH. intros e ?. apply Hpos. by right.
  - apply edge_lt_false in Hlt. simpl in Hlt. apply take_while_filter; [by constructor|].
    intros y [->|Hy]%elem_of_cons; [lia|]. pose proof (sorted_edges_first _ _ _ Hx Hy). lia.
Qed.

(** ** The invariant of the partitioner *)

Definition no_node : Node := {| inputs := []; outputs := []; might_have_side_effect := false |}.

Section partition.
Context `{StdSort}.
Context (info : GraphInfo) (types : list NodeSubsetType) (greedily : bool).
Context (edges : list ControlEdge) (disable_fusion : bool).

Abbreviation n := (num_execution_nodes info).

(** Node [i] reads, writes tensor [t]; its index among all nodes and its type. *)
Definition reads (i t : Z) : Prop := t ∈ inputs (vat no_node (execution_nodes info) i) ∧ t ≠ -1.
Definition writes (i t : Z) : Prop := t ∈ outputs (vat no_node (execution_nodes info) i) ∧ t ≠ -1.
Definition original (i : Z) : Z := vat (-1) (node_index info) i.
Definition type_of (i : Z) : NodeSubsetType := vat kTfUnexplored types (original i).

(** Indices are in range, a tensor has one producer, and the control edges are
    sorted. *)
Record well_formed : Prop := {
  wf_reads i t : reads i t → 0 ≤ t < num_tensors info;
  wf_writes i t : writes i t → 0 ≤ t < num_tensors info;
  wf_producer i j t : writes i t → writes j t → i = j;
  wf_index : length (node_index info) = length (execution_nodes info);
  wf_original i : 0 ≤ i < n → 0 ≤ original i < zlen types;
  wf_types ty : ty ∈ types → ty ≠ kTfUnexplored;
  wf_edges e : e ∈ edges → 0 ≤ e.1 < n ∧ 0 ≤ e.2 < n;
  wf_sorted : StronglySorted (λ x y, edge_lt x y = true) edges;
  wf_outputs t : t ∈ graph_outputs info → 0 ≤ t < num_tensors info
}.

Hypothesis Hwf : well_formed.

Lemma writes_range i t : writes i t → 0 ≤ i < n.
Proof.
  intros [Hin _]. unfold vat in Hin. destruct (zget _ i) as [node|] eqn:Hi; [|by apply elem_of_nil in Hin].
  by apply zget_range in Hi.
Qed.

Lemma type_of_explored i : 0 ≤ i < n → type_of i ≠ kTfUnexplored.
Proof.
  intros Hi. apply (wf_types Hwf). pose proof (wf_original Hwf i Hi) as Ho.
  apply (vat_zget kTfUnexplored) in Ho. by eapply zget_elem.
Qed.

(** Everything node [i] waits for is in [done]. *)
Definition ready (done : list Z) (i : Z) : Prop :=
  (∀ t j, reads i t → writes j t → j ∈ done) ∧ (∀ e, e ∈ edges → e.2 = i → e.1 ∈ done).

Definition node_epoch (s : Partitioner) (i : Z) : Z := vat kEpochNotReady (node_epochs_ s) i.
Definition tensor_epoch (s : Partitioner) (t : Z) : Z := vat kEpochAlwaysReady (tensor_epochs_ s) t.

(** The edges into [i] from nodes outside [done]. *)
Definition waiting (done : list Z) (i : Z) : Z :=
  zlen (filter (λ e : ControlEdge, e.2 = i ∧ e.1 ∉ done) edges).

(** Subset [k] is made of the nodes [grp]. *)
Record subset_inv (s : Partitioner) (gs : list (list Z)) (k : nat) (grp : list Z) (b : NodeSubset) : Prop := {
  si_nodes : nodes b = original <$> grp;
  si_type i : i ∈ grp → type_of i = type b;
  si_empty : grp = [] → type b = kTfUnexplored;
  si_inputs t : t ∈ input_tensors b ↔
    (∃ i, i ∈ grp ∧ reads i t) ∧ tensor_epoch s t ≠ Z.of_nat k;
  si_outputs t : t ∈ output_tensors b ↔
    tensor_epoch s t = Z.of_nat k ∧
    ∃ k' grp' i, gs !! k' = Some grp' ∧ k' ≠ k ∧ i ∈ grp' ∧ reads i t
}.

(** [gs] are the nodes of the subsets, in the order they were scheduled. *)
Record inv (gs : list (list Z)) (s : Partitioner) : Prop := {
  iv_length : length (node_subsets_ s) = length gs;
  iv_subset k grp b : gs !! k = Some grp → node_subsets_ s !! k = Some b → subset_inv s gs k grp b;
  iv_nodup : NoDup (concat gs);
  iv_range i : i ∈ concat gs → 0 ≤ i < n;
  iv_epochs : zlen (node_epochs_ s) = n;
  iv_epoch k grp i : gs !! k = Some grp → i ∈ grp → node_epoch s i = Z.of_nat k;
  iv_unscheduled i : i ∉ concat gs → node_epoch s i = kEpochNotReady;
  iv_tensors : zlen (tensor_epochs_ s) = Z.max 0 (num_tensors info);
  iv_written i t : writes i t → tensor_epoch s t = node_epoch s i;
  iv_constant t : (∀ i, ¬ writes i t) → tensor_epoch s t = kEpochAlwaysReady;
  iv_counts : zlen (num_incoming_control_edges_ s) = n;
  iv_waiting i : 0 ≤ i < n → vat 0 (num_incoming_control_edges_ s) i = waiting (concat gs) i;
  iv_order pre i post : concat gs = pre ++ i :: post → ready pre i
}.

Lemma elem_of_groups (gs : list (list Z)) i :
  i ∈ concat gs ↔ ∃ k grp, gs !! k = Some grp ∧ i ∈ grp.
Proof.
  rewrite list_elem_of_In, in_concat. split.
  - intros (grp & Hg & Hi). rewrite <- list_elem_of_In in Hg. rewrite <- list_elem_of_In in Hi.
    apply list_elem_of_lookup in Hg as [k Hk]. by exists k, grp.
  - intros (k & grp & Hk & Hi). exists grp. rewrite <- !list_elem_of_In. split; [|done].
    by eapply list_elem_of_lookup_2.
Qed.

Lemma node_epoch_cases gs s i : inv gs s →
  ((i ∉ concat gs) ∧ node_epoch s i = kEpochNotReady) ∨
  (∃ k grp, gs !! k = Some grp ∧ i ∈ grp ∧ node_epoch s i = Z.of_nat k).
Proof.
  intros Hs. destruct (decide (i ∈ concat gs)) as [Hi|Hi].
  - right. apply elem_of_groups in Hi as (k & grp & Hk & Hi). exists k, grp.
    split_and!; [done..|by eapply iv_epoch].
  - left. split; [done|by eapply iv_unscheduled].
Qed.

Lemma scheduled_iff gs s i : inv gs s → i ∈ concat gs ↔ node_epoch s i ≠ kEpochNotReady.
Proof.
  intros Hs. unfold kEpochNotReady.
  destruct (node_epoch_cases gs s i Hs) as [[Hi He]|(k & grp & Hk & Hi & He)]; rewrite He.
  - unfold kEpochNotReady. split; [done|lia].
  - split; [lia|]. intros _. apply elem_of_groups. eauto.
Qed.

(** A scheduled node reads tensors whose producers are scheduled. *)
Lemma scheduled_ready gs s i : inv gs s → i ∈ concat gs → ready (concat gs) i.
Proof.
  intros Hs Hi. apply list_elem_of_split in Hi as (pre & post & Heq).
  destruct (iv_order _ _ Hs _ _ _ Heq) as [Hr He]. rewrite Heq.
  split; [intros t j Hrt Hw|intros e Hin Hei]; apply elem_of_app; left; eauto.
Qed.

Lemma waiting_zero done i : waiting done i = 0 ↔ ∀ e, e ∈ edges → e.2 = i → e.1 ∈ done.
Proof.
  unfold waiting. split.
  - intros Hz e He Hei. destruct (decide (e.1 ∈ done)) as [|Hn]; [done|].
    assert (e ∈ filter (λ e : ControlEdge, e.2 = i ∧ e.1 ∉ done) edges) as Hin.
    { by apply list_elem_of_filter. }
    destruct (filter _ edges); [by apply elem_of_nil in Hin|simpl in Hz; lia].
  - intros He. rewrite filter_none; [done|]. intros e Hin [Hei Hn]. by apply Hn, He.
Qed.

Lemma inputs_ready_spec gs s ids :
  inv gs s → (∀ t, t ∈ ids → t ≠ -1 → 0 ≤ t < num_tensors info) →
  wp (inputs_ready ids)
    (λ b s', s' = s ∧ (b = true ↔ ∀ t j, t ∈ ids → t ≠ -1 → writes j t → j ∈ concat gs))
    (λ _, False) s.
Proof.
  intros Hs. induction ids as [|t ids IH]; intros Hr; cbn [inputs_ready].
  { wp_steps. split; [done|]. split; [|done]. intros _ t j Ht. by apply elem_of_nil in Ht. }
  unfold kTfLiteOptionalTensor. destruct (Z.eqb_spec t (-1)) as [->|Hne].
  { eapply wp_mono; [apply IH; intros; apply Hr; in_list| |done]. intros b s' [-> Hb].
    split; [done|]. rewrite Hb. split; intros Hall t j Ht Hne; apply Hall; try done; [|in_list].
    by apply elem_of_cons in Ht as [->|?]. }
  assert (0 ≤ t < num_tensors info) by (apply Hr; [in_list|done]).
  wp_steps. apply (wp_vget _ kEpochAlwaysReady); [rewrite (iv_tensors _ _ Hs); lia|].
  fold (tensor_epoch s t). destruct (Z.eqb_spec (tensor_epoch s t) kEpochNotReady) as [He|He].
  - wp_steps. split; [done|]. split; [done|]. intros Hall. exfalso.
    assert (¬ ∀ i, ¬ writes i t) as Hw.
    { intros Hno. rewrite (iv_constant _ _ Hs t Hno) in He. done. }
    apply Hw. intros j Hj. rewrite (iv_written _ _ Hs _ _ Hj) in He.
    assert (j ∈ concat gs) as Hin by (apply (Hall t j); [in_list|done..]).
    by apply (scheduled_iff _ _ _ Hs) in Hin.
  - eapply wp_mono; [apply IH; intros; apply Hr; in_list| |done]. intros b s' [-> Hb].
    split; [done|]. rewrite Hb. split; intros Hall t' j Ht' Hne' Hw; [|apply (Hall t'); [in_list|done..]].
    apply elem_of_cons in Ht' as [->|Ht']; [|by apply (Hall t')].
    apply (scheduled_iff _ _ _ Hs). by rewrite <- (iv_written _ _ Hs _ _ Hw).
Qed.

(** ** The loops of [UpdateNode] *)

Lemma assign_outputs_spec c ids s :
  (∀ t, t ∈ ids → t ≠ -1 → 0 ≤ t < zlen (tensor_epochs_ s)) →
  wp (for_each ids (assign_output c))
    (λ _ s', s' = set_tensor_epochs (tensor_epochs_ s') s ∧
       length (tensor_epochs_ s') = length (tensor_epochs_ s) ∧
       ∀ t, (t ∈ ids ∧ t ≠ -1 → tensor_epoch s' t = c) ∧
            (¬ (t ∈ ids ∧ t ≠ -1) → tensor_epoch s' t = tensor_epoch s t))
    (λ _, False) s.
Proof.
  intros Hr. apply (wp_for_each (λ done s', s' = set_tensor_epochs (tensor_epochs_ s') s ∧
    length (tensor_epochs_ s') = length (tensor_epochs_ s) ∧
    ∀ t, (t ∈ done ∧ t ≠ -1 → tensor_epoch s' t = c) ∧
         (¬ (t ∈ done ∧ t ≠ -1) → tensor_epoch s' t = tensor_epoch s t))).
  { split; [by destruct s|]. split; [done|]. intros t. rewrite elem_of_nil. split; [tauto|done]. }
  intros done t todo s' -> (Hs & Hl & He). unfold assign_output, kTfLiteOptionalTensor.
  destruct (Z.eqb_spec t (-1)) as [->|Hne].
  - wp_steps. split; [done|]. split; [done|]. intros x. rewrite elem_of_app, list_elem_of_singleton.
    split; intros Hx; apply He; [|by intros [? ?]; apply Hx; auto]. destruct Hx as [[?| ->] ?]; done.
  - apply wp_vset; [rewrite Hl; apply Hr; [in_list|done]|]. split; [by rewrite Hs|].
    split; [simpl; by rewrite zset_length|]. intros x. rewrite elem_of_app, list_elem_of_singleton.
    unfold tensor_epoch at 1 2. simpl. assert (0 ≤ t < zlen (tensor_epochs_ s')).
    { rewrite Hl. apply Hr; [in_list|done]. }
    destruct (decide (x = t)) as [->|Hx].
    + rewrite vat_zset_eq by done. split; [done|]. intros Hn. exfalso. apply Hn. auto.
    + rewrite vat_zset_ne by (lia || done). fold (tensor_epoch s' x).
      split; intros Hx'; apply He; tauto.
Qed.

(** The subset [b] with the inputs and outputs that node inputs [ids] add. *)
Record noted (s : Partitioner) (c : Z) (ids : list Z) (k : nat) (b b' : NodeSubset) : Prop := {
  nt_type : type b' = type b;
  nt_nodes : nodes b' = nodes b;
  nt_inputs t : t ∈ input_tensors b' ↔ t ∈ input_tensors b ∨
    (Z.of_nat k = c ∧ t ∈ ids ∧ t ≠ -1 ∧ tensor_epoch s t ≠ c);
  nt_outputs t : t ∈ output_tensors b' ↔ t ∈ output_tensors b ∨
    (t ∈ ids ∧ t ≠ -1 ∧ tensor_epoch s t = Z.of_nat k ∧ Z.of_nat k ≠ c)
}.

Lemma wp_update_subset k f Q s :
  0 ≤ k < zlen (node_subsets_ s) →
  (∀ b, node_subsets_ s !! Z.to_nat k = Some b →
     Q () (set_subsets (<[Z.to_nat k := f b]> (node_subsets_ s)) s)) →
  wp (update_subset k f) Q (λ _, False) s.
Proof.
  intros Hk HQ. unfold update_subset. wp_steps. apply (wp_vget _ empty_subset); [done|].
  apply wp_vset; [done|]. apply HQ. by apply (vat_zget empty_subset), zget_Some in Hk as [_ ?].
Qed.

(** An input that is absent, or that the current subset produces, adds nothing. *)
Lemma noted_skip s c done t k b b' :
  noted s c done k b b' → t = -1 ∨ tensor_epoch s t = c → noted s c (done ++ [t]) k b b'.
Proof.
  intros [Ety Eno Ein Eout] Ht. split; try done; intros x; [rewrite Ein|rewrite Eout];
    rewrite elem_of_app, list_elem_of_singleton; split; try tauto.
  - intros [?|(? & [?| ->] & ? & ?)]; [tauto..|]. by destruct Ht.
  - intros [?|([?| ->] & ? & ? & ?)]; [tauto..|]. destruct Ht; congruence.
Qed.

(** The effect of one other input [t] on the subsets. *)
Definition note_one (s : Partitioner) (c t : Z) (subs subs' : list NodeSubset) : Prop :=
  ∀ k b', subs' !! k = Some b' → ∃ b1, subs !! k = Some b1 ∧
    type b' = type b1 ∧ nodes b' = nodes b1 ∧
    (∀ x, x ∈ input_tensors b' ↔ x ∈ input_tensors b1 ∨ (Z.of_nat k = c ∧ x = t)) ∧
    (∀ x, x ∈ output_tensors b' ↔ x ∈ output_tensors b1 ∨ (Z.of_nat k = tensor_epoch s t ∧ x = t)).

Lemma noted_snoc s c done t k b b1 b' :
  noted s c done k b b1 → t ≠ -1 → tensor_epoch s t ≠ c →
  type b' = type b1 → nodes b' = nodes b1 →
  (∀ x, x ∈ input_tensors b' ↔ x ∈ input_tensors b1 ∨ (Z.of_nat k = c ∧ x = t)) →
  (∀ x, x ∈ output_tensors b' ↔ x ∈ output_tensors b1 ∨ (Z.of_nat k = tensor_epoch s t ∧ x = t)) →
  noted s c (done ++ [t]) k b b'.
Proof.
  intros [Ety Eno Ein Eout] Hne He Hty Hno Hin Hout.
  split; [congruence|congruence|..]; intros x; [rewrite Hin, Ein|rewrite Hout, Eout];
    rewrite elem_of_app, list_elem_of_singleton.
  - split; [intros [?|[? ->]]; tauto|tauto].
  - split; [intros [?|[Hk1' ->]]|intros [?|([?| ->] & ? & ? & ?)]]; [tauto| |tauto..|].
    + right. split_and!; [by right|done|done|congruence].
    + by right.
Qed.

(** [push_input] and [push_output] at an index. *)
Lemma push_input_lookup (subs : list NodeSubset) c t bc k b' :
  0 ≤ c → subs !! Z.to_nat c = Some bc → <[Z.to_nat c := push_input t bc]> subs !! k = Some b' →
  ∃ b1, subs !! k = Some b1 ∧ type b' = type b1 ∧ nodes b' = nodes b1 ∧
    (∀ x, x ∈ input_tensors b' ↔ x ∈ input_tensors b1 ∨ (Z.of_nat k = c ∧ x = t)) ∧
    output_tensors b' = output_tensors b1.
Proof.
  intros Hc Hbc [(<- & <- & _)|[Hk Hk']]%list_lookup_insert_Some.
  - exists bc. split_and!; try done. intros x. simpl. rewrite elem_of_app, list_elem_of_singleton.
    rewrite Z2Nat.id by lia. naive_solver.
  - exists b'. split_and!; try done. intros x. split; [by left|]. intros [?|[? _]]; [done|lia].
Qed.

Lemma push_output_lookup (subs : list NodeSubset) c t bc k b' :
  0 ≤ c → subs !! Z.to_nat c = Some bc → <[Z.to_nat c := push_output t bc]> subs !! k = Some b' →
  ∃ b1, subs !! k = Some b1 ∧ type b' = type b1 ∧ nodes b' = nodes b1 ∧
    input_tensors b' = input_tensors b1 ∧
    (∀ x, x ∈ output_tensors b' ↔ x ∈ output_tensors b1 ∨ (Z.of_nat k = c ∧ x = t)).
Proof.
  intros Hc Hbc [(<- & <- & _)|[Hk Hk']]%list_lookup_insert_Some.
  - exists bc. split_and!; try done. intros x. simpl. rewrite elem_of_app, list_elem_of_singleton.
    rewrite Z2Nat.id by lia. naive_solver.
  - exists b'. split_and!; try done. intros x. split; [by left|]. intros [?|[? _]]; [done|lia].
Qed.

Lemma note_input_one c t s :
  0 ≤ c < zlen (node_subsets_ s) → t ≠ -1 → tensor_epoch s t ≠ c →
  0 ≤ t < zlen (tensor_epochs_ s) → tensor_epoch s t < zlen (node_subsets_ s) →
  wp (note_input c t)
    (λ _ s', s' = set_subsets (node_subsets_ s') s ∧
       length (node_subsets_ s') = length (node_subsets_ s) ∧
       note_one s c t (node_subsets_ s) (node_subsets_ s'))
    (λ _, False) s.
Proof.
  intros Hc Hne He Ht1 Ht2. unfold note_input, kTfLiteOptionalTensor. rewrite (proj2 (Z.eqb_neq t (-1))) by done.
  wp_steps. apply (wp_vget _ kEpochAlwaysReady); [done|]. fold (tensor_epoch s t).
  rewrite (proj2 (Z.eqb_neq _ c)) by done. simpl. wp_steps. apply wp_update_subset; [done|]. intros bc Hbc.
  pose proof (λ k b', push_input_lookup _ c t bc k b' (proj1 Hc) Hbc) as Hpush.
  destruct (Z.leb_spec 0 (tensor_epoch s t)) as [Hpos|Hneg]; wp_steps.
  - apply wp_update_subset; [simpl; rewrite length_insert; lia|]. simpl. intros be Hbe.
    split; [done|]. split; [simpl; by rewrite !length_insert|]. intros k b' Hk.
    destruct (push_output_lookup _ _ _ _ _ _ Hpos Hbe Hk) as (b1 & (b2 & ? & ? & ? & Ein & Eout)%Hpush & ? & ? & Ein' & Eout').
    exists b2. split_and!; [done|congruence..| |]; intros x; [by rewrite Ein', Ein|by rewrite Eout', Eout].
  - split; [done|]. split; [simpl; by rewrite length_insert|]. intros k b' Hk.
    destruct (Hpush _ _ Hk) as (b1 & ? & ? & ? & ? & Eout). exists b1. split_and!; try done.
    intros x. rewrite Eout. split; [by left|]. intros [?|[? _]]; [done|lia].
Qed.

Lemma note_input_skip c t s (Q : unit → Partitioner → Prop) :
  t = -1 ∨ (0 ≤ t < zlen (tensor_epochs_ s) ∧ tensor_epoch s t = c) → Q () s →
  wp (note_input c t) Q (λ _, False) s.
Proof.
  intros Ht HQ. unfold note_input, kTfLiteOptionalTensor.
  destruct (Z.eqb_spec t (-1)) as [->|Hne]; [by wp_steps|]. destruct Ht as [|[Ht He]]; [done|].
  wp_steps. apply (wp_vget _ kEpochAlwaysReady); [done|]. fold (tensor_epoch s t).
  rewrite He, Z.eqb_refl. simpl. by wp_steps.
Qed.

Lemma note_inputs_spec c ids s :
  0 ≤ c < zlen (node_subsets_ s) →
  (∀ t, t ∈ ids → t ≠ -1 → 0 ≤ t < zlen (tensor_epochs_ s) ∧ tensor_epoch s t < zlen (node_subsets_ s)) →
  wp (for_each ids (note_input c))
    (λ _ s', s' = set_subsets (node_subsets_ s') s ∧
       length (node_subsets_ s') = length (node_subsets_ s) ∧
       ∀ k b', node_subsets_ s' !! k = Some b' → ∃ b, node_subsets_ s !! k = Some b ∧ noted s c ids k b b')
    (λ _, False) s.
Proof.
  intros Hc Hr. apply (wp_for_each (λ done s', s' = set_subsets (node_subsets_ s') s ∧
    length (node_subsets_ s') = length (node_subsets_ s) ∧
    ∀ k b', node_subsets_ s' !! k = Some b' → ∃ b, node_subsets_ s !! k = Some b ∧ noted s c done k b b')).
  { split; [by destruct s|]. split; [done|]. intros k b' Hb. exists b'. split; [done|].
    split; try done; intros t; rewrite elem_of_nil; tauto. }
  intros done t todo s' -> (Hs & Hl & Hb).
  assert (tensor_epochs_ s' = tensor_epochs_ s) as Hte by by rewrite Hs.
  assert (tensor_epoch s' t = tensor_epoch s t) as Hts by by unfold tensor_epoch; rewrite Hte.
  destruct (decide (t = -1 ∨ tensor_epoch s t = c)) as [Hskip|Hno].
  - apply note_input_skip.
    { destruct (decide (t = -1)); [by left|right]. rewrite Hte, Hts. split; [apply Hr; [in_list|done]|tauto]. }
    split; [done|]. split; [done|]. intros k b' Hk. destruct (Hb k b' Hk) as (b & Hkb & Hn).
    exists b. split; [done|]. by apply noted_skip.
  - destruct (Hr t) as [Ht1 Ht2]; [in_list|tauto|]. eapply wp_mono; [apply note_input_one; rewrite ?Hl, ?Hte, ?Hts; tauto| |done].
    intros _ s'' (Hs'' & Hl'' & Hone). split; [by rewrite Hs'', Hs|]. split; [congruence|]. intros k b' Hk.
    destruct (Hone k b' Hk) as (b1 & Hk1 & Ety & Eno & Ein & Eout). destruct (Hb k b1 Hk1) as (b & Hkb & Hn).
    exists b. split; [done|]. rewrite Hts in Eout. apply (noted_snoc _ _ _ _ _ _ b1); tauto.
Qed.

Lemma release_edges_spec es s :
  (∀ e, e ∈ es → 0 ≤ e.2 < zlen (num_incoming_control_edges_ s)) →
  wp (for_each es release_edge)
    (λ _ s', s' = set_num_incoming (num_incoming_control_edges_ s') s ∧
       length (num_incoming_control_edges_ s') = length (num_incoming_control_edges_ s) ∧
       ∀ i, vat 0 (num_incoming_control_edges_ s') i =
            vat 0 (num_incoming_control_edges_ s) i - zlen (filter (λ e : ControlEdge, e.2 = i) es))
    (λ _, False) s.
Proof.
  intros Hr. apply (wp_for_each (λ done s', s' = set_num_incoming (num_incoming_control_edges_ s') s ∧
    length (num_incoming_control_edges_ s') = length (num_incoming_control_edges_ s) ∧
    ∀ i, vat 0 (num_incoming_control_edges_ s') i =
         vat 0 (num_incoming_control_edges_ s) i - zlen (filter (λ e : ControlEdge, e.2 = i) done))).
  { split; [by destruct s|]. split; [done|]. intros i. simpl. lia. }
  intros done e todo s' -> (Hs & Hl & Hc). assert (0 ≤ e.2 < zlen (num_incoming_control_edges_ s')).
  { rewrite Hl. apply Hr. in_list. }
  unfold release_edge. wp_steps. apply (wp_vget _ 0); [done|]. apply wp_vset; [done|].
  split; [by rewrite Hs|]. split; [simpl; by rewrite zset_length|]. intros i. simpl.
  rewrite filter_app, length_app, filter_cons, filter_nil, Nat2Z.inj_add.
  destruct (decide (e.2 = i)) as [<-|Hi].
  - rewrite vat_zset_eq, Hc by done. simpl. lia.
  - rewrite vat_zset_ne, Hc by (lia || done). simpl. lia.
Qed.

(** Releasing the edges of [i] is what adding [i] to the scheduled nodes does. *)
Lemma waiting_snoc done i x :
  i ∉ done → waiting (done ++ [i]) x =
    waiting done x - zlen (filter (λ e : ControlEdge, e.2 = x) (filter (λ e, e.1 = i) edges)).
Proof.
  intros Hi. unfold waiting. induction edges as [|e es IH]; [done|].
  rewrite !filter_cons.
  assert ((e.1 ∉ done ++ [i]) ↔ (e.1 ∉ done) ∧ e.1 ≠ i) as Hn.
  { rewrite elem_of_app, list_elem_of_singleton. tauto. }
  destruct (decide (e.1 = i)) as [He|He].
  - rewrite (decide_False (P := e.2 = x ∧ e.1 ∉ done ++ [i])) by tauto. rewrite filter_cons.
    destruct (decide (e.2 = x)).
    + rewrite (decide_True (P := e.2 = x ∧ e.1 ∉ done)) by by rewrite He. simpl. lia.
    + rewrite (decide_False (P := e.2 = x ∧ e.1 ∉ done)) by tauto. done.
  - destruct (decide (e.2 = x ∧ e.1 ∉ done)).
    + rewrite decide_True by tauto. simpl. lia.
    + rewrite decide_False by tauto. done.
Qed.

(** ** Scheduling a node *)

Lemma concat_snoc_snoc (gs : list (list Z)) grp i :
  concat (gs ++ [grp ++ [i]]) = concat (gs ++ [grp]) ++ [i].
Proof. rewrite !concat_app. simpl. by rewrite !app_nil_r, app_assoc. Qed.

Lemma snoc_split {A} (l pre post : list A) x y :
  l ++ [x] = pre ++ y :: post → (pre = l ∧ y = x) ∨ ∃ post', l = pre ++ y :: post'.
Proof.
  induction post as [|z post IH] using rev_ind; intros Heq.
  - apply app_inj_tail in Heq as [-> ->]. by left.
  - right. exists post. rewrite app_comm_cons, app_assoc in Heq. by apply app_inj_tail in Heq as [-> _].
Qed.

Lemma tensor_epoch_bound gs s t :
  inv gs s → tensor_epoch s t < Z.of_nat (length gs).
Proof.
  intros Hs. destruct (decide (tensor_epoch s t < Z.of_nat (length gs))) as [|Hge]; [done|exfalso].
  assert (¬ ∀ j, ¬ writes j t) as Hw.
  { intros Hno. rewrite (iv_constant _ _ Hs t Hno) in Hge. unfold kEpochAlwaysReady in Hge. lia. }
  apply Hw. intros j Hj. rewrite (iv_written _ _ Hs _ _ Hj) in Hge.
  destruct (node_epoch_cases gs s j Hs) as [[_ He]|(k & grp & Hk & _ & He)]; rewrite He in Hge.
  - unfold kEpochNotReady in Hge. lia.
  - apply lookup_lt_Some in Hk. lia.
Qed.

(** What scheduling [i] in the last group does to the state [s]. *)
Record scheduled (gs : list (list Z)) (i : Z) (b : NodeSubset) (s s' : Partitioner) : Prop := {
  sc_length : length (node_subsets_ s') = length (node_subsets_ s);
  sc_subsets k b' : node_subsets_ s' !! k = Some b' → ∃ b1,
     (if decide (k = length gs) then Some (push_node (original i) (set_type (type_of i) b))
      else node_subsets_ s !! k) = Some b1 ∧
     noted s' (Z.of_nat (length gs)) (inputs (vat no_node (execution_nodes info) i)) k b1 b';
  sc_node_epochs : node_epochs_ s' = zset i (Z.of_nat (length gs)) (node_epochs_ s);
  sc_tensors : length (tensor_epochs_ s') = length (tensor_epochs_ s);
  sc_tensor_epochs t : (writes i t → tensor_epoch s' t = Z.of_nat (length gs)) ∧
     (¬ writes i t → tensor_epoch s' t = tensor_epoch s t);
  sc_counts : length (num_incoming_control_edges_ s') = length (num_incoming_control_edges_ s);
  sc_waiting x : vat 0 (num_incoming_control_edges_ s') x = vat 0 (num_incoming_control_edges_ s) x -
     zlen (filter (λ e : ControlEdge, e.2 = x) (filter (λ e, e.1 = i) edges))
}.

(** The groups after [i] joined the last one. *)
Definition joined (gs : list (list Z)) (i : Z) (k : nat) (grp : list Z) : list Z :=
  if decide (k = length gs) then grp ++ [i] else grp.

Lemma joined_lookup gs grp i k grp' :
  (gs ++ [grp ++ [i]]) !! k = Some grp' ↔
  ∃ grp0, (gs ++ [grp]) !! k = Some grp0 ∧ grp' = joined gs i k grp0.
Proof.
  unfold joined. destruct (decide (k = length gs)) as [->|Hne].
  - rewrite !lookup_app_r, !Nat.sub_diag by done. simpl. naive_solver.
  - destruct (decide (k < length gs)%nat).
    + rewrite !lookup_app_l by done. naive_solver.
    + rewrite !lookup_ge_None_2 by (rewrite length_app; simpl; lia). naive_solver.
Qed.

Section scheduling.
Context (gs : list (list Z)) (grp : list Z) (i : Z) (b : NodeSubset) (s s' : Partitioner).
Hypothesis Hs : inv (gs ++ [grp]) s.
Hypothesis Hi : 0 ≤ i < n.
Hypothesis Hun : i ∉ concat (gs ++ [grp]).
Hypothesis Hb : node_subsets_ s !! length gs = Some b.
Hypothesis Hty : grp = [] ∨ type b = type_of i.
Hypothesis Hst : scheduled gs i b s s'.

Lemma scheduled_epoch x :
  node_epoch s' x = if decide (x = i) then Z.of_nat (length gs) else node_epoch s x.
Proof.
  pose proof (iv_epochs _ _ Hs) as Hel. unfold node_epoch. rewrite (sc_node_epochs _ _ _ _ _ Hst).
  case_decide as Hx; [subst x; apply vat_zset_eq; lia|apply vat_zset_ne; [lia|done]].
Qed.

(** The tensors that scheduled nodes read keep their epochs. *)
Lemma scheduled_reads k grp0 x t :
  (gs ++ [grp]) !! k = Some grp0 → x ∈ grp0 → reads x t → tensor_epoch s' t = tensor_epoch s t.
Proof.
  intros Hk Hx Hr. assert (x ∈ concat (gs ++ [grp])) as Hin by (apply elem_of_groups; eauto).
  apply (sc_tensor_epochs _ _ _ _ _ Hst). intros Hw. apply Hun.
  by apply (scheduled_ready _ _ _ Hs Hin) with (t := t).
Qed.

(** The subset [b1] that the notes start from, and the subset [b0] before. *)
Lemma scheduled_old k grp0 b1 :
  (gs ++ [grp]) !! k = Some grp0 →
  (if decide (k = length gs) then Some (push_node (original i) (set_type (type_of i) b))
   else node_subsets_ s !! k) = Some b1 →
  ∃ b0, node_subsets_ s !! k = Some b0 ∧ input_tensors b1 = input_tensors b0 ∧
    output_tensors b1 = output_tensors b0 ∧ nodes b1 = original <$> joined gs i k grp0 ∧
    (∀ x, x ∈ joined gs i k grp0 → type_of x = type b1) ∧
    (joined gs i k grp0 = [] → type b1 = kTfUnexplored).
Proof.
  unfold joined. intros Hk Hb1. destruct (decide (k = length gs)) as [->|Hne].
  - injection Hb1 as <-. exists b. destruct (iv_subset _ _ Hs _ _ _ Hk Hb) as [S1 S2 S3 S4 S5].
    split_and!; try done.
    + simpl. by rewrite S1, fmap_app.
    + simpl. intros x [Hx| ->%list_elem_of_singleton]%elem_of_app; [|done].
      rewrite lookup_app_r, Nat.sub_diag in Hk by done. injection Hk as <-.
      destruct Hty as [->|<-]; [by apply elem_of_nil in Hx|by apply S2].
    + intros Hnil. by apply app_nil in Hnil as [_ ?].
  - exists b1. destruct (iv_subset _ _ Hs _ _ _ Hk Hb1) as [S1 S2 S3 S4 S5]. by split_and!.
Qed.

(** The inputs of a subset after the notes of [i]. *)
Lemma scheduled_inputs k grp0 b0 t :
  (gs ++ [grp]) !! k = Some grp0 → subset_inv s (gs ++ [grp]) k grp0 b0 →
  t ∈ input_tensors b0 ∨ (Z.of_nat k = Z.of_nat (length gs) ∧
    t ∈ inputs (vat no_node (execution_nodes info) i) ∧ t ≠ -1 ∧ tensor_epoch s' t ≠ Z.of_nat (length gs)) ↔
  (∃ x, x ∈ joined gs i k grp0 ∧ reads x t) ∧ tensor_epoch s' t ≠ Z.of_nat k.
Proof.
  intros Hk Hb0. rewrite (si_inputs _ _ _ _ _ Hb0). unfold joined.
  pose proof (λ x, scheduled_reads k grp0 x t Hk) as Hte.
  destruct (decide (k = length gs)) as [->|Hne]; split.
  - intros [[(x & Hx & Hr) He]|(_ & Ht & Htn & He)].
    + rewrite (Hte x) by eauto. split; [|done]. exists x. split; [in_list|done].
    + split; [|done]. exists i. split; [in_list|done].
  - intros [(x & [Hx| ->%list_elem_of_singleton]%elem_of_app & Hr) He].
    + left. rewrite (Hte x) in He by eauto. eauto.
    + right. split_and!; [done|apply Hr|apply Hr|done].
  - intros [[(x & Hx & Hr) He]|(? & _)]; [|lia]. rewrite (Hte x) by eauto. eauto.
  - intros [(x & Hx & Hr) He]. left. rewrite (Hte x) in He by eauto. eauto.
Qed.

(** The outputs of a subset after the notes of [i]. *)
Lemma scheduled_outputs k grp0 b0 t :
  subset_inv s (gs ++ [grp]) k grp0 b0 →
  t ∈ output_tensors b0 ∨ (t ∈ inputs (vat no_node (execution_nodes info) i) ∧ t ≠ -1 ∧
    tensor_epoch s' t = Z.of_nat k ∧ Z.of_nat k ≠ Z.of_nat (length gs)) ↔
  tensor_epoch s' t = Z.of_nat k ∧
    ∃ k' grp' x, (gs ++ [grp ++ [i]]) !! k' = Some grp' ∧ k' ≠ k ∧ x ∈ grp' ∧ reads x t.
Proof.
  intros Hb0. rewrite (si_outputs _ _ _ _ _ Hb0). split.
  - intros [(He & k' & grp1 & x & Hk1 & Hkk & Hx & Hr)|(Ht & Htn & He & Hkc)].
    + rewrite (scheduled_reads k' grp1 x t) by done. split; [done|].
      exists k', (joined gs i k' grp1), x. split_and!; [apply joined_lookup; eauto|done| |done].
      unfold joined. case_decide; [apply elem_of_app; by left|done].
    + split; [done|]. exists (length gs), (grp ++ [i]), i. split_and!; [|lia|in_list|done].
      by rewrite lookup_app_r, Nat.sub_diag by done.
  - intros (He & k' & grp' & x & (grp1 & Hk1 & ->)%joined_lookup & Hkk & Hx & Hr).
    destruct (decide (x ∈ grp1)) as [Hx1|Hx1].
    + left. rewrite (scheduled_reads k' grp1 x t) in He by done. split; [done|]. by exists k', grp1, x.
    + right. unfold joined in Hx. case_decide as Hkg; [|done].
      apply elem_of_app in Hx as [?| ->%list_elem_of_singleton]; [done|].
      split_and!; [apply Hr|apply Hr|done|lia].
Qed.

Lemma scheduled_subset k grp' b' :
  (gs ++ [grp ++ [i]]) !! k = Some grp' → node_subsets_ s' !! k = Some b' →
  subset_inv s' (gs ++ [grp ++ [i]]) k grp' b'.
Proof.
  intros (grp0 & Hk & ->)%joined_lookup Hk'.
  destruct (sc_subsets _ _ _ _ _ Hst _ _ Hk') as (b1 & Hb1 & [Nty Nno Nin Nout]).
  destruct (scheduled_old _ _ _ Hk Hb1) as (b0 & Hb0 & Ein & Eout & Eno & Ety & Eem).
  pose proof (iv_subset _ _ Hs _ _ _ Hk Hb0) as Hsub.
  split; rewrite ?Nno, ?Nty; try done; intros t.
  - rewrite Nin, Ein. by apply scheduled_inputs.
  - rewrite Nout, Eout. by apply (scheduled_outputs k grp0).
Qed.

(** The state after scheduling [i] in the last group. *)
Lemma scheduled_inv : ready (concat (gs ++ [grp])) i → inv (gs ++ [grp ++ [i]]) s'.
Proof.
  intros Hready. pose proof scheduled_epoch as Hep. split.
  - rewrite (sc_length _ _ _ _ _ Hst), (iv_length _ _ Hs), !length_app. done.
  - apply scheduled_subset.
  - rewrite concat_snoc_snoc. apply NoDup_app. split_and!; [apply Hs| |apply NoDup_singleton].
    by intros x Hx ->%list_elem_of_singleton.
  - intros x. rewrite concat_snoc_snoc. intros [Hx| ->%list_elem_of_singleton]%elem_of_app; [|done].
    by apply (iv_range _ _ Hs).
  - rewrite (sc_node_epochs _ _ _ _ _ Hst), zset_length. apply Hs.
  - intros k grp' x (grp0 & Hk & ->)%joined_lookup Hx. unfold joined in Hx. rewrite Hep.
    destruct (decide (x = i)) as [->|Hxi].
    + case_decide as Hkg; [by subst|]. exfalso. apply Hun, elem_of_groups. eauto.
    + apply (iv_epoch _ _ Hs k grp0); [done|]. case_decide; [|done].
      by apply elem_of_app in Hx as [?|?%list_elem_of_singleton].
  - intros x. rewrite concat_snoc_snoc, elem_of_app, list_elem_of_singleton. intros Hx.
    rewrite Hep, decide_False by (intros ->; apply Hx; by right). apply (iv_unscheduled _ _ Hs).
    intros ?. apply Hx. by left.
  - rewrite (sc_tensors _ _ _ _ _ Hst). apply Hs.
  - intros j t Hj. rewrite Hep. destruct (sc_tensor_epochs _ _ _ _ _ Hst t) as [Hw Hno].
    case_decide as Hji; [subst; by apply Hw|]. rewrite Hno; [by apply (iv_written _ _ Hs)|].
    intros Hwi. by rewrite (wf_producer Hwf _ _ _ Hj Hwi) in Hji.
  - intros t Hno. destruct (sc_tensor_epochs _ _ _ _ _ Hst t) as [_ ->]; [|by apply Hno].
    by apply (iv_constant _ _ Hs).
  - rewrite (sc_counts _ _ _ _ _ Hst). apply Hs.
  - intros x Hx. rewrite (sc_waiting _ _ _ _ _ Hst), concat_snoc_snoc, (waiting_snoc _ _ _ Hun).
    by rewrite (iv_waiting _ _ Hs).
  - intros pre x post. rewrite concat_snoc_snoc. intros [[-> ->]|[post' Heq]]%snoc_split; [done|].
    by apply (iv_order _ _ Hs _ _ post').
Qed.
End scheduling.

(** ** [UpdateNode] *)

(** Why [UpdateNode] refuses node [i] for the current group [grp] after [gs]. *)
Definition blocked (gs : list (list Z)) (grp : list Z) (i : Z) : Prop :=
  (disable_fusion = true ∧ grp ≠ []) ∨ i ∈ concat (gs ++ [grp]) ∨
  ¬ ready (concat (gs ++ [grp])) i ∨ ∃ j, j ∈ grp ∧ type_of j ≠ type_of i.

Lemma schedule_spec gs grp i b s s1 :
  inv (gs ++ [grp]) s → 0 ≤ i < n → i ∉ concat (gs ++ [grp]) → ready (concat (gs ++ [grp])) i →
  node_subsets_ s !! length gs = Some b → (grp = [] ∨ type b = type_of i) →
  s1 = set_subsets (<[length gs := set_type (type_of i) b]> (node_subsets_ s)) s →
  wp (vset node_epochs_ set_node_epochs i (zlen gs) ;;
      update_subset (zlen gs) (push_node (original i)) ;;
      for_each (outputs (vat no_node (execution_nodes info) i)) (assign_output (zlen gs)) ;;
      for_each (inputs (vat no_node (execution_nodes info) i)) (note_input (zlen gs)) ;;
      for_each (outgoing_edges edges i) release_edge ;;
      mret true)
    (λ r s', r = true ∧ inv (gs ++ [grp ++ [i]]) s') (λ _, False) s1.
Proof.
  intros Hs Hi Hun Hready Hb Hty Hs1. set (node := vat no_node _ i).
  pose proof (iv_length _ _ Hs) as Hlen. rewrite length_app in Hlen. simpl in Hlen.
  assert (node_epochs_ s1 = node_epochs_ s ∧ tensor_epochs_ s1 = tensor_epochs_ s ∧
    num_incoming_control_edges_ s1 = num_incoming_control_edges_ s) as (E1 & E2 & E3) by by rewrite Hs1.
  assert (length (node_subsets_ s1) = length (node_subsets_ s)) as E4.
  { rewrite Hs1. simpl. by rewrite length_insert. }
  wp_steps. apply wp_vset; [rewrite E1, (iv_epochs _ _ Hs); lia|]. wp_steps.
  apply wp_update_subset; [simpl; lia|]. simpl. rewrite Nat2Z.id. intros b1 Hb1. wp_steps.
  rewrite Hs1 in Hb1. simpl in Hb1. rewrite list_lookup_insert_eq in Hb1 by lia. injection Hb1 as <-.
  set (s3 := set_subsets _ _).
  eapply wp_mono; [apply assign_outputs_spec| |done].
  { intros t Ht Hne. simpl. rewrite E2, (iv_tensors _ _ Hs).
    pose proof (wf_writes Hwf i t (conj Ht Hne)). lia. }
  simpl. intros _ s4 (Hs4 & Hl4 & He4). simpl in Hl4.
  assert (∀ t, tensor_epoch s3 t = tensor_epoch s t) as Hte3.
  { intros t. unfold tensor_epoch, s3. simpl. by rewrite E2. }
  assert (length (node_subsets_ s4) = length (node_subsets_ s)) as Hl4'.
  { rewrite Hs4. simpl. by rewrite length_insert. }
  wp_steps. eapply wp_mono; [apply note_inputs_spec| |done].
  { rewrite Hl4'. lia. }
  { intros t Ht Hne. pose proof (wf_reads Hwf i t (conj Ht Hne)). rewrite Hl4, E2, (iv_tensors _ _ Hs).
    split; [lia|]. rewrite Hl4', (iv_length _ _ Hs).
    destruct (decide (t ∈ outputs node ∧ t ≠ -1)) as [Hw|Hw].
    - rewrite (proj1 (He4 t) Hw), length_app. simpl. lia.
    - rewrite (proj2 (He4 t) Hw), Hte3. by apply tensor_epoch_bound. }
  simpl. intros _ s5 (Hs5 & Hl5 & Hsub5). wp_steps. eapply wp_mono; [apply release_edges_spec| |done].
  { rewrite (outgoing_edges_spec edges); [|apply (wf_sorted Hwf)|intros e He; apply (wf_edges Hwf e He)].
    intros e [_ He]%list_elem_of_filter. rewrite Hs5, Hs4. simpl. rewrite E3, (iv_counts _ _ Hs).
    by apply (wf_edges Hwf). }
  simpl. intros _ s6 (Hs6 & Hl6 & Hc6). wp_steps. split; [done|].
  rewrite (outgoing_edges_spec edges) in Hc6; [|apply (wf_sorted Hwf)|intros e He; apply (wf_edges Hwf e He)].
  assert (tensor_epochs_ s6 = tensor_epochs_ s4) as E64 by by rewrite Hs6, Hs5.
  apply (scheduled_inv gs grp i b s s6); try done. split; try done.
  - rewrite Hs6. simpl. by rewrite Hl5.
  - intros k b'. assert (node_subsets_ s6 = node_subsets_ s5) as -> by by rewrite Hs6.
    intros Hk. destruct (Hsub5 k b' Hk) as (b2 & Hk2 & []).
    assert (∀ t, tensor_epoch s6 t = tensor_epoch s4 t) as Hte6.
    { intros t. unfold tensor_epoch. by rewrite E64. }
    exists b2. split.
    + rewrite <- Hk2, Hs4. simpl. rewrite Hs1. simpl. case_decide as Hkg.
      * subst k. by rewrite list_lookup_insert_eq by (rewrite length_insert; lia).
      * by rewrite !list_lookup_insert_ne by done.
    + split; try done; intros t; rewrite Hte6; auto.
  - rewrite Hs6. simpl. rewrite Hs5. simpl. rewrite Hs4. simpl. by rewrite E1.
  - by rewrite E64, Hl4, E2.
  - intros t. unfold tensor_epoch at 1 2. rewrite E64. fold (tensor_epoch s4 t). rewrite <- Hte3. apply He4.
  - rewrite Hl6, Hs5. simpl. rewrite Hs4. simpl. by rewrite E3.
  - intros x. rewrite Hc6, Hs5. simpl. rewrite Hs4. simpl. by rewrite E3.
Qed.

(** The current subset is the last one, that of [grp]. *)
Lemma current_subset gs grp s :
  inv (gs ++ [grp]) s →
  let b := vat empty_subset (node_subsets_ s) (zlen gs) in
  zlen (node_subsets_ s) - 1 = zlen gs ∧ node_subsets_ s !! length gs = Some b ∧
  subset_inv s (gs ++ [grp]) (length gs) grp b.
Proof.
  intros Hs b. pose proof (iv_length _ _ Hs) as Hlen. rewrite length_app in Hlen. simpl in Hlen.
  assert (node_subsets_ s !! length gs = Some b) as Hb.
  { assert (0 ≤ zlen gs < zlen (node_subsets_ s)) as Hr by lia.
    apply (vat_zget empty_subset), zget_Some in Hr as [_ Hr]. by rewrite Nat2Z.id in Hr. }
  split_and!; [lia|done|]. apply (iv_subset _ _ Hs); [by rewrite lookup_app_r, Nat.sub_diag|done].
Qed.

(** Only the subset without nodes has no type yet. *)
Lemma unexplored_empty gs grp s b :
  inv (gs ++ [grp]) s → subset_inv s (gs ++ [grp]) (length gs) grp b →
  type b = kTfUnexplored → grp = [].
Proof.
  intros Hs Hb Hex. destruct grp as [|j grp]; [done|]. exfalso. apply (type_of_explored j).
  - apply (iv_range _ _ Hs), elem_of_groups. exists (length gs), (j :: grp). split; [|by left].
    by rewrite lookup_app_r, Nat.sub_diag.
  - rewrite (si_type _ _ _ _ _ Hb) by by left. done.
Qed.

(** Giving a subset the type it has changes nothing. *)
Lemma set_type_same (gs : list (list Z)) b s :
  node_subsets_ s !! length gs = Some b →
  set_subsets (<[length gs := set_type (type b) b]> (node_subsets_ s)) s = s.
Proof.
  intros Hb. assert (set_type (type b) b = b) as -> by by destruct b.
  rewrite list_insert_id by done. by destruct s.
Qed.

(** The end of [UpdateNode]: the type of the subset decides. *)
Lemma extend_spec gs grp i s b :
  inv (gs ++ [grp]) s → 0 ≤ i < n → i ∉ concat (gs ++ [grp]) → ready (concat (gs ++ [grp])) i →
  b = vat empty_subset (node_subsets_ s) (zlen gs) →
  (disable_fusion = true ∧ grp ≠ [] → False) →
  wp ((if decide (type b = kTfUnexplored)
       then update_subset (zlen gs) (set_type (type_of i)) else mret ()) ;;
      current_subset ← vget node_subsets_ (zlen gs);
      if decide (type current_subset = type_of i) then
        vset node_epochs_ set_node_epochs i (zlen gs) ;;
        update_subset (zlen gs) (push_node (original i)) ;;
        for_each (outputs (vat no_node (execution_nodes info) i)) (assign_output (zlen gs)) ;;
        for_each (inputs (vat no_node (execution_nodes info) i)) (note_input (zlen gs)) ;;
        for_each (outgoing_edges edges i) release_edge ;;
        mret true
      else mret false)
    (λ r s', if r : bool then inv (gs ++ [grp ++ [i]]) s' ∧ ¬ blocked gs grp i
             else s' = s ∧ blocked gs grp i)
    (λ _, False) s.
Proof.
  intros Hs Hi Hun Hready -> Hfuse. destruct (current_subset gs grp s Hs) as (Hlen & Hb & Hsub).
  set (b := vat empty_subset _ _) in *. set (s1 := set_subsets (<[length gs := set_type (type_of i) b]> (node_subsets_ s)) s).
  assert (0 ≤ zlen gs < zlen (node_subsets_ s)) as Hr by lia.
  assert (¬ (∃ j, j ∈ grp ∧ type_of j ≠ type_of i) → ¬ blocked gs grp i) as Hfree.
  { intros Hno [?|[?|[?|?]]]; [by apply Hfuse|done..]. }
  assert ((grp = [] ∨ type b = type_of i) → type (vat empty_subset (node_subsets_ s1) (zlen gs)) = type_of i ∧
    ¬ blocked gs grp i) as Hgo.
  { intros Hty. split.
    - unfold s1, vat, zget. simpl. rewrite Nat2Z.id, list_lookup_insert_eq by lia. case_match; [done|lia].
    - apply Hfree. intros (j & Hj & Hne). destruct Hty as [->|Hty]; [by apply elem_of_nil in Hj|].
      apply Hne. rewrite <- Hty. by apply (si_type _ _ _ _ _ Hsub). }
  assert ((grp = [] ∨ type b = type_of i) → ∀ Q : bool → Partitioner → Prop,
    (∀ s', inv (gs ++ [grp ++ [i]]) s' → Q true s') → wp (current_subset ← vget node_subsets_ (zlen gs);
      if decide (type current_subset = type_of i) then
        vset node_epochs_ set_node_epochs i (zlen gs) ;;
        update_subset (zlen gs) (push_node (original i)) ;;
        for_each (outputs (vat no_node (execution_nodes info) i)) (assign_output (zlen gs)) ;;
        for_each (inputs (vat no_node (execution_nodes info) i)) (note_input (zlen gs)) ;;
        for_each (outgoing_edges edges i) release_edge ;;
        mret true
      else mret false) Q (λ _, False) s1) as Hrun.
  { intros Hty Q HQ. wp_steps.
    apply (wp_vget _ empty_subset); [unfold s1; simpl; rewrite length_insert; lia|].
    rewrite decide_True by by apply Hgo. eapply wp_mono; [by apply (schedule_spec gs grp i b s)| |done].
    intros r s' [-> Hinv]. by apply HQ. }
  wp_steps. destruct (decide (type b = kTfUnexplored)) as [Hex|Hex].
  - pose proof (unexplored_empty _ _ _ _ Hs Hsub Hex) as Hnil.
    apply wp_update_subset; [done|]. rewrite Nat2Z.id. intros b' Hb'. rewrite Hb in Hb'. injection Hb' as <-.
    apply Hrun; [by left|]. intros s' Hinv. split; [done|]. by apply Hgo; left.
  - apply wp_ret. destruct (decide (type b = type_of i)) as [Hty|Hty].
    + assert (s1 = s) as Heq by (unfold s1; rewrite <- Hty; by apply set_type_same). rewrite Heq in Hrun.
      apply Hrun; [by right|]. intros s' Hinv. split; [done|]. by apply Hgo; right.
    + wp_steps. apply (wp_vget _ empty_subset); [done|]. fold b. rewrite decide_False by done. wp_steps.
      split; [done|]. right. right. right. destruct grp as [|j grp]; [by rewrite (si_empty _ _ _ _ _ Hsub) in Hex|].
      exists j. split; [by left|]. rewrite (si_type _ _ _ _ _ Hsub) by by left. done.
Qed.

Lemma UpdateNode_spec gs grp i s :
  inv (gs ++ [grp]) s → 0 ≤ i < n →
  wp (UpdateNode info types edges disable_fusion i)
    (λ r s', if r : bool then inv (gs ++ [grp ++ [i]]) s' ∧ ¬ blocked gs grp i
             else s' = s ∧ blocked gs grp i)
    (λ _, False) s.
Proof.
  intros Hs Hi. destruct (current_subset gs grp s Hs) as (Hlen & Hb & Hsub).
  unfold UpdateNode. wp_steps. eapply wp_deref; [by apply (vat_zget no_node)|]. wp_steps.
  rewrite Hlen. apply (wp_vget _ empty_subset); [lia|].
  assert (nodes (vat empty_subset (node_subsets_ s) (zlen gs)) ≠ [] ↔ grp ≠ []) as Hnil.
  { rewrite (si_nodes _ _ _ _ _ Hsub). destruct grp; [done|]. split; done. }
  destruct (decide (disable_fusion = true ∧ grp ≠ [])) as [[Hd Hg]|Hfuse].
  { rewrite Hd, bool_decide_eq_true_2 by by apply Hnil. simpl. wp_steps. split; [done|by left]. }
  destruct (disable_fusion && bool_decide _) eqn:Hdb.
  { apply andb_true_iff in Hdb as [Hd Hg%bool_decide_eq_true]. exfalso. apply Hfuse. tauto. }
  wp_steps. apply (wp_vget _ kEpochNotReady); [rewrite (iv_epochs _ _ Hs); lia|].
  fold (node_epoch s i). destruct (Z.eqb_spec (node_epoch s i) kEpochNotReady) as [He|He]; simpl; wp_steps.
  2:{ split; [done|]. right. left. by apply (scheduled_iff _ _ _ Hs). }
  eapply wp_mono; [apply (inputs_ready_spec (gs ++ [grp])); [done|intros t ? ?; by apply (wf_reads Hwf i)]| |done].
  intros r s' [-> Hr]. destruct r; simpl; wp_steps.
  2:{ split; [done|]. right. right. left. intros [Hready _].
      assert (false = true); [|done]. apply Hr. intros t j Ht Hne Hj. by apply (Hready t). }
  apply (wp_vget _ 0); [rewrite (iv_counts _ _ Hs); lia|]. rewrite (iv_waiting _ _ Hs i Hi).
  destruct (Z.eqb_spec (waiting (concat (gs ++ [grp])) i) 0) as [Hw|Hw]; simpl; wp_steps.
  2:{ split; [done|]. right. right. left. intros [_ Hready]. by apply Hw, waiting_zero. }
  pose proof (wf_index Hwf) as Hix. eapply wp_deref; [apply (vat_zget (-1)); rewrite Hix; done|].
  fold (original i). wp_steps. eapply wp_deref; [apply (vat_zget kTfUnexplored), (wf_original Hwf), Hi|].
  fold (type_of i). apply extend_spec; try done.
  - intros Hin. by apply (scheduled_iff _ _ _ Hs) in Hin.
  - split; [|by apply waiting_zero]. intros t j [Ht Hne] Hj. by apply (proj1 Hr eq_refl t).
Qed.

(** ** The rounds of [BuildNodeSubset] *)

(** Nodes come after the nodes they depend on. *)
Definition dependency_ordered : Prop :=
  (∀ i j t, reads i t → writes j t → j < i) ∧ (∀ e, e ∈ edges → e.1 < e.2).

Lemma ordered_ready i : dependency_ordered → ready (range 0 i) i.
Proof.
  intros [Hd He]. split.
  - intros t j Hr Hw. apply elem_of_range. pose proof (writes_range _ _ Hw).
    pose proof (Hd _ _ _ Hr Hw). lia.
  - intros e Hin <-. apply elem_of_range. pose proof (wf_edges Hwf e Hin).
    pose proof (He e Hin). lia.
Qed.

(** Not greedily, the scan of [ids] keeps the order of the nodes. *)
Definition keeps_order (gs : list (list Z)) (grp ids added : list Z) (did : bool) (r : scan_result) : Prop :=
  ∀ m p, greedily = false → dependency_ordered → concat (gs ++ [grp]) = range 0 m → 0 ≤ m ≤ n →
    ids = range p n → (if did then p = m else p ≤ m ∧ (grp = [] ∨ m = n)) →
    ∃ m', 0 ≤ m' ≤ n ∧ concat (gs ++ [grp ++ added]) = range 0 m' ∧ (r = Finished true → m' = n).

Lemma keeps_order_schedule gs grp i ids added did r :
  i ∉ concat (gs ++ [grp]) → 0 ≤ i < n →
  keeps_order gs (grp ++ [i]) ids added true r → keeps_order gs grp (i :: ids) (i :: added) did r.
Proof.
  intros Hun Hi Hrec m p Hg Hd Hc Hm Hids Hp.
  destruct (Z.lt_ge_cases p n) as [Hpn|]; [|by rewrite range_nil in Hids].
  rewrite range_cons in Hids by done. injection Hids as -> ->.
  assert (p = m) as ->.
  { destruct did; [done|]. rewrite Hc, elem_of_range in Hun. lia. }
  replace (grp ++ m :: added) with ((grp ++ [m]) ++ added) by by rewrite <- app_assoc.
  eapply (Hrec (m + 1) (m + 1)); [done|done| |lia|done|done].
  by rewrite concat_snoc_snoc, Hc, range_snoc by lia.
Qed.

Lemma keeps_order_skip gs grp i ids added r :
  blocked gs grp i → keeps_order gs grp ids added false r → keeps_order gs grp (i :: ids) added false r.
Proof.
  intros Hb Hrec m p Hg Hd Hc Hm Hids [Hp Hgrp].
  destruct (Z.lt_ge_cases p n) as [Hpn|]; [|by rewrite range_nil in Hids].
  rewrite range_cons in Hids by done. injection Hids as -> ->.
  apply (Hrec m (p + 1)); try done. split; [|done].
  destruct (decide (p = m)) as [->|]; [exfalso|lia].
  destruct Hgrp as [->|]; [|lia]. destruct Hb as [[_ ?]|[Hin|[Hr|(j & Hj & _)]]]; [done| | |by apply elem_of_nil in Hj].
  - rewrite Hc, elem_of_range in Hin. lia.
  - apply Hr. rewrite Hc. by apply ordered_ready.
Qed.

Lemma scan_nodes_spec gs grp ids did s :
  inv (gs ++ [grp]) s → (∀ i, i ∈ ids → 0 ≤ i < n) →
  wp (scan_nodes info types greedily edges disable_fusion ids did)
    (λ r s', ∃ added, inv (gs ++ [grp ++ added]) s' ∧ keeps_order gs grp ids added did r ∧
       match r with
       | Returned => (did = true ∨ added ≠ []) ∧ greedily = false
       | Finished d => (d = true ↔ did = true ∨ added ≠ []) ∧
           (added = [] → ∀ i, i ∈ ids → blocked gs grp i)
       end)
    (λ _, False) s.
Proof.
  revert grp did s. induction ids as [|i ids IH]; intros grp did s Hs Hr; cbn [scan_nodes].
  { wp_steps. exists []. rewrite app_nil_r. split; [done|]. split; [|split; [naive_solver|]].
    - intros m p _ _ Hc Hm Hids Hp. exists m. rewrite app_nil_r. split_and!; [lia..|done|].
      intros [= ->]. destruct (Z.lt_ge_cases p n) as [Hpn|]; [by rewrite range_cons in Hids|]. lia.
    - intros _ i Hi. by apply elem_of_nil in Hi. }
  assert (0 ≤ i < n) as Hi by (apply Hr; by left).
  apply wp_bind. eapply wp_mono; [by apply (UpdateNode_spec gs grp)| |done].
  intros updated s1 Hup. destruct updated.
  - destruct Hup as [Hs1 Hnb]. eapply wp_mono; [apply (IH (grp ++ [i])); [done|intros; apply Hr; by right]| |done].
    intros r s2 (added & Hs2 & Hko & Hres). exists (i :: added). rewrite <- app_assoc in Hs2.
    split; [done|]. split.
    + apply keeps_order_schedule; [|done..]. intros Hin. apply Hnb. right. by left.
    + destruct r; [split; [by right|apply Hres]|]. split; [|done].
      rewrite (proj1 Hres). split; [by right|by left].
  - destruct Hup as [-> Hb]. destruct (did && negb greedily) eqn:Hd.
    + apply andb_true_iff in Hd as [-> Hg%negb_true_iff]. wp_steps. exists []. rewrite app_nil_r.
      split; [done|]. split; [|split; [by left|done]].
      intros m p _ _ Hc Hm _ _. exists m. rewrite app_nil_r. by split; [|split].
    + eapply wp_mono; [apply (IH grp); [done|intros; apply Hr; by right]| |done].
      intros r s2 (added & Hs2 & Hko & Hres). exists added. split; [done|]. split.
      * destruct did; [|by apply keeps_order_skip].
        intros m p Hg. rewrite Hg in Hd. done.
      * destruct r; [done|]. split; [apply Hres|]. intros Hnil j [->|Hj]%elem_of_cons; [done|].
        by apply Hres.
Qed.

Lemma scheduled_bound gs s : inv gs s → (length (concat gs) ≤ length (execution_nodes info))%nat.
Proof.
  intros Hs. assert (concat gs ⊆+ range 0 n) as Hsub%submseteq_length.
  { apply NoDup_submseteq; [apply Hs|]. intros i Hi. apply elem_of_range. by apply (iv_range _ _ Hs). }
  unfold range in Hsub. rewrite length_seqZ in Hsub. unfold num_execution_nodes in Hsub. lia.
Qed.

(** In order: the scheduled nodes are the first ones. *)
Definition in_order (gs : list (list Z)) : Prop :=
  greedily = false → dependency_ordered → ∃ m, 0 ≤ m ≤ n ∧ concat gs = range 0 m.

Lemma build_rounds_spec fuel gs grp s :
  inv (gs ++ [grp]) s → (length (execution_nodes info) < fuel + length (concat (gs ++ [grp])))%nat →
  (greedily = false → dependency_ordered → ∃ m, 0 ≤ m ≤ n ∧ concat (gs ++ [grp]) = range 0 m ∧
    (grp = [] ∨ m = n)) →
  wp (build_rounds info types greedily edges disable_fusion fuel)
    (λ _ s', ∃ added, inv (gs ++ [grp ++ added]) s' ∧ in_order (gs ++ [grp ++ added]) ∧
       (added = [] ∨ greedily = true → ∀ i, 0 ≤ i < n → blocked gs (grp ++ added) i))
    (λ _, False) s.
Proof.
  revert grp s. induction fuel as [|fuel IH]; intros grp s Hs Hfuel Hord.
  { pose proof (scheduled_bound _ _ Hs). lia. }
  cbn [build_rounds]. apply wp_bind.
  eapply wp_mono; [apply (scan_nodes_spec gs grp); [done|intros i; by rewrite elem_of_range]| |done].
  intros r s1 (added & Hs1 & Hko & Hres).
  assert (greedily = false → dependency_ordered → ∃ m, 0 ≤ m ≤ n ∧
    concat (gs ++ [grp ++ added]) = range 0 m ∧ (r = Finished true → m = n)) as Hord'.
  { intros Hg Hd. destruct (Hord Hg Hd) as (m & Hm & Hc & Hgrp). apply (Hko m 0); try done. split; [lia|done]. }
  destruct r as [|d]; [|destruct d].
  - wp_steps. exists added. split; [done|]. split.
    + intros Hg Hd. destruct (Hord' Hg Hd) as (m & Hm & Hc & _). by exists m.
    + destruct Hres as [[?|?] Hg]; [done|]. rewrite Hg. intros [?|?]; done.
  - assert (added ≠ []) as Hadd by by destruct (proj1 (proj1 Hres) eq_refl).
    assert (length (concat (gs ++ [grp ++ added])) = length (concat (gs ++ [grp])) + length added)%nat as Hl.
    { rewrite !concat_app, !length_app. simpl. rewrite !app_nil_r, length_app. lia. }
    eapply wp_mono; [apply (IH (grp ++ added)); [done| |]| |done].
    + rewrite Hl. destruct added; [done|]. simpl. lia.
    + intros Hg Hd. destruct (Hord' Hg Hd) as (m & Hm & Hc & Hmn). exists m. split; [done|]. split; [done|].
      right. by apply Hmn.
    + intros _ s2 (added' & Hs2 & Hord2 & Hblock). exists (added ++ added'). rewrite app_assoc.
      split_and!; [done..|]. intros [Hnil|Hg]; [by destruct added|]. apply Hblock. by right.
  - assert (added = []) as ->.
    { destruct added; [done|]. assert (false = true); [|done]. apply (proj1 Hres). by right. }
    rewrite app_nil_r in *. wp_steps. exists []. rewrite app_nil_r. split; [done|]. split.
    + intros Hg Hd. destruct (Hord Hg Hd) as (m & Hm & Hc & _). by exists m.
    + intros _ i Hi. apply Hres; [done|by apply elem_of_range].
Qed.

(** ** [BuildNodeSubset] and the rounds of [Partition] *)

Lemma inv_new_group gs s :
  inv gs s → inv (gs ++ [[]]) (set_subsets (node_subsets_ s ++ [empty_subset]) s).
Proof.
  intros Hs. assert (concat (gs ++ [[]]) = concat gs) as Hc by by rewrite concat_app, app_nil_r.
  assert (∀ k grp x, (gs ++ [[]]) !! k = Some grp → x ∈ grp → gs !! k = Some grp) as Hold.
  { intros k grp x Hk Hx. apply lookup_app_Some in Hk as [?|[_ Hk]]; [done|].
    apply list_lookup_singleton_Some in Hk as [_ <-]. by apply elem_of_nil in Hx. }
  destruct Hs as [Hlen Hsub Hnd Hr He Hep Hun Ht Hw Hco Hcn Hwa Hord].
  split; rewrite ?Hc; try done.
  - simpl. rewrite !length_app. simpl. by rewrite Hlen.
  - intros k grp b Hk Hb. simpl in Hb. apply lookup_app_Some in Hb as [Hb|[Hge Hb]].
    + assert (k < length gs)%nat by (apply lookup_lt_Some in Hb; lia).
      rewrite lookup_app_l in Hk by done. destruct (Hsub k grp b Hk Hb) as [S1 S2 S3 S4 S5].
      split; try done. intros t. rewrite S5. split; intros (Hte & k' & grp' & x & Hk' & Hne & Hx & Hrd);
        (split; [done|]); exists k', grp', x; split_and!; try done.
      * rewrite lookup_app_l; [done|by apply lookup_lt_Some in Hk'].
      * by eapply Hold.
    + apply list_lookup_singleton_Some in Hb as [Hk0 <-].
      assert (k = length gs) as -> by lia. rewrite lookup_app_r, Nat.sub_diag in Hk by done.
      injection Hk as <-. split; try done; simpl; intros t; rewrite elem_of_nil.
      * done.
      * split; [done|]. intros [(x & Hx & _) _]. by apply elem_of_nil in Hx.
      * split; [done|]. intros [Hte _].
        assert (tensor_epoch s t < zlen gs); [|unfold tensor_epoch in *; simpl in *; lia].
        apply (tensor_epoch_bound gs). by split.
  - intros k grp x Hk Hx. eapply (Hep k grp); [by eapply Hold|done].
Qed.

Lemma inv_drop_group gs s :
  inv (gs ++ [[]]) s → inv gs (set_subsets (take (length (node_subsets_ s) - 1) (node_subsets_ s)) s).
Proof.
  intros Hs. assert (concat (gs ++ [[]]) = concat gs) as Hc by by rewrite concat_app, app_nil_r.
  destruct Hs as [Hlen Hsub Hnd Hr He Hep Hun Ht Hw Hco Hcn Hwa Hord]. rewrite ?Hc in *.
  rewrite length_app in Hlen. simpl in Hlen.
  assert (∀ k grp, gs !! k = Some grp → (gs ++ [[]]) !! k = Some grp) as Hnew.
  { intros k grp Hk. by rewrite lookup_app_l by by apply lookup_lt_Some in Hk. }
  split; try done.
  - simpl. rewrite length_take. lia.
  - intros k grp b Hk Hb. simpl in Hb. apply lookup_take_Some in Hb as [Hb _].
    destruct (Hsub k grp b (Hnew _ _ Hk) Hb) as [S1 S2 S3 S4 S5]. split; try done.
    intros t. rewrite S5. split; intros (Hte & k' & grp' & x & Hk' & Hne & Hx & Hrd);
      (split; [done|]); exists k', grp', x; split_and!; auto.
    apply lookup_app_Some in Hk' as [?|[_ Hk']]; [done|].
    apply list_lookup_singleton_Some in Hk' as [_ <-]. by apply elem_of_nil in Hx.
  - intros k grp x Hk Hx. eapply (Hep k grp); auto.
Qed.

Lemma BuildNodeSubset_spec gs s :
  inv gs s → in_order gs →
  wp (BuildNodeSubset info types greedily edges disable_fusion)
    (λ _ s', ∃ grp, inv (gs ++ [grp]) s' ∧ in_order (gs ++ [grp]) ∧
       (grp = [] ∨ greedily = true → ∀ i, 0 ≤ i < n → blocked gs grp i))
    (λ _, False) s.
Proof.
  intros Hs Hord. unfold BuildNodeSubset. apply wp_bind, wp_modify.
  eapply wp_mono; [apply (build_rounds_spec _ gs []); [by apply inv_new_group|lia|]| |done].
  - intros Hg Hd. destruct (Hord Hg Hd) as (m & Hm & Hc). exists m. split; [done|].
    split; [|by left]. by rewrite concat_app, app_nil_r.
  - intros _ s' (added & Hs' & Hord' & Hb). simpl in *. exists added. split; [done|]. split; [done|].
    intros Hor. apply Hb. done.
Qed.

(** No node is left that could start another subset, and greedily no subset could
    have been larger. *)
Record saturated (gs : list (list Z)) : Prop := {
  sat_nonempty grp : grp ∈ gs → grp ≠ [];
  sat_stuck i : 0 ≤ i < n → i ∈ concat gs ∨ ¬ ready (concat gs) i;
  sat_maximal pre grp post i : gs = pre ++ grp :: post → greedily = true → 0 ≤ i < n →
    blocked pre grp i
}.

Lemma partition_rounds_spec fuel gs s :
  inv gs s → in_order gs → (∀ grp, grp ∈ gs → grp ≠ []) →
  (∀ pre grp post i, gs = pre ++ grp :: post → greedily = true → 0 ≤ i < n → blocked pre grp i) →
  (length (execution_nodes info) < fuel + length (concat gs))%nat →
  wp (partition_rounds info types greedily edges disable_fusion fuel)
    (λ _ s', ∃ gs', inv gs' s' ∧ in_order gs' ∧ saturated gs') (λ _, False) s.
Proof.
  revert gs s. induction fuel as [|fuel IH]; intros gs s Hs Hord Hne Hmax Hfuel.
  { pose proof (scheduled_bound _ _ Hs). lia. }
  cbn [partition_rounds]. apply wp_bind.
  eapply wp_mono; [by apply (BuildNodeSubset_spec gs)| |done].
  intros _ s1 (grp & Hs1 & Hord1 & Hblock). apply wp_bind, wp_gets.
  pose proof (iv_length _ _ Hs1) as Hlen. rewrite length_app in Hlen. simpl in Hlen.
  assert (∃ b, node_subsets_ s1 !! length gs = Some b) as [b Hb] by (apply lookup_lt_is_Some; lia).
  apply wp_bind. eapply (wp_deref _ b).
  { apply zget_Some. split; [lia|]. rewrite Hlen. replace (Z.to_nat _) with (length gs) by lia. done. }
  destruct (iv_subset _ _ Hs1 _ grp _ ltac:(by rewrite lookup_app_r, Nat.sub_diag) Hb) as [S1 _ _ _ _].
  rewrite S1. assert (∀ pre grp' post i, gs ++ [grp] = pre ++ grp' :: post → greedily = true →
    0 ≤ i < n → blocked pre grp' i) as Hmax'.
  { intros pre grp' post i [[-> ->]|[post' Heq]]%snoc_split Hg Hi; [|by eapply Hmax].
    apply Hblock; [by right|done]. }
  destruct grp as [|x grp].
  - simpl. wp_steps. exists gs. split; [by apply inv_drop_group|]. split; [done|]. split; [done| |done].
    intros i Hi. destruct (Hblock ltac:(by left) i Hi) as [[_ ?]|[?|[?|(j & Hj & _)]]]; [done|..|by apply elem_of_nil in Hj].
    + left. rewrite concat_app in *. simpl in *. by rewrite app_nil_r in *.
    + right. rewrite concat_app in *. simpl in *. by rewrite app_nil_r in *.
  - rewrite decide_False by done. apply (IH (gs ++ [x :: grp])); try done.
    + intros grp' [?| ->%list_elem_of_singleton]%elem_of_app; [by apply Hne|done].
    + rewrite concat_app, length_app. simpl. lia.
Qed.

(** ** The beginning and the end of [Partition] *)

Definition initial_state : Partitioner :=
  {| node_subsets_ := [];
     tensor_epochs_ := replicate (Z.to_nat (num_tensors info)) kEpochAlwaysReady;
     node_epochs_ := replicate (length (execution_nodes info)) kEpochNotReady;
     num_incoming_control_edges_ := replicate (length (execution_nodes info)) 0 |}.

Lemma initial_edges_spec :
  wp (for_each edges initial_edge_count)
    (λ _ s, s = set_num_incoming (num_incoming_control_edges_ s) initial_state ∧
       zlen (num_incoming_control_edges_ s) = n ∧
       ∀ i, vat 0 (num_incoming_control_edges_ s) i = zlen (filter (λ e : ControlEdge, e.2 = i) edges))
    (λ _, False) initial_state.
Proof.
  apply (wp_for_each (λ done s, s = set_num_incoming (num_incoming_control_edges_ s) initial_state ∧
    zlen (num_incoming_control_edges_ s) = n ∧
    ∀ i, vat 0 (num_incoming_control_edges_ s) i = zlen (filter (λ e : ControlEdge, e.2 = i) done))).
  { split; [done|]. split; [simpl; by rewrite length_replicate|]. intros i. apply vat_replicate. }
  intros done e todo s Hl (Hs & Hlen & Hc).
  assert (0 ≤ e.2 < n) as He by (apply (wf_edges Hwf); rewrite Hl; in_list).
  unfold initial_edge_count. wp_steps. apply (wp_vget _ 0); [lia|]. apply wp_vset; [lia|].
  split; [by rewrite Hs|]. split; [simpl; by rewrite zset_length|]. intros i. simpl.
  rewrite filter_app, length_app, filter_cons, filter_nil, Nat2Z.inj_add.
  destruct (decide (e.2 = i)) as [<-|Hi].
  - rewrite vat_zset_eq, Hc by lia. simpl. lia.
  - rewrite vat_zset_ne, Hc by (lia || done). simpl. lia.
Qed.

Lemma mark_outputs_spec s0 :
  zlen (tensor_epochs_ s0) = Z.max 0 (num_tensors info) →
  (∀ t, tensor_epoch s0 t = kEpochAlwaysReady) →
  wp (for_each (execution_nodes info) mark_outputs)
    (λ _ s, s = set_tensor_epochs (tensor_epochs_ s) s0 ∧
       length (tensor_epochs_ s) = length (tensor_epochs_ s0) ∧
       ∀ t, ((∃ i, writes i t) → tensor_epoch s t = kEpochNotReady) ∧
            ((∀ i, ¬ writes i t) → tensor_epoch s t = kEpochAlwaysReady))
    (λ _, False) s0.
Proof.
  intros Hlen0 H0.
  eapply wp_mono; [apply (wp_for_each (λ done s, s = set_tensor_epochs (tensor_epochs_ s) s0 ∧
    length (tensor_epochs_ s) = length (tensor_epochs_ s0) ∧
    ∀ t, ((∃ i, i < zlen done ∧ writes i t) → tensor_epoch s t = kEpochNotReady) ∧
         ((∀ i, i < zlen done → ¬ writes i t) → tensor_epoch s t = kEpochAlwaysReady)) (λ _, False))|simpl|done].
  - split; [by destruct s0|]. split; [done|]. intros t. split; [|done].
    intros (i & Hi & Hw). pose proof (writes_range _ _ Hw). simpl in Hi. lia.
  - intros done node todo s Hl (Hs & Hlen & Ht).
    assert (vat no_node (execution_nodes info) (zlen done) = node) as Hnode.
    { unfold vat. rewrite Hl. rewrite (proj2 (zget_Some _ _ node)); [done|].
      split; [lia|]. rewrite Nat2Z.id. apply lookup_split. }
    assert (∀ t, t ∈ outputs node ∧ t ≠ -1 ↔ writes (zlen done) t) as Hw by (intros t; unfold writes; by rewrite Hnode).
    unfold mark_outputs. eapply wp_mono; [apply assign_outputs_spec| |done].
    { intros t Hin Hne. rewrite Hlen, Hlen0. pose proof (wf_writes Hwf _ _ (proj1 (Hw t) (conj Hin Hne))). lia. }
    simpl. intros _ s' (Hs' & Hlen' & Ht'). split; [by rewrite Hs', Hs|]. split; [congruence|].
    intros t. rewrite length_app, Nat2Z.inj_add. simpl.
    destruct (decide (t ∈ outputs node ∧ t ≠ -1)) as [Hin|Hin].
    + rewrite (proj1 (Ht' t) Hin). split; [done|]. intros Hno. exfalso. apply (Hno (zlen done)); [lia|]. by apply Hw.
    + rewrite (proj2 (Ht' t) Hin). rewrite Hw in Hin. split.
      * intros (i & Hi & Hwi). apply Ht. exists i. split; [|done].
        destruct (decide (i = zlen done)) as [->|]; [done|lia].
      * intros Hno. apply Ht. intros i Hi. apply Hno. lia.
  - intros _ s (Hs & Hlen & Ht). split; [done|]. split; [done|]. intros t. split.
    + intros [i Hw]. apply Ht. exists i. split; [|done]. apply writes_range in Hw. unfold num_execution_nodes in Hw. lia.
    + intros Hno. apply Ht. intros i _. apply Hno.
Qed.

Lemma inv_start counts te s :
  s = set_tensor_epochs te (set_num_incoming counts initial_state) →
  zlen te = Z.max 0 (num_tensors info) → zlen counts = n →
  (∀ i, vat 0 counts i = zlen (filter (λ e : ControlEdge, e.2 = i) edges)) →
  (∀ t, ((∃ i, writes i t) → tensor_epoch s t = kEpochNotReady) ∧
        ((∀ i, ¬ writes i t) → tensor_epoch s t = kEpochAlwaysReady)) → inv [] s.
Proof.
  intros -> Hte Hcl Hc Ht. split; simpl; try done.
  - constructor.
  - by intros i ?%elem_of_nil.
  - by rewrite length_replicate.
  - intros i _. apply vat_replicate.
  - intros i t Hw. rewrite (proj1 (Ht t)) by eauto. symmetry. apply vat_replicate.
  - intros t Hno. by apply Ht.
  - intros i _. rewrite Hc. unfold waiting. f_equal. f_equal. apply list_filter_iff.
    intros e. split; [|by intros [? _]]. intros He. split; [done|]. by intros ?%elem_of_nil.
  - intros [|] i post Heq; done.
Qed.

(** ** [Partition] *)

(** Node [i] waits for node [j]. *)
Definition depends (i j : Z) : Prop :=
  Exists (λ t, t ≠ -1 ∧ t ∈ outputs (vat no_node (execution_nodes info) j))
         (inputs (vat no_node (execution_nodes info) i)) ∨ (j, i) ∈ edges.

#[local] Instance depends_dec i j : Decision (depends i j).
Proof. unfold depends. apply _. Defined.

Lemma depends_iff i j : depends i j ↔ (∃ t, reads i t ∧ writes j t) ∨ (j, i) ∈ edges.
Proof. unfold depends, reads, writes. rewrite Exists_exists. naive_solver. Qed.

Lemma ready_iff done i : ready done i ↔ ∀ j, depends i j → j ∈ done.
Proof.
  split.
  - intros [Hd He] j [(t & Hr & Hw)|Hin]%depends_iff; [by apply (Hd t)|]. by apply (He (j, i)).
  - intros Hall. split.
    + intros t j Hr Hw. apply Hall, depends_iff. left. eauto.
    + intros [a b] Hin Heq. simpl in *. subst. apply Hall, depends_iff. by right.
Qed.

Lemma depends_range i j : depends i j → 0 ≤ j < n.
Proof.
  intros [(t & _ & Hw)|He]%depends_iff; [by apply writes_range in Hw|apply (wf_edges Hwf _ He)].
Qed.

(** The nodes of a subset, and what it reads and writes. *)
Record partitioned (gs : list (list Z)) (subsets : list NodeSubset) : Prop := {
  pt_length : length subsets = length gs;
  pt_nodes : concat gs ≡ₚ range 0 n;
  pt_subset k grp b : gs !! k = Some grp → subsets !! k = Some b →
    grp ≠ [] ∧ nodes b = original <$> grp ∧ ∀ i, i ∈ grp → type_of i = type b;
  pt_inputs k grp b t : gs !! k = Some grp → subsets !! k = Some b →
    t ∈ input_tensors b ↔ (∃ i, i ∈ grp ∧ reads i t) ∧ ¬ ∃ j, j ∈ grp ∧ writes j t;
  pt_outputs k grp b t : gs !! k = Some grp → subsets !! k = Some b →
    t ∈ output_tensors b ↔ (∃ j, j ∈ grp ∧ writes j t) ∧
      (t ∈ graph_outputs info ∨ ∃ k' grp' i, gs !! k' = Some grp' ∧ k' ≠ k ∧ i ∈ grp' ∧ reads i t);
  pt_sorted b : b ∈ subsets → StronglySorted Z.lt (input_tensors b) ∧ StronglySorted Z.lt (output_tensors b);
  pt_order pre i post j : concat gs = pre ++ i :: post → depends i j → j ∈ pre;
  pt_maximal pre grp post i : gs = pre ++ grp :: post → greedily = true → 0 ≤ i < n →
    blocked pre grp i;
  pt_in_order : greedily = false → dependency_ordered → concat gs = range 0 n
}.

(** A set of nodes that wait for each other. *)
Definition deadlock (stuck : list Z) : Prop :=
  stuck ≠ [] ∧ ∀ i, i ∈ stuck → ∃ j, j ∈ stuck ∧ depends i j.

Lemma ordered_no_deadlock stuck : dependency_ordered → ¬ deadlock stuck.
Proof.
  intros [Hd He] [Hne Hs].
  assert (∀ k i, 0 ≤ i < Z.of_nat k → i ∉ stuck) as Hno.
  { induction k as [|k IH]; intros i Hi Hin; [lia|].
    destruct (Hs i Hin) as (j & Hj & Hij). apply (IH j); [|done].
    pose proof (depends_range _ _ Hij). apply depends_iff in Hij as [(t & Hr & Hw)|Hij].
    - pose proof (Hd _ _ _ Hr Hw). lia.
    - pose proof (He _ Hij) as Hlt. simpl in Hlt. lia. }
  destruct stuck as [|x stuck]; [done|]. destruct (Hs x ltac:(by left)) as (j & Hj & Hx).
  pose proof (depends_range _ _ Hx). apply (Hno (S (Z.to_nat j)) j); [lia|done].
Qed.

Lemma saturated_deadlock gs : saturated gs →
  (∃ i, 0 ≤ i < n ∧ i ∉ concat gs) → deadlock (filter (λ i, i ∉ concat gs) (range 0 n)).
Proof.
  intros Hsat (i0 & Hi0 & Hun0). split.
  - intros Hnil. assert (i0 ∈ filter (λ i, i ∉ concat gs) (range 0 n)) as Hin.
    { apply list_elem_of_filter. split; [done|by apply elem_of_range]. }
    rewrite Hnil in Hin. by apply elem_of_nil in Hin.
  - intros i [Hun Hi%elem_of_range]%list_elem_of_filter.
    destruct (sat_stuck _ Hsat i Hi) as [?|Hnr]; [done|].
    destruct (decide (Exists (λ j, depends i j ∧ j ∉ concat gs) (range 0 n))) as [Hex|Hex].
    + apply Exists_exists in Hex as (j & Hj & Hd & Hn). exists j. split; [|done].
      by apply list_elem_of_filter.
    + exfalso. apply Hnr, ready_iff. intros j Hd. destruct (decide (j ∈ concat gs)) as [|Hn]; [done|].
      exfalso. apply Hex, Exists_exists. exists j. split; [|done].
      apply elem_of_range. by apply depends_range in Hd.
Qed.

(** Adding the graph outputs to the subsets that produce them. *)
Record with_outputs (s : Partitioner) (ids : list Z) (k : nat) (b b' : NodeSubset) : Prop := {
  wo_type : type b' = type b;
  wo_nodes : nodes b' = nodes b;
  wo_inputs : input_tensors b' = input_tensors b;
  wo_outputs t : t ∈ output_tensors b' ↔ t ∈ output_tensors b ∨ (t ∈ ids ∧ tensor_epoch s t = Z.of_nat k)
}.

Lemma mark_graph_outputs_spec gs s :
  inv gs s → (∀ i, 0 ≤ i < n → i ∈ concat gs) →
  wp (for_each (graph_outputs info) mark_graph_output)
    (λ _ s', s' = set_subsets (node_subsets_ s') s ∧
       length (node_subsets_ s') = length (node_subsets_ s) ∧
       ∀ k b', node_subsets_ s' !! k = Some b' → ∃ b, node_subsets_ s !! k = Some b ∧
         with_outputs s (graph_outputs info) k b b')
    (λ _, False) s.
Proof.
  intros Hs Hall. apply (wp_for_each (λ done s', s' = set_subsets (node_subsets_ s') s ∧
    length (node_subsets_ s') = length (node_subsets_ s) ∧
    ∀ k b', node_subsets_ s' !! k = Some b' → ∃ b, node_subsets_ s !! k = Some b ∧ with_outputs s done k b b')).
  { split; [by destruct s|]. split; [done|]. intros k b Hb. exists b. split; [done|].
    split; try done. intros t. rewrite elem_of_nil. tauto. }
  intros done t todo s' Hl (Hs' & Hlen & Hb).
  assert (0 ≤ t < num_tensors info) as Ht by (apply (wf_outputs Hwf); rewrite Hl; in_list).
  assert (tensor_epochs_ s' = tensor_epochs_ s) as Hte by by rewrite Hs'.
  unfold mark_graph_output. wp_steps. apply (wp_vget _ kEpochAlwaysReady); [rewrite Hte, (iv_tensors _ _ Hs); lia|].
  rewrite Hte. fold (tensor_epoch s t).
  assert (∀ k b b', with_outputs s done k b b' → tensor_epoch s t ≠ Z.of_nat k →
    with_outputs s (done ++ [t]) k b b') as Hskip.
  { intros k b b' [] Hne. split; try done. intros x. rewrite wo_outputs0, elem_of_app, list_elem_of_singleton.
    split; [tauto|]. intros [?|[[?| ->] ?]]; [tauto..|done]. }
  pose proof (tensor_epoch_bound _ _ t Hs) as Hbound. rewrite <- (iv_length _ _ Hs) in Hbound.
  destruct (Z.eqb_spec (tensor_epoch s t) kEpochAlwaysReady) as [He|He].
  { wp_steps. split; [done|]. split; [done|]. intros k b' Hk. destruct (Hb k b' Hk) as (b & Hk' & Hw).
    exists b. split; [done|]. apply Hskip; [done|]. rewrite He. unfold kEpochAlwaysReady. lia. }
  assert (0 ≤ tensor_epoch s t) as Hpos.
  { destruct (decide (0 ≤ tensor_epoch s t)) as [|Hneg]; [done|exfalso].
    apply He, (iv_constant _ _ Hs). intros i Hw. apply Hneg. rewrite (iv_written _ _ Hs _ _ Hw).
    pose proof (Hall i (writes_range _ _ Hw)) as Hi. apply elem_of_groups in Hi as (k & grp & Hk & Hi).
    rewrite (iv_epoch _ _ Hs _ _ _ Hk Hi). lia. }
  wp_steps. rewrite (proj2 (Z.ltb_ge _ 0)), (proj2 (Z.leb_gt _ _)) by lia. wp_steps.
  apply wp_update_subset; [lia|]. intros b0 Hb0. split; [by rewrite Hs'|].
  split; [simpl; by rewrite length_insert|]. intros k b' [(<- & <- & _)|[Hk Hk']]%list_lookup_insert_Some.
  - destruct (Hb _ _ Hb0) as (b & Hbk & []). exists b. split; [done|]. split; simpl; try done.
    intros x. rewrite elem_of_app, list_elem_of_singleton, wo_outputs0, Z2Nat.id by done.
    rewrite elem_of_app, list_elem_of_singleton. split; [|tauto].
    intros [?| ->]; [tauto|]. right. split; [by right|done].
  - destruct (Hb _ _ Hk') as (b & Hbk & Hw). exists b. split; [done|]. apply Hskip; [done|lia].
Qed.

Lemma Uniquefy_Z l : StronglySorted Z.lt (Uniquefy Z.ltb l) ∧ ∀ t, t ∈ Uniquefy Z.ltb l ↔ t ∈ l.
Proof.
  assert (strict_weak Z.ltb) as Hsw by apply (strict_weak_key id). split.
  - pose proof (Uniquefy_sorted Z.ltb l Hsw) as Hs.
    ospecialize (Hs _); [intros x y; rewrite !Z.ltb_ge; lia|].
    clear -Hs. induction Hs as [|x k Hk IH Hx]; constructor; [done|].
    eapply Forall_impl; [exact Hx|]. intros y. simpl. by rewrite Z.ltb_lt.
  - intros t. by apply Uniquefy_elem.
Qed.

Lemma partitioned_end gs s s' :
  inv gs s → saturated gs → in_order gs → (∀ i, 0 ≤ i < n → i ∈ concat gs) →
  length (node_subsets_ s') = length (node_subsets_ s) →
  (∀ k b', node_subsets_ s' !! k = Some b' → ∃ b, node_subsets_ s !! k = Some b ∧
     with_outputs s (graph_outputs info) k b b') →
  partitioned gs (uniquefy_subset <$> node_subsets_ s').
Proof.
  intros Hs Hsat Hord Hall Hlen Hb.
  assert (∀ k grp b, gs !! k = Some grp → (uniquefy_subset <$> node_subsets_ s') !! k = Some b →
    ∃ b1 b0, subset_inv s gs k grp b0 ∧ with_outputs s (graph_outputs info) k b0 b1 ∧ b = uniquefy_subset b1) as Hsub.
  { intros k grp b Hk Hb'. rewrite list_lookup_fmap in Hb'.
    destruct (node_subsets_ s' !! k) as [b1|] eqn:Hk1; [|done]. injection Hb' as <-.
    destruct (Hb k b1 Hk1) as (b0 & Hk0 & Hw). exists b1, b0. split_and!; [by apply Hs|done|done]. }
  assert (∀ k grp t, gs !! k = Some grp → tensor_epoch s t = Z.of_nat k ↔ ∃ j, j ∈ grp ∧ writes j t) as Hte.
  { intros k grp t Hk. split.
    - intros He. assert (¬ (∀ j, ¬ writes j t)) as Hw.
      { intros Hno. rewrite (iv_constant _ _ Hs t Hno) in He. unfold kEpochAlwaysReady in He. lia. }
      destruct (decide (Exists (λ j, t ∈ outputs (vat no_node (execution_nodes info) j) ∧ t ≠ -1) (range 0 n)))
        as [Hex|Hex].
      + apply Exists_exists in Hex as (j & _ & Hj). exists j. split; [|done].
        rewrite (iv_written _ _ Hs _ _ Hj) in He. pose proof (Hall j (writes_range _ _ Hj)) as Hin.
        apply elem_of_groups in Hin as (k' & grp' & Hk' & Hin).
        rewrite (iv_epoch _ _ Hs _ _ _ Hk' Hin) in He. assert (k' = k) as -> by lia. by simplify_eq.
      + exfalso. apply Hw. intros j Hj. apply Hex, Exists_exists. exists j. split; [|done].
        apply elem_of_range. by apply writes_range in Hj.
    - intros (j & Hj & Hw). rewrite (iv_written _ _ Hs _ _ Hw). by apply (iv_epoch _ _ Hs k grp). }
  split.
  - by rewrite length_fmap, Hlen, (iv_length _ _ Hs).
  - apply NoDup_Permutation; [apply Hs|apply NoDup_seqZ|]. intros i. rewrite elem_of_range.
    split; [apply Hs|apply Hall].
  - intros k grp b Hk Hb'. destruct (Hsub _ _ _ Hk Hb') as (b1 & b0 & [S1 S2 _ _ _] & [W1 W2 _ _] & ->).
    simpl. rewrite W1, W2. split; [|done]. apply (sat_nonempty _ Hsat). by eapply list_elem_of_lookup_2.
  - intros k grp b t Hk Hb'. destruct (Hsub _ _ _ Hk Hb') as (b1 & b0 & [_ _ _ S4 _] & [_ _ W3 _] & ->).
    simpl. rewrite (proj2 (Uniquefy_Z _)), W3, S4. by rewrite (Hte k grp).
  - intros k grp b t Hk Hb'. destruct (Hsub _ _ _ Hk Hb') as (b1 & b0 & [_ _ _ _ S5] & [_ _ _ W4] & ->).
    simpl. rewrite (proj2 (Uniquefy_Z _)), W4, S5. rewrite (Hte k grp) by done. tauto.
  - intros b (b1 & -> & _)%list_elem_of_fmap. simpl. split; apply Uniquefy_Z.
  - intros pre i post j Heq Hd. pose proof (iv_order _ _ Hs _ _ _ Heq) as Hr. by apply (proj1 (ready_iff _ _) Hr).
  - by apply Hsat.
  - intros Hg Hd. destruct (Hord Hg Hd) as (m & Hm & Hc). rewrite Hc. destruct (decide (m = n)) as [->|Hne]; [done|].
    assert (m ∈ concat gs) as Hin by (apply Hall; lia). rewrite Hc, elem_of_range in Hin. lia.
Qed.

Lemma Partition_spec s :
  wp (Partition info types greedily edges disable_fusion)
    (λ _ s', ∃ gs, partitioned gs (node_subsets_ s')) (λ _, ∃ stuck, deadlock stuck) s.
Proof.
  unfold Partition. apply wp_bind, wp_put. apply wp_bind.
  eapply wp_mono; [apply initial_edges_spec| |done]. intros _ s1 (Hs1 & Hl1 & Hc1). apply wp_bind.
  eapply wp_mono; [apply (mark_outputs_spec s1)| |done].
  { rewrite Hs1. simpl. rewrite length_replicate. lia. }
  { intros t. unfold tensor_epoch. rewrite Hs1. simpl. apply vat_replicate. }
  intros _ s2 (Hs2 & Hl2 & Ht2). apply wp_bind.
  assert (inv [] s2) as Hinv.
  { eapply (inv_start (num_incoming_control_edges_ s1) (tensor_epochs_ s2)); try done.
    - by rewrite Hs2, Hs1.
    - rewrite Hl2, Hs1. simpl. rewrite length_replicate. lia. }
  eapply wp_mono; [apply (partition_rounds_spec _ [] s2 Hinv)| |done].
  { intros _ _. exists 0. split; [unfold num_execution_nodes; lia|]. by rewrite range_nil by lia. }
  { by intros grp ?%elem_of_nil. }
  { by intros [|] grp post i. }
  { simpl. lia. }
  intros _ s3 (gs & Hs3 & Hord & Hsat). wp_steps. apply wp_ensure; intros Hex.
  2:{ exists (filter (λ i, i ∉ concat gs) (range 0 n)). apply saturated_deadlock; [done|].
      apply negb_false_iff, existsb_exists in Hex as (e & Hin & He). apply list_elem_of_In in Hin.
      apply Z.eqb_eq in He. subst e. apply list_elem_of_lookup in Hin as [k Hk]. exists (Z.of_nat k).
      pose proof (lookup_lt_Some _ _ _ Hk). pose proof (iv_epochs _ _ Hs3). split; [lia|].
      rewrite (scheduled_iff _ _ _ Hs3). intros Hne. apply Hne. unfold node_epoch, vat.
      rewrite (proj2 (zget_Some _ _ kEpochNotReady)); [done|]. split; [lia|]. by rewrite Nat2Z.id. }
  assert (∀ i, 0 ≤ i < n → i ∈ concat gs) as Hall.
  { intros i Hi. apply (scheduled_iff _ _ _ Hs3). intros He. apply negb_true_iff in Hex.
    assert (existsb (λ e, e =? kEpochNotReady) (node_epochs_ s3) = true) as Ht; [|congruence].
    apply existsb_exists. exists kEpochNotReady. split; [|done]. apply list_elem_of_In.
    apply (zget_elem _ i). rewrite <- He. apply vat_zget. by rewrite (iv_epochs _ _ Hs3). }
  wp_steps. eapply wp_mono; [by apply (mark_graph_outputs_spec gs)| |done].
  intros _ s4 (Hs4 & Hl4 & Hb4). wp_steps. exists gs. by apply (partitioned_end gs s3 s4).
Qed.
End partition.

(** ** The entry point *)

Section entry.
Context `{StdSort}.

(** Indices of the graph are in range and a tensor has one producer. *)
Record valid_graph (info : GraphInfo) : Prop := {
  gi_reads i t : reads info i t → 0 ≤ t < num_tensors info;
  gi_writes i t : writes info i t → 0 ≤ t < num_tensors info;
  gi_producer i j t : writes info i t → writes info j t → i = j;
  gi_index : length (node_index info) = length (execution_nodes info);
  gi_original x : x ∈ node_index info → 0 ≤ x < num_total_nodes info;
  gi_outputs t : t ∈ graph_outputs info → 0 ≤ t < num_tensors info
}.

Lemma populate_node_types_spec info ns :
  Forall (λ i, IsValidIndex i (num_total_nodes info) = true) ns →
  zlen (populate_node_types info ns) = Z.max 0 (num_total_nodes info) ∧
  ∀ x, 0 ≤ x < num_total_nodes info →
    vat kTfUnexplored (populate_node_types info ns) x =
      if decide (x ∈ ns) then kTfPartition else kTfNonPartition.
Proof.
  intros Hns. unfold populate_node_types.
  assert (∀ l, zlen l = Z.max 0 (num_total_nodes info) →
    zlen (foldl (λ types i, zset i kTfPartition types) l ns) = Z.max 0 (num_total_nodes info) ∧
    ∀ x, 0 ≤ x < num_total_nodes info →
      vat kTfUnexplored (foldl (λ types i, zset i kTfPartition types) l ns) x =
        if decide (x ∈ ns) then kTfPartition else vat kTfUnexplored l x) as Hgen.
  { induction Hns as [|i ns Hi Hns IH]; intros l Hl; simpl.
    - by split.
    - unfold IsValidIndex in Hi. apply andb_true_iff in Hi as [Hi1%Z.leb_le Hi2%Z.ltb_lt].
      destruct (IH (zset i kTfPartition l)) as [Hlen Hx]; [by rewrite zset_length|]. split; [done|].
      intros x Hr. rewrite Hx by done. destruct (decide (x ∈ ns)) as [Hin|Hin].
      + rewrite decide_True; [done|]. by right.
      + destruct (decide (x = i)) as [->|Hne].
        * rewrite decide_True by by left. rewrite vat_zset_eq; [done|lia].
        * rewrite decide_False by (intros [?|?]%elem_of_cons; done). rewrite vat_zset_ne by (lia || done). done. }
  destruct (Hgen (replicate (Z.to_nat (num_total_nodes info)) kTfNonPartition)) as [Hlen Hx].
  { rewrite length_replicate. lia. }
  split; [done|]. intros x Hr. rewrite Hx by done. case_decide; [done|]. unfold vat.
  rewrite (proj2 (zget_Some _ _ kTfNonPartition)); [done|]. split; [lia|]. apply lookup_replicate. split; [done|lia].
Qed.

Lemma entry_well_formed info ns es :
  valid_graph info → ValidateNodesToPartition info ns = true → ValidateControlEdges info es = true →
  well_formed info (populate_node_types info ns) (Uniquefy edge_lt es).
Proof.
  intros [V1 V2 V3 V4 V5 V6] Hns Hes.
  assert (Forall (λ i, IsValidIndex i (num_total_nodes info) = true) ns) as Hns'.
  { apply Forall_forall. intros i Hi. eapply forallb_forall in Hns; [exact Hns|by apply list_elem_of_In]. }
  destruct (populate_node_types_spec info ns Hns') as [Hlen Hty].
  assert (∀ e, e ∈ Uniquefy edge_lt es → 0 ≤ e.1 < num_execution_nodes info ∧ 0 ≤ e.2 < num_execution_nodes info) as He.
  { intros e He. rewrite Uniquefy_elem in He by apply edge_lt_strict_weak.
    eapply forallb_forall in Hes; [|by apply list_elem_of_In]. unfold IsValidIndex in Hes.
    rewrite !andb_true_iff, !Z.leb_le, !Z.ltb_lt in Hes. lia. }
  split; try done.
  - intros i Hi. rewrite Hlen. unfold num_execution_nodes in Hi. rewrite <- V4 in Hi.
    apply (vat_zget (-1)), zget_elem, V5 in Hi. unfold original. lia.
  - intros ty (k & Hk)%list_elem_of_lookup. pose proof (lookup_lt_Some _ _ _ Hk) as Hlt.
    assert (vat kTfUnexplored (populate_node_types info ns) (Z.of_nat k) = ty) as <-.
    { unfold vat. rewrite (proj2 (zget_Some _ _ ty)); [done|]. rewrite Nat2Z.id. split; [lia|done]. }
    rewrite Hty by lia. by case_decide.
  - apply Uniquefy_sorted; [apply edge_lt_strict_weak|apply edge_lt_total].
Qed.

(** The type of a subset says which of the nodes to partition it has: all of its
    nodes, or none. *)
Definition typed_by (ns : list Z) (b : NodeSubset) : Prop :=
  (type b = kTfPartition ∧ ∀ x, x ∈ nodes b → x ∈ ns) ∨
  (type b = kTfNonPartition ∧ ∀ x, x ∈ nodes b → x ∉ ns).

Lemma partitioned_typed info ns es greedily fuse gs subsets b :
  valid_graph info → ValidateNodesToPartition info ns = true →
  partitioned info (populate_node_types info ns) greedily es fuse gs subsets → b ∈ subsets → typed_by ns b.
Proof.
  intros [V1 V2 V3 V4 V5 V6] Hns [P1 P2 P3 _ _ _ _ _ _] Hb.
  assert (Forall (λ i, IsValidIndex i (num_total_nodes info) = true) ns) as Hns'.
  { apply Forall_forall. intros i Hi. eapply forallb_forall in Hns; [exact Hns|by apply list_elem_of_In]. }
  destruct (populate_node_types_spec info ns Hns') as [Hlen Hty].
  apply list_elem_of_lookup in Hb as [k Hk].
  assert (∃ grp, gs !! k = Some grp) as [grp Hg].
  { apply lookup_lt_is_Some. rewrite <- P1. by apply lookup_lt_Some in Hk. }
  destruct (P3 k grp b Hg Hk) as (Hne & Hnodes & Htype).
  assert (∀ i, i ∈ grp → 0 ≤ i < num_execution_nodes info) as Hr.
  { intros i Hi. apply elem_of_range. rewrite <- P2. apply elem_of_groups. eauto. }
  assert (∀ i, i ∈ grp → type b = if decide (original info i ∈ ns) then kTfPartition else kTfNonPartition) as Hb.
  { intros i Hi. rewrite <- (Htype i Hi). unfold type_of. apply Hty. pose proof (Hr i Hi) as Hi'.
    unfold num_execution_nodes in Hi'. rewrite <- V4 in Hi'. by apply (vat_zget (-1)), zget_elem, V5 in Hi'. }
  unfold typed_by. rewrite Hnodes. destruct grp as [|x grp]; [done|]. pose proof (Hb x ltac:(by left)) as Hx.
  destruct (decide (original info x ∈ ns)) as [Hin|Hin]; [left|right]; (split; [done|]);
    intros y (i & -> & Hi)%list_elem_of_fmap; specialize (Hb i Hi); rewrite Hx in Hb; by case_decide.
Qed.

Lemma partition_spec info ns greedily ctl fuse s :
  valid_graph info →
  let es := default (default_control_edges info greedily) ctl in
  wp (PartitionGraphIntoIndependentNodeSubsets info ns greedily ctl fuse)
    (λ _ s', (∃ gs, partitioned info (populate_node_types info ns) greedily (Uniquefy edge_lt es) fuse gs
                      (node_subsets_ s')) ∧
             ∀ b, b ∈ node_subsets_ s' → typed_by ns b)
    (λ _, ValidateNodesToPartition info ns = false ∨ ValidateControlEdges info es = false ∨
          ∃ stuck, deadlock info (Uniquefy edge_lt es) stuck) s.
Proof.
  intros Hv es. unfold PartitionGraphIntoIndependentNodeSubsets. fold es.
  apply wp_bind, wp_ensure; [|by left]. intros Hns. apply wp_bind, wp_ensure; [|by right; left]. intros Hes.
  eapply wp_mono; [apply Partition_spec; by apply entry_well_formed|simpl|by auto].
  intros _ s' [gs Hgs]. split; [by exists gs|]. intros b Hb. by eapply partitioned_typed.
Qed.

(** C6: [PartitionGraphIntoIndependentNodeSubsets] returns on every graph and has no
    undefined behaviour. If it succeeds, every node of the execution plan is in one
    subset, each subset is non-empty and made only of nodes to partition or only
    of others, a node comes after the nodes it depends on by data or control edges,
    inputs and outputs of a subset are exactly the tensors that cross its
    boundary, sorted without duplicates, and greedily no subset could have taken
    another node. If it fails, an index was invalid or some nodes wait for each
    other. *)
Theorem partition_correct info ns greedily ctl fuse s :
  valid_graph info →
  let es := default (default_control_edges info greedily) ctl in
  wp (PartitionGraphIntoIndependentNodeSubsets info ns greedily ctl fuse)
    (λ _ s', (∃ gs, partitioned info (populate_node_types info ns) greedily (Uniquefy edge_lt es) fuse gs
                      (node_subsets_ s')) ∧
             ∀ b, b ∈ node_subsets_ s' → typed_by ns b)
    (λ _, ValidateNodesToPartition info ns = false ∨ ValidateControlEdges info es = false ∨
          ∃ stuck, deadlock info (Uniquefy edge_lt es) stuck) s.
Proof. exact (partition_spec info ns greedily ctl fuse s). Qed.

(** ** Ordered graphs *)

(** The next edge of the side-effect chain from position [i], where [last] is the
    last node with side effects. *)
Lemma side_effect_chain_edges last i ns e :
  last < i → e ∈ side_effect_chain last i ns →
  e.1 < e.2 ∧ (e.1 = last ∧ last ≠ -1 ∨ i ≤ e.1) ∧ i ≤ e.2 < i + zlen ns.
Proof.
  revert last i. induction ns as [|node ns IH]; intros last i Hlt; simpl; [by intros ?%elem_of_nil|].
  destruct (might_have_side_effect node).
  - intros [He|He]%elem_of_app.
    + destruct (Z.eqb_spec last (-1)); simpl in He; [by apply elem_of_nil in He|].
      apply list_elem_of_singleton in He as ->. simpl. lia.
    + destruct (IH i (i + 1) ltac:(lia) He) as (? & ? & ?). lia.
  - intros He. destruct (IH last (i + 1) ltac:(lia) He) as (? & ? & ?). lia.
Qed.

Lemma default_edges_forward info greedily e :
  e ∈ default_control_edges info greedily → e.1 < e.2 ∧ 0 ≤ e.1 ∧ e.2 < num_execution_nodes info.
Proof.
  unfold default_control_edges. destruct greedily; [|by intros ?%elem_of_nil].
  intros He. apply side_effect_chain_edges in He; [|lia]. unfold num_execution_nodes. lia.
Qed.

Lemma default_edges_valid info greedily : ValidateControlEdges info (default_control_edges info greedily) = true.
Proof.
  apply forallb_forall. intros e He. apply list_elem_of_In, default_edges_forward in He.
  unfold IsValidIndex. rewrite !andb_true_iff, !Z.leb_le, !Z.ltb_lt. lia.
Qed.

(** C21: A graph in dependency order, as the function's documentation assumes, is
    always partitioned, also with the default control edges and with any valid
    control edges that point forward; not greedily the subsets then keep the
    order of the nodes. *)
Theorem ordered_graph_partitioned info ns greedily ctl fuse s :
  valid_graph info → ValidateNodesToPartition info ns = true →
  (∀ i j t, reads info i t → writes info j t → j < i) →
  (∀ es, ctl = Some es → ValidateControlEdges info es = true ∧ ∀ e, e ∈ es → e.1 < e.2) →
  wp (PartitionGraphIntoIndependentNodeSubsets info ns greedily ctl fuse)
    (λ _ s', greedily = false → concat (nodes <$> node_subsets_ s') = node_index info)
    (λ _, False) s.
Proof.
  intros Hv Hns Hdata Hctl. unfold PartitionGraphIntoIndependentNodeSubsets.
  rewrite Hns. set (es := default _ _).
  assert (ValidateControlEdges info es = true ∧ ∀ e, e ∈ es → e.1 < e.2) as [Hes Hfw].
  { unfold es. destruct ctl as [es'|]; simpl; [by apply Hctl|]. split; [apply default_edges_valid|].
    intros e He. apply default_edges_forward in He. lia. }
  rewrite Hes. wp_steps. pose proof (entry_well_formed info ns es Hv Hns Hes) as Hwf.
  assert (dependency_ordered info (Uniquefy edge_lt es)) as Hdep.
  { split; [done|]. intros e He. apply Hfw. by rewrite Uniquefy_elem in He by apply edge_lt_strict_weak. }
  eapply wp_mono; [by apply Partition_spec|simpl|].
  - intros _ s' [gs [P1 P2 P3 _ _ _ _ _ P9]] Hg. specialize (P9 Hg Hdep).
    assert (nodes <$> node_subsets_ s' = (λ grp, original info <$> grp) <$> gs) as ->.
    { apply list_eq. intros k. rewrite !list_lookup_fmap.
      destruct (node_subsets_ s' !! k) as [b|] eqn:Hb, (gs !! k) as [grp|] eqn:Hgk; simpl; try done.
      - by destruct (P3 k grp b Hgk Hb) as (_ & -> & _).
      - apply lookup_ge_None in Hgk. apply lookup_lt_Some in Hb. lia.
      - apply lookup_ge_None in Hb. apply lookup_lt_Some in Hgk. lia. }
    assert (concat ((λ grp, original info <$> grp) <$> gs) = original info <$> concat gs) as ->.
    { clear. induction gs as [|grp gs IH]; [done|]. rewrite fmap_cons. cbn [concat].
      by rewrite IH, fmap_app. }
    rewrite P9. apply list_eq. intros k. rewrite list_lookup_fmap. pose proof (gi_index _ Hv) as Hix.
    destruct (node_index info !! k) as [x|] eqn:Hk.
    + pose proof (lookup_lt_Some _ _ _ Hk). unfold range. rewrite lookup_seqZ_lt; [|unfold num_execution_nodes; lia].
      simpl. f_equal. unfold original, vat. rewrite (proj2 (zget_Some _ _ x)); [done|].
      split; [lia|]. by rewrite Z.add_0_l, Nat2Z.id.
    + apply lookup_ge_None in Hk. unfold range. rewrite lookup_seqZ_ge; [done|]. unfold num_execution_nodes. lia.
  - intros _ [stuck Hs]. by eapply (ordered_no_deadlock info _ _ Hwf).
Qed.
End entry.

(** ** Side effects *)

Definition has_side_effect (info : GraphInfo) (i : Z) : Prop :=
  might_have_side_effect (vat no_node (execution_nodes info) i) = true.

(** A node with side effects that has one before it has an edge from the last of
    them. *)
Lemma side_effect_chain_covers last i ns k node :
  ns !! k = Some node → might_have_side_effect node = true →
  (last ≠ -1 ∨ ∃ k' node', (k' < k)%nat ∧ ns !! k' = Some node' ∧ might_have_side_effect node' = true) →
  0 ≤ i →
  ∃ p, (p, i + Z.of_nat k) ∈ side_effect_chain last i ns ∧
    (∀ k' node', (k' < k)%nat → ns !! k' = Some node' → might_have_side_effect node' = true → i + Z.of_nat k' ≤ p) ∧
    ((p = last ∧ last ≠ -1) ∨ ∃ k' node', (k' < k)%nat ∧ ns !! k' = Some node' ∧
       might_have_side_effect node' = true ∧ p = i + Z.of_nat k').
Proof.
  revert last i k. induction ns as [|x ns IH]; intros last i k Hk Hse Hbefore Hi; [done|].
  destruct k as [|k]; simpl in Hk.
  - injection Hk as ->. simpl. rewrite Hse. destruct Hbefore as [Hl|(k' & ? & Hlt & _)]; [|lia].
    exists last. rewrite (proj2 (Z.eqb_neq _ _) Hl). simpl. rewrite Z.add_0_r.
    split; [by left|]. split; [intros; lia|by left].
  - destruct (might_have_side_effect x) eqn:Hx; simpl; rewrite Hx.
    + destruct (IH i (i + 1) k Hk Hse ltac:(left; lia) ltac:(lia)) as (p & Hp & Hlast & Hor).
      assert (i ≤ p) as Hip.
      { destruct Hor as [[-> _]|(k' & node' & _ & _ & _ & ->)]; lia. }
      exists p. split_and!.
      * apply elem_of_app. right. by replace (i + Z.of_nat (S k)) with (i + 1 + Z.of_nat k) by lia.
      * intros [|k'] node' Hlt Hk' Hse'; [lia|].
        replace (i + Z.of_nat (S k')) with (i + 1 + Z.of_nat k') by lia. eapply Hlast; [lia|done..].
      * right. destruct Hor as [[-> _]|(k' & node' & Hlt & Hk' & Hse' & ->)].
        -- exists 0%nat, x. split_and!; [lia|done|done|lia].
        -- exists (S k'), node'. split_and!; [lia|done|done|lia].
    + destruct (IH last (i + 1) k Hk Hse) as (p & Hp & Hlast & Hor); [|lia|].
      { destruct Hbefore as [?|([|k'] & node' & Hlt & Hk' & Hse')]; [by left|simpl in Hk'; congruence|].
        right. exists k', node'. split_and!; [lia|done..]. }
      exists p. split_and!.
      * by replace (i + Z.of_nat (S k)) with (i + 1 + Z.of_nat k) by lia.
      * intros [|k'] node' Hlt Hk' Hse'; [simpl in Hk'; congruence|].
        replace (i + Z.of_nat (S k')) with (i + 1 + Z.of_nat k') by lia. eapply Hlast; [lia|done..].
      * destruct Hor as [?|(k' & node' & Hlt & Hk' & Hse' & ->)]; [by left|right].
        exists (S k'), node'. split_and!; [lia|done|done|lia].
Qed.

Lemma side_effect_pred info i j :
  has_side_effect info i → has_side_effect info j → 0 ≤ i < j → j < num_execution_nodes info →
  ∃ p, (p, j) ∈ default_control_edges info true ∧ i ≤ p < j ∧ has_side_effect info p.
Proof.
  unfold has_side_effect, default_control_edges, num_execution_nodes. intros Hi Hj Hij Hjn.
  assert (∀ x, 0 ≤ x < zlen (execution_nodes info) →
    execution_nodes info !! Z.to_nat x = Some (vat no_node (execution_nodes info) x)) as Hl.
  { intros x Hx. by apply (vat_zget no_node), zget_Some in Hx as [_ ?]. }
  destruct (side_effect_chain_covers (-1) 0 (execution_nodes info) (Z.to_nat j) _ (Hl j ltac:(lia)) Hj)
    as (p & Hp & Hlast & Hor); [|lia|].
  { right. exists (Z.to_nat i), (vat no_node (execution_nodes info) i).
    split_and!; [lia|apply Hl; lia|done]. }
  exists p. split; [by replace j with (0 + Z.of_nat (Z.to_nat j)) by lia|].
  pose proof (Hlast (Z.to_nat i) _ ltac:(lia) (Hl i ltac:(lia)) Hi) as Hip.
  destruct Hor as [[-> ?]|(k' & node' & Hlt & Hk' & Hse & ->)]; [done|]. split; [lia|].
  unfold vat. rewrite (proj2 (zget_Some _ _ node')); [done|]. split; [lia|].
  by rewrite Z.add_0_l, Nat2Z.id.
Qed.

(** Greedily and without explicit control edges, nodes that might have side
    effects keep their relative order, whatever else is reordered. *)
Theorem side_effects_keep_order `{StdSort} info ns fuse s :
  valid_graph info →
  wp (PartitionGraphIntoIndependentNodeSubsets info ns true None fuse)
    (λ _ s', ∃ gs, concat gs ≡ₚ range 0 (num_execution_nodes info) ∧
       (∀ k grp b, gs !! k = Some grp → node_subsets_ s' !! k = Some b → nodes b = original info <$> grp) ∧
       ∀ i j pre post, has_side_effect info i → has_side_effect info j → 0 ≤ i < j →
         concat gs = pre ++ j :: post → i ∈ pre)
    (λ _, True) s.
Proof.
  intros Hv. unfold PartitionGraphIntoIndependentNodeSubsets. simpl.
  apply wp_bind, wp_ensure; [|done]. intros Hns. apply wp_bind, wp_ensure; [|done]. intros Hes.
  eapply wp_mono; [apply Partition_spec; by apply entry_well_formed|simpl|done].
  intros _ s' [gs [P1 P2 P3 _ _ _ P7 _ _]]. exists gs. split; [done|]. split.
  { intros k grp b Hk Hb. by apply (P3 k grp b). }
  intros i j pre post Hi Hj Hij Heq.
  assert (∀ fuel x pre post, (Z.to_nat x < fuel)%nat → has_side_effect info x → i < x →
    concat gs = pre ++ x :: post → i ∈ pre) as Hgen; [|by apply (Hgen (S (Z.to_nat j)) j pre post); [lia|..|lia|]].
  clear j pre post Hj Hij Heq. 
  assert (0 ≤ i) as Hi0.
  { destruct (decide (0 ≤ i)) as [|Hn]; [done|]. exfalso. revert Hi. unfold has_side_effect, vat, zget.
    by rewrite (proj2 (Z.leb_gt _ _)) by lia. }
  induction fuel as [|fuel IH]; intros x pre post Hf Hx Hlt Heq; [lia|].
  assert (x < num_execution_nodes info) as Hxn.
  { apply (elem_of_range 0 (num_execution_nodes info) x). rewrite <- P2, Heq. in_list. }
  destruct (side_effect_pred info i x Hi Hx ltac:(lia) Hxn) as (p & Hp & Hip & Hsp).
  assert (p ∈ pre) as Hpp.
  { eapply P7; [exact Heq|]. right. by apply Uniquefy_elem; [apply edge_lt_strict_weak|]. }
  destruct (decide (p = i)) as [->|Hne]; [done|]. apply list_elem_of_split in Hpp as (l1 & l2 & ->).
  rewrite <- app_assoc in Heq. simpl in Heq. apply elem_of_app. left.
  eapply (IH p l1); [lia|done|lia|exact Heq].
Qed.

(** ** The example of the header *)

(** The graph in the documentation of the function: nodes 2 and 3 are to be
    partitioned. *)
Definition doc_graph : GraphInfo := {|
  num_tensors := 7; num_total_nodes := 6;
  execution_nodes := [
    {| inputs := [0]; outputs := [1]; might_have_side_effect := false |};
    {| inputs := [1]; outputs := [2]; might_have_side_effect := true |};
    {| inputs := [2]; outputs := [3]; might_have_side_effect := false |};
    {| inputs := [3; 1]; outputs := [4]; might_have_side_effect := false |};
    {| inputs := [2; -1]; outputs := [5]; might_have_side_effect := false |};
    {| inputs := [5; 4]; outputs := [6]; might_have_side_effect := true |} ];
  node_index := [0; 1; 2; 3; 4; 5]; graph_outputs := [6]
|}.

Definition no_partitioner : Partitioner :=
  {| node_subsets_ := []; tensor_epochs_ := []; node_epochs_ := []; num_incoming_control_edges_ := [] |}.

(** The nodes of the subsets of a successful run. *)
Definition subsets_of (o : outcome Partitioner unit) : option (list (list Z)) :=
  match o with Done _ s => Some (nodes <$> node_subsets_ s) | _ => None end.

Lemma doc_graph_node i t :
  reads doc_graph i t ∨ writes doc_graph i t →
  (i = 0 ∧ (t = 0 ∨ t = 1)) ∨ (i = 1 ∧ (t = 1 ∨ t = 2)) ∨ (i = 2 ∧ (t = 2 ∨ t = 3)) ∨
  (i = 3 ∧ (t = 3 ∨ t = 1 ∨ t = 4)) ∨ (i = 4 ∧ (t = 2 ∨ t = 5)) ∨ (i = 5 ∧ (t = 5 ∨ t = 4 ∨ t = 6)).
Proof.
  unfold reads, writes. intros Ht. assert (0 ≤ i < 6) as Hi.
  { destruct (decide (0 ≤ i < 6)) as [|Hn]; [done|]. exfalso.
    assert (vat no_node (execution_nodes doc_graph) i = no_node) as Hv.
    { unfold vat. destruct (zget (execution_nodes doc_graph) i) eqn:Hz; [|done].
      apply zget_range in Hz. simpl in Hz. lia. }
    rewrite Hv in Ht. simpl in Ht. rewrite elem_of_nil in Ht. tauto. }
  assert (i = 0 ∨ i = 1 ∨ i = 2 ∨ i = 3 ∨ i = 4 ∨ i = 5) as Hc by lia.
  destruct Hc as [Hc|[Hc|[Hc|[Hc|[Hc|Hc]]]]]; subst i; unfold vat in Ht; simpl in Ht;
    rewrite ?elem_of_cons, ?elem_of_nil in Ht; lia.
Qed.

Lemma doc_graph_writes i t : writes doc_graph i t → t = i + 1 ∧ 0 ≤ i < 6.
Proof.
  intros Hw. assert (0 ≤ i < 6) as Hi by by apply writes_range in Hw. split; [|done].
  assert (i = 0 ∨ i = 1 ∨ i = 2 ∨ i = 3 ∨ i = 4 ∨ i = 5) as Hc by lia.
  destruct Hw as [Hw Hne]. destruct Hc as [Hc|[Hc|[Hc|[Hc|[Hc|Hc]]]]]; subst i; unfold vat in Hw;
    simpl in Hw; by apply list_elem_of_singleton in Hw.
Qed.

Lemma doc_graph_valid : valid_graph doc_graph.
Proof.
  split.
  - intros i t Hr. pose proof (doc_graph_node i t (or_introl Hr)). simpl. lia.
  - intros i t Hw. apply doc_graph_writes in Hw. simpl. lia.
  - intros i j t Hi%doc_graph_writes Hj%doc_graph_writes. lia.
  - done.
  - intros x Hx. simpl in Hx. rewrite !elem_of_cons, elem_of_nil in Hx. simpl. lia.
  - intros t Ht%list_elem_of_singleton. simpl. lia.
Qed.

Lemma doc_graph_ordered i j t : reads doc_graph i t → writes doc_graph j t → j < i.
Proof.
  intros [Hr Hne] Hw%doc_graph_writes. assert (0 ≤ i < 6) as Hi.
  { pose proof (doc_graph_node i t (or_introl (conj Hr Hne))). lia. }
  assert (i = 0 ∨ i = 1 ∨ i = 2 ∨ i = 3 ∨ i = 4 ∨ i = 5) as Hc by lia.
  destruct Hc as [Hc|[Hc|[Hc|[Hc|[Hc|Hc]]]]]; subst i; unfold vat in Hr; simpl in Hr;
    rewrite ?elem_of_cons, ?elem_of_nil in Hr; lia.
Qed.

(** On the graph of its documentation the function computes what the
    documentation says: greedily {{0, 1, 4}, {2, 3}, {5}}, with the control edge
    (3, 4) {{0, 1}, {2, 3}, {4, 5}}; and it reports an error for a control cycle. *)
Example documented_partitions :
  let run greedily es := subsets_of
    (PartitionGraphIntoIndependentNodeSubsets doc_graph [2; 3] greedily es false no_partitioner) in
  run true (Some []) = Some [[0; 1; 4]; [2; 3]; [5]] ∧
  run true (Some [(3, 4)]) = Some [[0; 1]; [2; 3]; [4; 5]] ∧
  run false None = Some [[0; 1]; [2; 3]; [4; 5]] ∧
  run true (Some [(4, 3); (3, 4)]) = None.
Proof. vm_compute. done. Qed.

Lemma partition_correct_witness :
  valid_graph doc_graph ∧
  let es := default (default_control_edges doc_graph true) None in
  wp (PartitionGraphIntoIndependentNodeSubsets doc_graph [2; 3] true None false)
    (λ _ s', (∃ gs, partitioned doc_graph (populate_node_types doc_graph [2; 3]) true
                      (Uniquefy edge_lt es) false gs (node_subsets_ s')) ∧
             ∀ b, b ∈ node_subsets_ s' → typed_by [2; 3] b)
    (λ _, ValidateNodesToPartition doc_graph [2; 3] = false ∨ ValidateControlEdges doc_graph es = false ∨
          ∃ stuck, deadlock doc_graph (Uniquefy edge_lt es) stuck) no_partitioner.
Proof. split; [exact doc_graph_valid|]. apply partition_correct. exact doc_graph_valid. Defined.

Lemma ordered_graph_partitioned_witness :
  valid_graph doc_graph ∧ ValidateNodesToPartition doc_graph [2; 3] = true ∧
  wp (PartitionGraphIntoIndependentNodeSubsets doc_graph [2; 3] false None false)
    (λ _ s', false = false → concat (nodes <$> node_subsets_ s') = [0; 1; 2; 3; 4; 5])
    (λ _, False) no_partitioner.
Proof.
  split; [exact doc_graph_valid|]. split; [reflexivity|].
  apply ordered_graph_partitioned; [exact doc_graph_valid|reflexivity|exact doc_graph_ordered|discriminate].
Defined.

Lemma side_effects_keep_order_witness :
  subsets_of (PartitionGraphIntoIndependentNodeSubsets doc_graph [2; 3] true None false no_partitioner)
    = Some [[0; 1; 4]; [2; 3]; [5]] ∧
  wp (PartitionGraphIntoIndependentNodeSubsets doc_graph [2; 3] true None false)
    (λ _ s', ∃ gs, concat gs ≡ₚ range 0 6 ∧
       (∀ k grp b, gs !! k = Some grp → node_subsets_ s' !! k = Some b → nodes b = original doc_graph <$> grp) ∧
       ∀ i j pre post, has_side_effect doc_graph i → has_side_effect doc_graph j → 0 ≤ i < j →
         concat gs = pre ++ j :: post → i ∈ pre)
    (λ _, True) no_partitioner.
Proof. split; [vm_compute; reflexivity|]. apply side_effects_keep_order. exact doc_graph_valid. Defined.
