(* ===== verification/Subgraph.v ===== *)
(** * The subgraph of the interpreter ([src/tflite/core/subgraph.{h,cc}])

    A [Subgraph] holds the nodes and tensors of a graph, the execution plan and a
    state that says whether it can be invoked. Delegates replace nodes by kernels
    of their own ([ModifyGraphWithDelegate]); [AllocateTensors] prepares the nodes
    and plans their memory; [Invoke] runs the plan, preparing what depends on
    dynamic tensors on the way. The kernels, the delegates and the planner are
    behind function pointers, here components of a record or of a class. *)

From S2P Require Import Prelude GraphPartition ArenaPlanner.

(** ** Data *)

Inductive TfLiteStatus :=
| kTfLiteOk | kTfLiteError | kTfLiteDelegateError | kTfLiteApplicationError
| kTfLiteDelegateDataNotFound | kTfLiteDelegateDataWriteError | kTfLiteDelegateDataReadError
| kTfLiteUnresolvedOps | kTfLiteCancelled | kTfLiteOutputShapeNotKnown.

#[export] Instance status_eq_dec : EqDecision TfLiteStatus.
Proof. solve_decision. Defined.

Inductive TfLiteType :=
| kTfLiteNoType | kTfLiteFloat32 | kTfLiteInt32 | kTfLiteUInt8 | kTfLiteInt64 | kTfLiteString
| kTfLiteBool | kTfLiteInt16 | kTfLiteComplex64 | kTfLiteInt8 | kTfLiteFloat16 | kTfLiteFloat64
| kTfLiteComplex128 | kTfLiteUInt64 | kTfLiteResource | kTfLiteVariant | kTfLiteUInt32
| kTfLiteUInt16 | kTfLiteInt4 | kTfLiteBFloat16 | kTfLiteInt2 | kTfLiteUInt4.

#[export] Instance tensor_type_eq_dec : EqDecision TfLiteType.
Proof. solve_decision. Defined.

(** Delegates are known by their addresses. *)
Definition TfLiteDelegate := Z.
Definition kTfLiteNullBufferHandle : Z := -1.

Record TfLiteTensor := {
  type : TfLiteType;
  dims : option (list Z);
  dims_signature : list Z;
  bytes : Z;
  data : Z;
  allocation_type : TfLiteAllocationType;
  is_variable : bool;
  zero_point : Z;
  tensor_delegate : option TfLiteDelegate;
  buffer_handle : Z;
  data_is_stale : bool
}.

(** [TfLiteDelegateParams], or the parameters of a builtin operation. *)
Inductive BuiltinData :=
| DelegateParams (delegate : TfLiteDelegate) (nodes_to_replace input_tensors output_tensors : list Z)
| OtherParams (params : Z).

(** The arrays of a node are freed by [CleanupNode] and when its kernel fails to
    initialise; the pointers to them stay. *)
Record TfLiteNode := {
  inputs : list Z;
  outputs : list Z;
  temporaries : list Z;
  builtin_data : option BuiltinData;
  user_data : Z;
  delegate : option TfLiteDelegate;
  might_have_side_effect : bool;
  arrays_freed : bool
}.

(** What kernels and the planner share with the subgraph, and what only they know. *)
Record TfLiteContext (W : Type) := {
  tensors_ : list TfLiteTensor;
  tensor_resized_since_op_invoke_ : bool;
  world : W
}.
Arguments tensors_ {W} _.
Arguments tensor_resized_since_op_invoke_ {W} _.
Arguments world {W} _.

(** A kernel gets the context and the node. *)
Definition Kernel (W : Type) : Type := M (TfLiteNode * TfLiteContext W) TfLiteStatus.

(** [init] returns no value for [TfLiteKernelInitFailed()]. *)
Record TfLiteRegistration (W : Type) := {
  builtin_code : Z;
  init : option (option BuiltinData → M W (option Z));
  free : option (Z → M W unit);
  prepare : option (Kernel W);
  invoke : option (Kernel W);
  unresolved_invoke : bool;
  inplace_operator : Z
}.
Arguments builtin_code {W} _.
Arguments init {W} _.
Arguments free {W} _.
Arguments prepare {W} _.
Arguments invoke {W} _.
Arguments unresolved_invoke {W} _.
Arguments inplace_operator {W} _.

Definition kTfLiteBuiltinDequantize : Z := 6.
Definition kTfLiteBuiltinReshape : Z := 22.
Definition BuiltinOperator_CUSTOM : Z := 32.
Definition BuiltinOperator_DELEGATE : Z := 51.
Definition kTfLiteBuiltinIf : Z := 118.
Definition kTfLiteBuiltinWhile : Z := 119.
Definition kTfLiteBuiltinCallOnce : Z := 129.

Inductive State := kStateUninvokable | kStateInvokable | kStateInvokableAndImmutable.

#[export] Instance state_eq_dec : EqDecision State.
Proof. solve_decision. Defined.

Record TfLiteCustomAllocation := { custom_data : Z; custom_bytes : Z }.

Record InterpreterOptions := {
  preserve_all_tensors : bool;
  disable_delegate_clustering : bool;
  ensure_dynamic_tensors_are_released : bool;
  dynamic_allocation_for_large_tensors : Z
}.

(** What is fixed while a graph is delegated and run. *)
Record Config (W : Type) := {
  inputs_ : list Z;
  outputs_ : list Z;
  variables_ : list Z;
  options_ : option InterpreterOptions;
  control_edges_ : option (list ControlEdge);
  check_cancelled_func_ : option (M W bool);
  continue_invocation_ : option (M W bool)
}.
Arguments inputs_ {W} _.
Arguments outputs_ {W} _.
Arguments variables_ {W} _.
Arguments options_ {W} _.
Arguments control_edges_ {W} _.
Arguments check_cancelled_func_ {W} _.
Arguments continue_invocation_ {W} _.

Record Execution := {
  state_ : State;
  consistent_ : bool;
  next_execution_plan_index_to_prepare_ : Z;
  next_original_execution_plan_index_to_prepare_ : Z;
  next_execution_plan_index_to_plan_allocation_ : Z;
  has_dynamic_tensors_ : bool;
  has_memory_planner : bool;
  custom_allocations_ : gmap Z TfLiteCustomAllocation;
  tensor_to_last_op_index_ : gmap Z Z
}.

Record Delegation := {
  pre_delegation_execution_plan_ : list Z;
  delegates_applied_ : list TfLiteDelegate;
  delegates_undone_ : bool;
  delegate_context_switch_count_ : Z
}.

Record Subgraph (W : Type) := {
  context_ : TfLiteContext W;
  config : Config W;
  nodes_and_registration_ : list (TfLiteNode * TfLiteRegistration W);
  execution_plan_ : list Z;
  execution : Execution;
  delegation : Delegation
}.
Arguments context_ {W} _.
Arguments config {W} _.
Arguments nodes_and_registration_ {W} _.
Arguments execution_plan_ {W} _.
Arguments execution {W} _.
Arguments delegation {W} _.

(** *** Updates *)

Definition set_delegate (d : option TfLiteDelegate) (t : TfLiteTensor) : TfLiteTensor :=
  {| type := type t; dims := dims t; dims_signature := dims_signature t; bytes := bytes t; data := data t;
     allocation_type := allocation_type t; is_variable := is_variable t; zero_point := zero_point t; tensor_delegate := d;
     buffer_handle := buffer_handle t; data_is_stale := data_is_stale t |}.
Definition set_memory (d b : Z) (t : TfLiteTensor) : TfLiteTensor :=
  {| type := type t; dims := dims t; dims_signature := dims_signature t; bytes := b; data := d;
     allocation_type := allocation_type t; is_variable := is_variable t; zero_point := zero_point t; tensor_delegate := tensor_delegate t;
     buffer_handle := buffer_handle t; data_is_stale := data_is_stale t |}.
Definition set_dims (d : option (list Z)) (t : TfLiteTensor) : TfLiteTensor :=
  {| type := type t; dims := d; dims_signature := dims_signature t; bytes := bytes t; data := data t;
     allocation_type := allocation_type t; is_variable := is_variable t; zero_point := zero_point t; tensor_delegate := tensor_delegate t;
     buffer_handle := buffer_handle t; data_is_stale := data_is_stale t |}.
Definition set_stale (b : bool) (t : TfLiteTensor) : TfLiteTensor :=
  {| type := type t; dims := dims t; dims_signature := dims_signature t; bytes := bytes t; data := data t;
     allocation_type := allocation_type t; is_variable := is_variable t; zero_point := zero_point t; tensor_delegate := tensor_delegate t;
     buffer_handle := buffer_handle t; data_is_stale := b |}.
Definition set_allocation (a : TfLiteAllocationType) (d : Z) (t : TfLiteTensor) : TfLiteTensor :=
  {| type := type t; dims := dims t; dims_signature := dims_signature t; bytes := bytes t; data := d;
     allocation_type := a; is_variable := is_variable t; zero_point := zero_point t; tensor_delegate := tensor_delegate t;
     buffer_handle := buffer_handle t; data_is_stale := data_is_stale t |}.

Definition set_zero_point (z : Z) (t : TfLiteTensor) : TfLiteTensor :=
  {| type := type t; dims := dims t; dims_signature := dims_signature t; bytes := bytes t; data := data t;
     allocation_type := allocation_type t; is_variable := is_variable t; zero_point := z;
     tensor_delegate := tensor_delegate t; buffer_handle := buffer_handle t; data_is_stale := data_is_stale t |}.

Definition set_inputs (l : list Z) (n : TfLiteNode) : TfLiteNode :=
  {| inputs := l; outputs := outputs n; temporaries := temporaries n; builtin_data := builtin_data n;
     user_data := user_data n; delegate := delegate n; might_have_side_effect := might_have_side_effect n;
     arrays_freed := arrays_freed n |}.
Definition set_node_delegate (d : option TfLiteDelegate) (n : TfLiteNode) : TfLiteNode :=
  {| inputs := inputs n; outputs := outputs n; temporaries := temporaries n; builtin_data := builtin_data n;
     user_data := user_data n; delegate := d; might_have_side_effect := might_have_side_effect n;
     arrays_freed := arrays_freed n |}.
Definition freed_node (n : TfLiteNode) : TfLiteNode :=
  {| inputs := inputs n; outputs := outputs n; temporaries := temporaries n; builtin_data := None;
     user_data := 0; delegate := delegate n; might_have_side_effect := might_have_side_effect n;
     arrays_freed := true |}.

Section updates.
Context {W : Type}.
Implicit Types (c : TfLiteContext W) (g : Subgraph W).

Definition set_tensors v c : TfLiteContext W :=
  {| tensors_ := v; tensor_resized_since_op_invoke_ := tensor_resized_since_op_invoke_ c; world := world c |}.
Definition set_resized v c : TfLiteContext W :=
  {| tensors_ := tensors_ c; tensor_resized_since_op_invoke_ := v; world := world c |}.
Definition set_world v c : TfLiteContext W :=
  {| tensors_ := tensors_ c; tensor_resized_since_op_invoke_ := tensor_resized_since_op_invoke_ c; world := v |}.

Definition set_context v g : Subgraph W :=
  {| context_ := v; config := config g; nodes_and_registration_ := nodes_and_registration_ g;
     execution_plan_ := execution_plan_ g; execution := execution g; delegation := delegation g |}.
Definition set_config v g : Subgraph W :=
  {| context_ := context_ g; config := v; nodes_and_registration_ := nodes_and_registration_ g;
     execution_plan_ := execution_plan_ g; execution := execution g; delegation := delegation g |}.
Definition set_nodes v g : Subgraph W :=
  {| context_ := context_ g; config := config g; nodes_and_registration_ := v;
     execution_plan_ := execution_plan_ g; execution := execution g; delegation := delegation g |}.
Definition set_plan v g : Subgraph W :=
  {| context_ := context_ g; config := config g; nodes_and_registration_ := nodes_and_registration_ g;
     execution_plan_ := v; execution := execution g; delegation := delegation g |}.
Definition set_execution v g : Subgraph W :=
  {| context_ := context_ g; config := config g; nodes_and_registration_ := nodes_and_registration_ g;
     execution_plan_ := execution_plan_ g; execution := v; delegation := delegation g |}.
Definition set_delegation v g : Subgraph W :=
  {| context_ := context_ g; config := config g; nodes_and_registration_ := nodes_and_registration_ g;
     execution_plan_ := execution_plan_ g; execution := execution g; delegation := v |}.
End updates.

Definition with_state v (e : Execution) : Execution :=
  {| state_ := v; consistent_ := consistent_ e; next_execution_plan_index_to_prepare_ := next_execution_plan_index_to_prepare_ e;
     next_original_execution_plan_index_to_prepare_ := next_original_execution_plan_index_to_prepare_ e;
     next_execution_plan_index_to_plan_allocation_ := next_execution_plan_index_to_plan_allocation_ e;
     has_dynamic_tensors_ := has_dynamic_tensors_ e; has_memory_planner := has_memory_planner e;
     custom_allocations_ := custom_allocations_ e; tensor_to_last_op_index_ := tensor_to_last_op_index_ e |}.
Definition with_consistent v (e : Execution) : Execution :=
  {| state_ := state_ e; consistent_ := v; next_execution_plan_index_to_prepare_ := next_execution_plan_index_to_prepare_ e;
     next_original_execution_plan_index_to_prepare_ := next_original_execution_plan_index_to_prepare_ e;
     next_execution_plan_index_to_plan_allocation_ := next_execution_plan_index_to_plan_allocation_ e;
     has_dynamic_tensors_ := has_dynamic_tensors_ e; has_memory_planner := has_memory_planner e;
     custom_allocations_ := custom_allocations_ e; tensor_to_last_op_index_ := tensor_to_last_op_index_ e |}.
Definition with_next_prepare v (e : Execution) : Execution :=
  {| state_ := state_ e; consistent_ := consistent_ e; next_execution_plan_index_to_prepare_ := v;
     next_original_execution_plan_index_to_prepare_ := next_original_execution_plan_index_to_prepare_ e;
     next_execution_plan_index_to_plan_allocation_ := next_execution_plan_index_to_plan_allocation_ e;
     has_dynamic_tensors_ := has_dynamic_tensors_ e; has_memory_planner := has_memory_planner e;
     custom_allocations_ := custom_allocations_ e; tensor_to_last_op_index_ := tensor_to_last_op_index_ e |}.
Definition with_next_original v (e : Execution) : Execution :=
  {| state_ := state_ e; consistent_ := consistent_ e; next_execution_plan_index_to_prepare_ := next_execution_plan_index_to_prepare_ e;
     next_original_execution_plan_index_to_prepare_ := v;
     next_execution_plan_index_to_plan_allocation_ := next_execution_plan_index_to_plan_allocation_ e;
     has_dynamic_tensors_ := has_dynamic_tensors_ e; has_memory_planner := has_memory_planner e;
     custom_allocations_ := custom_allocations_ e; tensor_to_last_op_index_ := tensor_to_last_op_index_ e |}.
Definition with_next_allocation v (e : Execution) : Execution :=
  {| state_ := state_ e; consistent_ := consistent_ e; next_execution_plan_index_to_prepare_ := next_execution_plan_index_to_prepare_ e;
     next_original_execution_plan_index_to_prepare_ := next_original_execution_plan_index_to_prepare_ e;
     next_execution_plan_index_to_plan_allocation_ := v;
     has_dynamic_tensors_ := has_dynamic_tensors_ e; has_memory_planner := has_memory_planner e;
     custom_allocations_ := custom_allocations_ e; tensor_to_last_op_index_ := tensor_to_last_op_index_ e |}.
Definition with_dynamic v (e : Execution) : Execution :=
  {| state_ := state_ e; consistent_ := consistent_ e; next_execution_plan_index_to_prepare_ := next_execution_plan_index_to_prepare_ e;
     next_original_execution_plan_index_to_prepare_ := next_original_execution_plan_index_to_prepare_ e;
     next_execution_plan_index_to_plan_allocation_ := next_execution_plan_index_to_plan_allocation_ e;
     has_dynamic_tensors_ := v; has_memory_planner := has_memory_planner e;
     custom_allocations_ := custom_allocations_ e; tensor_to_last_op_index_ := tensor_to_last_op_index_ e |}.
Definition with_planner v (e : Execution) : Execution :=
  {| state_ := state_ e; consistent_ := consistent_ e; next_execution_plan_index_to_prepare_ := next_execution_plan_index_to_prepare_ e;
     next_original_execution_plan_index_to_prepare_ := next_original_execution_plan_index_to_prepare_ e;
     next_execution_plan_index_to_plan_allocation_ := next_execution_plan_index_to_plan_allocation_ e;
     has_dynamic_tensors_ := has_dynamic_tensors_ e; has_memory_planner := v;
     custom_allocations_ := custom_allocations_ e; tensor_to_last_op_index_ := tensor_to_last_op_index_ e |}.
Definition with_custom v (e : Execution) : Execution :=
  {| state_ := state_ e; consistent_ := consistent_ e; next_execution_plan_index_to_prepare_ := next_execution_plan_index_to_prepare_ e;
     next_original_execution_plan_index_to_prepare_ := next_original_execution_plan_index_to_prepare_ e;
     next_execution_plan_index_to_plan_allocation_ := next_execution_plan_index_to_plan_allocation_ e;
     has_dynamic_tensors_ := has_dynamic_tensors_ e; has_memory_planner := has_memory_planner e;
     custom_allocations_ := v; tensor_to_last_op_index_ := tensor_to_last_op_index_ e |}.
Definition with_last_op v (e : Execution) : Execution :=
  {| state_ := state_ e; consistent_ := consistent_ e; next_execution_plan_index_to_prepare_ := next_execution_plan_index_to_prepare_ e;
     next_original_execution_plan_index_to_prepare_ := next_original_execution_plan_index_to_prepare_ e;
     next_execution_plan_index_to_plan_allocation_ := next_execution_plan_index_to_plan_allocation_ e;
     has_dynamic_tensors_ := has_dynamic_tensors_ e; has_memory_planner := has_memory_planner e;
     custom_allocations_ := custom_allocations_ e; tensor_to_last_op_index_ := v |}.

Definition with_pre_plan v (d : Delegation) : Delegation :=
  {| pre_delegation_execution_plan_ := v; delegates_applied_ := delegates_applied_ d;
     delegates_undone_ := delegates_undone_ d; delegate_context_switch_count_ := delegate_context_switch_count_ d |}.
Definition with_applied v (d : Delegation) : Delegation :=
  {| pre_delegation_execution_plan_ := pre_delegation_execution_plan_ d; delegates_applied_ := v;
     delegates_undone_ := delegates_undone_ d; delegate_context_switch_count_ := delegate_context_switch_count_ d |}.
Definition with_undone v (d : Delegation) : Delegation :=
  {| pre_delegation_execution_plan_ := pre_delegation_execution_plan_ d; delegates_applied_ := delegates_applied_ d;
     delegates_undone_ := v; delegate_context_switch_count_ := delegate_context_switch_count_ d |}.
Definition with_switch_count v (d : Delegation) : Delegation :=
  {| pre_delegation_execution_plan_ := pre_delegation_execution_plan_ d; delegates_applied_ := delegates_applied_ d;
     delegates_undone_ := delegates_undone_ d; delegate_context_switch_count_ := v |}.

(** ** Statuses

    A function returns a status and may have changed the state in any case. *)

Definition status_of (b : bool) : TfLiteStatus := if b then kTfLiteOk else kTfLiteError.

(** [TF_LITE_ENSURE_STATUS(m); k] or [TF_LITE_ENSURE_OK(context, m); k]. *)
Definition ensure_status {S} (m k : M S TfLiteStatus) : M S TfLiteStatus :=
  s ← m; if decide (s = kTfLiteOk) then k else mret s.
Notation "m ;! k" := (ensure_status m k) (at level 100, k at level 200, right associativity) : litert_scope.

(** [TF_LITE_ENSURE(condition)]. *)
Definition TF_LITE_ENSURE {S} (b : bool) : M S TfLiteStatus := mret (status_of b).

Fixpoint for_status {S A} (l : list A) (body : A → M S TfLiteStatus) : M S TfLiteStatus :=
  match l with
  | [] => mret kTfLiteOk
  | a :: l' => body a ;! for_status l' body
  end.

(** ** What is behind function pointers *)

(** The graph as the planner sees it: the nodes of the execution plan. *)
Record PlannerView (W : Type) := {
  plan_nodes : list (TfLiteNode * TfLiteRegistration W);
  view_inputs : list Z;
  view_outputs : list Z;
  view_variables : list Z;
  view_preserve_all_tensors : bool
}.
Arguments plan_nodes {W} _.
Arguments view_inputs {W} _.
Arguments view_outputs {W} _.
Arguments view_variables {W} _.
Arguments view_preserve_all_tensors {W} _.

(** [memory_planner.h]; [new_planner] is the construction of an [ArenaPlanner]. *)
Class MemoryPlanner (W : Type) := {
  new_planner : M (TfLiteContext W) unit;
  planner_PlanAllocations : PlannerView W → M (TfLiteContext W) TfLiteStatus;
  planner_ExecuteAllocations : PlannerView W → Z → Z → M (TfLiteContext W) TfLiteStatus;
  planner_ResetAllocations : M (TfLiteContext W) TfLiteStatus;
  planner_ResetAllocationsAfter : Z → M (TfLiteContext W) TfLiteStatus;
  planner_ReleaseNonPersistentMemory : M (TfLiteContext W) TfLiteStatus;
  planner_AcquireNonPersistentMemory : M (TfLiteContext W) TfLiteStatus;
  planner_HasNonPersistentMemory : W → bool
}.

Class CHeap (W : Type) := {
  malloc : Z → M W Z;
  heap_free : Z → M W unit;
  (** [delete] of a [VariantData] *)
  delete_variant : Z → M W unit;
  memset : Z → Z → Z → M W unit
}.

(** What a delegate does in its [Prepare]: it looks at the subgraph, redirects inputs
    of nodes and asks for nodes to be replaced as often as it likes, and returns a
    status. *)
Inductive DelegateRun (W : Type) :=
| Returns (status : TfLiteStatus) (w : W)
| Redirects (node_index : Z) (new_inputs : list Z) (next : TfLiteStatus → Subgraph W → DelegateRun W)
| Replaces (registration : TfLiteRegistration W) (nodes_to_replace : list Z) (w : W)
    (next : TfLiteStatus → Subgraph W → DelegateRun W).
Arguments Returns {W} status w.
Arguments Redirects {W} node_index new_inputs next.
Arguments Replaces {W} registration nodes_to_replace w next.

Class Delegates (W : Type) := {
  delegate_flags : TfLiteDelegate → Z;
  delegate_Prepare : TfLiteDelegate → Subgraph W → DelegateRun W;
  CopyFromBufferHandle : TfLiteDelegate → Z → Z → M (TfLiteContext W) TfLiteStatus
}.

Definition kTfLiteDelegateFlagsAllowDynamicTensors : Z := 1.
Definition kTfLiteDelegateFlagsRequirePropagatedShapes : Z := 2.
Definition kTfLiteDelegateFlagsHintFullyDelegatedToSingleDelegate : Z := 8.

Definition has_flag (flags f : Z) : bool := negb (Z.land flags f =? 0).

(** ** Sizes of tensors ([src/tflite/util.cc]) *)

Definition GetSizeOfType (t : TfLiteType) : option Z :=
  match t with
  | kTfLiteFloat32 | kTfLiteInt32 | kTfLiteUInt32 => Some 4
  | kTfLiteUInt8 | kTfLiteInt8 | kTfLiteBool | kTfLiteUInt4 | kTfLiteInt4 | kTfLiteInt2 => Some 1
  | kTfLiteInt64 | kTfLiteUInt64 | kTfLiteFloat64 | kTfLiteComplex64 => Some 8
  | kTfLiteComplex128 => Some 16
  | kTfLiteUInt16 | kTfLiteInt16 | kTfLiteFloat16 | kTfLiteBFloat16 => Some 2
  | kTfLiteNoType | kTfLiteString | kTfLiteResource | kTfLiteVariant => None
  end.

(** The product and whether no bit of it is lost; the division is only made when one
    of the factors has a bit in its upper half. *)
Definition MultiplyAndCheckOverflow (a b : Z) : bool * Z :=
  let product := u64 (a * b) in
  (if Z.shiftr (Z.lor a b) 32 =? 0 then true else (a =? 0) || (product / a =? b), product).

Fixpoint count_elements (count : Z) (d : list Z) : option Z :=
  match d with
  | [] => Some count
  | x :: d' =>
      let '(ok, count) := MultiplyAndCheckOverflow count (u64 x) in
      if (ok : bool) then count_elements count d' else None
  end.

(** The status and what is left in [*bytes], which was [bytes0] before. *)
Definition BytesRequired (t : TfLiteType) (d : list Z) (bytes0 : Z) : TfLiteStatus * Z :=
  match count_elements 1 d with
  | None => (kTfLiteError, bytes0)
  | Some count =>
      match GetSizeOfType t with
      | None => (kTfLiteError, bytes0)
      | Some type_size =>
          let '(ok, b) := MultiplyAndCheckOverflow type_size count in
          if (ok : bool) then
            (kTfLiteOk,
             if bool_decide (t = kTfLiteInt4) || bool_decide (t = kTfLiteUInt4) then u64 (b + 1) / 2
             else if bool_decide (t = kTfLiteInt2) then u64 (b + 3) / 4
             else b)
          else (kTfLiteError, b)
      end
  end.

(** ** Operations *)

Section operations.
Context {W : Type} `{MemoryPlanner W} `{CHeap W} `{Delegates W} `{StdSort} `{UnorderedOrder}.

Definition on_world {A} (m : M W A) : M (TfLiteContext W) A := zoom world set_world m.
Definition on_context {A} (m : M (TfLiteContext W) A) : M (Subgraph W) A := zoom context_ set_context m.

(** [context.tensors[i]]. *)
Definition get_tensor (i : Z) : M (TfLiteContext W) TfLiteTensor := vget tensors_ i.
Definition put_tensor (i : Z) (t : TfLiteTensor) : M (TfLiteContext W) unit := vset tensors_ set_tensors i t.

(** [tensor(i)], null for an index that is not in range. *)
Definition tensor (g : Subgraph W) (i : Z) : option TfLiteTensor := zget (tensors_ (context_ g)) i.

(** A node whose arrays can be read. *)
Definition get_node (i : Z) : M (Subgraph W) (TfLiteNode * TfLiteRegistration W) :=
  nr ← vget nodes_and_registration_ i;
  if arrays_freed nr.1 then undefined else mret nr.
Definition put_node (i : Z) (n : TfLiteNode) : M (Subgraph W) unit :=
  nr ← vget nodes_and_registration_ i; vset nodes_and_registration_ set_nodes i (n, nr.2).

Definition set_state (v : State) : M (Subgraph W) unit := modify (λ g, set_execution (with_state v (execution g)) g).
Definition update_execution (f : Execution → Execution) : M (Subgraph W) unit := modify (λ g, set_execution (f (execution g)) g).
Definition update_delegation (f : Delegation → Delegation) : M (Subgraph W) unit := modify (λ g, set_delegation (f (delegation g)) g).

Definition ShouldPreserveAllTensors (g : Subgraph W) : bool :=
  match options_ (config g) with Some o => preserve_all_tensors o | None => false end.
Definition ShouldReleaseDynamicTensors (g : Subgraph W) : bool :=
  match options_ (config g) with Some o => ensure_dynamic_tensors_are_released o | None => false end.
Definition ShouldOptimizeMemoryForLargeTensors (g : Subgraph W) : bool :=
  match options_ (config g) with Some o => 0 <? dynamic_allocation_for_large_tensors o | None => false end.
Definition DisableDelegateClustering (g : Subgraph W) : bool :=
  match options_ (config g) with Some o => disable_delegate_clustering o | None => false end.

(** *** Tensors *)

Definition AddTensors (tensors_to_add : Z) : M (TfLiteContext W) TfLiteStatus :=
  if tensors_to_add <? 0 then mret kTfLiteError
  else
    let blank := {| type := kTfLiteNoType; dims := None; dims_signature := []; bytes := 0; data := 0;
                    allocation_type := kTfLiteMemNone; is_variable := false; zero_point := 0; tensor_delegate := None;
                    buffer_handle := kTfLiteNullBufferHandle; data_is_stale := false |} in
    modify (λ c, set_tensors (tensors_ c ++ replicate (Z.to_nat tensors_to_add) blank) c);;
    mret kTfLiteOk.

(** The contents of the buffer are not part of the model, so [realloc] is [free]
    and [malloc] here. *)
Definition TfLiteTensorResizeMaybeCopy (num_bytes : Z) (i : Z) : M (TfLiteContext W) TfLiteStatus :=
  t ← get_tensor i;
  if negb (bool_decide (allocation_type t = kTfLiteDynamic)) && negb (bool_decide (allocation_type t = kTfLitePersistentRo))
  then mret kTfLiteOk
  else
    let alloc_bytes := u64 (num_bytes + 16) in
    d ← (if data t =? 0 then on_world (malloc alloc_bytes)
         else if bytes t <? num_bytes then on_world (heap_free (data t);; malloc alloc_bytes)
         else mret (data t));
    put_tensor i (set_memory d num_bytes t);;
    mret (status_of (negb ((d =? 0) && negb (num_bytes =? 0)))).

Definition TfLiteTensorDataFree (i : Z) : M (TfLiteContext W) unit :=
  t ← get_tensor i;
  (if bool_decide (allocation_type t = kTfLiteVariantObject) && negb (data t =? 0) then on_world (delete_variant (data t))
   else if (bool_decide (allocation_type t = kTfLiteDynamic) || bool_decide (allocation_type t = kTfLitePersistentRo))
      && negb (data t =? 0) then on_world (heap_free (data t)) else mret tt);;
  put_tensor i (set_memory 0 (bytes t) t).

(** Types whose size does not follow from the dimensions. *)
Definition has_no_size (t : TfLiteType) : bool :=
  bool_decide (t = kTfLiteString) || bool_decide (t = kTfLiteResource) || bool_decide (t = kTfLiteVariant).

Definition resizable (a : TfLiteAllocationType) : bool :=
  match a with
  | kTfLiteArenaRw | kTfLiteDynamic | kTfLiteArenaRwPersistent | kTfLitePersistentRo | kTfLiteCustom | kTfLiteNonCpu => true
  | _ => false
  end.

(** The status of the allocation is not looked at. *)
Definition ResizeTensorImpl (i : Z) (new_size : list Z) : M (TfLiteContext W) TfLiteStatus :=
  t ← get_tensor i;
  if resizable (allocation_type t) then
    modify (λ c, set_resized (tensor_resized_since_op_invoke_ c || negb (bool_decide (dims t = Some new_size))) c);;
    (if has_no_size (type t) then mret kTfLiteOk
     else
       let '(status, bytes_required) := BytesRequired (type t) new_size 0 in
       if decide (status = kTfLiteOk) then
         TfLiteTensorResizeMaybeCopy bytes_required i;;
         t ← get_tensor i;
         put_tensor i (set_memory (data t) bytes_required t);;
         mret kTfLiteOk
       else mret kTfLiteError) ;!
    t ← get_tensor i;
    let t := set_dims (Some new_size) t in
    put_tensor i (if bool_decide (allocation_type t = kTfLiteArenaRw) || bool_decide (allocation_type t = kTfLiteArenaRwPersistent)
                  then set_memory 0 (bytes t) t else t);;
    mret kTfLiteOk
  else mret kTfLiteError.

(** The callback of the context, for kernels. *)
Definition ResizeTensor (i : Z) (new_size : list Z) : M (TfLiteContext W) TfLiteStatus :=
  t ← get_tensor i;
  let can_reuse_allocation :=
    if data t =? 0 then false
    else if negb (bool_decide (dims t = Some new_size)) then false
    else has_no_size (type t) || ((BytesRequired (type t) new_size 0).2 =? bytes t) in
  if (can_reuse_allocation : bool) then mret kTfLiteOk else ResizeTensorImpl i new_size.

Definition EnsureTensorDataIsReadable (i : Z) : M (TfLiteContext W) TfLiteStatus :=
  t ← get_tensor i;
  if data_is_stale t then
    match tensor_delegate t with
    | None => mret kTfLiteError
    | Some d =>
        TF_LITE_ENSURE (negb (buffer_handle t =? kTfLiteNullBufferHandle)) ;!
        status ← CopyFromBufferHandle d (buffer_handle t) i;
        t ← get_tensor i;
        put_tensor i (set_stale false t);;
        mret status
    end
  else mret kTfLiteOk.

(** Whether one of the tensors is dynamic. *)
Fixpoint HasDynamicTensor (int_array : list Z) : M (TfLiteContext W) bool :=
  match int_array with
  | [] => mret false
  | i :: l =>
      if i =? kTfLiteOptionalTensor then HasDynamicTensor l
      else
        t ← get_tensor i;
        if bool_decide (allocation_type t = kTfLiteDynamic) then mret true else HasDynamicTensor l
  end.

(** *** Parameters of a tensor *)

Definition TfLiteTensorReset (t : TfLiteType) (d sig : list Z) (buffer size : Z) (a : TfLiteAllocationType)
    (variable : bool) (zp i : Z) : M (TfLiteContext W) unit :=
  TfLiteTensorDataFree i;;
  old ← get_tensor i;
  put_tensor i {| type := t; dims := Some d; dims_signature := sig; bytes := size; data := buffer; allocation_type := a;
                  is_variable := variable; zero_point := zp; tensor_delegate := tensor_delegate old; buffer_handle := buffer_handle old;
                  data_is_stale := data_is_stale old |}.

Definition in_range (i : Z) (c : TfLiteContext W) : bool := (i <? zlen (tensors_ c)) && (0 <=? i).

(** [sparse] and [external] say whether the tensor has sparsity parameters or an
    external buffer. *)
Definition SetTensorParametersReadOnly (i : Z) (t : TfLiteType) (d : list Z) (buffer size : Z) (zp : Z) (sparse external : bool) :
    M (Subgraph W) TfLiteStatus :=
  g ← get;
  if decide (state_ (execution g) = kStateInvokableAndImmutable) then mret kTfLiteError
  else
    TF_LITE_ENSURE (in_range i (context_ g)) ;!
    (if negb (has_no_size t) && negb sparse && negb external then
       let '(status, required_bytes) := BytesRequired t d 0 in
       mret status ;! TF_LITE_ENSURE (required_bytes <=? size)
     else mret kTfLiteOk) ;!
    old ← on_context (get_tensor i);
    if bool_decide (t = type old) && bool_decide (dims old = Some d) then
      on_context (TfLiteTensorDataFree i);;
      old ← on_context (get_tensor i);
      on_context (put_tensor i (set_zero_point zp (set_allocation kTfLiteMmapRo buffer old)));;
      mret kTfLiteOk
    else
      set_state kStateUninvokable;;
      on_context (TfLiteTensorReset t d [] buffer size kTfLiteMmapRo false zp i);;
      mret kTfLiteOk.

Definition SetTensorParametersReadWrite (i : Z) (t : TfLiteType) (d : list Z) (zp : Z) (variable : bool) (sig : list Z) :
    M (Subgraph W) TfLiteStatus :=
  g ← get;
  if decide (state_ (execution g) = kStateInvokableAndImmutable) then mret kTfLiteError
  else
    TF_LITE_ENSURE (in_range i (context_ g)) ;!
    let '(status, required_bytes) := if has_no_size t then (kTfLiteOk, 0) else BytesRequired t d 0 in
    mret status ;!
    if has_no_size t && variable then mret kTfLiteError
    else
      let a := if has_no_size t then kTfLiteDynamic else if variable then kTfLiteArenaRwPersistent else kTfLiteArenaRw in
      on_context (TfLiteTensorReset t d sig 0 required_bytes a variable zp i);;
      mret kTfLiteOk.

(** Tensors at or above the threshold are no longer placed in the arena. *)
Definition OptimizeMemoryForLargeTensors (threshold : Z) : M (Subgraph W) unit :=
  g ← get;
  for_each (range 0 (zlen (tensors_ (context_ g)))) (λ i,
    t ← on_context (get_tensor i);
    if (u64 threshold <=? bytes t) && bool_decide (allocation_type t = kTfLiteArenaRw) && bool_decide (i ∉ inputs_ (config g))
    then on_context (put_tensor i (set_allocation kTfLiteDynamic 0 t))
    else mret tt).

(** *** Building the graph *)

Definition CheckTensorIndices (indices : list Z) : M (Subgraph W) TfLiteStatus :=
  for_status indices (λ index,
    if index =? kTfLiteOptionalTensor then mret kTfLiteOk
    else
      ts ← gets (λ g, tensors_ (context_ g));
      if (index <? 0) || (zlen ts <=? index) then
        update_execution (with_consistent false);;
        mret kTfLiteError
      else mret kTfLiteOk).

Definition CheckInputAndOutputForOverlap (input_indices output_indices : list Z) : M (Subgraph W) TfLiteStatus :=
  for_status input_indices (λ i, for_status output_indices (λ j,
    if i =? j then update_execution (with_consistent false);; mret kTfLiteError
    else mret kTfLiteOk)).

Definition SetInputs (l : list Z) : M (Subgraph W) TfLiteStatus :=
  CheckTensorIndices l ;!
  modify (λ g, set_config {| inputs_ := l; outputs_ := outputs_ (config g); variables_ := variables_ (config g);
    options_ := options_ (config g); control_edges_ := control_edges_ (config g);
    check_cancelled_func_ := check_cancelled_func_ (config g); continue_invocation_ := continue_invocation_ (config g) |} g);;
  mret kTfLiteOk.
Definition SetOutputs (l : list Z) : M (Subgraph W) TfLiteStatus :=
  CheckTensorIndices l ;!
  modify (λ g, set_config {| inputs_ := inputs_ (config g); outputs_ := l; variables_ := variables_ (config g);
    options_ := options_ (config g); control_edges_ := control_edges_ (config g);
    check_cancelled_func_ := check_cancelled_func_ (config g); continue_invocation_ := continue_invocation_ (config g) |} g);;
  mret kTfLiteOk.
Definition SetVariables (l : list Z) : M (Subgraph W) TfLiteStatus :=
  CheckTensorIndices l ;!
  modify (λ g, set_config {| inputs_ := inputs_ (config g); outputs_ := outputs_ (config g); variables_ := l;
    options_ := options_ (config g); control_edges_ := control_edges_ (config g);
    check_cancelled_func_ := check_cancelled_func_ (config g); continue_invocation_ := continue_invocation_ (config g) |} g);;
  mret kTfLiteOk.

Definition SetExecutionPlan (new_plan : list Z) : M (Subgraph W) TfLiteStatus :=
  nodes ← gets nodes_and_registration_;
  for_status new_plan (λ node_index, TF_LITE_ENSURE ((0 <=? node_index) && (node_index <? zlen nodes))) ;!
  modify (set_plan new_plan);;
  mret kTfLiteOk.

Definition AnyTensorOfTypeResource (ts : list TfLiteTensor) (tensor_indexes : list Z) : bool :=
  existsb (λ i, match zget ts i with Some t => bool_decide (type t = kTfLiteResource) | None => false end) tensor_indexes.

Definition OpMightHaveSideEffect (ts : list TfLiteTensor) (ins outs : list Z) (registration : TfLiteRegistration W) : bool :=
  AnyTensorOfTypeResource ts ins || AnyTensorOfTypeResource ts outs ||
  (builtin_code registration =? kTfLiteBuiltinIf) || (builtin_code registration =? kTfLiteBuiltinWhile) ||
  (builtin_code registration =? kTfLiteBuiltinCallOnce).

(** [None] for [TfLiteKernelInitFailed()]. *)
Definition OpInit (op_reg : TfLiteRegistration W) (buffer : option BuiltinData) : M (Subgraph W) (option Z) :=
  match init op_reg with
  | None => mret (Some 0)
  | Some f => on_context (on_world (f buffer))
  end.

Definition OpFree (op_reg : TfLiteRegistration W) (buffer : Z) : M (Subgraph W) unit :=
  match free op_reg with
  | None => mret tt
  | Some f => if buffer =? 0 then mret tt else on_context (on_world (f buffer))
  end.

(** [init_data] are the options of a custom operation. *)
Definition AddNodeWithParameters (ins outs : list Z) (init_data : option Z) (params : option BuiltinData)
    (registration : TfLiteRegistration W) : M (Subgraph W) TfLiteStatus :=
  g ← get;
  if decide (state_ (execution g) = kStateInvokableAndImmutable) then mret kTfLiteError
  else
    set_state kStateUninvokable;;
    CheckTensorIndices ins ;!
    CheckTensorIndices outs ;!
    match params with Some _ => CheckInputAndOutputForOverlap ins outs | None => mret kTfLiteOk end ;!
    new_node_index ← gets (λ g, zlen (nodes_and_registration_ g));
    let node := {| inputs := ins; outputs := outs; temporaries := []; builtin_data := None; user_data := 0;
                   delegate := None; might_have_side_effect := false; arrays_freed := false |} in
    let null_registration := {| builtin_code := 0; init := None; free := None; prepare := None; invoke := None;
                                unresolved_invoke := false; inplace_operator := kTfLiteInplaceOpNone |} in
    modify (λ g, set_nodes (nodes_and_registration_ g ++ [(node, null_registration)]) g);;
    user ← OpInit registration (match init_data with Some d => Some (OtherParams d) | None => params end);
    match user with
    | None =>
        put_node new_node_index (freed_node node);;
        mret kTfLiteError
    | Some u =>
        ts ← gets (λ g, tensors_ (context_ g));
        let node := {| inputs := ins; outputs := outs; temporaries := []; builtin_data := params; user_data := u;
                       delegate := None; might_have_side_effect := OpMightHaveSideEffect ts ins outs registration;
                       arrays_freed := false |} in
        vset nodes_and_registration_ set_nodes new_node_index (node, registration);;
        modify (λ g, set_plan (execution_plan_ g ++ [new_node_index]) g);;
        mret kTfLiteOk
    end.

(** Freeing the arrays of a node a second time is undefined. *)
Definition CleanupNode (node_index : Z) : M (Subgraph W) unit :=
  nr ← get_node node_index;
  OpFree nr.2 (user_data nr.1);;
  put_node node_index (freed_node nr.1).

(** The nodes in the destructor. *)
Definition DestroyNodes : M (Subgraph W) unit :=
  nodes ← gets nodes_and_registration_;
  for_each (range 0 (zlen nodes)) CleanupNode.

End operations.
