(* ===== verification/SubgraphExecution.v ===== *)
(** * Preparing and running a subgraph ([src/tflite/core/subgraph.cc])

    [AllocateTensors] prepares the nodes of the execution plan up to the first with
    dynamic outputs and has their memory planned; [Invoke] runs the nodes and
    prepares the following ones when it reaches them. *)

From S2P Require Import Prelude ArenaPlanner Subgraph.

Section execution.
Context {W : Type} `{MemoryPlanner W} `{CHeap W} `{Delegates W} `{UnorderedOrder}.

(** ** The planner *)

(** The planner reads the nodes of the execution plan through [InterpreterInfo]. *)
Fixpoint view_nodes (plan : list Z) : M (Subgraph W) (list (TfLiteNode * TfLiteRegistration W)) :=
  match plan with
  | [] => mret []
  | i :: plan' => nr ← get_node i; ns ← view_nodes plan'; mret (nr :: ns)
  end.

Definition CreateGraphInfo : M (Subgraph W) (PlannerView W) :=
  g ← get;
  ns ← view_nodes (execution_plan_ g);
  mret {| plan_nodes := ns; view_inputs := inputs_ (config g); view_outputs := outputs_ (config g);
          view_variables := variables_ (config g); view_preserve_all_tensors := ShouldPreserveAllTensors g |}.

Definition if_planner (m : M (Subgraph W) TfLiteStatus) : M (Subgraph W) TfLiteStatus :=
  b ← gets (λ g, has_memory_planner (execution g));
  if (b : bool) then m else mret kTfLiteOk.

Definition nonpersistent_memory_released (g : Subgraph W) : bool :=
  has_memory_planner (execution g) && negb (planner_HasNonPersistentMemory (world (context_ g))).

(** ** Kernels *)

(** Runs a kernel on a node of the subgraph. *)
Definition run_kernel (node_index : Z) (k : Kernel W) : M (Subgraph W) TfLiteStatus :=
  nr ← get_node node_index;
  c ← gets context_;
  match k (nr.1, c) with
  | Done status (n', c') =>
      vset nodes_and_registration_ set_nodes node_index (n', nr.2);;
      modify (set_context c');;
      mret status
  | _ => undefined
  end.

Definition IsUnresolvedCustomOp (registration : TfLiteRegistration W) : bool :=
  (builtin_code registration =? BuiltinOperator_CUSTOM) && unresolved_invoke registration.

Definition OpPrepare (op_reg : TfLiteRegistration W) (node_index : Z) : M (Subgraph W) TfLiteStatus :=
  match prepare op_reg with
  | None => mret (if IsUnresolvedCustomOp op_reg then kTfLiteUnresolvedOps else kTfLiteOk)
  | Some k => run_kernel node_index k
  end.

Definition OpInvoke (op_reg : TfLiteRegistration W) (node_index : Z) : M (Subgraph W) TfLiteStatus :=
  match invoke op_reg with
  | None => mret kTfLiteError
  | Some k => run_kernel node_index k
  end.

(** ** Preparation *)

(** The loop over the execution plan from a position on; [last] is the position
    prepared last. *)
Fixpoint prepare_ops (positions : list Z) (execution_plan : list Z) (last : Z) : M (Subgraph W) (TfLiteStatus * Z) :=
  match positions with
  | [] => mret (kTfLiteOk, last)
  | execution_plan_index :: positions' =>
      node_index ← deref (zget execution_plan execution_plan_index);
      nr ← get_node node_index;
      op_prepare_status ← OpPrepare nr.2 node_index;
      if negb (bool_decide (op_prepare_status = kTfLiteOk)) && negb (bool_decide (op_prepare_status = kTfLiteOutputShapeNotKnown))
      then mret (op_prepare_status, last)
      else
        nr ← get_node node_index;
        dynamic ← on_context (HasDynamicTensor (outputs nr.1));
        if dynamic || bool_decide (op_prepare_status = kTfLiteOutputShapeNotKnown) then
          update_execution (with_dynamic true);;
          mret (kTfLiteOk, execution_plan_index)
        else prepare_ops positions' execution_plan execution_plan_index
  end.

Definition PrepareOpsStartingAt (first_execution_plan_index : Z) (execution_plan : list Z) (last : Z) :
    M (Subgraph W) (TfLiteStatus * Z) :=
  (if first_execution_plan_index =? 0 then
     g ← get;
     dynamic ← on_context (HasDynamicTensor (outputs_ (config g)));
     update_execution (with_dynamic dynamic)
   else mret tt);;
  prepare_ops (range first_execution_plan_index (zlen execution_plan)) execution_plan last.

Definition VerifyCustomAllocationForTensor (tensor_idx : Z) : M (Subgraph W) TfLiteStatus :=
  t ← on_context (get_tensor tensor_idx);
  if decide (allocation_type t = kTfLiteCustom) then
    allocs ← gets (λ g, custom_allocations_ (execution g));
    match allocs !! tensor_idx with
    | None => mret kTfLiteError
    | Some a => mret (status_of (negb (custom_bytes a <? bytes t)))
    end
  else mret kTfLiteOk.

Definition verify_tensors (l : list Z) : M (Subgraph W) TfLiteStatus :=
  for_status l (λ i, if i =? kTfLiteOptionalTensor then mret kTfLiteOk else VerifyCustomAllocationForTensor i).

(** Whether an applied delegate needs the shapes of the original plan. *)
Definition prepare_original_plan (g : Subgraph W) : bool :=
  negb (bool_decide (pre_delegation_execution_plan_ (delegation g) = [])) &&
  existsb (λ d, has_flag (delegate_flags d) kTfLiteDelegateFlagsRequirePropagatedShapes)
    (delegates_applied_ (delegation g)).

Definition PrepareOpsAndTensors : M (Subgraph W) TfLiteStatus :=
  g ← get;
  (if prepare_original_plan g then
     '(status, last) ← PrepareOpsStartingAt (next_execution_plan_index_to_prepare_ (execution g))
                         (pre_delegation_execution_plan_ (delegation g)) 0;
     mret status ;!
     update_execution (with_next_original (last + 1));;
     mret kTfLiteOk
   else mret kTfLiteOk) ;!
  g ← get;
  '(status, last) ← PrepareOpsStartingAt (next_execution_plan_index_to_prepare_ (execution g)) (execution_plan_ g) 0;
  mret status ;!
  update_execution (with_next_prepare (last + 1));;
  (g ← get;
   if has_memory_planner (execution g) then mret tt
   else
     on_context new_planner;;
     update_execution (with_planner true);;
     view ← CreateGraphInfo;
     on_context (planner_PlanAllocations view);;
     mret tt);;
  g ← get;
  view ← CreateGraphInfo;
  on_context (planner_ExecuteAllocations view (next_execution_plan_index_to_plan_allocation_ (execution g)) last) ;!
  (if bool_decide (custom_allocations_ (execution g) = ∅) then mret kTfLiteOk
   else
     (if bool_decide (nodes_and_registration_ g = []) then mret kTfLiteOk
      else
        for_status (range (next_execution_plan_index_to_plan_allocation_ (execution g)) (last + 1)) (λ node_idx,
          nr ← get_node node_idx;
          verify_tensors (outputs nr.1))) ;!
     if next_execution_plan_index_to_plan_allocation_ (execution g) =? 0 then verify_tensors (inputs_ (config g))
     else mret kTfLiteOk) ;!
  update_execution (with_next_allocation (last + 1));;
  mret kTfLiteOk.

(** ** Allocation *)

Definition ResetVariableTensors : M (TfLiteContext W) TfLiteStatus :=
  ts ← gets tensors_;
  for_status (range 0 (zlen ts)) (λ i,
    t ← get_tensor i;
    if is_variable t then
      if decide (allocation_type t = kTfLiteArenaRwPersistent) then
        TF_LITE_ENSURE (negb (data t =? 0)) ;!
        on_world (memset (data t) (if bool_decide (type t = kTfLiteInt8) then zero_point t else 0) (bytes t));;
        mret kTfLiteOk
      else TF_LITE_ENSURE (bool_decide (allocation_type t = kTfLiteCustom))
    else mret kTfLiteOk).

Definition note_use (node_index i : Z) : M (Subgraph W) unit :=
  g ← get;
  match tensor g i with
  | None => mret tt
  | Some _ => update_execution (λ e, with_last_op (<[i:=node_index]> (tensor_to_last_op_index_ e)) e)
  end.

Definition InitializeTensorReleaseMap : M (Subgraph W) unit :=
  plan ← gets execution_plan_;
  for_each plan (λ node_index,
    nr ← get_node node_index;
    for_each (inputs nr.1) (note_use node_index);;
    for_each (outputs nr.1) (note_use node_index)).

(** The nodes that a delegate has taken over need no temporaries any more. *)
Definition free_delegated_temporaries : M (Subgraph W) unit :=
  g ← get;
  let delegated_nodes := filter (.∉ execution_plan_ g)
                           (foldr uset_insert [] (pre_delegation_execution_plan_ (delegation g))) in
  for_each (uset_elements delegated_nodes) (λ node_index,
    nr ← get_node node_index;
    for_each (temporaries nr.1) (λ i,
      g ← get;
      _ ← deref (tensor g i);
      on_context (TfLiteTensorDataFree i);;
      t ← on_context (get_tensor i);
      on_context (put_tensor i (set_memory (data t) 0 t)))).

(** The custom allocations are looked at in the order of their tensors. *)
Definition verify_custom_allocations : M (Subgraph W) TfLiteStatus :=
  g ← get;
  for_status (merge_sort Z.le (map_to_list (custom_allocations_ (execution g))).*1) (λ idx,
    g ← get;
    t ← deref (tensor g idx);
    TF_LITE_ENSURE (bool_decide (allocation_type t = kTfLiteCustom)) ;!
    VerifyCustomAllocationForTensor idx).

(** [redo] is [RedoAllDelegates]. *)
Definition AllocateTensors (redo : M (Subgraph W) TfLiteStatus) : M (Subgraph W) TfLiteStatus :=
  g ← get;
  if negb (consistent_ (execution g)) then mret kTfLiteError
  else
    redo ;!
    g ← get;
    dynamic ← (if decide (state_ (execution g) = kStateUninvokable) then mret true
               else on_context (HasDynamicTensor (inputs_ (config g))));
    if negb dynamic then
      (if nonpersistent_memory_released g then on_context planner_AcquireNonPersistentMemory;; mret tt else mret tt);;
      verify_custom_allocations
    else
      update_execution (with_next_prepare 0);;
      update_execution (with_next_allocation 0);;
      update_execution (with_next_original 0);;
      if_planner (on_context planner_ResetAllocations) ;!
      PrepareOpsAndTensors ;!
      set_state kStateInvokable;;
      on_context ResetVariableTensors;;
      InitializeTensorReleaseMap;;
      free_delegated_temporaries;;
      mret kTfLiteOk.

Definition ReleaseNonPersistentMemory : M (Subgraph W) TfLiteStatus :=
  set_state kStateUninvokable;;
  if_planner (on_context planner_ReleaseNonPersistentMemory).

Definition free_dynamic (l : list Z) : M (Subgraph W) unit :=
  for_each l (λ i,
    g ← get;
    match tensor g i with
    | Some t =>
        if negb (i =? kTfLiteOptionalTensor) && bool_decide (allocation_type t = kTfLiteDynamic) && negb (data t =? 0)
        then on_context (TfLiteTensorDataFree i) else mret tt
    | None => mret tt
    end).

Definition ReleaseMemory : M (Subgraph W) TfLiteStatus :=
  set_state kStateUninvokable;;
  ReleaseNonPersistentMemory;;
  g ← get;
  free_dynamic (inputs_ (config g));;
  free_dynamic (outputs_ (config g));;
  mret kTfLiteOk.

(** ** Invocation *)

(** Allocates the dynamic outputs of a node when large tensors are not in the arena. *)
Definition MayAllocateOpOutput (outs : list Z) : M (Subgraph W) unit :=
  g ← get;
  if ShouldOptimizeMemoryForLargeTensors g then
    for_each outs (λ i,
      if i =? kTfLiteOptionalTensor then mret tt
      else
        t ← on_context (get_tensor i);
        if (data t =? 0) && bool_decide (allocation_type t = kTfLiteDynamic)
        then on_context (TfLiteTensorResizeMaybeCopy (bytes t) i);; mret tt else mret tt)
  else mret tt.

(** Releases the tensors that the node used last. *)
Definition release_unused (node_index i : Z) : M (Subgraph W) unit :=
  g ← get;
  match tensor g i with
  | None => mret tt
  | Some t =>
      if bool_decide (allocation_type t = kTfLiteDynamic) && negb (bool_decide (type t = kTfLiteString)) &&
         negb (bool_decide (type t = kTfLiteResource)) && bool_decide (i ∉ inputs_ (config g)) &&
         bool_decide (i ∉ outputs_ (config g)) &&
         bool_decide (tensor_to_last_op_index_ (execution g) !! i = Some node_index) && negb (data t =? 0)
      then on_context (TfLiteTensorDataFree i) else mret tt
  end.

Definition MaybeReleaseDynamicTensors (node_index : Z) : M (Subgraph W) unit :=
  g ← get;
  if ShouldReleaseDynamicTensors g then
    nr ← get_node node_index;
    for_each (inputs nr.1) (release_unused node_index);;
    for_each (outputs nr.1) (release_unused node_index)
  else mret tt.

(** Makes the input readable and checks that it has data; the shape of a reshape may
    have none. *)
Definition check_input (node : TfLiteNode) (builtin_code i tensor_index : Z) : M (Subgraph W) TfLiteStatus :=
  if tensor_index =? kTfLiteOptionalTensor then mret kTfLiteOk
  else
    t ← on_context (get_tensor tensor_index);
    (if bool_decide (is_Some (tensor_delegate t)) && negb (bool_decide (tensor_delegate t = delegate node)) && data_is_stale t
     then on_context (EnsureTensorDataIsReadable tensor_index) else mret kTfLiteOk) ;!
    t ← on_context (get_tensor tensor_index);
    if (data t =? 0) && (0 <? bytes t) && negb (bool_decide (allocation_type t = kTfLiteNonCpu)) then
      if (builtin_code =? kTfLiteBuiltinReshape) && (i =? 1) then
        d ← deref (dims t);
        mret (status_of (negb (zlen d =? 1)))
      else mret kTfLiteError
    else mret kTfLiteOk.

Definition check_inputs (node : TfLiteNode) (builtin_code : Z) : M (Subgraph W) TfLiteStatus :=
  for_status (range 0 (zlen (inputs node))) (λ i,
    tensor_index ← deref (zget (inputs node) i);
    check_input node builtin_code i tensor_index).

(** A callback of the client, if there is one. *)
Definition callback (f : option (M W bool)) (otherwise : bool) : M (Subgraph W) bool :=
  match f with Some m => on_context (on_world m) | None => mret otherwise end.

(** After a dynamic tensor has been resized the following nodes have to be prepared
    again. *)
Definition reprepare_downstream (execution_plan_index : Z) (outs : list Z) : M (Subgraph W) TfLiteStatus :=
  resized ← gets (λ g, tensor_resized_since_op_invoke_ (context_ g));
  dynamic ← (if (resized : bool) then on_context (HasDynamicTensor outs) else mret false);
  if (dynamic : bool) then
    update_execution (with_next_prepare (execution_plan_index + 1));;
    e ← gets execution;
    if next_execution_plan_index_to_prepare_ e <? next_execution_plan_index_to_plan_allocation_ e then
      update_execution (with_next_allocation (next_execution_plan_index_to_prepare_ e));;
      if_planner (on_context (planner_ResetAllocationsAfter (next_execution_plan_index_to_prepare_ e - 1)))
    else mret kTfLiteOk
  else mret kTfLiteOk.

(** The body of the loop of [InvokeImpl]. *)
Definition invoke_op (execution_plan_index : Z) : M (Subgraph W) TfLiteStatus :=
  e ← gets execution;
  (if execution_plan_index =? next_execution_plan_index_to_prepare_ e then
     PrepareOpsAndTensors ;!
     e ← gets execution;
     TF_LITE_ENSURE (execution_plan_index <=? next_execution_plan_index_to_prepare_ e)
   else mret kTfLiteOk) ;!
  node_index ← vget execution_plan_ execution_plan_index;
  nr ← get_node node_index;
  check_inputs nr.1 (builtin_code nr.2) ;!
  MayAllocateOpOutput (outputs nr.1);;
  cancelled ← (f ← gets (λ g, check_cancelled_func_ (config g)); callback f false);
  if (cancelled : bool) then mret kTfLiteError
  else
    continue ← (f ← gets (λ g, continue_invocation_ (config g)); callback f true);
    if negb continue then mret kTfLiteCancelled
    else
      modify (λ g, set_context (set_resized false (context_ g)) g);;
      s ← OpInvoke nr.2 node_index;
      if decide (s = kTfLiteOk) then
        nr ← get_node node_index;
        reprepare_downstream execution_plan_index (outputs nr.1) ;!
        MaybeReleaseDynamicTensors node_index;;
        mret kTfLiteOk
      else mret (if decide (s = kTfLiteCancelled) then s else kTfLiteError).

Definition InvokeImpl : M (Subgraph W) TfLiteStatus :=
  g ← get;
  if negb (consistent_ (execution g)) then mret kTfLiteError
  else if decide (state_ (execution g) = kStateUninvokable) then mret kTfLiteError
  else if nonpersistent_memory_released g then mret kTfLiteError
  else for_status (range 0 (zlen (execution_plan_ g))) invoke_op.

End execution.
