(* ===== verification/SubgraphDelegation.v ===== *)
(** * Delegates of a subgraph ([src/tflite/core/subgraph.cc])

    [ModifyGraphWithDelegate] lets a delegate replace nodes of the execution plan by
    kernels of its own and leaves the graph in a state that can be run, or restores
    the original plan; [UndoAllDelegates] and [RedoAllDelegates] take the delegates
    out of the graph while it changes and put them back. *)

From S2P Require Import Prelude GraphPartition ArenaPlanner Subgraph SubgraphExecution.

Section delegation.
Context {W : Type} `{MemoryPlanner W} `{CHeap W} `{Delegates W} `{StdSort} `{UnorderedOrder}.

(** ** Replacing nodes *)

Definition partition_node (n : TfLiteNode) : GraphPartition.Node :=
  {| GraphPartition.inputs := inputs n; GraphPartition.outputs := outputs n;
     GraphPartition.might_have_side_effect := might_have_side_effect n |}.

(** The subgraph as [PartitionGraphIntoIndependentNodeSubsets] sees it. *)
Definition InterpreterInfo : M (Subgraph W) GraphPartition.GraphInfo :=
  g ← get;
  ns ← view_nodes (execution_plan_ g);
  mret {| GraphPartition.num_tensors := zlen (tensors_ (context_ g));
          GraphPartition.num_total_nodes := zlen (nodes_and_registration_ g);
          GraphPartition.execution_nodes := partition_node <$> ns.*1;
          GraphPartition.node_index := execution_plan_ g;
          GraphPartition.graph_outputs := outputs_ (config g) |}.

Definition no_partitioner : Partitioner :=
  {| node_subsets_ := []; tensor_epochs_ := []; node_epochs_ := []; num_incoming_control_edges_ := [] |}.

(** The subsets, or none for [kTfLiteError]. *)
Definition PartitionGraph (nodes_to_replace : list Z) : M (Subgraph W) (option (list NodeSubset)) :=
  g ← get;
  info ← InterpreterInfo;
  match PartitionGraphIntoIndependentNodeSubsets info nodes_to_replace (negb (DisableDelegateClustering g))
          (control_edges_ (config g)) (ShouldPreserveAllTensors g) no_partitioner with
  | Done _ p => mret (Some (node_subsets_ p))
  | Error _ => mret None
  | Undefined => undefined
  end.

Definition CreateDelegateParams (d : TfLiteDelegate) (b : NodeSubset) : BuiltinData :=
  DelegateParams d (GraphPartition.nodes b) (input_tensors b) (output_tensors b).

(** Claims an output for the delegate. *)
Definition claim_output (d : TfLiteDelegate) (i : Z) : M (Subgraph W) TfLiteStatus :=
  t ← on_context (get_tensor i);
  TF_LITE_ENSURE (bool_decide (tensor_delegate t = None) || bool_decide (tensor_delegate t = Some d)) ;!
  on_context (put_tensor i (set_delegate (Some d) t));;
  mret kTfLiteOk.

Definition replace_subset (registration : TfLiteRegistration W) (d : TfLiteDelegate) (b : NodeSubset) :
    M (Subgraph W) TfLiteStatus :=
  match GraphPartition.type b with
  | kTfNonPartition => modify (λ g, set_plan (execution_plan_ g ++ GraphPartition.nodes b) g);; mret kTfLiteOk
  | kTfPartition =>
      node_index ← gets (λ g, zlen (nodes_and_registration_ g));
      AddNodeWithParameters (input_tensors b) (output_tensors b) None (Some (CreateDelegateParams d b)) registration ;!
      for_status (output_tensors b) (claim_output d) ;!
      nr ← get_node node_index;
      put_node node_index (set_node_delegate (Some d) nr.1);;
      mret kTfLiteOk
  | kTfUnexplored => mret kTfLiteError
  end.

Definition as_delegate_op (registration : TfLiteRegistration W) : TfLiteRegistration W :=
  {| builtin_code := BuiltinOperator_DELEGATE; init := init registration; free := free registration;
     prepare := prepare registration; invoke := invoke registration;
     unresolved_invoke := unresolved_invoke registration;
     inplace_operator := inplace_operator registration |}.

Definition ReplaceNodeSubsetsWithDelegateKernels (registration : TfLiteRegistration W) (nodes_to_replace : list Z)
    (d : TfLiteDelegate) : M (Subgraph W) TfLiteStatus :=
  if bool_decide (nodes_to_replace = []) then mret kTfLiteOk
  else
    node_subsets ← PartitionGraph nodes_to_replace;
    match node_subsets with
    | None => mret kTfLiteError
    | Some node_subsets =>
        modify (set_plan []);;
        for_status node_subsets (replace_subset (as_delegate_op registration) d)
    end.

(** What the delegate would get, without changing the graph. *)
Definition PreviewDelegatePartitioning (nodes_to_replace : list Z) : M (Subgraph W) (TfLiteStatus * list NodeSubset) :=
  if bool_decide (nodes_to_replace = []) then mret (kTfLiteOk, [])
  else
    node_subsets ← PartitionGraph nodes_to_replace;
    mret (match node_subsets with
          | None => (kTfLiteError, [])
          | Some bs => (kTfLiteOk, filter (λ b, GraphPartition.type b = kTfPartition) bs)
          end).

(** ** The context of a delegate *)

Definition SwitchToDelegateContext : M (Subgraph W) TfLiteStatus :=
  g ← get;
  TF_LITE_ENSURE (0 <=? delegate_context_switch_count_ (delegation g)) ;!
  update_delegation (λ d, with_switch_count (delegate_context_switch_count_ d + 1) d);;
  mret kTfLiteOk.

Definition SwitchToKernelContext : M (Subgraph W) TfLiteStatus :=
  g ← get;
  TF_LITE_ENSURE (1 <=? delegate_context_switch_count_ (delegation g)) ;!
  update_delegation (λ d, with_switch_count (delegate_context_switch_count_ d - 1) d);;
  mret kTfLiteOk.

(** Outside a delegate's context its functions are [ForbiddenContextFunction]. *)
Definition in_delegate_context (m : M (Subgraph W) TfLiteStatus) : M (Subgraph W) TfLiteStatus :=
  g ← get;
  if 0 <? delegate_context_switch_count_ (delegation g) then m else mret kTfLiteError.

(** A node looked up by a delegate; what it writes to it. *)
Definition redirect (node_index : Z) (new_inputs : list Z) : M (Subgraph W) TfLiteStatus :=
  g ← get;
  TF_LITE_ENSURE ((0 <=? node_index) && (node_index <? zlen (nodes_and_registration_ g))) ;!
  nr ← get_node node_index;
  put_node node_index (set_inputs new_inputs nr.1);;
  mret kTfLiteOk.

Fixpoint run_delegate (d : TfLiteDelegate) (r : DelegateRun W) : M (Subgraph W) TfLiteStatus :=
  match r with
  | Returns status w => on_context (modify (set_world w));; mret status
  | Redirects node_index new_inputs next =>
      s ← in_delegate_context (redirect node_index new_inputs);
      g ← get;
      run_delegate d (next s g)
  | Replaces registration nodes_to_replace w next =>
      on_context (modify (set_world w));;
      s ← in_delegate_context (ReplaceNodeSubsetsWithDelegateKernels registration nodes_to_replace d);
      g ← get;
      run_delegate d (next s g)
  end.

(** ** Undoing delegates *)

Definition free_delegate_node (node_index : Z) : M (Subgraph W) unit :=
  nr ← vget nodes_and_registration_ node_index;
  match delegate nr.1 with
  | None => mret tt
  | Some _ => CleanupNode node_index
  end.

(** First pass: [fp16_to_fp32], from the inputs of dequantizations to their outputs. *)
Definition remember_dequantize (fp16_to_fp32 : list Z) (node_index : Z) : M (Subgraph W) (list Z) :=
  nr ← get_node node_index;
  match inputs nr.1, outputs nr.1 with
  | [input_idx], [output_idx] =>
      if builtin_code nr.2 =? kTfLiteBuiltinDequantize then
        t ← on_context (get_tensor input_idx);
        mret (if decide (type t = kTfLiteFloat16) then zset input_idx output_idx fp16_to_fp32 else fp16_to_fp32)
      else mret fp16_to_fp32
  | _, _ => mret fp16_to_fp32
  end.

Fixpoint remap_inputs (fp16_to_fp32 : list Z) (l : list Z) : M (TfLiteContext W) (list Z) :=
  match l with
  | [] => mret []
  | original_input_idx :: l' =>
      x ← (if original_input_idx =? kTfLiteOptionalTensor then mret original_input_idx
           else
             t ← get_tensor original_input_idx;
             if decide (type t = kTfLiteFloat16) then deref (zget fp16_to_fp32 original_input_idx)
             else mret original_input_idx);
      xs ← remap_inputs fp16_to_fp32 l';
      mret (x :: xs)
  end.

(** Second pass. *)
Definition restore_inputs (fp16_to_fp32 : list Z) (node_index : Z) : M (Subgraph W) unit :=
  nr ← get_node node_index;
  if builtin_code nr.2 =? kTfLiteBuiltinDequantize then mret tt
  else
    l ← on_context (remap_inputs fp16_to_fp32 (inputs nr.1));
    put_node node_index (set_inputs l nr.1).

(** A node of a resized vector. *)
Definition blank_node : TfLiteNode * TfLiteRegistration W :=
  ({| inputs := []; outputs := []; temporaries := []; builtin_data := None; user_data := 0; delegate := None;
      might_have_side_effect := false; arrays_freed := false |},
   {| builtin_code := 0; init := None; free := None; prepare := None; invoke := None; unresolved_invoke := false;
    inplace_operator := kTfLiteInplaceOpNone |}).

Definition UndoAllDelegates : M (Subgraph W) TfLiteStatus :=
  g ← get;
  if bool_decide (pre_delegation_execution_plan_ (delegation g) = []) then mret kTfLiteOk
  else
    for_each (execution_plan_ g) free_delegate_node;;
    let plan := pre_delegation_execution_plan_ (delegation g) in
    modify (set_plan plan);;
    update_delegation (with_pre_plan []);;
    fp16_to_fp32 ← fold_m plan (range 0 (zlen (tensors_ (context_ g)))) remember_dequantize;
    for_each plan (restore_inputs fp16_to_fp32);;
    let max_retained_node_index := foldl Z.max 0 plan in
    modify (λ g, set_nodes (resize_list (Z.to_nat (max_retained_node_index + 1)) blank_node (nodes_and_registration_ g)) g);;
    set_state kStateUninvokable;;
    update_delegation (with_undone true);;
    mret kTfLiteOk.

Definition EnsureMemoryAllocations (redo : M (Subgraph W) TfLiteStatus) : M (Subgraph W) TfLiteStatus :=
  if_planner
    (set_state kStateUninvokable;;
     view ← CreateGraphInfo;
     on_context (planner_PlanAllocations view)) ;!
  AllocateTensors redo ;!
  g ← get;
  TF_LITE_ENSURE (bool_decide (state_ (execution g) = kStateInvokable)).

Definition RemoveAllDelegates (redo : M (Subgraph W) TfLiteStatus) : M (Subgraph W) TfLiteStatus :=
  UndoAllDelegates ;!
  update_delegation (with_applied []);;
  update_delegation (with_undone false);;
  EnsureMemoryAllocations redo.

(** ** Applying a delegate *)

Fixpoint all_delegated (plan : list Z) : M (Subgraph W) bool :=
  match plan with
  | [] => mret true
  | nid :: plan' =>
      nr ← vget nodes_and_registration_ nid;
      match delegate nr.1 with
      | None => mret false
      | Some _ => all_delegated plan'
      end
  end.

Definition IsFullyDelegated : M (Subgraph W) bool :=
  plan ← gets execution_plan_;
  all_delegated plan.

(** Runs [m]; if it fails the original plan is restored and the failure becomes
    [kTfLiteDelegateError]. *)
Definition reset_delegation_if_not_ok (redo m : M (Subgraph W) TfLiteStatus) : M (Subgraph W) TfLiteStatus :=
  status ← m;
  if decide (status = kTfLiteOk) then mret kTfLiteOk
  else RemoveAllDelegates redo ;! mret kTfLiteDelegateError.

Definition prepare_all : M (Subgraph W) TfLiteStatus :=
  g ← get;
  '(status, _) ← PrepareOpsStartingAt 0 (execution_plan_ g) 0;
  mret status.

(** STEP 3: what depends on the delegate and on the state before. *)
Definition settle_state (redo : M (Subgraph W) TfLiteStatus) (supports_dynamic hint : bool) (pre_delegation_state : State) :
    M (Subgraph W) TfLiteStatus :=
  if negb supports_dynamic then
    (if hint then mret kTfLiteOk
     else
       set_state kStateUninvokable;;
       reset_delegation_if_not_ok redo (EnsureMemoryAllocations redo)) ;!
    set_state kStateInvokableAndImmutable;;
    mret kTfLiteOk
  else
    match pre_delegation_state with
    | kStateInvokableAndImmutable =>
        reset_delegation_if_not_ok redo prepare_all ;!
        g ← get;
        if has_dynamic_tensors_ (execution g) then RemoveAllDelegates redo ;! mret kTfLiteApplicationError
        else
          reset_delegation_if_not_ok redo (EnsureMemoryAllocations redo) ;!
          set_state kStateInvokableAndImmutable;;
          mret kTfLiteOk
    | kStateInvokable => reset_delegation_if_not_ok redo (EnsureMemoryAllocations redo)
    | kStateUninvokable => mret kTfLiteOk
    end.

(** STEP 1: verifies and prepares the graph. *)
Definition check_static (redo : M (Subgraph W) TfLiteStatus) (supports_dynamic hint : bool) : M (Subgraph W) TfLiteStatus :=
  g ← get;
  if decide (state_ (execution g) = kStateInvokableAndImmutable) then set_state kStateUninvokable;; mret kTfLiteOk
  else if negb supports_dynamic && negb hint then
    prepare_all ;!
    g ← get;
    if has_dynamic_tensors_ (execution g) then EnsureMemoryAllocations redo ;! mret kTfLiteApplicationError
    else mret kTfLiteOk
  else mret kTfLiteOk.

Definition ModifyGraphWithDelegateImpl (redo : M (Subgraph W) TfLiteStatus) (d : option TfLiteDelegate) :
    M (Subgraph W) TfLiteStatus :=
  match d with
  | None => mret kTfLiteDelegateError
  | Some d =>
      redo ;!
      let delegate_supports_dynamic_shapes := has_flag (delegate_flags d) kTfLiteDelegateFlagsAllowDynamicTensors in
      let hint := has_flag (delegate_flags d) kTfLiteDelegateFlagsHintFullyDelegatedToSingleDelegate in
      pre_delegation_state ← gets (λ g, state_ (execution g));
      check_static redo delegate_supports_dynamic_shapes hint ;!
      modify (λ g, if bool_decide (delegates_applied_ (delegation g) = [])
                   then set_delegation (with_pre_plan (execution_plan_ g) (delegation g)) g else g);;
      SwitchToDelegateContext;;
      g ← get;
      status ← run_delegate d (delegate_Prepare d g);
      SwitchToKernelContext;;
      reset_delegation_if_not_ok redo (mret status) ;!
      fully_delegated ← (if hint then IsFullyDelegated else mret true);
      if hint && negb fully_delegated then mret kTfLiteApplicationError
      else
        settle_state redo delegate_supports_dynamic_shapes hint pre_delegation_state ;!
        update_delegation (λ dl, with_applied (delegates_applied_ dl ++ [d]) dl);;
        mret kTfLiteOk
  end.

(** [RedoAllDelegates] and [ModifyGraphWithDelegateImpl] call each other; [depth] is
    how often they may before [bottom] is run instead. *)
Fixpoint RedoAllDelegates_over (bottom : M (Subgraph W) TfLiteStatus) (depth : nat) : M (Subgraph W) TfLiteStatus :=
  g ← get;
  if negb (delegates_undone_ (delegation g)) then mret kTfLiteOk
  else
    match depth with
    | O => bottom
    | S depth' =>
        update_delegation (with_undone false);;
        update_delegation (with_applied []);;
        for_status (delegates_applied_ (delegation g)) (λ d, ModifyGraphWithDelegateImpl (RedoAllDelegates_over bottom depth') (Some d))
    end.

Definition RedoAllDelegates : nat → M (Subgraph W) TfLiteStatus := RedoAllDelegates_over undefined.

Definition redo_depth : nat := 1.

Definition ModifyGraphWithDelegate (d : option TfLiteDelegate) : M (Subgraph W) TfLiteStatus :=
  ModifyGraphWithDelegateImpl (RedoAllDelegates redo_depth) d.

(** ** Changing the shape of an input *)

Definition ResizeInputTensor (tensor_index : Z) (new_dims : list Z) : M (Subgraph W) TfLiteStatus :=
  g ← get;
  let delegates_applied := negb (bool_decide (delegates_applied_ (delegation g) = [])) in
  let graph_is_immutable := bool_decide (state_ (execution g) = kStateInvokableAndImmutable) in
  if graph_is_immutable && negb delegates_applied then mret kTfLiteError
  else
    TF_LITE_ENSURE (in_range tensor_index (context_ g)) ;!
    t ← on_context (get_tensor tensor_index);
    if negb (data t =? 0) && bool_decide (dims t = Some new_dims) then mret kTfLiteOk
    else
      (if graph_is_immutable then UndoAllDelegates else mret kTfLiteOk) ;!
      set_state kStateUninvokable;;
      on_context (ResizeTensorImpl tensor_index new_dims).

(** [dims_signature], or the dimensions if there is none. *)
Definition TfLiteTensorGetDimsSignature (t : TfLiteTensor) (d : list Z) : list Z :=
  if bool_decide (dims_signature t = []) then d else dims_signature t.

Definition ResizeInputTensorStrict (tensor_index : Z) (new_dims : list Z) : M (Subgraph W) TfLiteStatus :=
  g ← get;
  TF_LITE_ENSURE (in_range tensor_index (context_ g)) ;!
  t ← on_context (get_tensor tensor_index);
  d ← deref (dims t);
  TF_LITE_ENSURE (zlen d =? zlen new_dims) ;!
  for_status (range 0 (zlen new_dims)) (λ idx,
    dim_signature ← deref (zget (TfLiteTensorGetDimsSignature t d) idx);
    x ← deref (zget new_dims idx);
    TF_LITE_ENSURE (negb (negb (dim_signature =? -1) && negb (dim_signature =? x)))) ;!
  ResizeInputTensor tensor_index new_dims.

Definition kTfLiteCustomAllocationFlagsSkipAlignCheck : Z := 1.
Definition kDefaultTensorAlignment : Z := 64.

Definition SetCustomAllocationForTensor (tensor_index : Z) (allocation : TfLiteCustomAllocation) (flags : Z) :
    M (Subgraph W) TfLiteStatus :=
  t ← on_context (get_tensor tensor_index);
  TF_LITE_ENSURE (bool_decide (allocation_type t = kTfLiteArenaRw) || bool_decide (allocation_type t = kTfLiteArenaRwPersistent) ||
                  bool_decide (allocation_type t = kTfLiteCustom) || bool_decide (allocation_type t = kTfLiteNonCpu)) ;!
  TF_LITE_ENSURE (negb (custom_data allocation =? 0)) ;!
  TF_LITE_ENSURE (has_flag flags kTfLiteCustomAllocationFlagsSkipAlignCheck ||
                  (custom_data allocation mod kDefaultTensorAlignment =? 0)) ;!
  update_execution (λ e, with_custom (<[tensor_index:=allocation]> (custom_allocations_ e)) e);;
  on_context (put_tensor tensor_index (set_allocation kTfLiteCustom (custom_data allocation) t));;
  mret kTfLiteOk.

(** Marks the inputs that no node reads. *)
Definition GetInputTensorsCount : M (Subgraph W) (list Z) :=
  g ← get;
  let count i (l : list Z) := x ← deref (zget l i); mret (zset i (x + 1) l) in
  l ← fold_m (execution_plan_ g) (replicate (length (tensors_ (context_ g))) 0) (λ l node_index,
        nr ← get_node node_index;
        fold_m (inputs nr.1) l (λ l i, if i =? kTfLiteOptionalTensor then mret l else count i l));
  fold_m (outputs_ (config g)) l (λ l i, count i l).

Fixpoint remove_unused (counts l : list Z) : M (Subgraph W) (list Z) :=
  match l with
  | [] => mret []
  | i :: l' =>
      i' ← (if i =? kTfLiteOptionalTensor then mret i
            else
              c ← deref (zget counts i);
              if c =? 0 then
                t ← on_context (get_tensor i);
                on_context (put_tensor i (set_memory (data t) 0 t));;
                mret kTfLiteOptionalTensor
              else mret i);
      l'' ← remove_unused counts l';
      mret (i' :: l'')
  end.

Definition RemoveUnusedInputs : M (Subgraph W) TfLiteStatus :=
  counts ← GetInputTensorsCount;
  g ← get;
  l ← remove_unused counts (inputs_ (config g));
  modify (λ g, set_config {| inputs_ := l; outputs_ := outputs_ (config g); variables_ := variables_ (config g);
    options_ := options_ (config g); control_edges_ := control_edges_ (config g);
    check_cancelled_func_ := check_cancelled_func_ (config g); continue_invocation_ := continue_invocation_ (config g) |} g);;
  mret kTfLiteOk.

End delegation.
