(* ===== verification/SubgraphProofs.v ===== *)
(** * Statuses, sizes and frames of a subgraph

    The rules of the status monad, the sizes of tensors, what the operations of a
    subgraph leave alone, and that [RedoAllDelegates] does not nest. *)

From S2P Require Import Prelude ArenaPlanner Subgraph SubgraphExecution SubgraphDelegation.

(** ** Sizes *)

Lemma high_half_zero a b :
  is_size a → is_size b → (Z.shiftr (Z.lor a b) 32 =? 0) = true → a < 2 ^ 32 ∧ b < 2 ^ 32.
Proof.
  unfold is_size, size_max. intros Ha Hb H%Z.eqb_eq. rewrite Z.shiftr_lor, Z.lor_eq_0_iff, !Z.shiftr_div_pow2 in H by lia.
  destruct H as [H1 H2]. apply Z.div_small_iff in H1, H2; lia.
Qed.

Lemma MultiplyAndCheckOverflow_spec a b :
  is_size a → is_size b →
  let '(ok, product) := MultiplyAndCheckOverflow a b in
  ok = bool_decide (a * b < 2 ^ 64) ∧ (ok = true → product = a * b).
Proof.
  intros Ha Hb. pose proof Ha as Ha'. pose proof Hb as Hb'. unfold is_size, size_max in Ha', Hb'.
  assert (a * b < 2 ^ 64 → u64 (a * b) = a * b) as Hsmall.
  { intros Hab. apply u64_id. unfold is_size, size_max. nia. }
  unfold MultiplyAndCheckOverflow. destruct (_ =? 0) eqn:Hhigh.
  - destruct (high_half_zero a b Ha Hb Hhigh). assert (a * b < 2 ^ 64) as Hab by nia.
    by rewrite bool_decide_true, Hsmall by done.
  - assert ((a =? 0) || (u64 (a * b) / a =? b) = bool_decide (a * b < 2 ^ 64)) as ->.
    { case_bool_decide as Hab.
      - rewrite Hsmall by done. destruct (Z.eqb_spec a 0); [done|]. simpl. apply Z.eqb_eq.
        rewrite Z.mul_comm. apply Z.div_mul. lia.
      - assert (a ≠ 0) as Hne by (intros ->; simpl in Hab; lia).
        apply orb_false_iff. split; [by apply Z.eqb_neq|]. apply Z.eqb_neq. intros Hq.
        assert (a * (u64 (a * b) / a) ≤ u64 (a * b)) as Hle by (apply Z.mul_div_le; lia).
        rewrite Hq in Hle. pose proof (u64_range (a * b)) as Hr. unfold is_size, size_max in Hr. lia. }
    split; [done|]. intros Hab%bool_decide_eq_true. by apply Hsmall.
Qed.

(** The products of the first dimensions fit into 64 bits. *)
Definition no_overflow (count : Z) (d : list Z) : Prop :=
  ∀ l1 l2, d = l1 ++ l2 → count * volume (u64 <$> l1) < 2 ^ 64.

Lemma volume_cons x (d : list Z) : volume (u64 <$> x :: d) = u64 x * volume (u64 <$> d).
Proof. done. Qed.

Lemma volume_sizes_nonneg d : 0 ≤ volume (u64 <$> d).
Proof. induction d as [|x d IH]; [by unfold volume; simpl; lia|]. rewrite volume_cons. pose proof (u64_range x). unfold is_size in *. nia. Qed.

Lemma count_elements_spec count d :
  is_size count →
  (no_overflow count d ∧ count_elements count d = Some (count * volume (u64 <$> d))) ∨
  (¬ no_overflow count d ∧ count_elements count d = None).
Proof.
  revert count. induction d as [|x d IH]; intros count Hc.
  - left. split; [|simpl; f_equal; lia]. intros l1 l2 [-> ->]%eq_sym%app_nil. simpl. unfold is_size, size_max in Hc. lia.
  - cbn [count_elements]. pose proof (MultiplyAndCheckOverflow_spec count (u64 x) Hc (u64_range x)) as Hm.
    destruct (MultiplyAndCheckOverflow count (u64 x)) as [ok p]. destruct Hm as [-> Hp]. case_bool_decide as Hx.
    + rewrite Hp by done. assert (is_size (count * u64 x)) as Hs.
      { pose proof (u64_range x). unfold is_size, size_max in *. nia. }
      destruct (IH _ Hs) as [[Hok ->]|[Hno ->]]; [left|right]; (split; [|rewrite ?volume_cons; try done; f_equal; lia]).
      * intros [|y l1] l2 Hl; [unfold volume; simpl; unfold is_size, size_max in Hc; lia|]. injection Hl as <- Hl.
        rewrite volume_cons, Z.mul_assoc. by eapply Hok.
      * intros Hok. apply Hno. intros l1 l2 ->. rewrite <- Z.mul_assoc. apply (Hok (x :: l1) l2). done.
    + right. split; [|done]. intros Hok. apply Hx. specialize (Hok [x] d eq_refl). unfold volume in Hok. simpl in Hok. lia.
Qed.

(** The bits of one element. *)
Definition bits_of (t : TfLiteType) : option Z :=
  match t with
  | kTfLiteInt2 => Some 2
  | kTfLiteInt4 | kTfLiteUInt4 => Some 4
  | _ => (λ n, 8 * n) <$> GetSizeOfType t
  end.

(** The elements that share a byte. *)
Definition per_byte (t : TfLiteType) : Z :=
  match t with kTfLiteInt2 => 4 | kTfLiteInt4 | kTfLiteUInt4 => 2 | _ => 1 end.

Lemma BytesRequired_spec t d bytes0 :
  match GetSizeOfType t, bits_of t with
  | Some type_size, Some bits =>
      (no_overflow 1 d ∧ type_size * volume (u64 <$> d) < 2 ^ 64 ∧
       (BytesRequired t d bytes0).1 = kTfLiteOk ∧
       (BytesRequired t d bytes0).2 =
         if volume (u64 <$> d) + (per_byte t - 1) <? 2 ^ 64 then (bits * volume (u64 <$> d) + 7) / 8 else 0) ∨
      (¬ (no_overflow 1 d ∧ type_size * volume (u64 <$> d) < 2 ^ 64) ∧ (BytesRequired t d bytes0).1 = kTfLiteError)
  | _, _ => (BytesRequired t d bytes0).1 = kTfLiteError
  end.
Proof.
  unfold BytesRequired.
  destruct (count_elements_spec 1 d) as [[Hok ->]|[Hno ->]]; [unfold is_size, size_max; lia|rewrite Z.mul_1_l|].
  2: { destruct t; simpl; try done; right; (split; [intros [? _]; done|done]). }
  pose proof (volume_sizes_nonneg d) as Hnn. set (v := volume _) in *.
  assert (v < 2 ^ 64) as Hv. { specialize (Hok d [] ltac:(by rewrite app_nil_r)). fold v in Hok. lia. }
  assert (∀ n, is_size n → is_size v → let '(ok, p) := MultiplyAndCheckOverflow n v in
            ok = bool_decide (n * v < 2 ^ 64) ∧ (ok = true → p = n * v)) as Hm.
  { intros n Hn Hv'. by apply MultiplyAndCheckOverflow_spec. }
  assert (is_size v) as Hv' by (unfold is_size, size_max; lia).
  destruct t; cbn [GetSizeOfType bits_of fmap option_fmap option_map]; try done;
    match goal with |- context [MultiplyAndCheckOverflow ?n v] =>
      specialize (Hm n ltac:(unfold is_size, size_max; lia) Hv');
      destruct (MultiplyAndCheckOverflow n v) as [ok p]; destruct Hm as [-> Hp] end;
    (case_bool_decide as Hfit; [left|right; split; [by intros [_ ?]|done]]);
    (split_and!; [done|done|done|]); rewrite (Hp eq_refl); cbn [per_byte];
    repeat (case_bool_decide; [try done|try done]); cbn [snd orb];
    case Z.ltb_spec; intros Hw; unfold u64; Z.div_mod_to_equations; lia.
Qed.

(** ** Frames

    [keeps f m]: whatever [m] does, [f] of the state stays as it was. *)

Definition keeps {S A B} (f : S → B) (m : M S A) : Prop := ∀ s,
  match m s with Done _ s' | Error s' => f s' = f s | Undefined => True end.

Section keeps.
Context {S B : Type} (f : S → B).

Lemma keeps_bind {A C} (m : M S A) (k : A → M S C) : keeps f m → (∀ a, keeps f (k a)) → keeps f (m ≫= k).
Proof.
  intros Hm Hk s. unfold mbind, M_bind. specialize (Hm s). destruct (m s) as [a s'| |]; [|done..].
  specialize (Hk a s'). destruct (k a s'); congruence.
Qed.
Lemma keeps_ret {A} (a : A) : keeps f (mret a).
Proof. by intros s. Qed.
Lemma keeps_get : keeps f get.
Proof. by intros s. Qed.
Lemma keeps_gets {A} (p : S → A) : keeps f (gets p).
Proof. by intros s. Qed.
Lemma keeps_undefined {A} : keeps f (undefined (A := A)).
Proof. by intros s. Qed.
Lemma keeps_modify p : (∀ s, f (p s) = f s) → keeps f (modify p).
Proof. intros Hp s. apply Hp. Qed.
Lemma keeps_deref {A} (o : option A) : keeps f (deref o).
Proof. destruct o; [apply keeps_ret|apply keeps_undefined]. Qed.
Lemma keeps_for_each {A} (l : list A) body : (∀ a, keeps f (body a)) → keeps f (for_each l body).
Proof. intros Hb. induction l; simpl; [apply keeps_ret|]. by apply keeps_bind. Qed.
Lemma keeps_fold_m {A C} (l : list A) (c : C) body : (∀ c a, keeps f (body c a)) → keeps f (fold_m l c body).
Proof. intros Hb. revert c. induction l; intros c; simpl; [apply keeps_ret|]. by apply keeps_bind. Qed.
Lemma keeps_zoom {T A} (view : S → T) update (m : M T A) : (∀ t s, f (update t s) = f s) → keeps f (zoom view update m).
Proof. intros Hu s. unfold zoom. destruct (m (view s)); [apply Hu|apply Hu|done]. Qed.
Lemma keeps_vget {A} (field : S → list A) i : keeps f (vget field i).
Proof. apply keeps_bind; [apply keeps_gets|]. intros. apply keeps_deref. Qed.
Lemma keeps_vset {A} (field : S → list A) set_field i x :
  (∀ l s, f (set_field l s) = f s) → keeps f (vset field set_field i x).
Proof.
  intros Hf. apply keeps_bind; [apply keeps_gets|]. intros l. apply keeps_bind; [apply keeps_deref|]. intros _.
  by apply keeps_modify.
Qed.
Lemma keeps_ensure_status (m k : M S TfLiteStatus) : keeps f m → keeps f k → keeps f (ensure_status m k).
Proof. intros Hm Hk. apply keeps_bind; [done|]. intros s. case_match; [done|apply keeps_ret]. Qed.
Lemma keeps_for_status {A} (l : list A) body : (∀ a, keeps f (body a)) → keeps f (for_status l body).
Proof. intros Hb. induction l; simpl; [apply keeps_ret|]. by apply keeps_ensure_status. Qed.
Lemma keeps_ensure b : keeps f (TF_LITE_ENSURE b).
Proof. apply keeps_ret. Qed.
End keeps.

Create HintDb frames.
#[export] Hint Resolve keeps_ret keeps_get keeps_gets keeps_undefined keeps_deref keeps_vget keeps_ensure : frames.

(** Goes through an operation. *)
Ltac keeps_step :=
  first
    [ solve [auto with frames nocore]
    | apply keeps_bind; [|intros]
    | apply keeps_ensure_status
    | apply keeps_for_each; intros
    | apply keeps_for_status; intros
    | apply keeps_fold_m; intros
    | apply keeps_zoom; done
    | apply keeps_modify; done
    | apply keeps_vset; done
    | progress case_match ].
Ltac solve_keeps := repeat keeps_step.

(** ** What running a subgraph leaves alone *)

Section run_frames.
Context {W B : Type} `{MemoryPlanner W} `{CHeap W} `{Delegates W} `{StdSort} `{UnorderedOrder}.

(** [f] does not look at the tensors, the nodes or the state of the execution. *)
Record static (f : Subgraph W → B) : Prop := {
  static_context c g : f (set_context c g) = f g;
  static_nodes l g : f (set_nodes l g) = f g;
  static_execution e g : f (set_execution e g) = f g
}.

Context (f : Subgraph W → B) (Hf : static f).

Lemma keeps_on_context {A} (m : M (TfLiteContext W) A) : keeps f (on_context m).
Proof. apply keeps_zoom. intros. apply Hf. Qed.
Lemma keeps_update_execution u : keeps f (update_execution u).
Proof. apply keeps_modify. intros. apply Hf. Qed.
Lemma keeps_set_state v : keeps f (set_state v).
Proof. apply keeps_modify. intros. apply Hf. Qed.
Lemma keeps_get_node i : keeps f (get_node i).
Proof. unfold get_node. solve_keeps. Qed.
Lemma keeps_vset_node i x : keeps f (vset nodes_and_registration_ set_nodes i x).
Proof. apply keeps_vset. intros. apply Hf. Qed.
Lemma keeps_put_node i n : keeps f (put_node i n).
Proof. unfold put_node. apply keeps_bind; [auto with frames|]. intros. apply keeps_vset_node. Qed.
Lemma keeps_set_context c : keeps f (modify (set_context c)).
Proof. apply keeps_modify. intros. apply Hf. Qed.
Lemma keeps_set_nodes l : keeps f (modify (λ g, set_nodes (l g) g)).
Proof. apply keeps_modify. intros. apply Hf. Qed.
Lemma keeps_reset_flag b : keeps f (modify (λ g, set_context (set_resized b (context_ g)) g)).
Proof. apply keeps_modify. intros. apply Hf. Qed.
#[local] Hint Resolve keeps_on_context keeps_update_execution keeps_set_state keeps_get_node keeps_vset_node
  keeps_put_node keeps_set_context keeps_set_nodes keeps_reset_flag : frames.

Lemma keeps_run_kernel i k : keeps f (run_kernel i k).
Proof. unfold run_kernel. solve_keeps. Qed.
#[local] Hint Resolve keeps_run_kernel : frames.

Lemma keeps_PrepareOpsStartingAt first plan last : keeps f (PrepareOpsStartingAt first plan last).
Proof.
  unfold PrepareOpsStartingAt. apply keeps_bind; [solve_keeps|]. intros _. generalize (range first (zlen plan)). intros l.
  revert last. induction l as [|i l IH]; intros last; simpl; unfold OpPrepare; solve_keeps; apply IH.
Qed.
Lemma keeps_view_nodes plan : keeps f (view_nodes plan).
Proof. induction plan; simpl; solve_keeps. Qed.
#[local] Hint Resolve keeps_PrepareOpsStartingAt keeps_view_nodes : frames.

Lemma keeps_CreateGraphInfo : keeps f CreateGraphInfo.
Proof. unfold CreateGraphInfo. solve_keeps. Qed.
#[local] Hint Resolve keeps_CreateGraphInfo : frames.

Lemma keeps_verify_tensors l : keeps f (verify_tensors l).
Proof. unfold verify_tensors, VerifyCustomAllocationForTensor. solve_keeps. Qed.
#[local] Hint Resolve keeps_verify_tensors : frames.

Lemma keeps_PrepareOpsAndTensors : keeps f PrepareOpsAndTensors.
Proof. unfold PrepareOpsAndTensors. solve_keeps. Qed.
#[local] Hint Resolve keeps_PrepareOpsAndTensors : frames.

Lemma keeps_AllocateTensors redo : keeps f redo → keeps f (AllocateTensors redo).
Proof.
  intros Hr. unfold AllocateTensors, verify_custom_allocations, VerifyCustomAllocationForTensor, if_planner,
    InitializeTensorReleaseMap, note_use, free_delegated_temporaries. solve_keeps.
Qed.

Lemma keeps_IsFullyDelegated : keeps f IsFullyDelegated.
Proof.
  unfold IsFullyDelegated. apply keeps_bind; [solve_keeps|]. intros plan. induction plan; simpl; solve_keeps; done.
Qed.

Lemma keeps_InvokeImpl : keeps f InvokeImpl.
Proof.
  unfold InvokeImpl, invoke_op, check_inputs, check_input, MayAllocateOpOutput, callback, OpInvoke, reprepare_downstream,
    if_planner, MaybeReleaseDynamicTensors, release_unused. solve_keeps.
Qed.
End run_frames.

(** ** Delegation is not nested

    Two computations that agree, and keep a property, on the states with it. *)

Definition agree {S A} (P : S → Prop) (m m' : M S A) : Prop := ∀ s, P s →
  m s = m' s ∧ match m s with Done _ s' | Error s' => P s' | Undefined => True end.

Section agree.
Context {S : Type} (P : S → Prop).

Lemma agree_bind {A C} (m m' : M S A) (k k' : A → M S C) :
  agree P m m' → (∀ a, agree P (k a) (k' a)) → agree P (m ≫= k) (m' ≫= k').
Proof.
  intros Hm Hk s Hs. unfold mbind, M_bind. destruct (Hm s Hs) as [<- HP]. destruct (m s); [|done..]. by apply Hk.
Qed.
Lemma agree_ensure_status (m m' k k' : M S TfLiteStatus) :
  agree P m m' → agree P k k' → agree P (ensure_status m k) (ensure_status m' k').
Proof. intros Hm Hk. apply agree_bind; [done|]. intros s. by case_match. Qed.
Lemma agree_for_status {A} (l : list A) body body' :
  (∀ a, agree P (body a) (body' a)) → agree P (for_status l body) (for_status l body').
Proof. intros Hb. induction l; simpl; [done|]. by apply agree_ensure_status. Qed.
End agree.

(** The errors of a sequence whose first part keeps [f]. *)
Lemma keeps_then {S A C B} (f : S → B) (m : M S A) (k : A → M S C) Q s s0 :
  keeps f m → (∀ a s', match k a s' with Done c s'' => Q c s'' | Error s'' => f s'' = f s' | Undefined => True end) →
  f s = f s0 →
  match (m ≫= k) s with Done c s'' => Q c s'' | Error s'' => f s'' = f s0 | Undefined => True end.
Proof.
  intros Hm Hk Hs. unfold mbind, M_bind. specialize (Hm s). destruct (m s) as [a s'|s'|]; [|congruence|done].
  specialize (Hk a s'). destruct (k a s'); congruence.
Qed.

Lemma keeps_agree {S A B} (f : S → B) b (m : M S A) : keeps f m → agree (λ s, f s = b) m m.
Proof. intros Hm s Hs. split; [done|]. specialize (Hm s). destruct (m s); congruence. Qed.

Lemma bind_eq {S A C} (m : M S A) (k k' : A → M S C) s :
  (∀ a s', m s = Done a s' → k a s' = k' a s') → (m ≫= k) s = (m ≫= k') s.
Proof. intros Hk. unfold mbind, M_bind. destruct (m s); [by apply Hk|done..]. Qed.

Section nesting.
Context {W : Type} `{MemoryPlanner W} `{CHeap W} `{Delegates W} `{StdSort} `{UnorderedOrder}.

Definition undone (g : Subgraph W) : bool := delegates_undone_ (delegation g).
Definition applied (g : Subgraph W) : Prop := undone g = false.

Lemma undone_static : static (W := W) undone.
Proof. by split. Qed.

#[local] Hint Resolve keeps_on_context keeps_update_execution keeps_set_state keeps_get_node keeps_vset_node
  keeps_put_node keeps_set_context keeps_set_nodes keeps_reset_flag keeps_view_nodes keeps_CreateGraphInfo
  keeps_PrepareOpsStartingAt undone_static : frames.

Lemma keeps_run_delegate d r : keeps undone (run_delegate d r).
Proof.
  assert (∀ ins outs init_data params registration, keeps undone (AddNodeWithParameters (W := W) ins outs init_data params registration)) as Hadd.
  { intros. unfold AddNodeWithParameters, CheckTensorIndices, CheckInputAndOutputForOverlap, OpInit. solve_keeps. }
  induction r as [status w|i l next IH|registration nodes w next IH]; simpl; [solve_keeps|..];
    unfold in_delegate_context, redirect, ReplaceNodeSubsetsWithDelegateKernels, PartitionGraph, InterpreterInfo,
      replace_subset, claim_output; solve_keeps; by try apply IH.
Qed.

Lemma undone_keeps {A} (m : M (Subgraph W) A) : keeps undone m → agree applied m m.
Proof. apply keeps_agree. Qed.

Lemma AllocateTensors_agree r r' : agree applied r r' → agree applied (AllocateTensors r) (AllocateTensors r').
Proof.
  intros Hr. unfold AllocateTensors. apply agree_bind; [apply undone_keeps; auto with frames|]. intros g.
  case_match; [apply undone_keeps; auto with frames|]. apply agree_ensure_status; [done|]. apply undone_keeps.
  unfold verify_custom_allocations, VerifyCustomAllocationForTensor, if_planner, InitializeTensorReleaseMap, note_use,
    free_delegated_temporaries. pose proof (keeps_PrepareOpsAndTensors undone undone_static). solve_keeps.
Qed.

Lemma EnsureMemoryAllocations_agree r r' :
  agree applied r r' → agree applied (EnsureMemoryAllocations r) (EnsureMemoryAllocations r').
Proof.
  intros Hr. unfold EnsureMemoryAllocations, if_planner. apply agree_ensure_status; [apply undone_keeps; solve_keeps|].
  apply agree_ensure_status; [by apply AllocateTensors_agree|apply undone_keeps; solve_keeps].
Qed.

(** [UndoAllDelegates] returns [kTfLiteOk] whenever it returns. *)
Lemma UndoAllDelegates_ok g :
  match UndoAllDelegates g with Done s _ => s = kTfLiteOk | Error g' => undone g' = undone g | Undefined => True end.
Proof.
  unfold UndoAllDelegates, mbind at 1, M_bind at 1, get. destruct (bool_decide _); [done|].
  unfold free_delegate_node, CleanupNode, OpFree, remember_dequantize, restore_inputs.
  do 6 (apply (keeps_then undone); [unfold update_delegation; solve_keeps| |done]; intros ? ?). done.
Qed.

(** [UndoAllDelegates] marks the delegates as undone, [RemoveAllDelegates] forgets
    them. *)
Lemma RemoveAllDelegates_agree r r' :
  agree applied r r' → agree applied (RemoveAllDelegates r) (RemoveAllDelegates r').
Proof.
  intros Hr s Hs. unfold RemoveAllDelegates, ensure_status, mbind, M_bind.
  pose proof (UndoAllDelegates_ok s) as Hu. destruct (UndoAllDelegates s) as [st s'|s'|]; [subst st; simpl|split; [done|by unfold applied in *; congruence]|done].
  apply EnsureMemoryAllocations_agree; [done|]. done.
Qed.

Lemma reset_delegation_agree r r' m :
  agree applied r r' → agree applied m m → agree applied (reset_delegation_if_not_ok r m) (reset_delegation_if_not_ok r' m).
Proof.
  intros Hr Hm. apply agree_bind; [done|]. intros status. case_match; [by apply undone_keeps; auto with frames|].
  apply agree_ensure_status; [by apply RemoveAllDelegates_agree|apply undone_keeps; auto with frames].
Qed.
#[local] Hint Resolve keeps_run_delegate : frames.

Ltac solve_undone := apply undone_keeps; unfold update_delegation, prepare_all; solve_keeps.

Lemma settle_state_agree r r' dyn hint st :
  agree applied r r' → agree applied (settle_state r dyn hint st) (settle_state r' dyn hint st).
Proof.
  intros Hr. pose proof (EnsureMemoryAllocations_agree r r' Hr) as He. pose proof (RemoveAllDelegates_agree r r' Hr) as Hrm.
  assert (agree applied (EnsureMemoryAllocations r) (EnsureMemoryAllocations r)) as He'.
  { intros s Hs. split; [done|]. by destruct (He s Hs). }
  assert (∀ m m', agree applied m m' → agree applied m m →
            agree applied (reset_delegation_if_not_ok r m) (reset_delegation_if_not_ok r' m')) as Hreset.
  { intros m m' Hm Hm'. unfold reset_delegation_if_not_ok. apply agree_bind; [done|]. intros status.
    case_match; [solve_undone|]. apply agree_ensure_status; [done|solve_undone]. }
  unfold settle_state. destruct dyn; simpl.
  - destruct st; [solve_undone|by apply Hreset|].
    apply agree_ensure_status; [apply Hreset; solve_undone|]. apply agree_bind; [solve_undone|]. intros g.
    case_match; [apply agree_ensure_status; [done|solve_undone]|].
    apply agree_ensure_status; [by apply Hreset|solve_undone].
  - apply agree_ensure_status; [|solve_undone]. destruct hint; [solve_undone|].
    apply agree_bind; [solve_undone|]. intros []. by apply Hreset.
Qed.

Lemma ModifyGraphWithDelegateImpl_agree r r' d :
  agree applied r r' → agree applied (ModifyGraphWithDelegateImpl r d) (ModifyGraphWithDelegateImpl r' d).
Proof.
  intros Hr. unfold ModifyGraphWithDelegateImpl. destruct d as [d|]; [|solve_undone].
  apply agree_ensure_status; [done|]. cbv zeta. apply agree_bind; [solve_undone|]. intros st.
  apply agree_ensure_status.
  { unfold check_static. apply agree_bind; [solve_undone|]. intros g. case_match; [solve_undone|].
    case_match; [|solve_undone]. apply agree_ensure_status; [solve_undone|].
    apply agree_bind; [solve_undone|]. intros g'. case_match; [|solve_undone].
    apply agree_ensure_status; [by apply EnsureMemoryAllocations_agree|solve_undone]. }
  apply agree_bind. { apply undone_keeps, keeps_modify. intros g. by case_match. } intros [].
  apply agree_bind; [unfold SwitchToDelegateContext; solve_undone|]. intros _.
  apply agree_bind; [solve_undone|]. intros g. apply agree_bind; [solve_undone|]. intros status.
  apply agree_bind; [unfold SwitchToKernelContext; solve_undone|]. intros _.
  apply agree_ensure_status; [apply reset_delegation_agree; [done|solve_undone]|].
  pose proof (keeps_IsFullyDelegated (W := W) undone).
  apply agree_bind; [case_match; solve_undone|]. intros fully. case_match; [solve_undone|].
  apply agree_ensure_status; [by apply settle_state_agree|solve_undone].
Qed.

Lemma bind_get {S A} (k : S → M S A) s : (get ≫= k) s = k s s.
Proof. reflexivity. Qed.

Lemma RedoAllDelegates_applied bottom n g : applied g → RedoAllDelegates_over bottom n g = Done kTfLiteOk g.
Proof.
  intros Hg. unfold applied, undone in Hg. destruct n; cbn [RedoAllDelegates_over]; rewrite bind_get, Hg; reflexivity.
Qed.

Lemma RedoAllDelegates_agree bottom bottom' n n' :
  agree applied (RedoAllDelegates_over bottom n) (RedoAllDelegates_over bottom' n').
Proof. intros g Hg. rewrite !RedoAllDelegates_applied by done. done. Qed.

(** Whatever is run below the first call: it is not reached. *)
Lemma RedoAllDelegates_settles bottom bottom' n n' g :
  RedoAllDelegates_over bottom (S n) g = RedoAllDelegates_over bottom' (S n') g.
Proof.
  cbn [RedoAllDelegates_over]. apply bind_eq. intros a s1 _. case_match; [done|].
  apply bind_eq. intros [] s2 Hs2. apply bind_eq. intros [] s3 Hs3.
  apply (agree_for_status applied); [|unfold update_delegation, modify in *; by simplify_eq].
  intros d. apply ModifyGraphWithDelegateImpl_agree, RedoAllDelegates_agree.
Qed.
End nesting.

(** C37: [BytesRequired] computes the bytes of a packed array: the product of the
    dimensions times the bits of an element, rounded up to bytes; but it is 0 when the
    rounding wraps around, for 2^64 - 1 elements of 4 bits or for at least 2^64 - 3 of 2
    bits. It fails exactly if the size of the type is unknown or a partial product of the
    dimensions, or the product in bytes before packing, does not fit into 64 bits. *)
Theorem BytesRequired_bounds t d bytes0 :
  match GetSizeOfType t, bits_of t with
  | Some type_size, Some bits =>
      (no_overflow 1 d ∧ type_size * volume (u64 <$> d) < 2 ^ 64 ∧
       (BytesRequired t d bytes0).1 = kTfLiteOk ∧
       (BytesRequired t d bytes0).2 =
         if volume (u64 <$> d) + (per_byte t - 1) <? 2 ^ 64 then (bits * volume (u64 <$> d) + 7) / 8 else 0) ∨
      (¬ (no_overflow 1 d ∧ type_size * volume (u64 <$> d) < 2 ^ 64) ∧ (BytesRequired t d bytes0).1 = kTfLiteError)
  | _, _ => (BytesRequired t d bytes0).1 = kTfLiteError
  end.
Proof. exact (BytesRequired_spec t d bytes0). Qed.

(** Dimensions for which the rounding wraps around. *)
Example BytesRequired_wraps :
  BytesRequired kTfLiteInt4 [3; 5; 17; 257; 641; 65537; 6700417] 0 = (kTfLiteOk, 0) ∧
  BytesRequired kTfLiteInt8 [3; 5; 17; 257; 641; 65537; 6700417] 0 = (kTfLiteOk, 2 ^ 64 - 1).
Proof. split; vm_compute; reflexivity. Qed.

(** Allocation and delegation call each other through [RedoAllDelegates]; this
    recursion ends, for every graph and delegate, after [redo_depth] nested calls: whatever
    [bottom] stands for the calls below those, the outcome is the same, so they are not
    made. *)
Theorem RedoAllDelegates_depth {W} `{MemoryPlanner W} `{CHeap W} `{Delegates W} `{StdSort} `{UnorderedOrder}
    (bottom : M (Subgraph W) TfLiteStatus) n (g : Subgraph W) :
  RedoAllDelegates_over bottom (redo_depth + n) g = RedoAllDelegates redo_depth g.
Proof. exact (RedoAllDelegates_settles bottom undefined n 0 g). Qed.
