(* ===== verification/SubgraphRunProofs.v ===== *)
(** * Running a subgraph

    What a subgraph expects of the kernels, the planner and the heap behind its
    function pointers, and that under this contract [Invoke] hands every kernel what
    it was prepared for. *)

From S2P Require Import Prelude ArenaPlanner Subgraph SubgraphExecution SubgraphDelegation SubgraphProofs.

(** ** Rules for statuses *)

Section status_rules.
Context {S : Type}.

Lemma wp_ensure_status (m k : M S TfLiteStatus) Q E s :
  wp m (λ st s', if decide (st = kTfLiteOk) then wp k Q E s' else Q st s') E s → wp (ensure_status m k) Q E s.
Proof.
  intros Hm. apply wp_bind. eapply wp_post; [|exact Hm]. intros st s' Hst. simpl in Hst. case_decide; [done|by apply wp_ret].
Qed.

(** [I] is indexed by the elements already visited, [F] holds when the body fails. *)
Lemma wp_for_status {A} (I : list A → S → Prop) (F : TfLiteStatus → S → Prop) E (l : list A) body s :
  I [] s →
  (∀ done x todo s', l = done ++ x :: todo → I done s' →
     wp (body x) (λ st s'', if decide (st = kTfLiteOk) then I (done ++ [x]) s'' else F st s'') E s') →
  wp (for_status l body) (λ st s', if decide (st = kTfLiteOk) then I l s' else F st s') E s.
Proof.
  intros H0 Hstep.
  enough (∀ done todo s', l = done ++ todo → I done s' →
    wp (for_status todo body) (λ st s', if decide (st = kTfLiteOk) then I l s' else F st s') E s') as H; [by apply (H [])|].
  intros done todo. revert done. induction todo as [|x todo IH]; intros done s' Hl HI; simpl.
  - apply wp_ret. rewrite app_nil_r in Hl. by subst.
  - apply wp_ensure_status. eapply wp_post; [|by eapply Hstep]. intros st s'' Hst. simpl in Hst. case_decide; [|done].
    apply (IH (done ++ [x])); [by rewrite <- app_assoc|done].
Qed.
End status_rules.

(** ** The graph *)

Section running.
Context {W : Type} `{MemoryPlanner W} `{CHeap W} `{Delegates W} `{UnorderedOrder}.
Implicit Types (c : TfLiteContext W) (g : Subgraph W) (n : TfLiteNode) (t i : Z).

Definition io n : list Z := inputs n ++ outputs n.
Definition shape c t : option (list Z) := zget (tensors_ c) t ≫= dims.
Definition shapes c (l : list Z) : list (option (list Z)) := shape c <$> l.
Definition node_at g i : option (TfLiteNode * TfLiteRegistration W) := zget (nodes_and_registration_ g) i.

(** Tensor [t] may be named by a node. *)
Definition valid_tensor c t : Prop := t = kTfLiteOptionalTensor ∨ is_Some (shape c t).

(** A node of the plan, and a tensor of one. *)
Definition planned g i nr : Prop := i ∈ execution_plan_ g ∧ node_at g i = Some nr.
Definition used g t : Prop := ∃ i nr, planned g i nr ∧ t ∈ io nr.1.

(** Node [i] runs before node [j]. *)
Definition before g i j : Prop := ∃ pre mid post, execution_plan_ g = pre ++ i :: mid ++ j :: post.

(** Every node named by the plan can be read, and no node reads or writes what a
    later one writes. *)
Record well_formed g : Prop := {
  wf_plan i : i ∈ execution_plan_ g → is_Some (node_at g i);
  wf_nodup : NoDup (execution_plan_ g);
  wf_node i nr : node_at g i = Some nr → arrays_freed nr.1 = false ∧
    (∀ t, t ∈ io nr.1 → valid_tensor (context_ g) t) ∧
    ∀ t, t ∈ temporaries nr.1 → 0 ≤ t < zlen (tensors_ (context_ g));
  wf_order i j ni nj t : before g i j → node_at g i = Some ni → node_at g j = Some nj →
    t ∈ io ni.1 → t ∈ outputs nj.1 → t = kTfLiteOptionalTensor;
  wf_interface t : t ∈ inputs_ (config g) ++ outputs_ (config g) → valid_tensor (context_ g) t;
  wf_pre_plan i : i ∈ pre_delegation_execution_plan_ (delegation g) → is_Some (node_at g i)
}.

(** The node before and after a kernel. *)
Record same_node n n' : Prop := {
  sn_inputs : inputs n' = inputs n;
  sn_outputs : outputs n' = outputs n;
  sn_delegate : delegate n' = delegate n;
  sn_freed : arrays_freed n' = arrays_freed n
}.

(** ** The contract

    [Inv p n] is what holds of the world between calls, given whether there is a planner,
    which then has planned the graph, and the number of tensors; [priv i] is what only the kernel of node [i] changes. [Prep i n shapes v]: the
    kernel of node [i] has been prepared for tensors of these shapes. [computed i]:
    its outputs have been computed. *)
Record Contract := {
  V : Type;
  Inv : bool → Z → W → Prop;
  priv : Z → W → V;
  Prep : Z → TfLiteNode → list (option (list Z)) → V → Prop;
  computed : Z → W → Prop
}.

Context (K : Contract).

Definition inv (p : bool) c : Prop := Inv K p (zlen (tensors_ c)) (world c).

(** The planner has committed memory that it has not released. *)
Definition has_memory (w : W) : bool := planner_HasNonPersistentMemory w.

(** What any call leaves of the context. *)
Record quiet (p p' : bool) (c c' : TfLiteContext W) : Prop := {
  qu_length : zlen (tensors_ c) ≤ zlen (tensors_ c');
  qu_inv : inv p c → inv p' c';
  qu_computed j : computed K j (world c) → computed K j (world c');
  qu_shape t : is_Some (shape c t) → is_Some (shape c' t)
}.

(** A call that changes neither shapes nor what kernels have set up. *)
Record silent (p p' : bool) (c c' : TfLiteContext W) : Prop := {
  si_quiet : quiet p p' c c';
  si_priv j : priv K j (world c') = priv K j (world c);
  si_shape t : shape c' t = shape c t;
  si_memory : p = true → has_memory (world c) = true → p' = true ∧ has_memory (world c') = true
}.

(** A call of the kernel of node [i], which only reshapes its own outputs. *)
Record local_to (g : Subgraph W) (p : bool) i n (c c' : TfLiteContext W) : Prop := {
  lo_quiet : quiet p p c c';
  lo_priv j : j ≠ i → priv K j (world c') = priv K j (world c);
  lo_shape t : used g t → t ∉ outputs n → shape c' t = shape c t;
  lo_memory : p = true → has_memory (world c) = true → has_memory (world c') = true
}.

Definition prepared_node i n c : Prop := Prep K i n (shapes c (io n)) (priv K i (world c)).

(** Input [t] at position [i] of a node can be read. *)
Definition readable c (code i t : Z) : Prop :=
  t = kTfLiteOptionalTensor ∨ ∃ x, zget (tensors_ c) t = Some x ∧
    (data x ≠ 0 ∨ bytes x ≤ 0 ∨ allocation_type x = kTfLiteNonCpu ∨
     (code = kTfLiteBuiltinReshape ∧ i = 1 ∧ ∃ d, dims x = Some d ∧ zlen d ≠ 1)).

(** The outputs of a node that were reshaped are dynamic and the context knows. *)
Definition reshaped_dynamic n c c' : Prop :=
  (∃ t, t ∈ outputs n ∧ shape c' t ≠ shape c t) →
  tensor_resized_since_op_invoke_ c' = true ∧
  ∃ t x, t ∈ outputs n ∧ t ≠ kTfLiteOptionalTensor ∧ zget (tensors_ c') t = Some x ∧ allocation_type x = kTfLiteDynamic.

(** [invoke] may have undefined behaviour unless the kernel is prepared for the
    shapes of its tensors, its inputs can be read and have been computed. *)
Record kernel_ok (g : Subgraph W) i (reg : TfLiteRegistration W) n0 : Prop := {
  ko_prepare k p n c : prepare reg = Some k → same_node n0 n → inv p c →
    (∀ t, t ∈ io n → valid_tensor c t) → (∀ t, t ∈ temporaries n → 0 ≤ t < zlen (tensors_ c)) →
    wp k (λ st '(n', c'), same_node n n' ∧ local_to g p i n c c' ∧
            (∀ t, t ∈ temporaries n' → 0 ≤ t < zlen (tensors_ c')) ∧
            (st = kTfLiteOk ∨ st = kTfLiteOutputShapeNotKnown → prepared_node i n' c'))
      (λ _, False) (n, c);
  ko_no_prepare n c : prepare reg = None → IsUnresolvedCustomOp reg = false → same_node n0 n → prepared_node i n c;
  ko_invoke k p n c : invoke reg = Some k → same_node n0 n → inv p c →
    (∀ t, t ∈ io n → valid_tensor c t) → (∀ t, t ∈ temporaries n → 0 ≤ t < zlen (tensors_ c)) →
    prepared_node i n c →
    (∀ a t, zget (inputs n) a = Some t → readable c (builtin_code reg) a t) →
    (∀ j nj t, before g j i → node_at g j = Some nj → t ∈ outputs nj.1 → t ∈ inputs n → computed K j (world c)) →
    tensor_resized_since_op_invoke_ c = false →
    wp k (λ st '(n', c'), same_node n n' ∧ local_to g p i n c c' ∧
            (∀ t, t ∈ temporaries n' → 0 ≤ t < zlen (tensors_ c')) ∧
            (st = kTfLiteOk → prepared_node i n' c' ∧ computed K i (world c') ∧ reshaped_dynamic n c c'))
      (λ _, False) (n, c)
}.

Definition silent_call {A} (p p' : bool) (m : M (TfLiteContext W) A) : Prop := ∀ c,
  inv p c → wp m (λ _ c', silent p p' c c') (λ _, False) c.

Record quiet_world p k (w w' : W) : Prop := {
  qw_inv : Inv K p k w';
  qw_priv j : priv K j w' = priv K j w;
  qw_computed j : computed K j w → computed K j w';
  qw_memory : has_memory w = true → has_memory w' = true
}.

Definition silent_world {A} (m : M W A) : Prop := ∀ p k w, Inv K p k w →
  wp m (λ _, quiet_world p k w) (λ _, False) w.

(** A view that the planner gets of [g] while it runs: the nodes of its plan, with the
    inputs and outputs they were added with, in a context whose tensors are those of
    [g] or more. *)
Record view_of g (view : PlannerView W) c : Prop := {
  vo_nodes : Forall2 (λ i x, ∃ nr, node_at g i = Some nr ∧ same_node nr.1 x.1 ∧ x.2 = nr.2) (execution_plan_ g) (plan_nodes view);
  vo_temporaries x t : x ∈ plan_nodes view → t ∈ temporaries x.1 → 0 ≤ t < zlen (tensors_ c);
  vo_inputs : view_inputs view = inputs_ (config g);
  vo_outputs : view_outputs view = outputs_ (config g);
  vo_variables : view_variables view = variables_ (config g);
  vo_preserve : view_preserve_all_tensors view = ShouldPreserveAllTensors g;
  vo_shape t : is_Some (shape (context_ g) t) → is_Some (shape c t)
}.

(** The planner is only called as [g] calls it: on the views of [g], first to plan it
    as soon as it is constructed, and within the positions of the plan. *)
Record planner_ok g : Prop := {
  en_plan view c : inv false c → view_of g view c →
    wp (new_planner;; planner_PlanAllocations view) (λ _ c', silent false true c c') (λ _, False) c;
  en_execute view first last c : inv true c → view_of g view c →
    0 ≤ first → 0 ≤ last < Z.max 1 (zlen (execution_plan_ g)) →
    wp (planner_ExecuteAllocations view first last)
      (λ st c', silent true true c c' ∧ (st = kTfLiteOk → has_memory (world c') = true)) (λ _, False) c;
  en_reset : silent_call true true planner_ResetAllocations;
  en_reset_after k : 0 ≤ k → silent_call true true (planner_ResetAllocationsAfter k);
  en_release c : inv true c → wp planner_ReleaseNonPersistentMemory (λ _ c', quiet true true c c') (λ _, False) c
}.

Record environment_ok g : Prop := {
  en_planner : planner_ok g;
  en_malloc b : silent_world (malloc b);
  en_free a : silent_world (heap_free a);
  en_delete a : silent_world (delete_variant a);
  en_memset a v b : silent_world (memset a v b);
  (** a delegate fills the tensor it is asked for *)
  en_copy p d h t c : inv p c →
    wp (CopyFromBufferHandle d h t)
      (λ _ c', silent p p c c' ∧ ∀ u, u ≠ t → zget (tensors_ c') u = zget (tensors_ c) u) (λ _, False) c
}.

(** Everything the subgraph relies on. *)
Record contract_ok (g : Subgraph W) : Prop := {
  co_environment : environment_ok g;
  co_kernel i nr : planned g i nr → kernel_ok g i nr.2 nr.1;
  co_cancelled m : check_cancelled_func_ (config g) = Some m → silent_world m;
  co_continue m : continue_invocation_ (config g) = Some m → silent_world m;
  co_shapes : prepare_original_plan g = false
}.

(** ** The graph while it runs *)

Context (g0 : Subgraph W) (Hwf : well_formed g0) (Hco : contract_ok g0).

Definition has_planner g : bool := has_memory_planner (execution g).

(** Nothing but the state of the execution and of the kernels differs from [g0]. *)
Record live g : Prop := {
  lv_plan : execution_plan_ g = execution_plan_ g0;
  lv_config : config g = config g0;
  lv_delegation : delegation g = delegation g0;
  lv_nodes : Forall2 (λ x y, same_node x.1 y.1 ∧ y.2 = x.2) (nodes_and_registration_ g0) (nodes_and_registration_ g);
  lv_inv : inv (has_planner g) (context_ g);
  lv_shape t : is_Some (shape (context_ g0) t) → is_Some (shape (context_ g) t);
  lv_temporaries i nr t : node_at g i = Some nr → t ∈ temporaries nr.1 → 0 ≤ t < zlen (tensors_ (context_ g));
  lv_custom t : is_Some (custom_allocations_ (execution g) !! t) → 0 ≤ t < zlen (tensors_ (context_ g));
  lv_next : 0 ≤ next_execution_plan_index_to_plan_allocation_ (execution g) ∧ 0 ≤ next_execution_plan_index_to_prepare_ (execution g)
}.

(** The nodes at the first [k] positions of the plan are prepared. *)
Definition prepared_upto (k : Z) g : Prop := ∀ a i nr,
  a < k → zget (execution_plan_ g) a = Some i → node_at g i = Some nr → prepared_node i nr.1 (context_ g).

Lemma live_node g i nr :
  live g → node_at g i = Some nr → ∃ nr0, node_at g0 i = Some nr0 ∧ same_node nr0.1 nr.1 ∧ nr.2 = nr0.2.
Proof.
  intros Hl Hi. unfold node_at, zget in *. case_match; [|done].
  destruct (Forall2_lookup_r _ _ _ _ _ (lv_nodes _ Hl) Hi) as (nr0 & Hi0 & ? & ?). by exists nr0.
Qed.

Lemma live_node_at g i nr0 :
  live g → node_at g0 i = Some nr0 → ∃ nr, node_at g i = Some nr ∧ same_node nr0.1 nr.1 ∧ nr.2 = nr0.2.
Proof.
  intros Hl Hi. unfold node_at, zget in *. case_match; [|done].
  destruct (Forall2_lookup_l _ _ _ _ _ (lv_nodes _ Hl) Hi) as (nr & Hi0 & ? & ?). by exists nr.
Qed.

Lemma same_io n n' : same_node n n' → io n' = io n.
Proof. intros [Hi Ho _ _]. unfold io. by rewrite Hi, Ho. Qed.

Lemma valid_live g t : live g → valid_tensor (context_ g0) t → valid_tensor (context_ g) t.
Proof. intros Hl [->|Ht]; [by left|right]. by apply Hl. Qed.

Lemma shape_tensor c t : is_Some (shape c t) → ∃ x, zget (tensors_ c) t = Some x.
Proof. unfold shape. destruct (zget _ t) as [x|]; [by exists x|by intros [? ?]]. Qed.

Lemma wp_read_tensor t x Q E c : zget (tensors_ c) t = Some x → Q x c → wp (get_tensor t) Q E c.
Proof. apply wp_vget_Some. Qed.

Lemma wp_put_tensor t x y Q E c : zget (tensors_ c) t = Some y → Q tt (set_tensors (zset t x (tensors_ c)) c) → wp (put_tensor t x) Q E c.
Proof. apply wp_vset_Some. Qed.

(** *** Calls that keep the shapes *)

Lemma silent_refl p c : silent p p c c.
Proof. by repeat split. Qed.

Lemma silent_trans p1 p2 p3 c1 c2 c3 : silent p1 p2 c1 c2 → silent p2 p3 c2 c3 → silent p1 p3 c1 c3.
Proof.
  intros [[F1 F2 F3 F4] F5 F6 F7] [[G1 G2 G3 G4] G5 G6 G7]. split; [split|..]; auto; try lia.
  - intros j. by rewrite G5, F5.
  - intros t. by rewrite G6, F6.
  - intros Hp Hm. destruct (F7 Hp Hm). by apply G7.
Qed.

Lemma silent_put p t x y c :
  zget (tensors_ c) t = Some y → dims x = dims y → silent p p c (set_tensors (zset t x (tensors_ c)) c).
Proof.
  intros Hy Hd. assert (∀ u, shape (set_tensors (zset t x (tensors_ c)) c) u = shape c u) as Hs.
  { intros u. unfold shape. simpl. pose proof (zget_range _ _ _ Hy). destruct (decide (u = t)) as [->|Hne].
    - by rewrite zget_zset_eq, Hy by done.
    - by rewrite zget_zset_ne by lia. }
  split; [split|..]; try done; simpl.
  - by rewrite zset_length.
  - unfold inv. simpl. by rewrite zset_length.
  - intros u. by rewrite Hs.
Qed.

Lemma silent_on_world {A} p (m : M W A) c :
  silent_world m → inv p c → wp (on_world m) (λ _ c', silent p p c c' ∧ tensors_ c' = tensors_ c) (λ _, False) c.
Proof.
  intros Hm HI. apply wp_zoom. eapply wp_post; [|by apply Hm]. intros a w' [HI' Hp' Hc' Hm']. split; [|done].
  split; [split|..]; try done. simpl. auto.
Qed.

(** A quiet call keeps everything the subgraph needs. *)
Lemma live_quiet g p c' : live g → has_planner g = p → quiet p p (context_ g) c' → live (set_context c' g).
Proof.
  intros Hl <- [S1 S2 S3 S4]. split; simpl; try apply Hl.
  - by apply S2, Hl.
  - intros t Ht. by apply S4, Hl.
  - intros i nr t Hi Ht. pose proof (lv_temporaries _ Hl i nr t Hi Ht). lia.
  - intros t Ht. pose proof (lv_custom _ Hl t Ht). lia.
Qed.

Lemma live_silent g p' c' :
  live g → silent (has_planner g) p' (context_ g) c' → p' = has_planner g → live (set_context c' g).
Proof.
  intros Hl [Hq _ _ _] ->. by eapply live_quiet.
Qed.

Lemma prepared_silent k g p p' c' :
  prepared_upto k g → silent p p' (context_ g) c' → prepared_upto k (set_context c' g).
Proof.
  intros Hp [_ S5 S6 _] a i nr Ha Hi Hn. specialize (Hp a i nr Ha Hi Hn). unfold prepared_node in *. simpl.
  rewrite S5. unfold shapes in *. by erewrite list_fmap_ext; [exact Hp|].
Qed.
(** ** Steps that are silent

    [calm g g']: only the context differs, silently. *)

Definition calm g g' : Prop :=
  g' = set_context (context_ g') g ∧ silent (has_planner g) (has_planner g) (context_ g) (context_ g').

Lemma calm_set_context g c' : silent (has_planner g) (has_planner g) (context_ g) c' → calm g (set_context c' g).
Proof. by intros Hs. Qed.

Lemma calm_refl g : calm g g.
Proof. split; [by destruct g|apply silent_refl]. Qed.

Lemma calm_execution g g' : calm g g' → execution g' = execution g ∧ execution_plan_ g' = execution_plan_ g ∧
  config g' = config g ∧ nodes_and_registration_ g' = nodes_and_registration_ g ∧ delegation g' = delegation g.
Proof. intros [-> _]. done. Qed.

Lemma calm_trans g1 g2 g3 : calm g1 g2 → calm g2 g3 → calm g1 g3.
Proof.
  intros [E1 S1] [E2 S2]. split.
  - rewrite E2, E1. done.
  - assert (has_planner g2 = has_planner g1) as Hp by (by rewrite E1). rewrite Hp in S2. by eapply silent_trans.
Qed.

Lemma calm_live g g' : live g → calm g g' → live g'.
Proof. intros Hl [-> Hs]. by eapply live_silent. Qed.

Lemma calm_prepared k g g' : prepared_upto k g → calm g g' → prepared_upto k g'.
Proof. intros Hp [-> Hs]. by eapply prepared_silent. Qed.

Lemma calm_computed i g g' : calm g g' → computed K i (world (context_ g)) → computed K i (world (context_ g')).
Proof. intros [_ [[_ _ Hc _] _ _ _]]. apply Hc. Qed.

Lemma calm_valid g g' t : calm g g' → valid_tensor (context_ g) t → valid_tensor (context_ g') t.
Proof. intros [_ [[_ _ _ Hc] _ _ _]] [->|Ht]; [by left|right; auto]. Qed.

(** A call on the context of a live subgraph. *)
Lemma wp_calm {A} (m : M (TfLiteContext W) A) (R : A → TfLiteContext W → Prop) g :
  wp m (λ a c', silent (has_planner g) (has_planner g) (context_ g) c' ∧ R a c') (λ _, False) (context_ g) →
  wp (on_context m) (λ a g', calm g g' ∧ R a (context_ g')) (λ _, False) g.
Proof.
  intros Hm. apply wp_zoom. eapply wp_post; [|exact Hm]. intros a c' [Hs HR]. split; [by apply calm_set_context|done].
Qed.

Lemma wp_for_each_calm {A} (l : list A) body g :
  (∀ x g', x ∈ l → calm g g' → wp (body x) (λ _, calm g') (λ _, False) g') →
  wp (for_each l body) (λ _ g', calm g g') (λ _, False) g.
Proof.
  intros Hb. apply (wp_for_each (λ _ g', calm g g')); [apply calm_refl|]. intros done x todo g' -> Hg.
  eapply wp_post; [|apply Hb; [set_solver|done]]. intros ? g''. by apply calm_trans.
Qed.

(** A call of the client or the heap. *)
Lemma wp_callback f otherwise g :
  live g → (∀ m, f = Some m → silent_world m) →
  wp (callback f otherwise) (λ _ g', calm g g' ∧ tensors_ (context_ g') = tensors_ (context_ g)) (λ _, False) g.
Proof.
  intros Hl Hf. unfold callback. destruct f as [m|]; [|apply wp_ret; split; [apply calm_refl|done]].
  apply (wp_calm _ (λ _ c', tensors_ c' = tensors_ (context_ g))).
  apply silent_on_world; [by apply Hf|apply Hl].
Qed.

(** Only the memory of tensor [t] changes, and it is not lost. *)
Definition memory_only t c c' : Prop :=
  (∀ u, u ≠ t → zget (tensors_ c') u = zget (tensors_ c) u) ∧
  ∀ x, zget (tensors_ c) t = Some x → ∃ d b, zget (tensors_ c') t = Some (set_memory d b x).

Lemma wp_TfLiteTensorDataFree p t x c :
  inv p c → zget (tensors_ c) t = Some x →
  wp (TfLiteTensorDataFree t) (λ _ c', silent p p c c') (λ _, False) c.
Proof.
  intros HI Hx. unfold TfLiteTensorDataFree. apply wp_bind. eapply wp_read_tensor; [done|]. apply wp_bind.
  eapply wp_post with (Q := λ _ c', silent p p c c' ∧ tensors_ c' = tensors_ c).
  - intros _ c' [Hs Ht]. eapply wp_put_tensor; [by rewrite Ht|]. eapply silent_trans; [exact Hs|].
    by eapply silent_put; [rewrite Ht|].
  - repeat case_match; try (apply wp_ret; split; [apply silent_refl|done]); (apply silent_on_world; [apply Hco|done]).
Qed.

Lemma wp_ResizeMaybeCopy p t x num_bytes c :
  inv p c → zget (tensors_ c) t = Some x →
  wp (TfLiteTensorResizeMaybeCopy num_bytes t)
    (λ _ c', silent p p c c' ∧ (∀ u, u ≠ t → zget (tensors_ c') u = zget (tensors_ c) u) ∧
       (zget (tensors_ c') t = Some x ∨ ∃ d, zget (tensors_ c') t = Some (set_memory d num_bytes x))) (λ _, False) c.
Proof.
  intros HI Hx. unfold TfLiteTensorResizeMaybeCopy. apply wp_bind. eapply wp_read_tensor; [done|]. case_match.
  - apply wp_ret. split_and!; [apply silent_refl|done|by left].
  - apply wp_bind. eapply wp_post with (Q := λ _ c', silent p p c c' ∧ tensors_ c' = tensors_ c).
    + intros d c' [Hs Ht]. apply wp_bind. eapply wp_put_tensor; [by rewrite Ht|]. apply wp_ret.
      pose proof (zget_range _ _ _ Hx). split_and!.
      * eapply silent_trans; [exact Hs|]. by eapply silent_put; [rewrite Ht|].
      * intros u Hu. simpl. rewrite zget_zset_ne by lia. by rewrite Ht.
      * right. exists d. simpl. rewrite zget_zset_eq; [done|by rewrite Ht].
    + case_match; [apply silent_on_world; [apply Hco|done]|].
      case_match; [|apply wp_ret; split; [apply silent_refl|done]].
      apply silent_on_world; [|done]. intros p' k w HI'. apply wp_bind.
      eapply wp_post; [|by apply (en_free _ (co_environment _ Hco))]. intros _ w' [F1 F2 F3 F4].
      eapply wp_post; [|by apply (en_malloc _ (co_environment _ Hco))]. intros d w'' [G1 G2 G3 G4].
      split; [done|intros j; by rewrite G2, F2|auto|auto].
Qed.
(** *** Inputs *)

(** A delegate has no newer value of tensor [u] than the one node [n] would read. *)
Definition settled n c u : Prop :=
  u = kTfLiteOptionalTensor ∨ ∃ x, zget (tensors_ c) u = Some x ∧
    bool_decide (is_Some (tensor_delegate x)) && negb (bool_decide (tensor_delegate x = delegate n)) && data_is_stale x = false.

Definition checked n code c a u : Prop := readable c code a u ∧ settled n c u.

Lemma checked_same n code c c' a u :
  (u ≠ kTfLiteOptionalTensor → zget (tensors_ c') u = zget (tensors_ c) u) → checked n code c a u → checked n code c' a u.
Proof.
  intros Hu [[->|(x & Hx & Hr)] Hs]; [by split; left|]. destruct (decide (u = kTfLiteOptionalTensor)) as [->|Hne].
  { by split; left. }
  rewrite <- Hu in Hx by done. destruct Hs as [?|(y & Hy & Hs)]; [done|]. rewrite <- Hu in Hy by done.
  split; right; [by exists x|by exists y].
Qed.

Lemma wp_EnsureTensorDataIsReadable p t x c :
  inv p c → zget (tensors_ c) t = Some x →
  wp (EnsureTensorDataIsReadable t)
    (λ st c', silent p p c c' ∧ (∀ u, u ≠ t → zget (tensors_ c') u = zget (tensors_ c) u) ∧
       (st = kTfLiteOk → ∃ y, zget (tensors_ c') t = Some y ∧ data_is_stale y = false)) (λ _, False) c.
Proof.
  intros HI Hx. unfold EnsureTensorDataIsReadable. apply wp_bind. eapply wp_read_tensor; [done|].
  destruct (data_is_stale x) eqn:Hst.
  - destruct (tensor_delegate x) as [d|]; [|by apply wp_ret; split_and!; [apply silent_refl|..]].
    apply wp_ensure_status. apply wp_ret. destruct (negb _); simpl; [|by split_and!; [apply silent_refl|..]].
    apply wp_bind. eapply wp_post; [|by apply (en_copy _ (co_environment _ Hco) p)]. intros st c' [Hs Hu].
    assert (is_Some (zget (tensors_ c') t)) as [y Hy].
    { apply zget_is_Some. pose proof (zget_range _ _ _ Hx). pose proof (qu_length _ _ _ _ (si_quiet _ _ _ _ Hs)). lia. }
    apply wp_bind. eapply wp_read_tensor; [done|]. apply wp_bind. eapply wp_put_tensor; [done|]. apply wp_ret.
    pose proof (zget_range _ _ _ Hy). split_and!.
    + eapply silent_trans; [exact Hs|]. by eapply silent_put.
    + intros u Hne. simpl. rewrite zget_zset_ne by lia. by apply Hu.
    + intros _. eexists. split; [simpl; by apply zget_zset_eq|done].
  - apply wp_ret. split_and!; [apply silent_refl|done|]. intros _. by exists x.
Qed.

Lemma wp_check_input n code a t g :
  live g → valid_tensor (context_ g) t →
  wp (check_input n code a t)
    (λ st g', calm g g' ∧ (st = kTfLiteOk → checked n code (context_ g') a t) ∧
       ∀ a' u, checked n code (context_ g) a' u → checked n code (context_ g') a' u) (λ _, False) g.
Proof.
  intros Hl Ht. unfold check_input. destruct (Z.eqb_spec t kTfLiteOptionalTensor) as [->|Hne].
  { apply wp_ret. split_and!; [apply calm_refl|by split; left|done]. }
  destruct Ht as [?|Ht]; [done|]. destruct (shape_tensor _ _ Ht) as [x Hx].
  apply wp_bind, wp_zoom. eapply wp_read_tensor; [done|].
  assert (set_context (context_ g) g = g) as -> by (by destruct g).
  apply wp_ensure_status.
  eapply wp_post with (Q := λ st g', calm g g' ∧ (st = kTfLiteOk → settled n (context_ g') t) ∧
    ∀ a' u, checked n code (context_ g) a' u → checked n code (context_ g') a' u).
  - intros st g' (Hc & Hs & Hk). case_decide; [|by split_and!].
    assert (is_Some (shape (context_ g') t)) as Ht' by (by apply Hc).
    destruct (shape_tensor _ _ Ht') as [y Hy].
    apply wp_bind, wp_zoom. eapply wp_read_tensor; [done|]. assert (set_context (context_ g') g' = g') as -> by (by destruct g').
    assert (∀ P : Prop, P → (P → readable (context_ g') code a t) → checked n code (context_ g') a t) as Hchk.
    { intros P HP Hr. split; [by apply Hr|by apply Hs]. }
    destruct (_ && negb _) eqn:Hlack.
    + destruct (_ && (a =? 1)) eqn:Hrs; [|by apply wp_ret].
      apply andb_true_iff in Hrs as [Hcode%Z.eqb_eq Ha%Z.eqb_eq].
      unfold shape in Ht'. rewrite Hy in Ht'. destruct Ht' as [d Hd]. simpl in Hd. rewrite Hd.
      apply wp_bind. eapply wp_deref; [done|]. apply wp_ret. split_and!; [done| |done].
      intros Hok. split; [|by apply Hs]. right. exists y. split; [done|]. right. right. right. split_and!; [done..|].
      exists d. split; [done|]. destruct (Z.eqb_spec (zlen d) 1); by simpl in Hok.
    + apply wp_ret. split_and!; [done| |done]. intros _. split; [|by apply Hs]. right. exists y. split; [done|].
      rewrite !andb_false_iff, negb_false_iff, bool_decide_eq_true, Z.eqb_neq, Z.ltb_ge in Hlack. naive_solver.
  - destruct (_ && data_is_stale x) eqn:Hcopy.
    + apply wp_zoom. eapply wp_post; [|by apply (wp_EnsureTensorDataIsReadable (has_planner g) t x); [apply Hl|]].
      intros st c' (Hsi & Hu & Hy). split_and!; [by apply calm_set_context|..].
      * intros Hok. destruct (Hy Hok) as (y & Hy' & Hst). right. exists y. by rewrite Hst, andb_false_r.
      * intros a' u Hck. simpl. destruct (decide (u = t)) as [->|Hut]; [|by eapply checked_same; [|exact Hck]; intros; apply Hu].
        destruct Hck as [_ [?|(y & Hy' & Hst)]]; [done|]. rewrite Hx in Hy'. injection Hy' as <-. congruence.
    + apply wp_ret. split_and!; [apply calm_refl| |done]. intros _. right. by exists x.
Qed.

Lemma wp_check_inputs n code g :
  live g → (∀ t, t ∈ inputs n → valid_tensor (context_ g) t) →
  wp (check_inputs n code)
    (λ st g', calm g g' ∧ (st = kTfLiteOk → ∀ a t, zget (inputs n) a = Some t → readable (context_ g') code a t))
    (λ _, False) g.
Proof.
  intros Hl Hv. unfold check_inputs.
  eapply wp_post; [|apply (wp_for_status
    (λ done g', calm g g' ∧ ∀ a t, a ∈ done → zget (inputs n) a = Some t → checked n code (context_ g') a t)
    (λ _ g', calm g g'))].
  - intros st g' Hpost. simpl in Hpost. case_decide as Hok; [|done]. destruct Hpost as [Hc Hr]. split; [done|]. intros _ a t Ha.
    eapply Hr; [|done]. apply elem_of_range. by eapply zget_range.
  - split; [apply calm_refl|]. by intros a t ?%elem_of_nil.
  - intros done a todo g' Hrange [Hc Hr].
    assert (0 ≤ a < zlen (inputs n)) as Ha by (apply elem_of_range; rewrite Hrange; set_solver).
    destruct (zget_is_Some _ _ Ha) as [t Ht]. apply wp_bind. eapply wp_deref; [done|].
    eapply wp_post; [|apply wp_check_input; [by eapply calm_live|eapply calm_valid; [done|by apply Hv; eapply zget_elem]]].
    intros st g'' (Hc' & Hok & Hk). pose proof (calm_trans _ _ _ Hc Hc') as Hc''. case_decide; [|done].
    split; [done|]. intros b u [Hb| ->%list_elem_of_singleton]%elem_of_app Hu; [by apply Hk, Hr|].
    rewrite Ht in Hu. injection Hu as <-. by apply Hok.
Qed.
(** *** Memory of dynamic tensors *)

Lemma wp_MayAllocateOpOutput outs g :
  live g → (∀ t, t ∈ outs → valid_tensor (context_ g) t) →
  wp (MayAllocateOpOutput outs)
    (λ _ g', calm g g' ∧ ∀ code a u, readable (context_ g) code a u → readable (context_ g') code a u) (λ _, False) g.
Proof.
  intros Hl Hv. unfold MayAllocateOpOutput. wp_steps. case_match; [|apply wp_ret; by split; [apply calm_refl|]].
  apply (wp_for_each (λ _ g', calm g g' ∧ ∀ code a u, readable (context_ g) code a u → readable (context_ g') code a u)).
  { by split; [apply calm_refl|]. }
  intros done t todo g' -> [Hc Hr]. destruct (Z.eqb_spec t kTfLiteOptionalTensor) as [?|Hne]; [by apply wp_ret|].
  assert (valid_tensor (context_ g') t) as [?|Ht] by (eapply calm_valid, Hv; [done|set_solver]); [done|].
  destruct (shape_tensor _ _ Ht) as [x Hx].
  apply wp_bind, wp_zoom. eapply wp_read_tensor; [done|]. assert (set_context (context_ g') g' = g') as -> by (by destruct g').
  destruct (_ && _) eqn:Hdyn; [|by apply wp_ret].
  apply andb_true_iff in Hdyn as [Hd%Z.eqb_eq Hdyn%bool_decide_eq_true].
  apply wp_bind, wp_zoom. pose proof (calm_live _ _ Hl Hc) as Hl'.
  eapply wp_post; [|by apply (wp_ResizeMaybeCopy (has_planner g') t x); [apply Hl'|]].
  intros st c' (Hs & Hu & Ht'). apply wp_ret. split; [eapply calm_trans; [done|by apply calm_set_context]|].
  intros code a u Hu'. simpl. specialize (Hr code a u Hu') as [->|(y & Hy & Hr)]; [by left|right].
  destruct (decide (u = t)) as [->|Hut]; [|exists y; by rewrite Hu].
  rewrite Hx in Hy. injection Hy as <-. destruct Ht' as [Ht'|[d Ht']]; [by exists x|].
  eexists. split; [exact Ht'|]. simpl. destruct Hr as [?|[?|[?|?]]]; [done|auto..].
Qed.

Lemma wp_free_tensor t x g :
  live g → zget (tensors_ (context_ g)) t = Some x →
  wp (on_context (TfLiteTensorDataFree t)) (λ _ g', calm g g') (λ _, False) g.
Proof.
  intros Hl Hx. apply wp_zoom. eapply wp_post; [|by apply (wp_TfLiteTensorDataFree (has_planner g) t x); [apply Hl|]].
  intros ? c'. by apply calm_set_context.
Qed.

Lemma wp_release_unused i t g : live g → wp (release_unused i t) (λ _ g', calm g g') (λ _, False) g.
Proof.
  intros Hl. unfold release_unused, tensor. wp_steps. destruct (zget _ t) as [x|] eqn:Hx; [|apply wp_ret, calm_refl].
  case_match; [by eapply wp_free_tensor|apply wp_ret, calm_refl].
Qed.

Lemma wp_get_node i nr Q E g :
  node_at g i = Some nr → arrays_freed nr.1 = false → Q nr g → wp (get_node i) Q E g.
Proof. intros Hi Hf HQ. unfold get_node. apply wp_bind. eapply wp_vget_Some; [exact Hi|]. rewrite Hf. by apply wp_ret. Qed.

Lemma live_not_freed g i nr : live g → node_at g i = Some nr → arrays_freed nr.1 = false.
Proof.
  intros Hl Hi. destruct (live_node g i nr Hl Hi) as (nr0 & Hi0 & [_ _ _ Hf] & _). rewrite Hf. by eapply Hwf.
Qed.

Lemma live_io g i nr t : live g → node_at g i = Some nr → t ∈ io nr.1 → valid_tensor (context_ g) t.
Proof.
  intros Hl Hi Ht. destruct (live_node g i nr Hl Hi) as (nr0 & Hi0 & Hs & _). rewrite (same_io _ _ Hs) in Ht.
  apply valid_live; [done|]. by eapply Hwf.
Qed.

Lemma wp_MaybeReleaseDynamicTensors i nr g :
  live g → node_at g i = Some nr → wp (MaybeReleaseDynamicTensors i) (λ _ g', calm g g') (λ _, False) g.
Proof.
  intros Hl Hi. unfold MaybeReleaseDynamicTensors. wp_steps. case_match; [|apply wp_ret, calm_refl].
  apply wp_bind. eapply wp_get_node; [done|by eapply live_not_freed|]. apply wp_bind.
  eapply wp_post; [|apply wp_for_each_calm; intros t g' _ Hc; apply wp_release_unused; by eapply calm_live].
  intros ? g1 H1c. eapply wp_post; [|apply wp_for_each_calm; intros t g' _ Hc; apply wp_release_unused;
    apply (calm_live g1); [by apply (calm_live g)|done]].
  intros ? g2. by apply calm_trans.
Qed.

(** ** Kernels *)

(** The subgraph after the kernel of node [i]. *)
Definition after_kernel g i n' (r : TfLiteRegistration W) c' : Subgraph W :=
  set_context c' (set_nodes (zset i (n', r) (nodes_and_registration_ g)) g).

Lemma wp_run_kernel i nr k (R : TfLiteStatus → TfLiteNode → TfLiteContext W → Prop) Q g :
  live g → node_at g i = Some nr →
  wp k (λ st '(n', c'), R st n' c') (λ _, False) (nr.1, context_ g) →
  (∀ st n' c', R st n' c' → Q st (after_kernel g i n' nr.2 c')) →
  wp (run_kernel i k) Q (λ _, False) g.
Proof.
  intros Hl Hi Hk HQ. unfold run_kernel. apply wp_bind. eapply wp_get_node; [done|by eapply live_not_freed|].
  wp_steps. unfold wp in Hk. destruct (k (nr.1, context_ g)) as [st [n' c']| |]; [|done..].
  apply wp_bind. eapply wp_vset_Some; [exact Hi|]. wp_steps. by apply HQ.
Qed.

Lemma live_kernel g i n n' r c' :
  live g → node_at g i = Some (n, r) → same_node n n' → local_to g0 (has_planner g) i n (context_ g) c' →
  (∀ t, t ∈ temporaries n' → 0 ≤ t < zlen (tensors_ c')) → live (after_kernel g i n' r c').
Proof.
  intros Hl Hi Hs [[L1 L2 L3 L4] L5 L6 L7] Ht. unfold node_at in Hi. pose proof (zget_range _ _ _ Hi) as Hr.
  split; simpl; try apply Hl.
  - destruct (live_node g i (n, r) Hl Hi) as (nr0 & Hi0 & Hs0 & Hr0). unfold zset, node_at, zget in *.
    rewrite (proj2 (Z.leb_le 0 i)) in Hi0 by lia.
    rewrite <- (list_insert_id _ _ _ Hi0). apply Forall2_insert; [apply Hl|]. simpl in *. split; [|done].
    destruct Hs, Hs0. split; congruence.
  - by apply L2, Hl.
  - intros t Hsh. by apply L4, Hl.
  - intros j nr t Hj Htm. unfold node_at in Hj. simpl in Hj. destruct (decide (j = i)) as [->|Hne].
    + rewrite zget_zset_eq in Hj by done. injection Hj as <-. by apply Ht.
    + rewrite zget_zset_ne in Hj by lia. pose proof (lv_temporaries _ Hl j nr t Hj Htm). lia.
  - intros t Hsome. pose proof (lv_custom _ Hl t Hsome). lia.
Qed.
Lemma before_at a b i j :
  zget (execution_plan_ g0) a = Some i → zget (execution_plan_ g0) b = Some j → a < b → before g0 i j.
Proof.
  unfold zget. repeat case_match; try done. intros Hi Hj Hab.
  apply list_elem_of_split_length in Hi as (pre & rest & Hp & Hlen).
  rewrite Hp, lookup_app_r in Hj by lia. destruct (Z.to_nat b - length pre)%nat as [|m] eqn:Hm; [lia|]. simpl in Hj.
  apply list_elem_of_split_length in Hj as (mid & post & -> & _). by exists pre, mid, post.
Qed.

Lemma plan_injective a b i :
  zget (execution_plan_ g0) a = Some i → zget (execution_plan_ g0) b = Some i → a = b.
Proof.
  intros Ha Hb. pose proof (zget_range _ _ _ Ha). pose proof (zget_range _ _ _ Hb). unfold zget in *.
  repeat case_match; try done. pose proof (NoDup_lookup _ _ _ _ (wf_nodup _ Hwf) Ha Hb). lia.
Qed.

Lemma shape_optional c : shape c kTfLiteOptionalTensor = None.
Proof. done. Qed.

(** The kernel of a node leaves the nodes before it prepared, and the others if it
    reshapes nothing. *)
Lemma prepared_after_kernel k m g i n n' r c' :
  live g → prepared_upto m g → zget (execution_plan_ g) k = Some i → node_at g i = Some (n, r) → same_node n n' →
  local_to g0 (has_planner g) i n (context_ g) c' →
  m ≤ k ∨ (∀ t, t ∈ outputs n → shape c' t = shape (context_ g) t) →
  ∀ a j nr, a < m → a ≠ k → zget (execution_plan_ g) a = Some j → node_at (after_kernel g i n' r c') j = Some nr →
  prepared_node j nr.1 c'.
Proof.
  intros Hl Hp Hk Hi Hs [_ Lp Ls _] Hor a j nr Ha Hak Hj Hnr. rewrite (lv_plan _ Hl) in *.
  assert (j ≠ i) as Hji by (intros ->; apply Hak; by eapply plan_injective).
  assert (node_at g j = Some nr) as Hj0.
  { unfold node_at in *. simpl in Hnr. pose proof (zget_range _ _ _ Hi). by rewrite zget_zset_ne in Hnr by lia. }
  pose proof (Hp a j nr Ha ltac:(by rewrite (lv_plan _ Hl)) Hj0) as Hprep. unfold prepared_node in *. rewrite Lp by done.
  replace (shapes c' (io nr.1)) with (shapes (context_ g) (io nr.1)); [done|].
  unfold shapes. apply list_fmap_ext. intros x t Ht. apply list_elem_of_lookup_2 in Ht. symmetry.
  destruct (live_node g j nr Hl Hj0) as (nrj & Hj1 & Hsj & _). rewrite (same_io _ _ Hsj) in Ht.
  destruct (live_node g i (n, r) Hl Hi) as (nri & Hi1 & [_ Hoi _ _] & _). simpl in Hoi.
  destruct (decide (t ∈ outputs n)) as [Ho|Ho].
  - destruct Hor as [Hmk|Hsame]; [|by apply Hsame]. rewrite Hoi in Ho.
    rewrite (wf_order _ Hwf j i nrj nri t); [by rewrite !shape_optional|eapply before_at; [done..|lia]|done..].
  - apply Ls; [|done]. exists j, nrj. split; [|done]. split; [by eapply zget_elem|done].
Qed.

(** ** Preparation *)

(** What the preparation leaves as it was. *)
Record ran g g' : Prop := {
  rn_live : live g';
  rn_computed j : computed K j (world (context_ g)) → computed K j (world (context_ g'));
  rn_execution : ∃ d, execution g' = with_dynamic d (execution g)
}.

Lemma with_dynamic_id e : with_dynamic (has_dynamic_tensors_ e) e = e.
Proof. by destruct e. Qed.

Lemma ran_refl g : live g → ran g g.
Proof. intros Hl. split; [done..|]. exists (has_dynamic_tensors_ (execution g)). by rewrite with_dynamic_id. Qed.

Lemma ran_trans g1 g2 g3 : ran g1 g2 → ran g2 g3 → ran g1 g3.
Proof.
  intros [L1 C1 [d1 E1]] [L2 C2 [d2 E2]]. split; [done|auto|]. exists d2. by rewrite E2, E1.
Qed.

Lemma live_dynamic d g : live g → live (set_execution (with_dynamic d (execution g)) g).
Proof. intros Hl. split; simpl; apply Hl. Qed.

Lemma wp_HasDynamicTensor l c Q E :
  (∀ t, t ∈ l → valid_tensor c t) →
  (∀ b, (b = true → ∃ t x, t ∈ l ∧ t ≠ kTfLiteOptionalTensor ∧ zget (tensors_ c) t = Some x ∧ allocation_type x = kTfLiteDynamic) →
        (b = false → ∀ t x, t ∈ l → t ≠ kTfLiteOptionalTensor → zget (tensors_ c) t = Some x → allocation_type x ≠ kTfLiteDynamic) →
        Q b c) →
  wp (HasDynamicTensor l) Q E c.
Proof.
  revert Q. induction l as [|t l IH]; intros Q Hv HQ; cbn [HasDynamicTensor].
  { apply wp_ret, HQ; [done|]. intros _ t x Ht. by apply elem_of_nil in Ht. }
  assert (∀ u, u ∈ l → valid_tensor c u) as Hv' by (intros u Hu; apply Hv; by right).
  destruct (Z.eqb_spec t kTfLiteOptionalTensor) as [->|Hne].
  { apply IH; [done|]. intros b Ht Hf. apply HQ.
    - intros Hb. destruct (Ht Hb) as (u & x & Hu & Hr). exists u, x. split; [by right|done].
    - intros Hb u x [->|Hu]%elem_of_cons Hne Hx; [done|]. by eapply Hf. }
  destruct (Hv t ltac:(by left)) as [?|Ht]; [done|]. destruct (shape_tensor _ _ Ht) as [x Hx].
  apply wp_bind. eapply wp_read_tensor; [done|]. case_bool_decide as Hd.
  - apply wp_ret, HQ; [|done]. intros _. exists t, x. split; [by left|done].
  - apply IH; [done|]. intros b Htr Hf. apply HQ.
    + intros Hb. destruct (Htr Hb) as (u & y & Hu & Hr). exists u, y. split; [by right|done].
    + intros Hb u y [->|Hu]%elem_of_cons Hne' Hy; [congruence|]. by eapply Hf.
Qed.
Lemma planned_g0 g a i :
  live g → zget (execution_plan_ g) a = Some i →
  ∃ nr nr0, node_at g i = Some nr ∧ planned g0 i nr0 ∧ same_node nr0.1 nr.1 ∧ nr.2 = nr0.2.
Proof.
  intros Hl Ha. rewrite (lv_plan _ Hl) in Ha. pose proof (zget_elem _ _ _ Ha) as Hin.
  destruct (wf_plan _ Hwf _ Hin) as [nr0 Hi0]. destruct (live_node_at g i nr0 Hl Hi0) as (nr & Hi & Hs & Hr).
  by exists nr, nr0.
Qed.

Lemma ran_kernel g i n n' r c' :
  live g → node_at g i = Some (n, r) → same_node n n' → local_to g0 (has_planner g) i n (context_ g) c' →
  (∀ t, t ∈ temporaries n' → 0 ≤ t < zlen (tensors_ c')) → ran g (after_kernel g i n' r c').
Proof.
  intros Hl Hi Hs Hlo Ht. split; [by eapply live_kernel| |].
  - intros j. simpl. apply Hlo.
  - exists (has_dynamic_tensors_ (execution g)). by rewrite with_dynamic_id.
Qed.

Lemma node_after_kernel g i n r n' c' :
  node_at g i = Some (n, r) → node_at (after_kernel g i n' r c') i = Some (n', r).
Proof. intros Hi. unfold node_at in *. simpl. apply zget_zset_eq. by eapply zget_range. Qed.

(** The first part of the loop body: one kernel is prepared. *)
Lemma wp_OpPrepare a i nr g :
  live g → prepared_upto a g → zget (execution_plan_ g) a = Some i → node_at g i = Some nr →
  wp (OpPrepare nr.2 i)
    (λ st g', ran g g' ∧ (st = kTfLiteOk ∨ st = kTfLiteOutputShapeNotKnown → prepared_upto (a + 1) g')) (λ _, False) g.
Proof.
  intros Hl Hp Ha Hi. destruct (planned_g0 g a i Hl Ha) as (nr' & nr0 & Hi' & Hpl & Hs & Hr).
  rewrite Hi in Hi'. injection Hi' as <-. pose proof (co_kernel _ Hco i nr0 Hpl) as Hk. rewrite <- Hr in Hk.
  unfold OpPrepare. destruct (prepare nr.2) as [k|] eqn:Hprep.
  - destruct nr as [n r]. simpl in *. eapply wp_run_kernel; [done|exact Hi| |].
    { eapply (ko_prepare _ _ _ _ Hk); [done|done|apply Hl|..]; intros t Ht; [eapply live_io; [done|exact Hi|done]|].
      exact (lv_temporaries _ Hl i _ t Hi Ht). }
    intros st n' c' (Hsn & Hlo & Htm & Hst). split; [by eapply ran_kernel|]. intros Hok b j nrj Hb Hj Hnj.
    cbn [snd] in Hnj.
    destruct (decide (b = a)) as [->|Hne].
    + simpl in Hj. rewrite Ha in Hj. injection Hj as <-. rewrite (node_after_kernel g i n r n' c' Hi) in Hnj.
      injection Hnj as <-. by apply Hst.
    + eapply (prepared_after_kernel a a g i n n' r c'); try done; [by left|lia].
  - apply wp_ret. split; [by apply ran_refl|]. intros Hok b j nrj Hb Hj Hnj.
    destruct (decide (b = a)) as [->|Hne]; [|by apply (Hp b j); [lia|..]].
    rewrite Ha in Hj. injection Hj as <-. rewrite Hi in Hnj. injection Hnj as <-.
    eapply (ko_no_prepare _ _ _ _ Hk); [done| |done]. destruct (IsUnresolvedCustomOp nr.2); [|done]. by destruct Hok.
Qed.

Lemma prepared_dynamic k d g : prepared_upto k g → prepared_upto k (set_execution (with_dynamic d (execution g)) g).
Proof. done. Qed.

Lemma ran_dynamic d g : live g → ran g (set_execution (with_dynamic d (execution g)) g).
Proof. intros Hl. split; [by apply live_dynamic|done|by exists d]. Qed.

Lemma wp_prepare_ops a last g :
  live g → 0 ≤ a → prepared_upto a g →
  wp (prepare_ops (range a (zlen (execution_plan_ g0))) (execution_plan_ g0) last)
    (λ '(st, l) g', ran g g' ∧ (st = kTfLiteOk →
       (a < zlen (execution_plan_ g0) → a ≤ l < zlen (execution_plan_ g0) ∧ prepared_upto (l + 1) g') ∧
       (zlen (execution_plan_ g0) ≤ a → l = last ∧ prepared_upto a g'))) (λ _, False) g.
Proof.
  remember (range a (zlen (execution_plan_ g0))) as positions eqn:Hrange. intros Hl H0a Hp.
  revert a last g Hrange Hl H0a Hp. induction positions as [|b positions IH]; intros a last g Hrange Hl H0a Hp; cbn [prepare_ops].
  { apply wp_ret. split; [by apply ran_refl|]. intros _.
    assert (zlen (execution_plan_ g0) ≤ a) as Hle.
    { apply Z.nlt_ge. intros Hlt. assert (a ∈ range a (zlen (execution_plan_ g0))) as Hin by (apply elem_of_range; lia).
      rewrite <- Hrange in Hin. by apply elem_of_nil in Hin. }
    split; [lia|done]. }
  assert (a < zlen (execution_plan_ g0)) as Hlt.
  { assert (b ∈ range a (zlen (execution_plan_ g0))) as Hin by (rewrite <- Hrange; by left). apply elem_of_range in Hin. lia. }
  rewrite range_cons in Hrange by done. injection Hrange as -> Hrange.
  destruct (zget_is_Some (execution_plan_ g0) a ltac:(lia)) as [i Hi].
  apply wp_bind. eapply wp_deref; [done|].
  assert (zget (execution_plan_ g) a = Some i) as Hi' by (by rewrite (lv_plan _ Hl)).
  destruct (planned_g0 g a i Hl Hi') as (nr & nr0 & Hn & _ & _).
  apply wp_bind. eapply wp_get_node; [done|by eapply live_not_freed|].
  apply wp_bind. eapply wp_post; [|by apply wp_OpPrepare]. intros st g1 [Hran Hst]. simpl.
  destruct (_ && negb _) eqn:Hbad.
  { apply wp_ret. split; [done|]. intros ->. simpl in Hbad. done. }
  assert (st = kTfLiteOk ∨ st = kTfLiteOutputShapeNotKnown) as Hst'.
  { rewrite andb_false_iff, !negb_false_iff, !bool_decide_eq_true in Hbad. done. }
  specialize (Hst Hst'). pose proof (rn_live _ _ Hran) as Hl1.
  assert (zget (execution_plan_ g1) a = Some i) as Hi1 by (by rewrite (lv_plan _ Hl1)).
  destruct (planned_g0 g1 a i Hl1 Hi1) as (nr1 & _ & Hn1 & _).
  apply wp_bind. eapply wp_get_node; [done|by eapply live_not_freed|].
  apply wp_bind, wp_zoom. apply wp_HasDynamicTensor.
  { intros t Ht. eapply live_io; [done..|]. apply elem_of_app. by right. }
  intros dyn _ _. assert (set_context (context_ g1) g1 = g1) as -> by (by destruct g1).
  destruct (_ || _).
  - apply wp_bind, wp_modify, wp_ret. split; [eapply ran_trans; [done|by apply ran_dynamic]|]. intros _.
    split; [|lia]. intros _. split; [lia|done].
  - eapply wp_post; [|apply (IH (a + 1)); [done|done|lia|done]]. intros [st' l] g2 [Hran2 Hok].
    split; [by eapply ran_trans|]. intros Hst2. specialize (Hok Hst2) as [Hok1 Hok2]. split; [|lia]. intros _.
    destruct (Z.lt_ge_cases (a + 1) (zlen (execution_plan_ g0))) as [Hlt'|Hge].
    + destruct (Hok1 Hlt') as [Hl' Hp']. split; [lia|done].
    + destruct (Hok2 Hge) as [-> Hp']. split; [lia|done].
Qed.
Lemma wp_PrepareOpsStartingAt a last g :
  live g → 0 ≤ a → prepared_upto a g →
  wp (PrepareOpsStartingAt a (execution_plan_ g0) last)
    (λ '(st, l) g', ran g g' ∧ (st = kTfLiteOk →
       (a < zlen (execution_plan_ g0) → a ≤ l < zlen (execution_plan_ g0) ∧ prepared_upto (l + 1) g') ∧
       (zlen (execution_plan_ g0) ≤ a → l = last ∧ prepared_upto a g'))) (λ _, False) g.
Proof.
  intros Hl Ha Hp. unfold PrepareOpsStartingAt. apply wp_bind.
  eapply wp_post with (Q := λ _ g', ran g g' ∧ prepared_upto a g').
  - intros _ g1 [Hran Hp1]. eapply wp_post; [|by apply wp_prepare_ops; [apply Hran|..]].
    intros [st l] g2 [Hran2 Hok]. split; [by eapply ran_trans|done].
  - case_match; [|apply wp_ret; split; [by apply ran_refl|done]]. wp_steps. apply wp_zoom, wp_HasDynamicTensor.
    { intros t Ht. apply valid_live; [done|]. apply Hwf. rewrite (lv_config _ Hl) in Ht. set_solver. }
    intros d _ _. assert (set_context (context_ g) g = g) as -> by (by destruct g).
    apply wp_modify. split; [by apply ran_dynamic|done].
Qed.

(** *** What happens to a running subgraph besides *)

Record goes g g' : Prop := {
  go_live : live g';
  go_computed j : computed K j (world (context_ g)) → computed K j (world (context_ g'));
  go_state : state_ (execution g') = state_ (execution g)
}.

Lemma goes_refl g : live g → goes g g.
Proof. by intros Hl. Qed.

Lemma goes_trans g1 g2 g3 : goes g1 g2 → goes g2 g3 → goes g1 g3.
Proof. intros [L1 C1 S1] [L2 C2 S2]. split; [done|auto|congruence]. Qed.

Lemma ran_goes g g' : ran g g' → goes g g'.
Proof. intros [Hl Hc [d He]]. split; [done..|]. by rewrite He. Qed.

Lemma calm_goes g g' : live g → calm g g' → goes g g'.
Proof.
  intros Hl Hc. split; [by eapply calm_live|intros j; by eapply calm_computed|]. by destruct (calm_execution _ _ Hc) as [-> _].
Qed.

Lemma goes_next f g :
  live g → (0 ≤ next_execution_plan_index_to_plan_allocation_ (f (execution g)) ∧ 0 ≤ next_execution_plan_index_to_prepare_ (f (execution g))) →
  has_memory_planner (f (execution g)) = has_memory_planner (execution g) →
  custom_allocations_ (f (execution g)) = custom_allocations_ (execution g) →
  state_ (f (execution g)) = state_ (execution g) → goes g (set_execution (f (execution g)) g).
Proof.
  intros Hl Hn Hp Hc Hs. split; [|done|done]. split; simpl; try apply Hl; [|by rewrite Hc; apply Hl|done].
  unfold has_planner. simpl. rewrite Hp. apply Hl.
Qed.

(** The planner places the tensors of the nodes at positions of the plan. *)
Lemma wp_execute view first last g :
  live g → has_planner g = true → view_of g0 view (context_ g) → 0 ≤ first → 0 ≤ last < Z.max 1 (zlen (execution_plan_ g0)) →
  wp (on_context (planner_ExecuteAllocations view first last))
    (λ st g', calm g g' ∧ (st = kTfLiteOk → has_memory (world (context_ g')) = true)) (λ _, False) g.
Proof.
  intros Hl Hp Hv Hf Hla. apply (wp_calm _ (λ st c', st = kTfLiteOk → has_memory (world c') = true)). rewrite Hp.
  eapply en_execute; [apply Hco| |done..]. rewrite <- Hp. apply Hl.
Qed.

(** A silent call of the planner, which there is. *)
Lemma wp_planner {A} (m : M (TfLiteContext W) A) g :
  live g → has_planner g = true → silent_call true true m → wp (on_context m) (λ _ g', calm g g') (λ _, False) g.
Proof.
  intros Hl Hp Hm. apply wp_zoom. eapply wp_post; [|apply Hm; rewrite <- Hp; apply Hl].
  intros a c' Hs. apply calm_set_context. by rewrite Hp.
Qed.

Lemma get_node_done i nr g : node_at g i = Some nr → arrays_freed nr.1 = false → get_node i g = Done nr g.
Proof.
  intros Hi Hf. unfold get_node, vget, mbind, M_bind, gets. unfold node_at in Hi. rewrite Hi. simpl. by rewrite Hf.
Qed.

Lemma view_nodes_done l g :
  live g → (∀ i, i ∈ l → is_Some (node_at g0 i)) →
  ∃ ns, Forall2 (λ i x, ∃ nr, node_at g0 i = Some nr ∧ same_node nr.1 x.1 ∧ x.2 = nr.2) l ns ∧
    (∀ x, x ∈ ns → ∃ i, node_at g i = Some x) ∧
    ∀ g', nodes_and_registration_ g' = nodes_and_registration_ g → view_nodes l g' = Done ns g'.
Proof.
  intros Hl Hi. induction l as [|i l IH].
  { exists []. split_and!; [constructor|by intros x ?%elem_of_nil|done]. }
  destruct (Hi i ltac:(by left)) as [nr0 Hn0]. destruct (live_node_at g i nr0 Hl Hn0) as (nr & Hn & Hs & Hr).
  destruct IH as (ns & Hns & Hin & Hrun); [intros j Hj; apply Hi; by right|]. exists (nr :: ns). split_and!.
  - constructor; [by exists nr0|done].
  - intros x [->|Hx]%elem_of_cons; [by exists i|by apply Hin].
  - intros g' Hg'. cbn [view_nodes]. unfold mbind, M_bind. rewrite (get_node_done i nr g').
    + by rewrite Hrun.
    + unfold node_at. rewrite Hg'. exact Hn.
    + by eapply live_not_freed.
Qed.

(** What the planner is shown, also while only nodes, plan and configuration are those
    of a live subgraph. *)
Lemma CreateGraphInfo_done g :
  live g → ∃ view, view_of g0 view (context_ g) ∧
    ∀ g', nodes_and_registration_ g' = nodes_and_registration_ g → execution_plan_ g' = execution_plan_ g →
      config g' = config g → CreateGraphInfo g' = Done view g'.
Proof.
  intros Hl. destruct (view_nodes_done (execution_plan_ g0) g Hl) as (ns & Hns & Hin & Hrun).
  { intros i Hi. by apply Hwf. }
  eexists. split; [|intros g' Hn Hp Hc; unfold CreateGraphInfo, ShouldPreserveAllTensors;
    unfold mbind, M_bind, get; rewrite Hp, (lv_plan _ Hl), Hc, Hrun by done; reflexivity].
  split; simpl; rewrite ?(lv_config _ Hl); try done.
  - intros x t Hx Ht. destruct (Hin x Hx) as [i Hi]. exact (lv_temporaries _ Hl i x t Hi Ht).
  - intros t. apply Hl.
Qed.

Lemma wp_CreateGraphInfo g :
  live g → wp CreateGraphInfo (λ view g', g' = g ∧ view_of g0 view (context_ g)) (λ _, False) g.
Proof. intros Hl. destruct (CreateGraphInfo_done g Hl) as (view & Hv & Hrun). unfold wp. by rewrite Hrun. Qed.

Lemma zoom_get g t x Q E :
  zget (tensors_ (context_ g)) t = Some x → Q x g → wp (on_context (get_tensor t)) Q E g.
Proof.
  intros Hx HQ. apply wp_zoom. eapply wp_read_tensor; [done|]. by assert (set_context (context_ g) g = g) as -> by (by destruct g).
Qed.

Lemma wp_verify t g :
  0 ≤ t < zlen (tensors_ (context_ g)) → wp (VerifyCustomAllocationForTensor t) (λ _ g', g' = g) (λ _, False) g.
Proof.
  intros Ht. destruct (zget_is_Some _ _ Ht) as [x Hx]. unfold VerifyCustomAllocationForTensor.
  apply wp_bind. eapply zoom_get; [done|]. case_match; [|by apply wp_ret]. wp_steps. by case_match.
Qed.

Lemma valid_range c t : valid_tensor c t → t ≠ kTfLiteOptionalTensor → 0 ≤ t < zlen (tensors_ c).
Proof. intros [?|Ht] Hne; [done|]. destruct (shape_tensor _ _ Ht) as [x Hx]. by eapply zget_range. Qed.

Lemma wp_verify_tensors l g :
  (∀ t, t ∈ l → valid_tensor (context_ g) t) → wp (verify_tensors l) (λ _ g', g' = g) (λ _, False) g.
Proof.
  intros Hv. unfold verify_tensors. eapply wp_post; [|apply (wp_for_status (λ _ g', g' = g) (λ _ g', g' = g)); [done|]].
  { intros st g'. simpl. by case_decide. }
  intros done t todo g' -> ->. destruct (Z.eqb_spec t kTfLiteOptionalTensor); [by apply wp_ret|].
  eapply wp_post; [|apply wp_verify, valid_range; [apply Hv; set_solver|done]]. intros st g' ->. by case_decide.
Qed.

Lemma plan_fits : zlen (execution_plan_ g0) ≤ zlen (nodes_and_registration_ g0).
Proof.
  assert (execution_plan_ g0 ⊆+ range 0 (zlen (nodes_and_registration_ g0))) as Hsub.
  { apply NoDup_submseteq; [apply Hwf|]. intros i Hi. apply elem_of_range.
    destruct (wf_plan _ Hwf i Hi) as [nr Hn]. by eapply zget_range. }
  apply submseteq_length in Hsub. rewrite range_length in Hsub. lia.
Qed.
Definition len : Z := zlen (execution_plan_ g0).
Definition next_prepare g : Z := next_execution_plan_index_to_prepare_ (execution g).
Definition next_allocation g : Z := next_execution_plan_index_to_plan_allocation_ (execution g).

(** The memory has not been released. *)
Definition retained g : Prop := has_planner g = true → has_memory (world (context_ g)) = true.

Lemma calm_retained g g' : calm g g' → retained g → retained g'.
Proof.
  intros Hc Hr. destruct (calm_execution _ _ Hc) as (He & _). destruct Hc as [_ [_ _ _ Hm]]. unfold retained, has_planner in *.
  rewrite He. intros Hp. by apply Hm; [|apply Hr].
Qed.

Lemma retained_not_released g : retained g → nonpersistent_memory_released g = false.
Proof.
  unfold retained, nonpersistent_memory_released, has_planner, has_memory. intros Hr.
  destruct (has_memory_planner _); [by rewrite Hr|done].
Qed.

(** The planner is there afterwards and has planned the graph. *)
Lemma wp_ensure_planner g k :
  live g → prepared_upto k g →
  wp (g ← get;
      if has_memory_planner (execution g) then mret tt
      else
        on_context new_planner;;
        update_execution (with_planner true);;
        view ← CreateGraphInfo;
        on_context (planner_PlanAllocations view);;
        mret tt)
    (λ _ g', goes g g' ∧ prepared_upto k g' ∧ has_planner g' = true ∧ next_prepare g' = next_prepare g ∧
       next_allocation g' = next_allocation g) (λ _, False) g.
Proof.
  intros Hl Hp. wp_steps. case_match eqn:Hpl.
  { apply wp_ret. split_and!; [by apply goes_refl|done..]. }
  assert (has_planner g = false) as Hpl' by exact Hpl.
  destruct (CreateGraphInfo_done g Hl) as (view & Hv & Hrun).
  pose proof (lv_inv _ Hl) as HI. rewrite Hpl' in HI.
  pose proof (en_plan _ (en_planner _ (co_environment _ Hco)) view (context_ g) HI Hv) as Hlaw. apply wp_bind_inv in Hlaw.
  apply wp_bind, wp_zoom. eapply wp_post; [|exact Hlaw]. intros ? c1 Hplan. simpl in Hplan.
  apply wp_bind, wp_modify, wp_bind. unfold wp at 1. rewrite Hrun by done.
  apply wp_bind, wp_zoom. eapply wp_post; [|exact Hplan]. intros st c2 Hs. apply wp_ret.
  set (g2 := set_context c2 _).
  assert (live g2) as Hl2.
  { destruct Hs as [[S1 S2 S3 S4] S5 S6 S7]. split; try apply Hl; simpl.
    - by apply S2.
    - intros t Ht. by apply S4, Hl.
    - intros i nr t Hi Ht. pose proof (lv_temporaries _ Hl i nr t Hi Ht). lia.
    - intros t Ht. pose proof (lv_custom _ Hl t Ht). lia. }
  split_and!; [split; [done|apply Hs|done]|exact (prepared_silent k g _ _ c2 Hp Hs)|done..].
Qed.

(** The last operation prepared from the cursor on. *)
Lemma prepared_last g g1 last :
  live g → live g1 → (next_prepare g < zlen (execution_plan_ g0) → next_prepare g ≤ last < zlen (execution_plan_ g0) ∧ prepared_upto (last + 1) g1) →
  (zlen (execution_plan_ g0) ≤ next_prepare g → last = 0 ∧ prepared_upto (next_prepare g) g1) →
  0 ≤ last < Z.max 1 len ∧ prepared_upto (last + 1) g1 ∧ (next_prepare g < len → next_prepare g ≤ last < len).
Proof.
  intros Hl Hl1 Hok1 Hok2. unfold len.
  destruct (Z.lt_ge_cases (next_prepare g) (zlen (execution_plan_ g0))) as [Hlt|Hge].
  - destruct (Hok1 Hlt) as [? ?]. pose proof (proj2 (lv_next _ Hl)) as H0n. unfold next_prepare in *. split_and!; [lia|lia|done|lia..].
  - destruct (Hok2 Hge) as [-> Hpa]. split_and!; [lia|lia| |lia]. intros b i nr Hb Hi Hnr. apply (Hpa b i); [|done..].
    pose proof (zget_range _ _ _ Hi) as Hr. rewrite (lv_plan _ Hl1) in Hr. unfold next_prepare in *. lia.
Qed.

(** The verification of the custom allocations changes nothing. *)
Lemma wp_verify_custom g g' last : live g → live g' → 0 ≤ last < Z.max 1 len →
  wp (if bool_decide (custom_allocations_ (execution g) = ∅) then mret kTfLiteOk
      else
        (if bool_decide (nodes_and_registration_ g = []) then mret kTfLiteOk
         else
           for_status (range (next_execution_plan_index_to_plan_allocation_ (execution g)) (last + 1)) (λ node_idx,
             nr ← get_node node_idx;
             verify_tensors (outputs nr.1))) ;!
        if next_execution_plan_index_to_plan_allocation_ (execution g) =? 0 then verify_tensors (inputs_ (config g))
        else mret kTfLiteOk)
    (λ _ g'', g'' = g') (λ _, False) g'.
Proof.
  intros Hl Hl' Hlast. case_match; [by apply wp_ret|]. apply wp_ensure_status.
  eapply wp_post with (Q := λ _ g'', g'' = g').
  { intros st g5 ->. case_decide; [|done]. case_match; [|by apply wp_ret]. apply wp_verify_tensors.
    intros t Ht. apply valid_live; [done|]. apply Hwf. rewrite (lv_config _ Hl) in Ht. set_solver. }
  destruct (bool_decide (nodes_and_registration_ g = [])) eqn:Hempty; [by apply wp_ret|].
  apply bool_decide_eq_false in Hempty.
  eapply wp_post; [|apply (wp_for_status (λ _ g'', g'' = g') (λ _ g'', g'' = g')); [done|]].
  { intros st g5. simpl. by case_decide. }
  intros done b todo g5 Hb ->. assert (0 ≤ b < zlen (nodes_and_registration_ g')) as Hbr.
  { assert (b ∈ range (next_allocation g) (last + 1)) as Hin by (unfold next_allocation; rewrite Hb; set_solver).
    apply elem_of_range in Hin. pose proof (proj1 (lv_next _ Hl)). unfold next_allocation in Hin. pose proof plan_fits.
    rewrite <- (Forall2_length _ _ _ (lv_nodes _ Hl')). destruct (nodes_and_registration_ g) eqn:Hnn; [done|].
    pose proof (Forall2_length _ _ _ (lv_nodes _ Hl)) as Hlen. rewrite Hnn in Hlen. simpl in Hlen. unfold len in Hlast. lia. }
  destruct (zget_is_Some _ _ Hbr) as [nr Hnr]. apply wp_bind.
  eapply wp_get_node; [exact Hnr|by eapply live_not_freed|].
  eapply wp_post; [|apply wp_verify_tensors]. { intros st g5 ->. by case_decide. }
  intros t Ht. eapply live_io; [done|exact Hnr|]. apply elem_of_app. by right.
Qed.

Lemma wp_PrepareOpsAndTensors g :
  live g → prepared_upto (next_prepare g) g →
  wp PrepareOpsAndTensors
    (λ st g', goes g g' ∧ (st = kTfLiteOk →
       retained g' ∧ prepared_upto (next_prepare g') g' ∧ (next_prepare g < len → next_prepare g < next_prepare g' ≤ len))) (λ _, False) g.
Proof.
  intros Hl Hp. unfold PrepareOpsAndTensors. wp_steps.
  assert (prepare_original_plan g = false) as ->.
  { unfold prepare_original_plan. rewrite (lv_delegation _ Hl). apply Hco. }
  apply wp_ensure_status, wp_ret. rewrite decide_True by done. wp_steps. rewrite (lv_plan _ Hl).
  eapply wp_post; [|apply wp_PrepareOpsStartingAt; [done|exact (proj2 (lv_next _ Hl))|done]].
  intros [st last] g1 [Hran Hok]. apply wp_ensure_status, wp_ret.
  destruct (decide (st = kTfLiteOk)) as [->|Hne].
  2: { split; [by apply ran_goes|done]. }
  specialize (Hok eq_refl) as [Hok1 Hok2]. pose proof (rn_live _ _ Hran) as Hl1. pose proof (ran_goes _ _ Hran) as Hg1.
  destruct (prepared_last _ _ _ Hl Hl1 Hok1 Hok2) as (Hlast & Hp1 & Hprog).
  apply wp_bind. apply wp_modify.
  assert (goes g1 (set_execution (with_next_prepare (last + 1) (execution g1)) g1)) as Hg2.
  { apply (goes_next (with_next_prepare (last + 1))); [done| |done..]. simpl. pose proof (lv_next _ Hl1). lia. }
  set (g2 := set_execution _ _) in *.
  apply wp_bind. eapply wp_post; [|apply (wp_ensure_planner g2 (last + 1)); [apply Hg2|exact Hp1]].
  intros [] g3 (Hg3 & Hp3 & Hpl3 & Hn3 & Ha3). pose proof (go_live _ _ Hg3) as Hl3. wp_steps.
  eapply wp_post; [|by apply wp_CreateGraphInfo]. intros view g4 [-> Hview].
  pose proof (goes_trans _ _ _ Hg1 (goes_trans _ _ _ Hg2 Hg3)) as Hg.
  apply wp_ensure_status. eapply wp_post; [|apply wp_execute; [done..|exact (proj1 (lv_next _ Hl3))|exact Hlast]].
  intros st g4 [Hc4 Hmem4]. pose proof (goes_trans _ _ _ Hg (calm_goes _ _ Hl3 Hc4)) as Hg4. pose proof (go_live _ _ Hg4) as Hl4.
  destruct (calm_execution _ _ Hc4) as (He4 & _ & _ & Hn4 & _).
  destruct (decide (st = kTfLiteOk)) as [->|]; [|by split].
  apply wp_ensure_status. eapply wp_post; [|by apply wp_verify_custom].
  intros st g5 ->. destruct (decide (st = kTfLiteOk)) as [->|]; [|by split].
  apply wp_bind, wp_modify, wp_ret.
  assert (goes g4 (set_execution (with_next_allocation (last + 1) (execution g4)) g4)) as Hg5.
  { apply (goes_next (with_next_allocation (last + 1))); [done| |done..]. simpl. pose proof (lv_next _ Hl4). lia. }
  split; [by eapply goes_trans|]. intros _. split; [intros _; by apply Hmem4|].
  assert (next_prepare (set_execution (with_next_allocation (last + 1) (execution g4)) g4) = last + 1) as ->.
  { unfold next_prepare. simpl. rewrite He4. exact Hn3. }
  split; [exact (calm_prepared _ _ _ Hp3 Hc4)|]. lia.
Qed.
(** ** Invocation *)

(** The state between two operations: [k] of them have run. *)
Record at_op (k : Z) g : Prop := {
  at_live : live g;
  at_next : k ≤ next_prepare g;
  at_prepared : prepared_upto (next_prepare g) g;
  at_memory : retained g;
  at_computed a i : a < k → zget (execution_plan_ g0) a = Some i → computed K i (world (context_ g))
}.

Lemma at_calm k g g' : at_op k g → calm g g' → at_op k g'.
Proof.
  intros [Hl Hn Hp Hm Hc] Hcalm. destruct (calm_execution _ _ Hcalm) as (He & _).
  assert (next_prepare g' = next_prepare g) as Hnp by (unfold next_prepare; by rewrite He).
  split; [by eapply calm_live|by rewrite Hnp|rewrite Hnp; by eapply calm_prepared|by eapply calm_retained|].
  intros a i Ha Hi. eapply calm_computed; [done|]. by eapply Hc.
Qed.

Lemma prepared_mono k m g : prepared_upto m g → k ≤ m → prepared_upto k g.
Proof. intros Hp Hk a i nr Ha. apply Hp. lia. Qed.

(** After the kernel at position [k]. *)
Lemma wp_reprepare_downstream k i n n' r c' g :
  at_op k g → 0 ≤ k < next_prepare g → zget (execution_plan_ g0) k = Some i → node_at g i = Some (n, r) → same_node n n' →
  local_to g0 (has_planner g) i n (context_ g) c' → (∀ t, t ∈ temporaries n' → 0 ≤ t < zlen (tensors_ c')) →
  prepared_node i n' c' → computed K i (world c') → reshaped_dynamic n (context_ g) c' →
  wp (reprepare_downstream k (outputs n'))
    (λ st g', live g' ∧ state_ (execution g') = state_ (execution g) ∧ (st = kTfLiteOk → at_op (k + 1) g'))
    (λ _, False) (after_kernel g i n' r c').
Proof.
  intros [Hl Hn Hp Hret Hc] Hk Hi Hnode Hs Hlo Htm Hprep Hcomp Hdyn.
  pose proof (ran_kernel _ _ _ _ _ _ Hl Hnode Hs Hlo Htm) as [Hl' Hcm _]. set (g' := after_kernel g i n' r c') in *.
  assert (retained g') as Hm' by (intros Hpl; exact (lo_memory _ _ _ _ _ _ Hlo Hpl (Hret Hpl))).
  assert (∀ a j, a < k + 1 → zget (execution_plan_ g0) a = Some j → computed K j (world (context_ g'))) as Hcomputed.
  { intros a j Ha Hj. destruct (decide (a = k)) as [->|Hne]; [by rewrite Hi in Hj; injection Hj as <-|].
    apply Hcm. eapply Hc; [|done]. lia. }
  assert (∀ m, k < m ≤ next_prepare g → (m ≤ k + 1 ∨ ∀ t, t ∈ outputs n → shape c' t = shape (context_ g) t) → prepared_upto m g') as Hpre.
  { intros m Hm Hor a j nr Ha Hj Hnr. rewrite (lv_plan _ Hl') in Hj. destruct (decide (a = k)) as [->|Hne].
    - rewrite Hi in Hj. injection Hj as <-. unfold g' in Hnr. rewrite (node_after_kernel g i n r n' c' Hnode) in Hnr.
      by injection Hnr as <-.
    - destruct Hor as [Hle|Hsame].
      + eapply (prepared_after_kernel k k g i n n' r c'); try done; [by apply (prepared_mono _ (next_prepare g)); [|lia]|by rewrite (lv_plan _ Hl)|by left|lia|by rewrite (lv_plan _ Hl)].
      + eapply (prepared_after_kernel k m g i n n' r c'); try done; [by apply (prepared_mono _ (next_prepare g)); [|lia]|by rewrite (lv_plan _ Hl)|by right|by rewrite (lv_plan _ Hl)]. }
  assert (∀ t, t ∈ outputs n' → valid_tensor (context_ g') t) as Hv.
  { intros t Ht. eapply (live_io g' i (n', r)); [done|by apply node_after_kernel with (n := n)|].
    apply elem_of_app. by right. }
  unfold reprepare_downstream. wp_steps.
  eapply wp_post with (Q := λ b g1, g1 = g' ∧ (b = false → ∀ t, t ∈ outputs n → shape c' t = shape (context_ g) t)).
  2: { destruct (tensor_resized_since_op_invoke_ c') eqn:Hres.
    - apply wp_zoom, wp_HasDynamicTensor; [done|]. intros b _ Hno. split; [done|]. intros Hb t Ht.
      destruct (decide (shape c' t = shape (context_ g) t)) as [|Hdiff]; [done|exfalso].
      destruct Hdyn as (_ & u & x & Hu & Hune & Hx & Hal); [by exists t|].
      destruct Hs as [_ Ho _ _]. rewrite <- Ho in Hu. by eapply (Hno Hb u x).
    - apply wp_ret. split; [done|]. intros _ t Ht.
      destruct (decide (shape c' t = shape (context_ g) t)) as [|Hdiff]; [done|exfalso].
      destruct Hdyn as [Hres' _]; [by exists t|]. congruence. }
  intros b g1 [-> Hb]. destruct b.
  - apply wp_bind, wp_modify. set (g1 := set_execution _ _).
    assert (goes g' g1) as Hg1.
    { apply (goes_next (with_next_prepare (k + 1))); [done| |done..]. simpl. pose proof (lv_next _ Hl). lia. }
    assert (at_op (k + 1) g1) as Hat.
    { assert (next_prepare g1 = k + 1) as Hn1 by done. split; [apply Hg1|lia| |exact Hm'|done]. rewrite Hn1. apply Hpre; [lia|]. by left. }
    wp_steps. destruct (_ <? _); [|apply wp_ret; split_and!; [apply Hg1|done|done]].
    apply wp_bind, wp_modify. set (g2 := set_execution _ g1).
    assert (goes g1 g2) as Hg2.
    { apply (goes_next (with_next_allocation (k + 1))); [apply Hg1| |done..]. simpl. lia. }
    assert (at_op (k + 1) g2) as Hat2 by (destruct Hat as [A1 A2 A3 A4 A5]; split; [apply Hg2|done..]).
    unfold if_planner. wp_steps. case_match eqn:Hpl; [|apply wp_ret; split_and!; [apply Hg2|done|done]].
    eapply wp_post; [|apply wp_planner; [apply Hg2|done|apply (en_reset_after _ (en_planner _ (co_environment _ Hco))); lia]].
    intros st g3 Hc3. simpl in Hc3. pose proof (calm_goes _ _ (go_live _ _ Hg2) Hc3) as Hg3. split_and!; [apply Hg3| |].
    + by rewrite (go_state _ _ Hg3).
    + intros _. by eapply at_calm.
  - apply wp_ret. split_and!; [done|done|]. intros _.
    assert (next_prepare g' = next_prepare g) as Hn' by done. split; [done|lia| |done|done]. rewrite Hn'. apply Hpre; [lia|].
    right. by apply Hb.
Qed.
(** What an operation does to the subgraph. *)
Definition op_post k g : TfLiteStatus → Subgraph W → Prop := λ st g',
  live g' ∧ state_ (execution g') = state_ (execution g) ∧ (st = kTfLiteOk → at_op (k + 1) g').

(** The kernel is called with what the contract asks for. *)
Lemma wp_OpInvoke k i nr g :
  at_op k g → k < next_prepare g → zget (execution_plan_ g0) k = Some i → node_at g i = Some nr →
  (∀ a t, zget (inputs nr.1) a = Some t → readable (context_ g) (builtin_code nr.2) a t) →
  tensor_resized_since_op_invoke_ (context_ g) = false →
  wp (OpInvoke nr.2 i)
    (λ st g', live g' ∧ state_ (execution g') = state_ (execution g) ∧ (st = kTfLiteOk →
       ∃ n' c', g' = after_kernel g i n' nr.2 c' ∧ same_node nr.1 n' ∧
         local_to g0 (has_planner g) i nr.1 (context_ g) c' ∧ (∀ t, t ∈ temporaries n' → 0 ≤ t < zlen (tensors_ c')) ∧
         prepared_node i n' c' ∧ computed K i (world c') ∧ reshaped_dynamic nr.1 (context_ g) c')) (λ _, False) g.
Proof.
  intros [Hl Hn Hp Hm Hc] Hk Hi Hnode Hrd Hflag.
  assert (zget (execution_plan_ g) k = Some i) as Hi' by (by rewrite (lv_plan _ Hl)).
  destruct (planned_g0 g k i Hl Hi') as (nr' & nr0 & Hnode' & Hpl & Hs & Hr). rewrite Hnode in Hnode'. injection Hnode' as <-.
  pose proof (co_kernel _ Hco i nr0 Hpl) as Hkernel. rewrite <- Hr in Hkernel.
  unfold OpInvoke. destruct (invoke nr.2) as [ker|] eqn:Hker; [|apply wp_ret; by split_and!].
  destruct nr as [n r]. cbn [fst snd] in *. eapply wp_run_kernel; [done|exact Hnode| |].
  { cbn [fst]. eapply (ko_invoke _ _ _ _ Hkernel); [exact Hker|done|apply Hl| | |by apply (Hp k i (n, r))|done| |done].
    - intros t Ht. eapply live_io; [done|exact Hnode|done].
    - intros t Ht. exact (lv_temporaries _ Hl i _ t Hnode Ht).
    - intros j nj t (pre & mid & post & Hplan) Hj Ho Hin.
      assert (zget (execution_plan_ g0) (zlen pre) = Some j) as Hpre.
      { rewrite Hplan. unfold zget. rewrite (proj2 (Z.leb_le 0 _)), Nat2Z.id by lia. by apply list_lookup_middle. }
      apply (Hc (zlen pre)); [|done].
      assert (zget (execution_plan_ g0) (zlen pre + 1 + zlen mid) = Some i) as Hmid.
      { rewrite Hplan. unfold zget. rewrite (proj2 (Z.leb_le 0 _)) by lia. rewrite cons_middle, app_assoc, app_assoc.
        apply list_lookup_middle. rewrite !length_app. simpl. lia. }
      pose proof (plan_injective _ _ _ Hmid Hi). lia. }
  intros st n' c' (Hsn & Hlo & Htm & Hok). pose proof (ran_kernel _ _ _ _ _ _ Hl Hnode Hsn Hlo Htm) as [Hl' _ _].
  split_and!; [done|done|]. intros Hst. destruct (Hok Hst) as (? & ? & ?). exists n', c'. by split_and!.
Qed.

Lemma at_prepare k g : at_op k g → 0 ≤ k < len →
  wp (if k =? next_execution_plan_index_to_prepare_ (execution g) then
        PrepareOpsAndTensors ;!
        e ← gets execution;
        TF_LITE_ENSURE (k <=? next_execution_plan_index_to_prepare_ e)
      else mret kTfLiteOk)
    (λ st g', live g' ∧ state_ (execution g') = state_ (execution g) ∧ (st = kTfLiteOk → at_op k g' ∧ k < next_prepare g')) (λ _, False) g.
Proof.
  intros Hat Hk. pose proof Hat as [Hl Hn Hp Hm Hc]. destruct (Z.eqb_spec k (next_execution_plan_index_to_prepare_ (execution g))) as [Heq|Hne].
  - apply wp_ensure_status. eapply wp_post; [|by apply wp_PrepareOpsAndTensors]. intros st g1 [Hg1 Hok].
    destruct (decide (st = kTfLiteOk)) as [->|]; [|by split_and!; [apply Hg1|apply Hg1|]]. specialize (Hok eq_refl) as (Hm1 & Hp1 & Hnext).
    wp_steps. unfold next_prepare in Hnext at 1 2. rewrite <- Heq in Hnext. specialize (Hnext ltac:(lia)).
    split_and!; [apply Hg1|apply Hg1|]. intros _. split; [|lia]. split; [apply Hg1|lia|done|done|].
    intros a i Ha Hi. apply (go_computed _ _ Hg1). by eapply Hc.
  - apply wp_ret. split_and!; [done|done|]. intros _. split; [done|]. unfold next_prepare in *. lia.
Qed.

Lemma wp_invoke_op k g :
  at_op k g → 0 ≤ k < len → wp (invoke_op k) (op_post k g) (λ _, False) g.
Proof.
  intros Hat Hk. unfold invoke_op, op_post. wp_steps.
  apply wp_ensure_status. eapply wp_post; [|by apply at_prepare]. intros st g1 (Hl1 & Hs1 & Hok).
  destruct (decide (st = kTfLiteOk)) as [->|]; [|by split_and!]. destruct (Hok eq_refl) as [Hat1 Hn1].
  destruct (zget_is_Some (execution_plan_ g0) k Hk) as [i Hi].
  assert (zget (execution_plan_ g1) k = Some i) as Hi1 by (by rewrite (lv_plan _ Hl1)).
  destruct (planned_g0 g1 k i Hl1 Hi1) as (nr & nr0 & Hnode & _ & _).
  apply wp_bind. eapply wp_vget_Some; [exact Hi1|].
  apply wp_bind. eapply wp_get_node; [done|by eapply live_not_freed|].
  assert (∀ t, t ∈ io nr.1 → valid_tensor (context_ g1) t) as Hv by (intros t; by eapply live_io).
  apply wp_ensure_status. eapply wp_post; [|apply wp_check_inputs; [done|intros t Ht; apply Hv, elem_of_app; by left]].
  intros st g2 [Hc2 Hrd2]. pose proof (calm_goes _ _ Hl1 Hc2) as [Hl2 _ Hs2]. rewrite Hs1 in Hs2.
  destruct (decide (st = kTfLiteOk)) as [->|]; [|by split_and!]. specialize (Hrd2 eq_refl).
  apply wp_bind. eapply wp_post; [|apply wp_MayAllocateOpOutput; [done|]].
  2: { intros t Ht. eapply calm_valid; [done|]. apply Hv, elem_of_app. by right. }
  intros _ g3 [Hc3 Hrd3]. pose proof (calm_goes _ _ Hl2 Hc3) as [Hl3 _ Hs3]. rewrite Hs2 in Hs3.
  apply wp_bind. wp_steps. eapply wp_post; [|apply wp_callback; [done|]].
  2: { intros m Hm. apply (co_cancelled _ Hco). by rewrite <- (lv_config _ Hl3). }
  intros b g4 [Hc4 Ht4]. pose proof (calm_goes _ _ Hl3 Hc4) as [Hl4 _ Hs4]. rewrite Hs3 in Hs4.
  destruct b; [by apply wp_ret; split_and!|].
  apply wp_bind. wp_steps. eapply wp_post; [|apply wp_callback; [done|]].
  2: { intros m Hm. apply (co_continue _ Hco). by rewrite <- (lv_config _ Hl4). }
  intros b g5 [Hc5 Ht5]. pose proof (calm_goes _ _ Hl4 Hc5) as [Hl5 _ Hs5]. rewrite Hs4 in Hs5.
  destruct (negb b); [by apply wp_ret; split_and!|].
  pose proof (calm_trans _ _ _ Hc2 (calm_trans _ _ _ Hc3 (calm_trans _ _ _ Hc4 Hc5))) as Hc15.
  apply wp_bind, wp_modify. set (g6 := set_context _ g5).
  assert (calm g5 g6) as Hc6 by (apply calm_set_context; by repeat split).
  pose proof (calm_trans _ _ _ Hc15 Hc6) as Hc16. pose proof (at_calm _ _ _ Hat1 Hc16) as Hat6.
  destruct (calm_execution _ _ Hc16) as (He6 & _ & _ & Hn6 & _).
  assert (next_prepare g6 = next_prepare g1) as Hnp6 by (unfold next_prepare; by rewrite He6).
  assert (node_at g6 i = Some nr) as Hnode6 by (unfold node_at; rewrite Hn6; exact Hnode).
  assert (∀ a t, zget (inputs nr.1) a = Some t → readable (context_ g6) (builtin_code nr.2) a t) as Hrd6.
  { intros a t Ha. unfold readable. assert (tensors_ (context_ g6) = tensors_ (context_ g3)) as -> by (simpl; congruence).
    by apply Hrd3, Hrd2. }
  apply wp_bind. eapply wp_post; [|apply (wp_OpInvoke k i nr g6); [done|lia|done..]].
  intros st g7 (Hl7 & Hs7 & Hok7). assert (state_ (execution g7) = state_ (execution g)) as Hs7' by (rewrite Hs7; simpl; congruence).
  destruct (decide (st = kTfLiteOk)) as [->|Hst].
  2: { apply wp_ret. split_and!; [done|done|]. case_decide; [by subst|done]. }
  destruct (Hok7 eq_refl) as (n' & c' & -> & Hsn & Hlo & Htm & Hprep & Hcomp & Hdyn). destruct nr as [n r]. cbn [fst snd] in *.
  apply wp_bind. eapply wp_get_node; [by eapply node_after_kernel|by eapply live_not_freed; [|by eapply node_after_kernel]|].
  apply wp_ensure_status. eapply wp_post; [|apply (wp_reprepare_downstream k i n n' r c' g6); try done; lia].
  intros st g8 (Hl8 & Hs8 & Hok8). assert (state_ (execution g8) = state_ (execution g)) as Hs8' by (rewrite Hs8; simpl; congruence).
  destruct (decide (st = kTfLiteOk)) as [->|]; [|by split_and!]. specialize (Hok8 eq_refl) as Hat8.
  assert (zget (execution_plan_ g8) k = Some i) as Hi8 by (by rewrite (lv_plan _ Hl8)).
  destruct (planned_g0 g8 k i Hl8 Hi8) as (nr8 & _ & Hnode8 & _).
  apply wp_bind. eapply wp_post; [|by eapply wp_MaybeReleaseDynamicTensors]. intros ? g9 Hc9. simpl in Hc9.
  apply wp_ret. pose proof (calm_goes _ _ Hl8 Hc9) as [Hl9 _ Hs9]. split_and!; [done|by rewrite Hs9|]. intros _. by eapply at_calm.
Qed.

(** [InvokeImpl] on a subgraph that may be run. *)
Definition runnable g : Prop := at_op 0 g.

Lemma wp_InvokeImpl g :
  runnable g →
  wp InvokeImpl
    (λ st g', live g' ∧ state_ (execution g') = state_ (execution g) ∧
       (st = kTfLiteOk → runnable g' ∧ ∀ i, i ∈ execution_plan_ g0 → computed K i (world (context_ g')))) (λ _, False) g.
Proof.
  intros Hat. pose proof (at_live _ _ Hat) as Hl. unfold InvokeImpl. wp_steps.
  destruct (negb _); [by apply wp_ret; split_and!|]. case_decide; [by apply wp_ret; split_and!|].
  destruct (nonpersistent_memory_released g); [by apply wp_ret; split_and!|]. rewrite (lv_plan _ Hl). fold len.
  eapply wp_post; [|apply (wp_for_status (λ done g', at_op (zlen done) g' ∧ state_ (execution g') = state_ (execution g))
                             (λ _ g', live g' ∧ state_ (execution g') = state_ (execution g)))].
  - intros st g' Hpost. simpl in Hpost. case_decide as Hst; [|by destruct Hpost].
    destruct Hpost as [Hat' Hs]. split_and!; [apply Hat'|done|]. intros _. rewrite range_length in Hat'.
    pose proof Hat' as [Al An Ap Am Ac]. split.
    + split; [done|lia|done|done|]. intros a i Ha Hi. pose proof (zget_range _ _ _ Hi). lia.
    + intros i (a & Ha)%list_elem_of_lookup. apply (Ac (Z.of_nat a)).
      * apply lookup_lt_Some in Ha. unfold len. lia.
      * unfold zget. rewrite (proj2 (Z.leb_le 0 _)), Nat2Z.id by lia. done.
  - by split.
  - intros done k todo g' Hrange [Hat' Hs]. pose proof (range_split _ _ _ _ Hrange) as [-> Hk].
    eapply wp_post; [|apply wp_invoke_op; [done|split; [lia|done]]]. intros st g'' (Hl' & Hs' & Hok).
    rewrite Hs in Hs'. case_decide as Hst; [|done]. split; [|done]. rewrite length_app. simpl.
    replace (Z.of_nat (length done + 1)) with (zlen done + 1) by lia. by apply Hok.
Qed.
(** ** Allocation *)

(** Nothing that matters for running changes. *)
Record tame g g' : Prop := {
  ta_goes : goes g g';
  ta_prepared k : prepared_upto k g → prepared_upto k g';
  ta_next : next_prepare g' = next_prepare g;
  ta_memory : retained g → retained g'
}.

Lemma tame_refl g : live g → tame g g.
Proof. intros Hl. split; [by apply goes_refl|done..]. Qed.

Lemma tame_trans g1 g2 g3 : tame g1 g2 → tame g2 g3 → tame g1 g3.
Proof. intros [G1 P1 N1 M1] [G2 P2 N2 M2]. split; [by eapply goes_trans|auto|congruence|auto]. Qed.

Lemma calm_tame g g' : live g → calm g g' → tame g g'.
Proof.
  intros Hl Hc. destruct (calm_execution _ _ Hc) as (He & _).
  split; [by apply calm_goes|intros k Hp; by eapply calm_prepared| |by apply calm_retained]. unfold next_prepare. by rewrite He.
Qed.

Lemma wp_for_each_tame {A} (l : list A) body g :
  live g → (∀ x g', x ∈ l → tame g g' → wp (body x) (λ _, tame g') (λ _, False) g') →
  wp (for_each l body) (λ _ g', tame g g') (λ _, False) g.
Proof.
  intros Hl Hb. apply (wp_for_each (λ _ g', tame g g')); [by apply tame_refl|]. intros done x todo g' -> Hg.
  eapply wp_post; [|apply Hb; [set_solver|done]]. intros ? g''. by apply tame_trans.
Qed.

Lemma wp_ResetVariableTensors p c :
  inv p c → wp ResetVariableTensors (λ _ c', silent p p c c') (λ _, False) c.
Proof.
  intros HI. unfold ResetVariableTensors. wp_steps.
  eapply wp_post; [|apply (wp_for_status (λ _ c', silent p p c c' ∧ tensors_ c' = tensors_ c) (λ _ c', silent p p c c'))].
  - intros st c' Hpost. simpl in Hpost. case_decide; [apply Hpost|done].
  - by split; [apply silent_refl|].
  - intros done t todo c' Ht [Hs Hts]. pose proof (range_split _ _ _ _ Ht) as [-> Hr].
    destruct (zget_is_Some (tensors_ c) (zlen done) ltac:(lia)) as [x Hx]. rewrite <- Hts in Hx.
    apply wp_bind. eapply wp_read_tensor; [done|].
    destruct (is_variable x); [|by apply wp_ret; rewrite decide_True].
    case_decide; [|apply wp_ret; by destruct (bool_decide _)].
    apply wp_ensure_status, wp_ret. destruct (negb _); simpl; [|done].
    apply wp_bind. eapply wp_post; [|apply silent_on_world; [apply Hco|by apply (qu_inv _ _ _ _ (si_quiet _ _ _ _ Hs))]].
    intros ? c'' [Hs' Hts']. simpl in *. apply wp_ret. rewrite decide_True by done.
    split; [by eapply silent_trans|congruence].
Qed.

Lemma goes_last_op m g : live g → tame g (set_execution (with_last_op m (execution g)) g).
Proof. intros Hl. split; [apply (goes_next (with_last_op m)); [done|apply Hl|done..]|done..]. Qed.

Lemma wp_note_use i t g : live g → wp (note_use i t) (λ _ g', tame g g') (λ _, False) g.
Proof.
  intros Hl. unfold note_use. wp_steps. case_match; [|by apply wp_ret, tame_refl].
  apply wp_modify. by apply (goes_last_op (<[t:=i]> (tensor_to_last_op_index_ (execution g)))).
Qed.

Lemma wp_InitializeTensorReleaseMap g : live g → wp InitializeTensorReleaseMap (λ _ g', tame g g') (λ _, False) g.
Proof.
  intros Hl. unfold InitializeTensorReleaseMap. wp_steps. apply wp_for_each_tame; [done|]. intros i g1 Hi Hg1.
  pose proof (go_live _ _ (ta_goes _ _ Hg1)) as Hl1. rewrite (lv_plan _ Hl), <- (lv_plan _ Hl1) in Hi.
  apply list_elem_of_lookup in Hi as [a Ha].
  destruct (planned_g0 g1 (Z.of_nat a) i Hl1) as (nr & _ & Hn & _).
  { unfold zget. rewrite (proj2 (Z.leb_le 0 _)), Nat2Z.id by lia. done. }
  apply wp_bind. eapply wp_get_node; [done|by eapply live_not_freed|].
  assert (∀ l g2, tame g1 g2 → wp (for_each l (note_use i)) (λ _ g3, tame g1 g3) (λ _, False) g2) as Hloop.
  { intros l g2 Hg2. eapply wp_post; [|apply wp_for_each_tame; [apply Hg2|]].
    - intros ? g3. by apply tame_trans.
    - intros t g3 _ Hg3. apply wp_note_use. apply Hg3. }
  apply wp_bind. eapply wp_post; [|apply Hloop; by apply tame_refl]. intros ? g2 Hg2. by apply Hloop.
Qed.

Lemma foldr_uset_subset l x : x ∈ foldr uset_insert [] l → x ∈ l.
Proof.
  induction l as [|y l IH]; simpl; [done|]. unfold uset_insert at 1. case_decide.
  - intros Hx. right. by apply IH.
  - intros [Hx|Hx%list_elem_of_singleton]%elem_of_app; [right; by apply IH|subst; by left].
Qed.

Lemma wp_free_delegated_temporaries g : live g → wp free_delegated_temporaries (λ _ g', calm g g') (λ _, False) g.
Proof.
  intros Hl. unfold free_delegated_temporaries. wp_steps. apply wp_for_each_calm. intros i g1 Hi Hg1.
  pose proof (calm_live _ _ Hl Hg1) as Hl1.
  rewrite uset_elements_perm in Hi. apply list_elem_of_filter in Hi as [_ Hi]. apply foldr_uset_subset in Hi.
  rewrite (lv_delegation _ Hl) in Hi. destruct (wf_pre_plan _ Hwf i Hi) as [nr0 Hn0].
  destruct (live_node_at g1 i nr0 Hl1 Hn0) as (nr & Hn & _ & _).
  apply wp_bind. eapply wp_get_node; [done|by eapply live_not_freed|].
  apply wp_for_each_calm. intros t g2 Ht Hg2. pose proof (calm_live _ _ Hl1 Hg2) as Hl2.
  destruct (calm_execution _ _ Hg2) as (_ & _ & _ & Hn2 & _).
  assert (0 ≤ t < zlen (tensors_ (context_ g2))) as Hr.
  { eapply lv_temporaries; [done| |done]. unfold node_at. rewrite Hn2. exact Hn. }
  destruct (zget_is_Some _ _ Hr) as [x Hx]. wp_steps. unfold tensor. rewrite Hx. wp_steps.
  eapply wp_post; [|by eapply wp_free_tensor]. intros ? g3 Hg3. simpl in Hg3.
  assert (is_Some (zget (tensors_ (context_ g3)) t)) as [y Hy].
  { apply zget_is_Some. destruct Hg3 as [_ [[Hlen _ _ _] _ _]]. lia. }
  apply wp_bind. eapply zoom_get; [done|]. apply wp_zoom. eapply wp_put_tensor; [done|].
  eapply calm_trans; [done|]. apply calm_set_context. by eapply silent_put.
Qed.

Lemma wp_verify_custom_allocations g :
  live g → wp verify_custom_allocations (λ _ g', g' = g) (λ _, False) g.
Proof.
  intros Hl. unfold verify_custom_allocations. wp_steps.
  eapply wp_post; [|apply (wp_for_status (λ _ g', g' = g) (λ _ g', g' = g)); [done|]].
  { intros st g'. simpl. by case_decide. }
  intros done t todo g' Hl' ->.
  assert (t ∈ merge_sort Z.le (map_to_list (custom_allocations_ (execution g))).*1) as Ht by (rewrite Hl'; set_solver).
  rewrite merge_sort_Permutation in Ht. apply list_elem_of_fmap in Ht as ([t' a] & -> & Ht).
  apply elem_of_map_to_list in Ht. simpl.
  pose proof (lv_custom _ Hl t' ltac:(by exists a)) as Hr. destruct (zget_is_Some _ _ Hr) as [x Hx].
  wp_steps. unfold tensor. rewrite Hx. wp_steps. apply wp_ensure_status, wp_ret.
  destruct (bool_decide _); simpl; [|done]. eapply wp_post; [|by apply wp_verify]. intros st g' ->. by case_decide.
Qed.

(** A subgraph is sound if it can be run whenever its state says so. *)
Record sound g : Prop := {
  so_live : live g;
  so_runnable : state_ (execution g) ≠ kStateUninvokable → runnable g
}.

Lemma runnable_tame g g' : runnable g → tame g g' → runnable g'.
Proof.
  intros [Hl Hn Hp Hm Hc] [[Gl Gc Gs] Tp Tn Tm]. split; [done|by rewrite Tn|rewrite Tn; by apply Tp|by apply Tm|].
  intros a i Ha Hi. pose proof (zget_range _ _ _ Hi). lia.
Qed.

Lemma sound_tame g g' : sound g → tame g g' → sound g'.
Proof.
  intros [Hl Hr] Ht. pose proof Ht as [[Gl Gc Gs] Tp Tn Tm]. split; [done|]. rewrite Gs. intros Hst.
  eapply runnable_tame; [by apply Hr|done].
Qed.

Lemma live_execution e g :
  live g → 0 ≤ next_execution_plan_index_to_plan_allocation_ e ∧ 0 ≤ next_execution_plan_index_to_prepare_ e →
  has_memory_planner e = has_memory_planner (execution g) → custom_allocations_ e = custom_allocations_ (execution g) →
  live (set_execution e g).
Proof.
  intros Hl Hn Hp Hc. split; simpl; try apply Hl; [|by rewrite Hc; apply Hl|done].
  unfold has_planner. simpl. rewrite Hp. apply Hl.
Qed.

(** The part of [AllocateTensors] that plans the memory. *)
Lemma wp_reallocate g :
  live g → next_prepare g = 0 →
  wp (PrepareOpsAndTensors ;!
      set_state kStateInvokable;;
      on_context ResetVariableTensors;;
      InitializeTensorReleaseMap;;
      free_delegated_temporaries;;
      mret kTfLiteOk)
    (λ st g', live g' ∧ (st = kTfLiteOk → runnable g' ∧ state_ (execution g') = kStateInvokable)) (λ _, False) g.
Proof.
  intros Hl Hn. apply wp_ensure_status. eapply wp_post; [|apply wp_PrepareOpsAndTensors; [done|]].
  2: { intros a i nr Ha Hi. pose proof (zget_range _ _ _ Hi). lia. }
  intros st g1 [[Hl1 _ _] Hok]. destruct (decide (st = kTfLiteOk)) as [->|]; [|by split].
  destruct (Hok eq_refl) as (Hm1 & Hp1 & _). apply wp_bind, wp_modify. set (g2 := set_execution _ _).
  assert (live g2) as Hl2 by (apply live_execution; [done|exact (lv_next _ Hl1)|done..]).
  assert (runnable g2) as Hr2.
  { split; [done|exact (proj2 (lv_next _ Hl2))|exact Hp1|exact Hm1|]. intros a i Ha Hi. pose proof (zget_range _ _ _ Hi). lia. }
  apply wp_bind, wp_zoom. eapply wp_post; [|apply (wp_ResetVariableTensors (has_planner g2)); apply Hl2].
  intros ? c3 Hs3. apply (calm_set_context g2) in Hs3. set (g3 := set_context c3 g2) in *.
  pose proof (calm_live _ _ Hl2 Hs3) as Hl3. pose proof (calm_tame _ _ Hl2 Hs3) as Ht3.
  apply wp_bind. eapply wp_post; [|by apply wp_InitializeTensorReleaseMap]. intros ? g4 Ht4. simpl in Ht4.
  pose proof (go_live _ _ (ta_goes _ _ Ht4)) as Hl4.
  apply wp_bind. eapply wp_post; [|by apply wp_free_delegated_temporaries]. intros ? g5 Hc5. simpl in Hc5.
  pose proof (calm_tame _ _ Hl4 Hc5) as Ht5. pose proof (tame_trans _ _ _ Ht3 (tame_trans _ _ _ Ht4 Ht5)) as Ht.
  apply wp_ret. split; [apply Ht|]. intros _. split; [by eapply runnable_tame|]. by rewrite (go_state _ _ (ta_goes _ _ Ht)).
Qed.

Lemma wp_AllocateTensors redo g :
  sound g → redo g = Done kTfLiteOk g →
  wp (AllocateTensors redo)
    (λ st g', live g' ∧ (st = kTfLiteOk → sound g' ∧ state_ (execution g') ≠ kStateUninvokable)) (λ _, False) g.
Proof.
  intros [Hl Hr] Hredo. unfold AllocateTensors. wp_steps. destruct (negb _); [by apply wp_ret|].
  apply wp_ensure_status. unfold wp at 1. rewrite Hredo. rewrite decide_True by done. wp_steps.
  eapply wp_post with (Q := λ b g', g' = g ∧ (b = false → state_ (execution g) ≠ kStateUninvokable)).
  2: { case_decide; [by apply wp_ret|]. apply wp_zoom, wp_HasDynamicTensor.
       - intros t Ht. apply valid_live; [done|]. apply Hwf. rewrite (lv_config _ Hl) in Ht. set_solver.
       - intros b _ _. by assert (set_context (context_ g) g = g) as -> by (by destruct g). }
  intros b g' [-> Hst]. destruct b; simpl.
  - do 3 (apply wp_bind, wp_modify).
    match goal with |- wp _ _ _ ?g3 => set (g1 := g3) end.
    assert (live g1) as Hl3.
    { pose proof (lv_next _ Hl). repeat (apply live_execution; [|simpl; lia|done..]). done. }
    assert (next_prepare g1 = 0) as Hn3 by done.
    unfold if_planner. apply wp_ensure_status. wp_steps.
    eapply wp_post with (Q := λ _ g', calm g1 g').
    2: { case_match eqn:Hpl; [|apply wp_ret, calm_refl]. apply wp_planner; [done|exact Hpl|apply Hco]. }
    intros st g2 Hc2. pose proof (calm_live _ _ Hl3 Hc2) as Hl2. destruct (decide (st = kTfLiteOk)) as [->|]; [|by split].
    eapply wp_post; [|apply wp_reallocate; [done|]].
    + intros st g4 [Hl4 Hok]. split; [done|]. intros Hst4. destruct (Hok Hst4) as [Hr4 Hs4]. rewrite Hs4. by split; [split|].
    + destruct (calm_execution _ _ Hc2) as (He & _). unfold next_prepare. by rewrite He.
  - specialize (Hst eq_refl). specialize (Hr Hst).
    apply wp_bind. eapply wp_post with (Q := λ _ g', calm g g').
    + intros [] g1 Hc1. pose proof (calm_tame _ _ Hl Hc1) as Ht1. pose proof (calm_live _ _ Hl Hc1) as Hl1.
      eapply wp_post; [|by apply wp_verify_custom_allocations]. intros st g2 ->. split; [done|]. intros _.
      assert (state_ (execution g1) ≠ kStateUninvokable) as Hst1 by (by rewrite (go_state _ _ (ta_goes _ _ Ht1))).
      split; [|done]. split; [done|]. intros _. by eapply runnable_tame.
    + rewrite retained_not_released by apply Hr. apply wp_ret, calm_refl.
Qed.
(** ** Other operations *)

Lemma sound_uninvokable g : live g → state_ (execution g) = kStateUninvokable → sound g.
Proof. intros Hl Hs. by split. Qed.

Lemma live_uninvokable g : live g → live (set_execution (with_state kStateUninvokable (execution g)) g).
Proof. intros Hl. apply live_execution; [done|exact (lv_next _ Hl)|done..]. Qed.

Lemma wp_ReleaseNonPersistentMemory g :
  live g → wp ReleaseNonPersistentMemory (λ _, sound) (λ _, False) g.
Proof.
  intros Hl. unfold ReleaseNonPersistentMemory, if_planner. apply wp_bind, wp_modify. pose proof (live_uninvokable _ Hl) as Hl1.
  wp_steps. case_match eqn:Hp; [|apply wp_ret; by apply sound_uninvokable].
  apply wp_zoom. eapply wp_post; [|apply (en_release _ (en_planner _ (co_environment _ Hco)))].
  2: { pose proof (lv_inv _ Hl1) as HI. assert (has_planner (set_execution (with_state kStateUninvokable (execution g)) g) = true) as Hp' by exact Hp.
       rewrite Hp' in HI. exact HI. }
  intros ? c2 Hq. apply sound_uninvokable; [|done]. by eapply live_quiet.
Qed.

Lemma wp_free_dynamic l g : live g → wp (free_dynamic l) (λ _, calm g) (λ _, False) g.
Proof.
  intros Hl. apply wp_for_each_calm. intros t g1 _ Hc. pose proof (calm_live _ _ Hl Hc) as Hl1.
  wp_steps. unfold tensor. destruct (zget _ t) as [x|] eqn:Hx; [|apply wp_ret, calm_refl].
  case_match; [by eapply wp_free_tensor|apply wp_ret, calm_refl].
Qed.

Lemma wp_ReleaseMemory g : live g → wp ReleaseMemory (λ _, sound) (λ _, False) g.
Proof.
  intros Hl. unfold ReleaseMemory. apply wp_bind, wp_modify. apply wp_bind.
  eapply wp_post; [|apply wp_ReleaseNonPersistentMemory; by apply live_uninvokable]. intros ? g1 Hs1. simpl in Hs1.
  pose proof (so_live _ Hs1) as Hl1. wp_steps.
  eapply wp_post; [|by apply wp_free_dynamic]. intros ? g2 Hc2. simpl in Hc2. pose proof (calm_live _ _ Hl1 Hc2) as Hl2.
  apply wp_bind. eapply wp_post; [|by apply wp_free_dynamic]. intros ? g3 Hc3. simpl in Hc3. apply wp_ret.
  eapply sound_tame; [done|]. eapply tame_trans; by apply calm_tame.
Qed.

(** A tensor gets new dimensions. *)
Lemma live_resized b t x y g :
  live g → zget (tensors_ (context_ g)) t = Some y → is_Some (dims x) →
  live (set_context (set_tensors (zset t x (tensors_ (context_ g))) (set_resized b (context_ g))) g).
Proof.
  intros Hl Hy Hd. pose proof (zget_range _ _ _ Hy) as Hr. split; simpl; try apply Hl.
  - unfold inv, has_planner. simpl. rewrite zset_length. apply Hl.
  - intros u Hu. apply (lv_shape _ Hl) in Hu. unfold shape in *. simpl. destruct (decide (u = t)) as [->|Hne].
    + by rewrite zget_zset_eq.
    + by rewrite zget_zset_ne by lia.
  - intros i nr u Hi Hu. rewrite zset_length. exact (lv_temporaries _ Hl i nr u Hi Hu).
  - intros u Hu. rewrite zset_length. exact (lv_custom _ Hl u Hu).
Qed.

Lemma set_tensors_twice l l' b c : set_tensors l (set_tensors l' (set_resized b c)) = set_tensors l (set_resized b c).
Proof. done. Qed.

Lemma wp_ResizeTensorImpl t d g :
  live g → 0 ≤ t < zlen (tensors_ (context_ g)) →
  wp (on_context (ResizeTensorImpl t d)) (λ _ g', live g' ∧ execution g' = execution g) (λ _, False) g.
Proof.
  intros Hl Ht. destruct (zget_is_Some _ _ Ht) as [x Hx]. apply wp_zoom. unfold ResizeTensorImpl.
  assert (set_context (context_ g) g = g) as Hid by (by destruct g).
  apply wp_bind. eapply wp_read_tensor; [done|]. destruct (resizable _); [|apply wp_ret; by rewrite Hid].
  apply wp_bind, wp_modify. set (b := _ || _).
  assert (live (set_context (set_resized b (context_ g)) g)) as Hl1.
  { eapply live_silent; [done| |done]. by repeat split. }
  apply wp_ensure_status.
  eapply wp_post with (Q := λ st c', calm (set_context (set_resized b (context_ g)) g) (set_context c' g)).
  - intros st c' Hc. pose proof (calm_live _ _ Hl1 Hc) as Hl2. destruct (decide (st = kTfLiteOk)) as [->|]; [|by split].
    assert (0 ≤ t < zlen (tensors_ c')) as Ht'.
    { destruct Hc as [_ [[Hlen _ _ _] _ _]]. simpl in Hlen. lia. }
    destruct (zget_is_Some _ _ Ht') as [y Hy].
    apply wp_bind. eapply wp_read_tensor; [done|]. apply wp_bind. eapply wp_put_tensor; [done|]. apply wp_ret.
    split; [|done].
    pose proof (live_resized (tensor_resized_since_op_invoke_ c') t) as Hres.
    match goal with |- live (set_context (set_tensors (zset t ?z _) _) _) => specialize (Hres z y _ Hl2 Hy) end.
    destruct c'. apply Hres. by case_match.
  - destruct (has_no_size _); [apply wp_ret, calm_refl|]. destruct (BytesRequired _ _ _) as [status bytes_required].
    case_decide; [|apply wp_ret, calm_refl]. apply wp_bind.
    eapply wp_post; [|by apply (wp_ResizeMaybeCopy (has_planner g) t x); [apply Hl1|]].
    intros st c' (Hs & Hu & Ht'). apply wp_bind.
    assert (∃ y, zget (tensors_ c') t = Some y ∧ dims y = dims x) as (y & Hy & Hd).
    { destruct Ht' as [?|[a ?]]; by eexists. }
    eapply wp_read_tensor; [done|]. apply wp_bind. eapply wp_put_tensor; [done|]. apply wp_ret.
    apply (calm_set_context (set_context (set_resized b (context_ g)) g)). eapply silent_trans; [exact Hs|].
    by eapply silent_put.
Qed.
(** ** Requests of a client *)

Lemma wp_ResizeInputTensor `{StdSort} t d g :
  sound g → delegates_applied_ (delegation g0) = [] →
  wp (ResizeInputTensor t d) (λ st g', live g' ∧ (st = kTfLiteOk → sound g')) (λ _, False) g.
Proof.
  intros [Hl Hr] Hd. unfold ResizeInputTensor. wp_steps. rewrite (lv_delegation _ Hl), Hd. simpl. rewrite andb_true_r.
  destruct (bool_decide _); [by apply wp_ret|]. apply wp_ensure_status, wp_ret.
  destruct (in_range t (context_ g)) eqn:Ht; simpl; [|done]. unfold in_range in Ht.
  apply andb_true_iff in Ht as [Ht1%Z.ltb_lt Ht2%Z.leb_le]. destruct (zget_is_Some (tensors_ (context_ g)) t ltac:(lia)) as [x Hx].
  apply wp_bind. eapply zoom_get; [done|]. case_match; [apply wp_ret; split; [done|by split]|].
  apply wp_ensure_status, wp_ret. rewrite decide_True by done. apply wp_bind, wp_modify.
  eapply wp_post; [|apply wp_ResizeTensorImpl; [by apply live_uninvokable|simpl; lia]].
  intros st g' [Hl' He]. split; [done|]. intros _. apply sound_uninvokable; [done|by rewrite He].
Qed.
End running.

Inductive request := Allocate | Run | Resize (tensor_index : Z) (new_dims : list Z) | ReleaseArena | ReleaseAll | ResetVariables.

Section requests.
Context {W : Type} `{MemoryPlanner W} `{CHeap W} `{Delegates W} `{UnorderedOrder} `{StdSort}.

Definition perform (r : request) : M (Subgraph W) TfLiteStatus :=
  match r with
  | Allocate => AllocateTensors (RedoAllDelegates redo_depth)
  | Run => InvokeImpl
  | Resize t d => ResizeInputTensor t d
  | ReleaseArena => ReleaseNonPersistentMemory
  | ReleaseAll => ReleaseMemory
  | ResetVariables => on_context ResetVariableTensors
  end.

Lemma wp_perform K g0 r g :
  well_formed g0 → contract_ok K g0 → delegates_applied_ (delegation g0) = [] → delegates_undone_ (delegation g0) = false →
  sound K g0 g → wp (perform r) (λ st g', live K g0 g' ∧ (st = kTfLiteOk → sound K g0 g')) (λ _, False) g.
Proof.
  intros Hwf Hco Happ Hundone Hs. pose proof (so_live _ _ _ Hs) as Hl. destruct r; cbn [perform].
  - eapply wp_post; [|apply wp_AllocateTensors; [done..|]].
    + intros st g' [Hl' Hok]. split; [done|]. intros Hst. apply (Hok Hst).
    + apply RedoAllDelegates_applied. unfold applied, undone. by rewrite (lv_delegation _ _ _ Hl).
  - destruct (decide (state_ (execution g) = kStateUninvokable)) as [Hst|Hst].
    + unfold InvokeImpl. wp_steps. rewrite Hst. destruct (negb _); by apply wp_ret.
    + eapply wp_post; [|apply wp_InvokeImpl; [done..|by apply Hs]]. intros st g' (Hl' & _ & Hok).
      split; [done|]. intros Hst'. split; [done|]. intros _. by apply Hok.
  - by apply wp_ResizeInputTensor.
  - eapply wp_post; [|by eapply wp_ReleaseNonPersistentMemory]. intros st g' Hs'. by split; [apply Hs'|].
  - eapply wp_post; [|by eapply wp_ReleaseMemory]. intros st g' Hs'. by split; [apply Hs'|].
  - apply wp_zoom. eapply wp_post; [|apply (wp_ResetVariableTensors K g0 Hco (has_planner g)); apply Hl].
    intros st c' Hc. simpl in Hc. apply (calm_set_context K g) in Hc. pose proof (calm_tame _ _ _ _ Hl Hc) as Ht.
    split; [apply Ht|]. intros _. by eapply sound_tame.
Qed.
End requests.

(** ** The claims *)

(** C3: [Invoke] on a subgraph whose nodes are prepared up to the next one to
    prepare has no undefined behaviour, although kernels may have some unless they are
    prepared for the shapes of their tensors, their inputs can be read and all that
    computes those has run. The planner has to serve the calls that this graph makes, as
    the arena planner does ([PlannerInterface]). If it succeeds, every node of the plan
    has run and the subgraph can be invoked again. *)
Theorem Invoke_prepared {W} `{MemoryPlanner W} `{CHeap W} `{Delegates W} `{UnorderedOrder} (K : Contract (W := W)) g :
  well_formed g → contract_ok K g → runnable K g g →
  wp InvokeImpl
    (λ st g', state_ (execution g') = state_ (execution g) ∧
       (st = kTfLiteOk → runnable K g g' ∧ ∀ i, i ∈ execution_plan_ g → computed K i (world (context_ g')))) (λ _, False) g.
Proof. intros Hwf Hco Hr. eapply wp_post; [|by apply (wp_InvokeImpl K g)]. intros st g' (_ & Hs & Hok). by split. Qed.

