(* ===== verification/PlannerInterface.v ===== *)
(** * The arena planner behind a subgraph

    A subgraph calls its planner through [memory_planner.h]. The planner of this
    repository is an [ArenaPlanner] that works on the tensors of the subgraph's context
    and reads its graph through [InterpreterInfo]. Here it is made an instance of what
    the subgraph expects of a planner, and shown to keep that contract on every
    well-formed graph that can be planned. *)

From S2P Require Import Prelude SimpleMemoryArena ArenaPlanner PlannerLifetimes PlannerSafety Subgraph SubgraphExecution SubgraphRunProofs.

(** Where the world keeps the planner. *)
Class PlannerStore (W : Type) := {
  planner_of : W → ArenaPlanner;
  store_planner : ArenaPlanner → W → W;
  planner_of_store s w : planner_of (store_planner s w) = s
}.

Definition kDefaultTensorAlignment : Z := 64.

(** ** The instance *)

Section instance.
Context {W : Type} `{PlannerStore W} `{Platform} `{StdSort} `{UnorderedOrder}.
Implicit Types (c : TfLiteContext W) (s : ArenaPlanner).

(** The graph that the planner reads through [InterpreterInfo]. *)
Definition interpreter_graph (view : PlannerView W) : GraphInfo := {|
  nodes := (λ x, {| ArenaPlanner.inputs := inputs x.1; ArenaPlanner.outputs := outputs x.1;
                    ArenaPlanner.temporaries := temporaries x.1;
                    ArenaPlanner.inplace_operator := inplace_operator x.2 |}) <$> plan_nodes view;
  graph_inputs := view_inputs view;
  graph_outputs := view_outputs view;
  graph_variables := view_variables view
|}.

(** The tensors are those of the context, and the planner writes their pointers. *)
Definition planner_tensor (x : TfLiteTensor) : ArenaPlanner.TfLiteTensor := {|
  ArenaPlanner.allocation_type := allocation_type x;
  ArenaPlanner.bytes := bytes x;
  ArenaPlanner.data := data x
|}.

Definition planner_sees c : ArenaPlanner :=
  ArenaPlanner.set_tensors (planner_tensor <$> tensors_ c) (planner_of (world c)).

Definition planner_leaves s c : TfLiteContext W :=
  set_tensors (zip_with (λ x y, set_memory (ArenaPlanner.data y) (bytes x) x) (tensors_ c) (ArenaPlanner.tensors s))
    (set_world (store_planner s (world c)) c).

Definition call_planner (m : M ArenaPlanner unit) : M (TfLiteContext W) TfLiteStatus := λ c,
  match m (planner_sees c) with
  | Done _ s => Done kTfLiteOk (planner_leaves s c)
  | Error s => Done kTfLiteError (planner_leaves s c)
  | Undefined => Undefined
  end.

(** The planner is constructed with empty vectors and arenas; the heap is there
    before. *)
Definition construct_planner : M (TfLiteContext W) unit :=
  modify (λ c, set_world (store_planner (ArenaPlanner.new_planner (memory (planner_of (world c))) []) (world c)) c).

Definition arena_memory_planner : MemoryPlanner W := {|
  new_planner := construct_planner;
  planner_PlanAllocations view := call_planner (PlanAllocations (interpreter_graph view) (view_preserve_all_tensors view));
  planner_ExecuteAllocations view first_node last_node :=
    call_planner (ExecuteAllocations (interpreter_graph view) (view_preserve_all_tensors view) kDefaultTensorAlignment first_node last_node);
  planner_ResetAllocations := call_planner ArenaPlanner.ResetAllocations;
  planner_ResetAllocationsAfter node := call_planner (ArenaPlanner.ResetAllocationsAfter node);
  planner_ReleaseNonPersistentMemory := call_planner ArenaPlanner.ReleaseNonPersistentMemory;
  planner_AcquireNonPersistentMemory := call_planner AcquireNonPersistentMemory;
  planner_HasNonPersistentMemory w := HasNonPersistentMemory (planner_of w)
|}.
End instance.

(** ** The contract *)

(** Between calls only the heap counts before the planner is constructed, and
    afterwards that it has planned a graph of [len] nodes. *)
Definition planner_inv (len : Z) (p : bool) (n : Z) (s : ArenaPlanner) : Prop :=
  if p then steady len (Z.to_nat n) s else heap_ok (memory s).

(** What the planner needs beyond a well-formed graph: variables are tensors, sources
    are not produced by a node, no node reads what it writes, and an operation that may
    work in place has an output. *)
Record plannable {W} (g : Subgraph W) : Prop := {
  pn_size : zlen (execution_plan_ g) < int32_max;
  pn_variables t : t ∈ variables_ (config g) → is_Some (shape (context_ g) t);
  pn_sources i nr t : planned g i nr → t ∈ outputs nr.1 → t ≠ kTfLiteOptionalTensor → t ∉ variables_ (config g) ++ inputs_ (config g);
  pn_own i nr t : planned g i nr → t ∈ inputs nr.1 → t ∈ outputs nr.1 → t = kTfLiteOptionalTensor;
  pn_inplace i nr : planned g i nr → inplace_operator nr.2 ≠ kTfLiteInplaceOpNone → head (outputs nr.1) ≠ Some kTfLiteOptionalTensor
}.

Section contract.
Context {W : Type} `{PlannerStore W} `{Platform} `{StdSort} `{UnorderedOrder}.
Implicit Types (c : TfLiteContext W) (s : ArenaPlanner) (g : Subgraph W) (t : Z).
#[local] Existing Instance arena_memory_planner.

(** The contract [K] of kernels, client and heap, with the invariant of the planner. *)
Definition with_planner_inv (len : Z) (K : Contract (W := W)) : Contract (W := W) := {|
  V := V K;
  Inv p n w := Inv K p n w ∧ planner_inv len p n (planner_of w);
  priv := priv K;
  Prep := Prep K;
  computed := computed K
|}.

(** [K] does not depend on the state of the planner. *)
Record ignores_planner (K : Contract (W := W)) : Prop := {
  ip_inv p p' n w s : Inv K p n w → Inv K p' n (store_planner s w);
  ip_priv j w s : priv K j (store_planner s w) = priv K j w;
  ip_computed j w s : computed K j w → computed K j (store_planner s w)
}.

Context (len : Z) (K : Contract (W := W)) (HK : ignores_planner K).
Abbreviation KP := (with_planner_inv len K).

(** *** Calls *)

Lemma zget_leaves s c t : length (ArenaPlanner.tensors s) = length (tensors_ c) →
  (shape (planner_leaves s c) t = shape c t) ∧ zlen (tensors_ (planner_leaves s c)) = zlen (tensors_ c).
Proof.
  intros Hl. split; [|simpl; rewrite length_zip_with; lia]. unfold shape, zget. simpl. case_match; [|done].
  rewrite lookup_zip_with. destruct (tensors_ c !! Z.to_nat t) eqn:Hx; simpl; [|done].
  destruct (lookup_lt_is_Some_2 (ArenaPlanner.tensors s) (Z.to_nat t)) as [y ->]; [|done].
  rewrite Hl. by eapply lookup_lt_Some.
Qed.

Lemma leaves_quiet p p' s c :
  length (ArenaPlanner.tensors s) = length (tensors_ c) → planner_inv len p' (zlen (tensors_ c)) s →
  quiet KP p p' c (planner_leaves s c).
Proof.
  intros Hl Hs. split.
  - destruct (zget_leaves s c 0 Hl) as [_ ->]. done.
  - intros [HI _]. unfold inv. destruct (zget_leaves s c 0 Hl) as [_ ->]. simpl.
    split; [by eapply (ip_inv _ HK)|by rewrite planner_of_store].
  - intros j Hj. by apply (ip_computed _ HK).
  - intros t. by destruct (zget_leaves s c t Hl) as [-> _].
Qed.

Lemma leaves_silent p p' s c :
  length (ArenaPlanner.tensors s) = length (tensors_ c) → planner_inv len p' (zlen (tensors_ c)) s →
  (p = true → has_memory (world c) = true → p' = true ∧ HasNonPersistentMemory s = true) →
  silent KP p p' c (planner_leaves s c).
Proof.
  intros Hl Hs Hm. split; [by apply leaves_quiet|intros j; by apply (ip_priv _ HK)|intros t; by destruct (zget_leaves s c t Hl) as [-> _]|].
  intros Hp Hw. destruct (Hm Hp Hw) as [? Hnp]. split; [done|]. unfold has_memory. simpl. by rewrite planner_of_store.
Qed.

(** A call that keeps the planner running. *)
Lemma wp_call_planner np (m : M ArenaPlanner unit) (Qok : ArenaPlanner → Prop) c :
  inv KP true c →
  (∀ s, running len (length (tensors_ c)) (has_memory (world c)) false s →
     wp m (λ _ s', running len (length (tensors_ c)) np false s' ∧ Qok s') (running len (length (tensors_ c)) np false) s) →
  wp (call_planner m) (λ st c', ∃ s', c' = planner_leaves s' c ∧ running len (length (tensors_ c)) np false s' ∧ (st = kTfLiteOk → Qok s'))
    (λ _, False) c.
Proof.
  intros [_ HI] Hm. simpl in HI. rewrite Nat2Z.id in HI.
  assert (running len (length (tensors_ c)) (has_memory (world c)) false (planner_sees c)) as Hs.
  { split; [by eapply steady_grows|simpl; by rewrite length_fmap|done|done]. }
  specialize (Hm _ Hs). unfold wp, call_planner in *. destruct (m (planner_sees c)) as [[] s|s|]; [..|done]; exists s; naive_solver.
Qed.

Lemma running_inv n np s : running len n np false s → planner_inv len true (Z.of_nat n) s.
Proof. intros Hs. simpl. rewrite Nat2Z.id. apply Hs. Qed.

End contract.

(** *** The graph that the planner sees *)

Section seen_graph.
Context {W : Type}.
Implicit Types (c : TfLiteContext W) (g : Subgraph W) (t : Z).

Lemma view_node g view c k nd :
  view_of g view c → zget (nodes (interpreter_graph view)) k = Some nd →
  ∃ i nr x, zget (execution_plan_ g) k = Some i ∧ node_at g i = Some nr ∧ planned g i nr ∧ x ∈ plan_nodes view ∧
    ArenaPlanner.inputs nd = inputs nr.1 ∧ ArenaPlanner.outputs nd = outputs nr.1 ∧
    ArenaPlanner.temporaries nd = temporaries x.1 ∧ ArenaPlanner.inplace_operator nd = inplace_operator nr.2.
Proof.
  intros Hv Hk. simpl in Hk. rewrite zget_fmap in Hk. destruct (zget (plan_nodes view) k) as [x|] eqn:Hx; [|done].
  simpl in Hk. injection Hk as <-. pose proof (zget_elem _ _ _ Hx) as Hin. pose proof Hx as Hx'. unfold zget in Hx'. case_match eqn:Hle; [|done].
  destruct (Forall2_lookup_r _ _ _ _ _ (vo_nodes _ _ _ Hv) Hx') as (i & Hi & nr & Hn & [Hs1 Hs2 _ _] & Hr).
  exists i, nr, x. unfold zget. rewrite Hle. split_and!; try done; simpl; [|by rewrite Hr].
  split; [|done]. by eapply list_elem_of_lookup_2.
Qed.

Lemma before_positions g k k' i j :
  zget (execution_plan_ g) k = Some i → zget (execution_plan_ g) k' = Some j → k < k' → before g i j.
Proof.
  intros [Hk Hi]%zget_Some [Hk' Hj]%zget_Some Hlt.
  exists (take (Z.to_nat k) (execution_plan_ g)).
  assert (drop (S (Z.to_nat k)) (execution_plan_ g) !! (Z.to_nat k' - S (Z.to_nat k))%nat = Some j) as Hd.
  { rewrite lookup_drop. rewrite <- Hj. f_equal. lia. }
  apply list_elem_of_split_length in Hd as (mid & post & Hd & _). exists mid, post. rewrite <- Hd. symmetry. by apply take_drop_middle.
Qed.

Lemma view_plannable g view c :
  well_formed g → plannable g → view_of g view c → plannable_graph (interpreter_graph view) (Z.of_nat (length (tensors_ c))).
Proof.
  intros Hwf Hpn Hv.
  assert (∀ t, valid_tensor (context_ g) t → t ≠ -1 → 0 ≤ t < zlen (tensors_ c)) as Hrange.
  { intros t [?|Ht] Hne; [done|]. apply (vo_shape _ _ _ Hv) in Ht. destruct (shape_tensor _ _ Ht) as [x Hx]. by eapply zget_range. }
  assert (∀ k nd, zget (nodes (interpreter_graph view)) k = Some nd → ∃ i nr, zget (execution_plan_ g) k = Some i ∧
    planned g i nr ∧ ArenaPlanner.inputs nd = inputs nr.1 ∧ ArenaPlanner.outputs nd = outputs nr.1) as Hnode.
  { intros k nd Hk. destruct (view_node _ _ _ _ _ Hv Hk) as (i & nr & x & ? & _ & ? & _ & ? & ? & _). by exists i, nr. }
  assert (∀ i nr t, planned g i nr → t ∈ io nr.1 → t ≠ -1 → 0 ≤ t < zlen (tensors_ c)) as Hio.
  { intros i nr t [_ Hn] Ht Hne. apply Hrange; [|done]. by apply (wf_node _ Hwf i nr Hn). }
  assert (∀ k k' t, in_of (interpreter_graph view) k t ∨ out_of (interpreter_graph view) k t →
    out_of (interpreter_graph view) k' t → k' ≤ k) as Horder.
  { intros k k' t Hk (nd' & Hnd' & Ht' & Hne). destruct (Hnode _ _ Hnd') as (j & nr' & Hj & [_ Hn'] & _ & Ho').
    assert (∃ i nr, zget (execution_plan_ g) k = Some i ∧ node_at g i = Some nr ∧ t ∈ io nr.1) as (i & nr & Hi & Hn & Ht).
    { destruct Hk as [(nd & Hnd & Ht & _)|(nd & Hnd & Ht & _)]; destruct (Hnode _ _ Hnd) as (i & nr & Hi & [_ Hn] & Ein & Eout);
        exists i, nr; (split_and!; [done..|]); unfold io; apply elem_of_app; [left; by rewrite <- Ein|right; by rewrite <- Eout]. }
    destruct (Z.le_gt_cases k' k) as [|Hlt]; [done|exfalso]. apply Hne. rewrite Ho' in Ht'.
    eapply (wf_order _ Hwf i j); [by eapply before_positions|done..]. }
  split.
  - unfold num_execution_nodes. simpl. rewrite length_fmap, <- (Forall2_length _ _ _ (vo_nodes _ _ _ Hv)). apply Hpn.
  - intros t Ht. unfold kept, sources in Ht. simpl in Ht.
    rewrite (vo_inputs _ _ _ Hv), (vo_outputs _ _ _ Hv), (vo_variables _ _ _ Hv), !elem_of_app, !elem_of_present in Ht.
    destruct Ht as [[Hne Ht]|[Ht|[Hne Ht]]].
    + apply Hrange; [|done]. apply Hwf. set_solver.
    + pose proof (pn_variables _ Hpn t Ht) as Hsh. destruct (shape_tensor _ _ (vo_shape _ _ _ Hv t Hsh)) as [x Hx]. by eapply zget_range.
    + apply Hrange; [|done]. apply Hwf. set_solver.
  - intros k t (nd & Hk & Ht & Hne). destruct (Hnode _ _ Hk) as (i & nr & _ & Hp & Ein & _). eapply Hio; [done| |done].
    unfold io. rewrite <- Ein. set_solver.
  - intros k t (nd & Hk & Ht & Hne). destruct (Hnode _ _ Hk) as (i & nr & _ & Hp & _ & Eout). eapply Hio; [done| |done].
    unfold io. rewrite <- Eout. set_solver.
  - intros nd [a Ha]%list_elem_of_lookup. assert (zget (nodes (interpreter_graph view)) (Z.of_nat a) = Some nd) as Hz.
    { apply zget_Some. rewrite Nat2Z.id. split; [lia|exact Ha]. }
    destruct (view_node _ _ _ _ _ Hv Hz) as (i & nr & x & _ & _ & Hp & _ & _ & -> & _ & ->). by eapply pn_inplace.
  - intros k k' t Ho Ho'. pose proof (Horder k k' t (or_intror Ho) Ho'). pose proof (Horder k' k t (or_intror Ho') Ho). lia.
  - intros k t (nd & Hk & Ht & Hne) Hs. destruct (Hnode _ _ Hk) as (i & nr & _ & Hp & _ & Eout). rewrite Eout in Ht.
    apply (pn_sources _ Hpn i nr t Hp Ht Hne). unfold sources in Hs. simpl in Hs.
    rewrite (vo_inputs _ _ _ Hv), (vo_variables _ _ _ Hv), elem_of_app, elem_of_present in Hs. set_solver.
  - intros k k' t Hi Ho. pose proof (Horder k k' t (or_introl Hi) Ho). enough (k' ≠ k) by lia. intros ->.
    destruct Hi as (nd & Hk & Hti & Hne), Ho as (nd' & Hk' & Hto & _). rewrite Hk in Hk'. injection Hk' as <-.
    destruct (Hnode _ _ Hk) as (i & nr & _ & Hp & Ein & Eout). apply Hne. eapply (pn_own _ Hpn i nr); [done|by rewrite <- Ein|by rewrite <- Eout].
Qed.

Lemma view_length g view c : view_of g view c → num_execution_nodes (interpreter_graph view) = zlen (execution_plan_ g).
Proof. intros Hv. unfold num_execution_nodes. simpl. by rewrite length_fmap, <- (Forall2_length _ _ _ (vo_nodes _ _ _ Hv)). Qed.
End seen_graph.

Section keeps_contract.
Context {W : Type} `{PlannerStore W} `{Platform} `{StdSort} `{UnorderedOrder}.
Implicit Types (c : TfLiteContext W) (g : Subgraph W).
#[local] Existing Instance arena_memory_planner.
Context (K : Contract (W := W)) (HK : ignores_planner K) (g : Subgraph W) (Hwf : well_formed g) (Hpn : plannable g).
Abbreviation KP := (with_planner_inv (zlen (execution_plan_ g)) K).

Lemma plan_keeps view c :
  inv KP false c → view_of g view c →
  wp (new_planner;; planner_PlanAllocations view) (λ _ c', silent KP false true c c') (λ _, False) c.
Proof.
  intros [HI Hh] Hv. simpl in Hh. apply wp_bind, wp_modify. set (w1 := store_planner _ _).
  pose proof (PlanAllocations_safe (interpreter_graph view) (length (tensors_ c)) (view_preserve_all_tensors view) (planner_sees (set_world w1 c))) as Hplan.
  assert (planner_of w1 = ArenaPlanner.new_planner (memory (planner_of (world c))) []) as Hnew by apply planner_of_store.
  unfold planner_sees in Hplan. simpl in Hplan. rewrite Hnew in Hplan. specialize (Hplan (view_plannable g view c Hwf Hpn Hv)).
  destruct (wp_no_error _ _ _ (Hplan ltac:(simpl; by rewrite length_fmap) ltac:(by split; [split; [|left|]|split; [|left|]|]))) as ([] & s' & Hrun & Hs').
  simpl. unfold wp, call_planner, planner_sees. simpl. rewrite Hnew, Hrun. rewrite (view_length _ _ _ Hv) in Hs'.
  assert (silent KP false true (set_world w1 c) (planner_leaves s' (set_world w1 c))) as [[Q1 Q2 Q3 Q4] S2 S3 S4].
  { apply leaves_silent; [done|apply Hs'|by eapply running_inv|done]. }
  split; [split|..]; try done.
  - intros _. apply Q2. split; [by eapply (ip_inv _ HK)|]. simpl. unfold w1. by rewrite planner_of_store.
  - intros j Hj. apply Q3. by apply (ip_computed _ HK).
  - intros j. rewrite S2. by apply (ip_priv _ HK).
Qed.

(** The planner keeps running and its memory. *)
Lemma leaves_running np s c :
  running (zlen (execution_plan_ g)) (length (tensors_ c)) np false s → np = has_memory (world c) →
  silent KP true true c (planner_leaves s c).
Proof.
  intros Hs ->. apply leaves_silent; [done|apply Hs|by eapply running_inv|]. intros _ Hm. split; [done|]. by apply (rn_memory _ _ _ _ _ Hs).
Qed.

Lemma execute_keeps view first last c :
  inv KP true c → view_of g view c → 0 ≤ first → 0 ≤ last < Z.max 1 (zlen (execution_plan_ g)) →
  wp (planner_ExecuteAllocations view first last)
    (λ st c', silent KP true true c c' ∧ (st = kTfLiteOk → has_memory (world c') = true)) (λ _, False) c.
Proof.
  intros HI Hv Hf Hl. simpl.
  eapply wp_post; [|apply (wp_call_planner (zlen (execution_plan_ g)) K (has_memory (world c)) _ (λ s, HasNonPersistentMemory s = true)); [exact HI|]].
  - intros st c' (s' & -> & Hs' & Hok). split; [by eapply leaves_running|]. intros Hst. unfold has_memory. simpl.
    rewrite planner_of_store. by apply Hok.
  - intros s Hs. apply ExecuteAllocations_safe; [by apply view_length with c| |done|lia|done].
    intros k t (nd & Hk & Ht). destruct (view_node _ _ _ _ _ Hv Hk) as (i & nr & x & _ & _ & _ & Hx & _ & _ & Etemp & _).
    rewrite Etemp in Ht. by eapply vo_temporaries.
Qed.

Lemma silent_planner (m : M ArenaPlanner unit) :
  (∀ len n np s, running len n np false s → wp m (λ _, running len n np false) (λ _, False) s) → silent_call KP true true (call_planner m).
Proof.
  intros Hm c HI. eapply wp_post; [|apply (wp_call_planner (zlen (execution_plan_ g)) K (has_memory (world c)) _ (λ _, True)); [exact HI|]].
  - intros st c' (s' & -> & Hs' & _). by eapply leaves_running.
  - intros s Hs. eapply wp_mono; [by apply Hm|by split|done].
Qed.

Lemma arena_planner_keeps : planner_ok KP g.
Proof.
  split.
  - exact plan_keeps.
  - exact execute_keeps.
  - apply silent_planner. intros. by apply ResetAllocations_safe.
  - intros k Hk. apply silent_planner. intros. by apply ResetAllocationsAfter_safe.
  - intros c HI. eapply wp_post; [|apply (wp_call_planner (zlen (execution_plan_ g)) K false _ (λ _, True)); [exact HI|]].
    + intros st c' (s' & -> & Hs' & _). apply leaves_quiet; [done|apply Hs'|by eapply running_inv].
    + intros s Hs. eapply wp_mono; [by eapply ReleaseNonPersistentMemory_safe|by split|done].
Qed.
End keeps_contract.

(** ** The claim *)

(** C38: The arena planner is what a subgraph expects of its planner: on every
    well-formed graph that can be planned, no call that the subgraph makes has undefined
    behaviour, whatever memory the platform grants and however many tensors have been
    added; the calls keep the shapes, what the kernels have set up and the memory until
    it is released, and after a successful [ExecuteAllocations] the memory is there. *)
Theorem arena_planner_ok {W} `{PlannerStore W} `{Platform} `{StdSort} `{UnorderedOrder} (K : Contract (W := W)) (g : Subgraph W) :
  ignores_planner K → well_formed g → plannable g →
  planner_ok (H := arena_memory_planner) (with_planner_inv (zlen (execution_plan_ g)) K) g.
Proof. intros HK Hwf Hpn. by apply arena_planner_keeps. Qed.
