(* ===== verification/SubgraphDelegateProofs.v ===== *)
(** * Delegates: what replacing nodes, undoing and errors leave of the graph *)

From S2P Require Import Prelude GraphPartition PartitionProofs ArenaPlanner Subgraph SubgraphExecution SubgraphDelegation SubgraphProofs SubgraphRunProofs.

(** ** Runs that return *)

Definition returns {S A} (m : M S A) (Q : A → S → Prop) (s : S) : Prop := ∀ a s', m s = Done a s' → Q a s'.

Section returns.
Context {S : Type}.

Lemma returns_bind {A B} (m : M S A) (k : A → M S B) Q s :
  returns m (λ a s', returns (k a) Q s') s → returns (m ≫= k) Q s.
Proof. unfold returns, mbind, M_bind. intros Hm b s'. destruct (m s) as [a s1| |]; [|done..]. by apply Hm. Qed.

Lemma returns_ret {A} (a : A) (Q : A → S → Prop) s : Q a s → returns (mret a) Q s.
Proof. by intros HQ b s' [= <- <-]. Qed.

Lemma returns_get (Q : S → S → Prop) s : Q s s → returns get Q s.
Proof. by intros HQ b s' [= <- <-]. Qed.

Lemma returns_gets {A} (f : S → A) (Q : A → S → Prop) s : Q (f s) s → returns (gets f) Q s.
Proof. by intros HQ b s' [= <- <-]. Qed.

Lemma returns_modify f (Q : unit → S → Prop) s : Q tt (f s) → returns (modify f) Q s.
Proof. by intros HQ b s' [= <- <-]. Qed.

Lemma returns_mono {A} (m : M S A) (Q Q' : A → S → Prop) s :
  (∀ a s', Q a s' → Q' a s') → returns m Q s → returns m Q' s.
Proof. intros Himp Hm a s' Ha. by apply Himp, Hm. Qed.

Lemma returns_keeps {A B} (f : S → B) (m : M S A) s : keeps f m → returns m (λ _ s', f s' = f s) s.
Proof. intros Hk a s' Ha. specialize (Hk s). by rewrite Ha in Hk. Qed.

Lemma returns_and {A} (m : M S A) (Q Q' : A → S → Prop) s :
  returns m Q s → returns m Q' s → returns m (λ a s', Q a s' ∧ Q' a s') s.
Proof. intros H1 H2 a s' Ha. split; [by apply H1|by apply H2]. Qed.

Lemma returns_ensure_status (m k : M S TfLiteStatus) Q s :
  returns m (λ st s', if decide (st = kTfLiteOk) then returns k Q s' else Q st s') s → returns (ensure_status m k) Q s.
Proof.
  intros Hm. apply returns_bind. eapply returns_mono; [|exact Hm]. intros st s' Hst. simpl in Hst.
  case_decide; [done|by apply returns_ret].
Qed.
End returns.

(** ** What is known of a delegated graph *)

Section errors.
Context {W : Type} `{MemoryPlanner W} `{CHeap W} `{Delegates W} `{StdSort} `{UnorderedOrder}.
Implicit Types (g : Subgraph W).

Definition pre_plan g : list Z := pre_delegation_execution_plan_ (delegation g).
Definition delegates g : list TfLiteDelegate := delegates_applied_ (delegation g).

(** The plan, the plan before delegation and the delegates. *)
Definition book g : list Z * list Z * list TfLiteDelegate * bool := (execution_plan_ g, pre_plan g, delegates g, undone g).

Lemma book_static : static (W := W) book.
Proof. by split. Qed.

Definition pages g : list Z * list TfLiteDelegate * bool := (pre_plan g, delegates g, undone g).

Lemma pages_static : static (W := W) pages.
Proof. by split. Qed.

#[local] Hint Resolve keeps_on_context keeps_update_execution keeps_set_state keeps_get_node keeps_vset_node
  keeps_put_node keeps_set_context keeps_set_nodes keeps_reset_flag keeps_view_nodes keeps_CreateGraphInfo
  keeps_PrepareOpsStartingAt book_static pages_static : frames.

Lemma pages_run_delegate d r : keeps pages (run_delegate d r).
Proof.
  assert (∀ ins outs init_data params registration, keeps pages (AddNodeWithParameters (W := W) ins outs init_data params registration)) as Hadd.
  { intros. unfold AddNodeWithParameters, CheckTensorIndices, CheckInputAndOutputForOverlap, OpInit. solve_keeps. }
  induction r as [status w|i l next IH|registration nodes w next IH]; simpl; [solve_keeps|..];
    unfold in_delegate_context, redirect, ReplaceNodeSubsetsWithDelegateKernels, PartitionGraph, InterpreterInfo,
      replace_subset, claim_output; solve_keeps; by try apply IH.
Qed.

Lemma UndoAllDelegates_returns g :
  returns UndoAllDelegates (λ st g', st = kTfLiteOk ∧
    (pre_plan g ≠ [] → execution_plan_ g' = pre_plan g ∧ pre_plan g' = [])) g.
Proof.
  unfold UndoAllDelegates. apply returns_bind, returns_get.
  destruct (bool_decide _) eqn:Hpre; [apply bool_decide_eq_true in Hpre; apply returns_ret; by unfold pre_plan|].
  apply returns_bind. intros [] g1 _. apply returns_bind, returns_modify.
  apply returns_bind. unfold update_delegation at 1. apply returns_modify.
  set (g2 := set_delegation _ _).
  assert (∀ g3, book g3 = book g2 → execution_plan_ g3 = pre_plan g ∧ pre_plan g3 = []) as Hbook.
  { intros g3 [= -> -> _ _]. done. }
  apply returns_bind. eapply returns_mono; [|apply (returns_keeps book); unfold remember_dequantize; solve_keeps].
  intros l g3 E3. apply returns_bind.
  eapply returns_mono; [|apply (returns_keeps book); unfold restore_inputs; solve_keeps].
  intros ? g4 E4. simpl in E4. apply returns_bind, returns_modify, returns_bind, returns_modify, returns_bind, returns_modify, returns_ret.
  split; [done|]. intros _. destruct (Hbook g4) as [Hp Hq]; [by rewrite E4, E3|]. split; [exact Hp|exact Hq].
Qed.
(** While the delegates are applied, [RedoAllDelegates] does nothing. *)
Lemma redo_agree bottom n : agree applied (RedoAllDelegates_over bottom n) (mret kTfLiteOk).
Proof. intros g Hg. by rewrite RedoAllDelegates_applied. Qed.

Lemma EnsureMemoryAllocations_returns bottom n g :
  applied g → returns (EnsureMemoryAllocations (RedoAllDelegates_over bottom n)) (λ _ g', book g' = book g) g.
Proof.
  intros Hg. unfold returns. rewrite (proj1 (EnsureMemoryAllocations_agree _ _ (redo_agree bottom n) g Hg)).
  apply (returns_keeps book). unfold EnsureMemoryAllocations, if_planner.
  pose proof (keeps_AllocateTensors book book_static (mret kTfLiteOk) (keeps_ret _ _)). solve_keeps.
Qed.

(** The plan is [orig] again and no delegate is applied. *)
Definition restored (orig : list Z) g : Prop :=
  orig ≠ [] → execution_plan_ g = orig ∧ pre_plan g = [] ∧ delegates g = [] ∧ undone g = false.

Lemma RemoveAllDelegates_returns bottom n g :
  returns (RemoveAllDelegates (RedoAllDelegates_over bottom n)) (λ _, restored (pre_plan g)) g.
Proof.
  unfold RemoveAllDelegates. apply returns_ensure_status. eapply returns_mono; [|apply UndoAllDelegates_returns].
  intros st g1 [-> Hu]. rewrite decide_True by done.
  apply returns_bind, returns_modify, returns_bind, returns_modify.
  eapply returns_mono; [|by apply EnsureMemoryAllocations_returns].
  intros st g2 [= Hp Hq Hd Hn] Hne. destruct (Hu Hne) as [Hp' Hq']. split_and!; [by rewrite Hp|by rewrite Hq|done..].
Qed.

(** Runs [m], which keeps the plan before delegation, and restores it on a failure. *)
Lemma reset_returns bottom n m g Q :
  returns m (λ st g', pre_plan g' = pre_plan g ∧ (st = kTfLiteOk → Q g')) g →
  returns (reset_delegation_if_not_ok (RedoAllDelegates_over bottom n) m)
    (λ st g', (st = kTfLiteOk ∧ Q g') ∨ (st ≠ kTfLiteOk ∧ restored (pre_plan g) g')) g.
Proof.
  intros Hm. apply returns_bind. eapply returns_mono; [|exact Hm]. intros st g1 [Hpre HQ].
  case_decide as Hst; [apply returns_ret; left; split; [done|by apply HQ]|].
  apply returns_ensure_status. eapply returns_mono; [|apply RemoveAllDelegates_returns].
  intros st' g2 Hr. rewrite Hpre in Hr. case_decide; [apply returns_ret; by right|by right].
Qed.

Lemma settle_state_returns bottom n dyn hint st g :
  applied g →
  returns (settle_state (RedoAllDelegates_over bottom n) dyn hint st)
    (λ s g', (s = kTfLiteOk ∧ pages g' = pages g ∧ (dyn = false → state_ (execution g') = kStateInvokableAndImmutable)) ∨
             (s ≠ kTfLiteOk ∧ restored (pre_plan g) g')) g.
Proof.
  intros Hg. assert (∀ g1, pages g1 = pages g → applied g1) as Happ.
  { intros g1 [= _ _ Hu]. unfold applied. by rewrite Hu. }
  assert (∀ g1, pages g1 = pages g → returns (EnsureMemoryAllocations (RedoAllDelegates_over bottom n))
            (λ s g', pre_plan g' = pre_plan g1 ∧ (s = kTfLiteOk → pages g' = pages g)) g1) as Hens.
  { intros g1 Hp1. eapply returns_mono; [|apply EnsureMemoryAllocations_returns; by apply Happ].
    intros s g' [= _ Hq Hd Hu]. split; [done|]. intros _. rewrite <- Hp1. unfold pages. by rewrite Hq, Hd, Hu. }
  assert (∀ g1, pages g1 = pages g → pre_plan g1 = pre_plan g) as Hpre by (by intros g1 [= -> _ _]).
  unfold settle_state. destruct dyn; simpl.
  - destruct st; [apply returns_ret; by left| |].
    + eapply returns_mono; [|apply (reset_returns bottom n _ g (λ g', pages g' = pages g)), Hens; done].
      intros s g' [[-> Hp]|Hr]; [left; by split_and!|by right].
    + apply returns_ensure_status.
      eapply returns_mono with (Q := λ s g', (s = kTfLiteOk ∧ pages g' = pages g) ∨ (s ≠ kTfLiteOk ∧ restored (pre_plan g) g')).
      2: { apply (reset_returns bottom n _ g (λ g', pages g' = pages g)). unfold prepare_all. eapply returns_mono; [|apply (returns_keeps pages); solve_keeps].
           intros s g' Hp. split; [by apply Hpre|done]. }
      intros s g1 [[-> Hp1]|[Hs Hr]]; [|rewrite decide_False by done; by right]. rewrite decide_True by done.
      apply returns_bind, returns_get. case_match.
      * apply returns_ensure_status. eapply returns_mono; [|apply RemoveAllDelegates_returns]. intros s g2 Hr.
        rewrite (Hpre g1 Hp1) in Hr. case_decide; [apply returns_ret; by right|by right].
      * apply returns_ensure_status.
        eapply returns_mono; [|apply (reset_returns bottom n _ g1 (λ g', pages g' = pages g)), Hens; done].
        intros s g2 [[-> Hp2]|[Hs Hr]]; [|rewrite decide_False by done; right; by rewrite <- (Hpre g1 Hp1)].
        rewrite decide_True by done. apply returns_bind, returns_modify, returns_ret. by left.
  - apply returns_ensure_status.
    eapply returns_mono with (Q := λ s g', (s = kTfLiteOk ∧ pages g' = pages g) ∨ (s ≠ kTfLiteOk ∧ restored (pre_plan g) g')).
    + intros s g1 [[-> Hp1]|[Hs Hr]]; [|rewrite decide_False by done; by right]. rewrite decide_True by done.
      apply returns_bind, returns_modify, returns_ret. by left.
    + destruct hint; [apply returns_ret; by left|]. apply returns_bind, returns_modify.
      set (g1 := set_execution _ g).
      exact (reset_returns bottom n _ g1 (λ g', pages g' = pages g) (Hens g1 eq_refl)).
Qed.
Lemma check_static_returns bottom n dyn hint g :
  applied g →
  returns (check_static (RedoAllDelegates_over bottom n) dyn hint) (λ _ g', book g' = book g) g.
Proof.
  intros Hg. unfold check_static. apply returns_bind, returns_get. case_decide.
  { apply returns_bind, returns_modify, returns_ret. done. }
  case_match; [|by apply returns_ret]. apply returns_ensure_status.
  eapply returns_mono; [|apply (returns_keeps book); unfold prepare_all; solve_keeps].
  intros s g1 Hb. simpl in Hb. case_decide; [|done]. apply returns_bind, returns_get. case_match; [|by apply returns_ret].
  apply returns_ensure_status. eapply returns_mono; [|apply EnsureMemoryAllocations_returns].
  - intros s' g2 Hb'. simpl in Hb'. case_decide; [apply returns_ret|]; congruence.
  - unfold applied. injection Hb as _ _ _ Hu. by rewrite Hu.
Qed.

(** The plan to go back to: the one before the first delegate. *)
Definition original_plan g : list Z := if bool_decide (delegates g = []) then execution_plan_ g else pre_plan g.

(** How [ModifyGraphWithDelegate] can end. *)
Inductive modified (d : TfLiteDelegate) g : TfLiteStatus → Subgraph W → Prop :=
| Modified g' :
    delegates g' = delegates g ++ [d] → pre_plan g' = original_plan g → undone g' = false →
    (has_flag (delegate_flags d) kTfLiteDelegateFlagsAllowDynamicTensors = false →
     state_ (execution g') = kStateInvokableAndImmutable) →
    modified d g kTfLiteOk g'
| Refused st g' : st ≠ kTfLiteOk → book g' = book g → modified d g st g'
| Restored st g' : st ≠ kTfLiteOk → restored (original_plan g) g' → modified d g st g'
| Abandoned g' :
    has_flag (delegate_flags d) kTfLiteDelegateFlagsHintFullyDelegatedToSingleDelegate = true →
    IsFullyDelegated g' = Done false g' → delegates g' = delegates g → modified d g kTfLiteApplicationError g'.

Lemma IsFullyDelegated_pure g : returns IsFullyDelegated (λ b g', g' = g ∧ IsFullyDelegated g = Done b g) g.
Proof.
  intros b g' Hb. pose proof (keeps_IsFullyDelegated id g) as Hk. rewrite Hb in Hk. unfold id in Hk. by subst.
Qed.

Lemma ModifyGraphWithDelegate_returns bottom n d g :
  applied g → returns (ModifyGraphWithDelegateImpl (RedoAllDelegates_over bottom n) (Some d)) (modified d g) g.
Proof.
  intros Hg. unfold ModifyGraphWithDelegateImpl.
  apply returns_ensure_status. unfold returns at 1. rewrite (RedoAllDelegates_applied bottom n g Hg). intros st g' [= <- <-].
  rewrite decide_True by done. apply returns_bind, returns_gets. cbv zeta.
  set (dyn := has_flag _ kTfLiteDelegateFlagsAllowDynamicTensors). set (hint := has_flag _ _).
  apply returns_ensure_status. eapply returns_mono; [|by apply check_static_returns].
  intros st g1 Hb. simpl in Hb. case_decide as Hst; [|by apply Refused].
  apply returns_bind, returns_modify. set (g2 := if bool_decide _ then _ else _).
  assert (pages g2 = (original_plan g, delegates g, false)) as Hp2.
  { injection Hb as Hpl Hpr Hd Hu. unfold g2, pages, original_plan, applied, delegates, pre_plan, undone in *. rewrite Hd.
    case_bool_decide; simpl; congruence. }
  apply returns_bind. eapply returns_mono; [|apply (returns_keeps pages); unfold SwitchToDelegateContext, update_delegation; solve_keeps].
  intros ? g3 E3. simpl in E3. rewrite Hp2 in E3. apply returns_bind, returns_get, returns_bind.
  eapply returns_mono; [|apply (returns_keeps pages), pages_run_delegate]. intros status g4 E4. simpl in E4. rewrite E3 in E4.
  apply returns_bind. eapply returns_mono; [|apply (returns_keeps pages); unfold SwitchToKernelContext, update_delegation; solve_keeps].
  intros ? g5 E5. simpl in E5. rewrite E4 in E5. assert (pre_plan g5 = original_plan g) as Hpre5 by (by injection E5).
  apply returns_ensure_status.
  eapply returns_mono; [|apply (reset_returns bottom n _ g5 (λ g', pages g' = pages g5)); by apply returns_ret].
  intros st' g6 [[-> E6]|[Hne Hr]]; [|rewrite decide_False by done; rewrite Hpre5 in Hr; by apply Restored].
  rewrite decide_True by done. rewrite E5 in E6. apply returns_bind.
  eapply returns_mono with (Q := λ b g', g' = g6 ∧ (hint = true → IsFullyDelegated g6 = Done b g6)).
  2: { destruct hint; [|by apply returns_ret]. eapply returns_mono; [|apply IsFullyDelegated_pure]. naive_solver. }
  intros fully g7 [-> Hfully]. destruct (hint && negb fully) eqn:Hhint.
  { apply returns_ret. apply andb_true_iff in Hhint as [Hh Hf%negb_true_iff]. rewrite Hf in Hfully.
    apply Abandoned; [done|by apply Hfully|]. by injection E6. }
  assert (applied g6) as Hg6 by (by injection E6).
  apply returns_ensure_status. eapply returns_mono; [|by apply settle_state_returns].
  intros s g7 [(-> & E7 & Him)|[Hne Hr]].
  2: { rewrite decide_False by done. apply Restored; [done|]. by injection E6 as <- _ _. }
  rewrite decide_True by done. rewrite E6 in E7. injection E7 as Hpre7 Hd7 Hu7.
  apply returns_bind, returns_modify, returns_ret. apply Modified; [|done..]. unfold delegates in *. simpl. by rewrite Hd7.
Qed.

(** How the delegates [ds] are applied one after the other, until one fails. *)
Inductive reapplied : list TfLiteDelegate → Subgraph W → TfLiteStatus → Subgraph W → Prop :=
| AllApplied g : reapplied [] g kTfLiteOk g
| NextApplied d ds g g1 st g' : modified d g kTfLiteOk g1 → reapplied ds g1 st g' → reapplied (d :: ds) g st g'
| NextFailed d ds g st g' : st ≠ kTfLiteOk → modified d g st g' → reapplied (d :: ds) g st g'.

(** The graph without the delegates that were undone. *)
Definition cleared g : Subgraph W := set_delegation (with_applied [] (with_undone false (delegation g))) g.

Lemma modified_applied d g g' : modified d g kTfLiteOk g' → applied g'.
Proof. by inversion 1. Qed.

Lemma reapplied_returns bottom n ds g :
  applied g →
  returns (for_status ds (λ d, ModifyGraphWithDelegateImpl (RedoAllDelegates_over bottom n) (Some d)))
    (λ st g', reapplied ds g st g' ∧ (st = kTfLiteOk → applied g')) g.
Proof.
  revert g. induction ds as [|d ds IH]; intros g Hg; cbn [for_status]; [apply returns_ret; split; [constructor|done]|].
  apply returns_ensure_status. eapply returns_mono; [|by apply ModifyGraphWithDelegate_returns].
  intros st g1 Hst. simpl in Hst. case_decide as Hok; [|split; [by apply NextFailed|done]]. subst.
  eapply returns_mono; [|apply IH; by eapply modified_applied]. intros st g' [Hr Ha]. split; [by eapply NextApplied|done].
Qed.

(** Delegates that were undone are applied again first. *)
Definition modified_after_redo (d : TfLiteDelegate) g (st : TfLiteStatus) (g' : Subgraph W) : Prop :=
  if undone g
  then (st ≠ kTfLiteOk ∧ reapplied (delegates g) (cleared g) st g') ∨
       ∃ g1, reapplied (delegates g) (cleared g) kTfLiteOk g1 ∧ modified d g1 st g'
  else modified d g st g'.

Lemma redo_returns bottom n g :
  returns (RedoAllDelegates_over bottom (S n))
    (λ st g1, (if undone g then reapplied (delegates g) (cleared g) st g1 else st = kTfLiteOk ∧ g1 = g) ∧
              (st = kTfLiteOk → applied g1)) g.
Proof.
  destruct (undone g) eqn:Hu; [|intros st g1; rewrite RedoAllDelegates_applied by done; by intros [= <- <-]].
  cbn [RedoAllDelegates_over]. apply returns_bind, returns_get. unfold undone in Hu. rewrite Hu. cbn [negb].
  apply returns_bind, returns_modify, returns_bind, returns_modify. by apply reapplied_returns.
Qed.

Lemma ensure_status_run {S} (m k : M S TfLiteStatus) s :
  (m ;! k) s = match m s with
               | Done st s' => if decide (st = kTfLiteOk) then k s' else Done st s'
               | Error s' => Error s'
               | Undefined => Undefined
               end.
Proof. unfold ensure_status, mbind, M_bind. destruct (m s); [by case_decide|done..]. Qed.

(** What happens once the delegates are applied again. *)
Lemma after_redo bottom n d g :
  let modify := ModifyGraphWithDelegateImpl (RedoAllDelegates_over bottom (S n)) (Some d) in
  modify g = match RedoAllDelegates_over bottom (S n) g with
             | Done st g1 => if decide (st = kTfLiteOk) then modify g1 else Done st g1
             | Error g1 => Error g1
             | Undefined => Undefined
             end.
Proof.
  pose proof (redo_returns bottom n g) as Hredo. unfold returns in Hredo. cbv zeta. unfold ModifyGraphWithDelegateImpl. rewrite !ensure_status_run.
  destruct (RedoAllDelegates_over bottom (S n) g) as [st g1| |]; [|done..].
  case_decide as Hok; [|done]. subst. destruct (Hredo kTfLiteOk g1 eq_refl) as [_ Ha].
  rewrite ensure_status_run, RedoAllDelegates_applied by auto. by rewrite decide_True.
Qed.

Lemma delegated_returns bottom n d g :
  returns (ModifyGraphWithDelegateImpl (RedoAllDelegates_over bottom (S n)) (Some d)) (modified_after_redo d g) g.
Proof.
  pose proof (redo_returns bottom n g) as Hredo. unfold returns in Hredo. pose proof (after_redo bottom n d g) as Hafter. unfold modified_after_redo, returns.
  destruct (RedoAllDelegates_over bottom (S n) g) as [st g1|g1|]; [|by rewrite Hafter..].
  destruct (Hredo st g1 eq_refl) as [Hre Ha]. rewrite Hafter. intros st' g'. cbv zeta. case_decide as Hok.
  - subst. intros Hd%(ModifyGraphWithDelegate_returns bottom (S n) d g1); [|by apply Ha].
    destruct (undone g); [right; by exists g1|]. by destruct Hre as [_ ->].
  - intros [= <- <-]. destruct (undone g); [by left|]. by destruct Hre.
Qed.

Lemma ModifyGraphWithDelegate_bottom bottom bottom' n n' d g :
  ModifyGraphWithDelegateImpl (RedoAllDelegates_over bottom (S n)) (Some d) g =
  ModifyGraphWithDelegateImpl (RedoAllDelegates_over bottom' (S n')) (Some d) g.
Proof.
  pose proof (after_redo bottom n d g) as Ha. pose proof (after_redo bottom' n' d g) as Ha'.
  pose proof (redo_returns bottom n g) as Hredo. unfold returns in Hredo. rewrite <- (RedoAllDelegates_settles bottom bottom' n n' g) in Ha'.
  destruct (RedoAllDelegates_over bottom (S n) g) as [st g1|g1|]; [|congruence..].
  rewrite Ha, Ha'. case_decide as Hok; [|done]. destruct (Hredo st g1 eq_refl) as [_ Happ].
  by apply ModifyGraphWithDelegateImpl_agree; [apply RedoAllDelegates_agree|apply Happ].
Qed.
End errors.

(** ** Replacing nodes *)

Section replacing.
Context {W : Type} `{MemoryPlanner W} `{CHeap W} `{Delegates W} `{StdSort} `{UnorderedOrder}.
Implicit Types (g : Subgraph W) (b : NodeSubset).

Definition plan_readable g : Prop := ∀ i, i ∈ execution_plan_ g → ∃ nr, node_at g i = Some nr ∧ arrays_freed nr.1 = false.

(** The graph that is partitioned. *)
Definition info_of g : GraphPartition.GraphInfo :=
  {| GraphPartition.num_tensors := zlen (tensors_ (context_ g));
     GraphPartition.num_total_nodes := zlen (nodes_and_registration_ g);
     GraphPartition.execution_nodes := omap (λ i, (λ nr, partition_node nr.1) <$> node_at g i) (execution_plan_ g);
     GraphPartition.node_index := execution_plan_ g;
     GraphPartition.graph_outputs := outputs_ (config g) |}.

Lemma wp_InterpreterInfo g :
  plan_readable g → wp InterpreterInfo (λ info g', g' = g ∧ info = info_of g) (λ _, False) g.
Proof.
  intros Hp. unfold InterpreterInfo. wp_steps.
  assert (∀ l, (∀ i, i ∈ l → ∃ nr, node_at g i = Some nr ∧ arrays_freed nr.1 = false) →
    wp (view_nodes l) (λ ns g', g' = g ∧ partition_node <$> ns.*1 = omap (λ i, (λ nr, partition_node nr.1) <$> node_at g i) l)
      (λ _, False) g) as Hview.
  { intros l. induction l as [|i l IH]; intros Hl; cbn [view_nodes]; [by apply wp_ret|].
    destruct (Hl i ltac:(by left)) as (nr & Hn & Hf). apply wp_bind. eapply wp_get_node; [done..|].
    apply wp_bind. eapply wp_post; [|apply IH; intros j Hj; apply Hl; by right]. intros ns g' [-> Hns].
    apply wp_ret. split; [done|]. cbn [omap list_omap]. rewrite Hn. simpl. by f_equal. }
  eapply wp_post; [|by apply Hview]. intros ns g' [-> Hns]. apply wp_ret. split; [done|]. unfold info_of. by rewrite Hns.
Qed.

Definition control_edges_of g : list ControlEdge :=
  default (default_control_edges (info_of g) (negb (DisableDelegateClustering g))) (control_edges_ (config g)).

Definition partition_of g (ns : list Z) (gs : list (list Z)) (bs : list NodeSubset) : Prop :=
  partitioned (info_of g) (populate_node_types (info_of g) ns) (negb (DisableDelegateClustering g))
    (Uniquefy edge_lt (control_edges_of g)) (ShouldPreserveAllTensors g) gs bs ∧ ∀ b, b ∈ bs → typed_by ns b.

(** A node or an edge is not in range, or nodes wait for each other. *)
Definition unpartitionable g (ns : list Z) : Prop :=
  ValidateNodesToPartition (info_of g) ns = false ∨ ValidateControlEdges (info_of g) (control_edges_of g) = false ∨
  ∃ stuck, deadlock (info_of g) (Uniquefy edge_lt (control_edges_of g)) stuck.

Lemma wp_PartitionGraph g ns :
  plan_readable g → valid_graph (info_of g) →
  wp (PartitionGraph ns)
    (λ o g', g' = g ∧ match o with Some bs => ∃ gs, partition_of g ns gs bs | None => unpartitionable g ns end) (λ _, False) g.
Proof.
  intros Hp Hv. unfold PartitionGraph. wp_steps. eapply wp_post; [|by apply wp_InterpreterInfo]. intros info g' [-> ->].
  pose proof (partition_spec (info_of g) ns (negb (DisableDelegateClustering g)) (control_edges_ (config g))
    (ShouldPreserveAllTensors g) no_partitioner Hv) as Hw. unfold wp in Hw.
  destruct (PartitionGraphIntoIndependentNodeSubsets _ _ _ _ _ _) as [u p|p|]; [|by apply wp_ret|done].
  apply wp_ret. split; [done|]. destruct Hw as [[gs Hgs] Hty]. by exists gs.
Qed.

(** The plan with a kernel for each subset that the delegate takes; [next] is the
    index of the first. *)
Fixpoint new_plan (bs : list NodeSubset) (next : Z) : list Z :=
  match bs with
  | [] => []
  | b :: bs' =>
      if decide (GraphPartition.type b = kTfPartition) then next :: new_plan bs' (next + 1)
      else GraphPartition.nodes b ++ new_plan bs' next
  end.

Definition taken (bs : list NodeSubset) : list NodeSubset := filter (λ b, GraphPartition.type b = kTfPartition) bs.
Definition claimed (bs : list NodeSubset) : list Z := concat (output_tensors <$> taken bs).

(** A kernel of delegate [d] for the subset. *)
Record kernel_for (d : TfLiteDelegate) (registration : TfLiteRegistration W) b (nr : TfLiteNode * TfLiteRegistration W) : Prop := {
  kf_inputs : inputs nr.1 = input_tensors b;
  kf_outputs : outputs nr.1 = output_tensors b;
  kf_params : builtin_data nr.1 = Some (CreateDelegateParams d b);
  kf_delegate : delegate nr.1 = Some d;
  kf_readable : arrays_freed nr.1 = false;
  kf_registration : nr.2 = as_delegate_op registration
}.

(** After the subsets [bs] have been dealt with. *)
Record replaced g (d : TfLiteDelegate) (registration : TfLiteRegistration W) (bs : list NodeSubset) g' : Prop := {
  re_plan : execution_plan_ g' = new_plan bs (zlen (nodes_and_registration_ g));
  re_nodes : ∃ ks, nodes_and_registration_ g' = nodes_and_registration_ g ++ ks ∧ Forall2 (kernel_for d registration) (taken bs) ks;
  re_length : zlen (tensors_ (context_ g')) = zlen (tensors_ (context_ g));
  re_tensors t x : zget (tensors_ (context_ g)) t = Some x →
    zget (tensors_ (context_ g')) t = Some (if decide (t ∈ claimed bs) then set_delegate (Some d) x else x);
  re_config : config g' = config g;
  re_delegation : delegation g' = delegation g;
  re_mutable : state_ (execution g') ≠ kStateInvokableAndImmutable
}.
Lemma wp_CheckTensorIndices l g :
  (∀ t, t ∈ l → t = GraphPartition.kTfLiteOptionalTensor ∨ 0 ≤ t < zlen (tensors_ (context_ g))) →
  wp (CheckTensorIndices l) (λ st g', st = kTfLiteOk ∧ g' = g) (λ _, False) g.
Proof.
  intros Hl. unfold CheckTensorIndices. induction l as [|t l IH]; cbn [for_status]; [by apply wp_ret|].
  apply wp_ensure_status. eapply wp_post with (Q := λ st g', st = kTfLiteOk ∧ g' = g).
  - intros st g' [-> ->]. rewrite decide_True by done. apply IH. intros u Hu. apply Hl. by right.
  - destruct (Z.eqb_spec t kTfLiteOptionalTensor) as [|Hne]; [by apply wp_ret|]. wp_steps.
    destruct (Hl t ltac:(by left)) as [?|Hr]; [done|].
    rewrite (proj2 (Z.ltb_ge t 0)), (proj2 (Z.leb_gt _ t)) by lia. by apply wp_ret.
Qed.

Lemma wp_overlap l1 l2 g :
  (∀ t, t ∈ l1 → t ∉ l2) → wp (CheckInputAndOutputForOverlap l1 l2) (λ st g', st = kTfLiteOk ∧ g' = g) (λ _, False) g.
Proof.
  intros Hd. unfold CheckInputAndOutputForOverlap. induction l1 as [|t l1 IH]; cbn [for_status]; [by apply wp_ret|].
  apply wp_ensure_status. eapply wp_post with (Q := λ st g', st = kTfLiteOk ∧ g' = g).
  - intros st g' [-> ->]. rewrite decide_True by done. apply IH. intros u Hu. apply Hd. by right.
  - specialize (Hd t ltac:(by left)). clear IH. induction l2 as [|u l2 IH]; cbn [for_status]; [by apply wp_ret|].
    apply not_elem_of_cons in Hd as [Hne Hd]. rewrite (proj2 (Z.eqb_neq t u)) by done.
    apply wp_ensure_status, wp_ret. rewrite decide_True by done. by apply IH.
Qed.

(** The kernels of the registration initialise. *)
Definition initialises (registration : TfLiteRegistration W) : Prop := ∀ f, init registration = Some f →
  ∀ buffer w, ∃ u w', f buffer w = Done (Some u) w'.

Lemma wp_OpInit registration buffer g :
  initialises registration →
  wp (OpInit registration buffer) (λ o g', is_Some o ∧ ∃ w', g' = set_context (set_world w' (context_ g)) g) (λ _, False) g.
Proof.
  intros Hi. unfold OpInit. destruct (init registration) as [f|] eqn:Hf.
  - apply wp_zoom, wp_zoom. destruct (Hi f Hf buffer (world (context_ g))) as (u & w' & Hrun). unfold wp.
    rewrite Hrun. split; [done|by exists w'].
  - apply wp_ret. split; [done|]. exists (world (context_ g)). by destruct g as [[] ? ? ? ? ?].
Qed.

(** A node is added at the end of the nodes and of the plan. *)
Record added (ins outs : list Z) (params : option BuiltinData) (registration : TfLiteRegistration W) g g' : Prop := {
  ad_node : ∃ n, nodes_and_registration_ g' = nodes_and_registration_ g ++ [(n, registration)] ∧
    inputs n = ins ∧ outputs n = outs ∧ builtin_data n = params ∧ delegate n = None ∧ arrays_freed n = false;
  ad_plan : execution_plan_ g' = execution_plan_ g ++ [zlen (nodes_and_registration_ g)];
  ad_tensors : tensors_ (context_ g') = tensors_ (context_ g);
  ad_config : config g' = config g;
  ad_delegation : delegation g' = delegation g;
  ad_state : state_ (execution g') = kStateUninvokable
}.

Lemma zget_last {A} (l : list A) x : zget (l ++ [x]) (zlen l) = Some x.
Proof. unfold zget. rewrite (proj2 (Z.leb_le 0 _)), Nat2Z.id by lia. by apply list_lookup_middle. Qed.

Lemma zset_last {A} (l : list A) x y : zset (zlen l) y (l ++ [x]) = l ++ [y].
Proof. unfold zset. rewrite Nat2Z.id, insert_app_r_alt, Nat.sub_diag by lia. done. Qed.

Lemma wp_AddNodeWithParameters ins outs params registration g :
  state_ (execution g) ≠ kStateInvokableAndImmutable → initialises registration →
  (∀ t, t ∈ ins ++ outs → t = GraphPartition.kTfLiteOptionalTensor ∨ 0 ≤ t < zlen (tensors_ (context_ g))) →
  (∀ t, t ∈ ins → t ∉ outs) →
  wp (AddNodeWithParameters ins outs None (Some params) registration)
    (λ st g', st = kTfLiteOk ∧ added ins outs (Some params) registration g g') (λ _, False) g.
Proof.
  intros Hst Hinit Hr Hd. unfold AddNodeWithParameters. wp_steps. rewrite decide_False by done.
  apply wp_bind, wp_modify. set (g1 := set_execution _ g).
  apply wp_ensure_status. eapply wp_post; [|apply wp_CheckTensorIndices; intros t Ht; apply Hr; set_solver].
  intros st g' [-> ->]. rewrite decide_True by done.
  apply wp_ensure_status. eapply wp_post; [|apply wp_CheckTensorIndices; intros t Ht; apply Hr; set_solver].
  intros st g' [-> ->]. rewrite decide_True by done.
  apply wp_ensure_status. eapply wp_post; [|by apply wp_overlap].
  intros st g' [-> ->]. rewrite decide_True by done.
  wp_steps. eapply wp_post; [|by apply wp_OpInit]. intros o g2 [[u ->] [w' ->]].
  wp_steps. apply wp_bind. eapply wp_vset_Some; [simpl; apply zget_last|]. wp_steps. split; [done|].
  split; simpl; try done. rewrite zset_last. eexists. split; [done|]. done.
Qed.
(** Tensors of [l] belong to the delegate. *)
Record claims (d : TfLiteDelegate) (l : list Z) g g' : Prop := {
  cl_length : zlen (tensors_ (context_ g')) = zlen (tensors_ (context_ g));
  cl_tensors t x : zget (tensors_ (context_ g)) t = Some x →
    zget (tensors_ (context_ g')) t = Some (if decide (t ∈ l) then set_delegate (Some d) x else x);
  cl_nodes : nodes_and_registration_ g' = nodes_and_registration_ g;
  cl_plan : execution_plan_ g' = execution_plan_ g;
  cl_config : config g' = config g;
  cl_delegation : delegation g' = delegation g;
  cl_execution : execution g' = execution g
}.

(** A tensor belongs to another delegate. *)
Definition conflict (d : TfLiteDelegate) g : Prop := ∃ t x e,
  zget (tensors_ (context_ g)) t = Some x ∧ tensor_delegate x = Some e ∧ e ≠ d.

Lemma wp_claim_output d t x g :
  zget (tensors_ (context_ g)) t = Some x →
  wp (claim_output d t)
    (λ st g', if decide (st = kTfLiteOk) then g' = set_context (set_tensors (zset t (set_delegate (Some d) x) (tensors_ (context_ g))) (context_ g)) g
              else st = kTfLiteError ∧ conflict d g) (λ _, False) g.
Proof.
  intros Hx. unfold claim_output. apply wp_bind. eapply zoom_get; [done|]. apply wp_ensure_status, wp_ret.
  destruct (bool_decide (tensor_delegate x = None) || bool_decide (tensor_delegate x = Some d)) eqn:Hfree; simpl.
  - apply wp_bind, wp_zoom. eapply wp_put_tensor; [done|]. by apply wp_ret.
  - split; [done|]. apply orb_false_iff in Hfree as [Hn%bool_decide_eq_false Hd%bool_decide_eq_false].
    destruct (tensor_delegate x) as [e|] eqn:He; [|done]. exists t, x, e. split_and!; [done..|]. congruence.
Qed.

Lemma wp_claims d l g :
  (∀ t, t ∈ l → 0 ≤ t < zlen (tensors_ (context_ g))) →
  wp (for_status l (claim_output d))
    (λ st g', if decide (st = kTfLiteOk) then claims d l g g' else st = kTfLiteError ∧ conflict d g) (λ _, False) g.
Proof.
  intros Hr. apply (wp_for_status (λ done g', claims d done g g') (λ st _, st = kTfLiteError ∧ conflict d g)).
  { by split. }
  intros done t todo g' -> [C1 C2 C3 C4 C5 C6 C7].
  destruct (zget_is_Some (tensors_ (context_ g)) t) as [x Hx]; [apply Hr; set_solver|].
  pose proof (C2 t x Hx) as Hx'. eapply wp_post; [|by apply wp_claim_output]. intros st g'' Hst. simpl in Hst. case_decide.
  - subst g''. split; simpl; try done.
    + by rewrite zset_length.
    + intros u y Hy. pose proof (zget_range _ _ _ Hx'). pose proof (zget_range _ _ _ Hy).
      destruct (decide (u = t)) as [->|Hne].
      * rewrite zget_zset_eq by done. rewrite Hx in Hy. injection Hy as ->. rewrite (decide_True (P := t ∈ done ++ [t])) by set_solver.
        by case_decide.
      * rewrite zget_zset_ne by lia. rewrite (C2 u y Hy). repeat case_decide; try done; set_solver.
  - destruct Hst as [-> (u & y & e & Hy & He & Hne)]. split; [done|].
    assert (0 ≤ u < zlen (tensors_ (context_ g))) as Hu by (rewrite <- C1; by eapply zget_range).
    destruct (zget_is_Some _ _ Hu) as [z Hz]. pose proof (C2 u z Hz) as Hz'. rewrite Hy in Hz'. injection Hz' as ->.
    exists u, z, e. split_and!; [done| |done]. case_decide; simpl in He; [congruence|done].
Qed.

Lemma claimed_app bs b :
  claimed (bs ++ [b]) = claimed bs ++ if decide (GraphPartition.type b = kTfPartition) then output_tensors b else [].
Proof.
  unfold claimed, taken. rewrite filter_app, filter_cons, filter_nil, fmap_app, concat_app. f_equal. case_decide; simpl; [|done].
  by rewrite app_nil_r.
Qed.

Lemma new_plan_app bs b k :
  new_plan (bs ++ [b]) k = new_plan bs k ++
    if decide (GraphPartition.type b = kTfPartition) then [k + zlen (taken bs)] else GraphPartition.nodes b.
Proof.
  revert k. induction bs as [|b' bs IH]; intros k; cbn [new_plan app].
  - unfold taken. simpl. case_decide; [f_equal; lia|by rewrite app_nil_r].
  - unfold taken in *. rewrite filter_cons. destruct (decide (GraphPartition.type b' = kTfPartition)) as [|]; rewrite IH.
    + simpl. f_equal. f_equal. case_decide; [f_equal; lia|done].
    + by rewrite app_assoc.
Qed.

(** A subset the delegate may take: its boundary can be named. *)
Definition good_subset g b : Prop :=
  GraphPartition.type b ≠ kTfUnexplored ∧
  (∀ t, t ∈ input_tensors b ++ output_tensors b → 0 ≤ t < zlen (tensors_ (context_ g))) ∧
  ∀ t, t ∈ input_tensors b → t ∉ output_tensors b.

Lemma conflict_back d registration bs g g' : replaced g d registration bs g' → conflict d g' → conflict d g.
Proof.
  intros [_ _ Hlen Ht _ _ _] (t & x & e & Hx & He & Hne).
  destruct (zget_is_Some (tensors_ (context_ g)) t) as [y Hy]; [rewrite <- Hlen; by eapply zget_range|].
  specialize (Ht t y Hy). rewrite Hx in Ht. injection Ht as ->. exists t, y, e. split_and!; [done| |done].
  case_decide; simpl in He; [congruence|done].
Qed.

Lemma wp_replace_subset d registration done b g g' :
  initialises registration → good_subset g b → replaced g d registration done g' →
  wp (replace_subset (as_delegate_op registration) d b)
    (λ st g'', if decide (st = kTfLiteOk) then replaced g d registration (done ++ [b]) g'' else st = kTfLiteError ∧ conflict d g)
    (λ _, False) g'.
Proof.
  intros Hinit (Hty & Hr & Hdis) Hre. pose proof Hre as [R1 [ks [R2 Rk]] R3 R4 R5 R6 R7].
  unfold replace_subset. destruct (GraphPartition.type b) eqn:Hb; [done| |].
  - wp_steps. apply wp_ensure_status. eapply wp_post; [|apply wp_AddNodeWithParameters; [done..| |done]].
    2: { intros t Ht. right. rewrite R3. by apply Hr. }
    intros st g1 [-> [(n & N1 & N2 & N3 & N4 & N5 & N6) A2 A3 A4 A5 A6]]. rewrite decide_True by done.
    apply wp_ensure_status. eapply wp_post; [|apply wp_claims].
    2: { intros t Ht. rewrite A3, R3. apply Hr. set_solver. }
    intros st g2 Hst. simpl in Hst. case_decide as Hok.
    2: { destruct Hst as [-> (t & x & e & Hx & He & Hne)]. split; [done|].
         eapply conflict_back; [exact Hre|]. exists t, x, e. by rewrite <- A3. }
    destruct Hst as [C1 C2 C3 C4 C5 C6 C7].
    assert (node_at g2 (zlen (nodes_and_registration_ g')) = Some (n, as_delegate_op registration)) as Hn.
    { unfold node_at. rewrite C3, N1. apply zget_last. }
    apply wp_bind. eapply wp_get_node; [done|exact N6|]. apply wp_bind. unfold put_node.
    apply wp_bind. eapply wp_vget_Some; [exact Hn|]. eapply wp_vset_Some; [exact Hn|]. apply wp_ret.
    rewrite decide_True by done. rewrite C3, N1, zset_last. cbn [fst snd]. split; simpl.
    + rewrite C4, A2, R1, new_plan_app, Hb, decide_True by done. f_equal. f_equal. rewrite R2, length_app.
      rewrite (Forall2_length _ _ _ Rk). lia.
    + exists (ks ++ [(set_node_delegate (Some d) n, as_delegate_op registration)]). split; [by rewrite R2, app_assoc|].
      unfold taken. rewrite filter_app, filter_cons, filter_nil, decide_True by done. apply Forall2_app; [done|].
      repeat constructor; simpl; congruence.
    + by rewrite C1, A3, R3.
    + intros t x Hx. rewrite claimed_app, Hb, (decide_True (P := kTfPartition = kTfPartition)) by done. rewrite <- A3 in R4. rewrite (C2 _ _ (R4 _ _ Hx)).
      repeat case_decide; try done; set_solver.
    + by rewrite C5, A4.
    + by rewrite C6, A5.
    + by rewrite C7, A6.
  - apply wp_bind, wp_modify, wp_ret. rewrite decide_True by done. split; simpl; try done.
    + by rewrite R1, new_plan_app, Hb, decide_False by done.
    + exists ks. split; [done|]. unfold taken. rewrite filter_app, filter_cons, filter_nil, Hb, decide_False, app_nil_r by done. done.
    + intros t x Hx. rewrite claimed_app, Hb, (decide_False (P := kTfNonPartition = kTfPartition)), app_nil_r by done. by apply R4.
Qed.
Lemma partition_good g ns gs bs b : valid_graph (info_of g) → partition_of g ns gs bs → b ∈ bs → good_subset g b.
Proof.
  intros [V1 V2 _ _ _ _] [[P1 _ P3 P4 P5 _ _ _ _] Hty] Hb. pose proof (Hty b Hb) as Htb.
  apply list_elem_of_lookup in Hb as [k Hk].
  assert (∃ grp, gs !! k = Some grp) as [grp Hg] by (apply lookup_lt_is_Some; rewrite <- P1; by apply lookup_lt_Some in Hk).
  split_and!.
  - destruct Htb as [[-> _]|[-> _]]; done.
  - intros t [Ht|Ht]%elem_of_app.
    + apply (P4 k grp b t Hg Hk) in Ht as [(i & _ & Hrd) _]. exact (V1 _ _ Hrd).
    + apply (P5 k grp b t Hg Hk) in Ht as [(i & _ & Hwr) _]. exact (V2 _ _ Hwr).
  - intros t Ht1 Ht2. apply (P4 k grp b t Hg Hk) in Ht1 as [_ Hno]. apply (P5 k grp b t Hg Hk) in Ht2 as [Hwr _]. done.
Qed.

Lemma wp_Replace g ns d registration :
  plan_readable g → valid_graph (info_of g) → state_ (execution g) ≠ kStateInvokableAndImmutable → initialises registration →
  ns ≠ [] →
  wp (ReplaceNodeSubsetsWithDelegateKernels registration ns d)
    (λ st g', (st = kTfLiteOk ∧ ∃ gs bs, partition_of g ns gs bs ∧ replaced g d registration bs g') ∨
              (st = kTfLiteError ∧ ((g' = g ∧ unpartitionable g ns) ∨ conflict d g))) (λ _, False) g.
Proof.
  intros Hp Hv Hst Hinit Hns. unfold ReplaceNodeSubsetsWithDelegateKernels. rewrite bool_decide_false by done.
  apply wp_bind. eapply wp_post; [|by apply wp_PartitionGraph]. intros o g1 [-> Ho].
  destruct o as [bs|]; [|apply wp_ret; auto]. destruct Ho as [gs Hgs].
  apply wp_bind, wp_modify.
  eapply wp_post; [|apply (wp_for_status (λ done g', replaced g d registration done g') (λ st _, st = kTfLiteError ∧ conflict d g))].
  - intros st g' Hpost. simpl in Hpost. case_decide; [left; split; [done|by exists gs, bs]|right; naive_solver].
  - split; simpl; try done. exists []. by rewrite app_nil_r.
  - intros done b todo g' Hbs Hre. apply wp_replace_subset; [done| |done].
    eapply partition_good; [done..|]. rewrite Hbs. set_solver.
Qed.

(** The nodes that node [i] of the new plan stands for; [n0] is where the kernels
    start. *)
Definition expand (n0 : Z) (nodes : list (TfLiteNode * TfLiteRegistration W)) (i : Z) : list Z :=
  if i <? n0 then [i]
  else match zget nodes i with
       | Some ({| builtin_data := Some (DelegateParams _ l _ _) |}, _) => l
       | _ => [i]
       end.

Lemma expand_kernel n0 nodes i d registration b nr :
  n0 ≤ i → zget nodes i = Some nr → kernel_for d registration b nr → expand n0 nodes i = GraphPartition.nodes b.
Proof.
  intros Hi Hn [_ _ Hp _ _ _]. unfold expand. rewrite (proj2 (Z.ltb_ge i n0)), Hn by done. destruct nr as [[] r]. simpl in *.
  by subst.
Qed.

Lemma expand_old n0 nodes l : (∀ x, x ∈ l → x < n0) → concat (expand n0 nodes <$> l) = l.
Proof.
  intros Hl. induction l as [|x l IH]; [done|]. cbn [fmap list_fmap concat]. unfold expand at 1.
  rewrite (proj2 (Z.ltb_lt x n0)) by (apply Hl; by left). simpl. f_equal. apply IH. intros y Hy. apply Hl. by right.
Qed.

Lemma expand_plan d registration bs ks (olds : list (TfLiteNode * TfLiteRegistration W)) n0 nodes :
  Forall2 (kernel_for d registration) (taken bs) ks → nodes = olds ++ ks → n0 ≤ zlen olds →
  (∀ b x, b ∈ bs → x ∈ GraphPartition.nodes b → x < n0) →
  concat (expand n0 nodes <$> new_plan bs (zlen olds)) = concat (GraphPartition.nodes <$> bs).
Proof.
  intros Hk Hnodes Hn0 Hx. revert ks olds Hk Hnodes Hn0. induction bs as [|b bs IH]; intros ks olds Hk Hnodes Hn0; [done|].
  assert (∀ b x, b ∈ bs → x ∈ GraphPartition.nodes b → x < n0) as Hx' by (intros b' x Hb'; apply Hx; by right).
  cbn [new_plan]. unfold taken in Hk. rewrite filter_cons in Hk. cbn [fmap list_fmap concat]. case_decide.
  - destruct ks as [|k ks']; [by apply Forall2_cons_nil_inv in Hk|]. apply Forall2_cons in Hk as [Hkb Hks'].
    subst nodes. cbn [fmap list_fmap concat]. f_equal.
    + eapply expand_kernel; [done| |exact Hkb]. unfold zget. rewrite (proj2 (Z.leb_le 0 _)), Nat2Z.id by lia.
      by apply list_lookup_middle.
    + specialize (IH Hx' ks' (olds ++ [k])). rewrite length_app in IH. simpl in IH.
      replace (zlen olds + 1) with (Z.of_nat (length olds + 1)) by lia. apply IH; [done| |lia]. by rewrite <- app_assoc.
  - rewrite fmap_app, concat_app. f_equal; [|by apply (IH Hx' ks)]. apply expand_old. intros x. apply Hx. by left.
Qed.

Lemma new_plan_elem bs k x :
  x < k → x ∈ new_plan bs k ↔ ∃ b, b ∈ bs ∧ GraphPartition.type b ≠ kTfPartition ∧ x ∈ GraphPartition.nodes b.
Proof.
  revert k. induction bs as [|b bs IH]; intros k Hxk; cbn [new_plan].
  { split; [by intros ?%elem_of_nil|]. intros (b & Hb & _). by apply elem_of_nil in Hb. }
  case_decide as Hb.
  - rewrite elem_of_cons, IH by lia. split; [intros [?|(b' & ? & ?)]; [lia|exists b'; split; [by right|done]]|].
    intros (b' & [->|Hin]%elem_of_cons & ? & ?); [done|]. right. by exists b'.
  - rewrite elem_of_app, IH by lia. split.
    + intros [Hx|(b' & ? & ?)]; [exists b; split; [by left|done]|exists b'; split; [by right|done]].
    + intros (b' & [->|Hin]%elem_of_cons & ? & ?); [by left|]. right. by exists b'.
Qed.
(** The new plan stands for the old nodes in an order that respects what they depend
    on, and the kernels are exactly where the delegate's nodes were. *)
Record plan_replaced g (d : TfLiteDelegate) (ns : list Z) g' : Prop := {
  pr_order : ∃ order, order ≡ₚ range 0 (zlen (execution_plan_ g)) ∧
    concat (expand (zlen (nodes_and_registration_ g)) (nodes_and_registration_ g') <$> execution_plan_ g') =
      original (info_of g) <$> order ∧
    ∀ pre i post j, order = pre ++ i :: post →
      depends (info_of g) (Uniquefy edge_lt (control_edges_of g)) i j → j ∈ pre;
  pr_rest x : x ∈ execution_plan_ g → x ∈ execution_plan_ g' ↔ x ∉ ns;
  pr_old i nr : node_at g i = Some nr → node_at g' i = Some nr;
  pr_kernel i nr : node_at g' i = Some nr → node_at g i = None →
    delegate nr.1 = Some d ∧ arrays_freed nr.1 = false ∧
    ∀ t, t ∈ outputs nr.1 → ∃ x, zget (tensors_ (context_ g')) t = Some x ∧ tensor_delegate x = Some d
}.

Lemma taken_elem bs b : b ∈ taken bs ↔ GraphPartition.type b = kTfPartition ∧ b ∈ bs.
Proof. unfold taken. by rewrite list_elem_of_filter. Qed.

Lemma replaced_plan g ns d registration gs bs g' :
  valid_graph (info_of g) → partition_of g ns gs bs → replaced g d registration bs g' → plan_replaced g d ns g'.
Proof.
  intros Hv Hpart Hre. pose proof Hv as [_ V2 _ V4 V5 V6]. pose proof Hpart as [[P1 P2 P3 P4 P5 _ P7 _ _] Hty].
  pose proof Hre as [R1 [ks [R2 Rk]] R3 R4 R5 R6 R7].
  assert (length (execution_nodes (info_of g)) = length (execution_plan_ g)) as Hlen by (by rewrite <- V4).
  assert (∀ k grp b, gs !! k = Some grp → bs !! k = Some b → GraphPartition.nodes b = original (info_of g) <$> grp) as Hnodes.
  { intros k grp b Hg Hb. by destruct (P3 k grp b Hg Hb) as (_ & ? & _). }
  assert (concat (GraphPartition.nodes <$> bs) = original (info_of g) <$> concat gs) as Hconcat.
  { clear -P1 Hnodes. revert gs P1 Hnodes. induction bs as [|b bs IH]; intros [|grp gs] P1 Hnodes; try done.
    cbn [fmap list_fmap concat]. rewrite fmap_app. f_equal; [by apply (Hnodes 0%nat)|].
    apply IH; [by injection P1|]. intros k. apply (Hnodes (S k)). }
  assert (∀ i, i ∈ concat gs → original (info_of g) i ∈ execution_plan_ g) as Horig.
  { intros i Hi. rewrite P2 in Hi. apply elem_of_range in Hi. unfold GraphPartition.num_execution_nodes in Hi. rewrite Hlen in Hi.
    unfold original. simpl. eapply zget_elem, vat_zget. lia. }
  assert (∀ b x, b ∈ bs → x ∈ GraphPartition.nodes b → x ∈ execution_plan_ g) as Hin.
  { intros b x Hb Hx. assert (x ∈ concat (GraphPartition.nodes <$> bs)) as Hx'.
    { apply list_elem_of_In, in_concat. exists (GraphPartition.nodes b). split; apply list_elem_of_In; [by apply list_elem_of_fmap_2|done]. }
    rewrite Hconcat in Hx'. apply list_elem_of_fmap in Hx' as (i & -> & Hi). by apply Horig. }
  assert (∀ x, x ∈ execution_plan_ g → 0 ≤ x < zlen (nodes_and_registration_ g)) as Hrange by exact V5.
  split.
  - exists (concat gs). split_and!.
    + rewrite P2. unfold GraphPartition.num_execution_nodes. by rewrite Hlen.
    + rewrite R1, <- Hconcat. eapply expand_plan; [exact Rk|exact R2|lia|]. intros b x Hb Hx.
      by apply Hrange, (Hin b).
    + intros pre i post j Heq Hd. by eapply P7.
  - intros x Hx. rewrite R1, new_plan_elem by by apply Hrange. split.
    + intros (b & Hb & Hnp & Hxb). destruct (Hty b Hb) as [[? _]|[_ Hno]]; [done|by apply Hno].
    + intros Hns. apply list_elem_of_lookup in Hx as [k Hk]. pose proof (lookup_lt_Some _ _ _ Hk) as Hlt.
      assert (x ∈ concat (GraphPartition.nodes <$> bs)) as Hx'.
      { rewrite Hconcat. apply list_elem_of_fmap. exists (Z.of_nat k). split.
        - unfold original, vat, zget. simpl. rewrite (proj2 (Z.leb_le 0 _)), Nat2Z.id, Hk by lia. done.
        - rewrite P2. apply elem_of_range. unfold GraphPartition.num_execution_nodes. rewrite Hlen. lia. }
      apply list_elem_of_In, in_concat in Hx' as (l & Hl & Hxl). apply list_elem_of_In in Hl, Hxl.
      apply list_elem_of_fmap in Hl as (b & -> & Hb). exists b. split_and!; [done| |done].
      destruct (Hty b Hb) as [[_ Hall]|[-> _]]; [by specialize (Hall x Hxl)|done].
  - intros i nr Hi. unfold node_at in *. rewrite R2. unfold zget in *. case_match; [|done]. by apply lookup_app_l_Some.
  - intros i nr Hi Hno. unfold node_at in *. rewrite R2 in Hi. unfold zget in *. case_match; [|done].
    apply lookup_ge_None in Hno. rewrite lookup_app_r in Hi by done.
    destruct (Forall2_lookup_r _ _ _ _ _ Rk Hi) as (b & Hb & [K1 K2 K3 K4 K5 K6]). split_and!; [done..|].
    intros t Ht. rewrite K2 in Ht. apply list_elem_of_lookup_2, taken_elem in Hb as [Htype Hb].
    destruct (partition_good g ns gs bs b Hv Hpart Hb) as (_ & Hr & _).
    destruct (zget_is_Some (tensors_ (context_ g)) t) as [x Hx]; [apply Hr; set_solver|].
    specialize (R4 t x Hx). rewrite decide_True in R4; [by eexists|].
    unfold claimed. apply list_elem_of_In, in_concat. exists (output_tensors b).
    split; apply list_elem_of_In; [|done]. apply list_elem_of_fmap_2. by apply taken_elem.
Qed.
End replacing.


(** C24: how [ModifyGraphWithDelegate] ends, if what it calls has no undefined behaviour.
    Delegates that were undone are applied again first, one after the other in their
    order until one fails, each with one of the endings that follow. If it succeeds,
    the delegate is the last of the applied ones and the plan to go back to is the one
    before the first delegate; a delegate without dynamic shapes leaves the graph
    immutable. If it fails, plan and delegates are as they were, or the original plan is
    back and no delegate is applied, or the delegate was hinted to take the whole graph
    and has not. The nesting of the calls does not matter: no outcome depends on what
    [bottom] stands for those below the first. *)
Theorem ModifyGraphWithDelegate_outcome {W} `{MemoryPlanner W} `{CHeap W} `{Delegates W} `{StdSort} `{UnorderedOrder}
    bottom n d (g : Subgraph W) :
  ModifyGraphWithDelegateImpl (RedoAllDelegates_over bottom (redo_depth + n)) (Some d) g = ModifyGraphWithDelegate (Some d) g ∧
  returns (ModifyGraphWithDelegate (Some d)) (modified_after_redo d g) g.
Proof. split; [apply ModifyGraphWithDelegate_bottom|apply (delegated_returns undefined 0)]. Qed.
