(* ===== verification/SubgraphUndoProofs.v ===== *)
(** * Undoing delegates

    [UndoAllDelegates] gives back the graph that the delegates were applied to: its
    plan, and its nodes with the inputs they had before delegates redirected them to
    half-precision tensors. *)

From S2P Require Import Prelude GraphPartition PartitionProofs ArenaPlanner Subgraph SubgraphExecution SubgraphDelegation SubgraphProofs SubgraphRunProofs SubgraphDelegateProofs.

Section undo.
Context {W : Type} `{MemoryPlanner W} `{CHeap W} `{Delegates W} `{StdSort} `{UnorderedOrder}.
Implicit Types (g : Subgraph W) (nr : TfLiteNode * TfLiteRegistration W).

Definition is_dequantize nr : Prop := builtin_code nr.2 = kTfLiteBuiltinDequantize.

Definition type_at g t : option TfLiteType := type <$> zget (tensors_ (context_ g)) t.

(** A node of the plan converts the half-precision tensor [s] to [t]. *)
Definition dequantizes g s t : Prop := ∃ i nr, i ∈ execution_plan_ g ∧ node_at g i = Some nr ∧
  is_dequantize nr ∧ inputs nr.1 = [s] ∧ outputs nr.1 = [t] ∧ type_at g s = Some kTfLiteFloat16.

(** A graph without delegates; what its converted half-precision tensors are used
    for. *)
Record original_graph g : Prop := {
  og_node i : i ∈ execution_plan_ g → ∃ nr, node_at g i = Some nr ∧ arrays_freed nr.1 = false ∧ delegate nr.1 = None;
  og_nodup : NoDup (execution_plan_ g);
  og_input i nr t : node_at g i = Some nr → t ∈ inputs nr.1 →
    (t = kTfLiteOptionalTensor ∧ ¬ is_dequantize nr) ∨ 0 ≤ t < zlen (tensors_ (context_ g));
  og_unique s t t' : dequantizes g s t → dequantizes g s t' → t = t';
  og_converted i nr s t : i ∈ execution_plan_ g → node_at g i = Some nr → ¬ is_dequantize nr → s ∈ inputs nr.1 → ¬ dequantizes g s t
}.

(** An input of a node before and after delegation. *)
Definition redirected g0 (t u : Z) : Prop := u = t ∨ dequantizes g0 u t.

Record node_kept g0 (i : Z) nr0 nr : Prop := {
  nk_registration : nr.2 = nr0.2;
  nk_outputs : outputs nr.1 = outputs nr0.1;
  nk_delegate : delegate nr.1 = delegate nr0.1;
  nk_freed : arrays_freed nr.1 = arrays_freed nr0.1;
  nk_inputs : Forall2 (redirected g0) (inputs nr0.1) (inputs nr.1);
  nk_same : i ∉ execution_plan_ g0 ∨ is_dequantize nr0 → inputs nr.1 = inputs nr0.1
}.

(** The original graph [g0] with delegates applied. *)
Record delegated g0 g : Prop := {
  dg_old i nr0 : node_at g0 i = Some nr0 → ∃ nr, node_at g i = Some nr ∧ node_kept g0 i nr0 nr;
  dg_nodup : NoDup (execution_plan_ g);
  dg_plan i : i ∈ execution_plan_ g → is_Some (node_at g i);
  dg_kernel i nr : i ∈ execution_plan_ g → node_at g i = Some nr → is_Some (delegate nr.1) →
    zlen (nodes_and_registration_ g0) ≤ i ∧ arrays_freed nr.1 = false;
  dg_types t : 0 ≤ t < zlen (tensors_ (context_ g0)) → type_at g t = type_at g0 t;
  dg_length : zlen (tensors_ (context_ g0)) ≤ zlen (tensors_ (context_ g))
}.

(** Freeing the state of a kernel works. *)
Definition frees nr : Prop := ∀ f, free nr.2 = Some f → ∀ buffer w, ∃ w', f buffer w = Done tt w'.

(** ** Freeing the kernels *)

Definition only_world g g' : Prop :=
  ∃ w', context_ g' = set_world w' (context_ g) ∧ execution_plan_ g' = execution_plan_ g ∧ config g' = config g ∧
        delegation g' = delegation g ∧ execution g' = execution g.

Lemma only_world_refl g : only_world g g.
Proof. exists (world (context_ g)). by destruct g as [[] ? ? ? ? ?]. Qed.

Lemma only_world_trans g1 g2 g3 : only_world g1 g2 → only_world g2 g3 → only_world g1 g3.
Proof.
  intros (w1 & C1 & P1 & F1 & D1 & E1) (w2 & C2 & P2 & F2 & D2 & E2). exists w2.
  rewrite C2, C1, P2, P1, F2, F1, D2, D1, E2, E1. done.
Qed.

(** Node [i] is freed, the others are kept. *)
Definition freed_at i g g' : Prop :=
  only_world g g' ∧ (∀ j, j ≠ i → node_at g' j = node_at g j) ∧
  zlen (nodes_and_registration_ g') = zlen (nodes_and_registration_ g).

Lemma wp_free_delegate_node i nr g :
  node_at g i = Some nr → (is_Some (delegate nr.1) → arrays_freed nr.1 = false) → frees nr →
  wp (free_delegate_node i)
    (λ _ g', freed_at i g g' ∧ (delegate nr.1 = None → node_at g' i = Some nr)) (λ _, False) g.
Proof.
  intros Hi Hf Hfree. unfold free_delegate_node. apply wp_bind. eapply wp_vget_Some; [exact Hi|].
  destruct (delegate nr.1) as [d|] eqn:Hd; [|apply wp_ret; split; [split_and!; [apply only_world_refl|done..]|done]].
  unfold CleanupNode. apply wp_bind. eapply wp_get_node; [done|by apply Hf|].
  apply wp_bind. eapply wp_post with (Q := λ _ g', ∃ w', g' = set_context (set_world w' (context_ g)) g).
  - intros ? g1 [w' ->]. unfold put_node. apply wp_bind. eapply wp_vget_Some; [exact Hi|]. eapply wp_vset_Some; [exact Hi|].
    split; [|done]. split_and!; simpl; [by exists w'| |by rewrite zset_length].
    intros j Hj. unfold node_at in *. simpl. pose proof (zget_range _ _ _ Hi). by rewrite zget_zset_ne by lia.
  - assert (∃ w', g = set_context (set_world w' (context_ g)) g) as Hid.
    { exists (world (context_ g)). by destruct g as [[] ? ? ? ? ?]. }
    unfold OpFree. destruct (free nr.2) as [f|] eqn:Hfr; [|by apply wp_ret]. case_match; [by apply wp_ret|].
    apply wp_zoom, wp_zoom. destruct (Hfree f Hfr (user_data nr.1) (world (context_ g))) as [w' Hw]. unfold wp. rewrite Hw. by exists w'.
Qed.

Lemma wp_free_kernels g0 g :
  delegated g0 g → (∀ i nr, node_at g i = Some nr → frees nr) →
  wp (for_each (execution_plan_ g) free_delegate_node)
    (λ _ g', only_world g g' ∧ (∀ i nr, 0 ≤ i < zlen (nodes_and_registration_ g0) → node_at g i = Some nr → node_at g' i = Some nr) ∧
       zlen (nodes_and_registration_ g') = zlen (nodes_and_registration_ g))
    (λ _, False) g.
Proof.
  intros Hg Hfr. eapply wp_post; [|apply (wp_for_each (λ done g',
    only_world g g' ∧ (∀ i nr, node_at g i = Some nr →
      (i ∉ done → node_at g' i = Some nr) ∧ (i < zlen (nodes_and_registration_ g0) → i ∈ execution_plan_ g → node_at g' i = Some nr)) ∧
    zlen (nodes_and_registration_ g') = zlen (nodes_and_registration_ g)))].
  - simpl. intros [] g' (Hw & Hn & Hlen). split_and!; [done| |done]. intros i nr Hr Hi.
    destruct (Hn i nr Hi) as [Hn1 Hn2]. destruct (decide (i ∈ execution_plan_ g)); [by apply Hn2; [lia|]|by apply Hn1].
  - split_and!; [apply only_world_refl|by auto|done].
  - intros done i todo g' Hplan (Hw & Hn & Hlen).
    assert (i ∈ execution_plan_ g) as Hip by (rewrite Hplan; set_solver).
    destruct (dg_plan _ _ Hg i Hip) as [nr Hi].
    assert (i ∉ done) as Hnd. { pose proof (dg_nodup _ _ Hg) as Hnodup. rewrite Hplan in Hnodup. apply NoDup_app in Hnodup. set_solver. }
    pose proof (proj1 (Hn i nr Hi) Hnd) as Hi'.
    eapply wp_post; [|apply (wp_free_delegate_node i nr); [done| |by eapply Hfr]].
    2: { intros Hd. by apply (dg_kernel _ _ Hg i nr). }
    intros ? g'' [[Hw' [Hother Hlen']] Hkeep]. simpl in *. split_and!; [by eapply only_world_trans| |congruence].
    intros j nrj Hj. destruct (Hn j nrj Hj) as [Hn1 Hn2]. split.
    + intros Hjd. rewrite Hother by set_solver. apply Hn1. set_solver.
    + intros Hlt Hjp. destruct (decide (j = i)) as [->|Hne]; [|rewrite Hother by done; by apply Hn2].
      rewrite Hi in Hj. injection Hj as <-. apply Hkeep. destruct (delegate nr.1) eqn:Hd; [|done].
      destruct (dg_kernel _ _ Hg i nr Hip Hi) as [Hge _]; [by rewrite Hd|]. lia.
Qed.
(** ** Restoring the inputs *)

(** What the kernels left of the graph. *)
Record kept g0 g : Prop := {
  kp_old i nr0 : node_at g0 i = Some nr0 → ∃ nr, node_at g i = Some nr ∧ node_kept g0 i nr0 nr;
  kp_types t : 0 ≤ t < zlen (tensors_ (context_ g0)) → type_at g t = type_at g0 t;
  kp_length : zlen (tensors_ (context_ g0)) ≤ zlen (tensors_ (context_ g))
}.

Definition deq_in g0 (done : list Z) s t : Prop := ∃ i nr0, i ∈ done ∧ node_at g0 i = Some nr0 ∧
  is_dequantize nr0 ∧ inputs nr0.1 = [s] ∧ outputs nr0.1 = [t] ∧ type_at g0 s = Some kTfLiteFloat16.

(** The map that the first pass builds, up to the nodes in [done]. *)
Definition remembers g0 g (done m : list Z) : Prop :=
  zlen m = zlen (tensors_ (context_ g)) ∧ ∀ s, 0 ≤ s < zlen m →
    (∀ t, deq_in g0 done s t → zget m s = Some t) ∧ ((∀ t, ¬ deq_in g0 done s t) → zget m s = Some s).

Lemma type_at_range g t ty : type_at g t = Some ty → 0 ≤ t < zlen (tensors_ (context_ g)).
Proof. unfold type_at. destruct (zget _ t) eqn:Ht; [|done]. intros _. by eapply zget_range. Qed.

Lemma deq_in_app g0 done i s t nr0 :
  node_at g0 i = Some nr0 →
  deq_in g0 (done ++ [i]) s t ↔ deq_in g0 done s t ∨
    (is_dequantize nr0 ∧ inputs nr0.1 = [s] ∧ outputs nr0.1 = [t] ∧ type_at g0 s = Some kTfLiteFloat16).
Proof.
  intros Hi. split.
  - intros (j & nr & [Hj| ->%list_elem_of_singleton]%elem_of_app & Hnr & Hr); [left; by exists j, nr|right].
    rewrite Hi in Hnr. by injection Hnr as <-.
  - intros [(j & nr & Hj & Hr)|Hr]; [exists j, nr; split; [set_solver|done]|exists i, nr0; split; [set_solver|done]].
Qed.

(** A node that converts nothing leaves the map. *)
Lemma remembers_skip g0 g done i nr0 m :
  node_at g0 i = Some nr0 →
  (∀ s t, ¬ (is_dequantize nr0 ∧ inputs nr0.1 = [s] ∧ outputs nr0.1 = [t] ∧ type_at g0 s = Some kTfLiteFloat16)) →
  remembers g0 g done m → remembers g0 g (done ++ [i]) m.
Proof.
  intros Hi Hno [Hlen Hm]. split; [done|]. intros s Hs. destruct (Hm s Hs) as [Hm1 Hm2]. split.
  - intros t Ht. apply Hm1. rewrite (deq_in_app g0 done i s t nr0 Hi) in Ht. destruct Ht as [?|Ht]; [done|by apply Hno in Ht].
  - intros Hnone. apply Hm2. intros t Ht. apply (Hnone t). rewrite (deq_in_app g0 done i s t nr0 Hi). by left.
Qed.

Lemma wp_remember g0 g :
  original_graph g0 → kept g0 g →
  wp (fold_m (execution_plan_ g0) (range 0 (zlen (tensors_ (context_ g)))) remember_dequantize)
    (λ m g', g' = g ∧ remembers g0 g (execution_plan_ g0) m) (λ _, False) g.
Proof.
  intros Ho Hk. apply (wp_fold_m (λ done m g', g' = g ∧ remembers g0 g done m)).
  - split; [done|]. split; [rewrite range_length; lia|]. intros s Hs. rewrite range_length in Hs.
    split; [intros t (i & nr & Hi & _); by apply elem_of_nil in Hi|]. intros _. unfold zget, range.
    rewrite (proj2 (Z.leb_le 0 s)) by lia. apply lookup_seqZ. lia.
  - intros done i todo m g' Hplan [-> Hm]. assert (i ∈ execution_plan_ g0) as Hi by (rewrite Hplan; set_solver).
    destruct (og_node _ Ho i Hi) as (nr0 & Hn0 & Hf0 & _). destruct (kp_old _ _ Hk i nr0 Hn0) as (nr & Hn & [Nr No Nd Nf Ni Ns]).
    unfold remember_dequantize. apply wp_bind. eapply wp_get_node; [done|congruence|]. rewrite No, Nr.
    assert (∀ a b, inputs nr.1 = a → (builtin_code nr0.2 =? kTfLiteBuiltinDequantize) = b → b = true → inputs nr0.1 = a) as Hsame.
    { intros a b Ha Hb ->. apply Z.eqb_eq in Hb. rewrite <- Ns; [done|by right]. }
    assert (∀ s t, is_dequantize nr0 → inputs nr0.1 = [s] → outputs nr0.1 = [t] → inputs nr.1 = [s]) as Hsame'.
    { intros s t Hd Hin _. by rewrite Ns by (by right). }
    assert ((∀ s t, ¬ (is_dequantize nr0 ∧ inputs nr0.1 = [s] ∧ outputs nr0.1 = [t])) →
            remembers g0 g (done ++ [i]) m) as Hskip.
    { intros Hno. eapply remembers_skip; [done| |done]. intros s t (? & ? & ? & _). by apply (Hno s t). }
    destruct (inputs nr.1) as [|s [|]] eqn:Hins.
    1, 3: apply wp_ret; split; [done|]; apply Hskip; intros s' t' (Hd & Hin & Hout); by specialize (Hsame' s' t' Hd Hin Hout).
    destruct (outputs nr0.1) as [|t [|]] eqn:Hout.
    1, 3: apply wp_ret; split; [done|]; apply Hskip; by intros s' t' (_ & _ & ?).
    destruct (builtin_code nr0.2 =? kTfLiteBuiltinDequantize) eqn:Hcode.
    2: { apply wp_ret. split; [done|]. apply Hskip. intros s' t' (Hd & _). unfold is_dequantize in Hd. by rewrite Hd in Hcode. }
    pose proof (Hsame _ _ eq_refl eq_refl eq_refl) as Hin0. apply Z.eqb_eq in Hcode.
    destruct (og_input _ Ho i nr0 s Hn0) as [[_ Hnd]|Hs]; [rewrite Hin0; by left|done|].
    pose proof (kp_length _ _ Hk) as Hlen. destruct (zget_is_Some (tensors_ (context_ g)) s ltac:(lia)) as [x Hx].
    apply wp_bind. eapply zoom_get; [done|]. apply wp_ret. split; [done|].
    assert (type_at g0 s = Some (type x)) as Hty by (rewrite <- (kp_types _ _ Hk s Hs); unfold type_at; by rewrite Hx).
    case_decide as Hfp.
    2: { eapply remembers_skip; [done| |done]. intros s' t' (_ & Hin & _ & Hty'). rewrite Hin0 in Hin. injection Hin as ->. congruence. }
    destruct Hm as [Hml Hm]. split; [by rewrite zset_length|]. intros s' Hs'. rewrite zset_length in Hs'.
    assert (∀ t', deq_in g0 (done ++ [i]) s t' → t' = t) as Huniq.
    { intros t' Ht'. apply (og_unique _ Ho s).
      - destruct Ht' as (j & nrj & Hj & Hr). exists j, nrj. split; [rewrite Hplan; set_solver|done].
      - exists i, nr0. split_and!; [done..|congruence]. }
    destruct (decide (s' = s)) as [->|Hne].
    + rewrite zget_zset_eq by done. split; [intros t' Ht'; f_equal; symmetry; by apply Huniq|].
      intros Hnone. exfalso. apply (Hnone t). rewrite (deq_in_app g0 done i s t nr0 Hn0). right. split_and!; [done..|congruence].
    + rewrite zget_zset_ne by lia. destruct (Hm s' Hs') as [Hm1 Hm2]. split.
      * intros t' Ht'. apply Hm1. rewrite (deq_in_app g0 done i s' t' nr0 Hn0) in Ht'.
        destruct Ht' as [?|(_ & Hin & _)]; [done|]. rewrite Hin0 in Hin. by injection Hin.
      * intros Hnone. apply Hm2. intros t' Ht'. apply (Hnone t'). rewrite (deq_in_app g0 done i s' t' nr0 Hn0). by left.
Qed.
Lemma dequantizes_deq_in g0 s t : dequantizes g0 s t ↔ deq_in g0 (execution_plan_ g0) s t.
Proof. done. Qed.

(** The second pass on the inputs of a node. *)
Lemma wp_remap_inputs g0 g m i nr0 :
  original_graph g0 → kept g0 g → remembers g0 g (execution_plan_ g0) m → i ∈ execution_plan_ g0 →
  node_at g0 i = Some nr0 → ¬ is_dequantize nr0 →
  ∀ l0 l, (∀ t, t ∈ l0 → t ∈ inputs nr0.1) → Forall2 (redirected g0) l0 l →
  wp (remap_inputs m l) (λ l' c', l' = l0 ∧ c' = context_ g) (λ _, False) (context_ g).
Proof.
  intros Ho Hk [Hlen Hm] Hi Hn0 Hnd l0 l Hin Hred. pose proof (kp_length _ _ Hk) as Hlen0.
  induction Hred as [|t u l0 l Htu _ IH]; cbn [remap_inputs]; [by apply wp_ret|].
  assert (∀ t, t ∈ l0 → t ∈ inputs nr0.1) as Hin' by (intros v Hv; apply Hin; by right). specialize (IH Hin').
  apply wp_bind. eapply wp_post with (Q := λ x c', x = t ∧ c' = context_ g).
  { intros x c' [-> ->]. apply wp_bind. eapply wp_post; [|exact IH]. intros xs c' [-> ->]. by apply wp_ret. }
  assert (t ∈ inputs nr0.1) as Ht by (apply Hin; by left).
  assert (∀ v, 0 ≤ v < zlen (tensors_ (context_ g0)) →
    (type_at g0 v = Some kTfLiteFloat16 → zget m v = Some t) → (type_at g0 v ≠ Some kTfLiteFloat16 → v = t) →
    wp (t' ← get_tensor v; if decide (type t' = kTfLiteFloat16) then deref (zget m v) else mret v)
      (λ x c', x = t ∧ c' = context_ g) (λ _, False) (context_ g)) as Hstep.
  { intros v Hv Hfp Hnfp. destruct (zget_is_Some (tensors_ (context_ g)) v ltac:(lia)) as [x Hx].
    assert (type_at g0 v = Some (type x)) as Hty by (rewrite <- (kp_types _ _ Hk v Hv); unfold type_at; by rewrite Hx).
    apply wp_bind. eapply wp_read_tensor; [done|]. case_decide as Hc.
    - eapply wp_deref; [apply Hfp; congruence|done].
    - apply wp_ret. split; [|done]. apply Hnfp. congruence. }
  destruct Htu as [->|Hdeq].
  - destruct (Z.eqb_spec t kTfLiteOptionalTensor) as [|Hne]; [by apply wp_ret|].
    destruct (og_input _ Ho i nr0 t Hn0 Ht) as [[? _]|Hr]; [done|]. apply Hstep; [done| |done].
    intros Hfp. apply Hm; [lia|]. intros t' Hd. by apply (og_converted _ Ho i nr0 t t' Hi Hn0 Hnd Ht).
  - pose proof Hdeq as (_ & _ & _ & _ & _ & _ & _ & Hty). pose proof (type_at_range _ _ _ Hty) as Hr.
    rewrite (proj2 (Z.eqb_neq u kTfLiteOptionalTensor)) by (unfold kTfLiteOptionalTensor; lia).
    apply Hstep; [done| |done]. intros _. by apply Hm; [lia|].
Qed.

(** The inputs of the nodes of the plan are the original ones; [done] have been
    restored. *)
Definition restored_inputs g0 g (done : list Z) g' : Prop :=
  kept g0 g' ∧ context_ g' = context_ g ∧ execution_plan_ g' = execution_plan_ g ∧ config g' = config g ∧
  delegation g' = delegation g ∧ execution g' = execution g ∧
  zlen (nodes_and_registration_ g') = zlen (nodes_and_registration_ g) ∧
  ∀ i nr0, i ∈ done → node_at g0 i = Some nr0 → ∃ nr, node_at g' i = Some nr ∧ inputs nr.1 = inputs nr0.1.

Lemma wp_restore_inputs g0 g m done i todo g' :
  original_graph g0 → remembers g0 g (execution_plan_ g0) m → execution_plan_ g0 = done ++ i :: todo →
  restored_inputs g0 g done g' →
  wp (restore_inputs m i) (λ _, restored_inputs g0 g (done ++ [i])) (λ _, False) g'.
Proof.
  intros Ho Hm Hplan (Hk & Hc & Hp & Hf & Hd & He & Hl & Hdone).
  assert (i ∈ execution_plan_ g0) as Hi by (rewrite Hplan; set_solver).
  destruct (og_node _ Ho i Hi) as (nr0 & Hn0 & Hf0 & _). destruct (kp_old _ _ Hk i nr0 Hn0) as (nr & Hn & Hnk).
  pose proof Hnk as [Nr No Nd Nf Ni Ns].
  unfold restore_inputs. apply wp_bind. eapply wp_get_node; [done|congruence|]. rewrite Nr.
  destruct (Z.eqb_spec (builtin_code nr0.2) kTfLiteBuiltinDequantize) as [Hdq|Hdq].
  { apply wp_ret. split_and!; try done. intros j nrj [Hj| ->%list_elem_of_singleton]%elem_of_app Hnj; [by apply Hdone|].
    rewrite Hn0 in Hnj. injection Hnj as <-. exists nr. split; [done|]. apply Ns. by right. }
  apply wp_bind, wp_zoom. eapply wp_post; [|apply (wp_remap_inputs g0 g' m i nr0); try done; unfold remembers; rewrite Hc; exact Hm].
  intros l c' [-> ->]. assert (set_context (context_ g') g' = g') as -> by (by destruct g').
  unfold put_node. apply wp_bind. eapply wp_vget_Some; [exact Hn|]. eapply wp_vset_Some; [exact Hn|].
  set (n' := set_inputs (inputs nr0.1) nr.1). pose proof (zget_range _ _ _ Hn) as Hr.
  assert (∀ j, node_at (set_nodes (zset i (n', nr.2) (nodes_and_registration_ g')) g') j =
               if decide (j = i) then Some (n', nr.2) else node_at g' j) as Hat.
  { intros j. unfold node_at. simpl. case_decide as Hj; [subst; by rewrite zget_zset_eq|by rewrite zget_zset_ne by lia]. }
  split_and!; try done.
  - split; [|apply Hk|apply Hk]. intros j nrj Hnj. rewrite Hat. case_decide as Hj.
    + subst j. rewrite Hn0 in Hnj. injection Hnj as <-. eexists. split; [done|]. split; try done. simpl.
      clear. induction (inputs nr0.1); constructor; [by left|done].
    + by apply (kp_old _ _ Hk).
  - simpl. by rewrite zset_length.
  - intros j nrj Hj Hnj. rewrite Hat. case_decide as Hji.
    + subst j. rewrite Hn0 in Hnj. injection Hnj as <-. by eexists.
    + apply Hdone; [set_solver|done].
Qed.

(** ** The round trip *)

Definition last_node g : Z := foldl Z.max 0 (execution_plan_ g).

(** The graph is [g0] again; nodes after the last of the plan are dropped. *)
Record graph_restored g0 g : Prop := {
  gr_plan : execution_plan_ g = execution_plan_ g0;
  gr_nodes i nr0 : node_at g0 i = Some nr0 → i ≤ last_node g0 → ∃ nr, node_at g i = Some nr ∧ nr.2 = nr0.2 ∧ same_node nr0.1 nr.1;
  gr_length : zlen (nodes_and_registration_ g) = last_node g0 + 1;
  gr_state : state_ (execution g) = kStateUninvokable;
  gr_undone : delegates_undone_ (delegation g) = true ∧ pre_delegation_execution_plan_ (delegation g) = []
}.

Lemma foldl_max l b : b ≤ foldl Z.max b l ∧ (∀ x, x ∈ l → x ≤ foldl Z.max b l) ∧ (foldl Z.max b l = b ∨ foldl Z.max b l ∈ l).
Proof.
  revert b. induction l as [|y l IH]; intros b; simpl; [split_and!; [lia|by intros x ?%elem_of_nil|by left]|].
  destruct (IH (Z.max b y)) as (H1' & H2' & H3'). split_and!; [lia| |].
  - intros x [->|Hx]%elem_of_cons; [lia|by apply H2'].
  - destruct H3' as [->|Hin]; [destruct (Z.max_spec b y) as [[_ ->]|[_ ->]]; [right; by left|by left]|right; by right].
Qed.

Lemma delegated_kept g0 g g' :
  delegated g0 g → (∀ i nr, 0 ≤ i < zlen (nodes_and_registration_ g0) → node_at g i = Some nr → node_at g' i = Some nr) →
  tensors_ (context_ g') = tensors_ (context_ g) → kept g0 g'.
Proof.
  intros [D1 _ _ _ D5 D6] Hn Ht. split.
  - intros i nr0 Hi. destruct (D1 i nr0 Hi) as (nr & Hnr & Hk). exists nr. split; [|done]. apply Hn; [by eapply zget_range|done].
  - intros t. unfold type_at. rewrite Ht. apply D5.
  - by rewrite Ht.
Qed.

Lemma zget_resize {A} n (x : A) l i : 0 ≤ i < Z.of_nat n → i < zlen l → zget (resize_list n x l) i = zget l i.
Proof.
  intros Hi Hl. unfold zget, resize_list. rewrite (proj2 (Z.leb_le 0 i)) by lia.
  rewrite lookup_app_l by (rewrite length_take; lia). rewrite lookup_take. by rewrite decide_True by lia.
Qed.

Lemma wp_UndoAllDelegates g0 g :
  original_graph g0 → delegated g0 g → execution_plan_ g0 ≠ [] →
  pre_delegation_execution_plan_ (delegation g) = execution_plan_ g0 → (∀ i nr, node_at g i = Some nr → frees nr) →
  wp UndoAllDelegates
    (λ st g', st = kTfLiteOk ∧ graph_restored g0 g' ∧ tensors_ (context_ g') = tensors_ (context_ g) ∧
       delegates_applied_ (delegation g') = delegates_applied_ (delegation g)) (λ _, False) g.
Proof.
  intros Ho Hg Hne Hpre Hfr. unfold UndoAllDelegates. wp_steps. rewrite Hpre, bool_decide_false by done.
  apply wp_bind. eapply wp_post; [|by eapply wp_free_kernels].
  intros ? g1 ((w1 & Hc1 & Hp1 & Hf1 & Hd1 & He1) & Hn1 & Hl1). simpl in *.
  pose proof (delegated_kept g0 g g1 Hg Hn1 ltac:(by rewrite Hc1)) as Hk1.
  apply wp_bind, wp_modify, wp_bind. unfold update_delegation at 1. apply wp_modify. set (g2 := set_delegation _ _).
  assert (kept g0 g2) as Hk2 by (destruct Hk1 as [K1 K2 K3]; by split).
  assert (zlen (tensors_ (context_ g)) = zlen (tensors_ (context_ g2))) as -> by (simpl; by rewrite Hc1).
  apply wp_bind. eapply wp_post; [|by apply wp_remember]. intros m g3 [-> Hm].
  apply wp_bind. eapply wp_post; [|apply (wp_for_each (λ done g', restored_inputs g0 g2 done g'))].
  2: { split_and!; try done. intros i nr0 Hi. by apply elem_of_nil in Hi. }
  2: { intros done i todo g' Hplan Hre. by apply wp_restore_inputs with (g := g2) (todo := todo). }
  intros ? g4 (Hk4 & Hc4 & Hp4 & Hf4 & Hd4 & He4 & Hl4 & Hin4). simpl in Hk4, Hc4, Hp4, Hf4, Hd4, He4, Hl4, Hin4.
  apply wp_bind, wp_modify, wp_bind, wp_modify, wp_bind, wp_modify, wp_ret.
  destruct (foldl_max (execution_plan_ g0) 0) as (Hmax0 & Hmax & Hmaxin). fold (last_node g0) in *.
  assert (∃ nr, node_at g0 (last_node g0) = Some nr) as [nrl Hlast].
  { destruct Hmaxin as [Hz|Hin]; [|by destruct (og_node _ Ho _ Hin) as (nr & ? & _); exists nr].
    destruct (execution_plan_ g0) as [|i plan] eqn:Hplan; [done|].
    destruct (og_node _ Ho i) as (nr & Hi & _); [rewrite Hplan; by left|]. pose proof (zget_range _ _ _ Hi) as Hr.
    specialize (Hmax i ltac:(by left)). rewrite Hz in *. exists nr. by replace 0 with i by lia. }
  assert (∀ i, 0 ≤ i ≤ last_node g0 → i < zlen (nodes_and_registration_ g4)) as Hfits.
  { intros i Hi. destruct (kp_old _ _ Hk4 _ _ Hlast) as (nr & Hnr & _). pose proof (zget_range _ _ _ Hnr). lia. }
  split_and!; [done| |simpl; by rewrite Hc4, Hc1|simpl; by rewrite Hd4, Hd1].
  split; simpl; try done.
  - intros i nr0 Hi Hle. pose proof (zget_range _ _ _ Hi) as Hr. destruct (kp_old _ _ Hk4 i nr0 Hi) as (nr & Hnr & [Nr No Nd Nf Ni Ns]).
    exists nr. split_and!; [|done|].
    + unfold node_at. simpl. rewrite zget_resize; [done|lia|]. apply Hfits. lia.
    + split; [|done..]. destruct (decide (i ∈ execution_plan_ g0)) as [Hip|Hip]; [|apply Ns; by left].
      destruct (Hin4 i nr0 Hip Hi) as (nr' & Hnr' & Heq). rewrite Hnr in Hnr'. by injection Hnr' as <-.
  - unfold resize_list. rewrite length_app, length_take, length_replicate. specialize (Hfits (last_node g0) ltac:(lia)). lia.
  - by rewrite Hd4.
Qed.
(** ** Replacing and undoing *)

Lemma new_plan_bound bs k x :
  x ∈ new_plan bs k → k ≤ x ∨ ∃ b, b ∈ bs ∧ x ∈ GraphPartition.nodes b.
Proof.
  revert k. induction bs as [|b bs IH]; intros k; cbn [new_plan]; [by intros ?%elem_of_nil|]. case_decide.
  - intros [->|Hx]%elem_of_cons; [left; lia|]. destruct (IH _ Hx) as [?|(b' & Hb & Hxb)]; [left; lia|right].
    exists b'. split; [by right|done].
  - intros [Hx|Hx]%elem_of_app; [right; exists b; split; [by left|done]|].
    destruct (IH _ Hx) as [?|(b' & Hb & Hxb)]; [by left|right]. exists b'. split; [by right|done].
Qed.

Lemma new_plan_nodup bs k :
  NoDup (concat (GraphPartition.nodes <$> bs)) → (∀ b x, b ∈ bs → x ∈ GraphPartition.nodes b → x < k) → NoDup (new_plan bs k).
Proof.
  revert k. induction bs as [|b bs IH]; intros k Hnd Hlt; cbn [new_plan]; [constructor|].
  cbn [fmap list_fmap concat] in Hnd. apply NoDup_app in Hnd as (Hb & Hdis & Hbs).
  assert (∀ b x, b ∈ bs → x ∈ GraphPartition.nodes b → x < k) as Hlt' by (intros b' x Hb'; apply Hlt; by right).
  case_decide.
  - constructor; [|apply IH; [done|intros b' x Hb' Hx; specialize (Hlt' b' x Hb' Hx); lia]].
    intros [Hk|(b' & Hb' & Hx)]%new_plan_bound; [lia|]. specialize (Hlt' b' k Hb' Hx). lia.
  - apply NoDup_app. split_and!; [done| |by apply IH]. intros x Hx [Hk|(b' & Hb' & Hx')]%new_plan_bound.
    + specialize (Hlt b x ltac:(by left) Hx). lia.
    + apply (Hdis x Hx). apply list_elem_of_In, in_concat. exists (GraphPartition.nodes b').
      split; apply list_elem_of_In; [by apply list_elem_of_fmap_2|done].
Qed.

Lemma new_plan_kernel bs k k0 i :
  (∀ b x, b ∈ bs → x ∈ GraphPartition.nodes b → x < k0) → i ∈ new_plan bs k → k0 ≤ i → k ≤ i < k + zlen (taken bs).
Proof.
  revert k. induction bs as [|b bs IH]; intros k Hlt; cbn [new_plan]; [by intros ?%elem_of_nil|].
  assert (∀ b x, b ∈ bs → x ∈ GraphPartition.nodes b → x < k0) as Hlt' by (intros b' x Hb'; apply Hlt; by right).
  unfold taken. rewrite filter_cons. case_decide.
  - intros [->|Hi]%elem_of_cons Hk; cbn [length]; [lia|]. specialize (IH (k + 1) Hlt' Hi Hk). unfold taken in IH. lia.
  - intros [Hi|Hi]%elem_of_app Hk; [specialize (Hlt b i ltac:(by left) Hi); lia|]. by apply IH.
Qed.

Lemma concat_nodes g ns gs bs :
  valid_graph (info_of g) → NoDup (execution_plan_ g) → partition_of g ns gs bs →
  concat (GraphPartition.nodes <$> bs) ≡ₚ execution_plan_ g.
Proof.
  intros [_ _ _ V4 _ _] Hnd [[P1 P2 P3 _ _ _ _ _ _] _].
  assert (concat (GraphPartition.nodes <$> bs) = original (info_of g) <$> concat gs) as ->.
  { clear -P1 P3. revert gs P1 P3. induction bs as [|b bs IH]; intros [|grp gs] P1 P3; try done.
    cbn [fmap list_fmap concat]. rewrite fmap_app. f_equal; [by destruct (P3 0%nat grp b eq_refl eq_refl) as (_ & ? & _)|].
    apply IH; [by injection P1|]. intros k. apply (P3 (S k)). }
  rewrite P2. unfold GraphPartition.num_execution_nodes. rewrite <- V4. simpl.
  unfold original. simpl. by rewrite vat_range.
Qed.

Lemma delegated_replaced g0 g ns d registration gs bs g' :
  delegated g0 g → valid_graph (info_of g) → plan_readable g → partition_of g ns gs bs → replaced g d registration bs g' →
  zlen (nodes_and_registration_ g0) ≤ zlen (nodes_and_registration_ g) →
  delegated g0 g'.
Proof.
  intros Hg Hv Hr Hpart [R1 [ks [R2 Rk]] R3 R4 R5 R6 R7] Hlen.
  pose proof (concat_nodes g ns gs bs Hv (dg_nodup _ _ Hg) Hpart) as Hperm.
  assert (∀ b x, b ∈ bs → x ∈ GraphPartition.nodes b → x ∈ execution_plan_ g) as Hin.
  { intros b x Hb Hx. rewrite <- Hperm. apply list_elem_of_In, in_concat. exists (GraphPartition.nodes b).
    split; apply list_elem_of_In; [by apply list_elem_of_fmap_2|done]. }
  assert (∀ b x, b ∈ bs → x ∈ GraphPartition.nodes b → x < zlen (nodes_and_registration_ g)) as Hlt.
  { intros b x Hb Hx. destruct (dg_plan _ _ Hg x (Hin b x Hb Hx)) as [nr Hnr]. pose proof (zget_range _ _ _ Hnr). lia. }
  assert (∀ i nr, node_at g i = Some nr → node_at g' i = Some nr) as Hold.
  { intros i nr. unfold node_at, zget. rewrite R2. case_match; [|done]. apply lookup_app_l_Some. }
  assert (∀ i, i ∈ execution_plan_ g' → (i ∈ execution_plan_ g ∧ i < zlen (nodes_and_registration_ g)) ∨
            ∃ b nr, node_at g' i = Some nr ∧ kernel_for d registration b nr ∧ zlen (nodes_and_registration_ g) ≤ i) as Hplan.
  { intros i Hi. rewrite R1 in Hi. destruct (Z.lt_ge_cases i (zlen (nodes_and_registration_ g))) as [Hlti|Hge].
    - left. rewrite new_plan_elem in Hi by done. destruct Hi as (b & Hb & _ & Hx). split; [by eapply Hin|done].
    - right. destruct (new_plan_kernel bs (zlen (nodes_and_registration_ g)) (zlen (nodes_and_registration_ g)) i) as [_ Hi']; [done..|].
      destruct (lookup_lt_is_Some_2 (taken bs) (Z.to_nat (i - zlen (nodes_and_registration_ g)))) as [b Hb]; [lia|].
      destruct (Forall2_lookup_l _ _ _ _ _ Rk Hb) as (nr & Hnr & Hkf). exists b, nr. split_and!; [|done|done].
      unfold node_at, zget. rewrite R2, (proj2 (Z.leb_le 0 i)) by lia. rewrite lookup_app_r by lia.
      by replace (Z.to_nat i - length (nodes_and_registration_ g))%nat with (Z.to_nat (i - zlen (nodes_and_registration_ g))) by lia. }
  split.
  - intros i nr0 Hi. destruct (dg_old _ _ Hg i nr0 Hi) as (nr & Hnr & Hk). exists nr. split; [by apply Hold|done].
  - rewrite R1. apply new_plan_nodup; [|done]. rewrite Hperm. apply Hg.
  - intros i Hi. destruct (Hplan i Hi) as [[Hip _]|(b & nr & Hnr & _)]; [|by exists nr].
    destruct (dg_plan _ _ Hg i Hip) as [nr Hnr]. exists nr. by apply Hold.
  - intros i nr Hi Hnr Hd. destruct (Hplan i Hi) as [[Hip _]|(b & nr' & Hnr' & [_ _ _ _ Kf _] & Hge)].
    + destruct (dg_plan _ _ Hg i Hip) as [nr' Hnr']. pose proof (Hold i nr' Hnr') as Heq. rewrite Hnr in Heq. injection Heq as <-.
      by apply (dg_kernel _ _ Hg i nr).
    + rewrite Hnr in Hnr'. injection Hnr' as <-. split; [lia|done].
  - intros t Ht. rewrite <- (dg_types _ _ Hg t Ht). unfold type_at. pose proof (dg_length _ _ Hg).
    destruct (zget_is_Some (tensors_ (context_ g)) t ltac:(lia)) as [x Hx]. rewrite (R4 t x Hx), Hx. simpl. by case_decide.
  - pose proof (dg_length _ _ Hg). lia.
Qed.

Lemma frees_replaced g d registration bs g' :
  (∀ i nr, node_at g i = Some nr → frees nr) →
  (∀ f, free registration = Some f → ∀ buffer w, ∃ w', f buffer w = Done tt w') →
  replaced g d registration bs g' → ∀ i nr, node_at g' i = Some nr → frees nr.
Proof.
  intros Hold Hreg [_ [ks [R2 Rk]] _ _ _ _ _] i nr Hi. unfold node_at, zget in *. rewrite R2 in Hi. case_match eqn:Hpos; [|done].
  apply lookup_app_Some in Hi as [Hi|[_ Hi]].
  - apply (Hold i). by rewrite Hpos.
  - destruct (Forall2_lookup_r _ _ _ _ _ Rk Hi) as (b & _ & [_ _ _ _ _ Kr]). unfold frees. rewrite Kr. exact Hreg.
Qed.
End undo.

(** C5: when [ReplaceNodeSubsetsWithDelegateKernels] has succeeded on an original graph
    or on one that delegates were already applied to, [UndoAllDelegates] succeeds without
    undefined behaviour and gives the original graph back: its plan, and its nodes with
    the inputs they had before delegates redirected them to half-precision tensors. The
    graph has to be allocated again. *)
Theorem replace_undo_roundtrip {W} `{MemoryPlanner W} `{CHeap W} `{Delegates W} `{StdSort} `{UnorderedOrder}
    (g0 g : Subgraph W) ns d registration :
  original_graph g0 → delegated g0 g → execution_plan_ g0 ≠ [] →
  pre_delegation_execution_plan_ (delegation g) = execution_plan_ g0 →
  zlen (nodes_and_registration_ g0) ≤ zlen (nodes_and_registration_ g) →
  plan_readable g → valid_graph (info_of g) → state_ (execution g) ≠ kStateInvokableAndImmutable → ns ≠ [] →
  initialises registration → (∀ i nr, node_at g i = Some nr → frees nr) →
  (∀ f, free registration = Some f → ∀ buffer w, ∃ w', f buffer w = Done tt w') →
  wp (ReplaceNodeSubsetsWithDelegateKernels registration ns d ;! UndoAllDelegates)
    (λ st g', (st = kTfLiteOk ∧ graph_restored g0 g') ∨ (st = kTfLiteError ∧ ((g' = g ∧ unpartitionable g ns) ∨ conflict d g)))
    (λ _, False) g.
Proof.
  intros Ho Hg Hne Hpre Hlen Hr Hv Hst Hns Hinit Hfr Hreg. apply wp_ensure_status.
  eapply wp_post; [|by apply wp_Replace]. intros st g1 [(-> & gs & bs & Hpart & Hre)|[-> Herr]]; [|right; by split].
  rewrite decide_True by done.
  eapply wp_post; [|apply (wp_UndoAllDelegates g0 g1); try done].
  - intros st g2 (-> & Hback & _). by left.
  - by eapply delegated_replaced.
  - by rewrite (re_delegation _ _ _ _ _ Hre).
  - by eapply frees_replaced.
Qed.
