(* ===== verification/SubgraphExamples.v ===== *)
(** * Concrete subgraphs

    A world in which kernels note the shapes they were prepared for and have undefined
    behaviour on others, with the arena planner in it: the theorems on subgraphs at
    work, and runs that show what the code does in some corners. *)

From S2P Require Import Prelude SimpleMemoryArena ArenaPlanner Subgraph SubgraphExecution SubgraphDelegation SubgraphProofs SubgraphRunProofs PlannerInterface.

(** ** The world *)

Record Demo := {
  recorded : Z → option (list (option (list Z)));
  ran_nodes : list Z;
  (** the size of the data that the first node finds, and whether it fails after it *)
  found : Z;
  failing : bool;
  arenas : ArenaPlanner
}.

Definition demo_world : Demo :=
  {| recorded := λ _, None; ran_nodes := []; found := 2; failing := false; arenas := ArenaPlanner.new_planner ∅ [] |}.

Definition record (i : Z) (s : list (option (list Z))) (w : Demo) : Demo :=
  {| recorded := λ j, if j =? i then Some s else recorded w j; ran_nodes := ran_nodes w; found := found w; failing := failing w;
     arenas := arenas w |}.
Definition note_run (i : Z) (w : Demo) : Demo :=
  {| recorded := recorded w; ran_nodes := ran_nodes w ++ [i]; found := found w; failing := failing w;
     arenas := arenas w |}.
Definition client_sets (n : Z) (b : bool) (g : Subgraph Demo) : Subgraph Demo :=
  let w := world (context_ g) in
  set_context (set_world {| recorded := recorded w; ran_nodes := ran_nodes w; found := n; failing := b; arenas := arenas w |} (context_ g)) g.

#[export] Instance demo_heap : CHeap Demo := {|
  malloc _ := mret 4096;
  heap_free _ := mret tt;
  delete_variant _ := mret tt;
  memset _ _ _ := mret tt
|}.

#[export] Program Instance demo_order : UnorderedOrder := {| uset_elements s := s |}.
Next Obligation. done. Qed.

#[export] Instance demo_platform : Platform := bump_platform true.

#[export] Program Instance demo_store : PlannerStore Demo := {|
  planner_of := arenas;
  store_planner s w := {| recorded := recorded w; ran_nodes := ran_nodes w; found := found w; failing := failing w; arenas := s |}
|}.
Next Obligation. done. Qed.

#[export] Instance demo_planner : MemoryPlanner Demo := arena_memory_planner.

(** ** Kernels *)

Definition demo_prepare (i : Z) : Kernel Demo := λ '(n, c),
  Done kTfLiteOk (n, set_world (record i (shapes c (io n)) (world c)) c).

(** Undefined on other shapes than those it was prepared for. *)
Definition demo_invoke (i : Z) : Kernel Demo := λ '(n, c),
  if bool_decide (recorded (world c) i = Some (shapes c (io n)))
  then Done kTfLiteOk (n, set_world (note_run i (world c)) c) else Undefined.

Definition demo_op (i : Z) : TfLiteRegistration Demo :=
  {| builtin_code := 0; init := Some (λ _, mret (Some 1)); free := None; prepare := Some (demo_prepare i);
     invoke := Some (demo_invoke i); unresolved_invoke := false; inplace_operator := kTfLiteInplaceOpNone |}.

(** Each delegate takes the nodes whose bit its address has; its flags are the rest. *)
Definition nodes_of (d : TfLiteDelegate) : list Z := filter (λ i, Z.testbit d i) [0; 1].
#[export] Instance demo_delegates : Delegates Demo := {|
  delegate_flags d := Z.shiftr d 2;
  delegate_Prepare d g := Replaces (demo_op (100 + d)) (nodes_of d) (world (context_ g)) (λ st g', Returns st (world (context_ g')));
  CopyFromBufferHandle _ _ _ := mret kTfLiteOk
|}.

(** ** A chain of two nodes *)

Definition demo_tensor (a : TfLiteAllocationType) : TfLiteTensor :=
  {| type := kTfLiteInt8; dims := Some [2]; dims_signature := []; bytes := 2; data := 64; allocation_type := a;
     is_variable := false; zero_point := 0; tensor_delegate := None; buffer_handle := kTfLiteNullBufferHandle;
     data_is_stale := false |}.

Definition demo_node (i o : Z) : TfLiteNode :=
  {| inputs := [i]; outputs := [o]; temporaries := []; builtin_data := None; user_data := 0; delegate := None;
     might_have_side_effect := false; arrays_freed := false |}.

Definition demo_graph (first : TfLiteRegistration Demo) (a : TfLiteAllocationType) (state : State) : Subgraph Demo :=
  {| context_ := {| tensors_ := [demo_tensor kTfLiteArenaRw; demo_tensor a; demo_tensor kTfLiteArenaRw];
                    tensor_resized_since_op_invoke_ := false; world := demo_world |};
     config := {| inputs_ := [0]; outputs_ := [2]; variables_ := []; options_ := None; control_edges_ := None;
                  check_cancelled_func_ := None; continue_invocation_ := None |};
     nodes_and_registration_ := [(demo_node 0 1, first); (demo_node 1 2, demo_op 1)];
     execution_plan_ := [0; 1];
     execution := {| state_ := state; consistent_ := true; next_execution_plan_index_to_prepare_ := 0;
                     next_original_execution_plan_index_to_prepare_ := 0;
                     next_execution_plan_index_to_plan_allocation_ := 0; has_dynamic_tensors_ := false;
                     has_memory_planner := false; custom_allocations_ := ∅; tensor_to_last_op_index_ := ∅ |};
     delegation := {| pre_delegation_execution_plan_ := []; delegates_applied_ := []; delegates_undone_ := false;
                      delegate_context_switch_count_ := 0 |} |}.

Definition chain : Subgraph Demo := demo_graph (demo_op 0) kTfLiteArenaRw kStateInvokable.

Definition kernels_contract : Contract (W := Demo) := {|
  V := option (list (option (list Z)));
  Inv _ _ _ := True;
  priv i w := recorded w i;
  Prep _ _ s v := v = Some s;
  computed i w := i ∈ ran_nodes w
|}.

Lemma kernels_ignore_planner : ignores_planner kernels_contract.
Proof. by split. Qed.

(** Its invariant includes that of the planner for two nodes. *)
Definition demo_contract : Contract (W := Demo) := with_planner_inv 2 kernels_contract.

(** ** The contract holds *)

Lemma chain_node i nr :
  node_at chain i = Some nr → (i = 0 ∧ nr = (demo_node 0 1, demo_op 0)) ∨ (i = 1 ∧ nr = (demo_node 1 2, demo_op 1)).
Proof.
  intros Hi. pose proof (zget_range _ _ _ Hi) as Hr. simpl in Hr.
  assert (i = 0 ∨ i = 1) as [-> | ->] by lia; injection Hi as <-; auto.
Qed.

Lemma chain_before i j : before chain i j → i = 0 ∧ j = 1.
Proof.
  intros (pre & mid & post & Hp). simpl in Hp. destruct pre as [|a [|b pre]]; simpl in Hp.
  - injection Hp as -> Hp. destruct mid as [|b mid]; simpl in Hp; [by injection Hp as -> _|].
    injection Hp as -> Hp. by destruct mid.
  - injection Hp as -> -> Hp. by destruct mid.
  - injection Hp as -> -> Hp. by destruct pre.
Qed.

Lemma chain_well_formed : well_formed chain.
Proof.
  assert (∀ t, t ∈ [0; 1; 2] → valid_tensor (context_ chain) t) as Hv.
  { intros t Ht. right. rewrite !elem_of_cons, elem_of_nil in Ht. destruct Ht as [-> |[-> |[-> |[]]]]; by eexists. }
  split.
  - intros i Hi. simpl in Hi. rewrite !elem_of_cons, elem_of_nil in Hi. destruct Hi as [-> |[-> |[]]]; by eexists.
  - simpl. repeat constructor; set_solver.
  - intros i nr [[-> ->]|[-> ->]]%chain_node; (split_and!; [done| |intros t Ht; by apply elem_of_nil in Ht]);
      intros t Ht; apply Hv; unfold io in Ht; simpl in Ht; set_solver.
  - intros i j ni nj t [-> ->]%chain_before Hi Hj Ht Ho. injection Hi as <-. injection Hj as <-.
    unfold io in Ht. simpl in *. set_solver.
  - intros t Ht. apply Hv. simpl in Ht. set_solver.
  - simpl. intros i Hi. by apply elem_of_nil in Hi.
Qed.

Lemma chain_plannable : plannable chain.
Proof.
  split; simpl; [done|set_solver|..].
  - intros i nr t [_ [[-> ->]|[-> ->]]%chain_node] Ht _; set_solver.
  - intros i nr t [_ [[-> ->]|[-> ->]]%chain_node] Hi Ho; simpl in *; set_solver.
  - by intros i nr [_ [[-> ->]|[-> ->]]%chain_node].
Qed.

Lemma arena_planner_ok_witness :
  ignores_planner kernels_contract ∧ well_formed chain ∧ plannable chain ∧
  planner_ok (with_planner_inv (zlen (execution_plan_ chain)) kernels_contract) chain.
Proof.
  split_and!; [exact kernels_ignore_planner|exact chain_well_formed|exact chain_plannable|].
  exact (arena_planner_ok kernels_contract chain kernels_ignore_planner chain_well_formed chain_plannable).
Defined.

Lemma demo_environment : environment_ok demo_contract chain.
Proof.
  split; try (intros; intros p k w HI; by apply wp_ret).
  - exact (arena_planner_keeps kernels_contract kernels_ignore_planner chain chain_well_formed chain_plannable).
  - intros p d h t c HI. apply wp_ret. by split; [apply silent_refl|].
Qed.

Lemma demo_world_step i g p n c w' :
  arenas w' = arenas (world c) →
  (∀ j, j ≠ i → recorded w' j = recorded (world c) j) → (∀ j, j ∈ ran_nodes (world c) → j ∈ ran_nodes w') →
  local_to demo_contract g p i n c (set_world w' c).
Proof.
  intros Ha Hr Hn. split; [split; [done| |exact Hn|done]|exact Hr|done|].
  - unfold inv. simpl. by rewrite Ha.
  - intros _. unfold has_memory. simpl. by rewrite Ha.
Qed.

Lemma demo_kernel g i n0 : kernel_ok demo_contract g i (demo_op i) n0.
Proof.
  split.
  - intros k p n c [= <-] Hs _ _ Ht. unfold wp, demo_prepare. split_and!; [done| |done|].
    + apply demo_world_step; [done| |done]. intros j Hj. simpl. by rewrite (proj2 (Z.eqb_neq j i)).
    + intros _. unfold prepared_node. simpl. by rewrite Z.eqb_refl.
  - done.
  - intros k p n c [= <-] Hs _ _ Ht Hprep _ _ _. unfold wp, demo_invoke. unfold prepared_node in Hprep. simpl in Hprep.
    rewrite bool_decide_true by done. split_and!; [done| |done|].
    + apply demo_world_step; [done..|]. intros j Hj. simpl. set_solver.
    + intros _. split_and!; [done|simpl; set_solver|]. intros (t & _ & Hdiff). done.
Qed.

Lemma chain_contract : contract_ok demo_contract chain.
Proof.
  split; [apply demo_environment| |done..]. intros i nr [_ [[-> ->]|[-> ->]]%chain_node]; apply demo_kernel.
Qed.

Lemma chain_live : live demo_contract chain chain.
Proof.
  split; try done.
  - simpl. repeat constructor.
  - intros i nr t [[-> ->]|[-> ->]]%chain_node Ht; by apply elem_of_nil in Ht.
  - intros t [a Ha]. simpl in Ha. by rewrite lookup_empty in Ha.
Qed.

Lemma Invoke_prepared_witness :
  runnable demo_contract chain chain ∧
  wp InvokeImpl
    (λ st g', state_ (execution g') = state_ (execution chain) ∧
       (st = kTfLiteOk → runnable demo_contract chain g' ∧
          ∀ i, i ∈ execution_plan_ chain → computed demo_contract i (world (context_ g')))) (λ _, False) chain.
Proof.
  assert (runnable demo_contract chain chain) as Hr.
  { split; [exact chain_live|done| |done|].
    - intros a i nr Ha Hi. pose proof (zget_range _ _ _ Hi). unfold next_prepare in Ha. simpl in Ha. lia.
    - intros a i Ha Hi. pose proof (zget_range _ _ _ Hi). lia. }
  split; [exact Hr|]. exact (Invoke_prepared demo_contract chain chain_well_formed chain_contract Hr).
Defined.

Definition demo_requests : list request := [Resize 0 [4]; Allocate; Run; ReleaseAll; Allocate; Run].


(** The planner has placed the tensors of the resized graph. *)
Example requests_placed :
  match for_status demo_requests perform chain with
  | Done st g => st = kTfLiteOk ∧ (data <$> tensors_ (context_ g)) = [64; 128; 192] ∧ ran_nodes (world (context_ g)) = [0; 1; 0; 1]
  | _ => False
  end.
Proof. vm_compute. done. Qed.

(** The status of a run and the nodes that have run. *)
Definition outcome_of (o : outcome (Subgraph Demo) TfLiteStatus) : option (TfLiteStatus * list Z) :=
  match o with Done st g => Some (st, ran_nodes (world (context_ g))) | _ => None end.

(** ** Corners *)

(** *** A kernel that fails after it has resized a dynamic tensor *)

Definition resizing_invoke (i : Z) : Kernel Demo := λ '(n, c),
  if bool_decide (recorded (world c) i = Some (shapes c (io n))) then
    match ResizeTensor 1 [found (world c)] c with
    | Done _ c => Done (if failing (world c) then kTfLiteError else kTfLiteOk)
                    (n, set_world (note_run i (record i (shapes c (io n)) (world c))) c)
    | _ => Undefined
    end
  else Undefined.

Definition resizing_op (i : Z) : TfLiteRegistration Demo :=
  {| builtin_code := 0; init := Some (λ _, mret (Some 1)); free := None; prepare := Some (demo_prepare i);
     invoke := Some (resizing_invoke i); unresolved_invoke := false; inplace_operator := kTfLiteInplaceOpNone |}.

Definition dynamic_chain : Subgraph Demo := demo_graph (resizing_op 0) kTfLiteDynamic kStateUninvokable.

(** Runs steps of the client and of the subgraph one after the other. *)
Definition then_run (o : outcome (Subgraph Demo) TfLiteStatus) (f : Subgraph Demo → Subgraph Demo)
    (m : M (Subgraph Demo) TfLiteStatus) : outcome (Subgraph Demo) TfLiteStatus :=
  match o with Done _ g => m (f g) | _ => o end.

Definition first_run := then_run (perform Allocate dynamic_chain) id InvokeImpl.
Definition second_run := then_run first_run (client_sets 3 false) InvokeImpl.
Definition failed_run := then_run first_run (client_sets 3 true) InvokeImpl.

(** Without a failure the second node is prepared for the new size. *)
Example resized_run : outcome_of second_run = Some (kTfLiteOk, [0; 1; 0; 1]).
Proof. vm_compute. reflexivity. Qed.

(** After a failure the retry finds the tensor resized already and runs the second node
    with the shape of its last preparation, which is another one. *)
Example failed_run_leaves_stale :
  outcome_of failed_run = Some (kTfLiteError, [0; 1; 0]) ∧
  then_run failed_run (client_sets 3 false) InvokeImpl = Undefined.
Proof. split; vm_compute; reflexivity. Qed.

(** *** Delegates *)

(** An address: the nodes taken, and the flags. *)
Definition address (taken flags : Z) : TfLiteDelegate := taken + 4 * flags.
Definition idle_chain : Subgraph Demo := demo_graph (demo_op 0) kTfLiteArenaRw kStateUninvokable.

Definition plan_of (o : outcome (Subgraph Demo) TfLiteStatus) : option (TfLiteStatus * list Z) :=
  match o with Done st g => Some (st, execution_plan_ g) | _ => None end.

(** Delegates that take all nodes, or the first one. *)
Example fully_delegated :
  plan_of (ModifyGraphWithDelegate (Some (address 3 kTfLiteDelegateFlagsAllowDynamicTensors)) idle_chain) = Some (kTfLiteOk, [2]) ∧
  plan_of (ModifyGraphWithDelegate (Some (address 1 kTfLiteDelegateFlagsAllowDynamicTensors)) idle_chain) = Some (kTfLiteOk, [2; 1]).
Proof. split; vm_compute; reflexivity. Qed.

(** A delegate that was hinted to take the whole graph and does not leaves its kernels
    in the plan, without being applied. The next one takes this plan for the original
    one; to undo it reads a node that has been freed. *)
Definition hinted := ModifyGraphWithDelegate (Some (address 1 kTfLiteDelegateFlagsHintFullyDelegatedToSingleDelegate)) idle_chain.
Definition hinted_next := then_run hinted id (ModifyGraphWithDelegate (Some (address 2 kTfLiteDelegateFlagsAllowDynamicTensors))).

Example hint_leaves_kernels :
  plan_of hinted = Some (kTfLiteApplicationError, [2; 1]) ∧
  match hinted with Done _ g => delegates_applied_ (delegation g) = [] ∧ state_ (execution g) = kStateUninvokable | _ => False end ∧
  plan_of hinted_next = Some (kTfLiteOk, [2; 3]) ∧ then_run hinted_next id UndoAllDelegates = Undefined.
Proof. split_and!; vm_compute; done. Qed.

(** The outputs of a delegate that was removed stay its own. *)
Definition removed := then_run (ModifyGraphWithDelegate (Some (address 1 1)) idle_chain) id (RemoveAllDelegates (RedoAllDelegates redo_depth)).

Example outputs_stay_claimed :
  plan_of removed = Some (kTfLiteOk, [0; 1]) ∧
  plan_of (then_run removed id (ModifyGraphWithDelegate (Some (address 1 3)))) = Some (kTfLiteDelegateError, [0; 1]) ∧
  plan_of (ModifyGraphWithDelegate (Some (address 1 3)) idle_chain) = Some (kTfLiteOk, [2; 1]).
Proof. split_and!; vm_compute; reflexivity. Qed.

(** Custom allocations of outputs are looked up by the position of the node in the
    plan, as if it were its index. *)
Definition too_small : TfLiteCustomAllocation := {| custom_data := 128; custom_bytes := 1 |}.
Definition customised (o : outcome (Subgraph Demo) TfLiteStatus) :=
  then_run (then_run o id (SetCustomAllocationForTensor 2 too_small 0)) id (perform Allocate).

Example custom_allocation_missed :
  plan_of (customised (Done kTfLiteOk idle_chain)) = Some (kTfLiteError, [0; 1]) ∧
  plan_of (customised (ModifyGraphWithDelegate (Some (address 3 kTfLiteDelegateFlagsAllowDynamicTensors)) idle_chain)) =
    Some (kTfLiteOk, [2]).
Proof. split_and!; vm_compute; reflexivity. Qed.

(** A node whose kernel fails to initialise is freed again with the subgraph. *)
Definition no_init : TfLiteRegistration Demo :=
  {| builtin_code := BuiltinOperator_CUSTOM; init := Some (λ _, mret None); free := None; prepare := None; invoke := None;
     unresolved_invoke := false; inplace_operator := kTfLiteInplaceOpNone |}.

Example freed_twice :
  match AddNodeWithParameters [0] [1] (Some 1) None no_init idle_chain with
  | Done st g => st = kTfLiteError ∧ DestroyNodes g = Undefined
  | _ => False
  end.
Proof. vm_compute. done. Qed.

(** The negative dimension of an unknown size is read as an unsigned number. *)
Example unknown_dimension_bytes : BytesRequired kTfLiteInt8 [-1] 0 = (kTfLiteOk, 2 ^ 64 - 1).
Proof. reflexivity. Qed.
