(* ===== verification/SubgraphDelegateExamples.v ===== *)
(** * Concrete delegates

    A graph that converts half-precision weights, and delegates that were applied to
    it: the theorems on replacing and undoing at this graph. *)

From S2P Require Import Prelude GraphPartition PartitionProofs ArenaPlanner Subgraph SubgraphExecution SubgraphDelegation SubgraphProofs SubgraphRunProofs SubgraphDelegateProofs SubgraphUndoProofs SubgraphExamples.

(** Node 0 converts the half-precision tensor 0 to tensor 1; node 1 computes tensor 2
    from it. *)
Definition half_tensor (t : TfLiteType) : TfLiteTensor :=
  {| type := t; dims := Some [2]; dims_signature := []; bytes := 4; data := 64; allocation_type := kTfLiteArenaRw;
     is_variable := false; zero_point := 0; tensor_delegate := None; buffer_handle := kTfLiteNullBufferHandle;
     data_is_stale := false |}.

Definition dequantize_op : TfLiteRegistration Demo :=
  {| builtin_code := kTfLiteBuiltinDequantize; init := None; free := None; prepare := Some (demo_prepare 0);
     invoke := Some (demo_invoke 0); unresolved_invoke := false; inplace_operator := kTfLiteInplaceOpNone |}.

(** [input] is the input of node 1. *)
Definition half_graph (input : Z) : Subgraph Demo :=
  let g := demo_graph (demo_op 0) kTfLiteArenaRw kStateUninvokable in
  set_delegation {| pre_delegation_execution_plan_ := [0; 1]; delegates_applied_ := []; delegates_undone_ := false;
                    delegate_context_switch_count_ := 1 |}
    (set_nodes [(demo_node 0 1, dequantize_op); (demo_node input 2, demo_op 1)]
      (set_context (set_tensors [half_tensor kTfLiteFloat16; half_tensor kTfLiteFloat32; half_tensor kTfLiteFloat32] (context_ g)) g)).

(** The graph as it was, and with node 1 redirected to the half-precision tensor. *)
Definition half_chain : Subgraph Demo := half_graph 1.
Definition redirected_chain : Subgraph Demo := half_graph 0.

Definition free_op : TfLiteRegistration Demo := {| builtin_code := 0; init := None; free := None; prepare := None; invoke := None; unresolved_invoke := false; inplace_operator := kTfLiteInplaceOpNone |}.

(** The converted tensor has become unused: node 1 is replaced. *)
Example half_chain_replaced :
  match ReplaceNodeSubsetsWithDelegateKernels free_op [1] 5 redirected_chain with
  | Done st g => st = kTfLiteOk ∧ execution_plan_ g = [0; 2] ∧ inputs <$> (fst <$> nodes_and_registration_ g) = [[0]; [0]; [0]]
  | _ => False
  end.
Proof. vm_compute. done. Qed.

Lemma half_node input i nr :
  node_at (half_graph input) i = Some nr → (i = 0 ∧ nr = (demo_node 0 1, dequantize_op)) ∨ (i = 1 ∧ nr = (demo_node input 2, demo_op 1)).
Proof.
  intros Hi. pose proof (zget_range _ _ _ Hi) as Hr. simpl in Hr.
  assert (i = 0 ∨ i = 1) as [-> | ->] by lia; injection Hi as <-; auto.
Qed.

Lemma half_info input i :
  vat no_node (GraphPartition.execution_nodes (info_of (half_graph input))) i =
    if decide (i = 0) then partition_node (demo_node 0 1) else if decide (i = 1) then partition_node (demo_node input 2) else no_node.
Proof.
  unfold vat, zget. destruct (Z.leb_spec 0 i) as [Hi|Hi]; [|by rewrite !decide_False by lia].
  destruct (decide (i = 0)) as [-> |]; [done|]. destruct (decide (i = 1)) as [-> |]; [done|].
  assert (∃ k, Z.to_nat i = S (S k)) as [k ->] by (exists (Z.to_nat (i - 2)); lia). done.
Qed.

Ltac half_tensors H :=
  cbn [GraphPartition.inputs GraphPartition.outputs partition_node no_node demo_node inputs outputs] in H;
  rewrite ?elem_of_cons, ?elem_of_nil in H.

Lemma half_valid input : 0 ≤ input < 3 → valid_graph (info_of (half_graph input)).
Proof.
  intros Hin. split.
  - intros i t [Ht _]. rewrite half_info in Ht.
    change (GraphPartition.num_tensors _) with 3. repeat case_decide; half_tensors Ht; lia.
  - intros i t [Ht _]. rewrite half_info in Ht.
    change (GraphPartition.num_tensors _) with 3. repeat case_decide; half_tensors Ht; lia.
  - intros i j t [Hi _] [Hj _]. rewrite half_info in Hi, Hj. repeat case_decide;
      half_tensors Hi; half_tensors Hj; lia.
  - done.
  - intros x Hx. simpl in Hx. rewrite !elem_of_cons, elem_of_nil in Hx.
    change (GraphPartition.num_total_nodes _) with 2. lia.
  - intros t Ht%list_elem_of_singleton. change (GraphPartition.num_tensors _) with 3. lia.
Qed.

Lemma half_plan input i : i ∈ execution_plan_ (half_graph input) → i = 0 ∨ i = 1.
Proof. intros Hi. simpl in Hi. rewrite !elem_of_cons, elem_of_nil in Hi. tauto. Qed.

Lemma half_readable input : plan_readable (half_graph input).
Proof. intros i [-> | ->]%half_plan; by eexists. Qed.

Lemma half_dequantizes s t : dequantizes half_chain s t → s = 0 ∧ t = 1.
Proof. intros (i & nr & _ & [[-> ->]|[-> ->]]%half_node & Hd & [= <-] & [= <-] & _); [done|discriminate Hd]. Qed.

Lemma half_original : original_graph half_chain.
Proof.
  split.
  - intros i [-> | ->]%half_plan; by eexists.
  - apply NoDup_cons. split; [by intros ?%list_elem_of_singleton|apply NoDup_singleton].
  - intros i nr t [[-> ->]|[-> ->]]%half_node ->%list_elem_of_singleton; right; simpl; lia.
  - intros s t t' [_ ->]%half_dequantizes [_ ->]%half_dequantizes. done.
  - intros i nr s t _ [[-> ->]|[-> ->]]%half_node Hnd ->%list_elem_of_singleton; [by destruct Hnd|].
    intros [? _]%half_dequantizes. done.
Qed.

Lemma half_delegated : delegated half_chain redirected_chain.
Proof.
  split; try done.
  - intros i nr0 [[-> ->]|[-> ->]]%half_node; (eexists; split; [done|]); split; try done.
    + by repeat constructor.
    + constructor; [|constructor]. right. exists 0, (demo_node 0 1, dequantize_op). split_and!; try done. by left.
    + intros [Hn|Hn]; [|discriminate Hn]. destruct Hn. right. by left.
  - apply NoDup_cons. split; [by intros ?%list_elem_of_singleton|apply NoDup_singleton].
  - intros i [-> | ->]%half_plan; by eexists.
  - intros i nr _ [[-> ->]|[-> ->]]%half_node [d Hd]; discriminate Hd.
Qed.

Lemma half_frees i nr : node_at redirected_chain i = Some nr → frees nr.
Proof. by intros [[-> ->]|[-> ->]]%half_node. Qed.


(** A delegate that was undone because an input got another shape. *)
Definition undone_chain : Subgraph Demo :=
  match then_run (ModifyGraphWithDelegate (Some (address 1 0)) idle_chain) id (ResizeInputTensor 0 [4]) with
  | Done _ g => g
  | _ => idle_chain
  end.

Lemma ModifyGraphWithDelegate_outcome_witness :
  undone undone_chain = true ∧ delegates undone_chain = [address 1 0] ∧
  match ModifyGraphWithDelegate (Some (address 2 kTfLiteDelegateFlagsAllowDynamicTensors)) undone_chain with
  | Done st g' =>
      modified_after_redo (address 2 kTfLiteDelegateFlagsAllowDynamicTensors) undone_chain st g' ∧
      st = kTfLiteOk ∧ execution_plan_ g' = [2; 3] ∧ delegates g' = [address 1 0; address 2 kTfLiteDelegateFlagsAllowDynamicTensors]
  | _ => False
  end.
Proof.
  split; [vm_compute; reflexivity|]. split; [vm_compute; reflexivity|].
  pose proof (ModifyGraphWithDelegate_outcome undefined 0 (address 2 kTfLiteDelegateFlagsAllowDynamicTensors) undone_chain) as [_ Hm]. unfold returns in Hm.
  assert (match ModifyGraphWithDelegate (Some (address 2 kTfLiteDelegateFlagsAllowDynamicTensors)) undone_chain with
          | Done st g' => st = kTfLiteOk ∧ execution_plan_ g' = [2; 3] ∧ delegates g' = [address 1 0; address 2 kTfLiteDelegateFlagsAllowDynamicTensors]
          | _ => False end) as Hr by (vm_compute; split_and!; reflexivity).
  destruct (ModifyGraphWithDelegate _ undone_chain) as [st g'| |]; [|destruct Hr..].
  split; [exact (Hm st g' eq_refl)|exact Hr].
Defined.

Lemma replace_undo_roundtrip_witness :
  original_graph half_chain ∧ delegated half_chain redirected_chain ∧
  wp (ReplaceNodeSubsetsWithDelegateKernels free_op [1] 5 ;! UndoAllDelegates)
    (λ st g', (st = kTfLiteOk ∧ graph_restored half_chain g') ∨
              (st = kTfLiteError ∧ ((g' = redirected_chain ∧ unpartitionable redirected_chain [1]) ∨ conflict 5 redirected_chain)))
    (λ _, False) redirected_chain.
Proof.
  split; [apply half_original|]. split; [apply half_delegated|].
  apply (replace_undo_roundtrip half_chain redirected_chain [1] 5 free_op);
    [apply half_original|apply half_delegated|discriminate|reflexivity|reflexivity|apply half_readable|
     apply half_valid; lia|discriminate|discriminate|discriminate|apply half_frees|discriminate].
Defined.
