(* ===== verification/UsageRecords.v ===== *)
(** * Tensor usage records of the GPU delegate

    [src/tflite/delegates/gpu/common/memory_management/{types,internal}.{h,cc}]:
    when each intermediate tensor is used, what is used during each task, and
    which tensors can follow each other in the same memory when operations run
    in parallel. The end of the file states what an assignment of shared objects
    to tensors has to satisfy, and how it is built up one tensor at a time. *)

From S2P Require Import Prelude.

(** ** Records and assignments *)

Record TensorUsageRecord (T : Type) := {
  tensor_size : T;
  first_task : Z;
  last_task : Z
}.
Arguments tensor_size {T} _.
Arguments first_task {T} _.
Arguments last_task {T} _.

Record ObjectsAssignment (T : Type) := {
  object_ids : list Z;
  object_sizes : list T
}.
Arguments object_ids {T} _.
Arguments object_sizes {T} _.

Record OffsetsAssignment := { offsets : list Z; total_size : Z }.

Definition kNotAssigned : Z := size_max.

(** The sizes of textures, and the shapes of tensors. *)
Abbreviation uint2 := (Z * Z)%type.
Abbreviation uint3 := (Z * Z * Z)%type.
Abbreviation BHWC := (Z * Z * Z * Z)%type.

Definition u32 (z : Z) : Z := z mod 2 ^ 32.

(** [IsCoveringObject] and [AbsDiffInElements], overloaded on the type of the
    sizes; the products of the components are those of [uint32_t]. *)
Class ObjectSize (T : Type) := {
  IsCoveringObject : T → T → bool;
  AbsDiffInElements : T → T → Z
}.

Definition abs_diff (first second : Z) : Z :=
  if first >=? second then u64 (first - second) else u64 (second - first).

#[export] Instance ObjectSize_uint2 : ObjectSize uint2 := {|
  IsCoveringObject first second := (first.1 >=? second.1) && (first.2 >=? second.2);
  AbsDiffInElements first second := abs_diff (u32 (first.2 * first.1)) (u32 (second.2 * second.1))
|}.

#[export] Instance ObjectSize_uint3 : ObjectSize uint3 := {|
  IsCoveringObject first second :=
    (first.1.1 >=? second.1.1) && (first.1.2 >=? second.1.2) && (first.2 >=? second.2);
  AbsDiffInElements first second :=
    abs_diff (u32 (u32 (first.2 * first.1.2) * first.1.1))
             (u32 (u32 (second.2 * second.1.2) * second.1.1))
|}.

(** The free shared objects, ordered by size ([PoolRecord]). *)
Record PoolRecord := { object_size : Z; pool_object_id : Z }.

#[export] Instance pool_record_eq_dec : EqDecision PoolRecord.
Proof. solve_decision. Defined.

Definition pool_lt (a b : PoolRecord) : bool :=
  (object_size a <? object_size b)
  || ((object_size a =? object_size b) && (pool_object_id a <? pool_object_id b)).

(** The shared objects in use. *)
Record QueueRecord := { queue_last_task : Z; queue_object_id : Z }.

Definition queue_lt (a b : QueueRecord) : bool :=
  (queue_last_task a >? queue_last_task b)
  || ((queue_last_task a =? queue_last_task b) && (queue_object_id a >? queue_object_id b)).

(** [std::priority_queue<QueueRecord>]: a list from the greatest element on. *)
Definition queue_push (x : QueueRecord) (q : list QueueRecord) : list QueueRecord :=
  stable_insert (λ a b, queue_lt b a) x q.

(** [std::set::insert]: an element equivalent to one of the set changes nothing. *)
Fixpoint set_insert {A} (lt : A → A → bool) (x : A) (l : list A) : list A :=
  match l with
  | [] => [x]
  | y :: l' => if lt y x then y :: set_insert lt x l' else if lt x y then x :: l else l
  end.

(** The objects popped by
    [while (!objects_in_use.empty() && objects_in_use.top().last_task < first_task)],
    in this order, and the queue that is left. *)
Fixpoint pop_expired (first_task : Z) (q : list QueueRecord) : list Z * list QueueRecord :=
  match q with
  | top :: q' =>
      if queue_last_task top <? first_task then
        let '(ids, rest) := pop_expired first_task q' in (queue_object_id top :: ids, rest)
      else ([], q)
  | [] => ([], [])
  end.

(** ** Task profiles *)

Record TensorUsageWithIndex := {
  usage_record : TensorUsageRecord Z;
  idx : Z
}.

(** The order of [std::stable_sort]: larger tensors first. *)
Definition CompareBySize (first second : TensorUsageWithIndex) : bool :=
  tensor_size (usage_record second) <? tensor_size (usage_record first).

Abbreviation TaskProfile := (list TensorUsageWithIndex).

(** [task_profiles[task_id].emplace_back(&usage_records[rec_id], rec_id)]. *)
Definition add_to_profile (r : TensorUsageWithIndex) (task_id : Z) : M (list TaskProfile) unit :=
  p ← vget id task_id; vset id (λ l _, l) task_id (p ++ [r]).

Definition num_tasks (usage_records : list (TensorUsageRecord Z)) : Z :=
  foldl (λ n r, n `max` u64 (last_task r + 1)) 0 usage_records.

(** [&usage_records[i]] with [i], for all records. *)
Definition with_index (usage_records : list (TensorUsageRecord Z)) : list TensorUsageWithIndex :=
  imap (λ i r, {| usage_record := r; idx := Z.of_nat i |}) usage_records.

(** Returns the profiles; the state is not used by the callers. *)
Definition CalculateTaskProfiles (usage_records : list (TensorUsageRecord Z)) {S} :
    M S (list TaskProfile) :=
  zoom (λ _, replicate (Z.to_nat (num_tasks usage_records)) []) (λ _ s, s)
    (for_each (with_index usage_records) (λ r,
       for_each (range (first_task (usage_record r)) (last_task (usage_record r) + 1))
         (add_to_profile r)) ;;
     gets (fmap (stable_sort CompareBySize))).

(** One step of the loop over the profiles. *)
Fixpoint positional_update (positional_max : list Z) (task_profile : TaskProfile) : list Z :=
  match task_profile, positional_max with
  | [], _ => positional_max
  | r :: p, [] => tensor_size (usage_record r) :: positional_update [] p
  | r :: p, m :: ms => m `max` tensor_size (usage_record r) :: positional_update ms p
  end.

Definition CalculatePositionalMaximums (usage_records : list (TensorUsageRecord Z)) {S} :
    M S (list Z) :=
  task_profiles ← CalculateTaskProfiles usage_records;
  mret (foldl positional_update [] task_profiles).

(** ** The reallocation graph *)

Abbreviation UsageGraph := (list (list Z)).

Record bfs_state := { queue : list Z; is_visited : list bool; num_visits : list Z }.

Definition set_queue v s := {| queue := v; is_visited := is_visited s; num_visits := num_visits s |}.
Definition set_visited v s := {| queue := queue s; is_visited := v; num_visits := num_visits s |}.
Definition set_num_visits v s := {| queue := queue s; is_visited := is_visited s; num_visits := v |}.

Definition visit (to_vertex : Z) : M bfs_state unit :=
  visited ← vget is_visited to_vertex;
  if visited : bool then mret ()
  else
    modify (λ s, set_queue (queue s ++ [to_vertex]) s) ;;
    vset is_visited set_visited to_vertex true ;;
    n ← vget num_visits to_vertex;
    vset num_visits set_num_visits to_vertex (u64 (n + 1)).

(** Every iteration takes a vertex out of the queue that is never put in again,
    so as many iterations as vertices are enough. *)
Fixpoint bfs_loop (deps_graph : UsageGraph) (fuel : nat) : M bfs_state unit :=
  q ← gets queue;
  match q, fuel with
  | [], _ => mret ()
  | _, O => undefined
  | from_vertex :: q', S fuel' =>
      modify (set_queue q') ;;
      to ← deref (zget deps_graph from_vertex);
      for_each to visit ;;
      bfs_loop deps_graph fuel'
  end.

(** The state is [num_visits]. *)
Definition BFS (start : Z) (deps_graph : UsageGraph) : M (list Z) unit :=
  zoom (λ nv, {| queue := [start]; is_visited := replicate (length deps_graph) false;
                 num_visits := nv |}) (λ s _, num_visits s)
    (vset is_visited set_visited start true ;;
     bfs_loop deps_graph (length deps_graph)).

Definition push_edge (from to : Z) : M UsageGraph unit :=
  l ← vget id from; vset id (λ l _, l) from (l ++ [to]).

(** The body of the loop over the roots. *)
Definition realloc_root (deps_graph : UsageGraph) (root : Z) : M UsageGraph unit :=
  let num_vertices := zlen deps_graph in
  children ← deref (zget deps_graph root);
  match children with
  | [] => mret ()
  | _ =>
      visits ← zoom (λ _, replicate (length deps_graph) 0) (λ _ s, s)
        (for_each children (λ child, BFS child deps_graph) ;; get);
      for_each (range 0 num_vertices) (λ vertex,
        n ← deref (zget visits vertex);
        if n =? zlen children then push_edge root vertex ;; push_edge vertex root
        else mret ())
  end.

Definition ReallocationGraph `{StdSort} (deps_graph : UsageGraph) : outcome UsageGraph UsageGraph :=
  (for_each (range 0 (zlen deps_graph)) (realloc_root deps_graph) ;;
   modify (fmap (std_sort Z.ltb)) ;; get) (replicate (length deps_graph) []).

(** ** What an assignment has to satisfy *)

(** When memory of the first size is enough for a tensor of the second. *)
Class SizeOrder (T : Type) := {
  covers : T → T → Prop;
  covers_refl x : covers x x;
  covers_trans x y z : covers x y → covers y z → covers x z
}.

#[export] Program Instance size_t_order : SizeOrder Z := {| covers x y := y ≤ x |}.
Solve Obligations with simpl; lia.

#[export] Program Instance uint2_order : SizeOrder uint2 :=
  {| covers x y := y.1 ≤ x.1 ∧ y.2 ≤ x.2 |}.
Solve Obligations with simpl; lia.

#[export] Program Instance uint3_order : SizeOrder uint3 :=
  {| covers x y := y.1.1 ≤ x.1.1 ∧ y.1.2 ≤ x.1.2 ∧ y.2 ≤ x.2 |}.
Solve Obligations with simpl; lia.

(** A shape is only good for the same shape. *)
#[export] Program Instance BHWC_order : SizeOrder BHWC := {| covers := eq |}.
Solve Obligations with simpl; congruence.

Definition records_overlap {T} (a b : TensorUsageRecord T) : Prop :=
  tasks_overlap (first_task a) (last_task a) (first_task b) (last_task b).

(** The records a caller passes: usage intervals of tasks, fewer of them than
    the vector could index. *)
Record valid_records {T} (records : list (TensorUsageRecord T)) : Prop := {
  vr_length : zlen records < size_max;
  vr_interval r : r ∈ records → 0 ≤ first_task r ≤ last_task r ∧ last_task r < size_max
}.

(** The order the strategies that go through the records once rely on. *)
Definition in_task_order {T} (records : list (TensorUsageRecord T)) : Prop :=
  ∀ i j a b, records !! i = Some a → records !! j = Some b → (i < j)%nat → first_task a ≤ first_task b.

(** The contract of [AssignObjectsToTensors]: every tensor has an object that is
    large enough, no object is larger than one of its tensors needs, and tensors
    that are used during a common task do not share one. *)
Record objects_shared_safely {T} `{SizeOrder T} (records : list (TensorUsageRecord T))
    (a : ObjectsAssignment T) : Prop := {
  os_length : length (object_ids a) = length records;
  os_object i r : records !! i = Some r →
    ∃ id sz, object_ids a !! i = Some id ∧ zget (object_sizes a) id = Some sz ∧
             covers sz (tensor_size r);
  os_tight id sz : zget (object_sizes a) id = Some sz →
    ∃ i r, object_ids a !! i = Some id ∧ records !! i = Some r ∧ sz = tensor_size r;
  os_disjoint i j r r' id : records !! i = Some r → records !! j = Some r' → i ≠ j →
    object_ids a !! i = Some id → object_ids a !! j = Some id → ¬ records_overlap r r'
}.

(** The contract of [AssignOffsetsToTensors]: tensors that are used during a
    common task have disjoint memory within the block. *)
Record offsets_shared_safely (records : list (TensorUsageRecord Z)) (a : OffsetsAssignment) : Prop := {
  of_length : length (offsets a) = length records;
  of_inside i r : records !! i = Some r →
    ∃ off, offsets a !! i = Some off ∧ 0 ≤ off ∧ off + tensor_size r ≤ total_size a;
  of_disjoint i j r r' off off' : records !! i = Some r → records !! j = Some r' → i ≠ j →
    offsets a !! i = Some off → offsets a !! j = Some off' → records_overlap r r' →
    ranges_disjoint off (tensor_size r) off' (tensor_size r')
}.

(** ** Building an assignment *)

Section sharing.
Context {T : Type} `{SizeOrder T} (records : list (TensorUsageRecord T)).

(** The tensors without an object. *)
Definition unassigned (ids : list Z) : list Z := filter (λ id, id = kNotAssigned) ids.

Lemma unassigned_insert ids i id :
  ids !! i = Some kNotAssigned → id ≠ kNotAssigned →
  length (unassigned ids) = S (length (unassigned (<[i := id]> ids))).
Proof.
  intros Hi Hid. unfold unassigned.
  rewrite <- (take_drop_middle ids i kNotAssigned Hi) at 1.
  rewrite insert_take_drop by (by eapply lookup_lt_Some).
  rewrite !filter_app, !length_app, !filter_cons, decide_True, decide_False by done. simpl. lia.
Qed.

Lemma unassigned_replicate n : length (unassigned (replicate n kNotAssigned)) = n.
Proof.
  induction n as [|n IH]; [done|]. cbn [replicate]. unfold unassigned in *.
  rewrite filter_cons, decide_True by done. simpl. by rewrite IH.
Qed.

Lemma unassigned_none ids : length (unassigned ids) = 0%nat ↔ kNotAssigned ∉ ids.
Proof.
  rewrite length_zero_iff_nil. unfold unassigned. split.
  - intros Hn Hin. assert (kNotAssigned ∈ filter (λ id, id = kNotAssigned) ids) as Hf.
    { by apply list_elem_of_filter. }
    rewrite Hn in Hf. by apply elem_of_nil in Hf.
  - intros Hn. destruct (filter _ ids) as [|x l] eqn:Hf; [done|]. exfalso.
    assert (x ∈ filter (λ id, id = kNotAssigned) ids) as Hx by (rewrite Hf; by left).
    apply list_elem_of_filter in Hx as [-> Hx]. done.
Qed.
(** The tensors that have an object so far share safely. *)
Record sharing (ids : list Z) (sizes : list T) : Prop := {
  sh_length : length ids = length records;
  sh_sizes : (length sizes + length (unassigned ids) ≤ length records)%nat;
  sh_object i r id : records !! i = Some r → ids !! i = Some id → id ≠ kNotAssigned →
    ∃ sz, zget sizes id = Some sz ∧ covers sz (tensor_size r);
  sh_tight id sz : zget sizes id = Some sz →
    ∃ i r, ids !! i = Some id ∧ records !! i = Some r ∧ sz = tensor_size r;
  sh_disjoint i j r r' id : records !! i = Some r → records !! j = Some r' → i ≠ j →
    ids !! i = Some id → ids !! j = Some id → id ≠ kNotAssigned → ¬ records_overlap r r'
}.

Lemma sharing_start : sharing (replicate (length records) kNotAssigned) [].
Proof.
  split; [by rewrite length_replicate|by rewrite unassigned_replicate|..].
  - intros i r id _ [-> _]%lookup_replicate. done.
  - intros id sz [_ Hz]%zget_Some. by rewrite lookup_nil in Hz.
  - intros i j r r' id _ _ _ [-> _]%lookup_replicate _. done.
Qed.

Lemma sharing_finish ids sizes :
  sharing ids sizes → kNotAssigned ∉ ids →
  objects_shared_safely records {| object_ids := ids; object_sizes := sizes |}.
Proof.
  intros [Hl _ Ho Ht Hd] Hall. split; simpl; [done| |done|].
  - intros i r Hi. destruct (lookup_lt_is_Some_2 ids i) as [id Hid].
    { rewrite Hl. by eapply lookup_lt_Some. }
    destruct (Ho i r id Hi Hid) as (sz & Hsz & Hc).
    { intros ->. by apply Hall; eapply list_elem_of_lookup_2. }
    eauto 10.
  - intros i j r r' id Hi Hj Hij Hid Hjd. eapply (Hd i j); try done.
    intros ->. by apply Hall; eapply list_elem_of_lookup_2.
Qed.

(** The object [id] is made large enough for a tensor of size [size], and no
    larger. *)
Record resized (sizes sizes' : list T) (id : Z) (size : T) : Prop := {
  rs_length : (length sizes' ≤ S (length sizes))%nat;
  rs_covers : ∃ sz, zget sizes' id = Some sz ∧ covers sz size;
  rs_grow id' sz : zget sizes id' = Some sz → ∃ sz', zget sizes' id' = Some sz' ∧ covers sz' sz;
  rs_tight id' sz : zget sizes' id' = Some sz → zget sizes id' = Some sz ∨ (id' = id ∧ sz = size)
}.

Lemma resized_same sizes id sz size :
  zget sizes id = Some sz → covers sz size → resized sizes sizes id size.
Proof.
  intros Hz Hc. split; [lia|by exists sz| |by left].
  intros id' sz' Hz'. exists sz'. split; [done|apply covers_refl].
Qed.

Lemma resized_new sizes size : resized sizes (sizes ++ [size]) (zlen sizes) size.
Proof.
  assert (zget (sizes ++ [size]) (zlen sizes) = Some size) as Hz.
  { apply zget_Some. split; [lia|]. rewrite Nat2Z.id. apply lookup_split. }
  split; [rewrite length_app; simpl; lia| | |].
  - exists size. split; [done|apply covers_refl].
  - intros id' sz [? Hz']%zget_Some. exists sz. split; [|apply covers_refl].
    apply zget_Some. split; [done|]. by apply lookup_app_l_Some.
  - intros id' sz [? Hz']%zget_Some. apply lookup_app_Some in Hz' as [Hz'|[? Hz']].
    + left. by apply zget_Some.
    + apply list_lookup_singleton_Some in Hz' as [? <-]. right. split; [lia|done].
Qed.

(** The tensor at [i] gets the object [id]; no tensor of this object is used
    together with it. *)
Lemma sharing_assign ids sizes sizes' i r id :
  zlen records < size_max →
  sharing ids sizes → records !! i = Some r → ids !! i = Some kNotAssigned → id ≠ kNotAssigned →
  resized sizes sizes' id (tensor_size r) →
  (∀ j r', records !! j = Some r' → ids !! j = Some id → ¬ records_overlap r r') →
  sharing (<[i := id]> ids) sizes'.
Proof.
  intros Hmax [Hl Hs Ho Ht Hd] Hi Hna Hid [Hs' (sz & Hsz & Hc) Hgrow Htight] Hdis.
  assert (i < length ids)%nat as Hlt by by eapply lookup_lt_Some.
  split; [by rewrite length_insert|rewrite (unassigned_insert ids i id) in Hs by done; lia|..].
  - intros j r' id' Hj [(<- & <- & _)|[_ Hjd]]%list_lookup_insert_Some Hne.
    + simplify_eq. eauto.
    + destruct (Ho j r' id' Hj Hjd Hne) as (sz1 & Hz1 & Hc1).
      destruct (Hgrow _ _ Hz1) as (sz2 & Hz2 & Hc2). exists sz2. split; [done|].
      by eapply covers_trans.
  - intros id' sz' [Hz|[-> ->]]%Htight.
    + destruct (Ht _ _ Hz) as (j & r' & Hj & Hrj & ->). exists j, r'. split_and!; [|done|done].
      rewrite list_lookup_insert_ne; [done|]. intros <-. simplify_eq.
      apply zget_range in Hz. unfold kNotAssigned in *. lia.
    + exists i, r. by rewrite list_lookup_insert_eq.
  - intros j k r1 r2 id' Hj Hk Hjk Hjd Hkd Hne.
    apply list_lookup_insert_Some in Hjd as [(<- & <- & _)|[Hij Hjd]];
      apply list_lookup_insert_Some in Hkd as [(<- & Heq & _)|[Hik Hkd]]; simplify_eq.
    + eauto.
    + intros Hov%tasks_overlap_sym. by eapply (Hdis j).
    + by eapply (Hd j k).
Qed.

(** A new object for the tensor. *)
Lemma sharing_new ids sizes i r :
  sharing ids sizes → records !! i = Some r → ids !! i = Some kNotAssigned →
  zlen records < size_max →
  sharing (<[i := zlen sizes]> ids) (sizes ++ [tensor_size r]).
Proof.
  intros Hsh Hi Hna Hmax. pose proof Hsh as [Hl Hs Ho Ht Hd].
  assert (zlen sizes < kNotAssigned).
  { unfold kNotAssigned. lia. }
  eapply sharing_assign; [done|done|done|done|lia|apply resized_new|].
  intros j r' Hj Hid. exfalso. destruct (Ho j r' _ Hj Hid) as (sz & Hz%zget_range & _); lia.
Qed.

End sharing.

(** An object of plain size grows to the maximum. *)
Lemma resized_max sizes id sz size :
  zget sizes id = Some sz → resized sizes (zset id (sz `max` size) sizes) id size.
Proof.
  intros Hz. pose proof (zget_range _ _ _ Hz) as Hr. split.
  - rewrite zset_length. lia.
  - exists (sz `max` size). split; [by apply zget_zset_eq|simpl; lia].
  - intros id' sz' Hz'. destruct (decide (id' = id)) as [->|Hne].
    + rewrite zget_zset_eq by done. eexists. split; [done|]. simplify_eq. simpl. lia.
    + rewrite zget_zset_ne by (done || lia). exists sz'. split; [done|apply covers_refl].
  - intros id' sz' Hz'. destruct (decide (id' = id)) as [->|Hne].
    + rewrite zget_zset_eq in Hz' by done. simplify_eq.
      destruct (decide (size ≤ sz)); [left; rewrite Hz; f_equal; lia|right; split; [done|lia]].
    + rewrite zget_zset_ne in Hz' by (done || lia). by left.
Qed.

(** ** Task profiles: what they hold *)

Definition used_at (t : Z) (r : TensorUsageWithIndex) : Prop :=
  first_task (usage_record r) ≤ t ≤ last_task (usage_record r).
#[export] Instance used_at_dec t r : Decision (used_at t r).
Proof. unfold used_at. apply _. Defined.

Lemma elem_of_with_index records r :
  r ∈ with_index records ↔ 0 ≤ idx r ∧ zget records (idx r) = Some (usage_record r).
Proof.
  unfold with_index. rewrite zget_Some. split.
  - intros (i & x & -> & Hi)%elem_of_lookup_imap. simpl. rewrite Nat2Z.id. split_and!; [lia|lia|done].
  - intros (H0 & _ & Hi). apply elem_of_lookup_imap. exists (Z.to_nat (idx r)), (usage_record r).
    rewrite Z2Nat.id by done. by destruct r.
Qed.

Lemma with_index_fmap records : usage_record <$> with_index records = records.
Proof. unfold with_index. rewrite fmap_imap. apply list_eq. intros i. rewrite list_lookup_imap. by destruct (records !! i). Qed.

Lemma num_tasks_from (n : Z) (l : list (TensorUsageRecord Z)) :
  n ≤ foldl (λ n r, n `max` u64 (last_task r + 1)) n l.
Proof.
  revert n. induction l as [|x l IH]; intros n; simpl; [lia|].
  etransitivity; [|apply IH]. lia.
Qed.

Lemma num_tasks_nonneg records : 0 ≤ num_tasks records.
Proof. apply num_tasks_from. Qed.

Lemma num_tasks_max records r :
  valid_records records → r ∈ records → last_task r < num_tasks records.
Proof.
  intros Hv Hr. unfold num_tasks. apply list_elem_of_split in Hr as (l1 & l2 & Heq).
  destruct (vr_interval _ Hv r) as [? ?]; [rewrite Heq; in_list|].
  rewrite Heq, foldl_app. simpl. eapply Z.lt_le_trans; [|apply num_tasks_from].
  rewrite u64_id by (unfold is_size; lia). lia.
Qed.

(** The profiles before they are sorted. *)
Record collected (n : Z) (rs : list TensorUsageWithIndex) (p : list TaskProfile) : Prop := {
  co_length : length p = Z.to_nat n;
  co_profile t : 0 ≤ t < n → vat [] p t = filter (used_at t) rs
}.

Lemma add_to_profile_spec n rs r (p : list TaskProfile) :
  collected n rs p → 0 ≤ first_task (usage_record r) → last_task (usage_record r) < n →
  wp (for_each (range (first_task (usage_record r)) (last_task (usage_record r) + 1))
        (add_to_profile r)) (λ _, collected n (rs ++ [r])) (λ _, False) p.
Proof.
  intros [Hl Hp] Hf Hn. set (f := first_task _) in *. set (e := last_task _) in *.
  eapply wp_mono; [apply (wp_for_each (λ don p, length p = Z.to_nat n ∧ ∀ t, 0 ≤ t < n →
    vat [] p t = filter (used_at t) rs ++ if decide (t ∈ don) then [r] else []) (λ _, False))| |done].
  - split; [done|]. intros t Ht. rewrite decide_False by apply not_elem_of_nil. rewrite app_nil_r. auto.
  - intros don t todo p' Hsplit [Hl' Hp'].
    assert (f ≤ t ≤ e ∧ t ∉ don) as [Ht Hnew].
    { assert (t ∈ range f (e + 1)) as Hin%elem_of_range by (rewrite Hsplit; in_list).
      pose proof (NoDup_seqZ f (e + 1 - f)) as Hnd. change (seqZ _ _) with (range f (e + 1)) in Hnd.
      rewrite Hsplit in Hnd. apply NoDup_app in Hnd as (_ & Hnd & _). split; [lia|].
      intros Hd. apply (Hnd _ Hd). by left. }
    unfold add_to_profile. apply wp_bind, (wp_vget _ []); [simpl; lia|].
    apply wp_vset; simpl; [lia|]. rewrite zset_length. split; [done|]. intros t' Ht'.
    destruct (decide (t' = t)) as [->|Hne].
    + rewrite vat_zset_eq by lia. rewrite Hp' by lia. rewrite decide_False by done.
      rewrite decide_True by in_list. by rewrite app_nil_r.
    + rewrite vat_zset_ne by lia. rewrite Hp' by lia. f_equal.
      destruct (decide (t' ∈ don)) as [Hin|Hin].
      * by rewrite decide_True by in_list.
      * rewrite decide_False; [done|]. intros [Hx|Hx%list_elem_of_singleton]%elem_of_app; done.
  - intros _ p' [Hl' Hp']. split; [done|]. intros t Ht. rewrite Hp' by done.
    rewrite filter_app. f_equal. rewrite filter_cons, filter_nil.
    destruct (decide (t ∈ range f (e + 1))) as [Hin|Hin]; rewrite elem_of_range in Hin.
    + rewrite decide_True; [done|]. unfold used_at. lia.
    + rewrite decide_False; [done|]. unfold used_at. lia.
Qed.

(** A profile lists the records that are used at its task, larger tensors
    first. *)
Record profiles_of (records : list (TensorUsageRecord Z)) (p : list TaskProfile) : Prop := {
  po_length : length p = Z.to_nat (num_tasks records);
  po_profile t l : zget p t = Some l → l ≡ₚ filter (used_at t) (with_index records);
  po_sorted t l : zget p t = Some l → sorted_by CompareBySize l
}.

Lemma CompareBySize_strict_weak : strict_weak CompareBySize.
Proof. apply (strict_weak_key_gt (λ r, tensor_size (usage_record r))). Qed.

Lemma with_index_in records r : r ∈ with_index records → usage_record r ∈ records.
Proof. intros [_ Hr]%elem_of_with_index. by apply zget_elem in Hr. Qed.

Lemma CalculateTaskProfiles_spec {S} records (s : S) E :
  valid_records records →
  wp (CalculateTaskProfiles records) (λ p s', s' = s ∧ profiles_of records p) E s.
Proof.
  intros Hv. unfold CalculateTaskProfiles. apply wp_zoom, wp_bind.
  eapply wp_mono; [apply (wp_for_each (collected (num_tasks records)) (λ _, False))| |done].
  - split; [by rewrite length_replicate|]. intros t Ht. by rewrite vat_replicate.
  - intros don r todo p Hsplit Hco.
    assert (r ∈ with_index records) as Hin%with_index_in by (rewrite Hsplit; in_list).
    apply add_to_profile_spec; [done|apply (vr_interval _ Hv) in Hin; lia|by apply num_tasks_max].
  - intros _ p [Hl Hp]. simpl. apply wp_gets. split; [done|].
    assert (∀ t l, zget (stable_sort CompareBySize <$> p) t = Some l →
              l = stable_sort CompareBySize (filter (used_at t) (with_index records))) as Hget.
    { intros t l [Ht Hlk]%zget_Some. rewrite list_lookup_fmap in Hlk.
      destruct (p !! Z.to_nat t) as [q|] eqn:Hq; [|done]. simpl in Hlk. simplify_eq. f_equal.
      pose proof (lookup_lt_Some _ _ _ Hq). pose proof (num_tasks_nonneg records).
      rewrite <- Hp by lia. unfold vat. by rewrite (proj2 (zget_Some p t q)). }
    split; [by rewrite length_fmap| |].
    + intros t l ->%Hget. apply stable_sort_perm.
    + intros t l ->%Hget. apply stable_sort_sorted, CompareBySize_strict_weak.
Qed.
