(* ===== verification/ObjectAssignment.v ===== *)
(** * Shared objects for tensors

    The strategies of [src/tflite/delegates/gpu/common/memory_management/] that
    assign tensors to shared objects, one Section each, and the functions of
    [memory_management.cc] that choose between them. *)

From S2P Require Import Prelude UsageRecords.

(** ** State

    The assignment that is built, and the local variables of a strategy. *)

Record state (T R : Type) := { ids : list Z; sizes : list T; locals : R }.
Arguments ids {T R} _.
Arguments sizes {T R} _.
Arguments locals {T R} _.

Definition set_ids {T R} v (s : state T R) : state T R :=
  {| ids := v; sizes := sizes s; locals := locals s |}.
Definition set_sizes {T R} v (s : state T R) : state T R :=
  {| ids := ids s; sizes := v; locals := locals s |}.
Definition update_locals {T R} (f : R → R) : M (state T R) unit :=
  modify (λ s, {| ids := ids s; sizes := sizes s; locals := f (locals s) |}).

Definition push_size {T R} (sz : T) : M (state T R) unit :=
  modify (λ s, set_sizes (sizes s ++ [sz]) s).

(** [assignment->object_ids[i] = assignment->object_sizes.size();
    assignment->object_sizes.push_back(size)] *)
Definition new_object {T R} (i : Z) (size : T) : M (state T R) unit :=
  n ← gets (λ s, zlen (sizes s)); vset ids set_ids i n ;; push_size size.

(** [clear] and [assign], the work of a strategy, and the result. *)
Definition run_assignment {T R A} (num_records : nat) (initial : R) (m : M (state T R) A) {S} :
    M S (ObjectsAssignment T) :=
  zoom (λ _, {| ids := replicate num_records kNotAssigned; sizes := []; locals := initial |})
       (λ _ s, s)
       (m ;; gets (λ s, {| object_ids := ids s; object_sizes := sizes s |})).

(** [for (size_t i = 0; i < num_records; ++i)] with [usage_records[i]] *)
Definition for_records {T S} (records : list (TensorUsageRecord T))
    (body : Z → TensorUsageRecord T → M S unit) : M S unit :=
  for_each (range 0 (zlen records)) (λ i, r ← deref (zget records i); body i r).

(** ** One object per tensor *)

Section naive.
Context {T : Type} `{Inhabited T}.

Definition NaiveAssignment (usage_records : list (TensorUsageRecord T)) {S} :
    M S (ObjectsAssignment T) :=
  run_assignment (length usage_records) ()
    (modify (set_sizes (replicate (length usage_records) inhabitant)) ;;
     for_records usage_records (λ i record,
       vset ids set_ids i i ;; vset sizes set_sizes i (tensor_size record))).
End naive.

(** ** Objects of equal size *)

Section equality_with_hash.
Context {T : Type} `{Countable T}.

Record HashLocals := { hash_pool : gmap T (list Z); hash_in_use : list QueueRecord }.

Definition hash_free (object_id : Z) : M (state T HashLocals) unit :=
  sz ← vget sizes object_id;
  update_locals (λ l, {| hash_pool := <[sz := default [] (hash_pool l !! sz) ++ [object_id]]> (hash_pool l);
                         hash_in_use := hash_in_use l |}).

Definition hash_push (last_task object_id : Z) : M (state T HashLocals) unit :=
  update_locals (λ l, {| hash_pool := hash_pool l;
    hash_in_use := queue_push {| queue_last_task := last_task; queue_object_id := object_id |}
                     (hash_in_use l) |}).

Definition hash_step (i : Z) (r : TensorUsageRecord T) : M (state T HashLocals) unit :=
  l ← gets locals;
  let '(expired, in_use) := pop_expired (first_task r) (hash_in_use l) in
  for_each expired hash_free ;;
  update_locals (λ l, {| hash_pool := hash_pool l; hash_in_use := in_use |}) ;;
  pool ← gets (λ s, hash_pool (locals s));
  match pool !! tensor_size r ≫= last with
  | None => new_object i (tensor_size r)
  | Some id =>
      vset ids set_ids i id ;;
      update_locals (λ l,
        {| hash_pool := <[tensor_size r := removelast (default [] (pool !! tensor_size r))]> pool;
           hash_in_use := hash_in_use l |})
  end ;;
  id ← vget ids i;
  hash_push (last_task r) id.

Definition EqualityAssignmentWithHash (usage_records : list (TensorUsageRecord T)) {S} :
    M S (ObjectsAssignment T) :=
  run_assignment (length usage_records) {| hash_pool := ∅; hash_in_use := [] |}
    (for_records usage_records hash_step).
End equality_with_hash.

Section equality.
Context {T : Type} `{EqDecision T}.

(** The locals are [dealloc_task]. *)
Definition set_dealloc {R} v (s : state T R) : state T (list Z) :=
  {| ids := ids s; sizes := sizes s; locals := v |}.

Fixpoint find_equal (r : TensorUsageRecord T) (objs : list Z) : M (state T (list Z)) Z :=
  match objs with
  | [] => mret kNotAssigned
  | obj :: objs' =>
      d ← vget locals obj;
      sz ← vget sizes obj;
      if bool_decide (d < first_task r ∧ sz = tensor_size r) then mret obj
      else find_equal r objs'
  end.

Definition equality_step (i : Z) (r : TensorUsageRecord T) : M (state T (list Z)) unit :=
  num_objects ← gets (λ s, zlen (sizes s));
  best_obj ← find_equal r (range 0 num_objects);
  if best_obj =? kNotAssigned then
    new_object i (tensor_size r) ;;
    update_locals (λ dealloc_task, dealloc_task ++ [last_task r])
  else
    vset ids set_ids i best_obj ;;
    vset locals set_dealloc best_obj (last_task r).

Definition EqualityAssignment (usage_records : list (TensorUsageRecord T)) {S} :
    M S (ObjectsAssignment T) :=
  run_assignment (length usage_records) [] (for_records usage_records equality_step).
End equality.

(** ** Greedy in the order of the tasks *)

Section in_order.

Record OrderLocals := {
  last_assigned_tensor : list Z;
  pool : list PoolRecord;
  objects_in_use : list QueueRecord
}.

Abbreviation order_state := (state Z OrderLocals).

Definition set_last_assigned v (s : order_state) : order_state :=
  {| ids := ids s; sizes := sizes s;
     locals := {| last_assigned_tensor := v; pool := pool (locals s);
                  objects_in_use := objects_in_use (locals s) |} |}.
Definition update_pool (f : list PoolRecord → list PoolRecord) : M order_state unit :=
  update_locals (λ l, {| last_assigned_tensor := last_assigned_tensor l; pool := f (pool l);
                         objects_in_use := objects_in_use l |}).
Definition update_queue (f : list QueueRecord → list QueueRecord) : M order_state unit :=
  update_locals (λ l, {| last_assigned_tensor := last_assigned_tensor l; pool := pool l;
                         objects_in_use := f (objects_in_use l) |}).

Definition order_free (object_id : Z) : M order_state unit :=
  sz ← vget sizes object_id;
  update_pool (set_insert pool_lt {| object_size := sz; pool_object_id := object_id |}).

(** Whether [i] is found in the sorted vector of the tensors that may take the
    memory of another one. *)
Definition may_reallocate (reallocation_graph : UsageGraph) (from i : Z) : M order_state bool :=
  realloc_options ← deref (zget reallocation_graph from);
  mret (match lower_bound Z.ltb realloc_options i with x :: _ => x =? i | [] => false end).

(** The loop over the pool with a reallocation graph: the best record so far
    and its difference in size. *)
Definition realloc_candidate (reallocation_graph : UsageGraph) (i tensor_size : Z)
    (best : option (PoolRecord * Z)) (p : PoolRecord) : M order_state (option (PoolRecord * Z)) :=
  let size_diff := abs_diff (object_size p) tensor_size in
  if match best with None => true | Some (_, best_size_diff) => size_diff <? best_size_diff end then
    from ← vget (λ s : order_state, last_assigned_tensor (locals s)) (pool_object_id p);
    ok ← may_reallocate reallocation_graph from i;
    mret (if ok : bool then Some (p, size_diff) else best)
  else mret best.

(** The search without one, in a pool that is not empty. *)
Definition closest_in_pool (tensor_size : Z) (pool : list PoolRecord) : option PoolRecord :=
  let key := {| object_size := tensor_size; pool_object_id := 0 |} in
  let larger := head (lower_bound pool_lt pool key) in
  match last (take_while (λ p, pool_lt p key) pool), larger with
  | Some p, None => Some p
  | Some p, Some q =>
      if u64 (tensor_size - object_size p) <? u64 (object_size q - tensor_size) then Some p else Some q
  | None, _ => larger
  end.

Definition erase_pool (p : PoolRecord) (pool : list PoolRecord) : list PoolRecord :=
  filter (λ q, q ≠ p) pool.

Definition find_in_pool (reallocation_graph : option UsageGraph) (i tensor_size : Z) :
    M order_state (option PoolRecord) :=
  free ← gets (λ s, pool (locals s));
  match reallocation_graph with
  | Some graph =>
      best ← fold_m free None (realloc_candidate graph i tensor_size);
      mret (fst <$> best)
  | None =>
      match free with
      | [] => mret None
      | _ =>
          let best_it := closest_in_pool tensor_size free in
          ensure (bool_decide (is_Some best_it)) ;;
          mret best_it
      end
  end.

Definition order_step (reallocation_graph : option UsageGraph) (i : Z) (r : TensorUsageRecord Z) :
    M order_state unit :=
  l ← gets locals;
  let '(expired, in_use) := pop_expired (first_task r) (objects_in_use l) in
  for_each expired order_free ;;
  update_queue (λ _, in_use) ;;
  best_it ← find_in_pool reallocation_graph i (tensor_size r);
  match best_it with
  | None =>
      new_object i (tensor_size r) ;;
      modify (λ s, set_last_assigned (last_assigned_tensor (locals s) ++ [i]) s)
  | Some p =>
      let shared_id := pool_object_id p in
      update_pool (erase_pool p) ;;
      vset ids set_ids i shared_id ;;
      sz ← vget sizes shared_id;
      vset sizes set_sizes shared_id (sz `max` tensor_size r) ;;
      vset (λ s, last_assigned_tensor (locals s)) set_last_assigned shared_id i
  end ;;
  id ← vget ids i;
  update_queue (queue_push {| queue_last_task := last_task r; queue_object_id := id |}).

Definition GreedyInOrderAssignment (usage_records : list (TensorUsageRecord Z))
    (reallocation_graph : option UsageGraph) {S} : M S (ObjectsAssignment Z) :=
  run_assignment (length usage_records)
    {| last_assigned_tensor := []; pool := []; objects_in_use := [] |}
    (for_records usage_records (order_step reallocation_graph)).
End in_order.

Section multidimensional.
Context {T : Type} `{ObjectSize T}.

Record ListLocals := { list_pool : list Z; list_in_use : list QueueRecord }.

(** The best object of the pool so far: its position, its number, and the
    difference in size. *)
Definition covering_candidate (tensor_size : T) (best : option (nat * Z * Z)) (p : nat * Z) :
    M (state T ListLocals) (option (nat * Z * Z)) :=
  shared_object_size ← vget sizes p.2;
  if IsCoveringObject shared_object_size tensor_size then
    let size_diff := AbsDiffInElements shared_object_size tensor_size in
    mret (if match best with None => true | Some (_, best_size_diff) => size_diff <? best_size_diff end
          then Some (p, size_diff) else best)
  else mret best.

Definition multi_step (i : Z) (r : TensorUsageRecord T) : M (state T ListLocals) unit :=
  l ← gets locals;
  let '(expired, in_use) := pop_expired (first_task r) (list_in_use l) in
  let free := list_pool l ++ expired in
  best ← fold_m (imap pair free) None (covering_candidate (tensor_size r));
  match best with
  | None =>
      new_object i (tensor_size r) ;;
      update_locals (λ _, {| list_pool := free; list_in_use := in_use |})
  | Some (pos, shared_id, _) =>
      vset ids set_ids i shared_id ;;
      update_locals (λ _, {| list_pool := delete pos free; list_in_use := in_use |})
  end ;;
  id ← vget ids i;
  update_locals (λ l, {| list_pool := list_pool l;
    list_in_use := queue_push {| queue_last_task := last_task r; queue_object_id := id |}
                     (list_in_use l) |}).

Definition GreedyInOrderAssignmentMultidimensional (usage_records : list (TensorUsageRecord T)) {S} :
    M S (ObjectsAssignment T) :=
  run_assignment (length usage_records) {| list_pool := []; list_in_use := [] |}
    (for_records usage_records multi_step).
End multidimensional.

(** ** Greedy by the breadth of the tasks *)

Section by_breadth.

(** For every object, the records it is used by, in a [std::set] ordered by
    their first task. *)
Abbreviation SharedObjectSchedule := (list (TensorUsageRecord Z)).
Abbreviation breadth_state := (state Z (list SharedObjectSchedule)).

Definition record_lt (a b : TensorUsageRecord Z) : bool := first_task a <? first_task b.

Definition set_schedules v (s : breadth_state) : breadth_state :=
  {| ids := ids s; sizes := sizes s; locals := v |}.

(** Whether the usage interval of [rec] is free: no interval of the schedule
    that starts later begins before its end, and the one before has ended. *)
Definition schedule_free (schedule : SharedObjectSchedule) (rec : TensorUsageRecord Z) : bool :=
  match lower_bound record_lt schedule rec with
  | it :: _ => negb (first_task it <=? last_task rec)
  | [] => true
  end &&
  match last (take_while (λ r, record_lt r rec) schedule) with
  | Some it => negb (last_task it >=? first_task rec)
  | None => true
  end.

Definition best_breadth_object (rec : TensorUsageRecord Z) (num_objects best_object obj_id : Z) :
    M breadth_state Z :=
  skip ← (if negb (best_object =? num_objects) then
            best_size ← vget sizes best_object;
            cur_size ← vget sizes obj_id;
            mret (if best_size <? tensor_size rec then cur_size <=? best_size
                  else (cur_size <? tensor_size rec) || (cur_size >=? best_size))
          else mret false);
  if skip : bool then mret best_object
  else
    schedule ← vget locals obj_id;
    mret (if schedule_free schedule rec then obj_id else best_object).

Definition breadth_tensor (tensor_info : TensorUsageWithIndex) : M breadth_state unit :=
  id ← vget ids (idx tensor_info);
  if negb (id =? kNotAssigned) then mret ()
  else
    let rec := usage_record tensor_info in
    num_objects ← gets (λ s, zlen (locals s));
    best_object ← fold_m (range 0 num_objects) num_objects (best_breadth_object rec num_objects);
    (if best_object =? num_objects then
       update_locals (λ obj_schedules, obj_schedules ++ [[rec]]) ;;
       push_size (tensor_size rec)
     else
       schedule ← vget locals best_object;
       vset locals set_schedules best_object (set_insert record_lt rec schedule) ;;
       sz ← vget sizes best_object;
       vset sizes set_sizes best_object (sz `max` tensor_size rec)) ;;
    vset ids set_ids (idx tensor_info) best_object.

(** [TaskBreadthWithId] *)
Record TaskBreadthWithId := { breadth : Z; task_id : Z }.

Definition breadth_lt (a b : TaskBreadthWithId) : bool := breadth a <? breadth b.

Definition task_breadth_of (task_profile : TaskProfile) : Z :=
  foldl (λ b r, u64 (b + tensor_size (usage_record r))) 0 task_profile.

Definition tasks_by_breadth (task_profiles : list TaskProfile) : list TaskBreadthWithId :=
  let task_breadth :=
    imap (λ i p, {| breadth := task_breadth_of p; task_id := Z.of_nat i |}) task_profiles in
  rev (stable_sort breadth_lt (rev task_breadth)).

Definition GreedyByBreadthAssignment (usage_records : list (TensorUsageRecord Z)) {S} :
    M S (ObjectsAssignment Z) :=
  task_profiles ← CalculateTaskProfiles usage_records;
  run_assignment (length usage_records) []
    (for_each (tasks_by_breadth task_profiles) (λ task,
       profile ← deref (zget task_profiles (task_id task));
       for_each profile breadth_tensor) ;;
     object_ids ← gets ids;
     for_each object_ids (λ obj_id, ensure (negb (obj_id =? kNotAssigned)))).
End by_breadth.

(** ** Greedy by size and distance *)

Section by_size_dist.

Record SizeDistPriorityInfo := {
  position : Z;
  info_tensor_size : Z;
  dist : list Z;
  best_dist : Z;
  best_object : Z;
  tensor_usage_id : Z
}.

(** [operator>] *)
Definition higher_priority (a b : SizeDistPriorityInfo) : bool :=
  (position a <? position b)
  || ((position a =? position b)
      && ((best_dist a <? best_dist b)
          || ((best_dist a =? best_dist b) && (info_tensor_size a >? info_tensor_size b)))).

Definition set_dist v (p : SizeDistPriorityInfo) := {| position := position p;
  info_tensor_size := info_tensor_size p; dist := v; best_dist := best_dist p;
  best_object := best_object p; tensor_usage_id := tensor_usage_id p |}.
Definition set_best (d obj : Z) (p : SizeDistPriorityInfo) := {| position := position p;
  info_tensor_size := info_tensor_size p; dist := dist p; best_dist := d;
  best_object := obj; tensor_usage_id := tensor_usage_id p |}.

(** The best distance and the object of the loop of [RecalcBestDist]. *)
Definition smaller_dist (best : Z * Z) (entry : Z * Z) : Z * Z :=
  if entry.2 <? best.1 then (entry.2, entry.1) else best.

Definition RecalcBestDist (p : SizeDistPriorityInfo) : SizeDistPriorityInfo :=
  let '(d, obj) := foldl smaller_dist (kNotAssigned, best_object p)
                     (imap (λ i d, (Z.of_nat i, d)) (dist p)) in
  set_best d obj p.

Abbreviation dist_state := (state Z (list SizeDistPriorityInfo)).

Definition set_infos v (s : dist_state) : dist_state :=
  {| ids := ids s; sizes := sizes s; locals := v |}.

(** [while (pos < positional_max.size() && positional_max[pos] >= tensor_size) ++pos] *)
Definition first_smaller (positional_max : list Z) (tensor_size : Z) : Z :=
  zlen (take_while (λ m, m >=? tensor_size) positional_max).

Definition initial_info (positional_max : list Z) (rec_id : Z) (r : TensorUsageRecord Z) :
    M dist_state unit :=
  let pos := first_smaller positional_max (tensor_size r) in
  ensure (negb (pos =? 0)) ;;
  update_locals (λ infos, infos ++ [{| position := u64 (pos - 1); info_tensor_size := tensor_size r;
    dist := []; best_dist := kNotAssigned; best_object := kNotAssigned;
    tensor_usage_id := rec_id |}]).

(** The search for the unassigned tensor of the highest priority. *)
Definition best_info (best_info_id info_id : Z) : M dist_state Z :=
  info ← vget locals info_id;
  id ← vget ids (tensor_usage_id info);
  if negb (id =? kNotAssigned) then mret best_info_id
  else if best_info_id =? kNotAssigned then mret info_id
  else
    best ← vget locals best_info_id;
    mret (if higher_priority info best then info_id else best_info_id).

(** The positive distance between two usage intervals, if there is one. *)
Definition interval_dist (rec best : TensorUsageRecord Z) : Z :=
  if last_task rec <? first_task best then u64 (first_task best - last_task rec)
  else if last_task best <? first_task rec then u64 (first_task rec - last_task best)
  else kNotAssigned.

(** The loop that updates the distances of the tensors that are left. *)
Definition update_info (usage_records : list (TensorUsageRecord Z)) (best_rec : TensorUsageRecord Z)
    (best_obj_id : Z) (new_object : bool) (info_id : Z) : M dist_state unit :=
  info ← vget locals info_id;
  id ← vget ids (tensor_usage_id info);
  if negb (id =? kNotAssigned) then mret ()
  else
    skip ← (if new_object then mret false
            else d ← deref (zget (dist info) best_obj_id); mret (d =? kNotAssigned));
    if skip : bool then mret ()
    else
      rec ← deref (zget usage_records (tensor_usage_id info));
      let d := interval_dist rec best_rec in
      info' ← (if new_object then mret (set_dist (dist info ++ [d]) info)
               else
                 old ← deref (zget (dist info) best_obj_id);
                 if d =? kNotAssigned then
                   let info' := set_dist (zset best_obj_id kNotAssigned (dist info)) info in
                   mret (if best_object info =? best_obj_id then RecalcBestDist info' else info')
                 else mret (set_dist (zset best_obj_id (old `min` d) (dist info)) info));
      vset locals set_infos info_id
        (if d <? best_dist info' then set_best d best_obj_id info' else info').

(** One iteration of the outer loop. *)
Definition assign_best (usage_records : list (TensorUsageRecord Z)) (it : Z) : M dist_state unit :=
  let num_records := zlen usage_records in
  best_info_id ← fold_m (range 0 num_records) kNotAssigned best_info;
  ensure (negb (best_info_id =? kNotAssigned)) ;;
  info ← vget locals best_info_id;
  let best_rec_id := tensor_usage_id info in
  best_rec ← deref (zget usage_records best_rec_id);
  let new := best_dist info =? kNotAssigned in
  best_obj_id ← (if new then
                   n ← gets (λ s, zlen (sizes s));
                   new_object best_rec_id (tensor_size best_rec) ;; mret n
                 else
                   vset ids set_ids best_rec_id (best_object info) ;;
                   sz ← vget sizes (best_object info);
                   vset sizes set_sizes (best_object info) (sz `max` tensor_size best_rec) ;;
                   mret (best_object info));
  for_each (range 0 num_records) (update_info usage_records best_rec best_obj_id new).

Definition GreedyBySizeDistPriorityAssignment (usage_records : list (TensorUsageRecord Z)) {S} :
    M S (ObjectsAssignment Z) :=
  positional_max ← CalculatePositionalMaximums usage_records;
  run_assignment (length usage_records) []
    (for_records usage_records (initial_info positional_max) ;;
     for_each (range 0 (zlen usage_records)) (assign_best usage_records)).
End by_size_dist.
