(* ===== verification/SharingProofs.v ===== *)
(** * The sharing strategies are safe

    Every strategy of ObjectAssignment gives every tensor an object that is
    large enough, and never the same object to two tensors that are used during a
    common task. The strategies that go through the records in the order of
    their tasks share one invariant about the objects in use and the free ones. *)

From S2P Require Import Prelude UsageRecords ObjectAssignment.

(** ** Rules for the loops *)

Lemma wp_for_records {T S} (records : list (TensorUsageRecord T)) (I : nat → S → Prop) E body s :
  I 0%nat s →
  (∀ n r s', records !! n = Some r → I n s' → wp (body (Z.of_nat n) r) (λ _, I (n + 1)%nat) E s') →
  wp (for_records records body) (λ _, I (length records)) E s.
Proof.
  intros H0 Hstep. unfold for_records.
  eapply wp_mono; [apply (wp_for_each (λ don, I (length don)) E)| |done].
  - done.
  - intros don i todo s' Hsplit HI. destruct (range_split _ _ _ _ Hsplit) as [-> Hi].
    destruct (zget_is_Some records (zlen don)) as [r Hr]; [lia|].
    apply wp_bind. eapply wp_deref; [exact Hr|].
    apply zget_Some in Hr as [_ Hr]. rewrite Nat2Z.id in Hr. rewrite length_app. simpl. by apply Hstep.
  - simpl. intros _ s' HI. unfold range in HI. rewrite length_seqZ in HI.
    by replace (Z.to_nat (zlen records - 0)) with (length records) in HI by lia.
Qed.

Lemma run_assignment_spec {T} `{SizeOrder T} {R A S} (records : list (TensorUsageRecord T))
    (initial : R) (m : M (state T R) A) (s : S) E :
  wp m (λ _ st, sharing records (ids st) (sizes st) ∧ kNotAssigned ∉ ids st) (λ _, False)
     {| ids := replicate (length records) kNotAssigned; sizes := []; locals := initial |} →
  wp (run_assignment (length records) initial m)
     (λ a s', s' = s ∧ objects_shared_safely records a) E s.
Proof.
  intros Hm. unfold run_assignment. apply wp_zoom, wp_bind.
  eapply wp_mono; [exact Hm| |done]. intros _ st [Hsh Hall]. simpl. apply wp_gets.
  split; [done|]. by apply sharing_finish.
Qed.

Lemma vget_nat {A} (l : list A) n x : l !! n = Some x → zget l (Z.of_nat n) = Some x.
Proof. intros Hn. apply zget_Some. rewrite Nat2Z.id. split; [lia|done]. Qed.

Lemma zset_nat {A} n (x : A) l : zset (Z.of_nat n) x l = <[n := x]> l.
Proof. unfold zset. by rewrite Nat2Z.id. Qed.

(** ** In the order of the records *)

(** The first [n] tensors have an object, the others do not. *)
Definition assigned_upto (n : nat) (ids : list Z) : Prop :=
  ∀ j id, ids !! j = Some id → id = kNotAssigned ↔ (n ≤ j)%nat.

Lemma assigned_upto_start n : assigned_upto 0 (replicate n kNotAssigned).
Proof. intros j id [-> _]%lookup_replicate. split; [lia|done]. Qed.

Lemma assigned_upto_end n ids : length ids = n → assigned_upto n ids → kNotAssigned ∉ ids.
Proof.
  intros Hl Hu [j Hj]%list_elem_of_lookup. pose proof (lookup_lt_Some _ _ _ Hj).
  destruct (Hu j _ Hj) as [Hn _]. specialize (Hn eq_refl). lia.
Qed.

Lemma assigned_upto_next n ids id :
  id ≠ kNotAssigned → assigned_upto n ids → assigned_upto (n + 1) (<[n := id]> ids).
Proof.
  intros Hid Hu j id' [(<- & <- & _)|[Hne Hj]]%list_lookup_insert_Some; [split; [done|lia]|].
  rewrite (Hu j id' Hj). lia.
Qed.

Section in_record_order.
Context {T : Type} `{SizeOrder T} (records : list (TensorUsageRecord T)).
Hypothesis valid : valid_records records.

(** What the strategies with a queue of objects in use and a pool of free
    objects keep before the record [n]: the queue and the pool share out the
    objects; the queue knows until when an object is used; nothing in the pool is
    used by the time of a record that is still to come. *)
Record pool_inv (n : nat) (ids : list Z) (sizes : list T) (in_use : list QueueRecord)
    (free : list Z) : Prop := {
  pi_sharing : sharing records ids sizes;
  pi_upto : assigned_upto n ids;
  pi_objects : (queue_object_id <$> in_use) ++ free ≡ₚ range 0 (zlen sizes);
  pi_in_use q j r : q ∈ in_use → ids !! j = Some (queue_object_id q) → records !! j = Some r →
    last_task r ≤ queue_last_task q;
  pi_free o j r k r' : o ∈ free → ids !! j = Some o → records !! j = Some r →
    records !! k = Some r' → (n ≤ k)%nat → last_task r < first_task r'
}.

Lemma pool_inv_start : pool_inv 0 (replicate (length records) kNotAssigned) [] [] [].
Proof.
  split; [apply sharing_start|apply assigned_upto_start|done|..].
  - intros q j r Hq. by apply elem_of_nil in Hq.
  - intros o j r k r' Ho. by apply elem_of_nil in Ho.
Qed.

Lemma pool_inv_nodup n ids sizes in_use free :
  pool_inv n ids sizes in_use free → NoDup ((queue_object_id <$> in_use) ++ free).
Proof. intros Hi. rewrite (pi_objects _ _ _ _ _ Hi). apply NoDup_seqZ. Qed.

Lemma pool_inv_range n ids sizes in_use free o :
  pool_inv n ids sizes in_use free → o ∈ (queue_object_id <$> in_use) ∨ o ∈ free →
  0 ≤ o < zlen sizes.
Proof. intros Hi Ho. apply elem_of_range. rewrite <- (pi_objects _ _ _ _ _ Hi). by apply elem_of_app. Qed.

Lemma objects_bound n ids sizes in_use free r :
  pool_inv n ids sizes in_use free → records !! n = Some r → zlen sizes < kNotAssigned.
Proof.
  intros Hi Hr. pose proof (sh_sizes _ _ _ (pi_sharing _ _ _ _ _ Hi)). pose proof (vr_length _ valid).
  unfold kNotAssigned. lia.
Qed.

(** The tensor has not been assigned yet. *)
Lemma upto_lookup n ids sizes r :
  sharing records ids sizes → assigned_upto n ids → records !! n = Some r → ids !! n = Some kNotAssigned.
Proof.
  intros Hs Hu Hr. destruct (lookup_lt_is_Some_2 ids n) as [id Hid].
  { rewrite (sh_length _ _ _ Hs). by eapply lookup_lt_Some. }
  rewrite Hid. f_equal. by apply (Hu n id Hid).
Qed.

Lemma pool_inv_perm n ids sizes in_use free free' :
  free ≡ₚ free' → pool_inv n ids sizes in_use free → pool_inv n ids sizes in_use free'.
Proof.
  intros Hp [H1 H2 H3 H4 H5]. split; [done|done|by rewrite <- Hp|done|].
  intros o j r k r' Ho. rewrite <- Hp in Ho. by apply H5.
Qed.

(** Objects that are no longer in use go to the pool. *)
Lemma pop_expired_app t q ids rest :
  pop_expired t q = (ids, rest) →
  ∃ popped, q = popped ++ rest ∧ ids = queue_object_id <$> popped ∧
            ∀ x, x ∈ popped → queue_last_task x < t.
Proof.
  revert ids rest. induction q as [|x q IH]; intros ids rest; simpl.
  - intros [= <- <-]. exists []. split_and!; [done|done|]. by intros x ?%elem_of_nil.
  - destruct (Z.ltb_spec (queue_last_task x) t) as [Hx|Hx].
    + destruct (pop_expired t q) as [ids' rest'] eqn:Hp. intros [= <- <-].
      destruct (IH ids' rest' eq_refl) as (popped & -> & -> & Hall). exists (x :: popped).
      split_and!; [done|done|]. intros y [->|Hy]%elem_of_cons; auto.
    + intros [= <- <-]. exists []. split_and!; [done|done|]. by intros y ?%elem_of_nil.
Qed.

Lemma pool_inv_pop n ids sizes in_use free r expired rest :
  in_task_order records → records !! n = Some r →
  pop_expired (first_task r) in_use = (expired, rest) →
  pool_inv n ids sizes in_use free → pool_inv n ids sizes rest (free ++ expired).
Proof.
  intros Hord Hr (popped & -> & -> & Hall)%pop_expired_app [H1 H2 H3 H4 H5].
  split; [done|done|..].
  - rewrite <- H3, fmap_app. solve_Permutation.
  - intros q j r' Hq. apply H4. in_list.
  - intros o j rj k rk [Ho|(q & -> & Hq)%list_elem_of_fmap]%elem_of_app Hj Hrj Hk Hnk; [by eauto|].
    assert (last_task rj ≤ queue_last_task q) by (eapply H4; [|done|done]; in_list).
    assert (first_task r ≤ first_task rk).
    { destruct (decide (n = k)) as [->|Hne]; [by simplify_eq|]. eapply (Hord n k); [done|done|lia]. }
    specialize (Hall q Hq). lia.
Qed.

Lemma queue_push_perm x q : queue_push x q ≡ₚ x :: q.
Proof. apply stable_insert_perm. Qed.

(** The current tensor gets a new object. *)
Lemma pool_inv_new n ids sizes in_use free r :
  records !! n = Some r → pool_inv n ids sizes in_use free →
  pool_inv (n + 1) (<[n := zlen sizes]> ids) (sizes ++ [tensor_size r])
    (queue_push {| queue_last_task := last_task r; queue_object_id := zlen sizes |} in_use) free.
Proof.
  intros Hr Hi. pose proof (objects_bound _ _ _ _ _ _ Hi Hr) as Hb.
  pose proof Hi as [H1 H2 H3 H4 H5].
  assert (∀ j, ids !! j = Some (zlen sizes) → False) as Hfresh.
  { intros j Hj. assert (is_Some (records !! j)) as [rj Hrj].
    { apply lookup_lt_is_Some_2. rewrite <- (sh_length _ _ _ H1). by eapply lookup_lt_Some. }
    destruct (sh_object _ _ _ H1 j rj _ Hrj Hj) as (? & Hz%zget_range & _); lia. }
  split.
  - apply sharing_new; [done|done|by eapply upto_lookup|apply (vr_length _ valid)].
  - apply assigned_upto_next; [lia|done].
  - rewrite queue_push_perm, length_app. simpl. rewrite Nat2Z.inj_add, range_snoc by lia. rewrite <- H3.
    solve_Permutation.
  - intros q j r' Hq Hj Hrj. rewrite queue_push_perm in Hq.
    apply list_lookup_insert_Some in Hj as [(<- & Heq & _)|[Hne Hj]].
    + simplify_eq. apply elem_of_cons in Hq as [->|Hq]; [done|].
      destruct (pool_inv_range _ _ _ _ _ (queue_object_id q) Hi); [|lia]. left. by apply list_elem_of_fmap_2.
    + apply elem_of_cons in Hq as [->|Hq]; [by apply Hfresh in Hj|]. by eapply H4.
  - intros o j rj k rk Ho [(<- & <- & _)|[Hne Hj]]%list_lookup_insert_Some Hrj Hk Hnk.
    + destruct (pool_inv_range _ _ _ _ _ (zlen sizes) Hi); [by right|lia].
    + eapply (H5 o j); eauto. lia.
Qed.

(** The current tensor gets an object of the pool, which may have to grow. *)
Lemma pool_inv_reuse n ids sizes sizes' in_use free free' id r :
  records !! n = Some r → free ≡ₚ id :: free' → pool_inv n ids sizes in_use free →
  length sizes' = length sizes → resized sizes sizes' id (tensor_size r) →
  pool_inv (n + 1) (<[n := id]> ids) sizes'
    (queue_push {| queue_last_task := last_task r; queue_object_id := id |} in_use) free'.
Proof.
  intros Hr Hperm Hi Hlen Hsz. pose proof (objects_bound _ _ _ _ _ _ Hi Hr) as Hb.
  pose proof (pool_inv_nodup _ _ _ _ _ Hi) as Hnd. rewrite Hperm in Hnd.
  apply NoDup_app in Hnd as (_ & Hdis & [Hid _]%NoDup_cons).
  pose proof Hi as [H1 H2 H3 H4 H5].
  assert (id ∈ free) as Hfree by (rewrite Hperm; by left).
  destruct (pool_inv_range _ _ _ _ _ id Hi) as [Hid0 Hid1]; [by right|].
  assert (∀ j rj, ids !! j = Some id → records !! j = Some rj → last_task rj < first_task r) as Hbefore.
  { intros j rj Hj Hrj. eapply (H5 id j); [done|done|done|exact Hr|lia]. }
  assert (first_task r ≤ last_task r) as Hfl.
  { apply list_elem_of_lookup_2, (vr_interval _ valid) in Hr. lia. }
  split.
  - eapply (sharing_assign _ ids sizes);
      [apply (vr_length _ valid)|done|done|by eapply upto_lookup|lia|done|].
    intros j rj Hrj Hj [? ?]. specialize (Hbefore j rj Hj Hrj). lia.
  - apply assigned_upto_next; [lia|done].
  - rewrite queue_push_perm, Hlen, <- H3, Hperm. simpl. solve_Permutation.
  - intros q j r' Hq Hj Hrj. rewrite queue_push_perm in Hq.
    apply list_lookup_insert_Some in Hj as [(<- & Heq & _)|[Hne Hj]].
    + simplify_eq. apply elem_of_cons in Hq as [->|Hq]; [done|].
      exfalso. eapply Hdis; [by apply list_elem_of_fmap_2|left].
    + apply elem_of_cons in Hq as [->|Hq]; [|by eapply H4]. simpl in *.
      specialize (Hbefore j r' Hj Hrj). lia.
  - intros o j rj k rk Ho [(<- & <- & _)|[Hne Hj]]%list_lookup_insert_Some Hrj Hk Hnk; [done|].
    eapply (H5 o j); [rewrite Hperm; by right|done|done|exact Hk|lia].
Qed.
End in_record_order.

(** ** One object per tensor *)

Lemma NaiveAssignment_safe {T} `{SizeOrder T, Inhabited T} (records : list (TensorUsageRecord T)) {S} (s : S) E :
  valid_records records →
  wp (NaiveAssignment records) (λ a s', s' = s ∧ objects_shared_safely records a) E s.
Proof.
  intros Hv. apply run_assignment_spec. apply wp_bind, wp_modify. simpl.
  eapply wp_mono; [apply (wp_for_records records (λ n (st : state T ()),
    length (ids st) = length records ∧ length (sizes st) = length records ∧
    (∀ j r, records !! j = Some r → (j < n)%nat →
       ids st !! j = Some (Z.of_nat j) ∧ sizes st !! j = Some (tensor_size r)) ∧
    ∀ j, (n ≤ j < length records)%nat → ids st !! j = Some kNotAssigned) (λ _, False))| |done].
  - simpl. rewrite !length_replicate. split_and!; [done|done|lia|].
    intros j [_ Hj]. by apply lookup_replicate_2.
  - intros n r st Hr (Hl1 & Hl2 & Hdone & Htodo). pose proof (lookup_lt_Some _ _ _ Hr).
    apply wp_bind, wp_vset; [simpl; lia|]. apply wp_vset; [simpl; lia|]. simpl.
    rewrite !zset_nat, !length_insert. split_and!; [done|done|..].
    + intros j r' Hj Hjn. destruct (decide (j = n)) as [->|Hne].
      * simplify_eq. rewrite !list_lookup_insert_eq by lia. done.
      * rewrite !list_lookup_insert_ne by done. apply Hdone; [done|lia].
    + intros j Hj. rewrite list_lookup_insert_ne by lia. apply Htodo. lia.
  - simpl. intros _ st (Hl1 & Hl2 & Hdone & _). pose proof (vr_length _ Hv).
    assert (∀ j id, ids st !! j = Some id → id = Z.of_nat j ∧ (j < length records)%nat) as Hids.
    { intros j id Hj. pose proof (lookup_lt_Some _ _ _ Hj).
      destruct (lookup_lt_is_Some_2 records j) as [r Hr]; [lia|].
      destruct (Hdone j r Hr) as [Hid _]; [lia|]. split; [congruence|lia]. }
    split.
    + split; [done|rewrite Hl2| | |].
      * rewrite (proj2 (unassigned_none (ids st))); [lia|].
        intros (j & Hj)%list_elem_of_lookup. apply Hids in Hj. unfold kNotAssigned in Hj. lia.
      * intros i r id Hi Hid _. destruct (Hids i id Hid) as [-> Hlt].
        exists (tensor_size r). split; [|apply covers_refl]. apply vget_nat. by apply Hdone.
      * intros id sz [Hge Hz]%zget_Some. pose proof (lookup_lt_Some _ _ _ Hz).
        destruct (lookup_lt_is_Some_2 records (Z.to_nat id)) as [r Hr]; [lia|].
        destruct (Hdone _ r Hr) as [Hid Hsz]; [lia|]. exists (Z.to_nat id), r.
        rewrite Hid, Z2Nat.id by done. split_and!; [done|done|congruence].
      * intros i j r r' id Hi Hj Hij [-> _]%Hids [? _]%Hids. lia.
    + intros (j & Hj)%list_elem_of_lookup. apply Hids in Hj. unfold kNotAssigned in Hj. lia.
Qed.

(** ** Objects of equal size, found by a hash map *)

Definition flat {T} `{Countable T} (m : gmap T (list Z)) : list Z := concat ((map_to_list m).*2).

Lemma flat_insert {T} `{Countable T} (m : gmap T (list Z)) k v :
  flat (<[k := v]> m) ≡ₚ v ++ flat (delete k m).
Proof.
  unfold flat. rewrite <- insert_delete_eq.
  rewrite map_to_list_insert by apply lookup_delete_eq. done.
Qed.

Lemma flat_lookup {T} `{Countable T} (m : gmap T (list Z)) k :
  flat m ≡ₚ default [] (m !! k) ++ flat (delete k m).
Proof.
  destruct (m !! k) as [v|] eqn:Hk; simpl.
  - rewrite <- flat_insert, insert_id by done. done.
  - by rewrite delete_id.
Qed.

Lemma removelast_last (l : list Z) x : last l = Some x → l = removelast l ++ [x].
Proof.
  intros (l' & ->)%last_Some. by rewrite removelast_last.
Qed.

Section hash.
Context {T : Type} `{Countable T, !SizeOrder T} (records : list (TensorUsageRecord T)).
Hypothesis valid : valid_records records.
Hypothesis ordered : in_task_order records.

(** The pool files its objects under their size. *)
Definition filed (m : gmap T (list Z)) (sizes : list T) : Prop :=
  ∀ sz l o, m !! sz = Some l → o ∈ l → zget sizes o = Some sz.

Definition hash_inv (n : nat) (in_use : list QueueRecord) (free : list Z) (st : state T HashLocals) : Prop :=
  hash_in_use (locals st) = in_use ∧
  filed (hash_pool (locals st)) (sizes st) ∧
  flat (hash_pool (locals st)) ≡ₚ free ∧
  pool_inv records n (ids st) (sizes st) in_use free.

(** Freeing objects only changes the pool. *)
Lemma hash_free_all (expired : list Z) (st : state T HashLocals) :
  filed (hash_pool (locals st)) (sizes st) → (∀ o, o ∈ expired → 0 ≤ o < zlen (sizes st)) →
  wp (for_each expired hash_free)
    (λ _ st', ids st' = ids st ∧ sizes st' = sizes st ∧
       hash_in_use (locals st') = hash_in_use (locals st) ∧
       filed (hash_pool (locals st')) (sizes st) ∧
       flat (hash_pool (locals st')) ≡ₚ flat (hash_pool (locals st)) ++ expired) (λ _, False) st.
Proof.
  intros Hfiled Hexp.
  apply (wp_for_each (λ don st', ids st' = ids st ∧ sizes st' = sizes st ∧
       hash_in_use (locals st') = hash_in_use (locals st) ∧
       filed (hash_pool (locals st')) (sizes st) ∧
       flat (hash_pool (locals st')) ≡ₚ flat (hash_pool (locals st)) ++ don)).
  { by rewrite app_nil_r. }
  intros don o todo st' Hsplit (Hi & Hs & Hq & Hf & Hp).
  destruct (zget_is_Some (sizes st) o) as [sz Hsz]; [apply Hexp; rewrite Hsplit; in_list|].
  unfold hash_free. apply wp_bind. eapply (wp_vget_Some sizes); [by rewrite Hs|].
  apply wp_modify. simpl. split_and!; [done|done|done|..].
  - intros sz' l o' [(<- & <-)|[Hne Hl]]%lookup_insert_Some Ho'; [|by eapply Hf].
    apply elem_of_app in Ho' as [Ho'|Ho'%list_elem_of_singleton]; [|by subst].
    destruct (hash_pool (locals st') !! sz) eqn:Hl; [by eapply Hf|by apply elem_of_nil in Ho'].
  - rewrite flat_insert, (app_assoc _ don), <- Hp, (flat_lookup (hash_pool (locals st')) sz).
    solve_Permutation.
Qed.

Lemma hash_step_spec n r st in_use free :
  records !! n = Some r → hash_inv n in_use free st →
  wp (hash_step (Z.of_nat n) r) (λ _ st', ∃ in_use' free', hash_inv (n + 1) in_use' free' st') (λ _, False) st.
Proof.
  intros Hr (Hq & Hf & Hp & Hinv). unfold hash_step. apply wp_bind, wp_gets. rewrite Hq.
  destruct (pop_expired (first_task r) in_use) as [expired rest] eqn:Hpop.
  pose proof (pool_inv_pop _ _ _ _ _ _ _ _ _ ordered Hr Hpop Hinv) as Hinv1.
  assert (length (ids st) = length records) as Hlen by apply (sh_length _ _ _ (pi_sharing _ _ _ _ _ _ Hinv)).
  pose proof (lookup_lt_Some _ _ _ Hr) as Hn.
  apply wp_bind. eapply wp_mono; [apply hash_free_all; [done|]| |done].
  { intros o Ho. eapply pool_inv_range; [exact Hinv1|right; in_list]. }
  intros _ st1 (Hi1 & Hs1 & Hq1 & Hf1 & Hp1). rewrite Hp in Hp1. rewrite <- Hi1 in Hlen.
  apply wp_bind, wp_modify. simpl. apply wp_bind, wp_gets. simpl.
  destruct (hash_pool (locals st1) !! tensor_size r ≫= last) as [id|] eqn:Hlast.
  - apply bind_Some in Hlast as (l & Hl & Hlast). rewrite Hl. simpl.
    apply wp_bind, wp_bind, wp_vset; [simpl; lia|]. simpl. apply wp_modify. simpl.
    apply wp_bind. eapply (wp_vget_Some ids).
    { simpl. apply zget_zset_eq. lia. }
    apply wp_modify. simpl. pose proof (removelast_last _ _ Hlast) as Hrl.
    eexists _, (removelast l ++ flat (delete (tensor_size r) (hash_pool (locals st1)))).
    split_and!; simpl; [reflexivity|..].
    + rewrite Hs1. intros sz l' o [(<- & <-)|[Hne Hl']]%lookup_insert_Some Ho; eapply Hf1; try done.
      rewrite Hrl. in_list.
    + by rewrite flat_insert.
    + rewrite zset_nat, Hi1, Hs1. assert (zget (sizes st) id = Some (tensor_size r)) as Hsz.
      { eapply Hf1; [exact Hl|]. rewrite Hrl. in_list. }
      eapply pool_inv_reuse; [done|done| |exact Hinv1|done|].
      * rewrite <- Hp1, (flat_lookup _ (tensor_size r)), Hl. simpl. rewrite Hrl at 1. solve_Permutation.
      * eapply resized_same; [exact Hsz|apply covers_refl].
  - apply wp_bind. unfold new_object, push_size. apply wp_bind, wp_gets. simpl.
    apply wp_bind, wp_vset; [simpl; lia|]. apply wp_modify. simpl.
    apply wp_bind. eapply (wp_vget_Some ids).
    { simpl. apply zget_zset_eq. lia. }
    apply wp_modify. simpl. eexists _, (free ++ expired). split_and!; simpl; [reflexivity|..].
    + rewrite Hs1. intros sz l o Hl Ho. specialize (Hf1 sz l o Hl Ho).
      apply zget_Some in Hf1 as [? Hf1]. apply zget_Some. split; [done|]. by apply lookup_app_l_Some.
    + done.
    + rewrite zset_nat, Hi1, Hs1. by apply pool_inv_new.
Qed.

Lemma EqualityAssignmentWithHash_safe {S} (s : S) E :
  wp (EqualityAssignmentWithHash records) (λ a s', s' = s ∧ objects_shared_safely records a) E s.
Proof.
  apply run_assignment_spec.
  eapply wp_mono; [apply (wp_for_records records (λ n st, ∃ in_use free, hash_inv n in_use free st) (λ _, False))| |done].
  - exists [], []. split_and!; simpl; [done| |done|apply pool_inv_start].
    intros sz l o Hl. by rewrite lookup_empty in Hl.
  - intros n r st Hr (in_use & free & Hinv). by eapply hash_step_spec.
  - simpl. intros _ st (in_use & free & _ & _ & _ & Hinv). split; [exact (pi_sharing _ _ _ _ _ _ Hinv)|].
    eapply assigned_upto_end; [apply (sh_length _ _ _ (pi_sharing _ _ _ _ _ _ Hinv))|].
    exact (pi_upto _ _ _ _ _ _ Hinv).
Qed.
End hash.

(** ** Greedy in the order of the tasks *)

Lemma set_insert_perm {A} (lt : A → A → bool) x l :
  (∀ y, y ∈ l → lt y x = true ∨ lt x y = true) → set_insert lt x l ≡ₚ x :: l.
Proof.
  induction l as [|y l IH]; intros Hx; simpl; [done|].
  destruct (lt y x) eqn:Hyx.
  - rewrite IH; [constructor|]. intros z Hz. apply Hx. by right.
  - destruct (lt x y) eqn:Hxy; [done|]. destruct (Hx y); [by left|congruence..].
Qed.

Lemma take_while_lower_bound {A} (lt : A → A → bool) x l :
  take_while (λ y, lt y x) l ++ lower_bound lt l x = l.
Proof. induction l as [|y l IH]; simpl; [done|]. destruct (lt y x); simpl; [by rewrite IH|done]. Qed.

Lemma closest_in_pool_elem sz pool p : closest_in_pool sz pool = Some p → p ∈ pool.
Proof.
  unfold closest_in_pool. set (key := {| object_size := sz; pool_object_id := 0 |}). intros Hp.
  rewrite <- (take_while_lower_bound pool_lt key pool). apply elem_of_app.
  destruct (last (take_while _ pool)) as [q|] eqn:Hl, (lower_bound pool_lt pool key) as [|r rest];
    simpl in *; simplify_eq.
  - left. apply last_Some in Hl as [l ->]. in_list.
  - case_match; simplify_eq; [left; apply last_Some in Hl as [l ->]; in_list|right; by left].
  - right. by left.
Qed.

Lemma closest_in_pool_found sz p pool : is_Some (closest_in_pool sz (p :: pool)).
Proof.
  unfold closest_in_pool. set (key := {| object_size := sz; pool_object_id := 0 |}).
  pose proof (take_while_lower_bound pool_lt key (p :: pool)) as Heq.
  revert Heq. generalize (lower_bound pool_lt (p :: pool) key). intros after Heq.
  destruct (last (take_while _ (p :: pool))) as [q|] eqn:Hl.
  - destruct (head _); [case_match|]; eauto.
  - apply last_None in Hl. rewrite Hl in Heq. simpl in Heq. subst. simpl. eauto.
Qed.

Lemma erase_pool_perm p pool :
  NoDup (pool_object_id <$> pool) → p ∈ pool → pool ≡ₚ p :: erase_pool p pool.
Proof.
  unfold erase_pool. induction pool as [|q pool IH]; simpl; intros Hnd Hp; [by apply elem_of_nil in Hp|].
  apply NoDup_cons in Hnd as [Hq Hnd]. rewrite filter_cons.
  destruct (decide (q ≠ p)) as [Hne|Heq].
  - apply elem_of_cons in Hp as [->|Hp]; [done|]. rewrite (IH Hnd Hp) at 1. constructor.
  - assert (q = p) as -> by (destruct (decide (q = p)); tauto). f_equiv.
    rewrite filter_all; [done|]. intros y Hy ->. apply Hq. by apply list_elem_of_fmap_2.
Qed.

Section in_order.
Context (records : list (TensorUsageRecord Z)) (reallocation_graph : option UsageGraph).
Hypothesis valid : valid_records records.
Hypothesis ordered : in_task_order records.
Hypothesis graph_length : ∀ g, reallocation_graph = Some g → length g = length records.

Record order_inv (n : nat) (st : state Z OrderLocals) : Prop := {
  oi_pool : pool_inv records n (ids st) (sizes st) (objects_in_use (locals st))
              (pool_object_id <$> pool (locals st));
  oi_last : length (last_assigned_tensor (locals st)) = length (sizes st);
  oi_last_range i : i ∈ last_assigned_tensor (locals st) → 0 ≤ i < zlen records
}.

Lemma order_free_all (expired : list Z) (st : state Z OrderLocals) :
  NoDup ((pool_object_id <$> pool (locals st)) ++ expired) →
  (∀ o, o ∈ expired → 0 ≤ o < zlen (sizes st)) →
  wp (for_each expired order_free)
    (λ _ st', ids st' = ids st ∧ sizes st' = sizes st ∧
       last_assigned_tensor (locals st') = last_assigned_tensor (locals st) ∧
       objects_in_use (locals st') = objects_in_use (locals st) ∧
       pool_object_id <$> pool (locals st') ≡ₚ (pool_object_id <$> pool (locals st)) ++ expired)
    (λ _, False) st.
Proof.
  intros Hnd Hexp.
  apply (wp_for_each (λ don st', ids st' = ids st ∧ sizes st' = sizes st ∧
       last_assigned_tensor (locals st') = last_assigned_tensor (locals st) ∧
       objects_in_use (locals st') = objects_in_use (locals st) ∧
       pool_object_id <$> pool (locals st') ≡ₚ (pool_object_id <$> pool (locals st)) ++ don)).
  { by rewrite app_nil_r. }
  intros don o todo st' Hsplit (Hi & Hs & Hl & Hq & Hp).
  destruct (zget_is_Some (sizes st) o) as [sz Hsz]; [apply Hexp; rewrite Hsplit; in_list|].
  unfold order_free. apply wp_bind. eapply (wp_vget_Some sizes); [by rewrite Hs|].
  apply wp_modify. simpl. split_and!; [done..|].
  rewrite set_insert_perm.
  - simpl. rewrite Hp. solve_Permutation.
  - intros y Hy. unfold pool_lt. simpl. assert (pool_object_id y ≠ o) as Hne.
    { intros Heq. rewrite Hsplit, (app_assoc _ don), <- Hp in Hnd.
      apply NoDup_app in Hnd as (_ & Hnd & _). apply (Hnd o); [|by left].
      rewrite <- Heq. by apply list_elem_of_fmap_2. }
    rewrite !orb_true_iff, !andb_true_iff, !Z.ltb_lt, !Z.eqb_eq. lia.
Qed.

(** The search only finds objects of the pool. *)
Lemma find_in_pool_spec i sz st :
  (∀ p, p ∈ pool (locals st) → 0 ≤ pool_object_id p < zlen (last_assigned_tensor (locals st))) →
  (∀ i, i ∈ last_assigned_tensor (locals st) → 0 ≤ i < zlen records) →
  wp (find_in_pool reallocation_graph i sz)
    (λ best st', st' = st ∧ ∀ p, best = Some p → p ∈ pool (locals st)) (λ _, False) st.
Proof.
  intros Hpool Hlast. unfold find_in_pool. apply wp_bind, wp_gets.
  destruct reallocation_graph as [g|] eqn:Hg.
  - apply wp_bind. eapply wp_mono;
      [apply (wp_fold_m (λ don best st', st' = st ∧ ∀ p, best = Some p → p.1 ∈ don) (λ _, False))| |done].
    + done.
    + intros don p todo best st' Hsplit [-> Hbest]. unfold realloc_candidate.
      assert (∀ q, best = Some q → q.1 ∈ don ++ [p]) as Hbest'.
      { intros q ->. specialize (Hbest q eq_refl). in_list. }
      set (better := match best with None => _ | Some _ => _ end). destruct better; [|by apply wp_ret].
      assert (p ∈ pool (locals st)) as Hin by (rewrite Hsplit; in_list).
      destruct (zget_is_Some (last_assigned_tensor (locals st)) (pool_object_id p)) as [from Hfrom];
        [by apply Hpool|].
      apply wp_bind. eapply wp_vget_Some; [exact Hfrom|].
      destruct (zget_is_Some g from) as [opts Hopts].
      { rewrite (graph_length g) by done. by apply Hlast, (zget_elem _ (pool_object_id p)). }
      unfold may_reallocate. apply wp_bind, wp_bind. eapply wp_deref; [exact Hopts|].
      apply wp_ret, wp_ret. split; [done|]. intros q. case_match; [|apply Hbest'].
      intros [= <-]. in_list.
    + simpl. intros best st' [-> Hbest]. apply wp_ret. split; [done|].
      intros p Hp. destruct best as [[q d]|]; [|done]. simpl in Hp. simplify_eq. by apply (Hbest (p, d)).
  - destruct (pool (locals st)) as [|p rest] eqn:Hp; [by apply wp_ret|].
    apply wp_bind, wp_ensure.
    + intros _. apply wp_ret. split; [done|]. intros q. apply closest_in_pool_elem.
    + intros Hf. apply bool_decide_eq_false in Hf. by destruct Hf, (closest_in_pool_found sz p rest).
Qed.

Lemma order_step_spec n r st :
  records !! n = Some r → order_inv n st →
  wp (order_step reallocation_graph (Z.of_nat n) r) (λ _, order_inv (n + 1)) (λ _, False) st.
Proof.
  intros Hr [Hinv Hlast Hrange]. unfold order_step. apply wp_bind, wp_gets.
  destruct (pop_expired (first_task r) (objects_in_use (locals st))) as [expired rest] eqn:Hpop.
  pose proof (pool_inv_pop _ _ _ _ _ _ _ _ _ ordered Hr Hpop Hinv) as Hinv1.
  assert (length (ids st) = length records) as Hlen by apply (sh_length _ _ _ (pi_sharing _ _ _ _ _ _ Hinv)).
  pose proof (lookup_lt_Some _ _ _ Hr) as Hn.
  apply wp_bind. eapply wp_mono; [apply order_free_all| |done].
  { pose proof (pool_inv_nodup _ _ _ _ _ _ Hinv1) as Hnd. by apply NoDup_app in Hnd as (_ & _ & Hnd). }
  { intros o Ho. eapply pool_inv_range; [exact Hinv1|right; in_list]. }
  intros _ st1 (Hi1 & Hs1 & Hl1 & Hq1 & Hp1).
  apply (pool_inv_perm _ _ _ _ _ _ _ (symmetry Hp1)) in Hinv1. rewrite <- Hi1, <- Hs1 in Hinv1.
  rewrite <- Hi1 in Hlen. rewrite <- Hl1, <- Hs1 in Hlast. rewrite <- Hl1 in Hrange.
  clear st Hinv Hpop Hi1 Hs1 Hl1 Hq1 Hp1.
  apply wp_bind, wp_modify. simpl. apply wp_bind.
  eapply wp_mono; [apply find_in_pool_spec; simpl| |done].
  { intros p Hp. rewrite Hlast. eapply pool_inv_range; [exact Hinv1|right].
    by apply list_elem_of_fmap_2. }
  { done. }
  simpl. intros best _ [-> Hbest]. destruct best as [p|].
  - specialize (Hbest p eq_refl). pose proof (pool_inv_nodup _ _ _ _ _ _ Hinv1) as Hnd.
    apply NoDup_app in Hnd as (_ & _ & Hnd). pose proof (erase_pool_perm _ _ Hnd Hbest) as Herase.
    assert (0 ≤ pool_object_id p < zlen (sizes st1)) as Hpr.
    { eapply pool_inv_range; [exact Hinv1|right]. by apply list_elem_of_fmap_2. }
    destruct (zget_is_Some (sizes st1) (pool_object_id p)) as [sz Hsz]; [done|].
    apply wp_bind, wp_bind, wp_modify. simpl. apply wp_bind, wp_vset; [simpl; lia|]. simpl.
    apply wp_bind. eapply wp_vget_Some; [exact Hsz|]. simpl.
    apply wp_bind, wp_vset; [done|]. simpl. apply wp_vset; [simpl; lia|]. simpl.
    apply wp_bind. eapply wp_vget_Some; [simpl; apply zget_zset_eq; lia|]. apply wp_modify. simpl.
    split; simpl.
    + rewrite zset_nat. eapply pool_inv_reuse; [done|done| |exact Hinv1|by rewrite zset_length|].
      * exact (fmap_Permutation pool_object_id _ _ Herase).
      * by apply resized_max.
    + by rewrite !zset_length.
    + intros i Hin. unfold zset in Hin. apply list_elem_of_lookup in Hin as (k & [(_ & <- & _)|[_ Hk]]%list_lookup_insert_Some); [lia|].
      by apply Hrange, (list_elem_of_lookup_2 _ k).
  - apply wp_bind, wp_bind. unfold new_object, push_size. apply wp_bind, wp_gets. simpl.
    apply wp_bind, wp_vset; [simpl; lia|]. apply wp_modify. simpl. apply wp_modify. simpl.
    apply wp_bind. eapply wp_vget_Some; [simpl; apply zget_zset_eq; lia|]. apply wp_modify. simpl.
    split; simpl.
    + rewrite zset_nat. by apply pool_inv_new.
    + rewrite !length_app. simpl. lia.
    + intros i [Hi|Hi%list_elem_of_singleton]%elem_of_app; [by apply Hrange|lia].
Qed.

Lemma GreedyInOrderAssignment_safe {S} (s : S) E :
  wp (GreedyInOrderAssignment records reallocation_graph)
    (λ a s', s' = s ∧ objects_shared_safely records a) E s.
Proof.
  apply run_assignment_spec.
  eapply wp_mono; [apply (wp_for_records records order_inv (λ _, False))| |done].
  - split; simpl; [apply pool_inv_start|done|by intros i ?%elem_of_nil].
  - apply order_step_spec.
  - simpl. intros _ st [Hinv _ _]. split; [exact (pi_sharing _ _ _ _ _ _ Hinv)|].
    eapply assigned_upto_end; [apply (sh_length _ _ _ (pi_sharing _ _ _ _ _ _ Hinv))|].
    exact (pi_upto _ _ _ _ _ _ Hinv).
Qed.
End in_order.

(** The test of [IsCoveringObject] means what it says. *)
Class CoveringSize (T : Type) `{ObjectSize T, SizeOrder T} : Prop := {
  IsCoveringObject_covers x y : IsCoveringObject x y = true → covers x y
}.

#[export] Instance covering_uint2 : CoveringSize uint2.
Proof. split. intros x y. simpl. rewrite andb_true_iff, !Z.geb_le. tauto. Qed.

#[export] Instance covering_uint3 : CoveringSize uint3.
Proof. split. intros x y. simpl. rewrite !andb_true_iff, !Z.geb_le. tauto. Qed.

Section multidimensional.
Context {T : Type} `{CoveringSize T} (records : list (TensorUsageRecord T)).
Hypothesis valid : valid_records records.
Hypothesis ordered : in_task_order records.

Definition multi_inv (n : nat) (st : state T ListLocals) : Prop :=
  pool_inv records n (ids st) (sizes st) (list_in_use (locals st)) (list_pool (locals st)).

(** The search finds an object of the pool that is large enough. *)
Lemma covering_search sz free st :
  (∀ o, o ∈ free → 0 ≤ o < zlen (sizes st)) →
  wp (fold_m (imap pair free) None (covering_candidate sz))
    (λ best st', st' = st ∧ ∀ pos o d, best = Some (pos, o, d) →
       free !! pos = Some o ∧ ∃ osz, zget (sizes st) o = Some osz ∧ covers osz sz) (λ _, False) st.
Proof.
  intros Hfree.
  apply (wp_fold_m (λ _ best st', st' = st ∧ ∀ pos o d, best = Some (pos, o, d) →
       free !! pos = Some o ∧ ∃ osz, zget (sizes st) o = Some osz ∧ covers osz sz)); [done|].
  intros don [pos o] todo best st' Hsplit [-> Hbest]. unfold covering_candidate.
  assert ((pos, o) ∈ imap pair free) as (i & o' & [= -> ->] & Ho)%elem_of_lookup_imap
    by (rewrite Hsplit; in_list).
  destruct (zget_is_Some (sizes st) o') as [osz Hosz].
  { apply Hfree. by eapply list_elem_of_lookup_2. }
  apply wp_bind. eapply wp_vget_Some; [exact Hosz|].
  destruct (IsCoveringObject osz sz) eqn:Hc; apply wp_ret; (split; [done|]).
  - intros pos' o d. set (better := match best with None => _ | Some _ => _ end).
    destruct better; [|apply Hbest]. intros [= <- <- <-]. split; [done|].
    exists osz. split; [done|]. by apply IsCoveringObject_covers.
  - apply Hbest.
Qed.

Lemma multi_step_spec n r st :
  records !! n = Some r → multi_inv n st →
  wp (multi_step (Z.of_nat n) r) (λ _, multi_inv (n + 1)) (λ _, False) st.
Proof.
  intros Hr Hinv. unfold multi_step. apply wp_bind, wp_gets.
  destruct (pop_expired (first_task r) (list_in_use (locals st))) as [expired rest] eqn:Hpop.
  pose proof (pool_inv_pop _ _ _ _ _ _ _ _ _ ordered Hr Hpop Hinv) as Hinv1.
  assert (length (ids st) = length records) as Hlen by apply (sh_length _ _ _ (pi_sharing _ _ _ _ _ _ Hinv)).
  pose proof (lookup_lt_Some _ _ _ Hr) as Hn. apply wp_bind.
  eapply wp_mono; [apply (covering_search (tensor_size r) (list_pool (locals st) ++ expired))| |done].
  { intros o Ho. eapply pool_inv_range; [exact Hinv1|by right]. }
  simpl. intros best _ [-> Hbest]. destruct best as [[[pos o] d]|].
  - destruct (Hbest pos o d eq_refl) as (Hpos & osz & Hosz & Hcov).
    apply wp_bind, wp_bind, wp_vset; [simpl; lia|]. apply wp_modify. simpl.
    apply wp_bind. eapply wp_vget_Some; [simpl; apply zget_zset_eq; lia|]. apply wp_modify.
    unfold multi_inv. simpl. rewrite zset_nat.
    eapply pool_inv_reuse; [done|done|by apply delete_Permutation|exact Hinv1|done|].
    by eapply resized_same.
  - apply wp_bind, wp_bind. unfold new_object, push_size. apply wp_bind, wp_gets. simpl.
    apply wp_bind, wp_vset; [simpl; lia|]. apply wp_modify. simpl. apply wp_modify. simpl.
    apply wp_bind. eapply wp_vget_Some; [simpl; apply zget_zset_eq; lia|]. apply wp_modify.
    unfold multi_inv. simpl. rewrite zset_nat. by apply pool_inv_new.
Qed.

Lemma GreedyInOrderAssignmentMultidimensional_safe {S} (s : S) E :
  wp (GreedyInOrderAssignmentMultidimensional records)
    (λ a s', s' = s ∧ objects_shared_safely records a) E s.
Proof.
  apply run_assignment_spec.
  eapply wp_mono; [apply (wp_for_records records multi_inv (λ _, False))| |done].
  - apply pool_inv_start.
  - apply multi_step_spec.
  - simpl. intros _ st Hinv. split; [exact (pi_sharing _ _ _ _ _ _ Hinv)|].
    eapply assigned_upto_end; [apply (sh_length _ _ _ (pi_sharing _ _ _ _ _ _ Hinv))|].
    exact (pi_upto _ _ _ _ _ _ Hinv).
Qed.
End multidimensional.

(** ** Objects of equal size, for records in any order *)

Section equality.
Context {T : Type} `{EqDecision T, !SizeOrder T} (records : list (TensorUsageRecord T)).
Hypothesis valid : valid_records records.

Record equality_inv (n : nat) (st : state T (list Z)) : Prop := {
  ei_sharing : sharing records (ids st) (sizes st);
  ei_upto : assigned_upto n (ids st);
  ei_length : length (locals st) = length (sizes st);
  ei_dealloc j o r d : ids st !! j = Some o → records !! j = Some r → zget (locals st) o = Some d →
    last_task r ≤ d
}.

Lemma find_equal_spec r objs (st : state T (list Z)) :
  length (locals st) = length (sizes st) → (∀ o, o ∈ objs → 0 ≤ o < zlen (sizes st)) →
  wp (find_equal r objs) (λ o st', st' = st ∧ (o = kNotAssigned ∨ ∃ d,
       zget (locals st) o = Some d ∧ d < first_task r ∧ zget (sizes st) o = Some (tensor_size r)))
    (λ _, False) st.
Proof.
  intros Hlen. induction objs as [|o objs IH]; intros Hobjs; simpl; [apply wp_ret; auto|].
  destruct (zget_is_Some (locals st) o) as [d Hd]; [rewrite Hlen; apply Hobjs; by left|].
  destruct (zget_is_Some (sizes st) o) as [sz Hsz]; [apply Hobjs; by left|].
  apply wp_bind. eapply wp_vget_Some; [exact Hd|]. apply wp_bind. eapply wp_vget_Some; [exact Hsz|].
  case_bool_decide as Hb.
  - apply wp_ret. split; [done|]. right. exists d. destruct Hb as [? ->]. done.
  - apply IH. intros o' ?. apply Hobjs. by right.
Qed.

Lemma equality_step_spec n r st :
  records !! n = Some r → equality_inv n st →
  wp (equality_step (Z.of_nat n) r) (λ _, equality_inv (n + 1)) (λ _, False) st.
Proof.
  intros Hr [Hsh Hup Hlen Hd]. unfold equality_step.
  pose proof (lookup_lt_Some _ _ _ Hr) as Hn. pose proof (sh_length _ _ _ Hsh) as Hids.
  pose proof (sh_sizes _ _ _ Hsh) as Hsz. pose proof (vr_length _ valid) as Hmax.
  assert (zlen (sizes st) < kNotAssigned) as Hb by (unfold kNotAssigned; lia).
  pose proof (upto_lookup _ _ _ _ _ Hsh Hup Hr) as Hna.
  assert (first_task r ≤ last_task r) as Hfl.
  { apply list_elem_of_lookup_2, (vr_interval _ valid) in Hr. lia. }
  apply wp_bind, wp_gets. apply wp_bind.
  eapply wp_mono; [apply find_equal_spec; [done|by intros o ?%elem_of_range]| |done].
  simpl. intros o _ [-> Ho]. destruct (Z.eqb_spec o kNotAssigned) as [->|Hne].
  - unfold new_object, push_size. apply wp_bind, wp_bind, wp_gets. simpl.
    apply wp_bind, wp_vset; [simpl; lia|]. apply wp_modify. simpl. apply wp_modify.
    split; simpl; rewrite ?zset_nat.
    + by apply sharing_new.
    + apply assigned_upto_next; [lia|done].
    + rewrite !length_app. simpl. lia.
    + intros j o' r' d [(<- & <- & _)|[Hne Hj]]%list_lookup_insert_Some Hrj Hz.
      * simplify_eq. apply zget_Some in Hz as [_ Hz]. rewrite Nat2Z.id, <- Hlen, lookup_split in Hz.
        by simplify_eq.
      * apply zget_Some in Hz as [H0 Hz].
        apply lookup_app_Some in Hz as [Hz|[Hge Hz]]; [by eapply Hd, zget_Some|].
        destruct (decide (o' = kNotAssigned)) as [->|Hna'].
        { apply lookup_lt_Some in Hz. simpl in Hz. lia. }
        destruct (sh_object _ _ _ Hsh j r' o' Hrj Hj Hna') as (? & Hz'%zget_range & _). lia.
  - destruct Ho as [|(d & Hdo & Hlt & Hso)]; [done|]. pose proof (zget_range _ _ _ Hso) as Hor.
    assert (∀ j r', records !! j = Some r' → ids st !! j = Some o → last_task r' < first_task r) as Hbefore.
    { intros j r' Hrj Hj. specialize (Hd j o r' d Hj Hrj Hdo). lia. }
    apply wp_bind, wp_vset; [simpl; lia|]. apply wp_vset; [simpl; lia|].
    split; simpl; rewrite ?zset_nat, ?zset_length.
    + eapply (sharing_assign _ (ids st) (sizes st));
        [done|done|done|done|done|eapply resized_same; [exact Hso|apply covers_refl]|].
      intros j r' Hrj Hj [? ?]. specialize (Hbefore j r' Hrj Hj). lia.
    + by apply assigned_upto_next.
    + done.
    + intros j o' r' d' [(<- & <- & _)|[Hne' Hj]]%list_lookup_insert_Some Hrj Hz.
      * rewrite zget_zset_eq in Hz by lia. by simplify_eq.
      * destruct (decide (o' = o)) as [->|Hoo].
        -- rewrite zget_zset_eq in Hz by lia. simplify_eq. specialize (Hbefore j r' Hrj Hj). lia.
        -- rewrite zget_zset_ne in Hz by (done || lia). by eapply Hd.
Qed.

Lemma EqualityAssignment_safe {S} (s : S) E :
  wp (EqualityAssignment records) (λ a s', s' = s ∧ objects_shared_safely records a) E s.
Proof.
  apply run_assignment_spec.
  eapply wp_mono; [apply (wp_for_records records equality_inv (λ _, False))| |done].
  - split; simpl; [apply sharing_start|apply assigned_upto_start|done|].
    intros j o r d _ _ [_ Hz]%zget_Some. by rewrite lookup_nil in Hz.
  - apply equality_step_spec.
  - simpl. intros _ st [Hsh Hup _ _]. split; [done|].
    eapply assigned_upto_end; [apply (sh_length _ _ _ Hsh)|done].
Qed.
End equality.
