(* ===== verification/GreedyProofs.v ===== *)
(** * The strategies that go by breadth and by size are safe

    Both visit the tensors in an order of their own and work for records in any
    order. *)

From S2P Require Import Prelude UsageRecords ObjectAssignment SharingProofs.

(** ** Schedules *)

(** A schedule lists usage intervals one after the other. *)
Definition before (a b : TensorUsageRecord Z) : Prop := last_task a < first_task b.

Record good_schedule (l : list (TensorUsageRecord Z)) : Prop := {
  gs_sorted : StronglySorted before l;
  gs_intervals r : r ∈ l → first_task r ≤ last_task r
}.

Lemma good_schedule_cons y l :
  good_schedule (y :: l) ↔ first_task y ≤ last_task y ∧ (∀ r, r ∈ l → before y r) ∧ good_schedule l.
Proof.
  split.
  - intros [Hs Hi]. inversion Hs as [|? ? Hs' Hy]; subst. rewrite Forall_forall in Hy.
    split_and!; [apply Hi; by left|done|split; [done|]]. intros r ?. apply Hi. by right.
  - intros (Hy & Hb & [Hs Hi]). split; [constructor; [done|by apply Forall_forall]|].
    intros r [->|Hr]%elem_of_cons; auto.
Qed.

Lemma schedule_free_cons y l rec :
  record_lt y rec = true → schedule_free (y :: l) rec = true →
  good_schedule (y :: l) → schedule_free l rec = true ∧ before y rec.
Proof.
  unfold schedule_free. intros Hlt. simpl. rewrite Hlt. rewrite last_cons.
  intros [Ha Hb]%andb_true_iff (Hy & Hyl & Hgl)%good_schedule_cons. rewrite Ha. simpl.
  destruct (last (take_while _ l)) as [it|] eqn:Hl.
  - split; [done|]. apply negb_true_iff in Hb. rewrite Z.geb_leb, Z.leb_gt in Hb.
    assert (it ∈ l) as Hin.
    { rewrite <- (take_while_lower_bound record_lt rec l). apply last_Some in Hl as [l' ->]. in_list. }
    specialize (Hyl it Hin). unfold record_lt in Hlt. unfold before in *.
    pose proof (gs_intervals _ Hgl it Hin). lia.
  - split; [done|]. apply negb_true_iff in Hb. rewrite Z.geb_leb, Z.leb_gt in Hb. done.
Qed.

(** An interval that is found free can be inserted. *)
Lemma schedule_insert l rec :
  good_schedule l → first_task rec ≤ last_task rec → schedule_free l rec = true →
  good_schedule (set_insert record_lt rec l) ∧ set_insert record_lt rec l ≡ₚ rec :: l ∧
  ∀ r, r ∈ l → ¬ records_overlap rec r.
Proof.
  intros Hg Hrec. induction l as [|y l IH]; intros Hfree; simpl.
  - split_and!; [apply good_schedule_cons; split_and!; [done|by intros r ?%elem_of_nil|done]|done|].
    by intros r ?%elem_of_nil.
  - pose proof Hg as (Hy & Hyl & Hl)%good_schedule_cons.
    destruct (record_lt y rec) eqn:Hlt.
    + destruct (schedule_free_cons y l rec Hlt Hfree Hg) as [Hfl Hyr].
      destruct (IH Hl Hfl) as (IH1 & IH2 & IH3). split_and!.
      * apply good_schedule_cons. split_and!; [done| |done].
        intros r. rewrite IH2. intros [->|Hr]%elem_of_cons; auto.
      * rewrite IH2. constructor.
      * intros r [->|Hr]%elem_of_cons; [|by apply IH3]. unfold before in Hyr. intros [? ?]. lia.
    + unfold schedule_free in Hfree. simpl in Hfree. rewrite Hlt in Hfree. simpl in Hfree.
      rewrite andb_true_r, negb_true_iff, Z.leb_gt in Hfree.
      assert (∀ r, r ∈ y :: l → before rec r) as Hall.
      { intros r [->|Hr]%elem_of_cons; [done|]. specialize (Hyl r Hr). unfold before in *. lia. }
      assert (record_lt rec y = true) as -> by (unfold record_lt; apply Z.ltb_lt; lia).
      split_and!; [by apply good_schedule_cons|done|].
      intros r Hr [? ?]. specialize (Hall r Hr). unfold before in Hall. lia.
Qed.

(** ** Greedy by breadth *)

Section by_breadth.
Context (records : list (TensorUsageRecord Z)).
Hypothesis valid : valid_records records.

(** The schedule of an object has the records of its tensors. *)
Record breadth_inv (st : state Z (list (list (TensorUsageRecord Z)))) : Prop := {
  bi_sharing : sharing records (ids st) (sizes st);
  bi_length : length (locals st) = length (sizes st);
  bi_good o l : zget (locals st) o = Some l → good_schedule l;
  bi_records o l j r : zget (locals st) o = Some l → ids st !! j = Some o → records !! j = Some r → r ∈ l
}.

Lemma sharing_bound {R} (st : state Z R) :
  sharing records (ids st) (sizes st) → zlen (sizes st) < kNotAssigned.
Proof.
  intros Hs. pose proof (sh_sizes _ _ _ Hs). pose proof (vr_length _ valid). unfold kNotAssigned. lia.
Qed.

(** The search returns an object whose schedule is free, or none. *)
Lemma best_object_spec rec st :
  breadth_inv st →
  let n := zlen (locals st) in
  wp (fold_m (range 0 n) n (best_breadth_object rec n))
    (λ o st', st' = st ∧ (o = n ∨ ∃ l, zget (locals st) o = Some l ∧ schedule_free l rec = true))
    (λ _, False) st.
Proof.
  intros Hinv n.
  apply (wp_fold_m (λ _ o st', st' = st ∧
    (o = n ∨ ∃ l, zget (locals st) o = Some l ∧ schedule_free l rec = true))); [by auto|].
  intros don o todo best st' Hsplit [-> Hbest].
  assert (0 ≤ o < n) as Ho by (apply elem_of_range; rewrite Hsplit; in_list).
  pose proof (bi_length _ Hinv) as Hlen.
  unfold best_breadth_object. apply wp_bind.
  apply (wp_mono _ (λ _ st', st' = st) _ (λ _, False)); [|intros skip _ ->|done].
  - destruct (Z.eqb_spec best n) as [->|Hne]; simpl; [by apply wp_ret|].
    destruct Hbest as [|(l & Hl & _)]; [done|]. apply zget_range in Hl.
    apply wp_bind, (wp_vget _ 0); [lia|]. apply wp_bind, (wp_vget _ 0); [lia|]. by apply wp_ret.
  - destruct skip; [by apply wp_ret|]. destruct (zget_is_Some (locals st) o) as [l Hl]; [done|].
    apply wp_bind. eapply wp_vget_Some; [exact Hl|]. apply wp_ret. split; [done|].
    destruct (schedule_free l rec) eqn:Hfree; [|done]. right. eauto.
Qed.

(** Assigning one more tensor, with what stays as it was. *)
Definition more_assigned (ids ids' : list Z) : Prop :=
  ∀ j id, ids !! j = Some id → id ≠ kNotAssigned → ids' !! j = Some id.

Lemma more_assigned_insert ids i id :
  ids !! i = Some kNotAssigned → more_assigned ids (<[i := id]> ids).
Proof. intros Hi j id' Hj Hne. rewrite list_lookup_insert_ne; [done|]. intros <-. congruence. Qed.

(** A new object for the tensor at [x]. *)
Lemma breadth_new x st :
  x ∈ with_index records → breadth_inv st → zget (ids st) (idx x) = Some kNotAssigned →
  breadth_inv {| ids := zset (idx x) (zlen (locals st)) (ids st);
                 sizes := sizes st ++ [tensor_size (usage_record x)];
                 locals := locals st ++ [[usage_record x]] |}.
Proof.
  intros Hx [Hsh Hlen Hgood Hrec] Hid. apply elem_of_with_index in Hx as [H0 Hzr].
  pose proof Hzr as [_ Hr]%zget_Some. pose proof (sharing_bound _ Hsh) as Hb.
  pose proof (sh_length _ _ _ Hsh) as Hids. pose proof (zget_range _ _ _ Hzr) as Hxr.
  pose proof Hid as [_ Hidn]%zget_Some.
  assert (first_task (usage_record x) ≤ last_task (usage_record x)) as Hfl.
  { apply zget_elem, (vr_interval _ valid) in Hzr. lia. }
  unfold zset. split; simpl.
  - rewrite Hlen. by apply sharing_new; [| | |apply (vr_length _ valid)].
  - rewrite !length_app. simpl. lia.
  - intros o l [Hge Hl]%zget_Some. apply lookup_app_Some in Hl as [Hl|[Hge' Hl]].
    + by eapply Hgood, zget_Some.
    + apply list_lookup_singleton_Some in Hl as [_ <-].
      apply good_schedule_cons. split_and!; [done|by intros ? ?%elem_of_nil|].
      split; [constructor|by intros ? ?%elem_of_nil].
  - intros o l j r' [Hge Hl]%zget_Some Hj Hrj.
    apply list_lookup_insert_Some in Hj as [(<- & <- & _)|[Hne Hj]].
    + simplify_eq. rewrite Nat2Z.id, lookup_split in Hl. simplify_eq. by left.
    + apply lookup_app_Some in Hl as [Hl|[Hge' Hl]]; [by eapply Hrec, Hrj; [apply zget_Some|]|].
      exfalso. destruct (decide (o = kNotAssigned)) as [->|Hna].
      { apply lookup_lt_Some in Hl. simpl in Hl. lia. }
      destruct (sh_object _ _ _ Hsh j r' o Hrj Hj Hna) as (? & Hz%zget_range & _). lia.
Qed.

(** The object [o] for the tensor at [x]. *)
Lemma breadth_reuse x o l l' sz st :
  x ∈ with_index records → breadth_inv st → zget (ids st) (idx x) = Some kNotAssigned →
  zget (locals st) o = Some l → zget (sizes st) o = Some sz →
  good_schedule l' → l' ≡ₚ usage_record x :: l → (∀ r, r ∈ l → ¬ records_overlap (usage_record x) r) →
  breadth_inv {| ids := zset (idx x) o (ids st);
                 sizes := zset o (sz `max` tensor_size (usage_record x)) (sizes st);
                 locals := zset o l' (locals st) |}.
Proof.
  intros Hx [Hsh Hlen Hgood Hrec] Hid Hl Hsz Hg Hp Hno. apply elem_of_with_index in Hx as [H0 Hzr].
  pose proof Hzr as [_ Hr]%zget_Some. pose proof (sharing_bound _ Hsh) as Hb.
  pose proof (zget_range _ _ _ Hl) as Hor. pose proof Hid as [_ Hidn]%zget_Some.
  unfold zset at 1. split; simpl.
  - eapply (sharing_assign _ (ids st) (sizes st));
      [apply (vr_length _ valid)|done|done|done|lia|by apply resized_max|].
    intros j r' Hrj Hj. apply Hno. by eapply Hrec.
  - by rewrite !zset_length.
  - intros o' l1 Hl'. destruct (decide (o' = o)) as [->|Hoo].
    + rewrite zget_zset_eq in Hl' by lia. by simplify_eq.
    + rewrite zget_zset_ne in Hl' by (done || lia). by eapply Hgood.
  - intros o' l1 j r' Hl' Hj Hrj. destruct (decide (o' = o)) as [->|Hoo].
    + rewrite zget_zset_eq in Hl' by lia. simplify_eq. rewrite Hp.
      apply list_lookup_insert_Some in Hj as [(<- & _ & _)|[Hne' Hj]]; [simplify_eq; by left|].
      right. by eapply Hrec.
    + rewrite zget_zset_ne in Hl' by (done || lia).
      apply list_lookup_insert_Some in Hj as [(_ & Heq & _)|[Hne' Hj]]; [by subst|]. by eapply Hrec.
Qed.

Lemma breadth_tensor_spec x st :
  x ∈ with_index records → breadth_inv st →
  wp (breadth_tensor x) (λ _ st', breadth_inv st' ∧ more_assigned (ids st) (ids st') ∧
        ∃ id, zget (ids st') (idx x) = Some id ∧ id ≠ kNotAssigned) (λ _, False) st.
Proof.
  intros Hx Hinv. pose proof Hinv as [Hsh Hlen Hgood Hrec].
  apply elem_of_with_index in Hx as Hx'. destruct Hx' as [H0 Hzr]. pose proof (sharing_bound _ Hsh) as Hb.
  pose proof (sh_length _ _ _ Hsh) as Hids. pose proof (zget_range _ _ _ Hzr) as Hxr.
  destruct (zget_is_Some (ids st) (idx x)) as [id Hid]; [lia|].
  pose proof Hid as [_ Hidn]%zget_Some.
  unfold breadth_tensor. apply wp_bind. eapply wp_vget_Some; [exact Hid|].
  destruct (Z.eqb_spec id kNotAssigned) as [->|Hne]; simpl;
    [|by apply wp_ret; split_and!; [done|intros j i|exists id]].
  assert (first_task (usage_record x) ≤ last_task (usage_record x)) as Hfl.
  { apply zget_elem, (vr_interval _ valid) in Hzr. lia. }
  apply wp_bind, wp_gets. apply wp_bind.
  eapply wp_mono; [by apply best_object_spec|simpl|done]. intros o _ [-> Ho]. apply wp_bind.
  destruct (Z.eqb_spec o (zlen (locals st))) as [->|Hne].
  - apply wp_bind, wp_modify. simpl. apply wp_modify. simpl. apply wp_vset; [simpl; lia|].
    simpl. split_and!; [by apply breadth_new|by apply more_assigned_insert|].
    exists (zlen (locals st)). split; [apply zget_zset_eq; lia|lia].
  - destruct Ho as [|(l & Hl & Hfree)]; [done|]. pose proof (zget_range _ _ _ Hl) as Hor.
    destruct (schedule_insert l _ (Hgood o l Hl) Hfl Hfree) as (Hg & Hp & Hno).
    destruct (zget_is_Some (sizes st) o) as [sz Hsz]; [lia|].
    apply wp_bind. eapply wp_vget_Some; [exact Hl|]. apply wp_bind, wp_vset; [done|]. simpl.
    apply wp_bind. eapply wp_vget_Some; [exact Hsz|]. apply wp_vset; [simpl; lia|]. simpl.
    apply wp_vset; [simpl; lia|].
    simpl. split_and!; [by eapply breadth_reuse|by apply more_assigned_insert|].
    exists o. split; [apply zget_zset_eq; lia|lia].
Qed.

Lemma more_assigned_trans ids1 ids2 ids3 :
  more_assigned ids1 ids2 → more_assigned ids2 ids3 → more_assigned ids1 ids3.
Proof. intros H1 H2 j id Hj Hid. by apply H2; [apply H1|]. Qed.

(** After a profile all its tensors have an object. *)
Definition all_assigned (l : list TensorUsageWithIndex) (ids : list Z) : Prop :=
  ∀ x, x ∈ l → ∃ id, zget ids (idx x) = Some id ∧ id ≠ kNotAssigned.

Lemma all_assigned_more l ids ids' :
  all_assigned l ids → more_assigned ids ids' → all_assigned l ids'.
Proof.
  intros Ha Hm x Hx. destruct (Ha x Hx) as (id & [H0 Hid]%zget_Some & Hne).
  exists id. split; [|done]. apply zget_Some. split; [done|]. by apply Hm.
Qed.

Lemma breadth_profile_spec l st :
  (∀ x, x ∈ l → x ∈ with_index records) → breadth_inv st →
  wp (for_each l breadth_tensor) (λ _ st', breadth_inv st' ∧ more_assigned (ids st) (ids st') ∧
        all_assigned l (ids st')) (λ _, False) st.
Proof.
  intros Hl Hinv.
  apply (wp_for_each (λ don st', breadth_inv st' ∧ more_assigned (ids st) (ids st') ∧
        all_assigned don (ids st'))).
  { split_and!; [done|by intros j i|by intros x ?%elem_of_nil]. }
  intros don x todo st' Hsplit (Hinv' & Hm & Ha).
  eapply wp_mono; [apply breadth_tensor_spec; [apply Hl; rewrite Hsplit; in_list|done]| |done].
  intros _ st2 (Hinv2 & Hm2 & Hx). split_and!; [done|by eapply more_assigned_trans|].
  intros y [Hy|Hy%list_elem_of_singleton]%elem_of_app; [|by subst].
  by apply (all_assigned_more don (ids st')).
Qed.

Lemma tasks_by_breadth_elem profiles t p :
  zget profiles t = Some p → ∃ b, b ∈ tasks_by_breadth profiles ∧ task_id b = t.
Proof.
  intros [H0 Hp]%zget_Some. exists {| breadth := task_breadth_of p; task_id := t |}. split; [|done].
  unfold tasks_by_breadth. rewrite <- Permutation_rev, stable_sort_perm, <- Permutation_rev.
  apply elem_of_lookup_imap. exists (Z.to_nat t), p. split; [f_equal; lia|done].
Qed.

Lemma tasks_by_breadth_range profiles b :
  b ∈ tasks_by_breadth profiles → ∃ p, zget profiles (task_id b) = Some p.
Proof.
  unfold tasks_by_breadth. rewrite <- Permutation_rev, stable_sort_perm, <- Permutation_rev.
  intros (i & p & -> & Hp)%elem_of_lookup_imap. exists p. by apply vget_nat.
Qed.

Lemma GreedyByBreadthAssignment_safe {S} (s : S) E :
  wp (GreedyByBreadthAssignment records) (λ a s', s' = s ∧ objects_shared_safely records a) E s.
Proof.
  unfold GreedyByBreadthAssignment. apply wp_bind.
  eapply wp_mono; [by apply CalculateTaskProfiles_spec|simpl|by intros s' ?].
  intros profiles _ [-> [Hpl Hprof _]]. apply run_assignment_spec. apply wp_bind.
  eapply wp_mono; [apply (wp_for_each (λ don st, breadth_inv st ∧
    ∀ b p, b ∈ don → zget profiles (task_id b) = Some p → all_assigned p (ids st)) (λ _, False))| |done].
  - split; [split; simpl|].
    + apply sharing_start.
    + done.
    + intros o l [_ Ho]%zget_Some. by rewrite lookup_nil in Ho.
    + intros o l j r [_ Ho]%zget_Some. by rewrite lookup_nil in Ho.
    + by intros b p ?%elem_of_nil.
  - intros don b todo st Hsplit [Hinv Hdone].
    destruct (tasks_by_breadth_range profiles b) as [p Hp]; [rewrite Hsplit; in_list|].
    apply wp_bind. eapply wp_deref; [exact Hp|].
    eapply wp_mono; [apply breadth_profile_spec; [|done]| |done].
    { intros x. rewrite (Hprof _ _ Hp), list_elem_of_filter. tauto. }
    intros _ st' (Hinv' & Hm & Ha). split; [done|].
    intros b' p' [Hb|Hb%list_elem_of_singleton]%elem_of_app Hp'; [|by simplify_eq].
    by eapply all_assigned_more; [eapply Hdone|].
  - simpl. intros _ st [Hinv Hall]. apply wp_bind, wp_gets.
    assert (kNotAssigned ∉ ids st) as Hna.
    { intros (i & Hi)%list_elem_of_lookup. pose proof (bi_sharing _ Hinv) as Hsh.
      destruct (lookup_lt_is_Some_2 records i) as [r Hr].
      { rewrite <- (sh_length _ _ _ Hsh). by eapply lookup_lt_Some. }
      set (x := {| usage_record := r; idx := Z.of_nat i |}).
      pose proof (vr_interval _ valid r (list_elem_of_lookup_2 _ _ _ Hr)) as Hrv.
      assert (r ∈ records) as Hin by by eapply list_elem_of_lookup_2.
      pose proof (num_tasks_max _ _ valid Hin) as Hnt.
      destruct (zget_is_Some profiles (first_task r)) as [p Hp]; [lia|].
      destruct (tasks_by_breadth_elem _ _ _ Hp) as (b & Hb & Hbt).
      destruct (Hall b p Hb ltac:(by rewrite Hbt) x) as (id & Hid & Hne).
      - rewrite (Hprof _ _ Hp). apply list_elem_of_filter. unfold used_at. simpl. split; [lia|].
        apply elem_of_with_index. simpl. split; [lia|by apply vget_nat].
      - simpl in Hid. rewrite (vget_nat _ _ _ Hi) in Hid. congruence. }
    eapply wp_mono; [apply (wp_for_each (λ _ st', st' = st) (λ _, False))| |done].
    + done.
    + intros don id todo st' Hsplit ->. apply wp_ensure; [done|].
      intros ->%negb_false_iff%Z.eqb_eq. apply Hna. rewrite Hsplit. in_list.
    + simpl. intros _ _ ->. split; [by apply bi_sharing|done].
Qed.
End by_breadth.

(** ** Greedy by size and distance *)

(** The first positional maximum is as large as every tensor. *)
Definition head_covers (sz : Z) (l : list Z) : Prop := ∃ m, head l = Some m ∧ sz ≤ m.

Lemma positional_update_head sz maxs p :
  head_covers sz maxs → head_covers sz (positional_update maxs p).
Proof.
  intros (m & Hm & Hle). destruct maxs as [|m' maxs]; [done|]. simpl in Hm. simplify_eq.
  destruct p as [|x p]; simpl; [by exists m|]. exists (m `max` tensor_size (usage_record x)).
  split; [done|lia].
Qed.

Lemma positional_update_covers maxs p x :
  sorted_by CompareBySize p → x ∈ p → head_covers (tensor_size (usage_record x)) (positional_update maxs p).
Proof.
  intros Hs Hx. destruct p as [|y p]; [by apply elem_of_nil in Hx|].
  assert (tensor_size (usage_record x) ≤ tensor_size (usage_record y)) as Hle.
  { apply elem_of_cons in Hx as [->|Hx]; [done|]. inversion Hs as [|? ? _ Hy]; subst.
    rewrite Forall_forall in Hy. specialize (Hy x Hx). unfold CompareBySize in Hy. lia. }
  destruct maxs as [|m maxs]; simpl; eexists; (split; [done|lia]).
Qed.

Lemma CalculatePositionalMaximums_spec {S} records (s : S) E :
  valid_records records →
  wp (CalculatePositionalMaximums records)
    (λ m s', s' = s ∧ ∀ r, r ∈ records → head_covers (tensor_size r) m) E s.
Proof.
  intros Hv. unfold CalculatePositionalMaximums. apply wp_bind.
  eapply wp_mono; [by apply CalculateTaskProfiles_spec|simpl|by intros s' ?].
  intros p _ [-> [Hpl Hprof Hsorted]]. apply wp_ret. split; [done|]. intros r Hr.
  pose proof (vr_interval _ Hv r Hr) as Hrv. pose proof (num_tasks_max _ _ Hv Hr) as Hnt.
  apply list_elem_of_lookup in Hr as (i & Hi).
  destruct (zget_is_Some p (first_task r)) as [prof Hp]; [lia|].
  set (x := {| usage_record := r; idx := Z.of_nat i |}).
  assert (x ∈ prof) as Hx.
  { rewrite (Hprof _ _ Hp). apply list_elem_of_filter. unfold used_at. simpl. split; [lia|].
    apply elem_of_with_index. simpl. split; [lia|by apply vget_nat]. }
  assert (∀ l m, head_covers (tensor_size r) m → head_covers (tensor_size r) (foldl positional_update m l)) as Hmono.
  { induction l as [|q l IH]; intros m Hm; [done|]. simpl. by apply IH, positional_update_head. }
  apply zget_elem in Hp as Hin. apply list_elem_of_split in Hin as (l1 & l2 & Heq). rewrite Heq.
  rewrite foldl_app. simpl. apply Hmono, (positional_update_covers _ _ x); [by eapply Hsorted|done].
Qed.

Lemma first_smaller_pos sz m : head_covers sz m → first_smaller m sz ≠ 0.
Proof.
  intros (x & Hx & Hle). destruct m as [|y m]; [done|]. simpl in Hx. simplify_eq.
  unfold first_smaller. simpl. rewrite (proj2 (Z.geb_le _ _)) by lia. simpl. lia.
Qed.

Lemma smaller_dist_fold (entries : list (Z * Z)) (init : Z * Z) :
  let best := foldl smaller_dist init entries in
  best = init ∨ ((best.2, best.1) ∈ entries ∧ best.1 < init.1).
Proof.
  induction entries as [|e entries IH] using rev_ind; simpl; [by left|].
  rewrite foldl_app. simpl. set (best := foldl _ _ _) in *. unfold smaller_dist.
  destruct (Z.ltb_spec e.2 best.1) as [Hlt|].
  - right. simpl. split; [destruct e; simpl; in_list|]. destruct IH as [->|[_ ?]]; lia.
  - destruct IH as [->|[Hin ?]]; [by left|right]. split; [in_list|done].
Qed.

Lemma interval_dist_disjoint a b : interval_dist a b ≠ kNotAssigned → ¬ records_overlap a b.
Proof.
  unfold interval_dist, records_overlap, tasks_overlap. repeat case_match; [lia..|done].
Qed.

Section by_size_dist.
Context (records : list (TensorUsageRecord Z)).
Hypothesis valid : valid_records records.

(** What the priorities of the tensor [i] say: a distance is only kept for
    objects none of whose tensors is used together with it. *)
Record info_ok (ids : list Z) (num_objects : nat) (i : nat) (info : SizeDistPriorityInfo) : Prop := {
  io_id : tensor_usage_id info = Z.of_nat i;
  io_length : ids !! i = Some kNotAssigned → length (dist info) = num_objects;
  io_best : ids !! i = Some kNotAssigned → best_dist info ≠ kNotAssigned →
    ∃ d, zget (dist info) (best_object info) = Some d ∧ d ≠ kNotAssigned;
  io_dist o d j r r' : ids !! i = Some kNotAssigned → zget (dist info) o = Some d → d ≠ kNotAssigned →
    records !! i = Some r → ids !! j = Some o → records !! j = Some r' → ¬ records_overlap r r'
}.

(** When the tensor [i] is assigned there is nothing to keep. *)
Lemma info_ok_assigned ids n i info id :
  tensor_usage_id info = Z.of_nat i → ids !! i = Some id → id ≠ kNotAssigned → info_ok ids n i info.
Proof. intros Hid Hi Hne. split; [done|congruence..]. Qed.

(** *** Updating the priorities after the tensor [b] got the object [o] *)

Section update.
Context (ids0 : list Z) (n : nat) (b : nat) (rb : TensorUsageRecord Z) (o : Z) (new : bool).
Hypothesis Hrb : records !! b = Some rb.
Hypothesis objects : ∀ j, ids0 !! j ≠ Some (Z.of_nat n).
Hypothesis Ho : 0 ≤ o ≤ Z.of_nat n ∧ o < kNotAssigned ∧ (new = true ↔ o = Z.of_nat n).

Abbreviation ids1 := (<[b := o]> ids0).
Abbreviation n1 := (if new then S n else n).

Lemma still_unassigned i : ids1 !! i = Some kNotAssigned → ids0 !! i = Some kNotAssigned.
Proof. intros [(-> & ? & _)|[_ Hi]]%list_lookup_insert_Some; [lia|done]. Qed.

(** Distances may be dropped, and be kept for [o] if the interval of [rb] is
    free. *)
Lemma info_ok_update i info info' r :
  info_ok ids0 n i info → records !! i = Some r → tensor_usage_id info' = tensor_usage_id info →
  length (dist info') = n1 →
  (best_dist info' ≠ kNotAssigned → ∃ d, zget (dist info') (best_object info') = Some d ∧ d ≠ kNotAssigned) →
  (∀ o' d', zget (dist info') o' = Some d' → d' ≠ kNotAssigned →
     (o' = o → interval_dist r rb ≠ kNotAssigned) ∧
     (o' = Z.of_nat n ∨ ∃ d, zget (dist info) o' = Some d ∧ d ≠ kNotAssigned)) →
  info_ok ids1 n1 i info'.
Proof.
  intros Hok Hr Hid Hlen Hbest Hdist. split; [by rewrite Hid, (io_id _ _ _ _ Hok)|done|done|].
  intros o' d' j r1 r' Hi Hd Hne Hr1 Hj Hrj. simplify_eq.
  destruct (Hdist o' d' Hd Hne) as [Hnew Hold].
  apply list_lookup_insert_Some in Hj as [(<- & <- & _)|[Hbj Hj]].
  - simplify_eq. by apply interval_dist_disjoint, Hnew.
  - destruct Hold as [->|(d & Hd0 & Hne0)]; [by apply objects in Hj|].
    eapply (io_dist _ _ _ _ Hok); eauto using still_unassigned.
Qed.

(** Recomputing the best distance leaves the distances as they are. *)
Lemma RecalcBestDist_spec info :
  dist (RecalcBestDist info) = dist info ∧
  tensor_usage_id (RecalcBestDist info) = tensor_usage_id info ∧
  (best_dist (RecalcBestDist info) ≠ kNotAssigned →
   ∃ d, zget (dist info) (best_object (RecalcBestDist info)) = Some d ∧ d ≠ kNotAssigned).
Proof.
  unfold RecalcBestDist.
  pose proof (smaller_dist_fold (imap (λ i d, (Z.of_nat i, d)) (dist info)) (kNotAssigned, best_object info)) as Hf.
  destruct (foldl _ _ _) as [d obj]. simpl in *. split_and!; [done|done|]. intros Hne.
  destruct Hf as [[= -> ->]|[(i & d' & [= -> ->] & Hd)%elem_of_lookup_imap Hlt]]; [done|].
  exists d'. split; [by apply vget_nat|done].
Qed.

(** A new object is one more distance. *)
Lemma extended_ok i r info :
  new = true → records !! i = Some r → info_ok ids0 n i info → ids0 !! i = Some kNotAssigned →
  let d := interval_dist r rb in
  let info1 := set_dist (dist info ++ [d]) info in
  info_ok ids1 n1 i (if d <? best_dist info1 then set_best d o info1 else info1).
Proof.
  intros Hn Hr Hok Hi0 d info1. pose proof (io_length _ _ _ _ Hok Hi0) as Hdl.
  pose proof Ho as (Ho0 & Hona & Hnew). assert (o = Z.of_nat n) as Hon by by apply Hnew.
  set (info2 := if d <? best_dist info1 then set_best d o info1 else info1).
  assert (dist info2 = dist info ++ [d]) as Hd2 by (unfold info2; by case_match).
  assert (zget (dist info ++ [d]) o = Some d) as Hlast.
  { apply zget_Some. split; [lia|]. rewrite Hon, Nat2Z.id, <- Hdl. apply lookup_split. }
  eapply info_ok_update; [done|exact Hr| |..].
  - unfold info2. by case_match.
  - rewrite Hd2, length_app, Hn. simpl. lia.
  - rewrite Hd2. unfold info2. case_match; simpl; intros Hne.
    + by exists d.
    + destruct (io_best _ _ _ _ Hok Hi0 Hne) as (d0 & [? Hd0]%zget_Some & Hne0). exists d0. split; [|done].
      apply zget_Some. split; [done|]. by apply lookup_app_l_Some.
  - rewrite Hd2. intros o' d' [H0 Hd']%zget_Some Hne'. apply lookup_app_Some in Hd' as [Hd'|[Hge Hd']].
    + split; [intros ->; apply lookup_lt_Some in Hd'; lia|]. right. exists d'.
      split; [by apply zget_Some|done].
    + apply list_lookup_singleton_Some in Hd' as [Hz <-]. split; [done|left; lia].
Qed.

(** The distance to an object in use may only be replaced by a smaller one, and
    be dropped. *)
Lemma replaced_ok i r info info' dn :
  new = false → records !! i = Some r → info_ok ids0 n i info → ids0 !! i = Some kNotAssigned → o < Z.of_nat n →
  is_Some (zget (dist info) o) →
  (∃ old, zget (dist info) o = Some old ∧ old ≠ kNotAssigned) →
  dist info' = zset o dn (dist info) → (dn ≠ kNotAssigned → interval_dist r rb ≠ kNotAssigned) →
  tensor_usage_id info' = tensor_usage_id info →
  (best_dist info' ≠ kNotAssigned →
     ∃ d, zget (dist info') (best_object info') = Some d ∧ d ≠ kNotAssigned) →
  info_ok ids1 n1 i info'.
Proof.
  intros Hn Hr Hok Hi0 Hon [y Hy] (old & Hold & Hold_ne) Hdist Hdn Hid' Hbest'.
  pose proof (zget_range _ _ _ Hy) as Hor. pose proof (io_length _ _ _ _ Hok Hi0) as Hdl.
  eapply (info_ok_update i info info' r); [done..|by rewrite Hn, Hdist, zset_length|done|].
  intros o' d' Hd' Hne'. rewrite Hdist in Hd'. destruct (decide (o' = o)) as [->|Hoo].
  - rewrite zget_zset_eq in Hd' by lia. simplify_eq. split; [by intros _; apply Hdn|right; eauto].
  - rewrite zget_zset_ne in Hd' by (done || lia). split; [done|right; eauto].
Qed.

(** When the distance is dropped the best one is looked for again. *)
Lemma dropped_best info :
  0 ≤ o < zlen (dist info) →
  (best_dist info ≠ kNotAssigned → ∃ d, zget (dist info) (best_object info) = Some d ∧ d ≠ kNotAssigned) →
  let info1 := set_dist (zset o kNotAssigned (dist info)) info in
  let info2 := if best_object info1 =? o then RecalcBestDist info1 else info1 in
  dist info2 = zset o kNotAssigned (dist info) ∧ tensor_usage_id info2 = tensor_usage_id info ∧
  (best_dist info2 ≠ kNotAssigned →
     ∃ d, zget (dist info2) (best_object info2) = Some d ∧ d ≠ kNotAssigned).
Proof.
  intros Hor Hbest info1 info2. unfold info2. destruct (Z.eqb_spec (best_object info1) o) as [Heq|Hne].
  - destruct (RecalcBestDist_spec info1) as (R1 & R2 & R3). rewrite R1, R2. done.
  - split_and!; [done|done|]. simpl in *. intros Hb. destruct (Hbest Hb) as (d0 & Hd0 & Hne0).
    exists d0. by rewrite zget_zset_ne by (done || lia).
Qed.

(** The update of the distances of an unassigned tensor. *)
Lemma update_dist_spec i r info :
  records !! i = Some r → info_ok ids0 n i info → ids0 !! i = Some kNotAssigned → new = false →
  (∀ old, zget (dist info) o = Some old → old ≠ kNotAssigned →
    let d := interval_dist r rb in
    let info1 := if d =? kNotAssigned then
        let info' := set_dist (zset o kNotAssigned (dist info)) info in
        if best_object info =? o then RecalcBestDist info' else info'
      else set_dist (zset o (old `min` d) (dist info)) info in
    info_ok ids1 n1 i (if d <? best_dist info1 then set_best d o info1 else info1)).
Proof.
  intros Hr Hok Hi0 Hn old Hold Hold_ne d info1. pose proof (zget_range _ _ _ Hold) as Hor.
  pose proof (io_length _ _ _ _ Hok Hi0) as Hdl. pose proof (io_best _ _ _ _ Hok Hi0) as Hbest.
  assert (o < Z.of_nat n) as Hon by lia. unfold info1. destruct (Z.eqb_spec d kNotAssigned) as [Hd|Hd].
  - destruct (dropped_best info Hor Hbest) as (E1 & E2 & E3). simpl in E1, E2, E3 |- *.
    set (info2 := if best_object info =? o then _ else _) in *.
    apply (replaced_ok i r info _ kNotAssigned); eauto; [by case_match|by case_match|].
    case_match; [|done]. simpl. done.
  - assert (old `min` d ≠ kNotAssigned) as Hmin by lia.
    assert (zget (zset o (old `min` d) (dist info)) o = Some (old `min` d)) as Hz by (apply zget_zset_eq; lia).
    apply (replaced_ok i r info _ (old `min` d)); eauto; [by case_match|by case_match|].
    case_match; simpl; [by eauto|]. intros Hb. destruct (Hbest Hb) as (d0 & Hd0 & Hne0).
    destruct (decide (best_object info = o)) as [->|Hne]; [by eauto|].
    exists d0. by rewrite zget_zset_ne by (done || lia).
Qed.

Lemma update_info_spec i r info st :
  records !! i = Some r → zget (locals st) (Z.of_nat i) = Some info → info_ok ids0 n i info →
  ids st = ids1 → length ids0 = length records →
  wp (update_info records rb o new (Z.of_nat i))
    (λ _ st', ids st' = ids st ∧ sizes st' = sizes st ∧
       ∃ info', locals st' = <[i := info']> (locals st) ∧ info_ok ids1 n1 i info') (λ _, False) st.
Proof.
  intros Hr Hinfo Hok Hids Hlen0. pose proof Hinfo as [_ Hlk]%zget_Some. rewrite Nat2Z.id in Hlk.
  destruct (lookup_lt_is_Some_2 ids1 i) as [id Hid].
  { rewrite length_insert, Hlen0. by eapply lookup_lt_Some. }
  unfold update_info. apply wp_bind. eapply wp_vget_Some; [exact Hinfo|]. apply wp_bind.
  rewrite (io_id _ _ _ _ Hok). eapply wp_vget_Some; [rewrite Hids; by apply vget_nat|].
  destruct (Z.eqb_spec id kNotAssigned) as [->|Hne]; simpl.
  2:{ apply wp_ret. split_and!; [done|done|]. exists info. split; [by rewrite list_insert_id|].
      eapply info_ok_assigned; [apply (io_id _ _ _ _ Hok)|done|done]. }
  pose proof (still_unassigned i Hid) as Hi0. pose proof (io_length _ _ _ _ Hok Hi0) as Hdl.
  assert (∀ info', info_ok ids1 n1 i info' →
    wp (vset locals set_infos (Z.of_nat i) info') (λ _ st', ids st' = ids st ∧ sizes st' = sizes st ∧
       ∃ info', locals st' = <[i := info']> (locals st) ∧ info_ok ids1 n1 i info') (λ _, False) st) as Hset.
  { intros info' Hok'. eapply wp_vset_Some; [exact Hinfo|]. simpl. rewrite zset_nat.
    split_and!; [done|done|]. by exists info'. }
  assert (zget records (Z.of_nat i) = Some r) as Hzr by by apply vget_nat.
  apply wp_bind. destruct (decide (new = true)) as [Hn|Hn%not_true_is_false].
  - rewrite Hn. apply wp_ret. apply wp_bind. eapply wp_deref; [exact Hzr|].
    apply wp_bind, wp_ret. rewrite Hn in Hset. apply Hset.
    pose proof (extended_ok i r info Hn Hr Hok Hi0) as Hext. by rewrite Hn in Hext.
  - pose proof (update_dist_spec i r info Hr Hok Hi0 Hn) as Hupd. pose proof Ho as (Ho0 & _ & Hnew).
    assert (o ≠ Z.of_nat n) by (intros ?%Hnew; congruence). rewrite Hn in Hset, Hupd |- *.
    destruct (zget_is_Some (dist info) o) as [old Hold]; [lia|].
    apply wp_bind. eapply wp_deref; [exact Hold|]. apply wp_ret.
    destruct (Z.eqb_spec old kNotAssigned) as [->|Hold_ne].
    + apply wp_ret. split_and!; [done|done|]. exists info. split; [by rewrite list_insert_id|].
      pose proof info_ok_update as Hok'. rewrite Hn in Hok'. eapply Hok'; [done|exact Hr|done|done|by eapply io_best|].
      intros o' d' Hd' Hne'. split; [intros ->; congruence|right; eauto].
    + apply wp_bind. eapply wp_deref; [exact Hzr|]. apply wp_bind, wp_bind.
      eapply wp_deref; [exact Hold|]. specialize (Hupd old Hold Hold_ne). simpl in Hupd.
      destruct (interval_dist r rb =? kNotAssigned) eqn:Hd; apply wp_ret, Hset; exact Hupd.
Qed.
End update.
(** *** The iterations *)

Record dist_inv (it : nat) (st : state Z (list SizeDistPriorityInfo)) : Prop := {
  di_sharing : sharing records (ids st) (sizes st);
  di_length : length (locals st) = length records;
  di_info i info : locals st !! i = Some info → info_ok (ids st) (length (sizes st)) i info;
  di_count : (length (unassigned (ids st)) + it = length records)%nat
}.

(** The search finds an unassigned tensor as long as there is one. *)
Lemma best_info_spec it st :
  dist_inv it st → (it < length records)%nat →
  wp (fold_m (range 0 (zlen records)) kNotAssigned best_info)
    (λ best st', st' = st ∧ ∃ b, best = Z.of_nat b ∧ (b < length records)%nat ∧
       ids st !! b = Some kNotAssigned) (λ _, False) st.
Proof.
  intros [Hsh Hlen Hinfo Hcount] Hit. pose proof (sh_length _ _ _ Hsh) as Hids.
  pose proof (vr_length _ valid) as Hmax.
  eapply wp_mono; [apply (wp_fold_m (λ don best st', st' = st ∧
    ((best = kNotAssigned ∧ ∀ i, i ∈ don → zget (ids st) i ≠ Some kNotAssigned) ∨
     ∃ b, best = Z.of_nat b ∧ (b < length records)%nat ∧ ids st !! b = Some kNotAssigned)) (λ _, False))| |done].
  - split; [done|left]. split; [done|]. by intros i ?%elem_of_nil.
  - intros don i todo best st' Hsplit [-> Hbest].
    assert (0 ≤ i < zlen records) as Hi by (apply elem_of_range; rewrite Hsplit; in_list).
    destruct (zget_is_Some (locals st) i) as [info Hzi]; [lia|].
    pose proof Hzi as [_ Hli]%zget_Some. destruct (zget_is_Some (ids st) i) as [id Hid]; [lia|].
    unfold best_info. apply wp_bind. eapply wp_vget_Some; [exact Hzi|]. apply wp_bind.
    rewrite (io_id _ _ _ _ (Hinfo _ _ Hli)), Z2Nat.id by lia. eapply wp_vget_Some; [exact Hid|].
    destruct (Z.eqb_spec id kNotAssigned) as [->|Hne]; simpl.
    + assert (∃ b, i = Z.of_nat b ∧ (b < length records)%nat ∧ ids st !! b = Some kNotAssigned) as Hnew.
      { exists (Z.to_nat i). apply zget_Some in Hid as [_ Hid]. split_and!; [lia|lia|done]. }
      destruct (Z.eqb_spec best kNotAssigned) as [->|Hbn]; [apply wp_ret; auto|].
      destruct Hbest as [[? _]|(b & -> & Hb & Hidb)]; [done|].
      apply wp_bind. destruct (lookup_lt_is_Some_2 (locals st) b) as [ib Hib]; [lia|].
      eapply wp_vget_Some; [by apply vget_nat|]. apply wp_ret. split; [done|right].
      case_match; eauto.
    + apply wp_ret. split; [done|]. destruct Hbest as [[-> Hdon]|Hb]; [left|by right].
      split; [done|]. intros j [Hj|Hj%list_elem_of_singleton]%elem_of_app; [by apply Hdon|].
      subst. rewrite Hid. congruence.
  - simpl. intros best st' [-> [[-> Hall]|Hb]]; [exfalso|done].
    assert (length (unassigned (ids st)) = 0%nat); [|lia]. apply unassigned_none.
    intros (i & Hi)%list_elem_of_lookup. apply (Hall (Z.of_nat i)); [|by apply vget_nat].
    apply elem_of_range. apply lookup_lt_Some in Hi. lia.
Qed.

(** All priorities are brought up to date. *)
Lemma update_all ids0 n b rb o new st :
  records !! b = Some rb → (∀ j, ids0 !! j ≠ Some (Z.of_nat n)) →
  0 ≤ o ≤ Z.of_nat n ∧ o < kNotAssigned ∧ (new = true ↔ o = Z.of_nat n) →
  length ids0 = length records → ids st = <[b := o]> ids0 → length (locals st) = length records →
  (∀ i info, locals st !! i = Some info → info_ok ids0 n i info) →
  wp (for_each (range 0 (zlen records)) (update_info records rb o new))
    (λ _ st', ids st' = ids st ∧ sizes st' = sizes st ∧ length (locals st') = length records ∧
       ∀ i info, locals st' !! i = Some info → info_ok (ids st) (if new then S n else n) i info)
    (λ _, False) st.
Proof.
  intros Hrb Hobj Ho Hlen0 Hids Hlen Hinfo.
  eapply wp_mono; [apply (wp_for_each (λ don st', ids st' = ids st ∧ sizes st' = sizes st ∧
    length (locals st') = length records ∧ ∀ i info, locals st' !! i = Some info →
      if decide (i < length don)%nat then info_ok (ids st) (if new then S n else n) i info
      else info_ok ids0 n i info) (λ _, False))| |done].
  - split_and!; [done..|]. intros i info Hi. rewrite decide_False by (simpl; lia). by apply Hinfo.
  - intros don k todo st' Hsplit (Hi' & Hs' & Hl' & Hall).
    destruct (range_split _ _ _ _ Hsplit) as [-> Hk]. set (i := length don) in *.
    destruct (lookup_lt_is_Some_2 records i) as [r Hr]; [lia|].
    destruct (lookup_lt_is_Some_2 (locals st') i) as [info Hli]; [lia|].
    pose proof (Hall i info Hli) as Hok. rewrite decide_False in Hok by lia.
    eapply wp_mono; [eapply (update_info_spec ids0 n b rb o new Hrb Hobj Ho i r info);
      [done|by apply vget_nat|done|by rewrite Hi', Hids|done]| |done].
    simpl. intros _ st2 (Hi2 & Hs2 & info' & Hl2 & Hok2). rewrite Hl2, length_insert.
    split_and!; [congruence|congruence|done|]. intros j infoj Hj. rewrite length_app. simpl.
    apply list_lookup_insert_Some in Hj as [(<- & <- & _)|[Hne Hj]].
    + rewrite decide_True by lia. by rewrite Hids.
    + specialize (Hall j infoj Hj). destruct (decide (j < i)%nat).
      * by rewrite decide_True by lia.
      * by rewrite decide_False by lia.
  - simpl. intros _ st' (Hi' & Hs' & Hl' & Hall). split_and!; [done..|].
    intros i info Hi. specialize (Hall i info Hi). rewrite decide_True in Hall; [done|].
    apply lookup_lt_Some in Hi. unfold range. rewrite length_seqZ. lia.
Qed.

(** The objects in use and the next one are no tensor's yet. *)
Lemma object_fresh it st j : dist_inv it st → ids st !! j ≠ Some (zlen (sizes st)).
Proof.
  intros [Hsh _ _ _] Hj. pose proof (sharing_bound records valid _ Hsh) as Hb.
  destruct (lookup_lt_is_Some_2 records j) as [rj Hrj].
  { rewrite <- (sh_length _ _ _ Hsh). by eapply lookup_lt_Some. }
  destruct (sh_object _ _ _ Hsh j rj _ Hrj Hj) as (? & Hz%zget_range & _); lia.
Qed.

(** Once the tensor [b] has its object, the loop restores the invariant. *)
Lemma update_rest it st b rb o (new : bool) st1 :
  dist_inv it st → (it < length records)%nat → records !! b = Some rb → ids st !! b = Some kNotAssigned →
  ids st1 = <[b := o]> (ids st) → o ≠ kNotAssigned → 0 ≤ o ≤ zlen (sizes st) →
  locals st1 = locals st → sharing records (ids st1) (sizes st1) →
  length (sizes st1) = (if new then S (length (sizes st)) else length (sizes st)) →
  (new = true ↔ o = zlen (sizes st)) →
  wp (for_each (range 0 (zlen records)) (update_info records rb o new))
    (λ _, dist_inv (it + 1)) (λ _, False) st1.
Proof.
  intros Hinv Hit Hrb Hbna Hi1 Ho Hor Hl1 Hsh1 Hs1 Hnew. pose proof Hinv as [Hsh Hlen Hinfo Hcount].
  pose proof (sh_length _ _ _ Hsh) as Hids. pose proof (sharing_bound records valid _ Hsh) as Hb.
  pose proof (λ j, object_fresh it st j Hinv : ids st !! j ≠ Some (zlen (sizes st))) as Hfresh.
  eapply wp_mono; [apply (update_all (ids st) (length (sizes st)) b);
    [done|done|split_and!; [lia|lia|lia|done]|done|done|by rewrite Hl1|by rewrite Hl1]| |done].
  intros _ st2 (Hi2 & Hs2 & Hl2 & Hinfo2). split; [by rewrite Hi2, Hs2|done| |].
  - rewrite Hi2, Hs2, Hs1. done.
  - rewrite Hi2, Hi1. pose proof (unassigned_insert (ids st) b o Hbna Ho). lia.
Qed.

Lemma assign_best_spec it k st :
  dist_inv it st → (it < length records)%nat →
  wp (assign_best records k) (λ _, dist_inv (it + 1)) (λ _, False) st.
Proof.
  intros Hinv Hit. pose proof Hinv as [Hsh Hlen Hinfo Hcount]. pose proof (sh_length _ _ _ Hsh) as Hids.
  pose proof (sharing_bound records valid _ Hsh) as Hb.
  unfold assign_best. apply wp_bind.
  eapply wp_mono; [by eapply best_info_spec|simpl|done]. intros best _ [-> (b & -> & Hbl & Hbna)].
  pose proof (vr_length _ valid) as Hmax.
  apply wp_bind, wp_ensure; [intros _|intros Hf%negb_false_iff%Z.eqb_eq; unfold kNotAssigned in Hf; lia].
  destruct (lookup_lt_is_Some_2 (locals st) b) as [info Hib]; [lia|].
  destruct (lookup_lt_is_Some_2 records b) as [rb Hrb]; [lia|].
  pose proof (Hinfo b info Hib) as Hok.
  apply wp_bind. eapply wp_vget_Some; [by apply vget_nat|].
  rewrite (io_id _ _ _ _ Hok). apply wp_bind. eapply wp_deref; [by apply vget_nat|].
  apply wp_bind. destruct (Z.eqb_spec (best_dist info) kNotAssigned) as [Hna|Hna].
  - unfold new_object, push_size. apply wp_bind, wp_gets. apply wp_bind, wp_bind, wp_gets.
    apply wp_bind, wp_vset; [simpl; lia|]. apply wp_modify, wp_ret. simpl.
    apply (update_rest it st b rb); try done; simpl; try lia.
    + by rewrite zset_nat.
    + rewrite zset_nat. by apply sharing_new.
    + rewrite length_app. simpl. lia.
  - destruct (io_best _ _ _ _ Hok Hbna Hna) as (d & Hd & Hdne).
    pose proof (zget_range _ _ _ Hd) as Hor. rewrite (io_length _ _ _ _ Hok Hbna) in Hor.
    destruct (zget_is_Some (sizes st) (best_object info)) as [sz Hsz]; [done|].
    apply wp_bind, wp_vset; [simpl; lia|]. simpl. apply wp_bind. eapply wp_vget_Some; [exact Hsz|].
    apply wp_bind, wp_vset; [simpl; lia|]. simpl. apply wp_ret.
    apply (update_rest it st b rb); try done; simpl; try lia.
    + by rewrite zset_nat.
    + rewrite zset_nat. eapply (sharing_assign _ (ids st) (sizes st));
        [done|done|done|done|lia|by apply resized_max|].
      intros j r' Hrj Hj. by eapply (io_dist _ _ _ _ Hok).
    + by rewrite zset_length.
Qed.

Lemma GreedyBySizeDistPriorityAssignment_safe {S} (s : S) E :
  wp (GreedyBySizeDistPriorityAssignment records)
    (λ a s', s' = s ∧ objects_shared_safely records a) E s.
Proof.
  unfold GreedyBySizeDistPriorityAssignment. apply wp_bind.
  eapply wp_mono; [by apply CalculatePositionalMaximums_spec|simpl|by intros s' ?].
  intros pmax _ [-> Hpmax]. apply run_assignment_spec. apply wp_bind.
  eapply wp_mono; [apply (wp_for_records records (λ n st, ids st = replicate (length records) kNotAssigned ∧
    sizes st = [] ∧ length (locals st) = n ∧ ∀ i info, locals st !! i = Some info →
      info_ok (ids st) 0 i info) (λ _, False))| |done].
  - simpl. split_and!; [done..|]. intros i info Hi. by rewrite lookup_nil in Hi.
  - intros n r st Hr (Hi & Hs & Hl & Hinfo). unfold initial_info. apply wp_bind, wp_ensure.
    + intros _. apply wp_modify. simpl. split_and!; [done|done|rewrite length_app; simpl; lia|].
      intros i info [Hi'|[Hge Hi']]%lookup_app_Some; [by apply Hinfo|].
      apply list_lookup_singleton_Some in Hi' as [Hz <-]. split; simpl; [f_equal; lia|done|done|].
      intros o d j r1 r' _ [_ Hd]%zget_Some. by rewrite lookup_nil in Hd.
    + intros Hf%negb_false_iff%Z.eqb_eq. destruct (first_smaller_pos (tensor_size r) pmax); [|done].
      apply Hpmax. by eapply list_elem_of_lookup_2.
  - simpl. intros _ st (Hi & Hs & Hl & Hinfo).
    eapply wp_mono; [apply (wp_for_each (λ don, dist_inv (length don)) (λ _, False))| |done].
    + simpl. split; [rewrite Hi, Hs; apply sharing_start|done|by rewrite Hs|].
      rewrite Hi, unassigned_replicate. lia.
    + intros don k todo st' Hsplit Hinv. rewrite length_app. destruct (range_split _ _ _ _ Hsplit) as [_ Hk].
      apply (f_equal length) in Hsplit. unfold range in Hsplit. rewrite length_seqZ, length_app in Hsplit.
      simpl in Hsplit. apply assign_best_spec; [done|lia].
    + simpl. intros _ st' [Hsh _ _ Hcount]. split; [done|]. apply unassigned_none.
      unfold range in Hcount. rewrite length_seqZ in Hcount. lia.
Qed.
End by_size_dist.
