(* ===== verification/MinCostFlow.v ===== *)
(** * Shared objects by a minimum-cost flow
      ([src/tflite/delegates/gpu/common/memory_management/min_cost_flow_assignment.cc])

    A bipartite flow network whose left part has a vertex per tensor that may
    hand its memory on and whose right part has a vertex per tensor that takes
    memory. The definitions follow the class [MinCostFlowSolver]; the loops that
    end only by an argument about flows have fuel: as many augmentations as the
    source has edges, as many rounds of relaxation as there are vertices, and as
    many steps along a path. *)

From S2P Require Import Prelude UsageRecords ObjectAssignment.

Record Edge := { dst : Z; cap : Z; cost : Z }.

Definition set_cap (c : Z) (e : Edge) : Edge := {| dst := dst e; cap := c; cost := cost e |}.

(** The flow graph; edge [idx] has its reverse at [idx ^ 1]. *)
Record Solver := { edges_ : list Edge; edges_from_ : list (list Z) }.

Definition set_edges v (s : Solver) : Solver := {| edges_ := v; edges_from_ := edges_from_ s |}.
Definition set_edges_from v (s : Solver) : Solver := {| edges_ := edges_ s; edges_from_ := v |}.

Definition kInf : Z := int32_max.

Section solver.
Context (usage_records_ : list (TensorUsageRecord Z)).

Definition num_tensors_ : Z := zlen usage_records_.
Definition source_ : Z := 2 * num_tensors_.
Definition sink_ : Z := source_ + 1.

Definition IsRightPartVertex (vertex_id : Z) : bool :=
  (num_tensors_ <=? vertex_id) && (vertex_id <? 2 * num_tensors_).
Definition LeftPartTwin (vertex_id : Z) : Z := u64 (vertex_id - num_tensors_).
Definition RightPartTwin (vertex_id : Z) : Z := u64 (vertex_id + num_tensors_).

(** ** Building the network *)

Definition push_edge_from (v : Z) : M Solver unit :=
  n ← gets (λ s, zlen (edges_ s));
  l ← vget edges_from_ v;
  vset edges_from_ set_edges_from v (l ++ [n]).

Definition push_edge_back (e : Edge) : M Solver unit :=
  modify (λ s, set_edges (edges_ s ++ [e]) s).

Definition AddEdge (src dst cap cost : Z) : M Solver unit :=
  push_edge_from src ;;
  push_edge_back {| dst := dst; cap := cap; cost := cost |} ;;
  push_edge_from dst ;;
  push_edge_back {| dst := src; cap := 0; cost := i32 (- cost) |}.

(** The edge that lets tensor [i] reuse the memory of an earlier tensor. *)
Definition reuse_edge (i : Z) (r : TensorUsageRecord Z) (record_id : Z) : M Solver unit :=
  old ← deref (zget usage_records_ record_id);
  AddEdge record_id (RightPartTwin i) 1
    (if tensor_size r >? tensor_size old then i32 (tensor_size r - tensor_size old) else 0).

(** One iteration, with [old_record_ids] and [objects_in_use]. *)
Definition build_step (locals : list Z * list QueueRecord) (i : Z) : M Solver (list Z * list QueueRecord) :=
  r ← deref (zget usage_records_ i);
  let '(expired, in_use) := pop_expired (first_task r) locals.2 in
  let old_record_ids := locals.1 ++ expired in
  AddEdge source_ i 1 0 ;;
  AddEdge (RightPartTwin i) sink_ 1 0 ;;
  AddEdge source_ (RightPartTwin i) 1 (i32 (tensor_size r)) ;;
  for_each old_record_ids (reuse_edge i r) ;;
  mret (old_record_ids, queue_push {| queue_last_task := last_task r; queue_object_id := i |} in_use).

Definition Build : M Solver unit :=
  modify (set_edges_from (replicate (Z.to_nat (sink_ + 1)) [])) ;;
  fold_m (range 0 num_tensors_) ([], []) build_step ;;
  mret ().

(** ** Shortest paths *)

Record Paths := {
  graph : Solver;
  next_queue : list Z;
  last_it_in_queue : list Z;
  path_dist : list Z;
  prev_edge : list Z
}.

Definition set_next_queue v p := {| graph := graph p; next_queue := v;
  last_it_in_queue := last_it_in_queue p; path_dist := path_dist p; prev_edge := prev_edge p |}.
Definition set_last_it v p := {| graph := graph p; next_queue := next_queue p;
  last_it_in_queue := v; path_dist := path_dist p; prev_edge := prev_edge p |}.
Definition set_path_dist v p := {| graph := graph p; next_queue := next_queue p;
  last_it_in_queue := last_it_in_queue p; path_dist := v; prev_edge := prev_edge p |}.
Definition set_prev_edge v p := {| graph := graph p; next_queue := next_queue p;
  last_it_in_queue := last_it_in_queue p; path_dist := path_dist p; prev_edge := v |}.

Definition relax (it v edge_id : Z) : M Paths unit :=
  edge ← vget (λ p, edges_ (graph p)) edge_id;
  if cap edge >? 0 then
    let u := dst edge in
    dv ← vget path_dist v;
    du ← vget path_dist u;
    let new_dist := i32 (u64 (dv + u64 (cost edge))) in
    if u64 new_dist <? du then
      vset path_dist set_path_dist u (u64 new_dist) ;;
      vset prev_edge set_prev_edge u edge_id ;;
      l ← vget last_it_in_queue u;
      if negb (l =? it) then
        modify (λ p, set_next_queue (next_queue p ++ [u]) p) ;;
        vset last_it_in_queue set_last_it u it
      else mret ()
    else mret ()
  else mret ().

(** A round empties [cur_queue]; relaxing fills [next_queue] only. *)
Definition relax_round (it : Z) (cur_queue : list Z) : M Paths unit :=
  for_each cur_queue (λ v,
    out ← vget (λ p, edges_from_ (graph p)) v;
    for_each out (relax it v)).

Fixpoint shortest_paths (fuel : nat) (it : Z) (cur_queue : list Z) : M Paths unit :=
  match cur_queue, fuel with
  | [], _ => mret ()
  | _, O => undefined
  | _, S fuel' =>
      relax_round (it + 1) cur_queue ;;
      next ← gets next_queue;
      modify (set_next_queue []) ;;
      shortest_paths fuel' (it + 1) next
  end.

(** Sends one unit along the path that ends in [v]. *)
Fixpoint augment (fuel : nat) (prev_edge : list Z) (v : Z) : M Solver unit :=
  if v =? source_ then mret ()
  else
    match fuel with
    | O => undefined
    | S fuel' =>
        e ← deref (zget prev_edge v);
        edge ← vget edges_ e;
        vset edges_ set_edges e (set_cap (cap edge - 1) edge) ;;
        rev_edge ← vget edges_ (Z.lxor e 1);
        vset edges_ set_edges (Z.lxor e 1) (set_cap (cap rev_edge + 1) rev_edge) ;;
        augment fuel' prev_edge (dst rev_edge)
    end.

(** [prev_edge] lives across the iterations. *)
Fixpoint solve_loop (fuel : nat) (prev : list Z) : M Solver unit :=
  match fuel with
  | O => undefined
  | S fuel' =>
      let num_vertices := Z.to_nat (sink_ + 1) in
      found ← zoom
        (λ s, {| graph := s; next_queue := [];
                 last_it_in_queue := zset source_ 1 (replicate num_vertices 0);
                 path_dist := zset source_ 0 (replicate num_vertices kInf);
                 prev_edge := prev |}) (λ _ s, s)
        (shortest_paths (S num_vertices) 1 [source_] ;;
         d ← vget path_dist sink_; p ← gets prev_edge; mret (d, p));
      if found.1 =? kInf then mret ()
      else augment num_vertices found.2 sink_ ;; solve_loop fuel' found.2
  end.

Definition Solve : M Solver unit :=
  solve_loop (S (2 * length usage_records_)) (replicate (Z.to_nat (sink_ + 1)) 0).

(** ** Reading the assignment off the flow *)

(** Of the assignment: [object_ids] and [object_sizes]; [locals] are
    [is_tensor_assigned_]. *)
Abbreviation flow_state := (state Z (list bool)).

Definition set_assigned v (s : flow_state) : flow_state :=
  {| ids := ids s; sizes := sizes s; locals := v |}.

Fixpoint AssignTensorsToNewSharedObject (g : Solver) (fuel : nat) (tensor_id : Z) : M flow_state Z :=
  match fuel with
  | O => undefined
  | S fuel' =>
      r ← deref (zget usage_records_ tensor_id);
      vset locals set_assigned tensor_id true ;;
      n ← gets (λ s, zlen (sizes s));
      vset ids set_ids tensor_id n ;;
      out ← deref (zget (edges_from_ g) tensor_id);
      fold_m out (tensor_size r) (λ cost edge_id,
        edge ← deref (zget (edges_ g) edge_id);
        let v := dst edge in
        let left_twin := LeftPartTwin v in
        if (cap edge =? 0) && IsRightPartVertex v then
          assigned ← vget locals left_twin;
          if negb assigned then
            c ← AssignTensorsToNewSharedObject g fuel' left_twin; mret (cost `max` c)
          else mret cost
        else mret cost)
  end.

Definition CalculateAssignment (g : Solver) {St} : M St (ObjectsAssignment Z) :=
  run_assignment (length usage_records_) (replicate (length usage_records_) false)
    (out ← deref (zget (edges_from_ g) source_);
     for_each out (λ edge_id,
       edge ← deref (zget (edges_ g) edge_id);
       if (cap edge =? 0) && IsRightPartVertex (dst edge) then
         sz ← AssignTensorsToNewSharedObject g (S (length usage_records_)) (LeftPartTwin (dst edge));
         push_size sz
       else mret ())).

Definition MinCostFlowAssignment {S} : M S (ObjectsAssignment Z) :=
  zoom (λ _, {| edges_ := []; edges_from_ := [] |}) (λ _ s, s)
    (Build ;; Solve ;; g ← get; CalculateAssignment g).
End solver.
