(* ===== verification/MemoryManagement.v ===== *)
(** * Choosing a strategy and placing tensors at offsets
      ([src/tflite/delegates/gpu/common/memory_management.cc],
       [memory_management/greedy_by_size_assignment.cc]) *)

From S2P Require Import Prelude UsageRecords ObjectAssignment MinCostFlow.

Inductive MemoryStrategy :=
  NAIVE | EQUALITY | GREEDY_IN_ORDER | GREEDY_BY_BREADTH | GREEDY_BY_SIZE | GREEDY_BEST | MINCOSTFLOW.

#[export] Instance strategy_eq_dec : EqDecision MemoryStrategy.
Proof. solve_decision. Defined.

(** ** Shared objects *)

Definition TotalSize (assignment : ObjectsAssignment Z) : Z :=
  foldl (λ n sz, u64 (n + sz)) 0 (object_sizes assignment).

(** The second assignment is taken only if it could be computed. *)
Definition BestGreedy (usage_records : list (TensorUsageRecord Z)) {S} : M S (ObjectsAssignment Z) :=
  assignment ← GreedyBySizeDistPriorityAssignment usage_records;
  assignment_by_breadth ← try_m (GreedyByBreadthAssignment usage_records);
  mret match assignment_by_breadth with
       | Some by_breadth =>
           if TotalSize by_breadth <? TotalSize assignment then by_breadth else assignment
       | None => assignment
       end.

Definition AssignObjectsToTensors (usage_records : list (TensorUsageRecord Z))
    (strategy : MemoryStrategy) (reallocation_graph : option UsageGraph) {S} :
    M S (ObjectsAssignment Z) :=
  match strategy with
  | NAIVE => NaiveAssignment usage_records
  | EQUALITY => EqualityAssignmentWithHash usage_records
  | GREEDY_IN_ORDER => GreedyInOrderAssignment usage_records reallocation_graph
  | GREEDY_BY_BREADTH => GreedyByBreadthAssignment usage_records
  | GREEDY_BY_SIZE => GreedyBySizeDistPriorityAssignment usage_records
  | GREEDY_BEST => BestGreedy usage_records
  | MINCOSTFLOW => MinCostFlowAssignment usage_records
  end.

Definition AssignObjectsToTensors_BHWC (usage_records : list (TensorUsageRecord BHWC))
    (strategy : MemoryStrategy) {S} : M S (ObjectsAssignment BHWC) :=
  match strategy with
  | NAIVE => NaiveAssignment usage_records
  | EQUALITY => EqualityAssignmentWithHash usage_records
  | _ => fail
  end.

(** The specializations for [uint2] and [uint3] have the same text. *)
Definition AssignObjectsToTensors_vec {T} `{Inhabited T, EqDecision T, ObjectSize T}
    (usage_records : list (TensorUsageRecord T)) (strategy : MemoryStrategy) {S} :
    M S (ObjectsAssignment T) :=
  match strategy with
  | NAIVE => NaiveAssignment usage_records
  | EQUALITY => EqualityAssignment usage_records
  | GREEDY_IN_ORDER => GreedyInOrderAssignmentMultidimensional usage_records
  | _ => fail
  end.

(** ** Offsets *)

(** The offset of every object: the sizes of those before it. *)
Fixpoint ids_to_offset (total : Z) (object_sizes : list Z) : list Z * Z :=
  match object_sizes with
  | [] => ([], total)
  | sz :: rest => let '(offs, n) := ids_to_offset (u64 (total + sz)) rest in (total :: offs, n)
  end.

Definition ObjectsToOffsets (obj_assignment : ObjectsAssignment Z) {S} : M S OffsetsAssignment :=
  let '(offs, total) := ids_to_offset 0 (object_sizes obj_assignment) in
  result ← fold_m (object_ids obj_assignment) [] (λ acc id,
    off ← deref (zget offs id); mret (acc ++ [off]));
  mret {| offsets := result; total_size := total |}.

(** [util.h]; the division by 0 is undefined. *)
Definition DivideRoundUp (n divisor : Z) : Z :=
  let q := n / divisor in if n mod divisor =? 0 then q else u64 (q + 1).
Definition AlignByN (number n : Z) : Z := u64 (DivideRoundUp number n * n).

(** ** Greedy by size, with offsets *)

Section by_size.
Context (usage_records : list (TensorUsageRecord Z)) (base_addr_align_bytes : Z).

Record SizeState := {
  size_offsets : list Z;
  size_total : Z;
  ordered_allocs : list Z
}.

Definition set_size_offsets v s := {| size_offsets := v; size_total := size_total s;
  ordered_allocs := ordered_allocs s |}.

(** The search for a gap: [best_diff], [best_offset] and [prev_offset]. *)
Record Gap := { best_diff : Z; best_offset : Z; prev_offset : Z }.

Definition gap_step (rec : TensorUsageRecord Z) (g : Gap) (allocated_id : Z) : M SizeState Gap :=
  a ← deref (zget usage_records allocated_id);
  if (last_task a <? first_task rec) || (first_task a >? last_task rec) then mret g
  else
    cur_offset ← vget size_offsets allocated_id;
    let diff := cur_offset - prev_offset g in
    let found := (cur_offset >=? prev_offset g)
                 && (diff >=? tensor_size rec) && (diff <? best_diff g) in
    aligned ← (if base_addr_align_bytes =? 0 then undefined
               else mret (AlignByN (u64 (cur_offset + tensor_size a)) base_addr_align_bytes));
    mret {| best_diff := if found then diff else best_diff g;
            best_offset := if found then prev_offset g else best_offset g;
            prev_offset := prev_offset g `max` aligned |}.

(** [ordered_allocs.insert]: after the allocations whose offset is not larger. *)
Fixpoint insert_alloc (offsets : list Z) (best_offset : Z) (id : Z) (l : list Z) : M SizeState (list Z) :=
  match l with
  | [] => mret [id]
  | x :: l' =>
      off ← deref (zget offsets x);
      if off <=? best_offset then rest ← insert_alloc offsets best_offset id l'; mret (x :: rest)
      else mret (id :: l)
  end.

Definition place_tensor (rec_with_idx : TensorUsageWithIndex) : M SizeState unit :=
  let rec := usage_record rec_with_idx in
  s ← get;
  g ← fold_m (ordered_allocs s)
        {| best_diff := kNotAssigned; best_offset := kNotAssigned; prev_offset := 0 |}
        (gap_step rec);
  ensure (negb (u64 (size_total s + u64 (zlen (ordered_allocs s) * u64 (base_addr_align_bytes - 1)))
                <? prev_offset g)) ;;
  let off := if best_offset g =? kNotAssigned then prev_offset g else best_offset g in
  allocs ← insert_alloc (size_offsets s) off (idx rec_with_idx) (ordered_allocs s);
  _ ← vget size_offsets (idx rec_with_idx);
  put {| size_offsets := zset (idx rec_with_idx) off (size_offsets s);
         size_total := size_total s `max` u64 (off + tensor_size rec);
         ordered_allocs := allocs |}.

Definition GreedyBySizeAssignment {S} : M S OffsetsAssignment :=
  zoom (λ _, {| size_offsets := replicate (length usage_records) 0; size_total := 0;
                ordered_allocs := [] |}) (λ _ s, s)
    (for_each (stable_sort CompareBySize (with_index usage_records)) place_tensor ;;
     gets (λ s, {| offsets := size_offsets s; total_size := size_total s |})).
End by_size.

Definition AssignOffsetsToTensors (usage_records : list (TensorUsageRecord Z))
    (strategy : MemoryStrategy) (base_addr_align_bytes : Z)
    (reallocation_graph : option UsageGraph) {S} : M S OffsetsAssignment :=
  match strategy with
  | GREEDY_BY_SIZE => GreedyBySizeAssignment usage_records base_addr_align_bytes
  | _ =>
      objects_assignment ← AssignObjectsToTensors usage_records strategy reallocation_graph;
      ObjectsToOffsets objects_assignment
  end.
