(* ===== verification/MemoryProofs.v ===== *)
(** * The memory management of the GPU delegate is correct

    Offsets: the conversion from shared objects and the strategy that places the
    tensors by size. Then the theorems about the entry points. *)

From S2P Require Import Prelude UsageRecords ObjectAssignment SharingProofs GreedyProofs.
From S2P Require Import MinCostFlow MemoryManagement.

(** ** From objects to offsets *)

Lemma ids_to_offset_spec n szs :
  (∀ x, x ∈ szs → 0 ≤ x) → 0 ≤ n → n + total szs ≤ size_max →
  (ids_to_offset n szs).2 = n + total szs ∧
  ∀ i, (i < length szs)%nat → (ids_to_offset n szs).1 !! i = Some (n + total (take i szs)).
Proof.
  revert n. induction szs as [|x szs IH]; intros n Hpos Hn Hmax; simpl in *.
  - split; [lia|]. lia.
  - assert (0 ≤ x) by (apply Hpos; by left).
    assert (0 ≤ total szs) by (apply total_nonneg; intros y ?; apply Hpos; by right).
    destruct (IH (n + x)) as [IH1 IH2]; [intros y ?; apply Hpos; by right|lia|lia|].
    rewrite u64_id by (unfold is_size; lia).
    destruct (ids_to_offset (n + x) szs) as [offs t]. simpl in *. split; [lia|].
    intros [|i] Hi; simpl; [f_equal; lia|]. rewrite IH2 by lia. f_equal. lia.
Qed.

Lemma total_take_le l i j : (∀ x, x ∈ l → 0 ≤ x) → (i ≤ j)%nat → total (take i l) ≤ total (take j l).
Proof.
  intros Hl Hij. replace j with (i + (j - i))%nat by lia. rewrite <- take_take_drop, total_app.
  assert (0 ≤ total (take (j - i) (drop i l))); [|lia]. apply total_nonneg. intros x Hx. apply Hl.
  apply elem_of_take in Hx as (k & Hk & _). rewrite lookup_drop in Hk. by eapply list_elem_of_lookup_2.
Qed.

Lemma total_take_S l i x : l !! i = Some x → total (take (S i) l) = total (take i l) + x.
Proof. intros Hx. rewrite (take_S_r l i x Hx), total_app. simpl. lia. Qed.

(** ** Shared objects take no more memory than the tensors *)

Section tight.
Context (records : list (TensorUsageRecord Z)) (a : ObjectsAssignment Z).
Hypothesis safe : objects_shared_safely records a.
Hypothesis nonneg : ∀ r, r ∈ records → 0 ≤ tensor_size r.

Definition size_at (i : nat) : Z := from_option tensor_size 0 (records !! i).

Lemma object_sizes_nonneg x : x ∈ object_sizes a → 0 ≤ x.
Proof.
  intros (k & Hk)%list_elem_of_lookup.
  destruct (os_tight _ _ safe (Z.of_nat k) x (vget_nat _ _ _ Hk)) as (i & r & _ & Hr & ->).
  by eapply nonneg, list_elem_of_lookup_2.
Qed.

Lemma object_tensors k : (k ≤ length (object_sizes a))%nat →
  ∃ l, NoDup l ∧ (∀ i, i ∈ l → (i < length records)%nat ∧
         ∃ id, object_ids a !! i = Some id ∧ 0 ≤ id < Z.of_nat k) ∧
       total (take k (object_sizes a)) = total (size_at <$> l).
Proof.
  induction k as [|k IH]; intros Hk.
  { exists []. split_and!; [constructor|by intros i ?%elem_of_nil|done]. }
  destruct IH as (l & Hnd & Hl & Htot); [lia|].
  destruct (lookup_lt_is_Some_2 (object_sizes a) k) as [sz Hsz]; [lia|].
  destruct (os_tight _ _ safe (Z.of_nat k) sz (vget_nat _ _ _ Hsz)) as (i & r & Hid & Hr & ->).
  exists (i :: l). split_and!.
  - constructor; [|done]. intros Hi. destruct (Hl i Hi) as (_ & id & Hid' & ?). simplify_eq. lia.
  - intros j [->|Hj]%elem_of_cons.
    + split; [by eapply lookup_lt_Some|]. exists (Z.of_nat k). split; [done|lia].
    + destruct (Hl j Hj) as (? & id & ? & ?). split; [done|]. exists id. split; [done|lia].
  - assert (size_at i = tensor_size r) as Hat by (unfold size_at; by rewrite Hr).
    rewrite (total_take_S _ _ _ Hsz), Htot, fmap_cons, Hat, total_cons. lia.
Qed.

Lemma size_at_all : size_at <$> seq 0 (length records) = tensor_size <$> records.
Proof.
  apply list_eq. intros i. rewrite !list_lookup_fmap. destruct (decide (i < length records)%nat) as [Hi|Hi].
  - rewrite lookup_seq_lt by done. simpl. unfold size_at.
    destruct (lookup_lt_is_Some_2 records i Hi) as [r ->]. done.
  - rewrite lookup_seq_ge, lookup_ge_None_2 by lia. done.
Qed.

Lemma objects_total : total (object_sizes a) ≤ total (tensor_size <$> records).
Proof.
  destruct (object_tensors (length (object_sizes a))) as (l & Hnd & Hl & Htot); [done|].
  rewrite firstn_all in Htot. rewrite Htot, <- size_at_all. apply total_submseteq.
  - rewrite size_at_all. intros x (r & -> & Hr)%list_elem_of_fmap. by apply nonneg.
  - apply fmap_submseteq, NoDup_submseteq; [done|]. intros i Hi. apply elem_of_seq.
    destruct (Hl i Hi). lia.
Qed.

Lemma ObjectsToOffsets_safe {S} (s : S) E :
  total (tensor_size <$> records) ≤ size_max →
  wp (ObjectsToOffsets a) (λ o s', s' = s ∧ offsets_shared_safely records o) E s.
Proof.
  intros Hmax. pose proof objects_total as Htot.
  destruct (ids_to_offset_spec 0 (object_sizes a)) as [Ht Hoff];
    [by apply object_sizes_nonneg|lia|lia|].
  unfold ObjectsToOffsets. destruct (ids_to_offset 0 (object_sizes a)) as [offs t]. simpl in *. subst t.
  assert (∀ id sz, zget (object_sizes a) id = Some sz →
    zget offs id = Some (total (take (Z.to_nat id) (object_sizes a)))) as Hid.
  { intros id sz [? Hz]%zget_Some. apply zget_Some. split; [done|].
    apply Hoff. by eapply lookup_lt_Some. }
  apply wp_bind. eapply wp_mono; [apply (wp_fold_m (λ don acc s', s' = s ∧ length acc = length don ∧
    ∀ i id, don !! i = Some id → acc !! i = zget offs id) E)| |done].
  - split_and!; [done|done|]. intros i id Hi. by rewrite lookup_nil in Hi.
  - intros don id todo acc s' Hsplit (-> & Hlen & Hacc).
    assert (object_ids a !! length don = Some id) as Hin by (rewrite Hsplit; apply lookup_split).
    destruct (lookup_lt_is_Some_2 records (length don)) as [r Hr].
    { rewrite <- (os_length _ _ safe). by eapply lookup_lt_Some. }
    destruct (os_object _ _ safe _ r Hr) as (id' & sz & Hid' & Hsz & _). simplify_eq.
    apply wp_bind. eapply wp_deref; [by eapply Hid|]. apply wp_ret. rewrite !length_app. simpl.
    split_and!; [done|lia|]. intros i id2 [Hi|[Hge Hi]]%lookup_app_Some.
    + rewrite lookup_app_l; [by apply Hacc|]. rewrite Hlen. by eapply lookup_lt_Some.
    + apply list_lookup_singleton_Some in Hi as [Hi <-]. rewrite lookup_app_r by lia.
      replace (i - length acc)%nat with 0%nat by lia. symmetry. by eapply Hid.
  - simpl. intros acc s' (-> & Hlen & Hacc). apply wp_ret. split; [done|].
    assert (∀ i r, records !! i = Some r → ∃ id sz, object_ids a !! i = Some id ∧
      object_sizes a !! Z.to_nat id = Some sz ∧ 0 ≤ id ∧ tensor_size r ≤ sz ∧
      acc !! i = Some (total (take (Z.to_nat id) (object_sizes a)))) as Hobj.
    { intros i r Hr. destruct (os_object _ _ safe i r Hr) as (id & sz & Hi & Hz & Hc).
      pose proof Hz as [? Hz']%zget_Some. exists id, sz. split_and!; [done|done|done|done|].
      rewrite (Hacc _ _ Hi). by eapply Hid. }
    pose proof object_sizes_nonneg as Hpos. split; simpl.
    + by rewrite Hlen, (os_length _ _ safe).
    + intros i r Hr. destruct (Hobj i r Hr) as (id & sz & Hi & Hz & _ & Hle & Ha). eexists. split; [done|].
      pose proof (total_take_S _ _ _ Hz) as HS.
      pose proof (total_take_le _ 0 (Z.to_nat id) Hpos) as H0. simpl in H0.
      pose proof (total_take_le _ (Datatypes.S (Z.to_nat id)) (length (object_sizes a)) Hpos) as H1.
      rewrite firstn_all in H1. apply lookup_lt_Some in Hz. lia.
    + intros i j r r' off off' Hr Hr' Hij Ho Ho' Hov.
      destruct (Hobj i r Hr) as (id & sz & Hi & Hz & ? & Hle & Ha).
      destruct (Hobj j r' Hr') as (id' & sz' & Hi' & Hz' & ? & Hle' & Ha'). simplify_eq.
      assert (id ≠ id') as Hne.
      { intros <-. by eapply (os_disjoint _ _ safe i j r r' id). }
      pose proof (total_take_S _ _ _ Hz) as HS. pose proof (total_take_S _ _ _ Hz') as HS'.
      unfold ranges_disjoint. destruct (decide (id < id')).
      * pose proof (total_take_le _ (Datatypes.S (Z.to_nat id)) (Z.to_nat id') Hpos). lia.
      * pose proof (total_take_le _ (Datatypes.S (Z.to_nat id')) (Z.to_nat id) Hpos). lia.
Qed.
End tight.

(** ** Placing tensors by size *)

Lemma AlignByN_spec n al :
  0 ≤ n → 0 < al → n + al ≤ size_max →
  n ≤ AlignByN n al ≤ n + al - 1 ∧ AlignByN n al mod al = 0.
Proof.
  intros Hn Hal Hmax. unfold AlignByN, DivideRoundUp.
  pose proof (Z.div_mod n al ltac:(lia)) as Hdm. pose proof (Z.mod_pos_bound n al Hal) as Hmod.
  assert (0 ≤ n / al) by (apply Z.div_pos; lia).
  assert (n / al ≤ n) by (apply Z.div_le_upper_bound; nia).
  destruct (Z.eqb_spec (n mod al) 0) as [Hz|Hz].
  - rewrite u64_id by (unfold is_size; nia). split; [nia|]. by apply Z.mod_mul; lia.
  - rewrite (u64_id (n / al + 1)) by (unfold is_size; nia).
    rewrite u64_id by (unfold is_size; nia). split; [nia|]. by apply Z.mod_mul; lia.
Qed.

Section by_size.
Context (records : list (TensorUsageRecord Z)) (al : Z).
Hypothesis valid : valid_records records.
Hypothesis al_pos : 0 < al.
Hypothesis nonneg : ∀ r, r ∈ records → 0 ≤ tensor_size r.

(** Room for every tensor on its own, with the padding of the alignment; the
    check of the total size adds the padding once more. *)
Definition demand (l : list TensorUsageWithIndex) : Z :=
  total ((λ x, tensor_size (usage_record x) + al) <$> l).
Hypothesis fits : 2 * demand (with_index records) < size_max.

Definition off (st : SizeState) (i : Z) : Z := vat 0 (size_offsets st) i.

(** What is known of a tensor that has been placed. *)
Record placed (st : SizeState) (i : Z) (r : TensorUsageRecord Z) : Prop := {
  pl_record : zget records i = Some r;
  pl_inside : 0 ≤ off st i ∧ off st i + tensor_size r ≤ size_total st;
  pl_aligned : off st i mod al = 0
}.

Record size_inv (don : list TensorUsageWithIndex) (st : SizeState) : Prop := {
  si_length : length (size_offsets st) = length records;
  si_allocs : ordered_allocs st ≡ₚ idx <$> don;
  si_sorted : StronglySorted (λ i j, off st i ≤ off st j) (ordered_allocs st);
  si_placed i : i ∈ ordered_allocs st → ∃ r, placed st i r;
  si_total : 0 ≤ size_total st ∧ size_total st ≤ demand don;
  si_disjoint i j r r' : i ∈ ordered_allocs st → j ∈ ordered_allocs st → i ≠ j →
    zget records i = Some r → zget records j = Some r' → records_overlap r r' →
    ranges_disjoint (off st i) (tensor_size r) (off st j) (tensor_size r')
}.

(** The search goes through the placed tensors that are used together with the
    current one, from the left. *)
Definition conflict (rec : TensorUsageRecord Z) (i : Z) : Prop :=
  ∀ r, zget records i = Some r → records_overlap r rec.

Record gap_inv (st : SizeState) (rec : TensorUsageRecord Z) (seen : list Z) (g : Gap) : Prop := {
  gi_prev : 0 ≤ prev_offset g ∧ prev_offset g mod al = 0;
  gi_bound : prev_offset g ≤ size_total st + (if decide (seen = []) then 0 else al - 1);
  gi_after i r : i ∈ seen → zget records i = Some r → records_overlap r rec →
    off st i + tensor_size r ≤ prev_offset g;
  gi_best : best_offset g = kNotAssigned ∨
    (0 ≤ best_offset g ≤ prev_offset g ∧ best_offset g mod al = 0 ∧
     (∀ i r, i ∈ seen → zget records i = Some r → records_overlap r rec →
        ranges_disjoint (best_offset g) (tensor_size rec) (off st i) (tensor_size r)) ∧
     ∃ i, i ∈ seen ∧ best_offset g + tensor_size rec ≤ off st i)
}.

Lemma block_demand_nonneg l : (∀ x, x ∈ l → usage_record x ∈ records) → 0 ≤ demand l.
Proof.
  intros Hl. apply total_nonneg. intros z (x & -> & Hx)%list_elem_of_fmap.
  specialize (nonneg _ (Hl x Hx)). lia.
Qed.

Lemma gap_step_spec don st rec seen i todo g :
  size_inv don st → size_total st + al < size_max → 0 ≤ tensor_size rec →
  ordered_allocs st = seen ++ i :: todo → gap_inv st rec seen g →
  wp (gap_step records al rec g i) (λ g' st', st' = st ∧ gap_inv st rec (seen ++ [i]) g') (λ _, False) st.
Proof.
  intros [Hlen _ Hsorted Hplaced [Ht0 _] _] Hmax Hrec Hsplit [[Hp0 Hpa] Hb Hafter Hbest].
  assert (i ∈ ordered_allocs st) as Hi by (rewrite Hsplit; in_list).
  destruct (Hplaced i Hi) as (r & [Hr [Hoff Hend] Hal]). pose proof (zget_range _ _ _ Hr) as Hir.
  assert (0 ≤ tensor_size r) as Hr0 by by eapply nonneg, zget_elem.
  assert (seen ++ [i] ≠ []) as Hne by by destruct seen.
  unfold gap_step. apply wp_bind. eapply wp_deref; [exact Hr|].
  assert ((last_task r <? first_task rec) || (first_task r >? last_task rec) = true ∨ records_overlap r rec) as Hcase.
  { unfold records_overlap, tasks_overlap. rewrite orb_true_iff, Z.ltb_lt, Z.gtb_lt. lia. }
  destruct (_ || _) eqn:Hc.
  - assert (¬ records_overlap r rec) as Hno.
    { unfold records_overlap, tasks_overlap. rewrite orb_true_iff, Z.ltb_lt, Z.gtb_lt in Hc. lia. }
    apply wp_ret. split; [done|]. split.
    + done.
    + rewrite decide_False by done. case_decide; lia.
    + intros j rj [Hj|Hj%list_elem_of_singleton]%elem_of_app Hrj Hov; [by eapply Hafter|by simplify_eq].
    + destruct Hbest as [|(? & ? & Hdis & k & Hk & ?)]; [by left|right]. split_and!; [lia..|done| |].
      * intros j rj [Hj|Hj%list_elem_of_singleton]%elem_of_app Hrj Hov; [by eapply Hdis|by simplify_eq].
      * exists k. split; [in_list|done].
  - destruct Hcase as [|Hov]; [done|].
    apply wp_bind, (wp_vget _ 0); [lia|]. fold (off st i). rewrite u64_id by (unfold is_size; lia).
    destruct (AlignByN_spec (off st i + tensor_size r) al) as [Hal1 Hal2]; [lia..|].
    apply wp_bind. rewrite (proj2 (Z.eqb_neq al 0)) by lia. apply wp_ret, wp_ret. split; [done|].
    set (aligned := AlignByN _ _) in *.
    assert (∀ P : Z → Prop, P (prev_offset g) → P aligned → P (prev_offset g `max` aligned)) as Hmaxp.
    { intros P H1 H2. destruct (Z.max_spec (prev_offset g) aligned) as [[_ ->]|[_ ->]]; done. }
    split; simpl.
    + split; [lia|]. by apply Hmaxp.
    + rewrite decide_False by done. case_decide; lia.
    + intros j rj [Hj|Hj%list_elem_of_singleton]%elem_of_app Hrj Hov'; [specialize (Hafter j rj Hj Hrj Hov'); lia|].
      simplify_eq. lia.
    + destruct ((off st i >=? prev_offset g) && (off st i - prev_offset g >=? tensor_size rec)
                && (off st i - prev_offset g <? best_diff g)) eqn:Hf.
      * rewrite !andb_true_iff, !Z.geb_le, Z.ltb_lt in Hf. right. split_and!; [lia|lia|done| |].
        -- intros j rj [Hj|Hj%list_elem_of_singleton]%elem_of_app Hrj Hov'; unfold ranges_disjoint.
           ++ specialize (Hafter j rj Hj Hrj Hov'). lia.
           ++ subst. lia.
        -- exists i. split; [in_list|lia].
      * destruct Hbest as [|(Hbr & Hba & Hdis & k & Hk & Hke)]; [by left|right].
        split_and!; [lia|lia|done| |].
        -- intros j rj [Hj|Hj%list_elem_of_singleton]%elem_of_app Hrj Hov'; [by eapply Hdis|]. subst j.
           simplify_eq. unfold ranges_disjoint. left.
           assert (off st k ≤ off st i); [|lia]. rewrite Hsplit in Hsorted.
           apply list_elem_of_lookup in Hk as (kk & Hkk). pose proof (lookup_lt_Some _ _ _ Hkk).
           eapply (StronglySorted_lookup _ _ kk (length seen) _ _ Hsorted); [lia| |apply lookup_split].
           by apply lookup_app_l_Some.
        -- exists k. split; [in_list|done].
Qed.
(** The new tensor goes between those at most as far left and those further
    right. *)
Lemma insert_alloc_spec offs o id l st :
  (∀ x, x ∈ l → 0 ≤ x < zlen offs) → StronglySorted (λ i j, vat 0 offs i ≤ vat 0 offs j) l →
  wp (insert_alloc offs o id l) (λ k st', st' = st ∧ ∃ pre post, l = pre ++ post ∧ k = pre ++ id :: post ∧
        (∀ x, x ∈ pre → vat 0 offs x ≤ o) ∧ (∀ x, x ∈ post → o ≤ vat 0 offs x)) (λ _, False) st.
Proof.
  intros Hr. induction 1 as [|x l Hl IH Hx]; cbn [insert_alloc].
  - apply wp_ret. split; [done|]. exists [], []. split_and!; [done|done|by intros ? ?%elem_of_nil..].
  - apply wp_bind. eapply wp_deref; [apply (vat_zget 0), Hr; by left|]. rewrite Forall_forall in Hx.
    destruct (Z.leb_spec (vat 0 offs x) o) as [Hle|Hlt].
    + apply wp_bind. eapply wp_mono; [apply IH; intros y ?; apply Hr; by right| |done]. simpl.
      intros k _ (-> & pre & post & -> & -> & Hpre & Hpost). apply wp_ret. split; [done|].
      exists (x :: pre), post. split_and!; [done|done| |done].
      intros y [->|Hy]%elem_of_cons; [done|by apply Hpre].
    + apply wp_ret. split; [done|]. exists [], (x :: l). split_and!; [done|done|by intros ? ?%elem_of_nil|].
      intros y [->|Hy]%elem_of_cons; [lia|]. specialize (Hx y Hy). lia.
Qed.

Lemma sorted_insert {A} (f : A → Z) pre x post :
  StronglySorted (λ i j, f i ≤ f j) (pre ++ post) → (∀ y, y ∈ pre → f y ≤ f x) → (∀ y, y ∈ post → f x ≤ f y) →
  StronglySorted (λ i j, f i ≤ f j) (pre ++ x :: post).
Proof.
  induction pre as [|y pre IH]; simpl; intros Hs Hpre Hpost.
  - constructor; [done|]. by apply Forall_forall.
  - inversion Hs as [|? ? Hs' Hy]; subst. constructor.
    + apply IH; [done|intros z ?; apply Hpre; by right|done].
    + rewrite Forall_forall in *. intros z [Hz|[->|Hz]%elem_of_cons]%elem_of_app.
      * apply Hy. in_list.
      * apply Hpre. by left.
      * apply Hy. in_list.
Qed.

(** The place the search ends with is free. *)
Definition chosen (g : Gap) : Z := if best_offset g =? kNotAssigned then prev_offset g else best_offset g.

Lemma chosen_spec st rec g :
  gap_inv st rec (ordered_allocs st) g → 0 ≤ tensor_size rec →
  0 ≤ chosen g ≤ prev_offset g ∧ chosen g mod al = 0 ∧
  ∀ i r, i ∈ ordered_allocs st → zget records i = Some r → records_overlap r rec →
    ranges_disjoint (chosen g) (tensor_size rec) (off st i) (tensor_size r).
Proof.
  intros [[Hp0 Hpa] Hb Hafter Hbest] Hrec. unfold chosen.
  destruct (Z.eqb_spec (best_offset g) kNotAssigned) as [He|Hne].
  - split_and!; [lia|lia|done|]. intros i r Hi Hr Hov. right. by apply Hafter.
  - destruct Hbest as [|(? & ? & Hdis & _)]; [done|]. split_and!; [lia|lia|done|done].
Qed.

(** A tensor that is still to come has no place yet. *)
Lemma unplaced don x todo st :
  Permutation (with_index records) (don ++ x :: todo) → size_inv don st → idx x ∉ ordered_allocs st.
Proof.
  intros Hperm Hinv. rewrite (si_allocs _ _ Hinv). intros (y & Hidx & Hy)%list_elem_of_fmap.
  assert (NoDup (idx <$> with_index records)) as Hnd.
  { unfold with_index. rewrite fmap_imap. apply NoDup_alt. intros i j z Hi Hj.
    rewrite list_lookup_imap in Hi, Hj. destruct (records !! i), (records !! j); simpl in *; simplify_eq. lia. }
  rewrite Hperm, fmap_app in Hnd. apply NoDup_app in Hnd as (_ & Hnd & _).
  apply (Hnd (idx y)); [by apply list_elem_of_fmap_2|]. rewrite fmap_cons, <- Hidx. by left.
Qed.

(** Every placed tensor contributes its padding to the demand. *)
Lemma demand_padding don : (∀ y, y ∈ don → usage_record y ∈ records) → zlen don * al ≤ demand don.
Proof.
  intros Hin. unfold demand. clear -nonneg Hin.
  induction don as [|y l IH]; [done|]. rewrite fmap_cons, total_cons. cbn [length].
  assert (0 ≤ tensor_size (usage_record y)) by (apply nonneg, Hin; by left).
  assert (zlen l * al ≤ total ((λ x, tensor_size (usage_record x) + al) <$> l)); [|lia].
  apply IH. intros z Hz. apply Hin. by right.
Qed.

(** The place [o] for the tensor [x] keeps the invariant. *)
Lemma placed_inv don x st o pre post :
  size_inv don st → zget records (idx x) = Some (usage_record x) → idx x ∉ ordered_allocs st →
  0 ≤ o → o mod al = 0 → size_total st + tensor_size (usage_record x) + al < size_max →
  o ≤ size_total st + (al - 1) → 0 ≤ tensor_size (usage_record x) →
  (∀ i r, i ∈ ordered_allocs st → zget records i = Some r → records_overlap r (usage_record x) →
     ranges_disjoint o (tensor_size (usage_record x)) (off st i) (tensor_size r)) →
  ordered_allocs st = pre ++ post →
  (∀ y, y ∈ pre → off st y ≤ o) → (∀ y, y ∈ post → o ≤ off st y) →
  size_inv (don ++ [x])
    {| size_offsets := zset (idx x) o (size_offsets st);
       size_total := Z.max (size_total st) (o + tensor_size (usage_record x));
       ordered_allocs := pre ++ idx x :: post |}.
Proof.
  intros [Hlen Hallocs Hsorted Hplaced [Ht0 Ht] Hdisj] Hxr Hfresh Hc0 Hca Hroom Hb Hrec Hcd Hsplit Hpre Hpost.
  set (st' := {| size_offsets := _; size_total := _; ordered_allocs := _ |}).
  pose proof (zget_range _ _ _ Hxr) as Hxi.
  assert (ordered_allocs st' ≡ₚ idx x :: ordered_allocs st) as Hperm'.
  { simpl. rewrite Hsplit. solve_Permutation. }
  assert (off st' (idx x) = o) as Hoffx by (unfold off; simpl; apply vat_zset_eq; lia).
  assert (∀ i, i ∈ ordered_allocs st → off st' i = off st i ∧ i ≠ idx x) as Hoff.
  { intros i Hi. assert (i ≠ idx x) by (intros ->; done). split; [|done].
    unfold off. simpl. apply vat_zset_ne; [lia|done]. }
  split.
  - simpl. by rewrite zset_length.
  - rewrite Hperm', Hallocs, fmap_app. simpl. solve_Permutation.
  - simpl. apply sorted_insert.
    + rewrite <- Hsplit. clear -Hsorted Hoff. induction Hsorted as [|y l Hl IH Hy]; constructor.
      * apply IH. intros i Hi. apply Hoff. by right.
      * rewrite Forall_forall in *. intros z Hz. rewrite (proj1 (Hoff y ltac:(by left))).
        rewrite (proj1 (Hoff z ltac:(by right))). by apply Hy.
    + intros y Hy. rewrite Hoffx, (proj1 (Hoff y ltac:(rewrite Hsplit; in_list))). by apply Hpre.
    + intros y Hy. rewrite Hoffx, (proj1 (Hoff y ltac:(rewrite Hsplit; in_list))). by apply Hpost.
  - intros i. rewrite Hperm'. intros [->|Hi]%elem_of_cons.
    + exists (usage_record x). split; [done|rewrite Hoffx; simpl; lia|by rewrite Hoffx].
    + destruct (Hplaced i Hi) as (r & [Hr Hin' Hal]). exists r. destruct (Hoff i Hi) as [Ho _].
      split; [done|rewrite Ho; simpl; lia|by rewrite Ho].
  - unfold demand. rewrite fmap_app, total_app. cbn [fmap list_fmap]. rewrite total_cons.
    fold (demand don). simpl. lia.
  - intros i j r r'. rewrite !Hperm'. intros Hi Hj Hij Hr Hr' Hov.
    apply elem_of_cons in Hi as [->|Hi]; apply elem_of_cons in Hj as [->|Hj]; [done|..].
    + simplify_eq. rewrite Hoffx, (proj1 (Hoff j Hj)). apply Hcd; [done|done|by apply tasks_overlap_sym].
    + simplify_eq. rewrite Hoffx, (proj1 (Hoff i Hi)). apply ranges_disjoint_sym. by apply Hcd.
    + rewrite (proj1 (Hoff i Hi)), (proj1 (Hoff j Hj)). by apply Hdisj.
Qed.

Lemma place_tensor_spec don x todo st :
  Permutation (with_index records) (don ++ x :: todo) → size_inv don st →
  wp (place_tensor records al x) (λ _, size_inv (don ++ [x])) (λ _, False) st.
Proof.
  intros Hperm Hinv. pose proof Hinv as [Hlen Hallocs Hsorted Hplaced [Ht0 Ht] Hdisj].
  set (rec := usage_record x) in *.
  assert (x ∈ with_index records) as [Hx0 Hxr]%elem_of_with_index by (rewrite Hperm; in_list).
  assert (∀ y, y ∈ don ++ x :: todo → usage_record y ∈ records) as Hin.
  { intros y. rewrite <- Hperm. apply with_index_in. }
  pose proof (zget_range _ _ _ Hxr) as Hxi.
  assert (0 ≤ tensor_size rec) as Hrec by by eapply nonneg, zget_elem.
  assert (demand don + tensor_size rec + al ≤ demand (with_index records)) as Hdem.
  { assert (demand (with_index records) = demand don + (tensor_size rec + al + demand todo)) as Hd.
    { unfold demand. rewrite Hperm, fmap_app, total_app, fmap_cons, total_cons. done. }
    assert (0 ≤ demand todo) by (apply block_demand_nonneg; intros y ?; apply Hin; in_list). lia. }
  assert (size_total st + tensor_size rec + al < size_max) as Hroom by lia.
  pose proof (unplaced _ _ _ _ Hperm Hinv) as Hfresh.
  unfold place_tensor. apply wp_bind, wp_get. apply wp_bind.
  eapply wp_mono; [apply (wp_fold_m (λ seen g st', st' = st ∧ gap_inv st rec seen g) (λ _, False))| |done].
  { split; [done|]. split; simpl; [done|lia|by intros ? ? ?%elem_of_nil|by left]. }
  { intros seen i td g st' Hsplit [-> Hg]. eapply gap_step_spec; [done|lia|done|done|done]. }
  simpl. intros g st' [-> Hg]. destruct (chosen_spec st rec g Hg Hrec) as (Hc0 & Hca & Hcd).
  pose proof (gi_bound _ _ _ _ Hg) as Hb.
  assert (prev_offset g ≤ size_total st + (al - 1)) as Hb' by (destruct (decide _); lia).
  assert (zlen (ordered_allocs st) * al ≤ demand don) as Hcount.
  { rewrite Hallocs, length_fmap. apply demand_padding. intros y ?. apply Hin. in_list. }
  assert (prev_offset g ≤ size_total st + zlen (ordered_allocs st) * (al - 1)) as Hprev.
  { destruct (decide (ordered_allocs st = [])) as [->|Hne]; [simpl; lia|].
    destruct (ordered_allocs st); [done|]. cbn [length]. nia. }
  apply wp_bind, wp_ensure; [intros _|].
  2:{ rewrite (u64_id (al - 1)) by (unfold is_size; lia).
      rewrite (u64_id (_ * _)) by (unfold is_size; nia).
      rewrite u64_id by (unfold is_size; nia). intros Hf%negb_false_iff%Z.ltb_lt. lia. }
  fold (chosen g). apply wp_bind.
  eapply wp_mono; [apply insert_alloc_spec; [|done]|simpl|done].
  { intros i Hi. destruct (Hplaced i Hi) as (r & [Hr _ _]). apply zget_range in Hr. lia. }
  intros k _ (-> & pre & post & Hsplit & -> & Hpre & Hpost).
  apply wp_bind, (wp_vget _ 0); [lia|]. apply wp_put. fold rec. rewrite u64_id by (unfold is_size; lia).
  apply placed_inv; try done; lia.
Qed.

Lemma GreedyBySizeAssignment_safe {S} (s : S) E :
  wp (GreedyBySizeAssignment records al) (λ o s', s' = s ∧ offsets_shared_safely records o ∧
        ∀ off, off ∈ offsets o → off mod al = 0) E s.
Proof.
  unfold GreedyBySizeAssignment. apply wp_zoom, wp_bind.
  pose proof (stable_sort_perm CompareBySize (with_index records)) as Hperm.
  eapply wp_mono; [apply (wp_for_each size_inv (λ _, False))| |done].
  - split; simpl; [by rewrite length_replicate|done|constructor|by intros ? ?%elem_of_nil|done|].
    by intros ? ? ? ? ?%elem_of_nil.
  - intros don x todo st Hsplit Hinv. eapply place_tensor_spec; [|done]. by rewrite <- Hsplit.
  - simpl. intros _ st [Hlen Hallocs Hsorted Hplaced Ht Hdisj]. apply wp_gets. split; [done|].
    assert (∀ i, (i < length records)%nat → Z.of_nat i ∈ ordered_allocs st) as Hall.
    { intros i Hi. rewrite Hallocs, Hperm. destruct (lookup_lt_is_Some_2 records i Hi) as [r Hr].
      apply list_elem_of_fmap. exists {| usage_record := r; idx := Z.of_nat i |}. split; [done|].
      apply elem_of_with_index. simpl. split; [lia|by apply vget_nat]. }
    assert (∀ i r, records !! i = Some r → size_offsets st !! i = Some (off st (Z.of_nat i))) as Hoff.
    { intros i r Hr. apply lookup_lt_Some in Hr.
      assert (zget (size_offsets st) (Z.of_nat i) = Some (off st (Z.of_nat i))) as Hz by (apply vat_zget; lia).
      apply zget_Some in Hz as [_ Hz]. by rewrite Nat2Z.id in Hz. }
    split; [split; simpl|].
    + done.
    + intros i r Hr. rewrite (Hoff _ _ Hr). eexists. split; [done|].
      destruct (Hplaced (Z.of_nat i)) as (r' & [Hr' ? _]); [by eapply Hall, lookup_lt_Some|].
      rewrite (vget_nat _ _ _ Hr) in Hr'. by simplify_eq.
    + intros i j r r' o o' Hr Hr' Hij. rewrite (Hoff _ _ Hr), (Hoff _ _ Hr'). intros [= <-] [= <-] Hov.
      apply Hdisj; [by eapply Hall, lookup_lt_Some|by eapply Hall, lookup_lt_Some|lia|by apply vget_nat|by apply vget_nat|done].
    + simpl. intros o (i & Hi)%list_elem_of_lookup. pose proof (lookup_lt_Some _ _ _ Hi).
      destruct (lookup_lt_is_Some_2 records i) as [r Hr]; [lia|]. rewrite (Hoff _ _ Hr) in Hi. simplify_eq.
      destruct (Hplaced (Z.of_nat i)) as (r' & [_ _ ?]); [by eapply Hall, lookup_lt_Some|done].
Qed.
End by_size.

(** ** The entry points *)

(** The run returns and leaves the state alone. *)
Lemma run_returns {S A} (m : M S A) (P : A → Prop) s :
  wp m (λ a s', s' = s ∧ P a) (λ _, False) s → ∃ a, m s = Done a s ∧ P a.
Proof. intros (a & s' & Hm & -> & HP)%wp_no_error. by exists a. Qed.

(** The best of the two greedy strategies takes no more memory than either. *)
Lemma BestGreedy_spec records {S} (s : S) :
  valid_records records →
  ∃ a by_size by_breadth, BestGreedy records s = Done a s ∧ objects_shared_safely records a ∧
    GreedyBySizeDistPriorityAssignment records s = Done by_size s ∧
    GreedyByBreadthAssignment records s = Done by_breadth s ∧
    TotalSize a = TotalSize by_size `min` TotalSize by_breadth.
Proof.
  intros Hv.
  destruct (run_returns _ _ _ (GreedyBySizeDistPriorityAssignment_safe records Hv s (λ _, False))) as (a & Ha & Hsa).
  destruct (run_returns _ _ _ (GreedyByBreadthAssignment_safe records Hv s (λ _, False))) as (b & Hb & Hsb).
  exists (if TotalSize b <? TotalSize a then b else a), a, b. split_and!.
  - unfold BestGreedy, mbind, M_bind, try_m. by rewrite Ha, Hb.
  - by case_match.
  - done.
  - done.
  - destruct (Z.ltb_spec (TotalSize b) (TotalSize a)); lia.
Qed.

(** What a strategy needs of the records: two of them rely on their order. *)
Definition order_needed (strategy : MemoryStrategy) : bool :=
  match strategy with EQUALITY | GREEDY_IN_ORDER => true | _ => false end.

Lemma AssignObjects_spec records strategy reallocation_graph {S} (s : S) :
  strategy ≠ MINCOSTFLOW → valid_records records →
  (order_needed strategy = true → in_task_order records) →
  (∀ g, reallocation_graph = Some g → length g = length records) →
  ∃ a, AssignObjectsToTensors records strategy reallocation_graph s = Done a s ∧
       objects_shared_safely records a.
Proof.
  intros Hne Hv Hord Hg. unfold AssignObjectsToTensors. destruct strategy; simpl in Hord.
  - by apply run_returns, NaiveAssignment_safe.
  - apply run_returns, EqualityAssignmentWithHash_safe; auto.
  - apply run_returns, GreedyInOrderAssignment_safe; auto.
  - by apply run_returns, GreedyByBreadthAssignment_safe.
  - by apply run_returns, GreedyBySizeDistPriorityAssignment_safe.
  - destruct (BestGreedy_spec records s Hv) as (a & _ & _ & ? & ? & _). eauto.
  - done.
Qed.

(** C18: Every strategy but the minimum-cost flow returns an assignment for valid usage
    records, and the assignment is safe: each tensor has an object that is large
    enough, no object is larger than one of its tensors needs, and tensors used during
    a common task never share an object. [EQUALITY] and [GREEDY_IN_ORDER] need the
    records in the order of their first tasks; in another order [EQUALITY] can be unsafe
    ([equality_needs_order]). A reallocation graph has one entry for each record. *)
Theorem AssignObjectsToTensors_safe records strategy reallocation_graph {S} (s : S) :
  strategy ≠ MINCOSTFLOW → valid_records records →
  (order_needed strategy = true → in_task_order records) →
  (∀ g, reallocation_graph = Some g → length g = length records) →
  ∃ a, AssignObjectsToTensors records strategy reallocation_graph s = Done a s ∧
       objects_shared_safely records a.
Proof. apply AssignObjects_spec. Qed.

(** Sizes of two or three components: the strategies for textures return a safe
    assignment, where the object covers the tensor in every component; other
    strategies report an error. Only the greedy one relies on the order of the
    records. *)
Theorem AssignObjectsToTensors_vec_safe {T} `{CoveringSize T, Inhabited T, EqDecision T}
    (records : list (TensorUsageRecord T)) strategy {S} (s : S) :
  valid_records records → (strategy = GREEDY_IN_ORDER → in_task_order records) →
  match strategy with
  | NAIVE | EQUALITY | GREEDY_IN_ORDER =>
      ∃ a, AssignObjectsToTensors_vec records strategy s = Done a s ∧ objects_shared_safely records a
  | _ => AssignObjectsToTensors_vec records strategy s = Error s
  end.
Proof.
  intros Hv Hord. destruct strategy; simpl; try done; apply run_returns.
  - by apply NaiveAssignment_safe.
  - by apply EqualityAssignment_safe.
  - apply GreedyInOrderAssignmentMultidimensional_safe; auto.
Qed.

(** Tensors with a shape only share an object with tensors of the same shape. *)
Theorem AssignObjectsToTensors_BHWC_safe (records : list (TensorUsageRecord BHWC)) strategy {S} (s : S) :
  valid_records records → in_task_order records →
  match strategy with
  | NAIVE | EQUALITY =>
      ∃ a, AssignObjectsToTensors_BHWC records strategy s = Done a s ∧ objects_shared_safely records a
  | _ => AssignObjectsToTensors_BHWC records strategy s = Error s
  end.
Proof.
  intros Hv Hord. destruct strategy; simpl; try done; apply run_returns.
  - by apply NaiveAssignment_safe.
  - by apply EqualityAssignmentWithHash_safe.
Qed.

(** The best of the greedy strategies is safe and takes exactly as much memory as
    the better one of the two it tries. *)
Theorem BestGreedy_best records {S} (s : S) :
  valid_records records →
  ∃ a by_size by_breadth, BestGreedy records s = Done a s ∧ objects_shared_safely records a ∧
    GreedyBySizeDistPriorityAssignment records s = Done by_size s ∧
    GreedyByBreadthAssignment records s = Done by_breadth s ∧
    TotalSize a = TotalSize by_size `min` TotalSize by_breadth.
Proof. apply BestGreedy_spec. Qed.

(** What the block needs at most, with every tensor on its own. *)
Lemma total_demand al records :
  0 ≤ al → total (tensor_size <$> records) ≤ demand al (with_index records).
Proof.
  intros Hal. unfold demand. rewrite <- (with_index_fmap records) at 1. rewrite <- list_fmap_compose.
  induction (with_index records) as [|x l IH]; [done|]. rewrite !fmap_cons, !total_cons. simpl. lia.
Qed.

(** C29: The offsets are safe too, for all strategies but the minimum-cost flow, sizes that
    are not negative and sum up, each with [al] bytes of padding, to less than half of
    what [size_t] can hold, and, for [EQUALITY] and [GREEDY_IN_ORDER], records in the order of their first tasks:
    every tensor lies within the block, tensors used during a common task lie apart,
    and the strategy that places tensors by size keeps the offsets aligned. No check
    of the total size fails. *)
Theorem AssignOffsetsToTensors_safe records strategy al reallocation_graph {S} (s : S) :
  strategy ≠ MINCOSTFLOW → valid_records records →
  (∀ r, r ∈ records → 0 ≤ tensor_size r) → 0 < al → 2 * demand al (with_index records) < size_max →
  (order_needed strategy = true → in_task_order records) →
  (∀ g, reallocation_graph = Some g → length g = length records) →
  ∃ o, AssignOffsetsToTensors records strategy al reallocation_graph s = Done o s ∧
       offsets_shared_safely records o ∧
       (strategy = GREEDY_BY_SIZE → ∀ off, off ∈ offsets o → off mod al = 0).
Proof.
  intros Hne Hv Hpos Hal Hmax Hord Hg.
  destruct (decide (strategy = GREEDY_BY_SIZE)) as [->|Hns].
  - apply run_returns.
    eapply wp_mono; [apply (GreedyBySizeAssignment_safe records al Hal Hpos Hmax s (λ _, False))| |done].
    intros o s' (-> & Ho & Hoa). auto.
  - destruct (AssignObjects_spec records strategy reallocation_graph s Hne Hv Hord Hg) as (a & Ha & Hsafe).
    destruct (run_returns _ _ _ (ObjectsToOffsets_safe records a Hsafe Hpos s (λ _, False)
      ltac:(pose proof (total_demand al records ltac:(lia)); unfold size_max in *; lia))) as (o & Ho & Hso).
    exists o. split_and!; [|done|done].
    unfold AssignOffsetsToTensors, mbind, M_bind. destruct strategy; try congruence; by rewrite Ha.
Qed.

(** ** The records of the tests *)

Definition rec (size first last : Z) : TensorUsageRecord Z :=
  {| tensor_size := size; first_task := first; last_task := last |}.

(** [ComplexRecords] of [memory_management_test.cc]. *)
Definition complex_records : list (TensorUsageRecord Z) :=
  [rec 32 0 1; rec 32 1 4; rec 8 2 5; rec 16 3 5; rec 8 4 5; rec 64 5 7; rec 8 6 8; rec 8 7 8; rec 16 8 9].

Definition objects_of {A S} (o : outcome S (ObjectsAssignment A)) : option (list Z * list A) :=
  match o with Done a _ => Some (object_ids a, object_sizes a) | _ => None end.

(** On the records of the program's test every strategy, the minimum-cost flow
    included, computes the assignment the test expects. *)
Example tested_assignments :
  let run strategy := objects_of (AssignObjectsToTensors complex_records strategy None ()) in
  run NAIVE = Some ([0; 1; 2; 3; 4; 5; 6; 7; 8], [32; 32; 8; 16; 8; 64; 8; 8; 16]) ∧
  run EQUALITY = Some ([0; 1; 2; 3; 4; 5; 4; 2; 3], [32; 32; 8; 16; 8; 64]) ∧
  run MINCOSTFLOW = Some ([0; 1; 2; 0; 3; 1; 3; 2; 0], [32; 64; 8; 8]) ∧
  run GREEDY_IN_ORDER = Some ([0; 1; 0; 2; 3; 1; 3; 2; 0], [32; 64; 16; 8]) ∧
  run GREEDY_BY_BREADTH = Some ([0; 4; 2; 1; 3; 0; 2; 3; 1], [64; 16; 8; 8; 32]) ∧
  run GREEDY_BY_SIZE = Some ([1; 0; 2; 1; 3; 0; 1; 2; 0], [64; 32; 8; 8]) ∧
  match AssignOffsetsToTensors complex_records GREEDY_BY_SIZE 1 None () with
  | Done o _ => offsets o = [0; 32; 80; 64; 88; 0; 64; 72; 0] ∧ total_size o = 96
  | _ => False
  end.
Proof. vm_compute. done. Qed.

(** The hash map strategy for objects of equal size relies on the order of the
    records: without it, it assigns one object to the first and the last of these
    tensors, which are used during a common task. *)
Theorem equality_needs_order :
  let records := [rec 8 1 2; rec 4 5 6; rec 8 0 3] in
  objects_of (AssignObjectsToTensors records EQUALITY None ()) = Some ([0; 1; 0], [8; 4]) ∧
  records_overlap (rec 8 1 2) (rec 8 0 3).
Proof. vm_compute. done. Qed.

Lemma valid_records_check {T} (records : list (TensorUsageRecord T)) :
  (zlen records < size_max ∧
   Forall (λ r, 0 ≤ first_task r ≤ last_task r ∧ last_task r < size_max) records) →
  valid_records records.
Proof. intros [Hl Hf]. rewrite Forall_forall in Hf. by split. Qed.

Lemma in_task_order_check {T} (records : list (TensorUsageRecord T)) :
  StronglySorted (λ a b, first_task a ≤ first_task b) records → in_task_order records.
Proof.
  intros Hs i j a b Hi Hj Hij.
  exact (StronglySorted_lookup (λ a b, first_task a ≤ first_task b) _ i j a b Hs Hij Hi Hj).
Qed.

(** Closed lists of records. *)
Ltac check_records :=
  first [apply valid_records_check; split; [vm_compute; done|] | apply in_task_order_check];
  repeat constructor; simpl; unfold size_max; lia.

Lemma complex_valid : valid_records complex_records ∧ in_task_order complex_records.
Proof. split; check_records. Qed.

Lemma AssignObjectsToTensors_safe_witness :
  ∃ a, AssignObjectsToTensors complex_records GREEDY_IN_ORDER None () = Done a () ∧
       objects_shared_safely complex_records a.
Proof.
  apply (AssignObjectsToTensors_safe complex_records GREEDY_IN_ORDER None ());
    [done|apply complex_valid|intros _; apply complex_valid|done].
Defined.

Definition texture (x y first last : Z) : TensorUsageRecord uint2 :=
  {| tensor_size := (x, y); first_task := first; last_task := last |}.
Definition two_textures := [texture 4 8 0 1; texture 4 4 2 3].

Lemma two_textures_valid : valid_records two_textures ∧ in_task_order two_textures.
Proof. split; check_records. Qed.

Lemma AssignObjectsToTensors_vec_safe_witness :
  ∃ a, AssignObjectsToTensors_vec two_textures GREEDY_IN_ORDER () = Done a () ∧
       objects_shared_safely two_textures a.
Proof.
  apply (AssignObjectsToTensors_vec_safe two_textures GREEDY_IN_ORDER ());
    [apply two_textures_valid|intros _; apply two_textures_valid].
Defined.

Definition shaped (b : Z) (first last : Z) : TensorUsageRecord BHWC :=
  {| tensor_size := (b, 2, 2, 1); first_task := first; last_task := last |}.
Definition two_shapes := [shaped 1 0 1; shaped 1 2 3].

Lemma two_shapes_valid : valid_records two_shapes ∧ in_task_order two_shapes.
Proof. split; check_records. Qed.

Lemma AssignObjectsToTensors_BHWC_safe_witness :
  ∃ a, AssignObjectsToTensors_BHWC two_shapes EQUALITY () = Done a () ∧
       objects_shared_safely two_shapes a.
Proof.
  apply (AssignObjectsToTensors_BHWC_safe two_shapes EQUALITY ()); apply two_shapes_valid.
Defined.

Lemma BestGreedy_best_witness :
  ∃ a by_size by_breadth, BestGreedy complex_records () = Done a () ∧ objects_shared_safely complex_records a ∧
    GreedyBySizeDistPriorityAssignment complex_records () = Done by_size () ∧
    GreedyByBreadthAssignment complex_records () = Done by_breadth () ∧
    TotalSize a = TotalSize by_size `min` TotalSize by_breadth.
Proof. apply (BestGreedy_best complex_records ()). apply complex_valid. Defined.

Lemma AssignOffsetsToTensors_safe_witness :
  ∃ o, AssignOffsetsToTensors complex_records GREEDY_BY_SIZE 16 None () = Done o () ∧
       offsets_shared_safely complex_records o ∧
       (GREEDY_BY_SIZE = GREEDY_BY_SIZE → ∀ off, off ∈ offsets o → off mod 16 = 0).
Proof.
  apply (AssignOffsetsToTensors_safe complex_records GREEDY_BY_SIZE 16 None ());
    [done|apply complex_valid| |lia|vm_compute; done|intros _; apply complex_valid|done].
  intros r Hr. unfold complex_records in Hr. rewrite !elem_of_cons, elem_of_nil in Hr.
  destruct_or?; subst; simpl; lia || done.
Defined.
