(* ===== verification/ReallocationProofs.v ===== *)
(** * The reallocation graph is what it is meant to be

    [ReallocationGraph] of UsageRecords: a tensor may take over the memory of
    another one if every operation that uses the other one runs before it, in
    whatever order operations run that the dependencies allow. *)

From S2P Require Import Prelude UsageRecords.

Section graph.
Context (g : UsageGraph).

Definition edge (u v : Z) : Prop := ∃ l, zget g u = Some l ∧ v ∈ l.

(** [v] depends on [u], directly or not. *)
Definition depends_on (u v : Z) : Prop := rtc edge u v.

(** Whoever uses [u] has to run before [v]. *)
Definition runs_after_users (u v : Z) : Prop :=
  ∃ children, zget g u = Some children ∧ children ≠ [] ∧
    ∀ c, c ∈ children → depends_on c v ∧ v ≠ c.

(** Edges lead to vertices, and there are not too many for the counters. *)
Record well_formed_graph : Prop := {
  wg_edges u v : edge u v → 0 ≤ v < zlen g;
  wg_degree u l : zget g u = Some l → zlen l < size_max
}.
Hypothesis wf : well_formed_graph.

(** ** Breadth-first search *)

Definition visited (s : bfs_state) (v : Z) : Prop := zget (is_visited s) v = Some true.
Definition unvisited (s : bfs_state) : nat := length (filter (λ b, b = false) (is_visited s)).

(** [start] is where the search began, [nv] the counters before it, [busy] the
    vertices whose successors have not all been visited. *)
Record bfs_inv (start : Z) (nv : list Z) (busy : Z → Prop) (s : bfs_state) : Prop := {
  bi_lengths : length (is_visited s) = length g ∧ length (num_visits s) = length g;
  bi_start : visited s start;
  bi_sound v : visited s v → depends_on start v;
  bi_closed u v : visited s u → ¬ busy u → edge u v → visited s v;
  bi_counts v : 0 ≤ v < zlen g →
    (visited s v ∧ v ≠ start ∧ vat 0 (num_visits s) v = vat 0 nv v + 1) ∨
    ((¬ visited s v ∨ v = start) ∧ vat 0 (num_visits s) v = vat 0 nv v)
}.

Lemma filter_insert_false (l : list bool) i :
  l !! i = Some false → length (filter (λ b, b = false) l) = S (length (filter (λ b, b = false) (<[i := true]> l))).
Proof.
  intros Hi. rewrite <- (take_drop_middle l i false Hi) at 1.
  rewrite insert_take_drop by (by eapply lookup_lt_Some).
  rewrite !filter_app, !length_app, !filter_cons, decide_True, decide_False by done. simpl. lia.
Qed.

Lemma zget_zset_true v (l : list bool) w :
  0 ≤ v < zlen l → zget (zset v true l) w = Some true ↔ w = v ∨ zget l w = Some true.
Proof.
  intros Hv. destruct (decide (w = v)) as [->|Hne].
  - rewrite zget_zset_eq by done. tauto.
  - rewrite zget_zset_ne by (done || lia). tauto.
Qed.

(** Visiting a successor of [from]. *)
Lemma visit_vertex_spec start nv (don : list Z) from v s :
  (∀ w, 0 ≤ vat 0 nv w < size_max) →
  edge from v → visited s from →
  bfs_inv start nv (λ u, u ∈ queue s ∨ u = from) s → (∀ w, w ∈ don → visited s w) →
  wp (visit v) (λ _ s', bfs_inv start nv (λ u, u ∈ queue s' ∨ u = from) s' ∧
        (∀ w, w ∈ don ++ [v] → visited s' w) ∧ (∀ w, visited s w → visited s' w) ∧
        (∀ w, w ∈ queue s' → w ∈ queue s ∨ w = v) ∧
        (length (queue s') + unvisited s' = length (queue s) + unvisited s)%nat) (λ _, False) s.
Proof.
  intros Hnv He Hfrom Hinv Hdon. pose proof Hinv as [[Hl1 Hl2] Hstart Hsound Hclosed Hcounts].
  pose proof (wg_edges wf _ _ He) as Hv. unfold visit. apply wp_bind, (wp_vget _ false); [lia|].
  destruct (vat false (is_visited s) v) eqn:Hvis.
  - assert (visited s v) as Hvv by (unfold visited; rewrite <- Hvis; apply vat_zget; lia).
    apply wp_ret. split_and!; [done| |done|by left|done].
    intros w [Hw|Hw%list_elem_of_singleton]%elem_of_app; [auto|by subst].
  - assert (¬ visited s v) as Hvv by (intros Hx; unfold visited, vat in *; rewrite Hx in Hvis; done).
    assert (zget (is_visited s) v = Some false) as Hz by (rewrite <- Hvis; apply vat_zget; lia).
    apply wp_bind, wp_modify. apply wp_bind, wp_vset; [simpl; lia|]. apply wp_bind, (wp_vget _ 0); [simpl; lia|].
    apply wp_vset; [simpl; lia|]. simpl.
    destruct (Hcounts v Hv) as [[? _]|[_ Hc]]; [done|].
    rewrite (u64_id (vat 0 (num_visits s) v + 1)) by (specialize (Hnv v); unfold is_size; lia).
    assert (v ≠ start) as Hvs by (by intros ->).
    assert (∀ w, zget (zset v true (is_visited s)) w = Some true ↔ w = v ∨ visited s w) as Hset.
    { intros w. apply zget_zset_true. lia. }
    split_and!.
    + split; unfold visited; simpl; rewrite ?zset_length.
      * done.
      * rewrite Hset. by right.
      * intros w. rewrite Hset. intros [->|Hw]; [|by apply Hsound].
        apply (rtc_r _ from); [by apply Hsound|done].
      * intros u w. rewrite !Hset. intros Hu Hb He'. right.
        assert (u ≠ v ∧ (u ∉ queue s) ∧ u ≠ from) as (Huv & Huq & Huf).
        { split_and!; intros ?; apply Hb; [left; in_list|left; in_list|by right]. }
        destruct Hu as [|Hu]; [done|]. apply (Hclosed u w Hu); [|done]. intros [?|?]; done.
      * intros w Hw. rewrite Hset. destruct (decide (w = v)) as [->|Hne].
        -- rewrite vat_zset_eq by lia. left. split_and!; [by left|done|lia].
        -- rewrite vat_zset_ne by (done || lia). destruct (Hcounts w Hw) as [(? & ? & ?)|[Hn ?]].
           ++ left. split_and!; [by right|done|done].
           ++ right. split; [|done]. destruct Hn as [Hn|]; [left|by right]. intros [|]; done.
    + intros w Hw. unfold visited. simpl. rewrite Hset.
      apply elem_of_app in Hw as [Hw|Hw%list_elem_of_singleton]; [right; auto|by left].
    + intros w Hw. unfold visited. simpl. rewrite Hset. by right.
    + simpl. intros w [?|?%list_elem_of_singleton]%elem_of_app; auto.
    + rewrite length_app. unfold unvisited. simpl. apply zget_Some in Hz as [_ Hz].
      rewrite (filter_insert_false _ _ Hz). unfold zset. lia.
Qed.

Lemma bfs_loop_spec start nv fuel s :
  (∀ w, 0 ≤ vat 0 nv w < size_max) →
  bfs_inv start nv (λ u, u ∈ queue s) s → (∀ w, w ∈ queue s → visited s w) →
  (length (queue s) + unvisited s ≤ fuel)%nat →
  wp (bfs_loop g fuel) (λ _ s', bfs_inv start nv (λ _, False) s') (λ _, False) s.
Proof.
  intros Hnv. revert s. induction fuel as [|fuel IH]; intros s Hinv Hq Hfuel; simpl;
    apply wp_bind, wp_gets; destruct (queue s) as [|from q] eqn:Hqs.
  - apply wp_ret. destruct Hinv as [H1 H2 H3 H4 H5]. split; [done..| |done].
    intros u v Hu _ He. apply (H4 u v Hu); [|done]. by intros ?%elem_of_nil.
  - simpl in Hfuel. lia.
  - apply wp_ret. destruct Hinv as [H1 H2 H3 H4 H5]. split; [done..| |done].
    intros u v Hu _ He. apply (H4 u v Hu); [|done]. by intros ?%elem_of_nil.
  - assert (visited s from) as Hfrom by (apply Hq; by left).
    pose proof Hinv as [[Hl1 Hl2] H2 H3 H4 H5].
    assert (0 ≤ from < zlen g) as Hfr by (apply zget_range in Hfrom; lia).
    destruct (zget_is_Some g from Hfr) as [to Hto].
    apply wp_bind, wp_modify. apply wp_bind. eapply wp_deref; [exact Hto|]. apply wp_bind.
    eapply wp_mono; [apply (wp_for_each (λ don s', bfs_inv start nv (λ u, u ∈ queue s' ∨ u = from) s' ∧
      (∀ w, w ∈ don → visited s' w) ∧ visited s' from ∧ (∀ w, w ∈ queue s' → visited s' w) ∧
      (length (queue s') + unvisited s' ≤ fuel)%nat) (λ _, False))| |done].
    + simpl. split_and!; [split; [done|done|done| |done]|by intros w ?%elem_of_nil|done| |].
      * intros u v Hu Hb He. apply (H4 u v Hu); [|done]. intros [->|?]%elem_of_cons; auto.
      * intros w Hw. apply Hq. by right.
      * simpl in Hfuel. unfold unvisited in *. simpl. lia.
    + intros don v todo s' Hsplit (Hi & Hd & Hf & Hqv & Hm).
      assert (edge from v) as He by (exists to; split; [done|rewrite Hsplit; in_list]).
      pose proof (visit_vertex_spec start nv don from v s' Hnv He Hf Hi Hd) as Hvisit.
      eapply wp_mono; [exact Hvisit| |done]. intros _ s2 (Hi2 & Hd2 & Hmono & Hqueue & Hm2).
      split_and!; [done|done|by apply Hmono| |lia].
      intros w Hw. destruct (Hqueue w Hw) as [Hw'| ->]; [by apply Hmono, Hqv|apply Hd2; in_list].
    + simpl. intros _ s' (Hi & Hd & Hf & Hqv & Hm). apply IH; [|done|done].
      destruct Hi as [G1 G2 G3 G4 G5]. split; [done..| |done].
      intros u v Hu Hb He. destruct (decide (u = from)) as [->|Hne].
      * apply Hd. destruct He as (l & Hl & Hv). congruence.
      * apply (G4 u v Hu); [|done]. intros [|]; done.
Qed.
(** A search counts every vertex it reaches, but for its start, once. *)
Lemma BFS_spec start nv :
  0 ≤ start < zlen g → length nv = length g → (∀ w, 0 ≤ vat 0 nv w < size_max) →
  wp (BFS start g) (λ _ nv', length nv' = length g ∧ ∀ v, 0 ≤ v < zlen g →
        (depends_on start v ∧ v ≠ start ∧ vat 0 nv' v = vat 0 nv v + 1) ∨
        (¬ (depends_on start v ∧ v ≠ start) ∧ vat 0 nv' v = vat 0 nv v)) (λ _, False) nv.
Proof.
  intros Hs Hl Hnv. unfold BFS. apply wp_zoom. apply wp_bind.
  apply wp_vset; simpl; [by rewrite length_replicate|].
  set (s0 := set_visited _ _).
  assert (∀ w, visited s0 w ↔ w = start) as Hv0.
  { intros w. unfold visited, s0. simpl. rewrite zget_zset_true by by rewrite length_replicate.
    split; [|by left]. intros [->|Hw]; [done|]. apply zget_Some in Hw as [_ Hw]. by apply lookup_replicate in Hw as [? _]. }
  eapply wp_mono; [apply (bfs_loop_spec start nv (length g) s0 Hnv)| |done].
  - split; simpl.
    + by rewrite zset_length, length_replicate.
    + by apply Hv0.
    + intros v ->%Hv0. constructor.
    + intros u v ->%Hv0 Hb. destruct Hb. by left.
    + intros v Hv. right. split; [|done].
      destruct (decide (v = start)); [by right|left]. by rewrite Hv0.
  - intros w [->|?%elem_of_nil]%elem_of_cons; [by apply Hv0|done].
  - unfold unvisited. simpl. unfold zset.
    assert (replicate (length g) false !! Z.to_nat start = Some false) as Hr by (apply lookup_replicate_2; lia).
    apply filter_insert_false in Hr. rewrite <- Hr.
    etransitivity; [apply length_filter|]. by rewrite length_replicate.
  - simpl. intros _ s [[_ Hl2] Hst Hsound Hclosed Hcounts]. split; [done|].
    assert (∀ v, visited s v ↔ depends_on start v) as Hreach.
    { intros v. split; [apply Hsound|]. revert v. apply (rtc_ind_r (visited s) start); [done|].
      intros u w _ He IH. apply (Hclosed u w IH); tauto. }
    intros v Hv. destruct (Hcounts v Hv) as [(? & ? & ?)|[Hn ?]].
    + left. split_and!; [by apply Hreach|done|done].
    + right. split; [|done]. rewrite <- Hreach. tauto.
Qed.

(** ** The edges of the result *)

(** A vertex that is counted once per child comes after all of them. *)
Lemma visits_spec root children (st : UsageGraph) :
  zget g root = Some children → children ≠ [] →
  wp (zoom (λ _, replicate (length g) 0) (λ _ s, s)
        (for_each children (λ child, BFS child g) ;; get))
    (λ visits st', st' = st ∧ length visits = length g ∧
       ∀ v, 0 ≤ v < zlen g → vat 0 visits v = zlen children ↔ runs_after_users root v) (λ _, False) st.
Proof.
  intros Hroot Hne. apply wp_zoom, wp_bind.
  eapply wp_mono; [apply (wp_for_each (λ don nv, length nv = length g ∧ ∀ v,
    (0 ≤ vat 0 nv v ≤ zlen don) ∧ (0 ≤ v < zlen g →
    vat 0 nv v = zlen don ↔ ∀ c, c ∈ don → depends_on c v ∧ v ≠ c)) (λ _, False))| |done].
  - split; [by rewrite length_replicate|]. intros v. rewrite vat_replicate. split; [simpl; lia|].
    intros _. split; [by intros _ c ?%elem_of_nil|done].
  - intros don c todo nv Hsplit [Hl Hnv].
    pose proof (wg_degree wf _ _ Hroot) as Hdeg. rewrite Hsplit, length_app in Hdeg. simpl in Hdeg.
    eapply wp_mono; [apply (BFS_spec c nv)| |done].
    + apply (wg_edges wf root). exists children. split; [done|rewrite Hsplit; in_list].
    + done.
    + intros w. destruct (Hnv w). lia.
    + intros _ nv' [Hl' Hnv']. split; [done|]. intros v. rewrite length_app. simpl.
      destruct (Hnv v) as [Hb Hiff]. destruct (decide (0 ≤ v < zlen g)) as [Hv|Hv].
      * specialize (Hiff Hv). split; [destruct (Hnv' v Hv); lia|]. intros _.
        rewrite (forall_snoc (λ c', depends_on c' v ∧ v ≠ c')), <- Hiff. destruct (Hnv' v Hv) as [(? & ? & ->)|[? ->]].
        -- split; [intros; split; [lia|done]|intros [? _]; lia].
        -- split; [lia|intros [_ ?]; tauto].
      * split; [|done]. assert (∀ l, length l = length g → vat 0 l v = 0) as Hout.
        { intros l Hll. unfold vat. destruct (zget l v) eqn:Hz; [|done]. apply zget_range in Hz. lia. }
        rewrite Hout by done. lia.
  - simpl. intros _ nv [Hl Hnv]. apply wp_get. split_and!; [done|done|]. intros v Hv.
    destruct (Hnv v) as [_ Hiff]. rewrite (Hiff Hv). split.
    + intros Hall. by exists children.
    + intros (l & Hl' & _ & Hall). assert (l = children) as -> by congruence. done.
Qed.

Definition edges_are (E : Z → Z → Prop) (st : UsageGraph) : Prop :=
  length st = length g ∧ ∀ u l, zget st u = Some l → ∀ v, v ∈ l ↔ E u v.

Lemma push_edge_spec E u v st :
  edges_are E st → 0 ≤ u < zlen g →
  wp (push_edge u v) (λ _, edges_are (λ x y, E x y ∨ (x = u ∧ y = v))) (λ _, False) st.
Proof.
  intros [Hl HE] Hu. unfold push_edge. apply wp_bind, (wp_vget _ []); [simpl; lia|].
  apply wp_vset; [simpl; lia|]. simpl. split; [by rewrite zset_length|]. intros x l Hx y.
  destruct (decide (x = u)) as [->|Hne].
  - rewrite zget_zset_eq in Hx by lia. simplify_eq. rewrite elem_of_app, list_elem_of_singleton.
    rewrite (HE u (vat [] st u)) by (apply vat_zget; lia). tauto.
  - rewrite zget_zset_ne in Hx by (done || lia). rewrite (HE x l Hx). tauto.
Qed.

Lemma edges_are_iff E E' st : (∀ u v, 0 ≤ u < zlen g → E u v ↔ E' u v) → edges_are E st → edges_are E' st.
Proof.
  intros Hiff [Hl HE]. split; [done|]. intros u l Hu v. rewrite (HE u l Hu). apply Hiff.
  apply zget_range in Hu. lia.
Qed.

(** A root is linked with every vertex that comes after its users. *)
Lemma realloc_root_spec E root st :
  edges_are E st → 0 ≤ root < zlen g →
  wp (realloc_root g root) (λ _, edges_are (λ u v, E u v ∨
       (u = root ∧ 0 ≤ v < zlen g ∧ runs_after_users root v) ∨
       (v = root ∧ 0 ≤ u < zlen g ∧ runs_after_users root u))) (λ _, False) st.
Proof.
  intros HE Hr. destruct (zget_is_Some g root Hr) as [children Hc].
  unfold realloc_root. apply wp_bind. eapply wp_deref; [exact Hc|].
  assert (∀ w, children = [] → ¬ runs_after_users root w) as Hno.
  { intros w -> (l & Hl & Hne & _). congruence. }
  destruct (decide (children = [])) as [->|Hne].
  { apply wp_ret. eapply edges_are_iff; [|done]. intros u v _. split; [by left|].
    intros [?|[(_ & _ & ?)|(_ & _ & ?)]]; [done|by edestruct Hno..]. }
  replace (match children with [] => _ | _ => _ end) with
    (visits ← zoom (λ _, replicate (length g) 0) (λ _ s, s)
        (for_each children (λ child, BFS child g) ;; get);
      for_each (range 0 (zlen g)) (λ vertex,
        n ← deref (zget visits vertex);
        if n =? zlen children then push_edge root vertex ;; push_edge vertex root
        else mret ()) : M UsageGraph unit) by by destruct children.
  apply wp_bind. eapply wp_mono; [by apply visits_spec| |done]. simpl.
  intros visits _ (-> & Hl & Hvisits).
  eapply wp_mono; [apply (wp_for_each (λ don, edges_are (λ u v, E u v ∨
       (u = root ∧ v ∈ don ∧ runs_after_users root v) ∨
       (v = root ∧ u ∈ don ∧ runs_after_users root u))) (λ _, False))| |done].
  - eapply edges_are_iff; [|done]. intros u v _. split; [by left|].
    intros [?|[(_ & []%elem_of_nil & _)|(_ & []%elem_of_nil & _)]]; done.
  - intros don vertex todo st' Hsplit HE'.
    assert (0 ≤ vertex < zlen g) as Hv by (apply elem_of_range; rewrite Hsplit; in_list).
    apply wp_bind. eapply wp_deref; [apply (vat_zget 0); lia|].
    destruct (Z.eqb_spec (vat 0 visits vertex) (zlen children)) as [Heq|Hneq].
    + apply (Hvisits vertex Hv) in Heq. apply wp_bind.
      eapply wp_mono; [by apply push_edge_spec| |done]. simpl. intros _ st2 HE2.
      eapply wp_mono; [by apply push_edge_spec| |done]. simpl. intros _ st3.
      apply edges_are_iff. intros u v _. rewrite !elem_of_app, !list_elem_of_singleton.
      split; [intros [[[?|[?|?]]|[-> ->]]|[-> ->]]; tauto|].
      intros [?|[(-> & [?| ->] & ?)|(-> & [?| ->] & ?)]]; tauto.
    + assert (¬ runs_after_users root vertex) as Hn by by rewrite <- (Hvisits vertex Hv).
      apply wp_ret. eapply edges_are_iff; [|exact HE']. intros u v _.
      rewrite !elem_of_app, !list_elem_of_singleton. split; [tauto|].
      intros [?|[(-> & [?| ->] & ?)|(-> & [?| ->] & ?)]]; tauto.
  - simpl. intros _ st'. apply edges_are_iff. intros u v _. by rewrite !elem_of_range.
Qed.

Context `{StdSort}.

Lemma ReallocationGraph_edges :
  ∃ r, ReallocationGraph g = Done r r ∧ length r = length g ∧
    ∀ u l, zget r u = Some l → sorted_by Z.ltb l ∧
      ∀ v, v ∈ l ↔ (0 ≤ v < zlen g ∧ runs_after_users u v) ∨ (0 ≤ v < zlen g ∧ runs_after_users v u).
Proof.
  unfold ReallocationGraph.
  assert (wp (for_each (range 0 (zlen g)) (realloc_root g) ;; modify (fmap (std_sort Z.ltb)) ;; get)
    (λ r st, st = r ∧ length r = length g ∧ ∀ u l, zget r u = Some l → sorted_by Z.ltb l ∧
      ∀ v, v ∈ l ↔ (0 ≤ v < zlen g ∧ runs_after_users u v) ∨ (0 ≤ v < zlen g ∧ runs_after_users v u))
    (λ _, False) (replicate (length g) [])) as Hwp.
  2:{ apply wp_no_error in Hwp as (r & st & Hr & -> & ?). by exists r. }
  assert (strict_weak Z.ltb) as Hsw by apply (strict_weak_key id).
  apply wp_bind. eapply wp_mono; [apply (wp_for_each (λ don, edges_are (λ u v,
      (u ∈ don ∧ 0 ≤ v < zlen g ∧ runs_after_users u v) ∨
      (v ∈ don ∧ 0 ≤ u < zlen g ∧ runs_after_users v u))) (λ _, False))| |done].
  - split; [by rewrite length_replicate|]. intros u l [_ Hu]%zget_Some v.
    apply lookup_replicate in Hu as [-> _].
    split; [by intros ?%elem_of_nil|intros [(?%elem_of_nil & _)|(?%elem_of_nil & _)]; done].
  - intros don root todo st Hsplit HE.
    assert (0 ≤ root < zlen g) as Hr by (apply elem_of_range; rewrite Hsplit; in_list).
    eapply wp_mono; [by apply realloc_root_spec| |done]. simpl. intros _ st'.
    apply edges_are_iff. intros u v _. rewrite !elem_of_app, !list_elem_of_singleton. split.
    + intros [?|[(-> & ?)|(-> & ?)]]; tauto.
    + intros [([?| ->] & ?)|([?| ->] & ?)]; tauto.
  - simpl. intros _ st [Hl HE]. apply wp_bind, wp_modify, wp_get. split; [done|].
    split; [by rewrite length_fmap|]. intros u l [Hu0 Hu]%zget_Some.
    rewrite list_lookup_fmap in Hu. destruct (st !! Z.to_nat u) as [k|] eqn:Hk; [|done].
    simpl in Hu. simplify_eq. split; [by apply std_sort_sorted|]. intros v.
    assert (zget st u = Some k) as Hz by by apply zget_Some.
    pose proof (zget_range _ _ _ Hz) as Hur.
    rewrite std_sort_perm, (HE u k Hz), !elem_of_range by done. split; [tauto|].
    intros [[? ?]|[? ?]]; [left|right]; (split; [lia|split; [lia|done]]).
Qed.
End graph.

(** [ReallocationGraph] returns on every graph. In the result two vertices are
    neighbours exactly if one of them runs after everything that uses the other:
    it is reached from each of the other's successors, of which there is at least
    one, and is none of them. The neighbours are sorted, as the search for them
    in [GreedyInOrderAssignment] needs. *)
Theorem ReallocationGraph_correct `{StdSort} g :
  well_formed_graph g →
  ∃ r, ReallocationGraph g = Done r r ∧ length r = length g ∧
    ∀ u l, zget r u = Some l → sorted_by Z.ltb l ∧
      ∀ v, v ∈ l ↔ (0 ≤ v < zlen g ∧ runs_after_users g u v) ∨ (0 ≤ v < zlen g ∧ runs_after_users g v u).
Proof. intros Hwf. by apply ReallocationGraph_edges. Qed.

Lemma well_formed_check g :
  Forall (λ l, zlen l < size_max ∧ Forall (λ v, 0 ≤ v < zlen g) l) g → well_formed_graph g.
Proof.
  rewrite Forall_forall. intros Hg. split.
  - intros u v (l & Hl%zget_elem & Hv). destruct (Hg l Hl) as [_ Hf].
    rewrite Forall_forall in Hf. by apply Hf.
  - intros u l Hl%zget_elem. by apply Hg.
Qed.

(** [ComplexGraph] of [types_test.cc]. *)
Definition complex_graph : UsageGraph :=
  [[1]; [2; 3; 4]; [7]; [5]; [7]; [6]; [7]; [8; 9]; [10]; [10]; [11]; []].

(** On the graph of the program's test the result is the one the test expects. *)
Example tested_reallocation :
  match ReallocationGraph complex_graph with
  | Done r _ => r = [[2; 3; 4; 5; 6; 7; 8; 9; 10; 11]; [7; 8; 9; 10; 11]; [0; 8; 9; 10; 11];
      [0; 6; 7; 8; 9; 10; 11]; [0; 8; 9; 10; 11]; [0; 7; 8; 9; 10; 11]; [0; 3; 8; 9; 10; 11];
      [0; 1; 3; 5; 10; 11]; [0; 1; 2; 3; 4; 5; 6; 11]; [0; 1; 2; 3; 4; 5; 6; 11];
      [0; 1; 2; 3; 4; 5; 6; 7]; [0; 1; 2; 3; 4; 5; 6; 7; 8; 9]]
  | _ => False
  end.
Proof. vm_compute. done. Qed.

Lemma ReallocationGraph_correct_witness :
  ∃ r, ReallocationGraph complex_graph = Done r r ∧ length r = length complex_graph ∧
    ∀ u l, zget r u = Some l → sorted_by Z.ltb l ∧
      ∀ v, v ∈ l ↔ (0 ≤ v < zlen complex_graph ∧ runs_after_users complex_graph u v) ∨
                   (0 ≤ v < zlen complex_graph ∧ runs_after_users complex_graph v u).
Proof.
  apply ReallocationGraph_correct, well_formed_check. unfold complex_graph.
  repeat constructor; simpl; unfold size_max; lia.
Defined.
