(* ===== verification/FlowNetwork.v ===== *)
(** * Flow networks

    An abstract view of the graph in [MinCostFlowSolver]: a list of arcs, each
    with the unit of flow it carries or not. An arc stands for two edges of the
    code, itself and its reverse, whose capacities follow from the flow; sending
    a unit along a residual edge toggles its arc. The construction of the network
    is described in these terms. *)

From S2P Require Import Prelude UsageRecords ObjectAssignment SharingProofs MinCostFlow.

(** ** Arcs and their edges *)

Record arc := { a_src : Z; a_dst : Z; a_cost : Z }.

Abbreviation network := (list (arc * bool)).

Definition forward (p : arc * bool) : Edge :=
  {| dst := a_dst p.1; cap := if p.2 then 0 else 1; cost := a_cost p.1 |}.
Definition backward (p : arc * bool) : Edge :=
  {| dst := a_src p.1; cap := if p.2 then 1 else 0; cost := - a_cost p.1 |}.

Definition edge_list (net : network) : list Edge := net ≫= λ p, [forward p; backward p].

(** The ends of an edge, its cost and whether it has residual capacity. *)
Definition ends (net : network) (e : Z) : option (Z * Z * Z * bool) :=
  p ← zget net (e / 2);
  Some (if Z.even e then (a_src p.1, a_dst p.1, a_cost p.1, negb p.2)
        else (a_dst p.1, a_src p.1, - a_cost p.1, p.2)).

(** The edge [e] from [v] to [u] of cost [c] can take a unit of flow. *)
Definition residual (net : network) (v e u c : Z) : Prop := ends net e = Some (v, u, c, true).

Definition edge_of (x : Z * Z * Z * bool) : Edge :=
  {| dst := x.1.1.2; cap := if x.2 then 1 else 0; cost := x.1.2 |}.

Lemma lxor_1 e : 0 ≤ e → Z.lxor e 1 = if Z.even e then e + 1 else e - 1.
Proof. destruct e as [|[p|p|]|p]; [done..|lia]. Qed.

Lemma even_div e : Z.even e = true → e = 2 * (e / 2).
Proof. intros He%Z.even_spec. destruct He as [k ->]. rewrite (Z.mul_comm 2), Z.div_mul by done. lia. Qed.

Lemma odd_div e : Z.even e = false → e = 2 * (e / 2) + 1.
Proof.
  intros He. rewrite <- Z.negb_odd, negb_false_iff, Z.odd_spec in He. destruct He as [k ->].
  rewrite (Z.mul_comm 2), Z.div_add_l by done. change (1 / 2) with 0. lia.
Qed.

Lemma lxor_div e : 0 ≤ e → Z.lxor e 1 / 2 = e / 2 ∧ Z.even (Z.lxor e 1) = negb (Z.even e) ∧ 0 ≤ Z.lxor e 1.
Proof.
  intros He. rewrite lxor_1 by done. destruct (Z.even e) eqn:Hev.
  - apply even_div in Hev as Heq. pose proof (Z.div_pos e 2 He ltac:(lia)).
    split_and!; [|by rewrite Z.add_1_r, Z.even_succ, <- Z.negb_even, Hev|lia].
    rewrite Heq at 1. rewrite (Z.mul_comm 2), Z.div_add_l by done. change (1 / 2) with 0. lia.
  - apply odd_div in Hev as Heq. pose proof (Z.div_pos e 2 He ltac:(lia)).
    split_and!; [|by rewrite Z.sub_1_r, Z.even_pred, <- Z.negb_even, Hev|lia].
    rewrite Heq at 1. replace (2 * (e / 2) + 1 - 1) with (e / 2 * 2) by lia. by rewrite Z.div_mul.
Qed.

Lemma ends_range net e x : ends net e = Some x → 0 ≤ e < 2 * zlen net.
Proof.
  unfold ends. intros (p & Hp%zget_range & _)%bind_Some.
  destruct (Z.even e) eqn:He; [apply even_div in He|apply odd_div in He]; lia.
Qed.

Lemma ends_reverse net e : 0 ≤ e →
  ends net (Z.lxor e 1) = (λ x, (x.1.1.2, x.1.1.1, - x.1.2, negb x.2)) <$> ends net e.
Proof.
  intros He. unfold ends. destruct (lxor_div e He) as (-> & -> & _).
  destruct (zget net (e / 2)) as [[a f]|]; simpl; [|done].
  destruct (Z.even e); simpl; by rewrite ?Z.opp_involutive, ?negb_involutive.
Qed.

Lemma length_edge_list net : zlen (edge_list net) = 2 * zlen net.
Proof.
  induction net as [|p net IH]; [done|].
  change (edge_list (p :: net)) with (forward p :: backward p :: edge_list net). cbn [length]. lia.
Qed.

Lemma edge_list_lookup net k :
  edge_list net !! (2 * k)%nat = forward <$> net !! k ∧
  edge_list net !! (2 * k + 1)%nat = backward <$> net !! k.
Proof.
  revert k. induction net as [|p net IH]; intros k; [by destruct k|].
  destruct k as [|k]; [done|]. destruct (IH k) as [H1 H2].
  replace (2 * S k)%nat with (S (S (2 * k))) by lia. replace (S (S (2 * k)) + 1)%nat with (S (S (2 * k + 1))) by lia.
  done.
Qed.

Lemma edge_list_zget net e : zget (edge_list net) e = edge_of <$> ends net e.
Proof.
  destruct (Z.ltb_spec e 0) as [Hneg|Hpos].
  - unfold ends, zget. rewrite !(proj2 (Z.leb_gt _ _)); [done| |done]. apply Z.div_lt_upper_bound; lia.
  - unfold ends, zget. pose proof (Z.div_pos e 2 Hpos ltac:(lia)).
    rewrite !(proj2 (Z.leb_le _ _)) by done.
    destruct (edge_list_lookup net (Z.to_nat (e / 2))) as [H1 H2].
    destruct (Z.even e) eqn:He; [apply even_div in He|apply odd_div in He].
    + replace (Z.to_nat e) with (2 * Z.to_nat (e / 2))%nat by lia. rewrite H1.
      destruct (net !! _) as [[a []]|]; done.
    + replace (Z.to_nat e) with (2 * Z.to_nat (e / 2) + 1)%nat by lia. rewrite H2.
      destruct (net !! _) as [[a []]|]; done.
Qed.

(** ** Sending a unit of flow *)

Definition toggle (net : network) (e : Z) : network :=
  alter (λ p, (p.1, negb p.2)) (Z.to_nat (e / 2)) net.

Lemma toggle_arcs net e : (toggle net e).*1 = net.*1.
Proof.
  unfold toggle. apply list_eq. intros i. rewrite !list_lookup_fmap.
  destruct (decide (i = Z.to_nat (e / 2))) as [->|Hne].
  - rewrite list_lookup_alter_eq. by destruct (net !! _).
  - by rewrite list_lookup_alter_ne by done.
Qed.

Lemma ends_toggle net e e' : 0 ≤ e → ends (toggle net e) e' =
  if decide (e' / 2 = e / 2) then (λ x, (x.1, negb x.2)) <$> ends net e' else ends net e'.
Proof.
  intros He. pose proof (Z.div_pos e 2 He ltac:(lia)). unfold ends, toggle, zget. case_decide as Heq.
  - rewrite Heq, (proj2 (Z.leb_le _ _)) by done. rewrite list_lookup_alter_eq.
    destruct (net !! _) as [[a f]|]; simpl; [|done]. by destruct (Z.even e').
  - destruct (Z.leb_spec 0 (e' / 2)); [|done]. rewrite list_lookup_alter_ne; [done|]. lia.
Qed.

Lemma half_eq e e' : 0 ≤ e → e' / 2 = e / 2 ↔ e' = e ∨ e' = Z.lxor e 1.
Proof.
  intros He. rewrite lxor_1 by done. split.
  - intros Heq. destruct (Z.even e) eqn:Hev; destruct (Z.even e') eqn:Hev';
      (first [apply even_div in Hev|apply odd_div in Hev]);
      (first [apply even_div in Hev'|apply odd_div in Hev']); lia.
  - intros [->| ->]; [done|]. rewrite <- lxor_1 by done. by apply lxor_div.
Qed.

(** What the residual edges become: the edge and its reverse swap. *)
Lemma residual_toggle net e t h c v e' u c' : residual net t e h c →
  residual (toggle net e) v e' u c' ↔
  (residual net v e' u c' ∧ e' ≠ e) ∨ (e' = Z.lxor e 1 ∧ v = h ∧ u = t ∧ c' = - c).
Proof.
  unfold residual. intros He. pose proof (ends_range _ _ _ He) as Hr.
  assert (ends net (Z.lxor e 1) = Some (h, t, - c, false)) as Hrev by by rewrite ends_reverse, He by lia.
  destruct (lxor_div e) as (_ & Hpar & _); [lia|].
  assert (Z.lxor e 1 ≠ e) as Hne by (intros Heq; rewrite Heq in Hpar; by destruct (Z.even e)).
  rewrite ends_toggle by lia. case_decide as Hh.
  - apply half_eq in Hh as [->| ->]; [|..|lia].
    + rewrite He. simpl. split; [done|]. intros [[_ ?]|[? _]]; congruence.
    + rewrite Hrev. simpl. split; [intros [= <- <- <-]; by right|].
      intros [[? _]|(_ & -> & -> & ->)]; [congruence|done].
  - assert (¬ (e' = e ∨ e' = Z.lxor e 1)) as Hno by (by rewrite <- half_eq by lia). split; [tauto|].
    intros [[? _]|[? _]]; tauto.
Qed.

(** ** Flow at a vertex *)

Definition is_src (v : Z) (p : arc * bool) : bool := p.2 && (a_src p.1 =? v).
Definition is_dst (v : Z) (p : arc * bool) : bool := p.2 && (a_dst p.1 =? v).

Definition inflow (net : network) (v : Z) : Z := count (is_dst v) net.
Definition outflow (net : network) (v : Z) : Z := count (is_src v) net.
Definition excess (net : network) (v : Z) : Z := inflow net v - outflow net v.

Definition one (b : bool) : Z := if b then 1 else 0.

Lemma excess_toggle net t e h c v : residual net t e h c →
  excess (toggle net e) v = excess net v + one (h =? v) - one (t =? v).
Proof.
  unfold residual. intros He. pose proof (ends_range _ _ _ He) as Hr.
  unfold ends in He. apply bind_Some in He as ([a f] & Ha & [= He]).
  apply zget_Some in Ha as [_ Ha].
  assert (toggle net e = <[Z.to_nat (e / 2) := (a, negb f)]> net) as Htog.
  { unfold toggle. apply list_eq. intros i. destruct (decide (i = Z.to_nat (e / 2))) as [->|Hne].
    - rewrite list_lookup_alter_eq, Ha, list_lookup_insert_eq by by eapply lookup_lt_Some. done.
    - by rewrite list_lookup_alter_ne, list_lookup_insert_ne. }
  assert (∀ g : arc * bool → bool,
    count g (toggle net e) = count g net - one (g (a, f)) + one (g (a, negb f))) as Hcount.
  { intros g. unfold count. rewrite Htog, list_fmap_insert.
    rewrite (total_insert _ _ (one (g (a, f)))) by by rewrite list_lookup_fmap, Ha. done. }
  unfold excess, inflow, outflow. rewrite !Hcount. unfold is_dst, is_src. simpl.
  destruct (Z.even e), f; simplify_eq/=; unfold one; repeat case_match; lia.
Qed.

(** ** The representation *)

Record represents (num_vertices : Z) (net : network) (g : Solver) : Prop := {
  rp_edges : edges_ g = edge_list net;
  rp_vertices : zlen (edges_from_ g) = num_vertices;
  rp_from v l : zget (edges_from_ g) v = Some l →
    NoDup l ∧ ∀ e, e ∈ l ↔ ∃ u c r, ends net e = Some (v, u, c, r)
}.

Lemma rp_edge nv net g e v u c r : represents nv net g → ends net e = Some (v, u, c, r) →
  zget (edges_ g) e = Some {| dst := u; cap := if r then 1 else 0; cost := c |}.
Proof. intros Hg He. by rewrite (rp_edges _ _ _ Hg), edge_list_zget, He. Qed.

Lemma rp_out nv net g v : represents nv net g → 0 ≤ v < nv → ∃ l,
  zget (edges_from_ g) v = Some l ∧ NoDup l ∧ ∀ e, e ∈ l ↔ ∃ u c r, ends net e = Some (v, u, c, r).
Proof.
  intros Hg Hv. destruct (zget_is_Some (edges_from_ g) v) as [l Hl]; [by rewrite (rp_vertices _ _ _ Hg)|].
  exists l. split; [done|]. by apply (rp_from _ _ _ Hg).
Qed.

Lemma ends_snoc net a e : ends (net ++ [(a, false)]) e =
  if decide (e = 2 * zlen net) then Some (a_src a, a_dst a, a_cost a, true)
  else if decide (e = 2 * zlen net + 1) then Some (a_dst a, a_src a, - a_cost a, false)
  else ends net e.
Proof.
  unfold ends. assert (∀ k, zget (net ++ [(a, false)]) k =
    if decide (k = zlen net) then Some (a, false) else zget net k) as Hsnoc.
  { intros k. unfold zget. destruct (Z.leb_spec 0 k) as [Hk|Hk]; [|by rewrite decide_False by lia].
    case_decide as Heq; [by rewrite Heq, Nat2Z.id, lookup_split|].
    destruct (decide (Z.to_nat k < length net)%nat) as [Hlt|Hge]; [by apply lookup_app_l|].
    rewrite lookup_app_r by lia. rewrite (lookup_ge_None_2 net) by lia.
    apply lookup_ge_None_2. simpl. lia. }
  rewrite Hsnoc. destruct (Z.even e) eqn:He.
  - apply even_div in He. destruct (decide (e / 2 = zlen net)) as [Hk|Hk].
    + by rewrite (decide_True (P := e = _)) by lia.
    + by rewrite (decide_False (P := e = _)), (decide_False (P := e = _ + 1)) by lia.
  - apply odd_div in He. destruct (decide (e / 2 = zlen net)) as [Hk|Hk].
    + by rewrite (decide_False (P := e = 2 * _)), (decide_True (P := e = _ + 1)) by lia.
    + by rewrite (decide_False (P := e = 2 * _)), (decide_False (P := e = _ + 1)) by lia.
Qed.

Lemma edge_list_app net net' : edge_list (net ++ net') = edge_list net ++ edge_list net'.
Proof. unfold edge_list. apply bind_app. Qed.

(** [AddEdge] adds one arc without flow. *)
Lemma AddEdge_spec nv net g E src dst c : represents nv net g →
  0 ≤ src < nv → 0 ≤ dst < nv → src ≠ dst → is_int32 (- c) →
  wp (AddEdge src dst 1 c)
     (λ _ g', represents nv (net ++ [({| a_src := src; a_dst := dst; a_cost := c |}, false)]) g') E g.
Proof.
  intros Hg Hs Hd Hne Hc. unfold AddEdge, push_edge_from, push_edge_back. wp_steps.
  destruct (rp_out _ _ _ src Hg Hs) as (ls & Hls & Hnds & Hins).
  destruct (rp_out _ _ _ dst Hg Hd) as (ld & Hld & Hndd & Hind).
  eapply wp_vget_Some; [exact Hls|]. eapply wp_vset_Some; [exact Hls|]. wp_steps.
  assert (zget (zset src (ls ++ [zlen (edges_ g)]) (edges_from_ g)) dst = Some ld) as Hld'.
  { by rewrite zget_zset_ne by (done || lia). }
  eapply wp_vget_Some; [exact Hld'|]. eapply wp_vset_Some; [exact Hld'|]. wp_steps.
  pose proof (length_edge_list net) as Hlen. rewrite <- (rp_edges _ _ _ Hg) in Hlen.
  assert (∀ e x, ends net e = Some x → e ≠ 2 * zlen net ∧ e ≠ 2 * zlen net + 1) as Hold.
  { intros e x He%ends_range. lia. }
  split; simpl.
  - rewrite (rp_edges _ _ _ Hg), edge_list_app, <- app_assoc. f_equal. unfold edge_list, forward, backward. simpl.
    by rewrite (i32_id _ Hc).
  - rewrite !zset_length. by apply Hg.
  - intros v l Hl. setoid_rewrite ends_snoc. rewrite length_app in Hl. cbn [length] in Hl.
    destruct (decide (v = dst)) as [->|Hvd]; [|destruct (decide (v = src)) as [->|Hvs]].
    + rewrite zget_zset_eq in Hl by (rewrite zset_length, (rp_vertices _ _ _ Hg); lia). injection Hl as <-.
      split.
      * apply NoDup_app. split_and!; [done| |apply NoDup_singleton].
        intros e (u & c' & r & He%ends_range)%Hind ->%list_elem_of_singleton. lia.
      * intros e. rewrite elem_of_app, Hind, list_elem_of_singleton. split.
        -- intros [(u & c' & r & He)| ->].
           ++ destruct (Hold _ _ He). rewrite !decide_False by done. eauto.
           ++ rewrite decide_False, decide_True by lia. eauto.
        -- intros (u & c' & r & He). case_decide; [by simplify_eq/=|]. case_decide; [right; lia|eauto].
    + rewrite zget_zset_ne, zget_zset_eq in Hl by (rewrite ?(rp_vertices _ _ _ Hg); (lia || done)). injection Hl as <-.
      split.
      * apply NoDup_app. split_and!; [done| |apply NoDup_singleton].
        intros e (u & c' & r & He%ends_range)%Hins ->%list_elem_of_singleton. lia.
      * intros e. rewrite elem_of_app, Hins, list_elem_of_singleton. split.
        -- intros [(u & c' & r & He)| ->].
           ++ destruct (Hold _ _ He). rewrite !decide_False by done. eauto.
           ++ rewrite decide_True by lia. eauto.
        -- intros (u & c' & r & He). case_decide; [right; lia|]. case_decide; [by simplify_eq/=|eauto].
    + rewrite !zget_zset_ne in Hl by (done || lia). destruct (rp_from _ _ _ Hg v l Hl) as [Hnd Hin].
      split; [done|]. intros e. rewrite Hin. split.
      * intros (u & c' & r & He). destruct (Hold _ _ He). rewrite !decide_False by done. eauto.
      * intros (u & c' & r & He). case_decide; [by simplify_eq/=|]. case_decide; [by simplify_eq/=|eauto].
Qed.

(** ** The network of the tensors *)

Section build.
Context (records : list (TensorUsageRecord Z)).
Abbreviation n := (num_tensors_ records).
Abbreviation source := (source_ records).
Abbreviation sink := (sink_ records).
Abbreviation num_vertices := (sink_ records + 1).

(** What the strategy relies on: an order of the records, sizes whose sum is an
    [int], and vertex numbers that are a [size_t]. *)
Record flow_records : Prop := {
  fr_order : in_task_order records;
  fr_intervals r : r ∈ records → first_task r ≤ last_task r;
  fr_sizes r : r ∈ records → 0 ≤ tensor_size r;
  fr_total : total (tensor_size <$> records) < int32_max;
  fr_vertices : num_vertices ≤ size_max
}.
Hypothesis ok : flow_records.

Lemma n_nonneg : 0 ≤ n.
Proof. unfold num_tensors_. lia. Qed.

Lemma size_bound r : r ∈ records → 0 ≤ tensor_size r ≤ total (tensor_size <$> records).
Proof.
  intros Hr. split; [by apply (fr_sizes ok)|].
  assert ([tensor_size r] ⊆+ tensor_size <$> records) as Hsub.
  { apply singleton_submseteq_l, list_elem_of_fmap. eauto. }
  apply total_submseteq in Hsub; [simpl in Hsub; lia|].
  intros x (r' & -> & Hr')%list_elem_of_fmap. by apply (fr_sizes ok).
Qed.

Lemma size_i32 r : r ∈ records → i32 (tensor_size r) = tensor_size r.
Proof.
  intros Hr. apply i32_id. pose proof (size_bound r Hr). pose proof (fr_total ok).
  unfold is_int32, int32_min, int32_max in *. lia.
Qed.

Lemma RightPartTwin_id i : 0 ≤ i < n → RightPartTwin records i = i + n.
Proof.
  intros Hi. unfold RightPartTwin. apply u64_id. pose proof (fr_vertices ok).
  unfold is_size, sink_, source_ in *. lia.
Qed.

(** The tensor [k] can take over the memory of [j]. *)
Definition can_follow (j k : Z) : Prop := ∃ rj rk, 0 ≤ j < k ∧
  zget records j = Some rj ∧ zget records k = Some rk ∧ last_task rj < first_task rk.

Definition reuse_cost (rk rj : TensorUsageRecord Z) : Z :=
  if tensor_size rk >? tensor_size rj then tensor_size rk - tensor_size rj else 0.

(** The arcs of the first [m] tensors. *)
Inductive tensor_arc (m : Z) : arc → Prop :=
| arc_lends i : 0 ≤ i < m → tensor_arc m {| a_src := source; a_dst := i; a_cost := 0 |}
| arc_filled i : 0 ≤ i < m → tensor_arc m {| a_src := i + n; a_dst := sink; a_cost := 0 |}
| arc_new i r : 0 ≤ i < m → zget records i = Some r →
    tensor_arc m {| a_src := source; a_dst := i + n; a_cost := tensor_size r |}
| arc_reuse j i rj ri : 0 ≤ i < m → can_follow j i → zget records j = Some rj → zget records i = Some ri →
    tensor_arc m {| a_src := j; a_dst := i + n; a_cost := reuse_cost ri rj |}.

(** The network after [m] tensors. *)
Record tensor_network (m : Z) (arcs : list arc) : Prop := {
  tn_arcs a : a ∈ arcs → tensor_arc m a;
  tn_new i r : 0 ≤ i < m → zget records i = Some r →
    {| a_src := source; a_dst := i + n; a_cost := tensor_size r |} ∈ arcs;
  tn_filled i : 0 ≤ i < m → {| a_src := i + n; a_dst := sink; a_cost := 0 |} ∈ arcs;
  tn_out v : n ≤ v < source → count (λ a, a_src a =? v) arcs ≤ 1;
  tn_in v : 0 ≤ v < n → count (λ a, a_dst a =? v) arcs ≤ 1;
  tn_sink : count (λ a, a_dst a =? sink) arcs = m
}.

Definition tensor_block (i : Z) (r : TensorUsageRecord Z) (olds : list Z) : list arc :=
  [ {| a_src := source; a_dst := i; a_cost := 0 |};
    {| a_src := i + n; a_dst := sink; a_cost := 0 |};
    {| a_src := source; a_dst := i + n; a_cost := tensor_size r |} ] ++
  ((λ j, {| a_src := j; a_dst := i + n; a_cost := reuse_cost r (default r (zget records j)) |}) <$> olds).

Lemma tensor_arc_mono m m' a : m ≤ m' → tensor_arc m a → tensor_arc m' a.
Proof. intros Hm [i Hi|i Hi|i r Hi Hr|j i rj ri Hi Hf Hj Hr]; econstructor; eauto; lia. Qed.

Lemma tensor_network_start : tensor_network 0 [].
Proof.
  split; [intros a Ha; by apply not_elem_of_nil in Ha|intros; lia|intros; lia| | |done];
    intros; apply Z.le_0_1.
Qed.

Lemma tensor_block_arcs i r olds a : zget records i = Some r → (∀ j, j ∈ olds → can_follow j i) →
  a ∈ tensor_block i r olds → tensor_arc (i + 1) a.
Proof.
  intros Hr Ho. pose proof (zget_range _ _ _ Hr) as Hi. unfold tensor_block. rewrite !elem_of_app, !elem_of_cons.
  intros [[->|[->|[->|Ha]]]|Ha].
  - by apply arc_lends; lia.
  - by apply arc_filled; lia.
  - by apply arc_new; [lia|].
  - by apply not_elem_of_nil in Ha.
  - apply list_elem_of_fmap in Ha as (j & -> & Hj). destruct (Ho j Hj) as (rj & rk & Hji & Hrj & Hrk & Hlt).
    rewrite Hrj. simpl. apply arc_reuse; [lia|by exists rj, rk|done|done].
Qed.

Lemma count_block f i r olds : (∀ j, j ∈ olds → can_follow j i) →
  (∀ j c, 0 ≤ j < i → f {| a_src := j; a_dst := i + n; a_cost := c |} = false) →
  count f (tensor_block i r olds) =
  one (f {| a_src := source; a_dst := i; a_cost := 0 |}) +
  one (f {| a_src := i + n; a_dst := sink; a_cost := 0 |}) +
  one (f {| a_src := source; a_dst := i + n; a_cost := tensor_size r |}).
Proof.
  intros Ho Hf. unfold tensor_block. rewrite count_app, !count_cons. unfold one.
  rewrite (count_none _ (_ <$> olds)).
  - unfold count. simpl. lia.
  - intros a (j & -> & Hj)%list_elem_of_fmap. destruct (Ho j Hj) as (? & ? & ? & _). by apply Hf.
Qed.

Ltac eqb_cases := unfold one, sink_, source_ in *; repeat match goal with
  | |- context [(?x =? ?y)%Z] => destruct (Z.eqb_spec x y)
  end.

Lemma tensor_network_step i r olds arcs : zget records i = Some r → (∀ j, j ∈ olds → can_follow j i) →
  tensor_network i arcs → tensor_network (i + 1) (arcs ++ tensor_block i r olds).
Proof.
  intros Hr Ho [Ha Hn Hf Hout Hin Hsink]. assert (0 ≤ i < n) as Hi by by eapply zget_range.
  split.
  - intros a [H|H]%elem_of_app; [eapply tensor_arc_mono; [|by apply Ha]; lia|by eapply tensor_block_arcs].
  - intros k rk Hk Hrk. apply elem_of_app. destruct (decide (k = i)) as [->|Hne].
    + right. simplify_eq. unfold tensor_block. in_list.
    + left. apply Hn; [lia|done].
  - intros k Hk. apply elem_of_app. destruct (decide (k = i)) as [->|Hne].
    + right. unfold tensor_block. in_list.
    + left. apply Hf. lia.
  - intros v Hv. rewrite count_app, count_block by (first [done|intros; apply Z.eqb_neq; unfold sink_, source_ in *; simpl; lia]). simpl.
    destruct (decide (v = i + n)) as [->|Hne].
    + rewrite (count_none _ arcs).
      * eqb_cases; lia.
      * intros a Hin'. apply Z.eqb_neq. destruct (Ha a Hin') as [k Hk|k Hk|k rk Hk Hrk|j k rj rk Hk (? & ? & Hjk & _) _ _]; unfold sink_, source_ in *; simpl; lia.
    + specialize (Hout v Hv). eqb_cases; lia.
  - intros v Hv. rewrite count_app, count_block by (first [done|intros; apply Z.eqb_neq; unfold sink_, source_ in *; simpl; lia]). simpl.
    destruct (decide (v = i)) as [->|Hne].
    + rewrite (count_none _ arcs).
      * eqb_cases; lia.
      * intros a Hin'. apply Z.eqb_neq. destruct (Ha a Hin') as [k Hk|k Hk|k rk Hk Hrk|j k rj rk Hk (? & ? & Hjk & _) _ _]; unfold sink_, source_ in *; simpl; lia.
    + specialize (Hin v Hv). eqb_cases; lia.
  - rewrite count_app, count_block by (first [done|intros; apply Z.eqb_neq; unfold sink_, source_ in *; simpl; lia]). simpl. rewrite Hsink.
    eqb_cases; lia.
Qed.
(** The local variables of the construction before tensor [i]: the records that
    can no longer be in use, and those that are. *)
Record build_inv (i : Z) (olds : list Z) (in_use : list QueueRecord) : Prop := {
  bi_old j k r : j ∈ olds → i ≤ k → zget records k = Some r → can_follow j k;
  bi_in_use q : q ∈ in_use → 0 ≤ queue_object_id q < i ∧
    last_task <$> zget records (queue_object_id q) = Some (queue_last_task q)
}.

Lemma order_zget i j a b : zget records i = Some a → zget records j = Some b → i ≤ j →
  first_task a ≤ first_task b.
Proof.
  intros [? Hi]%zget_Some [? Hj]%zget_Some Hij. destruct (decide (i = j)) as [->|Hne]; [by simplify_eq|].
  eapply (fr_order ok (Z.to_nat i) (Z.to_nat j)); [done|done|lia].
Qed.

Lemma build_inv_pop i olds in_use r expired rest : zget records i = Some r →
  pop_expired (first_task r) in_use = (expired, rest) → build_inv i olds in_use →
  (∀ j, j ∈ olds ++ expired → can_follow j i) ∧
  build_inv (i + 1) (olds ++ expired)
    (queue_push {| queue_last_task := last_task r; queue_object_id := i |} rest).
Proof.
  intros Hr (popped & -> & -> & Hpop)%pop_expired_app [Hold Huse].
  pose proof (zget_range _ _ _ Hr) as Hi.
  assert (∀ j k rk, j ∈ olds ++ (queue_object_id <$> popped) → i ≤ k → zget records k = Some rk →
    can_follow j k) as Hall.
  { intros j k rk [Hj|(q & -> & Hq)%list_elem_of_fmap]%elem_of_app Hk Hrk; [by eapply Hold|].
    destruct (Huse q) as [Hj Hlast]; [in_list|]. apply fmap_Some in Hlast as (rj & Hrj & Hlast).
    exists rj, rk. split_and!; [lia|lia|done|done|].
    specialize (Hpop q Hq). pose proof (order_zget i k r rk Hr Hrk Hk). lia. }
  split; [by intros j Hj; eapply Hall|]. split.
  - intros j k rk Hj Hk. apply Hall; [done|lia].
  - intros q. rewrite queue_push_perm, elem_of_cons. intros [->|Hq]; simpl.
    + rewrite Hr. split; [lia|done].
    + destruct (Huse q) as [? ?]; [in_list|]. split; [lia|done].
Qed.

Definition idle (arcs : list arc) : network := (λ a, (a, false)) <$> arcs.

Lemma idle_snoc arcs a : idle arcs ++ [(a, false)] = idle (arcs ++ [a]).
Proof. unfold idle. by rewrite fmap_app. Qed.

Lemma add_tensor_arc i arcs g E a : tensor_arc (i + 1) a →
  0 ≤ i < n → represents num_vertices (idle arcs) g →
  wp (AddEdge (a_src a) (a_dst a) 1 (a_cost a)) (λ _ g', represents num_vertices (idle (arcs ++ [a])) g') E g.
Proof.
  intros Ha Hi Hg.
  assert (∀ r, r ∈ records → is_int32 (- tensor_size r)) as Hsize.
  { intros r Hr. pose proof (size_bound r Hr). pose proof (fr_total ok).
    unfold is_int32, int32_min, int32_max in *. lia. }
  destruct a as [s d c]. rewrite <- idle_snoc. simpl.
  inversion Ha as [j Hj Heq|j Hj Heq|j r Hj Hr Heq|j k rj rk Hj (? & ? & Hjk & _) Hrj Hrk Heq]; subst;
    apply AddEdge_spec; unfold sink_, source_ in *; try done; try lia.
  - apply Hsize. by eapply zget_elem.
  - pose proof (Hsize rk (zget_elem _ _ _ Hrk)). pose proof (size_bound rj (zget_elem _ _ _ Hrj)).
    pose proof (size_bound rk (zget_elem _ _ _ Hrk)).
    unfold reuse_cost, is_int32, int32_min, int32_max in *. destruct (Z.gtb_spec (tensor_size rk) (tensor_size rj)); lia.
Qed.

Lemma build_step_spec i arcs g olds in_use E : 0 ≤ i < n → represents num_vertices (idle arcs) g →
  tensor_network i arcs → build_inv i olds in_use →
  wp (build_step records (olds, in_use) i)
     (λ l g', (∃ arcs', represents num_vertices (idle arcs') g' ∧ tensor_network (i + 1) arcs') ∧
              build_inv (i + 1) l.1 l.2) E g.
Proof.
  intros Hi Hg Hnet Hinv. destruct (zget_is_Some records i) as [r Hr]; [done|].
  unfold build_step. wp_steps. eapply wp_deref; [exact Hr|]. simpl.
  destruct (pop_expired (first_task r) in_use) as [expired rest] eqn:Hpop.
  destruct (build_inv_pop _ _ _ _ _ _ Hr Hpop Hinv) as [Hfollow Hinv'].
  pose proof (tensor_network_step _ _ _ _ Hr Hfollow Hnet) as Hnet'.
  assert (∀ a, a ∈ tensor_block i r (olds ++ expired) → tensor_arc (i + 1) a) as Harc
    by (intros a; by apply tensor_block_arcs).
  rewrite RightPartTwin_id, size_i32 by (done || by eapply zget_elem).
  apply wp_bind. eapply wp_post; [|apply (add_tensor_arc i arcs g E {| a_src := source; a_dst := i; a_cost := 0 |});
    [apply Harc; unfold tensor_block; in_list|done|done]]. simpl. intros _ g1 Hg1.
  apply wp_bind. eapply wp_post; [|eapply (add_tensor_arc i _ g1 E {| a_src := i + n; a_dst := sink; a_cost := 0 |});
    [apply Harc; unfold tensor_block; in_list|done|done]]. simpl. intros _ g2 Hg2.
  apply wp_bind. eapply wp_post; [|eapply (add_tensor_arc i _ g2 E {| a_src := source; a_dst := i + n; a_cost := tensor_size r |});
    [apply Harc; unfold tensor_block; in_list|done|done]]. simpl. intros _ g3 Hg3.
  apply wp_bind. eapply wp_post; [|apply (wp_for_each (λ done g', represents num_vertices
    (idle (arcs ++ tensor_block i r done)) g') E)].
  - simpl. intros _ g4 Hg4. apply wp_ret. eauto.
  - unfold tensor_block. rewrite app_nil_r. rewrite <- !app_assoc in Hg3. exact Hg3.
  - intros done j todo g' Hl Hg'. unfold reuse_edge.
    assert (can_follow j i) as (rj & rk & Hj & Hrj & Hrk & _) by (apply Hfollow; rewrite Hl; in_list).
    wp_steps. eapply wp_deref; [exact Hrj|]. rewrite RightPartTwin_id by done. simplify_eq.
    pose proof (add_tensor_arc i (arcs ++ tensor_block i r done) g' E {| a_src := j; a_dst := i + n; a_cost := reuse_cost r rj |}) as Hadd.
    assert (tensor_block i r (done ++ [j]) =
      tensor_block i r done ++ [{| a_src := j; a_dst := i + n; a_cost := reuse_cost r rj |}]) as ->.
    { unfold tensor_block. rewrite fmap_app, app_assoc. cbn [fmap list_fmap]. by rewrite Hrj. }
    rewrite (app_assoc arcs). unfold reuse_cost in Hadd.
    assert (i32 (tensor_size r - tensor_size rj) = tensor_size r - tensor_size rj) as ->.
    { apply i32_id. pose proof (size_bound rj (zget_elem _ _ _ Hrj)). pose proof (fr_total ok).
      pose proof (size_bound r (zget_elem _ _ _ Hr)). unfold is_int32, int32_min, int32_max in *. lia. }
    apply Hadd; [|done|done]. apply Harc. rewrite Hl. unfold tensor_block.
    rewrite elem_of_app, list_elem_of_fmap. right. exists j. rewrite Hrj. split; [done|in_list].
Qed.

(** [Build] makes the network of all tensors. *)
Lemma Build_spec E : wp (Build records)
  (λ _ g, ∃ arcs, represents num_vertices (idle arcs) g ∧ tensor_network n arcs) E
  {| edges_ := []; edges_from_ := [] |}.
Proof.
  unfold Build. wp_steps. eapply wp_post; [|apply (wp_fold_m (λ done l g',
    (∃ arcs, represents num_vertices (idle arcs) g' ∧ tensor_network (zlen done) arcs) ∧
    build_inv (zlen done) l.1 l.2) E)].
  - simpl. intros l g [Hg _]. apply wp_ret. unfold range in Hg. rewrite length_seqZ in Hg.
    by replace (Z.of_nat (Z.to_nat (n - 0))) with n in Hg by (unfold num_tensors_; lia).
  - split.
    + exists []. split; [|apply tensor_network_start]. split; simpl; [done| |].
      * rewrite length_replicate. unfold sink_, source_, num_tensors_. lia.
      * intros v l [_ Hl]%zget_Some. apply lookup_replicate in Hl as [-> _]. split; [constructor|].
        intros e. split; [by intros He%not_elem_of_nil|]. intros (u & c & b & He%ends_range). simpl in He. lia.
    + split; [intros j k r Hj; by apply not_elem_of_nil in Hj|intros q Hq; by apply not_elem_of_nil in Hq].
  - intros done i todo [olds in_use] g Hl [(arcs & Hg & Hnet) Hinv].
    apply range_split in Hl as [-> Hi]. eapply wp_post; [|by eapply build_step_spec; [lia|..]].
    intros l g'. rewrite length_app. cbn [length]. by rewrite Nat2Z.inj_add.
Qed.
End build.
