(* ===== verification/ShortestPaths.v ===== *)
(** * Shortest paths in the residual network

    [shortest_paths], the queue-based relaxation of [MinCostFlowSolver::Solve].
    With a potential that no residual edge contradicts there is no negative
    cycle, so that the loop ends after at most one round per vertex; the
    distances are then those of shortest paths, the recorded edges form a tree of
    tight edges, and the mixed signed and unsigned arithmetic is exact. *)

From S2P Require Import Prelude UsageRecords ObjectAssignment SharingProofs MinCostFlow FlowNetwork.

(** ** Arithmetic *)

(** [int new_dist = dist[v] + edge.cost], compared as an unsigned number. *)
Lemma new_dist_spec dv c du : 0 ≤ dv < kInf → 0 ≤ dv + c → c < kInf → du ≤ kInf →
  (u64 (i32 (u64 (dv + u64 c))) <? du) = (dv + c <? du) ∧
  (dv + c < du → u64 (i32 (u64 (dv + u64 c))) = dv + c).
Proof.
  unfold kInf, int32_max. intros Hv Hs Hc Hu.
  assert (u64 (dv + u64 c) = dv + c) as ->.
  { unfold u64. rewrite Zplus_mod_idemp_r. apply Z.mod_small. lia. }
  destruct (Z.leb_spec (dv + c) int32_max) as [Hle|Hgt].
  - rewrite i32_id, u64_id; unfold is_int32, is_size, size_max, int32_min, int32_max in *; [done|lia..].
  - unfold int32_max in Hgt. assert (i32 (dv + c) = dv + c - 2 ^ 32) as ->.
    { unfold i32. symmetry. assert ((dv + c + 2 ^ 31) mod 2 ^ 32 = dv + c - 2 ^ 31); [|lia].
      symmetry. apply (Z.mod_unique _ _ 1); lia. }
    assert (u64 (dv + c - 2 ^ 32) = dv + c - 2 ^ 32 + 2 ^ 64) as ->.
    { unfold u64. symmetry. apply (Z.mod_unique _ _ (-1)); lia. }
    split; [|lia]. rewrite !(proj2 (Z.ltb_ge _ _)); lia.
Qed.

Section shortest_paths.
Context (source num_vertices : Z) (net : network) (g : Solver).
Context (w : Z → Z) (W : Z) (R : Z → Prop) (pot : Z → Z).

(** The network, and bounds on its costs. *)
Record bounded_network : Prop := {
  bn_graph : represents num_vertices net g;
  bn_source : 0 ≤ source < num_vertices;
  bn_ends e v u c r : ends net e = Some (v, u, c, r) →
    0 ≤ v < num_vertices ∧ 0 ≤ u < num_vertices ∧ c ≤ w u;
  bn_weight v : 0 ≤ w v;
  bn_total l : NoDup l → (∀ v, v ∈ l → 0 ≤ v < num_vertices) → total (w <$> l) ≤ W;
  bn_max : W < kInf
}.

(** A potential on a part of the vertices that no residual edge leaves. *)
Record potential : Prop := {
  po_source : R source ∧ pot source = 0;
  po_nonneg v : R v → 0 ≤ pot v;
  po_edge v e u c : residual net v e u c → R v → R u ∧ pot u ≤ pot v + c
}.

Hypothesis bounded : bounded_network.
Hypothesis feasible : potential.

(** ** Walks that account for the distances *)

Inductive walked (D : Z → Z) : list Z → Z → Z → Prop :=
| walked_source : D source ≤ 0 → walked D [source] source 0
| walked_step l v d e u c : walked D l v d → residual net v e u c → D u ≤ d + c → u ∉ l →
    walked D (u :: l) u (d + c).

Lemma walked_mono D D' l v d : (∀ x, D' x ≤ D x) → walked D l v d → walked D' l v d.
Proof.
  intros HD. induction 1 as [|l v d e u c _ IH He Hu Hin].
  - apply walked_source. specialize (HD source). lia.
  - eapply walked_step; [done|done| |done]. specialize (HD u). lia.
Qed.

Lemma walked_vertices D l v d : walked D l v d →
  NoDup l ∧ (∀ x, x ∈ l → 0 ≤ x < num_vertices) ∧ v ∈ l ∧ R v ∧ pot v ≤ d ≤ total (w <$> l).
Proof.
  induction 1 as [|l v d e u c _ (Hnd & Hr & Hv & HR & Hp & Ht) He _ Hin].
  - destruct (po_source feasible) as [? ->]. pose proof (bn_weight bounded source).
    split_and!; [apply NoDup_singleton| |by left|done|done|simpl; lia].
    intros x ->%list_elem_of_singleton. apply (bn_source bounded).
  - destruct (po_edge feasible _ _ _ _ He HR) as [? ?].
    destruct (bn_ends bounded _ _ _ _ _ He) as (_ & Hu & Hc).
    split_and!; [by constructor| |by left|done|lia|rewrite fmap_cons, total_cons; lia].
    intros x [->|Hx]%elem_of_cons; auto.
Qed.

Lemma walked_bounds D l v d : walked D l v d → 0 ≤ v < num_vertices ∧ R v ∧ 0 ≤ pot v ≤ d ∧ d ≤ W.
Proof.
  intros (Hnd & Hr & Hv & HR & Hp & Ht)%walked_vertices. split_and!; [by apply Hr|by apply Hr|done| |done|].
  - by apply (po_nonneg feasible).
  - pose proof (bn_total bounded l Hnd Hr). lia.
Qed.

(** The distance of a vertex on the way is at most the cost up to it. *)
Lemma walked_through D l v d x : walked D l v d → x ∈ l → D x + (pot v - pot x) ≤ d.
Proof.
  induction 1 as [|l v d e u c Hw IH He Hu Hin].
  - intros ->%list_elem_of_singleton. lia.
  - intros [->|Hx]%elem_of_cons; [lia|]. specialize (IH Hx).
    destruct (walked_vertices _ _ _ _ Hw) as (_ & _ & _ & HR & _).
    destruct (po_edge feasible _ _ _ _ He HR). lia.
Qed.

Lemma walked_improve D l v e u c : walked D l v (D v) → residual net v e u c → D v + c < D u → u ∉ l.
Proof.
  intros Hw He Hlt Hin. pose proof (walked_through _ _ _ _ u Hw Hin).
  destruct (walked_vertices _ _ _ _ Hw) as (_ & _ & _ & HR & _).
  destruct (po_edge feasible _ _ _ _ He HR). lia.
Qed.

(** ** The tree of the recorded edges *)

Definition tail (e : Z) : Z := match ends net e with Some x => x.1.1.1 | None => 0 end.

Inductive reaches (P : Z → Z) : Z → Prop :=
| reaches_source : reaches P source
| reaches_step v : v ≠ source → reaches P (tail (P v)) → reaches P v.

(** The recorded edge leads to the vertex from one with a distance. *)
Definition recorded (D P : Z → Z) (u : Z) : Prop :=
  ∃ v c, residual net v (P u) u c ∧ D v ≠ kInf ∧ D v + c ≤ D u.

Definition update (f : Z → Z) (u x : Z) : Z → Z := λ v, if decide (v = u) then x else f v.

Lemma recorded_tail D P u : recorded D P u → ∃ c, residual net (tail (P u)) (P u) u c ∧
  D (tail (P u)) ≠ kInf ∧ D (tail (P u)) + c ≤ D u.
Proof. intros (v & c & He & Hv). exists c. unfold tail. unfold residual in *. by rewrite He. Qed.

(** Following the recorded edges either avoids [u] or shows that it is not
    farther than [v]. *)
Lemma reaches_update D P u x v :
  (∀ y, D y ≠ kInf → y ≠ source → recorded D P y) → (∀ y, D y ≠ kInf → R y) →
  reaches P v → D v ≠ kInf → reaches (update P u x) v ∨ D u + (pot v - pot u) ≤ D v.
Proof.
  intros Hrec HR. induction 1 as [|v Hne _ IH]; intros Hv.
  - destruct (decide (u = source)) as [->|Hu]; [right; lia|left; constructor].
  - destruct (decide (v = u)) as [->|Hvu]; [right; lia|].
    destruct (recorded_tail _ _ _ (Hrec v Hv Hne)) as (c & He & Ht & Hc).
    destruct (IH Ht) as [Hr|Hle].
    + left. apply reaches_step; [done|]. unfold update at 2. by rewrite decide_False.
    + right. destruct (po_edge feasible _ _ _ _ He (HR _ Ht)). lia.
Qed.

Lemma reaches_redirect P u x v : reaches (update P u x) u → reaches P v → reaches (update P u x) v.
Proof.
  intros Hu. induction 1 as [|v Hne _ IH]; [constructor|].
  destruct (decide (v = u)) as [->|Hvu]; [done|].
  apply reaches_step; [done|]. unfold update at 2. by rewrite decide_False.
Qed.

Lemma reaches_ext P P' v : (∀ x, P x = P' x) → reaches P v → reaches P' v.
Proof.
  intros HP. induction 1 as [|v Hne _ IH]; [constructor|]. apply reaches_step; [done|]. by rewrite <- HP.
Qed.

(** Distances and recorded edges that fit together. *)
Record tree (D P : Z → Z) : Prop := {
  tr_source : D source = 0;
  tr_walk v : D v ≠ kInf → ∃ l, walked D l v (D v);
  tr_recorded v : D v ≠ kInf → v ≠ source → recorded D P v;
  tr_reaches v : D v ≠ kInf → reaches P v
}.

Lemma tree_bounds D P v : tree D P → D v ≠ kInf → 0 ≤ v < num_vertices ∧ R v ∧ 0 ≤ pot v ≤ D v ∧ D v < kInf.
Proof.
  intros Ht Hv. destruct (tr_walk _ _ Ht v Hv) as (l & Hl%walked_bounds).
  pose proof (bn_max bounded). intuition lia.
Qed.

Lemma tree_le D P v : tree D P → D v ≤ kInf.
Proof.
  intros Ht. destruct (decide (D v = kInf)) as [->|Hv]; [done|].
  pose proof (tree_bounds _ _ _ Ht Hv). lia.
Qed.

(** A shorter way to [u] through [v]. *)
Lemma tree_improve D P D' P' v e u c l : tree D P →
  walked D l v (D v) → residual net v e u c → D v ≠ kInf → D v + c < D u →
  (∀ x, D' x = update D u (D v + c) x) → (∀ x, P' x = update P u e x) →
  tree D' P' ∧ v ≠ u ∧ (∀ x, D' x ≤ D x) ∧ walked D' (u :: l) u (D' u).
Proof.
  intros Ht Hl He Hv Hlt HD HP.
  assert (u ∉ l) as Hul by by eapply walked_improve.
  destruct (walked_vertices _ _ _ _ Hl) as (_ & _ & Hvl & HR & _).
  destruct (po_edge feasible _ _ _ _ He HR) as [HRu Hpot].
  pose proof (tree_bounds _ _ _ Ht Hv) as (_ & _ & Hpv & _).
  pose proof (po_nonneg feasible u HRu) as Hpu.
  assert (v ≠ u) as Hvu by (intros ->; done).
  assert (∀ x, D' x ≤ D x) as Hle.
  { intros x. rewrite HD. unfold update. case_decide as Hx; [subst x; lia|lia]. }
  assert (D' u = D v + c) as HDu by (rewrite HD; unfold update; by rewrite decide_True).
  assert (∀ x, x ≠ u → D' x = D x) as HDx by (intros x Hx; rewrite HD; unfold update; by rewrite decide_False).
  assert (u ≠ source) as Hus by (intros ->; rewrite (tr_source _ _ Ht) in Hlt; lia).
  assert (walked D' (u :: l) u (D' u)) as Hwu.
  { rewrite HDu. eapply walked_step; [by eapply walked_mono|done|lia|done]. }
  assert (∀ x, D' x ≠ kInf → x ≠ u → D x ≠ kInf) as Hfin by (intros x Hx Hxu; by rewrite <- HDx).
  assert (recorded D' P' u) as Hrec.
  { exists v, c. rewrite HP. unfold update. rewrite decide_True by done.
    split; [done|]. rewrite HDu, (HDx v) by done. split; [done|lia]. }
  assert (reaches (update P u e) u) as Hreach.
  { apply reaches_step; [done|]. unfold update at 2. rewrite decide_True by done.
    assert (tail e = v) as -> by (unfold tail; unfold residual in He; by rewrite He).
    destruct (reaches_update D P u e v) as [Hr|Hbad]; [apply Ht|..|exact Hr|exfalso; lia].
    - intros y Hy. by apply (tree_bounds _ _ _ Ht Hy).
    - by apply (tr_reaches _ _ Ht).
    - done. }
  split; [|done]. split.
  - rewrite HDx by done. apply Ht.
  - intros x Hx. destruct (decide (x = u)) as [->|Hxu]; [by eexists|].
    destruct (tr_walk _ _ Ht x (Hfin x Hx Hxu)) as (lx & Hlx). exists lx. rewrite HDx by done.
    by eapply walked_mono.
  - intros x Hx Hxs. destruct (decide (x = u)) as [->|Hxu]; [done|].
    destruct (tr_recorded _ _ Ht x (Hfin x Hx Hxu) Hxs) as (y & cy & Hy & Hfy & Hcy).
    exists y, cy. rewrite HP. unfold update. rewrite decide_False by done. split; [done|].
    rewrite (HDx x) by done. specialize (Hle y).
    destruct (decide (y = u)) as [->|Hyu]; [rewrite HDu in *; split; [|lia]|by rewrite HDx].
    pose proof (tree_le _ _ u Ht). lia.
  - intros x Hx. eapply (reaches_ext (update P u e)); [done|].
    destruct (decide (x = u)) as [->|Hxu]; [done|]. apply reaches_redirect; [done|].
    apply (tr_reaches _ _ Ht). by apply Hfin.
Qed.

(** ** The loop *)

Abbreviation dist p := (vat kInf (path_dist p)).
Abbreviation prev p := (vat 0 (prev_edge p)).
Abbreviation last_it p := (vat 0 (last_it_in_queue p)).

Definition relaxed (D : Z → Z) (v : Z) : Prop :=
  ∀ e u c, residual net v e u c → D u ≤ D v + c.

(** In round [it] the vertices [cur] are still to be visited: those of the queues
    have long walks, and every other vertex with a distance is relaxed. *)
Record spfa (it : Z) (cur : list Z) (p : Paths) : Prop := {
  sp_graph : graph p = g;
  sp_lengths : zlen (path_dist p) = num_vertices ∧ zlen (last_it_in_queue p) = num_vertices ∧
    zlen (prev_edge p) = num_vertices;
  sp_tree : tree (dist p) (prev p);
  sp_cur v : v ∈ cur → dist p v ≠ kInf ∧ ∃ l, walked (dist p) l v (dist p v) ∧ it ≤ zlen l + 1;
  sp_next v : v ∈ next_queue p → dist p v ≠ kInf ∧ ∃ l, walked (dist p) l v (dist p v) ∧ it ≤ zlen l;
  sp_last v : last_it p v ≤ it ∧ (last_it p v = it → v ∈ next_queue p);
  sp_relaxed v : dist p v ≠ kInf → v ∈ cur ∨ v ∈ next_queue p ∨ relaxed (dist p) v
}.

(** An improved [p'] of [p] whose queue got [u] if it was not there. *)
Lemma spfa_improve it cur p p' l v e u c : spfa it cur p →
  walked (dist p) l v (dist p v) → it ≤ zlen l + 1 → dist p v ≠ kInf →
  residual net v e u c → dist p v + c < dist p u →
  graph p' = g → path_dist p' = zset u (dist p v + c) (path_dist p) →
  prev_edge p' = zset u e (prev_edge p) → zlen (last_it_in_queue p') = num_vertices →
  (∀ x, x ∈ next_queue p' ↔ x ∈ next_queue p ∨ x = u) →
  (∀ x, last_it p' x ≤ it ∧ (last_it p' x = it → x ∈ next_queue p')) →
  spfa it cur p' ∧ dist p' v = dist p v ∧ dist p' u = dist p v + c ∧ ∀ x, dist p' x ≤ dist p x.
Proof.
  intros [Hgr (Hl1 & Hl2 & Hl3) Ht Hcur Hnext Hlast Hrel] Hw Hit Hv He Hlt Hg' Hd' Hp' Hl' Hq' Hlast'.
  destruct (bn_ends bounded _ _ _ _ _ He) as (Hvr & Hur & _).
  assert (∀ x, dist p' x = update (dist p) u (dist p v + c) x) as HD.
  { intros x. rewrite Hd'. unfold update. case_decide as Hx; [subst x; apply vat_zset_eq; lia|by apply vat_zset_ne; [lia|]]. }
  assert (∀ x, prev p' x = update (prev p) u e x) as HP.
  { intros x. rewrite Hp'. unfold update. case_decide as Hx; [subst x; apply vat_zset_eq; lia|by apply vat_zset_ne; [lia|]]. }
  destruct (tree_improve _ _ _ _ _ _ _ _ _ Ht Hw He Hv Hlt HD HP) as (Ht' & Hvu & Hle & Hwu).
  assert (dist p' u ≠ kInf) as Hfu.
  { intros Heq. pose proof (tree_le _ _ u Ht). rewrite HD in Heq. unfold update in Heq.
    rewrite decide_True in Heq by done. lia. }
  assert (∀ x, x ≠ u → dist p' x = dist p x) as Hx by (intros x Hx; rewrite HD; unfold update; by rewrite decide_False).
  assert (∀ k x, k ≤ it → dist p x ≠ kInf ∧ (∃ l, walked (dist p) l x (dist p x) ∧ k ≤ zlen l) →
    dist p' x ≠ kInf ∧ ∃ l, walked (dist p') l x (dist p' x) ∧ k ≤ zlen l) as Hlong.
  { intros k x Hk [Hf (lx & Hlx & Hklx)]. destruct (decide (x = u)) as [->|Hxu].
    - split; [done|]. exists (u :: l). split; [done|]. cbn [length]. lia.
    - rewrite (Hx x Hxu). split; [done|]. exists lx. split; [by eapply walked_mono|done]. }
  split; [split|].
  - done.
  - by rewrite Hd', Hp', !zset_length.
  - done.
  - intros x Hxc. destruct (Hcur x Hxc) as [Hf (lx & Hlx & Hilx)].
    destruct (Hlong (it - 1) x) as [? (l' & ? & ?)]; [lia| |].
    + split; [done|]. exists lx. split; [done|lia].
    + split; [done|]. exists l'. split; [done|lia].
  - intros x [Hxn| ->]%Hq'; [apply Hlong; [lia|by apply Hnext]|].
    split; [done|]. exists (u :: l). split; [done|]. cbn [length]. lia.
  - done.
  - intros x Hfx. rewrite Hq'. destruct (decide (x = u)) as [->|Hxu]; [tauto|].
    rewrite Hx in Hfx by done. destruct (Hrel x Hfx) as [?|[?|Hr]]; [tauto..|]. right; right.
    intros e' y c' He'. specialize (Hr e' y c' He'). specialize (Hle y). rewrite (Hx x) by done. lia.
  - split; [by apply Hx|]. split; [|done]. rewrite HD. unfold update. by rewrite decide_True.
Qed.

(** Relaxing one edge of a vertex [v] that is being visited. *)
Lemma relax_spec it cur p v e u c r E : spfa it cur p → v ∈ cur → 0 < it →
  ends net e = Some (v, u, c, r) →
  wp (relax it v e) (λ _ p', spfa it cur p' ∧ dist p' v = dist p v ∧
    (r = true → dist p' u ≤ dist p' v + c) ∧ ∀ x, dist p' x ≤ dist p x) E p.
Proof.
  intros Hsp Hv Hit He. destruct (bn_ends bounded _ _ _ _ _ He) as (Hvr & Hur & Hc).
  pose proof Hsp as [Hgr (Hl1 & Hl2 & Hl3) Ht Hcur Hnext Hlast Hrel].
  destruct (Hcur v Hv) as [Hf (l & Hw & Hl)].
  assert (∀ x, 0 ≤ x < num_vertices → zget (path_dist p) x = Some (dist p x)) as Hget
    by (intros x Hx; apply vat_zget; lia).
  unfold relax. wp_steps. eapply wp_vget_Some.
  { rewrite Hgr. eapply rp_edge; [apply (bn_graph bounded)|exact He]. }
  simpl. destruct r; simpl; [|by wp_steps].
  wp_steps. eapply wp_vget_Some; [by apply Hget|]. wp_steps. eapply wp_vget_Some; [by apply Hget|].
  pose proof (tree_bounds _ _ _ Ht Hf) as (_ & HR & Hpv & Hfin).
  destruct (po_edge feasible _ _ _ _ He HR) as [HRu Hpot].
  pose proof (po_nonneg feasible u HRu) as Hpu. pose proof (bn_max bounded) as HW.
  pose proof (bn_total bounded [u] (NoDup_singleton _) ltac:(intros x ->%list_elem_of_singleton; done)) as Hwu.
  simpl in Hwu.
  destruct (new_dist_spec (dist p v) c (dist p u)) as [Hcmp Hval];
    [lia|lia|lia|by eapply tree_le|]. rewrite Hcmp.
  destruct (Z.ltb_spec (dist p v + c) (dist p u)) as [Hlt|Hge]; [|wp_steps; split_and!; [done|done|intros _; lia|done]].
  rewrite (Hval Hlt). eapply wp_bind, wp_vset_Some; [by apply Hget|]. simpl.
  eapply wp_bind, wp_vset_Some; [apply (vat_zget 0); simpl; lia|]. simpl.
  apply wp_bind. eapply wp_vget_Some; [apply (vat_zget 0); simpl; lia|]. simpl.
  assert (∀ p', spfa it cur p' ∧ dist p' v = dist p v ∧ dist p' u = dist p v + c ∧ (∀ x, dist p' x ≤ dist p x) →
    spfa it cur p' ∧ dist p' v = dist p v ∧ (true = true → dist p' u ≤ dist p' v + c) ∧
    (∀ x, dist p' x ≤ dist p x)) as Hdone.
  { intros p' (H1 & H2 & H3 & H4). split_and!; [done|done|intros _; lia|done]. }
  destruct (Z.eqb_spec (last_it p u) it) as [Heq|Hne]; simpl.
  - wp_steps. apply Hdone. eapply (spfa_improve it cur p _ l v e u c); eauto; simpl.
    + intros x. split; [by left|]. intros [?| ->]; [done|]. by apply Hlast.
  - wp_steps. eapply wp_vset_Some; [apply (vat_zget 0); simpl; lia|].
    apply Hdone. eapply (spfa_improve it cur p _ l v e u c); eauto; simpl.
    + by rewrite zset_length.
    + intros x. rewrite elem_of_app, list_elem_of_singleton. done.
    + intros x. destruct (decide (x = u)) as [->|Hx].
      * rewrite vat_zset_eq by lia. split; [lia|]. intros _. in_list.
      * rewrite vat_zset_ne by (done || lia). destruct (Hlast x) as [? Hn]. split; [done|].
        intros Hx'. apply elem_of_app. left. by apply Hn.
Qed.

(** Visiting a vertex relaxes it. *)
Lemma visit_spec it v todo p E : spfa it (v :: todo) p → 0 < it →
  wp (out ← vget (λ p, edges_from_ (graph p)) v; for_each out (relax it v)) (λ _ p', spfa it todo p') E p.
Proof.
  intros Hsp Hit. destruct (sp_cur _ _ _ Hsp v) as [Hf (l & Hw & _)]; [by left|].
  destruct (walked_bounds _ _ _ _ Hw) as [Hv _].
  destruct (rp_out _ _ _ v (bn_graph bounded) Hv) as (out & Hout & _ & Hin).
  apply wp_bind. eapply wp_vget_Some; [by rewrite (sp_graph _ _ _ Hsp)|].
  eapply wp_post; [|apply (wp_for_each (λ done p', spfa it (v :: todo) p' ∧
    ∀ e u c, e ∈ done → residual net v e u c → dist p' u ≤ dist p' v + c) E)].
  - simpl. intros _ p' [[Hgr Hlen Ht Hcur Hnext Hlast Hrel] Hdone]. split; [done..| |done|done|].
    + intros x Hx. apply Hcur. by right.
    + intros x Hx. destruct (Hrel x Hx) as [[->|?]%elem_of_cons|?]; [|tauto..].
      right; right. intros e u c He. apply (Hdone e); [|done]. apply Hin. eauto.
  - split; [done|]. intros e u c He. by apply not_elem_of_nil in He.
  - intros done e todo' p' Hl [Hsp' Hdone].
    assert (∃ u c r, ends net e = Some (v, u, c, r)) as (u & c & r & He) by (apply Hin; rewrite Hl; in_list).
    eapply wp_post; [|by eapply relax_spec; [|left|..]].
    intros _ p'' (Hsp'' & Hsame & Hr & Hle). split; [done|].
    intros e' u' c' [He'| ->%list_elem_of_singleton]%elem_of_app Hres.
    + specialize (Hdone e' u' c' He' Hres). specialize (Hle u'). lia.
    + unfold residual in Hres. simplify_eq. by apply Hr.
Qed.

Lemma relax_round_spec it cur p E : spfa it cur p → 0 < it →
  wp (relax_round it cur) (λ _ p', spfa it [] p') E p.
Proof.
  intros Hsp Hit. unfold relax_round.
  eapply wp_post; [|apply (wp_for_each (λ done p', ∀ todo, cur = done ++ todo → spfa it todo p') E)].
  - simpl. intros _ p' H. apply H. by rewrite app_nil_r.
  - intros todo Hl. simpl in Hl. by rewrite <- Hl.
  - intros done v todo p' Hl H. eapply wp_post; [|apply (visit_spec it v todo p'); [by apply H|done]].
    simpl. intros _ p'' Hsp' todo' Hl'. rewrite Hl, <- app_assoc in Hl'.
    apply app_inv_head in Hl'. injection Hl' as Htodo. by rewrite <- Htodo.
Qed.

Lemma vertices_length l : NoDup l → (∀ v, v ∈ l → 0 ≤ v < num_vertices) → zlen l ≤ num_vertices.
Proof.
  intros Hnd Hl. pose proof (bn_source bounded).
  assert (l ⊆+ range 0 num_vertices) as Hsub.
  { apply NoDup_submseteq; [done|]. intros v Hv. apply elem_of_range. by apply Hl. }
  apply submseteq_length in Hsub. unfold range in Hsub. rewrite length_seqZ in Hsub. lia.
Qed.

(** What the search leaves. *)
Record settled (p : Paths) : Prop := {
  st_graph : graph p = g;
  st_length : zlen (prev_edge p) = num_vertices;
  st_dist_length : zlen (path_dist p) = num_vertices;
  st_tree : tree (dist p) (prev p);
  st_relaxed v : dist p v ≠ kInf → relaxed (dist p) v
}.

Lemma shortest_paths_loop fuel it cur p E : spfa (it + 1) cur p → next_queue p = [] → 0 ≤ it →
  num_vertices < Z.of_nat fuel + it → wp (shortest_paths fuel it cur) (λ _ p', settled p') E p.
Proof.
  revert it cur p. induction fuel as [|fuel IH]; intros it cur p Hsp Hq Hit Hfuel.
  - destruct cur as [|v cur].
    + apply wp_ret. destruct Hsp as [? (? & ? & ?) ? ? ? ? Hrel]. split; [done..|].
      intros v Hv. destruct (Hrel v Hv) as [Hn|[Hn|?]]; [by apply not_elem_of_nil in Hn|..|done].
      rewrite Hq in Hn. by apply not_elem_of_nil in Hn.
    + exfalso. destruct (sp_cur _ _ _ Hsp v) as [_ (l & Hw & Hl)]; [by left|].
      destruct (walked_vertices _ _ _ _ Hw) as (Hnd & Hr & _). pose proof (vertices_length l Hnd Hr). lia.
  - destruct cur as [|v cur].
    + apply wp_ret. destruct Hsp as [? (? & ? & ?) ? ? ? ? Hrel]. split; [done..|].
      intros v Hv. destruct (Hrel v Hv) as [Hn|[Hn|?]]; [by apply not_elem_of_nil in Hn|..|done].
      rewrite Hq in Hn. by apply not_elem_of_nil in Hn.
    + cbn [shortest_paths]. apply wp_bind. eapply wp_post; [|apply relax_round_spec; [done|lia]].
      intros _ p' [Hgr Hlen Ht Hcur Hnext Hlast Hrel]. wp_steps. apply IH; [|done|lia|lia]. split; simpl.
      * done.
      * done.
      * done.
      * intros x Hx. destruct (Hnext x Hx) as [? (l & ? & ?)]. split; [done|]. exists l. split; [done|lia].
      * intros x Hx. by apply not_elem_of_nil in Hx.
      * intros x. destruct (Hlast x) as [? _]. split; [lia|]. intros Heq. lia.
      * intros x Hx. destruct (Hrel x Hx) as [Hn|[?|?]]; [by apply not_elem_of_nil in Hn|tauto..].
Qed.

(** The search ends within one round per vertex and settles the distances. *)
Lemma shortest_paths_spec prev_list E : zlen prev_list = num_vertices →
  wp (shortest_paths (S (Z.to_nat num_vertices)) 1 [source]) (λ _ p', settled p') E
    {| graph := g; next_queue := [];
       last_it_in_queue := zset source 1 (replicate (Z.to_nat num_vertices) 0);
       path_dist := zset source 0 (replicate (Z.to_nat num_vertices) kInf);
       prev_edge := prev_list |}.
Proof.
  intros Hlen. pose proof (bn_source bounded) as Hs. apply shortest_paths_loop; [|done|lia|lia].
  assert (∀ x, vat kInf (zset source 0 (replicate (Z.to_nat num_vertices) kInf)) x =
    if decide (x = source) then 0 else kInf) as HD.
  { intros x. case_decide as Hx.
    - subst x. apply vat_zset_eq. rewrite length_replicate. lia.
    - rewrite vat_zset_ne by (done || lia). apply vat_replicate. }
  assert (∀ D : Z → Z, D source = 0 → walked D [source] source 0) as Hw by (intros D HD0; constructor; lia).
  split; simpl.
  - done.
  - rewrite !zset_length, !length_replicate. lia.
  - split.
    + by rewrite HD, decide_True.
    + intros v. rewrite HD. case_decide as Hv; [|done]. intros _. exists [source]. subst v. apply Hw. by rewrite HD, decide_True.
    + intros v. rewrite HD. by case_decide.
    + intros v. rewrite HD. case_decide as Hv; [|done]. intros _. subst v. constructor.
  - intros v ->%list_elem_of_singleton. rewrite HD, decide_True by done. split; [done|].
    exists [source]. split; [|done]. apply Hw. by rewrite HD, decide_True.
  - intros v Hv. by apply not_elem_of_nil in Hv.
  - intros v. destruct (decide (v = source)) as [->|Hne].
    + rewrite vat_zset_eq by (rewrite length_replicate; lia). lia.
    + rewrite vat_zset_ne, vat_replicate by (done || lia). lia.
  - intros v. rewrite HD. case_decide as Hv; [|done]. intros _. left. subst v. by left.
Qed.
End shortest_paths.
