(* ===== verification/MinCostFlowProofs.v ===== *)
(** * The minimum-cost flow strategy is correct

    [Solve] ends with a flow that fills every tensor's vertex, after at most one
    augmentation per tensor, and the assignment read off the flow shares objects
    safely. *)

From S2P Require Import Prelude UsageRecords ObjectAssignment SharingProofs MinCostFlow MemoryProofs.
From S2P Require Import FlowNetwork ShortestPaths.

(** ** Generic *)

Lemma total_zero l : (∀ x, x ∈ l → x = 0) → total l = 0.
Proof.
  induction l as [|x l IH]; intros Hl; simpl; [done|]. rewrite (Hl x) by by left.
  apply IH. intros y Hy. apply Hl. by right.
Qed.

Lemma count_pos_inv {A} (f : A → bool) l : 0 < count f l → ∃ x, x ∈ l ∧ f x = true.
Proof.
  induction l as [|x l IH]; [done|]. rewrite count_cons. destruct (f x) eqn:Hf; [intros _; exists x; split; [by left|done]|].
  intros Hl. destruct IH as (y & ? & ?); [lia|]. exists y. split; [by right|done].
Qed.

(** ** Toggling in the representation *)

Lemma zget_ext {A} (l k : list A) : (∀ i, 0 ≤ i → zget l i = zget k i) → l = k.
Proof.
  intros H. apply list_eq. intros i. specialize (H (Z.of_nat i) ltac:(lia)). unfold zget in H.
  rewrite (proj2 (Z.leb_le 0 _)), Nat2Z.id in H by lia. done.
Qed.

Lemma toggle_edges net t e h c : residual net t e h c →
  zset (Z.lxor e 1) {| dst := t; cap := 1; cost := - c |}
    (zset e {| dst := h; cap := 0; cost := c |} (edge_list net)) = edge_list (toggle net e).
Proof.
  intros He. pose proof (ends_range _ _ _ He) as Hr.
  assert (ends net (Z.lxor e 1) = Some (h, t, - c, false)) as Hrev by by rewrite ends_reverse, He by lia.
  pose proof (ends_range _ _ _ Hrev) as Hr'. pose proof (length_edge_list net) as Hlen.
  assert (Z.lxor e 1 ≠ e) as Hne by (intros Heq; unfold residual in He; rewrite Heq in Hrev; congruence).
  apply zget_ext. intros i Hi. rewrite edge_list_zget, ends_toggle by lia. case_decide as Hh.
  - apply half_eq in Hh as [->| ->]; [|..|lia].
    + rewrite zget_zset_ne, zget_zset_eq by (done || lia). unfold residual in He. by rewrite He.
    + rewrite zget_zset_eq by (rewrite zset_length; lia). by rewrite Hrev.
  - assert (¬ (i = e ∨ i = Z.lxor e 1)) as Hno by (by rewrite <- half_eq by lia).
    rewrite !zget_zset_ne, edge_list_zget by (tauto || lia). done.
Qed.

Lemma represents_toggle nv net g t e h c : represents nv net g → residual net t e h c →
  represents nv (toggle net e)
    (set_edges (zset (Z.lxor e 1) {| dst := t; cap := 1; cost := - c |}
      (zset e {| dst := h; cap := 0; cost := c |} (edges_ g))) g).
Proof.
  intros [He Hv Hf] Hres. pose proof (ends_range _ _ _ Hres) as Hr. split; simpl.
  - by rewrite He, (toggle_edges _ _ _ _ _ Hres).
  - done.
  - intros v l Hl. destruct (Hf v l Hl) as [Hnd Hin]. split; [done|]. intros e'. rewrite Hin, ends_toggle by lia.
    case_decide; [|done]. split.
    + intros (u & c' & r & ->). simpl. eauto.
    + intros (u & c' & r & ([[[v0 u0] c0] r0] & -> & [= -> -> -> _])%fmap_Some). eauto.
Qed.

(** ** Augmenting along the recorded edges *)

Section augment.
Context (source nv : Z) (D P : Z → Z).

(** The recorded edges from [u] back to the source: distinct vertices, tight
    residual edges. *)
Inductive branch (net : network) : list Z → Z → Prop :=
| branch_source : D source ≠ kInf → branch net [source] source
| branch_step l v u c : branch net l v → u ∉ l → u ≠ source → residual net v (P u) u c →
    D u = D v + c → D u ≠ kInf → branch net (u :: l) u.

Lemma branch_toggle net l v t e h c : branch net l v → residual net t e h c → h ∉ l →
  branch (toggle net e) l v.
Proof.
  intros Hb He. induction Hb as [|l v u c' _ IH Hul Hus Hres Htight Hfin]; intros Hh; [by constructor|].
  apply not_elem_of_cons in Hh as [Hhu Hh]. eapply branch_step; [by apply IH|done|done| |done|done].
  apply (residual_toggle _ _ _ _ _ _ _ _ _ He). left. split; [done|]. intros Heq.
  unfold residual in *. rewrite Heq in Hres. congruence.
Qed.

Definition feasible (net : network) : Prop := ∀ v e u c,
  residual net v e u c → D v ≠ kInf → D u ≠ kInf ∧ D u ≤ D v + c.

Lemma feasible_toggle net t e h c : feasible net → residual net t e h c →
  D h = D t + c → D t ≠ kInf → feasible (toggle net e).
Proof.
  intros Hf He Htight Hfin v e' u c' [[Hres _]|(_ & -> & -> & ->)]%(residual_toggle _ _ _ _ _ _ _ _ _ He).
  - by apply (Hf v e').
  - intros _. split; [done|lia].
Qed.

Lemma branch_finite net l v : branch net l v → D v ≠ kInf.
Proof. by destruct 1. Qed.

Lemma augment_spec records fuel prev l v net g E : source = source_ records →
  (∀ u, u ∈ l → u ≠ source → zget prev u = Some (P u)) →
  branch net l v → feasible net → represents nv net g → (length l ≤ S fuel)%nat →
  wp (augment records fuel prev v) (λ _ g', ∃ net', represents nv net' g' ∧ net'.*1 = net.*1 ∧
      feasible net' ∧ ∀ x, excess net' x = excess net x + one (v =? x) - one (source =? x)) E g.
Proof.
  intros Hsource. revert l v net g.
  induction fuel as [|fuel IH]; intros l v net g Hprev Hb Hf Hg Hlen;
    cbn [augment]; rewrite <- Hsource; destruct Hb as [Hfin|l v u c Hb Hul Hus Hres Htight Hfin].
  1,3: rewrite Z.eqb_refl; apply wp_ret; exists net; split_and!; [done..|]; intros x; lia.
  { exfalso. cbn [length] in Hlen. destruct Hb; simpl in Hlen; lia. }
  rewrite (proj2 (Z.eqb_neq u source)) by done.
  apply wp_bind. eapply wp_deref; [by apply Hprev; [left|]|].
  apply wp_bind. eapply wp_vget_Some; [by eapply rp_edge|]. simpl.
  apply wp_bind. eapply wp_vset_Some; [by eapply rp_edge|]. unfold set_cap. simpl.
  pose proof (ends_range _ _ _ Hres) as Hr.
  assert (ends net (Z.lxor (P u) 1) = Some (u, v, - c, false)) as Hrev by by rewrite ends_reverse, Hres by lia.
  assert (Z.lxor (P u) 1 ≠ P u) as Hne by (intros Heq; unfold residual in Hres; rewrite Heq in Hrev; congruence).
  assert (zget (zset (P u) {| dst := u; cap := 0; cost := c |} (edges_ g)) (Z.lxor (P u) 1) =
    Some {| dst := v; cap := 0; cost := - c |}) as Hget.
  { rewrite zget_zset_ne by (done || lia). by eapply rp_edge in Hrev. }
  apply wp_bind. eapply wp_vget_Some; [exact Hget|]. simpl.
  apply wp_bind. eapply wp_vset_Some; [exact Hget|]. simpl.
  eapply wp_post; [|apply (IH l v (toggle net (P u)))].
  - simpl. intros _ g' (net' & Hg' & Harcs & Hf' & Hex). exists net'. split_and!; [done| |done|].
    + by rewrite Harcs, toggle_arcs.
    + intros x. rewrite Hex, (excess_toggle _ _ _ _ _ _ Hres). lia.
  - intros x Hx. apply Hprev. by right.
  - by eapply branch_toggle.
  - eapply feasible_toggle; [done|done|done|by eapply branch_finite].
  - exact (represents_toggle _ _ _ _ _ _ _ Hg Hres).
  - cbn [length] in Hlen. lia.
Qed.
End augment.

(** *** The branch that a settled search leaves *)

Section search_tree.
Context (source nv : Z) (net : network) (g : Solver) (w : Z → Z) (W : Z) (R : Z → Prop) (pot : Z → Z).
Hypothesis bounded : bounded_network source nv net g w W.
Hypothesis feas : potential source net R pot.
Context (p : Paths).
Hypothesis done : settled source nv net g p.

Abbreviation D := (vat kInf (path_dist p)).
Abbreviation P := (vat 0 (prev_edge p)).

Lemma walked_finite l v d : walked source net D l v d → ∀ x, x ∈ l → D x ≤ W.
Proof.
  intros Hw. induction Hw as [H0|l v d e u c Hw IH He Hu Hin].
  - intros x ->%list_elem_of_singleton. pose proof (bn_total _ _ _ _ _ _ bounded [] (NoDup_nil_2) ltac:(intros ? []%not_elem_of_nil)).
    simpl in *. lia.
  - intros x [->|Hx]%elem_of_cons; [|by apply IH].
    assert (walked source net D (u :: l) u (d + c)) as Hw' by by econstructor.
    eapply walked_bounds in Hw'; [|done..]. lia.
Qed.

Lemma settled_closed v e u c : residual net v e u c → D v ≠ kInf → D u ≠ kInf ∧ D u ≤ D v + c.
Proof.
  intros He Hv. pose proof (st_relaxed _ _ _ _ _ done v Hv e u c He) as Hle. split; [|done].
  destruct (tr_walk _ _ _ _ (st_tree _ _ _ _ _ done) v Hv) as (l & Hl).
  pose proof (bn_max _ _ _ _ _ _ bounded). destruct (decide (u ∈ l)) as [Hin|Hin].
  - pose proof (walked_finite _ _ _ Hl u Hin). lia.
  - assert (walked source net D (u :: l) u (D v + c)) as Hw' by by econstructor.
    eapply walked_bounds in Hw'; [|done..]. lia.
Qed.

Lemma settled_tight u : D u ≠ kInf → u ≠ source → ∃ v c,
  v = tail net (P u) ∧ residual net v (P u) u c ∧ D u = D v + c ∧ D v ≠ kInf.
Proof.
  intros Hu Hs. destruct (tr_recorded _ _ _ _ (st_tree _ _ _ _ _ done) u Hu Hs) as (v & c & He & Hv & Hle).
  exists v, c. split_and!; [unfold tail; unfold residual in He; by rewrite He|done| |done].
  pose proof (st_relaxed _ _ _ _ _ done v Hv _ _ _ He). lia.
Qed.

Abbreviation branch := (branch source D P net).

Lemma branch_unique l l' v : branch l v → branch l' v → l = l'.
Proof.
  intros Hb. revert l'. induction Hb as [H0|l v u c Hb IH Hul Hus He _ _]; intros l' Hb'; inversion Hb'; subst; try done.
  f_equal. apply IH. unfold residual in *. by simplify_eq.
Qed.

Lemma branch_part l v x : branch l v → x ∈ l → ∃ l', branch l' x ∧ (length l' ≤ length l)%nat.
Proof.
  induction 1 as [H0|l v u c Hb IH Hul Hus He Ht Hu].
  - intros ->%list_elem_of_singleton. exists [source]. by split; [constructor|].
  - intros [->|Hx]%elem_of_cons; [exists (u :: l); split; [by econstructor|done]|].
    destruct (IH Hx) as (l' & ? & ?). exists l'. split; [done|]. simpl. lia.
Qed.

Lemma branch_exists v : reaches source net P v → D v ≠ kInf → ∃ l, branch l v.
Proof.
  induction 1 as [|v Hne _ IH]; intros Hv; [exists [source]; by constructor|].
  destruct (settled_tight v Hv Hne) as (t & c & -> & He & Ht & Hft).
  destruct (IH Hft) as (l & Hl). exists (v :: l). eapply branch_step; [done| |done..].
  intros Hin. destruct (branch_part _ _ _ Hl Hin) as (lv & Hlv & Hlen).
  inversion Hlv as [|l' t' u c' Hb' _ _ He' _ _]; subst; [done|].
  unfold residual in *. simplify_eq. pose proof (branch_unique _ _ _ Hl Hb') as ->. simpl in Hlen. lia.
Qed.

Lemma branch_vertices l v : branch l v → NoDup l ∧ (∀ x, x ∈ l → 0 ≤ x < nv).
Proof.
  induction 1 as [H0|l v u c Hb [Hnd Hr] Hul Hus He Ht Hu].
  - split; [apply NoDup_singleton|]. intros x ->%list_elem_of_singleton. apply bounded.
  - split; [by constructor|]. intros x [->|Hx]%elem_of_cons; [|by apply Hr].
    by apply (bn_ends _ _ _ _ _ _ bounded _ _ _ _ _ He).
Qed.
End search_tree.

(** ** The loop of [Solve] *)

Section solve.
Context (records : list (TensorUsageRecord Z)).
Hypothesis ok : flow_records records.
Abbreviation n := (num_tensors_ records).
Abbreviation source := (source_ records).
Abbreviation sink := (sink_ records).
Abbreviation num_vertices := (sink_ records + 1).

Context (arcs : list arc).
Hypothesis Harcs : tensor_network records n arcs.

(** The size of the tensor behind a vertex of the right part. *)
Definition weight (v : Z) : Z :=
  if decide (n ≤ v < source) then from_option tensor_size 0 (zget records (v - n)) else 0.

Lemma weight_right i r : zget records i = Some r → weight (i + n) = tensor_size r.
Proof.
  intros Hr. pose proof (zget_range _ _ _ Hr). unfold weight, source_, num_tensors_ in *.
  rewrite decide_True by lia. by replace (i + zlen records - zlen records) with i by lia; rewrite Hr.
Qed.

Lemma weight_nonneg v : 0 ≤ weight v.
Proof.
  unfold weight. case_decide; [|done]. destruct (zget records (v - n)) as [r|] eqn:Hr; simpl; [|done].
  by apply (size_bound _ ok r), (zget_elem _ _ _ Hr).
Qed.

Lemma weight_total l : NoDup l → (∀ v, v ∈ l → 0 ≤ v < num_vertices) →
  total (weight <$> l) ≤ total (tensor_size <$> records).
Proof.
  intros Hnd Hl. assert (0 ≤ n) as Hn by (unfold num_tensors_; lia).
  assert (l ⊆+ range 0 num_vertices) as Hsub.
  { apply NoDup_submseteq; [done|]. intros v Hv. apply elem_of_range. by apply Hl. }
  apply (fmap_submseteq weight) in Hsub. apply total_submseteq in Hsub.
  2:{ intros x (v & -> & _)%list_elem_of_fmap. apply weight_nonneg. }
  assert (total (weight <$> range 0 num_vertices) = total (tensor_size <$> records)) as Heq; [|lia].
  rewrite (range_app 0 n), (range_app n source), !fmap_app, !total_app by (unfold sink_, source_; lia).
  rewrite (total_zero (weight <$> range 0 n)), (total_zero (weight <$> range source num_vertices)).
  - rewrite Z.add_0_l, Z.add_0_r.
    assert (weight <$> range n source = tensor_size <$> records) as ->; [|done]. apply list_eq. intros i. rewrite !list_lookup_fmap.
    destruct (decide (i < length records)%nat) as [Hi|Hi].
    + destruct (lookup_lt_is_Some_2 records i Hi) as [r Hr]. rewrite Hr.
      assert (range n source !! i = Some (Z.of_nat i + n)) as ->.
      { unfold range. apply lookup_seqZ. unfold source_, num_tensors_. lia. }
      simpl. f_equal. apply weight_right. by apply vget_nat.
    + rewrite (lookup_ge_None_2 records) by lia. unfold range. rewrite lookup_seqZ_ge; [done|].
      unfold source_, num_tensors_. lia.
  - intros x (v & -> & Hv%elem_of_range)%list_elem_of_fmap. unfold weight. by rewrite decide_False by lia.
  - intros x (v & -> & Hv%elem_of_range)%list_elem_of_fmap. unfold weight. by rewrite decide_False by lia.
Qed.

(** *** Bounds of the network *)

Lemma ends_arc net e v u c r : net.*1 = arcs → ends net e = Some (v, u, c, r) →
  ∃ a f, zget net (e / 2) = Some (a, f) ∧ tensor_arc records n a ∧
    (Z.even e = true ∧ v = a_src a ∧ u = a_dst a ∧ c = a_cost a ∧ r = negb f ∨
     Z.even e = false ∧ v = a_dst a ∧ u = a_src a ∧ c = - a_cost a ∧ r = f).
Proof.
  intros Hnet He. unfold ends in He. apply bind_Some in He as ([a f] & Ha & He). exists a, f.
  split; [done|]. split.
  - apply (tn_arcs _ _ _ Harcs). rewrite <- Hnet. apply list_elem_of_fmap. exists (a, f).
    split; [done|]. by eapply zget_elem.
  - destruct (Z.even e); simpl in He; simplify_eq; [left|right]; done.
Qed.

Lemma tensor_arc_bounds a : tensor_arc records n a →
  0 ≤ a_src a < num_vertices ∧ 0 ≤ a_dst a < num_vertices ∧ 0 ≤ a_cost a ≤ weight (a_dst a).
Proof.
  intros [i Hi|i Hi|i r Hi Hr|j i rj ri Hi (? & ? & Hji & _) Hrj Hri]; unfold sink_, source_ in *; simpl.
  - pose proof (weight_nonneg i). lia.
  - pose proof (weight_nonneg (2 * n + 1)). lia.
  - rewrite (weight_right _ _ Hr). pose proof (size_bound _ ok r (zget_elem _ _ _ Hr)). lia.
  - rewrite (weight_right _ _ Hri). pose proof (size_bound _ ok ri (zget_elem _ _ _ Hri)).
    pose proof (size_bound _ ok rj (zget_elem _ _ _ Hrj)). unfold reuse_cost.
    destruct (Z.gtb_spec (tensor_size ri) (tensor_size rj)); lia.
Qed.

Lemma solver_bounded net g : represents num_vertices net g → net.*1 = arcs →
  bounded_network source num_vertices net g weight (total (tensor_size <$> records)).
Proof.
  intros Hg Hnet. split.
  - done.
  - unfold sink_, source_, num_tensors_. lia.
  - intros e v u c r He. destruct (ends_arc _ _ _ _ _ _ Hnet He) as (a & f & _ & Ha & Hends).
    destruct (tensor_arc_bounds a Ha) as (? & ? & ? & ?). pose proof (weight_nonneg (a_src a)).
    destruct Hends as [(_ & -> & -> & -> & _)|(_ & -> & -> & -> & _)]; lia.
  - apply weight_nonneg.
  - apply weight_total.
  - apply (fr_total _ ok).
Qed.

(** *** The loop *)

(** A flow of value [k], without a residual cycle of negative cost. *)
Record flowing (net : network) (k : Z) : Prop := {
  fl_arcs : net.*1 = arcs;
  fl_excess v : 0 ≤ v < source → excess net v = 0;
  fl_value : excess net sink = k;
  fl_potential : ∃ R pot, potential source net R pot
}.

(** A cut that no residual edge crosses. *)
Definition cut (net : network) : Prop := ∃ R : Z → Prop,
  R source ∧ ¬ R sink ∧ ∀ v e u c, residual net v e u c → R v → R u.

Lemma inflow_le net v : net.*1 = arcs → inflow net v ≤ count (λ a, a_dst a =? v) arcs.
Proof.
  intros <-. rewrite count_fmap. apply count_le. intros [a f] _. unfold is_dst. simpl.
  by intros [_ ?]%andb_prop.
Qed.

Lemma outflow_le net v : net.*1 = arcs → outflow net v ≤ count (λ a, a_src a =? v) arcs.
Proof.
  intros <-. rewrite count_fmap. apply count_le. intros [a f] _. unfold is_src. simpl.
  by intros [_ ?]%andb_prop.
Qed.

Lemma flow_value_le net k : flowing net k → k ≤ n.
Proof.
  intros [Hnet _ <- _]. pose proof (inflow_le net sink Hnet) as Hin.
  rewrite (tn_sink _ _ _ Harcs) in Hin. unfold excess, outflow. pose proof (count_bound (is_src sink) net). lia.
Qed.

Lemma idle_flowing : flowing (idle arcs) 0.
Proof.
  assert (∀ v, excess (idle arcs) v = 0) as Hex.
  { intros v. unfold excess, inflow, outflow, idle. rewrite !count_fmap, !count_none; done. }
  split; [|done|done|].
  - unfold idle. rewrite <- list_fmap_compose. apply list_fmap_id.
  - exists (λ _, True), (λ _, 0). split; [done|done|]. intros v e u c He _. split; [done|].
    unfold residual, ends, idle in He. apply bind_Some in He as ([a f] & Ha & He).
    apply zget_elem, list_elem_of_fmap in Ha as (a' & [= -> ->] & Ha).
    apply (tn_arcs _ _ _ Harcs), tensor_arc_bounds in Ha. destruct (Z.even e); simplify_eq/=. lia.
Qed.

Lemma solve_loop_spec fuel prev net k g E : represents num_vertices net g → flowing net k →
  zlen prev = num_vertices → n < Z.of_nat fuel + k →
  wp (solve_loop records fuel prev)
     (λ _ g', ∃ net' k', represents num_vertices net' g' ∧ flowing net' k' ∧ cut net') E g.
Proof.
  revert prev net k g. induction fuel as [|fuel IH]; intros prev net k g Hg Hfl Hprev Hfuel.
  { pose proof (flow_value_le _ _ Hfl). lia. }
  cbn [solve_loop]. apply wp_bind, wp_zoom.
  destruct (fl_potential _ _ Hfl) as (R & pot & Hpot).
  pose proof (solver_bounded _ _ Hg (fl_arcs _ _ Hfl)) as Hb.
  apply wp_bind. eapply wp_post; [|by apply (shortest_paths_spec _ _ _ _ _ _ _ _ Hb Hpot)].
  simpl. intros _ p Hp. pose proof (st_tree _ _ _ _ _ Hp) as Ht.
  assert (0 ≤ sink < num_vertices ∧ 0 ≤ source) as [Hsink Hsource] by (unfold sink_, source_, num_tensors_; lia).
  apply wp_bind. eapply wp_vget_Some; [apply (vat_zget kInf); by rewrite (st_dist_length _ _ _ _ _ Hp)|].
  wp_steps.
  pose proof (λ v e u c, settled_closed _ _ _ _ _ _ _ _ Hb Hpot p Hp v e u c) as Hclosed.
  destruct (Z.eqb_spec (vat kInf (path_dist p) sink) kInf) as [Hinf|Hfin].
  - apply wp_ret. exists net, k. split_and!; [done|done|].
    exists (λ v, vat kInf (path_dist p) v ≠ kInf). split_and!.
    + rewrite (tr_source _ _ _ _ Ht). done.
    + by intros H.
    + intros v e u c He Hv. by apply (Hclosed v e u c He Hv).
  - destruct (branch_exists _ _ _ _ _ _ _ _ Hb Hpot p Hp sink (tr_reaches _ _ _ _ Ht sink Hfin) Hfin) as (l & Hl).
    destruct (branch_vertices _ _ _ _ _ _ Hb p l sink Hl) as [Hnd Hrange].
    assert (zlen (prev_edge p) = num_vertices) as Hplen by apply (st_length _ _ _ _ _ Hp).
    apply wp_bind. eapply wp_post; [|apply (augment_spec source num_vertices (vat kInf (path_dist p)) (vat 0 (prev_edge p))
      records _ _ l sink net g E eq_refl)]; [|..|exact Hl|exact Hclosed|exact Hg|].
    + simpl. intros _ g' (net' & Hg' & Harcs' & Hfeas & Hex).
      apply (IH _ net' (k + 1)); [done| |done|lia]. split.
      * rewrite Harcs'. apply Hfl.
      * intros v Hv. rewrite Hex, (fl_excess _ _ Hfl v Hv).
        assert (sink ≠ v ∧ source ≠ v) as [??] by (unfold sink_ in *; lia).
        by rewrite !(proj2 (Z.eqb_neq _ v)).
      * rewrite Hex, (fl_value _ _ Hfl), Z.eqb_refl, (proj2 (Z.eqb_neq source sink)) by (unfold sink_; lia). simpl. lia.
      * exists (λ v, vat kInf (path_dist p) v ≠ kInf), (vat kInf (path_dist p)). split.
        -- rewrite (tr_source _ _ _ _ Ht). done.
        -- intros v Hv. pose proof (tree_bounds _ _ _ _ _ _ _ _ Hb Hpot _ _ v Ht Hv). lia.
        -- intros v e u c He Hv. by apply (Hfeas v e u c).
    + intros u Hu _. apply vat_zget. rewrite Hplen. by apply Hrange.
    + pose proof (vertices_length _ _ _ _ _ _ Hb l Hnd Hrange). lia.
Qed.

Lemma Solve_spec g E : represents num_vertices (idle arcs) g →
  wp (Solve records) (λ _ g', ∃ net' k', represents num_vertices net' g' ∧ flowing net' k' ∧ cut net') E g.
Proof.
  intros Hg. apply (solve_loop_spec _ _ (idle arcs) 0); [done|apply idle_flowing| |].
  - rewrite length_replicate. unfold sink_, source_, num_tensors_. lia.
  - unfold num_tensors_. lia.
Qed.
End solve.

(** ** What the final flow says *)

Section final_flow.
Context (records : list (TensorUsageRecord Z)).
Hypothesis ok : flow_records records.
Abbreviation n := (num_tensors_ records).
Abbreviation source := (source_ records).
Abbreviation sink := (sink_ records).
Abbreviation num_vertices := (sink_ records + 1).
Context (arcs : list arc) (net : network) (k : Z).
Hypothesis Harcs : tensor_network records n arcs.
Hypothesis Hflow : flowing records arcs net k.
Hypothesis Hcut : cut records net.

(** The edge [e] from [v], a left vertex or the source, fills the vertex of
    tensor [i]. *)
Definition filled (v e i : Z) : Prop :=
  0 ≤ i < n ∧ (v = source ∨ 0 ≤ v < n) ∧ ∃ c, ends net e = Some (v, i + n, c, false).

Lemma filled_arc v e i : filled v e i → Z.even e = true ∧ ∃ a, zget net (e / 2) = Some (a, true) ∧
  a_src a = v ∧ a_dst a = i + n ∧ tensor_arc records n a.
Proof.
  intros (Hi & Hv & c & He).
  destruct (ends_arc _ _ Harcs _ _ _ _ _ _ (fl_arcs _ _ _ _ Hflow) He) as (a & f & Ha & Harc & Hends).
  destruct Hends as [(Hev & -> & Hd & _ & Hr)|(Hev & Hs & Hd & _ & _)].
  - split; [done|]. exists a. destruct f; [|done]. by split_and!.
  - exfalso. destruct Harc as [j Hj|j Hj|j r Hj Hr|j m rj rm Hm (? & ? & Hjm & _) _ _];
      simpl in *; unfold sink_, source_ in *; lia.
Qed.

Lemma filled_index v e i : filled v e i → ∃ p, net !! Z.to_nat (e / 2) = Some p ∧
  is_dst (i + n) p = true ∧ is_src v p = true ∧ e = 2 * Z.of_nat (Z.to_nat (e / 2)).
Proof.
  intros (Hev & a & [Hpos Ha]%zget_Some & <- & Hd & _)%filled_arc. exists (a, true).
  unfold is_dst, is_src. simpl. rewrite Hd, !Z.eqb_refl. split_and!; [done..|].
  apply even_div in Hev. lia.
Qed.

Lemma arc_in_net a : a ∈ arcs → ∃ i f, net !! i = Some (a, f).
Proof.
  rewrite <- (fl_arcs _ _ _ _ Hflow). intros ([a' f] & -> & [i Hi]%list_elem_of_lookup)%list_elem_of_fmap. eauto.
Qed.

Lemma idle_arc_residual i a : net !! i = Some (a, false) →
  residual net (a_src a) (2 * Z.of_nat i) (a_dst a) (a_cost a).
Proof.
  intros Hi. unfold residual, ends. rewrite (Z.mul_comm 2), Z.div_mul by done. rewrite (vget_nat _ _ _ Hi). simpl.
  by rewrite Z.even_mul, orb_true_r.
Qed.

(** Every tensor's vertex gets exactly one unit. *)
Lemma inflow_right i : 0 ≤ i < n → inflow net (i + n) = 1.
Proof.
  intros Hi. destruct (zget_is_Some records i Hi) as [r Hr].
  pose proof (fl_excess _ _ _ _ Hflow (i + n)) as Hex. unfold source_ in Hex. specialize (Hex ltac:(lia)).
  pose proof (outflow_le _ _ Harcs net (i + n) (fl_arcs _ _ _ _ Hflow)) as Hout.
  pose proof (tn_out _ _ _ Harcs (i + n)) as Hone. unfold source_ in Hone. specialize (Hone ltac:(lia)).
  unfold excess in Hex.
  destruct (arc_in_net _ (tn_filled _ _ _ Harcs i Hi)) as (i1 & f1 & Hi1).
  assert (f1 = true) as ->.
  { destruct f1; [done|exfalso]. destruct Hcut as (R & Hs & Ht & Hclosed).
    destruct (arc_in_net _ (tn_new _ _ _ Harcs i r Hi Hr)) as (i2 & f2 & Hi2).
    assert (¬ R (i + n)) as HnR.
    { intros HR. apply Ht. eapply (Hclosed (i + n)); [by apply (idle_arc_residual i1 _ Hi1)|done]. }
    destruct f2.
    - assert (0 < inflow net (i + n)) as Hin.
      { apply (count_pos _ _ _ (list_elem_of_lookup_2 _ _ _ Hi2)). unfold is_dst. simpl. by rewrite Z.eqb_refl. }
      assert (outflow net (i + n) = 0) as Hzero; [|lia]. apply count_none. intros p Hp.
      destruct (is_src (i + n) p) eqn:Hsrc; [exfalso|done]. apply list_elem_of_lookup in Hp as [i3 Hi3].
      destruct p as [a3 f3]. unfold is_src in Hsrc. simpl in Hsrc. apply andb_prop in Hsrc as [-> Hsrc].
      assert (i1 = i3) as ->; [|simplify_eq].
      eapply (count_unique (λ a, a_src a =? i + n) arcs); [exact Hone|..].
      + rewrite <- (fl_arcs _ _ _ _ Hflow), list_lookup_fmap, Hi1. done.
      + rewrite <- (fl_arcs _ _ _ _ Hflow), list_lookup_fmap, Hi3. done.
      + apply Z.eqb_refl.
      + done.
    - apply HnR. eapply (Hclosed source); [by apply (idle_arc_residual i2 _ Hi2)|done]. }
  assert (0 < outflow net (i + n)); [|lia].
  apply (count_pos _ _ _ (list_elem_of_lookup_2 _ _ _ Hi1)). unfold is_src. simpl. by rewrite Z.eqb_refl.
Qed.

Lemma filled_exists i : 0 ≤ i < n → ∃ v e, filled v e i.
Proof.
  intros Hi. pose proof (inflow_right i Hi) as Hin.
  destruct (count_pos_inv (is_dst (i + n)) net) as ([a f] & [j Hj]%list_elem_of_lookup & Hd);
    [unfold inflow in Hin; lia|]. unfold is_dst in Hd. simpl in Hd. apply andb_prop in Hd as [-> Hd].
  apply Z.eqb_eq in Hd. simpl in Hd.
  assert (tensor_arc records n a) as Harc.
  { apply (tn_arcs _ _ _ Harcs). rewrite <- (fl_arcs _ _ _ _ Hflow). apply list_elem_of_fmap.
    exists (a, true). split; [done|by eapply list_elem_of_lookup_2]. }
  exists (a_src a), (2 * Z.of_nat j). split; [done|]. split.
  - destruct Harc as [m Hm|m Hm|m r Hm Hr|m m' rj rm Hm (? & ? & Hjm & _) _ _];
      simpl in *; unfold sink_, source_ in *; lia.
  - exists (a_cost a). unfold ends. rewrite (Z.mul_comm 2), Z.div_mul by done. rewrite (vget_nat _ _ _ Hj). simpl.
    by rewrite Z.even_mul, orb_true_r, Hd.
Qed.

Lemma filled_in_unique v e v' e' i : filled v e i → filled v' e' i → e = e'.
Proof.
  intros Hf Hf'. pose proof (inflow_right i (proj1 Hf)) as Hin.
  destruct (filled_index _ _ _ Hf) as (p & Hp & Hd & _ & ->).
  destruct (filled_index _ _ _ Hf') as (p' & Hp' & Hd' & _ & ->).
  do 2 f_equal. eapply (count_unique (is_dst (i + n)) net); eauto. unfold inflow in Hin. lia.
Qed.

Lemma filled_source v e v' i : filled v e i → filled v' e i → v = v'.
Proof. intros (_ & _ & c & He) (_ & _ & c' & He'). congruence. Qed.

Lemma filled_out_unique t e i e' i' : 0 ≤ t < n → filled t e i → filled t e' i' → e = e' ∧ i = i'.
Proof.
  intros Ht Hf Hf'. assert (e = e') as <-.
  { pose proof (fl_excess _ _ _ _ Hflow t) as Hex. unfold source_ in Hex. specialize (Hex ltac:(lia)).
    pose proof (inflow_le _ _ Harcs net t (fl_arcs _ _ _ _ Hflow)) as Hin.
    pose proof (tn_in _ _ _ Harcs t Ht) as Hone.
    destruct (filled_index _ _ _ Hf) as (p & Hp & _ & Hs & ->).
    destruct (filled_index _ _ _ Hf') as (p' & Hp' & _ & Hs' & ->).
    do 2 f_equal. eapply (count_unique (is_src t) net); eauto. unfold excess, outflow in *. lia. }
  split; [done|]. destruct Hf as (_ & _ & c & He), Hf' as (_ & _ & c' & He'). rewrite He in He'. injection He'. lia.
Qed.

Lemma filled_follow j e i : 0 ≤ j < n → filled j e i → can_follow records j i.
Proof.
  intros Hj (_ & a & _ & Hs & Hd & Harc)%filled_arc.
  destruct Harc as [m Hm|m Hm|m r Hm Hr|j' m rj rm Hm Hfo _ _]; simpl in *; unfold sink_, source_ in *; try lia.
  subst j'. by assert (m = i) as <- by lia.
Qed.

(** ** Reading the chains off the flow *)

Abbreviation flow_state := (state Z (list bool)).

Definition assigned (s : flow_state) (i : Z) : bool := vat false (locals s) i.

Definition assign_chain (m : Z) (l : list Z) (s : flow_state) : flow_state :=
  foldl (λ s i, {| ids := zset i m (ids s); sizes := sizes s; locals := zset i true (locals s) |}) s l.

Definition size_of (i : Z) : Z := from_option tensor_size 0 (zget records i).
Definition chain_size (l : list Z) : Z := foldr (λ i c, size_of i `max` c) 0 l.

Lemma size_of_nonneg i : 0 ≤ size_of i.
Proof.
  unfold size_of. destruct (zget records i) as [r|] eqn:Hr; simpl; [|done].
  by apply (fr_sizes _ ok), (zget_elem _ _ _ Hr).
Qed.

Lemma chain_size_nonneg l : 0 ≤ chain_size l.
Proof. induction l as [|i l IH]; simpl; [done|]. lia. Qed.

Lemma can_follow_trans : Transitive (can_follow records).
Proof.
  intros a b c (ra & rb & Hab & Hra & Hrb & Hlt) (rb' & rc & Hbc & Hrb' & Hrc & Hlt'). simplify_eq.
  exists ra, rc. pose proof (fr_intervals _ ok rb (zget_elem _ _ _ Hrb)). split_and!; [lia..|done|done|lia].
Qed.

Definition state_sized (s : flow_state) : Prop := zlen (ids s) = n ∧ zlen (locals s) = n.

Lemma assign_chain_sized m l s : state_sized s → state_sized (assign_chain m l s) ∧ sizes (assign_chain m l s) = sizes s.
Proof.
  revert s. induction l as [|i l IH]; intros s Hs; [done|]. simpl.
  destruct (IH {| ids := zset i m (ids s); sizes := sizes s; locals := zset i true (locals s) |}) as [? ?]; [|done].
  unfold state_sized in *. simpl. by rewrite !zset_length.
Qed.

Lemma assign_chain_assigned m l s i : state_sized s → (∀ j, j ∈ l → 0 ≤ j < n) → 0 ≤ i →
  assigned (assign_chain m l s) i = true ↔ i ∈ l ∨ assigned s i = true.
Proof.
  revert s. induction l as [|j l IH]; intros s Hs Hl Hi.
  { simpl. split; [by right|]. by intros [[]%not_elem_of_nil|]. }
  simpl. rewrite IH; [| |intros x Hx; apply Hl; by right|done].
  - rewrite elem_of_cons. unfold assigned. simpl. destruct (decide (i = j)) as [->|Hne].
    + rewrite vat_zset_eq; [tauto|]. destruct Hs as [_ ->]. apply Hl. by left.
    + rewrite vat_zset_ne by (done || (assert (0 ≤ j < n) by (apply Hl; by left); lia)). tauto.
  - unfold state_sized in *. simpl. by rewrite !zset_length.
Qed.

(** A tensor and the one whose vertex it fills are assigned together. *)
Definition closed_but (t : Z) (s : flow_state) : Prop := ∀ j e i,
  0 ≤ j < n → filled j e i → i ≠ t → (assigned s j = true ↔ assigned s i = true).

Record chain_from (t : Z) (s : flow_state) (l : list Z) (s' : flow_state) : Prop := {
  cf_state : s' = assign_chain (zlen (sizes s)) (t :: l) s;
  cf_sorted : StronglySorted (can_follow records) (t :: l);
  cf_range j : j ∈ t :: l → 0 ≤ j < n;
  cf_free j : j ∈ t :: l → assigned s j = false;
  cf_inner i : i ∈ l → ∃ j e, 0 ≤ j < n ∧ filled j e i
}.

Context (g : Solver).
Hypothesis Hrep : represents num_vertices net g.

Lemma saturated_edge v e u c r : (v = source ∨ 0 ≤ v < n) → ends net e = Some (v, u, c, r) →
  ((cap {| dst := u; cap := if r then 1 else 0; cost := c |} =? 0) && IsRightPartVertex records u) = true ↔
  filled v e (u - n).
Proof.
  intros Hv He. unfold IsRightPartVertex, filled. simpl. rewrite !andb_true_iff, Z.eqb_eq, Z.leb_le, Z.ltb_lt.
  replace (u - n + n) with u by lia. rewrite He. destruct r; split.
  - lia.
  - intros (_ & _ & c' & ?). congruence.
  - intros (_ & ? & ?). split_and!; [lia..|done|eauto].
  - intros (? & _). lia.
Qed.

Lemma chain_from_start t s : state_sized s → 0 ≤ t < n → assigned s t = false →
  chain_from t s [] (assign_chain (zlen (sizes s)) [t] s).
Proof.
  intros Hs Ht Hfree. split; [done|repeat constructor|..].
  - by intros j ->%list_elem_of_singleton.
  - by intros j ->%list_elem_of_singleton.
  - intros i Hi. by apply not_elem_of_nil in Hi.
Qed.

(** A chain continues with the chain of the vertex that its first tensor fills. *)
Lemma chain_from_next t s k' e l s' : chain_from k' (assign_chain (zlen (sizes s)) [t] s) l s' →
  state_sized s → 0 ≤ t < n → assigned s t = false → filled t e k' → chain_from t s (k' :: l) s'.
Proof.
  intros [Hstate Hsorted Hrange Hfree Hinner] Hs Ht Hfr Hf.
  pose proof (filled_follow _ _ _ Ht Hf) as Hfollow. split.
  - rewrite Hstate. done.
  - constructor; [done|]. apply Forall_cons. split; [done|].
    inversion Hsorted as [|? ? _ Hall]; subst. eapply Forall_impl; [exact Hall|].
    intros x Hx. by eapply can_follow_trans.
  - intros j [->|Hj]%elem_of_cons; auto.
  - intros j [->|Hj]%elem_of_cons; [done|]. specialize (Hfree j Hj). apply not_true_iff_false in Hfree.
    apply not_true_iff_false. intros Hj'. apply Hfree.
    apply (assign_chain_assigned _ [t] s j Hs); [by intros x ->%list_elem_of_singleton|by apply Hrange|by right].
  - intros i [->|Hi]%elem_of_cons; [eauto|by apply Hinner].
Qed.

Definition closed (s : flow_state) : Prop := ∀ j e i,
  0 ≤ j < n → filled j e i → (assigned s j = true ↔ assigned s i = true).

Lemma assigned_start t s : state_sized s → 0 ≤ t < n →
  ∀ i, 0 ≤ i → assigned (assign_chain (zlen (sizes s)) [t] s) i = true ↔ i = t ∨ assigned s i = true.
Proof.
  intros Hs Ht i Hi. rewrite (assign_chain_assigned _ [t] s i Hs), list_elem_of_singleton; [done| |done].
  by intros x ->%list_elem_of_singleton.
Qed.

(** After marking [t], only the tensor that [t] fills may be out of step. *)
Lemma closed_start t s k' e : state_sized s → 0 ≤ t < n → closed_but t s →
  (∀ j e, 0 ≤ j < n → filled j e t → assigned s j = true) → filled t e k' →
  closed_but k' (assign_chain (zlen (sizes s)) [t] s).
Proof.
  intros Hs Ht Hcl Hpred Hf j e' i Hj Hf' Hne. rewrite !assigned_start by (done || lia || apply Hf').
  destruct (decide (i = t)) as [->|Hit].
  - specialize (Hpred j e' Hj Hf'). tauto.
  - destruct (decide (j = t)) as [->|Hjt]; [|rewrite (Hcl j e' i Hj Hf' Hit); tauto].
    exfalso. apply Hne. by destruct (filled_out_unique _ _ _ _ _ Ht Hf' Hf).
Qed.

Lemma closed_alone t s : state_sized s → 0 ≤ t < n → closed_but t s →
  (∀ j e, 0 ≤ j < n → filled j e t → assigned s j = true) → (∀ e i, ¬ filled t e i) →
  closed (assign_chain (zlen (sizes s)) [t] s).
Proof.
  intros Hs Ht Hcl Hpred Hno j e i Hj Hf. rewrite !assigned_start by (done || lia || apply Hf).
  destruct (decide (i = t)) as [->|Hit].
  - specialize (Hpred j e Hj Hf). tauto.
  - destruct (decide (j = t)) as [->|Hjt]; [by destruct (Hno e i)|]. rewrite (Hcl j e i Hj Hf Hit). tauto.
Qed.

Lemma left_twin u : n ≤ u < source → LeftPartTwin records u = u - n.
Proof.
  intros Hu. unfold LeftPartTwin. apply u64_id. pose proof (fr_vertices _ ok).
  unfold is_size, sink_, source_, num_tensors_ in *. lia.
Qed.

Definition search_ok (fuel : nat) : Prop := ∀ t s E, state_sized s → 0 ≤ t < n → assigned s t = false →
  n - t < Z.of_nat fuel → closed_but t s → (∀ j e, 0 ≤ j < n → filled j e t → assigned s j = true) →
  wp (AssignTensorsToNewSharedObject records g fuel t)
     (λ c s', ∃ l, chain_from t s l s' ∧ c = chain_size (t :: l) ∧ closed s') E s.

(** After the edges [done] of [t]: none of them fills a tensor, or the chain of
    the tensor that one of them fills has been assigned. *)
Definition search_inv (t : Z) (s : flow_state) (done : list Z) (c : Z) (s' : flow_state) : Prop :=
  ∃ l, chain_from t s l s' ∧ c = chain_size (t :: l) ∧
    ((l = [] ∧ s' = assign_chain (zlen (sizes s)) [t] s ∧ ∀ e i, e ∈ done → ¬ filled t e i) ∨
     ((∃ e i, filled t e i ∧ assigned s' i = true) ∧ closed s')).

Lemma search_edge fuel t s done e u c' r0 c s' E : search_ok fuel → state_sized s → 0 ≤ t < n →
  assigned s t = false → n - t < Z.of_nat (S fuel) → closed_but t s →
  (∀ j e, 0 ≤ j < n → filled j e t → assigned s j = true) →
  ends net e = Some (t, u, c', r0) → search_inv t s done c s' →
  wp (edge ← deref (zget (edges_ g) e);
      if (cap edge =? 0) && IsRightPartVertex records (dst edge) then
        assigned ← vget locals (LeftPartTwin records (dst edge));
        if negb assigned then
          c2 ← AssignTensorsToNewSharedObject records g fuel (LeftPartTwin records (dst edge)); mret (c `max` c2)
        else mret c
      else mret c) (search_inv t s (done ++ [e])) E s'.
Proof.
  intros IH Hs Ht Hfree Hfuel Hcl Hpred He (l & Hchain & -> & Hcase).
  set (s1 := assign_chain (zlen (sizes s)) [t] s) in *.
  destruct (assign_chain_sized (zlen (sizes s)) [t] s Hs) as [Hsized1 Hsizes1]. fold s1 in Hsized1, Hsizes1.
  apply wp_bind. eapply wp_deref; [by eapply rp_edge|]. simpl.
  pose proof (saturated_edge t e u c' r0 (or_intror Ht) He) as Hsat. simpl in Hsat.
  destruct (((if r0 then 1 else 0) =? 0) && IsRightPartVertex records u) eqn:Hcond.
  2:{ apply wp_ret. exists l. split; [done|]. split; [done|]. destruct Hcase as [(-> & -> & Hno)|?]; [left|by right].
      split_and!; [done|done|]. intros e' i [He'| ->%list_elem_of_singleton]%elem_of_app Hf; [by apply (Hno e' i)|].
      assert (i = u - n) as -> by (destruct Hf as (_ & _ & c2 & He2); rewrite He in He2; injection He2; lia).
      apply Hsat in Hf. done. }
  destruct Hsat as [Hsat _]. specialize (Hsat eq_refl).
  assert (0 ≤ u - n < n) as Hu by apply Hsat.
  rewrite left_twin by (unfold source_; lia). pose proof (filled_follow _ _ _ Ht Hsat) as Hfollow.
  assert (t < u - n) as Htu by (destruct Hfollow as (? & ? & ? & _); lia).
  assert (state_sized s') as Hs'.
  { rewrite (cf_state _ _ _ _ Hchain). by apply assign_chain_sized. }
  apply wp_bind. eapply wp_vget_Some; [apply (vat_zget false); destruct Hs' as [_ ->]; lia|].
  destruct Hcase as [(-> & -> & Hno)|[(e2 & i2 & Hf2 & Ha2) Hclosed]].
  + assert (assigned s1 (u - n) = false) as Hku.
    { apply not_true_iff_false. unfold s1. rewrite assigned_start by (done || lia).
      intros [Heq|Ha]; [lia|]. apply (Hcl t e (u - n) Ht Hsat) in Ha; [congruence|lia]. }
    unfold assigned in Hku. rewrite Hku. simpl.
    apply wp_bind. eapply wp_post; [|apply (IH (u - n) s1)]; [|done|lia|done|lia|..].
    * simpl. intros c2 s2 (l2 & Hchain2 & -> & Hclosed2). apply wp_ret. exists (u - n :: l2).
      split; [by eapply chain_from_next|]. split; [simpl; pose proof (size_of_nonneg t); lia|].
      right. split; [|done]. exists e, (u - n). split; [done|].
      rewrite (cf_state _ _ _ _ Hchain2). apply assign_chain_assigned; [done|apply (cf_range _ _ _ _ Hchain2)|lia|].
      left. by left.
    * by eapply closed_start.
    * intros j e' Hj Hf'. pose proof (filled_in_unique _ _ _ _ _ Hsat Hf') as <-.
      pose proof (filled_source _ _ _ _ Hsat Hf') as <-. unfold s1. apply assigned_start; [done|done|lia|by left].
  + destruct (filled_out_unique _ _ _ _ _ Ht Hf2 Hsat) as [-> ->].
    unfold assigned in Ha2. rewrite Ha2. simpl. apply wp_ret. exists l. split; [done|]. split; [done|].
    right. split; [|done]. eauto.
Qed.

Lemma AssignTensors_spec fuel : search_ok fuel.
Proof.
  induction fuel as [|fuel IH]; intros t s E Hs Ht Hfree Hfuel Hcl Hpred; [lia|].
  cbn [AssignTensorsToNewSharedObject]. destruct (zget_is_Some records t Ht) as [r Hr].
  destruct Hs as [Hids Hloc]. apply wp_bind. eapply wp_deref; [exact Hr|].
  apply wp_bind. eapply wp_vset_Some; [apply (vat_zget false); lia|]. simpl.
  apply wp_bind, wp_gets, wp_bind. eapply wp_vset_Some; [apply (vat_zget 0); simpl; lia|]. simpl.
  destruct (rp_out _ _ _ t Hrep) as (out & Hout & _ & Hin); [unfold sink_, source_; lia|].
  apply wp_bind. eapply wp_deref; [exact Hout|].
  assert (state_sized s) as Hs by done.
  eapply wp_post; [|apply (wp_fold_m (search_inv t s) E)].
  - intros c s' (l & Hchain & Hc & Hcase). exists l. split; [done|]. split; [done|].
    destruct Hcase as [(-> & -> & Hno)|[_ Hclosed]]; [|done]. apply closed_alone; [done|done|done|done|].
    intros e i Hf. pose proof Hf as (_ & _ & c' & He). apply (Hno e i); [apply Hin; eauto|done].
  - exists []. split; [by apply chain_from_start|]. split.
    + simpl. unfold size_of. rewrite Hr. simpl. pose proof (fr_sizes _ ok r (zget_elem _ _ _ Hr)). lia.
    + left. split_and!; [done|done|]. intros e i He. by apply not_elem_of_nil in He.
  - intros done e todo c s' Hl Hinv.
    assert (∃ u c' r0, ends net e = Some (t, u, c', r0)) as (u & c' & r0 & He) by (apply Hin; rewrite Hl; in_list).
    by eapply search_edge.
Qed.

(** ** A chain shares one object *)

Lemma can_follow_disjoint j i rj ri : can_follow records j i → zget records j = Some rj →
  zget records i = Some ri → ¬ records_overlap ri rj.
Proof.
  intros (rj' & ri' & _ & Hj & Hi & Hlt) Hj' Hi'. simplify_eq. unfold records_overlap, tasks_overlap. lia.
Qed.

Lemma sharing_rest l ids szs sz : zlen records < size_max → 0 ≤ sz →
  sharing records ids (szs ++ [sz]) → StronglySorted (can_follow records) l →
  (∀ i, i ∈ l → 0 ≤ i < n ∧ zget ids i = Some kNotAssigned) →
  (∀ j i, zget ids j = Some (zlen szs) → i ∈ l → can_follow records j i) →
  sharing records (foldl (λ ids i, zset i (zlen szs) ids) ids l) (szs ++ [sz `max` chain_size l]).
Proof.
  intros Hmax. revert ids sz. induction l as [|i l IH]; intros ids sz Hsz Hsh Hsorted Hfree Hfollow; simpl.
  { by rewrite Z.max_l. }
  inversion Hsorted as [|? ? Hsorted' Hall]; subst. rewrite Forall_forall in Hall.
  destruct (Hfree i) as [Hi Hid]; [by left|]. destruct (zget_is_Some records i Hi) as [r Hr].
  pose proof Hid as Hid'. apply zget_Some in Hid' as [Hpos Hid']. pose proof Hr as Hr'. apply zget_Some in Hr' as [_ Hr'].
  assert (zlen szs < kNotAssigned) as Hna.
  { pose proof (sh_sizes _ _ _ Hsh) as Hlen. rewrite length_app in Hlen. simpl in Hlen. unfold kNotAssigned. lia. }
  assert (zget (szs ++ [sz]) (zlen szs) = Some sz) as Hlast.
  { apply zget_Some. split; [lia|]. rewrite Nat2Z.id. apply lookup_split. }
  assert (zset (zlen szs) (sz `max` tensor_size r) (szs ++ [sz]) = szs ++ [sz `max` tensor_size r]) as Hset.
  { unfold zset. rewrite Nat2Z.id, insert_app_r_alt, Nat.sub_diag by done. done. }
  assert (size_of i = tensor_size r) as -> by (unfold size_of; by rewrite Hr).
  rewrite Z.max_assoc. apply IH; [lia| |done|..].
  - rewrite <- Hset. unfold zset at 1. eapply sharing_assign; [done|done|exact Hr'|exact Hid'|lia|by apply resized_max|].
    intros j r' Hj Hjd. apply vget_nat in Hj, Hjd. eapply can_follow_disjoint; [|exact Hj|exact Hr].
    eapply Hfollow; [done|by left].
  - intros i' Hi'. destruct (Hfree i') as [? Hd]; [by right|]. split; [done|].
    rewrite zget_zset_ne; [done|done|]. intros ->. specialize (Hall i' Hi'). destruct Hall as (? & ? & ? & _). lia.
  - intros j i' Hj Hi'. destruct (decide (j = i)) as [->|Hne]; [by apply Hall|].
    rewrite zget_zset_ne in Hj by done. apply Hfollow; [done|by right].
Qed.

Lemma assign_chain_ids m l s : ids (assign_chain m l s) = foldl (λ ids i, zset i m ids) (ids s) l.
Proof. revert s. induction l as [|i l IH]; intros s; simpl; [done|]. by rewrite IH. Qed.

(** [is_tensor_assigned_] and the object ids agree. *)
Definition coherent (s : flow_state) : Prop := state_sized s ∧
  ∀ i id, zget (ids s) i = Some id → id ≠ kNotAssigned ↔ assigned s i = true.

Lemma sharing_chain t s l s' : zlen records < size_max → coherent s → sharing records (ids s) (sizes s) →
  chain_from t s l s' → sharing records (ids s') (sizes s' ++ [chain_size (t :: l)]).
Proof.
  intros Hmax [Hs Hcoh] Hsh [-> Hsorted Hrange Hfree _].
  assert (∀ i, i ∈ t :: l → zget (ids s) i = Some kNotAssigned) as Hna.
  { intros i Hi. destruct (zget_is_Some (ids s) i) as [id Hid]; [destruct Hs as [-> _]; by apply Hrange|].
    rewrite Hid. f_equal. destruct (decide (id = kNotAssigned)) as [|Hne]; [done|].
    apply (Hcoh i id Hid) in Hne. rewrite (Hfree i Hi) in Hne. done. }
  rewrite assign_chain_ids. destruct (assign_chain_sized (zlen (sizes s)) (t :: l) s Hs) as [_ ->]. simpl.
  inversion Hsorted as [|? ? Hsorted' Hall]; subst. rewrite Forall_forall in Hall.
  destruct (zget_is_Some records t) as [r Hr]; [apply Hrange; by left|].
  pose proof (Hna t ltac:(by left)) as Ht. pose proof Hr as Hr'. apply zget_Some in Hr' as [_ Hr'].
  apply sharing_rest; [done|apply size_of_nonneg| |done|..].
  - unfold zset. unfold size_of. rewrite Hr. simpl. apply sharing_new; [done|done| |done].
    by apply zget_Some in Ht as [_ Ht].
  - intros i Hi. split; [apply Hrange; by right|]. rewrite zget_zset_ne; [apply Hna; by right| |].
    + apply (Hrange t). by left.
    + intros ->. specialize (Hall i Hi). destruct Hall as (? & ? & ? & _). lia.
  - intros j i Hj Hi. destruct (decide (j = t)) as [->|Hne]; [by apply Hall|].
    rewrite zget_zset_ne in Hj; [|apply (Hrange t); by left|done]. exfalso.
    apply zget_Some in Hj as [Hpos Hj].
    destruct (lookup_lt_is_Some_2 records (Z.to_nat j)) as [rj Hrj].
    { rewrite <- (sh_length _ _ _ Hsh). by eapply lookup_lt_Some. }
    destruct (sh_object _ _ _ Hsh _ _ _ Hrj Hj) as (sz & Hsz%zget_range & _); [|lia].
    pose proof (sh_sizes _ _ _ Hsh). unfold kNotAssigned. lia.
Qed.

Lemma coherent_chain m l s : coherent s → m ≠ kNotAssigned → (∀ i, i ∈ l → 0 ≤ i < n) →
  coherent (assign_chain m l s).
Proof.
  revert s. induction l as [|i l IH]; intros s Hs Hm Hl; [done|]. simpl. apply IH; [|done|intros; apply Hl; by right].
  destruct Hs as [[Hi Hb] Hcoh]. destruct (Hl i) as [Hi0 Hin]; [by left|]. split.
  - split; simpl; by rewrite zset_length.
  - intros j id. simpl. unfold assigned. simpl. destruct (decide (j = i)) as [->|Hne].
    + rewrite zget_zset_eq, vat_zset_eq by lia. intros [= <-]. done.
    + rewrite zget_zset_ne, vat_zset_ne by done. apply Hcoh.
Qed.

(** *** [CalculateAssignment] *)

(** After the edges [done] of the source. *)
Record roots_inv (done : list Z) (s : flow_state) : Prop := {
  ri_coherent : coherent s;
  ri_sharing : sharing records (ids s) (sizes s);
  ri_closed : closed s;
  ri_roots e i : filled source e i → (assigned s i = true ↔ e ∈ done)
}.

Lemma roots_start : roots_inv [] {| ids := replicate (length records) kNotAssigned; sizes := [];
  locals := replicate (length records) false |}.
Proof.
  assert (∀ i, assigned {| ids := replicate (length records) kNotAssigned; sizes := [];
    locals := replicate (length records) false |} i = false) as Hno by (intros i; apply vat_replicate).
  split.
  - split; [unfold state_sized, num_tensors_; simpl; by rewrite !length_replicate|].
    intros i id. simpl. intros [_ [-> _]%lookup_replicate]%zget_Some. rewrite Hno. by split; intros H.
  - apply sharing_start.
  - intros j e i _ _. by rewrite !Hno.
  - intros e i _. rewrite Hno. split; [done|]. by intros []%not_elem_of_nil.
Qed.

(** All tensors are assigned when all edges of the source have been looked at. *)
Lemma roots_finish done s : roots_inv done s → (∀ e i, filled source e i → e ∈ done) → kNotAssigned ∉ ids s.
Proof.
  intros [[Hsized Hcoh] _ Hcl Hroots] Hall.
  assert (∀ m i, (Z.to_nat i < m)%nat → 0 ≤ i < n → assigned s i = true) as Hasg.
  { induction m as [|m IH]; intros i Hm Hi; [lia|]. destruct (filled_exists i Hi) as (v & e & Hf).
    pose proof Hf as (_ & Hv & _). destruct Hv as [->|Hv].
    - apply (Hroots e i Hf). by eapply Hall.
    - apply (Hcl v e i Hv Hf). destruct (filled_follow _ _ _ Hv Hf) as (? & ? & Hlt & _). apply IH; lia. }
  intros [i Hi]%list_elem_of_lookup. pose proof (vget_nat _ _ _ Hi) as Hz.
  pose proof (zget_range _ _ _ Hz) as Hr. destruct Hsized as [Hlen _]. rewrite Hlen in Hr.
  apply (Hcoh _ _ Hz); [|done]. apply (Hasg (S (Z.to_nat (Z.of_nat i)))); [lia|done].
Qed.

Lemma roots_step done e todo u c r0 s E : NoDup (done ++ e :: todo) → zlen records < size_max →
  roots_inv done s → ends net e = Some (source, u, c, r0) →
  wp (edge ← deref (zget (edges_ g) e);
      if (cap edge =? 0) && IsRightPartVertex records (dst edge) then
        sz ← AssignTensorsToNewSharedObject records g (S (length records)) (LeftPartTwin records (dst edge));
        push_size sz
      else mret ()) (λ _ s', roots_inv (done ++ [e]) s') E s.
Proof.
  intros Hnd Hmax [Hcoh Hsh Hcl Hroots] He. apply NoDup_app in Hnd as (_ & Hnd & _).
  assert (e ∉ done) as Hnew by (intros Hin; apply (Hnd e Hin); by left).
  apply wp_bind. eapply wp_deref; [by eapply rp_edge|].
  pose proof (saturated_edge source e u c r0 (or_introl eq_refl) He) as Hsat. cbn [cap dst] in *.
  destruct (((if r0 then 1 else 0) =? 0) && IsRightPartVertex records u) eqn:Hcond.
  2:{ apply wp_ret. split; [done..|]. intros e' i Hf. rewrite elem_of_app, list_elem_of_singleton, (Hroots e' i Hf).
      split; [tauto|]. intros [?| ->]; [done|]. exfalso.
      assert (i = u - n) as -> by (destruct Hf as (_ & _ & c2 & He2); rewrite He in He2; injection He2; lia).
      apply Hsat in Hf. done. }
  destruct Hsat as [Hsat _]. specialize (Hsat eq_refl). assert (0 ≤ u - n < n) as Hu by apply Hsat.
  rewrite left_twin by (unfold source_; lia). pose proof Hcoh as [Hsized _].
  assert (∀ j e', 0 ≤ j < n → ¬ filled j e' (u - n)) as Hroot.
  { intros j e' Hj Hf. pose proof (filled_in_unique _ _ _ _ _ Hsat Hf) as <-.
    pose proof (filled_source _ _ _ _ Hsat Hf). unfold source_ in *. lia. }
  apply wp_bind. eapply wp_post; [|apply AssignTensors_spec; [done|done| |unfold num_tensors_ in *; lia| |]].
  - simpl. intros cst s' (l & Hchain & -> & Hcl'). unfold push_size. apply wp_modify.
    pose proof (sharing_chain _ _ _ _ Hmax Hcoh Hsh Hchain) as Hsh'.
    assert (zlen (sizes s) ≠ kNotAssigned) as Hm.
    { pose proof (sh_sizes _ _ _ Hsh). unfold kNotAssigned. lia. }
    pose proof (cf_range _ _ _ _ Hchain) as Hrange.
    split.
    + pose proof (coherent_chain _ _ _ Hcoh Hm Hrange) as Hc. rewrite <- (cf_state _ _ _ _ Hchain) in Hc. done.
    + done.
    + done.
    + intros e' i Hf. rewrite elem_of_app, list_elem_of_singleton, <- (Hroots e' i Hf).
      assert (assigned s' i = true ↔ i ∈ u - n :: l ∨ assigned s i = true) as Has.
      { rewrite (cf_state _ _ _ _ Hchain). apply assign_chain_assigned; [done|done|apply Hf]. }
      unfold assigned in *. simpl. rewrite Has, elem_of_cons. split.
      * intros [[->|Hi]|?]; [right; by eapply filled_in_unique| |by left].
        exfalso. destruct (cf_inner _ _ _ _ Hchain i Hi) as (j & e2 & Hj & Hf2).
        pose proof (filled_in_unique _ _ _ _ _ Hf Hf2) as <-. pose proof (filled_source _ _ _ _ Hf Hf2).
        unfold source_ in *. lia.
      * intros [?| ->]; [by right|]. left. left. destruct Hf as (_ & _ & c2 & He2). rewrite He in He2. injection He2. lia.
  - apply not_true_iff_false. rewrite (Hroots e (u - n) Hsat). done.
  - intros j e' i Hj Hf _. by apply (Hcl j e' i).
  - intros j e' Hj Hf. by destruct (Hroot j e').
Qed.

Lemma CalculateAssignment_spec {St} (st : St) E : zlen records < size_max →
  wp (CalculateAssignment records g) (λ a st', st' = st ∧ objects_shared_safely records a) E st.
Proof.
  intros Hmax. apply run_assignment_spec.
  destruct (rp_out _ _ _ source Hrep) as (out & Hout & Hnd & Hin); [unfold sink_, source_, num_tensors_; lia|].
  apply wp_bind. eapply wp_deref; [exact Hout|].
  eapply wp_post; [|apply (wp_for_each roots_inv (λ _, False)); [apply roots_start|]].
  - simpl. intros _ s Hinv. split; [apply Hinv|]. eapply roots_finish; [exact Hinv|].
    intros e i (_ & _ & c & He). apply Hin. eauto.
  - intros done e todo s Hl Hinv.
    assert (∃ u c r, ends net e = Some (source, u, c, r)) as (u & c & r & He) by (apply Hin; rewrite Hl; in_list).
    eapply roots_step; [by rewrite <- Hl|done|done|exact He].
Qed.
End final_flow.

(** ** The theorem *)

(** C2: the minimum-cost flow strategy on records in the order of their tasks,
    with sizes whose sum is an [int]: the relaxations and the augmentations end
    (at most one round per vertex, one augmentation per tensor), no arithmetic
    overflows, and the assignment read off the flow gives every tensor an object
    that is large enough, none larger than one of its tensors needs, and never one
    object to two tensors that are used during a common task. *)
Theorem MinCostFlowAssignment_safe records {S} (s : S) :
  valid_records records → in_task_order records → (∀ r, r ∈ records → 0 ≤ tensor_size r) →
  total (tensor_size <$> records) < int32_max → 2 * zlen records + 2 ≤ size_max →
  ∃ a, MinCostFlowAssignment records s = Done a s ∧ objects_shared_safely records a.
Proof.
  intros Hv Hord Hsizes Htotal Hmax. assert (flow_records records) as Hok.
  { split; [done| |done|done|unfold sink_, source_, num_tensors_; lia].
    intros r Hr. by apply (vr_interval _ Hv r Hr). }
  assert (wp (MinCostFlowAssignment records) (λ a s', s' = s ∧ objects_shared_safely records a) (λ _, False) s) as Hwp.
  { unfold MinCostFlowAssignment. apply wp_zoom, wp_bind.
    eapply wp_post; [|by apply Build_spec]. simpl. intros _ g (arcs & Hg & Harcs).
    apply wp_bind. eapply wp_post; [|by eapply Solve_spec]. simpl. intros _ g' (net & k & Hg' & Hflow & Hcut).
    apply wp_bind, wp_get. eapply wp_post; [|eapply CalculateAssignment_spec; eauto; apply Hv].
    simpl. intros a g'' [_ ?]. done. }
  apply wp_no_error in Hwp as (a & s' & Hrun & -> & Ha). eauto.
Qed.

Lemma MinCostFlowAssignment_safe_witness : ∃ a,
  MinCostFlowAssignment complex_records () = Done a () ∧ objects_shared_safely complex_records a.
Proof.
  apply (MinCostFlowAssignment_safe complex_records ()).
  - apply complex_valid.
  - apply complex_valid.
  - apply Forall_forall. apply (bool_decide_unpack _). by vm_compute.
  - by vm_compute.
  - by vm_compute.
Defined.
