(* ===== verification/OpCodes.v ===== *)
(** * Operation codes

    The enumeration [LiteRtOpCode] of [litert/c/litert_op_code.h] with its
    values, and its decidable equality (the key of the registry of shape
    inference). *)

From S2P Require Import Prelude.

Inductive LiteRtOpCode :=
| kLiteRtOpCodeTflAdd | kLiteRtOpCodeTflAveragePool2d | kLiteRtOpCodeTflConcatenation
| kLiteRtOpCodeTflConv2d | kLiteRtOpCodeTflDepthwiseConv2d | kLiteRtOpCodeTflDepthToSpace
| kLiteRtOpCodeTflDequantize | kLiteRtOpCodeTflEmbeddingLookup | kLiteRtOpCodeTflFloor
| kLiteRtOpCodeTflFullyConnected | kLiteRtOpCodeTflHashtableLookup
| kLiteRtOpCodeTflL2Normalization | kLiteRtOpCodeTflL2Pool2d
| kLiteRtOpCodeTflLocalResponseNormalization | kLiteRtOpCodeTflLogistic
| kLiteRtOpCodeTflLshProjection | kLiteRtOpCodeTflLstm | kLiteRtOpCodeTflMaxPool2d
| kLiteRtOpCodeTflMul | kLiteRtOpCodeTflRelu | kLiteRtOpCodeTflReluN1To1 | kLiteRtOpCodeTflRelu6
| kLiteRtOpCodeTflReshape | kLiteRtOpCodeTflResizeBilinear | kLiteRtOpCodeTflRnn
| kLiteRtOpCodeTflSoftmax | kLiteRtOpCodeTflSpaceToDepth | kLiteRtOpCodeTflSvdf
| kLiteRtOpCodeTflTanh | kLiteRtOpCodeTflConcatEmbeddings | kLiteRtOpCodeTflSkipGram
| kLiteRtOpCodeTflCall | kLiteRtOpCodeTflCustom | kLiteRtOpCodeTflEmbeddingLookupSparse
| kLiteRtOpCodeTflPad | kLiteRtOpCodeTflUnidirectionalSequenceRnn | kLiteRtOpCodeTflGather
| kLiteRtOpCodeTflBatchToSpaceNd | kLiteRtOpCodeTflSpaceToBatchNd | kLiteRtOpCodeTflTranspose
| kLiteRtOpCodeTflMean | kLiteRtOpCodeTflSub | kLiteRtOpCodeTflDiv | kLiteRtOpCodeTflSqueeze
| kLiteRtOpCodeTflUnidirectionalSequenceLstm | kLiteRtOpCodeTflStridedSlice
| kLiteRtOpCodeTflBidirectionalSequenceRnn | kLiteRtOpCodeTflExp | kLiteRtOpCodeTflTopkV2
| kLiteRtOpCodeTflSplit | kLiteRtOpCodeTflLogSoftmax | kLiteRtOpCodeTflDelegate
| kLiteRtOpCodeTflBidirectionalSequenceLstm | kLiteRtOpCodeTflCast | kLiteRtOpCodeTflPrelu
| kLiteRtOpCodeTflMaximum | kLiteRtOpCodeTflArgMax | kLiteRtOpCodeTflMinimum
| kLiteRtOpCodeTflLess | kLiteRtOpCodeTflNeg | kLiteRtOpCodeTflPadv2 | kLiteRtOpCodeTflGreater
| kLiteRtOpCodeTflGreaterEqual | kLiteRtOpCodeTflLessEqual | kLiteRtOpCodeTflSelect
| kLiteRtOpCodeTflSlice | kLiteRtOpCodeTflSin | kLiteRtOpCodeTflTransposeConv
| kLiteRtOpCodeTflSparseToDense | kLiteRtOpCodeTflTile | kLiteRtOpCodeTflExpandDims
| kLiteRtOpCodeTflEqual | kLiteRtOpCodeTflNotEqual | kLiteRtOpCodeTflLog | kLiteRtOpCodeTflSum
| kLiteRtOpCodeTflSqrt | kLiteRtOpCodeTflRsqrt | kLiteRtOpCodeTflShape | kLiteRtOpCodeTflPow
| kLiteRtOpCodeTflArgMin | kLiteRtOpCodeTflFakeQuant | kLiteRtOpCodeTflReduceProd
| kLiteRtOpCodeTflReduceMax | kLiteRtOpCodeTflPack | kLiteRtOpCodeTflLogicalOr
| kLiteRtOpCodeTflOneHot | kLiteRtOpCodeTflLogicalAnd | kLiteRtOpCodeTflLogicalNot
| kLiteRtOpCodeTflUnpack | kLiteRtOpCodeTflReduceMin | kLiteRtOpCodeTflFloorDiv
| kLiteRtOpCodeTflReduceAny | kLiteRtOpCodeTflSquare | kLiteRtOpCodeTflZerosLike
| kLiteRtOpCodeTflFill | kLiteRtOpCodeTflFloorMod | kLiteRtOpCodeTflRange
| kLiteRtOpCodeTflResizeNearestNeighbor | kLiteRtOpCodeTflLeakyRelu
| kLiteRtOpCodeTflSquaredDifference | kLiteRtOpCodeTflMirrorPad | kLiteRtOpCodeTflAbs
| kLiteRtOpCodeTflSplitV | kLiteRtOpCodeTflUnique | kLiteRtOpCodeTflCeil
| kLiteRtOpCodeTflReverseV2 | kLiteRtOpCodeTflAddN | kLiteRtOpCodeTflGatherNd
| kLiteRtOpCodeTflCos | kLiteRtOpCodeTflWhere | kLiteRtOpCodeTflRank | kLiteRtOpCodeTflElu
| kLiteRtOpCodeTflReverseSequence | kLiteRtOpCodeTflMatrixDiag | kLiteRtOpCodeTflQuantize
| kLiteRtOpCodeTflMatrixSetDiag | kLiteRtOpCodeTflRound | kLiteRtOpCodeTflHardSwish
| kLiteRtOpCodeTflIf | kLiteRtOpCodeTflWhile | kLiteRtOpCodeTflNonMaxSuppressionV4
| kLiteRtOpCodeTflNonMaxSuppressionV5 | kLiteRtOpCodeTflScatterNd | kLiteRtOpCodeTflSelectV2
| kLiteRtOpCodeTflDensify | kLiteRtOpCodeTflSegmentSum | kLiteRtOpCodeTflBatchMatmul
| kLiteRtOpCodeTflPlaceholderForGreaterOpCodeTfls | kLiteRtOpCodeTflCumsum
| kLiteRtOpCodeTflCallOnce | kLiteRtOpCodeTflBroadcastTo | kLiteRtOpCodeTflRfft2d
| kLiteRtOpCodeTflConv3d | kLiteRtOpCodeTflImag | kLiteRtOpCodeTflReal
| kLiteRtOpCodeTflComplexAbs | kLiteRtOpCodeTflHashtable | kLiteRtOpCodeTflHashtableFind
| kLiteRtOpCodeTflHashtableImport | kLiteRtOpCodeTflHashtableSize | kLiteRtOpCodeTflReduceAll
| kLiteRtOpCodeTflConv3dTranspose | kLiteRtOpCodeTflVarHandle | kLiteRtOpCodeTflReadVariable
| kLiteRtOpCodeTflAssignVariable | kLiteRtOpCodeTflBroadcastArgs
| kLiteRtOpCodeTflRandomStandardNormal | kLiteRtOpCodeTflBucketize
| kLiteRtOpCodeTflRandomUniform | kLiteRtOpCodeTflMultinomial | kLiteRtOpCodeTflGelu
| kLiteRtOpCodeTflDynamicUpdateSlice | kLiteRtOpCodeTflRelu0To1
| kLiteRtOpCodeTflUnsortedSegmentProd | kLiteRtOpCodeTflUnsortedSegmentMax
| kLiteRtOpCodeTflUnsortedSegmentSum | kLiteRtOpCodeTflAtan2 | kLiteRtOpCodeTflUnsortedSegmentMin
| kLiteRtOpCodeTflSign | kLiteRtOpCodeTflBitcast | kLiteRtOpCodeTflBitwiseXor
| kLiteRtOpCodeTflRightShift | kLiteRtOpCodeShloLogistic | kLiteRtOpCodeShloAdd
| kLiteRtOpCodeShloDivide | kLiteRtOpCodeShloMultiply | kLiteRtOpCodeShloMaximum
| kLiteRtOpCodeShloReshape | kLiteRtOpCodeShloClamp | kLiteRtOpCodeShloConcatenate
| kLiteRtOpCodeShloBroadcastInDim | kLiteRtOpCodeShloConvolution | kLiteRtOpCodeShloSlice
| kLiteRtOpCodeShloCustomCall | kLiteRtOpCodeShloReduce | kLiteRtOpCodeShloAbs
| kLiteRtOpCodeShloAnd | kLiteRtOpCodeShloCosine | kLiteRtOpCodeShloExponential
| kLiteRtOpCodeShloFloor | kLiteRtOpCodeShloLog | kLiteRtOpCodeShloMinimum
| kLiteRtOpCodeShloNegate | kLiteRtOpCodeShloOr | kLiteRtOpCodeShloPower
| kLiteRtOpCodeShloRemainder | kLiteRtOpCodeShloRsqrt | kLiteRtOpCodeShloSelect
| kLiteRtOpCodeShloSubtract | kLiteRtOpCodeShloTanh | kLiteRtOpCodeShloScatter
| kLiteRtOpCodeShloCompare | kLiteRtOpCodeShloConvert | kLiteRtOpCodeShloDynamicSlice
| kLiteRtOpCodeShloDynamicUpdateSlice | kLiteRtOpCodeShloPad | kLiteRtOpCodeShloIota
| kLiteRtOpCodeShloGeneral | kLiteRtOpCodeShloWindow | kLiteRtOpCodeShloSort
| kLiteRtOpCodeShloWhile | kLiteRtOpCodeShloGather | kLiteRtOpCodeShloTranspose
| kLiteRtOpCodeTflDilate | kLiteRtOpCodeShloRngBitGenerator | kLiteRtOpCodeTflReduceWindow
| kLiteRtOpCodeShloComposite.

(** The values of the enumerators. *)
Definition op_code_value (c : LiteRtOpCode) : Z :=
  match c with
  | kLiteRtOpCodeTflAdd => 0 | kLiteRtOpCodeTflAveragePool2d => 1
  | kLiteRtOpCodeTflConcatenation => 2 | kLiteRtOpCodeTflConv2d => 3
  | kLiteRtOpCodeTflDepthwiseConv2d => 4 | kLiteRtOpCodeTflDepthToSpace => 5
  | kLiteRtOpCodeTflDequantize => 6 | kLiteRtOpCodeTflEmbeddingLookup => 7
  | kLiteRtOpCodeTflFloor => 8 | kLiteRtOpCodeTflFullyConnected => 9
  | kLiteRtOpCodeTflHashtableLookup => 10 | kLiteRtOpCodeTflL2Normalization => 11
  | kLiteRtOpCodeTflL2Pool2d => 12 | kLiteRtOpCodeTflLocalResponseNormalization => 13
  | kLiteRtOpCodeTflLogistic => 14 | kLiteRtOpCodeTflLshProjection => 15
  | kLiteRtOpCodeTflLstm => 16 | kLiteRtOpCodeTflMaxPool2d => 17 | kLiteRtOpCodeTflMul => 18
  | kLiteRtOpCodeTflRelu => 19 | kLiteRtOpCodeTflReluN1To1 => 20 | kLiteRtOpCodeTflRelu6 => 21
  | kLiteRtOpCodeTflReshape => 22 | kLiteRtOpCodeTflResizeBilinear => 23
  | kLiteRtOpCodeTflRnn => 24 | kLiteRtOpCodeTflSoftmax => 25
  | kLiteRtOpCodeTflSpaceToDepth => 26 | kLiteRtOpCodeTflSvdf => 27 | kLiteRtOpCodeTflTanh => 28
  | kLiteRtOpCodeTflConcatEmbeddings => 29 | kLiteRtOpCodeTflSkipGram => 30
  | kLiteRtOpCodeTflCall => 31 | kLiteRtOpCodeTflCustom => 32
  | kLiteRtOpCodeTflEmbeddingLookupSparse => 33 | kLiteRtOpCodeTflPad => 34
  | kLiteRtOpCodeTflUnidirectionalSequenceRnn => 35 | kLiteRtOpCodeTflGather => 36
  | kLiteRtOpCodeTflBatchToSpaceNd => 37 | kLiteRtOpCodeTflSpaceToBatchNd => 38
  | kLiteRtOpCodeTflTranspose => 39 | kLiteRtOpCodeTflMean => 40 | kLiteRtOpCodeTflSub => 41
  | kLiteRtOpCodeTflDiv => 42 | kLiteRtOpCodeTflSqueeze => 43
  | kLiteRtOpCodeTflUnidirectionalSequenceLstm => 44 | kLiteRtOpCodeTflStridedSlice => 45
  | kLiteRtOpCodeTflBidirectionalSequenceRnn => 46 | kLiteRtOpCodeTflExp => 47
  | kLiteRtOpCodeTflTopkV2 => 48 | kLiteRtOpCodeTflSplit => 49 | kLiteRtOpCodeTflLogSoftmax => 50
  | kLiteRtOpCodeTflDelegate => 51 | kLiteRtOpCodeTflBidirectionalSequenceLstm => 52
  | kLiteRtOpCodeTflCast => 53 | kLiteRtOpCodeTflPrelu => 54 | kLiteRtOpCodeTflMaximum => 55
  | kLiteRtOpCodeTflArgMax => 56 | kLiteRtOpCodeTflMinimum => 57 | kLiteRtOpCodeTflLess => 58
  | kLiteRtOpCodeTflNeg => 59 | kLiteRtOpCodeTflPadv2 => 60 | kLiteRtOpCodeTflGreater => 61
  | kLiteRtOpCodeTflGreaterEqual => 62 | kLiteRtOpCodeTflLessEqual => 63
  | kLiteRtOpCodeTflSelect => 64 | kLiteRtOpCodeTflSlice => 65 | kLiteRtOpCodeTflSin => 66
  | kLiteRtOpCodeTflTransposeConv => 67 | kLiteRtOpCodeTflSparseToDense => 68
  | kLiteRtOpCodeTflTile => 69 | kLiteRtOpCodeTflExpandDims => 70 | kLiteRtOpCodeTflEqual => 71
  | kLiteRtOpCodeTflNotEqual => 72 | kLiteRtOpCodeTflLog => 73 | kLiteRtOpCodeTflSum => 74
  | kLiteRtOpCodeTflSqrt => 75 | kLiteRtOpCodeTflRsqrt => 76 | kLiteRtOpCodeTflShape => 77
  | kLiteRtOpCodeTflPow => 78 | kLiteRtOpCodeTflArgMin => 79 | kLiteRtOpCodeTflFakeQuant => 80
  | kLiteRtOpCodeTflReduceProd => 81 | kLiteRtOpCodeTflReduceMax => 82
  | kLiteRtOpCodeTflPack => 83 | kLiteRtOpCodeTflLogicalOr => 84 | kLiteRtOpCodeTflOneHot => 85
  | kLiteRtOpCodeTflLogicalAnd => 86 | kLiteRtOpCodeTflLogicalNot => 87
  | kLiteRtOpCodeTflUnpack => 88 | kLiteRtOpCodeTflReduceMin => 89
  | kLiteRtOpCodeTflFloorDiv => 90 | kLiteRtOpCodeTflReduceAny => 91
  | kLiteRtOpCodeTflSquare => 92 | kLiteRtOpCodeTflZerosLike => 93 | kLiteRtOpCodeTflFill => 94
  | kLiteRtOpCodeTflFloorMod => 95 | kLiteRtOpCodeTflRange => 96
  | kLiteRtOpCodeTflResizeNearestNeighbor => 97 | kLiteRtOpCodeTflLeakyRelu => 98
  | kLiteRtOpCodeTflSquaredDifference => 99 | kLiteRtOpCodeTflMirrorPad => 100
  | kLiteRtOpCodeTflAbs => 101 | kLiteRtOpCodeTflSplitV => 102 | kLiteRtOpCodeTflUnique => 103
  | kLiteRtOpCodeTflCeil => 104 | kLiteRtOpCodeTflReverseV2 => 105 | kLiteRtOpCodeTflAddN => 106
  | kLiteRtOpCodeTflGatherNd => 107 | kLiteRtOpCodeTflCos => 108 | kLiteRtOpCodeTflWhere => 109
  | kLiteRtOpCodeTflRank => 110 | kLiteRtOpCodeTflElu => 111
  | kLiteRtOpCodeTflReverseSequence => 112 | kLiteRtOpCodeTflMatrixDiag => 113
  | kLiteRtOpCodeTflQuantize => 114 | kLiteRtOpCodeTflMatrixSetDiag => 115
  | kLiteRtOpCodeTflRound => 116 | kLiteRtOpCodeTflHardSwish => 117 | kLiteRtOpCodeTflIf => 118
  | kLiteRtOpCodeTflWhile => 119 | kLiteRtOpCodeTflNonMaxSuppressionV4 => 120
  | kLiteRtOpCodeTflNonMaxSuppressionV5 => 121 | kLiteRtOpCodeTflScatterNd => 122
  | kLiteRtOpCodeTflSelectV2 => 123 | kLiteRtOpCodeTflDensify => 124
  | kLiteRtOpCodeTflSegmentSum => 125 | kLiteRtOpCodeTflBatchMatmul => 126
  | kLiteRtOpCodeTflPlaceholderForGreaterOpCodeTfls => 127 | kLiteRtOpCodeTflCumsum => 128
  | kLiteRtOpCodeTflCallOnce => 129 | kLiteRtOpCodeTflBroadcastTo => 130
  | kLiteRtOpCodeTflRfft2d => 131 | kLiteRtOpCodeTflConv3d => 132 | kLiteRtOpCodeTflImag => 133
  | kLiteRtOpCodeTflReal => 134 | kLiteRtOpCodeTflComplexAbs => 135
  | kLiteRtOpCodeTflHashtable => 136 | kLiteRtOpCodeTflHashtableFind => 137
  | kLiteRtOpCodeTflHashtableImport => 138 | kLiteRtOpCodeTflHashtableSize => 139
  | kLiteRtOpCodeTflReduceAll => 140 | kLiteRtOpCodeTflConv3dTranspose => 141
  | kLiteRtOpCodeTflVarHandle => 142 | kLiteRtOpCodeTflReadVariable => 143
  | kLiteRtOpCodeTflAssignVariable => 144 | kLiteRtOpCodeTflBroadcastArgs => 145
  | kLiteRtOpCodeTflRandomStandardNormal => 146 | kLiteRtOpCodeTflBucketize => 147
  | kLiteRtOpCodeTflRandomUniform => 148 | kLiteRtOpCodeTflMultinomial => 149
  | kLiteRtOpCodeTflGelu => 150 | kLiteRtOpCodeTflDynamicUpdateSlice => 151
  | kLiteRtOpCodeTflRelu0To1 => 152 | kLiteRtOpCodeTflUnsortedSegmentProd => 153
  | kLiteRtOpCodeTflUnsortedSegmentMax => 154 | kLiteRtOpCodeTflUnsortedSegmentSum => 155
  | kLiteRtOpCodeTflAtan2 => 156 | kLiteRtOpCodeTflUnsortedSegmentMin => 157
  | kLiteRtOpCodeTflSign => 158 | kLiteRtOpCodeTflBitcast => 159
  | kLiteRtOpCodeTflBitwiseXor => 160 | kLiteRtOpCodeTflRightShift => 161
  | kLiteRtOpCodeShloLogistic => 162 | kLiteRtOpCodeShloAdd => 163
  | kLiteRtOpCodeShloDivide => 164 | kLiteRtOpCodeShloMultiply => 165
  | kLiteRtOpCodeShloMaximum => 166 | kLiteRtOpCodeShloReshape => 167
  | kLiteRtOpCodeShloClamp => 168 | kLiteRtOpCodeShloConcatenate => 169
  | kLiteRtOpCodeShloBroadcastInDim => 170 | kLiteRtOpCodeShloConvolution => 171
  | kLiteRtOpCodeShloSlice => 172 | kLiteRtOpCodeShloCustomCall => 173
  | kLiteRtOpCodeShloReduce => 174 | kLiteRtOpCodeShloAbs => 175 | kLiteRtOpCodeShloAnd => 176
  | kLiteRtOpCodeShloCosine => 177 | kLiteRtOpCodeShloExponential => 178
  | kLiteRtOpCodeShloFloor => 179 | kLiteRtOpCodeShloLog => 180 | kLiteRtOpCodeShloMinimum => 181
  | kLiteRtOpCodeShloNegate => 182 | kLiteRtOpCodeShloOr => 183 | kLiteRtOpCodeShloPower => 184
  | kLiteRtOpCodeShloRemainder => 185 | kLiteRtOpCodeShloRsqrt => 186
  | kLiteRtOpCodeShloSelect => 187 | kLiteRtOpCodeShloSubtract => 188
  | kLiteRtOpCodeShloTanh => 189 | kLiteRtOpCodeShloScatter => 190
  | kLiteRtOpCodeShloCompare => 191 | kLiteRtOpCodeShloConvert => 192
  | kLiteRtOpCodeShloDynamicSlice => 193 | kLiteRtOpCodeShloDynamicUpdateSlice => 194
  | kLiteRtOpCodeShloPad => 195 | kLiteRtOpCodeShloIota => 196 | kLiteRtOpCodeShloGeneral => 197
  | kLiteRtOpCodeShloWindow => 198 | kLiteRtOpCodeShloSort => 199 | kLiteRtOpCodeShloWhile => 200
  | kLiteRtOpCodeShloGather => 201 | kLiteRtOpCodeShloTranspose => 202
  | kLiteRtOpCodeTflDilate => 203 | kLiteRtOpCodeShloRngBitGenerator => 204
  | kLiteRtOpCodeTflReduceWindow => 205 | kLiteRtOpCodeShloComposite => 206
  end.

(** The enumerators by value. *)
Definition op_codes : list LiteRtOpCode :=
  [kLiteRtOpCodeTflAdd; kLiteRtOpCodeTflAveragePool2d; kLiteRtOpCodeTflConcatenation;
   kLiteRtOpCodeTflConv2d; kLiteRtOpCodeTflDepthwiseConv2d; kLiteRtOpCodeTflDepthToSpace;
   kLiteRtOpCodeTflDequantize; kLiteRtOpCodeTflEmbeddingLookup; kLiteRtOpCodeTflFloor;
   kLiteRtOpCodeTflFullyConnected; kLiteRtOpCodeTflHashtableLookup;
   kLiteRtOpCodeTflL2Normalization; kLiteRtOpCodeTflL2Pool2d;
   kLiteRtOpCodeTflLocalResponseNormalization; kLiteRtOpCodeTflLogistic;
   kLiteRtOpCodeTflLshProjection; kLiteRtOpCodeTflLstm; kLiteRtOpCodeTflMaxPool2d;
   kLiteRtOpCodeTflMul; kLiteRtOpCodeTflRelu; kLiteRtOpCodeTflReluN1To1; kLiteRtOpCodeTflRelu6;
   kLiteRtOpCodeTflReshape; kLiteRtOpCodeTflResizeBilinear; kLiteRtOpCodeTflRnn;
   kLiteRtOpCodeTflSoftmax; kLiteRtOpCodeTflSpaceToDepth; kLiteRtOpCodeTflSvdf;
   kLiteRtOpCodeTflTanh; kLiteRtOpCodeTflConcatEmbeddings; kLiteRtOpCodeTflSkipGram;
   kLiteRtOpCodeTflCall; kLiteRtOpCodeTflCustom; kLiteRtOpCodeTflEmbeddingLookupSparse;
   kLiteRtOpCodeTflPad; kLiteRtOpCodeTflUnidirectionalSequenceRnn; kLiteRtOpCodeTflGather;
   kLiteRtOpCodeTflBatchToSpaceNd; kLiteRtOpCodeTflSpaceToBatchNd; kLiteRtOpCodeTflTranspose;
   kLiteRtOpCodeTflMean; kLiteRtOpCodeTflSub; kLiteRtOpCodeTflDiv; kLiteRtOpCodeTflSqueeze;
   kLiteRtOpCodeTflUnidirectionalSequenceLstm; kLiteRtOpCodeTflStridedSlice;
   kLiteRtOpCodeTflBidirectionalSequenceRnn; kLiteRtOpCodeTflExp; kLiteRtOpCodeTflTopkV2;
   kLiteRtOpCodeTflSplit; kLiteRtOpCodeTflLogSoftmax; kLiteRtOpCodeTflDelegate;
   kLiteRtOpCodeTflBidirectionalSequenceLstm; kLiteRtOpCodeTflCast; kLiteRtOpCodeTflPrelu;
   kLiteRtOpCodeTflMaximum; kLiteRtOpCodeTflArgMax; kLiteRtOpCodeTflMinimum;
   kLiteRtOpCodeTflLess; kLiteRtOpCodeTflNeg; kLiteRtOpCodeTflPadv2; kLiteRtOpCodeTflGreater;
   kLiteRtOpCodeTflGreaterEqual; kLiteRtOpCodeTflLessEqual; kLiteRtOpCodeTflSelect;
   kLiteRtOpCodeTflSlice; kLiteRtOpCodeTflSin; kLiteRtOpCodeTflTransposeConv;
   kLiteRtOpCodeTflSparseToDense; kLiteRtOpCodeTflTile; kLiteRtOpCodeTflExpandDims;
   kLiteRtOpCodeTflEqual; kLiteRtOpCodeTflNotEqual; kLiteRtOpCodeTflLog; kLiteRtOpCodeTflSum;
   kLiteRtOpCodeTflSqrt; kLiteRtOpCodeTflRsqrt; kLiteRtOpCodeTflShape; kLiteRtOpCodeTflPow;
   kLiteRtOpCodeTflArgMin; kLiteRtOpCodeTflFakeQuant; kLiteRtOpCodeTflReduceProd;
   kLiteRtOpCodeTflReduceMax; kLiteRtOpCodeTflPack; kLiteRtOpCodeTflLogicalOr;
   kLiteRtOpCodeTflOneHot; kLiteRtOpCodeTflLogicalAnd; kLiteRtOpCodeTflLogicalNot;
   kLiteRtOpCodeTflUnpack; kLiteRtOpCodeTflReduceMin; kLiteRtOpCodeTflFloorDiv;
   kLiteRtOpCodeTflReduceAny; kLiteRtOpCodeTflSquare; kLiteRtOpCodeTflZerosLike;
   kLiteRtOpCodeTflFill; kLiteRtOpCodeTflFloorMod; kLiteRtOpCodeTflRange;
   kLiteRtOpCodeTflResizeNearestNeighbor; kLiteRtOpCodeTflLeakyRelu;
   kLiteRtOpCodeTflSquaredDifference; kLiteRtOpCodeTflMirrorPad; kLiteRtOpCodeTflAbs;
   kLiteRtOpCodeTflSplitV; kLiteRtOpCodeTflUnique; kLiteRtOpCodeTflCeil;
   kLiteRtOpCodeTflReverseV2; kLiteRtOpCodeTflAddN; kLiteRtOpCodeTflGatherNd;
   kLiteRtOpCodeTflCos; kLiteRtOpCodeTflWhere; kLiteRtOpCodeTflRank; kLiteRtOpCodeTflElu;
   kLiteRtOpCodeTflReverseSequence; kLiteRtOpCodeTflMatrixDiag; kLiteRtOpCodeTflQuantize;
   kLiteRtOpCodeTflMatrixSetDiag; kLiteRtOpCodeTflRound; kLiteRtOpCodeTflHardSwish;
   kLiteRtOpCodeTflIf; kLiteRtOpCodeTflWhile; kLiteRtOpCodeTflNonMaxSuppressionV4;
   kLiteRtOpCodeTflNonMaxSuppressionV5; kLiteRtOpCodeTflScatterNd; kLiteRtOpCodeTflSelectV2;
   kLiteRtOpCodeTflDensify; kLiteRtOpCodeTflSegmentSum; kLiteRtOpCodeTflBatchMatmul;
   kLiteRtOpCodeTflPlaceholderForGreaterOpCodeTfls; kLiteRtOpCodeTflCumsum;
   kLiteRtOpCodeTflCallOnce; kLiteRtOpCodeTflBroadcastTo; kLiteRtOpCodeTflRfft2d;
   kLiteRtOpCodeTflConv3d; kLiteRtOpCodeTflImag; kLiteRtOpCodeTflReal;
   kLiteRtOpCodeTflComplexAbs; kLiteRtOpCodeTflHashtable; kLiteRtOpCodeTflHashtableFind;
   kLiteRtOpCodeTflHashtableImport; kLiteRtOpCodeTflHashtableSize; kLiteRtOpCodeTflReduceAll;
   kLiteRtOpCodeTflConv3dTranspose; kLiteRtOpCodeTflVarHandle; kLiteRtOpCodeTflReadVariable;
   kLiteRtOpCodeTflAssignVariable; kLiteRtOpCodeTflBroadcastArgs;
   kLiteRtOpCodeTflRandomStandardNormal; kLiteRtOpCodeTflBucketize;
   kLiteRtOpCodeTflRandomUniform; kLiteRtOpCodeTflMultinomial; kLiteRtOpCodeTflGelu;
   kLiteRtOpCodeTflDynamicUpdateSlice; kLiteRtOpCodeTflRelu0To1;
   kLiteRtOpCodeTflUnsortedSegmentProd; kLiteRtOpCodeTflUnsortedSegmentMax;
   kLiteRtOpCodeTflUnsortedSegmentSum; kLiteRtOpCodeTflAtan2; kLiteRtOpCodeTflUnsortedSegmentMin;
   kLiteRtOpCodeTflSign; kLiteRtOpCodeTflBitcast; kLiteRtOpCodeTflBitwiseXor;
   kLiteRtOpCodeTflRightShift; kLiteRtOpCodeShloLogistic; kLiteRtOpCodeShloAdd;
   kLiteRtOpCodeShloDivide; kLiteRtOpCodeShloMultiply; kLiteRtOpCodeShloMaximum;
   kLiteRtOpCodeShloReshape; kLiteRtOpCodeShloClamp; kLiteRtOpCodeShloConcatenate;
   kLiteRtOpCodeShloBroadcastInDim; kLiteRtOpCodeShloConvolution; kLiteRtOpCodeShloSlice;
   kLiteRtOpCodeShloCustomCall; kLiteRtOpCodeShloReduce; kLiteRtOpCodeShloAbs;
   kLiteRtOpCodeShloAnd; kLiteRtOpCodeShloCosine; kLiteRtOpCodeShloExponential;
   kLiteRtOpCodeShloFloor; kLiteRtOpCodeShloLog; kLiteRtOpCodeShloMinimum;
   kLiteRtOpCodeShloNegate; kLiteRtOpCodeShloOr; kLiteRtOpCodeShloPower;
   kLiteRtOpCodeShloRemainder; kLiteRtOpCodeShloRsqrt; kLiteRtOpCodeShloSelect;
   kLiteRtOpCodeShloSubtract; kLiteRtOpCodeShloTanh; kLiteRtOpCodeShloScatter;
   kLiteRtOpCodeShloCompare; kLiteRtOpCodeShloConvert; kLiteRtOpCodeShloDynamicSlice;
   kLiteRtOpCodeShloDynamicUpdateSlice; kLiteRtOpCodeShloPad; kLiteRtOpCodeShloIota;
   kLiteRtOpCodeShloGeneral; kLiteRtOpCodeShloWindow; kLiteRtOpCodeShloSort;
   kLiteRtOpCodeShloWhile; kLiteRtOpCodeShloGather; kLiteRtOpCodeShloTranspose;
   kLiteRtOpCodeTflDilate; kLiteRtOpCodeShloRngBitGenerator; kLiteRtOpCodeTflReduceWindow;
   kLiteRtOpCodeShloComposite].

Lemma op_codes_value c : zget op_codes (op_code_value c) = Some c.
Proof. by destruct c. Qed.

Lemma op_code_value_inj c d : op_code_value c = op_code_value d → c = d.
Proof.
  intros Hcd. pose proof (op_codes_value c) as Hc. rewrite Hcd, op_codes_value in Hc.
  by simplify_eq.
Qed.

#[export] Instance LiteRtOpCode_eq_dec : EqDecision LiteRtOpCode.
Proof.
  intros c d. destruct (decide (op_code_value c = op_code_value d)) as [H|H].
  - left. by apply op_code_value_inj.
  - right. intros ->. done.
Defined.

#[export] Instance LiteRtOpCode_countable : Countable LiteRtOpCode.
Proof.
  refine (inj_countable op_code_value (zget op_codes) _). apply op_codes_value.
Defined.
