(* ===== verification/LiteRtIr.v ===== *)
(** * The LiteRT intermediate representation

    The objects of [litert/core/model/model.h] (tensors, operations, subgraphs)
    live in a heap and refer to each other by pointers; the operations of
    [litert/core/model/model.cc] and [ir_allocator.h] that build and rewrite
    the doubly linked graph are computations on that heap. *)

From S2P Require Import Prelude OpCodes.

(** ** Data *)

(** [LiteRtStatus], the values the modelled code returns. *)
Inductive LiteRtStatus :=
| kLiteRtStatusOk
| kLiteRtStatusErrorInvalidArgument
| kLiteRtStatusErrorUnsupported
| kLiteRtStatusErrorUnsupportedOpShapeInferer
| kLiteRtStatusErrorShapeInferenceFailed.

#[export] Instance LiteRtStatus_eq_dec : EqDecision LiteRtStatus.
Proof. solve_decision. Defined.

Inductive LiteRtElementType :=
| kLiteRtElementTypeNone | kLiteRtElementTypeBool | kLiteRtElementTypeInt2
| kLiteRtElementTypeInt4 | kLiteRtElementTypeInt8 | kLiteRtElementTypeInt16
| kLiteRtElementTypeInt32 | kLiteRtElementTypeInt64 | kLiteRtElementTypeUInt8
| kLiteRtElementTypeUInt16 | kLiteRtElementTypeUInt32 | kLiteRtElementTypeUInt64
| kLiteRtElementTypeFloat16 | kLiteRtElementTypeBFloat16 | kLiteRtElementTypeFloat32
| kLiteRtElementTypeFloat64 | kLiteRtElementTypeComplex64 | kLiteRtElementTypeComplex128
| kLiteRtElementTypeTfResource | kLiteRtElementTypeTfString | kLiteRtElementTypeTfVariant.

#[export] Instance LiteRtElementType_eq_dec : EqDecision LiteRtElementType.
Proof. solve_decision. Defined.

(** A shape; [-1] stands for a dynamic dimension. *)
Abbreviation Dims := (list Z).

(** The union of the ranked and the unranked tensor type with its identifier.
    The layout of a ranked type is its list of dimensions. *)
Inductive TensorType :=
| kLiteRtRankedTensorType (element_type : LiteRtElementType) (dimensions : Dims)
| kLiteRtUnrankedTensorType (element_type : LiteRtElementType).

#[export] Instance TensorType_eq_dec : EqDecision TensorType.
Proof. solve_decision. Defined.

(** Pointers to IR objects; [nullptr] is never allocated. *)
Abbreviation LiteRtTensor := nat (only parsing).
Abbreviation LiteRtOp := nat (only parsing).
Abbreviation LiteRtSubgraph := nat (only parsing).
Definition nullptr : nat := 0%nat.

Inductive Padding := Padding_SAME | Padding_VALID.

Record Conv2DOptionsT := {
  conv2d_padding : Padding;
  conv2d_stride_w : Z;
  conv2d_stride_h : Z;
  conv2d_dilation_w_factor : Z;
  conv2d_dilation_h_factor : Z
}.

Record DepthwiseConv2DOptionsT := {
  dw_padding : Padding;
  dw_stride_w : Z;
  dw_stride_h : Z;
  dw_depth_multiplier : Z;
  dw_dilation_w_factor : Z;
  dw_dilation_h_factor : Z
}.

Record Conv3DOptionsT := {
  conv3d_padding : Padding;
  conv3d_stride_d : Z;
  conv3d_stride_w : Z;
  conv3d_stride_h : Z;
  conv3d_dilation_d_factor : Z;
  conv3d_dilation_w_factor : Z;
  conv3d_dilation_h_factor : Z
}.

Record Pool2DOptionsT := {
  pool_padding : Padding;
  pool_stride_w : Z;
  pool_stride_h : Z;
  pool_filter_width : Z;
  pool_filter_height : Z
}.

(** The options union of the flatbuffer schema: the members that shape
    inference looks at, and all others. *)
Inductive TflOptions :=
| Conv2DOptions (o : Conv2DOptionsT)
| DepthwiseConv2DOptions (o : DepthwiseConv2DOptionsT)
| Conv3DOptions (o : Conv3DOptionsT)
| Pool2DOptions (o : Pool2DOptionsT)
| ConcatenationOptions (axis : Z)
| ReducerOptions (keep_dims : bool)
| ReshapeOptions (new_shape : list Z)
| GatherOptions (axis : Z)
| BatchMatMulOptions (adj_x adj_y : bool)
| FullyConnectedOptions (keep_num_dims : bool)
| PackOptions (axis : Z)
| UnpackOptions (num axis : Z)
| SplitOptions (num_splits : Z)
| StridedSliceOptions (new_axis_mask shrink_axis_mask : Z)
| DepthToSpaceOptions (block_size : Z)
| SpaceToDepthOptions (block_size : Z)
| OtherOptions.

(** The type of the quantization and its details; floats are kept as their bits. The
    arrays of a quantization per channel have [num_channels] elements each and are
    owned by the tensor. *)
Inductive Quantization :=
| kLiteRtQuantizationNone
| kLiteRtQuantizationPerTensor (scale zero_point : Z)
| kLiteRtQuantizationPerChannel (scales zero_points : list Z) (quantized_dimension : Z)
| kLiteRtQuantizationBlockWise.

Definition MakeEmptyQuantization : Quantization := kLiteRtQuantizationNone.
Definition MakePerTensorQuantization (scale zero_point : Z) : Quantization := kLiteRtQuantizationPerTensor scale zero_point.

(** The arrays are copied into a buffer of the tensor. *)
Definition MakePerChannelQuantization (scales zero_points : list Z) (quantized_dim : Z) : Quantization :=
  kLiteRtQuantizationPerChannel scales zero_points quantized_dim.

(** A tensor, an edge of the graph. [Weights] are the bytes of its buffer. *)
Record LiteRtTensorT := {
  Users : list LiteRtOp;
  UserArgInds : list Z;
  DefiningOp : LiteRtOp;
  DefiningOpOutInd : Z;
  Weights : list Z;
  Type_ : TensorType;
  Name : string;
  TensorIndex : Z;
  Qparams : Quantization
}.

(** An operation, a node of the graph. *)
Record LiteRtOpT := {
  OpCode : LiteRtOpCode;
  Inputs : list LiteRtTensor;
  Outputs : list LiteRtTensor;
  CustomOptions : list Z;
  TflOpCodeInd : Z;
  GetTflOptions : TflOptions
}.

(** A subgraph: its tensors and operations in the order of their allocators. *)
Record LiteRtSubgraphT := {
  Tensors : list LiteRtTensor;
  Ops : list LiteRtOp;
  SubgraphInputs : list LiteRtTensor;
  SubgraphOutputs : list LiteRtTensor
}.

(** The heap, the subgraphs of the model and the next address. *)
Record ir := {
  tensor_heap : gmap nat LiteRtTensorT;
  op_heap : gmap nat LiteRtOpT;
  subgraph_heap : gmap nat LiteRtSubgraphT;
  model_subgraphs : list LiteRtSubgraph;
  next_address : nat
}.

(** ** Access to the heap *)

Definition set_tensor_heap (m : gmap nat LiteRtTensorT) (h : ir) : ir :=
  {| tensor_heap := m; op_heap := op_heap h; subgraph_heap := subgraph_heap h;
     model_subgraphs := model_subgraphs h; next_address := next_address h |}.

Definition set_op_heap (m : gmap nat LiteRtOpT) (h : ir) : ir :=
  {| tensor_heap := tensor_heap h; op_heap := m; subgraph_heap := subgraph_heap h;
     model_subgraphs := model_subgraphs h; next_address := next_address h |}.

Definition set_subgraph_heap (m : gmap nat LiteRtSubgraphT) (h : ir) : ir :=
  {| tensor_heap := tensor_heap h; op_heap := op_heap h; subgraph_heap := m;
     model_subgraphs := model_subgraphs h; next_address := next_address h |}.

Definition get_tensor (t : LiteRtTensor) : M ir LiteRtTensorT :=
  m ← gets tensor_heap; deref (m !! t).
Definition get_op (o : LiteRtOp) : M ir LiteRtOpT := m ← gets op_heap; deref (m !! o).
Definition get_subgraph (g : LiteRtSubgraph) : M ir LiteRtSubgraphT :=
  m ← gets subgraph_heap; deref (m !! g).

Definition put_tensor (t : LiteRtTensor) (T : LiteRtTensorT) : M ir unit :=
  modify (λ h, set_tensor_heap (<[t := T]> (tensor_heap h)) h).
Definition put_op (o : LiteRtOp) (O : LiteRtOpT) : M ir unit :=
  modify (λ h, set_op_heap (<[o := O]> (op_heap h)) h).
Definition put_subgraph (g : LiteRtSubgraph) (G : LiteRtSubgraphT) : M ir unit :=
  modify (λ h, set_subgraph_heap (<[g := G]> (subgraph_heap h)) h).

(** An update through a pointer. *)
Definition update_tensor (t : LiteRtTensor) (f : LiteRtTensorT → LiteRtTensorT) : M ir unit :=
  T ← get_tensor t; put_tensor t (f T).
Definition update_op (o : LiteRtOp) (f : LiteRtOpT → LiteRtOpT) : M ir unit :=
  O ← get_op o; put_op o (f O).
Definition update_subgraph (g : LiteRtSubgraph) (f : LiteRtSubgraphT → LiteRtSubgraphT) :
    M ir unit :=
  G ← get_subgraph g; put_subgraph g (f G).

(** ** Setters *)

Definition set_uses (users : list LiteRtOp) (inds : list Z) (T : LiteRtTensorT) : LiteRtTensorT :=
  {| Users := users; UserArgInds := inds; DefiningOp := DefiningOp T;
     DefiningOpOutInd := DefiningOpOutInd T; Weights := Weights T; Type_ := Type_ T;
     Name := Name T; TensorIndex := TensorIndex T; Qparams := Qparams T |}.

Definition SetDefiningOp (o : LiteRtOp) (out_ind : Z) (T : LiteRtTensorT) : LiteRtTensorT :=
  {| Users := Users T; UserArgInds := UserArgInds T; DefiningOp := o;
     DefiningOpOutInd := out_ind; Weights := Weights T; Type_ := Type_ T;
     Name := Name T; TensorIndex := TensorIndex T; Qparams := Qparams T |}.

Definition ClearDefiningOp : LiteRtTensorT → LiteRtTensorT := SetDefiningOp nullptr 0.

Definition SetType (ty : TensorType) (T : LiteRtTensorT) : LiteRtTensorT :=
  {| Users := Users T; UserArgInds := UserArgInds T; DefiningOp := DefiningOp T;
     DefiningOpOutInd := DefiningOpOutInd T; Weights := Weights T; Type_ := ty;
     Name := Name T; TensorIndex := TensorIndex T; Qparams := Qparams T |}.

Definition set_Inputs (l : list LiteRtTensor) (O : LiteRtOpT) : LiteRtOpT :=
  {| OpCode := OpCode O; Inputs := l; Outputs := Outputs O; CustomOptions := CustomOptions O;
     TflOpCodeInd := TflOpCodeInd O; GetTflOptions := GetTflOptions O |}.

Definition set_Outputs (l : list LiteRtTensor) (O : LiteRtOpT) : LiteRtOpT :=
  {| OpCode := OpCode O; Inputs := Inputs O; Outputs := l; CustomOptions := CustomOptions O;
     TflOpCodeInd := TflOpCodeInd O; GetTflOptions := GetTflOptions O |}.

Definition set_Tensors (l : list LiteRtTensor) (G : LiteRtSubgraphT) : LiteRtSubgraphT :=
  {| Tensors := l; Ops := Ops G; SubgraphInputs := SubgraphInputs G;
     SubgraphOutputs := SubgraphOutputs G |}.

Definition set_Ops (l : list LiteRtOp) (G : LiteRtSubgraphT) : LiteRtSubgraphT :=
  {| Tensors := Tensors G; Ops := l; SubgraphInputs := SubgraphInputs G;
     SubgraphOutputs := SubgraphOutputs G |}.

Definition set_SubgraphInputs (l : list LiteRtTensor) (G : LiteRtSubgraphT) : LiteRtSubgraphT :=
  {| Tensors := Tensors G; Ops := Ops G; SubgraphInputs := l;
     SubgraphOutputs := SubgraphOutputs G |}.

Definition set_SubgraphOutputs (l : list LiteRtTensor) (G : LiteRtSubgraphT) : LiteRtSubgraphT :=
  {| Tensors := Tensors G; Ops := Ops G; SubgraphInputs := SubgraphInputs G;
     SubgraphOutputs := l |}.

(** [MakeRankedTensorType]: a layout holds at most eight
    dimensions, and copying more of them runs over the end of the array. *)
Definition LITERT_TENSOR_MAX_RANK : Z := 8.

Definition MakeRankedTensorType {S} (element_type : LiteRtElementType) (dims : Dims) :
    M S TensorType :=
  if zlen dims <=? LITERT_TENSOR_MAX_RANK then mret (kLiteRtRankedTensorType element_type dims)
  else undefined.

(** [vector::erase] at a position. *)
Definition verase {S A} (i : Z) (l : list A) : M S (list A) :=
  _ ← deref (zget l i); mret (delete (Z.to_nat i) l).

(** [LiteRtTensorT::NumUses], [RemoveUse], [LiteRtOpT::RemoveInput],
    [RemoveOutput]. *)
Definition NumUses (T : LiteRtTensorT) : Z := zlen (Users T).

Definition RemoveUse (t : LiteRtTensor) (ind : Z) : M ir unit :=
  T ← get_tensor t;
  users ← verase ind (Users T);
  inds ← verase ind (UserArgInds T);
  put_tensor t (set_uses users inds T).

Definition RemoveInput (o : LiteRtOp) (ind : Z) : M ir unit :=
  O ← get_op o; l ← verase ind (Inputs O); put_op o (set_Inputs l O).

Definition RemoveOutput (o : LiteRtOp) (ind : Z) : M ir unit :=
  O ← get_op o; l ← verase ind (Outputs O); put_op o (set_Outputs l O).

(** ** Queries *)

(** [FindInd] over pointers. *)
Fixpoint FindInd (l : list nat) (val : nat) : option Z :=
  match l with
  | [] => None
  | x :: l' => if decide (x = val) then Some 0 else Z.succ <$> FindInd l' val
  end.

Definition FindInput (O : LiteRtOpT) (t : LiteRtTensor) : option Z := FindInd (Inputs O) t.
Definition FindOutput (O : LiteRtOpT) (t : LiteRtTensor) : option Z := FindInd (Outputs O) t.
Definition FindSubgraphInput (G : LiteRtSubgraphT) (t : LiteRtTensor) : option Z :=
  FindInd (SubgraphInputs G) t.
Definition FindSubgraphOutput (G : LiteRtSubgraphT) (t : LiteRtTensor) : option Z :=
  FindInd (SubgraphOutputs G) t.

Definition IsIO (G : LiteRtSubgraphT) (t : LiteRtTensor) : bool :=
  bool_decide (is_Some (FindSubgraphInput G t)) || bool_decide (is_Some (FindSubgraphOutput G t)).

Definition FindUseInds (T : LiteRtTensorT) (o : LiteRtOp) : list Z :=
  filter (λ i, zget (Users T) i = Some o) (range 0 (NumUses T)).

(** [GetTensorUses]: the uses at the given indices ([vector::at] on both). *)
Definition GetTensorUses (T : LiteRtTensorT) (inds : list Z) : M ir (list (LiteRtOp * Z)) :=
  fold_m inds [] (λ uses i,
    user ← deref (zget (Users T) i);
    arg ← deref (zget (UserArgInds T) i);
    mret (uses ++ [(user, arg)])).

(** [IsConstant] reads the ranked member of the type union whatever the
    identifier says; on an unranked type that member is not the active one. *)
Definition IsConstant (T : LiteRtTensorT) : M ir bool :=
  match Type_ T with
  | kLiteRtRankedTensorType _ dimensions =>
      let is_zero_sized := bool_decide (dimensions = [0]) in
      mret ((0 <? zlen (Weights T)) || is_zero_sized)
  | kLiteRtUnrankedTensorType _ => undefined
  end.

Definition IsSubgraphInput (T : LiteRtTensorT) : M ir bool :=
  c ← IsConstant T; mret (negb c && bool_decide (DefiningOp T = nullptr)).

Definition IsOpDead (O : LiteRtOpT) : bool :=
  bool_decide (Inputs O = []) && bool_decide (Outputs O = []).

Definition IsTensorDead (T : LiteRtTensorT) : bool :=
  bool_decide (DefiningOp T = nullptr) && (NumUses T =? 0).

(** ** Edges *)

Definition AttachInput (t : LiteRtTensor) (o : LiteRtOp) : M ir unit :=
  update_op o (λ O, set_Inputs (Inputs O ++ [t]) O);;
  update_tensor t (λ T, set_uses (Users T ++ [o]) (UserArgInds T) T);;
  O ← get_op o;
  update_tensor t (λ T, set_uses (Users T) (UserArgInds T ++ [zlen (Inputs O) - 1]) T).

Definition AttachOutput (t : LiteRtTensor) (o : LiteRtOp) : M ir unit :=
  update_op o (λ O, set_Outputs (Outputs O ++ [t]) O);;
  O ← get_op o;
  update_tensor t (SetDefiningOp o (zlen (Outputs O) - 1)).

(** The index of the use for an in edge (the last that matches), [-1] if none. *)
Definition find_target_use (T : LiteRtTensorT) (o : LiteRtOp) (input_ind : Z) : M ir Z :=
  fold_m (range 0 (NumUses T)) (-1) (λ target i,
    user ← deref (zget (Users T) i);
    if decide (user = o) then
      arg ← deref (zget (UserArgInds T) i);
      mret (if arg =? input_ind then i else target)
    else mret target).

(** Slide the argument indices of one input tensor to the left. *)
Definition slide_use (r : LiteRtTensor) (o : LiteRtOp) (input_ind u : Z) : M ir unit :=
  R ← get_tensor r;
  r_arg_ind ← deref (zget (UserArgInds R) u);
  user ← deref (zget (Users R) u);
  if decide (user = o ∧ input_ind < r_arg_ind) then
    put_tensor r (set_uses (Users R) (zset u (r_arg_ind - 1) (UserArgInds R)) R)
  else mret ().

Definition slide_uses (o : LiteRtOp) (input_ind i : Z) : M ir unit :=
  O ← get_op o;
  r ← deref (zget (Inputs O) i);
  R ← get_tensor r;
  for_each (range 0 (NumUses R)) (slide_use r o input_ind).

Definition DisconnectInput (o : LiteRtOp) (input_ind : Z) : M ir LiteRtTensor :=
  O ← get_op o;
  input ← deref (zget (Inputs O) input_ind);
  T ← get_tensor input;
  target_use_ind ← find_target_use T o input_ind;
  for_each (range (input_ind + 1) (zlen (Inputs O))) (slide_uses o input_ind);;
  RemoveUse input target_use_ind;;
  RemoveInput o input_ind;;
  mret input.

Definition DisconnectOutput (o : LiteRtOp) (output_ind : Z) : M ir LiteRtTensor :=
  O ← get_op o;
  output ← deref (zget (Outputs O) output_ind);
  update_tensor output ClearDefiningOp;;
  RemoveOutput o output_ind;;
  mret output.

(** [while (!c.empty()) body], with fuel for the loop. *)
Fixpoint while_m {S} (fuel : nat) (cond : M S bool) (body : M S unit) : M S unit :=
  b ← cond;
  if (b : bool) then
    match fuel with
    | O => undefined
    | Datatypes.S fuel => body ;; while_m fuel cond body
    end
  else mret ().

(** [Drop]: disconnect every edge of an operation. The fuel of its loops is the
    number of the edges. *)
Definition Drop (o : LiteRtOp) : M ir unit :=
  O ← get_op o;
  while_m (length (Inputs O)) (O ← get_op o; mret (bool_decide (Inputs O ≠ [])))
    (DisconnectInput o 0 ;; mret ());;
  O ← get_op o;
  while_m (length (Outputs O)) (O ← get_op o; mret (bool_decide (Outputs O ≠ [])))
    (DisconnectOutput o 0 ;; mret ()).

(** ** Allocation *)

(** [IrAllocator::EmplaceBack]: a fresh object at the end of the list. *)
Definition fresh_address : M ir nat := λ h,
  Done (next_address h)
    {| tensor_heap := tensor_heap h; op_heap := op_heap h; subgraph_heap := subgraph_heap h;
       model_subgraphs := model_subgraphs h; next_address := S (next_address h) |}.

Definition empty_tensor : LiteRtTensorT :=
  {| Users := []; UserArgInds := []; DefiningOp := nullptr; DefiningOpOutInd := 0;
     Weights := []; Type_ := kLiteRtRankedTensorType kLiteRtElementTypeNone []; Name := "";
     TensorIndex := 0; Qparams := MakeEmptyQuantization |}.

Definition empty_op : LiteRtOpT :=
  {| OpCode := kLiteRtOpCodeTflAdd; Inputs := []; Outputs := []; CustomOptions := [];
     TflOpCodeInd := -1; GetTflOptions := OtherOptions |}.

Definition empty_subgraph : LiteRtSubgraphT :=
  {| Tensors := []; Ops := []; SubgraphInputs := []; SubgraphOutputs := [] |}.

Definition EmplaceTensor (g : LiteRtSubgraph) : M ir LiteRtTensor :=
  t ← fresh_address;
  put_tensor t empty_tensor;;
  update_subgraph g (λ G, set_Tensors (Tensors G ++ [t]) G);;
  mret t.

(** [EmplaceOpAt] and [EmplaceOp], which appends. *)
Definition EmplaceOpAt (g : LiteRtSubgraph) (index : Z) : M ir LiteRtOp :=
  G ← get_subgraph g;
  if decide (0 ≤ index ≤ zlen (Ops G)) then
    o ← fresh_address;
    put_op o empty_op;;
    let i := Z.to_nat index in
    put_subgraph g (set_Ops (take i (Ops G) ++ o :: drop i (Ops G)) G);;
    mret o
  else undefined.

Definition EmplaceOp (g : LiteRtSubgraph) : M ir LiteRtOp :=
  G ← get_subgraph g; EmplaceOpAt g (zlen (Ops G)).

Definition EmplaceSubgraph : M ir LiteRtSubgraph :=
  g ← fresh_address;
  put_subgraph g empty_subgraph;;
  modify (λ h, {| tensor_heap := tensor_heap h; op_heap := op_heap h;
    subgraph_heap := subgraph_heap h; model_subgraphs := model_subgraphs h ++ [g];
    next_address := next_address h |});;
  mret g.

(** [IrAllocator::RemoveIf]: keep the elements that fail the predicate, destroy
    the others; the elements left and the number of those removed. *)
Definition remove_if {A} (heap : ir → gmap nat A) (set_heap : gmap nat A → ir → ir)
    (pred : nat → A → bool) (refs : list nat) : M ir (list nat * Z) :=
  fold_m refs ([], 0) (λ '(kept, removed) p,
    m ← gets heap;
    a ← deref (m !! p);
    if pred p a then modify (set_heap (delete p m)) ;; mret (kept, removed + 1)
    else mret (kept ++ [p], removed)).

Definition RemoveOpIf (g : LiteRtSubgraph) (pred : nat → LiteRtOpT → bool) : M ir Z :=
  G ← get_subgraph g;
  kr ← remove_if op_heap set_op_heap pred (Ops G);
  put_subgraph g (set_Ops kr.1 G);;
  mret kr.2.

Definition RemoveTensorIf (g : LiteRtSubgraph) (pred : nat → LiteRtTensorT → bool) : M ir Z :=
  G ← get_subgraph g;
  kr ← remove_if tensor_heap set_tensor_heap pred (Tensors G);
  put_subgraph g (set_Tensors kr.1 G);;
  mret kr.2.

(** Dead code elimination: operations first, then tensors that are not inputs
    or outputs of the subgraph. *)
Definition DCE (g : LiteRtSubgraph) : M ir bool :=
  ops_removed ← RemoveOpIf g (λ _, IsOpDead);
  G ← get_subgraph g;
  tensors_removed ← RemoveTensorIf g (λ t T, IsTensorDead T && negb (IsIO G t));
  mret (0 <? ops_removed + tensors_removed).

(** ** Cloning

    [CloneTo] for a tensor copies the name, the quantization, the type, the index and
    the bytes of the weights, not the edges; for an operation everything but the
    edges. The arrays of a quantization per channel are copied as well. *)
Definition clone_Qparams (q : Quantization) : Quantization :=
  match q with
  | kLiteRtQuantizationPerChannel scales zero_points quantized_dimension =>
      MakePerChannelQuantization scales zero_points quantized_dimension
  | _ => q
  end.

Definition clone_tensor (src dest : LiteRtTensorT) : LiteRtTensorT :=
  {| Users := Users dest; UserArgInds := UserArgInds dest; DefiningOp := DefiningOp dest;
     DefiningOpOutInd := DefiningOpOutInd dest; Weights := Weights src; Type_ := Type_ src;
     Name := Name src; TensorIndex := TensorIndex src; Qparams := clone_Qparams (Qparams src) |}.

Definition clone_op (src dest : LiteRtOpT) : LiteRtOpT :=
  {| OpCode := OpCode src; Inputs := Inputs dest; Outputs := Outputs dest;
     CustomOptions := CustomOptions src; TflOpCodeInd := TflOpCodeInd src;
     GetTflOptions := GetTflOptions src |}.

Definition MakeTensorClone (parent : LiteRtSubgraph) (src : LiteRtTensor) : M ir LiteRtTensor :=
  new_tensor ← EmplaceTensor parent;
  T ← get_tensor src;
  update_tensor new_tensor (clone_tensor T);;
  mret new_tensor.

Definition MakeOpClone (parent : LiteRtSubgraph) (src : LiteRtOp) : M ir LiteRtOp :=
  new_op ← EmplaceOp parent;
  O ← get_op src;
  update_op new_op (clone_op O);;
  mret new_op.

(** ** Validation ([graph_validation.cc]) *)

(** The loops return [false] at the first bad edge: an error of the monad. *)
Definition validate_input (o : LiteRtOp) (O : LiteRtOpT) (i : Z) : M ir unit :=
  t ← deref (zget (Inputs O) i);
  T ← get_tensor t;
  input_use ← GetTensorUses T (FindUseInds T o);
  ensure (bool_decide (Exists (λ u : LiteRtOp * Z, u.2 = i) input_use)).

Definition validate_output (o : LiteRtOp) (O : LiteRtOpT) (i : Z) : M ir unit :=
  t ← deref (zget (Outputs O) i);
  T ← get_tensor t;
  ensure (bool_decide (DefiningOp T = o));;
  ensure (DefiningOpOutInd T =? i).

Definition ValidateLocalTopology (o : LiteRtOp) : M ir bool :=
  O ← get_op o;
  r ← try_m (
    for_each (range 0 (zlen (Inputs O))) (validate_input o O);;
    for_each (range 0 (zlen (Outputs O))) (validate_output o O));
  mret (bool_decide (is_Some r)).

Definition validate_io_tensor (G : LiteRtSubgraphT) (counts : Z * Z) (t : LiteRtTensor) :
    M ir (Z * Z) :=
  T ← get_tensor t;
  let implied_out := NumUses T =? 0 in
  c ← IsConstant T;
  let implied_in := negb c && bool_decide (DefiningOp T = nullptr) in
  ensure (negb (implied_out && implied_in));;
  let is_io := IsIO G t in
  ensure (negb implied_in || is_io);;
  ensure (negb implied_out || is_io);;
  mret (if implied_in then counts.1 + 1 else counts.1,
        if implied_out then counts.2 + 1 else counts.2).

Definition ValidateSubgraphIO (g : LiteRtSubgraph) : M ir bool :=
  G ← get_subgraph g;
  r ← try_m (
    counts ← fold_m (Tensors G) (0, 0) (validate_io_tensor G);
    ensure (counts.1 =? zlen (SubgraphInputs G));;
    ensure (counts.2 =? zlen (SubgraphOutputs G)));
  mret (bool_decide (is_Some r)).
