(* ===== verification/LiteRtGraphProofs.v ===== *)
(** * Correctness of the operations on the LiteRT graph

    The graph is doubly linked: an operation lists its inputs and outputs, a
    tensor lists its uses and its definition. [wf_ir] says that the two views
    agree; the operations that attach, detach and remove nodes keep it. *)

From S2P Require Import Prelude OpCodes LiteRtIr.

(** ** Uses of a tensor *)

Definition uses (T : LiteRtTensorT) : list (LiteRtOp * Z) := zip (Users T) (UserArgInds T).

Definition cnt (t : nat) (l : list nat) : nat := length (filter (λ x, x = t) l).

Definition slide_pair (o : LiteRtOp) (ind : Z) (p : LiteRtOp * Z) : LiteRtOp * Z :=
  if decide (p.1 = o ∧ ind < p.2) then (p.1, p.2 - 1) else p.

Definition with_uses (l : list (LiteRtOp * Z)) (T : LiteRtTensorT) : LiteRtTensorT :=
  set_uses l.*1 l.*2 T.

Definition balanced (T : LiteRtTensorT) : Prop := length (Users T) = length (UserArgInds T).

Lemma uses_with_uses l T : uses (with_uses l T) = l.
Proof. unfold uses, with_uses. simpl. apply zip_fst_snd. Qed.

Lemma with_uses_uses T : balanced T → with_uses (uses T) T = T.
Proof.
  intros Hb. unfold with_uses, uses, set_uses.
  rewrite fst_zip, snd_zip by (rewrite Hb; done). by destruct T.
Qed.

Lemma with_uses_twice l k T : with_uses l (with_uses k T) = with_uses l T.
Proof. done. Qed.

Lemma balanced_with_uses l T : balanced (with_uses l T).
Proof. unfold balanced. simpl. by rewrite !length_fmap. Qed.

Lemma uses_length T : balanced T → length (uses T) = length (Users T).
Proof. intros Hb. unfold uses. rewrite length_zip_with, <- Hb. lia. Qed.

Lemma uses_zget T i : balanced T → 0 ≤ i < NumUses T →
  ∃ u a, zget (Users T) i = Some u ∧ zget (UserArgInds T) i = Some a ∧
    uses T !! Z.to_nat i = Some (u, a).
Proof.
  unfold NumUses. intros Hb Hi.
  destruct (zget_is_Some (Users T) i) as [u Hu]; [lia|].
  destruct (zget_is_Some (UserArgInds T) i) as [a Ha]; [unfold balanced in Hb; lia|].
  exists u, a. split_and!; [done|done|].
  apply zget_Some in Hu as [_ Hu], Ha as [_ Ha].
  unfold uses. rewrite lookup_zip_with, Hu, Ha. done.
Qed.

Lemma cnt_app t l k : cnt t (l ++ k) = (cnt t l + cnt t k)%nat.
Proof. unfold cnt. by rewrite filter_app, length_app. Qed.

Lemma cnt_cons t x l : cnt t (x :: l) = ((if decide (x = t) then 1 else 0) + cnt t l)%nat.
Proof. unfold cnt. rewrite filter_cons. by destruct (decide (x = t)). Qed.

Lemma cnt_0 t l : t ∉ l → cnt t l = 0%nat.
Proof. intros Ht. unfold cnt. rewrite filter_none; [done|]. by intros x Hx ->. Qed.

Lemma cnt_elem t l : t ∈ l → (1 ≤ cnt t l)%nat.
Proof.
  induction 1 as [t l|t x l _ IH]; rewrite cnt_cons; [rewrite decide_True by done|]; lia.
Qed.

Lemma cnt_NoDup t l : NoDup l → (cnt t l ≤ 1)%nat.
Proof.
  induction 1 as [|x l Hx Hl IH]; [unfold cnt; simpl; lia|]. rewrite cnt_cons. case_decide; [subst|lia].
  by rewrite (cnt_0 _ _ Hx).
Qed.

(** ** Access to the heap *)

Lemma wp_get_tensor t T Q E h : tensor_heap h !! t = Some T → Q T h → wp (get_tensor t) Q E h.
Proof. intros Ht HQ. unfold get_tensor. wp_steps. by eapply wp_deref. Qed.

Lemma wp_get_op o O Q E h : op_heap h !! o = Some O → Q O h → wp (get_op o) Q E h.
Proof. intros Ho HQ. unfold get_op. wp_steps. by eapply wp_deref. Qed.

Lemma wp_get_subgraph g G Q E h :
  subgraph_heap h !! g = Some G → Q G h → wp (get_subgraph g) Q E h.
Proof. intros Ho HQ. unfold get_subgraph. wp_steps. by eapply wp_deref. Qed.

Lemma wp_update_tensor t T f Q E h : tensor_heap h !! t = Some T →
  Q () (set_tensor_heap (<[t := f T]> (tensor_heap h)) h) → wp (update_tensor t f) Q E h.
Proof.
  intros Ht HQ. unfold update_tensor. wp_steps. eapply wp_get_tensor; [done|]. by unfold put_tensor.
Qed.

Lemma wp_update_op o O f Q E h : op_heap h !! o = Some O →
  Q () (set_op_heap (<[o := f O]> (op_heap h)) h) → wp (update_op o f) Q E h.
Proof.
  intros Ht HQ. unfold update_op. wp_steps. eapply wp_get_op; [done|]. by unfold put_op.
Qed.

Lemma wp_verase {S A} i (l : list A) (Q : list A → S → Prop) E s :
  0 ≤ i < zlen l → Q (delete (Z.to_nat i) l) s → wp (verase i l) Q E s.
Proof.
  intros Hi HQ. unfold verase. wp_steps. destruct (zget_is_Some l i Hi) as [x Hx].
  eapply wp_deref; [done|]. by wp_steps.
Qed.

Lemma set_tensor_heap_id h : set_tensor_heap (tensor_heap h) h = h.
Proof. by destruct h. Qed.

(** ** Sliding the argument indices *)

Definition slide_tensor (o : LiteRtOp) (ind : Z) (T : LiteRtTensorT) : LiteRtTensorT :=
  with_uses (slide_pair o ind <$> uses T) T.

Lemma uses_slide o ind T : uses (slide_tensor o ind T) = slide_pair o ind <$> uses T.
Proof. apply uses_with_uses. Qed.

Lemma slide_pair_fst o ind p : (slide_pair o ind p).1 = p.1.
Proof. unfold slide_pair. by case_decide. Qed.

Lemma slide_users o ind T : balanced T → Users (slide_tensor o ind T) = Users T.
Proof.
  intros Hb. simpl. rewrite <- list_fmap_compose.
  rewrite (list_fmap_ext _ fst) by (intros; apply slide_pair_fst).
  unfold uses. apply fst_zip. rewrite Hb. done.
Qed.

Lemma iter_with_uses o ind T n : balanced T →
  Nat.iter n (slide_tensor o ind) T = with_uses (Nat.iter n (fmap (slide_pair o ind)) (uses T)) T.
Proof.
  intros Hb. induction n as [|n IH]; simpl; [by rewrite with_uses_uses|].
  rewrite IH. unfold slide_tensor. by rewrite uses_with_uses, with_uses_twice.
Qed.

Lemma iter_balanced o ind T n : balanced T → balanced (Nat.iter n (slide_tensor o ind) T).
Proof. intros Hb. rewrite iter_with_uses by done. apply balanced_with_uses. Qed.

Lemma iter_uses o ind T n : balanced T →
  uses (Nat.iter n (slide_tensor o ind) T) = Nat.iter n (fmap (slide_pair o ind)) (uses T).
Proof. intros Hb. by rewrite iter_with_uses, uses_with_uses. Qed.

Lemma iter_fmap_lookup {A} (f : A → A) n (l : list A) i :
  Nat.iter n (fmap f) l !! i = Nat.iter n f <$> l !! i.
Proof.
  induction n as [|n IH]; simpl; [by destruct (l !! i)|].
  rewrite list_lookup_fmap, IH. by destruct (l !! i).
Qed.

Lemma iter_fmap_length {A} (f : A → A) n (l : list A) : length (Nat.iter n (fmap f) l) = length l.
Proof. induction n as [|n IH]; simpl; [done|]. by rewrite length_fmap. Qed.

(** One iteration of the inner loop, on the list of uses. *)
Lemma slide_use_spec o ind r R (done : list (LiteRtOp * Z)) u a todo h E :
  tensor_heap h !! r = Some (with_uses (done ++ (u, a) :: todo) R) →
  wp (slide_use r o ind (zlen done))
    (λ _ h', h' = set_tensor_heap
       (<[r := with_uses ((done ++ [slide_pair o ind (u, a)]) ++ todo) R]> (tensor_heap h)) h) E h.
Proof.
  intros Hr. unfold slide_use. wp_steps. eapply wp_get_tensor; [exact Hr|]. wp_steps.
  assert (∀ (f : LiteRtOp * Z → nat), zget (f <$> (done ++ (u, a) :: todo)) (zlen done) = Some (f (u, a)))
    as Hf.
  { intros f. apply zget_Some. split; [lia|]. rewrite Nat2Z.id, list_lookup_fmap, lookup_split. done. }
  assert (zget ((done ++ (u, a) :: todo).*2) (zlen done) = Some a) as Ha.
  { apply zget_Some. split; [lia|]. rewrite Nat2Z.id, list_lookup_fmap, lookup_split. done. }
  eapply wp_deref; [exact Ha|]. wp_steps. eapply wp_deref; [apply (Hf fst)|]. simpl.
  unfold slide_pair. simpl. rewrite <- app_assoc. simpl. case_decide as Hd.
  - unfold put_tensor. wp_steps. do 2 f_equal. unfold with_uses, set_uses. simpl.
    rewrite !fmap_app. simpl. f_equal. unfold zset. rewrite Nat2Z.id.
    rewrite <- (length_fmap snd done). rewrite insert_app_r_alt, Nat.sub_diag by done. done.
  - wp_steps. rewrite <- Hr at 1 || idtac. rewrite insert_id by done. by rewrite set_tensor_heap_id.
Qed.

Lemma slide_loop_spec o ind r R h E : balanced R → tensor_heap h !! r = Some R →
  wp (for_each (range 0 (NumUses R)) (slide_use r o ind))
    (λ _ h', h' = set_tensor_heap (<[r := slide_tensor o ind R]> (tensor_heap h)) h) E h.
Proof.
  intros Hb Hr.
  eapply wp_post; [|apply (wp_for_each (λ done h',
    h' = set_tensor_heap (<[r := with_uses ((slide_pair o ind <$> take (length done) (uses R)) ++
      drop (length done) (uses R)) R]> (tensor_heap h)) h) E)].
  - simpl. intros _ h' ->. unfold slide_tensor. do 3 f_equal.
    assert (length (range 0 (NumUses R)) = length (uses R)) as ->.
    { unfold range. rewrite length_seqZ, uses_length by done. unfold NumUses. lia. }
    by rewrite firstn_all, drop_all, app_nil_r.
  - simpl. rewrite drop_0, with_uses_uses, insert_id by done. by rewrite set_tensor_heap_id.
  - intros done i todo h' Hl ->. apply range_split in Hl as [-> Hi].
    destruct (uses_zget R (zlen done)) as (u & a & _ & _ & Hua); [done|lia|].
    rewrite Nat2Z.id in Hua. assert (length done < length (uses R))%nat by (eapply lookup_lt_Some; exact Hua).
    set (l := slide_pair o ind <$> take (length done) (uses R)).
    assert (length l = length done) as Hll by (unfold l; rewrite length_fmap, length_take; lia).
    rewrite length_app. simpl. rewrite Nat.add_1_r.
    rewrite (take_S_r _ _ (u, a)) by exact Hua. rewrite fmap_app. fold l.
    rewrite (drop_S _ (u, a) (length done)) by exact Hua.
    rewrite <- Hll. eapply wp_post; [|eapply slide_use_spec; by apply lookup_insert_eq].
    simpl. intros _ h'' ->. simpl. by rewrite insert_insert_eq.
Qed.

(** The tensors after the loop over the later inputs [l]: every occurrence of a
    tensor slides its indices once more. *)
Definition slid (o : LiteRtOp) (ind : Z) (l : list LiteRtTensor) (m : gmap nat LiteRtTensorT) :
    gmap nat LiteRtTensorT :=
  map_imap (λ t T, Some (Nat.iter (cnt t l) (slide_tensor o ind) T)) m.

Lemma slid_lookup o ind l m t :
  slid o ind l m !! t = Nat.iter (cnt t l) (slide_tensor o ind) <$> m !! t.
Proof. unfold slid. rewrite map_lookup_imap. by destruct (m !! t). Qed.

Lemma slid_nil o ind m : slid o ind [] m = m.
Proof. apply map_eq. intros t. rewrite slid_lookup. simpl. by destruct (m !! t). Qed.

Lemma slid_snoc o ind l r R m : slid o ind l m !! r = Some R →
  <[r := slide_tensor o ind R]> (slid o ind l m) = slid o ind (l ++ [r]) m.
Proof.
  intros Hr. apply map_eq. intros t. rewrite (slid_lookup _ _ (_ ++ _)), cnt_app, cnt_cons.
  change (cnt t []) with 0%nat. rewrite Nat.add_0_r.
  destruct (decide (r = t)) as [<-|Hne].
  - rewrite lookup_insert_eq, Nat.add_1_r. simpl. rewrite slid_lookup in Hr.
    destruct (m !! r); simplify_eq/=. done.
  - by rewrite lookup_insert_ne, Nat.add_0_r, slid_lookup.
Qed.

Section disconnect.
Context (h : ir) (o : LiteRtOp) (O : LiteRtOpT).
Hypothesis Hop : op_heap h !! o = Some O.
Hypothesis Hbal : ∀ t T, tensor_heap h !! t = Some T → balanced T.
Hypothesis Hin : ∀ t, t ∈ Inputs O → is_Some (tensor_heap h !! t).

Lemma slide_uses_spec ind i l r E : zget (Inputs O) i = Some r →
  wp (slide_uses o ind i)
    (λ _ h', h' = set_tensor_heap (slid o ind (l ++ [r]) (tensor_heap h)) h) E
    (set_tensor_heap (slid o ind l (tensor_heap h)) h).
Proof.
  intros Hi. unfold slide_uses. wp_steps. eapply wp_get_op; [exact Hop|]. wp_steps.
  eapply wp_deref; [exact Hi|]. wp_steps.
  destruct (Hin r) as [R HR]; [by eapply zget_elem|].
  assert (slid o ind l (tensor_heap h) !! r = Some (Nat.iter (cnt r l) (slide_tensor o ind) R)) as HR'
    by (rewrite slid_lookup, HR; done).
  eapply wp_get_tensor; [exact HR'|].
  eapply wp_post; [|eapply slide_loop_spec; [apply iter_balanced; eauto|exact HR']].
  simpl. intros _ h' ->. by rewrite (slid_snoc _ _ _ _ _ _ HR').
Qed.

Lemma slide_all_spec ind E : 0 ≤ ind < zlen (Inputs O) →
  wp (for_each (range (ind + 1) (zlen (Inputs O))) (slide_uses o ind))
    (λ _ h', h' = set_tensor_heap
       (slid o ind (drop (S (Z.to_nat ind)) (Inputs O)) (tensor_heap h)) h) E h.
Proof.
  intros Hind. set (l := drop (S (Z.to_nat ind)) (Inputs O)).
  assert (length l = Z.to_nat (zlen (Inputs O) - (ind + 1))) as Hl
    by (unfold l; rewrite length_drop; lia).
  eapply wp_post; [|apply (wp_for_each (λ done h',
    h' = set_tensor_heap (slid o ind (take (length done) l) (tensor_heap h)) h) E)].
  - simpl. intros _ h' ->. do 2 f_equal. apply firstn_all2. unfold range. rewrite length_seqZ. lia.
  - simpl. by rewrite slid_nil, set_tensor_heap_id.
  - intros done i todo h' Hr ->.
    assert (range (ind + 1) (zlen (Inputs O)) !! length done = Some i) as Hk
      by (rewrite Hr; apply lookup_split).
    unfold range in Hk. apply lookup_seqZ in Hk as [-> Hlt].
    destruct (zget_is_Some (Inputs O) (ind + 1 + zlen done)) as [r Hi]; [lia|].
    rewrite length_app. simpl. rewrite Nat.add_1_r, (take_S_r _ _ r).
    + by apply slide_uses_spec.
    + unfold l. rewrite lookup_drop. apply zget_Some in Hi as [_ <-]. f_equal. lia.
Qed.

Lemma find_target_use_spec T ind E : balanced T → (o, ind) ∈ uses T →
  wp (find_target_use T o ind)
    (λ k h', h' = h ∧ 0 ≤ k ∧ uses T !! Z.to_nat k = Some (o, ind)) E h.
Proof.
  intros Hb Hu. unfold find_target_use.
  eapply wp_post; [|apply (wp_fold_m (λ done k h', h' = h ∧
    ((k = -1 ∧ ∀ j, (j < length done)%nat → uses T !! j ≠ Some (o, ind)) ∨
     (0 ≤ k ∧ uses T !! Z.to_nat k = Some (o, ind)))) E)].
  - simpl. intros k h' [-> [[-> Hno]|?]]; [|done]. exfalso.
    apply list_elem_of_lookup in Hu as [j Hj]. eapply Hno; [|exact Hj].
    apply lookup_lt_Some in Hj. unfold range. rewrite length_seqZ. rewrite uses_length in Hj by done.
    unfold NumUses. lia.
  - split; [done|]. left. split; [done|]. simpl. lia.
  - intros done i todo k h' Hr [-> Hk]. apply range_split in Hr as [-> Hi].
    destruct (uses_zget T (zlen done)) as (u & a & Hgu & Hga & Hua); [done|lia|].
    wp_steps. eapply wp_deref; [exact Hgu|]. rewrite Nat2Z.id in Hua.
    assert (uses T !! length done ≠ Some (o, ind) →
      ∀ j, (∀ j, (j < length done)%nat → uses T !! j ≠ Some (o, ind)) →
      (j < length (done ++ [zlen done]))%nat → uses T !! j ≠ Some (o, ind)) as Hext.
    { intros Hne j Hj Hlt. rewrite length_app in Hlt. simpl in Hlt.
      destruct (decide (j = length done)) as [->|]; [done|apply Hj; lia]. }
    case_decide as Hd; [subst u; wp_steps; eapply wp_deref; [exact Hga|]|]; wp_steps.
    + split; [done|]. destruct (Z.eqb_spec a ind) as [->|Hne].
      * right. split; [lia|]. by rewrite Nat2Z.id.
      * destruct Hk as [[-> Hno]|Hk]; [left|by right]. split; [done|].
        intros j. apply Hext; [|done]. rewrite Hua. congruence.
    + split; [done|]. destruct Hk as [[-> Hno]|Hk]; [left|by right]. split; [done|].
      intros j. apply Hext; [|done]. rewrite Hua. congruence.
Qed.

(** The whole of [DisconnectInput]: which use is removed, how often every tensor
    slides, and the inputs left. *)
Lemma DisconnectInput_exact ind t T E : zget (Inputs O) ind = Some t →
  tensor_heap h !! t = Some T → (o, ind) ∈ uses T →
  wp (DisconnectInput o ind)
    (λ r h', r = t ∧ ∃ k m, uses T !! k = Some (o, ind) ∧
       h' = set_op_heap (<[o := set_Inputs (delete (Z.to_nat ind) (Inputs O)) O]> (op_heap h))
              (set_tensor_heap m h) ∧
       (∀ r R, tensor_heap h !! r = Some R → m !! r = Some
         (with_uses ((if decide (r = t) then delete k else id)
            (Nat.iter (cnt r (drop (S (Z.to_nat ind)) (Inputs O)))
               (fmap (slide_pair o ind)) (uses R))) R)) ∧
       dom m = dom (tensor_heap h)) E h.
Proof.
  intros Hi Ht Hu. pose proof (Hbal _ _ Ht) as HbT. pose proof (zget_range _ _ _ Hi) as Hrange.
  unfold DisconnectInput. wp_steps. eapply wp_get_op; [exact Hop|]. wp_steps.
  eapply wp_deref; [exact Hi|]. wp_steps. eapply wp_get_tensor; [exact Ht|]. wp_steps.
  eapply wp_post; [|by apply find_target_use_spec]. simpl. intros k h' (-> & Hk0 & Hk). wp_steps.
  eapply wp_post; [|by apply slide_all_spec]. simpl. intros _ h' ->. wp_steps.
  set (l := drop (S (Z.to_nat ind)) (Inputs O)). set (T' := Nat.iter (cnt t l) (slide_tensor o ind) T).
  assert (tensor_heap (set_tensor_heap (slid o ind l (tensor_heap h)) h) !! t = Some T') as HT'
    by (simpl; rewrite slid_lookup, Ht; done).
  assert (balanced T') as HbT' by (by apply iter_balanced).
  assert (Z.to_nat k < length (uses T'))%nat as Hlk.
  { unfold T'. rewrite iter_uses, iter_fmap_length by done. by eapply lookup_lt_Some. }
  rewrite uses_length in Hlk by done.
  unfold RemoveUse. wp_steps. eapply wp_get_tensor; [exact HT'|]. wp_steps.
  apply wp_verase; [lia|]. wp_steps. apply wp_verase; [unfold balanced in HbT'; lia|]. wp_steps.
  unfold put_tensor. wp_steps. unfold RemoveInput. wp_steps. eapply wp_get_op; [exact Hop|]. wp_steps.
  apply wp_verase; [done|]. wp_steps. unfold put_op. wp_steps. split; [done|].
  exists (Z.to_nat k), (<[t := with_uses (delete (Z.to_nat k) (uses T')) T]> (slid o ind l (tensor_heap h))).
  split_and!; [done| | |].
  - unfold set_op_heap, set_tensor_heap. simpl. f_equal. f_equal.
    transitivity (with_uses (delete (Z.to_nat k) (uses T')) T').
    { unfold with_uses. rewrite !list_fmap_delete. unfold uses.
      rewrite fst_zip, snd_zip by (rewrite HbT'; done). done. }
    unfold T' at 2. by rewrite iter_with_uses, with_uses_twice.
  - intros r R HR. destruct (decide (r = t)) as [->|Hne].
    + rewrite lookup_insert_eq. simplify_eq. do 2 f_equal. unfold T'. by rewrite iter_uses.
    + rewrite lookup_insert_ne, slid_lookup, HR by done. simpl. f_equal. rewrite iter_with_uses by eauto. done.
  - rewrite dom_insert_L. assert (dom (slid o ind l (tensor_heap h)) = dom (tensor_heap h)) as ->.
    { apply set_eq. intros r. rewrite !elem_of_dom, slid_lookup. by rewrite fmap_is_Some. }
    assert (t ∈ dom (tensor_heap h)) by (apply elem_of_dom; eauto). set_solver.
Qed.
End disconnect.

(** ** Well-formed graphs *)

(** The links of tensor [t] agree with the operations of [ops]. *)
Record linked (ops : gmap nat LiteRtOpT) (t : LiteRtTensor) (T : LiteRtTensorT) : Prop := {
  linked_balanced : balanced T;
  linked_nodup : NoDup (uses T);
  linked_use o i : (o, i) ∈ uses T ↔ ∃ O, ops !! o = Some O ∧ zget (Inputs O) i = Some t;
  linked_def o i : o ≠ nullptr →
    (DefiningOp T = o ∧ DefiningOpOutInd T = i) ↔
    ∃ O, ops !! o = Some O ∧ zget (Outputs O) i = Some t
}.

Record wf_ir (h : ir) : Prop := {
  wf_linked t T : tensor_heap h !! t = Some T → linked (op_heap h) t T;
  wf_edges o O t : op_heap h !! o = Some O → t ∈ Inputs O ∨ t ∈ Outputs O →
    is_Some (tensor_heap h !! t);
  wf_null : op_heap h !! nullptr = None
}.

Lemma zget_delete {A} (l : list A) i j :
  0 ≤ i → 0 ≤ j → zget (delete (Z.to_nat i) l) j = zget l (if decide (j < i) then j else j + 1).
Proof.
  intros Hi Hj. unfold zget. destruct (decide (j < i)); rewrite !(proj2 (Z.leb_le 0 _)) by lia.
  - rewrite list_lookup_delete_lt by lia. done.
  - rewrite list_lookup_delete_ge by lia. f_equal. lia.
Qed.

Lemma slide_pair_other o ind p : p.1 ≠ o → slide_pair o ind p = p.
Proof. intros Hp. unfold slide_pair. rewrite decide_False; tauto. Qed.

Lemma slide_pair_le o ind a : a ≤ ind → slide_pair o ind (o, a) = (o, a).
Proof. intros Hp. unfold slide_pair. simpl. rewrite decide_False; [done|lia]. Qed.

Lemma slide_pair_gt o ind a : ind < a → slide_pair o ind (o, a) = (o, a - 1).
Proof. intros Hp. unfold slide_pair. simpl. by rewrite decide_True. Qed.

Lemma elem_delete_nodup {A} (l : list A) k x y :
  NoDup l → l !! k = Some x → y ∈ delete k l ↔ y ∈ l ∧ y ≠ x.
Proof.
  intros Hl Hk. rewrite <- (take_drop_middle l k x Hk) in Hl |- *.
  assert (length (take k l) = k) as Hlen by (rewrite length_take; apply lookup_lt_Some in Hk; lia).
  rewrite <- Hlen at 1. rewrite delete_middle. rewrite !elem_of_app, elem_of_cons.
  apply NoDup_app in Hl as (_ & Hd & Hr). apply NoDup_cons in Hr as [Hr _].
  split; [|tauto]. intros [Hy|Hy].
  - split; [tauto|]. intros ->. apply (Hd x Hy). by left.
  - split; [tauto|]. by intros ->.
Qed.

Lemma NoDup_delete {A} (l : list A) k : NoDup l → NoDup (delete k l).
Proof.
  intros Hl. eapply sublist_NoDup; [exact Hl|]. apply sublist_delete.
Qed.

(** Removing the edge into position [ind] of [o]: what is left of the uses of a
    tensor that occurs at most once further right. *)
Section removed_edge.
Context (ops : gmap nat LiteRtOpT) (o : LiteRtOp) (O : LiteRtOpT) (ind : Z) (t : LiteRtTensor).
Hypothesis Hop : ops !! o = Some O.
Hypothesis Hi : zget (Inputs O) ind = Some t.
Let O' := set_Inputs (delete (Z.to_nat ind) (Inputs O)) O.
Let ops' := <[o := O']> ops.

Lemma zget_drop_elem {A} (l : list A) i j x :
  zget l j = Some x → 0 ≤ i < j → x ∈ drop (S (Z.to_nat i)) l.
Proof.
  intros [_ Hj]%zget_Some Hij. apply list_elem_of_lookup.
  exists (Z.to_nat j - S (Z.to_nat i))%nat. rewrite lookup_drop, <- Hj. f_equal. lia.
Qed.

Lemma slide_once r R : linked ops r R → (cnt r (drop (S (Z.to_nat ind)) (Inputs O)) ≤ 1)%nat →
  Nat.iter (cnt r (drop (S (Z.to_nat ind)) (Inputs O))) (fmap (slide_pair o ind)) (uses R) =
  slide_pair o ind <$> uses R.
Proof.
  intros HR Hc. pose proof (zget_range _ _ _ Hi) as Hrange.
  destruct (cnt r _) as [|[|n]] eqn:Hn; [|done|lia].
  simpl. symmetry. rewrite <- (list_fmap_id (uses R)) at 2. apply list_fmap_ext. intros k [p a] Hk.
  destruct (decide (p = o)) as [->|Hp]; [|by apply slide_pair_other].
  destruct (decide (a ≤ ind)) as [Ha|Ha]; [by apply slide_pair_le|]. exfalso.
  assert ((o, a) ∈ uses R) as Ho by (eapply list_elem_of_lookup_2; exact Hk).
  apply (linked_use _ _ _ HR) in Ho as (O1 & HO1 & Ha1). simplify_eq.
  pose proof (cnt_elem r (drop (S (Z.to_nat ind)) (Inputs O))) as Hel.
  rewrite Hn in Hel. assert (1 ≤ 0)%nat; [apply Hel|lia].
  apply (zget_drop_elem _ _ a); [done|lia].
Qed.

Lemma kept_uses r R k : linked ops r R → (r = t → uses R !! k = Some (o, ind)) →
  ∀ x, x ∈ (if decide (r = t) then delete k else id) (uses R) ↔ x ∈ uses R ∧ x ≠ (o, ind).
Proof.
  intros HR Hk x. case_decide as Hr.
  - apply elem_delete_nodup; [apply HR|auto].
  - simpl. split; [|tauto]. intros Hx. split; [done|]. intros ->.
    apply (linked_use _ _ _ HR) in Hx as (O1 & HO1 & Hx). congruence.
Qed.

Lemma slid_edge r (l : list (LiteRtOp * Z)) : 
  (∀ p i, (p, i) ∈ l ↔ (∃ O, ops !! p = Some O ∧ zget (Inputs O) i = Some r) ∧ (p, i) ≠ (o, ind)) →
  ∀ p i, (p, i) ∈ slide_pair o ind <$> l ↔ ∃ O, ops' !! p = Some O ∧ zget (Inputs O) i = Some r.
Proof.
  intros Hl p i. pose proof (zget_range _ _ _ Hi) as Hrange. rewrite list_elem_of_fmap. unfold ops'.
  destruct (decide (p = o)) as [->|Hp].
  - rewrite lookup_insert_eq. split.
    + intros ([p a] & Heq & Hx). destruct (decide (p = o)) as [->|Hp];
        [|by rewrite slide_pair_other in Heq; simplify_eq].
      apply Hl in Hx as [(O1 & HO1 & Ha) Hne]. simplify_eq. exists O'. split; [done|].
      pose proof (zget_range _ _ _ Ha) as Har. simpl.
      destruct (decide (a ≤ ind)) as [Hle|Hgt].
      * rewrite slide_pair_le in Heq by done. simplify_eq.
        assert (a ≠ ind) by congruence.
        rewrite zget_delete, decide_True by lia. done.
      * rewrite slide_pair_gt in Heq by lia. simplify_eq.
        rewrite zget_delete, decide_False by lia. by replace (a - 1 + 1) with a by lia.
    + intros (O1 & HO1 & Ha). simplify_eq. simpl in Ha. pose proof (zget_range _ _ _ Ha) as Har.
      rewrite zget_delete in Ha by lia. case_decide.
      * exists (o, i). split; [by rewrite slide_pair_le by lia|]. apply Hl. split; [eauto|].
        intros Heq. simplify_eq. lia.
      * exists (o, i + 1). split; [rewrite slide_pair_gt by lia; f_equal; lia|].
        apply Hl. split; [eauto|]. intros Heq. simplify_eq. lia.
  - rewrite lookup_insert_ne by done. split.
    + intros ([p' a] & Heq & Hx). destruct (decide (p' = o)) as [->|Hp'].
      * unfold slide_pair in Heq. case_decide; simplify_eq/=.
      * rewrite slide_pair_other in Heq by done. simplify_eq. by apply Hl in Hx as [? _].
    + intros HO1. exists (p, i). split; [by rewrite slide_pair_other|]. apply Hl.
      split; [done|]. by intros [= ->].
Qed.

Lemma slid_nodup (l : list (LiteRtOp * Z)) :
  NoDup l → (o, ind) ∉ l → NoDup (slide_pair o ind <$> l).
Proof.
  intros Hl Hn. apply NoDup_fmap_2_strong; [|done]. intros [p a] [q b] Ha Hb Heq.
  assert (p = q) as <- by (apply (f_equal fst) in Heq; by rewrite !slide_pair_fst in Heq).
  destruct (decide (p = o)) as [->|Hp]; [|by rewrite !slide_pair_other in Heq].
  assert (a ≠ ind) by congruence. assert (b ≠ ind) by congruence.
  unfold slide_pair in Heq. simpl in Heq. repeat case_decide; simplify_eq; f_equal; lia.
Qed.

Lemma linked_without_edge r R k (n := cnt r (drop (S (Z.to_nat ind)) (Inputs O))) :
  linked ops r R → (n ≤ 1)%nat → (r = t → uses R !! k = Some (o, ind)) →
  linked ops' r (with_uses ((if decide (r = t) then delete k else id)
    (Nat.iter n (fmap (slide_pair o ind)) (uses R))) R).
Proof.
  intros HR Hn Hk. unfold n in *. rewrite slide_once by done.
  assert ((if decide (r = t) then delete k else id) (slide_pair o ind <$> uses R) =
    slide_pair o ind <$> (if decide (r = t) then delete k else id) (uses R)) as ->
    by (case_decide; [by rewrite list_fmap_delete|done]).
  pose proof (kept_uses r R k HR Hk) as Hkept. split.
  - apply balanced_with_uses.
  - rewrite uses_with_uses. apply slid_nodup.
    + case_decide; [apply NoDup_delete|]; apply HR.
    + rewrite Hkept. tauto.
  - intros p i. rewrite uses_with_uses. apply slid_edge. intros p' i'. rewrite Hkept.
    by rewrite (linked_use _ _ _ HR).
  - intros p i Hp. simpl. rewrite (linked_def _ _ _ HR) by done. unfold ops'.
    destruct (decide (p = o)) as [->|Hpo]; [|by rewrite lookup_insert_ne].
    rewrite lookup_insert_eq, Hop. unfold O'. simpl. naive_solver.
Qed.
End removed_edge.

(** C26: [DisconnectInput] keeps the graph well formed when no tensor occurs
    twice among the inputs to the right of the one that is disconnected: it
    returns that tensor, erases the one input and leaves every tensor's uses in
    agreement with the operations. *)
Theorem DisconnectInput_wf h o O ind t :
  wf_ir h → op_heap h !! o = Some O → zget (Inputs O) ind = Some t →
  NoDup (drop (S (Z.to_nat ind)) (Inputs O)) →
  ∃ h', DisconnectInput o ind h = Done t h' ∧ wf_ir h' ∧
    op_heap h' = <[o := set_Inputs (delete (Z.to_nat ind) (Inputs O)) O]> (op_heap h).
Proof.
  intros Hwf Hop Hi Hnd. destruct (wf_edges _ Hwf o O t) as [T HT]; [done|left; by eapply zget_elem|].
  assert ((o, ind) ∈ uses T) as Hu by (apply (linked_use _ _ _ (wf_linked _ Hwf _ _ HT)); eauto).
  destruct (wp_no_error (DisconnectInput o ind) _ h (DisconnectInput_exact h o O Hop
    (λ t T Ht, linked_balanced _ _ _ (wf_linked _ Hwf t T Ht))
    (λ t Ht, wf_edges _ Hwf o O t Hop (or_introl Ht)) ind t T _ Hi HT Hu))
    as (t' & h' & Hrun & -> & k & m & Hk & -> & Hm & Hdom).
  exists (set_op_heap (<[o := set_Inputs (delete (Z.to_nat ind) (Inputs O)) O]> (op_heap h))
    (set_tensor_heap m h)).
  split; [done|]. split; [|done].
  assert (∀ r, is_Some (m !! r) ↔ is_Some (tensor_heap h !! r)) as Hdom'
    by (intros r; rewrite <- !elem_of_dom; by rewrite Hdom).
  split; simpl.
  - intros r R' HR'. destruct (proj1 (Hdom' r)) as [R HR]; [eauto|].
    rewrite (Hm r R HR) in HR'. simplify_eq.
    apply linked_without_edge; [done|done|by apply (wf_linked _ Hwf)|by apply cnt_NoDup|].
    intros ->. by simplify_eq.
  - intros p P r HP Hr. apply Hdom'. destruct (decide (p = o)) as [->|Hp].
    + rewrite lookup_insert_eq in HP. simplify_eq. simpl in Hr. apply (wf_edges _ Hwf o O); [done|].
      destruct Hr as [Hr|Hr]; [left|by right]. eapply elem_of_sublist; [exact Hr|]. apply sublist_delete.
    + rewrite lookup_insert_ne in HP by done. by apply (wf_edges _ Hwf p P).
  - rewrite lookup_insert_ne; [apply Hwf|]. intros ->. by rewrite (wf_null _ Hwf) in Hop.
Qed.

(** ** Dropping an operation

    With a tensor repeated among the inputs, [DisconnectInput] slides its
    indices too often. [Drop] disconnects position [0] every time: it is enough
    that no recorded index is larger than the true one, which [dropping] counts. *)

Definition others (o : LiteRtOp) (us : list (LiteRtOp * Z)) : list (LiteRtOp * Z) :=
  filter (λ u, u.1 ≠ o) us.
Definition own (o : LiteRtOp) (us : list (LiteRtOp * Z)) : nat :=
  length (filter (λ u, u.1 = o) us).
Definition own_upto (o : LiteRtOp) (k : nat) (us : list (LiteRtOp * Z)) : nat :=
  length (filter (λ u, u.1 = o ∧ u.2 ≤ Z.of_nat k) us).

Lemma filter_fmap_le {A} (P Q : A → Prop) `{∀ x, Decision (P x), ∀ x, Decision (Q x)}
    (g : A → A) (l : list A) : (∀ x, x ∈ l → P x → Q (g x)) →
  (length (filter P l) ≤ length (filter Q (g <$> l)))%nat.
Proof.
  induction l as [|x l IH]; intros Hg; [done|]. rewrite fmap_cons, !filter_cons.
  specialize (IH (λ y Hy, Hg y (list_elem_of_further _ _ _ Hy))).
  destruct (decide (P x)); [rewrite decide_True by (apply Hg; [by left|done]); simpl; lia|].
  case_decide; simpl; lia.
Qed.

Lemma filter_delete {A} (P : A → Prop) `{∀ x, Decision (P x)} (l : list A) k x : l !! k = Some x →
  length (filter P l) = (length (filter P (delete k l)) + if decide (P x) then 1 else 0)%nat.
Proof.
  intros Hk. rewrite <- (take_drop_middle l k x Hk) at 1. rewrite delete_take_drop.
  rewrite !filter_app, filter_cons, !length_app. case_decide; simpl; lia.
Qed.

Lemma filter_delete_eq {A} (P : A → Prop) `{∀ x, Decision (P x)} (l : list A) k x : l !! k = Some x →
  ¬ P x → filter P (delete k l) = filter P l.
Proof.
  intros Hk HP. rewrite <- (take_drop_middle l k x Hk) at 2. rewrite delete_take_drop.
  by rewrite !filter_app, filter_cons, decide_False.
Qed.

Lemma filter_fmap_eq {A} (P : A → Prop) `{∀ x, Decision (P x)} (g : A → A) (l : list A) :
  (∀ x, P (g x) ↔ P x) → (∀ x, P x → g x = x) → filter P (g <$> l) = filter P l.
Proof.
  intros HP Hg. induction l as [|x l IH]; [done|]. rewrite fmap_cons, !filter_cons, IH.
  destruct (decide (P x)) as [Hx|Hx].
  - rewrite decide_True by by apply HP. by rewrite (Hg x).
  - rewrite decide_False; [done|]. by rewrite HP.
Qed.

Lemma iter_slide_fst o n p : (Nat.iter n (slide_pair o 0) p).1 = p.1.
Proof. induction n as [|n IH]; simpl; [done|]. by rewrite slide_pair_fst. Qed.

Lemma iter_slide_other o n p : p.1 ≠ o → Nat.iter n (slide_pair o 0) p = p.
Proof. intros Hp. induction n as [|n IH]; simpl; [done|]. by rewrite IH, slide_pair_other. Qed.

Lemma iter_slide_own o n a : 0 ≤ a →
  Nat.iter n (slide_pair o 0) (o, a) = (o, Z.max 0 (a - Z.of_nat n)).
Proof.
  intros Ha. induction n as [|n IH]; simpl; [f_equal; lia|]. rewrite IH.
  destruct (decide (Z.max 0 (a - Z.of_nat n) ≤ 0)).
  - rewrite slide_pair_le by done. f_equal. lia.
  - rewrite slide_pair_gt by lia. f_equal. lia.
Qed.

Lemma iter_fmap {A} (f : A → A) n (l : list A) : Nat.iter n (fmap f) l = Nat.iter n f <$> l.
Proof. apply list_eq. intros i. by rewrite iter_fmap_lookup, list_lookup_fmap. Qed.

Record dropping_uses (o : LiteRtOp) (l : list LiteRtTensor) (r : LiteRtTensor)
    (us0 us : list (LiteRtOp * Z)) : Prop := {
  du_others : others o us = others o us0;
  du_own : own o us = cnt r l;
  du_upto k : (cnt r (take (S k) l) ≤ own_upto o k us)%nat;
  du_nonneg a : (o, a) ∈ us → 0 ≤ a
}.

Lemma dropping_uses_head o t l us0 us : dropping_uses o (t :: l) t us0 us → (o, 0) ∈ us.
Proof.
  intros [_ _ Hk Hn]. specialize (Hk 0%nat). rewrite firstn_cons, cnt_cons, decide_True in Hk by done.
  unfold own_upto in Hk.
  destruct (filter (λ u : nat * Z, u.1 = o ∧ u.2 ≤ Z.of_nat 0) us) as [|[p a] fs] eqn:Hf; simpl in Hk; [lia|].
  assert ((p, a) ∈ (p, a) :: fs) as Hin by by left.
  rewrite <- Hf in Hin. apply list_elem_of_filter in Hin as [[Hp Ha] Hin]. simpl in *. subst p.
  assert (a = 0) as -> by (apply Hn in Hin; lia). done.
Qed.

Lemma dropping_uses_step o t l r us0 us k :
  dropping_uses o (t :: l) r us0 us → (r = t → us !! k = Some (o, 0)) →
  dropping_uses o l r us0 ((if decide (r = t) then delete k else id)
    (Nat.iter (cnt r l) (fmap (slide_pair o 0)) us)).
Proof.
  intros [Hot Hown Hup Hn] Hk. rewrite iter_fmap. set (g := Nat.iter (cnt r l) (slide_pair o 0)).
  assert (r = t → (g <$> us) !! k = Some (o, 0)) as Hk'.
  { intros Hr. rewrite list_lookup_fmap, (Hk Hr). simpl. unfold g. rewrite iter_slide_own by lia.
    do 2 f_equal. lia. }
  assert (∀ p, (g p).1 = p.1) as Hfst by (intros; apply iter_slide_fst). split.
  - rewrite <- Hot. unfold others. transitivity (filter (λ u : nat * Z, u.1 ≠ o) (g <$> us)).
    + case_decide as Hr; [|done]. eapply filter_delete_eq; [by apply Hk'|]. simpl. tauto.
    + apply filter_fmap_eq; intros x; [by rewrite Hfst|]. apply iter_slide_other.
  - assert (own o (g <$> us) = own o us) as Hg.
    { unfold own. apply Nat.le_antisymm; [|apply filter_fmap_le; intros x _; by rewrite Hfst].
      clear -Hfst. induction us as [|x us IH]; [done|]. rewrite fmap_cons, !filter_cons.
      rewrite (decide_ext _ (x.1 = o)) by by rewrite Hfst. case_decide; simpl; lia. }
    rewrite cnt_cons in Hown. destruct (decide (r = t)) as [Hr|Hr]; simpl.
    + subst r. rewrite decide_True in Hown by done. rewrite <- Hg in Hown. unfold own in *.
      rewrite (filter_delete _ _ _ _ (Hk' eq_refl)), decide_True in Hown by done. lia.
    + rewrite decide_False in Hown by congruence. by rewrite Hg.
  - intros j. destruct (decide (r ∈ l)) as [Hrl|Hrl].
    + assert (own_upto o (S j) us ≤ own_upto o j (g <$> us))%nat as Hg.
      { apply filter_fmap_le. intros [p a] Hx [Hp Ha]. simpl in Hp, Ha. subst p.
        split; [by rewrite Hfst|]. unfold g. rewrite iter_slide_own by by apply Hn. simpl. pose proof (cnt_elem _ _ Hrl). lia. }
      specialize (Hup (S j)). rewrite firstn_cons, cnt_cons in Hup. destruct (decide (r = t)) as [Hr|Hr]; simpl.
      * subst r. rewrite decide_True in Hup by done. unfold own_upto in *.
        rewrite (filter_delete _ (g <$> us) _ _ (Hk' eq_refl)), decide_True in Hg by (simpl; lia). lia.
      * rewrite decide_False in Hup by congruence. lia.
    + rewrite cnt_0; [lia|]. intros (i & Hi & _)%elem_of_take. apply Hrl. by eapply list_elem_of_lookup_2.
  - intros a Ha. assert ((o, a) ∈ g <$> us) as Hin.
    { case_decide; [|done]. eapply elem_of_sublist; [exact Ha|]. apply sublist_delete. }
    apply list_elem_of_fmap in Hin as ([p b] & Heq & Hb).
    assert (p = o) as -> by (apply (f_equal fst) in Heq; by rewrite Hfst in Heq).
    unfold g in Heq. rewrite iter_slide_own in Heq by by apply Hn. simplify_eq. lia.
Qed.

Section drop.
Context (h0 : ir) (o : LiteRtOp) (O : LiteRtOpT).

Definition dropping (l : list LiteRtTensor) (h : ir) : Prop := ∃ m,
  h = set_op_heap (<[o := set_Inputs l O]> (op_heap h0)) (set_tensor_heap m h0) ∧
  dom m = dom (tensor_heap h0) ∧
  (∀ t, t ∈ l → is_Some (tensor_heap h0 !! t)) ∧
  (∀ r R, tensor_heap h0 !! r = Some R → ∃ us, m !! r = Some (with_uses us R) ∧
     dropping_uses o l r (uses R) us).

Lemma dropping_step t l h E : dropping (t :: l) h →
  wp (DisconnectInput o 0) (λ _, dropping l) E h.
Proof.
  intros (m & -> & Hdom & Hal & Hm). destruct (Hal t) as [T HT]; [by left|].
  destruct (Hm t T HT) as (us & Hus & Hd).
  assert (∀ r R', m !! r = Some R' → ∃ R, tensor_heap h0 !! r = Some R) as Hback.
  { intros r R' HR'. assert (r ∈ dom (tensor_heap h0)) as Hr by (rewrite <- Hdom; eapply elem_of_dom_2; exact HR').
    by apply elem_of_dom in Hr. }
  set (h := set_op_heap (<[o := set_Inputs (t :: l) O]> (op_heap h0)) (set_tensor_heap m h0)).
  eapply wp_post; [|apply (DisconnectInput_exact h o (set_Inputs (t :: l) O)) with (t := t) (T := with_uses us T)].
  - simpl. intros _ h' (-> & k & m' & Hk & -> & Hm' & Hdom'). exists m'. split_and!.
    + unfold h, set_op_heap, set_tensor_heap. simpl. f_equal. by rewrite insert_insert_eq.
    + by rewrite Hdom'.
    + intros x Hx. apply Hal. by right.
    + intros r R HR. destruct (Hm r R HR) as (us' & Hus' & Hd').
      specialize (Hm' r _ Hus'). rewrite uses_with_uses in Hm', Hk. rewrite with_uses_twice in Hm'.
      eexists. split; [exact Hm'|]. change (Z.to_nat 0) with 0%nat. rewrite drop_0.
      apply (dropping_uses_step o t); [done|]. intros ->.
      assert (us' = us) as -> by (rewrite <- (uses_with_uses us R), <- (uses_with_uses us' R); congruence).
      done.
  - simpl. apply lookup_insert_eq.
  - simpl. intros r R' HR'. destruct (Hback r R' HR') as [R HR].
    destruct (Hm r R HR) as (us' & Hus' & _). simplify_eq. apply balanced_with_uses.
  - simpl. intros x Hx. destruct (Hal x Hx) as [X HX]. destruct (Hm x X HX) as (us' & -> & _). done.
  - done.
  - done.
  - rewrite uses_with_uses. by eapply dropping_uses_head.
Qed.

Lemma drop_inputs l h E : dropping l h →
  wp (while_m (length l) (O ← get_op o; mret (bool_decide (Inputs O ≠ [])))
       (DisconnectInput o 0 ;; mret ())) (λ _, dropping []) E h.
Proof.
  revert h. induction l as [|t l IH]; intros h Hd; pose proof Hd as (m & -> & Hrest);
    simpl; wp_steps; (eapply wp_get_op; [apply lookup_insert_eq|]); wp_steps.
  - done.
  - eapply wp_post; [|by apply (dropping_step t l)]. simpl. intros _ h' Hd'. wp_steps. by apply IH.
Qed.

(** The loop over the outputs clears the definition of each. *)
Definition cleared (done : list LiteRtTensor) (m : gmap nat LiteRtTensorT) : gmap nat LiteRtTensorT :=
  map_imap (λ t T, Some (if decide (t ∈ done) then ClearDefiningOp T else T)) m.

Lemma cleared_lookup l m t :
  cleared l m !! t = (λ T, if decide (t ∈ l) then ClearDefiningOp T else T) <$> m !! t.
Proof. unfold cleared. rewrite map_lookup_imap. by destruct (m !! t). Qed.

Lemma cleared_snoc l t T m : m !! t = Some T →
  <[t := ClearDefiningOp (if decide (t ∈ l) then ClearDefiningOp T else T)]> (cleared l m) =
  cleared (l ++ [t]) m.
Proof.
  intros Ht. apply map_eq. intros r. rewrite cleared_lookup. destruct (decide (r = t)) as [->|Hne].
  - rewrite lookup_insert_eq, Ht. simpl. rewrite (decide_True (P := t ∈ l ++ [t])) by in_list.
    by case_decide.
  - rewrite lookup_insert_ne, cleared_lookup by done. destruct (m !! r); [|done]. simpl. f_equal.
    repeat case_decide; try done; exfalso; set_solver.
Qed.

Lemma DisconnectOutput_step t l done m ops T E : m !! t = Some T →
  wp (DisconnectOutput o 0)
    (λ _ h', h' = set_op_heap (<[o := set_Outputs l O]> ops)
                    (set_tensor_heap (cleared (done ++ [t]) m) h0)) E
    (set_op_heap (<[o := set_Outputs (t :: l) O]> ops) (set_tensor_heap (cleared done m) h0)).
Proof.
  intros HT. unfold DisconnectOutput. wp_steps. eapply wp_get_op; [apply lookup_insert_eq|]. wp_steps.
  eapply wp_update_tensor; [simpl; by rewrite cleared_lookup, HT|]. simpl. wp_steps.
  unfold RemoveOutput. wp_steps. eapply wp_get_op; [apply lookup_insert_eq|]. wp_steps.
  apply wp_verase; [simpl; lia|]. simpl. wp_steps. unfold put_op. wp_steps.
  unfold set_op_heap, set_tensor_heap, set_Outputs. simpl.
  by rewrite insert_insert_eq, (cleared_snoc _ _ _ _ HT).
Qed.

Lemma drop_outputs l done m ops E : (∀ t, t ∈ l → is_Some (m !! t)) →
  wp (while_m (length l) (O ← get_op o; mret (bool_decide (Outputs O ≠ [])))
       (DisconnectOutput o 0 ;; mret ()))
    (λ _ h', h' = set_op_heap (<[o := set_Outputs [] O]> ops) (set_tensor_heap (cleared (done ++ l) m) h0)) E
    (set_op_heap (<[o := set_Outputs l O]> ops) (set_tensor_heap (cleared done m) h0)).
Proof.
  revert done. induction l as [|t l IH]; intros done Hl;
    simpl; wp_steps; (eapply wp_get_op; [apply lookup_insert_eq|]); wp_steps.
  - by rewrite app_nil_r.
  - destruct (Hl t) as [T HT]; [by left|].
    eapply wp_post; [|by apply (DisconnectOutput_step t l done m ops T)].
    simpl. intros _ h' ->. wp_steps.
    replace (done ++ t :: l) with ((done ++ [t]) ++ l) by by rewrite <- app_assoc.
    apply IH. intros x Hx. apply Hl. by right.
Qed.
End drop.

(** The tensor without its links to [o]. *)
Definition forget_op (o : LiteRtOp) (T : LiteRtTensorT) : LiteRtTensorT :=
  with_uses (others o (uses T)) (if decide (DefiningOp T = o) then ClearDefiningOp T else T).

Definition without_op (o : LiteRtOp) (O : LiteRtOpT) (h : ir) : ir :=
  set_op_heap (<[o := set_Outputs [] (set_Inputs [] O)]> (op_heap h))
    (set_tensor_heap (forget_op o <$> tensor_heap h) h).

Lemma own_0 o us : own o us = 0%nat → others o us = us.
Proof.
  intros Hown. apply filter_all. intros x Hx Ho. unfold own in Hown.
  assert (x ∈ filter (λ u : nat * Z, u.1 = o) us) as Hin by by apply list_elem_of_filter.
  apply length_zero_iff_nil in Hown. rewrite Hown in Hin. by apply elem_of_nil in Hin.
Qed.

Lemma cnt_take_positions r (l : list nat) n :
  length (filter (λ i, l !! i = Some r) (seq 0 n)) = cnt r (take n l).
Proof.
  induction n as [|n IH]; [done|]. rewrite seq_S, filter_app, length_app, IH. simpl.
  rewrite filter_cons. destruct (l !! n) as [x|] eqn:Hn.
  - rewrite (take_S_r _ _ _ Hn), cnt_app, cnt_cons. destruct (decide (x = r)) as [->|Hx].
    + by rewrite decide_True.
    + rewrite decide_False by congruence. done.
  - rewrite decide_False by done. simpl. apply lookup_ge_None in Hn.
    rewrite !firstn_all2 by lia. lia.
Qed.

(** The uses by [o], counted by the positions of the tensor among its inputs. *)
Lemma linked_count ops r R o O n (P : LiteRtOp * Z → Prop) `{∀ x, Decision (P x)} :
  linked ops r R → ops !! o = Some O →
  (∀ p i, (p, i) ∈ uses R → P (p, i) ↔ p = o ∧ i < Z.of_nat n) →
  length (filter P (uses R)) = cnt r (take n (Inputs O)).
Proof.
  intros Hl Hop HP. rewrite <- cnt_take_positions.
  rewrite <- (length_fmap (λ i, (o, Z.of_nat i))). apply Permutation_length.
  apply NoDup_Permutation.
  - apply NoDup_filter, Hl.
  - apply NoDup_fmap_2_strong; [|apply NoDup_filter, NoDup_seq]. intros x y _ _ [= Hxy]. lia.
  - intros [p i]. rewrite list_elem_of_filter, list_elem_of_fmap. split.
    + intros [Hp Hu]. pose proof (HP p i Hu) as HPi. apply HPi in Hp as [-> Hi].
      apply (linked_use _ _ _ Hl) in Hu as (O' & HO' & Hz). simplify_eq.
      pose proof (zget_range _ _ _ Hz) as Hr. exists (Z.to_nat i).
      split; [f_equal; lia|]. apply list_elem_of_filter. apply zget_Some in Hz as [_ Hz].
      split; [done|]. apply elem_of_seq. lia.
    + intros (k & Heq & Hk). simplify_eq. apply list_elem_of_filter in Hk as [Hk Hs].
      apply elem_of_seq in Hs. assert ((o, Z.of_nat k) ∈ uses R) as Hu.
      { apply (linked_use _ _ _ Hl). exists O. split; [done|]. apply zget_Some.
        rewrite Nat2Z.id. split; [lia|done]. }
      split; [|done]. apply HP; [done|]. split; [done|lia].
Qed.

Lemma dropping_start h o O : wf_ir h → op_heap h !! o = Some O → dropping h o O (Inputs O) h.
Proof.
  intros Hwf Hop. exists (tensor_heap h). split_and!; [|done| |].
  - rewrite insert_id by (rewrite Hop; by destruct O). by destruct h.
  - intros t Ht. apply (wf_edges _ Hwf o O); [done|by left].
  - intros r R HR. pose proof (wf_linked _ Hwf _ _ HR) as Hl. exists (uses R).
    rewrite with_uses_uses by apply Hl. split; [done|].
    assert (∀ a, (o, a) ∈ uses R → 0 ≤ a < zlen (Inputs O)) as Huse.
    { intros a (O' & HO' & Ha)%(linked_use _ _ _ Hl). simplify_eq. by eapply zget_range. }
    split.
    + done.
    + unfold own. rewrite (linked_count _ r R o O (length (Inputs O)) _ Hl Hop); [by rewrite firstn_all|].
      intros p i Hu. simpl. split; [|tauto]. intros ->. split; [done|]. by apply Huse.
    + intros k. unfold own_upto. rewrite (linked_count _ r R o O (S k) _ Hl Hop); [done|].
      intros p i _. simpl. lia.
    + intros a Ha. apply Huse in Ha. lia.
Qed.

Lemma linked_forget ops o O t T : linked ops t T → o ≠ nullptr →
  linked (<[o := set_Outputs [] (set_Inputs [] O)]> ops) t (forget_op o T).
Proof.
  intros Hl Ho. unfold forget_op. split.
  - apply balanced_with_uses.
  - rewrite uses_with_uses. apply NoDup_filter, Hl.
  - intros p i. rewrite uses_with_uses. unfold others. rewrite list_elem_of_filter, (linked_use _ _ _ Hl).
    simpl. destruct (decide (p = o)) as [->|Hp].
    + rewrite lookup_insert_eq. split; [tauto|]. intros (P & HP & Hz). simplify_eq/=.
      apply zget_range in Hz. simpl in Hz. lia.
    + rewrite lookup_insert_ne by done. tauto.
  - intros p i Hp. destruct (decide (p = o)) as [->|Hpo].
    + rewrite lookup_insert_eq. simpl. split.
      * case_decide; simpl; intros [??]; congruence.
      * intros (P & HP & Hz). simplify_eq/=. apply zget_range in Hz. simpl in Hz. lia.
    + rewrite lookup_insert_ne, <- (linked_def _ _ _ Hl) by done. simpl.
      case_decide; simpl; [|done]. split; [intros [??]; congruence|intros [??]; congruence].
Qed.

Lemma cleared_nil m : cleared [] m = m.
Proof.
  apply map_eq. intros t. rewrite cleared_lookup. by destruct (m !! t).
Qed.

(** After both loops every tensor has forgotten [o]. *)
Lemma cleared_outputs h o O m : wf_ir h → op_heap h !! o = Some O → o ≠ nullptr →
  dom m = dom (tensor_heap h) →
  (∀ r R, tensor_heap h !! r = Some R → ∃ us, m !! r = Some (with_uses us R) ∧
     dropping_uses o [] r (uses R) us) →
  cleared (Outputs O) m = forget_op o <$> tensor_heap h.
Proof.
  intros Hwf Hop Ho Hdom Hm. apply map_eq. intros t. rewrite cleared_lookup, lookup_fmap.
  destruct (tensor_heap h !! t) as [T|] eqn:HT; simpl.
  - destruct (Hm t T HT) as (us & -> & [Hot Hown _ _]). simpl. f_equal.
    rewrite (own_0 _ _ Hown) in Hot. subst us. unfold forget_op.
    pose proof (linked_def _ _ _ (wf_linked _ Hwf _ _ HT) o) as Hdef.
    destruct (decide (DefiningOp T = o)) as [Hd|Hd].
    + rewrite decide_True; [done|]. destruct (Hdef (DefiningOpOutInd T) Ho) as [Hd' _].
      destruct Hd' as (O' & HO' & Hz); [done|]. simplify_eq. by eapply zget_elem.
    + rewrite decide_False; [done|]. intros Hin. apply list_elem_of_lookup in Hin as [i Hi].
      apply Hd. apply (Hdef (Z.of_nat i) Ho). exists O. split; [done|].
      apply zget_Some. rewrite Nat2Z.id. split; [lia|done].
  - apply not_elem_of_dom in HT. rewrite <- Hdom in HT. apply not_elem_of_dom in HT. by rewrite HT.
Qed.

(** [Drop], exactly. *)
Lemma Drop_exact_wf h o O : wf_ir h → op_heap h !! o = Some O →
  Drop o h = Done tt (without_op o O h) ∧ wf_ir (without_op o O h).
Proof.
  intros Hwf Hop. assert (o ≠ nullptr) as Hnull by (intros ->; by rewrite (wf_null _ Hwf) in Hop).
  split.
  - assert (wp (Drop o) (λ _ h', h' = without_op o O h) (λ _, False) h) as Hwp.
    { unfold Drop. wp_steps. eapply wp_get_op; [exact Hop|]. wp_steps.
      eapply wp_post; [|by apply (drop_inputs h o O), dropping_start]. simpl.
      intros _ h' (m & -> & Hdom & _ & Hm). wp_steps. eapply wp_get_op; [apply lookup_insert_eq|].
      wp_steps. rewrite <- (cleared_nil m).
      eapply wp_post; [|apply (drop_outputs h o (set_Inputs [] O) (Outputs O) [] m (op_heap h))].
      - simpl. intros _ h' ->. unfold without_op. do 2 f_equal. by apply (cleared_outputs h o O).
      - intros t Ht. destruct (wf_edges _ Hwf o O t Hop (or_intror Ht)) as [T HT].
        destruct (Hm t T HT) as (us & Hus & _). eauto. }
    apply wp_no_error in Hwp as ([] & h' & Hrun & ->). done.
  - split; simpl.
    + intros t T. rewrite lookup_fmap_Some. intros (T0 & <- & HT0).
      apply linked_forget; [by apply (wf_linked _ Hwf)|done].
    + intros p P t HP Ht. rewrite lookup_fmap, fmap_is_Some. destruct (decide (p = o)) as [->|Hp].
      * rewrite lookup_insert_eq in HP. simplify_eq/=. destruct Ht as [Ht|Ht]; by apply elem_of_nil in Ht.
      * rewrite lookup_insert_ne in HP by done. by apply (wf_edges _ Hwf p P).
    + rewrite lookup_insert_ne by done. apply Hwf.
Qed.

(** C27: [Drop] takes an operation out of a well-formed graph whatever its
    edges are, a tensor used several times by the operation included: it
    terminates without a failed access, empties the inputs and the outputs,
    removes from every tensor exactly the uses by this operation (the others
    keep their order) and its definition by it, changes nothing else, and the
    graph stays well formed. *)
Theorem Drop_detaches h o O : wf_ir h → op_heap h !! o = Some O →
  Drop o h = Done tt (without_op o O h) ∧ wf_ir (without_op o O h).
Proof. apply Drop_exact_wf. Qed.

(** ** Dead code elimination *)

Section remove_if.
Context {A : Type} (heap : ir → gmap nat A) (set_heap : gmap nat A → ir → ir).
Hypothesis heap_set : ∀ m h, heap (set_heap m h) = m.
Hypothesis set_set : ∀ m m' h, set_heap m (set_heap m' h) = set_heap m h.
Hypothesis set_heap_id : ∀ h, set_heap (heap h) h = h.
Context (pred : nat → A → bool).

(** The heap without the elements of [refs] that satisfy the predicate. *)
Definition swept (refs : list nat) (m : gmap nat A) : gmap nat A :=
  map_imap (λ p a, if decide (p ∈ refs ∧ pred p a = true) then None else Some a) m.

Definition dead (m : gmap nat A) (p : nat) : bool :=
  match m !! p with Some a => pred p a | None => false end.

Lemma swept_lookup refs m p : swept refs m !! p =
  m !! p ≫= λ a, if decide (p ∈ refs ∧ pred p a = true) then None else Some a.
Proof. unfold swept. apply map_lookup_imap. Qed.

Lemma swept_snoc_dead refs p a m : m !! p = Some a → pred p a = true →
  delete p (swept refs m) = swept (refs ++ [p]) m.
Proof.
  intros Hp Hdead. apply map_eq. intros q. rewrite swept_lookup. destruct (decide (q = p)) as [->|Hne].
  - rewrite lookup_delete_eq, Hp. simpl. by rewrite decide_True by (split; [in_list|done]).
  - rewrite lookup_delete_ne, swept_lookup by done. destruct (m !! q); [|done]. simpl.
    apply decide_ext. rewrite elem_of_app, list_elem_of_singleton. tauto.
Qed.

Lemma swept_snoc_alive refs p a m : m !! p = Some a → pred p a = false →
  swept (refs ++ [p]) m = swept refs m.
Proof.
  intros Hp Halive. apply map_eq. intros q. rewrite !swept_lookup.
  destruct (decide (q = p)) as [->|Hne].
  - rewrite Hp. simpl. rewrite !decide_False; [done|..]; rewrite Halive; intuition congruence.
  - destruct (m !! q); [|done]. simpl. apply decide_ext.
    rewrite elem_of_app, list_elem_of_singleton. tauto.
Qed.

Lemma remove_if_spec refs h E : NoDup refs → (∀ p, p ∈ refs → is_Some (heap h !! p)) →
  wp (remove_if heap set_heap pred refs)
    (λ kr h', h' = set_heap (swept refs (heap h)) h ∧ kr.1 = filter (λ p, dead (heap h) p = false) refs ∧
       kr.2 = zlen refs - zlen kr.1) E h.
Proof.
  intros Hnd Hal. unfold remove_if.
  eapply wp_post; [|apply (wp_fold_m (λ done (kr : list nat * Z) h',
    h' = set_heap (swept done (heap h)) h ∧ kr.1 = filter (λ p, dead (heap h) p = false) done ∧
    kr.2 = zlen done - zlen kr.1) E)].
  - done.
  - split_and!; [|done|done]. assert (swept [] (heap h) = heap h) as ->.
    { apply map_eq. intros q. rewrite swept_lookup. by destruct (heap h !! q). }
    by rewrite set_heap_id.
  - intros done p todo [kept removed] h' Hl (-> & Hk & Hr). simpl in Hk, Hr.
    destruct (Hal p) as [a Ha]; [rewrite Hl; in_list|].
    assert (p ∉ done) as Hp.
    { rewrite Hl in Hnd. apply NoDup_app in Hnd as (_ & Hd & _). intros Hin. apply (Hd p Hin). by left. }
    assert (swept done (heap h) !! p = Some a) as Ha'
      by (rewrite swept_lookup, Ha; simpl; rewrite decide_False; tauto).
    wp_steps. rewrite heap_set. eapply wp_deref; [exact Ha'|].
    assert (dead (heap h) p = pred p a) as Hdp by (unfold dead; by rewrite Ha).
    rewrite filter_app, filter_cons, Hdp, !length_app.
    destruct (pred p a) eqn:Hdead; wp_steps.
    + rewrite app_nil_r, set_set, (swept_snoc_dead _ _ _ _ Ha Hdead).
      split_and!; [done|done|]. lia.
    + rewrite (swept_snoc_alive _ _ _ _ Ha Hdead).
      split_and!; [done|by rewrite Hk|]. rewrite length_app. simpl. lia.
Qed.
End remove_if.

(** What a subgraph owns is allocated once. *)
Record owned (h : ir) (g : LiteRtSubgraph) (G : LiteRtSubgraphT) : Prop := {
  owned_subgraph : subgraph_heap h !! g = Some G;
  owned_ops_nodup : NoDup (Ops G);
  owned_tensors_nodup : NoDup (Tensors G);
  owned_ops o : o ∈ Ops G → is_Some (op_heap h !! o);
  owned_tensors t : t ∈ Tensors G → is_Some (tensor_heap h !! t)
}.

Definition op_dead (_ : nat) : LiteRtOpT → bool := IsOpDead.
Definition tensor_dead (G : LiteRtSubgraphT) (t : nat) (T : LiteRtTensorT) : bool :=
  IsTensorDead T && negb (IsIO G t).

Definition live_ops (h : ir) (G : LiteRtSubgraphT) : list LiteRtOp :=
  filter (λ o, dead op_dead (op_heap h) o = false) (Ops G).
Definition live_tensors (h : ir) (G : LiteRtSubgraphT) : list LiteRtTensor :=
  filter (λ t, dead (tensor_dead G) (tensor_heap h) t = false) (Tensors G).

(** The heap after dead code elimination of [g]. *)
Definition after_DCE (h : ir) (g : LiteRtSubgraph) (G : LiteRtSubgraphT) : ir :=
  {| tensor_heap := swept (tensor_dead G) (Tensors G) (tensor_heap h);
     op_heap := swept op_dead (Ops G) (op_heap h);
     subgraph_heap := <[g := set_Tensors (live_tensors h G) (set_Ops (live_ops h G) G)]> (subgraph_heap h);
     model_subgraphs := model_subgraphs h;
     next_address := next_address h |}.

Lemma DCE_exact h g G : owned h g G →
  DCE g h = Done (0 <? zlen (Ops G) - zlen (live_ops h G) +
                       (zlen (Tensors G) - zlen (live_tensors h G)))
    (after_DCE h g G).
Proof.
  intros Ho. pose proof (owned_subgraph _ _ _ Ho) as Hg.
  match goal with |- _ = Done ?b ?s =>
    assert (wp (DCE g) (λ r h', r = b ∧ h' = s) (λ _, False) h) as Hwp end.
  { unfold DCE, RemoveOpIf. wp_steps. eapply wp_get_subgraph; [exact Hg|]. wp_steps.
    eapply wp_post; [|apply (remove_if_spec op_heap set_op_heap ltac:(done) ltac:(done)
      ltac:(by intros []) (λ _, IsOpDead)); apply Ho].
    simpl. intros [ops n] h1 (-> & Hops & Hn). simpl in Hops, Hn. wp_steps. unfold put_subgraph. wp_steps.
    eapply wp_get_subgraph; [apply lookup_insert_eq|]. wp_steps. unfold RemoveTensorIf. wp_steps.
    eapply wp_get_subgraph; [apply lookup_insert_eq|]. wp_steps.
    eapply wp_post; [|apply (remove_if_spec tensor_heap set_tensor_heap ltac:(done) ltac:(done)
      ltac:(by intros [])); apply Ho].
    simpl. intros [ts n'] h1 (-> & Hts & Hn'). simpl in Hts, Hn'. wp_steps. unfold put_subgraph. wp_steps.
    change (ops = live_ops h G) in Hops. change (ts = live_tensors h G) in Hts. subst. split; [done|].
    unfold after_DCE, set_subgraph_heap, set_tensor_heap, set_op_heap. simpl.
    by rewrite insert_insert_eq. }
  apply wp_no_error in Hwp as (r & h' & Hrun & -> & ->). done.
Qed.

Lemma swept_Some {A} (pred : nat → A → bool) refs m p a :
  swept pred refs m !! p = Some a ↔ m !! p = Some a ∧ ¬ (p ∈ refs ∧ pred p a = true).
Proof.
  rewrite swept_lookup. destruct (m !! p) as [b|]; simpl; [|naive_solver].
  case_decide; naive_solver.
Qed.

Lemma zget_nonempty {A} (l : list A) i x : zget l i = Some x → l ≠ [].
Proof. intros Hi ->. apply zget_range in Hi. simpl in Hi. lia. Qed.

Lemma after_DCE_wf h g G : wf_ir h → owned h g G → wf_ir (after_DCE h g G).
Proof.
  intros Hwf Ho.
  assert (∀ o O, op_heap h !! o = Some O → Inputs O ≠ [] ∨ Outputs O ≠ [] →
    swept op_dead (Ops G) (op_heap h) !! o = Some O) as Hlive.
  { intros o O HO Hne. apply swept_Some. split; [done|]. intros [_ Hd]. unfold op_dead, IsOpDead in Hd.
    apply andb_true_iff in Hd as [H1%bool_decide_eq_true H2%bool_decide_eq_true]. tauto. }
  split; simpl.
  - intros t T [HT _]%swept_Some. pose proof (wf_linked _ Hwf _ _ HT) as Hl. split.
    + apply Hl.
    + apply Hl.
    + intros o i. rewrite (linked_use _ _ _ Hl). split; intros (O & HO & Hz).
      * exists O. split; [|done]. apply Hlive; [done|]. left. by eapply zget_nonempty.
      * apply swept_Some in HO as [HO _]. eauto.
    + intros o i Hne. rewrite (linked_def _ _ _ Hl) by done. split; intros (O & HO & Hz).
      * exists O. split; [|done]. apply Hlive; [done|]. right. by eapply zget_nonempty.
      * apply swept_Some in HO as [HO _]. eauto.
  - intros o O t [HO _]%swept_Some Ht. destruct (wf_edges _ Hwf o O t HO Ht) as [T HT].
    exists T. apply swept_Some. split; [done|]. intros [_ Hd].
    unfold tensor_dead, IsTensorDead in Hd.
    apply andb_true_iff in Hd as [[Hdef%bool_decide_eq_true Hn%Z.eqb_eq]%andb_true_iff _].
    pose proof (wf_linked _ Hwf _ _ HT) as Hl.
    assert (o ≠ nullptr) as Hnull by (intros ->; by rewrite (wf_null _ Hwf) in HO).
    destruct Ht as [[i Hi]%list_elem_of_lookup|[i Hi]%list_elem_of_lookup].
    + assert ((o, Z.of_nat i) ∈ uses T) as Hu.
      { apply (linked_use _ _ _ Hl). exists O. split; [done|]. apply zget_Some.
        rewrite Nat2Z.id. split; [lia|done]. }
      unfold NumUses in Hn. unfold uses in Hu. destruct (Users T); [by apply elem_of_nil in Hu|]. simpl in Hn. lia.
    + assert (DefiningOp T = o ∧ DefiningOpOutInd T = Z.of_nat i) as [Hd' _]; [|congruence].
      apply (linked_def _ _ _ Hl); [done|]. exists O. split; [done|]. apply zget_Some.
      rewrite Nat2Z.id. split; [lia|done].
  - rewrite swept_lookup. by rewrite (wf_null _ Hwf).
Qed.

(** In the heap after the sweep nothing that is left is dead. *)
Lemma swept_again {A} (pred : nat → A → bool) refs m :
  (let left := filter (λ p, dead pred m p = false) refs in
   filter (λ p, dead pred (swept pred refs m) p = false) left = left ∧
   swept pred left (swept pred refs m) = swept pred refs m).
Proof.
  split.
  - apply filter_all. intros p [Hp _]%list_elem_of_filter. unfold dead in *. rewrite swept_lookup.
    destruct (m !! p); [|done]. simpl. case_decide; done.
  - apply map_eq. intros p. rewrite (swept_lookup _ (filter _ _)). rewrite swept_lookup at 1.
    rewrite swept_lookup. destruct (m !! p) as [a|] eqn:Hp; [|done]. simpl.
    destruct (decide (p ∈ refs ∧ pred p a = true)) as [|Hn]; [done|]. simpl.
    rewrite decide_False; [done|]. intros [[_ Hin]%list_elem_of_filter Hd]. tauto.
Qed.

Lemma after_DCE_owned h g G : owned h g G →
  owned (after_DCE h g G) g (set_Tensors (live_tensors h G) (set_Ops (live_ops h G) G)).
Proof.
  intros Ho. split; simpl.
  - apply lookup_insert_eq.
  - apply NoDup_filter, Ho.
  - apply NoDup_filter, Ho.
  - intros o [Hd Hin]%list_elem_of_filter. destruct (owned_ops _ _ _ Ho o Hin) as [O HO].
    exists O. apply swept_Some. split; [done|]. unfold dead in Hd. rewrite HO in Hd. intuition congruence.
  - intros t [Hd Hin]%list_elem_of_filter. destruct (owned_tensors _ _ _ Ho t Hin) as [T HT].
    exists T. apply swept_Some. split; [done|]. unfold dead in Hd. rewrite HT in Hd. intuition congruence.
Qed.

(** C30: dead code elimination returns in every heap that owns the subgraph's
    objects, destroys exactly the operations without edges and then the tensors
    without a definition or a use that are not inputs or outputs of the
    subgraph, keeps the order of the others and the graph well formed, says
    whether it removed anything, and a second run finds nothing to remove. *)
Theorem DCE_sweeps h g G : wf_ir h → owned h g G →
  DCE g h = Done (0 <? zlen (Ops G) - zlen (live_ops h G) +
                       (zlen (Tensors G) - zlen (live_tensors h G)))
    (after_DCE h g G) ∧
  wf_ir (after_DCE h g G) ∧
  DCE g (after_DCE h g G) = Done false (after_DCE h g G).
Proof.
  intros Hwf Ho. split_and!; [by apply DCE_exact|by apply after_DCE_wf|].
  rewrite (DCE_exact _ _ _ (after_DCE_owned h g G Ho)).
  destruct (swept_again op_dead (Ops G) (op_heap h)) as [Ho1 Ho2].
  destruct (swept_again (tensor_dead G) (Tensors G) (tensor_heap h)) as [Ht1 Ht2].
  set (G1 := set_Tensors (live_tensors h G) (set_Ops (live_ops h G) G)).
  assert (live_ops (after_DCE h g G) G1 = live_ops h G) as Hlo by exact Ho1.
  assert (live_tensors (after_DCE h g G) G1 = live_tensors h G) as Hlt by exact Ht1.
  rewrite Hlo, Hlt. simpl. rewrite !Z.sub_diag. f_equal. unfold after_DCE at 1.
  rewrite Hlo, Hlt. simpl. unfold after_DCE. f_equal; [exact Ht2|exact Ho2|].
  rewrite insert_insert_eq. done.
Qed.

(** ** Validation *)

Lemma GetTensorUses_spec T inds h E : balanced T → Forall (λ i, 0 ≤ i < NumUses T) inds →
  wp (GetTensorUses T inds)
    (λ us h', h' = h ∧ ∀ u, u ∈ us ↔ ∃ i, i ∈ inds ∧ uses T !! Z.to_nat i = Some u) E h.
Proof.
  intros Hb Hinds. unfold GetTensorUses.
  eapply wp_post; [|apply (wp_fold_m (λ done us h',
    h' = h ∧ ∀ u, u ∈ us ↔ ∃ i, i ∈ done ∧ uses T !! Z.to_nat i = Some u) E)].
  - done.
  - split; [done|]. intros u. split; [by intros ?%elem_of_nil|by intros (i & ?%elem_of_nil & _)].
  - intros done i todo us h' Hl [-> Hus].
    assert (0 ≤ i < NumUses T) as Hi by (rewrite Forall_forall in Hinds; apply Hinds; rewrite Hl; in_list).
    destruct (uses_zget T i Hb Hi) as (u & a & Hu & Ha & Hua).
    wp_steps. eapply wp_deref; [exact Hu|]. wp_steps. eapply wp_deref; [exact Ha|]. wp_steps.
    split; [done|]. intros x. rewrite elem_of_app, Hus, list_elem_of_singleton. split.
    + intros [(j & Hj & Hx)| ->]; [exists j|exists i]; (split; [in_list|done]).
    + intros (j & Hj & Hx). apply elem_of_app in Hj as [Hj|Hj%list_elem_of_singleton]; [eauto|].
      subst j. right. congruence.
Qed.

(** Checking every index of a vector: an error exactly when one fails. *)
Lemma for_each_check (l : list Z) (P : Z → Prop) (body : Z → M ir unit) h :
  (∀ i, i ∈ l → wp (body i) (λ _ h', h' = h ∧ P i) (λ h', h' = h ∧ ¬ P i) h) →
  wp (for_each l body) (λ _ h', h' = h ∧ ∀ i, i ∈ l → P i) (λ h', h' = h ∧ ¬ ∀ i, i ∈ l → P i) h.
Proof.
  intros Hbody. eapply wp_mono; [apply (wp_for_each (λ done h', h' = h ∧ ∀ i, i ∈ done → P i)
    (λ h', h' = h ∧ ¬ ∀ i, i ∈ l → P i))| |]; [| |done|done].
  - split; [done|]. by intros i ?%elem_of_nil.
  - intros done i todo h' Hl [-> Hd]. eapply wp_mono; [apply Hbody; rewrite Hl; in_list| |]; simpl.
    + intros _ h' [-> Hi]. split; [done|]. by apply forall_snoc.
    + intros h' [-> Hi]. split; [done|]. intros Hall. apply Hi, Hall. rewrite Hl. in_list.
Qed.

Definition input_linked (h : ir) (o : LiteRtOp) (O : LiteRtOpT) (i : Z) : Prop :=
  ∀ t T, zget (Inputs O) i = Some t → tensor_heap h !! t = Some T → (o, i) ∈ uses T.

Definition output_linked (h : ir) (o : LiteRtOp) (O : LiteRtOpT) (i : Z) : Prop :=
  ∀ t T, zget (Outputs O) i = Some t → tensor_heap h !! t = Some T →
    DefiningOp T = o ∧ DefiningOpOutInd T = i.

Lemma validate_input_spec h o O i t T : zget (Inputs O) i = Some t →
  tensor_heap h !! t = Some T → balanced T →
  wp (validate_input o O i) (λ _ h', h' = h ∧ input_linked h o O i)
    (λ h', h' = h ∧ ¬ input_linked h o O i) h.
Proof.
  intros Hi HT Hb. unfold validate_input. wp_steps. eapply wp_deref; [exact Hi|]. wp_steps.
  eapply wp_get_tensor; [exact HT|]. wp_steps.
  eapply wp_post; [|apply GetTensorUses_spec; [done|]].
  - simpl. intros us h' [-> Hus].
    assert (input_linked h o O i ↔ Exists (λ u : nat * Z, u.2 = i) us) as Hlink.
    { rewrite Exists_exists. unfold input_linked. split.
      - intros Hin. specialize (Hin t T Hi HT). apply list_elem_of_lookup in Hin as [k Hk].
        exists (o, i). split; [|done]. apply Hus. exists (Z.of_nat k). rewrite Nat2Z.id. split; [|done].
        apply list_elem_of_filter. unfold uses in Hk.
        apply lookup_zip_with_Some in Hk as (u & a & [= <- <-] & Hu & _). split.
        + apply zget_Some. rewrite Nat2Z.id. split; [lia|done].
        + apply elem_of_range. apply lookup_lt_Some in Hu. unfold NumUses. lia.
      - intros ([p a] & Hin & Ha) t' T' Ht' HT'. simpl in Ha. subst a. simplify_eq.
        apply Hus in Hin as (k & Hk & Hpi). apply list_elem_of_filter in Hk as [Hk _].
        apply zget_Some in Hk as [_ Hk]. unfold uses in Hpi.
        pose proof Hpi as (u & a & [= <- <-] & Hu & _)%lookup_zip_with_Some. simplify_eq.
        by eapply list_elem_of_lookup_2. }
    apply wp_ensure; rewrite ?bool_decide_eq_true, ?bool_decide_eq_false, Hlink; done.
  - apply Forall_forall. intros k [_ Hk]%list_elem_of_filter. by apply elem_of_range in Hk.
Qed.

Lemma validate_output_spec h o O i t T : zget (Outputs O) i = Some t →
  tensor_heap h !! t = Some T →
  wp (validate_output o O i) (λ _ h', h' = h ∧ output_linked h o O i)
    (λ h', h' = h ∧ ¬ output_linked h o O i) h.
Proof.
  intros Hi HT. unfold validate_output. wp_steps. eapply wp_deref; [exact Hi|]. wp_steps.
  eapply wp_get_tensor; [exact HT|]. wp_steps.
  assert (output_linked h o O i ↔ DefiningOp T = o ∧ DefiningOpOutInd T = i) as Hlink
    by (unfold output_linked; split; [eauto|intros ? t' T' ??; by simplify_eq]).
  apply wp_ensure; rewrite ?bool_decide_eq_true, ?bool_decide_eq_false; intros H1.
  - apply wp_ensure; rewrite ?Z.eqb_eq, ?Z.eqb_neq, Hlink; intros H2; (split; [done|tauto]).
  - split; [done|]. rewrite Hlink. tauto.
Qed.

(** C36: [ValidateLocalTopology] never fails an access on an operation whose
    edges are allocated, changes nothing, and answers [true] exactly when every
    input tensor records the use at its index and every output tensor is defined
    by the operation at its index. *)
Theorem ValidateLocalTopology_correct h o O : op_heap h !! o = Some O →
  (∀ t, t ∈ Inputs O ∨ t ∈ Outputs O → is_Some (tensor_heap h !! t)) →
  (∀ t T, tensor_heap h !! t = Some T → balanced T) →
  ∃ b, ValidateLocalTopology o h = Done b h ∧
    (b = true ↔ (∀ i, input_linked h o O i) ∧ (∀ i, output_linked h o O i)).
Proof.
  intros Hop Hal Hb.
  set (m := for_each (range 0 (zlen (Inputs O))) (validate_input o O) ;;
            for_each (range 0 (zlen (Outputs O))) (validate_output o O)).
  set (ins := ∀ i, i ∈ range 0 (zlen (Inputs O)) → input_linked h o O i).
  set (outs := ∀ i, i ∈ range 0 (zlen (Outputs O)) → output_linked h o O i).
  assert (wp m (λ _ h', h' = h ∧ ins ∧ outs) (λ h', h' = h ∧ ¬ (ins ∧ outs)) h) as Hwp.
  { unfold m. wp_steps. eapply wp_mono; [apply (for_each_check _ (input_linked h o O))| |].
    - intros i Hi%elem_of_range. destruct (zget_is_Some (Inputs O) i Hi) as [t Ht].
      destruct (Hal t) as [T HT]; [left; by eapply zget_elem|]. eapply validate_input_spec; eauto.
    - simpl. intros _ h' [-> Hins]. eapply wp_mono; [apply (for_each_check _ (output_linked h o O))| |].
      + intros i Hi%elem_of_range. destruct (zget_is_Some (Outputs O) i Hi) as [t Ht].
        destruct (Hal t) as [T HT]; [right; by eapply zget_elem|]. eapply validate_output_spec; eauto.
      + simpl. intros _ h' [-> Houts]. done.
      + simpl. intros h' [-> Houts]. split; [done|]. intros [_ ?]. done.
    - simpl. intros h' [-> Hins]. split; [done|]. intros [? _]. done. }
  assert (ins ∧ outs ↔ (∀ i, input_linked h o O i) ∧ (∀ i, output_linked h o O i)) as Hiff.
  { unfold ins, outs. split; [|naive_solver]. intros [H1 H2]. split; intros i t T Ht.
    - apply H1; [|done]. by apply elem_of_range, zget_range with t.
    - apply H2; [|done]. by apply elem_of_range, zget_range with t. }
  enough (∃ b, ValidateLocalTopology o h = Done b h ∧ (b = true ↔ ins ∧ outs)) as (b & Hrun & Hb1)
    by (exists b; split; [exact Hrun|by rewrite Hb1, Hiff]).
  unfold wp in Hwp.
  assert (ValidateLocalTopology o h = (try_m m ≫= λ r, mret (bool_decide (is_Some r))) h) as ->.
  { unfold ValidateLocalTopology, get_op. unfold mbind, M_bind, gets, deref. by rewrite Hop. }
  unfold mbind, M_bind, try_m. destruct (m h) as [[] h'|h'|].
  - destruct Hwp as (-> & ?). eexists. split; [done|]. rewrite bool_decide_eq_true. split; [done|eauto].
  - destruct Hwp as (-> & ?). eexists. split; [done|]. rewrite bool_decide_eq_true.
    split; [by intros [??]|done].
  - done.
Qed.

(** ** Attaching *)

Lemma zget_snoc {A} (l : list A) x i :
  zget (l ++ [x]) i = if decide (i = zlen l) then Some x else zget l i.
Proof.
  unfold zget. case_decide as Hi.
  - subst i. rewrite (proj2 (Z.leb_le 0 _)) by lia. by rewrite Nat2Z.id, lookup_split.
  - case_match; [|done]. apply Z.leb_le in H. destruct (decide (Z.to_nat i < length l)%nat).
    + by rewrite lookup_app_l.
    + rewrite !(proj2 (lookup_ge_None _ _)); [done|lia|rewrite length_app; simpl; lia].
Qed.

Lemma wp_run {S A} (m : M S A) a s' s :
  wp m (λ r t, r = a ∧ t = s') (λ _, False) s → m s = Done a s'.
Proof. unfold wp. destruct (m s); naive_solver. Qed.

Definition attached_input (o : LiteRtOp) (O : LiteRtOpT) (t : LiteRtTensor) (T : LiteRtTensorT)
    (h : ir) : ir :=
  set_op_heap (<[o := set_Inputs (Inputs O ++ [t]) O]> (op_heap h))
    (set_tensor_heap (<[t := with_uses (uses T ++ [(o, zlen (Inputs O))]) T]> (tensor_heap h)) h).

Definition attached_output (o : LiteRtOp) (O : LiteRtOpT) (t : LiteRtTensor) (T : LiteRtTensorT)
    (h : ir) : ir :=
  set_op_heap (<[o := set_Outputs (Outputs O ++ [t]) O]> (op_heap h))
    (set_tensor_heap (<[t := SetDefiningOp o (zlen (Outputs O)) T]> (tensor_heap h)) h).

Lemma AttachInput_exact h o O t T : op_heap h !! o = Some O → tensor_heap h !! t = Some T →
  balanced T → AttachInput t o h = Done tt (attached_input o O t T h).
Proof.
  intros Ho Ht Hb. apply wp_run.
  unfold AttachInput. wp_steps. eapply wp_update_op; [exact Ho|]. wp_steps.
  eapply wp_update_tensor; [exact Ht|]. wp_steps. eapply wp_get_op; [apply lookup_insert_eq|]. wp_steps.
  eapply wp_update_tensor; [apply lookup_insert_eq|]. split; [done|].
  unfold attached_input, set_op_heap, set_tensor_heap. simpl. f_equal. rewrite insert_insert_eq. f_equal.
  unfold with_uses, set_uses, uses. simpl. rewrite !fmap_app, fst_zip, snd_zip by (rewrite Hb; done).
  simpl. do 3 f_equal. rewrite length_app. simpl. lia.
Qed.

Lemma AttachOutput_exact h o O t T : op_heap h !! o = Some O → tensor_heap h !! t = Some T →
  AttachOutput t o h = Done tt (attached_output o O t T h).
Proof.
  intros Ho Ht. apply wp_run.
  unfold AttachOutput. wp_steps. eapply wp_update_op; [exact Ho|]. wp_steps.
  eapply wp_get_op; [apply lookup_insert_eq|]. wp_steps.
  eapply wp_update_tensor; [exact Ht|]. split; [done|].
  unfold attached_output, set_op_heap, set_tensor_heap. simpl. do 4 f_equal.
  rewrite length_app. simpl. lia.
Qed.

Lemma attached_input_wf h o O t T : wf_ir h → op_heap h !! o = Some O →
  tensor_heap h !! t = Some T → wf_ir (attached_input o O t T h).
Proof.
  intros Hwf Hop HT. assert (o ≠ nullptr) as Hnull by (intros ->; by rewrite (wf_null _ Hwf) in Hop).
  set (O' := set_Inputs (Inputs O ++ [t]) O).
  assert (∀ r R p i, linked (op_heap h) r R →
    (∃ P, <[o := O']> (op_heap h) !! p = Some P ∧ zget (Inputs P) i = Some r) ↔
    (p, i) ∈ uses R ∨ (r = t ∧ (p, i) = (o, zlen (Inputs O)))) as Hedge.
  { intros r R p i HR. rewrite (linked_use _ _ _ HR). destruct (decide (p = o)) as [->|Hp].
    - rewrite lookup_insert_eq, Hop. split.
      + intros (P & HP & Hz). simplify_eq. simpl in Hz. rewrite zget_snoc in Hz.
        case_decide; simplify_eq; eauto.
      + intros [(P & HP & Hz)|[-> Heq]]; simplify_eq; exists O'; (split; [done|]); simpl; rewrite zget_snoc.
        * rewrite decide_False; [done|]. apply zget_range in Hz. lia.
        * by rewrite decide_True.
    - rewrite lookup_insert_ne by done. split; [eauto|]. intros [?|[_ Heq]]; [done|congruence]. }
  split; simpl.
  - intros r R HR'. destruct (decide (r = t)) as [->|Hne].
    + rewrite lookup_insert_eq in HR'. simplify_eq. pose proof (wf_linked _ Hwf _ _ HT) as Hl. split.
      * apply balanced_with_uses.
      * rewrite uses_with_uses. apply NoDup_app. split; [apply Hl|]. split; [|apply NoDup_singleton].
        intros x Hx Hx'%list_elem_of_singleton. subst x.
        apply (linked_use _ _ _ Hl) in Hx as (P & HP & Hz). simplify_eq. apply zget_range in Hz. lia.
      * intros p i. rewrite uses_with_uses. fold O'. rewrite (Hedge t T p i Hl), elem_of_app, list_elem_of_singleton.
        tauto.
      * intros p i Hp. simpl. rewrite (linked_def _ _ _ Hl) by done.
        destruct (decide (p = o)) as [->|Hpo]; [|by rewrite lookup_insert_ne].
        rewrite lookup_insert_eq, Hop. unfold O'. simpl. naive_solver.
    + rewrite lookup_insert_ne in HR' by done. pose proof (wf_linked _ Hwf _ _ HR') as Hl.
      split; [apply Hl|apply Hl| |].
      * intros p i. fold O'. rewrite (Hedge r R p i Hl). naive_solver.
      * intros p i Hp. rewrite (linked_def _ _ _ Hl) by done.
        destruct (decide (p = o)) as [->|Hpo]; [|by rewrite lookup_insert_ne].
        rewrite lookup_insert_eq, Hop. unfold O'. simpl. naive_solver.
  - intros p P r HP Hr. rewrite lookup_insert_is_Some.
    destruct (decide (t = r)) as [|Hne]; [by left|right; split; [done|]].
    destruct (decide (p = o)) as [->|Hp].
    + rewrite lookup_insert_eq in HP. simplify_eq. simpl in Hr. apply (wf_edges _ Hwf o O); [done|].
      rewrite elem_of_app, list_elem_of_singleton in Hr. naive_solver.
    + rewrite lookup_insert_ne in HP by done. by apply (wf_edges _ Hwf p P).
  - rewrite lookup_insert_ne by done. apply Hwf.
Qed.

Lemma attached_output_wf h o O t T : wf_ir h → op_heap h !! o = Some O →
  tensor_heap h !! t = Some T → DefiningOp T = nullptr → wf_ir (attached_output o O t T h).
Proof.
  intros Hwf Hop HT Hdef. assert (o ≠ nullptr) as Hnull by (intros ->; by rewrite (wf_null _ Hwf) in Hop).
  set (O' := set_Outputs (Outputs O ++ [t]) O).
  assert (∀ r p i, (∃ P, <[o := O']> (op_heap h) !! p = Some P ∧ zget (Outputs P) i = Some r) ↔
    (∃ P, op_heap h !! p = Some P ∧ zget (Outputs P) i = Some r) ∨
    (r = t ∧ p = o ∧ i = zlen (Outputs O))) as Hedge.
  { intros r p i. destruct (decide (p = o)) as [->|Hp].
    - rewrite lookup_insert_eq, Hop. split.
      + intros (P & HP & Hz). simplify_eq. simpl in Hz. rewrite zget_snoc in Hz.
        case_decide; simplify_eq; eauto.
      + intros [(P & HP & Hz)|(-> & _ & ->)]; simplify_eq; exists O'; (split; [done|]); simpl; rewrite zget_snoc.
        * rewrite decide_False; [done|]. apply zget_range in Hz. lia.
        * by rewrite decide_True.
    - rewrite lookup_insert_ne by done. naive_solver. }
  assert (∀ r R p i, linked (op_heap h) r R →
    (∃ P, <[o := O']> (op_heap h) !! p = Some P ∧ zget (Inputs P) i = Some r) ↔ (p, i) ∈ uses R) as Huse.
  { intros r R p i HR. rewrite (linked_use _ _ _ HR). destruct (decide (p = o)) as [->|Hp].
    - rewrite lookup_insert_eq, Hop. unfold O'. naive_solver.
    - by rewrite lookup_insert_ne. }
  split; simpl.
  - intros r R HR'. destruct (decide (r = t)) as [->|Hne].
    + rewrite lookup_insert_eq in HR'. simplify_eq. pose proof (wf_linked _ Hwf _ _ HT) as Hl.
      split; [apply Hl|apply Hl|by intros p i; fold O'; rewrite (Huse t T)|].
      intros p i Hp. fold O'. rewrite Hedge, <- (linked_def _ _ _ Hl) by done. simpl.
      rewrite Hdef. naive_solver.
    + rewrite lookup_insert_ne in HR' by done. pose proof (wf_linked _ Hwf _ _ HR') as Hl.
      split; [apply Hl|apply Hl|by intros p i; fold O'; rewrite (Huse r R)|].
      intros p i Hp. fold O'. rewrite Hedge, <- (linked_def _ _ _ Hl) by done. naive_solver.
  - intros p P r HP Hr. rewrite lookup_insert_is_Some.
    destruct (decide (t = r)) as [|Hne]; [by left|right; split; [done|]].
    destruct (decide (p = o)) as [->|Hp].
    + rewrite lookup_insert_eq in HP. simplify_eq. simpl in Hr. apply (wf_edges _ Hwf o O); [done|].
      rewrite elem_of_app, list_elem_of_singleton in Hr. naive_solver.
    + rewrite lookup_insert_ne in HP by done. by apply (wf_edges _ Hwf p P).
  - rewrite lookup_insert_ne by done. apply Hwf.
Qed.

(** [AttachInput] on allocated objects, and [AttachOutput] on a tensor that
    has no definition yet, append the edge at both of its ends with the same
    index and keep the graph well formed. *)
Theorem Attach_wf h o O t T : wf_ir h → op_heap h !! o = Some O → tensor_heap h !! t = Some T →
  AttachInput t o h = Done tt (attached_input o O t T h) ∧ wf_ir (attached_input o O t T h) ∧
  AttachOutput t o h = Done tt (attached_output o O t T h) ∧
  (DefiningOp T = nullptr → wf_ir (attached_output o O t T h)).
Proof.
  intros Hwf Hop HT. split_and!.
  - apply AttachInput_exact; [done..|]. apply (wf_linked _ Hwf _ _ HT).
  - by apply attached_input_wf.
  - by apply AttachOutput_exact.
  - by apply attached_output_wf.
Qed.

(** ** A check of well-formedness, and graphs of the tests *)

Definition tensor_checked (ops : gmap nat LiteRtOpT) (t : LiteRtTensor) (T : LiteRtTensorT) : Prop :=
  balanced T ∧ NoDup (uses T) ∧
  Forall (λ u : nat * Z, (ops !! u.1 ≫= λ O, zget (Inputs O) u.2) = Some t) (uses T) ∧
  (DefiningOp T = nullptr ∨
   (ops !! DefiningOp T ≫= λ O, zget (Outputs O) (DefiningOpOutInd T)) = Some t).

Definition op_checked (tensors : gmap nat LiteRtTensorT) (o : LiteRtOp) (O : LiteRtOpT) : Prop :=
  o ≠ nullptr ∧
  Forall (λ i, ∃ T, (zget (Inputs O) i ≫= λ t, tensors !! t) = Some T ∧ (o, i) ∈ uses T)
    (range 0 (zlen (Inputs O))) ∧
  Forall (λ i, ∃ T, (zget (Outputs O) i ≫= λ t, tensors !! t) = Some T ∧
    DefiningOp T = o ∧ DefiningOpOutInd T = i) (range 0 (zlen (Outputs O))).

Definition ir_checked (h : ir) : Prop :=
  map_Forall (tensor_checked (op_heap h)) (tensor_heap h) ∧
  map_Forall (op_checked (tensor_heap h)) (op_heap h).

#[export] Instance option_Some_dec {A} (P : A → Prop) `{∀ x, Decision (P x)} (m : option A) :
  Decision (∃ x, m = Some x ∧ P x).
Proof.
  destruct m as [x|]; [|right; by intros (? & ? & _)].
  destruct (decide (P x)); [left; eauto|right; by intros (? & [= <-] & ?)].
Defined.

#[export] Instance tensor_checked_dec ops t T : Decision (tensor_checked ops t T).
Proof. unfold tensor_checked, balanced. apply _. Defined.
#[export] Instance op_checked_dec ts o O : Decision (op_checked ts o O).
Proof. unfold op_checked. apply _. Defined.
#[export] Instance ir_checked_dec h : Decision (ir_checked h).
Proof. unfold ir_checked. apply _. Defined.

Lemma zget_bind_Some {A B} (l : list A) i (f : A → option B) b :
  (zget l i ≫= f) = Some b → ∃ a, zget l i = Some a ∧ f a = Some b.
Proof. rewrite bind_Some. done. Qed.

Lemma ir_checked_wf h : ir_checked h → wf_ir h.
Proof.
  intros [Ht Ho]. split.
  - intros t T HT. destruct (Ht t T HT) as (Hb & Hnd & Hu & Hd). split; [done|done| |].
    + intros o i. split.
      * intros Hin. rewrite Forall_forall in Hu. apply Hu in Hin. simpl in Hin.
        by apply bind_Some in Hin.
      * intros (O & HO & Hz). destruct (Ho o O HO) as (_ & Hi & _). rewrite Forall_forall in Hi.
        destruct (Hi i) as (T' & HT' & Hin); [by apply elem_of_range, zget_range with t|].
        rewrite Hz in HT'. simpl in HT'. by simplify_eq.
    + intros o i Hnull. split.
      * intros [<- <-]. destruct Hd as [Hd|Hd]; [done|]. by apply bind_Some in Hd.
      * intros (O & HO & Hz). destruct (Ho o O HO) as (_ & _ & Hi). rewrite Forall_forall in Hi.
        destruct (Hi i) as (T' & HT' & Hin); [by apply elem_of_range, zget_range with t|].
        rewrite Hz in HT'. simpl in HT'. by simplify_eq.
  - intros o O t HO Hin. destruct (Ho o O HO) as (_ & Hi & Hout). rewrite Forall_forall in Hi, Hout.
    destruct Hin as [[i Hz]%list_elem_of_lookup|[i Hz]%list_elem_of_lookup].
    + destruct (Hi (Z.of_nat i)) as (T' & HT' & _).
      { apply elem_of_range. apply lookup_lt_Some in Hz. lia. }
      apply zget_bind_Some in HT' as (t' & Hz' & HT'). apply zget_Some in Hz' as [_ Hz'].
      rewrite Nat2Z.id in Hz'. simplify_eq. eauto.
    + destruct (Hout (Z.of_nat i)) as (T' & HT' & _).
      { apply elem_of_range. apply lookup_lt_Some in Hz. lia. }
      apply zget_bind_Some in HT' as (t' & Hz' & HT'). apply zget_Some in Hz' as [_ Hz'].
      rewrite Nat2Z.id in Hz'. simplify_eq. eauto.
  - destruct (op_heap h !! nullptr) as [O|] eqn:HO; [|done]. by destruct (Ho _ _ HO).
Qed.

(** A subgraph of two operations: [1 := op 11 (tensors 21, 22, 22)], and
    [op 12] that takes the result and is dropped from nothing; tensor [25] is
    dead. *)
Definition test_tensor (us : list (LiteRtOp * Z)) (def : LiteRtOp) : LiteRtTensorT :=
  with_uses us (SetDefiningOp def 0 empty_tensor).

Definition test_op (ins outs : list LiteRtTensor) : LiteRtOpT :=
  set_Outputs outs (set_Inputs ins empty_op).

Definition test_graph (inputs : list LiteRtTensor) : LiteRtSubgraphT :=
  {| Tensors := [21; 22; 23; 24; 25]%nat; Ops := [11; 12; 13]%nat; SubgraphInputs := inputs;
     SubgraphOutputs := [24%nat] |}.

Definition test_ir : ir := {|
  tensor_heap := list_to_map
    [(21%nat, test_tensor [(11%nat, 0)] nullptr);
     (22%nat, test_tensor [(11%nat, 1); (11%nat, 2)] nullptr);
     (23%nat, test_tensor [(12%nat, 0)] 11);
     (24%nat, test_tensor [] 12);
     (25%nat, test_tensor [] nullptr)];
  op_heap := list_to_map
    [(11%nat, test_op [21; 22; 22]%nat [23%nat]); (12%nat, test_op [23%nat] [24%nat]);
     (13%nat, test_op [] [])];
  subgraph_heap := {[ 1%nat := test_graph [21; 22]%nat ]};
  model_subgraphs := [1%nat];
  next_address := 26 |}.

Lemma test_ir_checked : ir_checked test_ir.
Proof. apply (bool_decide_unpack _). by vm_compute. Qed.

Lemma test_ir_wf : wf_ir test_ir.
Proof. apply ir_checked_wf, test_ir_checked. Qed.

Lemma test_ir_owned : owned test_ir 1%nat (test_graph [21; 22]%nat).
Proof.
  split; [done|apply (bool_decide_unpack _); by vm_compute..| |].
  - apply Forall_forall. apply (bool_decide_unpack _). by vm_compute.
  - apply Forall_forall. apply (bool_decide_unpack _). by vm_compute.
Qed.

(** An operation with two outputs. *)
Definition two_outputs_ir : ir := {|
  tensor_heap := list_to_map
    [(21%nat, test_tensor [(11%nat, 0)] nullptr); (22%nat, test_tensor [] 11);
     (23%nat, SetDefiningOp 11 1 empty_tensor)];
  op_heap := {[ 11%nat := test_op [21%nat] [22%nat; 23%nat] ]};
  subgraph_heap := ∅; model_subgraphs := []; next_address := 24 |}.

Definition uses_at (h : ir) (t : LiteRtTensor) : list (LiteRtOp * Z) :=
  default [] (uses <$> tensor_heap h !! t).

Definition final {A} (r : outcome ir A) : ir :=
  match r with Done _ h | Error h => h | Undefined => test_ir end.

(** The edges to the right of a removed one are not always renumbered
    correctly: a tensor that occurs twice there slides twice, so that
    [DisconnectInput] of the first of the inputs [(21, 22, 22)] leaves the index
    [0] for both uses, and [DisconnectOutput] does not renumber the later outputs
    at all; the validation of the graph rejects both results. *)
Theorem disconnect_leaves_stale_indices :
  wf_ir test_ir ∧ wf_ir two_outputs_ir ∧
  (let h := final (DisconnectInput 11 0 test_ir) in
   DisconnectInput 11 0 test_ir = Done 21%nat h ∧
   uses_at h 22%nat = [(11%nat, 0); (11%nat, 0)] ∧ ValidateLocalTopology 11 h = Done false h) ∧
  (let h := final (DisconnectOutput 11 0 two_outputs_ir) in
   DisconnectOutput 11 0 two_outputs_ir = Done 22%nat h ∧
   (DefiningOpOutInd <$> tensor_heap h !! 23%nat) = Some 1 ∧
   ValidateLocalTopology 11 h = Done false h).
Proof.
  split; [apply test_ir_wf|]. split; [|by split; vm_compute].
  apply ir_checked_wf, (bool_decide_unpack _). by vm_compute.
Qed.

(** ** Witnesses *)

Lemma DisconnectInput_wf_witness : ∃ h', DisconnectInput 11 1 test_ir = Done 22%nat h' ∧ wf_ir h' ∧
  op_heap h' = <[11%nat := set_Inputs [21%nat; 22%nat] (test_op [21; 22; 22]%nat [23%nat])]> (op_heap test_ir).
Proof.
  exact (DisconnectInput_wf test_ir 11 (test_op [21; 22; 22]%nat [23%nat]) 1 22 test_ir_wf eq_refl eq_refl
    (NoDup_singleton _)).
Defined.

Lemma Drop_detaches_witness :
  Drop 11 test_ir = Done tt (without_op 11 (test_op [21; 22; 22]%nat [23%nat]) test_ir) ∧
  wf_ir (without_op 11 (test_op [21; 22; 22]%nat [23%nat]) test_ir).
Proof. exact (Drop_detaches test_ir 11 _ test_ir_wf eq_refl). Defined.

Lemma DCE_sweeps_witness :
  DCE 1 test_ir = Done true (after_DCE test_ir 1 (test_graph [21; 22]%nat)) ∧
  wf_ir (after_DCE test_ir 1 (test_graph [21; 22]%nat)) ∧
  DCE 1 (after_DCE test_ir 1 (test_graph [21; 22]%nat)) =
    Done false (after_DCE test_ir 1 (test_graph [21; 22]%nat)).
Proof. exact (DCE_sweeps test_ir 1 _ test_ir_wf test_ir_owned). Defined.

Lemma Attach_wf_witness :
  AttachInput 25 12 test_ir =
    Done tt (attached_input 12 (test_op [23%nat] [24%nat]) 25 (test_tensor [] nullptr) test_ir) ∧
  wf_ir (attached_input 12 (test_op [23%nat] [24%nat]) 25 (test_tensor [] nullptr) test_ir) ∧
  AttachOutput 25 12 test_ir =
    Done tt (attached_output 12 (test_op [23%nat] [24%nat]) 25 (test_tensor [] nullptr) test_ir) ∧
  (nullptr = nullptr →
   wf_ir (attached_output 12 (test_op [23%nat] [24%nat]) 25 (test_tensor [] nullptr) test_ir)).
Proof. exact (Attach_wf test_ir 12 _ 25 _ test_ir_wf eq_refl eq_refl). Defined.

Lemma test_op_edges t :
  t ∈ Inputs (test_op [21; 22; 22]%nat [23%nat]) ∨ t ∈ Outputs (test_op [21; 22; 22]%nat [23%nat]) →
  is_Some (tensor_heap test_ir !! t).
Proof. by apply (wf_edges _ test_ir_wf 11%nat). Qed.

Lemma ValidateLocalTopology_correct_witness : ∃ b, ValidateLocalTopology 11 test_ir = Done b test_ir ∧
  (b = true ↔ (∀ i, input_linked test_ir 11 (test_op [21; 22; 22]%nat [23%nat]) i) ∧
              (∀ i, output_linked test_ir 11 (test_op [21; 22; 22]%nat [23%nat]) i)).
Proof.
  exact (ValidateLocalTopology_correct test_ir 11 _ eq_refl test_op_edges
    (λ t T HT, linked_balanced _ _ _ (wf_linked _ test_ir_wf t T HT))).
Defined.
