(* ===== verification/OpShapes.v ===== *)
(** * Shape inference of the operations

    The functions [Infer*] of [litert/core/model/ops/*.h]. Each gets the
    operation and the shapes of its inputs and fills in the shapes of the
    outputs, or returns an error status. Arithmetic is that of [int32_t] and
    [int64_t]: a result out of range, like a division by zero and an index out
    of range, is undefined behaviour. A rank is at most 127 (7 bits of
    [LiteRtLayout]), so that the [int] indices of the loops do not overflow. *)

From S2P Require Import Prelude OpCodes LiteRtIr.

(** ** State and results *)

Record infer_state := { output_shapes : list Dims; status : LiteRtStatus }.

Definition set_output_shapes (l : list Dims) (s : infer_state) : infer_state :=
  {| output_shapes := l; status := status s |}.

Abbreviation Infer := (M infer_state).

(** [return kLiteRtStatusError...]. *)
Definition return_status {A} (st : LiteRtStatus) : Infer A :=
  modify (λ s, {| output_shapes := output_shapes s; status := st |});; fail.

Definition require (b : bool) (st : LiteRtStatus) : Infer unit :=
  if b then mret () else return_status st.

Abbreviation InvalidArgument := kLiteRtStatusErrorInvalidArgument.
Abbreviation Unsupported := kLiteRtStatusErrorUnsupported.
Abbreviation Failed := kLiteRtStatusErrorShapeInferenceFailed.

(** [output_shapes[i] = dims]. *)
Definition set_output (i : Z) (dims : Dims) : Infer unit :=
  vset output_shapes set_output_shapes i dims.

(** ** Constant tensors

    Little-endian integers in the bytes of a buffer. *)

Fixpoint le_bytes (l : list Z) : Z :=
  match l with [] => 0 | b :: l' => b + 256 * le_bytes l' end.

Definition i64 (z : Z) : Z := (z + 2 ^ 63) mod 2 ^ 64 - 2 ^ 63.

Definition int32_at {S} (buf : list Z) (i : Z) : M S Z :=
  if decide (0 ≤ i ∧ 4 * i + 4 ≤ zlen buf)
  then mret (i32 (le_bytes (take 4 (drop (Z.to_nat (4 * i)) buf)))) else undefined.
Definition int64_at {S} (buf : list Z) (i : Z) : M S Z :=
  if decide (0 ≤ i ∧ 8 * i + 8 ≤ zlen buf)
  then mret (i64 (le_bytes (take 8 (drop (Z.to_nat (8 * i)) buf)))) else undefined.

(** The first [n] elements. *)
Definition int32s {S} (buf : list Z) (n : Z) : M S (list Z) := map_m (int32_at buf) (range 0 n).
Definition int64s {S} (buf : list Z) (n : Z) : M S (list Z) := map_m (int64_at buf) (range 0 n).

(** ** [op_shape_inference_utils.h] *)

Definition ComputeOutputSize {S} (padding : Padding)
    (image_size filter_size stride dilation_rate : Z) : M S Z :=
  if image_size =? -1 then mret (-1) else
  f ← int32 (filter_size - 1);
  f ← int32 (f * dilation_rate);
  effective_filter_size ← int32 (f + 1);
  match padding with
  | Padding_SAME =>
      n ← int32 (image_size + stride); n ← int32 (n - 1); div32 n stride
  | Padding_VALID =>
      n ← int32 (image_size - effective_filter_size); n ← int32 (n + stride); div32 n stride
  end.

(** ** Elementwise operations ([simple_unary.h], [simple_binary.h], [select.h]) *)

Definition InferIdentity (input_shapes : list Dims) : Infer unit :=
  n ← gets (λ s, zlen (output_shapes s));
  require (n =? 1) Failed;;
  s ← at_ input_shapes 0;
  set_output 0 s.

(** The dimension at distance [i] from the right end, [1] beyond the left end. *)
Definition dim_from_right {S} (s : Dims) (i : Z) : M S Z :=
  let idx := zlen s - 1 - i in
  if 0 <=? idx then at_ s idx else mret 1.

(** One dimension of a broadcast. *)
Definition broadcast_dim (d1 d2 : Z) : option Z :=
  if (d1 =? -1) || (d2 =? -1) then Some (-1)
  else if d1 =? d2 then Some d1
  else if d1 =? 1 then Some d2
  else if d2 =? 1 then Some d1
  else None.

Definition InferElementwiseBinary (input_shapes : list Dims) : Infer unit :=
  require (zlen input_shapes =? 2) Failed;;
  s1 ← at_ input_shapes 0;
  s2 ← at_ input_shapes 1;
  let max_rank := Z.max (zlen s1) (zlen s2) in
  out_shape ← fold_m (range 0 max_rank) (replicate (Z.to_nat max_rank) 0) (λ out_shape i,
    d1 ← dim_from_right s1 i;
    d2 ← dim_from_right s2 i;
    match broadcast_dim d1 d2 with
    | Some d => upd out_shape (max_rank - 1 - i) d
    | None => return_status Failed
    end);
  set_output 0 out_shape.

(** The inner loop of [InferSelect] over the three dimensions. *)
Definition select_dim (d1 d2 d3 : Z) : option Z :=
  foldl (λ out_dim dim,
    match out_dim with
    | None => None
    | Some out_dim =>
        if negb (dim =? 1) && negb (out_dim =? 1) && negb (dim =? out_dim) then None
        else Some (if out_dim <? dim then dim else out_dim)
    end) (Some 1) [d1; d2; d3].

Definition InferSelect (input_shapes : list Dims) : Infer unit :=
  require (zlen input_shapes =? 3) InvalidArgument;;
  s1 ← at_ input_shapes 0;
  s2 ← at_ input_shapes 1;
  s3 ← at_ input_shapes 2;
  let rank := Z.max (Z.max (zlen s1) (zlen s2)) (zlen s3) in
  out_shape ← fold_m (range 0 rank) (replicate (Z.to_nat rank) 0) (λ out_shape i,
    d1 ← dim_from_right s1 i;
    d2 ← dim_from_right s2 i;
    d3 ← dim_from_right s3 i;
    if (d1 =? -1) || (d2 =? -1) || (d3 =? -1) then upd out_shape (rank - 1 - i) (-1)
    else match select_dim d1 d2 d3 with
         | Some out_dim => upd out_shape (rank - 1 - i) out_dim
         | None => return_status InvalidArgument
         end);
  set_output 0 out_shape.

(** ** Pooling ([pooling.h]) *)

Definition InferPool2D (op : LiteRtOpT) (input_shapes : list Dims) : Infer unit :=
  require (1 <=? zlen input_shapes) InvalidArgument;;
  input_shape ← at_ input_shapes 0;
  require (zlen input_shape =? 4) InvalidArgument;;
  match GetTflOptions op with
  | Pool2DOptions o =>
      h ← at_ input_shape 1;
      out_h ← ComputeOutputSize (pool_padding o) h (pool_filter_height o) (pool_stride_h o) 1;
      w ← at_ input_shape 2;
      out_w ← ComputeOutputSize (pool_padding o) w (pool_filter_width o) (pool_stride_w o) 1;
      b ← at_ input_shape 0;
      c ← at_ input_shape 3;
      set_output 0 [b; out_h; out_w; c]
  | _ => return_status InvalidArgument
  end.

(** ** Concatenation, packing and unpacking
    ([concatenation.h], [pack.h], [unpack.h], [split.h]) *)

Definition concat_dim (axis : Z) (shape out_shape : Dims) (i : Z) : Infer Dims :=
  s ← at_ shape i;
  if negb (i =? axis) then
    o ← at_ out_shape i;
    if negb (o =? -1) && negb (s =? -1) && negb (o =? s) then return_status Failed
    else if (o =? -1) && negb (s =? -1) then upd out_shape i s
    else mret out_shape
  else if s =? -1 then upd out_shape axis (-1)
  else
    o ← at_ out_shape axis;
    if negb (o =? -1) then sum ← int32 (o + s); upd out_shape axis sum
    else mret out_shape.

Definition InferConcatenation (op : LiteRtOpT) (input_shapes : list Dims) : Infer unit :=
  require (negb (bool_decide (input_shapes = []))) Failed;;
  n ← gets (λ s, zlen (output_shapes s));
  require (n =? 1) Failed;;
  match GetTflOptions op with
  | ConcatenationOptions axis =>
      first_shape ← at_ input_shapes 0;
      let rank := zlen first_shape in
      let axis := if axis <? 0 then axis + rank else axis in
      require (negb ((axis <? 0) || (rank <=? axis))) Failed;;
      out_shape ← upd first_shape axis 0;
      out_shape ← fold_m input_shapes out_shape (λ out_shape shape,
        require (zlen shape =? rank) Failed;;
        fold_m (range 0 rank) out_shape (concat_dim axis shape));
      set_output 0 out_shape
  | _ => return_status Failed
  end.

Definition InferPack (op : LiteRtOpT) (input_shapes : list Dims) : Infer unit :=
  require (negb (bool_decide (input_shapes = []))) InvalidArgument;;
  let axis := match GetTflOptions op with PackOptions axis => axis | _ => 0 end in
  s0 ← at_ input_shapes 0;
  let rank := zlen s0 in
  let axis := if axis <? 0 then axis + (rank + 1) else axis in
  if decide (0 ≤ axis ≤ rank) then
    let out_shape := take (Z.to_nat axis) s0 ++ i32 (zlen input_shapes) :: drop (Z.to_nat axis) s0 in
    for_each (drop 1 input_shapes) (λ s, require (zlen s =? rank) InvalidArgument);;
    set_output 0 out_shape
  else undefined.

Definition InferUnpack (op : LiteRtOpT) (input_shapes : list Dims) : Infer unit :=
  require (negb (bool_decide (input_shapes = []))) Failed;;
  s0 ← at_ input_shapes 0;
  let '(axis, num) := match GetTflOptions op with
                      | UnpackOptions num axis => (axis, num)
                      | _ => (0, i32 (zlen (Outputs op)))
                      end in
  let axis := if axis <? 0 then axis + zlen s0 else axis in
  require (negb ((axis <? 0) || (zlen s0 <=? axis))) Failed;;
  let out_shape := delete (Z.to_nat axis) s0 in
  n ← gets (λ s, zlen (output_shapes s));
  require (n =? num) Failed;;
  modify (λ s, set_output_shapes (replicate (length (output_shapes s)) out_shape) s).

Section constants.
(** The heap in which the constant inputs of an operation are read. *)
Context (h : ir).

(** [op.Input(i).Weights().Buffer()]. *)
Definition op_input (op : LiteRtOpT) (i : Z) : Infer LiteRtTensorT :=
  t ← at_ (Inputs op) i; deref (tensor_heap h !! t).

Definition input_buffer (op : LiteRtOpT) (i : Z) : Infer (list Z) :=
  T ← op_input op i; mret (Weights T).

(** [Dims(rank, -1)]. *)
Definition dynamic_dims (shape : Dims) : Dims := replicate (length shape) (-1).

Definition InferSplit (op : LiteRtOpT) (input_shapes : list Dims) : Infer unit :=
  require (2 <=? zlen input_shapes) InvalidArgument;;
  buf ← input_buffer op 0;
  input_shape ← at_ input_shapes 1;
  let num_splits := match GetTflOptions op with
                    | SplitOptions n => n | _ => i32 (zlen (Outputs op)) end in
  if 4 <=? zlen buf then
    axis ← int32_at buf 0;
    let axis := if axis <? 0 then i32 (axis + zlen input_shape) else axis in
    d ← at_ input_shape axis;
    out_shape ← (if negb (d =? -1) then q ← div32 d num_splits; upd input_shape axis q
                 else mret input_shape);
    if 0 <=? num_splits
    then modify (set_output_shapes (replicate (Z.to_nat num_splits) out_shape))
    else undefined
  else set_output 0 (dynamic_dims input_shape).

(** ** Reductions ([reductions.h]) *)

Definition norm_axis (rank axis : Z) : Z := if axis <? 0 then i32 (axis + rank) else axis.

Definition InferGenericReduction (op : LiteRtOpT) (input_shapes : list Dims) (keep_dims : bool) :
    Infer unit :=
  require (2 <=? zlen input_shapes) InvalidArgument;;
  input_shape ← at_ input_shapes 0;
  buf ← input_buffer op 1;
  require (4 <=? zlen buf) Unsupported;;
  axes ← (if zlen buf mod 4 =? 0 then
            l ← int32s buf (zlen buf / 4); mret (norm_axis (zlen input_shape) <$> l)
          else if zlen buf mod 8 =? 0 then
            l ← int64s buf (zlen buf / 8); mret ((λ a, norm_axis (zlen input_shape) (i32 a)) <$> l)
          else return_status InvalidArgument);
  out ← fold_m (range 0 (zlen input_shape)) [] (λ out i,
    if decide (i ∈ axes) then mret (if keep_dims : bool then out ++ [1] else out)
    else d ← at_ input_shape i; mret (out ++ [d]));
  set_output 0 out.

Definition InferReduce (op : LiteRtOpT) (input_shapes : list Dims) : Infer unit :=
  let keep_dims := match GetTflOptions op with ReducerOptions k => k | _ => false end in
  InferGenericReduction op input_shapes keep_dims.

Definition InferArgMinMax (op : LiteRtOpT) (input_shapes : list Dims) : Infer unit :=
  InferGenericReduction op input_shapes false.

(** ** Reshape ([reshape.h]) *)

(** The product of the dimensions, [None] at the first dynamic one. *)
Fixpoint static_product (l : Dims) (product : Z) : Infer (option Z) :=
  match l with
  | [] => mret (Some product)
  | d :: l' => if d =? -1 then mret None else p ← int64 (product * d); static_product l' p
  end.

Definition scan_new_shape (new_shape : Dims) (acc : Z * Z) (i : Z) : Infer (Z * Z) :=
  let '(minus_one_idx, new_product) := acc in
  d ← at_ new_shape i;
  if d =? -1 then
    require (minus_one_idx =? -1) Failed;; mret (i, new_product)
  else p ← int64 (new_product * d); mret (minus_one_idx, p).

Definition reshape_target (op : LiteRtOpT) : Infer Dims :=
  if 2 <=? zlen (Inputs op) then
    buf ← input_buffer op 1;
    if 4 <=? zlen buf then
      require (zlen buf mod 4 =? 0) InvalidArgument;;
      int32s buf (zlen buf / 4)
    else return_status Failed
  else match GetTflOptions op with
       | ReshapeOptions new_shape =>
           if negb (bool_decide (new_shape = [])) then mret new_shape else return_status Failed
       | _ => return_status Failed
       end.

Definition InferReshape (op : LiteRtOpT) (input_shapes : list Dims) : Infer unit :=
  require (negb (bool_decide (input_shapes = []))) InvalidArgument;;
  new_shape ← reshape_target op;
  scan ← fold_m (range 0 (zlen new_shape)) (-1, 1) (scan_new_shape new_shape);
  let '(minus_one_idx, new_product) := (scan : Z * Z) in
  new_shape ←
    (if negb (minus_one_idx =? -1) then
       input_shape ← at_ input_shapes 0;
       p ← static_product input_shape 1;
       match p with
       | None => upd new_shape minus_one_idx (-1)
       | Some input_product =>
           r ← rem64 input_product new_product;
           require (r =? 0) Failed;;
           q ← div64 input_product new_product;
           upd new_shape minus_one_idx (i32 q)
       end
     else mret new_shape);
  set_output 0 new_shape.

(** ** Broadcast to a shape ([broadcast_to.h]) *)

Definition InferBroadcastTo (op : LiteRtOpT) (input_shapes : list Dims) : Infer unit :=
  require (2 <=? zlen input_shapes) Failed;;
  n ← gets (λ s, zlen (output_shapes s));
  require (n =? 1) Failed;;
  shape_tensor ← op_input op 1;
  let buf := Weights shape_tensor in
  if 4 <=? zlen buf then
    match Type_ shape_tensor with
    | kLiteRtRankedTensorType element_type _ =>
        out_shape ←
          (if bool_decide (element_type = kLiteRtElementTypeInt64) && (zlen buf mod 8 =? 0) then
             l ← int64s buf (zlen buf / 8); mret (i32 <$> l)
           else if bool_decide (element_type = kLiteRtElementTypeInt32) && (zlen buf mod 4 =? 0) then
             int32s buf (zlen buf / 4)
           else return_status Failed);
        input_shape ← at_ input_shapes 0;
        require (zlen input_shape <=? zlen out_shape) Failed;;
        for_each (range 0 (zlen input_shape)) (λ i,
          in_dim ← at_ input_shape (zlen input_shape - 1 - i);
          out_dim ← at_ out_shape (zlen out_shape - 1 - i);
          require ((in_dim =? 1) || (in_dim =? out_dim)) Failed);;
        set_output 0 out_shape
    | kLiteRtUnrankedTensorType _ => return_status Failed
    end
  else return_status Failed.

(** ** Padding and tiling ([pad.h], [tile.h]) *)

Definition InferPad (op : LiteRtOpT) (input_shapes : list Dims) : Infer unit :=
  require (2 <=? zlen input_shapes) InvalidArgument;;
  input_shape ← at_ input_shapes 0;
  buf ← input_buffer op 1;
  if zlen buf <? 4 then
    set_output 0 (dynamic_dims input_shape);;
    return_status Unsupported
  else
    let num_elements := zlen input_shape * 2 in
    paddings ← (if zlen buf =? num_elements * 4 then int32s buf num_elements
                else if zlen buf =? num_elements * 8 then int64s buf num_elements
                else return_status InvalidArgument);
    out_shape ← fold_m (range 0 (zlen input_shape)) input_shape (λ out_shape i,
      before ← at_ paddings (i * 2);
      after ← at_ paddings (i * 2 + 1);
      d ← at_ out_shape i;
      if negb (d =? -1) then
        pad ← int64 (before + after); sum ← int64 (d + pad); upd out_shape i (i32 sum)
      else mret out_shape);
    set_output 0 out_shape.

Definition InferTile (op : LiteRtOpT) (input_shapes : list Dims) : Infer unit :=
  require (2 <=? zlen input_shapes) InvalidArgument;;
  input_shape ← at_ input_shapes 0;
  buf ← input_buffer op 1;
  if 0 <? zlen buf then
    let mult_rank := zlen buf / 4 in
    require (mult_rank =? zlen input_shape) InvalidArgument;;
    out_shape ← fold_m (range 0 mult_rank) input_shape (λ out_shape i,
      d ← at_ out_shape i;
      if negb (d =? -1) then
        m ← int32_at buf i; p ← int32 (d * m); upd out_shape i p
      else mret out_shape);
    set_output 0 out_shape
  else set_output 0 (dynamic_dims input_shape).

(** ** Gathering ([gather.h]) *)

Definition InferGather (op : LiteRtOpT) (input_shapes : list Dims) : Infer unit :=
  require (2 <=? zlen input_shapes) InvalidArgument;;
  input_shape ← at_ input_shapes 0;
  indices_shape ← at_ input_shapes 1;
  let axis := match GetTflOptions op with GatherOptions axis => axis | _ => 0 end in
  let axis := norm_axis (zlen input_shape) axis in
  require (negb ((axis <? 0) || (zlen input_shape <=? axis))) InvalidArgument;;
  set_output 0 (take (Z.to_nat axis) input_shape ++ indices_shape ++
                drop (Z.to_nat (axis + 1)) input_shape).

Definition InferGatherNd (input_shapes : list Dims) : Infer unit :=
  require (2 <=? zlen input_shapes) InvalidArgument;;
  input_shape ← at_ input_shapes 0;
  indices_shape ← at_ input_shapes 1;
  require (negb (bool_decide (indices_shape = []))) InvalidArgument;;
  index_rank ← at_ indices_shape (zlen indices_shape - 1);
  let out_shape := take (length indices_shape - 1) indices_shape in
  require (negb (index_rank <? 0)) Unsupported;;
  set_output 0 (out_shape ++ drop (Z.to_nat index_rank) input_shape).

Definition InferEmbeddingLookup (input_shapes : list Dims) : Infer unit :=
  require (2 <=? zlen input_shapes) InvalidArgument;;
  ids_shape ← at_ input_shapes 0;
  params_shape ← at_ input_shapes 1;
  set_output 0 (ids_shape ++ drop 1 params_shape).

(** ** Matrix products ([matmul.h]) *)

Definition InferBatchMatmul (op : LiteRtOpT) (input_shapes : list Dims) : Infer unit :=
  require (zlen input_shapes =? 2) InvalidArgument;;
  lhs ← at_ input_shapes 0;
  rhs ← at_ input_shapes 1;
  require (negb ((zlen lhs <? 2) || (zlen rhs <? 2))) InvalidArgument;;
  let '(adj_x, adj_y) := match GetTflOptions op with
                         | BatchMatMulOptions x y => (x, y) | _ => (false, false) end in
  m ← at_ lhs (if adj_x : bool then zlen lhs - 1 else zlen lhs - 2);
  k_lhs ← at_ lhs (if adj_x then zlen lhs - 2 else zlen lhs - 1);
  k_rhs ← at_ rhs (if adj_y : bool then zlen rhs - 1 else zlen rhs - 2);
  n ← at_ rhs (if adj_y then zlen rhs - 2 else zlen rhs - 1);
  require (negb (negb (k_lhs =? -1) && negb (k_rhs =? -1) && negb (k_lhs =? k_rhs))) InvalidArgument;;
  let rank := Z.max (zlen lhs) (zlen rhs) in
  out_shape ← upd (replicate (Z.to_nat rank) 0) (rank - 2) m;
  out_shape ← upd out_shape (rank - 1) n;
  out_shape ← fold_m (range 2 rank) out_shape (λ out_shape i,
    d1 ← dim_from_right lhs i;
    d2 ← dim_from_right rhs i;
    match broadcast_dim d1 d2 with
    | Some d => upd out_shape (rank - 1 - i) d
    | None => return_status InvalidArgument
    end);
  set_output 0 out_shape.

(** With an empty input shape [input.size() - 1] wraps around and the loop
    starts by reading [input[0]]. *)
Definition InferFullyConnected (op : LiteRtOpT) (input_shapes : list Dims) : Infer unit :=
  require (2 <=? zlen input_shapes) InvalidArgument;;
  input ← at_ input_shapes 0;
  weights ← at_ input_shapes 1;
  let keep_num_dims := match GetTflOptions op with FullyConnectedOptions k => k | _ => false end in
  require (zlen weights =? 2) InvalidArgument;;
  output_dim ← at_ weights 0;
  out_shape ←
    (if keep_num_dims : bool then upd input (zlen input - 1) output_dim
     else if decide (input = []) then undefined
     else
       acc ← fold_m (range 0 (zlen input - 1)) (1, false) (λ '(batch, dynamic_batch) i,
         d ← at_ input i;
         if d =? -1 then mret (batch, true) else b ← int64 (batch * d); mret (b, dynamic_batch));
       mret [if (acc.2 : bool) then -1 else i32 acc.1; output_dim]);
  set_output 0 out_shape.

(** ** Slices ([slice.h]) *)

Definition InferSlice (op : LiteRtOpT) (input_shapes : list Dims) : Infer unit :=
  require (3 <=? zlen input_shapes) Failed;;
  input_shape ← at_ input_shapes 0;
  buf ← input_buffer op 2;
  if 4 <=? zlen buf then
    out_shape ← (if zlen buf mod 4 =? 0 then int32s buf (zlen buf / 4) else return_status Failed);
    set_output 0 out_shape
  else set_output 0 (dynamic_dims input_shape).

(** [mask & (1 << i)]: the shift has no meaning from [32] on. *)
Definition mask_bit {S} (mask i : Z) : M S bool :=
  if decide (0 ≤ i < 32) then mret (Z.testbit mask i) else undefined.

Definition InferStridedSlice (op : LiteRtOpT) (input_shapes : list Dims) : Infer unit :=
  require (negb (bool_decide (input_shapes = []))) Failed;;
  match GetTflOptions op with
  | StridedSliceOptions new_axis_mask shrink_axis_mask =>
      input_shape ← at_ input_shapes 0;
      require (negb (zlen input_shapes <? 4)) Failed;;
      begin_shape ← at_ input_shapes 1;
      processing_dims ← at_ begin_shape 0;
      acc ← fold_m (range 0 processing_dims) ([], 0) (λ '(out_shape, i_in) i,
        new_axis ← mask_bit new_axis_mask i;
        if (new_axis : bool) then mret (out_shape ++ [1], i_in)
        else
          shrink ← mask_bit shrink_axis_mask i;
          if (shrink : bool) then mret (out_shape, i_in + 1)
          else mret (out_shape ++ [-1], i_in + 1));
      set_output 0 (acc.1 ++ drop (Z.to_nat acc.2) input_shape)
  | _ => return_status Failed
  end.

Definition InferDynamicUpdateSlice (input_shapes : list Dims) : Infer unit :=
  require (zlen input_shapes =? 3) Failed;;
  operand_shape ← at_ input_shapes 0;
  update_shape ← at_ input_shapes 1;
  start_indices_shape ← at_ input_shapes 2;
  require (zlen start_indices_shape =? 1) Failed;;
  start ← at_ start_indices_shape 0;
  require (start =? zlen operand_shape) Failed;;
  require (zlen update_shape =? zlen operand_shape) Failed;;
  for_each (range 0 (zlen operand_shape)) (λ i,
    u ← at_ update_shape i;
    d ← at_ operand_shape i;
    require (negb (d <? u)) Failed);;
  set_output 0 operand_shape.

(** ** Spatial operations ([spatial.h]) *)

Definition InferDepthToSpace (op : LiteRtOpT) (input_shapes : list Dims) : Infer unit :=
  require (negb (bool_decide (input_shapes = []))) Failed;;
  input_shape ← at_ input_shapes 0;
  require (zlen input_shape =? 4) Failed;;
  let block_size := match GetTflOptions op with DepthToSpaceOptions b => b | _ => 0 end in
  require (negb (block_size <=? 0)) Failed;;
  height ← at_ input_shape 1;
  width ← at_ input_shape 2;
  depth ← at_ input_shape 3;
  out_shape ←
    (if negb (depth =? -1) then
       bb ← int32 (block_size * block_size);
       r ← rem32 depth bb;
       require (r =? 0) Failed;;
       q ← div32 depth bb;
       upd input_shape 3 q
     else mret input_shape);
  out_shape ← (if negb (height =? -1) then x ← int32 (height * block_size); upd out_shape 1 x
               else mret out_shape);
  out_shape ← (if negb (width =? -1) then x ← int32 (width * block_size); upd out_shape 2 x
               else mret out_shape);
  set_output 0 out_shape.

Definition InferSpaceToDepth (op : LiteRtOpT) (input_shapes : list Dims) : Infer unit :=
  require (negb (bool_decide (input_shapes = []))) Failed;;
  input_shape ← at_ input_shapes 0;
  require (zlen input_shape =? 4) Failed;;
  let block_size := match GetTflOptions op with SpaceToDepthOptions b => b | _ => 0 end in
  require (negb (block_size <=? 0)) Failed;;
  height ← at_ input_shape 1;
  width ← at_ input_shape 2;
  depth ← at_ input_shape 3;
  out_shape ←
    (if negb (depth =? -1) then
       x ← int32 (depth * block_size); x ← int32 (x * block_size); upd input_shape 3 x
     else mret input_shape);
  out_shape ←
    (if negb (height =? -1) then
       r ← rem32 height block_size;
       require (r =? 0) Failed;;
       q ← div32 height block_size;
       upd out_shape 1 q
     else mret out_shape);
  out_shape ←
    (if negb (width =? -1) then
       r ← rem32 width block_size;
       require (r =? 0) Failed;;
       q ← div32 width block_size;
       upd out_shape 2 q
     else mret out_shape);
  set_output 0 out_shape.

Definition InferResizeOp (op : LiteRtOpT) (input_shapes : list Dims) : Infer unit :=
  require (2 <=? zlen input_shapes) Failed;;
  input_shape ← at_ input_shapes 0;
  buf ← input_buffer op 1;
  require (zlen input_shape =? 4) Failed;;
  out_shape ←
    (if zlen buf =? 8 then
       height ← int32_at buf 0;
       width ← int32_at buf 1;
       out_shape ← upd input_shape 1 height;
       upd out_shape 2 width
     else out_shape ← upd input_shape 1 (-1); upd out_shape 2 (-1));
  set_output 0 out_shape.

(** ** The greatest [k] entries, and transposition ([topk.h], [transpose.h]) *)

Definition InferTopKV2 (op : LiteRtOpT) (input_shapes : list Dims) : Infer unit :=
  require (2 <=? zlen input_shapes) Failed;;
  input_shape ← at_ input_shapes 0;
  buf ← input_buffer op 1;
  require (negb (bool_decide (input_shape = []))) Failed;;
  back ← at_ input_shape (zlen input_shape - 1);
  k ← (if 0 <? zlen buf then
         k ← int32_at buf 0;
         require (negb (negb (back =? -1) && (back <? k))) Failed;;
         mret k
       else mret (-1));
  out_shape ← upd input_shape (zlen input_shape - 1) k;
  n ← gets (λ s, zlen (output_shapes s));
  (if 0 <? n then set_output 0 out_shape else mret ());;
  (if 1 <? n then set_output 1 out_shape else mret ()).

Definition InferTranspose (op : LiteRtOpT) (input_shapes : list Dims) : Infer unit :=
  require (2 <=? zlen input_shapes) Failed;;
  input_shape ← at_ input_shapes 0;
  buf ← input_buffer op 1;
  modify (λ s, if decide (output_shapes s = []) then set_output_shapes [[]] s else s);;
  if 0 <? zlen buf then
    let rank := zlen buf / 4 in
    require (rank =? zlen input_shape) Failed;;
    out_shape ← fold_m (range 0 rank) (replicate (Z.to_nat rank) 0) (λ out_shape i,
      p ← int32_at buf i;
      require (negb ((p <? 0) || (rank <=? p))) Failed;;
      d ← at_ input_shape p;
      upd out_shape i d);
    set_output 0 out_shape
  else set_output 0 (dynamic_dims input_shape).
End constants.
