(* ===== verification/ConvShapes.v ===== *)
(** * Shape inference of the convolutions

    [litert/core/model/ops/convolution.h]. *)

From S2P Require Import Prelude OpCodes LiteRtIr OpShapes.

(** The optional bias, the third input. *)
Definition check_bias (input_shapes : list Dims) (out_channels : Z) : Infer unit :=
  if 3 <=? zlen input_shapes then
    bias_shape ← at_ input_shapes 2;
    require (zlen bias_shape =? 1) Failed;;
    b ← at_ bias_shape 0;
    require (b =? out_channels) Failed
  else mret ().

(** [(filter - 1) * dilation + 1]. *)
Definition effective_filter (filter dilation : Z) : Infer Z :=
  f ← int32 (filter - 1); f ← int32 (f * dilation); int32 (f + 1).

Definition InferConv2D (op : LiteRtOpT) (input_shapes : list Dims) : Infer unit :=
  require (2 <=? zlen input_shapes) InvalidArgument;;
  input_shape ← at_ input_shapes 0;
  filter_shape ← at_ input_shapes 1;
  require (negb (negb (zlen input_shape =? 4) || negb (zlen filter_shape =? 4))) InvalidArgument;;
  match GetTflOptions op with
  | Conv2DOptions o =>
      let stride_h := conv2d_stride_h o in
      let stride_w := conv2d_stride_w o in
      let dilation_h := conv2d_dilation_h_factor o in
      let dilation_w := conv2d_dilation_w_factor o in
      let padding := conv2d_padding o in
      filter_h ← at_ filter_shape 1;
      filter_w ← at_ filter_shape 2;
      in_channels ← at_ input_shape 3;
      filter_channels ← at_ filter_shape 3;
      r ← rem32 in_channels filter_channels;
      require (r =? 0) Failed;;
      require (negb ((stride_h <=? 0) || (stride_w <=? 0))) Failed;;
      in_h ← at_ input_shape 1;
      in_w ← at_ input_shape 2;
      require (negb ((in_h <? stride_h) || (in_w <? stride_w))) Failed;;
      require (negb ((dilation_h <=? 0) || (dilation_w <=? 0))) Failed;;
      out_channels ← at_ filter_shape 0;
      check_bias input_shapes out_channels;;
      effective_filter_h ← effective_filter filter_h dilation_h;
      effective_filter_w ← effective_filter filter_w dilation_w;
      out_h ← ComputeOutputSize padding in_h filter_h stride_h dilation_h;
      out_w ← ComputeOutputSize padding in_w filter_w stride_w dilation_w;
      (match padding with
       | Padding_VALID =>
           require (negb ((in_h <? effective_filter_h) || (in_w <? effective_filter_w))) Failed
       | Padding_SAME => mret ()
       end);;
      require (negb ((out_h <=? 0) || (out_w <=? 0))) Failed;;
      batch ← at_ input_shape 0;
      set_output 0 [batch; out_h; out_w; out_channels]
  | _ => return_status InvalidArgument
  end.

Definition InferDepthwiseConv2D (op : LiteRtOpT) (input_shapes : list Dims) : Infer unit :=
  require (2 <=? zlen input_shapes) InvalidArgument;;
  input_shape ← at_ input_shapes 0;
  filter_shape ← at_ input_shapes 1;
  require (negb (negb (zlen input_shape =? 4) || negb (zlen filter_shape =? 4))) InvalidArgument;;
  match GetTflOptions op with
  | DepthwiseConv2DOptions o =>
      let stride_h := dw_stride_h o in
      let stride_w := dw_stride_w o in
      let dilation_h := dw_dilation_h_factor o in
      let dilation_w := dw_dilation_w_factor o in
      let padding := dw_padding o in
      filter_h ← at_ filter_shape 1;
      filter_w ← at_ filter_shape 2;
      filter_0 ← at_ filter_shape 0;
      require (filter_0 =? 1) Failed;;
      out_channels ← at_ filter_shape 3;
      in_channels ← at_ input_shape 3;
      product ← int32 (in_channels * dw_depth_multiplier o);
      require (out_channels =? product) Failed;;
      require (negb ((stride_h <=? 0) || (stride_w <=? 0))) Failed;;
      in_h ← at_ input_shape 1;
      in_w ← at_ input_shape 2;
      require (negb ((in_h <? stride_h) || (in_w <? stride_w))) Failed;;
      require (negb ((dilation_h <=? 0) || (dilation_w <=? 0))) Failed;;
      check_bias input_shapes out_channels;;
      effective_filter_h ← effective_filter filter_h dilation_h;
      effective_filter_w ← effective_filter filter_w dilation_w;
      out_h ← ComputeOutputSize padding in_h filter_h stride_h dilation_h;
      out_w ← ComputeOutputSize padding in_w filter_w stride_w dilation_w;
      (match padding with
       | Padding_VALID =>
           require (negb ((in_h <? effective_filter_h) || (in_w <? effective_filter_w))) Failed
       | Padding_SAME => mret ()
       end);;
      require (negb ((out_h <=? 0) || (out_w <=? 0))) Failed;;
      batch ← at_ input_shape 0;
      set_output 0 [batch; out_h; out_w; out_channels]
  | _ => return_status InvalidArgument
  end.

Definition InferConv3D (op : LiteRtOpT) (input_shapes : list Dims) : Infer unit :=
  require (2 <=? zlen input_shapes) InvalidArgument;;
  input_shape ← at_ input_shapes 0;
  filter_shape ← at_ input_shapes 1;
  require (negb (negb (zlen input_shape =? 5) || negb (zlen filter_shape =? 5))) InvalidArgument;;
  match GetTflOptions op with
  | Conv3DOptions o =>
      let stride_d := conv3d_stride_d o in
      let stride_h := conv3d_stride_h o in
      let stride_w := conv3d_stride_w o in
      let dilation_d := conv3d_dilation_d_factor o in
      let dilation_h := conv3d_dilation_h_factor o in
      let dilation_w := conv3d_dilation_w_factor o in
      let padding := conv3d_padding o in
      filter_d ← at_ filter_shape 0;
      filter_h ← at_ filter_shape 1;
      filter_w ← at_ filter_shape 2;
      in_channels ← at_ input_shape 4;
      filter_channels ← at_ filter_shape 3;
      require (in_channels =? filter_channels) Failed;;
      require (negb ((stride_d <=? 0) || (stride_h <=? 0) || (stride_w <=? 0))) Failed;;
      in_d ← at_ input_shape 1;
      in_h ← at_ input_shape 2;
      in_w ← at_ input_shape 3;
      require (negb ((in_d <? stride_d) || (in_h <? stride_h) || (in_w <? stride_w))) Failed;;
      require (negb ((dilation_d <=? 0) || (dilation_h <=? 0) || (dilation_w <=? 0))) Failed;;
      out_channels ← at_ filter_shape 4;
      check_bias input_shapes out_channels;;
      effective_filter_d ← effective_filter filter_d dilation_d;
      effective_filter_h ← effective_filter filter_h dilation_h;
      effective_filter_w ← effective_filter filter_w dilation_w;
      out_d ← ComputeOutputSize padding in_d filter_d stride_d dilation_d;
      out_h ← ComputeOutputSize padding in_h filter_h stride_h dilation_h;
      out_w ← ComputeOutputSize padding in_w filter_w stride_w dilation_w;
      (match padding with
       | Padding_VALID =>
           require (negb ((in_d <? effective_filter_d) || (in_h <? effective_filter_h) ||
                          (in_w <? effective_filter_w))) Failed
       | Padding_SAME => mret ()
       end);;
      require (negb ((out_d <=? 0) || (out_h <=? 0) || (out_w <=? 0))) Failed;;
      batch ← at_ input_shape 0;
      set_output 0 [batch; out_d; out_h; out_w; out_channels]
  | _ => return_status InvalidArgument
  end.

Section constants.
Context (h : ir).

(** [output_shapes[0][i] = x]. *)
Definition set_output_dim (i x : Z) : Infer unit :=
  outs ← gets output_shapes;
  out ← at_ outs 0;
  out ← upd out i x;
  set_output 0 out.

Definition InferTransposeConv (op : LiteRtOpT) (input_shapes : list Dims) : Infer unit :=
  require (3 <=? zlen input_shapes) InvalidArgument;;
  buf ← input_buffer h op 0;
  if 4 <=? zlen buf then
    out_shape ← int32s buf (zlen buf / 4);
    set_output 0 out_shape
  else
    input_shape ← at_ input_shapes 2;
    set_output 0 (dynamic_dims input_shape);;
    b ← at_ input_shape 0;
    set_output_dim 0 b;;
    weights_shape ← at_ input_shapes 1;
    if zlen weights_shape =? 4 then
      c ← at_ weights_shape 0; set_output_dim 3 c
    else mret ().

Definition InferConv3DTranspose (op : LiteRtOpT) (input_shapes : list Dims) : Infer unit :=
  require (3 <=? zlen input_shapes) InvalidArgument;;
  buf ← input_buffer h op 0;
  if 4 <=? zlen buf then
    out_shape ← int32s buf (zlen buf / 4);
    set_output 0 out_shape
  else
    input_shape ← at_ input_shapes 2;
    set_output 0 (dynamic_dims input_shape);;
    (if negb (bool_decide (input_shape = [])) then
       b ← at_ input_shape 0; set_output_dim 0 b
     else mret ());;
    filter_shape ← at_ input_shapes 1;
    if zlen filter_shape =? 5 then
      c ← at_ filter_shape 4; set_output_dim 4 c
    else mret ().
End constants.
