(* ===== verification/ShapeInference.v ===== *)
(** * The shape inference engine

    [ShapeInferenceEngine] of [litert/core/model/shape_inference.cc]: the
    registry of the inference functions, the inference and the validation of an
    operation, of a subgraph and of a model, and the specialisation of a
    subgraph to given input shapes. *)

From S2P Require Import Prelude OpCodes LiteRtIr OpShapes ConvShapes.

(** An [OpShapeInferrer] reads constants in the heap [h]. *)
Definition OpShapeInferrer : Type := ir → LiteRtOpT → list Dims → Infer unit.

(** The functions that neither look at the operation nor at constants
    ([DEFINE_SIMPLE_UNARY_INFER], [DEFINE_SIMPLE_BINARY_INFER] and others). *)
Definition of_shapes (f : list Dims → Infer unit) : OpShapeInferrer := λ _ _, f.
Definition of_op (f : LiteRtOpT → list Dims → Infer unit) : OpShapeInferrer := λ _, f.

Definition DEFINE_SIMPLE_UNARY_INFER : OpShapeInferrer := of_shapes InferIdentity.
Definition DEFINE_SIMPLE_BINARY_INFER : OpShapeInferrer := of_shapes InferElementwiseBinary.

Definition InferPadv2 : OpShapeInferrer := InferPad.
Definition InferMirrorPad : OpShapeInferrer := InferPad.
Definition InferResizeBilinear : OpShapeInferrer := InferResizeOp.
Definition InferResizeNearestNeighbor : OpShapeInferrer := InferResizeOp.

(** ** The registry *)

Definition registry : Type := gmap LiteRtOpCode OpShapeInferrer.

Definition RegisterInferrer (op_code : LiteRtOpCode) (inferrer : OpShapeInferrer)
    (r : registry) : registry := <[op_code := inferrer]> r.

(** [RegisterStandardOps], in the order of the source. *)
Definition standard_ops : list (LiteRtOpCode * OpShapeInferrer) := [
  (kLiteRtOpCodeTflAbs, DEFINE_SIMPLE_UNARY_INFER);
  (kLiteRtOpCodeTflCeil, DEFINE_SIMPLE_UNARY_INFER);
  (kLiteRtOpCodeTflCos, DEFINE_SIMPLE_UNARY_INFER);
  (kLiteRtOpCodeTflDequantize, DEFINE_SIMPLE_UNARY_INFER);
  (kLiteRtOpCodeTflElu, DEFINE_SIMPLE_UNARY_INFER);
  (kLiteRtOpCodeTflExp, DEFINE_SIMPLE_UNARY_INFER);
  (kLiteRtOpCodeTflFloor, DEFINE_SIMPLE_UNARY_INFER);
  (kLiteRtOpCodeTflGelu, DEFINE_SIMPLE_UNARY_INFER);
  (kLiteRtOpCodeTflHardSwish, DEFINE_SIMPLE_UNARY_INFER);
  (kLiteRtOpCodeTflLeakyRelu, DEFINE_SIMPLE_UNARY_INFER);
  (kLiteRtOpCodeTflLog, DEFINE_SIMPLE_UNARY_INFER);
  (kLiteRtOpCodeTflLogicalNot, DEFINE_SIMPLE_UNARY_INFER);
  (kLiteRtOpCodeTflLogistic, DEFINE_SIMPLE_UNARY_INFER);
  (kLiteRtOpCodeTflNeg, DEFINE_SIMPLE_UNARY_INFER);
  (kLiteRtOpCodeTflQuantize, DEFINE_SIMPLE_UNARY_INFER);
  (kLiteRtOpCodeTflRelu, DEFINE_SIMPLE_UNARY_INFER);
  (kLiteRtOpCodeTflRelu0To1, DEFINE_SIMPLE_UNARY_INFER);
  (kLiteRtOpCodeTflRelu6, DEFINE_SIMPLE_UNARY_INFER);
  (kLiteRtOpCodeTflReluN1To1, DEFINE_SIMPLE_UNARY_INFER);
  (kLiteRtOpCodeTflRound, DEFINE_SIMPLE_UNARY_INFER);
  (kLiteRtOpCodeTflRsqrt, DEFINE_SIMPLE_UNARY_INFER);
  (kLiteRtOpCodeTflSign, DEFINE_SIMPLE_UNARY_INFER);
  (kLiteRtOpCodeTflSin, DEFINE_SIMPLE_UNARY_INFER);
  (kLiteRtOpCodeTflSoftmax, DEFINE_SIMPLE_UNARY_INFER);
  (kLiteRtOpCodeTflSqrt, DEFINE_SIMPLE_UNARY_INFER);
  (kLiteRtOpCodeTflSquare, DEFINE_SIMPLE_UNARY_INFER);
  (kLiteRtOpCodeTflTanh, DEFINE_SIMPLE_UNARY_INFER);
  (kLiteRtOpCodeTflEqual, DEFINE_SIMPLE_BINARY_INFER);
  (kLiteRtOpCodeTflFloorDiv, DEFINE_SIMPLE_BINARY_INFER);
  (kLiteRtOpCodeTflGreater, DEFINE_SIMPLE_BINARY_INFER);
  (kLiteRtOpCodeTflGreaterEqual, DEFINE_SIMPLE_BINARY_INFER);
  (kLiteRtOpCodeTflLess, DEFINE_SIMPLE_BINARY_INFER);
  (kLiteRtOpCodeTflLessEqual, DEFINE_SIMPLE_BINARY_INFER);
  (kLiteRtOpCodeTflLogicalAnd, DEFINE_SIMPLE_BINARY_INFER);
  (kLiteRtOpCodeTflLogicalOr, DEFINE_SIMPLE_BINARY_INFER);
  (kLiteRtOpCodeTflMaximum, DEFINE_SIMPLE_BINARY_INFER);
  (kLiteRtOpCodeTflMinimum, DEFINE_SIMPLE_BINARY_INFER);
  (kLiteRtOpCodeTflNotEqual, DEFINE_SIMPLE_BINARY_INFER);
  (kLiteRtOpCodeTflPow, DEFINE_SIMPLE_BINARY_INFER);
  (kLiteRtOpCodeTflPrelu, DEFINE_SIMPLE_BINARY_INFER);
  (kLiteRtOpCodeTflSquaredDifference, DEFINE_SIMPLE_BINARY_INFER);
  (kLiteRtOpCodeTflAdd, DEFINE_SIMPLE_BINARY_INFER);
  (kLiteRtOpCodeTflArgMax, InferArgMinMax);
  (kLiteRtOpCodeTflArgMin, InferArgMinMax);
  (kLiteRtOpCodeTflAveragePool2d, of_op InferPool2D);
  (kLiteRtOpCodeTflBatchMatmul, of_op InferBatchMatmul);
  (kLiteRtOpCodeTflBroadcastTo, InferBroadcastTo);
  (kLiteRtOpCodeTflCast, DEFINE_SIMPLE_UNARY_INFER);
  (kLiteRtOpCodeTflConcatenation, of_op InferConcatenation);
  (kLiteRtOpCodeTflConv2d, of_op InferConv2D);
  (kLiteRtOpCodeTflConv3d, of_op InferConv3D);
  (kLiteRtOpCodeTflConv3dTranspose, InferConv3DTranspose);
  (kLiteRtOpCodeTflDepthToSpace, of_op InferDepthToSpace);
  (kLiteRtOpCodeTflDepthwiseConv2d, of_op InferDepthwiseConv2D);
  (kLiteRtOpCodeTflDiv, DEFINE_SIMPLE_BINARY_INFER);
  (kLiteRtOpCodeTflDynamicUpdateSlice, of_shapes InferDynamicUpdateSlice);
  (kLiteRtOpCodeTflEmbeddingLookup, of_shapes InferEmbeddingLookup);
  (kLiteRtOpCodeTflFullyConnected, of_op InferFullyConnected);
  (kLiteRtOpCodeTflGather, of_op InferGather);
  (kLiteRtOpCodeTflGatherNd, of_shapes InferGatherNd);
  (kLiteRtOpCodeTflL2Pool2d, of_op InferPool2D);
  (kLiteRtOpCodeTflMaxPool2d, of_op InferPool2D);
  (kLiteRtOpCodeTflMean, InferReduce);
  (kLiteRtOpCodeTflMirrorPad, InferMirrorPad);
  (kLiteRtOpCodeTflMul, DEFINE_SIMPLE_BINARY_INFER);
  (kLiteRtOpCodeTflPack, of_op InferPack);
  (kLiteRtOpCodeTflPad, InferPad);
  (kLiteRtOpCodeTflPadv2, InferPadv2);
  (kLiteRtOpCodeTflReduceAll, InferReduce);
  (kLiteRtOpCodeTflReduceAny, InferReduce);
  (kLiteRtOpCodeTflReduceMax, InferReduce);
  (kLiteRtOpCodeTflReduceMin, InferReduce);
  (kLiteRtOpCodeTflSum, InferReduce);
  (kLiteRtOpCodeTflReshape, InferReshape);
  (kLiteRtOpCodeTflResizeBilinear, InferResizeBilinear);
  (kLiteRtOpCodeTflResizeNearestNeighbor, InferResizeNearestNeighbor);
  (kLiteRtOpCodeTflSelect, of_shapes InferSelect);
  (kLiteRtOpCodeTflSelectV2, of_shapes InferSelect);
  (kLiteRtOpCodeTflSlice, InferSlice);
  (kLiteRtOpCodeTflSpaceToDepth, of_op InferSpaceToDepth);
  (kLiteRtOpCodeTflSub, DEFINE_SIMPLE_BINARY_INFER);
  (kLiteRtOpCodeTflTranspose, InferTranspose);
  (kLiteRtOpCodeTflTransposeConv, InferTransposeConv);
  (kLiteRtOpCodeTflUnpack, of_op InferUnpack);
  (kLiteRtOpCodeTflCumsum, DEFINE_SIMPLE_UNARY_INFER);
  (kLiteRtOpCodeTflL2Normalization, DEFINE_SIMPLE_UNARY_INFER);
  (kLiteRtOpCodeTflReverseV2, DEFINE_SIMPLE_UNARY_INFER);
  (kLiteRtOpCodeTflTopkV2, InferTopKV2)
].

Definition RegisterStandardOps : registry :=
  foldl (λ r '(op_code, inferrer), RegisterInferrer op_code inferrer r) ∅ standard_ops.

(** ** Inference

    The state of the engine is the heap; the status is the value of the
    computation. *)

Section engine.
Context (reg : registry).

(** The stateless [InferOpShapes]: the status, and the output shapes as they are
    left. [None] is undefined behaviour. *)
Definition InferOpShapes_pure (h : ir) (op : LiteRtOpT) (input_shapes outs : list Dims) :
    option (LiteRtStatus * list Dims) :=
  match reg !! OpCode op with
  | None => Some (kLiteRtStatusErrorUnsupportedOpShapeInferer, outs)
  | Some infer =>
      match infer h op input_shapes {| output_shapes := outs; status := kLiteRtStatusOk |} with
      | Done _ s => Some (kLiteRtStatusOk, output_shapes s)
      | Error s => Some (status s, output_shapes s)
      | Undefined => None
      end
  end.

(** The engine's methods return on the first status that is not [Ok]; the
    monad's error carries that status next to the heap. *)
Record engine_state := { heap : ir; engine_status : LiteRtStatus }.

Definition set_heap (h : ir) (s : engine_state) : engine_state :=
  {| heap := h; engine_status := engine_status s |}.

Definition stop {A} (st : LiteRtStatus) : M engine_state A :=
  modify (λ s, {| heap := heap s; engine_status := st |});; fail.

Definition on_heap {A} (m : M ir A) : M engine_state A := zoom heap set_heap m.

(** The shape of one input; a null input has an empty one. *)
Definition input_shape_of (t : LiteRtTensor) : M engine_state Dims :=
  if decide (t = nullptr) then mret []
  else
    T ← on_heap (get_tensor t);
    match Type_ T with
    | kLiteRtRankedTensorType _ dimensions => mret dimensions
    | kLiteRtUnrankedTensorType _ => stop kLiteRtStatusErrorUnsupported
    end.

(** The comparison of an existing with an inferred shape, in which a dynamic
    dimension agrees with everything. *)
Definition dims_agree (existing shape : Dims) : bool :=
  (zlen existing =? zlen shape) &&
  forallb (λ '(e, d), (e =? -1) || (d =? -1) || (e =? d)) (zip existing shape).

Definition validate_output_shape (T : LiteRtTensorT) (shape : Dims) : M engine_state unit :=
  match Type_ T with
  | kLiteRtRankedTensorType _ existing =>
      if dims_agree existing shape then mret () else stop Failed
  | kLiteRtUnrankedTensorType _ => mret ()
  end.

(** A constant keeps its shape. *)
Definition check_constant (T : LiteRtTensorT) (shape : Dims) : M engine_state unit :=
  if 0 <? zlen (Weights T) then
    match Type_ T with
    | kLiteRtRankedTensorType _ existing =>
        if decide (existing = shape) then mret () else stop Failed
    | kLiteRtUnrankedTensorType _ => mret ()
    end
  else mret ().

Definition element_type_of (T : LiteRtTensorT) : LiteRtElementType :=
  match Type_ T with
  | kLiteRtRankedTensorType e _ => e
  | kLiteRtUnrankedTensorType e => e
  end.

(** Give tensor [t] the shape, with its element type. *)
Definition set_shape (t : LiteRtTensor) (T : LiteRtTensorT) (shape : Dims) : M engine_state unit :=
  let element_type := element_type_of T in
  if decide (element_type ≠ kLiteRtElementTypeNone) then
    ty ← MakeRankedTensorType element_type shape;
    on_heap (put_tensor t (SetType ty T))
  else mret ().

Definition infer_output (validation_only : bool) (op : LiteRtOpT) (shapes : list Dims) (i : Z) :
    M engine_state unit :=
  t ← at_ (Outputs op) i;
  match zget shapes i with
  | None => mret ()
  | Some shape =>
      if decide (t = nullptr) then mret ()
      else
        T ← on_heap (get_tensor t);
        if validation_only then validate_output_shape T shape
        else check_constant T shape;; set_shape t T shape
  end.

Definition InferOpShapes (validation_only : bool) (o : LiteRtOp) : M engine_state unit :=
  op ← on_heap (get_op o);
  input_shapes ← map_m input_shape_of (Inputs op);
  h ← gets heap;
  match InferOpShapes_pure h op input_shapes (replicate (length (Outputs op)) []) with
  | None => undefined
  | Some (kLiteRtStatusOk, shapes) =>
      for_each (range 0 (zlen (Outputs op))) (infer_output validation_only op shapes)
  | Some (st, _) => stop st
  end.

(** The operations of a subgraph in their order. The failing operation, an
    output parameter of the code, is the position where the loop stops. *)
Definition InferSubgraphShapes (validation_only : bool) (g : LiteRtSubgraph) : M engine_state unit :=
  G ← on_heap (get_subgraph g);
  for_each (Ops G) (InferOpShapes validation_only).

Definition InferShapes (validation_only : bool) : M engine_state unit :=
  gs ← gets (λ s, model_subgraphs (heap s));
  for_each gs (InferSubgraphShapes validation_only).

(** ** Specialisation *)

(** [tensor_map[t]], which inserts a null pointer for an unknown key. *)
Definition mapped (tensor_map : gmap nat nat) (t : LiteRtTensor) : LiteRtTensor :=
  default nullptr (tensor_map !! t).

Definition clone_tensors (dest : LiteRtSubgraph) (ts : list LiteRtTensor) : M ir (gmap nat nat) :=
  fold_m ts ∅ (λ tensor_map t,
    new_tensor ← MakeTensorClone dest t; mret (<[t := new_tensor]> tensor_map)).

Definition clone_subgraph_op (dest : LiteRtSubgraph) (tensor_map : gmap nat nat) (o : LiteRtOp) :
    M ir unit :=
  new_op ← MakeOpClone dest o;
  O ← get_op o;
  for_each (Inputs O) (λ input, AttachInput (mapped tensor_map input) new_op);;
  for_each (Outputs O) (λ output, AttachOutput (mapped tensor_map output) new_op).

Definition clone_subgraph (g : LiteRtSubgraph) : M ir LiteRtSubgraph :=
  dest ← EmplaceSubgraph;
  G ← get_subgraph g;
  tensor_map ← clone_tensors dest (Tensors G);
  for_each (SubgraphInputs G) (λ input,
    update_subgraph dest (λ D, set_SubgraphInputs (SubgraphInputs D ++ [mapped tensor_map input]) D));;
  for_each (SubgraphOutputs G) (λ output,
    update_subgraph dest (λ D, set_SubgraphOutputs (SubgraphOutputs D ++ [mapped tensor_map output]) D));;
  for_each (Ops G) (clone_subgraph_op dest tensor_map);;
  mret dest.

Definition SpecializeSubgraph (g : LiteRtSubgraph) (input_shapes : list Dims) :
    M engine_state LiteRtSubgraph :=
  (if decide (g = nullptr) then stop Failed else mret ());;
  G ← on_heap (get_subgraph g);
  (if zlen input_shapes =? zlen (SubgraphInputs G) then mret () else stop Failed);;
  dest ← on_heap (clone_subgraph g);
  for_each (range 0 (zlen input_shapes)) (λ i,
    D ← on_heap (get_subgraph dest);
    t ← at_ (SubgraphInputs D) i;
    T ← on_heap (get_tensor t);
    shape ← at_ input_shapes i;
    set_shape t T shape);;
  InferSubgraphShapes false dest;;
  mret dest.
End engine.
