(* ===== verification/ShapeProofs.v ===== *)
(** * Correctness of the shape inference of the operations *)

From S2P Require Import Prelude OpCodes LiteRtIr OpShapes ConvShapes.

(** ** Running an inference function *)

Definition with_output (i : Z) (d : Dims) (s : infer_state) : infer_state :=
  set_output_shapes (zset i d (output_shapes s)) s.

Definition failed (st : LiteRtStatus) (s : infer_state) : infer_state :=
  {| output_shapes := output_shapes s; status := st |}.


Lemma wp_return_status {A} st (Q : A → infer_state → Prop) E s :
  E (failed st s) → wp (return_status st) Q E s.
Proof. intros HE. unfold return_status. by wp_steps. Qed.

Lemma wp_require b st (Q : unit → infer_state → Prop) E s :
  (b = true → Q tt s) → (b = false → E (failed st s)) → wp (require b st) Q E s.
Proof. intros H1 H2. destruct b; [by apply wp_ret, H1|by apply wp_return_status, H2]. Qed.

Lemma wp_set_output i d (Q : unit → infer_state → Prop) E s :
  0 ≤ i < zlen (output_shapes s) → Q tt (with_output i d s) → wp (set_output i d) Q E s.
Proof. intros Hi HQ. by apply wp_vset. Qed.

Lemma wp_run_done {S A} (m : M S A) a s' s :
  wp m (λ r t, r = a ∧ t = s') (λ _, False) s → m s = Done a s'.
Proof. unfold wp. destruct (m s); naive_solver. Qed.

Lemma wp_run_error {S A} (m : M S A) s' s :
  wp m (λ _ _, False) (λ t, t = s') s → m s = Error s'.
Proof. unfold wp. destruct (m s); naive_solver. Qed.

Ltac req := apply wp_require; [intros _|by intros].

(** ** Broadcasting

    The reference: align at the right end, combine the dimensions pairwise, and
    keep the longer shape's dimensions where the other has none. *)

Fixpoint zip_broadcast (l k : Dims) : option Dims :=
  match l, k with
  | [], k => Some k
  | l, [] => Some l
  | x :: l', y :: k' => d ← broadcast_dim x y; r ← zip_broadcast l' k'; Some (d :: r)
  end.

Definition broadcast (s1 s2 : Dims) : option Dims :=
  reverse <$> zip_broadcast (reverse s1) (reverse s2).

(** The dimension at distance [i] from the right end. *)
Definition dimr (s : Dims) (i : nat) : Z := default 1 (reverse s !! i).

Lemma dim_from_right_spec {T} (s : Dims) i (Q : Z → T → Prop) E st :
  0 ≤ i → Q (dimr s (Z.to_nat i)) st → wp (dim_from_right s i) Q E st.
Proof.
  intros Hi HQ. unfold dim_from_right, dimr in *.
  destruct (Z.leb_spec 0 (zlen s - 1 - i)) as [Hle|Hgt].
  - rewrite reverse_lookup in HQ by lia.
    destruct (zget_is_Some s (zlen s - 1 - i)) as [x Hx]; [lia|].
    eapply wp_at; [exact Hx|]. apply zget_Some in Hx as [_ Hx].
    replace (Z.to_nat (zlen s - 1 - i)) with (length s - S (Z.to_nat i))%nat in Hx by lia.
    by rewrite Hx in HQ.
  - rewrite (proj2 (lookup_ge_None _ _)) in HQ by (rewrite length_reverse; lia). by wp_steps.
Qed.

Lemma broadcast_dim_comm a b : broadcast_dim a b = broadcast_dim b a.
Proof.
  unfold broadcast_dim.
  repeat match goal with |- context [?x =? ?y] => destruct (Z.eqb_spec x y) end; simpl; first [done|lia|f_equal; lia].
Qed.

Lemma broadcast_dim_1_l d : broadcast_dim 1 d = Some d.
Proof.
  unfold broadcast_dim. change (1 =? -1) with false. change (1 =? 1) with true.
  destruct (Z.eqb_spec d (-1)) as [->|]; [done|].
  by destruct (Z.eqb_spec 1 d) as [<-|].
Qed.

Lemma broadcast_dim_1_r d : broadcast_dim d 1 = Some d.
Proof. by rewrite broadcast_dim_comm, broadcast_dim_1_l. Qed.

Lemma zip_broadcast_comm l k : zip_broadcast l k = zip_broadcast k l.
Proof.
  revert k. induction l as [|x l IH]; intros [|y k]; simpl; [done..|].
  by rewrite broadcast_dim_comm, IH.
Qed.

Lemma broadcast_comm s1 s2 : broadcast s1 s2 = broadcast s2 s1.
Proof. unfold broadcast. by rewrite zip_broadcast_comm. Qed.

(** The dimensions of a broadcast, one by one. *)
Lemma zip_broadcast_lookup l k r : zip_broadcast l k = Some r →
  length r = max (length l) (length k) ∧
  ∀ i, (i < length r)%nat → broadcast_dim (default 1 (l !! i)) (default 1 (k !! i)) = r !! i.
Proof.
  revert k r. induction l as [|x l IH]; intros [|y k] r; simpl.
  - intros [= <-]. split; [done|]. simpl. lia.
  - intros [= <-]. split; [done|]. intros i Hi. rewrite broadcast_dim_1_l.
    by destruct (lookup_lt_is_Some_2 (y :: k) i Hi) as [d ->].
  - intros [= <-]. split; [done|]. intros i Hi. rewrite broadcast_dim_1_r.
    by destruct (lookup_lt_is_Some_2 (x :: l) i Hi) as [d ->].
  - destruct (broadcast_dim x y) as [d|] eqn:Hd; simpl; [|done].
    destruct (zip_broadcast l k) as [r'|] eqn:Hr; simpl; [|done]. intros [= <-].
    destruct (IH _ _ Hr) as [Hlen Hi]. split; [simpl; lia|]. intros [|i] Hlt; simpl in *; [done|].
    apply Hi. lia.
Qed.

Lemma zip_broadcast_None l k : zip_broadcast l k = None →
  ∃ i, (i < max (length l) (length k))%nat ∧
    broadcast_dim (default 1 (l !! i)) (default 1 (k !! i)) = None.
Proof.
  revert k. induction l as [|x l IH]; intros [|y k]; simpl; [done..|].
  destruct (broadcast_dim x y) as [d|] eqn:Hd; simpl.
  - destruct (zip_broadcast l k) as [r'|] eqn:Hr; simpl; [done|]. intros _.
    destruct (IH _ Hr) as (i & Hi & Hb). exists (S i). split; [lia|done].
  - intros _. exists 0%nat. split; [lia|done].
Qed.

(** Filling a vector from the right, with an error where [f] has no value. *)
Lemma reverse_zset (l : list Z) n k d i : length l = n → (k < n)%nat → (i < n)%nat →
  reverse (zset (Z.of_nat n - 1 - Z.of_nat k) d l) !! i = if decide (i = k) then Some d else reverse l !! i.
Proof.
  intros Hl Hk Hi. rewrite !reverse_lookup by (rewrite ?zset_length; lia). rewrite zset_length, Hl.
  unfold zset. case_decide as Hik.
  - subst i. replace (Z.to_nat (Z.of_nat n - 1 - Z.of_nat k)) with (n - S k)%nat by lia.
    apply list_lookup_insert_eq. lia.
  - apply list_lookup_insert_ne. lia.
Qed.

Lemma fill_loop (n : nat) (f : nat → option Z) st body s :
  (∀ out i (E : infer_state → Prop) Q, 0 ≤ i < Z.of_nat n →
     (∀ d, f (Z.to_nat i) = Some d → 0 ≤ Z.of_nat n - 1 - i < zlen out →
        Q (zset (Z.of_nat n - 1 - i) d out) s) →
     (f (Z.to_nat i) = None → E (failed st s)) →
     length out = n → wp (body out i) Q E s) →
  wp (fold_m (range 0 (Z.of_nat n)) (replicate n 0) body)
    (λ out s', s' = s ∧ length out = n ∧ ∀ i, (i < n)%nat → reverse out !! i = f i)
    (λ s', s' = failed st s ∧ ∃ i, (i < n)%nat ∧ f i = None) s.
Proof.
  intros Hbody. eapply wp_fold_pure with (I := λ done out, length out = n ∧
    ∀ i, (i < length done)%nat → reverse out !! i = f i).
  - split; [apply length_replicate|]. simpl. lia.
  - intros done i todo out Hl [Hlen Hout]. apply range_split in Hl as [-> Hi].
    apply Hbody; [lia| | |done].
    + intros d Hd _. rewrite Nat2Z.id in Hd. split; [done|]. split; [by rewrite zset_length|].
      intros j Hj. rewrite length_app in Hj. simpl in Hj. rewrite reverse_zset by lia.
      case_decide; [by subst|]. apply Hout. lia.
    + intros Hd. rewrite Nat2Z.id in Hd. split; [done|]. exists (length done). split; [lia|done].
  - intros out [Hlen Hout]. split; [done|]. split; [done|]. intros i Hi. apply Hout.
    unfold range. rewrite length_seqZ. lia.
Qed.

Lemma broadcast_from_right s1 s2 out : length out = max (length s1) (length s2) →
  (∀ i, (i < max (length s1) (length s2))%nat →
     reverse out !! i = broadcast_dim (dimr s1 i) (dimr s2 i)) →
  broadcast s1 s2 = Some out.
Proof.
  intros Hlen Hout. unfold broadcast.
  destruct (zip_broadcast (reverse s1) (reverse s2)) as [r|] eqn:Hr; simpl.
  - apply zip_broadcast_lookup in Hr as [Hl Hi]. rewrite !length_reverse in Hl. f_equal.
    apply (inj reverse). rewrite reverse_involutive. apply list_eq. intros i.
    destruct (decide (i < length r)%nat) as [Hlt|Hge].
    + rewrite <- Hi, Hout by lia. done.
    + rewrite !(proj2 (lookup_ge_None _ _)); [done|rewrite length_reverse; lia|lia].
  - apply zip_broadcast_None in Hr as (i & Hi & Hb). rewrite !length_reverse in Hi.
    specialize (Hout i Hi). unfold dimr in Hout. rewrite Hb in Hout.
    apply lookup_ge_None in Hout. rewrite length_reverse in Hout. lia.
Qed.

Lemma broadcast_fails s1 s2 i : (i < max (length s1) (length s2))%nat →
  broadcast_dim (dimr s1 i) (dimr s2 i) = None → broadcast s1 s2 = None.
Proof.
  intros Hi Hb. unfold broadcast.
  destruct (zip_broadcast (reverse s1) (reverse s2)) as [r|] eqn:Hr; [|done].
  apply zip_broadcast_lookup in Hr as [Hl Hd]. rewrite !length_reverse in Hl.
  assert (i < length r)%nat as Hlt by lia. specialize (Hd i Hlt). unfold dimr in Hb. rewrite Hb in Hd.
  symmetry in Hd. apply lookup_ge_None in Hd. lia.
Qed.

(** The relation that broadcasting is meant to compute: dimension by dimension from the
    right end, where a missing one counts as [1]. *)
Inductive common_dim : Z → Z → Z → Prop :=
| unknown_l b : common_dim (-1) b (-1)
| unknown_r a : common_dim a (-1) (-1)
| equal_dims a : common_dim a a a
| adapts_l b : common_dim 1 b b
| adapts_r a : common_dim a 1 a.

Definition broadcasts (s1 s2 out : Dims) : Prop :=
  length out = max (length s1) (length s2) ∧ ∀ i, common_dim (dimr s1 i) (dimr s2 i) (dimr out i).

Lemma broadcast_dim_common a b d : broadcast_dim a b = Some d ↔ common_dim a b d.
Proof.
  unfold broadcast_dim. split.
  - destruct (Z.eqb_spec a (-1)) as [->|]; [intros [= <-]; constructor|].
    destruct (Z.eqb_spec b (-1)) as [->|]; [intros [= <-]; constructor|]. simpl.
    destruct (Z.eqb_spec a b) as [->|]; [intros [= <-]; constructor|].
    destruct (Z.eqb_spec a 1) as [->|]; [intros [= <-]; constructor|].
    destruct (Z.eqb_spec b 1) as [->|]; [intros [= <-]; constructor|done].
  - destruct 1; repeat match goal with |- context [?x =? ?y] => destruct (Z.eqb_spec x y) end; simpl; first [done|lia|f_equal; lia].
Qed.

Lemma dimr_out s i : (length s ≤ i)%nat → dimr s i = 1.
Proof. intros Hi. unfold dimr. by rewrite (proj2 (lookup_ge_None _ _)) by (rewrite length_reverse; lia). Qed.

Lemma dimr_in s i : (i < length s)%nat → reverse s !! i = Some (dimr s i).
Proof.
  intros Hi. unfold dimr. destruct (lookup_lt_is_Some_2 (reverse s) i) as [x Hx]; [by rewrite length_reverse|]. by rewrite Hx.
Qed.

Lemma broadcast_broadcasts s1 s2 out : broadcast s1 s2 = Some out ↔ broadcasts s1 s2 out.
Proof.
  split.
  - unfold broadcast. intros (r & Hr & ->)%fmap_Some. apply zip_broadcast_lookup in Hr as [Hl Hi].
    rewrite !length_reverse in Hl. split; [by rewrite length_reverse|]. intros i.
    destruct (decide (i < length r)%nat) as [Hlt|Hge].
    + apply broadcast_dim_common. unfold dimr. rewrite Hi by done. rewrite reverse_involutive.
      destruct (lookup_lt_is_Some_2 r i Hlt) as [x Hx]. by rewrite Hx.
    + rewrite !dimr_out by (rewrite ?length_reverse; lia). constructor.
  - intros [Hl Hd]. apply broadcast_from_right; [done|]. intros i Hi. rewrite dimr_in by lia.
    symmetry. apply broadcast_dim_common, Hd.
Qed.

Lemma broadcast_None s1 s2 : broadcast s1 s2 = None ↔ ¬ ∃ out, broadcasts s1 s2 out.
Proof.
  destruct (broadcast s1 s2) as [out|] eqn:Hb.
  - split; [done|]. intros Hno. destruct Hno. exists out. by apply broadcast_broadcasts.
  - split; [|done]. intros _ (out & Hout%broadcast_broadcasts). congruence.
Qed.

Lemma InferElementwiseBinary_two s1 s2 s : output_shapes s ≠ [] →
  InferElementwiseBinary [s1; s2] s =
    match broadcast s1 s2 with
    | Some out => Done tt (with_output 0 out s) | None => Error (failed Failed s) end.
Proof.
  intros Hs. assert (0 ≤ 0 < zlen (output_shapes s)) as Hs0
    by (destruct (output_shapes s); simpl; [done|lia]).
  assert (wp (InferElementwiseBinary [s1; s2])
    (λ r s', ∃ out, broadcast s1 s2 = Some out ∧ s' = with_output 0 out s)
    (λ s', broadcast s1 s2 = None ∧ s' = failed Failed s) s) as Hwp.
  { unfold InferElementwiseBinary. wp_steps.
    eapply wp_at; [done|]. wp_steps. eapply wp_at; [done|]. wp_steps.
    rewrite <- Nat2Z.inj_max, Nat2Z.id. set (n := max (length s1) (length s2)).
    eapply wp_mono; [apply (fill_loop n (λ i, broadcast_dim (dimr s1 i) (dimr s2 i)) Failed)| |].
    - intros out i E Q Hi Hsome Hnone Hlen. wp_steps. apply dim_from_right_spec; [lia|]. wp_steps.
      apply dim_from_right_spec; [lia|]. destruct (broadcast_dim _ _) as [d|].
      + apply wp_upd; [lia|]. apply Hsome; [done|lia].
      + by apply wp_return_status, Hnone.
    - simpl. intros out s' (-> & Hlen & Hout). apply wp_set_output; [done|].
      exists out. split; [by apply broadcast_from_right|done].
    - simpl. intros s' (-> & i & Hi & Hb). split; [by eapply broadcast_fails|done]. }
  unfold wp in Hwp. destruct (InferElementwiseBinary [s1; s2] s) as [[] s'|s'|]; [| |done].
  - destruct Hwp as (out & -> & ->). done.
  - destruct Hwp as (-> & ->). done.
Qed.

(** C23: the elementwise operations compute the broadcast of the two shapes:
    dimensions are aligned at the right end, a dynamic one stays dynamic, [1] and a
    missing one adapt to the other ([common_dim]); shapes for which there is none and any
    number of inputs other than two are errors that leave the outputs alone. The order
    of the operands does not matter. *)
Theorem InferElementwiseBinary_broadcast input_shapes s : output_shapes s ≠ [] →
  match input_shapes with
  | [s1; s2] =>
      (∃ out, broadcasts s1 s2 out ∧ InferElementwiseBinary input_shapes s = Done tt (with_output 0 out s)) ∨
      (¬ (∃ out, broadcasts s1 s2 out) ∧ InferElementwiseBinary input_shapes s = Error (failed Failed s))
  | _ => InferElementwiseBinary input_shapes s = Error (failed Failed s)
  end ∧
  ∀ s1 s2, InferElementwiseBinary [s1; s2] s = InferElementwiseBinary [s2; s1] s.
Proof.
  intros Hs. split; [|intros s1 s2; by rewrite !InferElementwiseBinary_two, broadcast_comm].
  destruct input_shapes as [|s1 [|s2 [|s3 l]]]; [done|done| |].
  - rewrite InferElementwiseBinary_two by done. destruct (broadcast s1 s2) as [out|] eqn:Hb.
    + left. exists out. by rewrite <- broadcast_broadcasts.
    + right. by rewrite <- broadcast_None.
  - unfold InferElementwiseBinary. cbn [length]. rewrite (proj2 (Z.eqb_neq _ 2)) by lia. done.
Qed.

Definition one_output : infer_state := {| output_shapes := [[]]; status := kLiteRtStatusOk |}.

Example broadcast_examples :
  InferElementwiseBinary [[4; 1; -1]; [3; 2]] one_output = Done tt (with_output 0 [4; 3; -1] one_output) ∧
  InferElementwiseBinary [[2]; [3]] one_output = Error (failed Failed one_output).
Proof. split; reflexivity. Qed.

Lemma InferElementwiseBinary_broadcast_witness :
  output_shapes one_output ≠ [] ∧
  ((∃ out, broadcasts [2] [3] out ∧ InferElementwiseBinary [[2]; [3]] one_output = Done tt (with_output 0 out one_output)) ∨
   (¬ (∃ out, broadcasts [2] [3] out) ∧ InferElementwiseBinary [[2]; [3]] one_output = Error (failed Failed one_output))) ∧
  ∀ s1 s2, InferElementwiseBinary [s1; s2] one_output = InferElementwiseBinary [s2; s1] one_output.
Proof. split; [done|]. by apply (InferElementwiseBinary_broadcast [[2]; [3]] one_output). Defined.
