(* ===== verification/LayoutShapeProofs.v ===== *)
(** * Shape inference of the operations that rearrange a tensor

    Constant tensors decode to what was encoded, and the operations that undo
    one another do so on shapes: transposition and its inverse, space-to-depth
    and depth-to-space, packing and unpacking. *)

From S2P Require Import Prelude OpCodes LiteRtIr OpShapes ConvShapes ShapeProofs.

(** ** Little-endian constants *)

Fixpoint encode (width : nat) (z : Z) : list Z :=
  match width with O => [] | S w => z mod 256 :: encode w (z / 256) end.

Fixpoint encode_all (width : nat) (l : list Z) : list Z :=
  match l with [] => [] | x :: l' => encode width x ++ encode_all width l' end.

Lemma encode_length w z : length (encode w z) = w.
Proof. revert z. induction w as [|w IH]; intros z; simpl; [done|]. by rewrite IH. Qed.

Lemma le_bytes_encode w z : le_bytes (encode w z) = z mod 256 ^ Z.of_nat w.
Proof.
  revert z. induction w as [|w IH]; intros z; simpl; [by rewrite Z.mod_1_r|].
  rewrite IH, Nat2Z.inj_succ, Z.pow_succ_r by lia. rewrite Z.rem_mul_r by lia. done.
Qed.

Lemma i32_mod z : is_int32 z → i32 (z mod 2 ^ 32) = z.
Proof.
  intros Hz. unfold i32. rewrite Z.add_mod_idemp_l by lia. by apply i32_id.
Qed.

Lemma i64_mod z : int64_min ≤ z ≤ int64_max → i64 (z mod 2 ^ 64) = z.
Proof.
  unfold int64_min, int64_max, i64. intros Hz. rewrite Z.add_mod_idemp_l by lia.
  rewrite Z.mod_small; lia.
Qed.

Lemma encode_all_length w l : length (encode_all w l) = (w * length l)%nat.
Proof.
  induction l as [|x l IH]; simpl; [lia|]. rewrite length_app, encode_length, IH. lia.
Qed.

Lemma encode_all_drop w l i : drop (w * i) (encode_all w l) = encode_all w (drop i l).
Proof.
  revert l. induction i as [|i IH]; intros l; [by rewrite Nat.mul_0_r, !drop_0|].
  destruct l as [|x l]; [cbn [encode_all drop]; by rewrite drop_nil|].
  cbn [encode_all drop].
  rewrite drop_app, encode_length. rewrite (drop_ge (encode w x)) by (rewrite encode_length; lia).
  replace (w * S i - w)%nat with (w * i)%nat by lia. apply IH.
Qed.

Lemma encode_all_chunk w l i x : l !! i = Some x →
  take w (drop (w * i) (encode_all w l)) = encode w x.
Proof.
  intros Hi. rewrite encode_all_drop, (drop_S _ _ _ Hi). simpl.
  rewrite take_app_le by (rewrite encode_length; lia).
  rewrite firstn_all2; [done|]. by rewrite encode_length.
Qed.

(** A constant tensor holds what was written to it. *)
Lemma int32_at_encode {T} l i x (s : T) : Forall is_int32 l → zget l i = Some x →
  int32_at (encode_all 4 l) i s = Done x s.
Proof.
  intros Hl Hi. pose proof (zget_range _ _ _ Hi) as Hr. apply zget_Some in Hi as [_ Hi].
  unfold int32_at. rewrite decide_True by (rewrite encode_all_length; lia).
  replace (Z.to_nat (4 * i)) with (4 * Z.to_nat i)%nat by lia.
  rewrite (encode_all_chunk _ _ _ _ Hi), le_bytes_encode.
  change (256 ^ Z.of_nat 4) with (2 ^ 32). rewrite i32_mod; [done|]. by eapply Forall_lookup_1.
Qed.

Lemma int64_at_encode {T} l i x (s : T) : Forall (λ z, int64_min ≤ z ≤ int64_max) l →
  zget l i = Some x → int64_at (encode_all 8 l) i s = Done x s.
Proof.
  intros Hl Hi. pose proof (zget_range _ _ _ Hi) as Hr. apply zget_Some in Hi as [_ Hi].
  unfold int64_at. rewrite decide_True by (rewrite encode_all_length; lia).
  replace (Z.to_nat (8 * i)) with (8 * Z.to_nat i)%nat by lia.
  rewrite (encode_all_chunk _ _ _ _ Hi), le_bytes_encode.
  change (256 ^ Z.of_nat 8) with (2 ^ 64). rewrite i64_mod; [done|].
  by apply (Forall_lookup_1 _ _ _ _ Hl Hi).
Qed.

Lemma wp_int32s {T} l (Q : list Z → T → Prop) E s : Forall is_int32 l → Q l s →
  wp (int32s (encode_all 4 l) (zlen l)) Q E s.
Proof.
  intros Hl HQ. unfold int32s. apply (wp_map_m _ (vat 0 l)); [|by rewrite vat_range].
  intros i Hi%elem_of_range. apply int32_at_encode; [done|by apply vat_zget].
Qed.

Lemma wp_int64s {T} l (Q : list Z → T → Prop) E s :
  Forall (λ z, int64_min ≤ z ≤ int64_max) l → Q l s →
  wp (int64s (encode_all 8 l) (zlen l)) Q E s.
Proof.
  intros Hl HQ. unfold int64s. apply (wp_map_m _ (vat 0 l)); [|by rewrite vat_range].
  intros i Hi%elem_of_range. apply int64_at_encode; [done|by apply vat_zget].
Qed.

(** Input [i] of [op] is a constant of these bytes. *)
Definition constant_input (h : ir) (op : LiteRtOpT) (i : Z) (bytes : list Z) : Prop :=
  ∃ t T, zget (Inputs op) i = Some t ∧ tensor_heap h !! t = Some T ∧ Weights T = bytes.

Lemma wp_input_buffer h op i bytes Q E s :
  constant_input h op i bytes → Q bytes s → wp (input_buffer h op i) Q E s.
Proof.
  intros (t & T & Ht & HT & <-) HQ. unfold input_buffer, op_input. wp_steps.
  eapply wp_at; [exact Ht|]. wp_steps. eapply wp_deref; [exact HT|]. by wp_steps.
Qed.

Lemma outputs_nonempty s : output_shapes s ≠ [] → 0 ≤ 0 < zlen (output_shapes s).
Proof. destruct (output_shapes s); simpl; [done|lia]. Qed.

(** ** Transposition *)

Lemma fill_left_lookup (l : list Z) (k n : nat) x i : length l = n → (k < n)%nat →
  (i < S k)%nat → zset (Z.of_nat k) x l !! i = if decide (i = k) then Some x else l !! i.
Proof.
  intros Hl Hk Hi. unfold zset. rewrite Nat2Z.id. case_decide as Hik.
  - subst i. apply list_lookup_insert_eq. lia.
  - by apply list_lookup_insert_ne.
Qed.

(** A loop that computes the elements of a vector from the left. *)
Lemma wp_fill_left {T} (n : nat) (f : nat → Z) body (Q : list Z → T → Prop) E s :
  (∀ out i Q', (i < n)%nat → length out = n → Q' (zset (Z.of_nat i) (f i) out) s →
     wp (body out (Z.of_nat i)) Q' E s) →
  Q (f <$> seq 0 n) s →
  wp (fold_m (range 0 (Z.of_nat n)) (replicate n 0) body) Q E s.
Proof.
  intros Hbody HQ. apply wp_fold_pure with (I := λ done out, length out = n ∧
    ∀ i, (i < length done)%nat → out !! i = Some (f i)).
  - split; [apply length_replicate|]. simpl. lia.
  - intros done i todo out Hl [Hlen Hout]. apply range_split in Hl as [-> Hi].
    apply Hbody; [lia|done|]. split; [done|]. split; [by rewrite zset_length|].
    intros j Hj. rewrite length_app in Hj. simpl in Hj.
    rewrite (fill_left_lookup _ _ n) by lia. case_decide; [by subst|]. apply Hout. lia.
  - intros out [Hlen Hout]. replace out with (f <$> seq 0 n); [done|].
    apply list_eq. intros i. rewrite list_lookup_fmap. destruct (decide (i < n)%nat) as [Hi|Hi].
    + rewrite lookup_seq_lt by done. simpl. symmetry. apply Hout. unfold range. rewrite length_seqZ. lia.
    + rewrite !(proj2 (lookup_ge_None _ _)); [done|lia|rewrite length_seq; lia].
Qed.

Lemma seq_lookup_all (s p : list Z) : length s = length p →
  (λ i, vat 0 s (vat 0 p (Z.of_nat i))) <$> seq 0 (length p) = vat 0 s <$> p.
Proof.
  intros _. apply list_eq. intros i. rewrite !list_lookup_fmap.
  destruct (decide (i < length p)%nat) as [Hi|Hi].
  - rewrite lookup_seq_lt by done. simpl. unfold vat at 2, zget.
    rewrite (proj2 (Z.leb_le 0 _)), Nat2Z.id by lia.
    by destruct (lookup_lt_is_Some_2 p i Hi) as [x ->].
  - rewrite !(proj2 (lookup_ge_None _ _)); [done|lia|rewrite length_seq; lia].
Qed.

Lemma small_int32 n z : 0 ≤ z < n → n ≤ LITERT_TENSOR_MAX_RANK → is_int32 z.
Proof. unfold LITERT_TENSOR_MAX_RANK, is_int32, int32_min, int32_max. lia. Qed.

Lemma InferTranspose_exact h op s x rest p st :
  constant_input h op 1 (encode_all 4 p) → length p = length s → s ≠ [] →
  zlen s ≤ LITERT_TENSOR_MAX_RANK → Forall (λ i, 0 ≤ i < zlen s) p → output_shapes st ≠ [] →
  InferTranspose h op (s :: x :: rest) st = Done tt (with_output 0 (vat 0 s <$> p) st).
Proof.
  intros Hc Hlen Hs Hrank Hp Hst. apply wp_run_done. unfold InferTranspose. wp_steps.
  apply wp_require; [intros _|intros Hn; apply Z.leb_gt in Hn; lia]. wp_steps.
  eapply wp_at; [done|]. wp_steps. eapply wp_input_buffer; [exact Hc|]. wp_steps.
  rewrite decide_False by done. rewrite encode_all_length.
  assert (length s ≠ 0%nat) as Hs' by (by destruct s).
  rewrite (proj2 (Z.ltb_lt 0 _)) by lia.
  replace (Z.of_nat (4 * length p) `div` 4) with (Z.of_nat (length p))
    by (rewrite Nat2Z.inj_mul, Z.mul_comm, Z.div_mul; lia).
  wp_steps. rewrite Hlen. apply wp_require; [intros _|intros Hn; apply Z.eqb_neq in Hn; lia]. wp_steps.
  rewrite Nat2Z.id. apply (wp_fill_left _ (λ i, vat 0 s (vat 0 p (Z.of_nat i)))).
  - intros out i Q' Hi Ho HQ'. wp_steps.
    assert (zget p (Z.of_nat i) = Some (vat 0 p (Z.of_nat i))) as Hpi by (apply vat_zget; lia).
    assert (0 ≤ vat 0 p (Z.of_nat i) < zlen s) as Hr.
    { rewrite Forall_forall in Hp. apply Hp. by eapply zget_elem. }
    unfold wp at 1. rewrite (int32_at_encode p _ _ _ (Forall_impl _ _ _ Hp (λ z Hz, small_int32 _ z Hz Hrank)) Hpi).
    apply wp_bind, wp_require; [intros _|].
    + wp_steps. eapply wp_at; [by apply vat_zget|]. wp_steps. apply wp_upd; [lia|done].
    + intros Hn. apply negb_false_iff, orb_true_iff in Hn as [Hn%Z.ltb_lt|Hn%Z.leb_le]; lia.
  - apply wp_set_output; [by apply outputs_nonempty|]. split; [done|]. f_equal.
    rewrite <- Hlen. by apply seq_lookup_all.
Qed.

(** Transposing a shape by a constant permutation picks its dimensions in
    the order of the permutation, and transposing the result by the inverse
    permutation gives the original shape back. *)
Theorem InferTranspose_inverse h op1 op2 s x rest p q st :
  constant_input h op1 1 (encode_all 4 p) → constant_input h op2 1 (encode_all 4 q) →
  s ≠ [] → zlen s ≤ LITERT_TENSOR_MAX_RANK → length p = length s → length q = length s →
  Forall (λ i, 0 ≤ i < zlen s) p → output_shapes st ≠ [] →
  (∀ i, 0 ≤ i < zlen s → ∃ j, zget q i = Some j ∧ zget p j = Some i) →
  let out := vat 0 s <$> p in
  InferTranspose h op1 (s :: x :: rest) st = Done tt (with_output 0 out st) ∧
  InferTranspose h op2 (out :: x :: rest) st = Done tt (with_output 0 s st).
Proof.
  intros Hp Hq Hs Hrank Hlp Hlq Hpr Hst Hinv out.
  assert (length out = length s) as Hlo by (unfold out; by rewrite length_fmap).
  split; [by apply InferTranspose_exact|].
  rewrite (InferTranspose_exact h op2 out x rest q st); [|done|lia| |lia| |done].
  - do 3 f_equal. apply list_eq. intros i. rewrite list_lookup_fmap.
    destruct (decide (i < length s)%nat) as [Hi|Hi].
    + destruct (Hinv (Z.of_nat i)) as (j & Hqi & Hpj); [lia|].
      pose proof Hqi as [_ Hqi']%zget_Some. rewrite Nat2Z.id in Hqi'. rewrite Hqi'. simpl.
      pose proof Hpj as [Hj Hpj']%zget_Some. unfold vat at 1, zget.
      rewrite (proj2 (Z.leb_le 0 _)) by done. unfold out. rewrite list_lookup_fmap, Hpj'. simpl.
      unfold vat, zget. rewrite (proj2 (Z.leb_le 0 _)), Nat2Z.id by lia.
      by destruct (lookup_lt_is_Some_2 s i Hi) as [d ->].
    + rewrite !(proj2 (lookup_ge_None _ _)); [done|lia|lia].
  - intros Hn. rewrite Hn in Hlo. by destruct s.
  - apply Forall_lookup_2. intros i j Hqi. apply lookup_lt_Some in Hqi as Hi.
    destruct (Hinv (Z.of_nat i)) as (j' & Hqi' & Hpj); [lia|].
    apply zget_Some in Hqi' as [_ Hqi']. rewrite Nat2Z.id in Hqi'. simplify_eq.
    apply zget_range in Hpj. lia.
Qed.

(** ** Space to depth and back *)

Definition block_of (op : LiteRtOpT) : Z :=
  match GetTflOptions op with
  | SpaceToDepthOptions b | DepthToSpaceOptions b => b
  | _ => 0
  end.

(** A dynamic dimension stays dynamic. *)
Definition scale (f : Z → Z) (d : Z) : Z := if d =? -1 then -1 else f d.

Lemma quot_int32 a b : is_int32 a → 0 < b → is_int32 (Z.quot a b).
Proof.
  unfold is_int32, int32_min, int32_max. intros Ha Hb.
  destruct (Z.le_ge_cases 0 a).
  - pose proof (Z.quot_pos a b). pose proof (Z.quot_le_upper_bound a b a). nia.
  - rewrite <- (Z.opp_involutive a), Z.quot_opp_l by lia.
    pose proof (Z.quot_pos (- a) b). pose proof (Z.quot_le_upper_bound (-a) b (-a)). nia.
Qed.

Lemma int32_between a b z : is_int32 a → is_int32 b → a ≤ z ≤ b → is_int32 z.
Proof. unfold is_int32. lia. Qed.

(** The stages: divide or multiply one dimension unless it is dynamic. *)
Lemma wp_divide_dim out i x bs (Q : Dims → infer_state → Prop) E s :
  0 < bs → is_int32 x → zget out i = Some x →
  (x = -1 ∨ Z.rem x bs = 0 → Q (zset i (scale (λ x, Z.quot x bs) x) out) s) →
  (¬ (x = -1 ∨ Z.rem x bs = 0) → E (failed Failed s)) →
  wp (if negb (x =? -1) then
        r ← rem32 x bs; require (r =? 0) Failed;; q ← div32 x bs; upd out i q
      else mret out) Q E s.
Proof.
  intros Hbs Hx Hi HQ HE. unfold scale in HQ. destruct (Z.eqb_spec x (-1)) as [->|Hne]; simpl.
  - wp_steps. rewrite <- (zset_same out i (-1)) by done. auto.
  - wp_steps. apply wp_rem32; [lia|by apply quot_int32|]. wp_steps. apply wp_require.
    + intros Hr%Z.eqb_eq. wp_steps. apply wp_div32; [lia|by apply quot_int32|].
      apply wp_upd; [by eapply zget_range|]. auto.
    + intros Hr%Z.eqb_neq. apply HE. tauto.
Qed.

Lemma wp_multiply_dim out i x m (Q : Dims → infer_state → Prop) E s :
  zget out i = Some x → (x = -1 ∨ is_int32 (x * m)) →
  Q (zset i (scale (λ x, x * m) x) out) s →
  wp (if negb (x =? -1) then y ← int32 (x * m); upd out i y else mret out) Q E s.
Proof.
  intros Hi Hx HQ. unfold scale in HQ. destruct (Z.eqb_spec x (-1)) as [->|Hne]; simpl.
  - wp_steps. by rewrite zset_same in HQ.
  - wp_steps. apply wp_int32; [tauto|]. apply wp_upd; [by eapply zget_range|]. done.
Qed.

Lemma scale_nonneg f d : (0 ≤ d → 0 ≤ f d) → -1 ≤ d → scale f d = -1 ↔ d = -1.
Proof. intros Hf Hd. unfold scale. destruct (Z.eqb_spec d (-1)); [lia|]. lia. Qed.

Lemma scale_undo f g d : -1 ≤ d → (0 ≤ d → 0 ≤ f d) → (0 ≤ d → g (f d) = d) →
  scale g (scale f d) = d.
Proof.
  intros Hd Hf Hg. unfold scale. destruct (Z.eqb_spec d (-1)) as [->|Hne]; [done|].
  rewrite (proj2 (Z.eqb_neq _ _)) by lia. apply Hg. lia.
Qed.

(** [SpaceToDepth] on a shape in range. *)
Section spatial.
Context (b hh w d bs : Z).
Hypothesis Hbs : 0 < bs.

Lemma InferSpaceToDepth_exact op rest st :
  GetTflOptions op = SpaceToDepthOptions bs → output_shapes st ≠ [] →
  is_int32 hh → is_int32 w → (d = -1 ∨ is_int32 (d * bs) ∧ is_int32 (d * bs * bs)) →
  wp (InferSpaceToDepth op ([b; hh; w; d] :: rest))
    (λ _ s', ((hh = -1 ∨ Z.rem hh bs = 0) ∧ (w = -1 ∨ Z.rem w bs = 0)) ∧
       s' = with_output 0 [b; scale (λ x, Z.quot x bs) hh; scale (λ x, Z.quot x bs) w;
                           scale (λ x, x * bs * bs) d] st)
    (λ s', ¬ ((hh = -1 ∨ Z.rem hh bs = 0) ∧ (w = -1 ∨ Z.rem w bs = 0)) ∧ s' = failed Failed st) st.
Proof.
  intros Hop Hst Hh Hw Hd. unfold InferSpaceToDepth. rewrite Hop. wp_steps.
  eapply wp_at; [done|]. wp_steps. apply wp_require; [intros _|intros Hn%negb_false_iff%Z.leb_le; lia].
  wp_steps. do 3 (eapply wp_at; [done|]; wp_steps).
  apply (wp_post _ (λ out s, s = st ∧ out = [b; hh; w; scale (λ x, x * bs * bs) d])); [intros out s [-> ->]|].
  2:
  { unfold scale. destruct (Z.eqb_spec d (-1)) as [->|Hne]; simpl; wp_steps; [done|].
    apply wp_int32; [tauto|]. wp_steps. apply wp_int32; [tauto|]. apply wp_upd; [simpl; lia|done]. }
  wp_steps. apply wp_divide_dim; [done|done|done| |]; [intros Hh0|intros Hh0; tauto]. wp_steps.
  apply wp_divide_dim; [done|done|done| |]; [intros Hw0|intros Hw0; tauto]. wp_steps.
  apply wp_set_output; [by apply outputs_nonempty|]. tauto.
Qed.

Lemma InferDepthToSpace_exact op rest st :
  GetTflOptions op = DepthToSpaceOptions bs → output_shapes st ≠ [] →
  (hh = -1 ∨ is_int32 (hh * bs)) → (w = -1 ∨ is_int32 (w * bs)) → is_int32 d → is_int32 (bs * bs) →
  wp (InferDepthToSpace op ([b; hh; w; d] :: rest))
    (λ _ s', (d = -1 ∨ Z.rem d (bs * bs) = 0) ∧
       s' = with_output 0 [b; scale (λ x, x * bs) hh; scale (λ x, x * bs) w;
                           scale (λ x, Z.quot x (bs * bs)) d] st)
    (λ s', ¬ (d = -1 ∨ Z.rem d (bs * bs) = 0) ∧ s' = failed Failed st) st.
Proof.
  intros Hop Hst Hh Hw Hd Hbb. unfold InferDepthToSpace. rewrite Hop. wp_steps.
  eapply wp_at; [done|]. wp_steps. apply wp_require; [intros _|intros Hn%negb_false_iff%Z.leb_le; lia].
  wp_steps. do 3 (eapply wp_at; [done|]; wp_steps).
  apply (wp_post _ (λ out s, s = st ∧ (d = -1 ∨ Z.rem d (bs * bs) = 0) ∧
    out = [b; hh; w; scale (λ x, Z.quot x (bs * bs)) d])); [intros out s (-> & Hd0 & ->)|].
  2:  { pose proof (wp_divide_dim [b; hh; w; d] 3 d (bs * bs)
      (λ out s, s = st ∧ (d = -1 ∨ Z.rem d (bs * bs) = 0) ∧
        out = [b; hh; w; scale (λ x, Z.quot x (bs * bs)) d])
      (λ s', ¬ (d = -1 ∨ Z.rem d (bs * bs) = 0) ∧ s' = failed Failed st) st) as Hdiv.
    destruct (Z.eqb_spec d (-1)) as [Heq|Hne]; simpl in *.
    - apply Hdiv; [nia|done|done|done|done].
    - wp_steps. apply wp_int32; [done|]. apply Hdiv; [nia|done|done|done|done]. }
  wp_steps. apply wp_multiply_dim; [done|done|]. wp_steps.
  apply wp_multiply_dim; [done|done|]. wp_steps.
  apply wp_set_output; [by apply outputs_nonempty|]. tauto.
Qed.
End spatial.

Lemma rem_0_mul x bs : 0 < bs → Z.rem x bs = 0 → Z.quot x bs * bs = x.
Proof. intros Hbs Hr. pose proof (Z.quot_rem' x bs). lia. Qed.

(** [InferSpaceToDepth] divides height and width by the block size and
    multiplies the depth by its square, dynamic dimensions staying dynamic, and
    [InferDepthToSpace] with the same block size gives the original shape back;
    a height or width that is not a multiple of the block size is an error. *)
Theorem SpaceToDepth_DepthToSpace b hh w d bs op1 op2 rest rest' st :
  GetTflOptions op1 = SpaceToDepthOptions bs → GetTflOptions op2 = DepthToSpaceOptions bs →
  output_shapes st ≠ [] → 0 < bs → is_int32 (bs * bs) →
  -1 ≤ hh ≤ int32_max → -1 ≤ w ≤ int32_max → -1 ≤ d → d * bs * bs ≤ int32_max →
  if decide ((hh = -1 ∨ Z.rem hh bs = 0) ∧ (w = -1 ∨ Z.rem w bs = 0)) then
    let out := [b; scale (λ x, Z.quot x bs) hh; scale (λ x, Z.quot x bs) w;
                scale (λ x, x * bs * bs) d] in
    InferSpaceToDepth op1 ([b; hh; w; d] :: rest) st = Done tt (with_output 0 out st) ∧
    InferDepthToSpace op2 (out :: rest') st = Done tt (with_output 0 [b; hh; w; d] st)
  else InferSpaceToDepth op1 ([b; hh; w; d] :: rest) st = Error (failed Failed st).
Proof.
  intros Hop1 Hop2 Hst Hbs Hbb Hh Hw Hd Hdb.
  assert (∀ x, -1 ≤ x ≤ int32_max → is_int32 x) as Hint by (unfold is_int32, int32_min; lia).
  assert (is_int32 bs) as Hbs32 by (unfold is_int32, int32_min in *; nia).
  assert (d = -1 ∨ is_int32 (d * bs) ∧ is_int32 (d * bs * bs)) as Hd'.
  { destruct (decide (d = -1)); [by left|right]. split; apply Hint; nia. }
  pose proof (InferSpaceToDepth_exact b hh w d bs Hbs op1 rest st Hop1 Hst (Hint _ Hh) (Hint _ Hw) Hd')
    as Hwp.
  assert (∀ x, 0 ≤ x → 0 ≤ Z.quot x bs) as Hq by (intros; apply Z.quot_pos; lia).
  case_decide as Hok.
  - split.
    + apply wp_run_done. eapply wp_mono; [exact Hwp| |]; simpl; [by intros [] s' [_ ->]|tauto].
    + assert (∀ x, -1 ≤ x ≤ int32_max → x = -1 ∨ Z.rem x bs = 0 →
        scale (λ x, Z.quot x bs) x = -1 ∨ is_int32 (scale (λ x, Z.quot x bs) x * bs)) as Hback.
      { intros x Hx Hr. unfold scale. destruct (Z.eqb_spec x (-1)); [by left|right].
        rewrite rem_0_mul by (done || tauto). auto. }
      assert (-1 ≤ scale (λ x, x * bs * bs) d ≤ int32_max) as Hd2
        by (unfold scale; destruct (Z.eqb_spec d (-1)); [unfold int32_max; lia|];
            assert (0 ≤ d * bs * bs) by (repeat apply Z.mul_nonneg_nonneg; lia); lia).
      pose proof (InferDepthToSpace_exact b (scale (λ x, Z.quot x bs) hh) (scale (λ x, Z.quot x bs) w)
        (scale (λ x, x * bs * bs) d) bs Hbs op2 rest' st Hop2 Hst (Hback hh Hh (proj1 Hok))
        (Hback w Hw (proj2 Hok)) (Hint _ Hd2) Hbb) as Hwp2.
      assert (d = -1 ∨ 0 ≤ d) as Hd0 by lia.
      assert (∀ x, 0 ≤ x → Z.rem (x * bs * bs) (bs * bs) = 0 ∧ Z.quot (x * bs * bs) (bs * bs) = x) as Hbs2.
      { intros x Hx. rewrite <- Z.mul_assoc. split; [apply Z.rem_mul; nia|apply Z.quot_mul; nia]. }
      apply wp_run_done. eapply wp_mono; [exact Hwp2| |]; simpl.
      * intros [] s' [_ ->]. split; [done|].
        assert (∀ x, -1 ≤ x → x = -1 ∨ Z.rem x bs = 0 →
          scale (λ x, x * bs) (scale (λ x, Z.quot x bs) x) = x) as Hundo.
        { intros x Hx Hr. apply scale_undo; [done|auto|]. intros Hx0. apply rem_0_mul; [done|].
          destruct Hr; [lia|done]. }
        rewrite !Hundo by tauto. rewrite scale_undo; [done|done|intros; nia|]. intros Hx. by apply Hbs2.
      * intros s' [Hn _]. apply Hn. unfold scale. destruct (Z.eqb_spec d (-1)); [by left|right].
        apply Hbs2. lia.
  - apply wp_run_error. eapply wp_mono; [exact Hwp| |]; simpl; [tauto|by intros s' [_ ->]].
Qed.

(** ** Packing and unpacking *)

Definition norm (axis rank : Z) : Z := if axis <? 0 then axis + rank else axis.

Lemma for_each_require (l : list Dims) (p : Dims → bool) err Q E s :
  (Forall (λ x, p x = true) l → Q tt s) →
  (¬ Forall (λ x, p x = true) l → E (failed err s)) →
  wp (for_each l (λ x, require (p x) err)) Q E s.
Proof.
  revert Q. induction l as [|x l IH]; intros Q HQ HE; simpl; [apply wp_ret; by apply HQ|].
  apply wp_bind, wp_require; intros Hx.
  - apply IH; [intros Hl; apply HQ; by constructor|].
    intros Hl. apply HE. by intros [_ ?]%Forall_cons.
  - apply HE. intros [Hx' _]%Forall_cons. congruence.
Qed.

(** Packing inserts the number of inputs as a new dimension at the axis,
    counted from the end when negative, takes the other dimensions from the first
    input and fails when a rank differs; unpacking the result along the same axis
    gives each output the first input's shape. The other dimensions of the inputs
    are not compared. *)
Theorem InferPack_InferUnpack op1 op2 s0 rest axis st st2 n :
  GetTflOptions op1 = PackOptions axis → GetTflOptions op2 = UnpackOptions n axis →
  n = zlen (s0 :: rest) → n ≤ int32_max → 0 ≤ norm axis (zlen s0 + 1) ≤ zlen s0 →
  output_shapes st ≠ [] → zlen (output_shapes st2) = n →
  let a := Z.to_nat (norm axis (zlen s0 + 1)) in
  let out := take a s0 ++ n :: drop a s0 in
  (if decide (Forall (λ s, length s = length s0) rest) then
     InferPack op1 (s0 :: rest) st = Done tt (with_output 0 out st)
   else InferPack op1 (s0 :: rest) st = Error (failed InvalidArgument st)) ∧
  InferUnpack op2 [out] st2 = Done tt (set_output_shapes (replicate (Z.to_nat n) s0) st2).
Proof.
  intros Hop1 Hop2 Hn Hnmax Haxis Hst Hst2 a out. cbn [length] in Hn. split.
  - assert (wp (InferPack op1 (s0 :: rest))
      (λ _ s', Forall (λ s, length s = length s0) rest ∧ s' = with_output 0 out st)
      (λ s', ¬ Forall (λ s, length s = length s0) rest ∧ s' = failed InvalidArgument st) st) as Hwp.
    { unfold InferPack. rewrite Hop1. wp_steps. eapply wp_at; [done|]. fold (norm axis (zlen s0 + 1)).
      rewrite decide_True by done. cbn [drop]. rewrite drop_0, i32_id by (unfold is_int32, int32_min; lia).
      rewrite <- Hn. wp_steps.
      assert (Forall (λ x : Dims, (zlen x =? zlen s0) = true) rest ↔
              Forall (λ s : Dims, length s = length s0) rest) as Hiff.
      { apply Forall_iff. intros x. rewrite Z.eqb_eq. lia. }
      apply for_each_require; rewrite Hiff; intros Hall; [|done].
      apply wp_set_output; [by apply outputs_nonempty|done]. }
    case_decide; [apply wp_run_done|apply wp_run_error];
      (eapply wp_mono; [exact Hwp| |]; simpl; [intros [] s' [? ->]|intros s' [? ->]]); done || tauto.
  - assert (zlen out = zlen s0 + 1) as Hlen.
    { unfold out. rewrite length_app, length_take. cbn [length]. rewrite length_drop. lia. }
    apply wp_run_done. unfold InferUnpack. rewrite Hop2. wp_steps.
    eapply wp_at; [done|]. cbn beta iota. fold (norm axis (zlen out)). rewrite Hlen. apply wp_bind.
    apply wp_require.
    2:{ intros Hneg%negb_false_iff%orb_true_iff. rewrite Z.ltb_lt, Z.leb_le in Hneg. lia. }
    intros _. wp_steps. rewrite Hst2. apply wp_require; [intros _|by rewrite Z.eqb_refl].
    wp_steps. split; [done|]. unfold set_output_shapes. f_equal.
    replace (length (output_shapes st2)) with (Z.to_nat n) by lia. f_equal.
    unfold out. fold a. assert (length (take a s0) = a) as Hla by (rewrite length_take; lia).
    rewrite <- Hla at 1. by rewrite delete_middle, take_drop.
Qed.

(** ** Reshaping *)

(** The number of elements, and the product of the dimensions that are given. *)
Definition known_volume (s : Dims) : Z := foldr (λ d a, if d =? -1 then a else d * a) 1 s.

Lemma known_volume_app l k : known_volume (l ++ k) = known_volume l * known_volume k.
Proof.
  unfold known_volume. induction l as [|x l IH]; [simpl; lia|].
  cbn [foldr app]. rewrite IH. destruct (x =? -1); lia.
Qed.

Lemma known_volume_one d : known_volume [d] = if d =? -1 then 1 else d.
Proof. unfold known_volume. cbn [foldr]. destruct (d =? -1); lia. Qed.

Lemma known_volume_static s : Forall (λ d, 0 < d) s → known_volume s = volume s.
Proof.
  unfold known_volume, volume. induction 1 as [|x s Hx Hs IH]; [done|]. cbn [foldr].
  rewrite IH, (proj2 (Z.eqb_neq x (-1))) by lia. done.
Qed.

Lemma known_volume_pos s : Forall (λ d, d = -1 ∨ 0 < d) s → 0 < known_volume s.
Proof.
  unfold known_volume. induction 1 as [|x s Hx Hs IH]; [simpl; lia|]. cbn [foldr].
  destruct (Z.eqb_spec x (-1)); nia.
Qed.

Lemma known_volume_take s k : Forall (λ d, d = -1 ∨ 0 < d) s →
  known_volume (take k s) ≤ known_volume s.
Proof.
  intros Hs. rewrite <- (take_drop k s) at 2. rewrite known_volume_app.
  pose proof (known_volume_pos (take k s) (Forall_take _ _ _ Hs)).
  pose proof (known_volume_pos (drop k s) (Forall_drop _ _ _ Hs)). nia.
Qed.

Lemma wp_static_product s p (Q : option Z → infer_state → Prop) E st :
  Forall (λ d, 0 < d) s → 0 < p → p * volume s ≤ int64_max → Q (Some (p * volume s)) st →
  wp (static_product s p) Q E st.
Proof.
  intros Hs. revert p. induction Hs as [|d s Hd Hs IH]; intros p Hp Hle HQ; simpl.
  - wp_steps. unfold volume in HQ. simpl in HQ. by rewrite Z.mul_1_r in HQ.
  - rewrite (proj2 (Z.eqb_neq d (-1))) by lia. pose proof (volume_pos s Hs).
    unfold volume in Hle, HQ. cbn [foldr] in Hle, HQ. fold (volume s) in Hle, HQ.
    rewrite Z.mul_assoc in Hle, HQ. wp_steps. apply wp_int64.
    + unfold int64_min. nia.
    + apply IH; [nia|done|done].
Qed.

(** The scan of the target: [idx k] is the index of the unknown dimension after
    [k] dimensions. *)
Lemma wp_scan shape (idx : nat → Z) (Q : Z * Z → infer_state → Prop) E st :
  Forall (λ d, d = -1 ∨ 0 < d) shape → known_volume shape ≤ int64_max → idx 0%nat = -1 →
  (∀ k d, shape !! k = Some d →
     if d =? -1 then idx k = -1 ∧ idx (S k) = Z.of_nat k else idx (S k) = idx k) →
  Q (idx (length shape), known_volume shape) st →
  wp (fold_m (range 0 (zlen shape)) (-1, 1) (scan_new_shape shape)) Q E st.
Proof.
  intros Hs Hmax H0 Hidx HQ.
  apply wp_fold_pure with (I := λ done acc, acc = (idx (length done), known_volume (take (length done) shape))).
  - simpl. by rewrite H0.
  - intros done i todo acc Hl ->. apply range_split in Hl as [-> Hi].
    destruct (zget_is_Some shape (zlen done)) as [d Hd]; [lia|].
    pose proof Hd as [_ Hd']%zget_Some. rewrite Nat2Z.id in Hd'. specialize (Hidx _ _ Hd').
    unfold scan_new_shape. wp_steps. eapply wp_at; [exact Hd|].
    rewrite length_app. cbn [length]. rewrite Nat.add_1_r, (take_S_r _ _ _ Hd'), known_volume_app.
    rewrite known_volume_one. destruct (Z.eqb_spec d (-1)) as [Heq|Hne].
    + destruct Hidx as [Hi1 Hi2]. apply wp_bind, wp_require; rewrite Hi1; [intros _|done].
      wp_steps. split; [done|]. rewrite Hi2. f_equal. lia.
    + assert (known_volume (take (S (length done)) shape) ≤ known_volume shape) as Hle
        by by apply known_volume_take.
      assert (0 < known_volume (take (S (length done)) shape)) as Hpos
        by by apply known_volume_pos, Forall_take.
      rewrite (take_S_r _ _ _ Hd'), known_volume_app, known_volume_one in Hle, Hpos.
      rewrite (proj2 (Z.eqb_neq d (-1))) in Hle, Hpos by done.
      wp_steps. apply wp_int64; [unfold int64_min; lia|]. wp_steps. by rewrite Hidx.
  - intros acc ->. unfold range. rewrite length_seqZ, Z.sub_0_r, Nat2Z.id.
    by rewrite firstn_all.
Qed.

Section reshape.
Context (h : ir) (op : LiteRtOpT) (shape : Dims).
Hypothesis Hop : 2 ≤ zlen (Inputs op).
Hypothesis Hc : constant_input h op 1 (encode_all 4 shape).
Hypothesis Hshape : shape ≠ [].
Hypothesis Hint : Forall is_int32 shape.

Lemma wp_reshape_target Q E st : Q shape st → wp (reshape_target h op) Q E st.
Proof.
  intros HQ. unfold reshape_target. rewrite (proj2 (Z.leb_le 2 _)) by done. wp_steps.
  eapply wp_input_buffer; [exact Hc|]. rewrite encode_all_length.
  assert (length shape ≠ 0%nat) by (by destruct shape).
  rewrite (proj2 (Z.leb_le 4 _)) by lia. rewrite Nat2Z.inj_mul, Z.mul_comm, Z.mod_mul, Z.div_mul by lia.
  wp_steps. by apply wp_int32s.
Qed.
End reshape.

Lemma unknown_int32 l1 l2 :
  Forall (λ d, 0 < d ≤ int32_max) (l1 ++ l2) → Forall is_int32 (l1 ++ -1 :: l2).
Proof.
  intros [H1 H2]%Forall_app. apply Forall_app. split; [|constructor].
  - eapply Forall_impl; [exact H1|]. simpl. unfold is_int32, int32_min. lia.
  - unfold is_int32, int32_min, int32_max. lia.
  - eapply Forall_impl; [exact H2|]. simpl. unfold is_int32, int32_min. lia.
Qed.

Lemma wp_scan_unknown l1 l2 (Q : Z * Z → infer_state → Prop) E st :
  Forall (λ d, 0 < d) (l1 ++ l2) → volume (l1 ++ l2) ≤ int64_max →
  Q (zlen l1, volume (l1 ++ l2)) st →
  wp (fold_m (range 0 (zlen (l1 ++ -1 :: l2))) (-1, 1) (scan_new_shape (l1 ++ -1 :: l2))) Q E st.
Proof.
  intros Hl Hmax HQ. apply Forall_app in Hl as [H1 H2].
  assert (known_volume (l1 ++ -1 :: l2) = volume (l1 ++ l2)) as Hv.
  { rewrite known_volume_app, volume_app. unfold known_volume at 2. cbn [foldr]. fold (known_volume l2).
    by rewrite !known_volume_static. }
  apply wp_scan with (idx := λ k, if decide (length l1 < k)%nat then zlen l1 else -1).
  - apply Forall_app. split; [|constructor; [by left|]];
      (eapply Forall_impl; [eassumption|]; simpl; tauto).
  - by rewrite Hv.
  - rewrite decide_False by lia. done.
  - intros k d Hd. destruct (decide (k = length l1)) as [->|Hk].
    + rewrite lookup_split in Hd. simplify_eq. simpl. rewrite decide_False, decide_True by lia. done.
    + assert (d ≠ -1) as Hne.
      { destruct (decide (k < length l1)%nat).
        - rewrite lookup_app_l in Hd by done. pose proof (Forall_lookup_1 _ _ _ _ H1 Hd). simpl in *. lia.
        - rewrite lookup_app_r in Hd by lia. destruct (k - length l1)%nat as [|j] eqn:Hj; [lia|].
          simpl in Hd. pose proof (Forall_lookup_1 _ _ _ _ H2 Hd). simpl in *. lia. }
      rewrite (proj2 (Z.eqb_neq d (-1))) by done. repeat case_decide; lia.
  - rewrite Hv, decide_True; [done|]. rewrite length_app. cbn [length]. lia.
Qed.

(** Reshaping a static shape to a constant target with one unknown
    dimension fills in the quotient of the volumes, so that the volume is kept,
    and fails when the division has a remainder; a target without an unknown
    dimension is taken as it is, whatever its volume. *)
Theorem InferReshape_volume h op s rest l1 l2 st :
  2 ≤ zlen (Inputs op) → output_shapes st ≠ [] →
  Forall (λ d, 0 < d ≤ int32_max) s → Forall (λ d, 0 < d ≤ int32_max) (l1 ++ l2) →
  volume s ≤ int32_max → volume (l1 ++ l2) ≤ int64_max →
  (constant_input h op 1 (encode_all 4 (l1 ++ -1 :: l2)) →
   if decide (Z.rem (volume s) (volume (l1 ++ l2)) = 0) then
     let out := l1 ++ Z.quot (volume s) (volume (l1 ++ l2)) :: l2 in
     InferReshape h op (s :: rest) st = Done tt (with_output 0 out st) ∧ volume out = volume s
   else InferReshape h op (s :: rest) st = Error (failed Failed st)) ∧
  (l1 ++ l2 ≠ [] → constant_input h op 1 (encode_all 4 (l1 ++ l2)) →
   InferReshape h op (s :: rest) st = Done tt (with_output 0 (l1 ++ l2) st)).
Proof.
  intros Hop Hst Hs Hl Hvs Hvl.
  assert (Forall (λ d, 0 < d) s) as Hs0 by (eapply Forall_impl; [exact Hs|]; simpl; lia).
  assert (Forall (λ d, 0 < d) (l1 ++ l2)) as Hl0 by (eapply Forall_impl; [exact Hl|]; simpl; lia).
  pose proof (volume_pos _ Hs0) as Hvs0. pose proof (volume_pos _ Hl0) as Hvl0. split.
  - intros Hc. set (q := Z.quot (volume s) (volume (l1 ++ l2))).
    assert (is_int32 q) as Hq by (apply quot_int32; [unfold is_int32, int32_min|]; lia).
    assert (wp (InferReshape h op (s :: rest))
      (λ _ s', Z.rem (volume s) (volume (l1 ++ l2)) = 0 ∧ s' = with_output 0 (l1 ++ q :: l2) st)
      (λ s', Z.rem (volume s) (volume (l1 ++ l2)) ≠ 0 ∧ s' = failed Failed st) st) as Hwp.
    { unfold InferReshape. wp_steps. apply (wp_reshape_target h op (l1 ++ -1 :: l2)); [done|done| | |].
      - by destruct l1.
      - by apply unknown_int32.
      - wp_steps. apply (wp_scan_unknown l1 l2); [done|done|]. wp_steps.
        rewrite (proj2 (Z.eqb_neq (zlen l1) (-1))) by lia. simpl. wp_steps. eapply wp_at; [done|].
        wp_steps. apply wp_static_product; [done|lia|unfold int64_max, int32_max in *; lia|].
        rewrite Z.mul_1_l. apply wp_bind. unfold rem64. rewrite (proj2 (Z.eqb_neq _ 0)) by lia.
        wp_steps. apply wp_int64; [unfold is_int32, int32_min, int32_max, int64_min, int64_max in *; fold q; lia|].
        wp_steps. apply wp_require; [intros Hr%Z.eqb_eq|by intros Hr%Z.eqb_neq]. wp_steps.
        unfold div64. rewrite (proj2 (Z.eqb_neq _ 0)) by lia.
        apply wp_int64; [unfold is_int32, int32_min, int32_max, int64_min, int64_max in *; fold q; lia|].
        fold q. rewrite i32_id by done. apply wp_upd; [rewrite length_app; cbn [length]; lia|].
        unfold zset. rewrite Nat2Z.id, insert_app_r_alt, Nat.sub_diag by done. wp_steps.
        apply wp_set_output; [by apply outputs_nonempty|done]. }
    case_decide as Hr; [split; [apply wp_run_done|]|apply wp_run_error].
    + eapply wp_mono; [exact Hwp| |]; simpl; [by intros [] s' [_ ->]|tauto].
    + rewrite volume_app. unfold volume at 2. cbn [foldr]. fold (volume l2).
      pose proof (rem_0_mul _ _ Hvl0 Hr) as Hmul. fold q in Hmul. rewrite volume_app in Hmul.
      rewrite <- Hmul. ring.
    + eapply wp_mono; [exact Hwp| |]; simpl; [tauto|by intros s' [_ ->]].
  - intros Hne Hc. apply wp_run_done. unfold InferReshape. wp_steps.
    apply (wp_reshape_target h op (l1 ++ l2)); [done|done|done| |].
    + eapply Forall_impl; [exact Hl|]. simpl. unfold is_int32, int32_min. lia.
    + wp_steps. apply wp_scan with (idx := λ _, -1); [| |done| |].
      * eapply Forall_impl; [exact Hl0|]. simpl. tauto.
      * by rewrite known_volume_static.
      * intros k d Hd. rewrite (proj2 (Z.eqb_neq d (-1))); [done|].
        pose proof (Forall_lookup_1 _ _ _ _ Hl0 Hd). simpl in *. lia.
      * wp_steps. apply wp_set_output; [by apply outputs_nonempty|done].
Qed.


(** ** Concrete operations, and witnesses *)

Definition one_output : infer_state := {| output_shapes := [[]]; status := kLiteRtStatusOk |}.

(** An operation with the options and constant inputs in [heap_of]. *)
Definition op_with (options : TflOptions) (n : nat) : LiteRtOpT :=
  {| OpCode := kLiteRtOpCodeTflAdd; Inputs := seq 1 n; Outputs := [9%nat]; CustomOptions := [];
     TflOpCodeInd := 0; GetTflOptions := options |}.

Definition heap_of (buffers : list (list Z)) : ir :=
  {| tensor_heap := list_to_map (zip (seq 1 (length buffers))
       ((λ w, {| Users := []; UserArgInds := []; DefiningOp := nullptr; DefiningOpOutInd := 0;
                 Weights := w; Type_ := kLiteRtRankedTensorType kLiteRtElementTypeInt32 [];
                 Name := ""; TensorIndex := 0; Qparams := MakeEmptyQuantization |}) <$> buffers));
     op_heap := ∅; subgraph_heap := ∅; model_subgraphs := []; next_address := 10 |}.

Lemma constant_input_check h op i bytes :
  (zget (Inputs op) i ≫= λ t, Weights <$> tensor_heap h !! t) = Some bytes →
  constant_input h op i bytes.
Proof.
  intros Hb. apply bind_Some in Hb as (t & Ht & Hb). apply fmap_Some in Hb as (T & HT & ->).
  by exists t, T.
Qed.

Definition inverse_perms : ir := heap_of [[]; encode_all 4 [2; 0; 1]; encode_all 4 [1; 2; 0]].

Definition transpose_by (t : LiteRtTensor) : LiteRtOpT :=
  {| OpCode := kLiteRtOpCodeTflTranspose; Inputs := [1%nat; t]; Outputs := []; CustomOptions := [];
     TflOpCodeInd := 0; GetTflOptions := OtherOptions |}.

Lemma InferTranspose_inverse_witness :
  InferTranspose inverse_perms (transpose_by 2) [[5; 6; 7]; [3]] one_output =
    Done tt (with_output 0 [7; 5; 6] one_output) ∧
  InferTranspose inverse_perms (transpose_by 3) [[7; 5; 6]; [3]] one_output =
    Done tt (with_output 0 [5; 6; 7] one_output).
Proof.
  apply (InferTranspose_inverse inverse_perms (transpose_by 2) (transpose_by 3) [5; 6; 7] [3] []
    [2; 0; 1] [1; 2; 0] one_output).
  - by apply constant_input_check.
  - by apply constant_input_check.
  - done.
  - by vm_compute.
  - done.
  - done.
  - repeat (constructor; [simpl; lia|]). constructor.
  - done.
  - intros i Hi. simpl in Hi. assert (i = 0 ∨ i = 1 ∨ i = 2) as [Hc|[Hc|Hc]] by lia; subst i;
      eexists; split; reflexivity.
Defined.

Lemma SpaceToDepth_DepthToSpace_witness :
  if decide ((4 = -1 ∨ Z.rem 4 2 = 0) ∧ (-1 = -1 ∨ Z.rem (-1) 2 = 0)) then
    InferSpaceToDepth (op_with (SpaceToDepthOptions 2) 1) [[1; 4; -1; 3]] one_output =
      Done tt (with_output 0 [1; scale (λ x, Z.quot x 2) 4; scale (λ x, Z.quot x 2) (-1);
                              scale (λ x, x * 2 * 2) 3] one_output) ∧
    InferDepthToSpace (op_with (DepthToSpaceOptions 2) 1)
      [[1; scale (λ x, Z.quot x 2) 4; scale (λ x, Z.quot x 2) (-1); scale (λ x, x * 2 * 2) 3]] one_output =
      Done tt (with_output 0 [1; 4; -1; 3] one_output)
  else InferSpaceToDepth (op_with (SpaceToDepthOptions 2) 1) [[1; 4; -1; 3]] one_output =
       Error (failed Failed one_output).
Proof.
  apply (SpaceToDepth_DepthToSpace 1 4 (-1) 3 2 (op_with (SpaceToDepthOptions 2) 1)
    (op_with (DepthToSpaceOptions 2) 1) [] [] one_output);
    first [done | by vm_compute | split; by vm_compute].
Defined.

Lemma InferPack_InferUnpack_witness :
  (if decide (Forall (λ s : Dims, length s = 2%nat) [[8; 9]]) then
     InferPack (op_with (PackOptions (-1)) 2) [[4; 5]; [8; 9]] one_output =
       Done tt (with_output 0 [4; 5; 2] one_output)
   else InferPack (op_with (PackOptions (-1)) 2) [[4; 5]; [8; 9]] one_output =
        Error (failed InvalidArgument one_output)) ∧
  InferUnpack (op_with (UnpackOptions 2 (-1)) 1) [[4; 5; 2]]
    {| output_shapes := [[]; []]; status := kLiteRtStatusOk |} =
    Done tt (set_output_shapes [[4; 5]; [4; 5]] {| output_shapes := [[]; []]; status := kLiteRtStatusOk |}).
Proof.
  apply (InferPack_InferUnpack (op_with (PackOptions (-1)) 2) (op_with (UnpackOptions 2 (-1)) 1)
    [4; 5] [[8; 9]] (-1) one_output {| output_shapes := [[]; []]; status := kLiteRtStatusOk |} 2);
    first [done | by vm_compute | split; by vm_compute].
Defined.

Lemma InferReshape_volume_witness :
  (constant_input (heap_of [[]; encode_all 4 [3; -1; 4]]) (op_with OtherOptions 2) 1 (encode_all 4 [3; -1; 4]) →
   InferReshape (heap_of [[]; encode_all 4 [3; -1; 4]]) (op_with OtherOptions 2) [[2; 12]; [3]] one_output =
     Done tt (with_output 0 [3; 2; 4] one_output) ∧ volume [3; 2; 4] = volume [2; 12]) ∧
  ([3; 4] ≠ [] →
   constant_input (heap_of [[]; encode_all 4 [3; -1; 4]]) (op_with OtherOptions 2) 1 (encode_all 4 [3; 4]) →
   InferReshape (heap_of [[]; encode_all 4 [3; -1; 4]]) (op_with OtherOptions 2) [[2; 12]; [3]] one_output =
     Done tt (with_output 0 [3; 4] one_output)).
Proof.
  apply (InferReshape_volume (heap_of [[]; encode_all 4 [3; -1; 4]]) (op_with OtherOptions 2)
    [2; 12] [[3]] [3] [4] one_output).
  - done.
  - done.
  - repeat (constructor; [unfold int32_max; lia|]). constructor.
  - repeat (constructor; [unfold int32_max; lia|]). constructor.
  - unfold int32_max. simpl. lia.
  - unfold int64_max. simpl. lia.
Defined.
