(* ===== verification/WindowShapeProofs.v ===== *)
(** * Shape inference of the sliding windows

    [ComputeOutputSize] counts the positions of a window, and a convolution that
    passes the checks of [InferConv2D] has a window that fits. *)

From S2P Require Import Prelude OpCodes LiteRtIr OpShapes ConvShapes ShapeProofs LayoutShapeProofs.

(** The extent of a dilated filter. *)
Definition extent (filter dilation : Z) : Z := (filter - 1) * dilation + 1.

(** [n] is the number of window positions along one dimension: with [VALID]
    padding those of windows inside the image, with [SAME] padding as many as
    strides start inside it. *)
Definition window_count (padding : Padding) (image filter stride dilation n : Z) : Prop :=
  match padding with
  | Padding_SAME => ∀ p, 0 ≤ p → p < n ↔ p * stride < image
  | Padding_VALID => ∀ p, 0 ≤ p → p < n ↔ p * stride + extent filter dilation ≤ image
  end.

Lemma quot_window a stride p : 0 < stride → 0 ≤ a → 0 ≤ p →
  p < Z.quot (a + stride) stride ↔ p * stride ≤ a.
Proof.
  intros Hs Ha Hp. rewrite Z.quot_div_nonneg by lia.
  replace (a + stride) with (a + 1 * stride) by lia. rewrite Z.div_add by lia.
  pose proof (Z.div_mod a stride). pose proof (Z.mod_pos_bound a stride).
  split; intros Hlt; nia.
Qed.

Lemma wp_ComputeOutputSize {T} padding image filter stride dilation (Q : Z → T → Prop) E s :
  0 < image → 0 < stride ≤ image → 1 ≤ filter → 1 ≤ dilation →
  image + stride ≤ int32_max → extent filter dilation ≤ int32_max →
  (∀ n, ((padding = Padding_VALID → extent filter dilation ≤ image) →
        1 ≤ n ∧ window_count padding image filter stride dilation n) → Q n s) →
  wp (ComputeOutputSize padding image filter stride dilation) Q E s.
Proof.
  intros Hi Hs Hf Hd Hmax Hext HQ. unfold ComputeOutputSize, extent in *.
  assert (0 ≤ (filter - 1) * dilation) by nia.
  assert (filter - 1 ≤ (filter - 1) * dilation) by nia.
  rewrite (proj2 (Z.eqb_neq image (-1))) by lia.
  assert (∀ z, - 2 ^ 31 ≤ z ≤ int32_max → is_int32 z) as Hint by done.
  wp_steps. apply wp_int32; [apply Hint; lia|]. wp_steps. apply wp_int32; [apply Hint; lia|]. wp_steps.
  apply wp_int32; [apply Hint; lia|]. unfold int32_max in *.
  destruct padding; wp_steps; (apply wp_int32; [apply Hint; lia|]); wp_steps;
    (apply wp_int32; [apply Hint; lia|]).
  - apply wp_div32; [lia|apply quot_int32; [apply Hint; lia|lia]|]. apply HQ. intros _.
    replace (image + stride - 1) with (image - 1 + stride) by lia. split.
    + pose proof (quot_window (image - 1) stride 0). lia.
    + intros p Hp. rewrite quot_window by lia. lia.
  - apply wp_div32; [lia|apply quot_int32; [apply Hint; lia|lia]|]. apply HQ. intros Hfit.
    specialize (Hfit eq_refl). split.
    + pose proof (quot_window (image - ((filter - 1) * dilation + 1)) stride 0). lia.
    + intros p Hp. unfold window_count, extent. rewrite quot_window by lia. lia.
Qed.

(** The third input, if there is one, is a vector of [oc] biases. *)
Definition bias_ok (rest : list Dims) (oc : Z) : Prop :=
  match rest with [] => True | bias :: _ => bias = [oc] end.

#[export] Instance bias_ok_dec rest oc : Decision (bias_ok rest oc).
Proof. destruct rest; simpl; apply _. Defined.

Lemma wp_check_bias s0 s1 rest oc (Q : unit → infer_state → Prop) E s :
  (bias_ok rest oc → Q tt s) → (¬ bias_ok rest oc → E (failed Failed s)) →
  wp (check_bias (s0 :: s1 :: rest) oc) Q E s.
Proof.
  intros HQ HE. unfold check_bias. cbn [length]. destruct rest as [|bias rest].
  - rewrite (proj2 (Z.leb_gt _ _)) by (cbn [length]; lia). wp_steps. by apply HQ.
  - rewrite (proj2 (Z.leb_le _ _)) by (cbn [length]; lia). wp_steps. eapply wp_at; [done|]. wp_steps.
    simpl in HQ, HE. apply wp_require; [intros Hl%Z.eqb_eq|intros Hl%Z.eqb_neq].
    + destruct bias as [|b [|]]; simpl in Hl; try lia. wp_steps. eapply wp_at; [done|]. wp_steps.
      apply wp_require; [intros ->%Z.eqb_eq; by apply HQ|]. intros Hb%Z.eqb_neq. apply HE. congruence.
    + apply HE. intros ->. done.
Qed.

Lemma orb_ltb_false a b c d : negb ((a <? b) || (c <? d)) = true ↔ b ≤ a ∧ d ≤ c.
Proof. rewrite negb_true_iff, orb_false_iff, !Z.ltb_ge. done. Qed.

Section conv2d.
Context (op : LiteRtOpT) (o : Conv2DOptionsT) (b ih iw ic oc fh fw fc : Z) (rest : list Dims).
Context (st : infer_state).

(** What [InferConv2D] asks for. *)
Definition conv2d_ok : Prop :=
  Z.rem ic fc = 0 ∧
  (0 < conv2d_stride_h o ≤ ih ∧ 0 < conv2d_stride_w o ≤ iw) ∧
  (0 < conv2d_dilation_h_factor o ∧ 0 < conv2d_dilation_w_factor o) ∧
  bias_ok rest oc ∧
  match conv2d_padding o with
  | Padding_VALID => extent fh (conv2d_dilation_h_factor o) ≤ ih ∧
                     extent fw (conv2d_dilation_w_factor o) ≤ iw
  | Padding_SAME => True
  end.

#[export] Instance conv2d_ok_dec : Decision conv2d_ok.
Proof. unfold conv2d_ok. destruct (conv2d_padding o); apply _. Defined.

Hypothesis Hop : GetTflOptions op = Conv2DOptions o.
Hypothesis Hst : output_shapes st ≠ [].
Hypothesis Hfc : fc ≠ 0 ∧ is_int32 (Z.quot ic fc).
Hypothesis Hsize : ih ≤ 2 ^ 30 - 1 ∧ iw ≤ 2 ^ 30 - 1.
Hypothesis Hfilter : 1 ≤ fh ∧ 1 ≤ fw.
Hypothesis Hextent : extent fh (conv2d_dilation_h_factor o) ≤ int32_max ∧
                     extent fw (conv2d_dilation_w_factor o) ≤ int32_max.

Lemma wp_effective f dil (Q : Z → infer_state → Prop) E s :
  1 ≤ f → 1 ≤ dil → extent f dil ≤ int32_max → Q (extent f dil) s →
  wp (effective_filter f dil) Q E s.
Proof.
  unfold effective_filter, extent. intros Hf Hd He HQ.
  assert (0 ≤ (f - 1) * dil) by nia. assert (f - 1 ≤ (f - 1) * dil) by nia.
  assert (∀ z, - 2 ^ 31 ≤ z ≤ int32_max → is_int32 z) as Hint by done.
  wp_steps. apply wp_int32; [apply Hint; lia|]. wp_steps. apply wp_int32; [apply Hint; lia|]. wp_steps.
  apply wp_int32; [apply Hint; lia|done].
Qed.


Lemma InferConv2D_spec :
  wp (InferConv2D op ([b; ih; iw; ic] :: [oc; fh; fw; fc] :: rest))
    (λ _ s', conv2d_ok ∧ ∃ oh ow, s' = with_output 0 [b; oh; ow; oc] st ∧ 1 ≤ oh ∧ 1 ≤ ow ∧
       window_count (conv2d_padding o) ih fh (conv2d_stride_h o) (conv2d_dilation_h_factor o) oh ∧
       window_count (conv2d_padding o) iw fw (conv2d_stride_w o) (conv2d_dilation_w_factor o) ow)
    (λ s', ¬ conv2d_ok ∧ s' = failed Failed st) st.
Proof.
  destruct Hfc as [Hfc0 Hq], Hsize as [Hih Hiw], Hfilter as [Hfh Hfw], Hextent as [Heh Hew].
  unfold InferConv2D. rewrite Hop. wp_steps.
  apply wp_require; [intros _|intros Hn%Z.leb_gt; lia]. wp_steps.
  do 2 (eapply wp_at; [done|]; wp_steps). do 4 (eapply wp_at; [done|]; wp_steps).
  apply wp_rem32; [done|done|]. unfold conv2d_ok. wp_steps.
  apply wp_require; [intros Hr%Z.eqb_eq|intros Hr%Z.eqb_neq; tauto]. wp_steps.
  apply wp_require; [intros Hs|intros Hs].
  2:{ split; [|done]. intros (_ & Hs' & _). apply negb_false_iff, orb_true_iff in Hs.
      rewrite !Z.leb_le in Hs. lia. }
  apply negb_true_iff, orb_false_iff in Hs as [Hsh%Z.leb_gt Hsw%Z.leb_gt]. wp_steps.
  do 2 (eapply wp_at; [done|]; wp_steps).
  apply wp_require; rewrite ?orb_ltb_false; [intros [Hsh' Hsw']|intros Hs].
  2:{ split; [|done]. intros (_ & Hs' & _). apply not_true_iff_false in Hs.
      rewrite orb_ltb_false in Hs. lia. }
  wp_steps. apply wp_require; [intros Hd|intros Hd].
  2:{ split; [|done]. intros (_ & _ & Hd' & _). apply negb_false_iff, orb_true_iff in Hd.
      rewrite !Z.leb_le in Hd. lia. }
  apply negb_true_iff, orb_false_iff in Hd as [Hdh%Z.leb_gt Hdw%Z.leb_gt]. wp_steps.
  eapply wp_at; [done|]. wp_steps. apply wp_check_bias; [intros Hb|intros Hb; tauto]. wp_steps.
  apply wp_effective; [lia|lia|lia|]. wp_steps. apply wp_effective; [lia|lia|lia|]. wp_steps.
  apply wp_ComputeOutputSize; [lia|lia|lia|lia|unfold int32_max; lia|done|]. intros oh Hoh. wp_steps.
  apply wp_ComputeOutputSize; [lia|lia|lia|lia|unfold int32_max; lia|done|]. intros ow How. wp_steps.
  apply (wp_post _ (λ _ s', s' = st ∧ match conv2d_padding o with
    | Padding_VALID => extent fh (conv2d_dilation_h_factor o) ≤ ih ∧
                       extent fw (conv2d_dilation_w_factor o) ≤ iw
    | Padding_SAME => True end)).
  - intros _ s' [-> Hfit].
    destruct Hoh as [Hoh Hch]; [intros Hp; rewrite Hp in Hfit; tauto|].
    destruct How as [How Hcw]; [intros Hp; rewrite Hp in Hfit; tauto|]. wp_steps.
    apply wp_require; [intros _|intros Hn].
    + wp_steps. eapply wp_at; [done|]. wp_steps. apply wp_set_output; [by apply outputs_nonempty|].
      split; [done|]. exists oh, ow. done.
    + exfalso. apply negb_false_iff, orb_true_iff in Hn. rewrite !Z.leb_le in Hn. lia.
  - destruct (conv2d_padding o); [by wp_steps|].
    apply wp_require; rewrite ?orb_ltb_false; [done|]. intros Hn. split; [|done].
    apply not_true_iff_false in Hn. rewrite orb_ltb_false in Hn. tauto.
Qed.

(** C22: [InferConv2D] on four-dimensional shapes, with a positive filter and
    sizes for which the window arithmetic stays in [int32_t], never has undefined
    behaviour. It succeeds exactly when the channels divide, strides are positive
    and not larger than the image, dilations are positive, the bias has one entry
    per output channel and, with [VALID] padding, the dilated filter fits; the
    output then has the batch, the positive numbers of window positions and the
    output channels. In every other case it fails and leaves the outputs alone. *)
Theorem InferConv2D_correct :
  if decide conv2d_ok then
    ∃ oh ow, InferConv2D op ([b; ih; iw; ic] :: [oc; fh; fw; fc] :: rest) st =
        Done tt (with_output 0 [b; oh; ow; oc] st) ∧ 1 ≤ oh ∧ 1 ≤ ow ∧
      window_count (conv2d_padding o) ih fh (conv2d_stride_h o) (conv2d_dilation_h_factor o) oh ∧
      window_count (conv2d_padding o) iw fw (conv2d_stride_w o) (conv2d_dilation_w_factor o) ow
  else InferConv2D op ([b; ih; iw; ic] :: [oc; fh; fw; fc] :: rest) st = Error (failed Failed st).
Proof.
  pose proof InferConv2D_spec as Hwp. case_decide as Hok.
  - unfold wp in Hwp. destruct (InferConv2D op _ st) as [[] s'|s'|]; [|by destruct Hwp|done].
    destruct Hwp as (_ & oh & ow & -> & ?). exists oh, ow. done.
  - apply wp_run_error. eapply wp_mono; [exact Hwp| |]; simpl; [tauto|by intros s' [_ ->]].
Qed.
End conv2d.

(** ** Witness, and inputs at the boundary *)

Definition conv_op (o : Conv2DOptionsT) : LiteRtOpT :=
  {| OpCode := kLiteRtOpCodeTflConv2d; Inputs := []; Outputs := [5%nat]; CustomOptions := [];
     TflOpCodeInd := 3; GetTflOptions := Conv2DOptions o |}.

Definition valid_2x2 : Conv2DOptionsT :=
  {| conv2d_padding := Padding_VALID; conv2d_stride_w := 2; conv2d_stride_h := 2;
     conv2d_dilation_w_factor := 1; conv2d_dilation_h_factor := 1 |}.

Lemma InferConv2D_correct_witness :
  if decide (conv2d_ok valid_2x2 7 8 3 16 3 3 3 []) then
    ∃ oh ow, InferConv2D (conv_op valid_2x2) [[1; 7; 8; 3]; [16; 3; 3; 3]] one_output =
        Done tt (with_output 0 [1; oh; ow; 16] one_output) ∧ 1 ≤ oh ∧ 1 ≤ ow ∧
      window_count Padding_VALID 7 3 2 1 oh ∧ window_count Padding_VALID 8 3 2 1 ow
  else InferConv2D (conv_op valid_2x2) [[1; 7; 8; 3]; [16; 3; 3; 3]] one_output =
       Error (failed Failed one_output).
Proof.
  apply (InferConv2D_correct (conv_op valid_2x2) valid_2x2 1 7 8 3 16 3 3 3 [] one_output);
    first [done | split; first [done | by vm_compute]].
Defined.

Definition pool_opts (stride filter : Z) : TflOptions :=
  Pool2DOptions {| pool_padding := Padding_VALID; pool_stride_w := stride; pool_stride_h := stride;
                   pool_filter_width := filter; pool_filter_height := filter |}.

(** Inputs that the inference functions do not guard against have undefined
    behaviour: a pooling stride of zero, a filter without channels, a target
    shape with an empty and an unknown dimension, an axis of a pack out of range,
    a fully connected layer on a scalar, and a [k] of less than four bytes. *)
Theorem unguarded_inputs :
  InferPool2D (op_with (pool_opts 0 2) 1) [[1; 4; 4; 3]] one_output = Undefined ∧
  InferConv2D (conv_op valid_2x2) [[1; 7; 8; 3]; [16; 3; 3; 0]] one_output = Undefined ∧
  InferReshape (heap_of [[]; encode_all 4 [-1; 0]]) (op_with OtherOptions 2) [[2; 3]; [2]] one_output = Undefined ∧
  InferPack (op_with (PackOptions 3) 1) [[2; 3]] one_output = Undefined ∧
  InferFullyConnected (op_with OtherOptions 2) [[]; [4; 1]] one_output = Undefined ∧
  InferTopKV2 (heap_of [[]; [2]]) (op_with OtherOptions 2) [[5]; []] one_output = Undefined.
Proof. by split_and!; vm_compute. Qed.

(** Constants of 64-bit integers are read as pairs of 32-bit ones by the
    reductions and by [InferSlice]: reducing [(2, 3, 4)] along the axis [1] also
    removes the dimension [0], and a slice of sizes [(2, 3)] gets rank four. A
    pooling window larger than the image gives a negative dimension, which for
    [-1] means a dynamic one. *)
Theorem misread_constants :
  InferReduce (heap_of [[]; encode_all 4 [1]]) (op_with (ReducerOptions false) 2) [[2; 3; 4]; [1]] one_output =
    Done tt (with_output 0 [2; 4] one_output) ∧
  InferReduce (heap_of [[]; encode_all 8 [1]]) (op_with (ReducerOptions false) 2) [[2; 3; 4]; [1]] one_output =
    Done tt (with_output 0 [4] one_output) ∧
  InferSlice (heap_of [[]; []; encode_all 8 [2; 3]]) (op_with OtherOptions 3) [[4; 4]; [2]; [2]] one_output =
    Done tt (with_output 0 [2; 0; 3; 0] one_output) ∧
  InferPool2D (op_with (pool_opts 1 4) 1) [[1; 2; 2; 3]] one_output =
    Done tt (with_output 0 [1; -1; -1; 3] one_output).
Proof. by split_and!; vm_compute. Qed.
