(* ===== verification/EngineProofs.v ===== *)
(** * Correctness of the shape inference engine

    Inference changes nothing but the shapes of tensors, validation changes
    nothing at all, and a subgraph whose shapes were inferred passes its
    validation. *)

From Stdlib Require Import FunctionalExtensionality.
From S2P Require Import Prelude OpCodes LiteRtIr OpShapes ConvShapes ShapeInference.

(** ** What a run may change

    [preserves R m]: the state after [m], whether it returns or stops with an
    error, is related to the state before it. *)

Section preserves.
Context {S : Type} (R : relation S) `{!PreOrder R}.

Definition preserves {A} (m : M S A) : Prop := ∀ s,
  match m s with Done _ s' | Error s' => R s s' | Undefined => True end.

Lemma preserves_ret {A} (a : A) : preserves (mret a).
Proof. intros s. simpl. reflexivity. Qed.

Lemma preserves_undefined {A} : preserves (@undefined S A).
Proof. by intros s. Qed.

Lemma preserves_gets {A} (f : S → A) : preserves (gets f).
Proof. intros s. simpl. reflexivity. Qed.

Lemma preserves_deref {A} (o : option A) : preserves (deref o).
Proof. destruct o; [apply preserves_ret|apply preserves_undefined]. Qed.

Lemma preserves_bind {A B} (m : M S A) (f : A → M S B) :
  preserves m → (∀ a, preserves (f a)) → preserves (m ≫= f).
Proof.
  intros Hm Hf s. specialize (Hm s). unfold mbind, M_bind. destruct (m s) as [a s'|s'|]; [|done|done].
  specialize (Hf a s'). destruct (f a s'); [by etrans|by etrans|done].
Qed.

Lemma preserves_for_each {A} (l : list A) body :
  (∀ a, preserves (body a)) → preserves (for_each l body).
Proof.
  intros Hb. induction l as [|x l IH]; simpl; [apply preserves_ret|].
  apply preserves_bind; [done|]. by intros _.
Qed.

Lemma preserves_map_m {A B} (f : A → M S B) l : (∀ a, preserves (f a)) → preserves (map_m f l).
Proof.
  intros Hf. induction l as [|x l IH]; simpl; [apply preserves_ret|].
  apply preserves_bind; [done|]. intros y. apply preserves_bind; [done|]. intros ys. apply preserves_ret.
Qed.
End preserves.

(** ** The frame of inference *)

Definition is_ranked (T : LiteRtTensorT) : Prop :=
  match Type_ T with kLiteRtRankedTensorType _ _ => True | kLiteRtUnrankedTensorType _ => False end.

Definition shape_of (T : LiteRtTensorT) : Dims :=
  match Type_ T with kLiteRtRankedTensorType _ d => d | kLiteRtUnrankedTensorType _ => [] end.

(** Only the type differs; its element type is the same, a ranked tensor stays
    ranked, and a constant keeps its shape. *)
Record retyped (T T' : LiteRtTensorT) : Prop := {
  retyped_only : T' = SetType (Type_ T') T;
  retyped_element : element_type_of T' = element_type_of T;
  retyped_ranked : is_ranked T → is_ranked T';
  retyped_constant : is_ranked T → Weights T ≠ [] → Type_ T' = Type_ T
}.

Record retyped_heap (h h' : ir) : Prop := {
  retyped_ops : op_heap h' = op_heap h;
  retyped_subgraphs : subgraph_heap h' = subgraph_heap h;
  retyped_model : model_subgraphs h' = model_subgraphs h;
  retyped_next : next_address h' = next_address h;
  retyped_tensors t : option_Forall2 retyped (tensor_heap h !! t) (tensor_heap h' !! t)
}.

Lemma retyped_refl T : retyped T T.
Proof. split; [by destruct T|done..]. Qed.

Lemma retyped_trans T1 T2 T3 : retyped T1 T2 → retyped T2 T3 → retyped T1 T3.
Proof.
  intros [H1 H2 H3 H4] [K1 K2 K3 K4]. split.
  - rewrite K1. rewrite H1 at 1. done.
  - by rewrite K2.
  - auto.
  - intros Hr Hw. rewrite K4, H4; [done|done|done|auto|]. rewrite H1. done.
Qed.

#[export] Instance retyped_heap_preorder : PreOrder retyped_heap.
Proof.
  split.
  - intros h. split; [done..|]. intros t. destruct (tensor_heap h !! t); constructor. apply retyped_refl.
  - intros h1 h2 h3 [H1 H2 H3 H4 H5] [K1 K2 K3 K4 K5]. split; [congruence..|].
    intros t. specialize (H5 t). specialize (K5 t). revert H5 K5.
    destruct (tensor_heap h1 !! t); intros H5; inversion H5; subst;
      intros K5; inversion K5; subst; constructor; by eapply retyped_trans.
Qed.

(** The relation between the states of the engine: with [validation_only] the
    heap is the same. *)
Definition engine_step (validation_only : bool) (s s' : engine_state) : Prop :=
  if validation_only then heap s' = heap s else retyped_heap (heap s) (heap s').

#[export] Instance engine_step_preorder v : PreOrder (engine_step v).
Proof.
  destruct v; split; simpl.
  - by intros s.
  - intros s1 s2 s3 H12 H23. simpl in *. congruence.
  - intros s. unfold engine_step. reflexivity.
  - intros s1 s2 s3 H12 H23. unfold engine_step in *. by etrans.
Qed.

Lemma engine_step_same v s s' : heap s' = heap s → engine_step v s s'.
Proof. intros Hs. unfold engine_step. destruct v; [done|]. rewrite Hs. reflexivity. Qed.

Section frame.
Context (reg : registry) (v : bool).

Lemma preserves_stop {A} st : preserves (engine_step v) (@stop A st).
Proof. intros s. by apply engine_step_same. Qed.

Lemma preserves_get_tensor t : preserves (engine_step v) (on_heap (get_tensor t)).
Proof.
  intros s. unfold on_heap, zoom, get_tensor, mbind, M_bind, gets.
  destruct (tensor_heap (heap s) !! t); simpl; [|done]. by apply engine_step_same.
Qed.

Lemma preserves_get_op o : preserves (engine_step v) (on_heap (get_op o)).
Proof.
  intros s. unfold on_heap, zoom, get_op, mbind, M_bind, gets.
  destruct (op_heap (heap s) !! o); simpl; [|done]. by apply engine_step_same.
Qed.

Lemma preserves_get_subgraph g : preserves (engine_step v) (on_heap (get_subgraph g)).
Proof.
  intros s. unfold on_heap, zoom, get_subgraph, mbind, M_bind, gets.
  destruct (subgraph_heap (heap s) !! g); simpl; [|done]. by apply engine_step_same.
Qed.

Lemma preserves_input_shape t : preserves (engine_step v) (input_shape_of t).
Proof.
  unfold input_shape_of. case_decide; [apply preserves_ret; apply _|].
  apply preserves_bind; [apply _|apply preserves_get_tensor|]. intros T.
  destruct (Type_ T); [apply preserves_ret; apply _|apply preserves_stop].
Qed.
End frame.

(** Setting the shape of a tensor that is what the heap holds. *)
Lemma set_shape_step t shape s :
  match (T ← on_heap (get_tensor t); check_constant T shape ;; set_shape t T shape) s with
  | Done _ s' | Error s' => retyped_heap (heap s) (heap s')
  | Undefined => True
  end.
Proof.
  unfold on_heap, zoom, get_tensor, mbind, M_bind, gets. simpl.
  destruct (tensor_heap (heap s) !! t) as [T|] eqn:HT; simpl; [|done].
  assert (set_heap (heap s) s = s) as Hid by by destruct s.
  unfold check_constant. rewrite Hid.
  assert (∀ (b : bool), (b = true → is_ranked T → Weights T ≠ [] → shape_of T = shape) →
    match (if b then set_shape t T shape s else stop (A := unit) Failed s) with
    | Done _ s' | Error s' => retyped_heap (heap s) (heap s') | Undefined => True end) as Hset.
  { intros [|] Hconst; [|simpl; reflexivity]. unfold set_shape, MakeRankedTensorType, mbind, M_bind.
    case_decide as He; [|simpl; reflexivity].
    destruct (zlen shape <=? LITERT_TENSOR_MAX_RANK); simpl; [|done].
    split; simpl; [done..|]. intros t'. destruct (decide (t' = t)) as [->|Hne].
    - rewrite lookup_insert_eq, HT. constructor. split; simpl; [done|done|done|].
      intros Hr Hw. specialize (Hconst eq_refl Hr Hw). unfold is_ranked, shape_of, element_type_of in *.
      destruct (Type_ T); [by subst|done].
    - rewrite lookup_insert_ne by done. destruct (tensor_heap (heap s) !! t'); constructor. apply retyped_refl. }
  destruct (Z.ltb_spec 0 (zlen (Weights T))) as [Hw|Hw].
  - destruct (Type_ T) as [e existing|e] eqn:HTy.
    + pose proof (Hset (bool_decide (existing = shape))) as Hs. case_decide as Heq.
      * rewrite bool_decide_eq_true_2 in Hs by done. apply Hs. intros _ _ _. unfold shape_of. by rewrite HTy.
      * rewrite bool_decide_eq_false_2 in Hs by done. by apply Hs.
    + apply (Hset true). unfold is_ranked. by rewrite HTy.
  - apply (Hset true). intros _ _ Hne. destruct (Weights T); [done|simpl in Hw; lia].
Qed.

Lemma preserves_set_shape t shape : preserves (engine_step false)
  (T ← on_heap (get_tensor t); check_constant T shape ;; set_shape t T shape).
Proof. intros s. apply set_shape_step. Qed.

Section frame_of_engine.
Context (reg : registry) (v : bool).

Lemma preserves_infer_output op shapes i : preserves (engine_step v) (infer_output v op shapes i).
Proof.
  unfold infer_output. apply preserves_bind; [apply _|apply preserves_deref; apply _|]. intros t.
  destruct (zget shapes i) as [shape|]; [|apply preserves_ret; apply _].
  case_decide; [apply preserves_ret; apply _|]. destruct v; [|apply preserves_set_shape].
  apply preserves_bind; [apply _|apply preserves_get_tensor|]. intros T. unfold validate_output_shape.
  destruct (Type_ T); [destruct (dims_agree _ _)|]; first [apply preserves_ret; apply _|apply preserves_stop].
Qed.

Lemma preserves_InferOpShapes o : preserves (engine_step v) (InferOpShapes reg v o).
Proof.
  unfold InferOpShapes. apply preserves_bind; [apply _|apply preserves_get_op|]. intros op.
  apply preserves_bind; [apply _|apply preserves_map_m; [apply _|apply preserves_input_shape]|]. intros ins.
  apply preserves_bind; [apply _|apply preserves_gets; apply _|]. intros h.
  destruct (InferOpShapes_pure reg h op ins _) as [[[] shapes]|]; try apply preserves_stop.
  - apply preserves_for_each; [apply _|]. apply preserves_infer_output.
  - apply preserves_undefined.
Qed.

Lemma preserves_InferSubgraphShapes g : preserves (engine_step v) (InferSubgraphShapes reg v g).
Proof.
  unfold InferSubgraphShapes. apply preserves_bind; [apply _|apply preserves_get_subgraph|]. intros G.
  apply preserves_for_each; [apply _|]. apply preserves_InferOpShapes.
Qed.
End frame_of_engine.

(** C20: inference over a model, with whatever inference functions, whether it
    succeeds or stops with an error, keeps the operations, the subgraphs and the
    edges, and of each tensor changes at most the shape: the element type, the
    weights and the name stay, a ranked tensor stays ranked and a constant keeps
    its shape. With [validation_only] the heap is the same afterwards. *)
Theorem InferShapes_types reg validation_only s :
  match InferShapes reg validation_only s with
  | Done _ s' | Error s' =>
      retyped_heap (heap s) (heap s') ∧ (validation_only = true → heap s' = heap s)
  | Undefined => True
  end.
Proof.
  assert (preserves (engine_step validation_only) (InferShapes reg validation_only)) as Hp.
  { unfold InferShapes. apply preserves_bind; [apply _|apply preserves_gets; apply _|]. intros gs.
    apply preserves_for_each; [apply _|]. apply preserves_InferSubgraphShapes. }
  specialize (Hp s). unfold engine_step in Hp.
  destruct (InferShapes reg validation_only s) as [a s'|s'|]; [| |done]; destruct validation_only;
    (split; [rewrite ?Hp; first [exact Hp|reflexivity]|done]).
Qed.

(** ** Inference functions that only read their inputs *)

Definition stable (f : OpShapeInferrer) : Prop := ∀ h h' op ins,
  (∀ t, t ∈ Inputs op → tensor_heap h !! t = tensor_heap h' !! t) → f h op ins = f h' op ins.

(** What validation relies on: every registered function reads no other tensor
    than the inputs of its operation. *)
Class StableRegistry (reg : registry) : Prop :=
  stable_infer c f : reg !! c = Some f → stable f.

Lemma op_input_stable h h' op : (∀ t, t ∈ Inputs op → tensor_heap h !! t = tensor_heap h' !! t) →
  op_input h op = op_input h' op.
Proof.
  intros Ht. apply functional_extensionality. intros i. unfold op_input, at_.
  destruct (zget (Inputs op) i) as [t|] eqn:Hi; [|done].
  apply functional_extensionality. intros s. unfold deref, mbind, M_bind. simpl.
  by rewrite (Ht t) by (by eapply zget_elem).
Qed.

Lemma stable_of_shapes f : stable (of_shapes f).
Proof. done. Qed.
Lemma stable_of_op f : stable (of_op f).
Proof. done. Qed.

Ltac stable_by f :=
  intros h h' op ins Hh; unfold f, input_buffer; rewrite (op_input_stable h h' op Hh); reflexivity.

Create HintDb stable.
#[local] Hint Resolve stable_of_shapes stable_of_op : stable.

Lemma stable_reduction k : stable (λ h op ins, InferGenericReduction h op ins k).
Proof. stable_by InferGenericReduction. Qed.
Lemma stable_InferReduce : stable InferReduce.
Proof. intros h h' op ins Hh. apply (stable_reduction _ h h' op ins Hh). Qed.
Lemma stable_InferArgMinMax : stable InferArgMinMax.
Proof. intros h h' op ins Hh. apply (stable_reduction _ h h' op ins Hh). Qed.
Lemma stable_InferReshape : stable InferReshape.
Proof.
  intros h h' op ins Hh. unfold InferReshape, reshape_target, input_buffer.
  by rewrite (op_input_stable h h' op Hh).
Qed.
Lemma stable_InferBroadcastTo : stable InferBroadcastTo.
Proof. stable_by InferBroadcastTo. Qed.
Lemma stable_InferPad : stable InferPad.
Proof. stable_by InferPad. Qed.
Lemma stable_InferSlice : stable InferSlice.
Proof. stable_by InferSlice. Qed.
Lemma stable_InferResizeOp : stable InferResizeOp.
Proof. stable_by InferResizeOp. Qed.
Lemma stable_InferTopKV2 : stable InferTopKV2.
Proof. stable_by InferTopKV2. Qed.
Lemma stable_InferTranspose : stable InferTranspose.
Proof. stable_by InferTranspose. Qed.
Lemma stable_InferTransposeConv : stable InferTransposeConv.
Proof. stable_by InferTransposeConv. Qed.
Lemma stable_InferConv3DTranspose : stable InferConv3DTranspose.
Proof. stable_by InferConv3DTranspose. Qed.
#[local] Hint Resolve stable_InferReduce stable_InferArgMinMax stable_InferReshape
  stable_InferBroadcastTo stable_InferPad stable_InferSlice stable_InferResizeOp stable_InferTopKV2
  stable_InferTranspose stable_InferTransposeConv stable_InferConv3DTranspose : stable.

Lemma standard_ops_stable : Forall (λ p, stable p.2) standard_ops.
Proof.
  unfold standard_ops, DEFINE_SIMPLE_UNARY_INFER, DEFINE_SIMPLE_BINARY_INFER, InferPadv2,
    InferMirrorPad, InferResizeBilinear, InferResizeNearestNeighbor.
  repeat (apply Forall_cons_2; [cbn [snd]; auto with stable nocore|]). apply Forall_nil_2.
Qed.

Lemma register_all_lookup l c f (r : registry) :
  foldl (λ r '(op_code, inferrer), RegisterInferrer op_code inferrer r) r l !! c = Some f →
  (c, f) ∈ l ∨ r !! c = Some f.
Proof.
  revert r. induction l as [|[c' f'] l IH]; intros r Hc; simpl in Hc; [by right|].
  apply IH in Hc as [Hc|Hc]; [left; by right|]. unfold RegisterInferrer in Hc.
  apply lookup_insert_Some in Hc as [[-> ->]|[_ Hc]]; [left; by left|by right].
Qed.

#[export] Instance standard_registry_stable : StableRegistry RegisterStandardOps.
Proof.
  intros c f Hc. apply register_all_lookup in Hc as [Hc|Hc].
  - pose proof standard_ops_stable as Hall. rewrite Forall_forall in Hall. by apply (Hall (c, f)).
  - unfold registry in Hc. by rewrite (lookup_empty (M := gmap LiteRtOpCode)) in Hc.
Qed.

(** ** Inference, then validation *)

(** Reasoning about the runs that return. *)
Definition if_returns {S A} (m : M S A) (Q : A → S → Prop) (s : S) : Prop :=
  match m s with Done a s' => Q a s' | _ => True end.

Lemma if_returns_bind {S A B} (m : M S A) (f : A → M S B) Q s :
  if_returns m (λ a s', if_returns (f a) Q s') s → if_returns (m ≫= f) Q s.
Proof. unfold if_returns, mbind, M_bind. by destruct (m s). Qed.

Lemma if_returns_for_each {S A} (I : list A → S → Prop) (l : list A) (body : A → M S unit) s :
  I [] s →
  (∀ done x todo s', l = done ++ x :: todo → I done s' →
     if_returns (body x) (λ _, I (done ++ [x])) s') →
  if_returns (for_each l body) (λ _, I l) s.
Proof.
  intros H0 Hstep.
  enough (∀ done todo s', l = done ++ todo → I done s' →
    if_returns (for_each todo body) (λ _, I l) s') as H; [by apply (H [])|].
  intros done todo. revert done. induction todo as [|x todo IH]; intros done s' Hl HI; simpl.
  - unfold if_returns. simpl. by rewrite Hl, app_nil_r.
  - apply if_returns_bind. specialize (Hstep done x todo s' Hl HI). unfold if_returns in *.
    destruct (body x s') as [[] s''| |]; [|done|done].
    apply (IH (done ++ [x])); [|done]. by rewrite <- app_assoc.
Qed.

(** The run of [m] in [H : if_returns m Q s], when it returns. *)
Ltac destruct_run H :=
  match type of H with
  | match ?m with Done _ _ => _ | Error _ => _ | Undefined => _ end =>
      destruct m as [[] s'|s'|]; [|done|done]
  end.

(** The dimensions of an input as inference sees them. *)
Definition input_dims (h : ir) (t : LiteRtTensor) : option Dims :=
  if decide (t = nullptr) then Some []
  else T ← tensor_heap h !! t;
       match Type_ T with kLiteRtRankedTensorType _ d => Some d | _ => None end.

Lemma input_shape_run t s :
  if_returns (input_shape_of t) (λ d s', s' = s ∧ input_dims (heap s) t = Some d) s.
Proof.
  unfold input_shape_of, input_dims. case_decide; [done|].
  unfold if_returns, on_heap, zoom, get_tensor, mbind, M_bind, gets. simpl.
  destruct (tensor_heap (heap s) !! t) as [T|]; simpl; [|done].
  destruct (Type_ T); simpl; [|done]. by destruct s.
Qed.

Lemma input_shape_returns t s d : input_dims (heap s) t = Some d → input_shape_of t s = Done d s.
Proof.
  unfold input_shape_of, input_dims. case_decide; [by intros [= <-]|].
  unfold on_heap, zoom, get_tensor, mbind, M_bind, gets. simpl.
  destruct (tensor_heap (heap s) !! t) as [T|]; simpl; [|done].
  destruct (Type_ T); simpl; [|done]. intros [= <-]. by destruct s.
Qed.

Lemma input_shapes_run l s : if_returns (map_m input_shape_of l)
  (λ ds s', s' = s ∧ Forall2 (λ t d, input_dims (heap s) t = Some d) l ds) s.
Proof.
  induction l as [|t l IH]; simpl; [by split|]. apply if_returns_bind.
  pose proof (input_shape_run t s) as Ht. unfold if_returns at 1. unfold if_returns in Ht.
  destruct (input_shape_of t s) as [d s1| |]; [|done|done]. destruct Ht as [-> Hd].
  apply if_returns_bind. unfold if_returns at 1. unfold if_returns in IH.
  destruct (map_m input_shape_of l s) as [ds s1| |]; [|done|done]. destruct IH as [-> Hds].
  split; [done|]. by constructor.
Qed.

Lemma input_shapes_return l s ds : Forall2 (λ t d, input_dims (heap s) t = Some d) l ds →
  map_m input_shape_of l s = Done ds s.
Proof.
  induction 1 as [|t d l ds Hd _ IH]; simpl; [done|]. unfold mbind, M_bind.
  by rewrite (input_shape_returns _ _ _ Hd), IH.
Qed.

Lemma input_dims_frame h h' l ds : (∀ t, t ∈ l → tensor_heap h !! t = tensor_heap h' !! t) →
  Forall2 (λ t d, input_dims h t = Some d) l ds → Forall2 (λ t d, input_dims h' t = Some d) l ds.
Proof.
  intros Hsame Hds. induction Hds as [|t d l ds Hd _ IH]; constructor.
  - unfold input_dims in *. by rewrite <- (Hsame t) by by left.
  - apply IH. intros r Hr. apply Hsame. by right.
Qed.

(** The shapes of the operation in the heap are those its inference function
    computes. *)
Definition op_typed (reg : registry) (h : ir) (o : LiteRtOp) : Prop :=
  ∃ O ins shapes, op_heap h !! o = Some O ∧
    Forall2 (λ t d, input_dims h t = Some d) (Inputs O) ins ∧
    InferOpShapes_pure reg h O ins (replicate (length (Outputs O)) []) = Some (kLiteRtStatusOk, shapes) ∧
    ∀ i t shape, zget (Outputs O) i = Some t → t ≠ nullptr → zget shapes i = Some shape →
      ∃ T e, tensor_heap h !! t = Some T ∧ Type_ T = kLiteRtRankedTensorType e shape.

Lemma dims_agree_refl shape : dims_agree shape shape = true.
Proof.
  unfold dims_agree. rewrite Z.eqb_refl. simpl. apply forallb_forall. intros [e d] Hin.
  assert (e = d) as ->.
  { apply list_elem_of_In in Hin. apply list_elem_of_lookup in Hin as [i Hi].
    apply lookup_zip_with_Some in Hi as (x & y & [= -> ->] & Hx & Hy). congruence. }
  by rewrite Z.eqb_refl, !orb_true_r.
Qed.

Lemma for_each_unchanged {S A} (l : list A) (body : A → M S unit) s :
  (∀ x, x ∈ l → body x s = Done tt s) → for_each l body s = Done tt s.
Proof.
  induction l as [|x l IH]; intros Hb; simpl; [done|]. unfold mbind, M_bind.
  rewrite Hb by by left. apply IH. intros y Hy. apply Hb. by right.
Qed.

Lemma op_typed_validates reg s o : op_typed reg (heap s) o → InferOpShapes reg true o s = Done tt s.
Proof.
  intros (O & ins & shapes & HO & Hins & Hpure & Houts).
  assert (set_heap (heap s) s = s) as Hid by by destruct s.
  unfold InferOpShapes, on_heap, zoom, get_op. unfold mbind at 1, M_bind at 1.
  unfold mbind at 1, M_bind at 1. unfold gets at 1. rewrite HO. simpl. rewrite Hid.
  unfold mbind at 1, M_bind at 1. rewrite (input_shapes_return _ _ _ Hins).
  unfold mbind, M_bind, gets. rewrite Hpure. apply for_each_unchanged. intros i Hi.
  destruct (zget_is_Some (Outputs O) i) as [t Ht]; [by apply elem_of_range in Hi|].
  unfold infer_output, at_. unfold mbind at 1, M_bind at 1. rewrite Ht. simpl.
  destruct (zget shapes i) as [shape|] eqn:Hs; [|done]. case_decide as Hnull; [done|].
  destruct (Houts i t shape Ht Hnull Hs) as (T & e & HT & HTy).
  unfold on_heap, zoom, get_tensor, mbind, M_bind, gets. rewrite HT. simpl. rewrite Hid.
  unfold validate_output_shape. by rewrite HTy, dims_agree_refl.
Qed.

(** What the inference of one operation needs: every output is a tensor of its
    own, with an element type, and not an input of the operation. *)
Record inferable (h : ir) (O : LiteRtOpT) : Prop := {
  inferable_distinct i j t : zget (Outputs O) i = Some t → zget (Outputs O) j = Some t →
    t ≠ nullptr → i = j;
  inferable_fresh t : t ∈ Outputs O → t ≠ nullptr → t ∉ Inputs O;
  inferable_typed t T : t ∈ Outputs O → tensor_heap h !! t = Some T →
    element_type_of T ≠ kLiteRtElementTypeNone
}.

Lemma set_shape_run t shape s :
  if_returns (T ← on_heap (get_tensor t); check_constant T shape ;; set_shape t T shape)
    (λ _ s', ∃ T, tensor_heap (heap s) !! t = Some T ∧
       (element_type_of T ≠ kLiteRtElementTypeNone →
        heap s' = set_tensor_heap (<[t := SetType (kLiteRtRankedTensorType (element_type_of T) shape) T]>
          (tensor_heap (heap s))) (heap s))) s.
Proof.
  unfold on_heap, zoom, get_tensor. apply if_returns_bind.
  unfold if_returns at 1, mbind, M_bind, gets. simpl.
  destruct (tensor_heap (heap s) !! t) as [T|] eqn:HT; simpl; [|done].
  assert (set_heap (heap s) s = s) as -> by by destruct s.
  assert (if_returns (set_shape t T shape) (λ _ s', ∃ T0, Some T = Some T0 ∧
    (element_type_of T0 ≠ kLiteRtElementTypeNone →
     heap s' = set_tensor_heap (<[t := SetType (kLiteRtRankedTensorType (element_type_of T0) shape) T0]>
       (tensor_heap (heap s))) (heap s))) s) as Hset.
  { unfold if_returns, set_shape, MakeRankedTensorType, mbind, M_bind. case_decide as He; [|by exists T].
    destruct (zlen shape <=? LITERT_TENSOR_MAX_RANK); simpl; [|done]. by exists T. }
  unfold check_constant. destruct (0 <? zlen (Weights T)); [|exact Hset].
  destruct (Type_ T); [|exact Hset]. case_decide; [exact Hset|done].
Qed.

(** After the outputs [done]. *)
Definition outputs_set (O : LiteRtOpT) (shapes : list Dims) (h : ir) (done : list Z) (h' : ir) : Prop :=
  retyped_heap h h' ∧
  (∀ t, t ∉ Outputs O ∨ t = nullptr → tensor_heap h' !! t = tensor_heap h !! t) ∧
  (∀ i t shape, i ∈ done → zget (Outputs O) i = Some t → t ≠ nullptr → zget shapes i = Some shape →
     ∃ T e, tensor_heap h' !! t = Some T ∧ Type_ T = kLiteRtRankedTensorType e shape).

Lemma infer_output_run O shapes h done i s : inferable h O →
  outputs_set O shapes h done (heap s) → i ∉ done →
  if_returns (infer_output false O shapes i) (λ _ s', outputs_set O shapes h (done ++ [i]) (heap s')) s.
Proof.
  intros [Hdist Hfresh Htyped] (Hret & Hframe & Hdone) Hi.
  unfold infer_output, at_. apply if_returns_bind. unfold if_returns at 1.
  destruct (zget (Outputs O) i) as [t|] eqn:Ht; simpl; [|done].
  assert (∀ s', (∀ t' shape', zget (Outputs O) i = Some t' → t' ≠ nullptr → zget shapes i = Some shape' →
      ∃ T e, tensor_heap (heap s') !! t' = Some T ∧ Type_ T = kLiteRtRankedTensorType e shape') →
    (∀ r, r ≠ t ∨ t = nullptr → tensor_heap (heap s') !! r = tensor_heap (heap s) !! r) →
    retyped_heap h (heap s') → outputs_set O shapes h (done ++ [i]) (heap s')) as Hnext.
  { intros s' Hset Hsame Hret'. split; [done|]. split.
    - intros r Hr. rewrite Hsame; [by apply Hframe|]. destruct (decide (t = nullptr)); [by right|left].
      intros ->. apply zget_elem in Ht. tauto.
    - intros j t' shape' [Hj|Hj%list_elem_of_singleton]%elem_of_app Htj Hne Hsj; [|subst j; by apply Hset].
      rewrite Hsame; [by eapply Hdone|]. left. intros ->. apply Hi.
      by rewrite (Hdist i j t Ht Htj Hne). }
  destruct (zget shapes i) as [shape|] eqn:Hs.
  2:{ apply Hnext; [by intros ?? _ _ [=]|done|done]. }
  case_decide as Hnull.
  { apply Hnext; [|done|done]. intros t' shape' Heq ? _. by simplify_eq. }
  pose proof (set_shape_run t shape s) as Hrun. pose proof (set_shape_step t shape s) as Hstep.
  unfold if_returns in *. destruct_run Hrun.
  destruct Hrun as (T & HT & Hheap).
  assert (element_type_of T ≠ kLiteRtElementTypeNone) as Helt.
  { pose proof (retyped_tensors _ _ Hret t) as Hrt. rewrite HT in Hrt.
    destruct (tensor_heap h !! t) as [T0|] eqn:HT0; [|by inversion Hrt].
    assert (retyped T0 T) as HR by by inversion Hrt. rewrite (retyped_element _ _ HR).
    apply (Htyped t); [by eapply zget_elem|done]. }
  specialize (Hheap Helt). apply Hnext; rewrite Hheap; simpl.
  - intros t' shape' Heq _ Hshape. simplify_eq.
    eexists _, _. split; [apply lookup_insert_eq|done].
  - intros r [Hr|Hr]; [|done]. by rewrite lookup_insert_ne.
  - rewrite <- Hheap. by etrans.
Qed.

Lemma InferOpShapes_run reg `{!StableRegistry reg} o s :
  (∀ O, op_heap (heap s) !! o = Some O → inferable (heap s) O) →
  if_returns (InferOpShapes reg false o) (λ _ s',
    retyped_heap (heap s) (heap s') ∧ op_typed reg (heap s') o ∧
    ∀ O t, op_heap (heap s) !! o = Some O → t ∉ Outputs O ∨ t = nullptr →
      tensor_heap (heap s') !! t = tensor_heap (heap s) !! t) s.
Proof.
  intros Hinf. unfold InferOpShapes, on_heap, zoom, get_op.
  apply if_returns_bind. unfold if_returns at 1, mbind at 1, M_bind at 1, gets at 1. simpl.
  destruct (op_heap (heap s) !! o) as [O|] eqn:HO; simpl; [|done].
  assert (set_heap (heap s) s = s) as -> by by destruct s.
  apply if_returns_bind. pose proof (input_shapes_run (Inputs O) s) as Hins.
  unfold if_returns in Hins. unfold if_returns at 1.
  destruct (map_m input_shape_of (Inputs O) s) as [ins s1| |]; [|done|done]. destruct Hins as [-> Hins].
  apply if_returns_bind. unfold if_returns at 1, gets.
  destruct (InferOpShapes_pure reg (heap s) O ins _) as [[st shapes]|] eqn:Hpure; [|done].
  specialize (Hinf O eq_refl). destruct st; try done.
  assert (if_returns (for_each (range 0 (zlen (Outputs O))) (infer_output false O shapes))
    (λ _ s', outputs_set O shapes (heap s) (range 0 (zlen (Outputs O))) (heap s')) s) as Hloop.
  { apply (if_returns_for_each (λ done s', outputs_set O shapes (heap s) done (heap s'))).
    - split; [reflexivity|]. split; [done|]. intros i t shape Hi. by apply not_elem_of_nil in Hi.
    - intros done i todo s' Hl HI. apply infer_output_run; [done|done|].
      apply range_split in Hl as Hi. destruct Hi as [-> _]. intros Hin.
      assert (zlen done ∈ take (length done) (range 0 (zlen (Outputs O)))) as Hin'.
      { by rewrite Hl, take_app_length. }
      apply elem_of_take in Hin' as (k & Hk & Hlt). unfold range in Hk. apply lookup_seqZ in Hk. lia. }
  unfold if_returns in *. destruct_run Hloop. destruct Hloop as (Hret & Hframe & Hset).
  split; [done|]. split; [|intros O' t [= <-]; apply Hframe].
  assert (∀ t, t ∈ Inputs O → tensor_heap (heap s) !! t = tensor_heap (heap s') !! t) as Hsame.
  { intros t Ht. symmetry. apply Hframe. destruct (decide (t = nullptr)); [by right|left].
    intros Hout. by apply (inferable_fresh _ _ Hinf t). }
  exists O, ins, shapes. split; [by rewrite (retyped_ops _ _ Hret)|]. split.
  { by eapply input_dims_frame. }
  split.
  { rewrite <- Hpure. unfold InferOpShapes_pure. destruct (reg !! OpCode O) as [f|] eqn:Hf; [|done].
    by rewrite (stable_infer (OpCode O) f Hf (heap s) (heap s') O). }
  intros i t shape Ht. apply Hset; [|done]. apply elem_of_range. by apply zget_range in Ht.
Qed.

Lemma op_typed_frame reg `{!StableRegistry reg} h h' o : op_heap h' = op_heap h →
  (∀ O t, op_heap h !! o = Some O → t ≠ nullptr → t ∈ Inputs O ++ Outputs O →
     tensor_heap h !! t = tensor_heap h' !! t) →
  tensor_heap h !! nullptr = tensor_heap h' !! nullptr →
  op_typed reg h o → op_typed reg h' o.
Proof.
  intros Hops Hsame Hnull (O & ins & shapes & HO & Hins & Hpure & Houts).
  assert (∀ t, t ∈ Inputs O → tensor_heap h !! t = tensor_heap h' !! t) as Hin.
  { intros t Ht. destruct (decide (t = nullptr)) as [->|Hne]; [done|].
    apply (Hsame O); [done|done|]. apply elem_of_app. by left. }
  exists O, ins, shapes. split; [by rewrite Hops|]. split; [by eapply input_dims_frame|]. split.
  - rewrite <- Hpure. unfold InferOpShapes_pure. destruct (reg !! OpCode O) as [f|] eqn:Hf; [|done].
    by rewrite (stable_infer (OpCode O) f Hf h h' O).
  - intros i t shape Ht Hne Hs. destruct (Houts i t shape Ht Hne Hs) as (T & e & HT & HTy).
    exists T, e. split; [|done]. rewrite <- (Hsame O); [done|done|done|].
    apply elem_of_app. right. by eapply zget_elem.
Qed.

Lemma inferable_retyped h h' O : retyped_heap h h' → inferable h O → inferable h' O.
Proof.
  intros Hret [Hd Hf Ht]. split; [done|done|]. intros t T' Hin HT'.
  pose proof (retyped_tensors _ _ Hret t) as Hrt. rewrite HT' in Hrt.
  destruct (tensor_heap h !! t) as [T|] eqn:HT; [|by inversion Hrt].
  assert (retyped T T') as HR by by inversion Hrt. rewrite (retyped_element _ _ HR). by apply (Ht t).
Qed.

(** The operations of the subgraph are in an order in which every tensor is
    written once, before it is read, with [inferable] operations. *)
Definition single_assignment (h : ir) (ops : list LiteRtOp) : Prop :=
  ∀ done o todo O, ops = done ++ o :: todo → op_heap h !! o = Some O →
    inferable h O ∧
    ∀ o' O' t, o' ∈ done → op_heap h !! o' = Some O' → t ∈ Outputs O → t ≠ nullptr →
      t ∉ Inputs O' ++ Outputs O'.

Lemma InferSubgraphShapes_run reg `{!StableRegistry reg} (ops : list LiteRtOp) s :
  single_assignment (heap s) ops →
  if_returns (for_each ops (InferOpShapes reg false)) (λ _ s',
    retyped_heap (heap s) (heap s') ∧ ∀ o, o ∈ ops → op_typed reg (heap s') o) s.
Proof.
  intros Hssa.
  apply (if_returns_for_each (λ done s',
    retyped_heap (heap s) (heap s') ∧ ∀ o, o ∈ done → op_typed reg (heap s') o)).
  { split; [reflexivity|]. intros o Ho. by apply not_elem_of_nil in Ho. }
  intros done o todo s1 Hops (Hret & Htyped).
  pose proof (InferOpShapes_run reg o s1) as Hrun. unfold if_returns in *.
  assert (∀ O, op_heap (heap s1) !! o = Some O → op_heap (heap s) !! o = Some O) as Hsame.
  { intros O. by rewrite (retyped_ops _ _ Hret). }
  assert (∀ O, op_heap (heap s1) !! o = Some O → inferable (heap s1) O) as Hinf.
  { intros O HO. eapply inferable_retyped; [done|]. eapply Hssa; [done|by apply Hsame]. }
  specialize (Hrun Hinf). destruct_run Hrun. destruct Hrun as (Hret' & Ho & Hframe).
  split; [by etrans|]. intros o' [Ho'|Ho'%list_elem_of_singleton]%elem_of_app; [|by subst o'].
  destruct Ho as (O & ? & ? & HO & Hrest). rewrite (retyped_ops _ _ Hret') in HO.
  apply (op_typed_frame reg (heap s1)); [by apply Hret'| | |by apply Htyped].
  - intros O' t HO' Hne Hin. symmetry. apply (Hframe O); [done|]. left. intros Hout.
    destruct (Hssa done o todo O Hops (Hsame _ HO)) as [_ Hlate].
    apply (Hlate o' O' t); [done| |done|done|done]. by rewrite <- (retyped_ops _ _ Hret).
  - symmetry. apply (Hframe O); [done|by right].
Qed.

(** C19: inferring and then validating a subgraph. With a registry of functions
    that only read the inputs of the operation, in which the operations write
    every tensor once and before it is read, a subgraph whose shapes were inferred
    passes its validation, and that changes nothing. *)
Theorem inference_then_validation reg `{!StableRegistry reg} g G s s' :
  subgraph_heap (heap s) !! g = Some G →
  single_assignment (heap s) (Ops G) →
  InferSubgraphShapes reg false g s = Done tt s' →
  InferSubgraphShapes reg true g s' = Done tt s'.
Proof.
  intros HG Hssa Hrun. pose proof (InferSubgraphShapes_run reg (Ops G) s Hssa) as Hloop.
  unfold InferSubgraphShapes, on_heap, zoom, get_subgraph in *.
  unfold mbind, M_bind, gets in *. simpl in *. rewrite HG in Hrun. simpl in Hrun.
  assert (set_heap (heap s) s = s) as Hid by by destruct s. rewrite Hid in Hrun.
  unfold if_returns in Hloop. rewrite Hrun in Hloop. destruct Hloop as [Hret Htyped].
  rewrite (retyped_subgraphs _ _ Hret), HG. simpl.
  assert (set_heap (heap s') s' = s') as -> by by destruct s'.
  apply for_each_unchanged. intros o Ho. by apply op_typed_validates, Htyped.
Qed.

(** ** The registered operations *)

Lemma register_all_registered l p (r : registry) : p ∈ l ∨ is_Some (r !! p.1) →
  is_Some (foldl (λ r '(op_code, inferrer), RegisterInferrer op_code inferrer r) r l !! p.1).
Proof.
  revert r. induction l as [|[c f] l IH]; intros r Hp; simpl.
  { destruct Hp as [Hp|Hp]; [by apply not_elem_of_nil in Hp|done]. }
  apply IH. destruct Hp as [[->|Hp]%elem_of_cons|Hp]; [|by left|].
  - right. unfold RegisterInferrer, registry. by rewrite lookup_insert_eq.
  - right. unfold RegisterInferrer, registry. apply lookup_insert_is_Some'. by right.
Qed.

(** [RegisterStandardOps] registers 88 operations, none of them twice. Of
    the operations that have an inference function, split, tile and the strided
    slice are not registered. For an operation that is not registered the engine
    reports [UnsupportedOpShapeInferer], when its inputs are ranked, and changes
    nothing else. *)
Theorem unregistered_ops :
  length standard_ops = 88%nat ∧ NoDup (standard_ops.*1) ∧
  (∀ c, is_Some (RegisterStandardOps !! c) ↔ c ∈ standard_ops.*1) ∧
  (∀ c, c ∈ [kLiteRtOpCodeTflSplit; kLiteRtOpCodeTflTile; kLiteRtOpCodeTflStridedSlice] →
    RegisterStandardOps !! c = None) ∧
  ∀ (reg : registry) v o O ins s, reg !! OpCode O = None → op_heap (heap s) !! o = Some O →
    Forall2 (λ t d, input_dims (heap s) t = Some d) (Inputs O) ins →
    InferOpShapes reg v o s =
      Error {| heap := heap s; engine_status := kLiteRtStatusErrorUnsupportedOpShapeInferer |}.
Proof.
  split; [done|]. split; [by apply (bool_decide_unpack _); vm_compute|]. split.
  { intros c. split.
    - intros [f Hf]. apply register_all_lookup in Hf as [Hf|Hf].
      + apply list_elem_of_fmap. by exists (c, f).
      + unfold registry in Hf. by rewrite (lookup_empty (M := gmap LiteRtOpCode)) in Hf.
    - intros (p & -> & Hp)%list_elem_of_fmap. apply register_all_registered. by left. }
  split.
  { intros c Hc. repeat (apply elem_of_cons in Hc as [->|Hc]; [by vm_compute|]).
    by apply not_elem_of_nil in Hc. }
  intros reg v o O ins s Hreg HO Hins.
  unfold InferOpShapes, on_heap, zoom, get_op. unfold mbind at 1, M_bind at 1.
  unfold mbind at 1, M_bind at 1. unfold gets at 1. rewrite HO. simpl.
  assert (set_heap (heap s) s = s) as -> by by destruct s.
  unfold mbind at 1, M_bind at 1. rewrite (input_shapes_return _ _ _ Hins).
  unfold mbind, M_bind, gets, InferOpShapes_pure.
  destruct (reg !! OpCode O) as [f|] eqn:Hf; [|done]. unfold registry in *. congruence.
Qed.

(** ** A witness *)

(** [23 = relu (21 + 22)]. *)
Definition add_relu : engine_state := {|
  heap := {|
    tensor_heap := list_to_map ((λ '(t, d), (t, SetType (kLiteRtRankedTensorType kLiteRtElementTypeFloat32 d) empty_tensor)) <$>
      [(21%nat, [2; 3]); (22%nat, [3]); (23%nat, []); (24%nat, [])]);
    op_heap := list_to_map
      [(11%nat, set_Inputs [21%nat; 22%nat] (set_Outputs [23%nat] empty_op));
       (12%nat, {| OpCode := kLiteRtOpCodeTflRelu; Inputs := [23%nat]; Outputs := [24%nat];
                   CustomOptions := []; TflOpCodeInd := -1; GetTflOptions := OtherOptions |})];
    subgraph_heap := {[ 1%nat := {| Tensors := [21; 22; 23; 24]%nat; Ops := [11; 12]%nat;
      SubgraphInputs := [21; 22]%nat; SubgraphOutputs := [24%nat] |} ]};
    model_subgraphs := [1%nat]; next_address := 25 |};
  engine_status := kLiteRtStatusOk |}.

Definition inferred {A} (r : outcome engine_state A) : engine_state :=
  match r with Done _ s | Error s => s | Undefined => add_relu end.

Lemma inferable_single h O t : Outputs O = [t] → t ∉ Inputs O →
  (∀ T, tensor_heap h !! t = Some T → element_type_of T ≠ kLiteRtElementTypeNone) → inferable h O.
Proof.
  intros HO Hin HT. split; rewrite HO.
  - intros i j t' Hi%zget_range Hj%zget_range _. cbn [length] in Hi, Hj. lia.
  - by intros t' ->%list_elem_of_singleton _.
  - intros t' T ->%list_elem_of_singleton. apply HT.
Qed.

Lemma add_relu_order : single_assignment (heap add_relu) [11; 12]%nat.
Proof.
  intros done o todo O Hl HO. destruct done as [|o1 [|o2 done]]; [| |by destruct done].
  - injection Hl as <- _. vm_compute in HO. injection HO as <-.
    split; [|intros o' ? ? Ho; by apply not_elem_of_nil in Ho].
    apply (inferable_single _ _ 23%nat); [done|by apply (bool_decide_unpack _); vm_compute|].
    intros T HT. vm_compute in HT. by simplify_eq.
  - injection Hl as <- <- _. vm_compute in HO. injection HO as <-. split.
    + apply (inferable_single _ _ 24%nat); [done|by apply (bool_decide_unpack _); vm_compute|].
      intros T HT. vm_compute in HT. by simplify_eq.
    + intros o' O' t ->%list_elem_of_singleton HO' Ht _. vm_compute in HO'. injection HO' as <-.
      apply list_elem_of_singleton in Ht as ->. by apply (bool_decide_unpack _); vm_compute.
Qed.

Lemma inference_then_validation_witness :
  InferSubgraphShapes RegisterStandardOps true 1%nat
    (inferred (InferSubgraphShapes RegisterStandardOps false 1%nat add_relu)) =
  Done tt (inferred (InferSubgraphShapes RegisterStandardOps false 1%nat add_relu)).
Proof.
  refine (inference_then_validation RegisterStandardOps 1%nat _ add_relu _ eq_refl add_relu_order _).
  by vm_compute.
Defined.

(** The inferred shapes. *)
Example add_relu_shapes :
  input_dims (heap (inferred (InferSubgraphShapes RegisterStandardOps false 1%nat add_relu))) 24%nat
  = Some [2; 3].
Proof. by vm_compute. Qed.
