(* ===== verification/PluginPartitions.v ===== *)
(** * Partitions of a compiler plugin

    [InsertOrderMap] of [litert/core/insert_order_map.h] and the two strategies
    of [litert/compiler/plugin/algo.cc] that turn the flat list of operations a
    vendor plugin selected into partitions: the connected components of each
    partition index (a union-find, [GroupPartitions]), and the runs of the
    execution order with one index ([GroupPartitionsV2]). *)

From S2P Require Import Prelude OpCodes LiteRtIr OpShapes.

(** The order in which a hash map is iterated is not specified. *)
Class HashOrder := {
  hash_order {K} `{Countable K} {A : Type} : gmap K A → list (K * A);
  hash_order_perm {K} `{Countable K} {A : Type} (m : gmap K A) : hash_order m ≡ₚ map_to_list m
}.

#[export] Instance key_order : HashOrder := {|
  hash_order K _ _ A m := map_to_list m;
  hash_order_perm K _ _ A m := reflexivity (map_to_list m)
|}.

(** ** A map that is iterated in the order of insertion *)

Record InsertOrderMap := { values_ : list (nat * nat); map_ : gmap nat nat }.

Definition empty_map : InsertOrderMap := {| values_ := []; map_ := ∅ |}.

(** The second component of the pair that [Find] refers to. *)
Definition Find (key : nat) : M InsertOrderMap (option nat) :=
  m ← get;
  match map_ m !! key with
  | Some ind => p ← deref (values_ m !! ind); mret (Some (p.2))
  | None => mret None
  end.

Definition Contains (key : nat) : M InsertOrderMap bool :=
  gets (λ m, bool_decide (is_Some (map_ m !! key))).

Definition InsertOrAssign (key val : nat) : M InsertOrderMap unit :=
  m ← get;
  match map_ m !! key with
  | Some ind =>
      p ← deref (values_ m !! ind);
      put {| values_ := <[ind := (p.1, val)]> (values_ m); map_ := map_ m |}
  | None =>
      put {| values_ := values_ m ++ [(key, val)];
             map_ := <[key := length (values_ m)]> (map_ m) |}
  end.

(** ** Disjoint sets *)

(** The recursion of [GetBucket] has fuel: the number of elements. *)
Fixpoint GetBucket_fuel (fuel : nat) (op : LiteRtOp) : M InsertOrderMap LiteRtOp :=
  it ← Find op;
  parent ← deref it;
  if decide (op ≠ parent) then
    match fuel with
    | O => undefined
    | S fuel' =>
        parent' ← GetBucket_fuel fuel' parent;
        InsertOrAssign op parent';;
        mret parent'
    end
  else mret parent.

Definition GetBucket (op : LiteRtOp) : M InsertOrderMap LiteRtOp :=
  n ← gets (λ m, length (values_ m));
  GetBucket_fuel n op.

Definition Insert (op parent : LiteRtOp) : M InsertOrderMap unit :=
  parent_bucket ← GetBucket parent;
  op_bucket ← GetBucket op;
  if decide (op_bucket = parent_bucket) then mret ()
  else InsertOrAssign op_bucket parent_bucket.

Section disjoint_sets.
Context `{HashOrder} (h : ir).

(** The buckets, their operations in the order of insertion. *)
Definition GetBuckets : M InsertOrderMap (list (list LiteRtOp)) :=
  keys ← gets (λ m, (values_ m).*1);
  invert_map ← fold_m keys (∅ : gmap nat (list LiteRtOp)) (λ invert_map op,
    bucket ← GetBucket op;
    mret (<[bucket := default [] (invert_map !! bucket) ++ [op]]> invert_map));
  mret ((hash_order invert_map).*2).

(** The loop over the users of the outputs of one operation. *)
Definition unite_users (op : LiteRtOp) : M InsertOrderMap unit :=
  O ← deref (op_heap h !! op);
  for_each (Outputs O) (λ output,
    T ← deref (tensor_heap h !! output);
    for_each (Users T) (λ user,
      c ← Contains user;
      if (c : bool) then Insert op user else mret ())).

(** The buckets of the operations of one partition. *)
Definition partition_buckets (ops : list LiteRtOp) : M InsertOrderMap (list (list LiteRtOp)) :=
  for_each ops (λ op, InsertOrAssign op op);;
  for_each ops unite_users;;
  GetBuckets.

Definition partition_map (flat_op_list : list (LiteRtOp * Z)) : gmap Z (list LiteRtOp) :=
  foldl (λ m p, <[p.2 := default [] (m !! p.2) ++ [p.1]]> m) ∅ flat_op_list.

(** [GetPartitionsFromFlatList], that is [GroupPartitions]: a new union-find for
    every partition index. *)
Definition GetPartitionsFromFlatList (flat_op_list : list (LiteRtOp * Z)) {S} :
    M S (list (list LiteRtOp)) :=
  let m := partition_map flat_op_list in
  fold_m (hash_order m).*1 [] (λ all_buckets index,
    buckets ← zoom (λ _, empty_map) (λ _ s, s) (partition_buckets (default [] (m !! index)));
    mret (all_buckets ++ buckets)).
End disjoint_sets.

(** ** Runs of the execution order *)

Definition op_to_partition_index (ops : list (LiteRtOp * Z)) : gmap LiteRtOp Z :=
  foldl (λ m op, <[op.1 := op.2]> m) ∅ ops.

(** One more than the largest index, a [size_t], for the operations that the
    plugin did not select. *)
Definition unselected_ops_partition_index (ops : list (LiteRtOp * Z)) : Z :=
  u64 (foldl (λ n op, if n <? op.2 then op.2 else n) 0 ops + 1).

Definition sorted_ops (ops : list (LiteRtOp * Z)) (subgraph : LiteRtSubgraphT) : list (LiteRtOp * Z) :=
  (λ op, (op, default (unselected_ops_partition_index ops) (op_to_partition_index ops !! op))) <$>
  Ops subgraph.

(** The loop, with the partitions, the current partition and its index. *)
Definition partition_step (unselected : Z) (st : list (list LiteRtOp) * list LiteRtOp * Z)
    (p : LiteRtOp * Z) : list (list LiteRtOp) * list LiteRtOp * Z :=
  let '(partitions, current, current_index) := st in
  let '(op, index) := p in
  let '(partitions, current, current_index) :=
    if index =? current_index then (partitions, current, current_index)
    else if decide (current = []) then (partitions, current, index)
    else (partitions ++ [current], [], index) in
  if current_index =? unselected then (partitions, current, current_index)
  else (partitions, current ++ [op], current_index).

Definition GetPartitionsFromFlatListV2 (ops : list (LiteRtOp * Z)) (subgraph : LiteRtSubgraphT) :
    list (list LiteRtOp) :=
  match sorted_ops ops subgraph with
  | [] => []
  | (first :: _) as sorted =>
      let '(partitions, current, _) :=
        foldl (partition_step (unselected_ops_partition_index ops)) ([], [], first.2) sorted in
      if decide (current = []) then partitions else partitions ++ [current]
  end.
