(* ===== verification/PluginProofs.v ===== *)
(** * Correctness of the partitioning for compiler plugins

    The buckets of the union-find are the connected components of the selected
    operations, and the strategy by execution order cuts it into maximal runs. *)

From stdpp Require Import relations.
From S2P Require Import Prelude OpCodes LiteRtIr OpShapes PluginPartitions.

(** ** The map *)

Definition iom_wf (m : InsertOrderMap) : Prop :=
  ∀ k i, map_ m !! k = Some i ↔ ∃ v, values_ m !! i = Some (k, v).

Definition look (m : InsertOrderMap) (k : nat) : option nat :=
  i ← map_ m !! k; p ← values_ m !! i; Some p.2.

Definition keys (m : InsertOrderMap) : list nat := (values_ m).*1.

Lemma look_Some m k v : iom_wf m → look m k = Some v ↔ ∃ i, values_ m !! i = Some (k, v).
Proof.
  intros Hm. unfold look. split.
  - intros (i & Hi & ([k' v'] & Hp & [= <-])%bind_Some)%bind_Some. exists i.
    destruct (proj1 (Hm k i) Hi) as [v Hv]. congruence.
  - intros [i Hi]. assert (map_ m !! k = Some i) as -> by (apply Hm; eauto). simpl. by rewrite Hi.
Qed.

Lemma look_keys m k : iom_wf m → is_Some (look m k) ↔ k ∈ keys m.
Proof.
  intros Hm. unfold keys. rewrite list_elem_of_fmap. split.
  - intros [v (i & Hi)%look_Some]; [|done]. exists (k, v). split; [done|by eapply list_elem_of_lookup_2].
  - intros ([k' v] & -> & [i Hi]%list_elem_of_lookup). exists v. apply look_Some; [done|eauto].
Qed.

Lemma keys_NoDup m : iom_wf m → NoDup (keys m).
Proof.
  intros Hm. apply NoDup_alt. intros i j k Hi Hj. unfold keys in *.
  rewrite list_lookup_fmap in Hi, Hj. apply fmap_Some in Hi as ([k1 v1] & Hi & ->), Hj as ([k2 v2] & Hj & Heq).
  simpl in *. subst k2. assert (map_ m !! k1 = Some i) as H1 by (apply Hm; eauto).
  assert (map_ m !! k1 = Some j) as H2 by (apply Hm; eauto). congruence.
Qed.

Lemma empty_wf : iom_wf empty_map.
Proof. intros k i. simpl. rewrite lookup_empty, lookup_nil. split; [done|by intros [? ?]]. Qed.

Lemma wp_Find k Q E m : iom_wf m → Q (look m k) m → wp (Find k) Q E m.
Proof.
  intros Hm HQ. unfold Find, look in *. wp_steps. destruct (map_ m !! k) as [i|] eqn:Hi; [|by wp_steps].
  apply Hm in Hi as [v Hv]. wp_steps. eapply wp_deref; [exact Hv|]. wp_steps. simpl in HQ. by rewrite Hv in HQ.
Qed.

Lemma wp_Contains k Q E m : iom_wf m → Q (bool_decide (k ∈ keys m)) m → wp (Contains k) Q E m.
Proof.
  intros Hm HQ. unfold Contains. wp_steps.
  assert (bool_decide (is_Some (map_ m !! k)) = bool_decide (k ∈ keys m)) as ->; [|done].
  apply bool_decide_ext. rewrite <- look_keys by done. unfold look. split.
  - intros [i Hi]. rewrite Hi. simpl. apply Hm in Hi as [v Hv]. rewrite Hv. by eexists.
  - destruct (map_ m !! k); [by eexists|]. by intros [? ?].
Qed.

(** [m'] is [m] with the value [v] at [k]. *)
Record assigned_to (m : InsertOrderMap) (k v : nat) (m' : InsertOrderMap) : Prop := {
  as_wf : iom_wf m';
  as_look k' : look m' k' = if decide (k' = k) then Some v else look m k';
  as_keys : keys m' = if decide (k ∈ keys m) then keys m else keys m ++ [k]
}.

Lemma wp_InsertOrAssign k v Q E m : iom_wf m → (∀ m', assigned_to m k v m' → Q () m') →
  wp (InsertOrAssign k v) Q E m.
Proof.
  intros Hm HQ. unfold InsertOrAssign. wp_steps. destruct (map_ m !! k) as [i|] eqn:Hi.
  - apply Hm in Hi as Hi'. destruct Hi' as [v0 Hv0]. wp_steps. eapply wp_deref; [exact Hv0|]. wp_steps. apply HQ.
    assert (iom_wf {| values_ := <[i := (k, v)]> (values_ m); map_ := map_ m |}) as Hwf.
    { intros k' j. simpl. rewrite (Hm k' j). destruct (decide (j = i)) as [->|Hne].
      - rewrite Hv0, list_lookup_insert_eq by by eapply lookup_lt_Some.
        split; intros [v' [= <- _]]; eauto.
      - by rewrite list_lookup_insert_ne by done. }
    split; [done| |].
    + intros k'. unfold look. simpl. destruct (map_ m !! k') as [j|] eqn:Hj; simpl.
      * destruct (decide (j = i)) as [->|Hne].
        -- assert (k' = k) as -> by (apply Hm in Hj as [v' Hv']; congruence).
           rewrite list_lookup_insert_eq, decide_True by (done || by eapply lookup_lt_Some). done.
        -- rewrite list_lookup_insert_ne by done. rewrite decide_False; [done|]. intros ->. congruence.
      * rewrite decide_False; [done|]. intros ->. congruence.
    + rewrite decide_True.
      * unfold keys. simpl. rewrite list_fmap_insert. simpl. apply list_insert_id.
        by rewrite list_lookup_fmap, Hv0.
      * apply look_keys; [done|]. exists v0. apply look_Some; eauto.
  - wp_steps. apply HQ.
    assert (∀ j v', values_ m !! j ≠ Some (k, v')) as Hno.
    { intros j v' Hj. assert (map_ m !! k = Some j) by (apply Hm; eauto). congruence. }
    assert (iom_wf {| values_ := values_ m ++ [(k, v)]; map_ := <[k := length (values_ m)]> (map_ m) |}) as Hwf.
    { intros k' j. simpl. destruct (decide (k' = k)) as [->|Hne].
      - rewrite lookup_insert_eq. split.
        + intros [= <-]. exists v. by rewrite lookup_app_r, Nat.sub_diag.
        + intros [v' [Hj|[Hge Hj]]%lookup_app_Some]; [by destruct (Hno j v')|].
          apply list_lookup_singleton_Some in Hj as [Heq _]. f_equal. lia.
      - rewrite lookup_insert_ne by done. rewrite (Hm k' j). split.
        + intros [v' Hv']. exists v'. by apply lookup_app_l_Some.
        + intros [v' [Hj|[Hge Hj]]%lookup_app_Some]; [eauto|].
          apply list_lookup_singleton_Some in Hj as [_ [= ->]]. done. }
    split; [done| |].
    + intros k'. destruct (decide (k' = k)) as [->|Hne].
      * apply look_Some; [done|]. exists (length (values_ m)). simpl. by rewrite lookup_app_r, Nat.sub_diag.
      * unfold look. simpl. rewrite lookup_insert_ne by done. destruct (map_ m !! k') as [j|] eqn:Hj; simpl; [|done].
        apply Hm in Hj as [v' Hv']. by rewrite Hv', (lookup_app_l_Some _ _ _ _ Hv').
    + rewrite decide_False; [unfold keys; simpl; by rewrite fmap_app|].
      intros [v' (j & Hj)%look_Some]%look_keys; [|done..]. by destruct (Hno j v').
Qed.

(** ** Forests *)

Inductive path (m : InsertOrderMap) : list nat → nat → nat → Prop :=
| path_root k : look m k = Some k → path m [k] k k
| path_step l k p r : look m k = Some p → k ≠ p → path m l p r → path m (k :: l) k r.

Definition root (m : InsertOrderMap) (k r : nat) : Prop := ∃ l, path m l k r.

Record forest (m : InsertOrderMap) : Prop := {
  fo_wf : iom_wf m;
  fo_root k : k ∈ keys m → ∃ r, root m k r
}.

Lemma path_unique m l k r l' r' : path m l k r → path m l' k r' → l = l' ∧ r = r'.
Proof.
  intros Hp. revert l' r'. induction Hp as [k Hk|l k p r Hk Hne _ IH]; intros l' r' Hp'; inversion Hp'; subst.
  - done.
  - congruence.
  - congruence.
  - assert (p = p0) as <- by congruence. edestruct IH as [-> ->]; [eassumption|]. done.
Qed.

Lemma root_unique m k r r' : root m k r → root m k r' → r = r'.
Proof. intros [l Hl] [l' Hl']. by destruct (path_unique _ _ _ _ _ _ Hl Hl'). Qed.

Lemma path_end m l k r : path m l k r → look m r = Some r.
Proof. by induction 1. Qed.

Lemma path_part m l k r x : path m l k r → x ∈ l → ∃ l', path m l' x r ∧ (length l' ≤ length l)%nat.
Proof.
  induction 1 as [k Hk|l k p r Hk Hne Hp IH].
  - intros ->%list_elem_of_singleton. exists [k]. split; [by constructor|done].
  - intros [->|Hx]%elem_of_cons; [exists (k :: l); split; [by econstructor|done]|].
    destruct (IH Hx) as (l' & ? & ?). exists l'. split; [done|simpl; lia].
Qed.

Lemma path_NoDup m l k r : path m l k r → NoDup l.
Proof.
  induction 1 as [k Hk|l k p r Hk Hne Hp IH]; [apply NoDup_singleton|].
  constructor; [|done]. intros (l' & Hl' & Hlen)%(path_part _ _ _ _ _ Hp).
  destruct (path_unique _ _ _ _ _ _ Hl' (path_step _ _ _ _ _ Hk Hne Hp)) as [-> _]. simpl in Hlen. lia.
Qed.

Lemma path_length m l k r : iom_wf m → path m l k r → (length l ≤ length (values_ m))%nat.
Proof.
  intros Hm Hp. assert (l ⊆+ keys m) as Hsub.
  { apply NoDup_submseteq; [by eapply path_NoDup|]. intros x Hx.
    destruct (path_part _ _ _ _ _ Hp Hx) as (l' & Hl' & _). apply look_keys; [done|].
    inversion Hl'; subst; eauto. }
  apply submseteq_length in Hsub. unfold keys in Hsub. by rewrite length_fmap in Hsub.
Qed.

Lemma root_keys m k r : iom_wf m → root m k r → k ∈ keys m ∧ r ∈ keys m ∧ root m r r.
Proof.
  intros Hm [l Hl]. pose proof (path_end _ _ _ _ Hl) as Hr. split_and!.
  - apply look_keys; [done|]. inversion Hl; subst; eauto.
  - apply look_keys; [done|]. eauto.
  - exists [r]. by constructor.
Qed.

Lemma root_key m k r : iom_wf m → root m k r → k ∈ keys m.
Proof. intros Hm Hr. by destruct (root_keys m k r Hm Hr). Qed.

(** A root [a] is hung below a root [b]. *)
Definition redirect (a b r : nat) : nat := if decide (r = a) then b else r.

Lemma link_root m a b m' x r : look m a = Some a → look m b = Some b → a ≠ b →
  assigned_to m a b m' → root m x r → root m' x (redirect a b r).
Proof.
  intros Ha Hb Hab Has [l Hl]. induction Hl as [k Hk|l k p r Hk Hne _ [l' IH]]; unfold redirect in *.
  - case_decide as Heq; [subst k|].
    + exists [a; b]. eapply path_step; [|exact Hab|apply path_root].
      * by rewrite (as_look _ _ _ _ Has), decide_True.
      * rewrite (as_look _ _ _ _ Has). by rewrite decide_False by done.
    + exists [k]. constructor. by rewrite (as_look _ _ _ _ Has), decide_False.
  - exists (k :: l'). eapply path_step; [|exact Hne|exact IH].
    rewrite (as_look _ _ _ _ Has), decide_False; [done|]. intros ->. congruence.
Qed.

(** Path compression: [a] is hung below its root [b]. *)
Lemma compress_root m a b m' x r : root m a b → a ≠ b → assigned_to m a b m' → root m x r → root m' x r.
Proof.
  intros Hab Hne Has [l Hl]. assert (look m b = Some b) as Hb by (destruct Hab as [l' Hl']; by eapply path_end).
  assert (root m' b b) as Hbb.
  { exists [b]. constructor. by rewrite (as_look _ _ _ _ Has), decide_False. }
  induction Hl as [k Hk|l k p r Hk Hkp Hl [l' IH]].
  - exists [k]. constructor. rewrite (as_look _ _ _ _ Has), decide_False; [done|]. intros ->.
    apply Hne. eapply root_unique; [|exact Hab]. exists [a]. by constructor.
  - destruct (decide (k = a)) as [->|Hka].
    + assert (r = b) as ->.
      { eapply root_unique; [|exact Hab]. eexists. by eapply path_step. }
      exists [a; b]. eapply path_step; [|exact Hne|apply path_root].
      * by rewrite (as_look _ _ _ _ Has), decide_True.
      * by rewrite (as_look _ _ _ _ Has), decide_False.
    + exists (k :: l'). eapply path_step; [|exact Hkp|exact IH].
      by rewrite (as_look _ _ _ _ Has), decide_False.
Qed.

(** The same elements with the same roots. *)
Record same_roots (m m' : InsertOrderMap) : Prop := {
  sr_forest : forest m';
  sr_keys : keys m' = keys m;
  sr_root k r : root m k r → root m' k r
}.

Lemma same_roots_refl m : forest m → same_roots m m.
Proof. by split. Qed.

Lemma same_roots_trans m1 m2 m3 : same_roots m1 m2 → same_roots m2 m3 → same_roots m1 m3.
Proof. intros [? H1 ?] [? H2 ?]. split; [done|congruence|auto]. Qed.

Lemma GetBucket_fuel_spec fuel m l k r E : forest m → path m l k r → (length l ≤ S fuel)%nat →
  wp (GetBucket_fuel fuel k) (λ p m', p = r ∧ same_roots m m') E m.
Proof.
  revert m l k. induction fuel as [|fuel IH]; intros m l k Hf Hp Hlen.
  - simpl. apply wp_bind, wp_Find; [apply Hf|]. inversion Hp as [? Hk|l' ? p ? Hk Hne Hp']; subst.
    + rewrite Hk. wp_steps. rewrite decide_False by tauto. apply wp_ret. split; [done|by apply same_roots_refl].
    + exfalso. simpl in Hlen. inversion Hp'; subst; simpl in Hlen; lia.
  - simpl. apply wp_bind, wp_Find; [apply Hf|]. inversion Hp as [? Hk|l' ? p ? Hk Hne Hp']; subst.
    + rewrite Hk. wp_steps. rewrite decide_False by tauto. apply wp_ret. split; [done|by apply same_roots_refl].
    + rewrite Hk. wp_steps. rewrite decide_True by done. apply wp_bind.
      eapply wp_post; [|eapply (IH m l' p); [done|done|simpl in Hlen; lia]].
      intros p' m1 [-> Hsame]. apply wp_bind, wp_InsertOrAssign; [apply Hsame|]. intros m2 Has. apply wp_ret.
      split; [done|]. assert (root m k r) as Hkr by by eexists.
      assert (k ≠ r) as Hkr'.
      { intros ->. pose proof (path_end _ _ _ _ Hp) as Hr. congruence. }
      pose proof (sr_root _ _ Hsame _ _ Hkr) as Hkr1.
      destruct (root_keys m1 k r (fo_wf _ (sr_forest _ _ Hsame)) Hkr1) as (Hin & _ & _).
      split.
      * split; [apply Has|]. intros x. rewrite (as_keys _ _ _ _ Has), decide_True by done. intros Hx.
        destruct (fo_root _ (sr_forest _ _ Hsame) x Hx) as [rx Hrx]. exists rx. exact (compress_root _ _ _ _ _ _ Hkr1 Hkr' Has Hrx).
      * rewrite (as_keys _ _ _ _ Has), decide_True by done. apply Hsame.
      * intros x rx Hx. exact (compress_root _ _ _ _ _ _ Hkr1 Hkr' Has (sr_root _ _ Hsame _ _ Hx)).
Qed.

(** [GetBucket] returns the root of an element and keeps all roots. *)
Lemma GetBucket_spec m k r E : forest m → root m k r →
  wp (GetBucket k) (λ p m', p = r ∧ same_roots m m') E m.
Proof.
  intros Hf [l Hl]. unfold GetBucket. wp_steps. eapply GetBucket_fuel_spec; [done|done|].
  pose proof (path_length _ _ _ _ (fo_wf _ Hf) Hl). lia.
Qed.

(** ** Components *)

(** Elements have the same root if and only if [R] connects them. *)
Record uf (ks : list nat) (R : relation nat) (m : InsertOrderMap) : Prop := {
  uf_forest : forest m;
  uf_keys : keys m = ks;
  uf_within a b : R a b → a ∈ ks ∧ b ∈ ks;
  uf_components a b ra rb : root m a ra → root m b rb → ra = rb ↔ rtsc R a b
}.

Lemma rtsc_mono {A} (R R' : relation A) a b : (∀ x y, R x y → R' x y) → rtsc R a b → rtsc R' a b.
Proof. intros HR. apply (rtsc_congruence id). exact HR. Qed.

Lemma uf_ext ks R R' m : (∀ a b, R a b ↔ R' a b) → uf ks R m → uf ks R' m.
Proof.
  intros HR [H1 H2 H3 H4]. split; [done|done| |].
  - intros a b Hab. by apply H3, HR.
  - intros a b ra rb Ha Hb. rewrite (H4 a b ra rb Ha Hb).
    split; apply rtsc_mono; intros x y; apply HR.
Qed.

Lemma uf_same_roots ks R m m' : uf ks R m → same_roots m m' → uf ks R m'.
Proof.
  intros [H1 H2 H3 H4] [S1 S2 S3]. split; [done|congruence|done|].
  intros a b ra rb Ha Hb.
  destruct (fo_root _ H1 a) as [ra' Ha']; [rewrite <- S2; eapply root_key; [apply S1|done]|].
  destruct (fo_root _ H1 b) as [rb' Hb']; [rewrite <- S2; eapply root_key; [apply S1|done]|].
  rewrite (root_unique _ _ _ _ Ha (S3 _ _ Ha')), (root_unique _ _ _ _ Hb (S3 _ _ Hb')). by apply H4.
Qed.

Definition edge (a b : nat) : relation nat := λ x y, x = a ∧ y = b.
Definition plus (R R' : relation nat) : relation nat := λ x y, R x y ∨ R' x y.

(** The roots after the classes of [a] and [b] have been joined. *)
Lemma uf_join ks R m m' a b ra rb : uf ks R m → root m a ra → root m b rb →
  forest m' → keys m' = ks → (∀ x r, root m x r → root m' x (redirect ra rb r)) →
  uf ks (plus R (edge a b)) m'.
Proof.
  intros [H1 H2 H3 H4] Ha Hb Hf Hk Hroot.
  destruct (root_keys m a ra (fo_wf _ H1) Ha) as (Hak & _ & _). rewrite H2 in Hak.
  destruct (root_keys m b rb (fo_wf _ H1) Hb) as (Hbk & _ & _). rewrite H2 in Hbk.
  assert (∀ x y, plus R (edge a b) x y → x ∈ ks ∧ y ∈ ks) as Hwithin
    by (intros x y [Hxy|[-> ->]]; [by apply H3|done]).
  split; [done|done|done|].
  assert (∀ x, x ∈ ks → ∃ rx, root m x rx ∧ root m' x (redirect ra rb rx)) as Hget.
  { intros x Hx. rewrite <- H2 in Hx. destruct (fo_root _ H1 x Hx) as [rx Hrx]. eauto. }
  assert (∀ x y, rtsc R x y → rtsc (plus R (edge a b)) x y) as Hmono by (intros x y; apply rtsc_mono; by left).
  assert (rtsc (plus R (edge a b)) a b) as Hab by (apply rtsc_lr; by right).
  intros x y rx' ry' Hx Hy.
  destruct (Hget x) as (rx & Hrx & Hrx'); [rewrite <- Hk; eapply root_key; [apply Hf|done]|].
  destruct (Hget y) as (ry & Hry & Hry'); [rewrite <- Hk; eapply root_key; [apply Hf|done]|].
  rewrite (root_unique _ _ _ _ Hx Hrx'), (root_unique _ _ _ _ Hy Hry'). split.
  - unfold redirect. do 2 case_decide; subst.
    + intros _. apply Hmono. by eapply H4.
    + intros <-. transitivity a; [apply Hmono; by eapply H4|]. transitivity b; [done|]. apply Hmono. by eapply H4.
    + intros ->. transitivity b; [apply Hmono; by eapply H4|]. transitivity a; [by symmetry|]. apply Hmono. by eapply H4.
    + intros ->. apply Hmono. by eapply H4.
  - intros Hxy. clear Hx Hy Hrx' Hry' rx' ry'. revert rx Hrx. induction Hxy as [x|x z y Hxz _ IH]; intros rx Hrx.
    + by rewrite (root_unique _ _ _ _ Hrx Hry).
    + assert (z ∈ ks) as Hz by (destruct Hxz as [?%Hwithin|?%Hwithin]; tauto).
      destruct (Hget z Hz) as (rz & Hrz & _). rewrite <- (IH Hry rz Hrz).
      destruct Hxz as [[Hxz|[-> ->]]|[Hxz|[-> ->]]].
      * f_equal. apply (H4 x z); [done|done|by apply rtsc_lr].
      * rewrite (root_unique _ _ _ _ Hrx Ha), (root_unique _ _ _ _ Hrz Hb). unfold redirect.
        rewrite decide_True by done. by case_decide.
      * f_equal. apply (H4 x z); [done|done|by apply rtsc_rl].
      * rewrite (root_unique _ _ _ _ Hrx Hb), (root_unique _ _ _ _ Hrz Ha). unfold redirect.
        rewrite (decide_True (P := ra = ra)) by done. by case_decide.
Qed.

Lemma Insert_spec ks R m a b E : uf ks R m → a ∈ ks → b ∈ ks →
  wp (Insert a b) (λ _ m', uf ks (plus R (edge a b)) m') E m.
Proof.
  intros Hm Ha Hb. pose proof Hm as [Hf Hk _ _]. rewrite <- Hk in Ha, Hb.
  destruct (fo_root _ Hf a Ha) as [ra Hra]. destruct (fo_root _ Hf b Hb) as [rb Hrb].
  unfold Insert. apply wp_bind. eapply wp_post; [|by eapply GetBucket_spec]. intros p m1 [-> Hs1].
  pose proof (sr_root _ _ Hs1 _ _ Hra) as Hra1.
  apply wp_bind. eapply wp_post; [|eapply (GetBucket_spec m1); [apply Hs1|exact Hra1]]. intros p m2 [-> Hs2].
  pose proof (same_roots_trans _ _ _ Hs1 Hs2) as Hs. case_decide as Heq.
  - apply wp_ret. eapply (uf_join ks R m m2 a b ra rb); [done..|apply Hs|by rewrite (sr_keys _ _ Hs)|].
    intros x r Hx. unfold redirect. case_decide; subst; by apply Hs.
  - apply wp_InsertOrAssign; [apply Hs|]. intros m3 Has.
    pose proof (sr_root _ _ Hs) as Hroots. destruct (sr_forest _ _ Hs) as [Hwf2 Hfo2].
    assert (look m2 ra = Some ra) as Hlra by (destruct (Hroots _ _ Hra) as [l Hl]; by eapply path_end).
    assert (look m2 rb = Some rb) as Hlrb by (destruct (Hroots _ _ Hrb) as [l Hl]; by eapply path_end).
    assert (keys m3 = keys m2) as Hkeys.
    { rewrite (as_keys _ _ _ _ Has), decide_True; [done|]. apply look_keys; eauto. }
    assert (∀ x r, root m2 x r → root m3 x (redirect ra rb r)) as Hlink by (intros x r; by eapply link_root).
    eapply (uf_join ks R m m3 a b ra rb); [done..| | |].
    + split; [apply Has|]. intros x. rewrite Hkeys. intros Hx. destruct (Hfo2 x Hx) as [rx Hrx]. eauto.
    + by rewrite Hkeys, (sr_keys _ _ Hs).
    + intros x r Hx. apply Hlink. by apply Hroots.
Qed.

(** Every operation is its own class before the first union. *)
Lemma insert_all_spec ops E : NoDup ops →
  wp (for_each ops (λ op, InsertOrAssign op op)) (λ _, uf ops (λ _ _, False)) E empty_map.
Proof.
  intros Hnd.
  set (I := λ done m, iom_wf m ∧ keys m = done ∧ ∀ k, k ∈ done → look m k = Some k).
  eapply wp_post; [|apply (wp_for_each I)].
  - intros [] m (Hwf & Hk & Hl). split.
    + split; [done|]. intros k Hkk. exists k. exists [k]. constructor. apply Hl. by rewrite <- Hk.
    + done.
    + done.
    + assert (∀ x r, root m x r → r = x) as Hself.
      { intros x r Hx. assert (x ∈ ops) as Hxo by (rewrite <- Hk; by eapply root_key).
        eapply root_unique; [exact Hx|]. exists [x]. constructor. by apply Hl. }
      intros a b ra rb Ha%Hself Hb%Hself. subst. split; [by intros ->|].
      intros Hab. by inversion Hab as [|x y z [Hno|Hno] _]; subst.
  - split_and!; [apply empty_wf|done|]. intros k Hk. by apply not_elem_of_nil in Hk.
  - intros done x todo m Hops (Hwf & Hk & Hl). apply wp_InsertOrAssign; [done|].
    intros m' Has. assert (x ∉ done) as Hx.
    { rewrite Hops in Hnd. apply NoDup_app in Hnd as (_ & Hnd & _). intros Hx. apply (Hnd x Hx). by left. }
    split_and!; [apply Has| |].
    + by rewrite (as_keys _ _ _ _ Has), Hk, decide_False.
    + intros k Hkd. rewrite (as_look _ _ _ _ Has). case_decide as Heq; [by subst|].
      apply elem_of_app in Hkd as [Hkd| ->%list_elem_of_singleton]; [by apply Hl|done].
Qed.

(** [y] uses an output of [x]. *)
Definition feeds (h : ir) (x y : LiteRtOp) : Prop := ∃ O output T,
  op_heap h !! x = Some O ∧ output ∈ Outputs O ∧ tensor_heap h !! output = Some T ∧ y ∈ Users T.

(** The edges inside a set of operations. *)
Definition feeds_within (h : ir) (ops : list LiteRtOp) (x y : LiteRtOp) : Prop :=
  x ∈ ops ∧ y ∈ ops ∧ feeds h x y.

Record op_allocated (h : ir) (op : LiteRtOp) : Prop := {
  oa_op : is_Some (op_heap h !! op);
  oa_outputs O output : op_heap h !! op = Some O → output ∈ Outputs O → is_Some (tensor_heap h !! output)
}.

Definition edges_from (ks : list nat) (x : nat) (ys : nat → Prop) : relation nat := λ a b, a = x ∧ b ∈ ks ∧ ys b.

Lemma unite_users_spec h ks R op m E : uf ks R m → op ∈ ks → op_allocated h op →
  wp (unite_users h op) (λ _, uf ks (plus R (edges_from ks op (feeds h op)))) E m.
Proof.
  intros Hm Hop [[O HO] Hout]. unfold unite_users. apply wp_bind. eapply wp_deref; [exact HO|].
  set (used := λ (done : list nat) y, ∃ output T, output ∈ done ∧ tensor_heap h !! output = Some T ∧ y ∈ Users T).
  eapply wp_post; [|apply (wp_for_each (λ done, uf ks (plus R (edges_from ks op (used done)))))].
  - intros [] m'. simpl. apply uf_ext. intros a b. unfold plus, edges_from, used, feeds. naive_solver.
  - eapply uf_ext; [|exact Hm]. intros a b. unfold plus, edges_from, used. set_solver.
  - intros done output todo m1 Hl Hm1.
    destruct (Hout O output HO) as [T HT]; [rewrite Hl; in_list|].
    apply wp_bind. eapply wp_deref; [exact HT|].
    set (R1 := plus R (edges_from ks op (used done))) in *.
    eapply wp_post; [|apply (wp_for_each (λ done', uf ks (plus R1 (edges_from ks op (.∈ done')))))].
    + intros [] m'. simpl. apply uf_ext. intros a b. unfold R1, plus, edges_from, used. set_solver.
    + eapply uf_ext; [|exact Hm1]. intros a b. unfold plus, edges_from. set_solver.
    + intros done' user todo' m2 Hl' Hm2. apply wp_bind, wp_Contains; [apply Hm2|].
      rewrite (uf_keys _ _ _ Hm2). case_bool_decide as Huser.
      * eapply wp_post; [|by eapply Insert_spec]. intros [] m'. simpl. apply uf_ext.
        intros a b. unfold plus, edges_from, edge. set_solver.
      * apply wp_ret. eapply uf_ext; [|exact Hm2]. intros a b. unfold plus, edges_from. set_solver.
Qed.

Lemma unite_all_spec h ops m E : uf ops (λ _ _, False) m → (∀ op, op ∈ ops → op_allocated h op) →
  wp (for_each ops (unite_users h)) (λ _, uf ops (feeds_within h ops)) E m.
Proof.
  intros Hm Hall.
  eapply wp_post; [|apply (wp_for_each (λ done, uf ops (λ a b, a ∈ done ∧ b ∈ ops ∧ feeds h a b)))].
  - intros [] m'. simpl. apply uf_ext. done.
  - eapply uf_ext; [|exact Hm]. set_solver.
  - intros done op todo m1 Hl Hm1. assert (op ∈ ops) as Hop by (rewrite Hl; in_list).
    eapply wp_post; [|apply unite_users_spec; [exact Hm1|done|by apply Hall]]. intros [] m'. simpl. apply uf_ext.
    intros a b. unfold plus, edges_from. set_solver.
Qed.

(** ** Grouping *)

Section grouping.
Context {K : Type} `{Countable K} {A : Type}.
Implicit Types (l : list (A * K)).

Definition group l : gmap K (list A) := foldl (λ m p, <[p.2 := default [] (m !! p.2) ++ [p.1]]> m) ∅ l.

Definition members (k : K) l : list A := (filter (λ p, p.2 = k) l).*1.

Lemma group_snoc l p : group (l ++ [p]) = <[p.2 := default [] (group l !! p.2) ++ [p.1]]> (group l).
Proof. unfold group. by rewrite foldl_app. Qed.

Lemma members_snoc k l p : members k (l ++ [p]) = members k l ++ (if decide (p.2 = k) then [p.1] else []).
Proof.
  unfold members. rewrite filter_app, fmap_app, filter_cons, filter_nil. by case_decide.
Qed.

Lemma group_lookup l k : group l !! k = if decide (members k l = []) then None else Some (members k l).
Proof.
  induction l as [|p l IH] using rev_ind; [done|]. rewrite group_snoc, members_snoc.
  destruct (decide (p.2 = k)) as [<-|Hne].
  - rewrite lookup_insert_eq. rewrite (decide_False (P := _ ++ _ = [])) by by destruct (members p.2 l).
    rewrite IH. f_equal. case_decide as Hnil; [by rewrite Hnil|done].
  - rewrite lookup_insert_ne by done. by rewrite app_nil_r.
Qed.

Lemma group_concat l : concat (map_to_list (group l)).*2 ≡ₚ l.*1.
Proof.
  induction l as [|p l IH] using rev_ind; [done|]. rewrite group_snoc, fmap_app. simpl. rewrite <- IH. clear IH.
  generalize (group l). intros m. destruct (m !! p.2) as [v|] eqn:Hv; simpl.
  - rewrite <- (insert_delete_eq m), map_to_list_insert by apply lookup_delete_eq.
    rewrite <- (map_to_list_delete m p.2 v) by done. simpl. rewrite <- !app_assoc. f_equiv. apply Permutation_app_comm.
  - rewrite map_to_list_insert by done. simpl. by rewrite Permutation_cons_append.
Qed.

Lemma members_elem k l a : a ∈ members k l ↔ (a, k) ∈ l.
Proof.
  unfold members. rewrite list_elem_of_fmap. split.
  - intros ([a' k'] & -> & [<- ?]%list_elem_of_filter). done.
  - intros Ha. exists (a, k). split; [done|]. by apply list_elem_of_filter.
Qed.

Lemma members_sublist k l : members k l `sublist_of` l.*1.
Proof.
  unfold members. induction l as [|p l IH]; [done|]. rewrite filter_cons. simpl.
  case_decide; simpl; [by constructor|by apply sublist_cons].
Qed.
End grouping.

(** The lists of a map of groups, in any order of iteration. *)
Lemma hash_group `{HashOrder} {K} `{Countable K} {A} (l : list (A * K)) b :
  b ∈ (hash_order (group l)).*2 ↔ ∃ k, b = members k l ∧ b ≠ [].
Proof.
  rewrite hash_order_perm, list_elem_of_fmap. split.
  - intros ([k v] & -> & Hv%elem_of_map_to_list). rewrite group_lookup in Hv. exists k. simpl. case_decide; naive_solver.
  - intros (k & -> & Hne). exists (k, members k l). split; [done|]. apply elem_of_map_to_list.
    by rewrite group_lookup, decide_False.
Qed.

(** ** The buckets *)

(** [buckets] are the classes of [ops] under the equivalence generated by [R]. *)
Record classes (ops : list nat) (R : relation nat) (buckets : list (list nat)) : Prop := {
  cl_all : concat buckets ≡ₚ ops;
  cl_bucket b : b ∈ buckets → b ≠ [] ∧ b `sublist_of` ops;
  cl_same a c : a ∈ ops → c ∈ ops → (∃ b, b ∈ buckets ∧ a ∈ b ∧ c ∈ b) ↔ rtsc R a c
}.

Lemma hash_concat `{HashOrder} {K} `{Countable K} {A} (m : gmap K (list A)) :
  concat (hash_order m).*2 ≡ₚ concat (map_to_list m).*2.
Proof. by rewrite hash_order_perm. Qed.

Lemma rooted_classes `{HashOrder} ks R m l : uf ks R m → l.*1 = ks →
  (∀ p, p ∈ l → root m p.1 p.2) → classes ks R ((hash_order (group l)).*2).
Proof.
  intros Hm Hks Hl. split.
  - by rewrite hash_concat, group_concat, Hks.
  - intros b (k & -> & Hne)%hash_group. split; [done|]. rewrite <- Hks. apply members_sublist.
  - assert (∀ a, a ∈ ks → ∃ ra, (a, ra) ∈ l) as Hin.
    { intros a. rewrite <- Hks. intros ([a' ra] & -> & Ha)%list_elem_of_fmap. by exists ra. }
    intros a c Ha Hc. destruct (Hin a Ha) as [ra Hra], (Hin c Hc) as [rc Hrc].
    rewrite <- (uf_components _ _ _ Hm a c ra rc (Hl _ Hra) (Hl _ Hrc)). split.
    + intros (b & (k & -> & _)%hash_group & Hak%members_elem & Hck%members_elem).
      pose proof (root_unique _ _ _ _ (Hl _ Hra) (Hl _ Hak)) as Hak'.
      pose proof (root_unique _ _ _ _ (Hl _ Hrc) (Hl _ Hck)) as Hck'. simpl in *. congruence.
    + intros <-. exists (members ra l). rewrite hash_group, !members_elem. split; [|done].
      exists ra. split; [done|]. intros Hnil. assert (a ∈ members ra l) as Hmem by by apply members_elem.
      rewrite Hnil in Hmem. by apply not_elem_of_nil in Hmem.
Qed.

Lemma GetBuckets_spec `{HashOrder} ks R m E : uf ks R m → wp GetBuckets (λ b _, classes ks R b) E m.
Proof.
  intros Hm. unfold GetBuckets. wp_steps. change ((values_ m).*1) with (keys m). rewrite (uf_keys _ _ _ Hm).
  set (I := λ done (inv : gmap nat (list nat)) m', uf ks R m' ∧ ∃ l, l.*1 = done ∧ inv = group l ∧
    ∀ p, p ∈ l → root m' p.1 p.2).
  eapply wp_post; [|apply (wp_fold_m I)].
  - intros inv m' (Hm' & l & Hl & -> & Hroots). wp_steps. by eapply rooted_classes.
  - split; [done|]. exists []. split_and!; [done..|]. intros p Hp. by apply not_elem_of_nil in Hp.
  - intros done op todo inv m1 Hks (Hm1 & l & Hl & -> & Hroots).
    destruct (fo_root _ (uf_forest _ _ _ Hm1) op) as [r Hr]; [rewrite (uf_keys _ _ _ Hm1), Hks; in_list|].
    apply wp_bind. eapply wp_post; [|by eapply GetBucket_spec; [apply Hm1|]]. intros p m2 [-> Hs].
    apply wp_ret. split; [by eapply uf_same_roots|]. exists (l ++ [(op, r)]).
    rewrite fmap_app, Hl, group_snoc. split_and!; [done..|]. apply forall_snoc.
    split; [|by apply Hs]. intros p Hp. by apply Hs, Hroots.
Qed.

Lemma partition_buckets_spec `{HashOrder} h ops E : NoDup ops → (∀ op, op ∈ ops → op_allocated h op) →
  wp (partition_buckets h ops) (λ b _, classes ops (feeds_within h ops) b) E empty_map.
Proof.
  intros Hnd Hall. unfold partition_buckets. apply wp_bind.
  eapply wp_post; [|by apply insert_all_spec]. intros [] m1 Hm1. apply wp_bind.
  eapply wp_post; [|by apply unite_all_spec]. intros [] m2 Hm2. by apply GetBuckets_spec.
Qed.

(** ** All partitions *)

(** The edges inside the operations with one partition index. *)
Definition linked_at (h : ir) (flat : list (LiteRtOp * Z)) (i : Z) : relation LiteRtOp := feeds_within h (members i flat).

Lemma members_NoDup {K} `{Countable K} (k : K) (l : list (nat * K)) : NoDup l.*1 → NoDup (members k l).
Proof. intros. eapply sublist_NoDup; [done|]. apply members_sublist. Qed.

Lemma index_unique {K} (l : list (nat * K)) a i j : NoDup l.*1 → (a, i) ∈ l → (a, j) ∈ l → i = j.
Proof.
  intros Hnd [x Hx]%list_elem_of_lookup [y Hy]%list_elem_of_lookup.
  assert (x = y) as <-; [|congruence]. eapply (NoDup_lookup l.*1); [done| |];
    rewrite list_lookup_fmap; [by rewrite Hx|by rewrite Hy].
Qed.

Lemma default_members {K} `{Countable K} (l : list (nat * K)) k : default [] (group l !! k) = members k l.
Proof. rewrite group_lookup. by case_decide as Hnil; rewrite ?Hnil. Qed.

Lemma concat_members {K} `{Countable K} (l : list (nat * K)) :
  concat ((λ k, members k l) <$> (map_to_list (group l)).*1) ≡ₚ l.*1.
Proof.
  rewrite <- (group_concat l). rewrite <- list_fmap_compose. 
  assert (((λ k, members k l) ∘ fst <$> map_to_list (group l)) = (map_to_list (group l)).*2) as ->; [|done].
  apply list_fmap_ext. intros i [k v] Hkv%list_elem_of_lookup_2%elem_of_map_to_list. simpl.
  by rewrite <- default_members, Hkv.
Qed.

Lemma concat_classes h flat idxs bss : Forall2 (λ i bs, classes (members i flat) (linked_at h flat i) bs) idxs bss →
  concat (concat bss) ≡ₚ concat ((λ k, members k flat) <$> idxs).
Proof.
  induction 1 as [|i bs idxs bss Hbs _ IH]; [done|]. cbn [concat fmap list_fmap].
  by rewrite concat_app, IH, (cl_all _ _ _ Hbs).
Qed.

(** The buckets of [GroupPartitions]: they partition the selected operations;
    each keeps the order of the list; and two operations share a bucket when
    they have one index and are connected inside it. *)
Record grouped (h : ir) (flat : list (LiteRtOp * Z)) (buckets : list (list LiteRtOp)) : Prop := {
  gr_all : concat buckets ≡ₚ flat.*1;
  gr_bucket b : b ∈ buckets → b ≠ [] ∧ b `sublist_of` flat.*1;
  gr_same a c i j : (a, i) ∈ flat → (c, j) ∈ flat →
    (∃ b, b ∈ buckets ∧ a ∈ b ∧ c ∈ b) ↔ i = j ∧ rtsc (linked_at h flat i) a c
}.

Lemma classes_grouped h flat idxs bss : NoDup flat.*1 →
  idxs ≡ₚ (map_to_list (group flat)).*1 →
  Forall2 (λ i bs, classes (members i flat) (linked_at h flat i) bs) idxs bss → grouped h flat (concat bss).
Proof.
  intros Hnd Hperm Hbss.
  assert (∀ b, b ∈ concat bss → ∃ i bs, b ∈ bs ∧ classes (members i flat) (linked_at h flat i) bs) as Hb.
  { intros b (bs & Hbs & Hin)%concat_elem.
    apply list_elem_of_lookup in Hbs as [x Hx]. destruct (Forall2_lookup_r _ _ _ _ _ Hbss Hx) as (i & _ & Hcl). eauto. }
  split.
  - rewrite (concat_classes _ _ _ _ Hbss), Hperm. apply concat_members.
  - intros b (i & bs & Hin & Hcl)%Hb. destruct (cl_bucket _ _ _ Hcl b Hin) as [? Hsub]. split; [done|].
    etrans; [exact Hsub|apply members_sublist].
  - intros a c i j Ha Hc. split.
    + intros (b & (k & bs & Hin & Hcl)%Hb & Hab & Hcb).
      assert (∀ x, x ∈ b → (x, k) ∈ flat) as Hmem.
      { intros x Hx. apply members_elem. destruct (cl_bucket _ _ _ Hcl b Hin) as [_ Hsub].
        by eapply elem_of_sublist. }
      assert (i = k) as -> by (eapply index_unique; [exact Hnd|exact Ha|by apply Hmem]).
      assert (j = k) as -> by (eapply index_unique; [exact Hnd|exact Hc|by apply Hmem]).
      split; [done|]. apply (cl_same _ _ _ Hcl); [by apply members_elem..|eauto].
    + intros [<- Hac]. assert (i ∈ idxs) as Hi.
      { rewrite Hperm. apply list_elem_of_fmap. exists (i, members i flat). split; [done|].
        apply elem_of_map_to_list. rewrite group_lookup, decide_False; [done|]. intros Hnil.
        apply members_elem in Ha. rewrite Hnil in Ha. by apply not_elem_of_nil in Ha. }
      apply list_elem_of_lookup in Hi as [x Hx]. destruct (Forall2_lookup_l _ _ _ _ _ Hbss Hx) as (bs & Hbs & Hcl).
      apply (cl_same _ _ _ Hcl) in Hac as (b & Hb' & Hab & Hcb); [|by apply members_elem..].
      exists b. split; [|done]. apply concat_elem. exists bs. split; [by eapply list_elem_of_lookup_2|done].
Qed.

(** The grouping by union-find. *)
Lemma flat_list_grouped `{HashOrder} h flat {S} (s : S) :
  NoDup flat.*1 → (∀ op, op ∈ flat.*1 → op_allocated h op) →
  ∃ buckets, GetPartitionsFromFlatList h flat s = Done buckets s ∧ grouped h flat buckets.
Proof.
  intros Hnd Hall.
  enough (wp (GetPartitionsFromFlatList h flat) (λ b s', s' = s ∧ grouped h flat b) (λ _, False) s) as Hwp.
  { apply wp_no_error in Hwp as (b & s' & Hrun & -> & Hb). eauto. }
  unfold GetPartitionsFromFlatList. change (partition_map flat) with (group flat).
  set (I := λ idxs all s', s' = s ∧ ∃ bss, all = concat bss ∧
    Forall2 (λ i bs, classes (members i flat) (linked_at h flat i) bs) idxs bss).
  eapply wp_post; [|apply (wp_fold_m I)].
  - intros all s' (-> & bss & -> & Hbss). split; [done|]. eapply classes_grouped; [done| |exact Hbss].
    by rewrite hash_order_perm.
  - split; [done|]. exists []. by split.
  - intros done i todo all s' Hl (-> & bss & -> & Hbss). rewrite default_members. apply wp_bind, wp_zoom.
    eapply wp_post; [|apply partition_buckets_spec; [by apply members_NoDup|]].
    + intros bs m Hcl. apply wp_ret. split; [done|]. exists (bss ++ [bs]). split.
      * rewrite concat_app. simpl. by rewrite app_nil_r.
      * by apply Forall2_app; [|constructor].
    + intros op Hop. apply Hall. eapply elem_of_sublist; [exact Hop|apply members_sublist].
Qed.

(** C13: for every order in which the hash maps are iterated, the grouping of
    distinct selected operations by [GroupPartitions] terminates with buckets
    that partition them: no bucket is empty, each keeps the order of the list,
    and two operations are in one bucket if and only if they have the same
    partition index and are connected by uses of outputs among the operations
    with that index. *)
Theorem GetPartitionsFromFlatList_components `{HashOrder} h flat {S} (s : S) :
  NoDup flat.*1 → (∀ op, op ∈ flat.*1 → op_allocated h op) →
  ∃ buckets, GetPartitionsFromFlatList h flat s = Done buckets s ∧ grouped h flat buckets.
Proof. apply flat_list_grouped. Qed.

(** ** Runs of the execution order *)

Definition tagged (r : Z * list LiteRtOp) : list (LiteRtOp * Z) := (λ op, (op, r.1)) <$> r.2.

(** [runs] cuts [l] into maximal segments with one index. *)
Record runs_of (l : list (LiteRtOp * Z)) (runs : list (Z * list LiteRtOp)) : Prop := {
  ru_all : concat (tagged <$> runs) = l;
  ru_nonempty r : r ∈ runs → r.2 ≠ [];
  ru_maximal k r r' : runs !! k = Some r → runs !! S k = Some r' → r.1 ≠ r'.1
}.

Lemma runs_extend l runs i ops op : runs_of l (runs ++ [(i, ops)]) → runs_of (l ++ [(op, i)]) (runs ++ [(i, ops ++ [op])]).
Proof.
  intros [H1 H2 H3]. split.
  - rewrite <- H1, !fmap_app, !concat_app, <- app_assoc. simpl. unfold tagged. simpl. by rewrite !app_nil_r, fmap_app.
  - apply forall_snoc in H2 as [H2 _]. apply forall_snoc. split; [done|]. simpl. by destruct ops.
  - intros k r r' Hr Hr'. apply lookup_app_Some in Hr as [Hr|[Hge Hr]].
    + apply lookup_app_Some in Hr' as [Hr'|[Hge Hr']].
      * by apply (H3 k); apply lookup_app_l_Some.
      * apply list_lookup_singleton_Some in Hr' as [Hk <-]. simpl.
        apply (H3 k r (i, ops)); [by apply lookup_app_l_Some|].
        rewrite lookup_app_r by done. by rewrite Hk.
    + apply lookup_lt_Some in Hr'. rewrite length_app in Hr'. simpl in Hr'. lia.
Qed.

Lemma runs_new l runs i ops j op : runs_of l (runs ++ [(i, ops)]) → j ≠ i →
  runs_of (l ++ [(op, j)]) ((runs ++ [(i, ops)]) ++ [(j, [op])]).
Proof.
  intros [H1 H2 H3] Hji. split.
  - rewrite fmap_app, concat_app, H1. simpl. unfold tagged. simpl. done.
  - apply forall_snoc. by split.
  - intros k r r' Hr Hr'. apply lookup_app_Some in Hr as [Hr|[Hge Hr]].
    + apply lookup_app_Some in Hr' as [Hr'|[Hge Hr']]; [by apply (H3 k)|].
      apply list_lookup_singleton_Some in Hr' as [Hk <-]. simpl.
      apply lookup_lt_Some in Hr as Hlt. rewrite length_app in Hk, Hlt, Hge. simpl in *.
      assert (k = length runs) as -> by lia. rewrite lookup_app_r, Nat.sub_diag in Hr by lia.
      injection Hr as <-. simpl. done.
    + apply lookup_lt_Some in Hr'. rewrite !length_app in *. simpl in *. lia.
Qed.

Definition selected_runs (n : Z) (runs : list (Z * list LiteRtOp)) : list (list LiteRtOp) :=
  (filter (λ r, r.1 ≠ n) runs).*2.

Lemma selected_runs_snoc n runs r :
  selected_runs n (runs ++ [r]) = selected_runs n runs ++ (if decide (r.1 = n) then [] else [r.2]).
Proof.
  unfold selected_runs. rewrite filter_app, fmap_app, filter_cons, filter_nil. by do 2 case_decide.
Qed.

(** The state of the loop after the operations of [l]. *)
Definition loop_state (n : Z) (l : list (LiteRtOp * Z)) (st : list (list LiteRtOp) * list LiteRtOp * Z) : Prop :=
  ∃ runs ops, runs_of l (runs ++ [(st.2, ops)]) ∧ st.1.1 = selected_runs n runs ∧
    st.1.2 = if decide (st.2 = n) then [] else ops.

Lemma partition_step_spec n l st p : loop_state n l st → loop_state n (l ++ [p]) (partition_step n st p).
Proof.
  destruct st as [[parts cur] ci], p as [op j]. intros (runs & ops & Hruns & Hparts & Hcur). simpl in *.
  unfold partition_step. destruct (Z.eqb_spec j ci) as [->|Hne].
  - apply (runs_extend _ _ _ _ op) in Hruns. exists runs, (ops ++ [op]).
    destruct (Z.eqb_spec ci n) as [->|Hn]; simpl; split_and!; try done.
    + by rewrite decide_True in * by done.
    + rewrite decide_False in * by done. by rewrite Hcur.
  - apply (runs_new _ _ _ _ j op) in Hruns as Hnew; [|done]. exists (runs ++ [(ci, ops)]), [op].
    assert (ops ≠ []) as Hops by (apply (ru_nonempty _ _ Hruns (ci, ops)); in_list).
    assert ((if decide (cur = []) then (parts, cur, j) else (parts ++ [cur], [], j)) =
      (selected_runs n (runs ++ [(ci, ops)]), [], j)) as ->.
    { rewrite selected_runs_snoc. simpl. subst. destruct (decide (ci = n)); simpl.
      - by rewrite app_nil_r.
      - by rewrite decide_False by done. }
    destruct (Z.eqb_spec j n) as [->|Hn]; simpl; split_and!; try done.
    + by rewrite decide_True by done.
    + by rewrite decide_False by done.
Qed.

Lemma partition_loop_spec n l p :
  loop_state n (p :: l) (foldl (partition_step n) ([], [], p.2) (p :: l)).
Proof.
  induction l as [|q l IH] using rev_ind.
  - destruct p as [op i]. simpl. rewrite Z.eqb_refl. exists [], [op].
    assert (runs_of [(op, i)] [(i, [op])]) as Hruns
      by (split; [done|by intros r ->%list_elem_of_singleton|by intros [|k] r r']).
    destruct (Z.eqb_spec i n) as [->|Hn]; simpl; (split_and!; [done..|]).
    + by rewrite decide_True.
    + by rewrite decide_False.
  - rewrite app_comm_cons, foldl_app. by apply partition_step_spec.
Qed.

(** The result is the list of the maximal runs with a selected index. *)
Lemma GetPartitionsFromFlatListV2_runs ops G : ∃ runs, runs_of (sorted_ops ops G) runs ∧
  GetPartitionsFromFlatListV2 ops G = selected_runs (unselected_ops_partition_index ops) runs.
Proof.
  unfold GetPartitionsFromFlatListV2. destruct (sorted_ops ops G) as [|p l].
  { exists []. split; [|done]. split; [done|by intros r ?%not_elem_of_nil|done]. }
  pose proof (partition_loop_spec (unselected_ops_partition_index ops) l p) as Hst. revert Hst.
  destruct (foldl _ _ (p :: l)) as [[parts cur] ci]. intros (runs & o & Hruns & Hparts & Hcur). simpl in *. exists (runs ++ [(ci, o)]). split; [done|].
  assert (o ≠ []) as Ho by (apply (ru_nonempty _ _ Hruns (ci, o)); in_list).
  rewrite selected_runs_snoc. simpl. subst. destruct (decide (ci = _)); simpl.
  - by rewrite app_nil_r.
  - by rewrite decide_False.
Qed.

Lemma selected_runs_concat n runs :
  concat (selected_runs n runs) = (filter (λ p, p.2 ≠ n) (concat (tagged <$> runs))).*1.
Proof.
  unfold selected_runs. induction runs as [|[i o] runs IH]; [done|]. cbn [fmap list_fmap concat].
  rewrite filter_app, fmap_app, <- IH, filter_cons. simpl. clear IH. case_decide as Hi; simpl; f_equal.
  - rewrite filter_all.
    + unfold tagged. rewrite <- list_fmap_compose. simpl. symmetry. apply list_fmap_id.
    + intros p (op & -> & _)%list_elem_of_fmap. done.
  - rewrite (filter_none _ (tagged _)); [done|]. intros p (op & -> & _)%list_elem_of_fmap. simpl. tauto.
Qed.

Lemma op_to_partition_index_spec ops o : match op_to_partition_index ops !! o with
  | Some i => (o, i) ∈ ops
  | None => o ∉ ops.*1
  end.
Proof.
  unfold op_to_partition_index. induction ops as [|p ops IH] using rev_ind.
  { simpl. rewrite lookup_empty. apply not_elem_of_nil. }
  rewrite foldl_app. simpl. destruct (decide (o = p.1)) as [->|Hne].
  - rewrite lookup_insert_eq. destruct p. in_list.
  - rewrite lookup_insert_ne by done. destruct (_ !! o) as [i|].
    + in_list.
    + rewrite fmap_app, elem_of_app. intros [?|?%list_elem_of_singleton]; [done|]. naive_solver.
Qed.

Lemma max_index_ge (ops : list (LiteRtOp * Z)) n :
  let m := foldl (λ n op, if n <? op.2 then op.2 else n) n ops in
  n ≤ m ∧ (∀ p, p ∈ ops → p.2 ≤ m) ∧ (m = n ∨ ∃ p, p ∈ ops ∧ m = p.2).
Proof.
  revert n. induction ops as [|p ops IH]; intros n; simpl.
  { split_and!; [done|by intros p ?%not_elem_of_nil|by left]. }
  destruct (IH (if n <? p.2 then p.2 else n)) as (H1 & H2 & H3). split_and!.
  - destruct (Z.ltb_spec n (p.2)); lia.
  - intros q [->|Hq]%elem_of_cons; [|by apply H2]. destruct (Z.ltb_spec n (p.2)); lia.
  - destruct H3 as [->|(q & Hq & ->)]; [|right; exists q; split; [in_list|done]].
    destruct (Z.ltb_spec n (p.2)); [right; exists p; split; [in_list|done]|by left].
Qed.

Lemma unselected_index_fresh ops : (∀ p, p ∈ ops → 0 ≤ p.2 < size_max) →
  ∀ p, p ∈ ops → p.2 ≠ unselected_ops_partition_index ops.
Proof.
  intros Hr p Hp. unfold unselected_ops_partition_index.
  destruct (max_index_ge ops 0) as (H1 & H2 & H3). set (m := foldl _ 0 ops) in *.
  pose proof (H2 p Hp). rewrite u64_id; [lia|]. split; [lia|].
  destruct H3 as [->|(q & Hq & ->)]; [done|]. specialize (Hr q Hq). lia.
Qed.

(** The grouping by execution order. *)
Lemma runs_selected ops G :
  (∀ p, p ∈ ops → 0 ≤ p.2 < size_max) →
  ∃ runs, runs_of (sorted_ops ops G) runs ∧
    GetPartitionsFromFlatListV2 ops G = selected_runs (unselected_ops_partition_index ops) runs ∧
    concat (GetPartitionsFromFlatListV2 ops G) = filter (λ op, op ∈ ops.*1) (Ops G) ∧
    ∀ b, b ∈ GetPartitionsFromFlatListV2 ops G → b ≠ [] ∧ ∃ i, ∀ op, op ∈ b → (op, i) ∈ ops.
Proof.
  intros Hr. pose proof (unselected_index_fresh ops Hr) as Hn.
  destruct (GetPartitionsFromFlatListV2_runs ops G) as (runs & Hruns & ->). exists runs. split_and!; [done|done| |].
  - rewrite selected_runs_concat, (ru_all _ _ Hruns). unfold sorted_ops. generalize (Ops G). intros l.
    induction l as [|op l IH]; [done|]. rewrite fmap_cons, !filter_cons. cbn [snd].
    pose proof (op_to_partition_index_spec ops op) as Hop. destruct (_ !! op) as [i|] eqn:Hi; simpl.
    + rewrite decide_True by by apply (Hn (op, i)). rewrite decide_True; [|by apply list_elem_of_fmap; exists (op, i)].
      rewrite fmap_cons. by rewrite IH.
    + rewrite decide_False by tauto. by rewrite decide_False.
  - intros b ([i o] & -> & [Hi Hin]%list_elem_of_filter)%list_elem_of_fmap. simpl in *.
    split; [by apply (ru_nonempty _ _ Hruns (i, o))|]. exists i. intros op Hop.
    assert ((op, i) ∈ sorted_ops ops G) as Hs.
    { rewrite <- (ru_all _ _ Hruns). apply concat_elem. exists (tagged (i, o)).
      split; apply list_elem_of_fmap; [by exists (i, o)|by exists op]. }
    apply list_elem_of_fmap in Hs as (op' & [= <- ->] & _). pose proof (op_to_partition_index_spec ops op) as Hs.
    destruct (_ !! op) as [j|]; simpl in *; [done|by destruct Hi].
Qed.

(** The index that the plugin gave an operation; a later entry of the list overrides an
    earlier one. *)
Definition given_index (ops : list (LiteRtOp * Z)) (op : LiteRtOp) : option Z :=
  snd <$> last (filter (λ p, p.1 = op) ops).

Lemma op_to_partition_index_given ops op : op_to_partition_index ops !! op = given_index ops op.
Proof.
  unfold op_to_partition_index, given_index. induction ops as [|p ops IH] using rev_ind; [done|].
  rewrite foldl_app, filter_app, filter_cons, filter_nil. simpl. case_decide as Hp.
  - subst. by rewrite lookup_insert_eq, last_snoc.
  - rewrite app_nil_r, lookup_insert_ne by congruence. exact IH.
Qed.

(** [runs] cuts the operations [l] into maximal segments to which the plugin gave one
    index, or none. *)
Record execution_runs (ops : list (LiteRtOp * Z)) (l : list LiteRtOp) (runs : list (option Z * list LiteRtOp)) : Prop := {
  er_all : concat runs.*2 = l;
  er_nonempty r : r ∈ runs → r.2 ≠ [];
  er_index r op : r ∈ runs → op ∈ r.2 → given_index ops op = r.1;
  er_maximal k r r' : runs !! k = Some r → runs !! S k = Some r' → r.1 ≠ r'.1
}.

Definition given_run (n : Z) (r : Z * list LiteRtOp) : option Z * list LiteRtOp :=
  (if decide (r.1 = n) then None else Some r.1, r.2).

Lemma tagged_ops runs : (concat (tagged <$> runs)).*1 = concat runs.*2.
Proof.
  induction runs as [|r runs IH]; [done|]. cbn [fmap list_fmap concat]. rewrite fmap_app, IH. f_equal.
  unfold tagged. rewrite <- list_fmap_compose. simpl. apply list_fmap_id.
Qed.

Lemma runs_given ops G runs : (∀ p, p ∈ ops → 0 ≤ p.2 < size_max) → runs_of (sorted_ops ops G) runs →
  execution_runs ops (Ops G) (given_run (unselected_ops_partition_index ops) <$> runs).
Proof.
  intros Hr [H1 H2 H3]. set (n := unselected_ops_partition_index ops). split.
  - rewrite <- list_fmap_compose. change (snd ∘ given_run n) with (snd : Z * list LiteRtOp → _).
    rewrite <- tagged_ops, H1. unfold sorted_ops. rewrite <- list_fmap_compose. simpl. apply list_fmap_id.
  - intros r (r' & -> & Hin)%list_elem_of_fmap. by apply H2.
  - intros r op (r' & -> & Hin)%list_elem_of_fmap Hop. simpl in *.
    assert ((op, r'.1) ∈ sorted_ops ops G) as Hs.
    { rewrite <- H1. apply concat_elem. exists (tagged r'). split; apply list_elem_of_fmap; [by exists r'|by exists op]. }
    apply list_elem_of_fmap in Hs as (op' & [= <- Hi] & _). fold n in Hi. rewrite <- op_to_partition_index_given.
    pose proof (op_to_partition_index_spec ops op) as Hspec. destruct (_ !! op) as [j|]; simpl in Hi; rewrite Hi.
    + rewrite decide_False; [done|]. by apply (unselected_index_fresh ops Hr (op, j)).
    + by rewrite decide_True.
  - intros k r r' (q & -> & Hq)%list_lookup_fmap_Some (q' & -> & Hq')%list_lookup_fmap_Some.
    pose proof (H3 k q q' Hq Hq') as Hne. simpl. unfold given_run. simpl. repeat case_decide; congruence.
Qed.

Lemma selected_given n runs : selected_runs n runs = (filter (λ r, is_Some r.1) (given_run n <$> runs)).*2.
Proof.
  unfold selected_runs. induction runs as [|r runs IH]; [done|]. rewrite fmap_cons, !filter_cons. simpl.
  destruct (decide (r.1 = n)) as [Hn|Hn].
  - rewrite decide_False by tauto. by rewrite decide_False by (by intros [? ?]).
  - rewrite decide_True by done. rewrite decide_True by done. by rewrite !fmap_cons, IH.
Qed.

(** C35: when the largest index leaves room for the one of the operations that
    were not selected, [GroupPartitionsV2] cuts the execution order of the whole
    subgraph into the maximal runs of operations to which the plugin gave one index, or
    none, and returns the runs with an index: operations that others separate in
    execution order stay apart. Together the runs are the selected operations of the
    subgraph in execution order. *)
Theorem GetPartitionsFromFlatListV2_correct ops G :
  (∀ p, p ∈ ops → 0 ≤ p.2 < size_max) →
  ∃ runs, execution_runs ops (Ops G) runs ∧
    GetPartitionsFromFlatListV2 ops G = (filter (λ r, is_Some r.1) runs).*2 ∧
    concat (GetPartitionsFromFlatListV2 ops G) = filter (λ op, op ∈ ops.*1) (Ops G).
Proof.
  intros Hr. destruct (runs_selected ops G Hr) as (runs & Hruns & Hres & Hall & _).
  exists (given_run (unselected_ops_partition_index ops) <$> runs). split; [by apply runs_given|].
  split; [by rewrite Hres, selected_given|done].
Qed.

(** ** Concrete graphs *)

Definition plugin_tensor (users : list LiteRtOp) : LiteRtTensorT :=
  set_uses users (replicate (length users) 0) empty_tensor.

Definition plugin_op (outputs : list LiteRtTensor) : LiteRtOpT := set_Outputs outputs empty_op.

(** A chain 1 → 2 → 3 → 4 → 5. *)
Definition chain_ir : ir := {|
  tensor_heap := list_to_map ((λ i, (10 + i, plugin_tensor [S i])%nat) <$> [1; 2; 3; 4]%nat);
  op_heap := list_to_map ((λ i, (i, plugin_op (if decide (i = 5) then [] else [10 + i]))%nat) <$> [1; 2; 3; 4; 5]%nat);
  subgraph_heap := ∅; model_subgraphs := []; next_address := 20 |}.

Definition chain_graph : LiteRtSubgraphT :=
  {| Tensors := [11; 12; 13; 14]%nat; Ops := [1; 2; 3; 4; 5]%nat; SubgraphInputs := []; SubgraphOutputs := [] |}.

Definition chain_ops : list (LiteRtOp * Z) := [(1%nat, 7); (2%nat, 7); (3%nat, 9); (5%nat, 7)].

(** The union-find separates the operation 5, which only a different partition
    connects to 1 and 2. *)
Example chain_grouped : GetPartitionsFromFlatList chain_ir chain_ops tt = Done [[1; 2]; [5]; [3]]%nat tt.
Proof. vm_compute. reflexivity. Qed.

Example chain_runs : GetPartitionsFromFlatListV2 chain_ops chain_graph = [[1; 2]; [3]; [5]]%nat.
Proof. vm_compute. reflexivity. Qed.

(** With the largest index in use, the index of the operations that were not
    selected wraps around to 0, and the operations with index 0 are lost. *)
Example unselected_index_wraps :
  GetPartitionsFromFlatListV2 [(1%nat, 0); (2%nat, size_max)] chain_graph = [[2%nat]].
Proof. vm_compute. reflexivity. Qed.

Lemma GetPartitionsFromFlatList_components_witness :
  ∃ buckets, GetPartitionsFromFlatList chain_ir chain_ops tt = Done buckets tt ∧ grouped chain_ir chain_ops buckets.
Proof.
  apply (GetPartitionsFromFlatList_components chain_ir chain_ops tt).
  - apply (bool_decide_unpack _). by vm_compute.
  - assert (Forall (λ op, is_Some (op_heap chain_ir !! op) ∧
      ∀ O, op_heap chain_ir !! op = Some O → Forall (λ t, is_Some (tensor_heap chain_ir !! t)) (Outputs O)) chain_ops.*1)
      as Hall.
    { repeat constructor; try (by eexists); intros O HO; vm_compute in HO; injection HO as <-; repeat constructor; by eexists. }
    intros op Hop. rewrite Forall_forall in Hall. destruct (Hall op Hop) as [H1 H2]. split; [done|].
    intros O output HO Hout. specialize (H2 O HO). rewrite Forall_forall in H2. by apply H2.
Defined.

Lemma GetPartitionsFromFlatListV2_correct_witness :
  (∀ p, p ∈ chain_ops → 0 ≤ p.2 < size_max) ∧
  ∃ runs, execution_runs chain_ops [1; 2; 3; 4; 5]%nat runs ∧
    GetPartitionsFromFlatListV2 chain_ops chain_graph = (filter (λ r, is_Some r.1) runs).*2 ∧
    concat (GetPartitionsFromFlatListV2 chain_ops chain_graph) = filter (λ op, op ∈ chain_ops.*1) [1; 2; 3; 4; 5]%nat.
Proof.
  assert (∀ p, p ∈ chain_ops → 0 ≤ p.2 < size_max) as Hr by (apply Forall_forall, (bool_decide_unpack _); by vm_compute).
  split; [exact Hr|]. exact (GetPartitionsFromFlatListV2_correct chain_ops chain_graph Hr).
Defined.
