(* ===== verification/PluginRewrites.v ===== *)
(** * Rewrites of a model by the compiler plugin

    [GraphSlicer] of [litert/compiler/plugin/algo.cc], which moves a partition
    into a subgraph of its own and leaves a dispatch operation in its place
    ([OutlinePartition]), and [InlineSubgraph], which replaces a composite
    operation by a copy of the subgraph it stands for. *)

From S2P Require Import Prelude OpCodes LiteRtIr OpShapes PluginPartitions.

(** ** Outlining *)

(** The heap and the map from tensors of the root to tensors of the slice. *)
Record GraphSlicer := { slicer_ir : ir; tensor_map_ : InsertOrderMap }.

Definition on_ir {A} : M ir A → M GraphSlicer A :=
  zoom slicer_ir (λ h s, {| slicer_ir := h; tensor_map_ := tensor_map_ s |}).
Definition on_map {A} : M InsertOrderMap A → M GraphSlicer A :=
  zoom tensor_map_ (λ m s, {| slicer_ir := slicer_ir s; tensor_map_ := m |}).

Definition push_SubgraphInput (g : LiteRtSubgraph) (t : LiteRtTensor) : M ir unit :=
  update_subgraph g (λ G, set_SubgraphInputs (SubgraphInputs G ++ [t]) G).
Definition push_SubgraphOutput (g : LiteRtSubgraph) (t : LiteRtTensor) : M ir unit :=
  update_subgraph g (λ G, set_SubgraphOutputs (SubgraphOutputs G ++ [t]) G).

Definition kDispatchOpCodeTflInd : Z := -1.

Definition MakeDispatchOp (o : LiteRtOp) : M ir unit :=
  update_op o (λ O, {| OpCode := kLiteRtOpCodeTflCustom; Inputs := Inputs O; Outputs := Outputs O;
    CustomOptions := []; TflOpCodeInd := kDispatchOpCodeTflInd; GetTflOptions := OtherOptions |}).

Section slicer.
Context (slice_ : LiteRtSubgraph).

(** An input of the root that the partition uses. *)
Definition register_input (used_tensors : list LiteRtTensor) (old_input : LiteRtTensor) :
    M GraphSlicer unit :=
  if decide (old_input ∈ used_tensors) then
    new_input ← on_ir (MakeTensorClone slice_ old_input);
    on_ir (push_SubgraphInput slice_ new_input);;
    on_map (InsertOrAssign old_input new_input)
  else mret ().

Definition clone_input (new_op : LiteRtOp) (old_input : LiteRtTensor) : M GraphSlicer unit :=
  c ← on_map (Contains old_input);
  new_input ←
    (if (c : bool) then
       it ← on_map (Find old_input); deref it
     else
       new_input ← on_ir (MakeTensorClone slice_ old_input);
       T ← on_ir (get_tensor new_input);
       constant ← on_ir (IsConstant T);
       (if (constant : bool) then mret () else on_ir (push_SubgraphInput slice_ new_input));;
       on_map (InsertOrAssign old_input new_input);;
       mret new_input);
  on_ir (AttachInput new_input new_op).

Definition clone_output (new_op : LiteRtOp) (old_output : LiteRtTensor) : M GraphSlicer unit :=
  new_output ← on_ir (MakeTensorClone slice_ old_output);
  on_ir (AttachOutput new_output new_op);;
  on_map (InsertOrAssign old_output new_output).

Definition CloneInto (old_op : LiteRtOp) : M GraphSlicer unit :=
  new_op ← on_ir (MakeOpClone slice_ old_op);
  O ← on_ir (get_op old_op);
  for_each (Inputs O) (clone_input new_op);;
  for_each (Outputs O) (clone_output new_op).

(** One entry of the map: an input or an output of the dispatch operation. *)
Definition reroute (root : LiteRtSubgraph) (dispatch_op_ : LiteRtOp) (p : LiteRtTensor * LiteRtTensor) :
    M ir unit :=
  let '(old_tensor, new_tensor) := p in
  N ← get_tensor new_tensor;
  is_input ←
    (if decide (DefiningOp N = nullptr) then c ← IsConstant N; mret (negb c) else mret false);
  if (is_input : bool) then AttachInput old_tensor dispatch_op_
  else
    T ← get_tensor old_tensor;
    used ← (if decide (Users T = []) then mret false else c ← IsConstant T; mret (negb c));
    G ← get_subgraph root;
    if (used || bool_decide (is_Some (FindSubgraphOutput G old_tensor)) : bool) then
      AttachOutput old_tensor dispatch_op_;;
      push_SubgraphOutput slice_ new_tensor
    else mret ().

Definition RerouteTensorsThroughCustomOp (root : LiteRtSubgraph) (dispatch_op_ : LiteRtOp) :
    M GraphSlicer unit :=
  m ← gets tensor_map_;
  for_each (values_ m) (λ p, on_ir (reroute root dispatch_op_ p)).

Definition used_tensors (partition : list LiteRtOp) : M ir (list LiteRtTensor) :=
  fold_m partition [] (λ used op, O ← get_op op; mret (used ++ Inputs O)).

Definition SlicePartitionFromGraph (root : LiteRtSubgraph) (partition : list LiteRtOp) :
    M GraphSlicer LiteRtOp :=
  used ← on_ir (used_tensors partition);
  R ← on_ir (get_subgraph root);
  for_each (SubgraphInputs R) (register_input used);;
  for_each partition CloneInto;;
  on_ir (for_each partition Drop);;
  dispatch_op_ ← deref (last partition);
  on_ir (MakeDispatchOp dispatch_op_);;
  RerouteTensorsThroughCustomOp root dispatch_op_;;
  on_ir (DCE root);;
  mret dispatch_op_.
End slicer.

Definition OutlinePartition (root slice : LiteRtSubgraph) (partition : list LiteRtOp) : M ir LiteRtOp := λ h,
  match SlicePartitionFromGraph slice root partition {| slicer_ir := h; tensor_map_ := empty_map |} with
  | Done o s => Done o (slicer_ir s)
  | Error s => Error (slicer_ir s)
  | Undefined => Undefined
  end.

(** ** Partitioning a subgraph ([compiler_plugin.cc]) *)

Inductive PartitionStrategy :=
| kLiteRtCompilerOptionsPartitionStrategyDefault
| kLiteRtCompilerOptionsPartitionStrategyWeaklyConnected.

(** A new subgraph for every island. *)
Definition outline_island (root : LiteRtSubgraph) (res_ops : list LiteRtOp) (island : list LiteRtOp) :
    M ir (list LiteRtOp) :=
  new_subgraph ← EmplaceSubgraph;
  dispatch_op ← OutlinePartition root new_subgraph island;
  mret (res_ops ++ [dispatch_op]).

Definition PartitionSubgraph `{HashOrder} (selected_ops : list (LiteRtOp * Z)) (subgraph : LiteRtSubgraph)
    (res_ops : list LiteRtOp) (strategy : PartitionStrategy) : M ir (list LiteRtOp) :=
  h ← get;
  G ← get_subgraph subgraph;
  islands ← match strategy with
            | kLiteRtCompilerOptionsPartitionStrategyDefault =>
                mret (GetPartitionsFromFlatListV2 selected_ops G)
            | kLiteRtCompilerOptionsPartitionStrategyWeaklyConnected =>
                GetPartitionsFromFlatList h selected_ops
            end;
  if decide (islands = []) then mret res_ops
  else fold_m islands res_ops (outline_island subgraph).

(** ** Inlining *)

(** The heap and the maps from the subgraph's operations and tensors to their
    copies. *)
Record Inliner := { inliner_ir : ir; op_map_ : InsertOrderMap; copy_map_ : InsertOrderMap }.

Definition in_ir {A} : M ir A → M Inliner A :=
  zoom inliner_ir (λ h s, {| inliner_ir := h; op_map_ := op_map_ s; copy_map_ := copy_map_ s |}).
Definition in_op_map {A} : M InsertOrderMap A → M Inliner A :=
  zoom op_map_ (λ m s, {| inliner_ir := inliner_ir s; op_map_ := m; copy_map_ := copy_map_ s |}).
Definition in_copy_map {A} : M InsertOrderMap A → M Inliner A :=
  zoom copy_map_ (λ m s, {| inliner_ir := inliner_ir s; op_map_ := op_map_ s; copy_map_ := m |}).

Definition copy_of (t : LiteRtTensor) : M Inliner LiteRtTensor := it ← in_copy_map (Find t); deref it.
Definition op_copy_of (o : LiteRtOp) : M Inliner LiteRtOp := it ← in_op_map (Find o); deref it.

Definition same_type (dest source : TensorType) : bool :=
  match dest, source with
  | kLiteRtUnrankedTensorType e, kLiteRtUnrankedTensorType e' => bool_decide (e = e')
  | kLiteRtRankedTensorType e dims, kLiteRtRankedTensorType e' dims' =>
      bool_decide (e = e') && bool_decide (dims = dims')
  | _, _ => false
  end.

Definition verify_tensor_type (dest_tensor source_tensor : LiteRtTensor) : M ir unit :=
  D ← get_tensor dest_tensor;
  S ← get_tensor source_tensor;
  ensure (same_type (Type_ D) (Type_ S)).

Definition verify_tensor_types (dest source : list LiteRtTensor) : M ir unit :=
  for_each (range 0 (zlen dest)) (λ i,
    d ← deref (zget dest i); s ← deref (zget source i); verify_tensor_type d s).

(** The last subgraph that has the operation; none is an uninitialised pointer. *)
Definition find_main_subgraph (op : LiteRtOp) : M ir LiteRtSubgraph :=
  gs ← gets model_subgraphs;
  found ← fold_m gs None (λ found g,
    G ← get_subgraph g; mret (if decide (op ∈ Ops G) then Some g else found));
  deref found.

Definition push_use (o : LiteRtOp) (arg : Z) (T : LiteRtTensorT) : LiteRtTensorT :=
  set_uses (Users T ++ [o]) (UserArgInds T ++ [arg]) T.

Definition set_input (o : LiteRtOp) (arg : Z) (t : LiteRtTensor) : M ir unit :=
  O ← get_op o;
  _ ← deref (zget (Inputs O) arg);
  put_op o (set_Inputs (zset arg t (Inputs O)) O).

Definition unlink_tensor (T : LiteRtTensorT) : LiteRtTensorT := ClearDefiningOp (set_uses [] [] T).

Definition copy_op (main : LiteRtSubgraph) (op_index : Z) (decomp_op : LiteRtOp) : M Inliner Z :=
  new_op ← in_ir (EmplaceOpAt main op_index);
  O ← in_ir (get_op decomp_op);
  in_ir (update_op new_op (clone_op O));;
  in_op_map (InsertOrAssign decomp_op new_op);;
  mret (op_index + 1).

Definition copy_tensor (main : LiteRtSubgraph) (decomp_tensor : LiteRtTensor) : M Inliner unit :=
  new_tensor ← in_ir (MakeTensorClone main decomp_tensor);
  in_copy_map (InsertOrAssign decomp_tensor new_tensor).

(** The edges of one copied operation. *)
Definition restore_topology (decomp_op : LiteRtOp) : M Inliner unit :=
  cloned_op ← op_copy_of decomp_op;
  O ← in_ir (get_op decomp_op);
  for_each (Inputs O) (λ decomp_input,
    cloned_input ← copy_of decomp_input;
    in_ir (update_op cloned_op (λ C, set_Inputs (Inputs C ++ [cloned_input]) C));;
    C ← in_ir (get_op cloned_op);
    in_ir (update_tensor cloned_input (push_use cloned_op (zlen (Inputs C) - 1))));;
  for_each (Outputs O) (λ decomp_output,
    cloned_output ← copy_of decomp_output;
    in_ir (update_op cloned_op (λ C, set_Outputs (Outputs C ++ [cloned_output]) C))).

(** [for (i = 0; i < NumUses(); ++i) if (Users().at(i) == &op) RemoveUse(i)], with
    fuel for the loop. *)
Fixpoint remove_uses (fuel : nat) (t : LiteRtTensor) (op : LiteRtOp) (i : Z) : M ir unit :=
  T ← get_tensor t;
  if i <? NumUses T then
    match fuel with
    | O => undefined
    | Datatypes.S fuel' =>
        user ← deref (zget (Users T) i);
        (if decide (user = op) then RemoveUse t i else mret ());;
        remove_uses fuel' t op (i + 1)
    end
  else mret ().

(** The users of one input of the subgraph now use the operation's input. *)
Definition connect_input (destination_op : LiteRtOp) (Src : LiteRtSubgraphT) (input_ind : Z) : M Inliner unit :=
  decomp_input_tensor ← deref (zget (SubgraphInputs Src) input_ind);
  T ← in_ir (get_tensor decomp_input_tensor);
  for_each (range 0 (NumUses T)) (λ user_ind,
    user ← deref (zget (Users T) user_ind);
    cloned_op ← op_copy_of user;
    arg ← deref (zget (UserArgInds T) user_ind);
    D ← in_ir (get_op destination_op);
    input ← deref (zget (Inputs D) input_ind);
    in_ir (set_input cloned_op arg input);;
    I ← in_ir (get_tensor input);
    in_ir (remove_uses (length (Users I)) input destination_op 0);;
    in_ir (update_tensor input (push_use cloned_op arg))).

(** The users of one output of the operation now use the copy. *)
Definition connect_output (main : LiteRtSubgraph) (destination_op : LiteRtOp) (Src : LiteRtSubgraphT)
    (output_ind : Z) : M Inliner unit :=
  decomp_output_tensor ← deref (zget (SubgraphOutputs Src) output_ind);
  cloned_tensor ← copy_of decomp_output_tensor;
  D ← in_ir (get_op destination_op);
  composite_output_tensor ← deref (zget (Outputs D) output_ind);
  T ← in_ir (get_tensor composite_output_tensor);
  for_each (range 0 (NumUses T)) (λ user_ind,
    user ← deref (zget (Users T) user_ind);
    arg ← deref (zget (UserArgInds T) user_ind);
    in_ir (set_input user arg cloned_tensor);;
    in_ir (update_tensor cloned_tensor (push_use user arg)));;
  in_ir (update_subgraph main (λ G, set_SubgraphOutputs
    ((λ t, if decide (t = composite_output_tensor) then cloned_tensor else t) <$> SubgraphOutputs G) G)).

Definition inline_subgraph (destination_op : LiteRtOp) (source_subgraph : LiteRtSubgraph) : M Inliner unit :=
  D ← in_ir (get_op destination_op);
  Src ← in_ir (get_subgraph source_subgraph);
  ensure ((zlen (Inputs D) =? zlen (SubgraphInputs Src)) && (zlen (Outputs D) =? zlen (SubgraphOutputs Src)));;
  in_ir (verify_tensor_types (Inputs D) (SubgraphInputs Src));;
  in_ir (verify_tensor_types (Outputs D) (SubgraphOutputs Src));;
  main ← in_ir (find_main_subgraph destination_op);
  G ← in_ir (get_subgraph main);
  op_index ← match FindInd (Ops G) destination_op with Some i => mret i | None => fail end;
  fold_m (Ops Src) op_index (copy_op main);;
  for_each (Tensors Src) (copy_tensor main);;
  for_each (Ops Src) restore_topology;;
  for_each (range 0 (zlen (Inputs D))) (connect_input destination_op Src);;
  for_each (SubgraphInputs Src) (λ t, c ← copy_of t; in_ir (update_tensor c unlink_tensor));;
  for_each (range 0 (zlen (Outputs D))) (connect_output main destination_op Src);;
  for_each (Outputs D) (λ t, in_ir (update_tensor t unlink_tensor));;
  in_ir (update_op destination_op (λ O, set_Outputs [] (set_Inputs [] O)));;
  in_ir (DCE main);;
  mret ().

Definition InlineSubgraph (destination_op : LiteRtOp) (source_subgraph : LiteRtSubgraph) : M ir unit := λ h,
  match inline_subgraph destination_op source_subgraph
    {| inliner_ir := h; op_map_ := empty_map; copy_map_ := empty_map |} with
  | Done _ s => Done tt (inliner_ir s)
  | Error s => Error (inliner_ir s)
  | Undefined => Undefined
  end.
