(* ===== verification/OutlineProofs.v ===== *)
(** * Outlining keeps the computation

    [OutlinePartition] copies a partition into the slice, one copy per
    operation and tensor, takes the operations out of the root and puts a
    dispatch operation in their place whose inputs and outputs correspond to
    those of the slice. *)

From S2P Require Import Prelude OpCodes LiteRtIr OpShapes PluginPartitions PluginRewrites LiteRtGraphProofs PluginProofs.

(** ** Fresh objects *)

Record fresh_heap (h : ir) : Prop := {
  fh_tensor a : (next_address h ≤ a)%nat → tensor_heap h !! a = None;
  fh_op a : (next_address h ≤ a)%nat → op_heap h !! a = None;
  fh_null : (nullptr < next_address h)%nat
}.

Lemma fh_tensor_lt h a : fresh_heap h → is_Some (tensor_heap h !! a) → (a < next_address h)%nat.
Proof. intros Hf [T HT]. destruct (decide (a < next_address h)%nat); [done|]. rewrite (fh_tensor _ Hf) in HT; [done|lia]. Qed.

Lemma fh_op_lt h a : fresh_heap h → is_Some (op_heap h !! a) → (a < next_address h)%nat.
Proof. intros Hf [T HT]. destruct (decide (a < next_address h)%nat); [done|]. rewrite (fh_op _ Hf) in HT; [done|lia]. Qed.

Definition with_tensor (g : LiteRtSubgraph) (G : LiteRtSubgraphT) (T : LiteRtTensorT) (h : ir) : ir :=
  {| tensor_heap := <[next_address h := clone_tensor T empty_tensor]> (tensor_heap h);
     op_heap := op_heap h;
     subgraph_heap := <[g := set_Tensors (Tensors G ++ [next_address h]) G]> (subgraph_heap h);
     model_subgraphs := model_subgraphs h;
     next_address := S (next_address h) |}.

Definition with_op (g : LiteRtSubgraph) (G : LiteRtSubgraphT) (O : LiteRtOpT) (h : ir) : ir :=
  {| tensor_heap := tensor_heap h;
     op_heap := <[next_address h := clone_op O empty_op]> (op_heap h);
     subgraph_heap := <[g := set_Ops (Ops G ++ [next_address h]) G]> (subgraph_heap h);
     model_subgraphs := model_subgraphs h;
     next_address := S (next_address h) |}.

Definition advanced (h : ir) : ir :=
  {| tensor_heap := tensor_heap h; op_heap := op_heap h; subgraph_heap := subgraph_heap h;
     model_subgraphs := model_subgraphs h; next_address := S (next_address h) |}.

Lemma wp_fresh_address Q E h : Q (next_address h) (advanced h) → wp fresh_address Q E h.
Proof. done. Qed.

Lemma MakeTensorClone_exact h g G t T : fresh_heap h → subgraph_heap h !! g = Some G →
  tensor_heap h !! t = Some T → MakeTensorClone g t h = Done (next_address h) (with_tensor g G T h).
Proof.
  intros Hf Hg Ht. pose proof (fh_tensor_lt h t Hf ltac:(eauto)) as Hlt. apply wp_run.
  unfold MakeTensorClone, EmplaceTensor, put_tensor, update_subgraph, put_subgraph. wp_steps.
  apply wp_fresh_address. wp_steps. eapply wp_get_subgraph; [exact Hg|]. wp_steps.
  eapply wp_get_tensor; [simpl; rewrite lookup_insert_ne by lia; exact Ht|]. wp_steps.
  eapply wp_update_tensor; [apply lookup_insert_eq|]. wp_steps. split; [done|].
  unfold with_tensor, set_tensor_heap, set_subgraph_heap. simpl. by rewrite insert_insert_eq.
Qed.

Lemma MakeOpClone_exact h g G o O : fresh_heap h → subgraph_heap h !! g = Some G →
  op_heap h !! o = Some O → MakeOpClone g o h = Done (next_address h) (with_op g G O h).
Proof.
  intros Hf Hg Ho. pose proof (fh_op_lt h o Hf ltac:(eauto)) as Hlt. apply wp_run.
  unfold MakeOpClone, EmplaceOp, EmplaceOpAt, put_op, put_subgraph. wp_steps.
  eapply wp_get_subgraph; [exact Hg|]. wp_steps. eapply wp_get_subgraph; [exact Hg|].
  rewrite decide_True by lia. wp_steps. apply wp_fresh_address. wp_steps.
  eapply wp_get_op; [simpl; rewrite lookup_insert_ne by lia; exact Ho|]. wp_steps.
  eapply wp_update_op; [apply lookup_insert_eq|]. wp_steps. split; [done|].
  unfold with_op, set_op_heap, set_subgraph_heap. simpl. by rewrite insert_insert_eq, Nat2Z.id, firstn_all, drop_all.
Qed.

Lemma with_tensor_wf h g G T : fresh_heap h → wf_ir h → wf_ir (with_tensor g G T h).
Proof.
  intros Hf Hwf.
  assert (∀ o O, op_heap h !! o = Some O → (next_address h ∉ Inputs O) ∧ (next_address h ∉ Outputs O)) as Hno.
  { intros o O HO. split; intros Hin; destruct (wf_edges _ Hwf o O (next_address h) HO) as [X HX]; try tauto;
      rewrite (fh_tensor _ Hf) in HX; done. }
  split; simpl.
  - intros t T' HT'. destruct (decide (t = next_address h)) as [->|Hne].
    + rewrite lookup_insert_eq in HT'. simplify_eq. split; [done|apply NoDup_nil_2| |].
      * intros o i. split; [by intros ?%not_elem_of_nil|]. intros (O & HO & Hz%zget_elem). by destruct (Hno o O HO).
      * intros o i Hnull. simpl. split; [by intros [<- _]|]. intros (O & HO & Hz%zget_elem). by destruct (Hno o O HO).
    + rewrite lookup_insert_ne in HT' by done. by apply (wf_linked _ Hwf).
  - intros o O t HO Ht. apply lookup_insert_is_Some'. right. by apply (wf_edges _ Hwf o O).
  - apply Hwf.
Qed.

Lemma with_op_wf h g G O : fresh_heap h → wf_ir h → wf_ir (with_op g G O h).
Proof.
  intros Hf Hwf. pose proof (fh_op _ Hf (next_address h) (Nat.le_refl _)) as Hno.
  assert (∀ (Q : LiteRtOpT → Prop) o, (∀ N, Inputs N = [] → Outputs N = [] → ¬ Q N) →
    (∃ P, <[next_address h := clone_op O empty_op]> (op_heap h) !! o = Some P ∧ Q P) ↔
    (∃ P, op_heap h !! o = Some P ∧ Q P)) as Hsame.
  { intros Q o HQ. destruct (decide (o = next_address h)) as [->|Hne]; [|by rewrite lookup_insert_ne].
    rewrite lookup_insert_eq, Hno. split; [|naive_solver]. intros (P & [= <-] & HP). by destruct (HQ (clone_op O empty_op)). }
  split; simpl.
  - intros t T HT. pose proof (wf_linked _ Hwf _ _ HT) as Hl. split; [apply Hl|apply Hl| |].
    + intros o i. rewrite Hsame; [apply Hl|]. intros N HN _ Hz. by rewrite HN in Hz; apply zget_nonempty in Hz.
    + intros o i Hnull. rewrite Hsame; [by apply Hl|]. intros N _ HN Hz. by rewrite HN in Hz; apply zget_nonempty in Hz.
  - intros o P t HP Ht. destruct (decide (o = next_address h)) as [->|Hne].
    + rewrite lookup_insert_eq in HP. simplify_eq. destruct Ht as [Ht|Ht]; by apply not_elem_of_nil in Ht.
    + rewrite lookup_insert_ne in HP by done. by apply (wf_edges _ Hwf o P).
  - rewrite lookup_insert_ne; [apply Hwf|]. pose proof (fh_null _ Hf). lia.
Qed.

Lemma with_tensor_fresh h g G T : fresh_heap h → fresh_heap (with_tensor g G T h).
Proof.
  intros [H1 H2 H3]. split; simpl; [intros a Ha..|lia].
  - rewrite lookup_insert_ne by lia. apply H1. lia.
  - apply H2. lia.
Qed.

Lemma with_op_fresh h g G O : fresh_heap h → fresh_heap (with_op g G O h).
Proof.
  intros [H1 H2 H3]. split; simpl; [intros a Ha..|lia].
  - apply H1. lia.
  - rewrite lookup_insert_ne by lia. apply H2. lia.
Qed.

(** ** Constants *)

Definition ranked (T : LiteRtTensorT) : bool :=
  match Type_ T with kLiteRtRankedTensorType _ _ => true | kLiteRtUnrankedTensorType _ => false end.

Definition is_constant (T : LiteRtTensorT) : bool :=
  match Type_ T with
  | kLiteRtRankedTensorType _ dims => (0 <? zlen (Weights T)) || bool_decide (dims = [0])
  | kLiteRtUnrankedTensorType _ => false
  end.

Lemma wp_IsConstant T Q E h : ranked T = true → Q (is_constant T) h → wp (IsConstant T) Q E h.
Proof. unfold IsConstant, ranked, is_constant. by destruct (Type_ T). Qed.

(** [B] has the data of [A]. *)
Definition copy_tensor_of (A B : LiteRtTensorT) : Prop := clone_tensor A B = B.
Definition copy_op_of (O N : LiteRtOpT) : Prop := clone_op O N = N.

Lemma clone_Qparams_eq q : clone_Qparams q = q.
Proof. by destruct q. Qed.

Lemma copy_data A B :
  Weights B = Weights A → Type_ B = Type_ A → Name B = Name A → TensorIndex B = TensorIndex A → Qparams B = Qparams A →
  copy_tensor_of A B.
Proof.
  destruct B. unfold copy_tensor_of, clone_tensor. simpl. intros -> -> -> -> ->. by rewrite clone_Qparams_eq.
Qed.

Lemma copy_type A B : copy_tensor_of A B → Type_ B = Type_ A ∧ Weights B = Weights A.
Proof. unfold copy_tensor_of, clone_tensor. intros H. by rewrite <- H. Qed.

Lemma copy_constant A B : copy_tensor_of A B → ranked B = ranked A ∧ is_constant B = is_constant A.
Proof. intros [H1 H2]%copy_type. unfold ranked, is_constant. by rewrite H1, H2. Qed.

(** ** The map *)

Lemma wp_insert_new k v Q E m : iom_wf m → k ∉ keys m →
  (∀ m', iom_wf m' → values_ m' = values_ m ++ [(k, v)] → Q () m') → wp (InsertOrAssign k v) Q E m.
Proof.
  intros Hm Hk HQ. pose proof (wp_InsertOrAssign k v (λ _ m', iom_wf m') E m Hm (λ m' Has, as_wf _ _ _ _ Has)) as Hwf.
  unfold wp, InsertOrAssign, mbind, M_bind in *. simpl in *. destruct (map_ m !! k) as [i|] eqn:Hi; simpl in *.
  - destruct Hk. apply look_keys; [done|]. apply Hm in Hi as Hv. destruct Hv as [v' Hv'].
    exists v'. apply look_Some; eauto.
  - by apply HQ.
Qed.

Lemma look_values m k v : iom_wf m → (k, v) ∈ values_ m → look m k = Some v.
Proof. intros Hm [i Hi]%list_elem_of_lookup. apply look_Some; eauto. Qed.

(** ** The copies *)

Lemma value_unique {K} (l : list (K * nat)) a a' b : NoDup l.*2 → (a, b) ∈ l → (a', b) ∈ l → a = a'.
Proof.
  intros Hnd [x Hx]%list_elem_of_lookup [y Hy]%list_elem_of_lookup.
  assert (x = y) as <-; [|congruence]. eapply (NoDup_lookup l.*2); [done| |];
    rewrite list_lookup_fmap; [by rewrite Hx|by rewrite Hy].
Qed.

Lemma Forall2_impl_r {A B} (P Q : A → B → Prop) l k :
  Forall2 P l k → (∀ x y, y ∈ k → P x y → Q x y) → Forall2 Q l k.
Proof.
  induction 1 as [|x y l k Hxy _ IH]; intros Himpl; constructor.
  - apply Himpl; [by left|done].
  - apply IH. intros x' y' Hy'. apply Himpl. by right.
Qed.

Definition definitions (views : list LiteRtOpT) : list LiteRtTensor := concat (Outputs <$> views).

Lemma definitions_snoc views V : definitions (views ++ [V]) = definitions views ++ Outputs V.
Proof. unfold definitions. rewrite fmap_app, concat_app. simpl. by rewrite app_nil_r. Qed.

Section copies.
Context (h0 : ir) (slice : LiteRtSubgraph) (external : LiteRtTensor → Prop) `{!∀ t, Decision (external t)}.
Hypothesis h0_fresh : fresh_heap h0.

Definition inputs_of (tm : list (nat * nat)) : list nat := (filter (λ p, external p.1) tm).*2.

(** The slice has a copy of every operation in [views] (the last one may still
    lack edges) and of every tensor in [tm], and nothing else has changed. *)
Record copied_tensor (views : list LiteRtOpT) (h : ir) (a b : LiteRtTensor) : Prop := {
  ct_new : (next_address h0 ≤ b)%nat;
  ct_A A : tensor_heap h0 !! a = Some A → ∃ B, tensor_heap h !! b = Some B ∧ copy_tensor_of A B ∧
    (DefiningOp B = nullptr ↔ a ∉ definitions views) ∧
    (DefiningOp B = nullptr ∨ next_address h0 ≤ DefiningOp B)%nat;
  ct_old : is_Some (tensor_heap h0 !! a)
}.

Record copied_op (tm : list (nat * nat)) (h : ir) (V : LiteRtOpT) (n : LiteRtOp) : Prop := {
  co_new : (next_address h0 ≤ n)%nat;
  co_N : ∃ N, op_heap h !! n = Some N ∧ copy_op_of V N ∧
    Forall2 (λ a b, (a, b) ∈ tm) (Inputs V) (Inputs N) ∧
    Forall2 (λ a b, (a, b) ∈ tm) (Outputs V) (Outputs N)
}.

Record copies (views : list LiteRtOpT) (tm : list (nat * nat)) (ops : list nat) (h : ir) : Prop := {
  c_wf : wf_ir h;
  c_fresh : fresh_heap h;
  c_next : (next_address h0 ≤ next_address h)%nat;
  c_old_tensors : tensor_heap h0 ⊆ tensor_heap h;
  c_old_ops : op_heap h0 ⊆ op_heap h;
  c_subgraphs : subgraph_heap h = <[slice := {| Tensors := tm.*2; Ops := ops;
    SubgraphInputs := inputs_of tm; SubgraphOutputs := [] |}]> (subgraph_heap h0);
  c_models : model_subgraphs h = model_subgraphs h0;
  c_tensors a b : (a, b) ∈ tm → copied_tensor views h a b;
  c_keys : NoDup tm.*1;
  c_nodup : NoDup tm.*2;
  c_ops : Forall2 (copied_op tm h) views ops;
  c_ops_nodup : NoDup ops
}.

Lemma copies_slice views tm ops h : copies views tm ops h →
  subgraph_heap h !! slice = Some {| Tensors := tm.*2; Ops := ops; SubgraphInputs := inputs_of tm; SubgraphOutputs := [] |}.
Proof. intros Hc. rewrite (c_subgraphs _ _ _ _ Hc). apply lookup_insert_eq. Qed.

Lemma old_tensor_ne b (T' : LiteRtTensorT) (m : gmap nat LiteRtTensorT) :
  (next_address h0 ≤ b)%nat → tensor_heap h0 ⊆ m → tensor_heap h0 ⊆ <[b := T']> m.
Proof. intros Hb Hm. apply insert_subseteq_r; [by apply (fh_tensor _ h0_fresh)|done]. Qed.

Lemma old_op_ne n (N' : LiteRtOpT) (m : gmap nat LiteRtOpT) :
  (next_address h0 ≤ n)%nat → op_heap h0 ⊆ m → op_heap h0 ⊆ <[n := N']> m.
Proof. intros Hn Hm. apply insert_subseteq_r; [by apply (fh_op _ h0_fresh)|done]. Qed.

Lemma copied_op_mono tm tm' h V n : (∀ p, p ∈ tm → p ∈ tm') → copied_op tm h V n → copied_op tm' h V n.
Proof.
  intros Hsub [Hn (N & HN & Hc & H1 & H2)]. split; [done|]. exists N.
  split_and!; [done..| |]; (eapply Forall2_impl; [eassumption|]); auto.
Qed.

(** One more tensor; an external one is an input of the slice. *)
Definition pushed (a : LiteRtTensor) (h : ir) (S : LiteRtSubgraphT) (b : LiteRtTensor) : ir :=
  if decide (external a) then
    set_subgraph_heap (<[slice := set_SubgraphInputs (SubgraphInputs S ++ [b]) S]> (subgraph_heap h)) h
  else h.

Lemma pushed_frame a h S b : tensor_heap (pushed a h S b) = tensor_heap h ∧ op_heap (pushed a h S b) = op_heap h ∧
  next_address (pushed a h S b) = next_address h ∧ model_subgraphs (pushed a h S b) = model_subgraphs h.
Proof. unfold pushed. by case_decide. Qed.

Lemma wf_ir_ext h h' : tensor_heap h' = tensor_heap h → op_heap h' = op_heap h → wf_ir h → wf_ir h'.
Proof. intros H1 H2 [W1 W2 W3]. split; rewrite ?H1, ?H2; done. Qed.

Lemma copies_add_tensor views tm ops h a A S (b := next_address h) (h1 := with_tensor slice S A h)
    (S1 := set_Tensors (Tensors S ++ [b]) S) :
  copies views tm ops h → subgraph_heap h !! slice = Some S → tensor_heap h0 !! a = Some A →
  a ∉ definitions views → a ∉ tm.*1 → copies views (tm ++ [(a, b)]) ops (pushed a h1 S1 b).
Proof.
  intros Hc HS HA Ha Hkey. destruct (pushed_frame a h1 S1 b) as (P1 & P2 & P3 & P4).
  pose proof (fh_tensor _ (c_fresh _ _ _ _ Hc) b (Nat.le_refl _)) as Hb.
  assert (∀ p, p ∈ tm → p.2 ≠ b) as Hne.
  { intros [a' b'] Hp. simpl. intros ->. destruct (ct_old _ _ _ _ (c_tensors _ _ _ _ Hc _ _ Hp)) as [A' HA'].
    destruct (ct_A _ _ _ _ (c_tensors _ _ _ _ Hc _ _ Hp) A' HA') as (B & HB & _). congruence. }
  split; rewrite ?P1, ?P2, ?P3, ?P4.
  - eapply wf_ir_ext; [exact P1|exact P2|]. apply with_tensor_wf; apply Hc.
  - destruct (with_tensor_fresh h slice S A (c_fresh _ _ _ _ Hc)) as [F1 F2 F3]. split; rewrite ?P1, ?P2, ?P3; done.
  - simpl. pose proof (c_next _ _ _ _ Hc). lia.
  - simpl. apply old_tensor_ne; apply Hc.
  - apply Hc.
  - rewrite (copies_slice _ _ _ _ Hc) in HS. injection HS as <-.
    unfold pushed, inputs_of, h1, S1, with_tensor, set_Tensors, set_SubgraphInputs, set_subgraph_heap. simpl.
    rewrite (c_subgraphs _ _ _ _ Hc), filter_app, filter_cons, filter_nil, !fmap_app. simpl.
    case_decide; simpl; rewrite ?insert_insert_eq; [done|]. by rewrite app_nil_r.
  - apply Hc.
  - intros a' b' [Hp|Hp%list_elem_of_singleton]%elem_of_app.
    + destruct (c_tensors _ _ _ _ Hc a' b' Hp) as [N1 N2 N3]. split; [done| |done].
      intros A' HA'. rewrite P1. simpl. rewrite lookup_insert_ne by (intros Heq; by apply (Hne _ Hp)). by apply N2.
    + injection Hp as -> ->. split; [apply Hc| |eauto]. intros A' HA'. simplify_eq. rewrite P1.
      exists (clone_tensor A empty_tensor). simpl. rewrite lookup_insert_eq. split_and!; [done..|by left].
  - rewrite fmap_app. apply NoDup_app. split; [apply Hc|]. split; [|apply NoDup_singleton].
    intros x Hx ->%list_elem_of_singleton. done.
  - rewrite fmap_app. apply NoDup_app. split; [apply Hc|]. split; [|apply NoDup_singleton].
    intros x (p & -> & Hp)%list_elem_of_fmap Hx%list_elem_of_singleton. by apply (Hne p Hp).
  - eapply Forall2_impl; [apply Hc|]. intros V n [Hn (N & HN & HN')]. 
    apply (copied_op_mono tm); [intros p ?; apply elem_of_app; by left|]. split; [done|]. exists N. by rewrite P2.
  - apply Hc.
Qed.

(** One more operation, without edges. *)
Definition bare (O : LiteRtOpT) : LiteRtOpT := set_Outputs [] (set_Inputs [] O).

Lemma copies_add_op views tm ops h o O S (n := next_address h) :
  copies views tm ops h → subgraph_heap h !! slice = Some S → op_heap h0 !! o = Some O →
  copies (views ++ [bare O]) tm (ops ++ [n]) (with_op slice S O h) ∧
  op_heap (with_op slice S O h) !! n = Some (clone_op O empty_op).
Proof.
  intros Hc HS HO. split; [|apply lookup_insert_eq].
  pose proof (fh_op _ (c_fresh _ _ _ _ Hc) n (Nat.le_refl _)) as Hn.
  assert (∀ V k, copied_op tm h V k → k ≠ n) as Hne.
  { intros V k [_ (N & HN & _)] ->. congruence. }
  split; simpl.
  - apply with_op_wf; apply Hc.
  - apply with_op_fresh, Hc.
  - pose proof (c_next _ _ _ _ Hc). lia.
  - apply Hc.
  - apply old_op_ne; apply Hc.
  - rewrite (copies_slice _ _ _ _ Hc) in HS. injection HS as <-.
    rewrite (c_subgraphs _ _ _ _ Hc). by rewrite insert_insert_eq.
  - apply Hc.
  - intros a b Hp. destruct (c_tensors _ _ _ _ Hc a b Hp) as [N1 N2 N3]. split; [done| |done].
    rewrite definitions_snoc. simpl. by rewrite app_nil_r.
  - apply Hc.
  - apply Hc.
  - apply Forall2_app.
    + eapply Forall2_impl; [apply Hc|]. intros V k Hk. pose proof (Hne V k Hk). destruct Hk as [Hk (N & HN & HN')].
      split; [done|]. exists N. simpl. by rewrite lookup_insert_ne.
    + constructor; [|done]. split; [apply Hc|]. exists (clone_op O empty_op). simpl. by rewrite lookup_insert_eq.
  - apply NoDup_app. split; [apply Hc|]. split; [|apply NoDup_singleton].
    intros x Hx ->%list_elem_of_singleton. apply list_elem_of_lookup in Hx as [i Hi].
    destruct (Forall2_lookup_r _ _ _ _ _ (c_ops _ _ _ _ Hc) Hi) as (V & _ & Hk). by apply (Hne V n).
Qed.

(** What the last operation of the slice is, and that the others differ. *)
Lemma copies_last views V tm ops n h : copies (views ++ [V]) tm (ops ++ [n]) h →
  Forall2 (copied_op tm h) views ops ∧ copied_op tm h V n ∧ n ∉ ops.
Proof.
  intros Hc. pose proof (c_ops _ _ _ _ Hc) as Hops. apply Forall2_app_inv in Hops as [H1 H2].
  - inversion H2; subst. pose proof (c_ops_nodup _ _ _ _ Hc) as Hnd. apply NoDup_app in Hnd as (_ & Hnd & _).
    split_and!; [done..|]. intros Hn. apply (Hnd n Hn). by left.
  - apply Forall2_length in Hops. rewrite !length_app in Hops. simpl in Hops. lia.
Qed.

Lemma copied_op_other tm h h' V k n N : k ≠ n → op_heap h' = <[n := N]> (op_heap h) →
  copied_op tm h V k → copied_op tm h' V k.
Proof. intros Hne Hh [Hk (N' & HN & HN')]. split; [done|]. exists N'. by rewrite Hh, lookup_insert_ne. Qed.

Lemma same_freshness h m mo : fresh_heap h → (∀ a, is_Some (m !! a) → is_Some (tensor_heap h !! a)) →
  (∀ a, is_Some (mo !! a) → is_Some (op_heap h !! a)) → fresh_heap (set_op_heap mo (set_tensor_heap m h)).
Proof.
  intros [F1 F2 F3] Hm Hmo. split; simpl; [intros a Ha..|done]; apply eq_None_not_Some; intros Hs.
  - apply Hm in Hs as [x Hx]. by rewrite F1 in Hx.
  - apply Hmo in Hs as [x Hx]. by rewrite F2 in Hx.
Qed.

Lemma insert_same_dom {A} (m : gmap nat A) k x a : is_Some (m !! k) → is_Some (<[k := x]> m !! a) → is_Some (m !! a).
Proof. intros Hk. destruct (decide (a = k)) as [->|Hne]; [done|]. by rewrite lookup_insert_ne. Qed.

Lemma copies_attach_input views V tm ops n h a b N B :
  copies (views ++ [V]) tm (ops ++ [n]) h → (a, b) ∈ tm → op_heap h !! n = Some N → tensor_heap h !! b = Some B →
  copies (views ++ [set_Inputs (Inputs V ++ [a]) V]) tm (ops ++ [n]) (attached_input n N b B h).
Proof.
  intros Hc Hp HN HB. destruct (copies_last _ _ _ _ _ _ Hc) as (Hops & [Hn (N' & HN' & HcV & Hi & Ho)] & Hnot).
  simplify_eq. pose proof (c_tensors _ _ _ _ Hc a b Hp) as Hab.
  assert (definitions (views ++ [set_Inputs (Inputs V ++ [a]) V]) = definitions (views ++ [V])) as Hdefs
    by by rewrite !definitions_snoc.
  split; simpl.
  - by apply attached_input_wf; [apply Hc| |].
  - apply same_freshness; [apply Hc|intros x; apply insert_same_dom; eauto..].
  - apply Hc.
  - apply old_tensor_ne; [apply Hab|apply Hc].
  - apply old_op_ne; [done|apply Hc].
  - apply Hc.
  - apply Hc.
  - intros a' b' Hp'. destruct (c_tensors _ _ _ _ Hc a' b' Hp') as [N1 N2 N3]. split; [done| |done].
    rewrite Hdefs. intros A HA. destruct (N2 A HA) as (B' & HB' & H1 & H2 & H3). simpl.
    destruct (decide (b' = b)) as [->|Hne]; [|rewrite lookup_insert_ne by done; eauto].
    simplify_eq. rewrite lookup_insert_eq. eexists. split; [done|]. split_and!; [|done..].
    unfold copy_tensor_of in *. rewrite <- H1. done.
  - apply Hc.
  - apply Hc.
  - apply Forall2_app.
    + eapply Forall2_impl_r; [exact Hops|]. intros W k Hk. apply (copied_op_other _ h _ _ _ n (set_Inputs (Inputs N ++ [b]) N)); [|done].
      by intros ->.
    + constructor; [|done]. split; [done|]. eexists. split; [apply lookup_insert_eq|]. simpl.
      split_and!; [|by apply Forall2_app; [|constructor]|done].
      unfold copy_op_of in *. rewrite <- HcV. done.
  - apply Hc.
Qed.

Lemma copies_attach_output views V tm ops n h a b N B :
  copies (views ++ [V]) tm (ops ++ [n]) h → (a, b) ∈ tm → a ∉ definitions (views ++ [V]) →
  op_heap h !! n = Some N → tensor_heap h !! b = Some B →
  copies (views ++ [set_Outputs (Outputs V ++ [a]) V]) tm (ops ++ [n]) (attached_output n N b B h).
Proof.
  intros Hc Hp Ha HN HB. destruct (copies_last _ _ _ _ _ _ Hc) as (Hops & [Hn (N' & HN' & HcV & Hi & Ho)] & Hnot).
  simplify_eq. pose proof (c_tensors _ _ _ _ Hc a b Hp) as [Hb HA [A0 HA0]].
  destruct (HA A0 HA0) as (B0 & HB0 & _ & Hdef & _). simplify_eq.
  assert (definitions (views ++ [set_Outputs (Outputs V ++ [a]) V]) = definitions (views ++ [V]) ++ [a]) as Hdefs
    by (rewrite !definitions_snoc; simpl; by rewrite app_assoc).
  assert (∀ a', (a', b) ∈ tm → a' = a) as Hinj by (intros a' Ha'; by eapply value_unique; [apply Hc|..]).
  assert (n ≠ nullptr) as Hnull by (intros ->; by rewrite (wf_null _ (c_wf _ _ _ _ Hc)) in HN).
  split; simpl.
  - apply attached_output_wf; [apply Hc|done|done|by apply Hdef].
  - apply same_freshness; [apply Hc|intros x; apply insert_same_dom; eauto..].
  - apply Hc.
  - apply old_tensor_ne; [done|apply Hc].
  - apply old_op_ne; [done|apply Hc].
  - apply Hc.
  - apply Hc.
  - intros a' b' Hp'. destruct (c_tensors _ _ _ _ Hc a' b' Hp') as [N1 N2 N3]. split; [done| |done].
    rewrite Hdefs. intros A HA'. destruct (N2 A HA') as (B' & HB' & H1 & H2 & H3). simpl.
    destruct (decide (b' = b)) as [->|Hne].
    + rewrite (Hinj a' Hp') in *. simplify_eq. rewrite lookup_insert_eq. eexists. split; [done|]. split_and!.
      * unfold copy_tensor_of in *. rewrite <- H1. done.
      * simpl. split; [done|]. intros Hna. destruct Hna. in_list.
      * simpl. by right.
    + rewrite lookup_insert_ne by done. exists B'. split_and!; [done..| |done].
      rewrite H2, not_elem_of_app, list_elem_of_singleton. split; [|tauto]. intros Hna. split; [done|].
      intros ->. apply Hne. by eapply index_unique; [apply (c_keys _ _ _ _ Hc)|..].
  - apply Hc.
  - apply Hc.
  - apply Forall2_app.
    + eapply Forall2_impl_r; [exact Hops|]. intros W k Hk. apply (copied_op_other _ h _ _ _ n (set_Outputs (Outputs N ++ [b]) N)); [|done].
      by intros ->.
    + constructor; [|done]. split; [done|]. eexists. split; [apply lookup_insert_eq|]. simpl.
      split_and!; [|done|by apply Forall2_app; [|constructor]].
      unfold copy_op_of in *. rewrite <- HcV. done.
  - apply Hc.
Qed.
End copies.

Lemma wp_exact {S A} (m : M S A) a s' Q E s : m s = Done a s' → Q a s' → wp m Q E s.
Proof. unfold wp. by intros ->. Qed.

(** ** Dropping the partition *)

Definition forget_all (l : list LiteRtOp) (T : LiteRtTensorT) : LiteRtTensorT :=
  with_uses (filter (λ u : LiteRtOp * Z, u.1 ∉ l) (uses T)) (if decide (DefiningOp T ∈ l) then ClearDefiningOp T else T).

Record dropped (l : list LiteRtOp) (h h' : ir) : Prop := {
  dr_wf : wf_ir h';
  dr_tensors t : tensor_heap h' !! t = forget_all l <$> tensor_heap h !! t;
  dr_ops o : op_heap h' !! o = if decide (o ∈ l) then bare <$> op_heap h !! o else op_heap h !! o;
  dr_subgraphs : subgraph_heap h' = subgraph_heap h;
  dr_models : model_subgraphs h' = model_subgraphs h;
  dr_next : next_address h' = next_address h
}.

Lemma forget_all_DefiningOp l T : DefiningOp (forget_all l T) = if decide (DefiningOp T ∈ l) then nullptr else DefiningOp T.
Proof. unfold forget_all. by case_decide. Qed.

Lemma forget_all_Users l T : balanced T → Users (forget_all l T) = filter (λ u, u ∉ l) (Users T).
Proof.
  intros Hb. unfold forget_all, with_uses. simpl. unfold uses. unfold balanced in Hb. revert Hb.
  generalize (Users T) (UserArgInds T). induction l0 as [|u us IH]; intros [|i is'] Hlen; try done.
  simpl in Hlen. simpl. rewrite !filter_cons. simpl. case_decide; simpl; rewrite IH; auto; lia.
Qed.

Lemma forget_all_data l T : copy_tensor_of T (forget_all l T).
Proof. unfold forget_all, with_uses, set_uses. case_decide; by apply copy_data. Qed.

Lemma forget_op_all o l T : balanced T → o ≠ nullptr → forget_op o (forget_all l T) = forget_all (l ++ [o]) T.
Proof.
  intros Hb Ho. unfold forget_op. rewrite forget_all_DefiningOp.
  assert (others o (uses (forget_all l T)) = filter (λ u : LiteRtOp * Z, u.1 ∉ l ++ [o]) (uses T)) as ->.
  { unfold others, forget_all. rewrite uses_with_uses. rewrite list_filter_filter. apply list_filter_iff.
    intros u. rewrite not_elem_of_app, list_elem_of_singleton. tauto. }
  unfold forget_all. assert (DefiningOp T ∈ l ++ [o] ↔ DefiningOp T ∈ l ∨ DefiningOp T = o) as Hin
    by (rewrite elem_of_app, list_elem_of_singleton; done).
  destruct (decide (DefiningOp T ∈ l)) as [Hl|Hl].
  - rewrite decide_False by done. rewrite decide_True by tauto. by rewrite with_uses_twice.
  - destruct (decide (DefiningOp T = o)) as [He|He].
    + rewrite decide_True by tauto. unfold with_uses, ClearDefiningOp, SetDefiningOp, set_uses. done.
    + rewrite decide_False by tauto. by rewrite with_uses_twice.
Qed.

Lemma drop_all_spec l h E : wf_ir h → NoDup l → (∀ o, o ∈ l → is_Some (op_heap h !! o)) →
  wp (for_each l Drop) (λ _ h', dropped l h h') E h.
Proof.
  intros Hwf Hnd Hall. apply (wp_for_each (λ done h', dropped done h h')).
  - split; [done| | |done..].
    + intros t. destruct (tensor_heap h !! t) as [T|] eqn:HT; [|done]. simpl. f_equal. unfold forget_all.
      rewrite filter_all by (intros u _; apply not_elem_of_nil). rewrite decide_False by apply not_elem_of_nil.
      symmetry. apply with_uses_uses, (wf_linked _ Hwf _ _ HT).
    + intros o. by rewrite decide_False by apply not_elem_of_nil.
  - intros done o todo h' Hl [H1 H2 H3 H4 H5 H6]. destruct (Hall o) as [O HO]; [rewrite Hl; in_list|].
    assert (o ∉ done) as Hod.
    { rewrite Hl in Hnd. apply NoDup_app in Hnd as (_ & Hnd & _). intros Hin. apply (Hnd o Hin). by left. }
    assert (op_heap h' !! o = Some O) as HO' by (rewrite H3, decide_False; done).
    assert (o ≠ nullptr) as Hnull by (intros ->; by rewrite (wf_null _ Hwf) in HO).
    destruct (Drop_exact_wf h' o O H1 HO') as [Hrun Hwf']. eapply wp_exact; [exact Hrun|].
    split; simpl; [done| | |done..].
    + intros t. rewrite lookup_fmap, H2. destruct (tensor_heap h !! t) as [T|] eqn:HT; [|done]. simpl. f_equal.
      apply forget_op_all; [|done]. apply (wf_linked _ Hwf _ _ HT).
    + intros p. destruct (decide (p = o)) as [->|Hne].
      * rewrite lookup_insert_eq, decide_True by in_list. by rewrite HO.
      * rewrite lookup_insert_ne, H3 by done. rewrite (decide_ext (p ∈ done ++ [o]) (p ∈ done)); [done|].
        rewrite elem_of_app, list_elem_of_singleton. tauto.
Qed.

Arguments copies h0 slice external {_} views tm ops h.

(** ** The slicer *)

Section slicer.
Context (h0 : ir) (slice g : LiteRtSubgraph) (R : LiteRtSubgraphT) (P : list LiteRtOp).

Definition views_of (l : list LiteRtOp) : list LiteRtOpT := omap (λ o, op_heap h0 !! o) l.
Definition defined_in : list LiteRtTensor := definitions (views_of P).
Definition used_in : list LiteRtTensor := concat (Inputs <$> views_of P).

Definition variable (t : LiteRtTensor) : Prop :=
  match tensor_heap h0 !! t with Some T => is_constant T = false | None => False end.

#[export] Instance variable_dec t : Decision (variable t).
Proof. unfold variable. destruct (_ !! _); apply _. Defined.

(** What the partition needs from outside. *)
Definition external (t : LiteRtTensor) : Prop := (t ∉ defined_in) ∧ variable t.

#[export] Instance external_dec t : Decision (external t).
Proof. unfold external. apply _. Defined.

(** A partition that can be outlined: a list of operations of the root in an
    order in which no operation uses a tensor that it, or a later one, defines. *)
Record sliceable : Prop := {
  sl_wf : wf_ir h0;
  sl_fresh : fresh_heap h0;
  sl_root : owned h0 g R;
  sl_slice : subgraph_heap h0 !! slice = Some empty_subgraph;
  sl_ne : slice ≠ g;
  sl_nodup : NoDup P;
  sl_nonempty : P ≠ [];
  sl_ops o : o ∈ P → o ∈ Ops R;
  sl_order done o todo O t : P = done ++ o :: todo → op_heap h0 !! o = Some O → t ∈ Inputs O →
    t ∉ definitions (views_of (o :: todo));
  sl_inputs_nodup : NoDup (SubgraphInputs R);
  sl_inputs t : t ∈ SubgraphInputs R → t ∈ used_in → external t;
  sl_ranked t T : t ∈ used_in ∨ t ∈ defined_in → tensor_heap h0 !! t = Some T → ranked T = true;
  sl_constants t : t ∈ used_in → t ∉ defined_in → t ∈ SubgraphOutputs R → variable t
}.

Hypothesis Hsl : sliceable.

Definition inv (views : list LiteRtOpT) (tm : list (nat * nat)) (ops : list nat) (s : GraphSlicer) : Prop :=
  copies h0 slice external views tm ops (slicer_ir s) ∧ iom_wf (tensor_map_ s) ∧ values_ (tensor_map_ s) = tm.

Lemma inv_keys views tm ops s : inv views tm ops s → keys (tensor_map_ s) = tm.*1.
Proof. intros (_ & _ & <-). done. Qed.

(** A new tensor enters the slice. *)
Lemma clone_step views tm ops s t T E :
  inv views tm ops s → tensor_heap h0 !! t = Some T → t ∉ definitions views → t ∉ tm.*1 →
  ∃ S, subgraph_heap (slicer_ir s) !! slice = Some S ∧
    let b := next_address (slicer_ir s) in
    let h1 := with_tensor slice S T (slicer_ir s) in
    let S1 := set_Tensors (Tensors S ++ [b]) S in
    MakeTensorClone slice t (slicer_ir s) = Done b h1 ∧
    push_SubgraphInput slice b h1 =
      Done tt (set_subgraph_heap (<[slice := set_SubgraphInputs (SubgraphInputs S1 ++ [b]) S1]> (subgraph_heap h1)) h1) ∧
    wp (InsertOrAssign t b) (λ _ m', inv views (tm ++ [(t, b)]) ops
      {| slicer_ir := pushed slice external t h1 S1 b; tensor_map_ := m' |}) E (tensor_map_ s).
Proof.
  intros (Hc & Hm & Hv) HT Hdef Hkey. pose proof (copies_slice _ _ _ _ _ _ _ Hc) as HS. eexists. split; [exact HS|].
  intros b h1 S1. split_and!.
  - apply MakeTensorClone_exact; [apply Hc|done|]. eapply lookup_weaken; [exact HT|apply Hc].
  - unfold push_SubgraphInput, update_subgraph. apply wp_run. wp_steps.
    eapply wp_get_subgraph; [apply lookup_insert_eq|]. unfold put_subgraph. wp_steps. done.
  - apply wp_insert_new; [done|unfold keys; by rewrite Hv|]. intros m' Hm' Hv'. split_and!; simpl; [|done|by rewrite Hv', Hv].
    apply copies_add_tensor; [apply Hsl|done..].
Qed.

Lemma clone_input_spec views V tm ops n s t T E :
  inv (views ++ [V]) tm (ops ++ [n]) s → tensor_heap h0 !! t = Some T → ranked T = true →
  (∀ a, a ∈ definitions (views ++ [V]) → a ∈ defined_in) → (t ∈ defined_in → t ∈ tm.*1) →
  wp (clone_input slice n t) (λ _ s', ∃ tm',
    inv (views ++ [set_Inputs (Inputs V ++ [t]) V]) tm' (ops ++ [n]) s' ∧
    (tm' = tm ∨ ∃ b, tm' = tm ++ [(t, b)] ∧ t ∉ defined_in)) E s.
Proof.
  intros Hinv HT Hrk Hdefs Hkey. unfold clone_input.
  pose proof (sl_fresh Hsl) as Hf0.
  apply wp_bind, wp_zoom, wp_Contains; [apply Hinv|]. rewrite (inv_keys _ _ _ _ Hinv).
  apply wp_bind. case_bool_decide as Hin.
  - destruct Hinv as (Hc & Hm & Hv). apply list_elem_of_fmap in Hin as ([t' b] & Heq & Hp). simpl in Heq. subst t'.
    apply wp_bind, wp_zoom, wp_Find; [done|]. apply (wp_deref _ b); [apply look_values; [done|simpl; by rewrite Hv]|].
    apply wp_zoom. destruct (copies_last _ _ _ _ _ _ _ _ _ Hc) as (_ & [_ (N & HN & _)] & _).
    destruct (ct_A _ _ _ _ _ (c_tensors _ _ _ _ _ _ _ Hc _ _ Hp) T HT) as (B & HB & _).
    eapply wp_exact; [by apply AttachInput_exact; [| |apply (wf_linked _ (c_wf _ _ _ _ _ _ _ Hc) _ _ HB)]|].
    exists tm. split; [|by left]. split_and!; [|done..]. by apply copies_attach_input.
  - assert (t ∉ defined_in) as Hext by tauto.
    destruct (clone_step _ _ _ _ _ _ (λ _, False) Hinv HT ltac:(intros Ha; by apply Hext, Hdefs) Hin) as (S & HS & Hmk & Hpush & Hins).
    set (b := next_address (slicer_ir s)) in *. set (h1 := with_tensor slice S T (slicer_ir s)) in *.
    apply wp_bind, wp_zoom. eapply wp_exact; [exact Hmk|].
    apply wp_bind, wp_zoom. eapply wp_get_tensor; [apply lookup_insert_eq|].
    apply wp_bind, wp_zoom, wp_IsConstant; [by destruct (copy_constant T (clone_tensor T empty_tensor) eq_refl) as [-> _]|].
    destruct (copy_constant T (clone_tensor T empty_tensor) eq_refl) as [_ ->].
    apply wp_bind.
    enough (∀ s1, slicer_ir s1 = pushed slice external t h1 (set_Tensors (Tensors S ++ [b]) S) b →
      tensor_map_ s1 = tensor_map_ s →
      wp (on_map (InsertOrAssign t b) ;; mret b) (λ b' s2,
        wp (on_ir (AttachInput b' n)) (λ _ s', ∃ tm',
          inv (views ++ [set_Inputs (Inputs V ++ [t]) V]) tm' (ops ++ [n]) s' ∧
          (tm' = tm ∨ ∃ b, tm' = tm ++ [(t, b)] ∧ t ∉ defined_in)) E s2) E s1) as Hrest.
    { assert (is_constant T = false ↔ external t) as Hiff.
      { unfold external, variable. rewrite HT. tauto. }
      destruct (is_constant T) eqn:Hconst.
      - apply wp_ret, Hrest; [|done]. unfold pushed. rewrite decide_False; [done|]. by rewrite <- Hiff.
      - apply wp_zoom. eapply wp_exact; [exact Hpush|]. apply Hrest; [|done]. unfold pushed. rewrite decide_True; [done|]. by rewrite <- Hiff. }
    intros s1 Hs1 Hm1. apply wp_bind, wp_zoom. rewrite Hm1.
    eapply wp_mono; [exact Hins| |done]. intros [] m' (Hc & Hm' & Hv'). simpl in *. apply wp_ret, wp_zoom. simpl. rewrite Hs1.
    destruct (copies_last _ _ _ _ _ _ _ _ _ Hc) as (_ & [_ (N & HN & _)] & _).
    assert ((t, b) ∈ tm ++ [(t, b)]) as Hp by in_list.
    destruct (ct_A _ _ _ _ _ (c_tensors _ _ _ _ _ _ _ Hc _ _ Hp) T HT) as (B & HB & _).
    eapply wp_exact; [by apply AttachInput_exact; [| |apply (wf_linked _ (c_wf _ _ _ _ _ _ _ Hc) _ _ HB)]|].
    exists (tm ++ [(t, b)]). split; [|right; eauto]. split_and!; [|done..]. by apply copies_attach_input.
Qed.

Lemma clone_output_spec views V tm ops n s t T E :
  inv (views ++ [V]) tm (ops ++ [n]) s → tensor_heap h0 !! t = Some T →
  t ∈ defined_in → t ∉ definitions (views ++ [V]) → t ∉ tm.*1 →
  wp (clone_output slice n t) (λ _ s', ∃ b,
    inv (views ++ [set_Outputs (Outputs V ++ [t]) V]) (tm ++ [(t, b)]) (ops ++ [n]) s') E s.
Proof.
  intros Hinv HT Hdef Hnew Hkey. unfold clone_output.
  destruct (clone_step _ _ _ _ _ _ (λ _, False) Hinv HT Hnew Hkey) as (S & HS & Hmk & _ & Hins).
  set (b := next_address (slicer_ir s)) in *. set (h1 := with_tensor slice S T (slicer_ir s)) in *.
  unfold pushed in Hins. rewrite decide_False in Hins by by intros [? _].
  apply wp_bind, wp_zoom. eapply wp_exact; [exact Hmk|].
  pose proof (sl_fresh Hsl) as Hf0. destruct Hinv as (Hc & _ & _).
  destruct (copies_last _ _ _ _ _ _ _ _ _ Hc) as (_ & [_ (N & HN & _)] & _).
  apply wp_bind, wp_zoom. eapply wp_exact.
  { apply AttachOutput_exact; [exact HN|apply lookup_insert_eq]. }
  apply wp_zoom. eapply wp_mono; [exact Hins| |done]. intros [] m' (Hc' & Hm' & Hv'). exists b.
  split_and!; [|done..]. simpl in *. eapply copies_attach_output; [done|exact Hc'|in_list|done|exact HN|apply lookup_insert_eq].
Qed.

Lemma external_tensor t : external t → ∃ T, tensor_heap h0 !! t = Some T.
Proof. intros [_ Hv]. unfold variable in Hv. destruct (_ !! t); [eauto|done]. Qed.

Lemma register_input_spec tm s used t E : inv [] tm [] s → t ∉ tm.*1 → (t ∈ used → external t) →
  wp (register_input slice used t) (λ _ s',
    if decide (t ∈ used) then ∃ b, inv [] (tm ++ [(t, b)]) [] s' else s' = s) E s.
Proof.
  intros Hinv Hkey Hext. unfold register_input. case_decide as Hused; [|by apply wp_ret].
  destruct (external_tensor t (Hext Hused)) as [T HT].
  destruct (clone_step _ _ _ _ _ _ (λ _, False) Hinv HT (not_elem_of_nil _) Hkey) as (S & HS & Hmk & Hpush & Hins).
  set (b := next_address (slicer_ir s)) in *. set (h1 := with_tensor slice S T (slicer_ir s)) in *.
  unfold pushed in Hins. rewrite decide_True in Hins by auto.
  apply wp_bind, wp_zoom. eapply wp_exact; [exact Hmk|].
  apply wp_bind, wp_zoom. eapply wp_exact; [exact Hpush|].
  apply wp_zoom. eapply wp_mono; [exact Hins| |done]. intros [] m' Hinv'. exists b. exact Hinv'.
Qed.

Lemma register_all_spec used s E : inv [] [] [] s → (∀ t, t ∈ SubgraphInputs R → t ∈ used → external t) →
  wp (for_each (SubgraphInputs R) (register_input slice used)) (λ _ s', ∃ tm,
    inv [] tm [] s' ∧ tm.*1 = filter (λ t, t ∈ used) (SubgraphInputs R)) E s.
Proof.
  intros Hinv Hall. pose proof (sl_inputs_nodup Hsl) as Hnd.
  apply (wp_for_each (λ done s', ∃ tm, inv [] tm [] s' ∧ tm.*1 = filter (λ t, t ∈ used) done)).
  { exists []. by split. }
  intros done t todo s' Hl (tm & Hinv' & Hkeys).
  eapply wp_post; [|apply (register_input_spec tm s' used t E); [done| |apply Hall; rewrite Hl; in_list]].
  - intros [] s2. rewrite filter_app, filter_cons, filter_nil. case_decide.
    + intros [b Hb]. exists (tm ++ [(t, b)]). split; [done|]. by rewrite fmap_app, Hkeys.
    + intros ->. exists tm. by rewrite app_nil_r.
  - rewrite Hkeys, list_elem_of_filter. intros [_ Hin]. rewrite Hl in Hnd.
    apply NoDup_app in Hnd as (_ & Hnd & _). apply (Hnd t Hin). by left.
Qed.

(** The tensors of the partition that have a copy are those defined so far. *)
Definition closed (views : list LiteRtOpT) (tm : list (nat * nat)) : Prop :=
  ∀ a, a ∈ defined_in → a ∈ tm.*1 → a ∈ definitions views.

Lemma definitions_copied views tm ops h a : copies h0 slice external views tm ops h →
  a ∈ definitions views → a ∈ tm.*1.
Proof.
  intros Hc (l & Hl & Ha)%list_elem_of_In%in_concat. apply list_elem_of_In in Hl, Ha.
  apply list_elem_of_fmap in Hl as (V & -> & [i HV]%list_elem_of_lookup).
  destruct (Forall2_lookup_l _ _ _ _ _ (c_ops _ _ _ _ _ _ _ Hc) HV) as (n & _ & [_ (N & _ & _ & _ & Ho)]).
  apply list_elem_of_lookup in Ha as [j Hj]. destruct (Forall2_lookup_l _ _ _ _ _ Ho Hj) as (b & _ & Hp).
  apply list_elem_of_fmap. by exists (a, b).
Qed.

Lemma CloneInto_spec views tm ops s o O E :
  inv views tm ops s → closed views tm → op_heap h0 !! o = Some O →
  (∀ t, t ∈ Inputs O ∨ t ∈ Outputs O → ∃ T, tensor_heap h0 !! t = Some T ∧ ranked T = true) →
  (∀ a, a ∈ definitions views → a ∈ defined_in) →
  (∀ t, t ∈ Inputs O → t ∈ defined_in → t ∈ definitions views) →
  (∀ t, t ∈ Outputs O → t ∈ defined_in) → NoDup (definitions views ++ Outputs O) →
  wp (CloneInto slice o) (λ _ s', ∃ tm' ops', inv (views ++ [O]) tm' ops' s' ∧ closed (views ++ [O]) tm' ∧
    tm `prefix_of` tm' ∧ ∀ a, a ∈ tm'.*1 → a ∈ tm.*1 ∨ a ∈ Inputs O ∨ a ∈ Outputs O) E s.
Proof.
  intros Hinv Hcl HO Hall Hdefs Hin Hout Hnd. unfold CloneInto. destruct Hinv as (Hc & Hm & Hv).
  pose proof (copies_slice _ _ _ _ _ _ _ Hc) as HS. pose proof (sl_fresh Hsl) as Hf0.
  apply wp_bind, wp_zoom. eapply wp_exact.
  { apply MakeOpClone_exact; [apply Hc|exact HS|]. eapply lookup_weaken; [exact HO|apply Hc]. }
  destruct (copies_add_op h0 slice external Hf0 _ _ _ _ o O _ Hc HS HO) as [Hc1 Hn1].
  set (n := next_address (slicer_ir s)) in *.
  apply wp_bind, wp_zoom. eapply wp_get_op; [eapply lookup_weaken; [exact HO|apply Hc1]|].
  apply wp_bind.
  set (I1 := λ done s', ∃ tm', inv (views ++ [set_Inputs done (bare O)]) tm' (ops ++ [n]) s' ∧
    closed views tm' ∧ tm `prefix_of` tm' ∧ ∀ a, a ∈ tm'.*1 → a ∈ tm.*1 ∨ a ∈ Inputs O).
  eapply wp_post; [|apply (wp_for_each I1)].
  - intros [] s1 (tm1 & Hinv1 & Hcl1 & Hpre1 & Hfrom1).
    set (I2 := λ done s', ∃ tm', inv (views ++ [set_Outputs done O]) tm' (ops ++ [n]) s' ∧
      closed (views ++ [set_Outputs done O]) tm' ∧ tm `prefix_of` tm' ∧
      ∀ a, a ∈ tm'.*1 → a ∈ tm.*1 ∨ a ∈ Inputs O ∨ a ∈ Outputs O).
    eapply wp_post; [|apply (wp_for_each I2)].
    + intros [] s2 (tm2 & Hinv2 & Hcl2 & Hpre2 & Hfrom2). exists tm2, (ops ++ [n]). by destruct O.
    + exists tm1. split_and!; [by destruct O| |done|naive_solver]. intros a Ha1 Ha2. rewrite definitions_snoc. simpl.
      rewrite app_nil_r. by apply Hcl1.
    + intros done t todo s2 Hl (tm2 & Hinv2 & Hcl2 & Hpre2 & Hfrom2).
      destruct (Hall t) as (T & HT & _); [right; rewrite Hl; in_list|].
      assert (t ∈ defined_in) as Htd by (apply Hout; rewrite Hl; in_list).
      assert (t ∉ definitions (views ++ [set_Outputs done O])) as Htn.
      { rewrite definitions_snoc. simpl. rewrite Hl, app_assoc in Hnd. apply NoDup_app in Hnd as (_ & Hnd & _).
        intros Ht. apply (Hnd t Ht). by left. }
      eapply wp_post; [|eapply clone_output_spec; [exact Hinv2|exact HT|done|done|]].
      * intros [] s3 (b & Hinv3). exists (tm2 ++ [(t, b)]). split_and!; [exact Hinv3| |by apply prefix_app_r|].
        2: { intros a. rewrite fmap_app, elem_of_app. intros [Ha| ->%list_elem_of_singleton]; [auto|]. right. right. rewrite Hl. in_list. }
        intros a Ha1. rewrite fmap_app, definitions_snoc, !elem_of_app. simpl. rewrite elem_of_app.
        intros [Ha2|Ha2]; [|tauto]. specialize (Hcl2 a Ha1 Ha2). rewrite definitions_snoc, elem_of_app in Hcl2.
        simpl in Hcl2. tauto.
      * intros Hk. by apply Htn, Hcl2.
  - exists tm. split_and!; [|done|done|auto]. by split_and!.
  - intros done t todo s1 Hl (tm1 & Hinv1 & Hcl1 & Hpre1 & Hfrom1).
    destruct (Hall t) as (T & HT & Hrk); [left; rewrite Hl; in_list|].
    eapply wp_post; [|eapply clone_input_spec; [exact Hinv1|exact HT|exact Hrk| |]].
    + intros [] s2 (tm2 & Hinv2 & Hcase). exists tm2. split; [exact Hinv2|].
      destruct Hcase as [->|(b & -> & Hext)]; [done|]. split_and!; [|by apply prefix_app_r|].
      2: { intros a. rewrite fmap_app, elem_of_app. intros [Ha| ->%list_elem_of_singleton]; [auto|]. right. rewrite Hl. in_list. }
      intros a Ha1. rewrite fmap_app, elem_of_app. intros [Ha2| ->%list_elem_of_singleton]; [by apply Hcl1|done].
    + intros a. rewrite definitions_snoc. simpl. rewrite app_nil_r. apply Hdefs.
    + intros Htd. eapply definitions_copied; [apply Hinv1|]. rewrite definitions_snoc. apply elem_of_app. left.
      apply Hin; [rewrite Hl; in_list|done].
Qed.

(** ** The partition *)

Lemma views_of_app l k : views_of (l ++ k) = views_of l ++ views_of k.
Proof. apply omap_app. Qed.

Lemma views_of_one o O : op_heap h0 !! o = Some O → views_of [o] = [O].
Proof. intros HO. unfold views_of. simpl. by rewrite HO. Qed.

Lemma partition_op o : o ∈ P → ∃ O, op_heap h0 !! o = Some O.
Proof. intros Ho. apply (owned_ops _ _ _ (sl_root Hsl)). by apply Hsl. Qed.

Lemma views_elem V : V ∈ views_of P ↔ ∃ o, o ∈ P ∧ op_heap h0 !! o = Some V.
Proof. apply list_elem_of_omap. Qed.

Lemma defined_elem t : t ∈ defined_in ↔ ∃ o O, o ∈ P ∧ op_heap h0 !! o = Some O ∧ t ∈ Outputs O.
Proof.
  unfold defined_in, definitions. rewrite concat_elem. split.
  - intros (l & Hl & Ht). apply list_elem_of_fmap in Hl as (O & -> & (o & Ho & HO)%views_elem). eauto.
  - intros (o & O & Ho & HO & Ht). exists (Outputs O). split; [|done].
    apply list_elem_of_fmap. exists O. split; [done|]. apply views_elem. eauto.
Qed.

Lemma used_elem t : t ∈ used_in ↔ ∃ o O, o ∈ P ∧ op_heap h0 !! o = Some O ∧ t ∈ Inputs O.
Proof.
  unfold used_in. rewrite concat_elem. split.
  - intros (l & Hl & Ht). apply list_elem_of_fmap in Hl as (O & -> & (o & Ho & HO)%views_elem). eauto.
  - intros (o & O & Ho & HO & Ht). exists (Inputs O). split; [|done].
    apply list_elem_of_fmap. exists O. split; [done|]. apply views_elem. eauto.
Qed.

Lemma edge_tensor t : t ∈ used_in ∨ t ∈ defined_in → ∃ T, tensor_heap h0 !! t = Some T ∧ ranked T = true.
Proof.
  intros Ht. assert (is_Some (tensor_heap h0 !! t)) as [T HT].
  { destruct Ht as [(o & O & _ & HO & Hi)%used_elem|(o & O & _ & HO & Hi)%defined_elem];
      apply (wf_edges _ (sl_wf Hsl) o O t HO); tauto. }
  exists T. split; [done|]. by apply (sl_ranked Hsl t).
Qed.

Lemma output_def o O t i : op_heap h0 !! o = Some O → Outputs O !! i = Some t →
  ∃ T, tensor_heap h0 !! t = Some T ∧ DefiningOp T = o ∧ DefiningOpOutInd T = Z.of_nat i.
Proof.
  intros HO Hi. destruct (wf_edges _ (sl_wf Hsl) o O t HO) as [T HT]; [right; by eapply list_elem_of_lookup_2|].
  exists T. split; [done|]. apply (linked_def _ _ _ (wf_linked _ (sl_wf Hsl) _ _ HT)).
  - intros ->. by rewrite (wf_null _ (sl_wf Hsl)) in HO.
  - exists O. split; [done|]. apply zget_Some. rewrite Nat2Z.id. split; [lia|done].
Qed.

Lemma outputs_nodup l : NoDup l → NoDup (definitions (views_of l)).
Proof.
  induction 1 as [|o l Ho Hnd IH]; [constructor|]. unfold views_of. simpl.
  destruct (op_heap h0 !! o) as [O|] eqn:HO; [|done]. unfold definitions. simpl. apply NoDup_app. split_and!; [| |done].
  - apply NoDup_alt. intros i j t Hi Hj. destruct (output_def o O t i HO Hi) as (T & HT & _ & H1).
    destruct (output_def o O t j HO Hj) as (T' & HT' & _ & H2). simplify_eq. lia.
  - intros t [i Hi]%list_elem_of_lookup (k & Hk & Ht)%concat_elem.
    apply list_elem_of_fmap in Hk as (O' & -> & Hk).
    apply list_elem_of_omap in Hk as (o' & Ho' & HO'). apply list_elem_of_lookup in Ht as [j Hj].
    destruct (output_def o O t i HO Hi) as (T & HT & H1 & _).
    destruct (output_def o' O' t j HO' Hj) as (T' & HT' & H2 & _). simplify_eq. done.
Qed.

Lemma clone_all_spec tm0 s E : inv [] tm0 [] s → closed [] tm0 → (∀ a, a ∈ tm0.*1 → a ∈ used_in) →
  wp (for_each P (CloneInto slice)) (λ _ s', ∃ tm ops, inv (views_of P) tm ops s' ∧ tm0 `prefix_of` tm ∧
    ∀ a, a ∈ tm.*1 → a ∈ used_in ∨ a ∈ defined_in) E s.
Proof.
  intros Hinv Hcl Hused.
  set (I := λ done s', ∃ tm ops, inv (views_of done) tm ops s' ∧ closed (views_of done) tm ∧ tm0 `prefix_of` tm ∧
    ∀ a, a ∈ tm.*1 → a ∈ used_in ∨ a ∈ defined_in).
  eapply wp_post; [|apply (wp_for_each I)].
  - intros [] s' (tm & ops & H1 & H2 & H3 & H4). eauto 6.
  - exists tm0, []. split_and!; [done..|]. auto.
  - intros done o todo s' HP (tm & ops & Hinv' & Hcl' & Hpre & Hfrom).
    assert (o ∈ P) as Ho by (rewrite HP; in_list). destruct (partition_op o Ho) as [O HO].
    assert (views_of P = views_of done ++ O :: views_of todo) as Hviews.
    { rewrite HP, views_of_app. f_equal. unfold views_of. simpl. by rewrite HO. }
    assert (defined_in = definitions (views_of done) ++ definitions (views_of (o :: todo))) as Hsplit.
    { unfold defined_in. rewrite HP, views_of_app. unfold definitions. by rewrite fmap_app, concat_app. }
    assert (definitions (views_of (o :: todo)) = Outputs O ++ definitions (views_of todo)) as Hcons.
    { unfold views_of. simpl. by rewrite HO. }
    eapply wp_post; [|eapply (CloneInto_spec _ _ _ _ o O E Hinv' Hcl' HO)].
    + intros [] s2 (tm' & ops' & Hinv2 & Hcl2 & Hpre2 & Hfrom2). exists tm', ops'.
      rewrite views_of_app, (views_of_one o O HO). split_and!; [done|done|by etrans|].
      intros a [Ha|[Ha|Ha]]%Hfrom2; [by apply Hfrom|left; apply used_elem; eauto|right; apply defined_elem; eauto].
    + intros t [Ht|Ht]; apply edge_tensor; [left; apply used_elem; eauto|right; apply defined_elem; eauto].
    + intros a Ha. rewrite Hsplit. in_list.
    + intros t Ht. rewrite Hsplit, elem_of_app. intros [?|Hd]; [done|].
      by destruct (sl_order Hsl done o todo O t HP HO Ht).
    + intros t Ht. apply defined_elem. eauto.
    + pose proof (outputs_nodup P (sl_nodup Hsl)) as Hnd. change (NoDup defined_in) in Hnd.
      rewrite Hsplit, Hcons, app_assoc in Hnd. by apply NoDup_app in Hnd as (Hnd & _).
Qed.

(** ** The dispatch operation *)

Definition used_outside (t : LiteRtTensor) : Prop :=
  match tensor_heap h0 !! t with Some T => filter (λ u, u ∉ P) (Users T) ≠ [] | None => False end.

#[export] Instance used_outside_dec t : Decision (used_outside t).
Proof. unfold used_outside. destruct (_ !! _); apply _. Defined.

(** What the partition hands to the outside. *)
Definition escaping (t : LiteRtTensor) : Prop :=
  t ∈ defined_in ∧ ((used_outside t ∧ variable t) ∨ t ∈ SubgraphOutputs R).

#[export] Instance escaping_dec t : Decision (escaping t).
Proof. unfold escaping. apply _. Defined.

Definition dispatch (ins outs : list LiteRtTensor) : LiteRtOpT :=
  {| OpCode := kLiteRtOpCodeTflCustom; Inputs := ins; Outputs := outs; CustomOptions := [];
     TflOpCodeInd := kDispatchOpCodeTflInd; GetTflOptions := OtherOptions |}.

Definition dispatch_of (l : list (nat * nat)) : LiteRtOpT :=
  dispatch (filter (λ p, external p.1) l).*1 (filter (λ p, escaping p.1) l).*1.

(** The heap while the entries of the map are rerouted. *)
Record rerouted (ops : list nat) (tm : list (nat * nat)) (d : LiteRtOp) (h3 : ir) (l : list (nat * nat)) (h : ir) : Prop := {
  rr_wf : wf_ir h;
  rr_ops : op_heap h = <[d := dispatch_of l]> (op_heap h3);
  rr_other t : t ∉ l.*1 → tensor_heap h !! t = tensor_heap h3 !! t;
  rr_data t T : tensor_heap h3 !! t = Some T → ∃ T', tensor_heap h !! t = Some T' ∧ copy_tensor_of T T';
  rr_subgraphs : subgraph_heap h = <[slice := {| Tensors := tm.*2; Ops := ops; SubgraphInputs := inputs_of external tm;
    SubgraphOutputs := (filter (λ p, escaping p.1) l).*2 |}]> (subgraph_heap h0);
  rr_next : next_address h = next_address h3;
  rr_dom t : is_Some (tensor_heap h !! t) → is_Some (tensor_heap h3 !! t)
}.

Lemma filter_snoc {A} (Q : A → Prop) `{∀ x, Decision (Q x)} l x :
  filter Q (l ++ [x]) = filter Q l ++ (if decide (Q x) then [x] else []).
Proof. by rewrite filter_app, filter_cons, filter_nil. Qed.

Lemma copy_trans T T' T'' : copy_tensor_of T T' → copy_tensor_of T' T'' → copy_tensor_of T T''.
Proof. unfold copy_tensor_of. intros H1 H2. rewrite <- H2, <- H1. unfold clone_tensor. simpl. by rewrite !clone_Qparams_eq. Qed.

Lemma copy_insert (m : gmap nat LiteRtTensorT) (m3 : gmap nat LiteRtTensorT) a A A' :
  (∀ t T, m3 !! t = Some T → ∃ T', m !! t = Some T' ∧ copy_tensor_of T T') →
  m !! a = Some A → copy_tensor_of A A' →
  ∀ t T, m3 !! t = Some T → ∃ T', <[a := A']> m !! t = Some T' ∧ copy_tensor_of T T'.
Proof.
  intros Hdata Ha Hcopy t T HT. destruct (Hdata t T HT) as (T' & HT' & Hc).
  destruct (decide (t = a)) as [->|Hne]; [|rewrite lookup_insert_ne by done; eauto].
  simplify_eq. rewrite lookup_insert_eq. exists A'. split; [done|]. by eapply copy_trans.
Qed.

Lemma FindInd_is_Some l v : is_Some (FindInd l v) ↔ v ∈ l.
Proof.
  induction l as [|x l IH]; simpl; [split; [by intros []|by intros ?%not_elem_of_nil]|].
  rewrite elem_of_cons. case_decide as Heq; [split; [auto|eauto]|]. rewrite fmap_is_Some, IH. naive_solver.
Qed.

Section reroute.
Context (ops : list nat) (tm : list (nat * nat)) (d : LiteRtOp) (h3 : ir) (l : list (nat * nat)) (h : ir).
Context (a b : nat) (A : LiteRtTensorT).
Hypothesis Hrr : rerouted ops tm d h3 l h.
Hypothesis HA' : tensor_heap h !! a = Some (forget_all P A).

Lemma reroute_split t : t ∉ (l ++ [(a, b)]).*1 → (t ∉ l.*1) ∧ t ≠ a.
Proof. rewrite fmap_app, not_elem_of_app. simpl. by rewrite list_elem_of_singleton. Qed.

(** The heap after an entry became an input of the dispatch op. *)
Lemma rerouted_input : external a → ¬ escaping a →
  rerouted ops tm d h3 (l ++ [(a, b)]) (attached_input d (dispatch_of l) a (forget_all P A) h).
Proof.
  destruct Hrr as [W1 W2 W3 W4 W5 W6 W7]. intros Hx Hnx.
  assert (op_heap h !! d = Some (dispatch_of l)) as Hd by (rewrite W2; apply lookup_insert_eq).
  assert (balanced (forget_all P A)) as Hbal by (unfold forget_all; apply balanced_with_uses).
  split; simpl.
  - by apply attached_input_wf.
  - rewrite W2, insert_insert_eq. f_equal. unfold dispatch_of. rewrite !filter_snoc. simpl.
    rewrite decide_True, decide_False by done. by rewrite !fmap_app, app_nil_r.
  - intros t [Ht1 Ht2]%reroute_split. rewrite lookup_insert_ne by done. by apply W3.
  - eapply copy_insert; [exact W4|exact HA'|by apply copy_data].
  - rewrite W5. rewrite filter_snoc. simpl. rewrite decide_False by done. by rewrite app_nil_r.
  - done.
  - intros t Ht. apply W7. eapply insert_same_dom; [|exact Ht]. eauto.
Qed.

(** ... an output of it and of the slice. *)
Lemma rerouted_output : ¬ external a → escaping a → DefiningOp (forget_all P A) = nullptr →
  rerouted ops tm d h3 (l ++ [(a, b)])
    (set_subgraph_heap (<[slice := {| Tensors := tm.*2; Ops := ops; SubgraphInputs := inputs_of external tm;
      SubgraphOutputs := (filter (λ p, escaping p.1) l).*2 ++ [b] |}]> (subgraph_heap h))
      (attached_output d (dispatch_of l) a (forget_all P A) h)).
Proof.
  destruct Hrr as [W1 W2 W3 W4 W5 W6 W7]. intros Hnx Hx Hnull.
  assert (op_heap h !! d = Some (dispatch_of l)) as Hd by (rewrite W2; apply lookup_insert_eq).
  split; simpl.
  - eapply wf_ir_ext; [| |apply (attached_output_wf h d (dispatch_of l) a (forget_all P A))]; done.
  - rewrite W2, insert_insert_eq. f_equal. unfold dispatch_of. rewrite !filter_snoc. simpl.
    rewrite decide_False, decide_True by done. by rewrite !fmap_app, app_nil_r.
  - intros t [Ht1 Ht2]%reroute_split. rewrite lookup_insert_ne by done. by apply W3.
  - eapply copy_insert; [exact W4|exact HA'|by apply copy_data].
  - rewrite W5, insert_insert_eq. do 2 f_equal. rewrite filter_snoc. simpl. rewrite decide_True by done. by rewrite fmap_app.
  - done.
  - intros t Ht. apply W7. eapply insert_same_dom; [|exact Ht]. eauto.
Qed.

(** ... and when it is neither. *)
Lemma rerouted_none : ¬ external a → ¬ escaping a → rerouted ops tm d h3 (l ++ [(a, b)]) h.
Proof.
  destruct Hrr as [W1 W2 W3 W4 W5 W6 W7]. intros Hnx Hny. split; [done| | |done| |done|done].
  - rewrite W2. f_equal. unfold dispatch_of. rewrite !filter_snoc. simpl. rewrite !decide_False by done. by rewrite !app_nil_r.
  - intros t [Ht1 Ht2]%reroute_split. by apply W3.
  - rewrite W5. rewrite filter_snoc. simpl. rewrite decide_False by done. by rewrite app_nil_r.
Qed.
End reroute.

Lemma reroute_spec ops tm d h3 l p todo h A B E :
  tm = l ++ p :: todo → rerouted ops tm d h3 l h → subgraph_heap h0 !! g = Some R →
  tensor_heap h0 !! p.1 = Some A → balanced A → ranked A = true →
  tensor_heap h !! p.1 = Some (forget_all P A) → tensor_heap h !! p.2 = Some B → copy_tensor_of A B →
  (DefiningOp B = nullptr ↔ p.1 ∉ defined_in) → (p.1 ∈ defined_in → DefiningOp (forget_all P A) = nullptr) →
  (p.1 ∉ defined_in → is_constant A = true → p.1 ∉ SubgraphOutputs R) →
  wp (reroute slice g d p) (λ _ h', rerouted ops tm d h3 (l ++ [p]) h') E h.
Proof.
  destruct p as [a b]. simpl. intros Htm Hrr HR HA HbA HrA HA' HB Hcopy Hdef Hnull Hconst.
  destruct (copy_constant _ _ Hcopy) as [HrB HcB]. destruct (copy_constant _ _ (forget_all_data P A)) as [HrA' HcA'].
  pose proof (rr_ops _ _ _ _ _ _ Hrr) as W2. pose proof (rr_subgraphs _ _ _ _ _ _ Hrr) as W5.
  assert (op_heap h !! d = Some (dispatch_of l)) as Hd by (rewrite W2; apply lookup_insert_eq).
  assert (balanced (forget_all P A)) as Hbal by (unfold forget_all; apply balanced_with_uses).
  assert (external a ↔ (a ∉ defined_in) ∧ is_constant A = false) as Hext by (unfold external, variable; by rewrite HA).
  assert (escaping a ↔ a ∈ defined_in ∧ ((filter (λ u, u ∉ P) (Users A) ≠ [] ∧ is_constant A = false) ∨ a ∈ SubgraphOutputs R)) as Hesc
    by (unfold escaping, used_outside, variable; by rewrite HA).
  assert (subgraph_heap h !! g = Some R) as HR'.
  { rewrite W5, lookup_insert_ne; [done|]. apply (sl_ne Hsl). }
  unfold reroute. apply wp_bind. eapply wp_get_tensor; [exact HB|]. apply wp_bind.
  eapply (wp_post _ (λ r h', r = bool_decide (external a) ∧ h' = h)).
  2: { destruct (decide (DefiningOp B = nullptr)) as [Hn|Hn].
       - apply wp_bind, wp_IsConstant; [by rewrite HrB|]. apply wp_ret. split; [|done]. rewrite HcB.
         rewrite (bool_decide_ext _ _ Hext). symmetry. destruct (is_constant A); simpl.
         + apply bool_decide_eq_false. by intros [_ ?].
         + apply bool_decide_eq_true. tauto.
       - apply wp_ret. split; [|done]. symmetry. apply bool_decide_eq_false. tauto. }
  intros r h' [-> ->]. case_bool_decide as Hx.
  { eapply wp_exact; [by apply AttachInput_exact|]. apply rerouted_input; tauto. }
  apply wp_bind. eapply wp_get_tensor; [exact HA'|]. apply wp_bind.
  eapply (wp_post _ (λ r h', r = bool_decide (filter (λ u, u ∉ P) (Users A) ≠ [] ∧ is_constant A = false) ∧ h' = h)).
  2: { rewrite forget_all_Users by done. destruct (decide (filter (λ u, u ∉ P) (Users A) = [])) as [Hn|Hn].
       - apply wp_ret. split; [|done]. symmetry. apply bool_decide_eq_false. tauto.
       - apply wp_bind, wp_IsConstant; [by rewrite HrA'|]. apply wp_ret. split; [|done]. rewrite HcA'.
         symmetry. destruct (is_constant A); simpl.
         + apply bool_decide_eq_false. by intros [_ ?].
         + by apply bool_decide_eq_true. }
  intros r h' [-> ->]. apply wp_bind. eapply wp_get_subgraph; [exact HR'|].
  assert (bool_decide (filter (λ u, u ∉ P) (Users A) ≠ [] ∧ is_constant A = false) ||
    bool_decide (is_Some (FindSubgraphOutput R a)) = bool_decide (escaping a)) as ->.
  { rewrite <- bool_decide_or. apply bool_decide_ext. unfold FindSubgraphOutput. rewrite FindInd_is_Some, Hesc.
    destruct (decide (a ∈ defined_in)) as [Hdd|Hdd].
    - split; [intros Hor; by split|by intros [_ Hor]].
    - split; [|by intros [Hno _]]. destruct (is_constant A) eqn:Hca; [|by destruct Hx; apply Hext].
      specialize (Hconst Hdd eq_refl). by intros [[_ ?]|?]. }
  case_bool_decide as Hy; [|apply wp_ret; by apply rerouted_none].
  apply wp_bind. eapply wp_exact; [by apply AttachOutput_exact|].
  unfold push_SubgraphOutput, update_subgraph, put_subgraph. wp_steps.
  eapply wp_get_subgraph; [simpl; rewrite W5; apply lookup_insert_eq|]. wp_steps. apply rerouted_output; tauto.
Qed.

(** ** The whole function *)

Lemma used_tensors_spec h E : op_heap h0 ⊆ op_heap h →
  wp (used_tensors P) (λ u h', u = used_in ∧ h' = h) E h.
Proof.
  intros Hsub. unfold used_tensors, used_in.
  apply (wp_fold_m (λ done u h', u = concat (Inputs <$> views_of done) ∧ h' = h)); [done|].
  intros done o todo u h' HP [-> ->]. destruct (partition_op o) as [O HO]; [rewrite HP; in_list|].
  apply wp_bind. eapply wp_get_op; [by eapply lookup_weaken|]. apply wp_ret. split; [|done].
  rewrite views_of_app, (views_of_one o O HO), fmap_app, concat_app. simpl. by rewrite app_nil_r.
Qed.

Lemma copies_start : copies h0 slice external [] [] [] h0.
Proof.
  split; [apply Hsl|apply Hsl|done|done|done| |done| |constructor..].
  - symmetry. apply insert_id. apply Hsl.
  - by intros a b ?%not_elem_of_nil.
Qed.

Lemma wf_same_edges h o O O' : wf_ir h → op_heap h !! o = Some O → Inputs O' = Inputs O → Outputs O' = Outputs O →
  wf_ir (set_op_heap (<[o := O']> (op_heap h)) h).
Proof.
  intros Hwf HO Hi Ho.
  assert (∀ (Q : list nat → list nat → Prop) p, (∃ X, <[o := O']> (op_heap h) !! p = Some X ∧ Q (Inputs X) (Outputs X)) ↔
    (∃ X, op_heap h !! p = Some X ∧ Q (Inputs X) (Outputs X))) as Hsame.
  { intros Q p. destruct (decide (p = o)) as [->|Hne]; [|by rewrite lookup_insert_ne].
    rewrite lookup_insert_eq. split; intros (X & HX & HQ); simplify_eq; [exists O|exists O']; (split; [done|]).
    - by rewrite <- Hi, <- Ho.
    - by rewrite Hi, Ho. }
  split; simpl.
  - intros t T HT. pose proof (wf_linked _ Hwf _ _ HT) as Hl. split; [apply Hl|apply Hl| |].
    + intros p i. rewrite (Hsame (λ ins _, zget ins i = Some t)). apply Hl.
    + intros p i Hp. rewrite (Hsame (λ _ outs, zget outs i = Some t)). by apply Hl.
  - intros p X t HX Ht. assert (∃ Y, op_heap h !! p = Some Y ∧ (t ∈ Inputs Y ∨ t ∈ Outputs Y)) as (Y & HY & Ht').
    { rewrite <- (Hsame (λ ins outs, t ∈ ins ∨ t ∈ outs)). eauto. }
    by apply (wf_edges _ Hwf p Y).
  - rewrite lookup_insert_ne; [apply Hwf|]. intros ->. by rewrite (wf_null _ Hwf) in HO.
Qed.

Lemma old_lt o : o ∈ P → (o < next_address h0)%nat.
Proof. intros [O HO]%partition_op. apply (fh_op_lt _ _ (sl_fresh Hsl)). eauto. Qed.

(** Dropping and rerouting, from the heap with the copies. *)
Lemma reroute_all_spec tm ops h1 h2 d O E :
  copies h0 slice external (views_of P) tm ops h1 → dropped P h1 h2 →
  (∀ a, a ∈ tm.*1 → a ∈ used_in ∨ a ∈ defined_in) → d ∈ P → op_heap h0 !! d = Some O →
  let h3 := set_op_heap (<[d := dispatch [] []]> (op_heap h2)) h2 in
  wp (for_each tm (reroute slice g d)) (λ _ h4, rerouted ops tm d h3 tm h4) E h3.
Proof.
  intros Hc Hd Hfrom HdP HO h3.
  assert (op_heap h2 !! d = Some (bare O)) as HO2.
  { rewrite (dr_ops _ _ _ Hd), decide_True by done.
    by rewrite (lookup_weaken _ _ _ _ HO (c_old_ops _ _ _ _ _ _ _ Hc)). }
  apply (wp_for_each (rerouted ops tm d h3)).
  - split; simpl.
    + by eapply wf_same_edges; [apply Hd|exact HO2| |].
    + by rewrite insert_insert_eq.
    + done.
    + intros t T HT. exists T. split; [done|]. by apply copy_data.
    + rewrite (dr_subgraphs _ _ _ Hd). apply Hc.
    + done.
    + done.
  - intros l [a b] todo h Htm Hr.
    assert ((a, b) ∈ tm) as Hp by (rewrite Htm; in_list).
    pose proof (c_tensors _ _ _ _ _ _ _ Hc a b Hp) as [Hb HAB [A HA]].
    destruct (HAB A HA) as (B & HB & Hcopy & Hdef & Hnew).
    assert (a ∉ l.*1) as Hal.
    { pose proof (c_keys _ _ _ _ _ _ _ Hc) as Hnd. rewrite Htm, fmap_app in Hnd. apply NoDup_app in Hnd as (_ & Hnd & _).
      intros Hin. apply (Hnd a Hin). by left. }
    assert (b ∉ l.*1) as Hbl.
    { intros ([a' b'] & Heq & Hin)%list_elem_of_fmap. simpl in Heq. subst a'.
      assert ((b, b') ∈ tm) as Hp' by (rewrite Htm; in_list).
      destruct (ct_old _ _ _ _ _ (c_tensors _ _ _ _ _ _ _ Hc _ _ Hp')) as [X HX].
      rewrite (fh_tensor _ (sl_fresh Hsl)) in HX by done. done. }
    assert (DefiningOp B ∉ P) as HBP.
    { intros Hin. destruct Hnew as [Hn|Hge]; [|pose proof (old_lt _ Hin); lia].
      destruct (partition_op _ Hin) as [X HX]. rewrite Hn, (wf_null _ (sl_wf Hsl)) in HX. done. }
    assert (ranked A = true) as Hrk.
    { apply (sl_ranked Hsl a); [|done]. apply Hfrom. apply list_elem_of_fmap. by exists (a, b). }
    eapply (reroute_spec ops tm d h3 l (a, b) todo h A (forget_all P B)); cbn [fst snd]; [done|done|apply Hsl|done| |done| | | | | |].
    + apply (wf_linked _ (sl_wf Hsl) _ _ HA).
    + rewrite (rr_other _ _ _ _ _ _ Hr a Hal). simpl. rewrite (dr_tensors _ _ _ Hd).
      by rewrite (lookup_weaken _ _ _ _ HA (c_old_tensors _ _ _ _ _ _ _ Hc)).
    + rewrite (rr_other _ _ _ _ _ _ Hr b Hbl). simpl. by rewrite (dr_tensors _ _ _ Hd), HB.
    + by eapply copy_trans, forget_all_data.
    + rewrite forget_all_DefiningOp, decide_False by done. exact Hdef.
    + intros (o & X & Ho & HX & [i Hi]%list_elem_of_lookup)%defined_elem.
      destruct (output_def o X a i HX Hi) as (A' & HA' & Hdo & _). simplify_eq.
      by rewrite forget_all_DefiningOp, decide_True.
    + intros Hnd Hca Hout. assert (a ∈ used_in) as Hu.
      { destruct (Hfrom a) as [?|?]; [apply list_elem_of_fmap; by exists (a, b)|done|done]. }
      pose proof (sl_constants Hsl a Hu Hnd Hout) as Hv. unfold variable in Hv. rewrite HA in Hv. congruence.
Qed.

(** The result, with the pairs of old and new tensors and the new operations:
    the slice is a copy of the partition, its inputs and outputs correspond to
    those of the dispatch operation, and the rest of the root is as before. *)
Record outlined (d : LiteRtOp) (tm : list (LiteRtTensor * LiteRtTensor)) (ops : list LiteRtOp) (h : ir) : Prop := {
  ol_wf : wf_ir h;
  ol_slice : subgraph_heap h !! slice = Some {| Tensors := tm.*2; Ops := ops;
    SubgraphInputs := (filter (λ p, external p.1) tm).*2; SubgraphOutputs := (filter (λ p, escaping p.1) tm).*2 |};
  ol_keys : NoDup tm.*1;
  ol_values : NoDup tm.*2;
  ol_order : filter (λ t, t ∈ used_in) (SubgraphInputs R) `prefix_of` tm.*1;
  ol_tensors a b : (a, b) ∈ tm → ∃ A B, tensor_heap h0 !! a = Some A ∧ tensor_heap h !! b = Some B ∧ copy_tensor_of A B;
  ol_ops : Forall2 (λ o n, ∃ O N, op_heap h0 !! o = Some O ∧ op_heap h !! n = Some N ∧ copy_op_of O N ∧
    Forall2 (λ a b, (a, b) ∈ tm) (Inputs O) (Inputs N) ∧ Forall2 (λ a b, (a, b) ∈ tm) (Outputs O) (Outputs N)) P ops;
  ol_dispatch : Inputs (dispatch_of tm) ≠ [] ∨ Outputs (dispatch_of tm) ≠ [] → op_heap h !! d = Some (dispatch_of tm);
  ol_gone o : o ∈ P → o ≠ d → op_heap h !! o = None;
  ol_kept o O : o ∉ P → op_heap h0 !! o = Some O → Inputs O ≠ [] ∨ Outputs O ≠ [] → op_heap h !! o = Some O;
  ol_data t T T' : tensor_heap h0 !! t = Some T → tensor_heap h !! t = Some T' → copy_tensor_of T T';
  ol_from a : a ∈ tm.*1 → a ∈ used_in ∨ a ∈ defined_in;
  ol_only X : op_heap h !! d = Some X → X = dispatch_of tm;
  ol_old o O X : o ∉ P → op_heap h0 !! o = Some O → op_heap h !! o = Some X → X = O;
  ol_fresh : fresh_heap h;
  ol_next : (next_address h0 ≤ next_address h)%nat;
  ol_subgraphs k : k ≠ slice → k ≠ g → subgraph_heap h !! k = subgraph_heap h0 !! k;
  ol_root : ∃ R', owned h g R' ∧ Ops R' = filter (λ o, is_Some (op_heap h !! o)) (Ops R) ∧
    SubgraphInputs R' = SubgraphInputs R ∧ SubgraphOutputs R' = SubgraphOutputs R
}.

Lemma has_edges O : Inputs O ≠ [] ∨ Outputs O ≠ [] → IsOpDead O = false.
Proof.
  unfold IsOpDead. intros [He|He]; [by rewrite (bool_decide_eq_false_2 _ He)|].
  by rewrite (bool_decide_eq_false_2 _ He), andb_false_r.
Qed.

Lemma views_Forall2 (Q : LiteRtOpT → LiteRtOp → Prop) l k : (∀ o, o ∈ l → is_Some (op_heap h0 !! o)) →
  Forall2 Q (views_of l) k → Forall2 (λ o n, ∃ O, op_heap h0 !! o = Some O ∧ Q O n) l k.
Proof.
  revert k. induction l as [|o l IH]; intros k Hall; unfold views_of; simpl; [by inversion 1|].
  destruct (Hall o) as [O HO]; [by left|]. rewrite HO. inversion 1; subst. constructor; [eauto|].
  apply IH; [|done]. intros o' Ho'. apply Hall. by right.
Qed.

Lemma swept_is_Some {A} (pred : nat → A → bool) refs m p : p ∈ refs → is_Some (m !! p) →
  is_Some (swept pred refs m !! p) ↔ dead pred m p = false.
Proof.
  intros Hp [a Ha]. rewrite swept_lookup. unfold dead. rewrite Ha. simpl. case_decide as Hd.
  - destruct Hd as [_ ->]. split; [by intros []|done].
  - split; [|eauto]. intros _. destruct (pred p a); [|done]. by destruct Hd.
Qed.

Section final.
Context (tm : list (nat * nat)) (ops : list nat) (h1 h2 h4 : ir) (d : LiteRtOp).
Let h3 := set_op_heap (<[d := dispatch [] []]> (op_heap h2)) h2.
Hypothesis Hc : copies h0 slice external (views_of P) tm ops h1.
Hypothesis Hdrop : dropped P h1 h2.
Hypothesis HdP : d ∈ P.
Hypothesis Hr : rerouted ops tm d h3 tm h4.
Hypothesis Hfrom : ∀ a, a ∈ tm.*1 → a ∈ used_in ∨ a ∈ defined_in.

Lemma final_old o O : o ∉ P → op_heap h0 !! o = Some O → op_heap h4 !! o = Some O.
Proof.
  intros Ho HO. rewrite (rr_ops _ _ _ _ _ _ Hr). simpl. rewrite !lookup_insert_ne by (intros ->; done).
  rewrite (dr_ops _ _ _ Hdrop), decide_False by done. eapply lookup_weaken; [done|apply Hc].
Qed.

Lemma final_partition o : o ∈ P → o ≠ d → ∃ O, op_heap h4 !! o = Some (bare O).
Proof.
  intros Ho Hne. destruct (partition_op o Ho) as [O HO]. exists O.
  rewrite (rr_ops _ _ _ _ _ _ Hr). simpl. rewrite !lookup_insert_ne by done.
  rewrite (dr_ops _ _ _ Hdrop), decide_True by done. by rewrite (lookup_weaken _ _ _ _ HO (c_old_ops _ _ _ _ _ _ _ Hc)).
Qed.

Lemma final_dispatch : op_heap h4 !! d = Some (dispatch_of tm).
Proof. rewrite (rr_ops _ _ _ _ _ _ Hr). apply lookup_insert_eq. Qed.

Lemma final_new n N : (next_address h0 ≤ n)%nat → op_heap h1 !! n = Some N → op_heap h4 !! n = Some N.
Proof.
  intros Hn HN. assert (n ∉ P) as HnP by (intros Hin%old_lt; lia).
  rewrite (rr_ops _ _ _ _ _ _ Hr). simpl. rewrite !lookup_insert_ne by (intros ->; done).
  by rewrite (dr_ops _ _ _ Hdrop), decide_False.
Qed.

Lemma final_tensor t T : tensor_heap h1 !! t = Some T → ∃ T', tensor_heap h4 !! t = Some T' ∧ copy_tensor_of T T'.
Proof.
  intros HT. destruct (rr_data _ _ _ _ _ _ Hr t (forget_all P T)) as (T' & HT' & Hcopy).
  - simpl. by rewrite (dr_tensors _ _ _ Hdrop), HT.
  - exists T'. split; [done|]. by eapply copy_trans; [apply forget_all_data|].
Qed.

Lemma final_fresh : fresh_heap h4.
Proof.
  pose proof (c_fresh _ _ _ _ _ _ _ Hc) as [F1 F2 F3]. pose proof (rr_next _ _ _ _ _ _ Hr) as Hn. simpl in Hn.
  rewrite (dr_next _ _ _ Hdrop) in Hn. split; rewrite Hn; [intros a Ha..|done]; apply eq_None_not_Some; intros Hs.
  - apply (rr_dom _ _ _ _ _ _ Hr) in Hs. simpl in Hs. rewrite (dr_tensors _ _ _ Hdrop), (F1 a Ha) in Hs. by destruct Hs.
  - rewrite (rr_ops _ _ _ _ _ _ Hr) in Hs. simpl in Hs. destruct (partition_op d HdP) as [O HO].
    assert (is_Some (op_heap h2 !! d)) as Hd2.
    { rewrite (dr_ops _ _ _ Hdrop), decide_True by done. rewrite (lookup_weaken _ _ _ _ HO (c_old_ops _ _ _ _ _ _ _ Hc)). eauto. }
    assert (is_Some (<[d := dispatch [] []]> (op_heap h2) !! d)) as Hd3 by (rewrite lookup_insert_eq; eauto).
    pose proof (insert_same_dom _ _ _ _ Hd2 (insert_same_dom _ _ _ _ Hd3 Hs)) as Hs2.
    rewrite (dr_ops _ _ _ Hdrop), (F2 a Ha) in Hs2. case_decide; by destruct Hs2.
Qed.

Lemma final_owned : owned h4 g R.
Proof.
  destruct (sl_root Hsl) as [O1 O2 O3 O4 O5]. split; [|done|done| |].
  - rewrite (rr_subgraphs _ _ _ _ _ _ Hr), lookup_insert_ne; [done|apply Hsl].
  - intros o [O HO]%O4. destruct (decide (o ∈ P)) as [Ho|Ho]; [|exists O; by apply final_old].
    destruct (decide (o = d)) as [->|Hne]; [rewrite final_dispatch; eauto|].
    destruct (final_partition o Ho Hne) as [X HX]. eauto.
  - intros t [T HT]%O5. destruct (final_tensor t T) as (T' & HT' & _); [|eauto].
    eapply lookup_weaken; [exact HT|apply Hc].
Qed.

Lemma final_outlined : filter (λ t, t ∈ used_in) (SubgraphInputs R) `prefix_of` tm.*1 →
  outlined d tm ops (after_DCE h4 g R).
Proof.
  intros Hpre. pose proof final_owned as Hown. pose proof (sl_root Hsl) as Hroot.
  assert (∀ n, (next_address h0 ≤ n)%nat → n ∉ Ops R) as HnR.
  { intros n Hn [X HX]%(owned_ops _ _ _ Hroot). by rewrite (fh_op _ (sl_fresh Hsl)) in HX. }
  assert (∀ n, (next_address h0 ≤ n)%nat → n ∉ Tensors R) as HtR.
  { intros n Hn [X HX]%(owned_tensors _ _ _ Hroot). by rewrite (fh_tensor _ (sl_fresh Hsl)) in HX. }
  assert (∀ o O, op_heap h4 !! o = Some O → Inputs O ≠ [] ∨ Outputs O ≠ [] →
    op_heap (after_DCE h4 g R) !! o = Some O) as Hlive.
  { intros o O HO He%has_edges. apply swept_Some. split; [done|]. intros [_ Hd]. unfold op_dead in Hd. congruence. }
  split.
  - apply after_DCE_wf; [apply Hr|done].
  - simpl. rewrite lookup_insert_ne by (intros ->; by apply (sl_ne Hsl)).
    rewrite (rr_subgraphs _ _ _ _ _ _ Hr). apply lookup_insert_eq.
  - apply Hc.
  - apply Hc.
  - done.
  - intros a b Hp. destruct (c_tensors _ _ _ _ _ _ _ Hc a b Hp) as [Hb HAB [A HA]].
    destruct (HAB A HA) as (B & HB & Hcopy & _). destruct (final_tensor b B HB) as (B' & HB' & Hcopy').
    exists A, B'. split_and!; [done| |by eapply copy_trans]. apply swept_Some. split; [done|].
    intros [Hin _]. by apply (HtR b).
  - eapply Forall2_impl; [apply views_Forall2; [|apply Hc]|].
    + intros o Ho. destruct (partition_op o Ho); eauto.
    + intros o n (O & HO & [Hn (N & HN & H1 & H2 & H3)]). exists O, N. split_and!; [done| |done..].
      apply swept_Some. split; [by apply final_new|]. intros [Hin _]. by apply (HnR n).
  - intros He. apply Hlive; [apply final_dispatch|done].
  - intros o Ho Hne. destruct (final_partition o Ho Hne) as [X HX]. simpl. rewrite swept_lookup, HX. simpl.
    rewrite decide_True; [done|]. split; [by apply Hsl|done].
  - intros o O Ho HO He. apply Hlive; [by apply final_old|done].
  - intros t T T' HT [HT' _]%swept_Some. destruct (final_tensor t T) as (T'' & HT'' & Hcopy); [|by simplify_eq].
    eapply lookup_weaken; [exact HT|apply Hc].
  - exact Hfrom.
  - intros X [HX _]%swept_Some. rewrite final_dispatch in HX. congruence.
  - intros o O X Ho HO [HX _]%swept_Some. rewrite (final_old o O Ho HO) in HX. congruence.
  - destruct final_fresh as [F1 F2 F3]. split; simpl; [intros a Ha..|done]; rewrite swept_lookup; [by rewrite F1|by rewrite F2].
  - simpl. rewrite (rr_next _ _ _ _ _ _ Hr). simpl. rewrite (dr_next _ _ _ Hdrop). apply Hc.
  - intros k Hk1 Hk2. simpl. rewrite lookup_insert_ne, (rr_subgraphs _ _ _ _ _ _ Hr), lookup_insert_ne by done. done.
  - eexists. split; [by apply after_DCE_owned|]. simpl. split_and!; [|done|done].
    apply filter_in. intros o Ho. symmetry. apply swept_is_Some; [done|by apply Hown].
Qed.
End final.

Lemma wp_for_each_on_ir {A} (l : list A) f (Q : unit → GraphSlicer → Prop) E s :
  wp (for_each l f) (λ a h, Q a {| slicer_ir := h; tensor_map_ := tensor_map_ s |})
    (λ h, E {| slicer_ir := h; tensor_map_ := tensor_map_ s |}) (slicer_ir s) →
  wp (for_each l (λ x, on_ir (f x))) Q E s.
Proof.
  revert s. induction l as [|x l IH]; intros s; [by destruct s|]. intros Hwp. simpl. apply wp_bind, wp_zoom.
  simpl in Hwp. unfold wp, mbind, M_bind in Hwp |- *. destruct (f x (slicer_ir s)) as [[] h|h|]; [|done..].
  apply IH. exact Hwp.
Qed.

Lemma OutlinePartition_spec E :
  wp (OutlinePartition g slice P) (λ d h, last P = Some d ∧ ∃ tm ops, outlined d tm ops h) E h0.
Proof.
  enough (wp (SlicePartitionFromGraph slice g P)
    (λ d s, last P = Some d ∧ ∃ tm ops, outlined d tm ops (slicer_ir s)) (λ _, False)
    {| slicer_ir := h0; tensor_map_ := empty_map |}) as Hwp.
  { revert Hwp. unfold wp, OutlinePartition. by destruct (SlicePartitionFromGraph _ _ _ _). }
  pose proof (sl_root Hsl) as Hroot.
  unfold SlicePartitionFromGraph. apply wp_bind, wp_zoom.
  eapply wp_post; [|by apply used_tensors_spec]. intros u h [-> ->].
  apply wp_bind, wp_zoom. eapply wp_get_subgraph; [apply Hroot|]. apply wp_bind.
  eapply wp_post; [|apply (register_all_spec used_in)].
  2: { split_and!; [apply copies_start|apply empty_wf|done]. }
  2: { intros t Ht. by apply (sl_inputs Hsl). }
  intros [] s1 (tm0 & Hinv1 & Hkeys). apply wp_bind.
  eapply wp_post; [|eapply (clone_all_spec tm0 s1); [exact Hinv1| |]].
  2: { intros a Ha Ha'. rewrite Hkeys in Ha'. apply list_elem_of_filter in Ha' as [Hu Hin].
       by destruct (sl_inputs Hsl a Hin Hu). }
  2: { intros a. rewrite Hkeys. by intros [? _]%list_elem_of_filter. }
  intros [] s2 (tm & ops & (Hc & Hm & Hv) & Hpre & Hfrom). apply wp_bind, wp_zoom.
  eapply wp_post; [|apply drop_all_spec; [apply Hc|apply Hsl|]].
  2: { intros o [O HO]%partition_op. exists O. eapply lookup_weaken; [exact HO|apply Hc]. }
  intros [] h2 Hdrop. destruct (last P) as [d|] eqn:Hd; [|by apply last_None in Hd; destruct (sl_nonempty Hsl)].
  assert (d ∈ P) as HdP by (by apply last_Some_elem_of).
  destruct (partition_op d HdP) as [O HO]. apply wp_bind. eapply wp_deref; [reflexivity|].
  apply wp_bind, wp_zoom. unfold MakeDispatchOp. eapply wp_update_op.
  { simpl. rewrite (dr_ops _ _ _ Hdrop), decide_True by done.
    by rewrite (lookup_weaken _ _ _ _ HO (c_old_ops _ _ _ _ _ _ _ Hc)). }
  unfold RerouteTensorsThroughCustomOp. apply wp_bind, wp_bind, wp_gets. cbn [tensor_map_]. rewrite Hv.
  apply wp_for_each_on_ir. cbn [slicer_ir].
  eapply wp_post; [|exact (reroute_all_spec tm ops (slicer_ir s2) h2 d O _ Hc Hdrop Hfrom HdP HO)].
  intros [] h4 Hr. apply wp_bind, wp_zoom.
  eapply wp_exact; [by apply DCE_exact; eapply final_owned|]. apply wp_ret. split; [done|]. exists tm, ops.
  eapply final_outlined; [exact Hc|exact Hdrop|done|exact Hr|exact Hfrom|]. rewrite <- Hkeys.
  destruct Hpre as [k ->]. rewrite fmap_app. by exists k.*1.
Qed.
End slicer.

(** C10: for an operation list in which no operation uses what it or a later
    one defines, [OutlinePartition] terminates without a failed access and
    returns the last operation of the list. The slice has one copy per
    operation, in the same order, and one per tensor, with the edges of the
    originals; the inputs and outputs of the dispatch operation and of the slice
    correspond, the inputs of the root first and in the root's order; the
    operations of the partition are gone, all others are as before, and the
    graph is well formed. *)
Theorem OutlinePartition_correct h slice g R P : sliceable h slice g R P →
  ∃ d h' tm ops, OutlinePartition g slice P h = Done d h' ∧ last P = Some d ∧ outlined h slice g R P d tm ops h'.
Proof.
  intros Hsl. destruct (wp_no_error _ _ _ (OutlinePartition_spec h slice g R P Hsl _)) as (d & h' & Hrun & Hd & tm & ops & Ho).
  exists d, h', tm, ops. done.
Qed.

(** ** Values *)

Section values.
Context {V : Type} (semantics : LiteRtOpT → list V → list V).

(** [env] gives the outputs of [O] the values that [O] computes from its
    inputs; what an operation computes depends on its code and options only. *)
Definition computes (env : LiteRtTensor → V) (O : LiteRtOpT) : Prop :=
  env <$> Outputs O = semantics (bare O) (env <$> Inputs O).

Context (h0 : ir) (slice g : LiteRtSubgraph) (R : LiteRtSubgraphT) (P : list LiteRtOp).
Context (d : LiteRtOp) (tm : list (nat * nat)) (ops : list nat) (h : ir) (env env' : LiteRtTensor → V).
Hypothesis Hsl : sliceable h0 slice g R P.
Hypothesis Hout : outlined h0 slice g R P d tm ops h.
Hypothesis Hold : ∀ o O, o ∈ P → op_heap h0 !! o = Some O → computes env O.
Hypothesis Hnew : ∀ n N, n ∈ ops → op_heap h !! n = Some N → computes env' N.
Hypothesis Hundefined : ∀ a b, (a, b) ∈ tm → a ∉ defined_in h0 P → env' b = env a.

Lemma agree_lists l k : Forall2 (λ a b, (a, b) ∈ tm) l k → (∀ a b, a ∈ l → (a, b) ∈ tm → env' b = env a) →
  env' <$> k = env <$> l.
Proof.
  induction 1 as [|a b l k Hp _ IH]; intros Hagree; [done|]. simpl. f_equal.
  - apply (Hagree a b); [by left|done].
  - apply IH. intros a' b' Ha'. apply Hagree. by right.
Qed.

Lemma agree_outputs l k a b : Forall2 (λ a b, (a, b) ∈ tm) l k → env' <$> k = env <$> l →
  a ∈ l → (a, b) ∈ tm → env' b = env a.
Proof.
  intros Hlk Heq [i Hi]%list_elem_of_lookup Hp.
  destruct (Forall2_lookup_l _ _ _ _ _ Hlk Hi) as (b' & Hb' & Hp').
  assert (b = b') as -> by (by eapply index_unique; [apply Hout|..]).
  apply (f_equal (λ l, l !! i)) in Heq. rewrite !list_lookup_fmap, Hi, Hb' in Heq. simpl in Heq. congruence.
Qed.

Lemma agree_done done todo : P = done ++ todo →
  ∀ a b, a ∈ definitions (views_of h0 done) → (a, b) ∈ tm → env' b = env a.
Proof.
  revert todo. induction done as [|o done IH] using rev_ind; intros todo HP a b Ha Hp.
  { by apply not_elem_of_nil in Ha. }
  rewrite <- app_assoc in HP. simpl in HP.
  destruct (partition_op h0 slice g R P Hsl o) as [O HO]; [rewrite HP; in_list|].
  rewrite views_of_app, (views_of_one h0 o O HO), definitions_snoc, elem_of_app in Ha.
  destruct Ha as [Ha|Ha]; [by eapply IH|].
  assert (P !! length done = Some o) as Hlo by (rewrite HP; apply lookup_split).
  destruct (Forall2_lookup_l _ _ _ _ _ (ol_ops _ _ _ _ _ _ _ _ _ Hout) Hlo) as (n & Hn & O' & N & HO' & HN & Hcopy & Hi & Ho).
  assert (O' = O) as -> by congruence. eapply agree_outputs; [exact Ho| |exact Ha|exact Hp].
  rewrite (Hnew n N); [|by eapply list_elem_of_lookup_2|done]. rewrite (Hold o O); [|rewrite HP; in_list|done].
  assert (bare N = bare O) as -> by (unfold copy_op_of in Hcopy; by rewrite <- Hcopy).
  f_equal. apply agree_lists; [done|]. intros a' b' Ha' Hp'.
  destruct (decide (a' ∈ defined_in h0 P)) as [Hd|Hd]; [|by apply Hundefined].
  apply (IH (o :: todo)); [done| |done]. unfold defined_in in Hd. rewrite HP, views_of_app in Hd.
  unfold definitions in Hd. rewrite fmap_app, concat_app, elem_of_app in Hd. destruct Hd as [Hd|Hd]; [done|].
  by destruct (sl_order _ _ _ _ _ Hsl done o todo O a' HP HO Ha').
Qed.

Lemma agree_all a b : (a, b) ∈ tm → env' b = env a.
Proof.
  intros Hp. destruct (decide (a ∈ defined_in h0 P)) as [Hd|Hd]; [|by apply Hundefined].
  eapply (agree_done P []); [by rewrite app_nil_r|exact Hd|done].
Qed.
End values.

Lemma fmap_pairs {A B V} (f : A → V) (f' : B → V) (l : list (A * B)) a b :
  f' <$> l.*2 = f <$> l.*1 → (a, b) ∈ l → f' b = f a.
Proof.
  intros Heq [i Hi]%list_elem_of_lookup. apply (f_equal (λ l, l !! i)) in Heq.
  rewrite !list_lookup_fmap, Hi in Heq. simpl in Heq. congruence.
Qed.

(** C11: the dispatch operation that [OutlinePartition] leaves, read as a run of
    the slice, computes what the partition computed: under any interpretation
    of the operations, if the tensors of the root have values that agree with the
    operations of the partition, and the tensors of the slice have values that
    agree with its operations, then equal values of the inputs (and of the
    constants, which are copied) give equal values of the outputs. *)
Theorem OutlinePartition_computes h slice g R P : sliceable h slice g R P →
  ∃ d h' D S (tm : list (LiteRtTensor * LiteRtTensor)), OutlinePartition g slice P h = Done d h' ∧
    outlined h slice g R P d tm (Ops S) h' ∧
    (Inputs D ≠ [] ∨ Outputs D ≠ [] → op_heap h' !! d = Some D) ∧ subgraph_heap h' !! slice = Some S ∧
    ∀ V (semantics : LiteRtOpT → list V → list V) env env',
      (∀ o O, o ∈ P → op_heap h !! o = Some O → computes semantics env O) →
      (∀ n N, n ∈ Ops S → op_heap h' !! n = Some N → computes semantics env' N) →
      (∀ a b, (a, b) ∈ tm → (a ∉ defined_in h P) ∧ ¬ variable h a → env' b = env a) →
      env' <$> SubgraphInputs S = env <$> Inputs D →
      env' <$> SubgraphOutputs S = env <$> Outputs D.
Proof.
  intros Hsl. destruct (wp_no_error _ _ _ (OutlinePartition_spec h slice g R P Hsl _)) as (d & h' & Hrun & _ & tm & ops & Ho).
  exists d, h', (dispatch_of h R P tm), {| Tensors := tm.*2; Ops := ops;
    SubgraphInputs := (filter (λ p, external h P p.1) tm).*2;
    SubgraphOutputs := (filter (λ p, escaping h R P p.1) tm).*2 |}, tm.
  split; [done|]. split; [exact Ho|]. split; [apply Ho|]. split; [apply Ho|]. simpl. intros V semantics env env' Hold Hnew Hconst Hin.
  assert (∀ a b, (a, b) ∈ tm → env' b = env a) as Hagree.
  { eapply agree_all; [exact Hsl|exact Ho|exact Hold|exact Hnew|].
    intros a b Hp Hd. destruct (decide (variable h a)) as [Hv|Hv]; [|by apply Hconst].
    eapply fmap_pairs; [exact Hin|]. apply list_elem_of_filter. by split. }
  rewrite <- !list_fmap_compose. apply list_fmap_ext. intros i [a b] Hi. simpl. apply Hagree.
  apply list_elem_of_lookup_2 in Hi. by apply list_elem_of_filter in Hi as [_ ?].
Qed.
