(* ===== verification/IslandProofs.v ===== *)
(** * Partitioning a subgraph, island by island

    [PartitionSubgraph] groups the selected operations and outlines one island
    after the other. What an island needs survives the outlining of the others,
    so that every island ends in a subgraph of its own. *)

From S2P Require Import Prelude OpCodes LiteRtIr OpShapes PluginPartitions PluginRewrites LiteRtGraphProofs PluginProofs OutlineProofs.

(** ** Execution order *)

(** [o] uses nothing that [o'] defines. *)
Definition independent (h : ir) (o o' : LiteRtOp) : Prop := ∀ O O' t,
  op_heap h !! o = Some O → op_heap h !! o' = Some O' → t ∈ Inputs O → t ∉ Outputs O'.

(** No operation uses what it or a later one defines. *)
Record in_order (h : ir) (l : list LiteRtOp) : Prop := {
  io_self o : o ∈ l → independent h o o;
  io_sorted : StronglySorted (independent h) l
}.

Lemma in_order_sublist h l k : l `sublist_of` k → in_order h k → in_order h l.
Proof.
  intros Hlk [H1 H2]. split.
  - intros o Ho. apply H1. by eapply elem_of_sublist.
  - by eapply StronglySorted_sublist.
Qed.

Lemma definitions_elem h l t : t ∈ definitions (views_of h l) ↔ ∃ o O, o ∈ l ∧ op_heap h !! o = Some O ∧ t ∈ Outputs O.
Proof.
  unfold definitions, views_of. rewrite concat_elem. split.
  - intros (k & (O & -> & (o & Ho & HO)%list_elem_of_omap)%list_elem_of_fmap & Ht). eauto.
  - intros (o & O & Ho & HO & Ht). exists (Outputs O). split; [|done]. apply list_elem_of_fmap. exists O.
    split; [done|]. apply list_elem_of_omap. eauto.
Qed.

Lemma in_order_inputs h l done o todo O t : in_order h l → l = done ++ o :: todo → op_heap h !! o = Some O →
  t ∈ Inputs O → t ∉ definitions (views_of h (o :: todo)).
Proof.
  intros [Hself Hs] -> HO Ht (o' & O' & Ho' & HO' & Ht')%definitions_elem.
  assert (independent h o o') as Hio.
  { apply elem_of_cons in Ho' as [->|Ho']; [apply Hself; in_list|].
    assert (StronglySorted (independent h) (o :: todo)) as Hs'.
    { eapply StronglySorted_sublist; [|exact Hs]. by apply sublist_inserts_l. }
    inversion Hs' as [|? ? _ Hf]; subst. rewrite Forall_forall in Hf. by apply Hf. }
  by apply (Hio O O' t HO HO' Ht).
Qed.

Lemma in_order_same h h' l : (∀ o, o ∈ l → op_heap h' !! o = op_heap h !! o) → in_order h l → in_order h' l.
Proof.
  intros Hsame [H1 H2].
  assert (∀ o o', o ∈ l → o' ∈ l → independent h o o' → independent h' o o') as Hind.
  { intros o o' Ho Ho' Hi O O' t. rewrite !Hsame by done. apply Hi. }
  split; [intros o Ho; apply Hind; auto|]. by apply (StronglySorted_in (independent h)).
Qed.

(** ** Islands *)

Record ready (h : ir) (g : LiteRtSubgraph) (R : LiteRtSubgraphT) (islands : list (list LiteRtOp)) : Prop := {
  rd_wf : wf_ir h;
  rd_fresh : fresh_heap h;
  rd_subgraphs a : (next_address h ≤ a)%nat → subgraph_heap h !! a = None;
  rd_root : owned h g R;
  rd_nonempty P : P ∈ islands → P ≠ [];
  rd_nodup : NoDup (concat islands);
  rd_ops o : o ∈ concat islands → o ∈ Ops R;
  rd_edges o O : o ∈ concat islands → op_heap h !! o = Some O → Inputs O ≠ [] ∨ Outputs O ≠ [];
  rd_order P : P ∈ islands → in_order h P;
  rd_inputs_nodup : NoDup (SubgraphInputs R);
  rd_inputs o O t : o ∈ concat islands → op_heap h !! o = Some O → t ∈ SubgraphInputs R →
    (t ∈ Inputs O → variable h t) ∧ (t ∉ Outputs O);
  rd_ranked o O t T : o ∈ concat islands → op_heap h !! o = Some O → t ∈ Inputs O ∨ t ∈ Outputs O →
    tensor_heap h !! t = Some T → ranked T = true;
  rd_constants o O t : o ∈ concat islands → op_heap h !! o = Some O → t ∈ Inputs O → t ∈ SubgraphOutputs R → variable h t
}.

Definition with_subgraph (h : ir) : ir :=
  {| tensor_heap := tensor_heap h; op_heap := op_heap h;
     subgraph_heap := <[next_address h := empty_subgraph]> (subgraph_heap h);
     model_subgraphs := model_subgraphs h ++ [next_address h];
     next_address := S (next_address h) |}.

Lemma EmplaceSubgraph_exact h : EmplaceSubgraph h = Done (next_address h) (with_subgraph h).
Proof. done. Qed.

Section step.
Context (h : ir) (g : LiteRtSubgraph) (R : LiteRtSubgraphT) (P : list LiteRtOp) (rest : list (list LiteRtOp)).
Hypothesis Hrd : ready h g R (P :: rest).

Lemma first_island o : o ∈ P → o ∈ concat (P :: rest).
Proof. simpl. in_list. Qed.

Lemma other_island o : o ∈ concat rest → o ∈ concat (P :: rest) ∧ o ∉ P.
Proof.
  intros Ho. split; [simpl; in_list|]. intros Hin. pose proof (rd_nodup _ _ _ _ Hrd) as Hnd. simpl in Hnd.
  apply NoDup_app in Hnd as (_ & Hnd & _). by apply (Hnd o).
Qed.

Lemma root_address : (g < next_address h)%nat.
Proof.
  destruct (decide (g < next_address h)%nat) as [|Hge]; [done|]. pose proof (owned_subgraph _ _ _ (rd_root _ _ _ _ Hrd)) as Hg.
  rewrite (rd_subgraphs _ _ _ _ Hrd) in Hg; [done|lia].
Qed.

Lemma ready_sliceable : sliceable (with_subgraph h) (next_address h) g R P.
Proof.
  destruct (rd_fresh _ _ _ _ Hrd) as [F1 F2 F3]. pose proof root_address as Hlt. split.
  - eapply wf_ir_ext; [| |apply Hrd]; done.
  - split; simpl; [intros a Ha; apply F1; lia|intros a Ha; apply F2; lia|lia].
  - destruct (rd_root _ _ _ _ Hrd) as [O1 O2 O3 O4 O5]. split; try done. simpl. by rewrite lookup_insert_ne by lia.
  - apply lookup_insert_eq.
  - lia.
  - pose proof (rd_nodup _ _ _ _ Hrd) as Hnd. simpl in Hnd. by apply NoDup_app in Hnd as (Hnd & _).
  - apply (rd_nonempty _ _ _ _ Hrd). by left.
  - intros o Ho. by apply (rd_ops _ _ _ _ Hrd), first_island.
  - intros done o todo O t HP HO Ht. eapply in_order_inputs; [|exact HP|exact HO|exact Ht].
    apply (in_order_same h); [done|]. apply (rd_order _ _ _ _ Hrd). by left.
  - apply Hrd.
  - intros t Ht Hu. apply concat_elem in Hu as (l & (O & -> & (o & Ho & HO)%list_elem_of_omap)%list_elem_of_fmap & Hin).
    split.
    + intros (o' & O' & Ho' & HO' & Ht')%definitions_elem.
      by destruct (rd_inputs _ _ _ _ Hrd o' O' t (first_island o' Ho') HO' Ht).
    + by destruct (rd_inputs _ _ _ _ Hrd o O t (first_island o Ho) HO Ht) as [Hv _]; apply Hv.
  - intros t T Hut HT. destruct Hut as [Hu|(o & O & Ho & HO & Ht)%definitions_elem].
    + apply concat_elem in Hu as (l & (O & -> & (o & Ho & HO)%list_elem_of_omap)%list_elem_of_fmap & Hin).
      apply (rd_ranked _ _ _ _ Hrd o O t T (first_island o Ho) HO); auto.
    + apply (rd_ranked _ _ _ _ Hrd o O t T (first_island o Ho) HO); auto.
  - intros t Hu _ Hout. apply concat_elem in Hu as (l & (O & -> & (o & Ho & HO)%list_elem_of_omap)%list_elem_of_fmap & Hin).
    by apply (rd_constants _ _ _ _ Hrd o O t (first_island o Ho) HO).
Qed.

Context (d : LiteRtOp) (tm : list (nat * nat)) (ops : list nat) (h' : ir).
Hypothesis Hout : outlined (with_subgraph h) (next_address h) g R P d tm ops h'.

Lemma kept_op o : o ∈ concat rest → op_heap h' !! o = op_heap h !! o.
Proof.
  intros [Ho HnP]%other_island. destruct (owned_ops _ _ _ (rd_root _ _ _ _ Hrd) o (rd_ops _ _ _ _ Hrd o Ho)) as [O HO].
  rewrite HO. apply (ol_kept _ _ _ _ _ _ _ _ _ Hout); [done|done|]. by apply (rd_edges _ _ _ _ Hrd o).
Qed.

Lemma kept_variable o O t : o ∈ concat rest → op_heap h !! o = Some O → t ∈ Inputs O ∨ t ∈ Outputs O →
  ∃ T T', tensor_heap h !! t = Some T ∧ tensor_heap h' !! t = Some T' ∧ copy_tensor_of T T'.
Proof.
  intros Ho HO Ht. destruct (wf_edges _ (rd_wf _ _ _ _ Hrd) o O t HO Ht) as [T HT].
  destruct (wf_edges _ (ol_wf _ _ _ _ _ _ _ _ _ Hout) o O t) as [T' HT']; [by rewrite kept_op|done|].
  exists T, T'. split_and!; [done..|]. by apply (ol_data _ _ _ _ _ _ _ _ _ Hout t).
Qed.

Lemma variable_kept o O t : o ∈ concat rest → op_heap h !! o = Some O → t ∈ Inputs O ∨ t ∈ Outputs O →
  variable h t → variable h' t.
Proof.
  intros Ho HO Ht. destruct (kept_variable o O t Ho HO Ht) as (T & T' & HT & HT' & Hc).
  unfold variable. rewrite HT, HT'. by destruct (copy_constant _ _ Hc) as [_ ->].
Qed.

Lemma outlined_ready : ∃ R', ready h' g R' rest ∧ Ops R' = filter (λ o, is_Some (op_heap h' !! o)) (Ops R).
Proof.
  destruct (ol_root _ _ _ _ _ _ _ _ _ Hout) as (R' & Hown & HR' & HI & HO'). exists R'. split; [|done]. split.
  - apply Hout.
  - apply Hout.
  - intros a Ha. pose proof (ol_next _ _ _ _ _ _ _ _ _ Hout) as Hn. simpl in Hn. pose proof root_address.
    rewrite (ol_subgraphs _ _ _ _ _ _ _ _ _ Hout) by lia. simpl. rewrite lookup_insert_ne by lia.
    apply (rd_subgraphs _ _ _ _ Hrd). lia.
  - done.
  - intros Q HQ. apply (rd_nonempty _ _ _ _ Hrd). by right.
  - pose proof (rd_nodup _ _ _ _ Hrd) as Hnd. simpl in Hnd. by apply NoDup_app in Hnd as (_ & _ & Hnd).
  - intros o Ho. destruct (other_island o Ho) as [Ho' _]. rewrite HR', list_elem_of_filter. rewrite kept_op by done.
    pose proof (rd_ops _ _ _ _ Hrd o Ho') as HoR. split; [|done]. by apply (owned_ops _ _ _ (rd_root _ _ _ _ Hrd)).
  - intros o O Ho. rewrite kept_op by done. apply (rd_edges _ _ _ _ Hrd). by apply other_island.
  - intros Q HQ. apply (in_order_same h); [|apply (rd_order _ _ _ _ Hrd); by right].
    intros o Ho. apply kept_op, concat_elem. eauto.
  - rewrite HI. apply Hrd.
  - intros o O t Ho HO Ht. rewrite kept_op in HO by done. rewrite HI in Ht. destruct (other_island o Ho) as [Ho' _].
    destruct (rd_inputs _ _ _ _ Hrd o O t Ho' HO Ht) as [Hv Hn]. split; [|done].
    intros Hin. apply (variable_kept o O t Ho HO); auto.
  - intros o O t T Ho HO Ht HT. rewrite kept_op in HO by done. destruct (other_island o Ho) as [Ho' _].
    destruct (kept_variable o O t Ho HO Ht) as (T0 & T' & HT0 & HT' & Hc). simplify_eq.
    destruct (copy_constant _ _ Hc) as [-> _]. by apply (rd_ranked _ _ _ _ Hrd o O t T0).
  - intros o O t Ho HO Ht Hgo. rewrite kept_op in HO by done. rewrite HO' in Hgo. destruct (other_island o Ho) as [Ho' _].
    apply (variable_kept o O t Ho HO); [auto|]. by apply (rd_constants _ _ _ _ Hrd o O t).
Qed.

(** An island that is a segment of the execution order leaves it an execution
    order. *)
Section order.
Context (A B : list LiteRtOp).
Hypothesis HR : Ops R = A ++ P ++ B.
Hypothesis Hord : in_order h (Ops R).

Lemma before_island o : o ∈ A → o ∉ P.
Proof.
  intros Ho Hp. pose proof (owned_ops_nodup _ _ _ (rd_root _ _ _ _ Hrd)) as Hnd. rewrite HR in Hnd.
  apply NoDup_app in Hnd as (_ & Hnd & _). apply (Hnd o Ho). in_list.
Qed.

Lemma after_island o : o ∈ B → o ∉ P.
Proof.
  intros Ho Hp. pose proof (owned_ops_nodup _ _ _ (rd_root _ _ _ _ Hrd)) as Hnd. rewrite HR in Hnd.
  apply NoDup_app in Hnd as (_ & _ & Hnd). apply NoDup_app in Hnd as (_ & Hnd & _). by apply (Hnd o).
Qed.

(** Operations outside the island are what they were, and the dispatch op is
    what is left of the island. *)
Lemma outside_same o O : o ∈ Ops R → o ∉ P → op_heap h' !! o = Some O → op_heap h !! o = Some O.
Proof.
  intros Ho HoP HO. destruct (owned_ops _ _ _ (rd_root _ _ _ _ Hrd) o Ho) as [O0 HO0].
  rewrite (ol_old _ _ _ _ _ _ _ _ _ Hout o O0 O HoP HO0 HO). done.
Qed.

Lemma island_dispatch o X : o ∈ P → op_heap h' !! o = Some X →
  o = d ∧ X = dispatch_of (with_subgraph h) R P tm.
Proof.
  intros Ho HX. destruct (decide (o = d)) as [->|Hne].
  - split; [done|]. by apply (ol_only _ _ _ _ _ _ _ _ _ Hout).
  - by rewrite (ol_gone _ _ _ _ _ _ _ _ _ Hout o Ho Hne) in HX.
Qed.

Lemma outside_independent o o' : o ∈ Ops R → o' ∈ Ops R → o ∉ P → o' ∉ P →
  independent h o o' → independent h' o o'.
Proof. intros Ho Ho' HoP HoP' Hi O O' t HO HO'. apply Hi; by apply outside_same. Qed.

Lemma before_independent o o' : (∀ q, q ∈ P → independent h o q) → o ∈ A → o' ∈ P → independent h' o o'.
Proof.
  intros Hi Ho Ho' O O' t HO HO' Ht Ht'. destruct (island_dispatch o' O' Ho' HO') as [-> ->]. simpl in Ht'.
  apply list_elem_of_fmap in Ht' as (p & -> & [[Hd _] _]%list_elem_of_filter).
  apply definitions_elem in Hd as (q & Q & Hq & HQ & Htq).
  apply (Hi q Hq O Q p.1); [|done..]. apply outside_same; [rewrite HR; in_list|by apply before_island|done].
Qed.

Lemma island_independent o o' : o ∈ P → o' ∈ P → independent h' o o'.
Proof.
  intros Ho Ho' O O' t HO HO' Ht Ht'.
  destruct (island_dispatch o O Ho HO) as [-> ->], (island_dispatch o' O' Ho' HO') as [-> ->]. simpl in Ht, Ht'.
  apply list_elem_of_fmap in Ht as (p & -> & [[Hn _] _]%list_elem_of_filter).
  apply list_elem_of_fmap in Ht' as (q & Heq & [[Hd _] _]%list_elem_of_filter). by rewrite <- Heq in Hd.
Qed.

Lemma after_independent o o' : (∀ q, q ∈ P → independent h q o') → o ∈ P → o' ∈ B → independent h' o o'.
Proof.
  intros Hi Ho Ho' O O' t HO HO' Ht Ht'. destruct (island_dispatch o O Ho HO) as [-> ->]. simpl in Ht.
  apply list_elem_of_fmap in Ht as (p & -> & [[Hn _] Hp]%list_elem_of_filter).
  destruct (ol_from _ _ _ _ _ _ _ _ _ Hout p.1) as [Hu|Hd]; [apply list_elem_of_fmap; eauto| |done].
  apply concat_elem in Hu as (l & (Q & -> & (q & Hq & HQ)%list_elem_of_omap)%list_elem_of_fmap & Hin).
  apply (Hi q Hq Q O' p.1 HQ); [|done..]. apply outside_same; [rewrite HR; in_list|by apply after_island|done].
Qed.

Lemma part_in_order l : l `sublist_of` Ops R → (∀ o, o ∈ l → o ∉ P) → StronglySorted (independent h) l →
  StronglySorted (independent h') (filter (λ o, is_Some (op_heap h' !! o)) l).
Proof.
  intros Hl HlP Hsl. apply StronglySorted_filter, (StronglySorted_in (independent h)); [|done].
  intros o o' Ho Ho'. apply outside_independent; [by eapply elem_of_sublist|by eapply elem_of_sublist|by apply HlP|by apply HlP].
Qed.

Lemma outlined_in_order R' : Ops R' = filter (λ o, is_Some (op_heap h' !! o)) (Ops R) → in_order h' (Ops R').
Proof.
  intros HR'. set (alive := λ o, is_Some (op_heap h' !! o)) in *. pose proof Hord as [Hself Hs]. rewrite HR in Hself, Hs.
  apply StronglySorted_app in Hs as (HAx & HsA & Hs). apply StronglySorted_app in Hs as (HPB & HsP & HsB).
  pose proof before_island as HA. pose proof after_island as HB.
  rewrite HR', HR, !filter_app. split.
  - intros o. rewrite !elem_of_app, !list_elem_of_filter. intros [[_ Ho]|[[_ Ho]|[_ Ho]]].
    + apply outside_independent; [rewrite HR; in_list..|by apply HA|by apply HA|apply Hself; in_list].
    + by apply island_independent.
    + apply outside_independent; [rewrite HR; in_list..|by apply HB|by apply HB|apply Hself; in_list].
  - apply StronglySorted_app. split_and!.
    + intros o o'. rewrite elem_of_app, !list_elem_of_filter. intros [_ Ho] [[_ Ho']|[_ Ho']].
      * apply before_independent; [|done..]. intros q Hq. apply HAx; [done|in_list].
      * apply outside_independent; [rewrite HR; in_list..|by apply HA|by apply HB|apply HAx; [done|in_list]].
    + apply part_in_order; [rewrite HR; by apply sublist_inserts_r|done|done].
    + apply StronglySorted_app. split_and!.
      * intros o o'. rewrite !list_elem_of_filter. intros [_ Ho] [_ Ho']. apply after_independent; [|done..].
        intros q Hq. by apply HPB.
      * apply StronglySorted_filter, StronglySorted_all, island_independent.
      * apply part_in_order; [rewrite HR, app_assoc; by apply sublist_inserts_l|done|done].
Qed.
End order.

(** The segments that are left stay segments. *)
Lemma segment_kept A B R' Q : Q ∈ rest → Ops R = A ++ Q ++ B →
  Ops R' = filter (λ o, is_Some (op_heap h' !! o)) (Ops R) → ∃ A' B', Ops R' = A' ++ Q ++ B'.
Proof.
  intros HQ HR HR'. rewrite HR', HR, !filter_app. rewrite (filter_all _ Q); [eauto|].
  intros o Ho. assert (o ∈ concat rest) as Hin by (apply concat_elem; eauto).
  rewrite kept_op by done. apply (owned_ops _ _ _ (rd_root _ _ _ _ Hrd)), (rd_ops _ _ _ _ Hrd), other_island, Hin.
Qed.
End step.

(** One island after the other: the heap, the root, and the dispatch operations. *)
Inductive outlined_islands (g : LiteRtSubgraph) :
    ir → LiteRtSubgraphT → list (list LiteRtOp) → list LiteRtOp → ir → LiteRtSubgraphT → Prop :=
| outlined_none h R : outlined_islands g h R [] [] h R
| outlined_one h R P rest d ds tm ops h' R' h'' R'' :
    outlined (with_subgraph h) (next_address h) g R P d tm ops h' → last P = Some d →
    Ops R' = filter (λ o, is_Some (op_heap h' !! o)) (Ops R) →
    outlined_islands g h' R' rest ds h'' R'' →
    outlined_islands g h R (P :: rest) (d :: ds) h'' R''.

(** The islands are segments of an execution order. *)
Definition segments (h : ir) (R : LiteRtSubgraphT) (islands : list (list LiteRtOp)) : Prop :=
  in_order h (Ops R) ∧ ∀ P, P ∈ islands → ∃ A B, Ops R = A ++ P ++ B.

Lemma outline_islands_spec g islands res h R E : ready h g R islands →
  wp (fold_m islands res (outline_island g)) (λ l h'', ∃ ds R'', l = res ++ ds ∧
    outlined_islands g h R islands ds h'' R'' ∧ ready h'' g R'' [] ∧ (segments h R islands → in_order h'' (Ops R''))) E h.
Proof.
  revert res h R. induction islands as [|P rest IH]; intros res h R Hrd; simpl.
  - apply wp_ret. exists [], R. split_and!; [by rewrite app_nil_r|constructor|done|by intros [? _]].
  - apply wp_bind. unfold outline_island at 1. apply wp_bind. eapply wp_exact; [apply EmplaceSubgraph_exact|].
    apply wp_bind. eapply wp_post; [|apply (OutlinePartition_spec _ _ _ R P (ready_sliceable h g R P rest Hrd))].
    intros d h' (Hd & tm & ops & Hout). apply wp_ret.
    destruct (outlined_ready h g R P rest Hrd d tm ops h' Hout) as (R' & Hrd' & HR').
    eapply wp_post; [|by apply (IH _ h' R')]. intros l h'' (ds & R'' & -> & Hds & Hrd'' & Hseg).
    exists (d :: ds), R''. split_and!; [by rewrite <- app_assoc|by econstructor|done|]. intros [Hord Hall]. apply Hseg.
    split.
    + destruct (Hall P) as (A & B & HR); [by left|]. by eapply outlined_in_order.
    + intros Q HQ. destruct (Hall Q) as (A & B & HR); [by right|]. by eapply segment_kept.
Qed.

(** ** Selections *)

(** The operations a plugin selected in a subgraph whose operations are in
    execution order. *)
Record selection (h : ir) (g : LiteRtSubgraph) (R : LiteRtSubgraphT) (selected : list (LiteRtOp * Z)) : Prop := {
  se_wf : wf_ir h;
  se_fresh : fresh_heap h;
  se_subgraphs a : (next_address h ≤ a)%nat → subgraph_heap h !! a = None;
  se_root : owned h g R;
  se_order : in_order h (Ops R);
  se_nodup : NoDup selected.*1;
  se_ops o : o ∈ selected.*1 → o ∈ Ops R;
  se_edges o O : o ∈ selected.*1 → op_heap h !! o = Some O → Inputs O ≠ [] ∨ Outputs O ≠ [];
  se_inputs_nodup : NoDup (SubgraphInputs R);
  se_inputs o O t : o ∈ selected.*1 → op_heap h !! o = Some O → t ∈ SubgraphInputs R →
    (t ∈ Inputs O → variable h t) ∧ (t ∉ Outputs O);
  se_ranked o O t T : o ∈ selected.*1 → op_heap h !! o = Some O → t ∈ Inputs O ∨ t ∈ Outputs O →
    tensor_heap h !! t = Some T → ranked T = true;
  se_constants o O t : o ∈ selected.*1 → op_heap h !! o = Some O → t ∈ Inputs O → t ∈ SubgraphOutputs R → variable h t
}.

Lemma selection_ready h g R selected islands : selection h g R selected →
  concat islands ≡ₚ selected.*1 → (∀ P, P ∈ islands → P ≠ [] ∧ P `sublist_of` Ops R) → ready h g R islands.
Proof.
  intros Hs Hperm HP. assert (∀ o, o ∈ concat islands → o ∈ selected.*1) as Hin by (intros o; by rewrite Hperm).
  split; try apply Hs.
  - intros P HPi. by apply HP.
  - rewrite Hperm. apply Hs.
  - intros o Ho%Hin. by apply Hs.
  - intros o O Ho%Hin. by apply Hs.
  - intros P HPi. eapply in_order_sublist; [by apply HP|apply Hs].
  - intros o O t Ho%Hin. by apply Hs.
  - intros o O t T Ho%Hin. by apply Hs.
  - intros o O t Ho%Hin. by apply Hs.
Qed.

Lemma sublist_concat {A} (ls : list (list A)) l : l ∈ ls → l `sublist_of` concat ls.
Proof.
  induction ls as [|k ls IH]; [by intros ?%not_elem_of_nil|]. intros [->|Hl]%elem_of_cons; simpl.
  - by apply sublist_inserts_r.
  - by apply sublist_inserts_l, IH.
Qed.

Lemma selected_perm h g R selected : selection h g R selected →
  filter (λ o, o ∈ selected.*1) (Ops R) ≡ₚ selected.*1.
Proof.
  intros Hs. apply NoDup_Permutation.
  - apply NoDup_filter, (owned_ops_nodup _ _ _ (se_root _ _ _ _ Hs)).
  - apply Hs.
  - intros o. rewrite list_elem_of_filter. split; [tauto|]. intros Ho. split; [done|]. by apply Hs.
Qed.

Lemma default_islands h g R selected : selection h g R selected → (∀ p, p ∈ selected → 0 ≤ p.2 < size_max) →
  ready h g R (GetPartitionsFromFlatListV2 selected R).
Proof.
  intros Hs Hr. destruct (runs_selected selected R Hr) as (runs & _ & _ & Hall & Hne).
  apply (selection_ready h g R selected); [done|rewrite Hall; by eapply selected_perm|].
  intros P HP. split; [by apply Hne|]. etrans; [by apply sublist_concat|]. rewrite Hall. apply sublist_filter.
Qed.

Lemma connected_islands `{HashOrder} h g R selected : selection h g R selected → selected.*1 `sublist_of` Ops R →
  ∃ islands, GetPartitionsFromFlatList h selected h = Done islands h ∧ grouped h selected islands ∧ ready h g R islands.
Proof.
  intros Hs Hsub. destruct (flat_list_grouped h selected h) as (islands & Hrun & Hg).
  - apply Hs.
  - intros o Ho. destruct (owned_ops _ _ _ (se_root _ _ _ _ Hs) o) as [O HO]; [by apply Hs|]. split; [eauto|].
    intros O' t HO' Ht. apply (wf_edges _ (se_wf _ _ _ _ Hs) o O' t); auto.
  - exists islands. split_and!; [done..|]. apply (selection_ready h g R selected); [done|apply Hg|].
    intros P HP. destruct (gr_bucket _ _ _ Hg P HP) as [? ?]. split; [done|]. by etrans.
Qed.

Lemma concat_segment {A} (ls : list (list A)) l : l ∈ ls → ∃ k k', concat ls = k ++ l ++ k'.
Proof.
  intros (l1 & l2 & ->)%list_elem_of_split. exists (concat l1), (concat l2). by rewrite concat_app.
Qed.

Lemma sorted_ops_fst selected G : (sorted_ops selected G).*1 = Ops G.
Proof. unfold sorted_ops. rewrite <- list_fmap_compose. apply list_fmap_id. Qed.

Lemma tagged_fst runs : (concat (tagged <$> runs)).*1 = concat runs.*2.
Proof.
  induction runs as [|[i o] runs IH]; [done|]. rewrite !fmap_cons. cbn [concat snd]. rewrite fmap_app, IH. f_equal.
  unfold tagged. simpl. rewrite <- list_fmap_compose. apply list_fmap_id.
Qed.

Lemma default_segments h g R selected : selection h g R selected → (∀ p, p ∈ selected → 0 ≤ p.2 < size_max) →
  segments h R (GetPartitionsFromFlatListV2 selected R).
Proof.
  intros Hs Hr. split; [apply Hs|]. destruct (runs_selected selected R Hr) as (runs & Hruns & -> & _ & _).
  intros P ([i o] & -> & [_ Hin]%list_elem_of_filter)%list_elem_of_fmap.
  destruct (concat_segment runs.*2 o) as (A & B & HAB); [apply list_elem_of_fmap; by exists (i, o)|].
  exists A, B. pose proof (tagged_fst runs) as Ht. rewrite (ru_all _ _ Hruns), sorted_ops_fst in Ht. by rewrite Ht.
Qed.

(** What the strategies ask of the selection. *)
Definition suits (selected : list (LiteRtOp * Z)) (R : LiteRtSubgraphT) (strategy : PartitionStrategy) : Prop :=
  match strategy with
  | kLiteRtCompilerOptionsPartitionStrategyDefault => ∀ p, p ∈ selected → 0 ≤ p.2 < size_max
  | kLiteRtCompilerOptionsPartitionStrategyWeaklyConnected => selected.*1 `sublist_of` Ops R
  end.

(** C12: [PartitionSubgraph], with either strategy and any iteration order of
    the hash maps, terminates without a failed access on a well-formed model
    whose subgraph lists its operations in execution order. It groups the
    selected operations into islands that partition them, outlines each of them
    into a subgraph of its own, one after the other, appends the dispatch
    operations in that order and leaves the model well formed. With the default
    strategy the subgraph is still in execution order. *)
Theorem PartitionSubgraph_correct `{HashOrder} h g R selected strategy res :
  selection h g R selected → suits selected R strategy →
  ∃ islands ds h' R', PartitionSubgraph selected g res strategy h = Done (res ++ ds) h' ∧
    concat islands ≡ₚ selected.*1 ∧ outlined_islands g h R islands ds h' R' ∧
    wf_ir h' ∧ owned h' g R' ∧
    (strategy = kLiteRtCompilerOptionsPartitionStrategyDefault → in_order h' (Ops R')).
Proof.
  intros Hs Hsuit.
  assert (∃ islands, ready h g R islands ∧ concat islands ≡ₚ selected.*1 ∧
    (strategy = kLiteRtCompilerOptionsPartitionStrategyDefault → segments h R islands) ∧
    match strategy with
    | kLiteRtCompilerOptionsPartitionStrategyDefault => mret (GetPartitionsFromFlatListV2 selected R)
    | kLiteRtCompilerOptionsPartitionStrategyWeaklyConnected => GetPartitionsFromFlatList h selected
    end h = Done islands h) as (islands & Hrd & Hperm & Hseg & Hrun).
  { destruct strategy; simpl in Hsuit.
    - exists (GetPartitionsFromFlatListV2 selected R). split_and!; [by apply default_islands| | |done].
      + destruct (runs_selected selected R Hsuit) as (runs & _ & _ & -> & _). by eapply selected_perm.
      + intros _. by eapply default_segments.
    - destruct (connected_islands h g R selected Hs Hsuit) as (islands & Hrun & Hg & Hrd).
      exists islands. split_and!; [done|apply Hg|done|done]. }
  exists islands.
  enough (wp (PartitionSubgraph selected g res strategy) (λ l h', ∃ ds R', l = res ++ ds ∧
    outlined_islands g h R islands ds h' R' ∧ ready h' g R' [] ∧ (segments h R islands → in_order h' (Ops R')))
    (λ _, False) h) as Hwp.
  { apply wp_no_error in Hwp as (l & h' & Hdone & ds & R' & -> & Hds & Hrd' & Hord).
    exists ds, h', R'. split_and!; [done|done|done|apply Hrd'|apply Hrd'|auto]. }
  unfold PartitionSubgraph. wp_steps. eapply wp_get_subgraph; [apply Hs|]. apply wp_bind. eapply wp_exact; [exact Hrun|].
  case_decide as Hnil; [|by apply outline_islands_spec]. apply wp_ret. subst islands.
  exists [], R. split_and!; [by rewrite app_nil_r|constructor|done|by intros [? _]].
Qed.

(** ** Concrete models *)

(** A chain of four operations 1 to 4 over the tensors 11 to 15. *)
Definition line_ir : ir := {|
  tensor_heap := list_to_map
    [(11, test_tensor [(1, 0%Z)] nullptr); (12, test_tensor [(2, 0%Z)] 1); (13, test_tensor [(3, 0%Z)] 2);
     (14, test_tensor [(4, 0%Z)] 3); (15, test_tensor [] 4)]%nat;
  op_heap := list_to_map
    [(1, test_op [11] [12]); (2, test_op [12] [13]); (3, test_op [13] [14]); (4, test_op [14] [15])]%nat;
  subgraph_heap := {[ 5%nat := {| Tensors := [11; 12; 13; 14; 15]; Ops := [1; 2; 3; 4];
    SubgraphInputs := [11]; SubgraphOutputs := [15] |}%nat ]};
  model_subgraphs := [5%nat];
  next_address := 20 |}.

Definition line_graph : LiteRtSubgraphT := {| Tensors := [11; 12; 13; 14; 15]; Ops := [1; 2; 3; 4];
  SubgraphInputs := [11]; SubgraphOutputs := [15] |}%nat.

Definition line_selected : list (LiteRtOp * Z) := [(2%nat, 0); (3%nat, 0)].

Definition addresses_below (n : nat) {A} (m : gmap nat A) : Prop := Forall (λ p, (p.1 < n)%nat) (map_to_list m).

#[export] Instance addresses_below_dec n {A} (m : gmap nat A) : Decision (addresses_below n m).
Proof. unfold addresses_below. apply _. Defined.

Lemma addresses_below_None n {A} (m : gmap nat A) a : addresses_below n m → (n ≤ a)%nat → m !! a = None.
Proof.
  intros Hm Ha. apply eq_None_not_Some. intros [x Hx]. unfold addresses_below in Hm. rewrite Forall_forall in Hm.
  specialize (Hm (a, x)). simpl in Hm. rewrite elem_of_map_to_list in Hm. specialize (Hm Hx). lia.
Qed.

Ltac op_cases Ho HO :=
  repeat (apply elem_of_cons in Ho as [->|Ho]; [vm_compute in HO; injection HO as <-; simpl|]);
  try (by apply not_elem_of_nil in Ho).

Lemma line_selection : selection line_ir 5%nat line_graph line_selected.
Proof.
  split.
  - apply ir_checked_wf, (bool_decide_unpack _). by vm_compute.
  - split; [intros a; apply addresses_below_None, (bool_decide_unpack _); by vm_compute..|unfold nullptr; simpl; lia].
  - intros a. apply addresses_below_None, (bool_decide_unpack _). by vm_compute.
  - split; [done|apply (bool_decide_unpack _); by vm_compute..| |];
      apply Forall_forall, (bool_decide_unpack _); by vm_compute.
  - assert (∀ o o', (o ≤ o')%nat → o ∈ [1; 2; 3; 4]%nat → o' ∈ [1; 2; 3; 4]%nat → independent line_ir o o') as Hind.
    { intros o o' Hle Ho Ho' O O' t HO HO'. op_cases Ho HO; op_cases Ho' HO'; try lia;
        intros ->%list_elem_of_singleton; apply (bool_decide_unpack _); by vm_compute. }
    split; [intros o Ho; by apply Hind|]. repeat constructor; apply Hind; first [lia|apply (bool_decide_unpack _); by vm_compute].
  - apply (bool_decide_unpack _). by vm_compute.
  - apply Forall_forall, (bool_decide_unpack _). by vm_compute.
  - intros o O Ho HO. op_cases Ho HO; by left.
  - apply (bool_decide_unpack _). by vm_compute.
  - intros o O t Ho HO ->%list_elem_of_singleton. op_cases Ho HO; (split; [done|apply (bool_decide_unpack _); by vm_compute]).
  - intros o O t T Ho HO Ht HT. op_cases Ho HO; destruct Ht as [->%list_elem_of_singleton| ->%list_elem_of_singleton];
      vm_compute in HT; by injection HT as <-.
  - intros o O t Ho HO Ht ->%list_elem_of_singleton. exfalso. revert Ht. op_cases Ho HO; apply (bool_decide_unpack _); by vm_compute.
Qed.

Lemma PartitionSubgraph_correct_witness :
  ∃ islands ds h' R', PartitionSubgraph line_selected 5 [] kLiteRtCompilerOptionsPartitionStrategyDefault line_ir =
      Done ([] ++ ds) h' ∧
    concat islands ≡ₚ line_selected.*1 ∧ outlined_islands 5 line_ir line_graph islands ds h' R' ∧
    wf_ir h' ∧ owned h' 5 R' ∧
    (kLiteRtCompilerOptionsPartitionStrategyDefault = kLiteRtCompilerOptionsPartitionStrategyDefault → in_order h' (Ops R')).
Proof.
  apply (PartitionSubgraph_correct line_ir 5 line_graph line_selected kLiteRtCompilerOptionsPartitionStrategyDefault []).
  - exact line_selection.
  - simpl. apply Forall_forall, (bool_decide_unpack _). by vm_compute.
Defined.

Lemma line_sliceable : sliceable (with_subgraph line_ir) 20 5 line_graph [2; 3]%nat.
Proof.
  apply (ready_sliceable line_ir 5 line_graph [2; 3]%nat []).
  apply (default_islands line_ir 5 line_graph line_selected line_selection).
  apply Forall_forall, (bool_decide_unpack _). by vm_compute.
Qed.

Lemma OutlinePartition_correct_witness :
  ∃ d h' tm ops, OutlinePartition 5 20 [2; 3]%nat (with_subgraph line_ir) = Done d h' ∧ last [2; 3]%nat = Some d ∧
    outlined (with_subgraph line_ir) 20 5 line_graph [2; 3]%nat d tm ops h'.
Proof. apply (OutlinePartition_correct (with_subgraph line_ir) 20 5 line_graph [2; 3]%nat). exact line_sliceable. Defined.

Lemma OutlinePartition_computes_witness :
  ∃ d h' D S (tm : list (LiteRtTensor * LiteRtTensor)),
    OutlinePartition 5 20 [2; 3]%nat (with_subgraph line_ir) = Done d h' ∧
    outlined (with_subgraph line_ir) 20 5 line_graph [2; 3]%nat d tm (Ops S) h' ∧
    (Inputs D ≠ [] ∨ Outputs D ≠ [] → op_heap h' !! d = Some D) ∧ subgraph_heap h' !! 20%nat = Some S ∧
    ∀ V (semantics : LiteRtOpT → list V → list V) env env',
      (∀ o O, o ∈ [2; 3]%nat → op_heap (with_subgraph line_ir) !! o = Some O → computes semantics env O) →
      (∀ n N, n ∈ Ops S → op_heap h' !! n = Some N → computes semantics env' N) →
      (∀ a b, (a, b) ∈ tm → (a ∉ defined_in (with_subgraph line_ir) [2; 3]%nat) ∧ ¬ variable (with_subgraph line_ir) a →
        env' b = env a) →
      env' <$> SubgraphInputs S = env <$> Inputs D →
      env' <$> SubgraphOutputs S = env <$> Outputs D.
Proof. apply (OutlinePartition_computes (with_subgraph line_ir) 20 5 line_graph [2; 3]%nat). exact line_sliceable. Defined.

(** The edges of the operations of a subgraph, in order. *)
Definition edges_of (h : ir) (g : LiteRtSubgraph) : list (LiteRtOp * option (list LiteRtTensor * list LiteRtTensor)) :=
  match subgraph_heap h !! g with
  | Some G => (λ o, (o, (λ O, (Inputs O, Outputs O)) <$> op_heap h !! o)) <$> Ops G
  | None => []
  end.

Definition interface_of (h : ir) (g : LiteRtSubgraph) : option (list LiteRtTensor * list LiteRtTensor) :=
  (λ G, (SubgraphInputs G, SubgraphOutputs G)) <$> subgraph_heap h !! g.

Example line_partitioned :
  let h' := final (PartitionSubgraph line_selected 5 [] kLiteRtCompilerOptionsPartitionStrategyDefault line_ir) in
  edges_of h' 5 = [(1, Some ([11], [12])); (3, Some ([12], [14])); (4, Some ([14], [15]))]%nat ∧
  edges_of h' 20 = [(21, Some ([22], [23])); (24, Some ([23], [25]))]%nat ∧
  interface_of h' 20 = Some ([22], [25])%nat.
Proof. vm_compute. done. Qed.

(** With the connected strategy, operation 2 reads what operation 1 defines and
    stays before the position of operation 3, where the dispatch operation goes:
    the subgraph is no longer in execution order, although the storage of the
    last operation is reused "to maintain topological order". *)
Definition fork_ir : ir := {|
  tensor_heap := list_to_map
    [(11, test_tensor [(1, 0%Z)] nullptr); (12, test_tensor [(2, 0%Z); (3, 0%Z)] 1); (13, test_tensor [] 2);
     (14, test_tensor [] 3)]%nat;
  op_heap := list_to_map [(1, test_op [11] [12]); (2, test_op [12] [13]); (3, test_op [12] [14])]%nat;
  subgraph_heap := {[ 5%nat := {| Tensors := [11; 12; 13; 14]; Ops := [1; 2; 3];
    SubgraphInputs := [11]; SubgraphOutputs := [13; 14] |}%nat ]};
  model_subgraphs := [5%nat];
  next_address := 20 |}.

Example connected_out_of_order :
  let h' := final (PartitionSubgraph [(1%nat, 0); (3%nat, 0)] 5 []
    kLiteRtCompilerOptionsPartitionStrategyWeaklyConnected fork_ir) in
  bool_decide (ir_checked fork_ir) = true ∧
  edges_of h' 5 = [(2, Some ([12], [13])); (3, Some ([11], [12; 14]))]%nat.
Proof. vm_compute. done. Qed.

(** A graph input without elements counts as a constant: the slice has it as an
    input, the dispatch operation does not. *)
Definition empty_input_ir : ir :=
  set_tensor_heap (<[11%nat := SetType (kLiteRtRankedTensorType kLiteRtElementTypeNone [0])
    (test_tensor [(1%nat, 0)] nullptr)]> (tensor_heap line_ir)) line_ir.

Example empty_input_lost :
  let h' := final (PartitionSubgraph [(1%nat, 0)] 5 [] kLiteRtCompilerOptionsPartitionStrategyDefault empty_input_ir) in
  (λ O, Inputs O) <$> op_heap h' !! 1%nat = Some [] ∧ interface_of h' 20 = Some ([21], [23])%nat.
Proof. vm_compute. done. Qed.

(** ** Inlining *)

(** A composite operation 10 for the subgraph 2 of two operations. *)
Definition composite_ir (users30 : list (LiteRtOp * Z)) (ins11 : list LiteRtTensor) : ir := {|
  tensor_heap := list_to_map
    [(20, test_tensor [(10, 0%Z)] nullptr); (21, test_tensor [] 10);
     (30, test_tensor users30 nullptr); (31, test_tensor [(12, 0%Z)] 11); (32, test_tensor [] 12)]%nat;
  op_heap := list_to_map [(10, test_op [20] [21]); (11, test_op ins11 [31]); (12, test_op [31] [32])]%nat;
  subgraph_heap := list_to_map
   [(1, {| Tensors := [20; 21]; Ops := [10]; SubgraphInputs := [20]; SubgraphOutputs := [21] |});
    (2, {| Tensors := [30; 31; 32]; Ops := [11; 12]; SubgraphInputs := [30]; SubgraphOutputs := [32] |})]%nat;
  model_subgraphs := [1; 2]%nat;
  next_address := 40 |}.

Definition valid_op (h : ir) (o : LiteRtOp) : option bool :=
  match ValidateLocalTopology o h with Done b _ => Some b | _ => None end.

(** The copies of the operations get their edges, but the copies of the tensors
    never get a definition. *)
Example inlined_without_definitions :
  let h := composite_ir [(11%nat, 0)] [30%nat] in
  let h' := final (InlineSubgraph 10 2 h) in
  bool_decide (ir_checked h) = true ∧
  edges_of h' 1 = [(40, Some ([20], [43])); (41, Some ([43], [44]))]%nat ∧
  (DefiningOp <$> tensor_heap h' !! 43%nat) = Some nullptr ∧
  valid_op h 11 = Some true ∧ valid_op h' 40 = Some false.
Proof. vm_compute. done. Qed.

(** When the subgraph does not use its input, the destroyed composite operation
    stays among the users of the operation's input. *)
Example inlined_unused_input :
  let h := composite_ir [] [] in
  let h' := final (InlineSubgraph 10 2 h) in
  bool_decide (ir_checked h) = true ∧
  op_heap h' !! 10%nat = None ∧ (Users <$> tensor_heap h' !! 20%nat) = Some [10%nat].
Proof. vm_compute. done. Qed.
