(* ===== verification/ModelTransfer.v ===== *)
(** * Moving subgraphs between models

    [IrAllocator] of [litert/core/model/ir_allocator.h], the list that owns the
    subgraphs of a model, and [LiteRtModelT::TransferSubgraphTo] of
    [litert/core/model/model.cc], which moves some of them to another model and
    renumbers the subgraphs that composite operations refer to. *)

From S2P Require Import Prelude OpCodes LiteRtIr.

(** ** The allocator

    The elements in order; the array of pointers [refs_] always lists the same
    elements in the same order and is not kept apart. *)
Section allocator.
Context {Ir : Type}.
Implicit Types (this other : list Ir).

Definition ResizeDown (size : Z) this : list Ir :=
  if zlen this <=? size then this else take (Z.to_nat size) this.

(** [TransferFrom] without indices, and at a position: this allocator and the
    other one. *)
Definition TransferFrom this other : list Ir * list Ir := (this ++ other, []).

Definition TransferFrom_at this other (index : Z) : list Ir * list Ir :=
  if decide (other = []) then (this, other)
  else
    let index := if zlen this <? index then zlen this else index in
    (take (Z.to_nat index) this ++ other ++ drop (Z.to_nat index) this, []).

(** [std::sort] and [std::unique]. *)
Definition sort_indices (indices : list Z) : list Z := stable_sort (λ a b, a <? b) indices.

Fixpoint unique (l : list Z) : list Z :=
  match l with
  | x :: (y :: _) as l' => if x =? y then unique l' else x :: unique l'
  | _ => l
  end.

(** [TransferFrom] with indices: the iterators are found first, then spliced one
    by one. An index out of range advances an iterator past the end. *)
Definition without_positions (l : list Ir) (inds : list Z) : list Ir :=
  omap (zget l) (filter (λ i, i ∉ inds) (range 0 (zlen l))).

Definition TransferFrom_indices {S} this other (indices : list Z) : M S (list Ir * list Ir) :=
  let inds := unique (sort_indices indices) in
  moved ← fold_m inds [] (λ its ind, x ← deref (zget other ind); mret (its ++ [x]));
  mret (this ++ moved, without_positions other inds).
End allocator.

(** ** Renumbering *)

(** The new index of every subgraph, [-1] for those that are moved; [i] points
    into the sorted indices. *)
Definition new_inds_step (st : list Z * Z * list Z) (j : Z) : list Z * Z * list Z :=
  let '(i, num_removed, new_inds) := st in
  match i with
  | x :: i' =>
      if x =? j then (i', num_removed + 1, new_inds ++ [-1])
      else (i, num_removed, new_inds ++ [j - num_removed])
  | [] => (i, num_removed, new_inds ++ [j - num_removed])
  end.

Definition new_inds (size : Z) (indices : list Z) : list Z :=
  (foldl new_inds_step (sort_indices indices, 0, []) (range 0 size)).2.

(** A model, as far as the transfer is concerned: its subgraphs, and the
    decomposition subgraph of every composite operation, [-1] for none. *)
Record LiteRtModelT := {
  subgraphs_ : list LiteRtSubgraph;
  decompositions : gmap LiteRtOp Z
}.

Definition update_decomposition (inds : list Z) (op : LiteRtOp) : M LiteRtModelT unit :=
  m ← get;
  decomp_ind ← deref (decompositions m !! op);
  if decomp_ind =? -1 then mret ()
  else
    new_ind ← deref (zget inds decomp_ind);
    put {| subgraphs_ := subgraphs_ m; decompositions := <[op := new_ind]> (decompositions m) |}.

(** The subgraphs that were moved are the result. [ops] are the composite
    operations in the order of [ForEachIr]. *)
Definition TransferSubgraphTo (ops : list LiteRtOp) (dest : list LiteRtSubgraph) (indices : list Z) :
    M LiteRtModelT (list LiteRtSubgraph) :=
  if decide (indices = []) then mret dest
  else
    m ← get;
    let inds := new_inds (zlen (subgraphs_ m)) indices in
    for_each ops (update_decomposition inds);;
    '(dest, rest) ← TransferFrom_indices dest (subgraphs_ m) (sort_indices indices);
    modify (λ m, {| subgraphs_ := rest; decompositions := decompositions m |});;
    mret dest.
