(* ===== verification/ModelTransferProofs.v ===== *)
(** * Correctness of the transfer of subgraphs *)

From S2P Require Import Prelude OpCodes LiteRtIr ModelTransfer.

(** ** Sorted indices *)

Lemma sort_indices_perm l : sort_indices l ≡ₚ l.
Proof. apply stable_sort_perm. Qed.

Lemma sort_indices_le l : StronglySorted Z.le (sort_indices l).
Proof.
  apply (StronglySorted_in (λ a b, (b <? a) = false)).
  - intros x y _ _ ?%Z.ltb_ge. lia.
  - apply stable_sort_sorted, (strict_weak_key id).
Qed.

Lemma unique_values l x : x ∈ unique l ↔ x ∈ l.
Proof.
  induction l as [|y [|z l] IH]; [reflexivity..|]. cbn [unique]. destruct (Z.eqb_spec y z) as [->|Hne].
  - rewrite IH, !elem_of_cons. tauto.
  - rewrite elem_of_cons, IH. by rewrite (elem_of_cons (z :: l)).
Qed.

Lemma unique_lt l : StronglySorted Z.le l → StronglySorted Z.lt (unique l).
Proof.
  induction l as [|y [|z l] IH]; intros Hs; [constructor|by repeat constructor|]. cbn [unique].
  inversion Hs as [|? ? Hs' Hy]; subst. destruct (Z.eqb_spec y z) as [->|Hne]; [auto|]. constructor; [auto|].
  apply Forall_forall. intros x Hx. apply (proj1 (unique_values (z :: l) x)) in Hx. apply Forall_cons in Hy as [Hyz Hy].
  inversion Hs' as [|? ? _ Hz]; subst. rewrite Forall_forall in Hz.
  apply elem_of_cons in Hx as [->|Hx]; [lia|]. specialize (Hz x Hx). lia.
Qed.

Lemma lt_sorted_nodup l : StronglySorted Z.lt l → NoDup l.
Proof.
  induction 1 as [|x l _ IH Hx]; constructor; [|done]. intros Hin. rewrite Forall_forall in Hx.
  specialize (Hx x Hin). lia.
Qed.

Lemma lt_sorted_unique l k : StronglySorted Z.lt l → StronglySorted Z.lt k → (∀ x, x ∈ l ↔ x ∈ k) → l = k.
Proof.
  intros Hl Hk Hlk. apply (StronglySorted_unique Z.le).
  - eapply (StronglySorted_in Z.lt); [|exact Hl]. lia.
  - eapply (StronglySorted_in Z.lt); [|exact Hk]. lia.
  - apply NoDup_Permutation; [by apply lt_sorted_nodup|by apply lt_sorted_nodup|done].
Qed.

(** Sorted and without repetitions, indices in range are a part of the range. *)
Lemma unique_indices n indices : (∀ i, i ∈ indices → 0 ≤ i < n) →
  unique (sort_indices indices) = filter (λ i, i ∈ indices) (range 0 n).
Proof.
  intros Hr. apply lt_sorted_unique.
  - apply unique_lt, sort_indices_le.
  - apply StronglySorted_filter, range_lt.
  - intros x. rewrite unique_values, sort_indices_perm, list_elem_of_filter, elem_of_range. naive_solver.
Qed.

(** ** The elements *)

Lemma omap_length {A B} (f : A → option B) l : (∀ x, x ∈ l → ∃ y, f x = Some y) → length (omap f l) = length l.
Proof.
  induction l as [|x l IH]; intros Hl; [done|]. csimpl. destruct (Hl x) as [y ->]; [by left|]. csimpl.
  rewrite IH; [done|]. intros z Hz. apply Hl. by right.
Qed.

Section elements.
Context {A : Type} (l : list A).

Definition select (P : Z → Prop) `{∀ x, Decision (P x)} : list A := omap (zget l) (filter P (range 0 (zlen l))).

Lemma select_all : omap (zget l) (range 0 (zlen l)) = l.
Proof.
  enough (∀ k, omap (zget (l ++ k)) (range 0 (zlen l)) = l) as Hk by (specialize (Hk []); by rewrite app_nil_r in Hk).
  induction l as [|x l' IH] using rev_ind; intros k; [done|].
  replace (zlen (l' ++ [x])) with (zlen l' + 1) by (rewrite length_app; simpl; lia).
  rewrite range_snoc, omap_app, <- app_assoc, IH by lia. f_equal. simpl.
  unfold zget. rewrite (proj2 (Z.leb_le 0 _)) by lia. by rewrite Nat2Z.id, lookup_split.
Qed.

Lemma select_split (P : Z → Prop) `{∀ x, Decision (P x)} : select P ++ select (λ x, ¬ P x) ≡ₚ l.
Proof.
  unfold select. rewrite <- omap_app, filter_app_complement. by rewrite select_all.
Qed.

(** Among the positions that satisfy [P], [j] is preceded by those below it. *)
Lemma select_lookup (P : Z → Prop) `{∀ x, Decision (P x)} j x : zget l j = Some x → P j →
  zget (select P) (zlen (filter P (range 0 j))) = Some x.
Proof.
  intros Hj HP. apply zget_range in Hj as Hr. unfold select.
  assert (range 0 (zlen l) = range 0 j ++ j :: range (j + 1) (zlen l)) as ->.
  { rewrite <- range_cons by lia. apply range_app; lia. }
  rewrite filter_app, omap_app, filter_cons, decide_True by done. simpl. rewrite Hj.
  assert (length (omap (zget l) (filter P (range 0 j))) = length (filter P (range 0 j))) as Hlen.
  { apply omap_length. intros i [_ Hi%elem_of_range]%list_elem_of_filter. apply zget_is_Some. lia. }
  unfold zget. rewrite (proj2 (Z.leb_le 0 _)) by lia. by rewrite Nat2Z.id, <- Hlen, lookup_split.
Qed.
End elements.

(** ** The new indices *)

Section renumber.
Context (n : Z) (indices : list Z).
Hypothesis Hnd : NoDup indices.
Hypothesis Hr : ∀ i, i ∈ indices → 0 ≤ i < n.

Definition kept (i : Z) : Prop := i ∉ indices.

Definition new_ind (j : Z) : Z := if decide (j ∈ indices) then -1 else zlen (filter kept (range 0 j)).

Lemma sort_indices_lt : StronglySorted Z.lt (sort_indices indices).
Proof.
  pose proof (sort_indices_le indices) as Hs.
  assert (NoDup (sort_indices indices)) as Hnd' by (by rewrite sort_indices_perm).
  induction Hs as [|x l Hs IH Hx]; [constructor|]. apply NoDup_cons in Hnd' as [Hnot Hnd'].
  constructor; [by apply IH|]. rewrite Forall_forall in *. intros y Hy. specialize (Hx y Hy).
  assert (x ≠ y) by (intros ->; done). lia.
Qed.

Lemma new_inds_loop j : 0 ≤ j ≤ n →
  foldl new_inds_step (sort_indices indices, 0, []) (range 0 j) =
  (filter (λ i, j ≤ i) (sort_indices indices), j - zlen (filter kept (range 0 j)), new_ind <$> range 0 j).
Proof.
  intros [Hj Hn]. revert Hn. pattern j. apply (Zlt_lower_bound_ind _ 0); [|done]. clear j Hj. intros j IH Hj Hn.
  destruct (decide (j = 0)) as [->|Hne].
  { rewrite range_nil by lia. simpl. rewrite filter_all; [done|]. intros x. rewrite sort_indices_perm. intros ?%Hr. lia. }
  replace j with ((j - 1) + 1) by lia. set (k := j - 1) in *.
  rewrite range_snoc, foldl_app, IH by lia. cbn [foldl]. rewrite fmap_app, filter_app, filter_cons, filter_nil.
  pose proof sort_indices_lt as Hs.
  destruct (decide (k ∈ indices)) as [Hin|Hout].
  - assert (filter (λ i, k ≤ i) (sort_indices indices) = k :: filter (λ i, k + 1 ≤ i) (sort_indices indices)) as ->.
    { apply lt_sorted_unique.
      - by apply StronglySorted_filter.
      - constructor; [by apply StronglySorted_filter|]. apply Forall_forall. intros x [? _]%list_elem_of_filter. lia.
      - intros x. rewrite elem_of_cons, !list_elem_of_filter, sort_indices_perm.
        split; [intros [H1 H2]; destruct (decide (x = k)); [by left|right; split; [lia|done]]|].
        intros [->|[H1 H2]]; (split; [lia|done]). }
    simpl. rewrite Z.eqb_refl. rewrite (decide_False (P := kept k)) by (unfold kept; tauto). rewrite app_nil_r.
    assert (new_ind k = -1) as -> by (unfold new_ind; by rewrite decide_True). f_equal. f_equal. lia.
  - assert (filter (λ i, k ≤ i) (sort_indices indices) = filter (λ i, k + 1 ≤ i) (sort_indices indices)) as ->.
    { apply filter_in. intros x Hx. rewrite sort_indices_perm in Hx.
      assert (x ≠ k) by (intros ->; done). lia. }
    rewrite (decide_True (P := kept k)) by done. rewrite length_app. simpl.
    assert (new_ind k = k - (k - zlen (filter kept (range 0 k)))) as Hk by (unfold new_ind; rewrite decide_False by done; lia).
    rewrite Hk. unfold new_inds_step. destruct (filter (λ i, k + 1 ≤ i) (sort_indices indices)) as [|x i'] eqn:Hf.
    + do 2 f_equal. lia.
    + assert (x ∈ filter (λ i, k + 1 ≤ i) (sort_indices indices)) as [Hx _]%list_elem_of_filter by (rewrite Hf; by left).
      destruct (Z.eqb_spec x k); [lia|]. do 2 f_equal. lia.
Qed.

Lemma new_inds_spec : 0 ≤ n → new_inds n indices = new_ind <$> range 0 n.
Proof. intros Hn. unfold new_inds. by rewrite new_inds_loop by lia. Qed.
End renumber.

(** ** The transfer *)

Lemma TransferFrom_indices_spec {A S} (this other : list A) indices (s : S) E :
  (∀ i, i ∈ indices → 0 ≤ i < zlen other) →
  wp (TransferFrom_indices this other indices) (λ r s', s' = s ∧
    r = (this ++ select other (λ i, i ∈ indices), select other (λ i, i ∉ indices))) E s.
Proof.
  intros Hr. unfold TransferFrom_indices, without_positions. rewrite (unique_indices (zlen other)) by done.
  set (inds := filter (λ i, i ∈ indices) (range 0 (zlen other))).
  apply wp_bind. eapply wp_post; [|apply (wp_fold_m (λ done moved s', s' = s ∧ moved = omap (zget other) done))].
  - intros moved s' [-> ->]. apply wp_ret. split; [done|]. f_equal. unfold select. f_equal. apply filter_in.
    intros i Hi. unfold inds. rewrite list_elem_of_filter. tauto.
  - done.
  - intros done i todo moved s' Hl [-> ->].
    assert (i ∈ inds) as [Hi _]%list_elem_of_filter by (rewrite Hl; in_list).
    destruct (zget_is_Some other i (Hr i Hi)) as [x Hx]. apply wp_bind. eapply wp_deref; [exact Hx|]. apply wp_ret.
    split; [done|]. rewrite omap_app. simpl. by rewrite Hx.
Qed.

(** The decomposition after the transfer. *)
Definition renumbered (n : Z) (indices : list Z) (v : Z) : Z := if v =? -1 then -1 else new_ind indices v.

Lemma update_all_spec n indices ops m E : NoDup indices → (∀ i, i ∈ indices → 0 ≤ i < n) → 0 ≤ n → NoDup ops →
  (∀ op, op ∈ ops → ∃ v, decompositions m !! op = Some v ∧ (v = -1 ∨ 0 ≤ v < n)) →
  wp (for_each ops (update_decomposition (new_inds n indices))) (λ _ m', subgraphs_ m' = subgraphs_ m ∧
    ∀ op, decompositions m' !! op =
      if decide (op ∈ ops) then renumbered n indices <$> decompositions m !! op else decompositions m !! op) E m.
Proof.
  intros Hnd Hr Hn Hops Hall.
  eapply wp_post; [|apply (wp_for_each (λ done m', subgraphs_ m' = subgraphs_ m ∧ ∀ op, decompositions m' !! op =
    if decide (op ∈ done) then renumbered n indices <$> decompositions m !! op else decompositions m !! op))].
  - intros [] m' [Hs Hd]. split; [done|exact Hd].
  - split; [done|]. intros op. by rewrite decide_False by apply not_elem_of_nil.
  - intros done op todo m' Hl [Hs Hd]. destruct (Hall op) as (v & Hv & Hvr); [rewrite Hl; in_list|].
    assert (op ∉ done) as Hnot.
    { rewrite Hl in Hops. apply NoDup_app in Hops as (_ & Hops & _). intros Hin. apply (Hops op Hin). by left. }
    assert (decompositions m' !! op = Some v) as Hv' by (rewrite Hd, decide_False; done).
    assert (∀ op', op' ≠ op → (op' ∈ done ++ [op] ↔ op' ∈ done)) as Hin'.
    { intros op' Hne. rewrite elem_of_app, list_elem_of_singleton. tauto. }
    unfold update_decomposition. wp_steps. eapply wp_deref; [exact Hv'|]. wp_steps. destruct (Z.eqb_spec v (-1)) as [->|Hne].
    + apply wp_ret. split; [done|]. intros op'. destruct (decide (op' = op)) as [->|Hop].
      * rewrite Hv', decide_True by in_list. by rewrite Hv.
      * rewrite Hd. by rewrite (decide_ext _ _ _ _ (Hin' op' Hop)).
    + apply wp_bind. eapply wp_deref.
      { rewrite new_inds_spec by done. unfold zget. rewrite (proj2 (Z.leb_le 0 v)) by lia.
        rewrite list_lookup_fmap. unfold range. rewrite lookup_seqZ_lt by lia. simpl. reflexivity. }
      apply wp_put. simpl. split; [done|]. intros op'. destruct (decide (op' = op)) as [->|Hop].
      * rewrite lookup_insert_eq, decide_True by in_list. rewrite Hv. simpl. unfold renumbered.
        rewrite (proj2 (Z.eqb_neq v (-1))) by done. do 2 f_equal. lia.
      * rewrite lookup_insert_ne, Hd by done. by rewrite (decide_ext _ _ _ _ (Hin' op' Hop)).
Qed.

(** C39: With distinct indices in range, [TransferSubgraphTo] appends the chosen
    subgraphs to the destination in their order, keeps the others in theirs, and
    renumbers the composite operations: one whose decomposition was moved refers
    to none, and every other one still refers to the same subgraph. *)
Theorem TransferSubgraphTo_correct ops dest indices m :
  NoDup indices → (∀ i, i ∈ indices → 0 ≤ i < zlen (subgraphs_ m)) → NoDup ops →
  (∀ op, op ∈ ops → ∃ v, decompositions m !! op = Some v ∧ (v = -1 ∨ 0 ≤ v < zlen (subgraphs_ m))) →
  ∃ moved m', TransferSubgraphTo ops dest indices m = Done (dest ++ moved) m' ∧
    moved = select (subgraphs_ m) (λ i, i ∈ indices) ∧ subgraphs_ m' = select (subgraphs_ m) (λ i, i ∉ indices) ∧
    moved ++ subgraphs_ m' ≡ₚ subgraphs_ m ∧
    ∀ op v, op ∈ ops → decompositions m !! op = Some v →
      (v = -1 ∨ v ∈ indices → decompositions m' !! op = Some (-1)) ∧
      (v ≠ -1 → v ∉ indices → ∃ w, decompositions m' !! op = Some w ∧
        zget (subgraphs_ m') w = zget (subgraphs_ m) v).
Proof.
  intros Hnd Hr Hops Hall.
  enough (wp (TransferSubgraphTo ops dest indices) (λ r m', r = dest ++ select (subgraphs_ m) (λ i, i ∈ indices) ∧
    subgraphs_ m' = select (subgraphs_ m) (λ i, i ∉ indices) ∧
    ∀ op, op ∈ ops → decompositions m' !! op = renumbered (zlen (subgraphs_ m)) indices <$> decompositions m !! op)
    (λ _, False) m) as Hwp.
  { apply wp_no_error in Hwp as (r & m' & Hrun & -> & Hs & Hd). eexists _, m'. split; [exact Hrun|].
    split; [done|]. split; [done|]. split; [rewrite Hs; apply select_split|].
    intros op v Hop Hv. rewrite (Hd op Hop), Hv. simpl. unfold renumbered, new_ind. split.
    - intros [->|Hin]; [done|]. rewrite decide_True by done. by destruct (v =? -1).
    - intros Hne Hout. rewrite (proj2 (Z.eqb_neq v (-1))), decide_False by done. eexists. split; [done|].
      destruct (Hall op Hop) as (v' & Hv' & Hvr). simplify_eq.
      destruct (zget_is_Some (subgraphs_ m) v) as [x Hx]; [lia|]. rewrite Hx, Hs. by apply (select_lookup _ (λ i, i ∉ indices)). }
  unfold TransferSubgraphTo. case_decide as Hnil.
  - apply wp_ret. subst indices. unfold select. rewrite filter_none by (intros x _; apply not_elem_of_nil).
    rewrite filter_all by (intros x _; apply not_elem_of_nil). rewrite select_all, app_nil_r.
    split_and!; [done|done|]. intros op Hop. destruct (Hall op Hop) as (v & Hv & Hvr). rewrite Hv. simpl. f_equal.
    unfold renumbered, new_ind. rewrite decide_False by apply not_elem_of_nil.
    destruct (Z.eqb_spec v (-1)); [done|]. rewrite filter_all by (intros x _; apply not_elem_of_nil).
    unfold range. rewrite length_seqZ. lia.
  - wp_steps. eapply wp_post; [|by apply update_all_spec; [| |lia| |]]. intros [] m1 [Hs Hd]. apply wp_bind.
    eapply wp_post; [|apply (TransferFrom_indices_spec dest (subgraphs_ m))].
    + intros r m2 [-> ->]. wp_steps. split_and!.
      * unfold select. do 2 f_equal. apply filter_in. intros i _. by rewrite sort_indices_perm.
      * unfold select. f_equal. apply filter_in. intros i _. by rewrite sort_indices_perm.
      * intros op Hop. rewrite Hd. by rewrite decide_True.
    + intros i. rewrite sort_indices_perm. apply Hr.
Qed.

(** Four subgraphs, of which the first and the third move; composites refer to
    the second, to the third, and to none. *)
Definition four_subgraphs : LiteRtModelT := {|
  subgraphs_ := [7; 8; 9; 10]%nat;
  decompositions := list_to_map [(0%nat, 1); (1%nat, 2); (2%nat, -1); (3%nat, 3)]
|}.

Example transferred :
  TransferSubgraphTo [0; 1; 2; 3]%nat [20%nat] [2; 0] four_subgraphs =
  Done [20; 7; 9]%nat {|
    subgraphs_ := [8; 10]%nat;
    decompositions := list_to_map [(0%nat, 0); (1%nat, -1); (2%nat, -1); (3%nat, 1)] |}.
Proof. vm_compute. reflexivity. Qed.

Lemma TransferSubgraphTo_correct_witness :
  ∃ moved m', TransferSubgraphTo [0; 1; 2; 3]%nat [20%nat] [2; 0] four_subgraphs = Done (20%nat :: moved) m' ∧
    moved ++ subgraphs_ m' ≡ₚ [7; 8; 9; 10]%nat.
Proof.
  destruct (TransferSubgraphTo_correct [0; 1; 2; 3]%nat [20%nat] [2; 0] four_subgraphs) as (moved & m' & Hrun & _ & _ & Hp & _).
  - apply (bool_decide_unpack (NoDup [2; 0])). vm_compute. exact I.
  - intros i Hi. apply elem_of_cons in Hi as [->|Hi]; [vm_compute; by split|].
    apply list_elem_of_singleton in Hi as ->. vm_compute. by split.
  - apply (bool_decide_unpack (NoDup [0; 1; 2; 3]%nat)). vm_compute. exact I.
  - intros op Hop. repeat (apply elem_of_cons in Hop as [->|Hop]; [eexists; split; [vm_compute; reflexivity|vm_compute; (by left) || (by right; split)]|]).
    by apply not_elem_of_nil in Hop.
  - exists moved, m'. split; [exact Hrun|exact Hp].
Defined.

(** The subgraphs to move are given once each: a repeated index is skipped over
    as though it named a subgraph of its own, so that the second of the two equal
    entries is never passed and the subgraphs after it are not renumbered. *)
Example repeated_index_misnumbers :
  new_inds 5 [1; 3] = [0; -1; 1; -1; 2] ∧ new_inds 5 [1; 1; 3] = [0; -1; 1; 2; 3].
Proof. split; reflexivity. Qed.
