(* ===== verification/TensorLayout.v ===== *)
(** * The layout of a tensor

    The elements of a tensor are stored in row-major order. The offset of an index,
    the indices of an offset, and the number of elements under permutations of the
    dimensions. *)

From S2P Require Import Prelude.

(** ** Positions in a dense tensor *)

(** The offset between two indices of dimension [d]. *)
Definition stride (shape : list Z) (d : Z) : Z := volume (drop (Z.to_nat (d + 1)) shape).

Lemma stride_cons x shape d : 0 ≤ d → stride (x :: shape) (d + 1) = stride shape d.
Proof. intros Hd. unfold stride. by replace (Z.to_nat (d + 1 + 1)) with (S (Z.to_nat (d + 1))) by lia. Qed.

Lemma stride_0 x shape : stride (x :: shape) 0 = volume shape.
Proof. done. Qed.

Lemma stride_last shape : shape ≠ [] → stride shape (zlen shape - 1) = 1.
Proof. intros Hne. unfold stride. rewrite drop_ge by lia. done. Qed.

Lemma stride_step shape d x : zget shape d = Some x → stride shape (d - 1) = x * stride shape d.
Proof.
  intros Hx. apply zget_Some in Hx as [Hd Hx]. unfold stride.
  replace (Z.to_nat (d - 1 + 1)) with (Z.to_nat d) by lia. rewrite (drop_S _ _ _ Hx).
  by replace (Z.to_nat (d + 1)) with (S (Z.to_nat d)) by lia.
Qed.

Lemma volume_drop shape n : Forall (λ d, 0 < d) shape → 0 < volume (drop n shape) ≤ volume shape.
Proof.
  intros Hs. pose proof (volume_pos _ (Forall_drop _ n _ Hs)). pose proof (volume_pos _ (Forall_take _ n _ Hs)).
  rewrite <- (take_drop n shape) at 3. rewrite volume_app. nia.
Qed.

Lemma stride_bound shape d x : Forall (λ d, 0 < d) shape → zget shape d = Some x →
  0 < stride shape d ∧ x * stride shape d ≤ volume shape.
Proof.
  intros Hs Hx. split; [apply volume_drop; done|]. rewrite <- (stride_step _ _ _ Hx). by apply volume_drop.
Qed.

(** The sum over the dimensions, least significant last. *)
Definition flat (shape : list Z) (index : Z → Z) : Z := total ((λ d, index d * stride shape d) <$> range 0 (zlen shape)).

Lemma range_shift n : 0 ≤ n → range 0 (n + 1) = 0 :: ((λ i, i + 1) <$> range 0 n).
Proof.
  intros Hn. rewrite range_cons by lia. f_equal. apply list_eq. intros i. rewrite list_lookup_fmap. unfold range.
  destruct (decide (i < Z.to_nat n)%nat) as [Hi|Hi].
  - rewrite !lookup_seqZ_lt by lia. simpl. f_equal. lia.
  - rewrite !(proj2 (lookup_ge_None _ _)); [done|rewrite length_seqZ; lia..].
Qed.

Lemma flat_cons x shape index : flat (x :: shape) index = index 0 * volume shape + flat shape (λ d, index (d + 1)).
Proof.
  unfold flat. replace (zlen (x :: shape)) with (zlen shape + 1) by (simpl; lia). rewrite range_shift by lia.
  rewrite fmap_cons, total_cons, stride_0. f_equal. rewrite <- list_fmap_compose.
  apply total_ext. intros d Hd%elem_of_range. simpl. by rewrite stride_cons by lia.
Qed.

Lemma flat_bound shape index : (∀ d x, zget shape d = Some x → 0 ≤ index d < x) → 0 ≤ flat shape index < volume shape.
Proof.
  revert index. induction shape as [|x shape IH]; intros index Hi; [unfold flat; simpl; lia|].
  rewrite flat_cons. cbn [volume foldr]. fold (volume shape).
  pose proof (Hi 0 x eq_refl). destruct (IH (λ d, index (d + 1))) as [H1 H2]; [|nia].
  intros d y Hy. apply Hi. apply zget_Some in Hy as [Hd Hy]. apply zget_Some. split; [lia|].
  by replace (Z.to_nat (d + 1)) with (S (Z.to_nat d)) by lia.
Qed.

(** Every position is the one of some indices. *)
Fixpoint digits (shape : list Z) (y : Z) : list Z :=
  match shape with
  | [] => []
  | _ :: shape' => y / volume shape' :: digits shape' (y mod volume shape')
  end.

Lemma flat_ext shape f g : (∀ d, 0 ≤ d < zlen shape → f d = g d) → flat shape f = flat shape g.
Proof. intros Hfg. apply total_ext. intros d Hd%elem_of_range. by rewrite Hfg. Qed.

Lemma flat_digits shape y : Forall (λ d, 0 < d) shape → 0 ≤ y < volume shape →
  flat shape (vat 0 (digits shape y)) = y ∧ ∀ d x, zget shape d = Some x → 0 ≤ vat 0 (digits shape y) d < x.
Proof.
  intros Hs. revert y. induction Hs as [|x shape Hx Hs IH]; intros y Hy.
  - unfold volume in Hy. simpl in Hy. split; [unfold flat; simpl; lia|]. intros d z Hz. by apply zget_Some in Hz as [_ ?].
  - pose proof (volume_pos shape Hs) as Hv. unfold volume in Hy. cbn [foldr] in Hy. fold (volume shape) in Hy.
    pose proof (Z.mod_pos_bound y (volume shape) Hv) as Hm. destruct (IH _ Hm) as [Hf Hr].
    assert (∀ d, 0 ≤ d → vat 0 (digits (x :: shape) y) (d + 1) = vat 0 (digits shape (y mod volume shape)) d) as Hsh.
    { intros d Hd. unfold vat, zget. rewrite !(proj2 (Z.leb_le _ _)) by lia.
      by replace (Z.to_nat (d + 1)) with (S (Z.to_nat d)) by lia. }
    split.
    + rewrite flat_cons, (flat_ext shape _ (vat 0 (digits shape (y mod volume shape)))) by (intros d Hd; apply Hsh; lia).
      rewrite Hf. change (vat 0 (digits (x :: shape) y) 0) with (y / volume shape).
      pose proof (Z.div_mod y (volume shape) ltac:(lia)). lia.
    + intros d z Hz. apply zget_Some in Hz as [Hd Hz]. destruct (decide (d = 0)) as [->|Hd0].
      * simpl in Hz. assert (z = x) as -> by congruence. change (vat 0 (digits (x :: shape) y) 0) with (y / volume shape).
        split; [apply Z.div_pos; lia|]. apply Z.div_lt_upper_bound; lia.
      * replace d with ((d - 1) + 1) by lia. rewrite Hsh by lia. apply Hr. apply zget_Some. split; [lia|].
        by replace (Z.to_nat d) with (S (Z.to_nat (d - 1))) in Hz by lia.
Qed.

(** ** The number of elements *)

Lemma volume_perm l k : l ≡ₚ k → volume l = volume k.
Proof. unfold volume. induction 1; simpl; lia. Qed.

Lemma volume_mul (f g : Z → Z) l : volume ((λ x, f x * g x) <$> l) = volume (f <$> l) * volume (g <$> l).
Proof. unfold volume. induction l as [|x l IH]; [done|]. rewrite !fmap_cons. cbn [foldr]. rewrite IH. lia. Qed.

Lemma volume_ext (f g : Z → Z) l : (∀ x, x ∈ l → f x = g x) → volume (f <$> l) = volume (g <$> l).
Proof. intros Hfg. f_equal. apply list_fmap_ext. intros i x Hx. apply Hfg. by eapply list_elem_of_lookup_2. Qed.

Lemma volume_one (f : Z → Z) l : (∀ x, x ∈ l → f x = 1) → volume (f <$> l) = 1.
Proof.
  unfold volume. induction l as [|x l IH]; intros Hf; [done|]. rewrite fmap_cons. cbn [foldr]. rewrite (Hf x) by (by left).
  rewrite IH; [done|]. intros y Hy. apply Hf. by right.
Qed.

Lemma volume_part (f : Z → Z) l k : NoDup l → NoDup k → (∀ x, x ∈ k → x ∈ l) → (∀ x, x ∈ l → (x ∉ k) → f x = 1) →
  volume (f <$> l) = volume (f <$> k).
Proof.
  intros Hl Hk Hkl Hf. destruct (submseteq_Permutation k l) as [r Hr]; [by apply NoDup_submseteq|].
  rewrite (volume_perm _ _ (fmap_Permutation f _ _ Hr)), fmap_app, volume_app. rewrite (volume_one f r); [lia|]. intros x Hx.
  rewrite Hr in Hl. apply NoDup_app in Hl as (_ & Hd & _). apply Hf; [rewrite Hr; in_list|].
  intros Hxk. by apply (Hd x).
Qed.

Lemma range_from a n : 0 ≤ n → range a (a + n) = (λ i, a + i) <$> range 0 n.
Proof.
  intros Hn. apply list_eq. intros i. rewrite list_lookup_fmap. unfold range.
  destruct (decide (i < Z.to_nat n)%nat) as [Hi|Hi].
  - rewrite !lookup_seqZ_lt by lia. simpl. f_equal; lia.
  - rewrite !(proj2 (lookup_ge_None _ _)); [done|rewrite length_seqZ; lia..].
Qed.
