(* ===== verification/TensorCopy.v ===== *)
(** * Copying between layouts

    Elements that are read with one stride for each dimension and written in row-major
    order, and sizes that can be computed in 32 bits. *)

From S2P Require Import Prelude TensorLayout.

(** ** Copying with strides *)

Definition valid (sizes : list Z) (index : Z → Z) : Prop := ∀ d x, zget sizes d = Some x → 0 ≤ index d < x.

Definition dot (steps : list Z) (index : Z → Z) : Z := total ((λ d, index d * vat 0 steps d) <$> range 0 (zlen steps)).

Lemma zget_cons {A} (x : A) l d : 0 ≤ d → zget (x :: l) (d + 1) = zget l d.
Proof.
  intros Hd. unfold zget. rewrite !(proj2 (Z.leb_le 0 _)) by lia.
  by replace (Z.to_nat (d + 1)) with (S (Z.to_nat d)) by lia.
Qed.

Lemma dot_cons st steps ix : dot (st :: steps) ix = ix 0 * st + dot steps (λ d, ix (d + 1)).
Proof.
  unfold dot. replace (zlen (st :: steps)) with (zlen steps + 1) by (simpl; lia). rewrite range_shift by lia.
  rewrite fmap_cons, total_cons. f_equal. rewrite <- list_fmap_compose.
  apply total_ext. intros d Hd%elem_of_range. simpl. unfold vat. by rewrite zget_cons by lia.
Qed.

Lemma valid_cons x sizes ix : valid (x :: sizes) ix ↔ 0 ≤ ix 0 < x ∧ valid sizes (λ d, ix (d + 1)).
Proof.
  split.
  - intros Hv. split; [by apply Hv|]. intros d y Hy. apply Hv. rewrite zget_cons; [done|]. by apply zget_range in Hy as [? _].
  - intros [H0 Hv] d y Hy. pose proof (zget_range _ _ _ Hy) as [Hd _]. destruct (decide (d = 0)) as [->|Hne].
    + by injection Hy as <-.
    + replace d with (d - 1 + 1) in * by lia. rewrite zget_cons in Hy by lia. by apply Hv.
Qed.

Definition cons_index (i : Z) (ix : Z → Z) (d : Z) : Z := if d =? 0 then i else ix (d - 1).

Lemma cons_index_tail i ix sizes : flat sizes (λ d, cons_index i ix (d + 1)) = flat sizes ix.
Proof.
  apply flat_ext. intros d Hd. unfold cons_index. rewrite (proj2 (Z.eqb_neq _ _)) by lia. f_equal. lia.
Qed.

Lemma dot_ext steps f g : (∀ d, 0 ≤ d < zlen steps → f d = g d) → dot steps f = dot steps g.
Proof. intros Hfg. apply total_ext. intros d Hd%elem_of_range. by rewrite Hfg. Qed.

Lemma dot_tail i ix steps : dot steps (λ d, cons_index i ix (d + 1)) = dot steps ix.
Proof.
  apply dot_ext. intros d Hd. unfold cons_index. rewrite (proj2 (Z.eqb_neq _ _)) by lia. f_equal. lia.
Qed.

Lemma valid_tail i x ix sizes : 0 ≤ i < x → valid sizes ix → valid (x :: sizes) (cons_index i ix).
Proof.
  intros Hi Hv. apply valid_cons. split; [done|]. intros d y Hy. unfold cons_index.
  pose proof (zget_range _ _ _ Hy) as [Hd _]. rewrite (proj2 (Z.eqb_neq _ _)) by lia.
  replace (d + 1 - 1) with d by lia. by apply Hv.
Qed.

Definition nonneg (l : list Z) : Prop := Forall (λ d, 0 ≤ d) l.

Lemma volume_nonneg l : nonneg l → 0 ≤ volume l.
Proof. unfold volume. induction 1 as [|x l Hx Hl IH]; simpl; nia. Qed.

(** [buf'] is [buf] with the elements of [inp] written from [b] on, those that are read
    from [a] on with the given steps. *)
Definition copied (sizes steps inp : list Z) (a b : Z) (buf buf' : list Z) : Prop :=
  length buf' = length buf ∧
  (∀ ix, valid sizes ix → zget buf' (b + flat sizes ix) = zget inp (a + dot steps ix)) ∧
  ∀ e, (e < b ∨ b + volume sizes ≤ e) → zget buf' e = zget buf e.

Definition readable (sizes steps inp : list Z) (a : Z) : Prop := ∀ ix, valid sizes ix → 0 ≤ a + dot steps ix < zlen inp.

Lemma copied_0 sizes steps inp a b buf : copied (0 :: sizes) steps inp a b buf buf.
Proof. split; [done|]. split; [|done]. intros ix Hv%valid_cons. lia. Qed.

Lemma copied_nil inp a b buf x : zget inp a = Some x → 0 ≤ b < zlen buf → copied [] [] inp a b buf (zset b x buf).
Proof.
  intros Hx Hb. split; [apply zset_length|]. split.
  - intros ix _. change (flat [] ix) with 0. change (dot [] ix) with 0. rewrite !Z.add_0_r, Hx. by rewrite zget_zset_eq.
  - intros e He. apply zget_zset_ne; [lia|]. change (volume []) with 1 in He. lia.
Qed.

Lemma copied_step i st sizes steps inp a b buf0 buf buf' :
  nonneg sizes → 0 ≤ i → copied (i :: sizes) (st :: steps) inp a b buf0 buf →
  copied sizes steps inp (a + i * st) (b + i * volume sizes) buf buf' →
  copied (i + 1 :: sizes) (st :: steps) inp a b buf0 buf'.
Proof.
  intros Hs Hi (Hl & Hc & Hu) (Hl' & Hc' & Hu'). pose proof (volume_nonneg _ Hs) as Hv.
  split; [congruence|]. split.
  - intros ix [H0 Hix]%valid_cons. rewrite flat_cons, dot_cons. pose proof (flat_bound sizes _ Hix) as Hb.
    destruct (decide (ix 0 < i)) as [Hlt|Hge].
    + rewrite Hu' by nia. specialize (Hc ix). rewrite flat_cons, dot_cons in Hc. apply Hc.
      apply valid_cons. split; [lia|done].
    + assert (ix 0 = i) as -> by lia. specialize (Hc' _ Hix). rewrite <- !Z.add_assoc in Hc'. exact Hc'.
  - unfold volume. cbn [foldr]. fold (volume sizes). intros e He. rewrite Hu' by nia. apply Hu. unfold volume. cbn [foldr].
    fold (volume sizes). nia.
Qed.

Lemma readable_tail i x st sizes steps inp a : 0 ≤ i < x → readable (x :: sizes) (st :: steps) inp a →
  readable sizes steps inp (a + i * st).
Proof.
  intros Hi Hr ix Hv. specialize (Hr (cons_index i ix) (valid_tail _ _ _ _ Hi Hv)).
  rewrite dot_cons, dot_tail in Hr. unfold cons_index in Hr. simpl in Hr. lia.
Qed.

(** ** Sizes *)

Lemma zlen_snoc {A} (l : list A) x : zlen (l ++ [x]) = zlen l + 1.
Proof. rewrite length_app. simpl. lia. Qed.

(** The sizes can be computed in 32 bits, even when a dimension is empty. *)
Definition bounded (shape : list Z) : Prop := nonneg shape ∧ volume (Z.max 1 <$> shape) ≤ int32_max.

Lemma volume_max_pos l : 1 ≤ volume (Z.max 1 <$> l).
Proof. unfold volume. induction l as [|x l IH]; [done|]. rewrite fmap_cons. cbn [foldr]. pose proof (Z.le_max_l 1 x). nia. Qed.

Lemma volume_le_max l : nonneg l → volume l ≤ volume (Z.max 1 <$> l).
Proof.
  unfold volume. induction 1 as [|x l Hx Hl IH]; [done|]. rewrite fmap_cons. cbn [foldr].
  pose proof (volume_nonneg l Hl) as Hv. unfold volume in Hv. apply Z.mul_le_mono_nonneg; [done|apply Z.le_max_r|done|exact IH].
Qed.

Lemma bounded_app l k : bounded (l ++ k) → bounded l ∧ bounded k.
Proof.
  intros [[Hl Hk]%Forall_app Hm]. rewrite fmap_app, volume_app in Hm.
  pose proof (volume_max_pos l). pose proof (volume_max_pos k). repeat split; [done|nia|done|nia].
Qed.

Lemma bounded_volume l : bounded l → 0 ≤ volume l ≤ int32_max.
Proof. intros [Hl Hm]. pose proof (volume_nonneg l Hl). pose proof (volume_le_max l Hl). lia. Qed.

Lemma bounded_int32 l : bounded l → is_int32 (volume l).
Proof. intros Hb%bounded_volume. unfold is_int32, int32_min, int32_max in *. lia. Qed.

Lemma bounded_stride l d : bounded l → 0 ≤ stride l d ≤ int32_max.
Proof. intros Hb. rewrite <- (take_drop (Z.to_nat (d + 1)) l) in Hb. by apply bounded_app in Hb as [_ ?%bounded_volume]. Qed.

Lemma bounded_perm l k : l ≡ₚ k → bounded l → bounded k.
Proof.
  intros Hp [Hl Hm]. split; [unfold nonneg in *; by rewrite <- Hp|]. by rewrite <- (volume_perm _ _ (fmap_Permutation _ _ _ Hp)).
Qed.
