(* ===== verification/KernelUtil.v ===== *)
(** * What kernels share ([src/tflite/kernels/kernel_util.{h,cc}])

    The tensors of a kernel, as far as kernels that move elements look at them. *)

From S2P Require Import Prelude ArenaPlanner Subgraph.

(** A tensor with its elements in the units that are moved: bytes that hold two
    elements of four bits, or else one integer for each element. *)
Record OpTensor := {
  elem_type : TfLiteType;
  shape : list Z;
  allocation : TfLiteAllocationType;
  size_in_bytes : Z;
  contents : list Z
}.

Definition set_contents (l : list Z) (t : OpTensor) : OpTensor :=
  {| elem_type := elem_type t; shape := shape t; allocation := allocation t; size_in_bytes := size_in_bytes t; contents := l |}.

Definition TfLiteTypeGetSizeBits (t : TfLiteType) : Z :=
  match t with
  | kTfLiteInt2 => 2
  | kTfLiteInt4 | kTfLiteUInt4 => 4
  | kTfLiteUInt8 | kTfLiteInt8 | kTfLiteBool => 8
  | kTfLiteUInt16 | kTfLiteInt16 | kTfLiteFloat16 | kTfLiteBFloat16 => 16
  | kTfLiteFloat32 | kTfLiteInt32 | kTfLiteUInt32 => 32
  | kTfLiteInt64 | kTfLiteUInt64 | kTfLiteFloat64 | kTfLiteComplex64 => 64
  | kTfLiteComplex128 => 128
  | kTfLiteString | kTfLiteNoType | kTfLiteResource | kTfLiteVariant => 0
  end.

Definition IsConstantOrPersistentTensor (t : OpTensor) : bool :=
  bool_decide (allocation t = kTfLiteMmapRo) || bool_decide (allocation t = kTfLitePersistentRo).
Definition IsDynamicTensor (t : OpTensor) : bool := bool_decide (allocation t = kTfLiteDynamic).
Definition SetTensorToDynamic (t : OpTensor) : OpTensor :=
  if IsDynamicTensor t then t
  else {| elem_type := elem_type t; shape := shape t; allocation := kTfLiteDynamic; size_in_bytes := size_in_bytes t; contents := [] |}.

Definition SetTensorToPersistentRo (t : OpTensor) : OpTensor :=
  if bool_decide (allocation t = kTfLitePersistentRo) then t
  else {| elem_type := elem_type t; shape := shape t; allocation := kTfLitePersistentRo; size_in_bytes := size_in_bytes t; contents := [] |}.

(** The product of the dimensions. *)
Definition FlatSize {S} (dims : list Z) : M S Z := fold_m dims 1 (λ buffer_size d, int32 (buffer_size * d)).

(** [NumElements]: the product in 64 bits. Debug builds stop at a count that is not
    positive and assert that it fits into 32 bits; this is the release build. *)
Definition NumElements {S} (dims : list Z) : M S Z := fold_m dims 1 (λ count d, int64 (count * d)).

(** A computation on a local buffer. *)
Definition on_buffer {S} (buffer : list Z) (m : M (list Z) unit) : M S (list Z) :=
  match m buffer with Done _ b => mret b | _ => undefined end.

(** [TFLITE_CHECK]: the process ends. *)
Definition check {S} (b : bool) : M S unit := if b then mret tt else undefined.

(** A shape with dimensions of one element put before it. *)
Definition ExtendedShape {S} (new_shape_size : Z) (s : list Z) : M S (list Z) :=
  check (zlen s <=? new_shape_size);;
  mret (replicate (Z.to_nat (new_shape_size - zlen s)) 1 ++ s).
