(* ===== verification/KernelProofs.v ===== *)
(** * Lemmas that the theorems on kernels share *)

From S2P Require Import Prelude ArenaPlanner Subgraph TensorLayout TensorCopy KernelUtil.

(** ** Computations whose outcome is known *)

Lemma bind_done {S A B} (m : M S A) (f : A → M S B) s a s' : m s = Done a s' → (m ≫= f) s = f a s'.
Proof. intros Hm. unfold mbind, M_bind. by rewrite Hm. Qed.

Lemma at_done {S A} (l : list A) i x (s : S) : zget l i = Some x → at_ l i s = Done x s.
Proof. intros Hi. unfold at_. by rewrite Hi. Qed.

Lemma upd_done {S A} (l : list A) i x (s : S) : 0 ≤ i < zlen l → upd l i x s = Done (zset i x l) s.
Proof. intros Hi. unfold upd. destruct (zget_is_Some l i Hi) as [y Hy]. by rewrite Hy. Qed.

Lemma ensure_status_done {S} (m k : M S TfLiteStatus) st s s' :
  m s = Done st s' → ensure_status m k s = if decide (st = kTfLiteOk) then k s' else Done st s'.
Proof. intros Hm. unfold ensure_status. rewrite (bind_done _ _ _ _ _ Hm). by case_decide. Qed.

(** The status with which a kernel ends that first asks for [first] and fails only if
    that fails: the one of [first], and nothing is done after a failure. *)
Definition fails_only_as {S} (first : outcome S TfLiteStatus) (st : TfLiteStatus) (s' : S) : Prop :=
  ∃ st1 s1, first = Done st1 s1 ∧ st = st1 ∧ (st1 ≠ kTfLiteOk → s' = s1).

(** A call of another component, of whose outcome [Q] is known. *)
Lemma wp_ensure_first {S} (first k : M S TfLiteStatus) Q R s :
  wp first Q (λ _, False) s →
  (∀ s', Q kTfLiteOk s' → wp k (λ st s'', st = kTfLiteOk ∧ R s'') (λ _, False) s') →
  wp (ensure_status first k) (λ st s', fails_only_as (first s) st s' ∧ (st = kTfLiteOk → R s')) (λ _, False) s.
Proof.
  intros Hf Hk. unfold wp in *. unfold ensure_status, mbind, M_bind. destruct (first s) as [st s'| |]; [|done..].
  case_decide as Hst; simpl; [|split; [by exists st, s'|done]]. subst. specialize (Hk s' Hf).
  destruct (k s') as [st' s''| |]; [|done..]. destruct Hk as [-> HR]. split; [|done]. by exists kTfLiteOk, s'.
Qed.

(** ** Buffers and sizes *)

Lemma wp_on_buffer {S} buf m (R : list Z → Prop) (Q : list Z → S → Prop) E s :
  wp m (λ _ b, R b) (λ _, False) buf → (∀ b, R b → Q b s) → wp (on_buffer buf m) Q E s.
Proof. unfold on_buffer, wp at 1. destruct (m buf) as [[] b| |]; [|done..]. intros Hb HQ. by apply wp_ret, HQ. Qed.

Lemma wp_FlatSize {S} shape (Q : Z → S → Prop) E s : bounded shape → Q (volume shape) s → wp (FlatSize shape) Q E s.
Proof.
  intros Hb HQ. unfold FlatSize.
  apply (wp_fold_pure _ _ _ (λ done n, n = volume done)); [done| |by intros ? ->].
  intros done d todo n -> ->. apply wp_int32; [|split; [done|rewrite volume_app; unfold volume; simpl; lia]].
  replace (done ++ d :: todo) with ((done ++ [d]) ++ todo) in Hb by (by rewrite <- app_assoc).
  apply bounded_app in Hb as [Hb _]. apply bounded_int32 in Hb. rewrite volume_app in Hb. unfold volume in Hb at 2. simpl in Hb.
  by rewrite Z.mul_1_r in Hb.
Qed.
