(* ===== verification/KernelBroadcast.v ===== *)
(** * Broadcasting in kernels

    The shape of the result ([CalculateShapeForBroadcast] of
    [src/tflite/kernels/kernel_util.cc]) and the descriptions of arrays and nested
    loops with which reference implementations walk through operands of different
    shapes ([src/tflite/kernels/internal/common.h]). *)

From S2P Require Import Prelude ArenaPlanner Subgraph KernelUtil.

(** ** The shape of the result *)

Definition HaveSameShapes (input1 input2 : OpTensor) : bool := bool_decide (shape input1 = shape input2).

(** [i >= dims ? 1 : SizeOfDimension(input, dims - i - 1)] *)
Definition SizeFromRight {S} (dims : list Z) (i : Z) : M S Z :=
  if zlen dims <=? i then mret 1 else at_ dims (zlen dims - i - 1).

(** The loop over the dimensions from the right, which returns early when one has no
    common size. *)
Fixpoint fill_shape {S} (dim : Z → M S (option Z)) (out_dims : Z) (shape : list Z) (indices : list Z) :
    M S (option (list Z)) :=
  match indices with
  | [] => mret (Some shape)
  | i :: indices' =>
      d ← dim i;
      match d with
      | None => mret None
      | Some d => shape ← upd shape (out_dims - i - 1) d; fill_shape dim out_dims shape indices'
      end
  end.

Definition CalculateShapeForBroadcast {S} (input1 input2 : list Z) : M S (option (list Z)) :=
  let out_dims := Z.max (zlen input1) (zlen input2) in
  fill_shape (λ i,
    d1 ← SizeFromRight input1 i;
    d2 ← SizeFromRight input2 i;
    if negb ((d1 =? d2) || (d1 =? 1) || (d2 =? 1)) then mret None
    else if (d1 =? 0) || (d2 =? 0) then mret (Some 0)
    else mret (Some (Z.max d1 d2))) out_dims (replicate (Z.to_nat out_dims) 0) (range 0 out_dims).

(** The overload with three inputs. *)
Definition CalculateShapeForBroadcast3 {S} (input1 input2 input3 : list Z) : M S (option (list Z)) :=
  let out_dims := Z.max (Z.max (zlen input1) (zlen input2)) (zlen input3) in
  fill_shape (λ i,
    d1 ← SizeFromRight input1 i;
    d2 ← SizeFromRight input2 i;
    d3 ← SizeFromRight input3 i;
    let min_value := Z.min (Z.min d1 d2) d3 in
    let max_value := Z.max (Z.max d1 d2) d3 in
    let max_value := if min_value =? 0 then 0 else max_value in
    if negb ((d1 =? 1) || (d1 =? max_value)) || negb ((d2 =? 1) || (d2 =? max_value))
       || negb ((d3 =? 1) || (d3 =? max_value)) then mret None
    else mret (Some max_value)) out_dims (replicate (Z.to_nat out_dims) 0) (range 0 out_dims).

(** ** Descriptions of arrays *)

Record NdArrayDesc := { extents : list Z; strides : list Z }.

(** From the last dimension to the first; the description starts uninitialised. *)
Definition CopyDimsToDesc {S} (n : Z) (input_shape : list Z) : M S NdArrayDesc :=
  let zeros := replicate (Z.to_nat n) 0 in
  '(desc, _) ← fold_m (reverse (range 0 n)) ({| extents := zeros; strides := zeros |}, 1) (λ '(desc, desc_stride) i,
    d ← at_ input_shape i;
    e ← upd (extents desc) i d;
    s ← upd (strides desc) i desc_stride;
    desc_stride ← int32 (desc_stride * d);
    mret ({| extents := e; strides := s |}, desc_stride));
  mret desc.

(** An extent of one element is made [extent] times the same element. *)
Definition repeat_dim {S} (desc : NdArrayDesc) (i extent : Z) : M S NdArrayDesc :=
  s ← upd (strides desc) i 0;
  e ← upd (extents desc) i extent;
  mret {| extents := e; strides := s |}.

Definition NdArrayDescsForElementwiseBroadcast {S} (n : Z) (input0_shape input1_shape : list Z) :
    M S (NdArrayDesc * NdArrayDesc) :=
  extended_input0_shape ← ExtendedShape n input0_shape;
  extended_input1_shape ← ExtendedShape n input1_shape;
  desc0 ← CopyDimsToDesc n extended_input0_shape;
  desc1 ← CopyDimsToDesc n extended_input1_shape;
  fold_m (range 0 n) (desc0, desc1) (λ '(desc0, desc1) i,
    extent0 ← at_ extended_input0_shape i;
    extent1 ← at_ extended_input1_shape i;
    if extent0 =? extent1 then mret (desc0, desc1)
    else if extent0 =? 1 then desc0 ← repeat_dim desc0 i extent1; mret (desc0, desc1)
    else desc1 ← repeat_dim desc1 i extent0; mret (desc0, desc1)).

(** [indexes[0] * desc.strides[0] + ... + indexes[4] * desc.strides[4]] *)
Definition SubscriptToIndex {S} (desc : NdArrayDesc) (indexes : list Z) : M S Z :=
  fold_m (range 0 5) 0 (λ sum d,
    i ← at_ indexes d;
    s ← at_ (strides desc) d;
    p ← int32 (i * s);
    int32 (sum + p)).

(** The nested loops; [n] is the number of dimensions inside [dim]. The entries of
    [indexes] from [dim] on are overwritten before [calc] reads them. *)
Fixpoint NDOpsHelperImpl {S} (n : nat) (dim : Z) (output : NdArrayDesc) (calc : list Z → M S unit)
    (indexes : list Z) : M S unit :=
  extent ← at_ (extents output) dim;
  for_each (range 0 extent) (λ i,
    indexes ← upd indexes dim i;
    match n with
    | O => calc indexes
    | Datatypes.S n' => NDOpsHelperImpl n' (dim + 1) output calc indexes
    end).

Definition NDOpsHelper {S} (n : nat) (output : NdArrayDesc) (calc : list Z → M S unit) : M S unit :=
  NDOpsHelperImpl (n - 1) 0 output calc (replicate n 0).
