(* ===== verification/MaximumMinimum.v ===== *)
(** * The maximum and minimum kernels ([src/tflite/kernels/maximum_minimum.cc])

    [Prepare] and [Eval<kReference, ...>], as [Register_MAXIMUM_REF] and
    [Register_MINIMUM_REF] register them, with the reference implementation
    ([src/tflite/kernels/internal/reference/maximum_minimum.h]). Elements are integers;
    those of floating-point types stand for the numbers with these bits. *)

From S2P Require Import Prelude ArenaPlanner Subgraph PackedInts KernelUtil KernelBroadcast.

(** ** Data *)

Record OpContext := { input1 : OpTensor; input2 : OpTensor; output : OpTensor }.

Definition set_output (t : OpTensor) (c : OpContext) : OpContext := {| input1 := input1 c; input2 := input2 c; output := t |}.
Definition set_type (ty : TfLiteType) (t : OpTensor) : OpTensor :=
  {| elem_type := ty; shape := shape t; allocation := allocation t; size_in_bytes := size_in_bytes t; contents := contents t |}.

Inductive op_type := MaximumOp | MinimumOp.

Definition is_float (ty : TfLiteType) : bool :=
  match ty with kTfLiteFloat32 | kTfLiteFloat16 | kTfLiteBFloat16 => true | _ => false end.

(** The types [Eval] knows. *)
Definition supported (ty : TfLiteType) : bool :=
  match ty with
  | kTfLiteFloat32 | kTfLiteUInt8 | kTfLiteInt8 | kTfLiteInt32 | kTfLiteInt64 | kTfLiteInt16
  | kTfLiteFloat16 | kTfLiteBFloat16 => true
  | _ => false
  end.

Section kernel.
(** [<] of floating-point numbers, on their bits. *)
Context (float_less : TfLiteType → Z → Z → bool).
(** [context->ResizeTensor] on the output. *)
Context (ResizeTensor : list Z → M OpContext TfLiteStatus).

Definition less (ty : TfLiteType) (x y : Z) : bool := if is_float ty then float_less ty x y else x <? y.

Definition op (o : op_type) (ty : TfLiteType) (el1 el2 : Z) : Z :=
  match o with
  | MaximumOp => if less ty el2 el1 then el1 else el2
  | MinimumOp => if less ty el1 el2 then el1 else el2
  end.

Definition Prepare (num_inputs num_outputs : Z) : M OpContext TfLiteStatus :=
  TF_LITE_ENSURE (num_inputs =? 2) ;!
  TF_LITE_ENSURE (num_outputs =? 1) ;!
  c ← get;
  TF_LITE_ENSURE (bool_decide (elem_type (input1 c) = elem_type (input2 c))) ;!
  modify (λ c, set_output (set_type (elem_type (input1 c)) (output c)) c);;
  if negb (HaveSameShapes (input1 c) (input2 c)) then
    output_size ← CalculateShapeForBroadcast (shape (input1 c)) (shape (input2 c));
    match output_size with
    | None => mret kTfLiteError
    | Some output_size => ResizeTensor output_size
    end
  else ResizeTensor (shape (input1 c)).

Definition MatchingElementsSize {S} (s check_shape_0 check_shape_1 : list Z) : M S Z :=
  size_1 ← FlatSize s;
  size_2 ← FlatSize check_shape_0;
  size_3 ← FlatSize check_shape_1;
  check (size_1 =? size_2);;
  check (size_2 =? size_3);;
  mret size_1.

(** Writes to the output's data what it computes from the inputs' data. *)
Definition MaximumMinimumBroadcastSlow (f : Z → Z → Z) (input1_shape input1_data input2_shape input2_data
    output_shape : list Z) : M (list Z) unit :=
  if decide (input1_shape = input2_shape) then
    flat_size ← MatchingElementsSize input1_shape input2_shape output_shape;
    for_each (range 0 flat_size) (λ i,
      x ← at_ input1_data i;
      y ← at_ input2_data i;
      store i (f x y))
  else
    '(desc1, desc2) ← NdArrayDescsForElementwiseBroadcast 5 input1_shape input2_shape;
    extended_output_shape ← ExtendedShape 5 output_shape;
    output_desc ← CopyDimsToDesc 5 extended_output_shape;
    NDOpsHelper 5 output_desc (λ indexes,
      o ← SubscriptToIndex output_desc indexes;
      i1 ← SubscriptToIndex desc1 indexes;
      x ← at_ input1_data i1;
      i2 ← SubscriptToIndex desc2 indexes;
      y ← at_ input2_data i2;
      store o (f x y)).

(** [Eval<kReference, op_type>]. *)
Definition Eval (o : op_type) : M OpContext TfLiteStatus :=
  c ← get;
  n1 ← NumElements (shape (input1 c));
  empty ← (if n1 =? 0 then mret true else n2 ← NumElements (shape (input2 c)); mret (n2 =? 0));
  if (empty : bool) then mret kTfLiteOk
  else if supported (elem_type (output c)) then
    out ← on_buffer (contents (output c))
            (MaximumMinimumBroadcastSlow (op o (elem_type (output c))) (shape (input1 c)) (contents (input1 c))
               (shape (input2 c)) (contents (input2 c)) (shape (output c)));
    modify (λ c, set_output (set_contents out (output c)) c);;
    mret kTfLiteOk
  else mret kTfLiteError.
End kernel.
