(* ===== verification/Transpose.v ===== *)
(** * The transpose kernel ([src/tflite/kernels/transpose.cc])

    [Prepare] and [Eval] of the operation with the reference implementation
    ([src/tflite/kernels/internal/reference/transpose.h]). Elements of up to 64 bits
    are moved as integers of their size; those of four bits are unpacked first. *)

From S2P Require Import Prelude ArenaPlanner Subgraph PackedInts KernelUtil.

(** ** Data *)

Record TransposeContext := { input : OpTensor; perm : OpTensor; output : OpTensor }.

Definition set_output (t : OpTensor) (c : TransposeContext) : TransposeContext :=
  {| input := input c; perm := perm c; output := t |}.

Definition kTransposeMaxDimensions : Z := 6.

(** ** The reference implementation

    The arrays have [kTransposeMaxDimensions] places; what is not written is zero here
    and is not read. *)

Definition SetupTransposeStrides {S} (dims_data : list Z) (dims : Z) : M S (list Z) :=
  stride ← upd (replicate (Z.to_nat kTransposeMaxDimensions) 0) (dims - 1) 1;
  fold_m (reverse (range 0 (dims - 1))) stride (λ stride i,
    next ← at_ stride (i + 1);
    d ← at_ dims_data (i + 1);
    s ← int32 (next * d);
    upd stride i s).

(** Writes from [output_data] on what it reads from [input_data] on; [n] is the number
    of dimensions inside the current one. *)
Fixpoint TransposeImpl (n : nat) (input : list Z) (depth dims : Z) (perm : list Z) (input_data : Z) (input_stride : list Z)
    (output_data : Z) (output_stride output_shape : list Z) : M (list Z) unit :=
  dimension_size ← at_ output_shape depth;
  if depth =? dims - 1 then
    p ← at_ perm depth;
    loop_stride ← at_ input_stride p;
    _ ← fold_m (range 0 dimension_size) input_data (λ input_data i,
          x ← at_ input input_data;
          store (output_data + i) x;;
          mret (input_data + loop_stride));
    mret tt
  else
    match n with
    | O => undefined
    | S n' =>
        _ ← fold_m (range 0 dimension_size) (input_data, output_data) (λ '(input_data, output_data) _,
              TransposeImpl n' input (depth + 1) dims perm input_data input_stride output_data output_stride output_shape;;
              p ← at_ perm depth;
              input_step ← at_ input_stride p;
              output_step ← at_ output_stride depth;
              mret (input_data + input_step, output_data + output_step));
        mret tt
    end.

Definition Transpose (perm : list Z) (input_shape input_data output_shape : list Z) : M (list Z) unit :=
  let dims := zlen input_shape in
  input_stride ← SetupTransposeStrides input_shape dims;
  output_stride ← SetupTransposeStrides output_shape dims;
  TransposeImpl (Z.to_nat (dims - 1)) input_data 0 dims perm 0 input_stride 0 output_stride output_shape.

(** ** The kernel *)

Section kernel.
(** [context->ResizeTensor] on the output. *)
Context (ResizeTensor : list Z → M TransposeContext TfLiteStatus).

(** The permutation with negative entries counted from the end; none if an entry is
    out of bounds. *)
Fixpoint new_perm_data {S} (perm_data : list Z) (dims : Z) (indices : list Z) : M S (option (list Z)) :=
  match indices with
  | [] => mret (Some [])
  | idx :: indices' =>
      p ← at_ perm_data idx;
      if (- dims <=? p) && (p <? dims) then
        rest ← new_perm_data perm_data dims indices';
        mret ((λ l, (if p <? 0 then p + dims else p) :: l) <$> rest)
      else mret None
  end.

Definition ResizeOutputTensor : M TransposeContext TfLiteStatus :=
  c ← get;
  let dims := zlen (shape (input c)) in
  TF_LITE_ENSURE (zlen (shape (perm c)) =? 1) ;!
  size ← at_ (shape (perm c)) 0;
  TF_LITE_ENSURE (size =? dims) ;!
  new_perm ← new_perm_data (contents (perm c)) dims (range 0 dims);
  match new_perm with
  | None => mret kTfLiteError
  | Some new_perm =>
      output_size ← map_m (λ p, at_ (shape (input c)) p) new_perm;
      ResizeTensor output_size
  end.

Definition Prepare (num_inputs num_outputs : Z) : M TransposeContext TfLiteStatus :=
  TF_LITE_ENSURE (num_inputs =? 2) ;!
  TF_LITE_ENSURE (num_outputs =? 1) ;!
  c ← get;
  TF_LITE_ENSURE (zlen (shape (input c)) <=? kTransposeMaxDimensions) ;!
  TF_LITE_ENSURE (bool_decide (elem_type (input c) = elem_type (output c))) ;!
  if negb (IsConstantOrPersistentTensor (perm c)) then
    modify (λ c, set_output (SetTensorToDynamic (output c)) c);;
    mret kTfLiteOk
  else ResizeOutputTensor.

(** [params.perm]. *)
Definition fill_perm {S} (perm_data : list Z) (size : Z) : M S (list Z) :=
  fold_m (range 0 size) (replicate (Z.to_nat kTransposeMaxDimensions) 0) (λ l i,
    p ← at_ perm_data i;
    upd l i (if p <? 0 then p + size else p)).

(** What [Eval] does with the data. *)
Definition transpose_data : M TransposeContext TfLiteStatus :=
  c ← get;
  size ← at_ (shape (perm c)) 0;
  params ← fill_perm (contents (perm c)) size;
  let write l := modify (λ c, set_output (set_contents l (output c)) c) in
  match TfLiteTypeGetSizeBits (elem_type (input c)) with
  | 4 =>
      let bytes_unpacked := size_in_bytes (input c) * 2 in
      n ← FlatSize (shape (input c));
      unpacked_input_data ← on_buffer (replicate (Z.to_nat bytes_unpacked) 0)
                              (UnpackPackedIntToInt8 (contents (input c)) n 4 false);
      unpacked_output_data ← on_buffer (replicate (Z.to_nat bytes_unpacked) 0)
                               (Transpose params (shape (input c)) unpacked_input_data (shape (output c)));
      packed ← on_buffer (contents (output c)) (PackInt8IntoDenseInt unpacked_output_data n 4);
      write packed;;
      mret kTfLiteOk
  | 8 | 16 | 32 | 64 =>
      out ← on_buffer (contents (output c)) (Transpose params (shape (input c)) (contents (input c)) (shape (output c)));
      write out;;
      mret kTfLiteOk
  | _ => mret kTfLiteError
  end.

Definition Eval : M TransposeContext TfLiteStatus :=
  c ← get;
  (if IsDynamicTensor (output c) then ResizeOutputTensor else mret kTfLiteOk) ;!
  transpose_data.
End kernel.
