(* ===== verification/TransposeProofs.v ===== *)
(** * The transpose kernel moves every element to its permuted index

    The recursion copies between two layouts with any strides; with the strides of the
    two shapes that is the transposition, which the inverse permutation undoes. *)

From S2P Require Import Prelude TensorLayout TensorCopy PackedInts KernelUtil Transpose.

(** ** The recursion *)

Section recursion.
Context (inp perm input_stride output_stride output_shape : list Z) (dims : Z).
Hypothesis shape_length : zlen output_shape = dims.
Hypothesis perm_length : dims ≤ zlen perm.
Hypothesis strides : ∀ k, 0 ≤ k < dims → 0 ≤ vat 0 perm k < zlen input_stride.
Hypothesis shape_nonneg : nonneg output_shape.

Definition sizes_from (d : Z) : list Z := vat 0 output_shape <$> range d dims.
Definition steps_from (d : Z) : list Z := (λ k, vat 0 input_stride (vat 0 perm k)) <$> range d dims.

Hypothesis output_strides : ∀ k, 0 ≤ k < dims → zget output_stride k = Some (volume (sizes_from (k + 1))).

Lemma sizes_from_cons d : d < dims → sizes_from d = vat 0 output_shape d :: sizes_from (d + 1).
Proof. intros Hd. unfold sizes_from. by rewrite range_cons. Qed.

Lemma steps_from_cons d : d < dims → steps_from d = vat 0 input_stride (vat 0 perm d) :: steps_from (d + 1).
Proof. intros Hd. unfold steps_from. by rewrite range_cons. Qed.

Lemma sizes_from_nonneg d : 0 ≤ d → nonneg (sizes_from d).
Proof.
  intros Hd. unfold nonneg, sizes_from. rewrite Forall_fmap, Forall_forall. intros k Hk%elem_of_range. simpl.
  unfold nonneg in shape_nonneg. rewrite Forall_forall in shape_nonneg. apply shape_nonneg. eapply zget_elem, vat_zget. lia.
Qed.

Lemma wp_step_stride k (Q : Z → list Z → Prop) E s : 0 ≤ k < dims → Q (vat 0 input_stride (vat 0 perm k)) s →
  wp (p ← at_ perm k; at_ input_stride p) Q E s.
Proof.
  intros Hk HQ. apply wp_bind. eapply wp_at; [apply (vat_zget 0); lia|]. eapply wp_at; [by apply (vat_zget 0), strides|done].
Qed.

(** The state of the loop of one level. *)
Definition copied_rows (d a b : Z) (buf : list Z) (i : Z) (buf' : list Z) : Prop :=
  copied (i :: sizes_from (d + 1)) (steps_from d) inp a b buf buf'.

Definition step_of (d : Z) : Z := vat 0 input_stride (vat 0 perm d).

Lemma copied_rows_all d a b buf n buf' : 0 ≤ d < dims → n = vat 0 output_shape d →
  copied_rows d a b buf n buf' → copied (sizes_from d) (steps_from d) inp a b buf buf'.
Proof. intros Hd -> Hc. by rewrite sizes_from_cons by lia. Qed.

Lemma copied_rows_step d a b buf i buf' buf'' : 0 ≤ d < dims → 0 ≤ i → copied_rows d a b buf i buf' →
  copied (sizes_from (d + 1)) (steps_from (d + 1)) inp (a + i * step_of d) (b + i * volume (sizes_from (d + 1))) buf' buf'' →
  copied_rows d a b buf (i + 1) buf''.
Proof.
  intros Hd Hi Hc Hc'. unfold copied_rows in *. rewrite steps_from_cons in * by lia.
  apply (copied_step _ _ _ _ _ _ _ _ buf'); [apply sizes_from_nonneg; lia|done..].
Qed.

Lemma readable_row d a i : 0 ≤ d < dims → 0 ≤ i < vat 0 output_shape d → readable (sizes_from d) (steps_from d) inp a →
  readable (sizes_from (d + 1)) (steps_from (d + 1)) inp (a + i * step_of d).
Proof.
  intros Hd Hi. rewrite sizes_from_cons, steps_from_cons by lia. intros Hr.
  by apply (readable_tail i (vat 0 output_shape d)).
Qed.

(** The rows lie in what the level writes. *)
Lemma row_bound d b i m : 0 ≤ d < dims → 0 ≤ i < vat 0 output_shape d → 0 ≤ b → b + volume (sizes_from d) ≤ m →
  0 ≤ b + i * volume (sizes_from (d + 1)) ∧ b + i * volume (sizes_from (d + 1)) + volume (sizes_from (d + 1)) ≤ m.
Proof.
  intros Hd Hi Hb. rewrite (sizes_from_cons d) by lia. pose proof (volume_nonneg _ (sizes_from_nonneg (d + 1) ltac:(lia))).
  change (volume (vat 0 output_shape d :: sizes_from (d + 1))) with (vat 0 output_shape d * volume (sizes_from (d + 1))). nia.
Qed.

Lemma last_level : sizes_from (dims - 1 + 1) = [] ∧ steps_from (dims - 1 + 1) = [].
Proof. unfold sizes_from, steps_from. by rewrite range_nil by lia. Qed.

Definition copies_level (n : nat) : Prop := ∀ d a b buf,
  0 ≤ d → d + Z.of_nat n = dims - 1 → readable (sizes_from d) (steps_from d) inp a →
  0 ≤ b → b + volume (sizes_from d) ≤ zlen buf →
  wp (TransposeImpl n inp d dims perm a input_stride b output_stride output_shape)
     (λ _ buf', copied (sizes_from d) (steps_from d) inp a b buf buf') (λ _, False) buf.

Lemma copies_last_level : copies_level 0.
Proof.
  intros d a b buf Hd Hn Hr Hb Hlen. assert (d = dims - 1) as -> by lia. cbn [TransposeImpl].
  apply wp_bind. eapply wp_at; [apply (vat_zget 0); lia|]. rewrite Z.eqb_refl.
  apply wp_bind. eapply wp_at; [apply (vat_zget 0); lia|].
  apply wp_bind. eapply wp_at; [by apply (vat_zget 0), strides; lia|]. apply wp_bind.
  eapply wp_post; [|apply (wp_fold_m (λ done a' buf', a' = a + zlen done * step_of (dims - 1) ∧
    copied_rows (dims - 1) a b buf (zlen done) buf'))].
  - intros a' buf' [_ Hc]. apply wp_ret. rewrite range_length in Hc.
    eapply copied_rows_all; [lia|reflexivity|]. unfold nonneg in shape_nonneg. rewrite Forall_forall in shape_nonneg.
    assert (0 ≤ vat 0 output_shape (dims - 1)) by (apply shape_nonneg; eapply zget_elem, vat_zget; lia).
    by rewrite Z.sub_0_r, Z2Nat.id in Hc by done.
  - split; [simpl; lia|apply copied_0].
  - intros done i todo a' buf' Hs [-> Hc]. destruct (range_split _ _ _ _ Hs) as [-> Hlt].
    pose proof (readable_row (dims - 1) a (zlen done) ltac:(lia) ltac:(lia) Hr) as Hr'.
    destruct (row_bound (dims - 1) b (zlen done) (zlen buf)) as [H1 H2]; [lia..|]. destruct last_level as [Hs0 Hst0].
    assert (length buf' = length buf) as Hl by apply Hc.
    rewrite Hs0 in H1, H2. change (volume []) with 1 in H1, H2. rewrite Hs0, Hst0 in Hr'. specialize (Hr' (λ _, 0)).
    change (dot [] _) with 0 in Hr'. rewrite Z.add_0_r in Hr'.
    assert (valid [] (λ _, 0)) as Hv by (intros ??[??]%zget_range; simpl in *; lia).
    apply wp_bind. eapply wp_at; [by apply (vat_zget 0), Hr'|]. apply wp_bind. apply wp_vset; [lia|]. apply wp_ret.
    rewrite zlen_snoc. split; [change (vat 0 input_stride (vat 0 perm (dims - 1))) with (step_of (dims - 1)); lia|].
    apply (copied_rows_step _ _ _ _ _ buf'); [lia|lia|done|]. rewrite Hs0, Hst0. change (volume []) with 1. rewrite Z.mul_1_r.
    apply copied_nil; [by apply vat_zget, Hr'|lia].
Qed.

Lemma copies_next n : copies_level n → copies_level (S n).
Proof.
  intros IH d a b buf Hd Hn Hr Hb Hlen. cbn [TransposeImpl].
  apply wp_bind. eapply wp_at; [apply (vat_zget 0); lia|]. rewrite (proj2 (Z.eqb_neq _ _)) by lia. apply wp_bind.
  eapply wp_post; [|apply (wp_fold_m (λ done '(a', b') buf', a' = a + zlen done * step_of d ∧
    b' = b + zlen done * volume (sizes_from (d + 1)) ∧ copied_rows d a b buf (zlen done) buf'))].
  - intros [a' b'] buf' (_ & _ & Hc). apply wp_ret. rewrite range_length in Hc.
    eapply copied_rows_all; [lia|reflexivity|]. unfold nonneg in shape_nonneg. rewrite Forall_forall in shape_nonneg.
    assert (0 ≤ vat 0 output_shape d) by (apply shape_nonneg; eapply zget_elem, vat_zget; lia).
    by rewrite Z.sub_0_r, Z2Nat.id in Hc by done.
  - split_and!; [simpl; lia..|apply copied_0].
  - intros done i todo [a' b'] buf' Hs (-> & -> & Hc). destruct (range_split _ _ _ _ Hs) as [-> Hlt].
    destruct (row_bound d b (zlen done) (zlen buf)) as [H1 H2]; [lia..|]. assert (length buf' = length buf) as Hl by apply Hc.
    apply wp_bind. eapply wp_post; [|apply IH; [lia|lia|by apply readable_row; [lia|lia|]|lia|lia]].
    intros ? buf'' Hc'. simpl in Hc'. apply wp_bind. eapply wp_at; [apply (vat_zget 0); lia|].
    apply wp_bind. eapply wp_at; [by apply (vat_zget 0), strides; lia|]. apply wp_bind.
    eapply wp_at; [by apply output_strides; lia|]. apply wp_ret. rewrite zlen_snoc.
    split_and!; [change (vat 0 input_stride (vat 0 perm d)) with (step_of d); lia|lia|].
    by apply (copied_rows_step _ _ _ _ _ buf'); [lia|lia|..].
Qed.

Lemma wp_TransposeImpl n : copies_level n.
Proof. induction n as [|n IH]; [apply copies_last_level|by apply copies_next]. Qed.
End recursion.

(** ** Strides and sizes *)

Lemma wp_stride_loop {S} shape (n : nat) l (E : S → Prop) s :
  bounded shape → Z.of_nat n < zlen shape → zlen shape ≤ zlen l →
  (∀ k, Z.of_nat n ≤ k < zlen shape → zget l k = Some (stride shape k)) →
  wp (fold_m (reverse (range 0 (Z.of_nat n))) l (λ l i,
        next ← at_ l (i + 1); d ← at_ shape (i + 1); v ← int32 (next * d); upd l i v))
     (λ l' s', s' = s ∧ length l' = length l ∧ ∀ k, 0 ≤ k < zlen shape → zget l' k = Some (stride shape k)) E s.
Proof.
  intros Hb. revert l. induction n as [|n IH]; intros l Hn Hl Hk; [apply wp_ret; split_and!; [done..|]; intros k Hk'; apply Hk; lia|].
  replace (Z.of_nat (Datatypes.S n)) with (Z.of_nat n + 1) in * by lia. rewrite range_snoc, reverse_app by lia. cbn [app reverse fold_m].
  change (reverse [Z.of_nat n]) with [Z.of_nat n]. cbn [app fold_m]. apply wp_bind.
  assert (zget shape (Z.of_nat n + 1) = Some (vat 0 shape (Z.of_nat n + 1))) as Hd by (apply vat_zget; lia).
  pose proof (stride_step _ _ _ Hd) as Hs. replace (Z.of_nat n + 1 - 1) with (Z.of_nat n) in Hs by lia.
  apply wp_bind. eapply wp_at; [apply Hk; lia|]. apply wp_bind. eapply wp_at; [exact Hd|].
  apply wp_bind. rewrite Z.mul_comm, <- Hs. apply wp_int32.
  { pose proof (bounded_stride shape (Z.of_nat n) Hb). unfold is_int32, int32_min, int32_max in *. lia. }
  apply wp_upd; [lia|]. eapply wp_post; [|apply IH; [lia|by rewrite zset_length|]].
  - intros l' s' (-> & Hl' & Hk'). split_and!; [done|by rewrite Hl', zset_length|done].
  - intros k Hk'. destruct (decide (k = Z.of_nat n)) as [->|Hne]; [apply zget_zset_eq; lia|].
    rewrite zget_zset_ne by lia. apply Hk. lia.
Qed.

Lemma wp_SetupTransposeStrides {S} shape (Q : list Z → S → Prop) E s :
  bounded shape → 1 ≤ zlen shape ≤ kTransposeMaxDimensions →
  (∀ l, zlen l = kTransposeMaxDimensions → (∀ k, 0 ≤ k < zlen shape → zget l k = Some (stride shape k)) → Q l s) →
  wp (SetupTransposeStrides shape (zlen shape)) Q E s.
Proof.
  intros Hb Hrank HQ. unfold SetupTransposeStrides. set (l0 := replicate (Z.to_nat kTransposeMaxDimensions) 0).
  assert (zlen l0 = kTransposeMaxDimensions) as Hl0 by done. apply wp_bind, wp_upd; [lia|].
  destruct (Z_of_nat_complete (zlen shape - 1)) as [n Hn]; [lia|]. rewrite Hn.
  eapply wp_post; [|apply wp_stride_loop; [done|lia|rewrite zset_length; lia|]].
  - intros l s' (-> & Hl & Hk). rewrite zset_length in Hl. apply HQ; [by rewrite Hl|done].
  - intros k Hk. assert (k = Z.of_nat n) as -> by lia. rewrite zget_zset_eq, <- Hn by lia. f_equal. symmetry. apply stride_last.
    intros ->. simpl in *. lia.
Qed.

(** ** Permutations of the dimensions *)

Definition permutes (rank : Z) (p : list Z) : Prop := p ≡ₚ range 0 rank.

Definition permute (p s : list Z) : list Z := vat 0 s <$> p.

(** Where an entry is. *)
Definition position (p : list Z) (j : Z) : Z := from_option (λ x, Z.of_nat x.1) 0 (list_find (λ x, x = j) p).

Lemma permutes_length rank p : 0 ≤ rank → permutes rank p → zlen p = rank.
Proof. intros Hr Hp. rewrite (Permutation_length Hp), range_length. lia. Qed.

Lemma permutes_entry rank p k : 0 ≤ rank → permutes rank p → 0 ≤ k < rank → 0 ≤ vat 0 p k < rank.
Proof.
  intros Hr Hp Hk. apply elem_of_range. rewrite <- Hp. eapply zget_elem, vat_zget.
  by rewrite (permutes_length _ _ Hr Hp).
Qed.

Lemma range_NoDup a b : NoDup (range a b).
Proof. apply NoDup_seqZ. Qed.

Lemma position_entry rank p j : permutes rank p → 0 ≤ j < rank → zget p (position p j) = Some j.
Proof.
  intros Hp Hj. unfold position. destruct (list_find_elem_of (λ x, x = j) p j) as [[i x] Hf]; [|done|].
  { rewrite Hp. by apply elem_of_range. }
  rewrite Hf. simpl. apply list_find_Some in Hf as (Hi & -> & _). apply zget_Some. rewrite Nat2Z.id. split; [lia|done].
Qed.

Lemma zget_inj {A} (l : list A) i j x : NoDup l → zget l i = Some x → zget l j = Some x → i = j.
Proof.
  intros Hnd [Hi Hx]%zget_Some [Hj Hy]%zget_Some. pose proof (NoDup_lookup _ _ _ _ Hnd Hx Hy). lia.
Qed.

Lemma entry_position rank p k : permutes rank p → 0 ≤ k < rank → position p (vat 0 p k) = k.
Proof.
  intros Hp Hk. apply (zget_inj p _ _ (vat 0 p k)).
  - rewrite Hp. apply range_NoDup.
  - eapply position_entry; [done|]. apply permutes_entry; [lia|done|done].
  - apply vat_zget. by rewrite (permutes_length rank) by (lia || done).
Qed.

Section permuted.
Context (s p : list Z).
Hypothesis perm : permutes (zlen s) p.

Lemma permute_length : length (permute p s) = length s.
Proof. unfold permute. rewrite length_fmap. pose proof (permutes_length (zlen s) p ltac:(lia) perm). lia. Qed.

Lemma zget_permute k : 0 ≤ k < zlen s → zget (permute p s) k = Some (vat 0 s (vat 0 p k)).
Proof. intros Hk. unfold permute. rewrite zget_fmap, (vat_zget 0 p); [done|]. by rewrite (permutes_length (zlen s) p ltac:(lia) perm). Qed.

Lemma permute_perm : permute p s ≡ₚ s.
Proof. unfold permute. rewrite (fmap_Permutation _ _ _ perm). by rewrite vat_range. Qed.

Lemma valid_permute ix : valid s ix → valid (permute p s) (λ k, ix (vat 0 p k)).
Proof.
  intros Hv d x Hx. pose proof (zget_range _ _ _ Hx) as Hd. rewrite permute_length in Hd. rewrite zget_permute in Hx by done.
  injection Hx as <-. apply Hv, vat_zget. apply permutes_entry; [lia|done|done].
Qed.

Lemma valid_position jx : valid (permute p s) jx → valid s (λ j, jx (position p j)).
Proof.
  intros Hv d x Hx. pose proof (zget_range _ _ _ Hx) as Hd. apply Hv. pose proof (position_entry _ _ _ perm Hd) as Hp.
  unfold permute. rewrite zget_fmap, Hp. simpl. unfold vat. by rewrite Hx.
Qed.

(** Adding up in the order of the permutation. *)
Lemma dot_permute steps ix : zlen steps = zlen s → (∀ k, 0 ≤ k < zlen s → vat 0 steps k = stride s (vat 0 p k)) →
  dot steps (λ k, ix (vat 0 p k)) = flat s ix.
Proof.
  intros Hl Hs. unfold dot, flat. rewrite Hl.
  rewrite (total_ext _ (λ k, (λ j, ix j * stride s j) (vat 0 p k))).
  - rewrite <- (fmap_Permutation (λ j, ix j * stride s j) _ _ perm).
    transitivity (total ((λ j, ix j * stride s j) <$> (vat 0 p <$> range 0 (zlen p)))).
    + rewrite <- list_fmap_compose. by rewrite (permutes_length (zlen s) p ltac:(lia) perm).
    + do 2 f_equal. apply vat_range.
  - intros k Hk%elem_of_range. by rewrite Hs.
Qed.

Lemma readable_permute steps inp : zlen steps = zlen s → (∀ k, 0 ≤ k < zlen s → vat 0 steps k = stride s (vat 0 p k)) →
  volume s ≤ zlen inp → readable (permute p s) steps inp 0.
Proof.
  intros Hl Hs Hv jx Hjx. pose proof (valid_position _ Hjx) as Hix. pose proof (flat_bound s _ Hix) as Hb.
  rewrite <- (dot_permute steps) in Hb by done. rewrite (dot_ext steps _ jx) in Hb; [lia|].
  intros d Hd. simpl. by rewrite (entry_position (zlen s)) by (done || lia).
Qed.
End permuted.

(** ** The reference implementation *)

(** Every element of the input is at the permuted index of the output. *)
Definition transposed {A} (s p : list Z) (f g : Z → A) : Prop :=
  ∀ ix, valid s ix → g (flat (permute p s) (λ k, ix (vat 0 p k))) = f (flat s ix).

Definition begins {A} (l : list A) (n : Z) (k : list A) : Prop := n ≤ zlen k ∧ ∀ i, 0 ≤ i < n → zget k i = zget l i.

Lemma begins_vat l n k i : begins l n k → 0 ≤ i < n → vat 0 k i = vat 0 l i.
Proof. intros [_ Hb] Hi. unfold vat. by rewrite Hb. Qed.

Lemma drop_range (l : list Z) n k : zlen l = n → 0 ≤ k < n → stride l k = volume (vat 0 l <$> range (k + 1) n).
Proof.
  intros Hl Hk. unfold stride. f_equal. rewrite <- (vat_range 0 l) at 1. rewrite <- fmap_drop, Hl. f_equal.
  rewrite (range_app 0 (k + 1) n) by lia. rewrite drop_app_length'; [done|]. rewrite range_length. lia.
Qed.

Lemma wp_Transpose p params s inp buf :
  bounded s → 1 ≤ zlen s ≤ kTransposeMaxDimensions → permutes (zlen s) p → begins p (zlen s) params →
  volume s ≤ zlen inp → volume s ≤ zlen buf →
  wp (Transpose params s inp (permute p s))
     (λ _ buf', length buf' = length buf ∧ transposed s p (zget inp) (zget buf') ∧ ∀ e, volume s ≤ e → zget buf' e = zget buf e)
     (λ _, False) buf.
Proof.
  intros Hb Hrank Hp Hparams Hin Hbuf. unfold Transpose. pose proof (permute_perm s p Hp) as Hperm.
  pose proof (permute_length s p Hp) as Hpl. pose proof (bounded_perm _ _ (symmetry Hperm) Hb) as Hbo.
  apply wp_bind, wp_SetupTransposeStrides; [done|done|]. intros ist Hil Hi. apply wp_bind. rewrite <- Hpl.
  apply wp_SetupTransposeStrides; [done|lia|]. intros ost Hol Ho. rewrite Hpl in *.
  assert (sizes_from (permute p s) (zlen s) 0 = permute p s) as Hs0 by (unfold sizes_from; rewrite <- Hpl; apply vat_range).
  set (steps := steps_from params ist (zlen s) 0).
  assert (zlen steps = zlen s) as Hsl by (unfold steps, steps_from; rewrite length_fmap, range_length; lia).
  assert (∀ k, 0 ≤ k < zlen s → vat 0 steps k = stride s (vat 0 p k)) as Hsteps.
  { intros k Hk. unfold steps, steps_from. unfold vat at 1. rewrite zget_fmap.
    assert (zget (range 0 (zlen s)) k = Some k) as ->.
    { apply zget_Some. split; [lia|]. unfold range. rewrite lookup_seqZ_lt by lia. f_equal. lia. }
    simpl. rewrite (begins_vat p (zlen s) params k) by done. unfold vat at 1. by rewrite Hi by (apply permutes_entry; done || lia). }
  eapply wp_post; [|apply (wp_TransposeImpl inp params ist ost (permute p s) (zlen s))].
  - intros _ buf' (Hl & Hc & Hu). rewrite Hs0 in Hc, Hu. rewrite (volume_perm _ _ Hperm) in Hu. split; [done|]. split.
    + intros ix Hix. specialize (Hc _ (valid_permute s p Hp ix Hix)). fold steps in Hc.
      by rewrite (dot_permute s p Hp) in Hc by done.
    + intros e He. apply Hu. by right.
  - lia.
  - apply Hparams.
  - intros k Hk. rewrite Hil, (begins_vat p (zlen s) params k) by done. pose proof (permutes_entry (zlen s) p k ltac:(lia) Hp Hk). lia.
  - apply (proj1 Hbo).
  - intros k Hk. rewrite Ho by done. f_equal. apply drop_range; [by rewrite Hpl|done].
  - done.
  - lia.
  - rewrite Hs0. by apply readable_permute.
  - lia.
  - by rewrite Hs0, (volume_perm _ _ Hperm).
Qed.

(** ** The inverse permutation *)

Section inverse.
Context (s p q : list Z).
Hypothesis Hp : permutes (zlen s) p.
Hypothesis Hq : permutes (zlen s) q.
Hypothesis inverse : ∀ k, 0 ≤ k < zlen s → vat 0 q (vat 0 p k) = k.

Lemma inverse_right k : 0 ≤ k < zlen s → vat 0 p (vat 0 q k) = k.
Proof.
  intros Hk. pose proof (permutes_entry (zlen s) q k ltac:(lia) Hq Hk) as Hqk.
  pose proof (permutes_entry (zlen s) p (vat 0 q k) ltac:(lia) Hp Hqk) as Hpq.
  rewrite <- (entry_position _ _ _ Hq Hpq), inverse by done. by apply (entry_position (zlen s)).
Qed.

Lemma unpermute : permute q (permute p s) = s.
Proof.
  unfold permute at 1. transitivity ((λ k, vat 0 s k) <$> range 0 (zlen s)); [|apply vat_range].
  rewrite <- (vat_range 0 q) at 1. rewrite <- list_fmap_compose, (permutes_length (zlen s) q) by (lia || done).
  apply list_fmap_ext. intros i k Hk%list_elem_of_lookup_2%elem_of_range. simpl.
  pose proof (permutes_entry (zlen s) q k ltac:(lia) Hq Hk) as Hqk. unfold vat at 1.
  rewrite (zget_permute s p Hp) by done. simpl. by rewrite inverse_right.
Qed.

Lemma valid_digits e : nonneg s → 0 ≤ e < volume s → ∃ ix, valid s ix ∧ flat s ix = e.
Proof.
  intros Hn He. assert (Forall (λ d, 0 < d) s) as Hpos.
  { clear - Hn He. assert (volume s ≠ 0) as Hv by lia. clear He. induction Hn as [|x l Hx Hl IH]; [done|].
    change (x * volume l ≠ 0) in Hv. apply Z.neq_mul_0 in Hv as [Hx0 Hv0]. constructor; [lia|by apply IH]. }
  destruct (flat_digits s e Hpos He) as [Hf Hv]. by exists (vat 0 (digits s e)).
Qed.

Lemma transposed_back {A} (inp out back : list A) : nonneg s →
  transposed s p (zget inp) (zget out) → transposed (permute p s) q (zget out) (zget back) → volume s ≤ zlen back →
  begins inp (volume s) back.
Proof.
  intros Hn Ho Hb Hl. split; [done|]. intros e He. destruct (valid_digits e Hn He) as (ix & Hix & <-).
  rewrite <- (Ho ix Hix). specialize (Hb _ (valid_permute s p Hp ix Hix)). rewrite unpermute in Hb. rewrite <- Hb.
  f_equal. apply flat_ext. intros k Hk. by rewrite inverse_right.
Qed.
End inverse.
