(* ===== verification/TransposeKernelProofs.v ===== *)
(** * The transpose kernel: its output, its errors and its agreement with shape inference *)

From S2P Require Import Prelude LiteRtIr OpShapes ShapeProofs LayoutShapeProofs ArenaPlanner Subgraph SubgraphRunProofs TensorLayout TensorCopy PackedInts PackedIntsProofs KernelUtil KernelProofs Transpose TransposeProofs.

(** ** The kernel *)

(** An entry counted from the end. *)
Definition wrapped (rank p : Z) : Z := if p <? 0 then p + rank else p.
Definition in_bounds (rank p : Z) : bool := (- rank <=? p) && (p <? rank).

Lemma wp_new_perm {S} pd rank l (Q : option (list Z) → S → Prop) E s :
  (∀ i, i ∈ l → 0 ≤ i < zlen pd) →
  Q (if forallb (λ i, in_bounds rank (vat 0 pd i)) l then Some ((λ i, wrapped rank (vat 0 pd i)) <$> l) else None) s →
  wp (new_perm_data pd rank l) Q E s.
Proof.
  revert Q. induction l as [|i l IH]; intros Q Hl HQ; [done|]. simpl. apply wp_bind.
  eapply wp_at; [apply (vat_zget 0), Hl; by left|]. simpl in HQ. fold (in_bounds rank (vat 0 pd i)).
  destruct (in_bounds rank (vat 0 pd i)); [|done]. simpl in HQ. apply wp_bind. apply IH; [intros j Hj; apply Hl; by right|].
  apply wp_ret. by destruct (forallb _ l).
Qed.

Lemma fmap_vat {B} (f : Z → B) l : (λ i, f (vat 0 l i)) <$> range 0 (zlen l) = f <$> l.
Proof. transitivity (f <$> (vat 0 l <$> range 0 (zlen l))); [by rewrite <- list_fmap_compose|by rewrite vat_range]. Qed.

Lemma forallb_fmap {A B} (f : B → bool) (g : A → B) l : forallb (λ x, f (g x)) l = forallb f (g <$> l).
Proof. induction l as [|x l IH]; [done|]. rewrite fmap_cons. cbn [forallb]. by rewrite IH. Qed.

Lemma forallb_vat (f : Z → bool) l : forallb (λ i, f (vat 0 l i)) (range 0 (zlen l)) = forallb f l.
Proof. by rewrite forallb_fmap, vat_range. Qed.

Lemma wp_fill_perm {S} pd rank (Q : list Z → S → Prop) E s :
  zlen pd = rank → 0 ≤ rank ≤ kTransposeMaxDimensions →
  (∀ l, begins (wrapped rank <$> pd) rank l → Q l s) → wp (fill_perm pd rank) Q E s.
Proof.
  intros Hl Hr HQ. unfold fill_perm.
  apply (wp_fold_pure _ _ _ (λ done l, length l = 6%nat ∧ ∀ k, 0 ≤ k < zlen done → zget l k = zget (wrapped rank <$> pd) k)).
  - split; [done|]. simpl. lia.
  - intros done i todo l Hs [Hlen Hk]. destruct (range_split _ _ _ _ Hs) as [-> Hlt]. unfold kTransposeMaxDimensions in Hr.
    apply wp_bind. eapply wp_at; [apply (vat_zget 0); lia|]. apply wp_upd; [lia|].
    split; [done|]. split; [by rewrite zset_length|]. rewrite zlen_snoc. intros k Hk'.
    destruct (decide (k = zlen done)) as [->|Hne].
    + rewrite zget_zset_eq by lia. by rewrite zget_fmap, (vat_zget 0 pd) by lia.
    + rewrite zget_zset_ne by lia. apply Hk. lia.
  - intros l [Hlen Hk]. rewrite range_length in Hk. unfold kTransposeMaxDimensions in Hr. apply HQ. split; [lia|].
    intros i Hi. apply Hk. lia.
Qed.

(** The elements of a tensor. *)
Definition bits (t : OpTensor) : Z := TfLiteTypeGetSizeBits (elem_type t).
Definition element (t : OpTensor) (e : Z) : Z := if bits t =? 4 then unpacked 4 false (contents t) e else vat 0 (contents t) e.
Definition holds (t : OpTensor) (n : Z) : Prop :=
  if bits t =? 4 then n ≤ 2 * zlen (contents t) ∧ zlen (contents t) = size_in_bytes t ∧ Forall is_int8 (contents t)
  else n ≤ zlen (contents t).

(** What the memory planner and [ResizeTensor] promise. *)
Definition resizes (ResizeTensor : list Z → M TransposeContext TfLiteStatus) : Prop := ∀ sizes c,
  wp (ResizeTensor sizes) (λ st c', st = kTfLiteOk → input c' = input c ∧ perm c' = perm c ∧
    elem_type (output c') = elem_type (output c) ∧ shape (output c') = sizes ∧ holds (output c') (volume sizes)) (λ _, False) c.

(** The permutation that the kernel uses. *)
Definition axes (c : TransposeContext) : list Z := wrapped (zlen (shape (input c))) <$> contents (perm c).

(** What [Prepare] accepts, with a permutation. *)
Definition accepted (c : TransposeContext) : Prop :=
  let rank := zlen (shape (input c)) in
  1 ≤ rank ≤ kTransposeMaxDimensions ∧ bounded (shape (input c)) ∧
  shape (perm c) = [rank] ∧ zlen (contents (perm c)) = rank ∧
  Forall (λ p, in_bounds rank p = true) (contents (perm c)) ∧ permutes rank (axes c) ∧
  elem_type (output c) = elem_type (input c) ∧ holds (input c) (volume (shape (input c))).

Definition allocated (c : TransposeContext) : Prop :=
  let size := permute (axes c) (shape (input c)) in shape (output c) = size ∧ holds (output c) (volume size).

(** Every field of a byte is a number of four bits. *)
Lemma unpacked_fits src e : Forall is_int8 src → 0 ≤ e < 2 * zlen src → fits 4 false (unpacked 4 false src e).
Proof.
  intros Hs He. unfold unpacked, field, fits. change (8 - 4) with 4.
  pose proof (i8_range (Z.shiftl (vat 0 src (e / per_byte 4)) (4 - 4 * (e mod per_byte 4)))) as Hi.
  rewrite Z.shiftr_div_pow2 by lia. unfold is_int8 in Hi. change (4 - 1) with 3. split.
  - apply Z.div_le_lower_bound; lia.
  - apply Z.div_lt_upper_bound; lia.
Qed.

Definition moved (n : Z) : Prop := n = 4 ∨ n = 8 ∨ n = 16 ∨ n = 32 ∨ n = 64.

Definition moves_elements (c c' : TransposeContext) : Prop :=
  input c' = input c ∧ shape (output c') = shape (output c) ∧
  transposed (shape (input c)) (axes c) (element (input c)) (element (output c')).

(** The elements of one integer each. *)
Lemma wp_move_whole c s p params :
  s = shape (input c) → p = axes c → accepted c → allocated c → bits (input c) ≠ 4 → begins p (zlen s) params →
  wp (out ← on_buffer (contents (output c)) (Transpose params s (contents (input c)) (shape (output c)));
      modify (λ c, set_output (set_contents out (output c)) c);; mret kTfLiteOk)
     (λ st c', st = kTfLiteOk ∧ moves_elements c c') (λ _, False) c.
Proof.
  intros -> -> (Hrank & Hb & _ & _ & _ & Hp & Ht & Hin) [Hshape Hout] Hbits Hpar.
  assert (bits (output c) = bits (input c)) as Hbo by (unfold bits; by rewrite Ht).
  unfold holds in Hin, Hout. rewrite Hbo in Hout. rewrite (proj2 (Z.eqb_neq _ _)) in Hin, Hout by done.
  rewrite (volume_perm _ _ (permute_perm _ _ Hp)) in Hout. rewrite Hshape.
  apply wp_bind. eapply wp_on_buffer; [by apply (wp_Transpose (axes c))|]. intros out (Hl & Htr & _). simpl in Htr.
  apply wp_bind, wp_modify, wp_ret. split; [done|]. split; [done|]. split; [done|].
  intros ix Hix. specialize (Htr ix Hix). unfold element. simpl. change (bits (set_contents out (output c))) with (bits (output c)).
  rewrite Hbo, (proj2 (Z.eqb_neq _ _)) by done. unfold vat at 1 3. simpl. by rewrite Htr.
Qed.

(** The elements of four bits. *)
Lemma wp_move_packed c s p params :
  s = shape (input c) → p = axes c → accepted c → allocated c → bits (input c) = 4 → begins p (zlen s) params →
  wp (n ← FlatSize s;
      unpacked_input_data ← on_buffer (replicate (Z.to_nat (size_in_bytes (input c) * 2)) 0) (UnpackPackedIntToInt8 (contents (input c)) n 4 false);
      unpacked_output_data ← on_buffer (replicate (Z.to_nat (size_in_bytes (input c) * 2)) 0) (Transpose params s unpacked_input_data (shape (output c)));
      packed ← on_buffer (contents (output c)) (PackInt8IntoDenseInt unpacked_output_data n 4);
      modify (λ c, set_output (set_contents packed (output c)) c);; mret kTfLiteOk)
     (λ st c', st = kTfLiteOk ∧ moves_elements c c') (λ _, False) c.
Proof.
  intros -> -> (Hrank & Hb & _ & _ & _ & Hp & Ht & Hin) [Hshape Hout] Hbits Hpar. set (s := shape (input c)) in *.
  assert (bits (output c) = 4) as Hbo by (unfold bits in *; by rewrite Ht).
  unfold holds in Hin, Hout. rewrite Hbits in Hin. rewrite Hbo in Hout. simpl in Hin, Hout.
  destruct Hin as (Hin & Hsize & Hbytes), Hout as [Hout _]. rewrite (volume_perm _ _ (permute_perm _ _ Hp)) in Hout.
  pose proof (bounded_volume s Hb) as Hv. set (zeros := replicate (Z.to_nat (size_in_bytes (input c) * 2)) 0).
  assert (zlen zeros = 2 * zlen (contents (input c))) as Hz by (unfold zeros; rewrite length_replicate; lia).
  apply wp_bind, wp_FlatSize; [done|]. apply wp_bind.
  eapply wp_on_buffer; [apply wp_unpack; [done|lia|by right|exact Hin]|]. intros ui Hui. apply wp_bind. rewrite Hshape.
  assert (length ui = length zeros) as Hul by apply Hui.
  eapply wp_on_buffer; [apply (wp_Transpose (axes c)); [done..|lia|lia]|]. intros uo (Hol & Htr & _). apply wp_bind.
  eapply wp_on_buffer; [apply wp_pack; [lia|by right|exact Hout]|]. intros pk Hpk.
  apply wp_bind, wp_modify, wp_ret. split; [done|]. split; [done|]. split; [done|].
  intros ix Hix. specialize (Htr ix Hix). unfold element.
  change (bits (output (set_output (set_contents pk (output c)) c))) with (bits (output c)).
  rewrite Hbo, Hbits. change (4 =? 4) with true. cbv iota.
  change (contents (output (set_output (set_contents pk (output c)) c))) with pk. fold s. pose proof (flat_bound s ix Hix) as Hfi.
  pose proof (flat_bound _ _ (valid_permute s (axes c) Hp ix Hix)) as Hfo. rewrite (volume_perm _ _ (permute_perm _ _ Hp)) in Hfo.
  assert (vat 0 uo (flat (permute (axes c) s) (λ k, ix (vat 0 (axes c) k))) = unpacked 4 false (contents (input c)) (flat s ix)) as He.
  { unfold vat at 1. rewrite Htr. exact (filled_vat _ _ _ _ _ Hui Hfi). }
  rewrite <- He. eapply unpacked_packed; [by right|exact Hpk| |done|].
  - change (per_byte 4) with 2. pose proof (Z.div_mod (volume s + 2 - 1) 2). pose proof (Z.mod_pos_bound (volume s + 2 - 1) 2). lia.
  - rewrite He. apply unpacked_fits; [done|lia].
Qed.

Lemma wp_transpose_data c : accepted c → allocated c → moved (bits (input c)) →
  wp transpose_data (λ st c', st = kTfLiteOk ∧ moves_elements c c') (λ _, False) c.
Proof.
  intros Ha Hall Hm. pose proof Ha as (Hrank & _ & Hps & Hpl & _). unfold transpose_data.
  apply wp_bind, wp_get, wp_bind. rewrite Hps. eapply wp_at; [done|]. apply wp_bind. apply wp_fill_perm; [done|lia|].
  intros params Hpar. unfold moved in Hm. change (TfLiteTypeGetSizeBits (elem_type (input c))) with (bits (input c)).
  destruct Hm as [Hm|Hm].
  - rewrite Hm. by apply (wp_move_packed c _ (axes c)).
  - assert (bits (input c) ≠ 4) as Hne by lia. pose proof (wp_move_whole c _ _ params eq_refl eq_refl Ha Hall Hne Hpar) as Hw.
    by destruct Hm as [Hm|[Hm|[Hm|Hm]]]; rewrite Hm.
Qed.

(** Every other type is refused before anything is written. *)
Lemma transpose_data_refuses c : accepted c → ¬ moved (bits (input c)) → transpose_data c = Done kTfLiteError c.
Proof.
  intros (Hrank & _ & Hps & Hpl & _) Hm.
  assert (wp transpose_data (λ st c', st = kTfLiteError ∧ c' = c) (λ _, False) c) as Hwp.
  { unfold transpose_data. apply wp_bind, wp_get, wp_bind. rewrite Hps. eapply wp_at; [done|]. apply wp_bind.
    apply wp_fill_perm; [done|lia|]. intros params _. unfold moved, bits in Hm.
    destruct (elem_type (input c)); simpl in *; (by apply wp_ret) || (exfalso; apply Hm; tauto). }
  unfold wp in Hwp. destruct (transpose_data c) as [st c'| |]; [|done..]. by destruct Hwp as [-> ->].
Qed.

(** ** The size of the output *)

Section resizing.
Context (ResizeTensor : list Z → M TransposeContext TfLiteStatus).

(** What [ResizeOutputTensor] looks for. *)
Definition is_permutation_tensor (rank : Z) (t : OpTensor) : bool :=
  bool_decide (shape t = [rank]) && forallb (in_bounds rank) (contents t).

Lemma sizes_of_axes (c c' : TransposeContext) :
  forallb (in_bounds (zlen (shape (input c)))) (contents (perm c)) = true →
  map_m (λ p, at_ (shape (input c)) p) (axes c) c' = Done (permute (axes c) (shape (input c))) c'.
Proof.
  intros Hb. rewrite forallb_forall in Hb. apply wp_run_done.
  apply (wp_map_m _ (vat 0 (shape (input c)))); [|done].
  intros p (q & -> & Hq)%list_elem_of_fmap. specialize (Hb q (proj1 (list_elem_of_In _ _) Hq)).
  unfold in_bounds in Hb. apply andb_true_iff in Hb as [H1%Z.leb_le H2%Z.ltb_lt].
  apply at_done, vat_zget. unfold wrapped. destruct (Z.ltb_spec q 0); lia.
Qed.

Lemma ResizeOutputTensor_result c :
  let rank := zlen (shape (input c)) in
  zlen (contents (perm c)) = volume (shape (perm c)) →
  ResizeOutputTensor ResizeTensor c =
    if is_permutation_tensor rank (perm c) then ResizeTensor (permute (axes c) (shape (input c))) c else Done kTfLiteError c.
Proof.
  intros rank Hl. unfold ResizeOutputTensor. rewrite (bind_done _ _ _ c c) by done. fold rank.
  rewrite (ensure_status_done _ _ (status_of (zlen (shape (perm c)) =? 1)) c c) by done.
  unfold is_permutation_tensor. destruct (shape (perm c)) as [|d [|d' r]] eqn:Hs.
  - done.
  - simpl. rewrite (bind_done _ _ _ d c) by (by apply at_done).
    rewrite (ensure_status_done _ _ (status_of (d =? rank)) c c) by done.
    destruct (Z.eqb_spec d rank) as [->|Hne]; simpl; [|by rewrite bool_decide_eq_false_2 by congruence].
    rewrite bool_decide_eq_true_2 by done. simpl.
    change (volume [rank]) with (rank * 1) in Hl. rewrite Z.mul_1_r in Hl.
    erewrite (bind_done (new_perm_data _ _ _)).
    2:{ apply wp_run_done. apply wp_new_perm; [intros i Hi%elem_of_range; lia|]. rewrite <- Hl, forallb_vat.
        rewrite (fmap_vat (wrapped (zlen (contents (perm c))))). by split. }
    rewrite Hl. destruct (forallb (in_bounds rank) (contents (perm c))) eqn:Hb; [|done].
    by rewrite (bind_done _ _ _ _ _ (sizes_of_axes c c Hb)).
  - rewrite bool_decide_eq_false_2 by done. rewrite (proj2 (Z.eqb_neq (zlen (d :: d' :: r)) 1)) by (simpl; lia). done.
Qed.

Lemma wp_Eval c :
  resizes ResizeTensor → accepted c → moved (bits (input c)) → IsDynamicTensor (output c) = true ∨ allocated c →
  wp (Eval ResizeTensor) (λ st c',
    (if IsDynamicTensor (output c) then fails_only_as (ResizeTensor (permute (axes c) (shape (input c))) c) st c' else st = kTfLiteOk) ∧
    (st = kTfLiteOk → input c' = input c ∧ shape (output c') = permute (axes c) (shape (input c)) ∧
       transposed (shape (input c)) (axes c) (element (input c)) (element (output c')))) (λ _, False) c.
Proof.
  intros Hres Ha Hm Hall. unfold Eval. apply wp_bind, wp_get.
  destruct (IsDynamicTensor (output c)) eqn:Hdyn.
  - pose proof Ha as (_ & _ & Hs & Hl & Hb & _).
    assert (ResizeOutputTensor ResizeTensor c = ResizeTensor (permute (axes c) (shape (input c))) c) as Hask.
    { rewrite ResizeOutputTensor_result by (rewrite Hs, Hl; unfold volume; simpl; lia).
      unfold is_permutation_tensor. rewrite bool_decide_eq_true_2 by done.
      by rewrite (proj2 (forallb_forall _ _)) by (intros x Hx; rewrite Forall_forall in Hb; by apply Hb, list_elem_of_In). }
    rewrite <- Hask. eapply wp_ensure_first; [unfold wp; rewrite Hask; apply Hres|]. intros c' Hc'. simpl in Hc'.
    destruct (Hc' eq_refl) as (Hi & Hp & Ht & Hsh & Hh). assert (axes c' = axes c) as Hax by (unfold axes; by rewrite Hi, Hp).
    assert (accepted c') as Ha' by (unfold accepted; rewrite Hax, Hi, Hp, Ht; exact Ha).
    eapply wp_post; [|apply wp_transpose_data; [done|unfold allocated; by rewrite Hax, Hi|by rewrite Hi]].
    intros st' c'' [Hst' (H1 & H2 & H3)]. simpl. rewrite Hax, Hi in *. split; [done|]. split; [done|]. split; [congruence|done].
  - destruct Hall as [Hall|Hall]; [done|]. apply wp_ensure_status, wp_ret. rewrite decide_True by done.
    eapply wp_post; [|by apply wp_transpose_data]. intros st' c'' [Hst (H1 & H2 & H3)]. simpl. split; [done|]. intros _.
    split; [done|]. split; [rewrite H2; apply Hall|done].
Qed.
End resizing.

(** ** Theorems *)

(** C16: evaluating the transpose kernel on a permutation of the dimensions, with entries
    counted from the start or from the end, puts every element of the input at its
    permuted index of the output, whose shape is the permuted one; elements of 4 to 64
    bits are moved, those of 4 bits through unpacking and packing. It has no undefined
    behaviour. It succeeds, unless the output is dynamic and [ResizeTensor] fails for the
    permuted shape: then its status is the kernel's, and nothing else is done. *)
Theorem Eval_transposes ResizeTensor c :
  resizes ResizeTensor → accepted c → moved (bits (input c)) → IsDynamicTensor (output c) = true ∨ allocated c →
  ∃ st c', Eval ResizeTensor c = Done st c' ∧
    (if IsDynamicTensor (output c) then fails_only_as (ResizeTensor (permute (axes c) (shape (input c))) c) st c' else st = kTfLiteOk) ∧
    (st = kTfLiteOk → input c' = input c ∧ shape (output c') = permute (axes c) (shape (input c)) ∧
       transposed (shape (input c)) (axes c) (element (input c)) (element (output c'))).
Proof. intros Hr Ha Hm Hall. apply (wp_Done _ _ _ (wp_Eval ResizeTensor c Hr Ha Hm Hall)). Qed.

(** [ResizeOutputTensor] asks for the permuted shape if the permutation is a vector
    with an entry in bounds for every dimension of the input; otherwise it fails, and
    neither resizes the output nor reads out of range. *)
Theorem ResizeOutputTensor_checks ResizeTensor c :
  zlen (contents (perm c)) = volume (shape (perm c)) →
  ResizeOutputTensor ResizeTensor c =
    if is_permutation_tensor (zlen (shape (input c))) (perm c)
    then ResizeTensor (permute (axes c) (shape (input c))) c else Done kTfLiteError c.
Proof. apply ResizeOutputTensor_result. Qed.

(** For a constant permutation without negative entries the kernel asks for the
    output shape that shape inference finds. *)
Theorem ResizeOutputTensor_InferTranspose ResizeTensor h op x rest p st c :
  let s := shape (input c) in
  constant_input h op 1 (encode_all 4 p) → s ≠ [] → zlen s ≤ LITERT_TENSOR_MAX_RANK →
  length p = length s → Forall (λ i, 0 ≤ i < zlen s) p → output_shapes st ≠ [] →
  contents (perm c) = p → shape (perm c) = [zlen p] →
  ∃ out, InferTranspose h op (s :: x :: rest) st = Done tt (with_output 0 out st) ∧
    ResizeOutputTensor ResizeTensor c = ResizeTensor out c.
Proof.
  intros s Hc Hs Hrank Hl Hp Hst Hcon Hsh. exists (vat 0 s <$> p). split; [by apply InferTranspose_exact|].
  rewrite ResizeOutputTensor_result by (rewrite Hsh, Hcon; unfold volume; simpl; lia).
  unfold is_permutation_tensor. rewrite Hsh, Hcon, bool_decide_eq_true_2 by (fold s; by rewrite Hl).
  rewrite (proj2 (forallb_forall _ _)).
  - simpl. fold s. unfold permute, axes. rewrite Hcon. fold s. f_equal. rewrite <- list_fmap_compose.
    apply list_fmap_ext. intros i y Hy. simpl. f_equal. unfold wrapped.
    rewrite Forall_forall in Hp. specialize (Hp y (list_elem_of_lookup_2 _ _ _ Hy)). destruct (Z.ltb_spec y 0); [lia|done].
  - intros y Hy. rewrite Forall_forall in Hp. specialize (Hp y (proj2 (list_elem_of_In _ _) Hy)). fold s. unfold in_bounds.
    apply andb_true_iff. split; [apply Z.leb_le|apply Z.ltb_lt]; lia.
Qed.

(** C28: transposing with the reference implementation and then with the inverse
    permutation gives the elements of the tensor back. *)
Theorem Transpose_inverse s p q params qarams inp buf buf' :
  bounded s → 1 ≤ zlen s ≤ kTransposeMaxDimensions → permutes (zlen s) p → permutes (zlen s) q →
  (∀ k, 0 ≤ k < zlen s → vat 0 q (vat 0 p k) = k) → begins p (zlen s) params → begins q (zlen s) qarams →
  volume s ≤ zlen inp → volume s ≤ zlen buf → volume s ≤ zlen buf' →
  ∃ out back, Transpose params s inp (permute p s) buf = Done tt out ∧
    Transpose qarams (permute p s) out s buf' = Done tt back ∧ begins inp (volume s) back.
Proof.
  intros Hb Hr Hp Hq Hinv Hpar Hqar Hin Hbuf Hbuf'.
  pose proof (permute_length s p Hp) as Hl. pose proof (permute_perm s p Hp) as Hperm.
  destruct (wp_Done _ _ _ (wp_Transpose p params s inp buf Hb Hr Hp Hpar Hin Hbuf)) as ([] & out & Ho & Hlo & Hto & _).
  pose proof (bounded_perm _ _ (symmetry Hperm) Hb) as Hb'. pose proof (volume_perm _ _ Hperm) as Hv.
  pose proof (unpermute s p q Hp Hq Hinv) as Hun. assert (zlen (permute p s) = zlen s) as Hzl by (by rewrite Hl).
  destruct (wp_Done _ _ _ (wp_Transpose q qarams (permute p s) out buf' Hb' ltac:(lia) ltac:(by rewrite Hzl)
    ltac:(by rewrite Hzl) ltac:(lia) ltac:(lia))) as ([] & back & Hback & Hlb & Htb & _).
  rewrite Hun in Hback. exists out, back. split; [done|]. split; [done|].
  apply (transposed_back s p q Hp Hq Hinv inp out back); [apply Hb|done|done|lia].
Qed.

(** ** Witnesses *)

(** A [ResizeTensor] that always finds the memory. *)
Definition resize_output (sizes : list Z) : M TransposeContext TfLiteStatus :=
  modify (λ c, set_output {| elem_type := elem_type (output c); shape := sizes; allocation := allocation (output c);
    size_in_bytes := Z.of_nat (Z.to_nat (volume sizes)); contents := replicate (Z.to_nat (volume sizes)) 0 |} c);;
  mret kTfLiteOk.

Lemma resize_output_resizes : resizes resize_output.
Proof.
  intros sizes c. unfold resize_output. apply wp_bind, wp_modify, wp_ret. intros _. split_and!; [done..|].
  unfold holds. simpl. rewrite length_replicate. case_match; [|lia]. split_and!; [lia|done|].
  apply Forall_replicate. unfold is_int8. lia.
Qed.

Definition a_tensor (t : TfLiteType) (s : list Z) (l : list Z) : OpTensor :=
  {| elem_type := t; shape := s; allocation := kTfLiteDynamic; size_in_bytes := zlen l; contents := l |}.

(** Three bytes with the six elements of a matrix, to be transposed. *)
Definition a_matrix : TransposeContext :=
  {| input := a_tensor kTfLiteInt4 [2; 3] [33; 67; 101]; perm := a_tensor kTfLiteInt32 [2] [-1; 0];
     output := a_tensor kTfLiteInt4 [] [] |}.

Example transposed_matrix : match Eval resize_output a_matrix with
  | Done kTfLiteOk c => shape (output c) = [3; 2] ∧ element (output c) <$> range 0 6 = [1; 4; 2; 5; 3; 6]
  | _ => False end.
Proof. vm_compute. split; reflexivity. Qed.

Lemma swap_permutes : permutes 2 [1; 0].
Proof. apply Permutation_swap. Qed.

Lemma a_matrix_accepted : accepted a_matrix.
Proof.
  unfold accepted. split_and!; try done.
  - split; [repeat constructor; discriminate|discriminate].
  - repeat constructor.
  - exact swap_permutes.
  - unfold holds. simpl. split_and!; [lia|done|]. repeat constructor; discriminate.
Qed.

Lemma Eval_transposes_witness :
  IsDynamicTensor (output a_matrix) = true ∧
  ∃ st c', Eval resize_output a_matrix = Done st c' ∧ fails_only_as (resize_output [3; 2] a_matrix) st c' ∧
    (st = kTfLiteOk → input c' = input a_matrix ∧ shape (output c') = [3; 2] ∧
       transposed [2; 3] [1; 0] (element (input a_matrix)) (element (output c'))).
Proof.
  split; [done|]. apply (Eval_transposes resize_output a_matrix);
    [exact resize_output_resizes|exact a_matrix_accepted|by left|by left].
Defined.

Lemma ResizeOutputTensor_checks_witness :
  zlen (contents (perm a_matrix)) = 2 ∧
  ResizeOutputTensor resize_output a_matrix = resize_output [3; 2] a_matrix.
Proof. split; [done|]. apply (ResizeOutputTensor_checks resize_output a_matrix). done. Defined.

(** The permutation of shape inference's example. *)
Definition a_volume : TransposeContext :=
  {| input := a_tensor kTfLiteFloat32 [5; 6; 7] []; perm := a_tensor kTfLiteInt32 [3] [2; 0; 1];
     output := a_tensor kTfLiteFloat32 [] [] |}.

Lemma ResizeOutputTensor_InferTranspose_witness :
  ∃ out, InferTranspose inverse_perms (transpose_by 2) [[5; 6; 7]; [3]] one_output = Done tt (with_output 0 out one_output) ∧
    ResizeOutputTensor resize_output a_volume = resize_output out a_volume.
Proof.
  apply (ResizeOutputTensor_InferTranspose resize_output inverse_perms (transpose_by 2) [3] [] [2; 0; 1] one_output a_volume);
    [by apply constant_input_check|discriminate..|done| |discriminate|done|done].
  repeat constructor; discriminate.
Defined.

Lemma Transpose_inverse_witness :
  permutes 2 [1; 0] ∧
  ∃ out back, Transpose [1; 0] [2; 3] [1; 2; 3; 4; 5; 6] [3; 2] [0; 0; 0; 0; 0; 0] = Done tt out ∧
    Transpose [1; 0] [3; 2] out [2; 3] [0; 0; 0; 0; 0; 0; 9] = Done tt back ∧ begins [1; 2; 3; 4; 5; 6] 6 back.
Proof.
  split; [exact swap_permutes|].
  apply (Transpose_inverse [2; 3] [1; 0] [1; 0] [1; 0] [1; 0] [1; 2; 3; 4; 5; 6] [0; 0; 0; 0; 0; 0] [0; 0; 0; 0; 0; 0; 9]);
    [split; [repeat constructor; discriminate|discriminate]|split; discriminate|exact swap_permutes|exact swap_permutes| |
     split; [discriminate|done]|split; [discriminate|done]|discriminate..].
  intros k [H0 H2]. assert (k = 0 ∨ k = 1) as [-> | ->] by (simpl in H2; lia); reflexivity.
Defined.

(** ** What is not checked *)

(** A permutation with a repeated entry is accepted, and elements behind the input are read. *)
Definition repeated : TransposeContext :=
  {| input := a_tensor kTfLiteFloat32 [2; 3] [1; 2; 3; 4; 5; 6]; perm := a_tensor kTfLiteInt32 [2] [0; 0];
     output := a_tensor kTfLiteFloat32 [] [] |}.

Example repeated_entry_overrun : Eval resize_output repeated = Undefined ∧
  match Prepare resize_output 2 1 repeated with Done st _ => st = kTfLiteOk | _ => False end.
Proof. vm_compute. split; reflexivity. Qed.

(** A scalar is accepted, and a stride before the first one is written. *)
Definition a_scalar : TransposeContext :=
  {| input := a_tensor kTfLiteFloat32 [] [1]; perm := a_tensor kTfLiteInt32 [0] []; output := a_tensor kTfLiteFloat32 [] [] |}.

Example scalar_overrun : Eval resize_output a_scalar = Undefined ∧
  match Prepare resize_output 2 1 a_scalar with Done st _ => st = kTfLiteOk | _ => False end.
Proof. vm_compute. split; reflexivity. Qed.

(** The strides of an empty tensor may overflow. *)
Definition an_empty_tensor : TransposeContext :=
  {| input := a_tensor kTfLiteFloat32 [0; 65536; 65536] []; perm := a_tensor kTfLiteInt32 [3] [0; 1; 2];
     output := a_tensor kTfLiteFloat32 [0; 65536; 65536] [] |}.

Example empty_tensor_overflow : transpose_data an_empty_tensor = Undefined.
Proof. vm_compute. reflexivity. Qed.

(** Shape inference does not know entries that count from the end. *)
Example negative_entry_inference :
  InferTranspose (heap_of [[]; encode_all 4 [-1; 0]]) (transpose_by 2) [[2; 3]; [2]] one_output =
    Error {| output_shapes := [[]]; status := kLiteRtStatusErrorShapeInferenceFailed |} ∧
  ResizeOutputTensor resize_output a_matrix = resize_output [3; 2] a_matrix.
Proof. vm_compute. split; reflexivity. Qed.
