(* ===== verification/KernelBroadcastProofs.v ===== *)
(** * Broadcasting: the shape of the result and the elements that are combined *)

From S2P Require Import Prelude LiteRtIr OpShapes ShapeProofs ArenaPlanner Subgraph TensorLayout TensorCopy KernelUtil KernelProofs KernelBroadcast.

(** ** The shape of the result *)

Lemma SizeFromRight_done {S} (l : list Z) i (s : S) : 0 ≤ i → SizeFromRight l i s = Done (dimr l (Z.to_nat i)) s.
Proof.
  intros Hi. unfold SizeFromRight, dimr. destruct (Z.leb_spec (zlen l) i).
  - by rewrite (proj2 (lookup_ge_None _ _)) by (rewrite length_reverse; lia).
  - rewrite reverse_lookup by lia. destruct (zget_is_Some l (zlen l - i - 1)) as [x Hx]; [lia|].
    rewrite (at_done _ _ _ _ Hx). apply zget_Some in Hx as [_ Hx].
    by replace (length l - Datatypes.S (Z.to_nat i))%nat with (Z.to_nat (zlen l - i - 1)) by lia; rewrite Hx.
Qed.

(** [f] gives the size at every distance from the right end. *)
Lemma fill_shape_done {S} (dim : Z → M S (option Z)) (f : nat → option Z) (n : nat) (s : S) :
  (∀ i, 0 ≤ i → dim i s = Done (f (Z.to_nat i)) s) →
  ∃ o, fill_shape dim (Z.of_nat n) (replicate n 0) (range 0 (Z.of_nat n)) s = Done o s ∧
    match o with
    | Some out => length out = n ∧ ∀ i, (i < n)%nat → reverse out !! i = f i
    | None => ∃ i, (i < n)%nat ∧ f i = None
    end.
Proof.
  intros Hdim.
  enough (∀ r k l, (k + r = n)%nat → length l = n → (∀ i, (i < k)%nat → reverse l !! i = f i) →
    ∃ o, fill_shape dim (Z.of_nat n) l (range (Z.of_nat k) (Z.of_nat n)) s = Done o s ∧
      match o with
      | Some out => length out = n ∧ ∀ i, (i < n)%nat → reverse out !! i = f i
      | None => ∃ i, (i < n)%nat ∧ f i = None
      end) as Hgo.
  { apply (Hgo n 0%nat); [lia|apply length_replicate|lia]. }
  induction r as [|r IH]; intros k l Hk Hl Hf.
  - rewrite range_nil by lia. exists (Some l). assert (k = n) as -> by lia. done.
  - rewrite range_cons by lia. cbn [fill_shape]. rewrite (bind_done _ _ _ _ _ (Hdim (Z.of_nat k) ltac:(lia))), Nat2Z.id.
    destruct (f k) as [d|] eqn:Hd; [|exists None; split; [done|exists k; split; [lia|done]]].
    rewrite (bind_done _ _ _ _ _ (upd_done l (Z.of_nat n - Z.of_nat k - 1) d s ltac:(lia))).
    replace (Z.of_nat k + 1) with (Z.of_nat (Datatypes.S k)) by lia. apply IH; [lia|by rewrite zset_length|].
    intros i Hi. replace (Z.of_nat n - Z.of_nat k - 1) with (Z.of_nat n - 1 - Z.of_nat k) by lia.
    rewrite reverse_zset by lia. case_decide; [by subst|]. apply Hf. lia.
Qed.

Lemma dimr_nonneg l i : nonneg l → 0 ≤ dimr l i.
Proof.
  intros Hl. unfold dimr. destruct (reverse l !! i) as [x|] eqn:Hx; simpl; [|lia].
  unfold nonneg in Hl. rewrite Forall_forall in Hl. apply Hl.
  apply list_elem_of_lookup_2 in Hx. by rewrite elem_of_reverse in Hx.
Qed.

(** The size that the kernels give two dimensions. *)
Lemma broadcast_dim_nonneg d1 d2 : 0 ≤ d1 → 0 ≤ d2 →
  broadcast_dim d1 d2 = if negb ((d1 =? d2) || (d1 =? 1) || (d2 =? 1)) then None
    else if (d1 =? 0) || (d2 =? 0) then Some 0 else Some (Z.max d1 d2).
Proof.
  intros H1 H2. unfold broadcast_dim. rewrite (proj2 (Z.eqb_neq d1 (-1))), (proj2 (Z.eqb_neq d2 (-1))) by lia. simpl.
  destruct (Z.eqb_spec d1 d2), (Z.eqb_spec d1 1), (Z.eqb_spec d2 1), (Z.eqb_spec d1 0), (Z.eqb_spec d2 0); simpl;
    first [done|exfalso; lia|f_equal; lia].
Qed.

Lemma CalculateShapeForBroadcast_done {S} s1 s2 (s : S) : nonneg s1 → nonneg s2 →
  CalculateShapeForBroadcast s1 s2 s = Done (broadcast s1 s2) s.
Proof.
  intros H1 H2. unfold CalculateShapeForBroadcast. rewrite <- Nat2Z.inj_max, Nat2Z.id.
  set (n := max (length s1) (length s2)).
  match goal with |- fill_shape ?dim _ _ _ _ = _ =>
    destruct (fill_shape_done dim (λ i, broadcast_dim (dimr s1 i) (dimr s2 i)) n s) as (o & Hrun & Ho) end.
  { intros i Hi. rewrite (bind_done _ _ _ _ _ (SizeFromRight_done s1 i s Hi)), (bind_done _ _ _ _ _ (SizeFromRight_done s2 i s Hi)).
    rewrite broadcast_dim_nonneg by (by apply dimr_nonneg). by repeat case_match. }
  rewrite Hrun. f_equal. destruct o as [out|].
  - destruct Ho as [Hl Hout]. symmetry. by apply broadcast_from_right.
  - destruct Ho as (i & Hi & Hb). symmetry. by eapply broadcast_fails.
Qed.

(** ** The nested loops

    They run through the positions of the output in row-major order. *)

Lemma for_each_ext {S A} (l : list A) (f g : A → M S unit) s :
  (∀ x s', x ∈ l → f x s' = g x s') → for_each l f s = for_each l g s.
Proof.
  revert s. induction l as [|x l IH]; intros s Hfg; [done|]. cbn [for_each]. unfold mbind, M_bind.
  rewrite Hfg by (by left). destruct (g x s) as [[] s'| |]; [|done..]. apply IH. intros y s'' Hy. apply Hfg. by right.
Qed.

Lemma for_each_app {S A} (l k : list A) (f : A → M S unit) s :
  for_each (l ++ k) f s = (for_each l f;; for_each k f) s.
Proof.
  revert s. induction l as [|x l IH]; intros s; [done|]. cbn [for_each app]. unfold mbind, M_bind.
  destruct (f x s) as [[] s'| |]; [|done..]. apply IH.
Qed.

Lemma for_each_concat {S A B} (l : list A) (k : A → list B) (f : B → M S unit) s :
  for_each l (λ x, for_each (k x) f) s = for_each (concat (k <$> l)) f s.
Proof.
  revert s. induction l as [|x l IH]; intros s; [done|]. rewrite fmap_cons. cbn [for_each concat].
  rewrite for_each_app. unfold mbind, M_bind. destruct (for_each (k x) f s) as [[] s'| |]; [|done..]. apply IH.
Qed.

Lemma fmap_concat {A B} (f : A → B) (l : list (list A)) : f <$> concat l = concat ((λ k : list A, f <$> k) <$> l).
Proof. induction l as [|x l IH]; [done|]. rewrite fmap_cons. cbn [concat]. by rewrite fmap_app, IH. Qed.

(** The positions of a block, block by block. *)
Lemma range_blocks x v : 0 ≤ x → 0 ≤ v → concat ((λ i, (λ k, i * v + k) <$> range 0 v) <$> range 0 x) = range 0 (x * v).
Proof.
  intros Hx Hv. revert x Hx. apply natlike_ind; [done|]. intros x Hx IH.
  replace (Z.succ x) with (x + 1) by lia. rewrite range_snoc by lia. rewrite fmap_app, concat_app, IH. simpl.
  rewrite app_nil_r, <- range_from by done. replace ((x + 1) * v) with (x * v + v) by lia.
  by rewrite <- range_app by nia.
Qed.

Lemma digits_block x s i k : 0 ≤ k < volume s → digits (x :: s) (i * volume s + k) = i :: digits s k.
Proof.
  intros Hk. cbn [digits]. f_equal; [|f_equal].
  - rewrite Z.div_add_l, Z.div_small by lia. lia.
  - rewrite Z.add_comm, Z.mod_add, Z.mod_small by lia. done.
Qed.

Lemma digits_length s k : length (digits s k) = length s.
Proof. revert k. induction s as [|x s IH]; intros k; [done|]. simpl. by rewrite IH. Qed.

(** The index lists that the loops from a dimension on run through. *)
Definition visited (dims : list Z) (dim : Z) (indexes : list Z) : list (list Z) :=
  (λ k, take (Z.to_nat dim) indexes ++ digits (drop (Z.to_nat dim) dims) k) <$>
    range 0 (volume (drop (Z.to_nat dim) dims)).

Lemma visited_step dims dim x indexes : 0 ≤ dim → zget dims dim = Some x → length indexes = length dims →
  0 ≤ x → nonneg (drop (Z.to_nat (dim + 1)) dims) →
  concat ((λ i, visited dims (dim + 1) (zset dim i indexes)) <$> range 0 x) = visited dims dim indexes.
Proof.
  intros Hd [_ Hx]%zget_Some Hl Hx0 Hn. unfold visited.
  rewrite (drop_S _ _ _ Hx). replace (Datatypes.S (Z.to_nat dim)) with (Z.to_nat (dim + 1)) by lia.
  set (rest := drop (Z.to_nat (dim + 1)) dims) in *. pose proof (volume_nonneg _ Hn) as Hv.
  change (volume (x :: rest)) with (x * volume rest). rewrite <- (range_blocks x (volume rest)) by done.
  rewrite fmap_concat, <- list_fmap_compose. f_equal. apply list_fmap_ext. intros i y Hy.
  unfold compose. rewrite <- list_fmap_compose. apply list_fmap_ext. intros j k Hk. unfold compose.
  apply list_elem_of_lookup_2, elem_of_range in Hk. rewrite (digits_block x rest y k) by done.
  pose proof (lookup_lt_Some _ _ _ Hx) as Hlt.
  replace (Z.to_nat (dim + 1)) with (Datatypes.S (Z.to_nat dim)) by lia. unfold zset.
  rewrite (take_S_r _ _ y) by (apply list_lookup_insert_eq; lia). rewrite take_insert_ge by lia. by rewrite <- app_assoc.
Qed.

Lemma NDOpsHelperImpl_visits {S} (desc : NdArrayDesc) (calc : list Z → M S unit) n :
  nonneg (extents desc) → ∀ dim indexes s, 0 ≤ dim → dim + Z.of_nat n = zlen (extents desc) - 1 →
  length indexes = length (extents desc) →
  NDOpsHelperImpl n dim desc calc indexes s = for_each (visited (extents desc) dim indexes) calc s.
Proof.
  intros Hn. induction n as [|n IH]; intros dim indexes s Hd Hdn Hl;
    destruct (zget_is_Some (extents desc) dim) as [x Hx]; [lia| |lia|];
    cbn [NDOpsHelperImpl]; rewrite (bind_done _ _ _ _ _ (at_done _ _ _ _ Hx));
    pose proof (Forall_drop _ (Z.to_nat (dim + 1)) _ Hn) as Hdrop;
    pose proof (zget_elem _ _ _ Hx) as Hxe; unfold nonneg in Hn; rewrite Forall_forall in Hn;
    rewrite <- (visited_step _ _ _ _ Hd Hx Hl (Hn _ Hxe) Hdrop), <- for_each_concat; apply for_each_ext; intros i s' _.
  - rewrite (bind_done _ _ _ _ _ (upd_done indexes dim i s' ltac:(lia))). unfold visited.
    rewrite drop_ge by lia. simpl. rewrite app_nil_r, take_ge by (rewrite zset_length; lia).
    unfold mbind, M_bind. by destruct (calc (zset dim i indexes) s') as [[] ?| |].
  - rewrite (bind_done _ _ _ _ _ (upd_done indexes dim i s' ltac:(lia))). apply IH; [lia|lia|by rewrite zset_length].
Qed.

Lemma NDOpsHelper_visits {S} (n : nat) (desc : NdArrayDesc) (calc : list Z → M S unit) s :
  (0 < n)%nat → nonneg (extents desc) → length (extents desc) = n →
  NDOpsHelper n desc calc s = for_each (digits (extents desc) <$> range 0 (volume (extents desc))) calc s.
Proof.
  intros Hn He Hl. unfold NDOpsHelper. rewrite NDOpsHelperImpl_visits; [done|done|lia|lia|by rewrite length_replicate].
Qed.

(** ** Descriptions *)

Lemma copy_dims_loop {S} (s : list Z) (k : nat) e t (st : S) :
  bounded s → (k ≤ length s)%nat → length e = length s → length t = length s →
  (∀ d, (k ≤ d < length s)%nat → e !! d = s !! d ∧ t !! d = Some (stride s (Z.of_nat d))) →
  fold_m (reverse (range 0 (Z.of_nat k))) ({| extents := e; strides := t |}, volume (drop k s)) (λ '(desc, desc_stride) i,
    d ← at_ s i;
    e ← upd (extents desc) i d;
    s ← upd (strides desc) i desc_stride;
    desc_stride ← int32 (desc_stride * d);
    mret ({| extents := e; strides := s |}, desc_stride)) st =
  Done ({| extents := s; strides := stride s <$> range 0 (zlen s) |}, volume s) st.
Proof.
  intros Hb. revert e t. induction k as [|k IH]; intros e t Hk He Ht Hd.
  - rewrite range_nil by lia. simpl. rewrite drop_0. f_equal. f_equal. f_equal.
    + apply list_eq. intros d. destruct (decide (d < length s)%nat) as [Hl|Hl]; [apply Hd; lia|].
      by rewrite !(proj2 (lookup_ge_None _ _)) by lia.
    + apply list_eq. intros d. rewrite list_lookup_fmap. destruct (decide (d < length s)%nat) as [Hl|Hl].
      * rewrite (proj2 (Hd d ltac:(lia))). unfold range. rewrite lookup_seqZ_lt by lia. simpl. by rewrite Z.add_0_l.
      * rewrite !(proj2 (lookup_ge_None _ _)); [done|unfold range; rewrite length_seqZ; lia|lia].
  - destruct (lookup_lt_is_Some_2 s k) as [x Hx]; [lia|].
    replace (Z.of_nat (Datatypes.S k)) with (Z.of_nat k + 1) by lia. rewrite range_snoc by lia. rewrite reverse_snoc.
    cbn [fold_m]. unfold mbind at 1, M_bind at 1.
    rewrite (bind_done _ _ _ x st) by (apply at_done, zget_Some; rewrite Nat2Z.id; split; [lia|done]). simpl.
    rewrite (bind_done _ _ _ _ _ (upd_done e (Z.of_nat k) x st ltac:(lia))).
    rewrite (bind_done _ _ _ _ _ (upd_done t (Z.of_nat k) (volume (drop (Datatypes.S k) s)) st ltac:(lia))).
    assert (volume (drop (Datatypes.S k) s) * x = volume (drop k s)) as Hv.
    { rewrite (drop_S _ _ _ Hx). change (volume (x :: drop (Datatypes.S k) s)) with (x * volume (drop (Datatypes.S k) s)). lia. }
    rewrite Hv. assert (is_int32 (volume (drop k s))) as Hi.
    { apply bounded_int32. rewrite <- (take_drop k s) in Hb. by apply bounded_app in Hb as [_ ?]. }
    rewrite (bind_done _ _ _ (volume (drop k s)) st) by (by apply wp_run_done, wp_int32). unfold mret, M_ret.
    apply IH; [lia|by rewrite zset_length|by rewrite zset_length|]. intros d Hdk. unfold zset. rewrite Nat2Z.id.
    destruct (decide (d = k)) as [->|Hne].
    + rewrite !list_lookup_insert_eq by lia. split; [done|]. unfold stride. by replace (Z.to_nat (Z.of_nat k + 1)) with (Datatypes.S k) by lia.
    + rewrite !list_lookup_insert_ne by lia. apply Hd. lia.
Qed.

Definition desc_of (s : list Z) : NdArrayDesc := {| extents := s; strides := stride s <$> range 0 (zlen s) |}.

Lemma CopyDimsToDesc_done {S} s (st : S) : bounded s → CopyDimsToDesc (zlen s) s st = Done (desc_of s) st.
Proof.
  intros Hb. unfold CopyDimsToDesc. rewrite Nat2Z.id.
  pose proof (copy_dims_loop s (length s) (replicate (length s) 0) (replicate (length s) 0) st Hb) as Hrun.
  rewrite drop_ge in Hrun by lia. rewrite (bind_done _ _ _ _ _ (Hrun ltac:(lia) ltac:(by rewrite length_replicate)
    ltac:(by rewrite length_replicate) ltac:(lia))). done.
Qed.

(** The strides of an operand whose extents [f] are spread over [g]. *)
Definition spreads (f : list Z) (other : list Z) (t : list Z) : Prop :=
  length t = length f ∧ ∀ d, 0 ≤ d < zlen f →
    (vat 0 t d = stride f d ∧ (vat 0 f d = vat 0 other d ∨ vat 0 other d = 1)) ∨
    (vat 0 t d = 0 ∧ vat 0 f d = 1).

Lemma desc_stride s d : 0 ≤ d < zlen s → vat 0 (strides (desc_of s)) d = stride s d.
Proof.
  intros Hd. unfold vat. simpl. rewrite zget_fmap.
  rewrite (proj2 (zget_Some (range 0 (zlen s)) d d)); [done|]. split; [lia|]. unfold range. rewrite lookup_seqZ. lia.
Qed.

(** The strides while the dimensions up to [k] are made to agree. *)
Definition partly_spread (k : Z) (f : list Z) (zeroed : Z → bool) (x : NdArrayDesc) : Prop :=
  length (strides x) = length f ∧ length (extents x) = length f ∧
  ∀ d, 0 ≤ d < zlen f → vat 0 (strides x) d = if (d <? k) && zeroed d then 0 else stride f d.

Lemma partly_spread_0 f zeroed : partly_spread 0 f zeroed (desc_of f).
Proof.
  split; [simpl; rewrite length_fmap; unfold range; rewrite length_seqZ; lia|]. split; [done|].
  intros d Hd. rewrite (proj2 (Z.ltb_ge d 0)) by lia. by apply desc_stride.
Qed.

Lemma partly_spread_keep k f zeroed x : zeroed k = false → partly_spread k f zeroed x → partly_spread (k + 1) f zeroed x.
Proof.
  intros Hk (Hs & He & Hd). split; [done|]. split; [done|]. intros d Hdr. rewrite (Hd d Hdr).
  destruct (decide (d = k)) as [->|Hne]; [by rewrite Hk, !andb_false_r|].
  destruct (Z.ltb_spec d k), (Z.ltb_spec d (k + 1)); done || lia.
Qed.

Lemma wp_repeat_dim {S} k f zeroed x extent (Q : NdArrayDesc → S → Prop) E st :
  0 ≤ k < zlen f → zeroed k = true → partly_spread k f zeroed x →
  (∀ x', partly_spread (k + 1) f zeroed x' → Q x' st) → wp (repeat_dim x k extent) Q E st.
Proof.
  intros Hk Hz (Hs & He & Hd) HQ. unfold repeat_dim. wp_steps. apply wp_upd; [lia|]. wp_steps. apply wp_upd; [lia|].
  wp_steps. apply HQ. split; [simpl; by rewrite zset_length|]. split; [simpl; by rewrite zset_length|]. simpl.
  intros d Hdr. destruct (decide (d = k)) as [->|Hne].
  - rewrite vat_zset_eq by lia. by rewrite (proj2 (Z.ltb_lt _ _)), Hz by lia.
  - rewrite vat_zset_ne by lia. rewrite (Hd d Hdr).
    destruct (Z.ltb_spec d k), (Z.ltb_spec d (k + 1)); done || lia.
Qed.

Lemma wp_descs {S} f0 f1 (Q : NdArrayDesc * NdArrayDesc → S → Prop) E (st : S) :
  length f0 = length f1 →
  (∀ d, 0 ≤ d < zlen f0 → vat 0 f0 d = vat 0 f1 d ∨ vat 0 f0 d = 1 ∨ vat 0 f1 d = 1) →
  (∀ d0 d1, spreads f0 f1 (strides d0) → spreads f1 f0 (strides d1) → Q (d0, d1) st) →
  wp (fold_m (range 0 (zlen f0)) (desc_of f0, desc_of f1) (λ '(desc0, desc1) i,
    extent0 ← at_ f0 i;
    extent1 ← at_ f1 i;
    if extent0 =? extent1 then mret (desc0, desc1)
    else if extent0 =? 1 then desc0 ← repeat_dim desc0 i extent1; mret (desc0, desc1)
    else desc1 ← repeat_dim desc1 i extent0; mret (desc0, desc1))) Q E st.
Proof.
  intros Hl Hc HQ.
  set (differ := λ d, negb (vat 0 f0 d =? vat 0 f1 d)). set (one := λ d, vat 0 f0 d =? 1).
  set (z0 := λ d, differ d && one d). set (z1 := λ d, differ d && negb (one d)).
  apply (wp_fold_pure _ _ _ (λ done '(x0, x1), partly_spread (zlen done) f0 z0 x0 ∧ partly_spread (zlen done) f1 z1 x1)).
  - split; apply partly_spread_0.
  - intros done i todo [x0 x1] Hs [H0 H1]. destruct (range_split _ _ _ _ Hs) as [-> Hi]. rewrite zlen_snoc.
    wp_steps. eapply wp_at; [apply (vat_zget 0); lia|]. wp_steps. eapply wp_at; [apply (vat_zget 0); lia|].
    assert (z0 (zlen done) = differ (zlen done) && one (zlen done)) as E0 by done.
    assert (z1 (zlen done) = differ (zlen done) && negb (one (zlen done))) as E1 by done.
    unfold differ, one in E0, E1. destruct (vat 0 f0 (zlen done) =? vat 0 f1 (zlen done)).
    { wp_steps. split; [done|]. split; by apply partly_spread_keep. }
    destruct (vat 0 f0 (zlen done) =? 1); wp_steps.
    + apply (wp_repeat_dim (zlen done) f0 z0); [lia|done|done|]. intros x' Hx'. wp_steps. by split_and!; [..|apply partly_spread_keep].
    + apply (wp_repeat_dim (zlen done) f1 z1); [lia|done|done|]. intros x' Hx'. wp_steps. by split_and!; [|apply partly_spread_keep|].
  - intros [x0 x1] [(Hs0 & _ & Hd0) (Hs1 & _ & Hd1)]. rewrite range_length in Hd0, Hd1. apply HQ; (split; [done|]); intros d Hd.
    + specialize (Hc d Hd). rewrite Hd0, (proj2 (Z.ltb_lt _ _)) by lia. unfold z0, differ, one. simpl.
      destruct (Z.eqb_spec (vat 0 f0 d) (vat 0 f1 d)), (Z.eqb_spec (vat 0 f0 d) 1); simpl; tauto.
    + specialize (Hc d ltac:(lia)). rewrite Hd1, (proj2 (Z.ltb_lt _ _)) by lia. unfold z1, differ, one. simpl.
      destruct (Z.eqb_spec (vat 0 f0 d) (vat 0 f1 d)), (Z.eqb_spec (vat 0 f0 d) 1); simpl; [left; split; [done|left; congruence]..|tauto|].
      right. split; [done|tauto].
Qed.

(** ** Where an operand is read *)

Lemma SubscriptToIndex_done {S} desc indexes (st : S) :
  zlen (strides desc) = 5 → zlen indexes = 5 →
  (∀ d, 0 ≤ d < 5 → 0 ≤ vat 0 indexes d * vat 0 (strides desc) d) → dot (strides desc) (vat 0 indexes) ≤ int32_max →
  SubscriptToIndex desc indexes st = Done (dot (strides desc) (vat 0 indexes)) st.
Proof.
  intros Hs Hi Hp. destruct desc as [e t]. simpl in *. unfold dot. rewrite Hs.
  change (range 0 5) with [0; 1; 2; 3; 4]. unfold SubscriptToIndex. change (range 0 5) with [0; 1; 2; 3; 4].
  cbn [fmap list_fmap total foldr fold_m strides]. intros Hb.
  pose proof (Hp 0 ltac:(lia)). pose proof (Hp 1 ltac:(lia)). pose proof (Hp 2 ltac:(lia)).
  pose proof (Hp 3 ltac:(lia)). pose proof (Hp 4 ltac:(lia)). apply wp_run_done.
  do 5 (wp_steps; eapply wp_at; [apply (vat_zget 0); lia|]; wp_steps; eapply wp_at; [apply (vat_zget 0); lia|]; wp_steps;
    (apply wp_int32; [unfold is_int32, int32_min, int32_max in *; lia|]); wp_steps;
    (apply wp_int32; [unfold is_int32, int32_min, int32_max in *; lia|])).
  wp_steps. split; [lia|done].
Qed.

(** The index of the operand for an index of the result. *)
Definition operand_index (f : list Z) (ix : Z → Z) (d : Z) : Z := if vat 0 f d =? 1 then 0 else ix d.

(** The extents [g] of the result over those of the operands. *)
Definition result_of (f other g : list Z) : Prop :=
  length g = length f ∧ ∀ d, 0 ≤ d < zlen f →
    (vat 0 f d = vat 0 g d ∨ vat 0 f d = 1) ∧ (vat 0 f d = 1 → vat 0 other d = vat 0 g d).

Lemma operand_valid f other g ix : result_of f other g → valid g ix → valid f (operand_index f ix).
Proof.
  intros [Hl Hr] Hv d x Hx. pose proof (zget_range _ _ _ Hx) as Hd. destruct (Hr d Hd) as [Hc _].
  assert (vat 0 f d = x) as Hfx by (unfold vat; by rewrite Hx). unfold operand_index. rewrite Hfx.
  destruct (Z.eqb_spec x 1) as [->|Hne]; [lia|]. apply Hv.
  rewrite (vat_zget 0 g) by lia. f_equal. destruct Hc as [Hc|Hc]; congruence.
Qed.

Lemma spread_offset f other g t ix : spreads f other t → result_of f other g → valid g ix →
  dot t ix = flat f (operand_index f ix) ∧ ∀ d, 0 ≤ d < zlen f → ix d * vat 0 t d = operand_index f ix d * stride f d.
Proof.
  intros [Ht Hs] [Hl Hr] Hv.
  assert (∀ d, 0 ≤ d < zlen f → ix d * vat 0 t d = operand_index f ix d * stride f d) as Hterm.
  { intros d Hd. unfold operand_index. destruct (Hr d Hd) as [Hc H1]. destruct (Hs d Hd) as [[-> Ho]|[-> ->]]; [|simpl; lia].
    destruct (Z.eqb_spec (vat 0 f d) 1) as [Hf|Hf]; [|done].
    assert (vat 0 g d = 1) as Hg by (rewrite <- (H1 Hf); destruct Ho; congruence).
    assert (zget g d = Some 1) as Hgd by (rewrite (vat_zget 0 g) by lia; congruence).
    specialize (Hv d 1 Hgd). assert (ix d = 0) as -> by lia. lia. }
  split; [|done]. unfold dot, flat. rewrite Ht. apply total_ext. intros d Hd%elem_of_range. by apply Hterm.
Qed.

(** The sum that [SubscriptToIndex] computes. *)
Lemma operand_subscript {S} f other g desc indexes (st : S) :
  zlen f = 5 → zlen indexes = 5 → bounded f → spreads f other (strides desc) → result_of f other g →
  valid g (vat 0 indexes) →
  SubscriptToIndex desc indexes st = Done (flat f (operand_index f (vat 0 indexes))) st ∧
  0 ≤ flat f (operand_index f (vat 0 indexes)) < volume f.
Proof.
  intros Hf Hi Hb Hs Hr Hv. destruct (spread_offset _ _ _ _ _ Hs Hr Hv) as [Hdot Hterm].
  pose proof (operand_valid _ _ _ _ Hr Hv) as Hov. pose proof (flat_bound f _ Hov) as Hfb.
  pose proof (bounded_volume _ Hb) as Hvol. split; [|done]. rewrite <- Hdot. destruct Hs as [Ht _].
  apply SubscriptToIndex_done; [lia|done| |lia]. intros d Hd. rewrite Hterm by lia.
  pose proof (bounded_stride f d Hb). destruct (zget_is_Some f d) as [x Hx]; [lia|]. specialize (Hov d x Hx).
  apply Z.mul_nonneg_nonneg; lia.
Qed.

(** A shape as its own result. *)
Lemma own_strides f : spreads f f (strides (desc_of f)).
Proof.
  split; [simpl; rewrite length_fmap; unfold range; rewrite length_seqZ; lia|].
  intros d Hd. left. split; [by apply desc_stride|by left].
Qed.

Lemma own_result f : result_of f f f.
Proof. split; [done|]. intros d Hd. split; [by left|done]. Qed.

Lemma operand_self g ix : valid g ix → flat g (operand_index g ix) = flat g ix.
Proof.
  intros Hv. apply flat_ext. intros d Hd. unfold operand_index. destruct (Z.eqb_spec (vat 0 g d) 1) as [H1|]; [|done].
  assert (zget g d = Some 1) as Hg by (rewrite (vat_zget 0 g) by lia; congruence). specialize (Hv d 1 Hg). lia.
Qed.

(** *** Extended shapes *)

Definition padded (n : Z) (s : list Z) : list Z := replicate (Z.to_nat (n - zlen s)) 1 ++ s.

Lemma ExtendedShape_done {S} n s (st : S) : zlen s ≤ n → ExtendedShape n s st = Done (padded n s) st.
Proof. intros Hn. unfold ExtendedShape, check. by rewrite (proj2 (Z.leb_le _ _)). Qed.

Lemma extended_length n s : zlen s ≤ n → zlen (padded n s) = n.
Proof. intros Hn. unfold padded. rewrite length_app, length_replicate. lia. Qed.

Lemma padded_dim n s d : zlen s ≤ n → 0 ≤ d < n → vat 0 (padded n s) d = dimr s (Z.to_nat (n - 1 - d)).
Proof.
  intros Hn Hd. unfold padded, vat, zget, dimr. rewrite (proj2 (Z.leb_le 0 d)) by lia.
  destruct (decide (d < n - zlen s)) as [Hlt|Hge].
  - rewrite lookup_app_l by (rewrite length_replicate; lia).
    rewrite (proj2 (lookup_replicate (Z.to_nat (n - zlen s)) 1 1 (Z.to_nat d))) by (split; [done|lia]).
    by rewrite (proj2 (lookup_ge_None (reverse s) (Z.to_nat (n - 1 - d)))) by (rewrite length_reverse; lia).
  - rewrite lookup_app_r, length_replicate by (rewrite length_replicate; lia).
    rewrite reverse_lookup by lia.
    replace (length s - Datatypes.S (Z.to_nat (n - 1 - d)))%nat with (Z.to_nat d - Z.to_nat (n - zlen s))%nat by lia.
    by destruct (lookup_lt_is_Some_2 s (Z.to_nat d - Z.to_nat (n - zlen s))) as [x ->]; [lia|].
Qed.

Lemma volume_extended n s : volume (padded n s) = volume s.
Proof.
  unfold padded. rewrite volume_app. assert (∀ k, volume (replicate k 1) = 1) as Hr.
  { unfold volume. induction k as [|k IH]; [done|]. simpl. rewrite IH. lia. }
  rewrite Hr. lia.
Qed.

Lemma bounded_extended n s : bounded s → bounded (padded n s).
Proof.
  intros [Hn Hm]. unfold bounded, padded. rewrite fmap_app, fmap_replicate. split.
  - apply Forall_app. split; [|done]. apply Forall_replicate. lia.
  - change (Z.max 1 1) with 1. pose proof (volume_extended (n) (Z.max 1 <$> s)) as Hv. unfold padded in Hv.
    rewrite length_fmap in Hv. by rewrite Hv.
Qed.

Lemma flat_replicate k s ix : (∀ d, 0 ≤ d < Z.of_nat k → ix d = 0) →
  flat (replicate k 1 ++ s) ix = flat s (λ d, ix (d + Z.of_nat k)).
Proof.
  revert ix. induction k as [|k IH]; intros ix Hz.
  - simpl. apply flat_ext. intros d Hd. f_equal. lia.
  - cbn [replicate app]. rewrite flat_cons, (Hz 0) by lia. rewrite IH by (intros d Hd; apply Hz; lia).
    rewrite Z.mul_0_l, Z.add_0_l. apply flat_ext. intros d Hd. f_equal. lia.
Qed.

Lemma digits_replicate k s e : 0 ≤ e < volume s → digits (replicate k 1 ++ s) e = replicate k 0 ++ digits s e.
Proof.
  intros He. induction k as [|k IH]; [done|]. cbn [replicate app digits].
  assert (volume (replicate k 1 ++ s) = volume s) as ->.
  { pose proof (volume_extended (zlen s + Z.of_nat k) s) as Hv. unfold padded in Hv.
    by replace (Z.to_nat (zlen s + Z.of_nat k - zlen s)) with k in Hv by lia. }
  by rewrite Z.div_small, Z.mod_small, IH by lia.
Qed.

(** The index of a position is unique. *)
Lemma digits_flat s ix : valid s ix → ∀ d, 0 ≤ d < zlen s → vat 0 (digits s (flat s ix)) d = ix d.
Proof.
  revert ix. induction s as [|x s IH]; intros ix Hv d Hd; [simpl in Hd; lia|].
  apply valid_cons in Hv as [H0 Hv]. pose proof (flat_bound s _ Hv) as Hb. rewrite flat_cons, digits_block by done.
  destruct (decide (d = 0)) as [->|Hne]; [done|]. replace d with (d - 1 + 1) by lia. unfold vat.
  rewrite zget_cons by lia. fold (vat 0 (digits s (flat s (λ d, ix (d + 1)))) (d - 1)).
  rewrite IH; [done|done|simpl in Hd; lia].
Qed.

(** *** Operands of a broadcast *)

Lemma broadcast_dims s1 s2 so : broadcast s1 s2 = Some so →
  length so = max (length s1) (length s2) ∧ ∀ i, broadcast_dim (dimr s1 i) (dimr s2 i) = Some (dimr so i).
Proof.
  unfold broadcast. intros (r & Hr & ->)%fmap_Some. apply zip_broadcast_lookup in Hr as [Hl Hi].
  rewrite !length_reverse in Hl. split; [by rewrite length_reverse|]. intros i. unfold dimr. rewrite reverse_involutive.
  destruct (decide (i < length r)%nat) as [Hlt|Hge].
  - rewrite (Hi i Hlt). by destruct (lookup_lt_is_Some_2 r i Hlt) as [x ->].
  - rewrite !(proj2 (lookup_ge_None _ _)) by (rewrite ?length_reverse; lia). done.
Qed.

Lemma broadcast_dim_cases a b e : 0 ≤ a → 0 ≤ b → broadcast_dim a b = Some e → (a = e ∧ (b = e ∨ b = 1)) ∨ (a = 1 ∧ b = e).
Proof.
  intros Ha Hb. unfold broadcast_dim. rewrite (proj2 (Z.eqb_neq a (-1))), (proj2 (Z.eqb_neq b (-1))) by lia. simpl.
  destruct (Z.eqb_spec a b) as [->|]; [intros [= <-]; auto|]. destruct (Z.eqb_spec a 1) as [->|]; [intros [= <-]; auto|].
  destruct (Z.eqb_spec b 1) as [->|]; [intros [= <-]; auto|done].
Qed.

Lemma broadcast_nonneg s1 s2 so : nonneg s1 → nonneg s2 → broadcast s1 s2 = Some so → nonneg so.
Proof.
  intros H1 H2 [Hl Hd]%broadcast_dims. unfold nonneg. apply Forall_forall. intros x (i & Hi)%list_elem_of_lookup.
  pose proof (lookup_lt_Some _ _ _ Hi) as Hlt. specialize (Hd (length so - Datatypes.S i)%nat).
  assert (dimr so (length so - Datatypes.S i) = x) as Hx.
  { unfold dimr. rewrite reverse_lookup by lia.
    replace (length so - Datatypes.S (length so - Datatypes.S i))%nat with i by lia. by rewrite Hi. }
  rewrite Hx in Hd. apply broadcast_dim_cases in Hd; [|by apply dimr_nonneg..].
  pose proof (dimr_nonneg s1 (length so - Datatypes.S i) H1). pose proof (dimr_nonneg s2 (length so - Datatypes.S i) H2). lia.
Qed.

Lemma padded_result n s1 s2 so : nonneg s1 → nonneg s2 → broadcast s1 s2 = Some so → zlen so ≤ n →
  result_of (padded n s1) (padded n s2) (padded n so) ∧ result_of (padded n s2) (padded n s1) (padded n so) ∧
  ∀ d, 0 ≤ d < n → vat 0 (padded n s1) d = vat 0 (padded n s2) d ∨ vat 0 (padded n s1) d = 1 ∨ vat 0 (padded n s2) d = 1.
Proof.
  intros H1 H2 [Hl Hd]%broadcast_dims Hn. pose proof (extended_length n s1 ltac:(lia)). pose proof (extended_length n s2 ltac:(lia)).
  pose proof (extended_length n so Hn).
  assert (∀ d, 0 ≤ d < n → (vat 0 (padded n s1) d = vat 0 (padded n so) d ∧
      (vat 0 (padded n s2) d = vat 0 (padded n so) d ∨ vat 0 (padded n s2) d = 1)) ∨
    (vat 0 (padded n s1) d = 1 ∧ vat 0 (padded n s2) d = vat 0 (padded n so) d)) as Hc.
  { intros d Hdn. rewrite !padded_dim by lia. by apply broadcast_dim_cases; [apply dimr_nonneg..|]. }
  split_and!; [split; [lia|]|split; [lia|]|]; intros d Hdr; destruct (Hc d ltac:(lia)) as [[? [?|?]]|[? ?]];
    repeat split; intros; first [congruence|left; congruence|right; congruence|right; left; congruence|right; right; congruence].
Qed.

(** The index of an operand for an index of the result: dimensions are aligned at the
    right end, and one of a single element always gives that. *)
Definition source_index (s so : list Z) (ix : Z → Z) (d : Z) : Z :=
  if vat 0 s d =? 1 then 0 else ix (d + (zlen so - zlen s)).

Lemma vat_app_r (l k : list Z) d : 0 ≤ d → vat 0 (l ++ k) (d + zlen l) = vat 0 k d.
Proof.
  intros Hd. unfold vat, zget. rewrite !(proj2 (Z.leb_le _ _)) by lia. rewrite lookup_app_r by lia.
  by replace (Z.to_nat (d + zlen l) - length l)%nat with (Z.to_nat d) by lia.
Qed.

Lemma operand_padded n s so e : zlen s ≤ zlen so ≤ n → 0 ≤ e < volume so →
  flat (padded n s) (operand_index (padded n s) (vat 0 (digits (padded n so) e))) =
  flat s (source_index s so (vat 0 (digits so e))).
Proof.
  intros Hn He. unfold padded at 3. rewrite digits_replicate by done. unfold padded at 1. rewrite flat_replicate.
  - apply flat_ext. intros d Hd. unfold operand_index, source_index.
    assert (vat 0 (padded n s) (d + Z.of_nat (Z.to_nat (n - zlen s))) = vat 0 s d) as ->.
    { unfold padded. rewrite <- (length_replicate (Z.to_nat (n - zlen s)) 1) at 2. apply vat_app_r. lia. }
    case_match; [done|].
    replace (d + Z.of_nat (Z.to_nat (n - zlen s))) with
      (d + (zlen so - zlen s) + zlen (replicate (Z.to_nat (n - zlen so)) 0)) by (rewrite length_replicate; lia).
    apply vat_app_r. lia.
  - intros d Hd. unfold operand_index, padded. unfold vat at 1, zget. rewrite (proj2 (Z.leb_le 0 d)) by lia.
    rewrite lookup_app_l by (rewrite length_replicate; lia).
    by rewrite (proj2 (lookup_replicate (Z.to_nat (n - zlen s)) 1 1 (Z.to_nat d))) by (split; [done|lia]).
Qed.

Lemma volume_positive s : nonneg s → 0 < volume s → Forall (λ d, 0 < d) s.
Proof.
  induction 1 as [|x s Hx Hs IH]; intros Hv; [constructor|]. unfold volume in Hv. cbn [foldr] in Hv. fold (volume s) in Hv.
  pose proof (volume_nonneg s Hs). constructor; [nia|apply IH; nia].
Qed.

(** ** Filling the result *)

Lemma wp_fill_positions n (g : Z → Z) (body : Z → M (list Z) unit) buf E :
  n ≤ zlen buf →
  (∀ e s, 0 ≤ e < n → n ≤ zlen s → wp (body e) (λ _ s', s' = zset e (g e) s) E s) →
  wp (for_each (range 0 n) body) (λ _ out, length out = length buf ∧ (∀ e, 0 ≤ e < n → zget out e = Some (g e)) ∧
    ∀ e, n ≤ e → zget out e = zget buf e) E buf.
Proof.
  intros Hn Hbody. destruct (Z.le_gt_cases n 0) as [Hle|Hgt].
  { rewrite range_nil by lia. apply wp_ret. split_and!; [done|lia|done]. }
  eapply wp_post; [|apply (wp_for_each (λ done out, length out = length buf ∧
    (∀ e, 0 ≤ e < zlen done → zget out e = Some (g e)) ∧ ∀ e, zlen done ≤ e → zget out e = zget buf e))].
  - intros [] out Hout. simpl in Hout. rewrite range_length in Hout. replace (Z.of_nat (Z.to_nat (n - 0))) with n in Hout by lia. done.
  - split_and!; [done|simpl; lia|done].
  - intros done e todo out Hs (Hl & Hd & Hr). destruct (range_split _ _ _ _ Hs) as [-> Hlt].
    eapply wp_post; [|apply Hbody; lia]. intros [] out' ->. rewrite zlen_snoc. split_and!; [by rewrite zset_length| |].
    + intros e He. destruct (decide (e = zlen done)) as [->|Hne]; [apply zget_zset_eq; lia|].
      rewrite zget_zset_ne by lia. apply Hd. lia.
    + intros e He. rewrite zget_zset_ne by lia. apply Hr. lia.
Qed.

Lemma for_each_fmap {S A B} (l : list A) (h : A → B) (f : B → M S unit) s :
  for_each (h <$> l) f s = for_each l (λ x, f (h x)) s.
Proof.
  revert s. induction l as [|x l IH]; intros s; [done|]. rewrite fmap_cons. cbn [for_each]. unfold mbind, M_bind.
  destruct (f (h x) s) as [[] s'| |]; [apply IH|done..].
Qed.

(** The result has at every index what [f] makes of the operands there. *)
Definition combines (f : Z → Z → Z) (s1 in1 s2 in2 so out : list Z) : Prop := ∀ ix, valid so ix →
  zget out (flat so ix) =
    Some (f (vat 0 in1 (flat s1 (source_index s1 so ix))) (vat 0 in2 (flat s2 (source_index s2 so ix)))).

Lemma combines_positions f s1 in1 s2 in2 so out : zlen s1 ≤ zlen so → zlen s2 ≤ zlen so →
  (∀ e, 0 ≤ e < volume so → zget out e =
    Some (f (vat 0 in1 (flat s1 (source_index s1 so (vat 0 (digits so e)))))
            (vat 0 in2 (flat s2 (source_index s2 so (vat 0 (digits so e))))))) →
  combines f s1 in1 s2 in2 so out.
Proof.
  intros H1 H2 Hout ix Hix. rewrite (Hout _ (flat_bound _ _ Hix)).
  assert (∀ s, zlen s ≤ zlen so → flat s (source_index s so (vat 0 (digits so (flat so ix)))) = flat s (source_index s so ix)) as Hs.
  { intros s Hl. apply flat_ext. intros d Hd. unfold source_index. case_match; [done|]. apply digits_flat; [done|lia]. }
  by rewrite (Hs s1 H1), (Hs s2 H2).
Qed.
