(* ===== verification/MaximumMinimumProofs.v ===== *)
(** * The maximum and minimum kernels compute the broadcast maximum and minimum *)

From S2P Require Import Prelude LiteRtIr OpShapes ShapeProofs ArenaPlanner Subgraph PackedInts TensorLayout TensorCopy KernelUtil KernelProofs KernelBroadcast KernelBroadcastProofs MaximumMinimum.

(** ** The data *)

Lemma broadcast_self s : nonneg s → broadcast s s = Some s.
Proof.
  intros Hs. unfold broadcast. assert (∀ l, zip_broadcast l l = Some l) as Hz; [|by rewrite Hz; simpl; rewrite reverse_involutive].
  induction l as [|x l IH]; [done|]. simpl. rewrite IH. unfold broadcast_dim. rewrite Z.eqb_refl.
  by destruct (Z.eqb_spec x (-1)) as [->|].
Qed.

Lemma wp_NdArrayDescs {S} n s1 s2 (Q : NdArrayDesc * NdArrayDesc → S → Prop) E st :
  bounded s1 → bounded s2 → zlen s1 ≤ n → zlen s2 ≤ n →
  (∀ d, 0 ≤ d < n → vat 0 (padded n s1) d = vat 0 (padded n s2) d ∨ vat 0 (padded n s1) d = 1 ∨ vat 0 (padded n s2) d = 1) →
  (∀ d1 d2, spreads (padded n s1) (padded n s2) (strides d1) → spreads (padded n s2) (padded n s1) (strides d2) → Q (d1, d2) st) →
  wp (NdArrayDescsForElementwiseBroadcast n s1 s2) Q E st.
Proof.
  intros Hb1 Hb2 H1 H2 Hc HQ. pose proof (extended_length n s1 H1) as P1. pose proof (extended_length n s2 H2) as P2.
  assert (∀ s, bounded s → zlen s = n → CopyDimsToDesc n s st = Done (desc_of s) st) as Hcopy.
  { intros s Hs <-. by apply CopyDimsToDesc_done. }
  unfold NdArrayDescsForElementwiseBroadcast, wp.
  rewrite (bind_done _ _ _ _ _ (ExtendedShape_done n s1 st H1)), (bind_done _ _ _ _ _ (ExtendedShape_done n s2 st H2)).
  rewrite (bind_done _ _ _ _ _ (Hcopy _ (bounded_extended n _ Hb1) P1)), (bind_done _ _ _ _ _ (Hcopy _ (bounded_extended n _ Hb2) P2)).
  pose proof (wp_descs (padded n s1) (padded n s2) Q E st) as Hd. rewrite P1 in Hd. apply Hd; [lia|done|done].
Qed.

Section data.
Context (f : Z → Z → Z) (s1 in1 s2 in2 so buf : list Z).
Hypothesis Hb1 : bounded s1.
Hypothesis Hb2 : bounded s2.
Hypothesis Hbo : bounded so.
Hypothesis Hso : broadcast s1 s2 = Some so.
Hypothesis Hl1 : volume s1 ≤ zlen in1.
Hypothesis Hl2 : volume s2 ≤ zlen in2.
Hypothesis Hlo : volume so ≤ zlen buf.

(** The value at a position of the result. *)
Definition value_at (e : Z) : Z :=
  f (vat 0 in1 (flat s1 (source_index s1 so (vat 0 (digits so e)))))
    (vat 0 in2 (flat s2 (source_index s2 so (vat 0 (digits so e))))).

Lemma wp_same_shapes : s1 = s2 →
  wp (flat_size ← MatchingElementsSize s1 s2 so;
      for_each (range 0 flat_size) (λ i, x ← at_ in1 i; y ← at_ in2 i; store i (f x y)))
    (λ _ out, length out = length buf ∧ (∀ e, 0 ≤ e < volume so → zget out e = Some (value_at e)) ∧
      ∀ e, volume so ≤ e → zget out e = zget buf e) (λ _, False) buf.
Proof.
  intros Heq. assert (s2 = s1) as E2 by done. assert (so = s1) as Eo.
  { rewrite E2, broadcast_self in Hso by apply Hb1. congruence. }
  unfold MatchingElementsSize. wp_steps. apply wp_FlatSize; [done|]. wp_steps. apply wp_FlatSize; [done|]. wp_steps.
  apply wp_FlatSize; [done|]. unfold check. rewrite E2, Eo, Z.eqb_refl. wp_steps.
  rewrite E2 in Hl2. rewrite Eo in Hlo. apply wp_fill_positions; [done|]. intros e out He Ho.
  wp_steps. eapply wp_at; [apply (vat_zget 0); lia|]. wp_steps. eapply wp_at; [apply (vat_zget 0); lia|].
  apply wp_vset; [lia|]. f_equal. unfold value_at. rewrite E2, Eo.
  pose proof (volume_positive s1 (proj1 Hb1) ltac:(lia)) as Hp. destruct (flat_digits s1 e Hp He) as [Hf Hv].
  assert (flat s1 (source_index s1 s1 (vat 0 (digits s1 e))) = e) as ->; [|done].
  rewrite <- Hf at 2. rewrite <- (operand_self s1 _ Hv). apply flat_ext. intros d Hd. unfold source_index, operand_index.
  by replace (d + (zlen s1 - zlen s1)) with d by lia.
Qed.

(** The elements that are combined at a position. *)
Lemma wp_combine_at desc1 desc2 e out : zlen so ≤ 5 → 0 ≤ e < volume so → volume so ≤ zlen out →
  spreads (padded 5 s1) (padded 5 s2) (strides desc1) → spreads (padded 5 s2) (padded 5 s1) (strides desc2) →
  let indexes := digits (padded 5 so) e in
  wp (o ← SubscriptToIndex (desc_of (padded 5 so)) indexes;
      i1 ← SubscriptToIndex desc1 indexes;
      x ← at_ in1 i1;
      i2 ← SubscriptToIndex desc2 indexes;
      y ← at_ in2 i2;
      store o (f x y)) (λ _ out', out' = zset e (value_at e) out) (λ _, False) out.
Proof.
  intros H5 He Ho Hs1 Hs2 indexes. destruct (broadcast_dims _ _ _ Hso) as [Hlen _].
  destruct (padded_result 5 s1 s2 so (proj1 Hb1) (proj1 Hb2) Hso H5) as (Hr1 & Hr2 & _).
  pose proof (extended_length 5 so H5) as Hpl. rewrite <- (volume_extended 5 so) in He.
  pose proof (volume_positive _ (proj1 (bounded_extended 5 so Hbo)) ltac:(lia)) as Hp.
  destruct (flat_digits _ e Hp He) as [Hf Hv]. fold indexes in Hf, Hv.
  assert (zlen indexes = 5) as Hi by (unfold indexes; rewrite digits_length; lia).
  destruct (operand_subscript (padded 5 so) (padded 5 so) (padded 5 so) (desc_of (padded 5 so)) indexes out Hpl Hi
    (bounded_extended _ _ Hbo) (own_strides _) (own_result _) Hv) as [Eo Ro].
  destruct (operand_subscript _ _ _ desc1 indexes out (extended_length 5 s1 ltac:(lia)) Hi
    (bounded_extended _ _ Hb1) Hs1 Hr1 Hv) as [E1 R1].
  destruct (operand_subscript _ _ _ desc2 indexes out (extended_length 5 s2 ltac:(lia)) Hi
    (bounded_extended _ _ Hb2) Hs2 Hr2 Hv) as [E2 R2].
  rewrite (operand_self _ _ Hv), Hf in Eo. rewrite volume_extended in R1, R2, He.
  unfold wp. rewrite (bind_done _ _ _ _ _ Eo), (bind_done _ _ _ _ _ E1).
  rewrite (bind_done _ _ _ _ _ (at_done in1 _ _ out (vat_zget 0 in1 _ ltac:(split; [apply R1|]; eapply Z.lt_le_trans; [apply R1|exact Hl1])))).
  rewrite (bind_done _ _ _ _ _ E2).
  rewrite (bind_done _ _ _ _ _ (at_done in2 _ _ out (vat_zget 0 in2 _ ltac:(split; [apply R2|]; eapply Z.lt_le_trans; [apply R2|exact Hl2])))).
  apply wp_vset; [lia|]. f_equal. unfold value_at, indexes. by rewrite !operand_padded by lia.
Qed.

Lemma wp_different_shapes : zlen so ≤ 5 →
  wp ('(desc1, desc2) ← NdArrayDescsForElementwiseBroadcast 5 s1 s2;
      extended_output_shape ← ExtendedShape 5 so;
      output_desc ← CopyDimsToDesc 5 extended_output_shape;
      NDOpsHelper 5 output_desc (λ indexes,
        o ← SubscriptToIndex output_desc indexes;
        i1 ← SubscriptToIndex desc1 indexes;
        x ← at_ in1 i1;
        i2 ← SubscriptToIndex desc2 indexes;
        y ← at_ in2 i2;
        store o (f x y)))
    (λ _ out, length out = length buf ∧ (∀ e, 0 ≤ e < volume so → zget out e = Some (value_at e)) ∧
      ∀ e, volume so ≤ e → zget out e = zget buf e) (λ _, False) buf.
Proof.
  intros H5. destruct (broadcast_dims _ _ _ Hso) as [Hlen _].
  destruct (padded_result 5 s1 s2 so (proj1 Hb1) (proj1 Hb2) Hso H5) as (Hr1 & Hr2 & Hc).
  pose proof (extended_length 5 so H5) as Po.
  assert (∀ s, bounded s → zlen s = 5 → CopyDimsToDesc 5 s buf = Done (desc_of s) buf) as Hcopy.
  { intros s Hs H. rewrite <- H at 1. by apply CopyDimsToDesc_done. }
  apply wp_bind. apply wp_NdArrayDescs; [done|done|lia|lia|intros d Hd; apply Hc; lia|]. intros desc1 desc2 Hs1 Hs2.
  unfold wp. rewrite (bind_done _ _ _ _ _ (ExtendedShape_done 5 so buf H5)).
  rewrite (bind_done _ _ _ _ _ (Hcopy _ (bounded_extended 5 _ Hbo) Po)).
  rewrite NDOpsHelper_visits; [|lia|apply (bounded_extended 5 so Hbo)|simpl; lia]. simpl extents.
  rewrite for_each_fmap, volume_extended. apply wp_fill_positions; [done|]. intros e out He Ho. by apply wp_combine_at.
Qed.

Lemma wp_BroadcastSlow : s1 = s2 ∨ zlen so ≤ 5 →
  wp (MaximumMinimumBroadcastSlow f s1 in1 s2 in2 so)
    (λ _ out, length out = length buf ∧ combines f s1 in1 s2 in2 so out ∧
      ∀ e, volume so ≤ e → zget out e = zget buf e) (λ _, False) buf.
Proof.
  intros H5. destruct (broadcast_dims _ _ _ Hso) as [Hlen _]. unfold MaximumMinimumBroadcastSlow.
  eapply wp_post with (Q := λ _ out, length out = length buf ∧ (∀ e, 0 ≤ e < volume so → zget out e = Some (value_at e)) ∧
      ∀ e, volume so ≤ e → zget out e = zget buf e).
  { intros [] out (Hl & Hv & Hr). split; [done|]. split; [|done]. apply combines_positions; [lia|lia|exact Hv]. }
  case_decide as Heq; [by apply wp_same_shapes|]. apply wp_different_shapes. by destruct H5.
Qed.
End data.

(** ** The kernel *)

Lemma wp_NumElements {S} s (Q : Z → S → Prop) E st : bounded s → Q (volume s) st → wp (NumElements s) Q E st.
Proof.
  intros Hb HQ. unfold NumElements.
  apply (wp_fold_pure _ _ _ (λ done n, n = volume done)); [done| |by intros ? ->].
  intros done d todo n -> ->. apply wp_int64; [|split; [done|rewrite volume_app; unfold volume; simpl; lia]].
  replace (done ++ d :: todo) with ((done ++ [d]) ++ todo) in Hb by (by rewrite <- app_assoc).
  apply bounded_app in Hb as [Hb%bounded_volume _]. rewrite volume_app in Hb. unfold volume in Hb at 2 4. simpl in Hb.
  unfold int64_min, int64_max, int32_max in *. lia.
Qed.

(** No index of the result when an operand is empty. *)
Lemma empty_operand s1 s2 so ix : nonneg s1 → nonneg s2 → broadcast s1 s2 = Some so →
  volume s1 = 0 ∨ volume s2 = 0 → ¬ valid so ix.
Proof.
  intros H1 H2 Hso Hv Hix. destruct (broadcast_dims _ _ _ Hso) as [Hlen _].
  destruct (padded_result (zlen so) s1 s2 so H1 H2 Hso ltac:(lia)) as (Hr1 & Hr2 & _).
  assert (padded (zlen so) so = so) as Hp by (unfold padded; by rewrite Z.sub_diag). rewrite Hp in Hr1, Hr2.
  pose proof (flat_bound _ _ (operand_valid _ _ _ _ Hr1 Hix)) as B1.
  pose proof (flat_bound _ _ (operand_valid _ _ _ _ Hr2 Hix)) as B2. rewrite volume_extended in B1, B2. lia.
Qed.

(** The element of an operand at an index of the result, and the maximum or minimum of
    two elements; floating-point numbers need not be comparable. *)
Definition operand (t : OpTensor) (so : list Z) (ix : Z → Z) : Z :=
  vat 0 (contents t) (flat (shape t) (source_index (shape t) so ix)).

Definition extremum (float_less : TfLiteType → Z → Z → bool) (o : op_type) (ty : TfLiteType) (x y v : Z) : Prop :=
  if decide (ty ∈ [kTfLiteFloat32; kTfLiteFloat16; kTfLiteBFloat16]) then
    (v = x ∨ v = y) ∧
    match o with
    | MaximumOp => float_less ty v x = false ∧ float_less ty v y = false
    | MinimumOp => float_less ty x v = false ∧ float_less ty y v = false
    end
  else v = match o with MaximumOp => Z.max x y | MinimumOp => Z.min x y end.

Lemma op_extremum float_less o ty x y :
  (∀ ty x y, float_less ty x y = true → float_less ty y x = false) → supported ty = true →
  extremum float_less o ty x y (op float_less o ty x y).
Proof.
  intros Hless Hty. assert (∀ z, float_less ty z z = false) as Hirr.
  { intros z. destruct (float_less ty z z) eqn:Hz; [|done]. rewrite <- Hz. by apply Hless. }
  unfold extremum, op, less. destruct ty; simpl in Hty; try done; simpl;
    destruct o; repeat case_match; repeat split; auto; lia || by apply Hless.
Qed.

Section kernel.
Context (float_less : TfLiteType → Z → Z → bool) (ResizeTensor : list Z → M OpContext TfLiteStatus).

(** Inputs with all their elements, of shapes whose result has a size in 32 bits; the
    description of arrays has five dimensions. *)
Record operands (c : OpContext) : Prop := {
  od_bounded1 : bounded (shape (input1 c));
  od_bounded2 : bounded (shape (input2 c));
  od_contents1 : volume (shape (input1 c)) ≤ zlen (contents (input1 c));
  od_contents2 : volume (shape (input2 c)) ≤ zlen (contents (input2 c));
  od_result so : broadcasts (shape (input1 c)) (shape (input2 c)) so →
    bounded so ∧ (shape (input1 c) = shape (input2 c) ∨ zlen so ≤ 5)
}.

(** The memory of the result is there. *)
Definition allocated (c : OpContext) : Prop :=
  broadcast (shape (input1 c)) (shape (input2 c)) = Some (shape (output c)) ∧
  volume (shape (output c)) ≤ zlen (contents (output c)).

(** The output of [c'] combines the inputs of [c]. *)
Definition computes (o : op_type) (c c' : OpContext) : Prop :=
  input1 c' = input1 c ∧ input2 c' = input2 c ∧ elem_type (output c') = elem_type (output c) ∧
  shape (output c') = shape (output c) ∧
  combines (op float_less o (elem_type (output c))) (shape (input1 c)) (contents (input1 c))
    (shape (input2 c)) (contents (input2 c)) (shape (output c)) (contents (output c')).

Lemma wp_Eval_kernel o c : operands c → allocated c → supported (elem_type (output c)) = true →
  wp (Eval float_less o) (λ st c', st = kTfLiteOk ∧ computes o c c') (λ _, False) c.
Proof.
  intros [Hb1 Hb2 Hl1 Hl2 Hres] [Hso Hlo] Hty. destruct (Hres _ (proj1 (broadcast_broadcasts _ _ _) Hso)) as [Hbo H5].
  unfold Eval. wp_steps. apply wp_NumElements; [done|]. wp_steps.
  apply (wp_post _ (λ e c', e = bool_decide (volume (shape (input1 c)) = 0 ∨ volume (shape (input2 c)) = 0) ∧ c' = c)).
  2:{ destruct (Z.eqb_spec (volume (shape (input1 c))) 0) as [H0|H0]; wp_steps.
      - split; [|done]. symmetry. apply bool_decide_eq_true. by left.
      - apply wp_NumElements; [done|]. wp_steps. split; [|done].
        destruct (Z.eqb_spec (volume (shape (input2 c))) 0); symmetry; [apply bool_decide_eq_true|apply bool_decide_eq_false]; tauto. }
  intros e c' [-> ->]. case_bool_decide as He.
  - wp_steps. split; [done|]. split_and!; [done..|]. intros ix Hix. exfalso.
    by eapply (empty_operand (shape (input1 c)) (shape (input2 c))); [apply Hb1|apply Hb2|..].
  - rewrite Hty. wp_steps. eapply wp_on_buffer; [by apply wp_BroadcastSlow|].
    intros out (Hl & Hc & _). wp_steps. split; [done|]. by split_and!.
Qed.

(** The context in which [Prepare] resizes the output. *)
Definition typed (c : OpContext) : OpContext := set_output (set_type (elem_type (input1 c)) (output c)) c.

Lemma Prepare_result c : nonneg (shape (input1 c)) → nonneg (shape (input2 c)) →
  elem_type (input1 c) = elem_type (input2 c) →
  Prepare ResizeTensor 2 2 c = Done kTfLiteError c ∧
  Prepare ResizeTensor 2 1 c = match broadcast (shape (input1 c)) (shape (input2 c)) with
    | Some so => ResizeTensor so (typed c) | None => Done kTfLiteError (typed c) end.
Proof.
  intros H1 H2 Ht. split; [done|]. unfold Prepare.
  rewrite (ensure_status_done _ _ (status_of (2 =? 2)) c c), decide_True by done.
  rewrite (ensure_status_done _ _ (status_of (1 =? 1)) c c), decide_True by done.
  rewrite (bind_done _ _ _ c c) by done.
  rewrite (ensure_status_done _ _ kTfLiteOk c c), decide_True by (by rewrite ?bool_decide_eq_true_2).
  rewrite (bind_done _ _ _ tt (typed c)) by done. unfold HaveSameShapes. case_bool_decide as Heq; simpl.
  - rewrite <- Heq, broadcast_self by done. done.
  - rewrite (bind_done _ _ _ _ _ (CalculateShapeForBroadcast_done _ _ _ H1 H2)). by destruct (broadcast _ _).
Qed.

(** What the memory planner and [ResizeTensor] promise. *)
Definition resizes : Prop := ∀ sizes c, ∃ st c', ResizeTensor sizes c = Done st c' ∧
  (st = kTfLiteOk → input1 c' = input1 c ∧ input2 c' = input2 c ∧ elem_type (output c') = elem_type (output c) ∧
     shape (output c') = sizes ∧ volume sizes ≤ zlen (contents (output c'))).
End kernel.

(** C17: The reference kernels of maximum and minimum on two inputs of the same supported
    type, of equal shapes or with a result of at most five dimensions: after [Prepare]
    and [Eval] the output has the type of the inputs and the broadcast shape, and at every
    index the maximum (minimum) of the elements of the inputs there, where an input
    repeats along the dimensions in which it has one element and those it lacks; of
    floating-point numbers it is one of the two that the other does not exceed (that is
    not less). Inputs without elements are handled too. When the shapes have no common shape nothing
    is resized and the kernel reports an error; when the output cannot be resized, that
    status is the kernel's. Neither loop reads or writes outside the data. *)
Theorem kernel_combines float_less ResizeTensor o c :
  (∀ ty x y, float_less ty x y = true → float_less ty y x = false) → resizes ResizeTensor → operands c → elem_type (input1 c) = elem_type (input2 c) →
  supported (elem_type (input1 c)) = true →
  let run := (Prepare ResizeTensor 2 1 ;! Eval float_less o) c in
  (¬ (∃ so, broadcasts (shape (input1 c)) (shape (input2 c)) so) ∧ run = Done kTfLiteError (typed c)) ∨
  ∃ so, broadcasts (shape (input1 c)) (shape (input2 c)) so ∧
    ∃ st c1, ResizeTensor so (typed c) = Done st c1 ∧
      if decide (st = kTfLiteOk) then ∃ c', run = Done kTfLiteOk c' ∧ input1 c' = input1 c ∧ input2 c' = input2 c ∧
        elem_type (output c') = elem_type (input1 c) ∧ shape (output c') = so ∧
        ∀ ix, valid so ix → ∃ v, zget (contents (output c')) (flat so ix) = Some v ∧
          extremum float_less o (elem_type (input1 c)) (operand (input1 c) so ix) (operand (input2 c) so ix) v
      else run = Done st c1.
Proof.
  intros Hless Hres Hod Ht Hty run. pose proof Hod as [Hb1 Hb2 Hl1 Hl2 Hso].
  destruct (Prepare_result ResizeTensor c (proj1 Hb1) (proj1 Hb2) Ht) as [_ Hp].
  destruct (broadcast (shape (input1 c)) (shape (input2 c))) as [so|] eqn:Hb.
  - right. exists so. split; [by apply broadcast_broadcasts|].
    destruct (Hres so (typed c)) as (st & c1 & Hrun & Hok). exists st, c1. split; [done|]. rewrite Hrun in Hp.
    unfold run. rewrite (ensure_status_done _ _ _ _ _ Hp). case_decide as Hst; [|done].
    destruct (Hok Hst) as (E1 & E2 & E3 & E4 & E5). simpl in E1, E2, E3.
    assert (operands c1) as Hod1 by (split; rewrite ?E1, ?E2; done).
    assert (allocated c1) as Hal by (split; rewrite ?E1, ?E2, E4; done).
    destruct (wp_Done _ _ _ (wp_Eval_kernel float_less o c1 Hod1 Hal ltac:(by rewrite E3))) as (st' & c' & Hev & -> & Hc).
    exists c'. split; [done|]. destruct Hc as (C1 & C2 & C3 & C4 & C5). rewrite E1, E2, E3, E4 in *.
    split_and!; [congruence..|]. intros ix Hix. eexists. split; [by apply C5|]. by apply op_extremum.
  - left. split; [by apply broadcast_None|]. unfold run. by rewrite (ensure_status_done _ _ _ _ _ Hp).
Qed.

(** C32: The shape that [Prepare] of the maximum and minimum kernels asks for is the one
    that LiteRT's shape inference finds for the operation from the same input shapes, and
    [Prepare] fails on exactly the shapes on which the inference fails. *)
Theorem Prepare_inferred ResizeTensor c s :
  nonneg (shape (input1 c)) → nonneg (shape (input2 c)) → elem_type (input1 c) = elem_type (input2 c) →
  output_shapes s ≠ [] →
  match InferElementwiseBinary [shape (input1 c); shape (input2 c)] s with
  | Done _ s' => ∃ so, s' = with_output 0 so s ∧ Prepare ResizeTensor 2 1 c = ResizeTensor so (typed c)
  | Error s' => s' = failed Failed s ∧ Prepare ResizeTensor 2 1 c = Done kTfLiteError (typed c)
  | Undefined => False
  end.
Proof.
  intros H1 H2 Ht Hs. rewrite InferElementwiseBinary_two by done.
  destruct (Prepare_result ResizeTensor c H1 H2 Ht) as [_ ->]. destruct (broadcast _ _) as [so|]; [by exists so|done].
Qed.

(** ** Examples *)

Definition int_tensor (dims data : list Z) : OpTensor :=
  {| elem_type := kTfLiteInt32; shape := dims; allocation := kTfLiteArenaRw; size_in_bytes := 4 * volume dims; contents := data |}.

Definition two_inputs (s1 d1 s2 d2 : list Z) : OpContext :=
  {| input1 := int_tensor s1 d1; input2 := int_tensor s2 d2; output := int_tensor [] [] |}.

(** A [ResizeTensor] that always finds memory, whatever it holds. *)
Definition resize_result (sizes : list Z) : M OpContext TfLiteStatus :=
  modify (λ c, set_output {| elem_type := elem_type (output c); shape := sizes; allocation := allocation (output c);
    size_in_bytes := 4 * volume sizes; contents := replicate (Z.to_nat (volume sizes)) 77 |} c);;
  mret kTfLiteOk.

Definition no_floats (_ : TfLiteType) (_ _ : Z) : bool := false.

(** The status, shape and elements with which the kernel ends. *)
Definition run_kernel_on (o : op_type) (c : OpContext) : option (TfLiteStatus * list Z * list Z) :=
  match (Prepare resize_result 2 1 ;! Eval no_floats o) c with
  | Done st c' => Some (st, shape (output c'), contents (output c')) | _ => None end.

Definition rows_and_columns : OpContext := two_inputs [2; 1; 3] [1; 5; 9; 2; 4; 6] [2; 1] [3; 7].

Example maximum_of_rows : run_kernel_on MaximumOp rows_and_columns =
  Some (kTfLiteOk, [2; 2; 3], [3; 5; 9; 7; 7; 9; 3; 4; 6; 7; 7; 7]).
Proof. vm_compute. reflexivity. Qed.

Lemma resize_result_resizes : resizes resize_result.
Proof. intros sizes c. eexists _, _. split; [done|]. intros _. split_and!; [done..|]. simpl. rewrite length_replicate. lia. Qed.

Lemma rows_and_columns_operands : operands rows_and_columns.
Proof.
  split; [by split; [repeat constructor|]..|done|done|]. intros so [= <-]%broadcast_broadcasts. split; [|by right]. by split; [repeat constructor|].
Qed.

Lemma kernel_combines_witness :
  supported (elem_type (input1 rows_and_columns)) = true ∧
  let run := (Prepare resize_result 2 1 ;! Eval no_floats MinimumOp) rows_and_columns in
  (¬ (∃ so, broadcasts [2; 1; 3] [2; 1] so) ∧ run = Done kTfLiteError (typed rows_and_columns)) ∨
  ∃ so, broadcasts [2; 1; 3] [2; 1] so ∧
    ∃ st c1, resize_result so (typed rows_and_columns) = Done st c1 ∧
    if decide (st = kTfLiteOk) then ∃ c', run = Done kTfLiteOk c' ∧
      input1 c' = input1 rows_and_columns ∧ input2 c' = input2 rows_and_columns ∧
      elem_type (output c') = kTfLiteInt32 ∧ shape (output c') = so ∧
      ∀ ix, valid so ix → ∃ v, zget (contents (output c')) (flat so ix) = Some v ∧
        v = Z.min (operand (input1 rows_and_columns) so ix) (operand (input2 rows_and_columns) so ix)
    else run = Done st c1.
Proof.
  split; [done|].
  exact (kernel_combines no_floats resize_result MinimumOp rows_and_columns
    (λ _ _ _ H, ltac:(done)) resize_result_resizes rows_and_columns_operands eq_refl eq_refl).
Defined.

Definition no_shape : infer_state := {| output_shapes := [[]]; status := kLiteRtStatusOk |}.

Lemma Prepare_inferred_witness :
  InferElementwiseBinary [[2; 1; 3]; [2; 1]] no_shape = Done tt (with_output 0 [2; 2; 3] no_shape) ∧
  ∃ so, with_output 0 [2; 2; 3] no_shape = with_output 0 so no_shape ∧
    Prepare resize_result 2 1 rows_and_columns = resize_result so (typed rows_and_columns).
Proof.
  split; [by vm_compute|].
  exact (Prepare_inferred resize_result rows_and_columns no_shape (proj1 (od_bounded1 _ rows_and_columns_operands))
    (proj1 (od_bounded2 _ rows_and_columns_operands)) eq_refl ltac:(done)).
Defined.

(** ** What is not checked *)

(** [Prepare] takes operands of six dimensions, which [Eval] cannot walk through. *)
Definition six_dimensions : OpContext := two_inputs [1; 1; 1; 1; 1; 2] [1; 2] [1] [3].

Example six_dimensions_prepared :
  match Prepare resize_result 2 1 six_dimensions with Done st c' => st = kTfLiteOk ∧ Eval no_floats MaximumOp c' = Undefined | _ => False end.
Proof. vm_compute. split; reflexivity. Qed.

(** The inference of a selection makes one element of none: the kernel's shape has none. *)
Example select_of_nothing :
  InferSelect [[0]; [1]; [1]] no_shape = Done tt (with_output 0 [1] no_shape) ∧
  CalculateShapeForBroadcast3 [0] [1] [1] no_shape = Done (Some [0]) no_shape.
Proof. vm_compute. split; reflexivity. Qed.
