(* ===== verification/StridedSlice.v ===== *)
(** * The strided slice kernel ([src/tflite/kernels/strided_slice.cc])

    How the tensors of indices and the masks are turned into one range for each
    dimension, the shape of the output, and the loops of the reference
    implementation ([src/tflite/kernels/internal/strided_slice_logic.h],
    [src/tflite/kernels/internal/reference/strided_slice.h]). *)

From S2P Require Import Prelude ArenaPlanner Subgraph KernelUtil.

(** ** Data *)

Record TfLiteStridedSliceParams := {
  begin_mask : Z;
  end_mask : Z;
  ellipsis_mask : Z;
  new_axis_mask : Z;
  shrink_axis_mask : Z;
  offset : bool
}.

(** Arrays with five places, and the masks that stay in use ([uint16_t]). *)
Record StridedSliceParams := {
  start_indices_count : Z;
  start_indices : list Z;
  stop_indices_count : Z;
  stop_indices : list Z;
  strides_count : Z;
  strides : list Z;
  op_begin_mask : Z;
  op_end_mask : Z;
  op_shrink_axis_mask : Z;
  op_offset : bool
}.

(** The tensors and parameters of a node, with the flag of its [OpData]. *)
Record StridedSliceContext := {
  params : TfLiteStridedSliceParams;
  input : OpTensor;
  begin : OpTensor;
  end_ : OpTensor;
  strides_tensor : OpTensor;
  output : OpTensor;
  noop : bool
}.

Definition set_output (t : OpTensor) (c : StridedSliceContext) : StridedSliceContext :=
  {| params := params c; input := input c; begin := begin c; end_ := end_ c; strides_tensor := strides_tensor c;
     output := t; noop := noop c |}.
Definition set_noop (b : bool) (c : StridedSliceContext) : StridedSliceContext :=
  {| params := params c; input := input c; begin := begin c; end_ := end_ c; strides_tensor := strides_tensor c;
     output := output c; noop := b |}.

Definition input_dims (c : StridedSliceContext) : Z := zlen (shape (input c)).

Definition set_range (start stop stride : list Z) (p : StridedSliceParams) : StridedSliceParams :=
  {| start_indices_count := start_indices_count p; start_indices := start; stop_indices_count := stop_indices_count p;
     stop_indices := stop; strides_count := strides_count p; strides := stride; op_begin_mask := op_begin_mask p;
     op_end_mask := op_end_mask p; op_shrink_axis_mask := op_shrink_axis_mask p; op_offset := op_offset p |}.
Definition set_masks (b e s : Z) (p : StridedSliceParams) : StridedSliceParams :=
  {| start_indices_count := start_indices_count p; start_indices := start_indices p; stop_indices_count := stop_indices_count p;
     stop_indices := stop_indices p; strides_count := strides_count p; strides := strides p; op_begin_mask := b;
     op_end_mask := e; op_shrink_axis_mask := s; op_offset := op_offset p |}.
Definition set_counts (n : Z) (p : StridedSliceParams) : StridedSliceParams :=
  {| start_indices_count := n; start_indices := start_indices p; stop_indices_count := n; stop_indices := stop_indices p;
     strides_count := n; strides := strides p; op_begin_mask := op_begin_mask p; op_end_mask := op_end_mask p;
     op_shrink_axis_mask := op_shrink_axis_mask p; op_offset := op_offset p |}.

(** [mask & (1 << i)]. *)
Definition has_bit {S} (mask i : Z) : M S bool := if decide (0 ≤ i < 32) then mret (Z.testbit mask i) else undefined.
Definition u16 (z : Z) : Z := z mod 2 ^ 16.
(** [mask |= 1 << i] on an [int] and on a [uint16_t]. *)
Definition add_bit (mask i : Z) : Z := Z.lor mask (Z.shiftl 1 i).
Definition add_bit16 (mask i : Z) : Z := u16 (add_bit mask i).

(** ** One range for each dimension *)

Definition count_new_axes {S} (masks : TfLiteStridedSliceParams) (begin_count : Z) : M S Z :=
  fold_m (range 0 begin_count) 0 (λ num_add_axis i,
    ellipsis ← has_bit (ellipsis_mask masks) i;
    new_axis ← has_bit (new_axis_mask masks) i;
    mret (if negb ellipsis && new_axis then num_add_axis + 1 else num_add_axis)).

Record Expansion := {
  effective_ellipsis_mask : Z;
  effective_new_axis_mask : Z;
  ellipsis_start_idx : Z;
  expanded_ellipsis : Z
}.

(** The loop over the effective dimensions from [i] on; every round advances. *)
Fixpoint expand_masks {S} (fuel : nat) (masks : TfLiteStridedSliceParams) (effective_dims num_add_axis input_dims begin_count i : Z)
    (x : Expansion) : M S Expansion :=
  if i <? effective_dims then
    match fuel with
    | O => undefined
    | S fuel' =>
        ellipsis ← has_bit (ellipsis_mask masks) i;
        if (ellipsis : bool) then
          let ellipsis_end_idx := Z.max (i + 1) (Z.min (i + 1 + num_add_axis + input_dims - begin_count) effective_dims) in
          expand_masks fuel' masks effective_dims num_add_axis input_dims begin_count ellipsis_end_idx
            {| effective_ellipsis_mask := foldl add_bit (effective_ellipsis_mask x) (range i ellipsis_end_idx);
               effective_new_axis_mask := effective_new_axis_mask x;
               ellipsis_start_idx := i;
               expanded_ellipsis := ellipsis_end_idx - i - 1 |}
        else
          new_axis ← has_bit (new_axis_mask masks) (i - expanded_ellipsis x);
          expand_masks fuel' masks effective_dims num_add_axis input_dims begin_count (i + 1)
            {| effective_ellipsis_mask := effective_ellipsis_mask x;
               effective_new_axis_mask :=
                 if new_axis : bool then add_bit (effective_new_axis_mask x) i else effective_new_axis_mask x;
               ellipsis_start_idx := ellipsis_start_idx x;
               expanded_ellipsis := expanded_ellipsis x |}
    end
  else mret x.

(** The parameters, the shape with the new axes, [added_ellipsis] and [added_axises]. *)
Definition Effective : Type := StridedSliceParams * list Z * Z * Z.

Definition put_range {S} (i start stop stride : Z) (p : StridedSliceParams) : M S StridedSliceParams :=
  b ← upd (start_indices p) i start;
  e ← upd (stop_indices p) i stop;
  s ← upd (strides p) i stride;
  mret (set_range b e s p).
Definition put_stride {S} (i stride : Z) (p : StridedSliceParams) : M S StridedSliceParams :=
  s ← upd (strides p) i stride;
  mret (set_range (start_indices p) (stop_indices p) s p).

Definition all_of (i : Z) (p : StridedSliceParams) : StridedSliceParams :=
  set_masks (add_bit16 (op_begin_mask p) i) (add_bit16 (op_end_mask p) i) (op_shrink_axis_mask p) p.

Definition effective_dim {S} (c : StridedSliceContext) (begin_count : Z) (start_and_end_indices : bool) (x : Expansion)
    (acc : Effective) (i : Z) : M S Effective :=
  let '(p, effective_input_shape, added_ellipsis, added_axises) := acc in
  ellipsis ← has_bit (effective_ellipsis_mask x) i;
  new_axis ← has_bit (effective_new_axis_mask x) i;
  if (ellipsis : bool) then
    let added_ellipsis := Z.max 0 (i - ellipsis_start_idx x) in
    p ← put_stride i 1 (all_of i p);
    d ← at_ (shape (input c)) (i - added_axises);
    s ← upd effective_input_shape i d;
    mret (p, s, added_ellipsis, added_axises)
  else if (new_axis : bool) then
    p ← put_range i 0 1 1 p;
    s ← upd effective_input_shape i 1;
    mret (p, s, added_ellipsis, added_axises + 1)
  else if begin_count + expanded_ellipsis x <=? i then
    p ← put_range i 0 0 1 p;
    d ← at_ (shape (input c)) (i - added_axises);
    s ← upd effective_input_shape i d;
    mret (all_of i p, s, added_ellipsis, added_axises)
  else
    let orig_idx := i - added_ellipsis in
    stride ← at_ (contents (strides_tensor c)) orig_idx;
    p ← (if start_and_end_indices then
           b ← at_ (contents (begin c)) orig_idx;
           e ← at_ (contents (end_ c)) orig_idx;
           put_range i b e stride p
         else put_stride i stride p);
    b ← has_bit (begin_mask (params c)) orig_idx;
    e ← has_bit (end_mask (params c)) orig_idx;
    s ← has_bit (shrink_axis_mask (params c)) orig_idx;
    let add (bit : bool) mask := if bit then add_bit16 mask i else mask in
    let p := set_masks (add b (op_begin_mask p)) (add e (op_end_mask p)) (add s (op_shrink_axis_mask p)) p in
    d ← at_ (shape (input c)) (i - added_axises);
    sh ← upd effective_input_shape i d;
    mret (p, sh, added_ellipsis, added_axises).

Definition zeros5 : list Z := [0; 0; 0; 0; 0].

Definition BuildStridedSliceParams {S} (c : StridedSliceContext) (start_and_end_indices : bool) : M S (StridedSliceParams * list Z) :=
  let op_params :=
    {| start_indices_count := 0; start_indices := zeros5; stop_indices_count := 0; stop_indices := zeros5;
       strides_count := 0; strides := zeros5; op_begin_mask := 0; op_end_mask := 0; op_shrink_axis_mask := 0;
       op_offset := offset (params c) |} in
  begin_count ← at_ (shape (begin c)) 0;
  num_add_axis ← count_new_axes (params c) begin_count;
  let effective_dims := input_dims c + num_add_axis in
  x ← expand_masks (Z.to_nat effective_dims) (params c) effective_dims num_add_axis (input_dims c) begin_count 0
        {| effective_ellipsis_mask := 0; effective_new_axis_mask := 0; ellipsis_start_idx := effective_dims; expanded_ellipsis := 0 |};
  r ← fold_m (range 0 effective_dims) (op_params, replicate (Z.to_nat effective_dims) 0, 0, 0)
        (effective_dim c begin_count start_and_end_indices x);
  let '(p, effective_input_shape, _, _) := (r : Effective) in
  mret (set_counts effective_dims p, effective_input_shape).

(** ** The ends of a range ([strided_slice_logic.h]) *)

Definition Clamp (v lo hi : Z) : Z := if hi <? v then hi else if v <? lo then lo else v.

Definition StridedSliceStartForAxis {S} (p : StridedSliceParams) (input_shape : list Z) (axis : Z) : M S Z :=
  axis_size ← at_ input_shape axis;
  start ← at_ (start_indices p) axis;
  stride ← at_ (strides p) axis;
  begin_masked ← has_bit (op_begin_mask p) axis;
  start ← (if start <? 0 then int32 (start + axis_size) else mret start);
  let start := if 0 <? stride then Clamp start 0 axis_size else Clamp start (-1) (axis_size - 1) in
  mret (if begin_masked : bool then if 0 <? stride then 0 else axis_size - 1 else start).

Definition StridedSliceEndForAxis {S} (p : StridedSliceParams) (input_shape : list Z) (axis start : Z) : M S Z :=
  shrink_axis ← has_bit (op_shrink_axis_mask p) axis;
  axis_size ← at_ input_shape axis;
  if (shrink_axis : bool) then (if axis_size <=? start then mret start else int32 (start + 1))
  else
    end_ ← at_ (stop_indices p) axis;
    end_ ← (if op_offset p then int32 (end_ + start) else mret end_);
    stride ← at_ (strides p) axis;
    end_masked ← has_bit (op_end_mask p) axis;
    end_ ← (if end_ <? 0 then int32 (end_ + axis_size) else mret end_);
    let end_ := if 0 <? stride then Clamp end_ 0 axis_size else Clamp end_ (-1) (axis_size - 1) in
    mret (if end_masked : bool then if 0 <? stride then axis_size else -1 else end_).

Definition StridedSlicePadIndices {S} (dim_count : Z) (p : StridedSliceParams) : M S StridedSliceParams :=
  check (dim_count <=? 5);;
  check (start_indices_count p <=? dim_count);;
  check (start_indices_count p =? stop_indices_count p);;
  check (stop_indices_count p =? strides_count p);;
  let pad_count := dim_count - start_indices_count p in
  p ← fold_m (reverse (range 0 (start_indices_count p))) p (λ p i,
        b ← at_ (start_indices p) i;
        e ← at_ (stop_indices p) i;
        s ← at_ (strides p) i;
        put_range (i + pad_count) b e s p);
  p ← fold_m (range 0 pad_count) p (λ p i, put_range i 0 1 1 p);
  let pad mask := u16 (Z.shiftl mask pad_count) in
  let fill mask := u16 (Z.lor (pad mask) (Z.shiftl 1 pad_count - 1)) in
  mret (set_counts dim_count (set_masks (fill (op_begin_mask p)) (fill (op_end_mask p)) (pad (op_shrink_axis_mask p)) p)).

(** ** The reference implementation *)

(** [SequentialTensorWriter]: the output and the place to be written next. *)
Definition Writer : Type := list Z * Z.

Definition Write (input_data : list Z) (position : Z) : M Writer unit :=
  x ← at_ input_data position;
  w ← get;
  out ← upd w.1 w.2 x;
  put (out, w.2 + 1).

Definition WriteN (input_data : list Z) (position len : Z) : M Writer unit :=
  for_each (range 0 len) (λ k, Write input_data (position + k)).

Definition lc (end_ stride index : Z) : bool := if stride <? 0 then end_ <? index else index <? end_.

(** [for (int offset = start; lc(stop, stride, offset); offset += stride)] *)
Fixpoint stride_loop {S} (fuel : nat) (offset stop stride : Z) (body : Z → M S unit) : M S unit :=
  if lc stop stride offset then
    match fuel with
    | O => undefined
    | S fuel' =>
        body offset;;
        next ← int32 (offset + stride);
        stride_loop fuel' next stop stride body
    end
  else mret tt.

(** Every round comes nearer to [stop]. *)
Definition stride_for {S} (start stop stride : Z) (body : Z → M S unit) : M S unit :=
  stride_loop (Z.to_nat (Z.abs (stop - start))) start stop stride body.

(** [start_4 + offset_3 * shape[4] + ... + offset_0 * shape[1] * ... * shape[4]] *)
Definition position {S} (input_shape : list Z) (offset_0 offset_1 offset_2 offset_3 offset_4 : Z) : M S Z :=
  let term offset dims := o ← fold_m dims offset (λ o d, x ← at_ input_shape d; int32 (o * x)); mret o in
  t3 ← term offset_3 [4];
  t2 ← term offset_2 [3; 4];
  t1 ← term offset_1 [2; 3; 4];
  t0 ← term offset_0 [1; 2; 3; 4];
  i ← int32 (offset_4 + t3);
  i ← int32 (i + t2);
  i ← int32 (i + t1);
  int32 (i + t0).

Definition ReferenceStridedSlice (op_params : StridedSliceParams) (unextended_input_shape unextended_output_shape input_data : list Z)
    : M Writer unit :=
  input_shape ← ExtendedShape 5 unextended_input_shape;
  _ ← ExtendedShape 5 unextended_output_shape;
  p ← StridedSlicePadIndices 5 op_params;
  let bounds axis :=
    start ← StridedSliceStartForAxis p input_shape axis;
    stop ← StridedSliceEndForAxis p input_shape axis start;
    stride ← at_ (strides p) axis;
    mret (start, stop, stride) in
  r0 ← bounds 0; let '(start_0, stop_0, stride_0) := (r0 : Z * Z * Z) in
  r1 ← bounds 1; let '(start_1, stop_1, stride_1) := (r1 : Z * Z * Z) in
  r2 ← bounds 2; let '(start_2, stop_2, stride_2) := (r2 : Z * Z * Z) in
  r3 ← bounds 3; let '(start_3, stop_3, stride_3) := (r3 : Z * Z * Z) in
  r4 ← bounds 4; let '(start_4, stop_4, stride_4) := (r4 : Z * Z * Z) in
  stride_for start_0 stop_0 stride_0 (λ offset_0,
    stride_for start_1 stop_1 stride_1 (λ offset_1,
      stride_for start_2 stop_2 stride_2 (λ offset_2,
        stride_for start_3 stop_3 stride_3 (λ offset_3,
          if stride_4 =? 1 then
            len ← int32 (stop_4 - start_4);
            index ← position input_shape offset_0 offset_1 offset_2 offset_3 start_4;
            if 0 <? len then WriteN input_data index len else mret tt
          else
            stride_for start_4 stop_4 stride_4 (λ offset_4,
              index ← position input_shape offset_0 offset_1 offset_2 offset_3 offset_4;
              Write input_data index))))).

(** ** The kernel *)

Section kernel.
(** [context->ResizeTensor] on the output, and the copying of strings. *)
Context (ResizeTensor : list Z → M StridedSliceContext TfLiteStatus).
Context (StridedSliceOfStrings : StridedSliceParams → list Z → M StridedSliceContext unit).

(** The number of elements between the ends of a range. *)
Definition dim_count (dim_shape stride : Z) : Z :=
  if negb (Bool.eqb (dim_shape <? 0) (stride <? 0)) then 0
  else if stride <? 0 then Z.quot (dim_shape + 1) stride + 1
  else if dim_shape =? 0 then 0 else Z.quot (dim_shape - 1) stride + 1.

(** One dimension of the output; none if it is shrunk or if the stride is zero. *)
Fixpoint output_dims {S} (c : StridedSliceContext) (op_params : StridedSliceParams) (effective_input_shape : list Z)
    (indices output_shape_vector : list Z) : M S (option (list Z)) :=
  match indices with
  | [] => mret (Some output_shape_vector)
  | idx :: indices' =>
      stride ← at_ (strides op_params) idx;
      if stride =? 0 then mret None
      else
        shrink_axis ← has_bit (op_shrink_axis_mask op_params) idx;
        if (shrink_axis : bool) then output_dims c op_params effective_input_shape indices' output_shape_vector
        else
          dim_shape ←
            (if op_offset op_params then at_ (contents (end_ c)) idx
             else
               begin ← StridedSliceStartForAxis op_params effective_input_shape idx;
               end_ ← StridedSliceEndForAxis op_params effective_input_shape idx begin;
               int32 (end_ - begin));
          output_dims c op_params effective_input_shape indices' (output_shape_vector ++ [dim_count dim_shape stride])
  end.

Definition ResizeOutputTensor : M StridedSliceContext TfLiteStatus :=
  c ← get;
  r ← BuildStridedSliceParams c (negb (offset (params c)));
  let '(op_params, effective_input_shape) := (r : StridedSliceParams * list Z) in
  TF_LITE_ENSURE (zlen effective_input_shape <=? 5) ;!
  dims ← output_dims c op_params effective_input_shape (reverse (range 0 (zlen effective_input_shape))) [];
  match dims with
  | None => mret kTfLiteError
  | Some output_shape_vector => ResizeTensor (reverse output_shape_vector)
  end.

Definition EvalImpl : M StridedSliceContext TfLiteStatus :=
  c ← get;
  (if IsDynamicTensor (output c) then ResizeOutputTensor else mret kTfLiteOk) ;!
  c ← get;
  r ← BuildStridedSliceParams c true;
  let '(op_params, effective_input_shape) := (r : StridedSliceParams * list Z) in
  if bool_decide (elem_type (input c) = kTfLiteString) then
    StridedSliceOfStrings op_params effective_input_shape;;
    mret kTfLiteOk
  else
    match TfLiteTypeGetSizeBits (elem_type (input c)) with
    | 8 | 16 | 32 | 64 =>
        match ReferenceStridedSlice op_params effective_input_shape (shape (output c)) (contents (input c)) (contents (output c), 0) with
        | Done _ w =>
            modify (λ c, set_output (set_contents w.1 (output c)) c);;
            mret kTfLiteOk
        | _ => undefined
        end
    | _ => mret kTfLiteError
    end.

Definition Prepare (num_inputs num_outputs : Z) : M StridedSliceContext TfLiteStatus :=
  modify (set_noop false);;
  TF_LITE_ENSURE (num_inputs =? 4) ;!
  TF_LITE_ENSURE (num_outputs =? 1) ;!
  c ← get;
  TF_LITE_ENSURE (zlen (shape (begin c)) =? 1) ;!
  TF_LITE_ENSURE (zlen (shape (end_ c)) =? 1) ;!
  TF_LITE_ENSURE (zlen (shape (strides_tensor c)) =? 1) ;!
  n ← NumElements (shape (begin c));
  m ← NumElements (shape (end_ c));
  TF_LITE_ENSURE (n =? m) ;!
  TF_LITE_ENSURE (bool_decide (elem_type (input c) = elem_type (output c))) ;!
  TF_LITE_ENSURE (bool_decide (elem_type (begin c) = kTfLiteInt32)) ;!
  TF_LITE_ENSURE (bool_decide (elem_type (end_ c) = kTfLiteInt32)) ;!
  TF_LITE_ENSURE (bool_decide (elem_type (strides_tensor c) = kTfLiteInt32)) ;!
  TF_LITE_ENSURE (input_dims c <=? 5) ;!
  let output_shape_known :=
    IsConstantOrPersistentTensor (strides_tensor c) &&
    (offset (params c) || (IsConstantOrPersistentTensor (begin c) && IsConstantOrPersistentTensor (end_ c))) in
  if negb output_shape_known then
    modify (λ c, set_output (SetTensorToDynamic (output c)) c);;
    mret kTfLiteOk
  else if IsConstantOrPersistentTensor (input c) && IsConstantOrPersistentTensor (begin c) && IsConstantOrPersistentTensor (end_ c) then
    modify (λ c, set_output (SetTensorToPersistentRo (output c)) c);;
    ResizeOutputTensor ;!
    modify (set_noop true);;
    EvalImpl
  else ResizeOutputTensor.

Definition Eval : M StridedSliceContext TfLiteStatus :=
  c ← get;
  if noop c then mret kTfLiteOk else EvalImpl.
End kernel.
