(* ===== verification/StridedSliceProofs.v ===== *)
(** * The loops of a strided slice

    What an item of a slice selects from a dimension, and that the reference
    implementation writes exactly these elements, in order. *)

From S2P Require Import Prelude ArenaPlanner Subgraph TensorLayout TensorCopy KernelUtil StridedSlice.

(** ** What is selected *)

Inductive item :=
| Ellipsis
| NewAxis
| Full
| Index (b e s : Z) (begin_masked end_masked shrink : bool).

(** One dimension after expansion, with the size it takes from the input. *)
Abbreviation axis := (item * Z)%type.

Definition wrap (n i : Z) : Z := if i <? 0 then i + n else i.
Definition limit (n s i : Z) : Z := if 0 <? s then Z.max 0 (Z.min i n) else Z.max (-1) (Z.min i (n - 1)).

Definition axis_size (a : axis) : Z := match a.1 with NewAxis => 1 | _ => a.2 end.
Definition axis_step (a : axis) : Z := match a.1 with Index _ _ s _ _ _ => s | _ => 1 end.
Definition axis_start (a : axis) : Z :=
  match a.1 with
  | Index b _ s bm _ _ => if bm then (if 0 <? s then 0 else a.2 - 1) else limit a.2 s (wrap a.2 b)
  | _ => 0
  end.
Definition axis_stop (a : axis) : Z :=
  match a.1 with
  | NewAxis => 1
  | Index _ e s _ em sh =>
      if sh then axis_start a + 1
      else if em then (if 0 <? s then a.2 else -1) else limit a.2 s (wrap a.2 e)
  | _ => a.2
  end.

(** The number of steps from [start] that stay before [stop]. *)
Definition steps_between (start stop step : Z) : Z :=
  if 0 <? step then (if start <? stop then (stop - start - 1) / step + 1 else 0)
  else if stop <? start then (start - stop - 1) / - step + 1 else 0.

Definition axis_count (a : axis) : Z := steps_between (axis_start a) (axis_stop a) (axis_step a).

(** Nothing overflows; a shrunk dimension is indexed within its bounds, forwards. *)
Definition axis_ok (a : axis) : Prop :=
  0 ≤ a.2 ≤ int32_max ∧
  match a.1 with
  | Ellipsis => False
  | NewAxis | Full => True
  | Index b e s _ _ sh =>
      is_int32 b ∧ is_int32 e ∧ is_int32 s ∧ s ≠ 0 ∧ s + a.2 ≤ int32_max + 1 ∧
      (sh = true → 0 < s ∧ axis_start a < a.2)
  end.

Lemma limit_range n s i : 0 ≤ n → if 0 <? s then 0 ≤ limit n s i ≤ n else -1 ≤ limit n s i ≤ n - 1.
Proof. intros Hn. unfold limit. destruct (0 <? s); lia. Qed.

Lemma axis_bounds a : axis_ok a → 0 ≤ axis_size a ∧
  (if 0 <? axis_step a then 0 ≤ axis_start a ≤ axis_size a ∧ 0 ≤ axis_stop a ≤ axis_size a
   else -1 ≤ axis_start a ≤ axis_size a - 1 ∧ -1 ≤ axis_stop a ≤ axis_size a - 1).
Proof.
  destruct a as [it d]. intros [[Hd _] Hok]. simpl in Hd. unfold axis_size, axis_step, axis_stop, axis_start in *. simpl in *.
  destruct it as [| | |b e s bm em sh]; simpl; [done|lia|lia|]. destruct Hok as (_ & _ & _ & Hs & _ & Hsh).
  pose proof (limit_range d s (wrap d b) Hd) as H1. pose proof (limit_range d s (wrap d e) Hd) as H2.
  split; [done|]. destruct sh.
  - destruct Hsh as [Hpos Hlt]; [done|]. rewrite (proj2 (Z.ltb_lt 0 s)) in * by done. destruct bm; lia.
  - destruct (0 <? s), bm, em; lia.
Qed.

(** Every step selects a position of the dimension. *)
Lemma steps_inside start stop step k : step ≠ 0 → 0 ≤ k < steps_between start stop step →
  if 0 <? step then start ≤ start + k * step < stop else stop < start + k * step ≤ start.
Proof.
  unfold steps_between. intros Hs Hk. destruct (Z.ltb_spec 0 step).
  - destruct (Z.ltb_spec start stop); [|lia]. pose proof (Z.mul_div_le (stop - start - 1) step). nia.
  - destruct (Z.ltb_spec stop start); [|lia]. pose proof (Z.mul_div_le (start - stop - 1) (- step)). nia.
Qed.

Lemma steps_exhaust start stop step k : step ≠ 0 → steps_between start stop step ≤ k → 0 ≤ k →
  if 0 <? step then stop ≤ start + k * step else start + k * step ≤ stop.
Proof.
  unfold steps_between. intros Hs Hk H0. destruct (Z.ltb_spec 0 step).
  - destruct (Z.ltb_spec start stop); [|nia]. pose proof (Z.div_mod (stop - start - 1) step).
    pose proof (Z.mod_pos_bound (stop - start - 1) step). nia.
  - destruct (Z.ltb_spec stop start); [|nia]. pose proof (Z.div_mod (start - stop - 1) (- step)).
    pose proof (Z.mod_pos_bound (start - stop - 1) (- step)). nia.
Qed.

Lemma steps_nonneg start stop step : step ≠ 0 → 0 ≤ steps_between start stop step ≤ Z.abs (stop - start).
Proof.
  unfold steps_between. intros Hs. destruct (Z.ltb_spec 0 step).
  - destruct (Z.ltb_spec start stop); [|lia]. pose proof (Z.div_pos (stop - start - 1) step).
    pose proof (Z.div_le_upper_bound (stop - start - 1) step (stop - start - 1)). nia.
  - destruct (Z.ltb_spec stop start); [|lia]. pose proof (Z.div_pos (start - stop - 1) (- step)).
    pose proof (Z.div_le_upper_bound (start - stop - 1) (- step) (start - stop - 1)). nia.
Qed.

Lemma axis_inside a k : axis_ok a → 0 ≤ k < axis_count a → 0 ≤ axis_start a + k * axis_step a < axis_size a.
Proof.
  intros Hok Hk. pose proof (axis_bounds a Hok) as [_ Hb].
  assert (axis_step a ≠ 0) as Hs by (destruct a as [[] d], Hok as [_ Hok]; unfold axis_step; simpl in *; try done; tauto).
  pose proof (steps_inside _ _ _ k Hs Hk) as Hin. destruct (0 <? axis_step a); lia.
Qed.

(** ** One loop *)

Lemma lc_steps start stop step k : step ≠ 0 → 0 ≤ k → lc stop step (start + k * step) = (k <? steps_between start stop step).
Proof.
  intros Hs Hk. unfold lc. destruct (Z.ltb_spec k (steps_between start stop step)) as [Hlt|Hge].
  - pose proof (steps_inside start stop step k Hs ltac:(lia)) as Hin.
    destruct (Z.ltb_spec 0 step), (Z.ltb_spec step 0); try lia; apply Z.ltb_lt; lia.
  - pose proof (steps_exhaust start stop step k Hs Hge Hk) as Hin.
    destruct (Z.ltb_spec 0 step), (Z.ltb_spec step 0); try lia; apply Z.ltb_ge; lia.
Qed.

(** The offset behind the last one does not overflow. *)
Definition loop_ok (start stop step : Z) : Prop :=
  step ≠ 0 ∧ if 0 <? step then int32_min ≤ start ∧ stop - 1 + step ≤ int32_max else start ≤ int32_max ∧ int32_min ≤ stop + 1 + step.

(** [I] is indexed by the number of rounds. *)
Lemma wp_stride_for {S} (I : Z → S → Prop) E start stop step (body : Z → M S unit) s :
  loop_ok start stop step → I 0 s →
  (∀ k s, 0 ≤ k < steps_between start stop step → I k s → wp (body (start + k * step)) (λ _ s', I (k + 1) s') E s) →
  wp (stride_for start stop step body) (λ _ s', I (steps_between start stop step) s') E s.
Proof.
  intros [Hstep Hb] H0 Hbody. unfold stride_for. set (n := steps_between start stop step) in *.
  pose proof (steps_nonneg start stop step Hstep) as Hn. fold n in Hn.
  enough (∀ fuel k s, 0 ≤ k ≤ n → n - k ≤ Z.of_nat fuel → I k s →
    wp (stride_loop fuel (start + k * step) stop step body) (λ _ s', I n s') E s) as H.
  { specialize (H (Z.to_nat (Z.abs (stop - start))) 0 s). rewrite Z.mul_0_l, Z.add_0_r in H. apply H; [lia|lia|done]. }
  clear s H0. induction fuel as [|fuel IH]; intros k s Hk Hf HI; cbn [stride_loop];
    rewrite lc_steps by (done || lia); fold n.
  - rewrite (proj2 (Z.ltb_ge _ _)) by lia. apply wp_ret. by replace n with k by lia.
  - destruct (Z.ltb_spec k n) as [Hlt|Hge]; [|apply wp_ret; by replace n with k by lia].
    apply wp_bind. eapply wp_post; [|apply Hbody; [lia|done]]. intros [] s' Hs'. simpl in Hs'. apply wp_bind, wp_int32.
    + pose proof (steps_inside start stop step k Hstep ltac:(fold n; lia)) as Hin. unfold is_int32.
      destruct (Z.ltb_spec 0 step); unfold int32_min, int32_max in *; lia.
    + replace (start + k * step + step) with (start + (k + 1) * step) by lia. apply IH; [lia|lia|done].
Qed.

(** ** Writing in order *)

Definition written (sizes steps inp : list Z) (a : Z) (w w' : Writer) : Prop :=
  copied sizes steps inp a w.2 w.1 w'.1 ∧ w'.2 = w.2 + volume sizes.

Lemma written_length sizes steps inp a w w' : written sizes steps inp a w w' → zlen w'.1 = zlen w.1.
Proof. intros [(Hl & _) _]. by rewrite Hl. Qed.

Lemma wp_Write inp pos w : 0 ≤ pos < zlen inp → 0 ≤ w.2 < zlen w.1 →
  wp (Write inp pos) (λ _ w', written [] [] inp pos w w') (λ _, False) w.
Proof.
  intros Hpos Hw. pose proof (vat_zget 0 inp pos Hpos) as Hx. unfold Write. apply wp_bind. eapply wp_at; [exact Hx|].
  apply wp_bind, wp_get, wp_bind, wp_upd; [done|]. apply wp_put. split; [by apply copied_nil|done].
Qed.

(** The rounds of a loop write one row each. *)
Lemma written_rows sizes steps inp a st n (P : Z → Writer → Prop) (w : Writer) :
  nonneg sizes → 
  P = (λ k w', written (k :: sizes) (st :: steps) inp a w w') →
  P 0 w ∧ ∀ k w' w'', 0 ≤ k < n → P k w' → written sizes steps inp (a + k * st) w' w'' → P (k + 1) w''.
Proof.
  intros Hs ->. split.
  - split; [apply copied_0|]. unfold volume. simpl. lia.
  - intros k w' w'' Hk [Hc Hp] [Hc' Hp']. unfold volume in Hp. cbn [foldr] in Hp. fold (volume sizes) in Hp. rewrite Hp in Hc', Hp'.
    split; [apply (copied_step _ _ _ _ _ _ _ _ w'.1); [done|lia|done..]|].
    unfold volume. cbn [foldr]. fold (volume sizes). lia.
Qed.

Lemma wp_WriteN inp pos len w : 0 ≤ len → (0 < len → 0 ≤ pos ∧ pos + len ≤ zlen inp) → 0 ≤ w.2 → w.2 + len ≤ zlen w.1 →
  wp (WriteN inp pos len) (λ _ w', written [len] [1] inp pos w w') (λ _, False) w.
Proof.
  intros Hlen Hpos Hw Hroom. unfold WriteN.
  destruct (written_rows [] [] inp pos 1 len _ w ltac:(constructor) eq_refl) as [H0 Hstep].
  eapply wp_post; [|apply (wp_for_each (λ done w', written [zlen done] [1] inp pos w w'))].
  - intros [] w' Hw'. simpl in Hw'. rewrite range_length in Hw'. by replace (Z.of_nat (Z.to_nat (len - 0))) with len in Hw' by lia.
  - exact H0.
  - intros done k todo w' Hs Hw'. destruct (range_split _ _ _ _ Hs) as [-> Hlt].
    pose proof (written_length _ _ _ _ _ _ Hw') as Hl. pose proof Hw' as [_ Hp]. unfold volume in Hp. simpl in Hp.
    eapply wp_post; [|apply wp_Write; lia]. intros [] w'' Hw''. simpl in Hw''. rewrite zlen_snoc.
    eapply Hstep; [|exact Hw'|by rewrite Z.mul_1_r]. lia.
Qed.

(** A loop around something that writes. *)
Lemma wp_written_loop start stop step S sizes steps inp a body (w : Writer) :
  nonneg sizes → loop_ok start stop step → 0 ≤ w.2 →
  w.2 + steps_between start stop step * volume sizes ≤ zlen w.1 →
  (∀ k w', 0 ≤ k < steps_between start stop step → 0 ≤ w'.2 → w'.2 + volume sizes ≤ zlen w'.1 →
     wp (body (start + k * step)) (λ _ w'', written sizes steps inp (a + (start + k * step) * S) w' w'') (λ _, False) w') →
  wp (stride_for start stop step body)
     (λ _ w', written (steps_between start stop step :: sizes) (step * S :: steps) inp (a + start * S) w w') (λ _, False) w.
Proof.
  intros Hnn Hb Hw Hroom Hbody. set (n := steps_between start stop step) in *.
  destruct (written_rows sizes steps inp (a + start * S) (step * S) n _ w Hnn eq_refl) as [H0 Hnext].
  pose proof (volume_nonneg _ Hnn) as Hv.
  apply (wp_stride_for (λ k w', written (k :: sizes) (step * S :: steps) inp (a + start * S) w w')); [done|exact H0|].
  intros k w' Hk Hw'. pose proof (written_length _ _ _ _ _ _ Hw') as Hl. pose proof Hw' as [_ Hp].
  unfold volume in Hp. cbn [foldr] in Hp. fold (volume sizes) in Hp. fold n in Hk.
  eapply wp_post; [|apply Hbody; [done|nia|nia]]. intros [] w'' Hw''. simpl in Hw''.
  eapply Hnext; [exact Hk|exact Hw'|]. by replace (a + start * S + k * (step * S)) with (a + (start + k * step) * S) by lia.
Qed.

(** ** Five loops *)

Definition position5 (s1 s2 s3 s4 o0 o1 o2 o3 o4 : Z) : Z :=
  o0 * (s1 * s2 * s3 * s4) + o1 * (s2 * s3 * s4) + o2 * (s3 * s4) + o3 * s4 + o4.

(** One more dimension in front: [v] elements of each row, [m] a bound for them. *)
Lemma row_bounds o s v m : 0 ≤ o < s → 0 ≤ v ≤ m → 1 ≤ m →
  0 ≤ o * v ∧ o * v + v ≤ s * v ∧ 0 ≤ s * v ≤ Z.max 1 s * m ∧ o * m ≤ Z.max 1 s * m ∧ m ≤ Z.max 1 s * m ∧ 1 ≤ Z.max 1 s * m.
Proof. intros. rewrite Z.max_r by lia. nia. Qed.

(** A product of an offset with some dimensions, in the order of the code. *)
Lemma wp_term {S} shape o l (Q : Z → S → Prop) E s :
  (∀ d, d ∈ l → 0 ≤ d < zlen shape ∧ 0 ≤ vat 0 shape d) → 0 ≤ o →
  o * volume (Z.max 1 <$> (vat 0 shape <$> l)) ≤ int32_max → Q (o * volume (vat 0 shape <$> l)) s →
  wp (fold_m l o (λ o d, x ← at_ shape d; int32 (o * x))) Q E s.
Proof.
  revert o. induction l as [|d l IH]; intros o Hl Ho Hb HQ; [apply wp_ret; unfold volume in HQ; simpl in HQ; by rewrite Z.mul_1_r in HQ|].
  destruct (Hl d) as [Hd Hx]; [by left|]. rewrite !fmap_cons in *. unfold volume in Hb, HQ. cbn [foldr] in Hb, HQ.
  fold (volume (vat 0 shape <$> l)) in HQ. fold (volume (Z.max 1 <$> (vat 0 shape <$> l))) in Hb.
  pose proof (volume_max_pos (vat 0 shape <$> l)) as Hv. set (v := volume (Z.max 1 <$> (vat 0 shape <$> l))) in *.
  set (x := vat 0 shape d) in *.
  assert (0 ≤ o * x ∧ o * x * v ≤ int32_max ∧ o * x ≤ int32_max) as (H1 & H2 & H3).
  { assert (o * x ≤ o * Z.max 1 x) by (apply Z.mul_le_mono_nonneg_l; lia).
    assert (0 ≤ o * x) by (by apply Z.mul_nonneg_nonneg). split; [done|]. rewrite Z.mul_assoc in Hb.
    assert (o * x * v ≤ o * Z.max 1 x * v) by (apply Z.mul_le_mono_nonneg_r; lia). split; [lia|].
    assert (o * x * 1 ≤ o * x * v) by (apply Z.mul_le_mono_nonneg_l; lia). lia. }
  cbn [fold_m]. apply wp_bind, wp_bind. eapply wp_at; [by apply (vat_zget 0)|]. fold x.
  apply wp_int32; [unfold is_int32, int32_min, int32_max in *; lia|]. apply IH; [intros d' Hd'; apply Hl; by right|done|done|].
  by rewrite <- Z.mul_assoc.
Qed.

Section nest.
Context (inp : list Z) (s0 s1 s2 s3 s4 : Z).
Hypothesis sizes_bounded : bounded [s0; s1; s2; s3; s4].

Lemma sizes_nonneg : 0 ≤ s0 ∧ 0 ≤ s1 ∧ 0 ≤ s2 ∧ 0 ≤ s3 ∧ 0 ≤ s4.
Proof. destruct sizes_bounded as [Hn _]. unfold nonneg in Hn. rewrite !Forall_cons in Hn. tauto. Qed.

Lemma wp_position {T} o0 o1 o2 o3 o4 (Q : Z → T → Prop) E s :
  0 ≤ o0 < s0 → 0 ≤ o1 < s1 → 0 ≤ o2 < s2 → 0 ≤ o3 < s3 → 0 ≤ o4 ≤ s4 →
  Q (position5 s1 s2 s3 s4 o0 o1 o2 o3 o4) s → wp (position [s0; s1; s2; s3; s4] o0 o1 o2 o3 o4) Q E s.
Proof.
  intros H0 H1 H2 H3 H4 HQ. pose proof sizes_nonneg as Hn. destruct sizes_bounded as [_ Hb].
  change (Z.max 1 s0 * (Z.max 1 s1 * (Z.max 1 s2 * (Z.max 1 s3 * (Z.max 1 s4 * 1)))) ≤ int32_max) in Hb. rewrite Z.mul_1_r in Hb.
  destruct (row_bounds o3 s3 s4 (Z.max 1 s4)) as (A3 & B3 & C3 & D3 & E3 & F3); [lia..|].
  destruct (row_bounds o2 s2 _ _ H2 C3 F3) as (A2 & B2 & C2 & D2 & E2 & F2).
  destruct (row_bounds o1 s1 _ _ H1 C2 F2) as (A1 & B1 & C1 & D1 & E1 & F1).
  destruct (row_bounds o0 s0 _ _ H0 C1 F1) as (A0 & B0 & C0 & D0 & E0 & F0).
  set (m4 := Z.max 1 s4) in *. set (m3 := Z.max 1 s3 * m4) in *. set (m2 := Z.max 1 s2 * m3) in *.
  set (m1 := Z.max 1 s1 * m2) in *. set (m0 := Z.max 1 s0 * m1) in *.
  assert (∀ l : list Z, (∀ d, d ∈ l → d ∈ [1; 2; 3; 4]) → ∀ d, d ∈ l → 0 ≤ d < zlen [s0; s1; s2; s3; s4] ∧ 0 ≤ vat 0 [s0; s1; s2; s3; s4] d) as Hl.
  { intros l Hsub d Hd%Hsub. rewrite !elem_of_cons, elem_of_nil in Hd. destruct Hd as [->|[->|[->|[->|[]]]]]; (split; [simpl; lia|]);
      [change (0 ≤ s1)|change (0 ≤ s2)|change (0 ≤ s3)|change (0 ≤ s4)]; lia. }
  unfold position. 
  apply wp_bind, wp_bind, wp_term; [apply Hl; intros ?; rewrite !elem_of_cons; tauto|lia|change (o3 * (Z.max 1 s4 * 1) ≤ int32_max); rewrite Z.mul_1_r; lia|]. apply wp_ret.
  apply wp_bind, wp_bind, wp_term; [apply Hl; intros ?; rewrite !elem_of_cons; tauto|lia|change (o2 * (Z.max 1 s3 * (Z.max 1 s4 * 1)) ≤ int32_max); rewrite Z.mul_1_r; lia|]. apply wp_ret.
  apply wp_bind, wp_bind, wp_term; [apply Hl; intros ?; rewrite !elem_of_cons; tauto|lia|change (o1 * (Z.max 1 s2 * (Z.max 1 s3 * (Z.max 1 s4 * 1))) ≤ int32_max); rewrite Z.mul_1_r; lia|]. apply wp_ret.
  apply wp_bind, wp_bind, wp_term; [apply Hl; intros ?; rewrite !elem_of_cons; tauto|lia|change (o0 * (Z.max 1 s1 * (Z.max 1 s2 * (Z.max 1 s3 * (Z.max 1 s4 * 1)))) ≤ int32_max); rewrite Z.mul_1_r; lia|]. apply wp_ret.
  change (volume (vat 0 [s0; s1; s2; s3; s4] <$> [4])) with (s4 * 1). change (volume (vat 0 [s0; s1; s2; s3; s4] <$> [3; 4])) with (s3 * (s4 * 1)).
  change (volume (vat 0 [s0; s1; s2; s3; s4] <$> [2; 3; 4])) with (s2 * (s3 * (s4 * 1))).
  change (volume (vat 0 [s0; s1; s2; s3; s4] <$> [1; 2; 3; 4])) with (s1 * (s2 * (s3 * (s4 * 1)))).
  rewrite !Z.mul_1_r. set (v3 := s3 * s4) in *. set (v2 := s2 * v3) in *. set (v1 := s1 * v2) in *. set (v0 := s0 * v1) in *.
  do 3 (apply wp_bind, wp_int32; [unfold is_int32, int32_min, int32_max in *; lia|]).
  apply wp_int32; [unfold is_int32, int32_min, int32_max in *; lia|].
  replace (o4 + o3 * s4 + o2 * v3 + o1 * v2 + o0 * v1) with (position5 s1 s2 s3 s4 o0 o1 o2 o3 o4); [exact HQ|].
  unfold position5, v1, v2, v3. rewrite !Z.mul_assoc. lia.
Qed.
End nest.

Lemma axis_step_ne a : axis_ok a → axis_step a ≠ 0.
Proof. destruct a as [[] d]; intros [_ Hok]; unfold axis_step; simpl in *; try done; tauto. Qed.

Lemma axis_loop_ok a : axis_ok a → loop_ok (axis_start a) (axis_stop a) (axis_step a).
Proof.
  intros Hok. split; [by apply axis_step_ne|]. pose proof (axis_bounds a Hok) as [_ Hb].
  destruct a as [it d], Hok as [Hd Hok]. simpl in Hd. unfold int32_min, int32_max in *.
  assert (axis_size (it, d) ≤ Z.max 1 d) as Hs by (unfold axis_size; destruct it; simpl; lia).
  destruct it as [| | |b e s bm em sh]; try done; unfold axis_step, axis_size in *; simpl in *; [lia..|].
  destruct Hok as (_ & _ & Hs32 & Hs0 & Hsum & _). unfold is_int32, int32_min, int32_max in Hs32. destruct (Z.ltb_spec 0 s); lia.
Qed.

Section slices.
Context (inp : list Z) (a0 a1 a2 a3 a4 : axis).
Let axes : list axis := [a0; a1; a2; a3; a4].
Hypothesis axes_ok : Forall axis_ok axes.
Hypothesis axes_bounded : bounded (axis_size <$> axes).
Hypothesis enough_input : volume (axis_size <$> axes) ≤ zlen inp.

Definition nest (input_data : list Z) (shape : list Z) : M Writer unit :=
  stride_for (axis_start a0) (axis_stop a0) (axis_step a0) (λ offset_0,
    stride_for (axis_start a1) (axis_stop a1) (axis_step a1) (λ offset_1,
      stride_for (axis_start a2) (axis_stop a2) (axis_step a2) (λ offset_2,
        stride_for (axis_start a3) (axis_stop a3) (axis_step a3) (λ offset_3,
          if axis_step a4 =? 1 then
            len ← int32 (axis_stop a4 - axis_start a4);
            index ← position shape offset_0 offset_1 offset_2 offset_3 (axis_start a4);
            if 0 <? len then WriteN input_data index len else mret tt
          else
            stride_for (axis_start a4) (axis_stop a4) (axis_step a4) (λ offset_4,
              index ← position shape offset_0 offset_1 offset_2 offset_3 offset_4;
              Write input_data index))))).

(** The distance in the input between two steps. *)
Definition slice_steps : list Z :=
  [axis_step a0 * (axis_size a1 * axis_size a2 * axis_size a3 * axis_size a4); axis_step a1 * (axis_size a2 * axis_size a3 * axis_size a4);
   axis_step a2 * (axis_size a3 * axis_size a4); axis_step a3 * axis_size a4; axis_step a4 * 1].

Definition slice_position (o0 o1 o2 o3 o4 : Z) : Z :=
  position5 (axis_size a1) (axis_size a2) (axis_size a3) (axis_size a4) o0 o1 o2 o3 o4.

Lemma slice_position_range o0 o1 o2 o3 o4 :
  0 ≤ o0 < axis_size a0 → 0 ≤ o1 < axis_size a1 → 0 ≤ o2 < axis_size a2 → 0 ≤ o3 < axis_size a3 → 0 ≤ o4 →
  0 ≤ slice_position o0 o1 o2 o3 o4 ∧
  ∀ n, o4 + n ≤ axis_size a4 → slice_position o0 o1 o2 o3 o4 + n ≤ zlen inp.
Proof.
  intros H0 H1 H2 H3 H4. pose proof axes_bounded as [Hn _]. unfold axes in *. rewrite !fmap_cons in Hn. unfold nonneg in Hn.
  rewrite !Forall_cons in Hn. destruct Hn as (_ & _ & _ & _ & Hn4 & _).
  change (axis_size a0 * (axis_size a1 * (axis_size a2 * (axis_size a3 * (axis_size a4 * 1)))) ≤ zlen inp) in enough_input.
  rewrite Z.mul_1_r in enough_input.
  pose proof (row_bounds o3 (axis_size a3) (axis_size a4) (Z.max 1 (axis_size a4)) H3 ltac:(lia) ltac:(lia)) as (A3 & B3 & C3 & _ & _ & F3).
  pose proof (row_bounds o2 _ _ _ H2 C3 F3) as (A2 & B2 & C2 & _ & _ & F2).
  pose proof (row_bounds o1 _ _ _ H1 C2 F2) as (A1 & B1 & C1 & _ & _ & F1).
  pose proof (row_bounds o0 _ _ _ H0 C1 F1) as (A0 & B0 & _).
  unfold slice_position, position5. rewrite <- !Z.mul_assoc. split; [lia|]. intros n Hn. lia.
Qed.

(** The innermost loop. *)
Lemma wp_inner o0 o1 o2 o3 (w : Writer) :
  0 ≤ o0 < axis_size a0 → 0 ≤ o1 < axis_size a1 → 0 ≤ o2 < axis_size a2 → 0 ≤ o3 < axis_size a3 →
  0 ≤ w.2 → w.2 + axis_count a4 * 1 ≤ zlen w.1 →
  wp (if axis_step a4 =? 1 then
        len ← int32 (axis_stop a4 - axis_start a4);
        index ← position (axis_size <$> axes) o0 o1 o2 o3 (axis_start a4);
        if 0 <? len then WriteN inp index len else mret tt
      else
        stride_for (axis_start a4) (axis_stop a4) (axis_step a4) (λ offset_4,
          index ← position (axis_size <$> axes) o0 o1 o2 o3 offset_4;
          Write inp index))
     (λ _ w', written [axis_count a4] [axis_step a4 * 1] inp (slice_position o0 o1 o2 o3 (axis_start a4)) w w') (λ _, False) w.
Proof.
  intros H0 H1 H2 H3 Hw Hroom. assert (axis_ok a4) as Hok by (unfold axes in axes_ok; rewrite !Forall_cons in axes_ok; tauto).
  pose proof (axis_bounds a4 Hok) as [Hs Hb]. destruct (Z.eqb_spec (axis_step a4) 1) as [Hone|Hne].
  - rewrite Hone in *. cbv iota beta in Hb. change (0 <? 1) with true in Hb. cbv iota in Hb.
    assert (axis_count a4 = Z.max 0 (axis_stop a4 - axis_start a4)) as Hc.
    { unfold axis_count, steps_between. rewrite Hone. change (0 <? 1) with true. cbv iota.
      destruct (Z.ltb_spec (axis_start a4) (axis_stop a4)); [rewrite Z.div_1_r|]; lia. }
    assert (axis_size a4 ≤ int32_max) as Hmax.
    { destruct a4 as [it d], Hok as [Hd _]. unfold axis_size, int32_max in *. destruct it; simpl in *; lia. }
    apply wp_bind, wp_int32; [unfold is_int32, int32_min, int32_max in *; lia|].
    apply wp_bind, wp_position; [apply axes_bounded|done..|lia|]. fold (slice_position o0 o1 o2 o3 (axis_start a4)).
    destruct (slice_position_range o0 o1 o2 o3 (axis_start a4)) as [Hp Hr]; [done..|lia|].
    destruct (Z.ltb_spec 0 (axis_stop a4 - axis_start a4)).
    + replace (axis_stop a4 - axis_start a4) with (axis_count a4) by lia. apply wp_WriteN; [lia| |done|lia].
      intros _. split; [done|]. apply Hr. lia.
    + apply wp_ret. replace (axis_count a4) with 0 by lia. split; [apply copied_0|]. unfold volume. simpl. lia.
  - replace (slice_position o0 o1 o2 o3 (axis_start a4)) with (slice_position o0 o1 o2 o3 0 + axis_start a4 * 1)
      by (unfold slice_position, position5; lia).
    apply wp_written_loop; [constructor|by apply axis_loop_ok|done|done|].
    intros k w' Hk Hw' Hroom'. change (volume []) with 1 in Hroom'. pose proof (axis_inside a4 k Hok Hk) as Hin.
    apply wp_bind, wp_position; [apply axes_bounded|done..|lia|]. fold (slice_position o0 o1 o2 o3 (axis_start a4 + k * axis_step a4)).
    destruct (slice_position_range o0 o1 o2 o3 (axis_start a4 + k * axis_step a4)) as [Hp Hr]; [done..|lia|].
    replace (slice_position o0 o1 o2 o3 0 + (axis_start a4 + k * axis_step a4) * 1) with (slice_position o0 o1 o2 o3 (axis_start a4 + k * axis_step a4))
      by (unfold slice_position, position5; lia).
    apply wp_Write; [|lia]. specialize (Hr 1). lia.
Qed.
Lemma count_nonneg a : axis_ok a → 0 ≤ axis_count a.
Proof. intros Hok. apply steps_nonneg. by apply axis_step_ne. Qed.

(** All five loops. *)
Lemma wp_nest (w : Writer) : 0 ≤ w.2 → w.2 + volume (axis_count <$> axes) ≤ zlen w.1 →
  wp (nest inp (axis_size <$> axes))
     (λ _ w', written (axis_count <$> axes) slice_steps inp
       (slice_position (axis_start a0) (axis_start a1) (axis_start a2) (axis_start a3) (axis_start a4)) w w') (λ _, False) w.
Proof.
  intros Hw Hroom. pose proof axes_ok as Hoks. unfold axes in Hoks. rewrite !Forall_cons in Hoks.
  destruct Hoks as (K0 & K1 & K2 & K3 & K4 & _). unfold axes in Hroom. rewrite !fmap_cons in Hroom. cbn [fmap list_fmap] in Hroom.
  assert (∀ l : list axis, Forall axis_ok l → nonneg (axis_count <$> l)) as Hnn.
  { intros l Hl. unfold nonneg. rewrite Forall_fmap. eapply Forall_impl; [exact Hl|apply count_nonneg]. }
  set (S0 := axis_size a1 * axis_size a2 * axis_size a3 * axis_size a4).
  set (S1 := axis_size a2 * axis_size a3 * axis_size a4). set (S2 := axis_size a3 * axis_size a4). set (S3 := axis_size a4).
  replace (slice_position (axis_start a0) (axis_start a1) (axis_start a2) (axis_start a3) (axis_start a4))
    with (slice_position 0 (axis_start a1) (axis_start a2) (axis_start a3) (axis_start a4) + axis_start a0 * S0)
    by (unfold slice_position, position5, S0; lia).
  unfold nest, axes, slice_steps. rewrite fmap_cons.
  apply wp_written_loop; [apply (Hnn [a1; a2; a3; a4]); by rewrite ?Forall_cons, Forall_nil|by apply axis_loop_ok|done|exact Hroom|].
  intros k0 w0 Hk0 Hw0 Hr0. pose proof (axis_inside a0 k0 K0 Hk0) as I0. set (o0 := axis_start a0 + k0 * axis_step a0) in *.
  replace (slice_position 0 (axis_start a1) (axis_start a2) (axis_start a3) (axis_start a4) + o0 * S0)
    with (slice_position o0 0 (axis_start a2) (axis_start a3) (axis_start a4) + axis_start a1 * S1)
    by (unfold slice_position, position5, S0, S1; lia).
  apply wp_written_loop; [apply (Hnn [a2; a3; a4]); by rewrite ?Forall_cons, Forall_nil|by apply axis_loop_ok|done|exact Hr0|].
  intros k1 w1 Hk1 Hw1 Hr1. pose proof (axis_inside a1 k1 K1 Hk1) as I1. set (o1 := axis_start a1 + k1 * axis_step a1) in *.
  replace (slice_position o0 0 (axis_start a2) (axis_start a3) (axis_start a4) + o1 * S1)
    with (slice_position o0 o1 0 (axis_start a3) (axis_start a4) + axis_start a2 * S2)
    by (unfold slice_position, position5, S1, S2; lia).
  apply wp_written_loop; [apply (Hnn [a3; a4]); by rewrite ?Forall_cons, Forall_nil|by apply axis_loop_ok|done|exact Hr1|].
  intros k2 w2 Hk2 Hw2 Hr2. pose proof (axis_inside a2 k2 K2 Hk2) as I2. set (o2 := axis_start a2 + k2 * axis_step a2) in *.
  replace (slice_position o0 o1 0 (axis_start a3) (axis_start a4) + o2 * S2)
    with (slice_position o0 o1 o2 0 (axis_start a4) + axis_start a3 * S3)
    by (unfold slice_position, position5, S2, S3; lia).
  apply wp_written_loop; [apply (Hnn [a4]); by rewrite ?Forall_cons, Forall_nil|by apply axis_loop_ok|done|exact Hr2|].
  intros k3 w3 Hk3 Hw3 Hr3. pose proof (axis_inside a3 k3 K3 Hk3) as I3. set (o3 := axis_start a3 + k3 * axis_step a3) in *.
  replace (slice_position o0 o1 o2 0 (axis_start a4) + o3 * S3) with (slice_position o0 o1 o2 o3 (axis_start a4))
    by (unfold slice_position, position5, S3; lia).
  by apply wp_inner.
Qed.

(** The elements in terms of indices. *)
Lemma slice_elements (w w' : Writer) ix :
  written (axis_count <$> axes) slice_steps inp
    (slice_position (axis_start a0) (axis_start a1) (axis_start a2) (axis_start a3) (axis_start a4)) w w' →
  valid (axis_count <$> axes) ix →
  zget w'.1 (w.2 + flat (axis_count <$> axes) ix) =
  zget inp (flat (axis_size <$> axes) (λ d, vat 0 (axis_start <$> axes) d + ix d * vat 0 (axis_step <$> axes) d)).
Proof.
  intros [(_ & Hc & _) _] Hv. rewrite Hc by done. f_equal. unfold axes, slice_steps. cbn [fmap list_fmap].
  rewrite !dot_cons, !flat_cons. change (dot [] ?f) with 0. change (flat [] ?f) with 0. unfold slice_position, position5, volume. cbn [foldr].
  rewrite ?Z.mul_1_r. unfold vat, zget. simpl. lia.
Qed.
End slices.
