(* ===== verification/StridedSliceRanges.v ===== *)
(** * The parameters of a strided slice and what they select

    Parameters encode one item for each dimension; the bounds that the kernel computes
    from them are those of the item, and padding to five dimensions keeps the items. *)

From S2P Require Import Prelude ArenaPlanner Subgraph TensorLayout TensorCopy KernelUtil StridedSlice StridedSliceProofs.

(** ** Arrays of five places *)

Definition sized (p : StridedSliceParams) : Prop :=
  length (start_indices p) = 5%nat ∧ length (stop_indices p) = 5%nat ∧ length (strides p) = 5%nat.

Definition ranges_at (p : StridedSliceParams) (i : Z) : option Z * option Z * option Z :=
  (zget (start_indices p) i, zget (stop_indices p) i, zget (strides p) i).

(** Everything but the arrays. *)
Definition same_masks (p p' : StridedSliceParams) : Prop :=
  op_begin_mask p' = op_begin_mask p ∧ op_end_mask p' = op_end_mask p ∧ op_shrink_axis_mask p' = op_shrink_axis_mask p ∧
  op_offset p' = op_offset p ∧ start_indices_count p' = start_indices_count p.

#[export] Instance same_masks_refl : Reflexive same_masks.
Proof. by intros p. Qed.
#[export] Instance same_masks_trans : Transitive same_masks.
Proof. unfold same_masks. intros p1 p2 p3 (?&?&?&?&?) (?&?&?&?&?). split_and!; congruence. Qed.

Lemma wp_put_range {S} i b e s p (Q : StridedSliceParams → S → Prop) E st :
  sized p → 0 ≤ i < 5 →
  (∀ p', sized p' → same_masks p p' → ranges_at p' i = (Some b, Some e, Some s) → (∀ j, j ≠ i → ranges_at p' j = ranges_at p j) → Q p' st) →
  wp (put_range i b e s p) Q E st.
Proof.
  intros (H1 & H2 & H3) Hi HQ. unfold put_range. apply wp_bind, wp_upd; [lia|]. apply wp_bind, wp_upd; [lia|].
  apply wp_bind, wp_upd; [lia|]. apply wp_ret, HQ.
  - unfold sized. simpl. by rewrite !zset_length.
  - done.
  - unfold ranges_at. simpl. by rewrite !zget_zset_eq by lia.
  - intros j Hj. unfold ranges_at. simpl. by rewrite !zget_zset_ne by lia.
Qed.

(** ** The items that parameters encode *)

Definition raw (it : item) : Z * Z * Z * (bool * bool * bool) :=
  match it with
  | Ellipsis => (0, 0, 0, (false, false, false))
  | NewAxis => (0, 1, 1, (false, false, false))
  | Full => (0, 0, 1, (true, true, false))
  | Index b e s bm em sh => (b, e, s, (bm, em, sh))
  end.

Definition bits_at (p : StridedSliceParams) (i : Z) : bool * bool * bool :=
  (Z.testbit (op_begin_mask p) i, Z.testbit (op_end_mask p) i, Z.testbit (op_shrink_axis_mask p) i).

Definition encodes (p : StridedSliceParams) (i : Z) (it : item) : Prop :=
  let '(b, e, s, bits) := raw it in ranges_at p i = (Some b, Some e, Some s) ∧ bits_at p i = bits.

Lemma Clamp_limit n s i : 0 ≤ n → (if 0 <? s then Clamp i 0 n else Clamp i (-1) (n - 1)) = limit n s i.
Proof. intros Hn. unfold Clamp, limit. repeat case_match; lia. Qed.

Lemma wp_has_bit {S} mask i (Q : bool → S → Prop) E s : 0 ≤ i < 32 → Q (Z.testbit mask i) s → wp (has_bit mask i) Q E s.
Proof. intros Hi HQ. unfold has_bit. by rewrite decide_True. Qed.

Lemma wp_wrap {S} n i (Q : Z → S → Prop) E s : 0 ≤ n ≤ int32_max → is_int32 i → Q (wrap n i) s →
  wp (if i <? 0 then int32 (i + n) else mret i) Q E s.
Proof.
  unfold wrap. intros Hn Hi HQ. destruct (Z.ltb_spec i 0); [|done]. apply wp_int32; [|done].
  unfold is_int32, int32_min, int32_max in *. lia.
Qed.

(** The size of the dimension that is indexed, also for a new one. *)
Definition as_index (a : axis) : axis :=
  let '(b, e, s, (bm, em, sh)) := raw a.1 in (Index b e s bm em sh, axis_size a).

Lemma as_index_ok a : axis_ok a → axis_ok (as_index a) ∧ axis_size (as_index a) = axis_size a ∧ axis_start (as_index a) = axis_start a ∧
  axis_stop (as_index a) = axis_stop a ∧ axis_step (as_index a) = axis_step a.
Proof.
  destruct a as [[| | |b e s bm em sh] d]; intros [Hd Hok]; simpl in *; [done|..|by split_and!];
    unfold as_index, axis_ok, axis_start, axis_stop, axis_size, axis_step, limit, wrap, is_int32, int32_min, int32_max in *; simpl in *.
  - split_and!; try done; lia.
  - split_and!; try done; lia.
Qed.

Lemma wp_StartForAxis {S} p sizes i a (Q : Z → S → Prop) E s :
  axis_ok a → encodes p i a.1 → zget sizes i = Some (axis_size a) → 0 ≤ i < 32 → Q (axis_start a) s →
  wp (StridedSliceStartForAxis p sizes i) Q E s.
Proof.
  intros Hok Henc Hsz Hi HQ. destruct (as_index_ok a Hok) as (Hok' & Hs' & Hstart & _ & _).
  destruct a as [it d]. unfold encodes, as_index in *. simpl in *. destruct (raw it) as [[[b e] st] [[bm em] sh]] eqn:Hraw.
  destruct Henc as [[= Hb He Hst] [= Hbm Hem Hsh]]. destruct Hok' as [Hd Hok']. simpl in Hd, Hok'. destruct Hok' as (Hb32 & _).
  unfold StridedSliceStartForAxis. apply wp_bind. eapply wp_at; [exact Hsz|]. apply wp_bind. eapply wp_at; [exact Hb|].
  apply wp_bind. eapply wp_at; [exact Hst|]. apply wp_bind, wp_has_bit; [done|]. apply wp_bind, wp_wrap; [done|done|].
  apply wp_ret. rewrite Hbm, Clamp_limit by lia. unfold axis_start in Hstart at 1. simpl in Hstart. rewrite Hstart. exact HQ.
Qed.

Lemma wp_EndForAxis {S} p sizes i a (Q : Z → S → Prop) E s :
  axis_ok a → encodes p i a.1 → op_offset p = false → zget sizes i = Some (axis_size a) → 0 ≤ i < 32 → Q (axis_stop a) s →
  wp (StridedSliceEndForAxis p sizes i (axis_start a)) Q E s.
Proof.
  intros Hok Henc Hoff Hsz Hi HQ. destruct (as_index_ok a Hok) as (Hok' & Hs' & Hstart & Hstop & _).
  destruct a as [it d]. unfold encodes, as_index in *. simpl in *. destruct (raw it) as [[[b e] st] [[bm em] sh]] eqn:Hraw.
  destruct Henc as [[= Hb He Hst] [= Hbm Hem Hsh]]. destruct Hok' as [Hd Hok']. simpl in Hd, Hok'.
  destruct Hok' as (_ & He32 & _ & _ & _ & Hshr). unfold axis_stop in Hstop at 1. simpl in Hstop. rewrite Hstart in *.
  unfold StridedSliceEndForAxis. apply wp_bind, wp_has_bit; [done|]. rewrite Hsh. apply wp_bind. eapply wp_at; [exact Hsz|].
  destruct sh.
  - destruct Hshr as [Hpos Hlt]; [done|]. rewrite (proj2 (Z.leb_gt _ _)) by done. apply wp_int32; [|by rewrite Hstop].
    pose proof (axis_bounds _ Hok) as [_ Hbd]. unfold is_int32, int32_min, int32_max in *. destruct (0 <? axis_step _); lia.
  - apply wp_bind. eapply wp_at; [exact He|]. rewrite Hoff. apply wp_bind, wp_ret, wp_bind. eapply wp_at; [exact Hst|].
    apply wp_bind, wp_has_bit; [done|]. apply wp_bind, wp_wrap; [done|done|].
    apply wp_ret. rewrite Hem, Clamp_limit by lia. rewrite Hstop. exact HQ.
Qed.

(** ** Padding to five dimensions *)

Definition pad_item : item := Index 0 1 1 true true false.

(** The ranges from [m] to [n] have moved up. *)
Definition moved_up (pad m n : Z) (p p' : StridedSliceParams) : Prop :=
  sized p' ∧ same_masks p p' ∧ (∀ i, m + pad ≤ i < n + pad → ranges_at p' i = ranges_at p (i - pad)) ∧
  ∀ i, i < m + pad → ranges_at p' i = ranges_at p i.

Lemma wp_ranges_at {S} p i (k : Z → Z → Z → M S StridedSliceParams) Q E s :
  sized p → 0 ≤ i < 5 → (∀ b e st, ranges_at p i = (Some b, Some e, Some st) → wp (k b e st) Q E s) →
  wp (b ← at_ (start_indices p) i; e ← at_ (stop_indices p) i; st ← at_ (strides p) i; k b e st) Q E s.
Proof.
  intros (H1 & H2 & H3) Hi HQ. unfold ranges_at in HQ. destruct (zget_is_Some (start_indices p) i) as [b Hb]; [lia|].
  destruct (zget_is_Some (stop_indices p) i) as [e He]; [lia|]. destruct (zget_is_Some (strides p) i) as [st Hst]; [lia|].
  apply wp_bind. eapply wp_at; [exact Hb|]. apply wp_bind. eapply wp_at; [exact He|]. apply wp_bind. eapply wp_at; [exact Hst|].
  apply HQ. by rewrite Hb, He, Hst.
Qed.

Lemma wp_move_up {S} pad (m n : nat) p p0 (E : S → Prop) s :
  0 ≤ pad → Z.of_nat n + pad ≤ 5 → (m ≤ n)%nat → sized p0 → moved_up pad (Z.of_nat m) (Z.of_nat n) p0 p →
  wp (fold_m (reverse (range 0 (Z.of_nat m))) p (λ p i,
        b ← at_ (start_indices p) i; e ← at_ (stop_indices p) i; s ← at_ (strides p) i; put_range (i + pad) b e s p))
     (λ p' s', s' = s ∧ moved_up pad 0 (Z.of_nat n) p0 p') E s.
Proof.
  intros Hpad Hn. revert p. induction m as [|m IH]; intros p Hm Hp0 Hmv; [by apply wp_ret|].
  replace (Z.of_nat (Datatypes.S m)) with (Z.of_nat m + 1) in * by lia. rewrite range_snoc, reverse_app by lia.
  change (reverse [Z.of_nat m]) with [Z.of_nat m]. cbn [app fold_m]. destruct Hmv as (Hs & Hsame & Hup & Hlow).
  apply wp_bind, wp_ranges_at; [done|lia|]. intros b e st Hr. rewrite Hlow in Hr by lia.
  apply wp_put_range; [done|lia|]. intros p' Hs' Hsame' Hat Hne.
  apply IH; [lia|done|]. split_and!; [done|by etransitivity| |].
  - intros i Hi. destruct (decide (i = Z.of_nat m + pad)) as [->|Hne']; [rewrite Hat, <- Hr; f_equal; lia|]. rewrite Hne by done. apply Hup. lia.
  - intros i Hi. rewrite Hne by lia. apply Hlow. lia.
Qed.

Lemma testbit_pad mask pad i : 0 ≤ pad ≤ 5 → 0 ≤ i < 5 →
  Z.testbit (u16 (Z.shiftl mask pad)) i = (pad <=? i) && Z.testbit mask (i - pad) ∧
  Z.testbit (u16 (Z.lor (u16 (Z.shiftl mask pad)) (Z.shiftl 1 pad - 1))) i = (i <? pad) || Z.testbit mask (i - pad).
Proof.
  intros Hp Hi. unfold u16.
  assert (Z.testbit (Z.shiftl mask pad `mod` 2 ^ 16) i = (pad <=? i) && Z.testbit mask (i - pad)) as H.
  { rewrite Z.mod_pow2_bits_low by lia. destruct (Z.leb_spec pad i); [by rewrite Z.shiftl_spec by lia|by rewrite Z.shiftl_spec_low]. }
  split; [exact H|]. rewrite Z.mod_pow2_bits_low, Z.lor_spec, H by lia.
  replace (Z.shiftl 1 pad - 1) with (Z.ones pad) by (unfold Z.ones; lia).
  destruct (Z.leb_spec pad i), (Z.ltb_spec i pad); try lia; simpl.
  - by rewrite Z.ones_spec_high, orb_false_r by lia.
  - by rewrite Z.ones_spec_low by lia.
Qed.

(** The dimensions in front have size one. *)
Definition padded (axes : list axis) : list axis := replicate (5 - length axes) (pad_item, 1) ++ axes.

Lemma wp_PadIndices {S} p axes (Q : StridedSliceParams → S → Prop) E s :
  sized p → start_indices_count p = zlen axes → stop_indices_count p = zlen axes → strides_count p = zlen axes → (length axes ≤ 5)%nat →
  (∀ i a, axes !! i = Some a → encodes p (Z.of_nat i) a.1) →
  (∀ p', sized p' → op_offset p' = op_offset p → (∀ i a, padded axes !! i = Some a → encodes p' (Z.of_nat i) a.1) → Q p' s) →
  wp (StridedSlicePadIndices 5 p) Q E s.
Proof.
  intros Hs H1 H2 H3 Hlen Henc HQ. unfold StridedSlicePadIndices. rewrite H1, H2, H3.
  assert (∀ (b : bool) (k : M S StridedSliceParams), b = true → wp k Q E s → wp (check b;; k) Q E s) as Hcheck by (intros ? ? ->; done).
  apply Hcheck; [done|]. apply Hcheck; [apply Z.leb_le; lia|]. apply Hcheck; [apply Z.eqb_refl|]. apply Hcheck; [apply Z.eqb_refl|].
  remember (5 - zlen axes) as pad eqn:Hpadn. set (n := length axes) in *. assert (0 ≤ pad ≤ 5) as Hpad by lia.
  apply wp_bind. eapply wp_post; [|apply (wp_move_up pad n n p p); [lia|lia|done|done|]].
  2:{ split_and!; [done|done|lia|done]. }
  intros p1 s1 (-> & Hs1 & Hsame1 & Hup & _). apply wp_bind.
  apply (wp_fold_pure _ _ _ (λ done p2, sized p2 ∧ same_masks p p2 ∧ (∀ i, pad ≤ i < 5 → ranges_at p2 i = ranges_at p (i - pad)) ∧
    ∀ i, 0 ≤ i < zlen done → ranges_at p2 i = (Some 0, Some 1, Some 1))).
  - split_and!; [done|done| |simpl; lia]. intros i Hi. apply Hup. lia.
  - intros done i todo p2 Hd (Hs2 & Hsame2 & Hup2 & Hone). destruct (range_split _ _ _ _ Hd) as [-> Hlt].
    apply wp_put_range; [done|lia|]. intros p3 Hs3 Hsame3 Hat Hne. split; [done|]. split_and!; [done|by etransitivity| |].
    + intros i Hi. rewrite Hne by lia. by apply Hup2.
    + rewrite zlen_snoc. intros i Hi. destruct (decide (i = zlen done)) as [->|Hne']; [done|]. rewrite Hne by done. apply Hone. lia.
  - intros p2 (Hs2 & (Hb & He & Hsh & Ho & Hc) & Hup2 & Hone). rewrite range_length in Hone. apply wp_ret, HQ; [done|done|].
    intros i a Hi. pose proof (lookup_lt_Some _ _ _ Hi) as Hil. unfold padded in Hi, Hil. rewrite length_app, length_replicate in Hil. fold n in Hil.
    destruct (testbit_pad (op_begin_mask p2) pad (Z.of_nat i) Hpad ltac:(lia)) as [_ Hbb].
    destruct (testbit_pad (op_end_mask p2) pad (Z.of_nat i) Hpad ltac:(lia)) as [_ Hbe].
    destruct (testbit_pad (op_shrink_axis_mask p2) pad (Z.of_nat i) Hpad ltac:(lia)) as [Hbs _].
    unfold encodes, bits_at. simpl. rewrite Hbb, Hbe, Hbs, Hb, He, Hsh.
    change (ranges_at (set_counts _ _) ?j) with (ranges_at p2 j). apply lookup_app_Some in Hi as [Hi|[Hge Hi]].
    + apply lookup_replicate in Hi as [-> Hlt]. fold n in Hlt. simpl. rewrite (proj2 (Z.ltb_lt _ _)), (proj2 (Z.leb_gt _ _)) by lia.
      split; [apply Hone; lia|done].
    + rewrite length_replicate in Hge, Hi. fold n in Hge, Hi. specialize (Henc _ _ Hi). unfold encodes, bits_at in Henc.
      rewrite (proj2 (Z.ltb_ge _ _)), (proj2 (Z.leb_le _ _)), Hup2 by lia. simpl.
      replace (Z.of_nat i - pad) with (Z.of_nat (i - (5 - n))) by lia. exact Henc.
Qed.

(** ** The reference implementation *)

(** Every element of the output is the one that the items select. *)
Definition sliced (axes : list axis) (inp out : list Z) : Prop := ∀ ix, valid (axis_count <$> axes) ix →
  zget out (flat (axis_count <$> axes) ix) =
  zget inp (flat (axis_size <$> axes) (λ d, vat 0 (axis_start <$> axes) d + ix d * vat 0 (axis_step <$> axes) d)).

Lemma vat_cons {A} (x : A) d l i : 0 ≤ i → vat d (x :: l) (i + 1) = vat d l i.
Proof. intros Hi. unfold vat. by rewrite zget_cons. Qed.

Lemma sliced_pad axes inp out : sliced ((pad_item, 1) :: axes) inp out → sliced axes inp out.
Proof.
  intros Hs ix Hv. specialize (Hs (cons_index 0 ix)). rewrite !fmap_cons, !flat_cons in Hs.
  change (axis_count (pad_item, 1)) with 1 in Hs. change (axis_start (pad_item, 1)) with 0 in Hs. change (axis_step (pad_item, 1)) with 1 in Hs.
  rewrite cons_index_tail in Hs. specialize (Hs (valid_tail 0 1 ix _ ltac:(lia) Hv)).
  change (cons_index 0 ix 0) with 0 in Hs. change (vat 0 (0 :: _) 0) with 0 in Hs. rewrite !Z.mul_0_l, !Z.add_0_l in Hs. rewrite Hs.
  f_equal. apply flat_ext. intros d Hd. rewrite !vat_cons by lia. unfold cons_index. rewrite (proj2 (Z.eqb_neq _ _)) by lia.
  by replace (d + 1 - 1) with d by lia.
Qed.

Lemma sliced_padded axes inp out : sliced (padded axes) inp out → sliced axes inp out.
Proof. unfold padded. induction (5 - length axes)%nat as [|n IH]; [done|]. intros Hs. apply IH. by apply sliced_pad. Qed.

Lemma volume_padded (f : axis → Z) axes : f (pad_item, 1) = 1 → volume (f <$> padded axes) = volume (f <$> axes).
Proof.
  intros Hf. unfold padded. rewrite fmap_app, volume_app, fmap_replicate, Hf.
  assert (∀ n, volume (replicate n 1) = 1) as ->; [|lia]. unfold volume. induction n as [|n IH]; [done|]. simpl. by rewrite IH.
Qed.

Lemma bounded_padded axes : bounded (axis_size <$> axes) → bounded (axis_size <$> padded axes).
Proof.
  intros [Hn Hb]. assert (axis_size (pad_item, 1) = 1) as H1 by done. split.
  - unfold padded. rewrite fmap_app. apply Forall_app. split; [|exact Hn]. rewrite fmap_replicate, H1. apply Forall_replicate. lia.
  - rewrite <- list_fmap_compose in *. rewrite (volume_padded (Z.max 1 ∘ axis_size)); done.
Qed.

Lemma padded_length axes : (length axes ≤ 5)%nat → length (padded axes) = 5%nat.
Proof. intros Hl. unfold padded. rewrite length_app, length_replicate. lia. Qed.

Lemma five {A} (l : list A) : length l = 5%nat → ∃ a0 a1 a2 a3 a4, l = [a0; a1; a2; a3; a4].
Proof. intros Hl. do 5 (destruct l as [|? l]; [done|]). destruct l; [|done]. eauto 10. Qed.

Lemma pad_ok : axis_ok (pad_item, 1).
Proof. unfold axis_ok, pad_item, is_int32, int32_min, int32_max. simpl. split_and!; try done; lia. Qed.

(** The bounds of a dimension. *)
Lemma wp_axis_bounds {S} p sizes i a (k : Z * Z * Z → M S unit) Q E s :
  axis_ok a → encodes p i a.1 → op_offset p = false → zget sizes i = Some (axis_size a) → 0 ≤ i < 32 →
  wp (k (axis_start a, axis_stop a, axis_step a)) Q E s →
  wp (r ← (start ← StridedSliceStartForAxis p sizes i; stop ← StridedSliceEndForAxis p sizes i start;
           stride ← at_ (strides p) i; mret (start, stop, stride)); k r) Q E s.
Proof.
  intros Hok Henc Hoff Hsz Hi HQ. apply wp_bind, wp_bind. eapply wp_StartForAxis; [done..|]. apply wp_bind.
  eapply wp_EndForAxis; [done..|]. assert (zget (strides p) i = Some (axis_step a)) as Hst.
  { destruct a as [it d]. unfold encodes, axis_step in *. destruct it; simpl in *; destruct Henc as [[= _ _ ->] _]; try done.
    by destruct Hok. }
  apply wp_bind. eapply wp_at; [exact Hst|]. by apply wp_ret.
Qed.

Lemma wp_ReferenceStridedSlice p axes out_shape inp out :
  sized p → start_indices_count p = zlen axes → stop_indices_count p = zlen axes → strides_count p = zlen axes → (length axes ≤ 5)%nat →
  (∀ i a, axes !! i = Some a → encodes p (Z.of_nat i) a.1) → op_offset p = false →
  Forall axis_ok axes → bounded (axis_size <$> axes) → volume (axis_size <$> axes) ≤ zlen inp → zlen out_shape ≤ 5 →
  volume (axis_count <$> axes) ≤ zlen out →
  wp (ReferenceStridedSlice p (axis_size <$> axes) out_shape inp)
     (λ _ w, length w.1 = length out ∧ w.2 = volume (axis_count <$> axes) ∧ sliced axes inp w.1 ∧
       ∀ e, volume (axis_count <$> axes) ≤ e → zget w.1 e = zget out e) (λ _, False) (out, 0).
Proof.
  intros Hs H1 H2 H3 Hlen Henc Hoff Hok Hb Hin Hout Hroom. unfold ReferenceStridedSlice.
  assert (∀ l (k : list Z → M Writer unit) Q E s, zlen l ≤ 5 → wp (k (replicate (Z.to_nat (5 - zlen l)) 1 ++ l)) Q E s → wp (r ← ExtendedShape 5 l; k r) Q E s) as Hext.
  { intros l k Q E s Hl Hk. unfold ExtendedShape, check. rewrite (proj2 (Z.leb_le _ _)) by done. exact Hk. }
  apply Hext; [rewrite length_fmap; lia|]. apply Hext; [done|]. apply wp_bind, (wp_PadIndices p axes); [done..|].
  intros p' Hs' Hoff' Henc'.
  assert (replicate (Z.to_nat (5 - zlen (axis_size <$> axes))) 1 ++ (axis_size <$> axes) = axis_size <$> padded axes) as ->.
  { unfold padded. rewrite fmap_app, fmap_replicate, length_fmap. do 2 f_equal. lia. }
  assert (Forall axis_ok (padded axes)) as Hokp by (apply Forall_app; split; [apply Forall_replicate, pad_ok|done]).
  pose proof (bounded_padded axes Hb) as Hbp. rewrite <- (volume_padded axis_size) in Hin by done. rewrite <- (volume_padded axis_count) in * by done.
  rewrite Hoff in Hoff'. destruct (five (padded axes) (padded_length axes Hlen)) as (a0 & a1 & a2 & a3 & a4 & Hp).
  assert (∀ w w', written (axis_count <$> padded axes) (slice_steps a0 a1 a2 a3 a4) inp
     (slice_position a1 a2 a3 a4 (axis_start a0) (axis_start a1) (axis_start a2) (axis_start a3) (axis_start a4)) w w' →
     w.2 = 0 → sliced (padded axes) inp w'.1) as Hsl.
  { rewrite Hp. intros w w' Hw H0 ix Hix. pose proof (slice_elements inp a0 a1 a2 a3 a4 w w' ix Hw Hix) as He. by rewrite H0 in He. }
  rewrite Hp in *. rewrite !Forall_cons in Hokp. destruct Hokp as (K0 & K1 & K2 & K3 & K4 & _).
  apply wp_axis_bounds with (a := a0); [done|by apply (Henc' 0%nat)|done|done|lia|].
  apply wp_axis_bounds with (a := a1); [done|by apply (Henc' 1%nat)|done|done|lia|].
  apply wp_axis_bounds with (a := a2); [done|by apply (Henc' 2%nat)|done|done|lia|].
  apply wp_axis_bounds with (a := a3); [done|by apply (Henc' 3%nat)|done|done|lia|].
  apply wp_axis_bounds with (a := a4); [done|by apply (Henc' 4%nat)|done|done|lia|].
  eapply wp_post; [|apply (wp_nest inp a0 a1 a2 a3 a4); [by rewrite !Forall_cons|exact Hbp|exact Hin|simpl; lia|exact Hroom]].
  intros [] w Hw. simpl in Hw. pose proof Hw as [(Hl & _ & Hu) Hpos]. simpl in Hl, Hu, Hpos.
  split; [exact Hl|]. split; [done|]. split; [|intros e He; apply Hu; by right].
  apply sliced_padded. rewrite Hp. by eapply (Hsl (out, 0)).
Qed.
