(* ===== verification/StridedSliceExpansion.v ===== *)
(** * How the items of a strided slice are spread over the dimensions

    An ellipsis stands for the dimensions that are not indexed, what is left over at
    the end is taken whole, and a new axis takes no dimension of the input. The three
    loops of [BuildStridedSliceParams] compute parameters that encode this. *)

From S2P Require Import Prelude ArenaPlanner Subgraph TensorLayout TensorCopy KernelUtil StridedSlice StridedSliceProofs StridedSliceRanges.

(** ** The meaning of an index expression *)

Definition item_at (c : StridedSliceContext) (i : Z) : item :=
  if Z.testbit (ellipsis_mask (params c)) i then Ellipsis
  else if Z.testbit (new_axis_mask (params c)) i then NewAxis
  else Index (vat 0 (contents (begin c)) i) (vat 0 (contents (end_ c)) i) (vat 0 (contents (strides_tensor c)) i)
         (Z.testbit (begin_mask (params c)) i) (Z.testbit (end_mask (params c)) i) (Z.testbit (shrink_axis_mask (params c)) i).

Definition items (c : StridedSliceContext) : list item := item_at c <$> range 0 (zlen (contents (begin c))).

Definition is_ellipsis (it : item) : bool := match it with Ellipsis => true | _ => false end.
Definition is_new (it : item) : bool := match it with NewAxis => true | _ => false end.
Definition is_index (it : item) : bool := match it with Index _ _ _ _ _ _ => true | _ => false end.
Definition takes_dim (it : item) : bool := negb (is_new it).

(** [n] is the number of dimensions of the input. *)
Definition left_over (l : list item) (n : Z) : list item := replicate (Z.to_nat (n - count is_index l)) Full.
Definition spread_item (l : list item) (n : Z) (it : item) : list item := if is_ellipsis it then left_over l n else [it].
Definition spread (l : list item) (n : Z) : list item :=
  concat (spread_item l n <$> l) ++ if existsb is_ellipsis l then [] else left_over l n.

Fixpoint assign (l : list item) (dims : list Z) : list axis :=
  match l with
  | [] => []
  | it :: l' =>
      if is_new it then (it, 1) :: assign l' dims
      else match dims with [] => [] | d :: dims' => (it, d) :: assign l' dims' end
  end.

Definition axes (c : StridedSliceContext) : list axis := assign (spread (items c) (input_dims c)) (shape (input c)).

(** ** Counting and looking up *)

Lemma assign_lookup l dims : count takes_dim l ≤ zlen dims → length (assign l dims) = length l ∧
  ∀ j it, l !! j = Some it → assign l dims !! j = Some (it, if is_new it then 1 else vat 0 dims (count takes_dim (take j l))).
Proof.
  revert dims. induction l as [|it l IH]; intros dims Hc; [done|]. rewrite count_cons in Hc. unfold takes_dim in Hc at 1.
  simpl. destruct (is_new it) eqn:Hn; simpl in Hc.
  - destruct (IH dims) as [Hl Hj]; [lia|]. split; [simpl; by rewrite Hl|]. intros [|j] it' Hit; simpl in *.
    + injection Hit as <-. by rewrite Hn.
    + rewrite (Hj _ _ Hit), count_cons. unfold takes_dim at 2. by rewrite Hn.
  - destruct dims as [|d dims]; [pose proof (count_bound takes_dim l); simpl in Hc; lia|].
    destruct (IH dims) as [Hl Hj]; [simpl in Hc; lia|]. split; [simpl; by rewrite Hl|]. intros [|j] it' Hit; simpl in *.
    + injection Hit as <-. by rewrite Hn.
    + rewrite (Hj _ _ Hit), count_cons. unfold takes_dim at 2. rewrite Hn. simpl. do 2 f_equal. destruct (is_new it'); [done|].
      rewrite Z.add_comm, vat_cons; [done|]. apply count_bound.
Qed.

Lemma count_ext {A} (f g : A → bool) l : (∀ x, x ∈ l → f x = g x) → count f l = count g l.
Proof. intros Hfg. apply total_ext. intros x Hx. by rewrite Hfg. Qed.

Lemma count_split l : count is_new l + count is_index l + count is_ellipsis l + count (λ it, match it with Full => true | _ => false end) l = zlen l.
Proof. induction l as [|it l IH]; [done|]. rewrite !count_cons. cbn [length]. destruct it; simpl; lia. Qed.

Lemma count_replicate (f : item → bool) n it : count f (replicate n it) = if f it then Z.of_nat n else 0.
Proof. induction n as [|n IH]; [by destruct (f it)|]. cbn [replicate]. rewrite count_cons, IH. destruct (f it); lia. Qed.

Lemma spread_plain l k n : Forall (λ it, is_ellipsis it = false) l → concat (spread_item k n <$> l) = l.
Proof. induction 1 as [|it l Hit Hl IH]; [done|]. cbn [fmap list_fmap concat]. unfold spread_item at 1. by rewrite Hit, IH. Qed.

Lemma fmap_range_const {A} (f : Z → A) x a b : (∀ j, a ≤ j < b → f j = x) → f <$> range a b = replicate (Z.to_nat (b - a)) x.
Proof.
  intros Hf. rewrite <- (range_length a b). apply list_eq. intros i. rewrite list_lookup_fmap.
  destruct (range a b !! i) as [j|] eqn:Hj; simpl.
  - rewrite lookup_replicate_2 by (by eapply lookup_lt_Some). f_equal. apply Hf. apply list_elem_of_lookup_2, elem_of_range in Hj. lia.
  - symmetry. apply lookup_ge_None. rewrite length_replicate. by apply lookup_ge_None.
Qed.

Lemma count_new_spread l n : count is_new (spread l n) = count is_new l.
Proof.
  assert (count is_new (left_over l n) = 0) as Hl by (unfold left_over; by rewrite count_replicate).
  assert (∀ l', count is_new (concat (spread_item l n <$> l')) = count is_new l') as Hc.
  { induction l' as [|it l' IH]; [done|]. cbn [fmap list_fmap concat]. rewrite count_app, count_cons, IH. f_equal.
    unfold spread_item. destruct it; simpl; try done. }
  unfold spread. rewrite count_app, Hc. destruct (existsb is_ellipsis l); [|rewrite Hl]; change (count is_new []) with 0; lia.
Qed.

Lemma count_takes_dim l : count takes_dim l = zlen l - count is_new l.
Proof. induction l as [|it l IH]; [done|]. rewrite !count_cons, IH. cbn [length]. unfold takes_dim at 1. destruct (is_new it); simpl; lia. Qed.

(** ** Masks *)

Lemma testbit_add mask i j : 0 ≤ i → Z.testbit (add_bit mask i) j = Z.testbit mask j || (j =? i).
Proof.
  intros Hi. unfold add_bit. rewrite Z.lor_spec. f_equal. destruct (Z.lt_ge_cases j 0) as [Hj|Hj].
  - rewrite Z.testbit_neg_r by done. symmetry. apply Z.eqb_neq. lia.
  - rewrite Z.shiftl_spec by done. destruct (Z.eqb_spec j i) as [->|Hne]; [by rewrite Z.sub_diag|].
    destruct (Z.lt_ge_cases (j - i) 0); [by apply Z.testbit_neg_r|]. by apply (Z.bits_above_log2 1); simpl; lia.
Qed.

Lemma testbit_add_range mask a b j : 0 ≤ a → a ≤ b →
  Z.testbit (foldl add_bit mask (range a b)) j = Z.testbit mask j || ((a <=? j) && (j <? b)).
Proof.
  intros Ha Hab. replace b with (a + Z.of_nat (Z.to_nat (b - a))) by lia. generalize (Z.to_nat (b - a)). clear b Hab. intros n.
  induction n as [|n IH].
  - rewrite range_nil by lia. simpl. replace ((a <=? j) && (j <? a + Z.of_nat 0)) with false; [by rewrite orb_false_r|].
    symmetry. apply andb_false_iff. rewrite Z.leb_gt, Z.ltb_ge. lia.
  - replace (a + Z.of_nat (S n)) with (a + Z.of_nat n + 1) by lia. rewrite range_snoc, foldl_app by lia. simpl.
    rewrite testbit_add, IH by lia. rewrite <- orb_assoc. f_equal.
    destruct (Z.leb_spec a j), (Z.ltb_spec j (a + Z.of_nat n)), (Z.ltb_spec j (a + Z.of_nat n + 1)), (Z.eqb_spec j (a + Z.of_nat n)); simpl; try done; lia.
Qed.

Lemma testbit_add16 mask i j : 0 ≤ i → 0 ≤ j < 16 → Z.testbit (add_bit16 mask i) j = Z.testbit mask j || (j =? i).
Proof. intros Hi Hj. unfold add_bit16, u16. by rewrite Z.mod_pow2_bits_low, testbit_add by lia. Qed.

(** ** One dimension *)

(** [p'] is [p] with the item of one more dimension. *)
Definition added (i : Z) (it : item) (p p' : StridedSliceParams) : Prop :=
  sized p' ∧ op_offset p' = op_offset p ∧ encodes p' i it ∧
  ∀ j, 0 ≤ j < 5 → j ≠ i → ranges_at p' j = ranges_at p j ∧ bits_at p' j = bits_at p j.

Definition nothing_at (p : StridedSliceParams) (i : Z) : Prop :=
  ranges_at p i = (Some 0, Some 0, Some 0) ∧ bits_at p i = (false, false, false).

Definition add_if (b : bool) (i mask : Z) : Z := if b then add_bit16 mask i else mask.

Lemma bits_add p i b e s j : 0 ≤ i → 0 ≤ j < 5 →
  bits_at (set_masks (add_if b i (op_begin_mask p)) (add_if e i (op_end_mask p)) (add_if s i (op_shrink_axis_mask p)) p) j =
  let '(pb, pe, ps) := bits_at p j in (pb || (b && (j =? i)), pe || (e && (j =? i)), ps || (s && (j =? i))).
Proof.
  intros Hi Hj. unfold bits_at, add_if. simpl.
  destruct b, e, s; rewrite ?testbit_add16 by lia; rewrite ?andb_true_l, ?andb_false_l, ?orb_false_r; done.
Qed.

(** The masks of one more item. *)
Lemma added_masks i it p p' bm em sh b e s : sized p' → 0 ≤ i < 5 → same_masks p p' → bits_at p i = (false, false, false) →
  raw it = (b, e, s, (bm, em, sh)) → ranges_at p' i = (Some b, Some e, Some s) → (∀ j, j ≠ i → ranges_at p' j = ranges_at p j) →
  added i it p (set_masks (add_if bm i (op_begin_mask p')) (add_if em i (op_end_mask p')) (add_if sh i (op_shrink_axis_mask p')) p').
Proof.
  intros Hs Hi (Hb & He & Hsh & Ho & _) Hno Hraw Hr Hne. assert (∀ j, bits_at p' j = bits_at p j) as Hbits by (intros j; unfold bits_at; congruence).
  split; [done|]. split; [done|]. split.
  - unfold encodes. rewrite Hraw. split; [exact Hr|]. rewrite bits_add, Hbits, Hno, Z.eqb_refl by lia. by destruct bm, em, sh.
  - intros j Hj Hji. split; [by apply Hne|]. rewrite bits_add, Hbits by lia. destruct (bits_at p j) as [[? ?] ?].
    by rewrite (proj2 (Z.eqb_neq j i)), !andb_false_r, !orb_false_r by done.
Qed.

(** ** The first two loops *)

Section expansion.
Context (c : StridedSliceContext).
Let m := params c.
Let bc : Z := zlen (contents (begin c)).
Let n : Z := input_dims c.
Let N : Z := count is_new (items c).
Let k : Z := n - count is_index (items c).
Let eff : Z := n + N.

(** At most one ellipsis, which stands for at least one dimension; the masks say
    nothing about items that are not there; at most five dimensions. *)
Record well_formed : Prop := {
  begin_vector : shape (begin c) = [bc];
  end_length : length (contents (end_ c)) = length (contents (begin c));
  strides_length : length (contents (strides_tensor c)) = length (contents (begin c));
  no_more_bits i : bc ≤ i → Z.testbit (ellipsis_mask m) i = false ∧ Z.testbit (new_axis_mask m) i = false;
  one_ellipsis i j : 0 ≤ i → 0 ≤ j → Z.testbit (ellipsis_mask m) i = true → Z.testbit (ellipsis_mask m) j = true → i = j;
  ellipsis_used i : 0 ≤ i → Z.testbit (ellipsis_mask m) i = true → 0 < k;
  indices_fit : 0 ≤ k;
  few_dims : eff ≤ 5
}.
Hypothesis wf : well_formed.

(** Where the ellipsis starts; behind everything if there is none. *)
Definition ellipsis_start : Z :=
  match list_find (λ i, Z.testbit (ellipsis_mask m) i) (range 0 bc) with Some (_, i) => i | None => eff end.
Let e := ellipsis_start.

Definition orig (j : Z) : Z := if j <? e then j else j - (k - 1).
Definition effective_item (j : Z) : item :=
  if (e <=? j) && (j <? e + k) then Full else if orig j <? bc then item_at c (orig j) else Full.

Lemma items_length : zlen (items c) = bc.
Proof. unfold items. rewrite length_fmap, range_length. fold bc. lia. Qed.

Lemma ellipsis_cases :
  (e = eff ∧ (∀ i, 0 ≤ i → Z.testbit (ellipsis_mask m) i = false) ∧ bc + k = eff) ∨
  (0 ≤ e < bc ∧ 0 < k ∧ (∀ i, 0 ≤ i → Z.testbit (ellipsis_mask m) i = bool_decide (i = e)) ∧ bc + k = eff + 1).
Proof.
  pose proof (count_split (items c)) as Hs. rewrite items_length in Hs.
  assert (count (λ it, match it with Full => true | _ => false end) (items c) = 0) as HF.
  { apply count_none. intros it (i & -> & _)%list_elem_of_fmap. unfold item_at. by repeat case_match. }
  assert (count is_ellipsis (items c) = count (Z.testbit (ellipsis_mask m)) (range 0 bc)) as HE.
  { unfold items. rewrite count_fmap. apply count_ext. intros i _. simpl. unfold item_at. fold m. by repeat case_match. }
  unfold e, ellipsis_start. destruct (list_find _ (range 0 bc)) as [[x i]|] eqn:Hf.
  - apply list_find_Some in Hf as (Hx & Ht%Is_true_true & Hfirst). right.
    pose proof (list_elem_of_lookup_2 _ _ _ Hx) as Hi%elem_of_range. pose proof (ellipsis_used wf i ltac:(lia) Ht) as Hk.
    assert (∀ j, 0 ≤ j → Z.testbit (ellipsis_mask m) j = bool_decide (j = i)) as Hbit.
    { intros j Hj. case_bool_decide as Hji; [by subst|]. apply not_true_iff_false. intros Hjt. apply Hji.
      apply (one_ellipsis wf); [done|lia|done|done]. }
    split_and!; [lia|lia|done|done|]. rewrite (count_ext _ (λ j, bool_decide (j = i))) in HE.
    2:{ intros j Hj%elem_of_range. apply Hbit. lia. }
    assert (count (λ j, bool_decide (j = i)) (range 0 bc) = 1) as H1.
    { rewrite (range_app 0 i bc), count_app, (range_cons i) by lia. rewrite count_cons, bool_decide_eq_true_2 by done.
      rewrite !count_none; [done| |]; intros j Hj%elem_of_range; apply bool_decide_eq_false_2; lia. }
    unfold k, eff, N. fold n. lia.
  - apply list_find_None in Hf. rewrite Forall_forall in Hf. left.
    assert (∀ i, 0 ≤ i → Z.testbit (ellipsis_mask m) i = false) as Hno.
    { intros i Hi. destruct (decide (i < bc)) as [Hlt|Hge].
      - apply not_true_iff_false. intros Ht. apply (Hf i); [apply elem_of_range; lia|by apply Is_true_true].
      - apply (no_more_bits wf). lia. }
    split; [done|]. split; [done|]. rewrite (count_none (Z.testbit (ellipsis_mask m))) in HE; [unfold k, eff, N; lia|].
    intros i Hi%elem_of_range. apply Hno. lia.
Qed.
Lemma few_items : 0 ≤ bc ≤ 6 ∧ 0 ≤ eff ≤ 5 ∧ 0 ≤ N.
Proof.
  pose proof (few_dims wf). pose proof (indices_fit wf). pose proof (count_bound is_new (items c)) as Hc. fold N in Hc.
  assert (0 ≤ n) by (unfold n, input_dims; lia). destruct ellipsis_cases as [(_ & _ & ?)|(_ & _ & _ & ?)]; unfold eff in *; lia.
Qed.

Lemma is_new_item i : is_new (item_at c i) = negb (Z.testbit (ellipsis_mask m) i) && Z.testbit (new_axis_mask m) i.
Proof. unfold item_at. fold m. by repeat case_match. Qed.

Lemma wp_count_new_axes {S} (Q : Z → S → Prop) E s : Q N s → wp (count_new_axes m bc) Q E s.
Proof.
  intros HQ. pose proof few_items as (Hbc & _).
  apply (wp_fold_pure _ _ _ (λ done r, r = count (λ i, is_new (item_at c i)) done)); [done| |].
  - intros done i todo r Hs ->. destruct (range_split _ _ _ _ Hs) as [-> Hlt]. apply wp_bind, wp_has_bit; [lia|].
    apply wp_bind, wp_has_bit; [lia|]. apply wp_ret. split; [done|]. rewrite count_app, count_cons, is_new_item.
    change (count _ []) with 0. destruct (negb _ && _); lia.
  - intros r ->. unfold N, items in HQ. by rewrite count_fmap in HQ.
Qed.

(** Dimensions without an ellipsis. *)
Lemma wp_plain_masks {S} (fuel d : nat) i x (Q : Expansion → S → Prop) E s :
  0 ≤ i → i + Z.of_nat d ≤ eff → 0 ≤ expanded_ellipsis x ≤ i →
  (∀ j, i ≤ j < i + Z.of_nat d → Z.testbit (ellipsis_mask m) j = false) →
  (∀ x', effective_ellipsis_mask x' = effective_ellipsis_mask x → ellipsis_start_idx x' = ellipsis_start_idx x →
     expanded_ellipsis x' = expanded_ellipsis x →
     (∀ j, Z.testbit (effective_new_axis_mask x') j = Z.testbit (effective_new_axis_mask x) j ||
        ((i <=? j) && (j <? i + Z.of_nat d) && Z.testbit (new_axis_mask m) (j - expanded_ellipsis x))) →
     wp (expand_masks fuel m eff N n bc (i + Z.of_nat d) x') Q E s) →
  wp (expand_masks (d + fuel) m eff N n bc i x) Q E s.
Proof.
  pose proof few_items as (_ & Heff & _). revert i x. induction d as [|d IH]; intros i x Hi Hd Hx Hno HQ.
  - rewrite Z.add_0_r in HQ. apply HQ; [done..|]. intros j.
    replace ((i <=? j) && (j <? i)) with false; [by rewrite andb_false_l, orb_false_r|].
    symmetry. apply andb_false_iff. rewrite Z.leb_gt, Z.ltb_ge. lia.
  - change (Datatypes.S d + fuel)%nat with (Datatypes.S (d + fuel)). cbn [expand_masks]. rewrite (proj2 (Z.ltb_lt _ _)) by lia.
    apply wp_bind, wp_has_bit; [lia|]. rewrite Hno by lia. apply wp_bind, wp_has_bit; [lia|].
    apply IH; simpl; [lia|lia|lia|intros j Hj; apply Hno; lia|]. intros x' H1 H2 H3 Hbits.
    replace (i + 1 + Z.of_nat d) with (i + Z.of_nat (Datatypes.S d)) by lia. apply HQ; [done..|]. intros j. rewrite Hbits.
    destruct (Z.testbit (new_axis_mask m) (i - expanded_ellipsis x)) eqn:Hb; rewrite ?testbit_add by lia;
      destruct (Z.leb_spec i j), (Z.leb_spec (i + 1) j), (Z.ltb_spec j (i + 1 + Z.of_nat d)), (Z.ltb_spec j (i + Z.of_nat (Datatypes.S d)));
      try lia; simpl; try (by rewrite ?orb_false_r); destruct (Z.eqb_spec j i) as [->|]; try lia; rewrite ?Hb, ?orb_false_r, ?orb_true_r; try done.
Qed.
(** What the second loop finds out. *)
Definition expansion_ok (x : Expansion) : Prop :=
  ellipsis_start_idx x = e ∧ expanded_ellipsis x = (if e =? eff then 0 else k - 1) ∧
  ∀ j, 0 ≤ j < eff → Z.testbit (effective_ellipsis_mask x) j = (e <=? j) && (j <? e + k) ∧
    Z.testbit (effective_new_axis_mask x) j = is_new (effective_item j).

Definition no_expansion : Expansion :=
  {| effective_ellipsis_mask := 0; effective_new_axis_mask := 0; ellipsis_start_idx := eff; expanded_ellipsis := 0 |}.

Lemma new_before j : 0 ≤ j < e → is_new (effective_item j) = Z.testbit (new_axis_mask m) j.
Proof.
  intros Hj. unfold effective_item, orig. rewrite (proj2 (Z.leb_gt _ _)), (proj2 (Z.ltb_lt j e)) by lia. cbn [andb].
  assert (Z.testbit (ellipsis_mask m) j = false) as Hell.
  { destruct ellipsis_cases as [(_ & Hno & _)|(_ & _ & Hone & _)]; [apply Hno; lia|]. rewrite Hone by lia. apply bool_decide_eq_false_2. lia. }
  destruct (Z.ltb_spec j bc); [by rewrite is_new_item, Hell|]. symmetry. by apply (no_more_bits wf).
Qed.

Lemma new_behind j : e < eff → e + k ≤ j < eff → is_new (effective_item j) = Z.testbit (new_axis_mask m) (j - (k - 1)).
Proof.
  intros He Hj. destruct ellipsis_cases as [(? & _)|(Hin & Hk & Hone & Hsum)]; [lia|]. unfold effective_item, orig.
  rewrite (proj2 (Z.ltb_ge j (e + k))), andb_false_r, (proj2 (Z.ltb_ge j e)), (proj2 (Z.ltb_lt _ bc)), is_new_item, Hone by lia.
  by rewrite bool_decide_eq_false_2 by lia.
Qed.

Lemma wp_expand_none {S} (Q : Expansion → S → Prop) E s : e = eff → (∀ x, expansion_ok x → Q x s) →
  wp (expand_masks (Z.to_nat eff) m eff N n bc 0 no_expansion) Q E s.
Proof.
  intros He HQ. pose proof few_items as (_ & Heff & _). replace (Z.to_nat eff) with (Z.to_nat eff + 0)%nat by lia.
  destruct ellipsis_cases as [(_ & Hno & Hsum)|(Hin & Hk & _ & Hsum)]; [|lia].
  apply wp_plain_masks; simpl; [lia..|intros j Hj; apply Hno; lia|]. intros x H1 H2 H3 Hbits. rewrite Z2Nat.id in * by lia. simpl.
  rewrite (proj2 (Z.ltb_ge _ _)) by lia. apply wp_ret, HQ. unfold expansion_ok. simpl in *. rewrite H1, H2, H3, He, Z.eqb_refl.
  split_and!; [done..|]. intros j Hj. rewrite Z.testbit_0_l, Hbits, Z.testbit_0_l, Z.sub_0_r, Z.add_0_l, <- new_before by lia.
  rewrite (proj2 (Z.leb_gt eff j)), (proj2 (Z.leb_le 0 j)), (proj2 (Z.ltb_lt j eff)) by lia. done.
Qed.

Lemma wp_expand_one {S} (Q : Expansion → S → Prop) E s : e < eff → (∀ x, expansion_ok x → Q x s) →
  wp (expand_masks (Z.to_nat eff) m eff N n bc 0 no_expansion) Q E s.
Proof.
  intros He HQ. pose proof few_items as (_ & Heff & _).
  destruct ellipsis_cases as [(? & _)|(Hin & Hk & Hone & Hsum)]; [lia|].
  replace (Z.to_nat eff) with (Z.to_nat e + Datatypes.S (Z.to_nat (eff - e - k) + Z.to_nat (k - 1)))%nat by lia.
  apply wp_plain_masks; simpl; [lia..|intros j Hj; rewrite Hone by lia; apply bool_decide_eq_false_2; lia|].
  intros x H1 H2 H3 Hbits. rewrite Z2Nat.id, Z.add_0_l in * by lia. cbn [expand_masks].
  rewrite (proj2 (Z.ltb_lt e eff)) by done. simpl in H1, H2, H3, Hbits.
  apply wp_bind, wp_has_bit; [lia|]. rewrite Hone, bool_decide_eq_true_2 by (done || lia).
  assert (Z.max (e + 1) (Z.min (e + 1 + N + n - bc) eff) = e + k) as -> by (unfold eff in *; lia).
  apply wp_plain_masks; simpl; [lia|lia|lia|intros j Hj; rewrite Hone by lia; apply bool_decide_eq_false_2; lia|].
  intros x' H1' H2' H3' Hbits'. rewrite Z2Nat.id in * by lia. replace (e + k + (eff - e - k)) with eff in * by lia.
  assert (∀ fuel, expand_masks (S := S) fuel m eff N n bc eff x' = mret x') as Hend.
  { intros [|fuel]; cbn [expand_masks]; by rewrite Z.ltb_irrefl. }
  rewrite Hend. apply wp_ret, HQ. unfold expansion_ok. rewrite H1', H2', H3', (proj2 (Z.eqb_neq e eff)) by lia.
  split_and!; [done|lia|]. intros j Hj. rewrite testbit_add_range, H1, Z.testbit_0_l by lia. split; [done|].
  rewrite Hbits', Hbits, Z.testbit_0_l, Z.sub_0_r. replace (e + k - e - 1) with (k - 1) by lia.
  destruct (Z.lt_ge_cases j e); [|destruct (Z.lt_ge_cases j (e + k))].
  - rewrite new_before by lia. rewrite (proj2 (Z.leb_le 0 j)), (proj2 (Z.ltb_lt j e)), (proj2 (Z.leb_gt (e + k) j)) by lia. simpl. by rewrite orb_false_r.
  - unfold effective_item. rewrite (proj2 (Z.leb_le e j)), (proj2 (Z.ltb_lt j (e + k))), (proj2 (Z.ltb_ge j e)), (proj2 (Z.leb_gt (e + k) j)) by lia.
    by rewrite andb_false_r.
  - rewrite new_behind by lia. by rewrite (proj2 (Z.leb_le (e + k) j)), (proj2 (Z.ltb_lt j eff)), (proj2 (Z.ltb_ge j e)), andb_false_r by lia.
Qed.

Lemma wp_expand_masks {S} (Q : Expansion → S → Prop) E s : (∀ x, expansion_ok x → Q x s) →
  wp (expand_masks (Z.to_nat eff) m eff N n bc 0 no_expansion) Q E s.
Proof.
  destruct ellipsis_cases as [(He & _)|(Hin & Hk & _ & Hsum)]; [by apply wp_expand_none|]. apply wp_expand_one. lia.
Qed.
(** ** The items of the effective dimensions *)

Lemma effective_plain j : 0 ≤ j < e → j < bc → effective_item j = item_at c j.
Proof.
  intros Hj Hbc. unfold effective_item, orig. by rewrite (proj2 (Z.leb_gt e j)), (proj2 (Z.ltb_lt j e)), (proj2 (Z.ltb_lt j bc)) by lia.
Qed.

Lemma item_ellipsis i : is_ellipsis (item_at c i) = Z.testbit (ellipsis_mask m) i.
Proof. unfold item_at. fold m. by repeat case_match. Qed.

Lemma spread_none : e = eff → spread (items c) n = effective_item <$> range 0 eff.
Proof.
  intros He. pose proof few_items as (Hbc & Heff & _). pose proof (indices_fit wf) as Hk0.
  destruct ellipsis_cases as [(_ & Hno & Hsum)|(Hin & Hk & _ & Hsum)]; [|lia].
  assert (Forall (λ it, is_ellipsis it = false) (items c)) as Hplain.
  { unfold items. rewrite Forall_fmap, Forall_forall. intros i Hi%elem_of_range. simpl. rewrite item_ellipsis. apply Hno. lia. }
  assert (existsb is_ellipsis (items c) = false) as Hex.
  { apply not_true_iff_false. rewrite existsb_exists. intros (it & Hit%list_elem_of_In & Ht). rewrite Forall_forall in Hplain.
    specialize (Hplain it Hit). congruence. }
  unfold spread. rewrite spread_plain, Hex, (range_app 0 bc eff), fmap_app by (done || lia). f_equal.
  - apply list_fmap_ext. intros i j Hj%list_elem_of_lookup_2%elem_of_range. symmetry. apply effective_plain; lia.
  - rewrite (fmap_range_const _ Full); [unfold left_over; f_equal; fold k; lia|]. intros j Hj. unfold effective_item, orig.
    by rewrite (proj2 (Z.leb_gt e j)), (proj2 (Z.ltb_lt j e)), (proj2 (Z.ltb_ge j bc)) by lia.
Qed.

Lemma spread_one : e < eff → spread (items c) n = effective_item <$> range 0 eff.
Proof.
  intros He. pose proof few_items as (Hbc & Heff & _).
  destruct ellipsis_cases as [(? & _)|(Hin & Hk & Hone & Hsum)]; [lia|].
  assert (items c = (item_at c <$> range 0 e) ++ item_at c e :: (item_at c <$> range (e + 1) bc)) as Hitems.
  { unfold items. fold bc. rewrite (range_app 0 e bc), (range_cons e bc), fmap_app, fmap_cons by lia. done. }
  assert (∀ a b, 0 ≤ a → (∀ j, a ≤ j < b → j ≠ e) → Forall (λ it, is_ellipsis it = false) (item_at c <$> range a b)) as Hplain.
  { intros a b Ha Hne. rewrite Forall_fmap, Forall_forall. intros i Hi%elem_of_range. simpl. rewrite item_ellipsis, Hone by lia.
    by apply bool_decide_eq_false_2, Hne. }
  assert (is_ellipsis (item_at c e) = true) as Hell by (rewrite item_ellipsis, Hone by lia; by apply bool_decide_eq_true_2).
  assert (existsb is_ellipsis (items c) = true) as Hex.
  { apply existsb_exists. exists (item_at c e). split; [|done]. apply list_elem_of_In. rewrite Hitems. in_list. }
  unfold spread. rewrite Hex, app_nil_r. rewrite Hitems at 2. rewrite fmap_app, concat_app, fmap_cons. cbn [concat].
  rewrite !spread_plain by (apply Hplain; lia). unfold spread_item. rewrite Hell.
  rewrite (range_app 0 e eff), (range_app e (e + k) eff), !fmap_app by lia. f_equal; [|f_equal].
  - apply list_fmap_ext. intros i j Hj%list_elem_of_lookup_2%elem_of_range. symmetry. apply effective_plain; lia.
  - rewrite (fmap_range_const _ Full); [unfold left_over; f_equal; fold k; lia|]. intros j Hj. unfold effective_item.
    by rewrite (proj2 (Z.leb_le e j)), (proj2 (Z.ltb_lt j (e + k))) by lia.
  - replace bc with (e + 1 + (bc - e - 1)) by lia. replace eff with (e + k + (bc - e - 1)) by lia.
    rewrite !(range_from _ (bc - e - 1)), <- !list_fmap_compose by lia. apply list_fmap_ext.
    intros i j Hj%list_elem_of_lookup_2%elem_of_range. simpl. unfold effective_item, orig.
    rewrite (proj2 (Z.ltb_ge _ (e + k))), andb_false_r, (proj2 (Z.ltb_ge _ e)), (proj2 (Z.ltb_lt _ bc)) by lia. f_equal. lia.
Qed.

Lemma spread_effective : spread (items c) n = effective_item <$> range 0 eff.
Proof. destruct ellipsis_cases as [(He & _)|(Hin & Hk & _ & Hsum)]; [by apply spread_none|]. apply spread_one. lia. Qed.
(** The dimensions of the input that are taken before one. *)
Definition dim_of (j : Z) : Z := count takes_dim (effective_item <$> range 0 j).
Definition effective_axis (j : Z) : axis :=
  (effective_item j, if is_new (effective_item j) then 1 else vat 0 (shape (input c)) (dim_of j)).

Lemma dim_of_next j : 0 ≤ j → dim_of (j + 1) = dim_of j + if is_new (effective_item j) then 0 else 1.
Proof.
  intros Hj. unfold dim_of. rewrite range_snoc, fmap_app, count_app by done. cbn [fmap list_fmap]. rewrite count_cons.
  unfold takes_dim at 2. change (count _ []) with 0. destruct (is_new _); simpl; lia.
Qed.

Lemma dims_taken : dim_of eff = n.
Proof.
  pose proof few_items as (_ & Heff & _). unfold dim_of. rewrite <- spread_effective, count_takes_dim, count_new_spread.
  rewrite spread_effective, length_fmap, range_length. fold N. unfold eff. unfold eff in Heff. lia.
Qed.

Lemma dim_of_mono a b : 0 ≤ a → a ≤ b → 0 ≤ dim_of a ≤ dim_of b.
Proof.
  intros Ha Hab. unfold dim_of. rewrite (range_app 0 a b), fmap_app, count_app by lia.
  pose proof (count_bound takes_dim (effective_item <$> range 0 a)). pose proof (count_bound takes_dim (effective_item <$> range a b)). lia.
Qed.

Lemma dim_in_range j : 0 ≤ j < eff → is_new (effective_item j) = false → 0 ≤ dim_of j < zlen (shape (input c)).
Proof.
  intros Hj Hn. pose proof (dim_of_next j ltac:(lia)) as Hs. rewrite Hn in Hs. pose proof (dim_of_mono (j + 1) eff ltac:(lia) ltac:(lia)) as Hm.
  rewrite dims_taken in Hm. pose proof (dim_of_mono 0 j ltac:(lia) ltac:(lia)). fold (input_dims c). fold n. lia.
Qed.

Lemma axes_effective : axes c = effective_axis <$> range 0 eff.
Proof.
  pose proof few_items as (_ & Heff & _). unfold axes. fold n. rewrite spread_effective.
  destruct (assign_lookup (effective_item <$> range 0 eff) (shape (input c))) as [Hl Hj].
  { fold (dim_of eff). rewrite dims_taken. done. }
  apply list_eq. intros i. destruct (decide (i < Z.to_nat eff)%nat) as [Hi|Hi].
  - assert (range 0 eff !! i = Some (Z.of_nat i)) as Hr by (unfold range; rewrite lookup_seqZ_lt by lia; done).
    rewrite (Hj i (effective_item (Z.of_nat i))) by (rewrite list_lookup_fmap, Hr; done).
    rewrite list_lookup_fmap, Hr. simpl. unfold effective_axis, dim_of. do 2 f_equal. destruct (is_new _); [done|]. f_equal.
    rewrite <- fmap_take. do 2 f_equal. rewrite (range_app 0 (Z.of_nat i) eff), take_app_length' by (rewrite ?range_length; lia). done.
  - rewrite !(proj2 (lookup_ge_None _ _)); [done|rewrite length_fmap, range_length; lia|rewrite Hl, length_fmap, range_length; lia].
Qed.
(** ** The third loop *)

(** Before dimension [i]. *)
Definition effective_so_far (i : Z) (acc : Effective) : Prop :=
  let '(p, s, added_ellipsis, added_axises) := acc in
  sized p ∧ op_offset p = offset m ∧ (∀ j, 0 ≤ j < i → encodes p j (effective_item j)) ∧ (∀ j, i ≤ j < 5 → nothing_at p j) ∧
  zlen s = eff ∧ (∀ j, 0 ≤ j < i → zget s j = Some (axis_size (effective_axis j))) ∧
  added_axises = i - dim_of i ∧ added_ellipsis = (if i <=? e then 0 else Z.min (i - 1) (e + k - 1) - e).

Lemma effective_next i p s ae aa p' ae' :
  effective_so_far i (p, s, ae, aa) → 0 ≤ i < eff → added i (effective_item i) p p' →
  ae' = (if i + 1 <=? e then 0 else Z.min i (e + k - 1) - e) →
  effective_so_far (i + 1) (p', zset i (axis_size (effective_axis i)) s, ae', if is_new (effective_item i) then aa + 1 else aa).
Proof.
  pose proof few_items as (_ & Heff & _). intros (Hs & Ho & Henc & Hno & Hl & Hsz & Haa & Hae) Hi (Hs' & Ho' & Henc' & Hne) ->.
  split; [done|]. split; [by rewrite Ho'|]. split_and!.
  - intros j Hj. destruct (decide (j = i)) as [->|Hji]; [done|]. destruct (Hne j) as [Hr Hb]; [lia|done|].
    specialize (Henc j ltac:(lia)). unfold encodes in *. by rewrite Hr, Hb.
  - intros j Hj. destruct (Hne j) as [Hr Hb]; [lia|lia|]. unfold nothing_at. rewrite Hr, Hb. apply Hno. lia.
  - by rewrite zset_length.
  - intros j Hj. destruct (decide (j = i)) as [->|Hji]; [apply zget_zset_eq; lia|]. rewrite zget_zset_ne by lia. apply Hsz. lia.
  - rewrite dim_of_next by lia. destruct (is_new _); lia.
  - replace (i + 1 - 1) with i by lia. done.
Qed.

Lemma size_taken i : is_new (effective_item i) = false → axis_size (effective_axis i) = vat 0 (shape (input c)) (dim_of i).
Proof. intros Hn. unfold effective_axis, axis_size. rewrite Hn. simpl. by destruct (effective_item i). Qed.
Lemma wp_taken {S} i aa (s : list Z) (f : list Z → M S Effective) Q E st :
  0 ≤ i < eff → aa = i - dim_of i → zlen s = eff → is_new (effective_item i) = false →
  wp (f (zset i (axis_size (effective_axis i)) s)) Q E st →
  wp (d ← at_ (shape (input c)) (i - aa); s ← upd s i d; f s) Q E st.
Proof.
  intros Hi -> Hl Hn HQ. pose proof (dim_in_range i Hi Hn) as Hd. apply wp_bind.
  replace (i - (i - dim_of i)) with (dim_of i) by lia. eapply wp_at; [by apply (vat_zget 0)|]. apply wp_bind, wp_upd; [lia|].
  by rewrite size_taken in HQ.
Qed.

Lemma set_masks_id p : set_masks (op_begin_mask p) (op_end_mask p) (op_shrink_axis_mask p) p = p.
Proof. by destruct p. Qed.

(** Which branch is taken. *)
Lemma branch_ellipsis i : (e <=? i) && (i <? e + k) = true → effective_item i = Full.
Proof. intros Hi. unfold effective_item. by rewrite Hi. Qed.

Lemma branch_rest i x : 0 ≤ i < eff → expansion_ok x → (e <=? i) && (i <? e + k) = false → is_new (effective_item i) = false →
  if bc + expanded_ellipsis x <=? i then effective_item i = Full
  else ∃ o, o = orig i ∧ 0 ≤ o < bc ∧ effective_item i =
    Index (vat 0 (contents (begin c)) o) (vat 0 (contents (end_ c)) o) (vat 0 (contents (strides_tensor c)) o)
      (Z.testbit (begin_mask m) o) (Z.testbit (end_mask m) o) (Z.testbit (shrink_axis_mask m) o).
Proof.
  intros Hi (_ & Hx & _) Hell Hn. rewrite Hx.
  assert (∀ o, Z.testbit (ellipsis_mask m) o = false → effective_item i = item_at c o → effective_item i =
    Index (vat 0 (contents (begin c)) o) (vat 0 (contents (end_ c)) o) (vat 0 (contents (strides_tensor c)) o)
      (Z.testbit (begin_mask m) o) (Z.testbit (end_mask m) o) (Z.testbit (shrink_axis_mask m) o)) as Hitem.
  { intros o Ho Hio. rewrite Hio in Hn |- *. rewrite is_new_item, Ho in Hn. simpl in Hn. unfold item_at. fold m. by rewrite Ho, Hn. }
  assert (effective_item i = if orig i <? bc then item_at c (orig i) else Full) as Heff by (unfold effective_item; by rewrite Hell).
  apply andb_false_iff in Hell. rewrite Z.leb_gt, Z.ltb_ge in Hell.
  destruct ellipsis_cases as [(He & Hno & Hsum)|(Hin & Hk & Hone & Hsum)].
  - rewrite (proj2 (Z.eqb_eq e eff)) by done. assert (orig i = i) as Ho by (unfold orig; by rewrite (proj2 (Z.ltb_lt i e)) by lia).
    rewrite Ho in Heff. destruct (Z.leb_spec (bc + 0) i) as [Hbc|Hbc].
    + by rewrite (proj2 (Z.ltb_ge i bc)) in Heff by lia.
    + rewrite (proj2 (Z.ltb_lt i bc)) in Heff by lia. exists i. split_and!; [done|lia|lia|]. apply Hitem; [apply Hno; lia|done].
  - rewrite (proj2 (Z.eqb_neq e eff)), (proj2 (Z.leb_gt _ i)) by lia.
    assert (0 ≤ orig i < bc ∧ orig i ≠ e) as [Ho Hne] by (unfold orig; destruct (Z.ltb_spec i e); lia).
    rewrite (proj2 (Z.ltb_lt (orig i) bc)) in Heff by lia. exists (orig i). split_and!; [done|lia|lia|].
    apply Hitem; [rewrite Hone by lia; by apply bool_decide_eq_false_2|done].
Qed.

Lemma orig_ellipsis i : 0 ≤ i < eff → (e <=? i) && (i <? e + k) = false →
  orig i = i - (if i <=? e then 0 else Z.min (i - 1) (e + k - 1) - e) ∧
  (if i <=? e then 0 else Z.min (i - 1) (e + k - 1) - e) = (if i + 1 <=? e then 0 else Z.min i (e + k - 1) - e).
Proof.
  intros Hi Hell. apply andb_false_iff in Hell. rewrite Z.leb_gt, Z.ltb_ge in Hell. pose proof (indices_fit wf). fold k in H.
  unfold orig. destruct (Z.ltb_spec i e), (Z.leb_spec i e), (Z.leb_spec (i + 1) e); try lia.
  - destruct ellipsis_cases as [(? & _)|(Hin & Hk & _)]; lia.
Qed.

Lemma wp_effective_dim {S} x i acc (E : S → Prop) st : expansion_ok x → 0 ≤ i < eff → effective_so_far i acc →
  wp (effective_dim c bc true x acc i) (λ acc' s', s' = st ∧ effective_so_far (i + 1) acc') E st.
Proof.
  pose proof few_items as (Hbcs & Heff & _). intros Hx Hi Hacc. destruct acc as [[[p s] ae] aa].
  pose proof Hacc as (Hs & _ & _ & Hno & Hl & _ & Haa & Hae). destruct (Hno i) as [Hr0 Hb0]; [lia|].
  pose proof Hx as (Hstart & _ & Hbits). destruct (Hbits i Hi) as [Hell Hnew]. unfold effective_dim.
  apply wp_bind, wp_has_bit; [lia|]. apply wp_bind, wp_has_bit; [lia|]. rewrite Hell, Hnew.
  destruct ((e <=? i) && (i <? e + k)) eqn:Hin.
  - pose proof (branch_ellipsis i Hin) as Hit. apply andb_true_iff in Hin as [H1%Z.leb_le H2%Z.ltb_lt].
    assert (is_new (effective_item i) = false) as Hn by (by rewrite Hit).
    assert (added i (effective_item i) p (set_range (start_indices p) (stop_indices p) (zset i 1 (strides p)) (all_of i p))) as Hadd.
    { rewrite Hit. apply (added_masks i Full p (set_range (start_indices p) (stop_indices p) (zset i 1 (strides p)) p) true true false 0 0 1);
        [|lia|done|done|done|..].
      - destruct Hs as (?&?&?). unfold sized. simpl. by rewrite zset_length.
      - unfold ranges_at in *. simpl. injection Hr0 as -> -> _. rewrite zget_zset_eq; [done|]. destruct Hs as (_ & _ & ->). lia.
      - intros j Hj. unfold ranges_at. simpl. by rewrite zget_zset_ne by lia. }
    apply wp_bind. unfold put_stride. apply wp_bind, wp_upd; [simpl; destruct Hs as (_ & _ & ->); lia|]. apply wp_ret.
    apply wp_taken; [done|done|done|done|]. apply wp_ret. split; [done|].
    pose proof (effective_next i p s ae aa _ (i - e) Hacc Hi Hadd) as Hnext. rewrite Hn in Hnext. rewrite Hstart.
    replace (Z.max 0 (i - e)) with (i - e) by lia. apply Hnext. destruct (Z.leb_spec (i + 1) e); lia.
  - destruct (orig_ellipsis i Hi Hin) as [Ho Hsame]. rewrite <- Hae in Ho, Hsame.
    destruct (is_new (effective_item i)) eqn:Hn.
    + assert (effective_item i = NewAxis) as Hit by (destruct (effective_item i); done).
      apply wp_bind, wp_put_range; [done|lia|]. intros p' Hs' Hsame' Hr' Hne. apply wp_bind, wp_upd; [lia|]. apply wp_ret. split; [done|].
      assert (added i (effective_item i) p p') as Hadd.
      { rewrite Hit, <- (set_masks_id p'). by apply (added_masks i NewAxis p p' false false false 0 1 1); [|lia|..]. }
      pose proof (effective_next i p s ae aa _ ae Hacc Hi Hadd Hsame) as Hnext. rewrite Hn in Hnext.
      assert (axis_size (effective_axis i) = 1) as Hsz by (unfold effective_axis, axis_size; by rewrite Hit). by rewrite Hsz in Hnext.
    + pose proof (branch_rest i x Hi Hx Hin Hn) as Hrest. destruct (bc + expanded_ellipsis x <=? i).
      * apply wp_bind, wp_put_range; [done|lia|]. intros p' Hs' Hsame' Hr' Hne. apply wp_taken; [done..|]. apply wp_ret. split; [done|].
        assert (added i (effective_item i) p (all_of i p')) as Hadd.
        { rewrite Hrest. by apply (added_masks i Full p p' true true false 0 0 1); [|lia|..]. }
        pose proof (effective_next i p s ae aa _ ae Hacc Hi Hadd Hsame) as Hnext. by rewrite Hn in Hnext.
      * destruct Hrest as (o & Hoo & Hob & Hit). rewrite <- Ho. rewrite <- Hoo. pose proof (strides_length wf) as Hsl. pose proof (end_length wf) as Hel. fold bc in Hob.
        assert (∀ l : list Z, length l = length (contents (begin c)) → zget l o = Some (vat 0 l o)) as Hget
          by (intros l Hll; apply vat_zget; rewrite Hll; exact Hob).
        apply wp_bind. eapply wp_at; [by apply Hget|]. apply wp_bind, wp_bind. eapply wp_at; [by apply Hget|].
        apply wp_bind. eapply wp_at; [by apply Hget|]. apply wp_put_range; [done|lia|]. intros p' Hs' Hsame' Hr' Hne.
        apply wp_bind, wp_has_bit; [lia|]. apply wp_bind, wp_has_bit; [lia|]. apply wp_bind, wp_has_bit; [lia|].
        apply wp_taken; [done..|]. apply wp_ret. split; [done|].
        pose proof (added_masks i (effective_item i) p p' _ _ _ _ _ _ Hs' ltac:(lia) Hsame' Hb0 ltac:(by rewrite Hit) Hr' Hne) as Hadd.
        pose proof (effective_next i p s ae aa _ ae Hacc Hi Hadd Hsame) as Hnext. by rewrite Hn in Hnext.
Qed.
(** ** The parameters *)

Definition no_params : StridedSliceParams :=
  {| start_indices_count := 0; start_indices := zeros5; stop_indices_count := 0; stop_indices := zeros5;
     strides_count := 0; strides := zeros5; op_begin_mask := 0; op_end_mask := 0; op_shrink_axis_mask := 0;
     op_offset := offset m |}.

Lemma effective_start : effective_so_far 0 (no_params, replicate (Z.to_nat eff) 0, 0, 0).
Proof.
  pose proof few_items as (_ & Heff & _). split; [done|]. split; [done|]. split_and!.
  - lia.
  - intros j Hj. assert (zget zeros5 j = Some 0) as Hz.
    { unfold zeros5. apply zget_Some. split; [lia|]. destruct (Z.to_nat j) as [|[|[|[|[|]]]]] eqn:Hn; try done. lia. }
    split; [unfold ranges_at; simpl; by rewrite Hz|]. unfold bits_at. simpl. by rewrite Z.testbit_0_l.
  - rewrite length_replicate. lia.
  - lia.
  - done.
  - destruct ellipsis_cases as [(He & _)|(Hin & _)]; rewrite (proj2 (Z.leb_le 0 e)) by lia; done.
Qed.

(** What [BuildStridedSliceParams] returns. *)
Definition params_encode (p : StridedSliceParams) (l : list axis) : Prop :=
  sized p ∧ start_indices_count p = zlen l ∧ stop_indices_count p = zlen l ∧ strides_count p = zlen l ∧
  ∀ i a, l !! i = Some a → encodes p (Z.of_nat i) a.1.

Lemma axes_length : zlen (axes c) = eff.
Proof. pose proof few_items as (_ & Heff & _). rewrite axes_effective, length_fmap, range_length. lia. Qed.

Lemma wp_BuildStridedSliceParams {S} (Q : StridedSliceParams * list Z → S → Prop) E st :
  (∀ p, params_encode p (axes c) → op_offset p = offset m → Q (p, axis_size <$> axes c) st) →
  wp (BuildStridedSliceParams c true) Q E st.
Proof.
  intros HQ. pose proof few_items as (_ & Heff & _). unfold BuildStridedSliceParams. rewrite (begin_vector wf). apply wp_bind. eapply wp_at; [done|].
  apply wp_bind, wp_count_new_axes. fold m n N eff. apply wp_bind, wp_expand_masks. intros x Hx. apply wp_bind.
  apply (wp_fold_pure _ _ _ (λ done acc, effective_so_far (zlen done) acc)); [exact effective_start| |].
  - intros done i todo acc Hs Hacc. destruct (range_split _ _ _ _ Hs) as [-> Hlt]. rewrite zlen_snoc.
    apply wp_effective_dim; [done|lia|done].
  - intros [[[p s] ae] aa] (Hs & Ho & Henc & _ & Hl & Hsz & _). rewrite range_length in *. replace (Z.of_nat (Z.to_nat (eff - 0))) with eff in * by lia.
    apply wp_ret. assert (s = axis_size <$> axes c) as ->.
    { apply list_eq. intros i. rewrite axes_effective, <- list_fmap_compose, list_lookup_fmap. destruct (decide (i < Z.to_nat eff)%nat) as [Hi|Hi].
      - specialize (Hsz (Z.of_nat i) ltac:(lia)). apply zget_Some in Hsz as [_ Hsz]. rewrite Nat2Z.id in Hsz. rewrite Hsz.
        unfold range. rewrite lookup_seqZ_lt by lia. done.
      - rewrite (proj2 (lookup_ge_None s i)), (proj2 (lookup_ge_None (range 0 eff) i)); [done|rewrite range_length; lia|lia]. }
    apply HQ; [|done]. split; [done|]. simpl. rewrite axes_length. split_and!; [done..|].
    intros i a Ha. rewrite axes_effective, list_lookup_fmap in Ha. apply fmap_Some in Ha as (j & Hj & ->).
    unfold range in Hj. apply lookup_seqZ in Hj as [-> Hj]. simpl. specialize (Henc (Z.of_nat i) ltac:(lia)). exact Henc.
Qed.
End expansion.
