(* ===== verification/StridedSliceKernelProofs.v ===== *)
(** * The strided slice kernel: its output and its agreement with shape inference *)

From S2P Require Import Prelude OpCodes LiteRtIr OpShapes ShapeProofs ArenaPlanner Subgraph SubgraphRunProofs TensorLayout TensorCopy PackedIntsProofs KernelUtil KernelProofs StridedSlice StridedSliceProofs StridedSliceRanges StridedSliceExpansion.

(** ** The shape of the output *)

Definition is_shrunk (a : axis) : bool := match a.1 with Index _ _ _ _ _ sh => sh | _ => false end.

Definition kept (l : list axis) : list Z := axis_count <$> filter (λ a, is_shrunk a = false) l.

Lemma dim_count_steps start stop step : step ≠ 0 → dim_count (stop - start) step = steps_between start stop step.
Proof.
  intros Hs. unfold dim_count, steps_between.
  destruct (Z.ltb_spec (stop - start) 0), (Z.ltb_spec step 0), (Z.ltb_spec 0 step), (Z.ltb_spec stop start), (Z.ltb_spec start stop);
    simpl; try lia.
  - f_equal. rewrite <- Z.quot_opp_opp by lia. rewrite Z.quot_div_nonneg by lia. f_equal; lia.
  - rewrite (proj2 (Z.eqb_neq _ _)) by lia. f_equal. rewrite Z.quot_div_nonneg by lia. f_equal; lia.
  - by rewrite (proj2 (Z.eqb_eq _ _)) by lia.
Qed.

Lemma shrunk_count a : axis_ok a → is_shrunk a = true → axis_count a = 1.
Proof.
  destruct a as [it d]. unfold is_shrunk. simpl. destruct it as [| | |b e s bm em sh]; try done. intros [_ Hok] ->. simpl in Hok.
  destruct Hok as (_ & _ & _ & _ & _ & Hsh). destruct Hsh as [Hpos Hlt]; [done|]. unfold axis_count, steps_between, axis_step, axis_stop. simpl.
  rewrite (proj2 (Z.ltb_lt 0 s)), (proj2 (Z.ltb_lt _ _)) by lia. replace (axis_start _ + 1 - axis_start _ - 1) with 0 by lia. by rewrite Z.div_0_l by lia.
Qed.

Lemma volume_kept l : Forall axis_ok l → volume (kept l) = volume (axis_count <$> l).
Proof.
  unfold kept, volume. induction 1 as [|a l Ha Hl IH]; [done|]. rewrite filter_cons. case_decide as Hs.
  - rewrite !fmap_cons. cbn [foldr]. by rewrite IH.
  - rewrite fmap_cons. cbn [foldr]. rewrite IH, shrunk_count by (done || by apply not_false_iff_true). lia.
Qed.

(** The sizes are those of the input, with a one for every new axis. *)
Lemma volume_assign (f : Z → Z) l dims : f 1 = 1 → count takes_dim l = zlen dims →
  volume (f <$> (axis_size <$> assign l dims)) = volume (f <$> dims).
Proof.
  intros Hf. revert dims. induction l as [|it l IH]; intros dims Hc; [by destruct dims|]. rewrite count_cons in Hc. unfold takes_dim in Hc at 1.
  simpl. destruct (is_new it) eqn:Hn; simpl in Hc.
  - rewrite !fmap_cons. assert (axis_size (it, 1) = 1) as -> by (by destruct it). unfold volume. cbn [foldr]. fold (volume (f <$> (axis_size <$> assign l dims))).
    rewrite IH by done. rewrite Hf. unfold volume. lia.
  - destruct dims as [|d dims]; [pose proof (count_bound takes_dim l); simpl in Hc; lia|]. rewrite !fmap_cons.
    assert (axis_size (it, d) = d) as -> by (by destruct it). unfold volume. cbn [foldr]. fold (volume (f <$> (axis_size <$> assign l dims))).
    rewrite IH by (simpl in Hc; lia). done.
Qed.

Lemma axis_sizes_nonneg l : Forall axis_ok l → nonneg (axis_size <$> l).
Proof. intros Hl. unfold nonneg. rewrite Forall_fmap. eapply Forall_impl; [exact Hl|]. intros a Ha. by apply axis_bounds. Qed.

Section kernel_proofs.
Context (ResizeTensor : list Z → M StridedSliceContext TfLiteStatus).
Context (StridedSliceOfStrings : StridedSliceParams → list Z → M StridedSliceContext unit).

Lemma wp_output_dims {S} c p l (m : nat) acc (Q : option (list Z) → S → Prop) E s :
  Forall axis_ok l → (length l ≤ 32)%nat → params_encode p l → op_offset p = false → (m ≤ length l)%nat →
  Q (Some (acc ++ reverse (kept (take m l)))) s →
  wp (output_dims c p (axis_size <$> l) (reverse (range 0 (Z.of_nat m))) acc) Q E s.
Proof.
  intros Hok Hlen (Hs & H1 & H2 & H3 & Henc) Hoff. revert acc. induction m as [|m IH]; intros acc Hm HQ.
  - rewrite range_nil by lia. apply wp_ret. by rewrite app_nil_r in HQ.
  - replace (Z.of_nat (Datatypes.S m)) with (Z.of_nat m + 1) by lia. rewrite range_snoc, reverse_app by lia.
    change (reverse [Z.of_nat m]) with [Z.of_nat m]. cbn [app output_dims].
    destruct (lookup_lt_is_Some_2 l m) as [a Ha]; [lia|]. pose proof (Henc m a Ha) as He. rewrite (take_S_r _ _ _ Ha) in HQ.
    assert (axis_ok a) as Hoka by (rewrite Forall_lookup in Hok; by eapply Hok).
    assert (zget (strides p) (Z.of_nat m) = Some (axis_step a) ∧ Z.testbit (op_shrink_axis_mask p) (Z.of_nat m) = is_shrunk a) as [Hst Hsh].
    { unfold encodes, axis_step, is_shrunk in *. destruct a as [it d]. simpl in *. destruct it; simpl in He; destruct He as [[= _ _ ->] [= _ _ ->]]; try done. by destruct Hoka. }
    assert (zget (axis_size <$> l) (Z.of_nat m) = Some (axis_size a)) as Hsz.
    { rewrite zget_fmap. unfold zget. by rewrite (proj2 (Z.leb_le 0 _)), Nat2Z.id, Ha by lia. }
    unfold kept in HQ. rewrite filter_app, fmap_app, reverse_app in HQ.
    apply wp_bind. eapply wp_at; [exact Hst|]. rewrite (proj2 (Z.eqb_neq _ 0)) by (by apply axis_step_ne).
    apply wp_bind, wp_has_bit; [lia|]. rewrite Hsh. rewrite filter_cons, filter_nil in HQ. destruct (is_shrunk a) eqn:Hshr.
    + rewrite decide_False in HQ by done. apply IH; [lia|exact HQ].
    + rewrite decide_True in HQ by done. rewrite Hoff. apply wp_bind, wp_bind. eapply wp_StartForAxis; [done..|lia|].
      apply wp_bind. eapply wp_EndForAxis; [done..|lia|]. apply wp_int32.
      { pose proof (axis_bounds a Hoka) as [_ Hb]. assert (axis_size a ≤ int32_max) as Hmax.
        { destruct a as [it d], Hoka as [Hd _]. unfold axis_size, int32_max in *. destruct it; simpl in *; lia. }
        unfold is_int32, int32_min, int32_max in *. destruct (0 <? axis_step a); lia. }
      rewrite dim_count_steps by (by apply axis_step_ne). fold (axis_count a). apply IH; [lia|]. rewrite <- app_assoc. exact HQ.
Qed.

Lemma ResizeOutputTensor_asks c : well_formed c → offset (params c) = false → Forall axis_ok (axes c) →
  ResizeOutputTensor ResizeTensor c = ResizeTensor (kept (axes c)) c.
Proof.
  intros Hwf Hoff Hok. unfold ResizeOutputTensor. rewrite (bind_done _ _ _ c c) by done. rewrite Hoff. cbn [negb].
  destruct (wp_Done (BuildStridedSliceParams c true) (λ r s', s' = c ∧ r.2 = axis_size <$> axes c ∧ params_encode r.1 (axes c) ∧ op_offset r.1 = false) c)
    as ([p l] & s' & Hrun & -> & Hl & Hp & Hop).
  { apply wp_BuildStridedSliceParams; [done|]. intros p Hp Hop. split_and!; [done|done|done|simpl; by rewrite Hop]. }
  simpl in Hl, Hp, Hop. subst l. rewrite (bind_done _ _ _ _ _ Hrun). pose proof (axes_length c Hwf) as Hl. pose proof (few_dims c Hwf) as Hfew.
  rewrite (ensure_status_done _ _ kTfLiteOk c c) by (unfold TF_LITE_ENSURE; rewrite length_fmap, (proj2 (Z.leb_le _ 5)) by lia; done).
  rewrite decide_True by done. rewrite length_fmap.
  destruct (wp_Done (output_dims c p (axis_size <$> axes c) (reverse (range 0 (zlen (axes c)))) [])
    (λ r s', s' = c ∧ r = Some (reverse (kept (axes c)))) c) as (r & s' & Hdims & -> & ->).
  { apply wp_output_dims; [done|lia|done|done|done|]. split; [done|]. by rewrite take_ge by done. }
  rewrite (bind_done _ _ _ _ _ Hdims). by rewrite reverse_involutive.
Qed.

(** What the memory planner and [ResizeTensor] promise. *)
Definition resizes_output : Prop := ∀ sizes c,
  wp (ResizeTensor sizes) (λ st c', st = kTfLiteOk → params c' = params c ∧ input c' = input c ∧ begin c' = begin c ∧ end_ c' = end_ c ∧
    strides_tensor c' = strides_tensor c ∧ shape (output c') = sizes ∧ volume sizes ≤ zlen (contents (output c'))) (λ _, False) c.

(** An index expression that selects something, on elements that are moved as integers. *)
Definition selects (c : StridedSliceContext) : Prop :=
  well_formed c ∧ offset (params c) = false ∧ Forall axis_ok (axes c) ∧ bounded (shape (input c)) ∧
  volume (shape (input c)) ≤ zlen (contents (input c)) ∧ TfLiteTypeGetSizeBits (elem_type (input c)) ∈ [8; 16; 32; 64].

Definition output_allocated (c : StridedSliceContext) : Prop :=
  shape (output c) = kept (axes c) ∧ volume (kept (axes c)) ≤ zlen (contents (output c)).

(** The meaning of the operation. *)
Definition slice_of (c c' : StridedSliceContext) : Prop :=
  shape (output c') = kept (axes c) ∧ sliced (axes c) (contents (input c)) (contents (output c')).

Lemma sizes_of_axes_volume c (f : Z → Z) : well_formed c → f 1 = 1 → volume (f <$> (axis_size <$> axes c)) = volume (f <$> shape (input c)).
Proof.
  intros Hwf Hf. unfold axes. apply volume_assign; [done|]. rewrite (spread_effective c Hwf). pose proof (dims_taken c Hwf) as Hd. exact Hd.
Qed.

Lemma wp_slice_data c : selects c → output_allocated c →
  wp (r ← BuildStridedSliceParams c true;
      let '(op_params, effective_input_shape) := (r : StridedSliceParams * list Z) in
      if bool_decide (elem_type (input c) = kTfLiteString) then
        StridedSliceOfStrings op_params effective_input_shape;; mret kTfLiteOk
      else
        match TfLiteTypeGetSizeBits (elem_type (input c)) with
        | 8 | 16 | 32 | 64 =>
            match ReferenceStridedSlice op_params effective_input_shape (shape (output c)) (contents (input c)) (contents (output c), 0) with
            | Done _ w => modify (λ c, set_output (set_contents w.1 (output c)) c);; mret kTfLiteOk
            | _ => undefined
            end
        | _ => mret kTfLiteError
        end) (λ st c', st = kTfLiteOk ∧ slice_of c c') (λ _, False) c.
Proof.
  intros (Hwf & Hoff & Hok & Hb & Hin & Hbits) [Hshape Hroom]. apply wp_bind, wp_BuildStridedSliceParams; [done|]. intros p Hp Hop. cbv beta iota.
  assert (bool_decide (elem_type (input c) = kTfLiteString) = false) as ->.
  { apply bool_decide_eq_false_2. intros Ht. rewrite Ht in Hbits. simpl in Hbits. rewrite !elem_of_cons, elem_of_nil in Hbits. lia. }
  pose proof Hp as (Hs & H1 & H2 & H3 & Henc). pose proof (axes_length c Hwf) as Hl. pose proof (few_dims c Hwf) as Hfew.
  assert (bounded (axis_size <$> axes c)) as Hba.
  { split; [by apply axis_sizes_nonneg|]. rewrite (sizes_of_axes_volume c (Z.max 1)) by done. apply Hb. }
  assert (volume (axis_size <$> axes c) ≤ zlen (contents (input c))) as Hina.
  { pose proof (sizes_of_axes_volume c (λ x, x) Hwf eq_refl) as Hv. rewrite !list_fmap_id in Hv. lia. }
  assert (zlen (shape (output c)) ≤ 5) as Hout5.
  { rewrite Hshape. unfold kept. rewrite length_fmap. pose proof (length_filter (λ a, is_shrunk a = false) (axes c)). lia. }
  rewrite (volume_kept _ Hok) in Hroom.
  pose proof (wp_ReferenceStridedSlice p (axes c) (shape (output c)) _ (contents (output c)) Hs H1 H2 H3 ltac:(lia) Henc ltac:(congruence) Hok Hba Hina Hout5 Hroom) as Hwp.
  unfold wp at 1 in Hwp. destruct (ReferenceStridedSlice p _ _ _ _) as [[] w| |]; [|done..]. destruct Hwp as (_ & _ & Hsl & _).
  assert (wp (modify (λ c, set_output (set_contents w.1 (output c)) c);; mret kTfLiteOk) (λ st c', st = kTfLiteOk ∧ slice_of c c') (λ _, False) c) as Hend.
  { apply wp_bind, wp_modify, wp_ret. split; [done|]. split; [done|exact Hsl]. }
  rewrite !elem_of_cons, elem_of_nil in Hbits. by destruct Hbits as [Hbt|[Hbt|[Hbt|[Hbt|[]]]]]; rewrite Hbt.
Qed.

(** The output does not matter for the meaning. *)
Definition same_node (c c' : StridedSliceContext) : Prop :=
  params c' = params c ∧ input c' = input c ∧ begin c' = begin c ∧ end_ c' = end_ c ∧ strides_tensor c' = strides_tensor c.

Lemma same_node_axes c c' : same_node c c' → axes c' = axes c ∧ (well_formed c → well_formed c').
Proof.
  destruct c, c'. intros (H1 & H2 & H3 & H4 & H5). simpl in *. subst. split; [done|]. intros [W1 W2 W3 W4 W5 W6 W7 W8]. by constructor.
Qed.

Lemma wp_EvalImpl c : resizes_output → selects c → IsDynamicTensor (output c) = true ∨ output_allocated c →
  wp (EvalImpl ResizeTensor StridedSliceOfStrings)
     (λ st c', (if IsDynamicTensor (output c) then fails_only_as (ResizeTensor (kept (axes c)) c) st c' else st = kTfLiteOk) ∧
        (st = kTfLiteOk → slice_of c c')) (λ _, False) c.
Proof.
  intros Hres Hsel Hall. unfold EvalImpl. apply wp_bind, wp_get. pose proof Hsel as (Hwf & Hoff & Hok & Hrest).
  destruct (IsDynamicTensor (output c)) eqn:Hdyn.
  - assert (ResizeOutputTensor ResizeTensor c = ResizeTensor (kept (axes c)) c) as Hask by by apply ResizeOutputTensor_asks.
    rewrite <- Hask. eapply wp_ensure_first; [unfold wp; rewrite Hask; apply Hres|]. intros c' Hc'. simpl in Hc'.
    destruct (Hc' eq_refl) as (K1 & K2 & K3 & K4 & K5 & Hsh & Hroom).
    destruct (same_node_axes c c') as [Hax Hwf']; [done|]. apply wp_bind, wp_get.
    assert (selects c') as Hsel' by (unfold selects; rewrite Hax, K1, K2; split; [by apply Hwf'|exact (conj Hoff (conj Hok Hrest))]).
    assert (output_allocated c') as Hall' by (unfold output_allocated; by rewrite Hax, Hsh).
    eapply wp_post; [|by apply wp_slice_data]. intros st' c'' [Hst' Hsl]. split; [done|]. unfold slice_of in *. by rewrite Hax, K2 in Hsl.
  - destruct Hall as [Hall|Hall]; [done|]. apply wp_ensure_status, wp_ret. rewrite decide_True by done. apply wp_bind, wp_get.
    eapply wp_post; [|by apply wp_slice_data]. intros st' c'' [Hst Hsl]. by split.
Qed.
End kernel_proofs.

(** ** Agreement with shape inference *)

Definition inferred_dims (it : item) : list Z := match it with NewAxis => [1] | Index _ _ _ _ _ true => [] | _ => [-1] end.

Definition agrees (x y : Z) : Prop := x = -1 ∨ x = y.

Lemma full_count d : 0 ≤ d → axis_count (Full, d) = d.
Proof.
  intros Hd. unfold axis_count, steps_between, axis_step, axis_start, axis_stop. simpl. destruct (Z.ltb_spec 0 d); [|lia].
  rewrite Z.div_1_r. lia.
Qed.

Lemma kept_cons a l : kept (a :: l) = if is_shrunk a then kept l else axis_count a :: kept l.
Proof. unfold kept. rewrite filter_cons. destruct (is_shrunk a); [by rewrite decide_False by done|by rewrite decide_True by done]. Qed.

Lemma inferred_agrees l dims : nonneg dims → Forall (λ it, match it with NewAxis | Index _ _ _ _ _ _ => True | _ => False end) l →
  count is_index l ≤ zlen dims →
  Forall2 agrees (concat (inferred_dims <$> l) ++ drop (Z.to_nat (count is_index l)) dims)
    (kept (assign (l ++ replicate (Z.to_nat (zlen dims - count is_index l)) Full) dims)).
Proof.
  intros Hd Hl. revert dims Hd. induction Hl as [|it l Hit Hl IH]; intros dims Hd Hc.
  - change (count is_index []) with 0. rewrite Z.sub_0_r, Nat2Z.id. simpl. induction Hd as [|d dims Hd0 Hd IH]; [constructor|].
    simpl. rewrite kept_cons. change (is_shrunk (Full, d)) with false. rewrite full_count by done. constructor; [by right|].
    apply IH. change (count is_index []) with 0. lia.
  - rewrite count_cons in *. pose proof (count_bound is_index l) as Hb. destruct it as [| | |b e s bm em sh]; try done.
    + simpl is_index in *. cbv iota in *. rewrite Z.add_0_l in *. cbn [fmap list_fmap concat inferred_dims app assign is_new].
      rewrite kept_cons. simpl. constructor; [by right|]. by apply IH.
    + simpl is_index in *. cbv iota in *. destruct dims as [|d dims]; [simpl in Hc; lia|]. apply Forall_cons in Hd as [Hd0 Hd].
      replace (zlen (d :: dims) - (1 + count is_index l)) with (zlen dims - count is_index l) by (simpl; lia).
      replace (Z.to_nat (1 + count is_index l)) with (Datatypes.S (Z.to_nat (count is_index l))) by lia. cbn [drop app].
      assert (Forall2 agrees (concat (inferred_dims <$> l) ++ drop (Z.to_nat (count is_index l)) dims)
        (kept (assign (l ++ replicate (Z.to_nat (zlen dims - count is_index l)) Full) dims))) as HIH by (apply IH; [done|simpl in Hc; lia]).
      cbn [fmap list_fmap concat assign is_new]. rewrite kept_cons. unfold is_shrunk at 1. simpl. destruct sh; simpl; [exact HIH|].
      constructor; [by left|exact HIH].
Qed.

Lemma wp_mask_bit {S} mask i (Q : bool → S → Prop) E s : 0 ≤ i < 32 → Q (Z.testbit mask i) s → wp (mask_bit mask i) Q E s.
Proof. intros Hi HQ. unfold mask_bit. by rewrite decide_True. Qed.

Section inference.
Context (c : StridedSliceContext) (op : LiteRtOpT) (rest : list Dims) (st : infer_state).
Hypothesis wf : well_formed c.
Hypothesis no_ellipsis : ∀ i, 0 ≤ i → Z.testbit (ellipsis_mask (params c)) i = false.
Hypothesis options : GetTflOptions op = StridedSliceOptions (new_axis_mask (params c)) (shrink_axis_mask (params c)).
Hypothesis tensors : 2 ≤ zlen rest.
Hypothesis outputs : output_shapes st ≠ [].

Lemma InferStridedSlice_result :
  InferStridedSlice op (shape (input c) :: shape (begin c) :: rest) st =
  Done tt (with_output 0 (concat (inferred_dims <$> items c) ++ drop (Z.to_nat (count is_index (items c))) (shape (input c))) st).
Proof.
  apply wp_run_done. unfold InferStridedSlice. apply wp_bind, wp_require; [intros _|done]. rewrite options.
  apply wp_bind. eapply wp_at; [done|]. apply wp_bind, wp_require; [intros _|intros H; apply negb_false_iff, Z.ltb_lt in H; simpl in H; lia].
  apply wp_bind. eapply wp_at; [done|]. rewrite (begin_vector c wf). apply wp_bind. eapply wp_at; [done|]. apply wp_bind.
  pose proof (few_items c wf) as (Hbc & _).
  apply (wp_fold_pure _ _ _ (λ done acc, acc.1 = concat (inferred_dims <$> (item_at c <$> done)) ∧ acc.2 = count is_index (item_at c <$> done))); [done| |].
  - intros done i todo [o i_in] Hs [Ho Hi]. simpl in Ho, Hi. subst o i_in. destruct (range_split _ _ _ _ Hs) as [-> Hlt].
    rewrite !fmap_app, concat_app, count_app. cbn [fmap list_fmap concat]. rewrite count_cons, app_nil_r. change (count is_index []) with 0.
    assert (item_at c (zlen done) = if Z.testbit (new_axis_mask (params c)) (zlen done) then NewAxis else
      Index (vat 0 (contents (begin c)) (zlen done)) (vat 0 (contents (end_ c)) (zlen done)) (vat 0 (contents (strides_tensor c)) (zlen done))
        (Z.testbit (begin_mask (params c)) (zlen done)) (Z.testbit (end_mask (params c)) (zlen done)) (Z.testbit (shrink_axis_mask (params c)) (zlen done))) as ->
      by (unfold item_at; by rewrite no_ellipsis by lia).
    apply wp_bind, wp_mask_bit; [lia|]. destruct (Z.testbit (new_axis_mask (params c)) (zlen done)).
    + apply wp_ret. split; [done|]. split; [done|]. simpl. lia.
    + apply wp_bind, wp_mask_bit; [lia|]. destruct (Z.testbit (shrink_axis_mask (params c)) (zlen done)); apply wp_ret; (split; [done|]); simpl.
      * by rewrite app_nil_r.
      * done.
  - intros [o i_in] [Ho Hi]. simpl in Ho, Hi. subst o i_in. apply wp_set_output; [|by split].
    destruct (output_shapes st); [done|simpl; lia].
Qed.

Lemma inference_agrees : nonneg (shape (input c)) →
  Forall2 agrees (concat (inferred_dims <$> items c) ++ drop (Z.to_nat (count is_index (items c))) (shape (input c))) (kept (axes c)).
Proof.
  intros Hn.
  assert (Forall (λ it, match it with NewAxis | Index _ _ _ _ _ _ => True | _ => False end) (items c)) as Hit.
  { unfold items. rewrite Forall_fmap, Forall_forall. intros i Hi%elem_of_range. simpl. unfold item_at. rewrite no_ellipsis by lia. by destruct (Z.testbit (new_axis_mask (params c)) i). }
  assert (spread (items c) (input_dims c) = items c ++ replicate (Z.to_nat (zlen (shape (input c)) - count is_index (items c))) Full) as Hsp.
  { unfold spread. rewrite spread_plain by (eapply Forall_impl; [exact Hit|]; by intros []).
    assert (existsb is_ellipsis (items c) = false) as ->; [|done]. apply not_true_iff_false. rewrite existsb_exists.
    intros (it & Hin%list_elem_of_In & Ht). rewrite Forall_forall in Hit. specialize (Hit it Hin). by destruct it. }
  unfold axes. rewrite Hsp. apply inferred_agrees; [done|done|]. pose proof (indices_fit c wf). unfold input_dims in *. lia.
Qed.
End inference.

(** ** Theorems *)


(** C33: without an ellipsis, the shape that the strided slice kernel asks for is the one
    that shape inference finds, where that is known. *)
Theorem InferStridedSlice_kernel ResizeTensor c op rest st :
  well_formed c → (∀ i, 0 ≤ i → Z.testbit (ellipsis_mask (params c)) i = false) → offset (params c) = false →
  Forall axis_ok (axes c) → nonneg (shape (input c)) →
  GetTflOptions op = StridedSliceOptions (new_axis_mask (params c)) (shrink_axis_mask (params c)) →
  2 ≤ zlen rest → output_shapes st ≠ [] →
  ∃ inferred out, InferStridedSlice op (shape (input c) :: shape (begin c) :: rest) st = Done tt (with_output 0 inferred st) ∧
    ResizeOutputTensor ResizeTensor c = ResizeTensor out c ∧ Forall2 agrees inferred out.
Proof.
  intros Hwf Hno Hoff Hok Hn Hop Hrest Hst. eexists _, _. split; [by apply InferStridedSlice_result|].
  split; [by apply ResizeOutputTensor_asks|]. by apply inference_agrees.
Qed.

(** ** Witnesses *)

(** Deciding that an index expression is well formed. *)
Definition well_formed_check (c : StridedSliceContext) : bool :=
  let bc := zlen (contents (begin c)) in
  let k := input_dims c - count is_index (items c) in
  let fits mask := (0 <=? mask) && (mask <? 2 ^ bc) in
  bool_decide (shape (begin c) = [bc]) && bool_decide (length (contents (end_ c)) = length (contents (begin c))) &&
  bool_decide (length (contents (strides_tensor c)) = length (contents (begin c))) &&
  fits (ellipsis_mask (params c)) && fits (new_axis_mask (params c)) &&
  (count (Z.testbit (ellipsis_mask (params c))) (range 0 bc) <=? 1) &&
  ((ellipsis_mask (params c) =? 0) || (0 <? k)) && (0 <=? k) && (input_dims c + count is_new (items c) <=? 5).

Lemma bits_above mask n i : (0 <=? mask) && (mask <? 2 ^ n) = true → 0 ≤ n ≤ i → Z.testbit mask i = false.
Proof.
  intros [H1%Z.leb_le H2%Z.ltb_lt]%andb_true_iff Hi. rewrite <- (Z.mod_small mask (2 ^ n)) by done.
  by apply Z.mod_pow2_bits_high.
Qed.

Lemma well_formed_checked c : well_formed_check c = true → well_formed c.
Proof.
  unfold well_formed_check. set (bc := zlen (contents (begin c))). intros H.
  apply andb_true_iff in H as [H Hfew%Z.leb_le]. apply andb_true_iff in H as [H Hk%Z.leb_le]. apply andb_true_iff in H as [H Hused].
  apply andb_true_iff in H as [H Hone%Z.leb_le]. apply andb_true_iff in H as [H Hnew]. apply andb_true_iff in H as [H Hell].
  apply andb_true_iff in H as [H Hst%bool_decide_eq_true_1]. apply andb_true_iff in H as [Hb%bool_decide_eq_true_1 He%bool_decide_eq_true_1].
  assert (∀ i, 0 ≤ i → Z.testbit (ellipsis_mask (params c)) i = true → i ∈ range 0 bc) as Hin.
  { intros i Hi Ht. apply elem_of_range. split; [done|]. apply Z.nle_gt. intros Hge. rewrite (bits_above _ bc) in Ht by (done || lia). done. }
  constructor; fold bc; try done.
  - intros i Hi. split; apply (bits_above _ bc); (done || lia).
  - intros i j Hi Hj Hti Htj. pose proof (Hin i Hi Hti) as [x Hx]%list_elem_of_lookup. pose proof (Hin j Hj Htj) as [y Hy]%list_elem_of_lookup.
    assert (x = y) as ->; [|congruence]. by apply (count_unique (Z.testbit (ellipsis_mask (params c))) (range 0 bc) x y i j).
  - intros i Hi Ht. apply orb_true_iff in Hused as [H0%Z.eqb_eq|H0%Z.ltb_lt]; [|done]. by rewrite H0, Z.testbit_0_l in Ht.
Qed.

Definition int32_tensor (l : list Z) : OpTensor :=
  {| elem_type := kTfLiteInt32; shape := [zlen l]; allocation := kTfLiteMmapRo; size_in_bytes := 4 * zlen l; contents := l |}.

(** An input of the given shape that holds [0], [1], [2], ... *)
Definition counting (s : list Z) : OpTensor :=
  {| elem_type := kTfLiteInt32; shape := s; allocation := kTfLiteArenaRw; size_in_bytes := 4 * volume s; contents := range 0 (volume s) |}.

Definition slice_node (s b e st : list Z) (bm em el nw sh : Z) (off : bool) (out : list Z) : StridedSliceContext :=
  {| params := {| begin_mask := bm; end_mask := em; ellipsis_mask := el; new_axis_mask := nw; shrink_axis_mask := sh; offset := off |};
     input := counting s; begin := int32_tensor b; end_ := int32_tensor e; strides_tensor := int32_tensor st;
     output := {| elem_type := kTfLiteInt32; shape := []; allocation := kTfLiteDynamic; size_in_bytes := 0; contents := out |}; noop := false |}.

(** A [ResizeTensor] that always finds the memory, and keeps what is there. *)
Definition resize_slice (sizes : list Z) : M StridedSliceContext TfLiteStatus :=
  modify (λ c, set_output {| elem_type := elem_type (output c); shape := sizes; allocation := allocation (output c);
    size_in_bytes := 4 * volume sizes; contents := replicate (Z.to_nat (volume sizes)) 77 |} c);;
  mret kTfLiteOk.

Lemma resize_slice_resizes : resizes_output resize_slice.
Proof.
  intros sizes c. unfold resize_slice. apply wp_bind, wp_modify, wp_ret. intros _. split_and!; [done..|]. simpl. rewrite length_replicate. lia.
Qed.

Definition no_strings (_ : StridedSliceParams) (_ : list Z) : M StridedSliceContext unit := mret tt.

(** The shape and the elements that [Eval] gives. *)
Definition eval_slice (c : StridedSliceContext) : option (TfLiteStatus * list Z * list Z) :=
  match Eval resize_slice no_strings c with Done st c' => Some (st, shape (output c'), contents (output c')) | _ => None end.

(** [x[1:, ::-2]] *)
Example slice_backwards : eval_slice (slice_node [3; 4] [1; 0] [0; 0] [1; -2] 2 3 0 0 0 false []) =
  Some (kTfLiteOk, [2; 2], [7; 5; 11; 9]).
Proof. vm_compute. reflexivity. Qed.

(** [x[newaxis, ..., 1]] *)
Definition last_column : StridedSliceContext := slice_node [2; 3; 4] [0; 0; 1] [0; 0; 0] [1; 1; 1] 0 0 2 1 4 false [].

Example slice_column : eval_slice last_column = Some (kTfLiteOk, [1; 2; 3], [1; 5; 9; 13; 17; 21]).
Proof. vm_compute. reflexivity. Qed.

Lemma last_column_selects : selects last_column.
Proof.
  split; [apply well_formed_checked; vm_compute; reflexivity|]. split; [done|].
  change (axes last_column) with [(NewAxis, 1); (Full, 2); (Full, 3); (Index 1 0 1 false false true, 4)]. split_and!.
  - rewrite !Forall_cons, Forall_nil. unfold axis_ok, is_int32, int32_min, int32_max. simpl. split_and!; try done; lia.
  - repeat constructor; discriminate.
  - discriminate.
  - simpl. rewrite !elem_of_cons. tauto.
Qed.


(** An operation of the model with the masks of the node. *)
Definition slice_op (nw sh : Z) : LiteRtOpT :=
  {| OpCode := kLiteRtOpCodeTflStridedSlice; Inputs := []; Outputs := []; CustomOptions := []; TflOpCodeInd := 0;
     GetTflOptions := StridedSliceOptions nw sh |}.

Definition one_shape : infer_state := {| output_shapes := [[]]; status := kLiteRtStatusOk |}.

(** [x[1:, newaxis, 2]] *)
Definition slice_and_shrink : StridedSliceContext := slice_node [3; 4; 2] [1; 0; 2] [0; 0; 0] [1; 1; 1] 0 1 0 2 4 false [].

Lemma slice_and_shrink_axes : Forall axis_ok (axes slice_and_shrink).
Proof.
  change (axes slice_and_shrink) with [(Index 1 0 1 false true false, 3); (NewAxis, 1); (Index 2 0 1 false false true, 4); (Full, 2)].
  rewrite !Forall_cons, Forall_nil. unfold axis_ok, is_int32, int32_min, int32_max. simpl. split_and!; try done; lia.
Qed.

Lemma InferStridedSlice_kernel_witness :
  Forall axis_ok (axes slice_and_shrink) ∧
  ∃ inferred out, InferStridedSlice (slice_op 2 4) [[3; 4; 2]; [3]; [3]; [3]] one_shape = Done tt (with_output 0 inferred one_shape) ∧
    ResizeOutputTensor resize_slice slice_and_shrink = resize_slice out slice_and_shrink ∧ Forall2 agrees inferred out.
Proof.
  split; [exact slice_and_shrink_axes|].
  apply (InferStridedSlice_kernel resize_slice slice_and_shrink (slice_op 2 4) [[3]; [3]] one_shape);
    [apply well_formed_checked; vm_compute; reflexivity|intros i _; apply Z.testbit_0_l|done|exact slice_and_shrink_axes|
     repeat constructor; discriminate|done|discriminate|discriminate].
Defined.

Example slice_and_shrink_shapes :
  InferStridedSlice (slice_op 2 4) [[3; 4; 2]; [3]; [3]; [3]] one_shape = Done tt (with_output 0 [-1; 1; 2] one_shape) ∧
  eval_slice slice_and_shrink = Some (kTfLiteOk, [2; 1; 2], [12; 13; 20; 21]).
Proof. vm_compute. split; reflexivity. Qed.

(** ** What is not checked *)

(** Six effective dimensions are written to arrays of five before they are counted. *)
Example too_many_dimensions : Prepare resize_slice no_strings 4 1 (slice_node [1; 1; 1; 1; 1] [0] [0] [1] 0 0 0 1 0 false []) = Undefined.
Proof. vm_compute. reflexivity. Qed.

(** The number of strides is not compared with the number of indices. *)
Example few_strides : Prepare resize_slice no_strings 4 1 (slice_node [2; 2] [0; 0] [1; 1] [1] 0 0 0 0 0 false []) = Undefined.
Proof. vm_compute. reflexivity. Qed.

(** An ellipsis that stands for nothing takes a dimension: [x[..., 1, 2]] of a matrix is
    not the element [5] but the column [x[:, 1]]. *)
Example empty_ellipsis : eval_slice (slice_node [2; 3] [0; 1; 2] [0; 0; 0] [1; 1; 1] 0 0 1 0 6 false []) = Some (kTfLiteOk, [2], [1; 4]).
Proof. vm_compute. reflexivity. Qed.

(** An index that is out of bounds, or used backwards, succeeds without writing the output. *)
Example shrunk_out_of_bounds :
  eval_slice (slice_node [3] [5] [0] [1] 0 0 0 0 1 false []) = Some (kTfLiteOk, [], [77]) ∧
  eval_slice (slice_node [3] [1] [0] [-1] 0 0 0 0 1 false []) = Some (kTfLiteOk, [], [77]).
Proof. vm_compute. split; reflexivity. Qed.

(** The offset behind the last element overflows for a large stride: [x[1::2147483647]]. *)
Example large_stride : eval_slice (slice_node [3] [1] [3] [2147483647] 0 0 0 0 0 false []) = None.
Proof. vm_compute. reflexivity. Qed.

(** With [offset] the ends are sizes. The shape of the output does not look at the mask of
    the ends, the loops do, and write past the output. *)
Example masked_offset : eval_slice (slice_node [4] [1] [1] [1] 0 1 0 0 0 true []) = None ∧
  eval_slice (slice_node [4] [1] [1] [1] 0 0 0 0 0 true []) = Some (kTfLiteOk, [1], [1]).
Proof. vm_compute. split; reflexivity. Qed.

(** Shape inference does not look at the ellipsis: for [x[..., 0]] it takes the wrong dimension. *)
Example ellipsis_not_inferred :
  InferStridedSlice (slice_op 0 2) [[2; 3; 4]; [2]; [2]; [2]] one_shape = Done tt (with_output 0 [-1; 4] one_shape) ∧
  eval_slice (slice_node [2; 3; 4] [0; 0] [0; 0] [1; 1] 0 0 1 0 2 false []) = Some (kTfLiteOk, [2; 3], [0; 4; 8; 12; 16; 20]).
Proof. vm_compute. split; reflexivity. Qed.
