(* ===== verification/SparsityFormat.v ===== *)
(** * The sparse tensor format
      ([src/tflite/kernels/internal/utils/sparsity_format_converter.{h,cc}])

    [FormatConverter] converts a tensor between the dense layout and the format
    of the TACO compiler: the dimensions, blocks included, are traversed in a
    given order, and each of them is stored densely or as a compressed list of
    the indices that have a nonzero. Products of sizes and offsets are [int]
    arithmetic, undefined when out of range. *)

From S2P Require Import Prelude.

(** ** Data *)

(** An element type with its zero. For floating-point types [IsZero] holds of
    two values. *)
Class Scalar (T : Type) := {
  zero_value : T;
  IsZero : T → bool;
  IsZero_zero : IsZero zero_value = true
}.

#[export] Instance Z_scalar : Scalar Z := {| zero_value := 0; IsZero := Z.eqb 0; IsZero_zero := eq_refl |}.

Inductive TfLiteDimensionType := kTfLiteDimDense | kTfLiteDimSparseCSR.

#[export] Instance TfLiteDimensionType_eq_dec : EqDecision TfLiteDimensionType.
Proof. solve_decision. Defined.

Record TfLiteDimensionMetadata := {
  format : TfLiteDimensionType;
  dense_size : Z;
  array_segments : option (list Z);
  array_indices : option (list Z)
}.

Record TfLiteSparsity := {
  traversal_order : option (list Z);
  block_map : option (list Z);
  dim_metadata : list TfLiteDimensionMetadata
}.

Record FormatConverter (T : Type) := {
  dense_shape_ : list Z;
  blocked_shape_ : list Z;
  dense_size_ : Z;
  traversal_order_ : list Z;
  format_ : list TfLiteDimensionType;
  block_size_ : list Z;
  block_map_ : list Z;
  dim_metadata_ : list (list Z);
  data_ : list T
}.
Arguments dense_shape_ {T} _.
Arguments blocked_shape_ {T} _.
Arguments dense_size_ {T} _.
Arguments traversal_order_ {T} _.
Arguments format_ {T} _.
Arguments block_size_ {T} _.
Arguments block_map_ {T} _.
Arguments dim_metadata_ {T} _.
Arguments data_ {T} _.

Definition set_results {T} (metadata : list (list Z)) (data : list T) (fc : FormatConverter T) : FormatConverter T :=
  {| dense_shape_ := dense_shape_ fc; blocked_shape_ := blocked_shape_ fc; dense_size_ := dense_size_ fc;
     traversal_order_ := traversal_order_ fc; format_ := format_ fc; block_size_ := block_size_ fc;
     block_map_ := block_map_ fc; dim_metadata_ := metadata; data_ := data |}.

(** A computation on local variables. *)
Definition with_locals {S L A} (m : M L A) (l : L) : M S L := λ s,
  match m l with Done _ l' => Done l' s | Error _ => Error s | Undefined => Undefined end.

(** ** Helpers *)

Definition GetFlattenedIndex {S} (indices shape : list Z) : M S Z :=
  r ← fold_m (reverse (range 0 (zlen shape))) (0, 1) (λ st i,
    let '(index, sub_elements) := st in
    x ← at_ indices i;
    p ← int32 (x * sub_elements);
    d ← at_ shape i;
    sub_elements ← int32 (sub_elements * d);
    mret (u64 (index + p), sub_elements));
  mret r.1.

Definition TfLiteIntArrayToVector (int_array : option (list Z)) : list Z := default [] int_array.

(** [v.erase(v.begin() + pos, v.end())]. *)
Definition erase_from {S A} (l : list A) (pos : Z) : M S (list A) :=
  if decide (0 ≤ pos ≤ zlen l) then mret (take (Z.to_nat pos) l) else undefined.

(** ** Construction *)

(** [block_dim < block_map.size() && block_map[block_dim] == i]. *)
Definition is_blocked {S} (block_map : list Z) (block_dim i : Z) : M S bool :=
  if block_dim <? zlen block_map then b ← at_ block_map block_dim; mret (b =? i) else mret false.

Record BlockedShape := {
  formats : list TfLiteDimensionType;
  blocked : list Z;
  next_block : Z;
  total_size : Z
}.

Definition block_dimension {S} (shape traversal_order : list Z) (format : list TfLiteDimensionType)
    (block_size block_map : list Z) (b : BlockedShape) (i : Z) : M S BlockedShape :=
  o ← at_ traversal_order i;
  f ← at_ format o;
  d ← at_ shape i;
  mapped ← is_blocked block_map (next_block b) i;
  size ← (if mapped : bool then bs ← at_ block_size (next_block b); div32 d bs else mret d);
  mret {| formats := formats b ++ [f]; blocked := blocked b ++ [size];
          next_block := if (mapped : bool) then next_block b + 1 else next_block b;
          total_size := u64 (total_size b * d) |}.

(** The constructor for the conversion to the sparse format. *)
Definition DenseToSparseConverter {S T} (shape traversal_order : list Z) (format : list TfLiteDimensionType)
    (block_size block_map : list Z) : M S (FormatConverter T) :=
  b ← fold_m (range 0 (zlen shape)) {| formats := []; blocked := []; next_block := 0; total_size := 1 |}
        (block_dimension shape traversal_order format block_size block_map);
  mret {| dense_shape_ := shape; blocked_shape_ := blocked b; dense_size_ := total_size b;
          traversal_order_ := traversal_order;
          format_ := formats b ++ replicate (length block_map) kTfLiteDimDense;
          block_size_ := block_size; block_map_ := block_map; dim_metadata_ := []; data_ := [] |}.

(** [InitSparseToDenseConverter]: the metadata of a level, and the block that a
    dimension of the tensor is divided into. *)
Definition level_metadata {S} (dense_size : list Z) (segments indices : list (list Z)) (i : Z)
    (f : TfLiteDimensionType) : M S (list (list Z)) :=
  match f with
  | kTfLiteDimDense => d ← at_ dense_size i; mret [[d]; []]
  | kTfLiteDimSparseCSR => s ← at_ segments i; x ← at_ indices i; mret [s; x]
  end.

Definition divide_dimension {S} (shape traversal_order dense_size block_map : list Z)
    (st : list Z * list Z * Z) (i : Z) : M S (list Z * list Z * Z) :=
  let '(blocked_shape, block_size, block_dim) := st in
  d ← at_ shape i;
  mapped ← is_blocked block_map block_dim i;
  if mapped : bool then
    if zlen shape + block_dim <? zlen traversal_order then
      orig_dim ← at_ traversal_order (zlen shape + block_dim);
      s ← at_ dense_size orig_dim;
      block_size ← upd block_size block_dim s;
      q ← div32 d s;
      mret (blocked_shape ++ [q], block_size, block_dim + 1)
    else mret (blocked_shape ++ [0], block_size, block_dim)
  else mret (blocked_shape ++ [d], block_size, block_dim).

Definition InitSparseToDenseConverter {S T} (shape traversal_order : list Z) (format : list TfLiteDimensionType)
    (dense_size : list Z) (segments indices : list (list Z)) (block_map : list Z) : M S (FormatConverter T) :=
  metadata ← map_m (λ i, f ← at_ format i; level_metadata dense_size segments indices i f) (range 0 (zlen format));
  '(blocked_shape, block_size, _) ← fold_m (range 0 (zlen shape)) ([], replicate (length block_map) 0, 0)
    (divide_dimension shape traversal_order dense_size block_map);
  mret {| dense_shape_ := shape; blocked_shape_ := blocked_shape;
          dense_size_ := foldl (λ s d, u64 (s * d)) 1 shape; traversal_order_ := traversal_order;
          format_ := format; block_size_ := block_size; block_map_ := block_map;
          dim_metadata_ := concat metadata; data_ := [] |}.

(** The constructor for the sparsity parameters of a tensor. *)
Definition SparsityConverter {S T} (shape : list Z) (sparsity : TfLiteSparsity) : M S (FormatConverter T) :=
  InitSparseToDenseConverter shape (TfLiteIntArrayToVector (traversal_order sparsity))
    (format <$> dim_metadata sparsity) (dense_size <$> dim_metadata sparsity)
    ((λ d, TfLiteIntArrayToVector (array_segments d)) <$> dim_metadata sparsity)
    ((λ d, TfLiteIntArrayToVector (array_indices d)) <$> dim_metadata sparsity)
    (TfLiteIntArrayToVector (block_map sparsity)).

(** ** From dense to sparse *)

(** The vectors computed before the traversal. *)
Section preparation.
Context {S T : Type} (fc : FormatConverter T).

Definition num_original_dims : Z := zlen (dense_shape_ fc).
Definition num_block_dims : Z := zlen (block_map_ fc).
Definition num_expanded_dims : Z := num_original_dims + num_block_dims.

Definition get_expanded_shape : M S (list Z) :=
  map_m (λ i, if i <? num_original_dims then at_ (blocked_shape_ fc) i
              else at_ (block_size_ fc) (i - num_original_dims)) (range 0 num_expanded_dims).

Definition get_shape_offset : M S (list Z) :=
  offsets ← upd (replicate (Z.to_nat num_original_dims) 0) (num_original_dims - 1) 1;
  fold_m (reverse (range 1 num_original_dims)) offsets (λ offsets i,
    o ← at_ offsets i; d ← at_ (dense_shape_ fc) i; p ← int32 (o * d); upd offsets (i - 1) p).

Definition get_expanded_shape_offset (shape_offset : list Z) : M S (list Z) :=
  fold_m (range 0 num_block_dims) (shape_offset ++ replicate (Z.to_nat num_block_dims) 0) (λ offsets i,
    mapped_dim ← at_ (block_map_ fc) i;
    o ← at_ shape_offset mapped_dim;
    offsets ← upd offsets (num_original_dims + i) o;
    e ← at_ offsets mapped_dim;
    b ← at_ (block_size_ fc) i;
    p ← int32 (e * b);
    upd offsets mapped_dim p).

(** A vector of the expanded dimensions in the order of the traversal. *)
Definition in_traversal_order (v : list Z) : M S (list Z) :=
  map_m (λ i, o ← at_ (traversal_order_ fc) i; at_ v o) (range 0 num_expanded_dims).

(** The next compressed dimension inside each dimension, and the number of its
    segments for one index of a compressed one. The vectors are filled from the
    back. *)
Definition compressed_dim (dims : list Z) (st : list Z * list Z * Z * Z) (i : Z) : M S (list Z * list Z * Z * Z) :=
  let '(inner_compressed_dim, num_segments, most_recent, segment_count) := st in
  f ← at_ (format_ fc) i;
  match f with
  | kTfLiteDimSparseCSR => mret (most_recent :: inner_compressed_dim, segment_count :: num_segments, i, 1)
  | kTfLiteDimDense =>
      d ← at_ dims i;
      c ← int32 (segment_count * d);
      mret (most_recent :: inner_compressed_dim, -1 :: num_segments, most_recent, c)
  end.

Definition get_compressed_dims (dims : list Z) : M S (list Z * list Z) :=
  '(inner_compressed_dim, num_segments, _, _) ←
    fold_m (reverse (range 0 num_expanded_dims)) ([], [], -1, 1) (compressed_dim dims);
  mret (inner_compressed_dim, num_segments).

Definition get_metadata (dims : list Z) : M S (list (list Z)) :=
  m ← map_m (λ i, f ← at_ (format_ fc) i;
    match f with
    | kTfLiteDimDense => d ← at_ dims i; mret [[d]; []]
    | kTfLiteDimSparseCSR => mret [[0]; []]
    end) (range 0 num_expanded_dims);
  mret (concat m).

Definition get_sparse_dims : M S (list Z) :=
  fold_m (range 0 num_expanded_dims) [] (λ dims i,
    f ← at_ (format_ fc) i; mret (if decide (f = kTfLiteDimSparseCSR) then dims ++ [i] else dims)).
End preparation.

(** What the traversal reads, and what it changes. *)
Record Traversal := {
  level_format : list TfLiteDimensionType;
  level_dims : list Z;
  dst_ordered_offset : list Z;
  inner_compressed_dim : list Z;
  num_segments_of_next_compressed_dim : list Z;
  num_dims : Z;
  dst_sparse_dims : list Z
}.

Record Encoder (T : Type) := {
  dst_dim_idx : Z;
  coordinate : list Z;
  dense_tensor_idx : Z;
  dst_dim_has_nonzeroes : list bool;
  enc_metadata : list (list Z);
  enc_data : list T
}.
Arguments dst_dim_idx {T} _.
Arguments coordinate {T} _.
Arguments dense_tensor_idx {T} _.
Arguments dst_dim_has_nonzeroes {T} _.
Arguments enc_metadata {T} _.
Arguments enc_data {T} _.

Section traversal.
Context {T : Type} `{Scalar T} (k : Traversal) (src_data : list T).
Implicit Types (s : Encoder T).

Definition move (idx offset : Z) s : Encoder T :=
  {| dst_dim_idx := idx; coordinate := coordinate s; dense_tensor_idx := offset;
     dst_dim_has_nonzeroes := dst_dim_has_nonzeroes s; enc_metadata := enc_metadata s; enc_data := enc_data s |}.
Definition set_coordinate (c : list Z) s : Encoder T :=
  {| dst_dim_idx := dst_dim_idx s; coordinate := c; dense_tensor_idx := dense_tensor_idx s;
     dst_dim_has_nonzeroes := dst_dim_has_nonzeroes s; enc_metadata := enc_metadata s; enc_data := enc_data s |}.
Definition set_nonzeroes (b : list bool) s : Encoder T :=
  {| dst_dim_idx := dst_dim_idx s; coordinate := coordinate s; dense_tensor_idx := dense_tensor_idx s;
     dst_dim_has_nonzeroes := b; enc_metadata := enc_metadata s; enc_data := enc_data s |}.
Definition set_metadata (m : list (list Z)) s : Encoder T :=
  {| dst_dim_idx := dst_dim_idx s; coordinate := coordinate s; dense_tensor_idx := dense_tensor_idx s;
     dst_dim_has_nonzeroes := dst_dim_has_nonzeroes s; enc_metadata := m; enc_data := enc_data s |}.
Definition set_data (d : list T) s : Encoder T :=
  {| dst_dim_idx := dst_dim_idx s; coordinate := coordinate s; dense_tensor_idx := dense_tensor_idx s;
     dst_dim_has_nonzeroes := dst_dim_has_nonzeroes s; enc_metadata := enc_metadata s; enc_data := d |}.

Definition push_metadata (i x : Z) : M (Encoder T) unit :=
  m ← vget enc_metadata i; vset enc_metadata set_metadata i (m ++ [x]).

(** The first nonzero below the current index of a sparse dimension. *)
Definition mark_dim (dst_dim : Z) : M (Encoder T) unit :=
  b ← vget dst_dim_has_nonzeroes dst_dim;
  if (b : bool) then mret ()
  else
    c ← vget coordinate dst_dim;
    push_metadata (2 * dst_dim + 1) c;;
    vset dst_dim_has_nonzeroes set_nonzeroes dst_dim true.

(** A complete coordinate. *)
Definition visit_element : M (Encoder T) unit :=
  s ← get;
  x ← at_ src_data (dense_tensor_idx s);
  (if negb (IsZero x) then
     modify (set_data (enc_data s ++ [x]));;
     for_each (dst_sparse_dims k) mark_dim
   else
     f ← at_ (level_format k) (num_dims k - 1);
     if decide (f = kTfLiteDimDense) then modify (set_data (enc_data s ++ [x])) else mret ());;
  modify (λ s, move (dst_dim_idx s - 1) (dense_tensor_idx s) s).

(** What an index without nonzeroes has stored is deleted. *)
Definition delete_empty (d : Z) : M (Encoder T) unit :=
  next ← at_ (inner_compressed_dim k) d;
  indices ← vget enc_metadata (2 * d + 1);
  n ← at_ (num_segments_of_next_compressed_dim k) d;
  let erase_offset := i32 (u64 (zlen indices * n)) in
  if 0 <=? next then
    segments ← vget enc_metadata (2 * next);
    segments ← erase_from segments (1 + erase_offset);
    vset enc_metadata set_metadata (2 * next) segments
  else
    data ← gets enc_data;
    data ← erase_from data erase_offset;
    modify (set_data data).

(** The next index of a dimension, or back to the one before it. *)
Definition advance : M (Encoder T) unit :=
  d ← gets dst_dim_idx;
  dim_size ← at_ (level_dims k) d;
  f ← at_ (level_format k) d;
  b ← vget dst_dim_has_nonzeroes d;
  (if (b : bool) then vset dst_dim_has_nonzeroes set_nonzeroes d false
   else match f with kTfLiteDimSparseCSR => delete_empty d | kTfLiteDimDense => mret () end);;
  c ← vget coordinate d;
  c ← int32 (c + 1);
  vset coordinate set_coordinate d c;;
  offset ← at_ (dst_ordered_offset k) d;
  i ← gets dense_tensor_idx;
  if c <? dim_size then
    i ← int32 (i + offset);
    modify (move (d + 1) i)
  else
    match f with
    | kTfLiteDimSparseCSR =>
        indices ← vget enc_metadata (2 * d + 1); push_metadata (2 * d) (i32 (zlen indices))
    | kTfLiteDimDense => mret ()
    end;;
    vset coordinate set_coordinate d (-1);;
    p ← int32 (offset * dim_size);
    i ← int32 (i - p);
    modify (move (d - 1) i).

Definition encode_step : M (Encoder T) unit :=
  d ← gets dst_dim_idx;
  if d =? num_dims k then visit_element else advance.

Fixpoint encode_loop (fuel : nat) : M (Encoder T) unit :=
  d ← gets dst_dim_idx;
  if 0 <=? d then
    match fuel with
    | O => undefined
    | S fuel' => encode_step;; encode_loop fuel'
    end
  else mret ().
End traversal.

(** Enough steps: for every index of a dimension, one step to leave it and one
    for each of the dimensions inside it to enter them. *)
Fixpoint encode_steps (dims : list Z) : nat :=
  match dims with
  | [] => 1
  | d :: dims' => Z.to_nat d * (encode_steps dims' + 1 + length dims')
  end.

Definition DenseToSparse {T} `{Scalar T} (src_data : list T) : M (FormatConverter T) unit :=
  fc ← get;
  expanded_shape ← get_expanded_shape fc;
  shape_offset ← get_shape_offset fc;
  expanded_shape_offset ← get_expanded_shape_offset fc shape_offset;
  ordered_offset ← in_traversal_order fc expanded_shape_offset;
  dims ← in_traversal_order fc expanded_shape;
  '(inner, num_segments) ← get_compressed_dims fc dims;
  metadata ← get_metadata fc dims;
  sparse_dims ← get_sparse_dims fc;
  let n := Z.to_nat (num_expanded_dims fc) in
  let k := {| level_format := format_ fc; level_dims := dims; dst_ordered_offset := ordered_offset;
              inner_compressed_dim := inner; num_segments_of_next_compressed_dim := num_segments; num_dims := num_expanded_dims fc;
              dst_sparse_dims := sparse_dims |} in
  e ← with_locals (encode_loop k src_data (encode_steps dims))
    {| dst_dim_idx := num_expanded_dims fc; coordinate := replicate n 0; dense_tensor_idx := 0;
       dst_dim_has_nonzeroes := replicate n false; enc_metadata := metadata; enc_data := data_ fc |};
  modify (set_results (enc_metadata e) (enc_data e)).

(** ** From sparse to dense *)

Record Decoder (T : Type) := { src_data_ptr : Z; dest_data : list T }.
Arguments src_data_ptr {T} _.
Arguments dest_data {T} _.

Section populate.
Context {T : Type} (fc : FormatConverter T) (src_data : list T).

(** The index in the tensor of a complete list of indices. *)
Definition original_index (indices : list Z) : M (Decoder T) (list Z) :=
  let orig_rank := zlen (dense_shape_ fc) in
  orig_idx ← fold_m (range 0 orig_rank) (replicate (length (dense_shape_ fc)) 0) (λ orig_idx i,
    orig_dim ← at_ (traversal_order_ fc) i;
    x ← at_ indices i;
    upd orig_idx orig_dim x);
  fold_m (range orig_rank (zlen indices)) orig_idx (λ orig_idx i,
    t ← at_ (traversal_order_ fc) i;
    block_idx ← int32 (t - orig_rank);
    orig_dim ← at_ (block_map_ fc) block_idx;
    o ← at_ orig_idx orig_dim;
    b ← at_ (block_size_ fc) block_idx;
    p ← int32 (o * b);
    x ← at_ indices i;
    v ← int32 (p + x);
    upd orig_idx orig_dim v).

Definition populate_element (indices : list Z) : M (Decoder T) unit :=
  orig_idx ← original_index indices;
  pos ← GetFlattenedIndex orig_idx (dense_shape_ fc);
  s ← get;
  x ← at_ src_data (src_data_ptr s);
  dest ← upd (dest_data s) pos x;
  ptr ← int32 (src_data_ptr s + 1);
  put {| src_data_ptr := ptr; dest_data := dest |}.

(** The recursion is over the levels that are left. *)
Fixpoint Populate (levels : nat) (indices : list Z) (level prev_idx : Z) : M (Decoder T) unit :=
  if level =? zlen indices then populate_element indices
  else
    match levels with
    | O => undefined
    | S levels' =>
        metadata ← at_ (dim_metadata_ fc) (2 * level);
        shape_of_level ← at_ metadata 0;
        f ← at_ (format_ fc) level;
        match f with
        | kTfLiteDimDense =>
            for_each (range 0 shape_of_level) (λ i,
              indices' ← upd indices level i;
              p ← int32 (prev_idx * shape_of_level);
              p ← int32 (p + i);
              Populate levels' indices' (level + 1) p)
        | kTfLiteDimSparseCSR =>
            next ← int32 (prev_idx + 1);
            if u64 next <? zlen metadata then
              array_indices ← at_ (dim_metadata_ fc) (2 * level + 1);
              first ← at_ metadata prev_idx;
              last ← at_ metadata next;
              for_each (range first last) (λ i,
                if (u64 i <? zlen array_indices) && (level <? zlen indices) then
                  x ← at_ array_indices i;
                  indices' ← upd indices level x;
                  Populate levels' indices' (level + 1) i
                else mret ())
            else mret ()
        end
    end.
End populate.

(** The two overloads of [SparseToDense]: into [data_] and into a buffer. *)
Definition run_populate {S T} (fc : FormatConverter T) (src_data dest : list T) : M S (list T) :=
  let total_rank := length (traversal_order_ fc) in
  d ← with_locals (Populate fc src_data total_rank (replicate total_rank 0) 0 0)
        {| src_data_ptr := 0; dest_data := dest |};
  mret (dest_data d).

Definition SparseToDense {T} `{Scalar T} (src_data : list T) : M (FormatConverter T) unit :=
  fc ← get;
  data ← run_populate fc src_data (replicate (Z.to_nat (dense_size_ fc)) zero_value);
  modify (set_results (dim_metadata_ fc) data).

Definition SparseToDense_into {T} `{Scalar T} (src_data : list T) (dest_size : Z) (dest_data : list T) :
    M (FormatConverter T) (list T) :=
  fc ← get;
  ensure (dest_size =? dense_size_ fc);;
  _ ← (if decide (dest_size ≤ zlen dest_data) then mret () else undefined);
  run_populate fc src_data (replicate (Z.to_nat dest_size) zero_value ++ drop (Z.to_nat dest_size) dest_data).
