(* ===== verification/SparseBlocks.v ===== *)
(** * What the sparse format stores

    A level of the traversal has a format, a size and the offset between two of
    its indices in the dense data. A block is given by the offset of its first
    element; a level divides it into one block per index, and stores all of them
    (dense) or those with a nonzero (compressed). The metadata of a level are a
    function of the blocks stored by the levels before it, and so is the data. *)

From stdpp Require Import relations.
From S2P Require Import Prelude SparsityFormat.

Record level := { fmt : TfLiteDimensionType; dim : Z; off : Z }.

Section blocks.
Context {T : Type} `{Scalar T} (src : list T).
Implicit Types (l : level) (ls : list level) (b : Z) (bs : list Z).

Definition element b : T := vat zero_value src b.

Fixpoint nonzero ls b : bool :=
  match ls with
  | [] => negb (IsZero (element b))
  | l :: ls' => existsb (λ c, nonzero ls' (b + c * off l)) (range 0 (dim l))
  end.

(** The indices that a level stores of a block. *)
Definition stored_indices l ls b : list Z :=
  match fmt l with
  | kTfLiteDimDense => range 0 (dim l)
  | kTfLiteDimSparseCSR => filter (λ c, nonzero ls (b + c * off l)) (range 0 (dim l))
  end.

Definition sub_blocks l ls b : list Z := (λ c, b + c * off l) <$> stored_indices l ls b.
Definition stored l ls bs : list Z := concat (sub_blocks l ls <$> bs).
Definition indices l ls bs : list Z := concat (stored_indices l ls <$> bs).

(** [segments] are the numbers of indices before each block. *)
Definition segments l ls bs : list Z := (λ n, zlen (indices l ls (take n bs))) <$> seq 0 (S (length bs)).

Definition level_encoding l ls bs : list Z * list Z :=
  match fmt l with
  | kTfLiteDimDense => ([dim l], [])
  | kTfLiteDimSparseCSR => (segments l ls bs, indices l ls bs)
  end.

Fixpoint encoded_metadata ls bs : list (list Z) :=
  match ls with
  | [] => []
  | l :: ls' => (level_encoding l ls' bs).1 :: (level_encoding l ls' bs).2 :: encoded_metadata ls' (stored l ls' bs)
  end.

(** The elements that are stored. *)
Fixpoint leaves ls bs : list Z :=
  match ls with
  | [] => bs
  | l :: ls' => leaves ls' (stored l ls' bs)
  end.

Definition encoded_data ls bs : list T := element <$> leaves ls bs.

(** The same for a part of the metadata, from level [L] on. *)
Fixpoint encodes ls (L : Z) bs (m : list (list Z)) (d : list T) : Prop :=
  match ls with
  | [] => d = element <$> bs
  | l :: ls' =>
      zget m (2 * L) = Some (level_encoding l ls' bs).1 ∧
      zget m (2 * L + 1) = Some (level_encoding l ls' bs).2 ∧
      encodes ls' (L + 1) (stored l ls' bs) m d
  end.

Definition volume_of ls : Z := foldr (λ l v, dim l * v) 1 ls.
Definition offsets_of ls : Z := foldr (λ l o, off l + o) 0 ls.
Definition span_of ls : Z := foldr (λ l s, off l * (dim l - 1) + s) 0 ls.

(** ** Stored blocks *)

Lemma stored_nil l ls : stored l ls [] = [].
Proof. done. Qed.

Lemma stored_app l ls bs bs' : stored l ls (bs ++ bs') = stored l ls bs ++ stored l ls bs'.
Proof. unfold stored. by rewrite fmap_app, concat_app. Qed.

Lemma indices_app l ls bs bs' : indices l ls (bs ++ bs') = indices l ls bs ++ indices l ls bs'.
Proof. unfold indices. by rewrite fmap_app, concat_app. Qed.

Lemma stored_cons l ls b bs : stored l ls (b :: bs) = sub_blocks l ls b ++ stored l ls bs.
Proof. done. Qed.

Lemma indices_cons l ls b bs : indices l ls (b :: bs) = stored_indices l ls b ++ indices l ls bs.
Proof. done. Qed.

Lemma stored_one l ls b : stored l ls [b] = sub_blocks l ls b.
Proof. unfold stored. simpl. apply app_nil_r. Qed.

Lemma indices_one l ls b : indices l ls [b] = stored_indices l ls b.
Proof. unfold indices. simpl. apply app_nil_r. Qed.

Lemma leaves_app ls bs bs' : leaves ls (bs ++ bs') = leaves ls bs ++ leaves ls bs'.
Proof. revert bs bs'. induction ls as [|l ls IH]; intros bs bs'; [done|]. simpl. by rewrite stored_app, IH. Qed.

Lemma stored_length l ls bs : length (stored l ls bs) = length (indices l ls bs).
Proof.
  induction bs as [|b bs IH]; [done|]. rewrite stored_cons, indices_cons, !length_app, IH. unfold sub_blocks. by rewrite length_fmap.
Qed.

Lemma stored_indices_range l ls b c : c ∈ stored_indices l ls b → 0 ≤ c < dim l.
Proof.
  unfold stored_indices. destruct (fmt l); [by rewrite elem_of_range|].
  rewrite list_elem_of_filter, elem_of_range. tauto.
Qed.

Lemma stored_indices_bound l ls b : 0 ≤ dim l → zlen (stored_indices l ls b) ≤ dim l.
Proof.
  intros Hd. unfold stored_indices. destruct (fmt l); [rewrite range_length; lia|].
  etrans; [apply inj_le, length_filter|]. rewrite range_length. lia.
Qed.

Lemma stored_bound l ls bs : 0 ≤ dim l → zlen (stored l ls bs) ≤ zlen bs * dim l.
Proof.
  intros Hd. rewrite stored_length. induction bs as [|b bs IH]; [done|].
  rewrite indices_cons, length_app. cbn [length].
  pose proof (stored_indices_bound l ls b Hd). lia.
Qed.

Lemma dense_length l ls bs : fmt l = kTfLiteDimDense → 0 ≤ dim l → zlen (stored l ls bs) = zlen bs * dim l.
Proof.
  intros Hf Hd. rewrite stored_length. induction bs as [|b bs IH]; [done|].
  rewrite indices_cons, length_app. cbn [length].
  unfold stored_indices at 1. rewrite Hf, range_length. lia.
Qed.

Lemma segments_length l ls bs : length (segments l ls bs) = S (length bs).
Proof. unfold segments. by rewrite length_fmap, length_seq. Qed.

Lemma segments_lookup l ls bs n : (n ≤ length bs)%nat →
  segments l ls bs !! n = Some (zlen (indices l ls (take n bs))).
Proof.
  intros Hn. unfold segments. rewrite list_lookup_fmap, lookup_seq_lt by lia. done.
Qed.

Lemma segments_snoc l ls bs b :
  segments l ls (bs ++ [b]) = segments l ls bs ++ [zlen (indices l ls (bs ++ [b]))].
Proof.
  apply list_eq. intros n. destruct (decide (n ≤ length bs)%nat) as [Hn|Hn].
  - rewrite segments_lookup by (rewrite length_app; lia).
    rewrite lookup_app_l by (rewrite segments_length; lia).
    rewrite segments_lookup by done. by rewrite take_app_le by lia.
  - rewrite lookup_app_r by (rewrite segments_length; lia). rewrite segments_length.
    destruct (decide (n = S (length bs))) as [->|Hne].
    + rewrite segments_lookup by (rewrite length_app; simpl; lia).
      rewrite take_ge by (rewrite length_app; simpl; lia). by rewrite Nat.sub_diag.
    + rewrite !(proj2 (lookup_ge_None _ _)); [done|simpl; lia|rewrite segments_length, length_app; simpl; lia].
Qed.

Lemma segments_take l ls bs bs' :
  take (S (length bs)) (segments l ls (bs ++ bs')) = segments l ls bs.
Proof.
  apply list_eq. intros n. destruct (decide (n ≤ length bs)%nat) as [Hn|Hn].
  - rewrite lookup_take_lt by lia. rewrite !segments_lookup by (rewrite ?length_app; lia).
    by rewrite take_app_le by lia.
  - rewrite !(proj2 (lookup_ge_None _ _)); [done|rewrite segments_length; lia|rewrite length_take; lia].
Qed.

(** ** Blocks without a nonzero *)

Lemma nonzero_child l ls b c : nonzero (l :: ls) b = false → 0 ≤ c < dim l → nonzero ls (b + c * off l) = false.
Proof.
  simpl. intros Hz Hc. destruct (nonzero ls (b + c * off l)) eqn:Hn; [|done].
  enough (existsb (λ c, nonzero ls (b + c * off l)) (range 0 (dim l)) = true) by congruence.
  apply existsb_exists. exists c. split; [|done]. apply list_elem_of_In, elem_of_range. lia.
Qed.

Lemma zero_indices l ls b : fmt l = kTfLiteDimSparseCSR → nonzero (l :: ls) b = false → stored_indices l ls b = [].
Proof.
  intros Hf Hz. unfold stored_indices. rewrite Hf. apply filter_none. intros c Hc%elem_of_range.
  rewrite (nonzero_child l ls b c Hz Hc). simpl. auto.
Qed.

Definition all_zero ls bs : Prop := ∀ b, b ∈ bs → nonzero ls b = false.

Lemma zero_csr l ls bs : fmt l = kTfLiteDimSparseCSR → all_zero (l :: ls) bs →
  indices l ls bs = [] ∧ stored l ls bs = [].
Proof.
  intros Hf Hz. assert (indices l ls bs = []) as Hi.
  { unfold indices. induction bs as [|b bs IH]; [done|]. simpl.
    rewrite (zero_indices l ls b Hf) by (apply Hz; by left). apply IH. intros b' Hb'. apply Hz. by right. }
  split; [done|]. apply nil_length_inv. by rewrite stored_length, Hi.
Qed.

Lemma zero_stored l ls bs : all_zero (l :: ls) bs → all_zero ls (stored l ls bs).
Proof.
  intros Hz b' Hb'. unfold stored in Hb'. apply concat_elem in Hb' as (bl & Hbl & Hb').
  apply list_elem_of_fmap in Hbl as (b & -> & Hb). unfold sub_blocks in Hb'.
  apply list_elem_of_fmap in Hb' as (c & -> & Hc). apply stored_indices_range in Hc.
  apply nonzero_child; [by apply Hz|done].
Qed.

(** ** Metadata from a level on *)

Lemma encodes_ext ls L bs m m' d : (∀ j, 2 * L ≤ j → zget m j = zget m' j) →
  encodes ls L bs m d → encodes ls L bs m' d.
Proof.
  revert L bs. induction ls as [|l ls IH]; intros L bs Hm; simpl; [done|].
  rewrite !Hm by lia. intros (H1 & H2 & H3). split_and!; [done|done|].
  eapply IH; [|done]. intros j Hj. apply Hm. lia.
Qed.

Lemma encodes_result ls L bs m d : 0 ≤ L → encodes ls L bs m d → zlen m = 2 * L + 2 * zlen ls →
  drop (Z.to_nat (2 * L)) m = encoded_metadata ls bs ∧ d = encoded_data ls bs.
Proof.
  revert L bs. induction ls as [|l ls IH]; intros L bs HL; simpl.
  - intros -> Hlen. split; [apply drop_ge; lia|done].
  - intros (H1 & H2 & H3) Hlen. destruct (IH (L + 1) (stored l ls bs)) as [Hm ->]; [lia|done|lia|].
    split; [|done]. apply zget_Some in H1 as [_ H1]. apply zget_Some in H2 as [_ H2].
    rewrite (drop_S m _ _ H1). f_equal. replace (S (Z.to_nat (2 * L))) with (Z.to_nat (2 * L + 1)) by lia.
    rewrite (drop_S m _ _ H2). f_equal. rewrite <- Hm. f_equal. lia.
Qed.

Lemma encodes_app ls L bs pre : zlen pre = 2 * L →
  encodes ls L bs (pre ++ encoded_metadata ls bs) (encoded_data ls bs).
Proof.
  revert L bs pre. induction ls as [|l ls IH]; intros L bs pre Hpre; [done|]. cbn [encodes encoded_metadata].
  set (e1 := (level_encoding l ls bs).1). set (e2 := (level_encoding l ls bs).2).
  set (rest := encoded_metadata ls (stored l ls bs)). split_and!.
  - apply zget_Some. split; [lia|]. rewrite lookup_app_r by lia. by replace (Z.to_nat (2 * L) - length pre)%nat with 0%nat by lia.
  - apply zget_Some. split; [lia|]. rewrite lookup_app_r by lia. by replace (Z.to_nat (2 * L + 1) - length pre)%nat with 1%nat by lia.
  - replace (pre ++ e1 :: e2 :: rest) with ((pre ++ [e1; e2]) ++ rest) by (by rewrite <- app_assoc).
    apply IH. rewrite length_app. simpl. lia.
Qed.

(** The next compressed level and the number of its segments per block. *)
Fixpoint next_compressed ls (L : Z) : Z * Z :=
  match ls with
  | [] => (-1, 1)
  | l :: ls' =>
      match fmt l with
      | kTfLiteDimSparseCSR => (L, 1)
      | kTfLiteDimDense => let '(i, n) := next_compressed ls' (L + 1) in (i, n * dim l)
      end
  end.

Lemma next_compressed_range ls L : 0 ≤ L →
  (next_compressed ls L).1 = -1 ∨ L ≤ (next_compressed ls L).1 < L + zlen ls.
Proof.
  revert L. induction ls as [|l ls IH]; intros L HL; simpl; [by left|].
  destruct (fmt l); [|right; simpl; lia].
  destruct (IH (L + 1)) as [Hi|Hi]; [lia| |]; destruct (next_compressed ls (L + 1)); simpl in *; [by left|right; lia].
Qed.

Lemma next_compressed_count ls L : Forall (λ l, 0 < dim l) ls →
  0 < (next_compressed ls L).2 ≤ volume_of ls.
Proof.
  intros Hd. revert L. induction Hd as [|l ls Hl Hls IH]; intros L; [simpl; lia|].
  simpl. pose proof (IH (L + 1)) as Hn. assert (0 < volume_of ls) by lia.
  destruct (fmt l); [destruct (next_compressed ls (L + 1)); simpl in *; nia|simpl; nia].
Qed.

(** Deleting what blocks without a nonzero have stored. *)
Lemma encodes_truncate ls L bs zs m d : 0 ≤ L → Forall (λ l, 0 < dim l) ls →
  encodes ls L (bs ++ zs) m d → all_zero ls zs →
  let '(i, n) := next_compressed ls L in
  if 0 <=? i then
    ∃ segs, zget m (2 * i) = Some segs ∧ 1 + zlen bs * n ≤ zlen segs ∧
      encodes ls L bs (zset (2 * i) (take (Z.to_nat (1 + zlen bs * n)) segs) m) d
  else zlen bs * n ≤ zlen d ∧ encodes ls L bs m (take (Z.to_nat (zlen bs * n)) d).
Proof.
  intros HL Hd. revert L HL bs zs. induction Hd as [|l ls Hl Hls IH]; intros L HL bs zs.
  - simpl. intros -> _. rewrite Z.mul_1_r, Nat2Z.id, length_fmap, length_app. split; [lia|].
    by rewrite <- fmap_take, take_app_length.
  - cbn [encodes next_compressed]. intros (H1 & H2 & H3) Hz. destruct (fmt l) eqn:Hf.
    + specialize (IH (L + 1) ltac:(lia) (stored l ls bs) (stored l ls zs)). rewrite stored_app in H3.
      specialize (IH H3 (zero_stored l ls zs Hz)).
      pose proof (next_compressed_range ls (L + 1)) as Hr. pose proof (next_compressed_count ls (L + 1) Hls) as Hn.
      destruct (next_compressed ls (L + 1)) as [i n]. simpl in Hr, Hn.
      rewrite (dense_length l ls bs) in IH by (done || lia).
      replace (zlen bs * (n * dim l)) with (zlen bs * dim l * n) by lia.
      assert (level_encoding l ls (bs ++ zs) = level_encoding l ls bs) as He by (unfold level_encoding; by rewrite Hf).
      rewrite He in H1, H2. destruct (Z.leb_spec 0 i).
      * destruct IH as (segs & Hs & Hlen & Henc). exists segs. split_and!; [done|done| | |done];
          rewrite zget_zset_ne by lia; done.
      * destruct IH as [Hlen Henc]. split_and!; done.
    + rewrite (proj2 (Z.leb_le 0 L)) by done. rewrite Z.mul_1_r.
      destruct (zero_csr l ls zs Hf Hz) as [Hi Hs].
      unfold level_encoding in *. rewrite Hf in *. simpl in *.
      exists (segments l ls (bs ++ zs)). split_and!.
      * done.
      * rewrite segments_length, length_app. lia.
      * replace (Z.to_nat (1 + zlen bs)) with (S (length bs)) by lia. rewrite segments_take.
        apply zget_zset_eq. apply zget_range in H1. lia.
      * rewrite zget_zset_ne by lia. by rewrite H2, indices_app, Hi, app_nil_r.
      * rewrite stored_app, Hs, app_nil_r in H3. eapply encodes_ext; [|exact H3].
        intros j Hj. by rewrite zget_zset_ne by lia.
Qed.
End blocks.
