(* ===== verification/SparsityEncoding.v ===== *)
(** * The traversal stores the blocks

    [encode_loop] walks through the coordinates like an odometer, writes first
    and deletes what turns out to be empty. A walk through a block extends the
    metadata and the data by what the format stores of the block, and tells the
    levels outside whether it had a nonzero. *)

From stdpp Require Import relations.
From S2P Require Import Prelude SparsityFormat SparseBlocks.

Section encoding.
Context {T : Type} `{Scalar T} (k : Traversal) (src : list T) (levels : list level).
Implicit Types (s : Encoder T) (l : level) (ls : list level) (b : Z) (bs : list Z).

Abbreviation N := (zlen levels).

Hypothesis Hfmt : level_format k = fmt <$> levels.
Hypothesis Hdims : level_dims k = dim <$> levels.
Hypothesis Hoff : dst_ordered_offset k = off <$> levels.
Hypothesis Hnum : num_dims k = N.
Hypothesis Hsparse : ∀ K, K ∈ dst_sparse_dims k ↔ ∃ l, zget levels K = Some l ∧ fmt l = kTfLiteDimSparseCSR.
Hypothesis Hinner : ∀ K l, zget levels K = Some l → fmt l = kTfLiteDimSparseCSR →
  let '(i, n) := next_compressed (drop (Z.to_nat (K + 1)) levels) (K + 1) in
  zget (inner_compressed_dim k) K = Some i ∧ zget (num_segments_of_next_compressed_dim k) K = Some n.
Hypothesis Hpos : Forall (λ l, 0 < dim l ∧ 0 ≤ off l ∧ off l * dim l ≤ int32_max) levels.
Hypothesis Hoffsets : offsets_of levels ≤ int32_max.
Hypothesis Hsrc : zlen src ≤ int32_max.
Hypothesis Hne : levels ≠ [].
Hypothesis Hdimbound : ∀ l, l ∈ levels → dim l ≤ int32_max.

(** ** Levels *)

Lemma suffix_level L l ls : 0 ≤ L → drop (Z.to_nat L) levels = l :: ls →
  zget levels L = Some l ∧ drop (Z.to_nat (L + 1)) levels = ls.
Proof.
  intros HL Hd. assert (levels !! Z.to_nat L = Some l) as Hl.
  { rewrite <- (Nat.add_0_r (Z.to_nat L)), <- lookup_drop, Hd. done. }
  split; [apply zget_Some; split; [lia|done]|].
  rewrite (drop_S _ _ _ Hl) in Hd. simplify_eq. f_equal. lia.
Qed.

Lemma suffix_length L ls : 0 ≤ L ≤ N → drop (Z.to_nat L) levels = ls → L + zlen ls = N.
Proof. intros HL <-. rewrite length_drop. lia. Qed.

Lemma suffix_pos L ls : drop (Z.to_nat L) levels = ls →
  Forall (λ l, 0 < dim l ∧ 0 ≤ off l ∧ off l * dim l ≤ int32_max) ls.
Proof. intros <-. by apply Forall_drop. Qed.

Lemma dims_positive ls : Forall (λ l, 0 < dim l ∧ 0 ≤ off l ∧ off l * dim l ≤ int32_max) ls → Forall (λ l, 0 < dim l) ls.
Proof. intros Hl. eapply Forall_impl; [exact Hl|]. simpl. tauto. Qed.

Lemma sums_nonneg ls : Forall (λ l, 0 < dim l ∧ 0 ≤ off l ∧ off l * dim l ≤ int32_max) ls →
  0 < volume_of ls ∧ 0 ≤ offsets_of ls ∧ 0 ≤ span_of ls.
Proof. clear. induction 1 as [|l ls Hl Hls IH]; simpl; [lia|]. nia. Qed.

Lemma offsets_drop n : 0 ≤ offsets_of (drop n levels) ≤ offsets_of levels.
Proof.
  pose proof Hpos as Hp. revert n. clear - Hp. induction Hp as [|l ls Hl Hls IH]; intros [|n]; [simpl; lia|simpl; lia| |].
  - pose proof (IH O) as H0. simpl. change (drop 0 ls) with ls in H0. lia.
  - specialize (IH n). simpl. lia.
Qed.

(** ** States *)

Definition sized s : Prop :=
  zlen (coordinate s) = N ∧ zlen (dst_dim_has_nonzeroes s) = N ∧ zlen (enc_metadata s) = 2 * N.

Definition inside (L v : Z) s : Prop := ∀ K, L ≤ K < N →
  zget (coordinate s) K = Some v ∧ zget (dst_dim_has_nonzeroes s) K = Some false.

(** At the first element of block [b], with the blocks [bs] stored so far. *)
Definition at_block (L : Z) ls b bs s : Prop :=
  dst_dim_idx s = N ∧ dense_tensor_idx s = b ∧ inside L 0 s ∧ sized s ∧
  encodes src ls L bs (enc_metadata s) (enc_data s).

(** About to enter level [L] of block [b]. *)
Definition entering (L : Z) ls b bs s : Prop :=
  dst_dim_idx s = L ∧ dense_tensor_idx s = b - offsets_of ls ∧ inside L (-1) s ∧ sized s ∧
  encodes src ls L bs (enc_metadata s) (enc_data s).

Definition after_block (L : Z) ls b bs s : Prop :=
  dst_dim_idx s = L - 1 ∧ dense_tensor_idx s = b - offsets_of ls ∧ inside L (-1) s ∧ sized s ∧
  encodes src ls L bs (enc_metadata s) (enc_data s).

Definition marked (K : Z) s s' : Prop :=
  zget (dst_dim_has_nonzeroes s') K = Some true ∧
  ∃ (set : bool) c inds, zget (dst_dim_has_nonzeroes s) K = Some set ∧ zget (coordinate s) K = Some c ∧
    zget (enc_metadata s) (2 * K + 1) = Some inds ∧
    zget (enc_metadata s') (2 * K + 1) = Some (if set then inds else inds ++ [c]).

Definition untouched (K : Z) s s' : Prop :=
  zget (dst_dim_has_nonzeroes s') K = zget (dst_dim_has_nonzeroes s) K ∧
  zget (enc_metadata s') (2 * K + 1) = zget (enc_metadata s) (2 * K + 1).

(** The levels outside [L] after a block with ([z]) or without a nonzero. *)
Definition outer (L : Z) (z : bool) s s' : Prop := ∀ K l, 0 ≤ K < L → zget levels K = Some l →
  zget (coordinate s') K = zget (coordinate s) K ∧
  zget (enc_metadata s') (2 * K) = zget (enc_metadata s) (2 * K) ∧
  if z && bool_decide (fmt l = kTfLiteDimSparseCSR) then marked K s s' else untouched K s s'.

Lemma outer_refl L s : outer L false s s.
Proof. intros K l HK Hl. by unfold untouched. Qed.

Lemma outer_le L L' z s s' : L' ≤ L → outer L z s s' → outer L' z s s'.
Proof. intros HL Ho K l HK Hl. apply Ho; [lia|done]. Qed.

Lemma outer_trans L z z' s s' s'' : outer L z s s' → outer L z' s' s'' → outer L (z || z') s s''.
Proof.
  intros H1 H2 K l HK Hl. destruct (H1 K l HK Hl) as (Hc1 & Hm1 & Ho1). destruct (H2 K l HK Hl) as (Hc2 & Hm2 & Ho2).
  split_and!; [congruence|congruence|]. unfold marked, untouched in *.
  destruct (bool_decide (fmt l = kTfLiteDimSparseCSR)); rewrite ?andb_true_r, ?andb_false_r in *; [|destruct Ho1, Ho2; split; congruence].
  destruct z, z'; simpl.
  - destruct Ho1 as (Hn1 & b & c & i & Hb & Hc & Hi & Hi1), Ho2 as (Hn2 & b' & c' & i' & Hb' & Hc' & Hi' & Hi2).
    split; [done|]. exists b, c, i. split_and!; [done..|]. simplify_eq. congruence.
  - destruct Ho1 as (Hn1 & b & c & i & Hb & Hc & Hi & Hi1), Ho2 as [Hn2 Hi2].
    split; [congruence|]. exists b, c, i. split_and!; [done..|]. congruence.
  - destruct Ho1 as [Hn1 Hi1], Ho2 as (Hn2 & b' & c' & i' & Hb' & Hc' & Hi' & Hi2).
    split; [done|]. exists b', c', i'. split_and!; [congruence..|]. congruence.
  - destruct Ho1, Ho2. split; congruence.
Qed.

(** ** Steps *)

Definition step_to s s' : Prop := 0 ≤ dst_dim_idx s ∧ encode_step k src s = Done () s'.

Lemma run_steps n s s' fuel : bsteps step_to n s s' → (n ≤ fuel)%nat → ∃ fuel',
  (fuel - n ≤ fuel')%nat ∧ encode_loop k src fuel s = encode_loop k src fuel' s'.
Proof.
  intros Hs. revert fuel. induction Hs as [n s|n s s' s'' [Hd He] _ IH]; intros fuel Hf.
  - exists fuel. split; [lia|done].
  - destruct fuel as [|fuel]; [lia|]. destruct (IH fuel) as (fuel' & Hf' & Hr); [lia|].
    exists fuel'. split; [lia|]. rewrite <- Hr. simpl. unfold mbind, M_bind, gets.
    rewrite (proj2 (Z.leb_le 0 _)) by done. by rewrite He.
Qed.

Lemma level_at K l : zget levels K = Some l →
  zget (level_format k) K = Some (fmt l) ∧ zget (level_dims k) K = Some (dim l) ∧
  zget (dst_ordered_offset k) K = Some (off l).
Proof. intros Hl. by rewrite Hfmt, Hdims, Hoff, !zget_fmap, Hl. Qed.

(** *** A complete coordinate *)

Lemma mark_dim_spec K s E : sized s → 0 ≤ K < N →
  wp (mark_dim K) (λ _ s', sized s' ∧ marked K s s' ∧ dst_dim_idx s' = dst_dim_idx s ∧
    dense_tensor_idx s' = dense_tensor_idx s ∧ coordinate s' = coordinate s ∧ enc_data s' = enc_data s ∧
    (∀ j, j ≠ K → zget (dst_dim_has_nonzeroes s') j = zget (dst_dim_has_nonzeroes s) j) ∧
    (∀ j, j ≠ 2 * K + 1 → zget (enc_metadata s') j = zget (enc_metadata s) j)) E s.
Proof.
  intros (Hc & Hn & Hm) HK. unfold mark_dim.
  destruct (zget_is_Some (dst_dim_has_nonzeroes s) K) as [b Hb]; [lia|].
  destruct (zget_is_Some (coordinate s) K) as [c Hcc]; [lia|].
  destruct (zget_is_Some (enc_metadata s) (2 * K + 1)) as [inds Hi]; [lia|].
  apply wp_bind. eapply wp_vget_Some; [exact Hb|]. destruct b.
  - apply wp_ret. split_and!; try done. split; [done|]. exists true, c, inds. done.
  - apply wp_bind. eapply wp_vget_Some; [exact Hcc|]. unfold push_metadata. wp_steps.
    eapply wp_vget_Some; [exact Hi|]. eapply wp_vset_Some; [exact Hi|]. eapply wp_vset_Some; [exact Hb|]. simpl.
    split_and!; try done.
    + split_and!; simpl; rewrite ?zset_length; done.
    + split; simpl; [by apply zget_zset_eq; lia|]. exists false, c, inds. split_and!; try done.
      simpl. apply zget_zset_eq. lia.
    + intros j Hj. by apply zget_zset_ne; lia.
    + intros j Hj. by apply zget_zset_ne; lia.
Qed.

(** Marking a dimension twice is marking it once. *)
Lemma marked_again K s s' s'' : marked K s s' → marked K s' s'' → marked K s s''.
Proof.
  intros (Hn1 & b1 & c1 & i1 & ? & ? & ? & ?) (Hn2 & b2 & c2 & i2 & ? & ? & ? & ?).
  split; [done|]. exists b1, c1, i1. split_and!; [done..|]. simplify_eq. congruence.
Qed.

Lemma marked_first K s s' s'' : untouched K s s' → coordinate s' = coordinate s → marked K s' s'' → marked K s s''.
Proof.
  intros (Hn1 & Hi1) Hc (Hn2 & b2 & c2 & i2 & ? & ? & ? & ?).
  split; [done|]. exists b2, c2, i2. split_and!; congruence.
Qed.

(** The states after the sparse dimensions [done] were marked. *)
Definition marks (done : list Z) s s' : Prop :=
  sized s' ∧ dst_dim_idx s' = dst_dim_idx s ∧ dense_tensor_idx s' = dense_tensor_idx s ∧
  coordinate s' = coordinate s ∧ enc_data s' = enc_data s ∧
  (∀ K, 0 ≤ K < N → K ∈ done → marked K s s') ∧ (∀ K, 0 ≤ K < N → (K ∉ done) → untouched K s s') ∧
  (∀ K, zget (enc_metadata s') (2 * K) = zget (enc_metadata s) (2 * K)).

Lemma marks_next done K s s' : 0 ≤ K < N → marks done s s' →
  wp (mark_dim K) (λ _, marks (done ++ [K]) s) (λ _, False) s'.
Proof.
  intros HK (Hs' & Hd' & Hi' & Hc' & Hdata & Hmk & Hun & Hseg).
  eapply wp_post; [|by apply mark_dim_spec].
  intros [] s'' (Hs'' & Hm & Hd'' & Hi'' & Hc'' & Hdata'' & Hnz & Hmeta). split_and!; [done|congruence..| | |].
  - intros J HJ Hin'. destruct (decide (J = K)) as [->|HJK].
    + destruct (decide (K ∈ done)) as [Hdone|Hdone].
      * apply (marked_again K s s'); [by apply Hmk|done].
      * apply (marked_first K s s'); [by apply Hun|done..].
    + assert (J ∈ done) as Hdone by (rewrite elem_of_app, list_elem_of_singleton in Hin'; tauto).
      destruct (Hmk J HJ Hdone) as (Hn1 & b1 & c1 & i1 & ? & ? & ? & ?).
      split; [rewrite Hnz; done|]. exists b1, c1, i1. rewrite Hmeta by lia. done.
  - intros J HJ Hin'. rewrite elem_of_app, list_elem_of_singleton in Hin'.
    destruct (Hun J HJ) as [Hn1 Hi1]; [tauto|]. split; [rewrite Hnz by (intros ->; tauto); done|].
    rewrite Hmeta; [done|]. intros ?. assert (J = K) by lia. tauto.
  - intros J. rewrite Hmeta by lia. apply Hseg.
Qed.

Lemma mark_all_spec s : sized s →
  wp (for_each (dst_sparse_dims k) mark_dim) (λ _, marks (dst_sparse_dims k) s) (λ _, False) s.
Proof.
  intros Hs. apply (wp_for_each (λ done, marks done s)).
  - split_and!; try done. intros K _ Hin'%elem_of_nil. done.
  - intros done K todo s' Heq Hmk. apply marks_next; [|done].
    assert (K ∈ dst_sparse_dims k) as (l' & Hl' & _)%Hsparse by (rewrite Heq; in_list). by eapply zget_range.
Qed.

Lemma marks_outer s s' : marks (dst_sparse_dims k) s s' → outer N true s s'.
Proof.
  intros (Hs' & Hd' & Hi' & Hc' & Hdata & Hmk & Hun & Hseg) K l' HK Hl'. rewrite Hc'.
  split_and!; [done|apply Hseg|]. simpl.
  case_bool_decide as Hf; [apply Hmk; [done|]; apply Hsparse; eauto|].
  apply Hun; [done|]. rewrite Hsparse. intros (l'' & ? & ?). simplify_eq.
Qed.

Lemma visit_element_spec b bs s : at_block N [] b bs s → 0 ≤ b < zlen src → ∃ s', step_to s s' ∧
  after_block N [] b (bs ++ if negb (IsZero (element src b)) || bool_decide (fmt <$> last levels = Some kTfLiteDimDense)
    then [b] else []) s' ∧
  outer N (negb (IsZero (element src b))) s s'.
Proof.
  intros (Hd & Hi & Hin & Hs & He) Hb. simpl in He.
  assert (0 < N) as HN by (destruct levels; [done|simpl; lia]).
  assert (zget src b = Some (element src b)) as Hx by (by apply vat_zget).
  destruct (zget_is_Some levels (N - 1)) as [l Hl]; [lia|].
  assert (last levels = Some l) as Hlast.
  { rewrite last_lookup. apply zget_Some in Hl as [_ Hl]. rewrite <- Hl. f_equal. lia. }
  enough (wp (encode_step k src) (λ _ s', dst_dim_idx s' = N - 1 ∧ dense_tensor_idx s' = b ∧ coordinate s' = coordinate s ∧
    sized s' ∧ outer N (negb (IsZero (element src b))) s s' ∧
    enc_data s' = enc_data s ++ if negb (IsZero (element src b)) || bool_decide (fmt l = kTfLiteDimDense)
      then [element src b] else []) (λ _, False) s) as Hwp.
  { apply wp_no_error in Hwp as ([] & s' & Hrun & Hd' & Hi' & Hc' & Hs' & Ho' & Hdata).
    exists s'. split; [by split; [lia|]|]. split; [|done].
    split_and!; [done|simpl; lia| |done|].
    - intros K HK. lia.
    - simpl. rewrite Hdata, He, Hlast, fmap_app. f_equal. simpl.
      destruct (IsZero (element src b)); simpl; [|done]. repeat case_bool_decide; done || congruence. }
  unfold encode_step. wp_steps. rewrite Hd, Hnum, Z.eqb_refl. unfold visit_element. wp_steps.
  rewrite Hi. eapply wp_at; [exact Hx|]. wp_steps. destruct (IsZero (element src b)) eqn:Hz; simpl.
  - wp_steps. eapply wp_at; [rewrite Hnum; apply (level_at _ _ Hl)|]. destruct (decide (fmt l = kTfLiteDimDense)) as [Hf|Hf].
    + wp_steps. rewrite bool_decide_eq_true_2 by done. split_and!; simpl; try done; try lia; apply outer_refl.
    + wp_steps. rewrite bool_decide_eq_false_2, app_nil_r by done. split_and!; simpl; try done; try lia; apply outer_refl.
  - wp_steps. eapply wp_post; [|by apply mark_all_spec]. intros [] s' Hmk. pose proof (marks_outer _ _ Hmk) as Ho.
    destruct Hmk as (Hs' & Hd' & Hi' & Hc' & Hdata & _). simpl in *. wp_steps.
    split_and!; simpl; try done; try lia; try congruence.
Qed.

(** *** Leaving an index *)

Lemma next_at L l ls : 0 ≤ L → drop (Z.to_nat L) levels = l :: ls → fmt l = kTfLiteDimSparseCSR →
  zget (inner_compressed_dim k) L = Some (next_compressed ls (L + 1)).1 ∧
  zget (num_segments_of_next_compressed_dim k) L = Some (next_compressed ls (L + 1)).2.
Proof.
  intros HL Hd Hf. destruct (suffix_level L l ls HL Hd) as [Hl Hd']. specialize (Hinner L l Hl Hf).
  rewrite Hd' in Hinner. by destruct (next_compressed ls (L + 1)).
Qed.

Lemma delete_empty_spec L l ls P zs inds s E : 0 ≤ L → drop (Z.to_nat L) levels = l :: ls →
  fmt l = kTfLiteDimSparseCSR → sized s → zget (enc_metadata s) (2 * L + 1) = Some inds → zlen inds = zlen P →
  encodes src ls (L + 1) (P ++ zs) (enc_metadata s) (enc_data s) → all_zero src ls zs →
  zlen P * volume_of ls ≤ int32_max →
  wp (delete_empty k L) (λ _ s', sized s' ∧ dst_dim_idx s' = dst_dim_idx s ∧
    dense_tensor_idx s' = dense_tensor_idx s ∧ coordinate s' = coordinate s ∧
    dst_dim_has_nonzeroes s' = dst_dim_has_nonzeroes s ∧
    (∀ j, j < 2 * (L + 1) → zget (enc_metadata s') j = zget (enc_metadata s) j) ∧
    encodes src ls (L + 1) P (enc_metadata s') (enc_data s')) E s.
Proof.
  intros HL Hd Hf (Hc & Hn & Hm) Hi Hlen He Hz Hbig. destruct (next_at L l ls HL Hd Hf) as [H1 H2].
  assert (Forall (λ l, 0 < dim l) ls) as Hls.
  { apply dims_positive. destruct (suffix_level L l ls HL Hd) as [_ Hd']. by eapply suffix_pos. }
  pose proof (next_compressed_count ls (L + 1) Hls) as Hcount.
  pose proof (next_compressed_range ls (L + 1)) as Hnext.
  pose proof (encodes_truncate src ls (L + 1) P zs _ _ ltac:(lia) Hls He Hz) as Ht.
  destruct (next_compressed ls (L + 1)) as [i n]. simpl in *.
  assert (i32 (u64 (zlen inds * n)) = zlen P * n) as Hoff'.
  { rewrite Hlen. assert (0 ≤ zlen P * n ≤ int32_max) by nia.
    rewrite u64_id by (unfold is_size, size_max; unfold int32_max in *; lia).
    apply i32_id. unfold is_int32, int32_min, int32_max in *. lia. }
  unfold delete_empty. wp_steps. eapply wp_at; [exact H1|]. wp_steps. eapply wp_vget_Some; [exact Hi|]. wp_steps.
  eapply wp_at; [exact H2|]. rewrite Hoff'. destruct (Z.leb_spec 0 i).
  - destruct Ht as (segs & Hs & Hsl & Henc). wp_steps. eapply wp_vget_Some; [exact Hs|]. wp_steps.
    unfold erase_from. rewrite decide_True by nia. wp_steps. eapply wp_vset_Some; [exact Hs|]. simpl.
    split_and!; try done; [split_and!; simpl; rewrite ?zset_length; done|].
    intros j Hj. apply zget_zset_ne; lia.
  - destruct Ht as [Hdl Henc]. wp_steps. unfold erase_from. rewrite decide_True by nia. wp_steps. by split_and!.
Qed.

(** The state after the stored part of an empty index was deleted, and its mark reset. *)
Definition cleaned (L : Z) ls (P : list Z) s s' : Prop :=
  sized s' ∧ dst_dim_idx s' = dst_dim_idx s ∧
  dense_tensor_idx s' = dense_tensor_idx s ∧ coordinate s' = coordinate s ∧
  zget (dst_dim_has_nonzeroes s') L = Some false ∧
  (∀ K, K ≠ L → zget (dst_dim_has_nonzeroes s') K = zget (dst_dim_has_nonzeroes s) K) ∧
  (∀ j, j < 2 * (L + 1) → zget (enc_metadata s') j = zget (enc_metadata s) j) ∧
  encodes src ls (L + 1) P (enc_metadata s') (enc_data s').

(** The state after index [c] of level [L] was left, for the next one or for
    the level outside. *)
Definition advanced (L : Z) l ls (P : list Z) c (inds segs : list Z) i s s' : Prop :=
  let next := bool_decide (c + 1 < dim l) in
  sized s' ∧ dst_dim_idx s' = (if next then L + 1 else L - 1) ∧ dense_tensor_idx s' = i ∧
  zget (coordinate s') L = Some (if next then c + 1 else -1) ∧ zget (dst_dim_has_nonzeroes s') L = Some false ∧
  (∀ K, K ≠ L → zget (coordinate s') K = zget (coordinate s) K ∧
     zget (dst_dim_has_nonzeroes s') K = zget (dst_dim_has_nonzeroes s) K) ∧
  zget (enc_metadata s') (2 * L) = Some (if negb next && bool_decide (fmt l = kTfLiteDimSparseCSR)
    then segs ++ [zlen inds] else segs) ∧
  zget (enc_metadata s') (2 * L + 1) = Some inds ∧
  (∀ j, j < 2 * L → zget (enc_metadata s') j = zget (enc_metadata s) j) ∧
  encodes src ls (L + 1) P (enc_metadata s') (enc_data s').

Section advance.
Context (L : Z) (l : level) (ls : list level) (P : list Z) (c : Z) (flag : bool) (inds segs : list Z).
Context (s : Encoder T).
Hypothesis HL : 0 ≤ L.
Hypothesis Hd : drop (Z.to_nat L) levels = l :: ls.
Hypothesis Hs : sized s.
Hypothesis Hc : zget (coordinate s) L = Some c.
Hypothesis Hflag : zget (dst_dim_has_nonzeroes s) L = Some flag.
Hypothesis Hsegs : zget (enc_metadata s) (2 * L) = Some segs.
Hypothesis Hinds : zget (enc_metadata s) (2 * L + 1) = Some inds.
Hypothesis Hbig : zlen P * volume_of ls ≤ int32_max.
Hypothesis Hbi : zlen inds ≤ int32_max.

Lemma clean_spec :
  (fmt l = kTfLiteDimSparseCSR → flag = false → zlen inds = zlen P ∧ ∃ zs,
     encodes src ls (L + 1) (P ++ zs) (enc_metadata s) (enc_data s) ∧ all_zero src ls zs) →
  (fmt l = kTfLiteDimDense ∨ flag = true → encodes src ls (L + 1) P (enc_metadata s) (enc_data s)) →
  wp (if flag then vset dst_dim_has_nonzeroes set_nonzeroes L false
      else match fmt l with kTfLiteDimSparseCSR => delete_empty k L | kTfLiteDimDense => mret () end)
    (λ _, cleaned L ls P s) (λ _, False) s.
Proof.
  intros Hclean Hkeep. pose proof Hs as (Hsc & Hsn & Hsm). pose proof (zget_range _ _ _ Hflag) as Hr.
  destruct flag.
  - eapply wp_vset_Some; [exact Hflag|]. unfold cleaned. simpl.
    split_and!; try done; [split_and!; simpl; rewrite ?zset_length; done|apply zget_zset_eq; lia| |by apply Hkeep; right].
    intros K HK. by apply zget_zset_ne; lia.
  - destruct (fmt l) eqn:Hf.
    + wp_steps. unfold cleaned. split_and!; try done. by apply Hkeep; left.
    + destruct Hclean as [Hlen (zs & He & Hz)]; [done..|].
      eapply wp_post; [|by eapply (delete_empty_spec L l ls P zs inds)].
      intros [] s' (H1 & H2 & H3 & H4 & H5 & H6 & H7).
      unfold cleaned. split_and!; try done; [by rewrite H5|by intros; rewrite H5].
Qed.

(** The end of a level records where its indices end. *)
Lemma close_spec s1 : sized s1 →
  zget (enc_metadata s1) (2 * L) = Some segs → zget (enc_metadata s1) (2 * L + 1) = Some inds →
  wp (match fmt l with
      | kTfLiteDimSparseCSR => indices ← vget enc_metadata (2 * L + 1); push_metadata (2 * L) (i32 (zlen indices))
      | kTfLiteDimDense => mret ()
      end)
    (λ _ s2, ∃ m, s2 = set_metadata m s1 ∧ length m = length (enc_metadata s1) ∧
      zget m (2 * L) = Some (if bool_decide (fmt l = kTfLiteDimSparseCSR) then segs ++ [zlen inds] else segs) ∧
      (∀ j, j ≠ 2 * L → zget m j = zget (enc_metadata s1) j)) (λ _, False) s1.
Proof.
  intros (Hs1c & Hs1n & Hs1m) H1 H2. pose proof (zget_range _ _ _ H1) as Hr. destruct (fmt l) eqn:Hf.
  - wp_steps. exists (enc_metadata s1). by split_and!; [destruct s1|..].
  - wp_steps. eapply wp_vget_Some; [exact H2|]. unfold push_metadata. wp_steps.
    eapply wp_vget_Some; [exact H1|]. eapply wp_vset_Some; [exact H1|]. simpl.
    eexists. split_and!; [done|by rewrite zset_length| |].
    + rewrite i32_id by (unfold is_int32, int32_min; lia). apply zget_zset_eq. lia.
    + intros j Hj. by apply zget_zset_ne; lia.
Qed.

Lemma advance_next i s1 : cleaned L ls P s s1 → c + 1 < dim l → is_int32 i →
  i = dense_tensor_idx s + off l →
  wp (i ← int32 (dense_tensor_idx s + off l); modify (move (L + 1) i))
    (λ _, advanced L l ls P c inds segs i s) (λ _, False) (set_coordinate (zset L (c + 1) (coordinate s1)) s1).
Proof.
  intros (Hs1 & Hd1 & Hi1 & Hc1 & Hf1 & Hnz1 & Hm1 & He1) Hn Hi ->.
  pose proof (zget_range _ _ _ Hc) as Hr. destruct Hs1 as (Hs1c & Hs1n & Hs1m).
  unfold advanced. rewrite bool_decide_eq_true_2 by done. apply wp_bind, wp_int32; [done|].
  wp_steps. split_and!; try done.
  - split_and!; simpl; rewrite ?zset_length; done.
  - apply zget_zset_eq. rewrite Hc1. lia.
  - intros K HK. simpl. rewrite Hc1, zget_zset_ne by lia. split; [done|by apply Hnz1].
  - simpl. rewrite Hm1 by lia. done.
  - simpl. rewrite Hm1 by lia. done.
  - intros j Hj. simpl. apply Hm1. lia.
Qed.

Lemma advance_back i s1 : cleaned L ls P s s1 → c + 1 = dim l → is_int32 i → is_int32 (off l * dim l) →
  i = dense_tensor_idx s - off l * dim l →
  wp (match fmt l with
      | kTfLiteDimSparseCSR => indices ← vget enc_metadata (2 * L + 1); push_metadata (2 * L) (i32 (zlen indices))
      | kTfLiteDimDense => mret ()
      end ;;
      vset coordinate set_coordinate L (-1) ;;
      p ← int32 (off l * dim l);
      i ← int32 (dense_tensor_idx s - p);
      modify (move (L - 1) i))
    (λ _, advanced L l ls P c inds segs i s) (λ _, False) (set_coordinate (zset L (c + 1) (coordinate s1)) s1).
Proof.
  intros (Hs1 & Hd1 & Hi1 & Hc1 & Hf1 & Hnz1 & Hm1 & He1) Hn Hi Hp ->.
  pose proof (zget_range _ _ _ Hc) as Hr. destruct Hs1 as (Hs1c & Hs1n & Hs1m).
  unfold advanced. rewrite bool_decide_eq_false_2 by lia. apply wp_bind.
  eapply wp_post; [|apply close_spec; simpl; [split_and!; simpl; rewrite ?zset_length; done|rewrite Hm1 by lia; done..]].
  intros [] s2 (m & -> & Hml & Hm2 & Hmo). simpl in Hml, Hmo. wp_steps.
  eapply wp_vset_Some; [simpl; apply zget_zset_eq; rewrite Hc1; lia|]. wp_steps.
  apply wp_int32; [done|]. wp_steps. apply wp_int32; [done|]. wp_steps. split_and!; try done.
  - split_and!; simpl; rewrite ?zset_length, ?Hml; done.
  - simpl. apply zget_zset_eq. rewrite zset_length, Hc1. lia.
  - intros K HK. simpl. rewrite !zget_zset_ne, Hc1 by lia. split; [done|by apply Hnz1].
  - simpl. rewrite Hmo, Hm1 by lia. done.
  - intros j Hj. simpl. rewrite Hmo, Hm1 by lia. done.
  - simpl. eapply encodes_ext; [|exact He1]. intros j Hj. by rewrite Hmo by lia.
Qed.

Lemma advance_spec : dst_dim_idx s = L → -1 ≤ c < dim l →
  (fmt l = kTfLiteDimSparseCSR → flag = false → zlen inds = zlen P ∧ ∃ zs,
     encodes src ls (L + 1) (P ++ zs) (enc_metadata s) (enc_data s) ∧ all_zero src ls zs) →
  (fmt l = kTfLiteDimDense ∨ flag = true → encodes src ls (L + 1) P (enc_metadata s) (enc_data s)) →
  let i := if bool_decide (c + 1 < dim l) then dense_tensor_idx s + off l else dense_tensor_idx s - off l * dim l in
  is_int32 i → ∃ s', step_to s s' ∧ advanced L l ls P c inds segs i s s'.
Proof.
  intros Hdst Hcr Hclean Hkeep i Hi.
  destruct (suffix_level L l ls HL Hd) as [Hl _]. destruct (level_at L l Hl) as (Hlf & Hld & Hlo).
  assert (0 ≤ L < N) as HLN by (by eapply zget_range).
  pose proof (Forall_lookup_1 _ _ _ _ Hpos (proj2 (proj1 (zget_Some _ _ _) Hl))) as (Hd0 & Ho0 & Hod).
  enough (wp (encode_step k src) (λ _, advanced L l ls P c inds segs i s) (λ _, False) s) as Hwp.
  { apply wp_no_error in Hwp as ([] & s' & Hrun & Hw). exists s'. split; [by split; [lia|]|done]. }
  unfold encode_step. wp_steps. rewrite Hdst, Hnum, (proj2 (Z.eqb_neq _ _)) by lia.
  unfold advance. wp_steps. rewrite Hdst. eapply wp_at; [exact Hld|]. wp_steps. eapply wp_at; [exact Hlf|].
  wp_steps. eapply wp_vget_Some; [exact Hflag|]. wp_steps.
  eapply wp_post; [|by apply clean_spec]. intros [] s1 Hcl. pose proof Hcl as (_ & _ & Hi1 & Hc1 & _).
  wp_steps. eapply wp_vget_Some; [rewrite Hc1; exact Hc|]. wp_steps.
  assert (dim l ≤ int32_max) by (apply Hdimbound; by apply zget_elem in Hl).
  apply wp_int32; [unfold is_int32, int32_min, int32_max in *; lia|].
  wp_steps. eapply wp_vset_Some; [rewrite Hc1; exact Hc|]. wp_steps.
  eapply wp_at; [exact Hlo|]. wp_steps. simpl dense_tensor_idx. rewrite Hi1. subst i.
  destruct (Z.ltb_spec (c + 1) (dim l)) as [Hn|Hn].
  - rewrite bool_decide_eq_true_2 in Hi |- * by done. by apply advance_next.
  - rewrite bool_decide_eq_false_2 in Hi |- * by lia. apply advance_back; try done; [lia|].
    unfold is_int32, int32_min. nia.
Qed.
End advance.

(** ** Blocks *)

Lemma inside_split L l s v : zget levels L = Some l → zget (coordinate s) L = Some v →
  zget (dst_dim_has_nonzeroes s) L = Some false → inside (L + 1) v s → inside L v s.
Proof. intros Hl Hc Hn Hin K HK. destruct (decide (K = L)) as [->|]; [done|]. apply Hin. lia. Qed.

Lemma outer_known L l s s' : outer (L + 1) false s s' → 0 ≤ L → zget levels L = Some l →
  zget (coordinate s') L = zget (coordinate s) L ∧
  zget (dst_dim_has_nonzeroes s') L = zget (dst_dim_has_nonzeroes s) L ∧
  zget (enc_metadata s') (2 * L) = zget (enc_metadata s) (2 * L) ∧
  zget (enc_metadata s') (2 * L + 1) = zget (enc_metadata s) (2 * L + 1).
Proof. intros Ho HL Hl. destruct (Ho L l ltac:(lia) Hl) as (Hc & Hm & Hn & Hi). done. Qed.

(** A change above a level that nothing outside sees. *)
Lemma outer_local L s s' : (∀ K, K < L → zget (coordinate s') K = zget (coordinate s) K ∧
    zget (dst_dim_has_nonzeroes s') K = zget (dst_dim_has_nonzeroes s) K) →
  (∀ j, j < 2 * L → zget (enc_metadata s') j = zget (enc_metadata s) j) → outer L false s s'.
Proof.
  intros Hc Hm K l HK Hl. destruct (Hc K) as [H1 H2]; [lia|]. unfold untouched. simpl.
  rewrite !Hm by lia. done.
Qed.

Lemma indices_fit l ls bs : 0 < dim l → 0 < volume_of ls → zlen bs * volume_of (l :: ls) ≤ int32_max →
  zlen (indices src l ls bs) ≤ int32_max ∧ zlen (stored src l ls bs) * volume_of ls ≤ int32_max.
Proof.
  intros Hd Hv Hb. pose proof (stored_bound src l ls bs ltac:(lia)) as Hs. rewrite stored_length in Hs |- *.
  cbn [volume_of foldr] in Hb. fold (volume_of ls) in Hb. nia.
Qed.

Lemma entering_block ls : ∀ L b bs s, drop (Z.to_nat L) levels = ls → 0 ≤ L ≤ N → entering L ls b bs s →
  0 ≤ b ≤ int32_max → zlen bs * volume_of ls ≤ int32_max →
  ∃ s', bsteps step_to (length ls) s s' ∧ at_block L ls b bs s' ∧ outer L false s s'.
Proof.
  induction ls as [|l ls IH]; intros L b bs s Hd HL (Hdst & Hi & Hin & Hs & He) Hb Hbig.
  - pose proof (suffix_length L [] HL Hd) as HLN. simpl in HLN. exists s. split; [constructor|].
    split; [|apply outer_refl]. split_and!; [lia|simpl in Hi; lia| |done|done]. intros K HK. lia.
  - destruct (suffix_level L l ls ltac:(lia) Hd) as [Hl Hd'].
    assert (0 ≤ L < N) as HLN by (by eapply zget_range).
    pose proof (suffix_pos L _ Hd) as Hp. apply Forall_cons in Hp as [[Hd0 [Ho0 Hod]] Hp].
    pose proof (sums_nonneg ls Hp) as (Hv & Hos & _).
    pose proof (offsets_drop (Z.to_nat L)) as Hol. rewrite Hd in Hol. simpl in Hol.
    destruct (indices_fit l ls bs Hd0 Hv Hbig) as [Hi1 Hi2].
    destruct He as (Hm1 & Hm2 & He). destruct (Hin L) as [Hc Hn]; [lia|].
    assert (zlen (level_encoding src l ls bs).2 ≤ int32_max) as Hei.
    { unfold level_encoding. destruct (fmt l); simpl; [unfold int32_max; lia|lia]. }
    destruct (advance_spec L l ls (stored src l ls bs) (-1) false _ _ s ltac:(lia) Hd Hs Hc Hn Hm1 Hm2 Hi2 Hei Hdst)
      as (s1 & Hst & Hs1 & Hd1 & Hi1' & Hc1 & Hn1 & Hco & Hg1 & Hg2 & Hmo & He1).
    + lia.
    + intros Hf _. unfold level_encoding. rewrite Hf. simpl. split; [by rewrite stored_length|].
      exists []. rewrite app_nil_r. split; [done|]. intros z Hz%elem_of_nil. done.
    + done.
    + rewrite bool_decide_eq_true_2 by lia. rewrite Hi. simpl. unfold is_int32, int32_min, int32_max in *. lia.
    + rewrite bool_decide_eq_true_2 in Hd1, Hi1', Hc1, Hg1 by lia. simpl in Hg1.
      destruct (IH (L + 1) b (stored src l ls bs) s1 Hd') as (s' & Hst' & Hat & Ho); [lia| |done|done|].
      { split_and!; [done|rewrite Hi1', Hi; simpl; lia| |done|done].
        intros K HK. destruct (Hco K) as [-> ->]; [lia|]. apply Hin. lia. }
      exists s'. destruct Hat as (Ha1 & Ha2 & Ha3 & Ha4 & Ha5).
      destruct (outer_known L l s1 s' Ho ltac:(lia) Hl) as (Hk1 & Hk2 & Hk3 & Hk4).
      split_and!; [by econstructor| |].
      * split_and!; [done|done| |done|].
        -- eapply inside_split; [done|by rewrite Hk1|by rewrite Hk2|done].
        -- simpl. rewrite Hk3, Hk4. done.
      * apply (outer_trans L false false s s1 s'); [|by apply (outer_le (L + 1)); [lia|]].
        apply outer_local; [|done]. intros K HK. apply Hco. lia.
Qed.

(** What a level has stored of a block after its first [c] indices. *)
Definition keep l ls b c : bool :=
  match fmt l with kTfLiteDimDense => true | kTfLiteDimSparseCSR => nonzero src ls (b + c * off l) end.

Definition indices_upto l ls b c : list Z := filter (λ c, keep l ls b c) (range 0 c).

Lemma indices_upto_all l ls b : indices_upto l ls b (dim l) = stored_indices src l ls b.
Proof.
  unfold indices_upto, stored_indices, keep. destruct (fmt l); [|done]. apply filter_all. by intros.
Qed.

Lemma indices_upto_snoc l ls b c : 0 ≤ c →
  indices_upto l ls b (c + 1) = indices_upto l ls b c ++ if keep l ls b c then [c] else [].
Proof.
  intros Hc. unfold indices_upto. rewrite range_snoc by done. rewrite filter_app. f_equal.
  rewrite filter_cons, filter_nil. destruct (keep l ls b c); [by rewrite decide_True|by rewrite decide_False by (intros [])].
Qed.

Lemma indices_upto_bound l ls b c : 0 ≤ c → zlen (indices_upto l ls b c) ≤ c.
Proof.
  intros Hc. unfold indices_upto. etrans; [apply inj_le, length_filter|]. rewrite range_length. lia.
Qed.

Definition stored_upto l ls b c : list Z := (λ c, b + c * off l) <$> indices_upto l ls b c.

(** The indices a level lists before index [c] of block [b]. *)
Definition indices_before l ls bs b c : list Z :=
  match fmt l with
  | kTfLiteDimDense => []
  | kTfLiteDimSparseCSR => indices src l ls bs ++ indices_upto l ls b c
  end.

(** At the first element below index [c] of block [b]. *)
Definition at_index (L : Z) l ls b bs c s : Prop :=
  at_block (L + 1) ls (b + c * off l) (stored src l ls bs ++ stored_upto l ls b c) s ∧
  zget (coordinate s) L = Some c ∧ zget (dst_dim_has_nonzeroes s) L = Some false ∧
  zget (enc_metadata s) (2 * L) = Some (level_encoding src l ls bs).1 ∧
  zget (enc_metadata s) (2 * L + 1) = Some (indices_before l ls bs b c).

Lemma at_index_0 L l ls b bs s : 0 ≤ L → zget levels L = Some l →
  at_block L (l :: ls) b bs s → at_index L l ls b bs 0 s.
Proof.
  intros HL Hl (Hdst & Hi & Hin & Hs & He1 & He2 & He). destruct (Hin L) as [Hc Hn]; [by eapply zget_range in Hl; lia|].
  unfold at_index, indices_before, stored_upto, indices_upto. rewrite range_nil, filter_nil, fmap_nil, !app_nil_r by lia.
  split_and!; [|done|done|done|].
  - split_and!; [done|lia| |done|done]. intros K HK. apply Hin. lia.
  - rewrite He2. unfold level_encoding. by destruct (fmt l).
Qed.

(** Whether a block appears among the stored ones before the level outside it
    has decided. *)
Definition written ls b : bool :=
  match ls with
  | [] => negb (IsZero (element src b)) || bool_decide (fmt <$> last levels = Some kTfLiteDimDense)
  | _ => true
  end.

Definition block_bound ls : nat := encode_steps (dim <$> ls).

Definition walks ls : Prop := ∀ L b bs s, drop (Z.to_nat L) levels = ls → 0 ≤ L ≤ N → at_block L ls b bs s →
  0 ≤ b → b + span_of ls < zlen src → (zlen bs + 1) * volume_of ls ≤ int32_max →
  ∃ s', bsteps step_to (block_bound ls) s s' ∧
    after_block L ls b (bs ++ if written ls b then [b] else []) s' ∧ outer L (nonzero src ls b) s s'.

Lemma written_kept L l ls b c : 0 ≤ L → drop (Z.to_nat L) levels = l :: ls →
  keep l ls b c = true → written ls (b + c * off l) = true.
Proof.
  intros HL Hd. unfold keep, written. destruct ls as [|l' ls]; [|done].
  assert (last levels = Some l) as ->.
  { rewrite <- (take_drop (Z.to_nat L) levels), Hd. by rewrite last_snoc. }
  simpl. intros Hk. apply orb_true_iff. destruct (fmt l); [right; by apply bool_decide_eq_true_2|by left].
Qed.

(** The conclusion of one index of a level: the state is at the next index, or
    on the way out of the block. *)
Definition index_left (L : Z) l ls b bs c s s' : Prop :=
  let next := bool_decide (c + 1 < dim l) in
  sized s' ∧ dst_dim_idx s' = (if next then L + 1 else L - 1) ∧
  dense_tensor_idx s' = b + (if next then (c + 1) * off l else - off l) - offsets_of ls ∧
  zget (coordinate s') L = Some (if next then c + 1 else -1) ∧
  zget (dst_dim_has_nonzeroes s') L = Some false ∧ inside (L + 1) (-1) s' ∧
  zget (enc_metadata s') (2 * L) = Some (if next then (level_encoding src l ls bs).1
    else (level_encoding src l ls (bs ++ [b])).1) ∧
  zget (enc_metadata s') (2 * L + 1) = Some (indices_before l ls bs b (c + 1)) ∧
  encodes src ls (L + 1) (stored src l ls bs ++ stored_upto l ls b (c + 1)) (enc_metadata s') (enc_data s') ∧
  outer L (nonzero src ls (b + c * off l)) s s'.

Section index.
Context (L : Z) (l : level) (ls : list level) (b : Z) (bs : list Z) (c : Z) (s : Encoder T).
Hypothesis Hwalk : walks ls.
Hypothesis HL : 0 ≤ L.
Hypothesis Hd : drop (Z.to_nat L) levels = l :: ls.
Hypothesis Hat : at_index L l ls b bs c s.
Hypothesis Hcr : 0 ≤ c < dim l.
Hypothesis Hb : 0 ≤ b.
Hypothesis Hspan : b + span_of (l :: ls) < zlen src.
Hypothesis Hbig : (zlen bs + 1) * volume_of (l :: ls) ≤ int32_max.

Abbreviation stored_before := (stored src l ls bs ++ stored_upto l ls b c).
Abbreviation kept := (stored_before ++ if keep l ls b c then [b + c * off l] else []).
Abbreviation found := (nonzero src ls (b + c * off l)).
Abbreviation flag := (found && bool_decide (fmt l = kTfLiteDimSparseCSR)).

(** The sizes that the walk below the index needs. *)
Lemma index_sizes :
  0 ≤ off l ∧ off l * dim l ≤ int32_max ∧ 0 ≤ offsets_of ls ∧ off l + offsets_of ls ≤ int32_max ∧
  0 ≤ c * off l ∧ b + c * off l + span_of ls < zlen src ∧
  (zlen stored_before + 1) * volume_of ls ≤ int32_max ∧ zlen stored_before + 1 ≤ int32_max.
Proof.
  pose proof (suffix_pos L _ Hd) as Hp. apply Forall_cons in Hp as [[Hd0 [Ho0 Hod]] Hp].
  pose proof (sums_nonneg ls Hp) as (Hv & Hos & Hsp).
  pose proof (offsets_drop (Z.to_nat L)) as Hol. rewrite Hd in Hol. cbn [offsets_of foldr] in Hol. fold (offsets_of ls) in Hol.
  cbn [span_of foldr] in Hspan. fold (span_of ls) in Hspan.
  cbn [volume_of foldr] in Hbig. fold (volume_of ls) in Hbig.
  assert (zlen stored_before ≤ zlen bs * dim l + c) as HF.
  { unfold stored_upto. rewrite length_app, length_fmap.
    pose proof (stored_bound src l ls bs ltac:(lia)). pose proof (indices_upto_bound l ls b c ltac:(lia)). lia. }
  assert ((zlen stored_before + 1) * volume_of ls ≤ int32_max) by nia.
  split_and!; [lia|lia|lia|lia|nia|nia|done|nia].
Qed.

(** After the block below: the flag and the indices of the level. *)
Lemma index_marks s1 : zget levels L = Some l → outer (L + 1) found s s1 →
  zget (coordinate s1) L = Some c ∧ zget (dst_dim_has_nonzeroes s1) L = Some flag ∧
  zget (enc_metadata s1) (2 * L) = Some (level_encoding src l ls bs).1 ∧
  zget (enc_metadata s1) (2 * L + 1) = Some (indices_before l ls bs b (c + 1)).
Proof.
  intros Hl Ho. destruct Hat as (_ & Hc & Hn & Hm1 & Hm2). destruct (Ho L l ltac:(lia) Hl) as (Hc1 & Hg1 & Hmk1).
  split; [by rewrite Hc1|]. unfold indices_before in *. rewrite indices_upto_snoc by lia. unfold keep.
  destruct (fmt l) eqn:Hf; rewrite ?bool_decide_eq_true_2, ?bool_decide_eq_false_2, ?andb_true_r, ?andb_false_r in * by done.
  - destruct Hmk1 as [-> ->]. by rewrite Hm2, Hn, Hg1.
  - destruct found.
    + destruct Hmk1 as (-> & mk & c' & i' & Hmk & Hc' & Hi' & ->). split; [done|].
      rewrite Hn in Hmk. rewrite Hc in Hc'. rewrite Hm2 in Hi'. simplify_eq. by rewrite Hg1, app_assoc.
    + destruct Hmk1 as [-> ->]. by rewrite Hm2, Hn, Hg1, app_nil_r.
Qed.

Lemma kept_indices : fmt l = kTfLiteDimSparseCSR → zlen (indices_before l ls bs b (c + 1)) = zlen kept.
Proof.
  intros Hf. unfold indices_before, stored_upto.
  rewrite Hf, indices_upto_snoc, !length_app, length_fmap, stored_length by lia.
  destruct (keep l ls b c); simpl; lia.
Qed.

(** What the block below left is what the level keeps, or only zeroes more. *)
Lemma kept_clean : fmt l = kTfLiteDimSparseCSR → flag = false → ∃ zs,
  stored_before ++ (if written ls (b + c * off l) then [b + c * off l] else []) = kept ++ zs ∧ all_zero src ls zs.
Proof.
  intros Hf Hz. rewrite bool_decide_eq_true_2, andb_true_r in Hz by done.
  assert (keep l ls b c = false) as -> by (unfold keep; by rewrite Hf).
  exists (if written ls (b + c * off l) then [b + c * off l] else []). rewrite app_nil_r.
  split; [done|]. intros b' Hb'. destruct (written ls (b + c * off l)); [|by apply elem_of_nil in Hb'].
  by apply list_elem_of_singleton in Hb' as ->.
Qed.

Lemma kept_written : fmt l = kTfLiteDimDense ∨ flag = true →
  stored_before ++ (if written ls (b + c * off l) then [b + c * off l] else []) = kept.
Proof.
  intros Hor. assert (keep l ls b c = true) as Hk.
  { unfold keep. destruct Hor as [->|Hor]; [done|]. apply andb_true_iff in Hor as [-> _]. by destruct (fmt l). }
  rewrite Hk. by rewrite (written_kept L l ls b c).
Qed.

(** What leaving the index establishes. *)
Lemma advanced_left i s1 s2 : sized s1 → inside (L + 1) (-1) s1 → outer (L + 1) found s s1 →
  i = (if bool_decide (c + 1 < dim l) then b + c * off l - offsets_of ls + off l
       else b + c * off l - offsets_of ls - off l * dim l) →
  advanced L l ls kept c (indices_before l ls bs b (c + 1)) (level_encoding src l ls bs).1 i s1 s2 →
  index_left L l ls b bs c s s2.
Proof.
  intros Hs1 Hin1 Ho1 Hi (Hs2 & Hd2 & Hi2 & Hc2 & Hn2 & Hco2 & Hg12 & Hg22 & Hmo2 & He2).
  split_and!; try done.
  - rewrite Hi2, Hi. destruct (decide (c + 1 < dim l)) as [Hnx|Hnx];
      [rewrite !bool_decide_eq_true_2 by done; lia|rewrite !bool_decide_eq_false_2 by done].
    assert (dim l = c + 1) as -> by lia. lia.
  - intros K HK. destruct (Hco2 K) as [-> ->]; [lia|]. apply Hin1. lia.
  - rewrite Hg12. f_equal. destruct (decide (c + 1 < dim l)) as [Hnx|Hnx];
      [by rewrite !(bool_decide_eq_true_2 (c + 1 < dim l))|rewrite !(bool_decide_eq_false_2 (c + 1 < dim l)) by done].
    unfold level_encoding, indices_before. destruct (fmt l); [done|]. simpl.
    rewrite segments_snoc, indices_app, indices_one.
    assert (c + 1 = dim l) as -> by lia. by rewrite indices_upto_all.
  - rewrite <- app_assoc in He2. unfold stored_upto in *. rewrite indices_upto_snoc, fmap_app by lia.
    destruct (keep l ls b c); done.
  - rewrite <- (orb_false_r found). eapply outer_trans; [by apply (outer_le (L + 1)); [lia|]|].
    apply outer_local; [|done]. intros K HK. apply Hco2. lia.
Qed.

(** One index of a level: the block below it, and the step that leaves it. *)
Lemma index_spec : ∃ s', bsteps step_to (block_bound ls + 1) s s' ∧ index_left L l ls b bs c s s'.
Proof.
  destruct (suffix_level L l ls HL Hd) as [Hl Hd']. assert (0 ≤ L < N) as HLN by (by eapply zget_range).
  destruct index_sizes as (Ho0 & Hod & Hos & Hol & Hco & Hsp & Hvol & HF).
  destruct (Hwalk (L + 1) (b + c * off l) stored_before s Hd' ltac:(lia) (proj1 Hat) ltac:(lia) Hsp Hvol)
    as (s1 & Hst1 & (Hd1 & Hi1 & Hin1 & Hs1 & He1) & Ho1).
  destruct (index_marks s1 Hl Ho1) as (Hc1 & Hn1 & Hg1 & Hg2).
  assert (zlen kept ≤ zlen stored_before + 1) as HP by (rewrite (length_app stored_before); destruct (keep l ls b c); simpl; lia).
  assert (zlen (indices_before l ls bs b (c + 1)) ≤ int32_max) as Hib.
  { destruct (fmt l) eqn:Hf; [unfold indices_before; rewrite Hf; simpl; unfold int32_max; lia|].
    rewrite kept_indices by done. lia. }
  pose proof (suffix_pos L _ Hd) as Hp. apply Forall_cons in Hp as [_ Hp].
  destruct (sums_nonneg ls Hp) as (Hv & _ & Hsp0).
  assert (zlen kept * volume_of ls ≤ int32_max) as Hkv.
  { etrans; [|exact Hvol]. apply Z.mul_le_mono_nonneg_r; [lia|done]. }
  destruct (advance_spec L l ls kept c flag (indices_before l ls bs b (c + 1)) (level_encoding src l ls bs).1 s1
    HL Hd Hs1 Hc1 Hn1 Hg1 Hg2 Hkv Hib) as (s2 & Hst2 & Had).
  - lia.
  - lia.
  - intros Hf Hz. split; [by apply kept_indices|]. destruct (kept_clean Hf Hz) as (zs & Heq & Hzs).
    exists zs. rewrite <- Heq. done.
  - intros Hor. rewrite <- (kept_written Hor). done.
  - rewrite Hi1. unfold is_int32, int32_min, int32_max in *.
    pose proof Hspan as Hspan'. cbn [span_of foldr] in Hspan'. fold (span_of ls) in Hspan'.
    destruct (decide (c + 1 < dim l)) as [Hnx|Hnx]; [rewrite bool_decide_eq_true_2 by done|rewrite bool_decide_eq_false_2 by done].
    + assert (off l * (c + 1) ≤ off l * (dim l - 1)) by (apply Z.mul_le_mono_nonneg_l; lia). lia.
    + assert (dim l = c + 1) as -> by lia. lia.
  - exists s2. split; [eapply bsteps_trans; [exact Hst1|by apply bsteps_once]|].
    eapply advanced_left; [exact Hs1|exact Hin1|exact Ho1| |exact Had]. by rewrite Hi1.
Qed.
End index.

Lemma stored_upto_all l ls b : stored_upto l ls b (dim l) = sub_blocks src l ls b.
Proof. unfold stored_upto, sub_blocks. by rewrite indices_upto_all. Qed.

(** The indices from [c] on. *)
Lemma indices_spec L l ls b bs : walks ls → 0 ≤ L → drop (Z.to_nat L) levels = l :: ls →
  0 ≤ b → b + span_of (l :: ls) < zlen src → (zlen bs + 1) * volume_of (l :: ls) ≤ int32_max →
  ∀ r c s, (0 < r)%nat → dim l = c + Z.of_nat r → 0 ≤ c → at_index L l ls b bs c s →
  ∃ s', bsteps step_to (r * (block_bound ls + 1 + length ls)) s s' ∧
    after_block L (l :: ls) b (bs ++ [b]) s' ∧
    outer L (existsb (λ c, nonzero src ls (b + c * off l)) (range c (dim l))) s s'.
Proof.
  intros Hwalk HL Hd Hb Hspan Hbig r.
  destruct (suffix_level L l ls HL Hd) as [Hl Hd']. assert (0 ≤ L < N) as HLN by (by eapply zget_range).
  pose proof (suffix_pos L _ Hd) as Hp. apply Forall_cons in Hp as [[Hd0 [Ho0 Hod]] Hp].
  pose proof (sums_nonneg ls Hp) as (Hv & Hos & Hsp).
  induction r as [|r IH]; intros c s Hr Hdim Hc Hat; [lia|].
  destruct (index_spec L l ls b bs c s Hwalk HL Hd Hat ltac:(lia) Hb Hspan Hbig)
    as (s1 & Hst1 & Hs1 & Hd1 & Hi1 & Hc1 & Hn1 & Hin1 & Hm1 & Hm2 & He1 & Ho1).
  rewrite range_cons by lia. cbn [existsb]. destruct r as [|r].
  - rewrite bool_decide_eq_false_2 in Hd1, Hi1, Hc1, Hm1 by lia.
    exists s1. split; [eapply bsteps_weaken; [|exact Hst1]; lia|].
    assert (dim l = c + 1) as Hlast by lia. split.
    + split_and!; [done|rewrite Hi1; simpl; lia| |done|].
      * by eapply inside_split.
      * simpl. split_and!; [done| |].
        -- rewrite Hm2. unfold level_encoding, indices_before. destruct (fmt l); [done|]. simpl.
           by rewrite indices_app, indices_one, <- Hlast, indices_upto_all.
        -- by rewrite stored_app, stored_one, <- stored_upto_all, Hlast.
    + rewrite range_nil by lia. simpl. by rewrite orb_false_r.
  - rewrite bool_decide_eq_true_2 in Hd1, Hi1, Hc1, Hm1 by lia.
    cbn [span_of foldr] in Hspan. fold (span_of ls) in Hspan.
    assert ((c + 1) * off l ≤ off l * (dim l - 1)) as Hoc.
    { rewrite (Z.mul_comm (c + 1)). apply Z.mul_le_mono_nonneg_l; lia. }
    assert (0 ≤ (c + 1) * off l) as Hoc0 by (apply Z.mul_nonneg_nonneg; lia).
    destruct (entering_block ls (L + 1) (b + (c + 1) * off l)
      (stored src l ls bs ++ stored_upto l ls b (c + 1)) s1 Hd') as (s2 & Hst2 & Hat2 & Ho2).
    + lia.
    + split_and!; [done|rewrite Hi1; lia|done|done|done].
    + lia.
    + assert (zlen (stored src l ls bs ++ stored_upto l ls b (c + 1)) ≤ (zlen bs + 1) * dim l) as HF.
      { unfold stored_upto. rewrite length_app, length_fmap.
        pose proof (stored_bound src l ls bs ltac:(lia)). pose proof (indices_upto_bound l ls b (c + 1) ltac:(lia)). lia. }
      cbn [volume_of foldr] in Hbig. fold (volume_of ls) in Hbig. rewrite Z.mul_assoc in Hbig.
      etrans; [|exact Hbig]. apply Z.mul_le_mono_nonneg_r; lia.
    + destruct (outer_known L l s1 s2 Ho2 HL Hl) as (Hk1 & Hk2 & Hk3 & Hk4).
      destruct (IH (c + 1) s2) as (s3 & Hst3 & Haf & Ho3); [lia|lia|lia| |].
      { split_and!; [done|by rewrite Hk1|by rewrite Hk2|by rewrite Hk3|by rewrite Hk4]. }
      exists s3. split_and!; [|done|].
      * eapply bsteps_weaken; [|eapply bsteps_trans; [exact Hst1|eapply bsteps_trans; [exact Hst2|exact Hst3]]]. lia.
      * eapply outer_trans; [exact Ho1|]. rewrite <- (orb_false_l (existsb _ _)).
        eapply outer_trans; [by apply (outer_le (L + 1)); [lia|]|done].
Qed.

Lemma block_spec ls : walks ls.
Proof.
  induction ls as [|l ls IH]; intros L b bs s Hd HL Hat Hb Hspan Hbig.
  - pose proof (suffix_length L [] HL Hd) as HLN. simpl in HLN. assert (L = N) as -> by lia.
    simpl in Hspan. destruct (visit_element_spec b bs s Hat) as (s' & Hst & Haf & Ho); [lia|].
    exists s'. split; [by apply bsteps_once|done].
  - destruct (suffix_level L l ls ltac:(lia) Hd) as [Hl _].
    pose proof (suffix_pos L _ Hd) as Hp. apply Forall_cons in Hp as [[Hd0 _] _].
    apply (at_index_0 L l ls b bs s) in Hat; [|lia|done].
    destruct (indices_spec L l ls b bs IH ltac:(lia) Hd Hb Hspan Hbig (Z.to_nat (dim l)) 0 s) as (s' & Hst & Haf & Ho);
      [lia|lia|lia|done|].
    exists s'. split_and!; [|done|done]. unfold block_bound in *. cbn [fmap list_fmap encode_steps].
    by rewrite length_fmap.
Qed.

(** ** The whole traversal *)

Definition start (m : list (list Z)) : Encoder T :=
  {| dst_dim_idx := N; coordinate := replicate (length levels) 0; dense_tensor_idx := 0;
     dst_dim_has_nonzeroes := replicate (length levels) false; enc_metadata := m; enc_data := [] |}.

Lemma encode_loop_spec : span_of levels < zlen src → volume_of levels ≤ int32_max →
  ∃ s', encode_loop k src (encode_steps (dim <$> levels)) (start (encoded_metadata src levels [])) = Done () s' ∧
    enc_metadata s' = encoded_metadata src levels [0] ∧ enc_data s' = encoded_data src levels [0].
Proof.
  intros Hspan Hvol. set (s0 := start (encoded_metadata src levels [])).
  assert (∀ ls bs, zlen (encoded_metadata src ls bs) = 2 * zlen ls) as Hlen.
  { induction ls as [|l ls IH]; intros bs; [done|]. simpl. specialize (IH (stored src l ls bs)). lia. }
  assert (at_block 0 levels 0 [] s0) as Hat.
  { split_and!; [done|done| | |].
    - intros K HK. assert (∀ A (x : A), zget (replicate (length levels) x) K = Some x) as Hrep.
      { intros A x. apply zget_Some. split; [lia|]. apply lookup_replicate. split; [done|lia]. }
      split; apply Hrep.
    - split_and!; simpl; rewrite ?length_replicate; [done|done|apply Hlen].
    - enough (∀ ls L pre bs, zlen pre = 2 * L → leaves src ls bs = [] →
        encodes src ls L bs (pre ++ encoded_metadata src ls bs) []) as Henc.
      { apply (Henc levels 0 [] []); [done|]. clear. induction levels; done. }
      induction ls as [|l ls IH]; intros L pre bs Hpre Hbs; simpl in *; [by rewrite Hbs|].
      set (e1 := (level_encoding src l ls bs).1). set (e2 := (level_encoding src l ls bs).2).
      set (rest := encoded_metadata src ls (stored src l ls bs)).
      split_and!.
      + apply zget_Some. split; [lia|]. rewrite lookup_app_r by lia. by replace (Z.to_nat (2 * L) - length pre)%nat with 0%nat by lia.
      + apply zget_Some. split; [lia|]. rewrite lookup_app_r by lia. by replace (Z.to_nat (2 * L + 1) - length pre)%nat with 1%nat by lia.
      + replace (pre ++ e1 :: e2 :: rest) with ((pre ++ [e1; e2]) ++ rest) by (by rewrite <- app_assoc).
        apply IH; [rewrite length_app; simpl; lia|done]. }
  destruct (block_spec levels 0 0 [] s0) as (s' & Hst & (Hd & _ & _ & (_ & _ & Hm) & He) & _);
    [done|lia|done|lia|lia|simpl; lia|].
  assert (written levels 0 = true) as Hw by (by destruct levels). rewrite Hw in He. simpl in He.
  destruct (run_steps _ s0 s' (encode_steps (dim <$> levels)) Hst) as (fuel & _ & Hrun); [done|].
  exists s'. split.
  - rewrite Hrun. destruct fuel; simpl; unfold mbind, M_bind, gets; rewrite Hd; done.
  - destruct (encodes_result src levels 0 [0] _ _ ltac:(lia) He) as [H1 H2]; [lia|]. by rewrite drop_0 in H1.
Qed.
End encoding.
