(* ===== verification/SparsityDecoding.v ===== *)
(** * Reading the blocks back

    [Populate] visits the stored blocks in the order in which the encoding lists
    them and writes every stored element to its place. *)

From S2P Require Import Prelude SparsityFormat SparseBlocks SparsityEncoding.

Section decoding.
Context {T : Type} `{Scalar T} (src : list T).
Implicit Types (l : level) (ls : list level) (b : Z) (bs : list Z).

(** ** Stored blocks by position *)

Lemma stored_at l ls bs p b : bs !! p = Some b →
  stored src l ls bs = stored src l ls (take p bs) ++ sub_blocks src l ls b ++ stored src l ls (drop (S p) bs).
Proof.
  intros Hb. rewrite <- (take_drop_middle bs p b Hb) at 1. rewrite stored_app, stored_cons. done.
Qed.

Lemma indices_at l ls bs p b : bs !! p = Some b →
  indices src l ls bs = indices src l ls (take p bs) ++ stored_indices src l ls b ++ indices src l ls (drop (S p) bs).
Proof.
  intros Hb. rewrite <- (take_drop_middle bs p b Hb) at 1. rewrite indices_app, indices_cons. done.
Qed.

Lemma sub_blocks_length l ls b : length (sub_blocks src l ls b) = length (stored_indices src l ls b).
Proof. apply length_fmap. Qed.

Lemma leaves_nil ls : leaves src ls [] = [].
Proof. induction ls as [|l ls IH]; done. Qed.

Lemma leaves_bound ls bs : Forall (λ l, 0 < dim l) ls → zlen (leaves src ls bs) ≤ zlen bs * volume_of ls.
Proof.
  intros Hd. revert bs. induction Hd as [|l ls Hl Hls IH]; intros bs; cbn [leaves volume_of foldr]; [lia|].
  fold (volume_of ls). etrans; [apply IH|]. rewrite Z.mul_assoc.
  assert (0 < volume_of ls) by (clear -Hls; induction Hls as [|l ls Hl Hls IH]; simpl; nia).
  apply Z.mul_le_mono_nonneg_r; [lia|]. apply stored_bound. lia.
Qed.

Lemma stored_elem l ls bs y : y ∈ stored src l ls bs → ∃ b c, b ∈ bs ∧ 0 ≤ c < dim l ∧ y = b + c * off l.
Proof.
  unfold stored. intros (bl & Hbl & Hy)%concat_elem. apply list_elem_of_fmap in Hbl as (b & -> & Hb).
  unfold sub_blocks in Hy. apply list_elem_of_fmap in Hy as (c & -> & Hc).
  exists b, c. split_and!; [done|by eapply stored_indices_range..|done].
Qed.

Lemma leaves_range ls bs y : Forall (λ l, 0 < dim l ∧ 0 ≤ off l) ls → y ∈ leaves src ls bs →
  ∃ b, b ∈ bs ∧ b ≤ y ≤ b + span_of ls.
Proof.
  intros Hls. revert bs. induction Hls as [|l ls [Hd Ho] Hls IH]; intros bs; cbn [leaves span_of foldr].
  - intros Hy. exists y. split; [done|lia].
  - fold (span_of ls). intros (b' & Hb' & Hr)%IH. apply stored_elem in Hb' as (b & c & Hb & Hc & ->).
    exists b. split; [done|].
    assert (0 ≤ c * off l) by (apply Z.mul_nonneg_nonneg; lia).
    assert (off l * c ≤ off l * (dim l - 1)) by (apply Z.mul_le_mono_nonneg_l; lia). lia.
Qed.

(** ** What is stored *)

(** The indices of an element below a block. *)
Fixpoint position ls (ix : list Z) : Z :=
  match ls, ix with
  | l :: ls', i :: ix' => i * off l + position ls' ix'
  | _, _ => 0
  end.

Definition valid_indices ls (ix : list Z) : Prop := Forall2 (λ l i, 0 ≤ i < dim l) ls ix.

Lemma nonzero_position ls ix b : valid_indices ls ix → IsZero (element src (b + position ls ix)) = false →
  nonzero src ls b = true.
Proof.
  intros Hv. revert b. induction Hv as [|l i ls ix Hi Hv IH]; intros b; simpl.
  - rewrite Z.add_0_r. by intros ->.
  - intros Hz. apply existsb_exists. exists i. split; [apply list_elem_of_In, elem_of_range; lia|].
    apply IH. by rewrite <- Z.add_assoc.
Qed.

Lemma nonzero_stored ls ix b bs : valid_indices ls ix → b ∈ bs →
  IsZero (element src (b + position ls ix)) = false → b + position ls ix ∈ leaves src ls bs.
Proof.
  intros Hv. revert b bs. induction Hv as [|l i ls ix Hi Hv IH]; intros b bs Hb Hz; simpl in *.
  - by rewrite Z.add_0_r.
  - rewrite Z.add_assoc in *. apply IH; [|done]. unfold stored. apply concat_elem.
    exists (sub_blocks src l ls b). split; [apply list_elem_of_fmap; eauto|].
    unfold sub_blocks. apply list_elem_of_fmap. exists i. split; [done|]. unfold stored_indices.
    destruct (fmt l); [apply elem_of_range; lia|]. apply list_elem_of_filter.
    rewrite (nonzero_position ls ix) by done. split; [done|apply elem_of_range; lia].
Qed.

(** ** Writing *)

Definition write_all (bl : list Z) (dest : list T) : list T := foldl (λ d b, zset b (element src b) d) dest bl.

Lemma write_all_length bl dest : length (write_all bl dest) = length dest.
Proof.
  revert dest. induction bl as [|b bl IH]; intros dest; [done|]. simpl. by rewrite IH, zset_length.
Qed.

Lemma write_all_app bl bl' dest : write_all (bl ++ bl') dest = write_all bl' (write_all bl dest).
Proof. apply foldl_app. Qed.

Lemma write_all_lookup bl dest i : (∀ b, b ∈ bl → 0 ≤ b < zlen dest) →
  zget (write_all bl dest) i = if decide (i ∈ bl) then Some (element src i) else zget dest i.
Proof.
  induction bl as [|b bl IH] using rev_ind; intros Hbl.
  - rewrite decide_False by apply not_elem_of_nil. done.
  - rewrite write_all_app. simpl. assert (0 ≤ b < zlen dest) as Hb by (apply Hbl; in_list).
    assert (∀ j, zget (zset b (element src b) (write_all bl dest)) j =
      if decide (j = b) then Some (element src b) else zget (write_all bl dest) j) as Hset.
    { intros j. destruct (decide (j = b)) as [->|Hj].
      - apply zget_zset_eq. rewrite write_all_length. lia.
      - apply zget_zset_ne; [lia|congruence]. }
    rewrite Hset, IH by (intros b' ?; apply Hbl; in_list).
    destruct (decide (i = b)) as [->|Hi]; [by rewrite decide_True by in_list|].
    apply decide_ext. rewrite elem_of_app, list_elem_of_singleton. tauto.
Qed.

(** ** The traversal *)

Context (fc : FormatConverter T) (data : list T) (levels : list level).
Abbreviation N := (zlen levels).
Hypothesis Hfmt : format_ fc = fmt <$> levels.
Hypothesis Hpos : Forall (λ l, 0 < dim l ∧ 0 ≤ off l) levels.
Hypothesis Hposition : ∀ ix s, valid_indices levels ix → ∃ orig,
  original_index fc ix s = Done orig s ∧
  GetFlattenedIndex orig (dense_shape_ fc) s = Done (position levels ix) s.

Lemma position_app ls ls' ix ix' : length ls = length ix →
  position (ls ++ ls') (ix ++ ix') = position ls ix + position ls' ix'.
Proof.
  revert ix. induction ls as [|l ls IH]; intros [|i ix] Hlen; simplify_eq/=; [done|]. rewrite IH by done. lia.
Qed.

(** The block reached by the first [L] indices. *)
Definition reached (L : Z) (ix : list Z) b : Prop :=
  zlen ix = N ∧ valid_indices (take (Z.to_nat L) levels) (take (Z.to_nat L) ix) ∧
  b = position (take (Z.to_nat L) levels) (take (Z.to_nat L) ix).

Lemma reached_next L l ls ix b c : 0 ≤ L → drop (Z.to_nat L) levels = l :: ls → reached L ix b → 0 ≤ c < dim l →
  zget ix L = Some (vat 0 ix L) ∧ reached (L + 1) (zset L c ix) (b + c * off l).
Proof.
  intros HL Hd (Hlen & Hv & Hb) Hc.
  assert (levels !! Z.to_nat L = Some l) as Hl by (by rewrite <- (Nat.add_0_r (Z.to_nat L)), <- lookup_drop, Hd).
  pose proof (lookup_lt_Some _ _ _ Hl) as HLN. split; [apply vat_zget; lia|].
  assert (take (Z.to_nat (L + 1)) (zset L c ix) = take (Z.to_nat L) ix ++ [c]) as Ht.
  { replace (Z.to_nat (L + 1)) with (S (Z.to_nat L)) by lia. unfold zset.
    rewrite (take_S_r _ _ c) by (apply list_lookup_insert_eq; lia). by rewrite take_insert_ge by lia. }
  assert (take (Z.to_nat (L + 1)) levels = take (Z.to_nat L) levels ++ [l]) as Htl.
  { replace (Z.to_nat (L + 1)) with (S (Z.to_nat L)) by lia. by apply take_S_r. }
  split_and!; [by rewrite zset_length| |].
  - rewrite Ht, Htl. apply Forall2_app; [done|]. by constructor.
  - rewrite Ht, Htl, position_app by (rewrite !length_take; lia). simpl. lia.
Qed.

Definition source_bound ls bs : Prop := zlen bs * volume_of ls ≤ int32_max.

(** The state after the blocks [bl] of this level have been read. *)
Definition read ls bl written (dest : list T) (s : Decoder T) : Prop :=
  src_data_ptr s = zlen (leaves src ls bl) ∧ dest_data s = write_all (leaves src ls written) dest.

Definition reads ls : Prop := ∀ L bs p b ix (s : Decoder T), drop (Z.to_nat L) levels = ls → 0 ≤ L ≤ N →
  reached L ix b → bs !! p = Some b → encodes src ls L bs (dim_metadata_ fc) data → source_bound ls bs →
  b + span_of ls < zlen (dest_data s) → src_data_ptr s = zlen (leaves src ls (take p bs)) →
  wp (Populate fc data (length ls) ix L (Z.of_nat p))
    (λ _, read ls (take (S p) bs) [b] (dest_data s)) (λ _, False) s.

Lemma reached_nonneg L ix b : reached L ix b → 0 ≤ b.
Proof.
  intros (_ & Hv & ->). assert (Forall (λ l, 0 < dim l ∧ 0 ≤ off l) (take (Z.to_nat L) levels)) as Hp by (by apply Forall_take).
  revert Hp Hv. generalize (take (Z.to_nat L) levels), (take (Z.to_nat L) ix). clear.
  induction l as [|l ls IH]; intros ix Hp Hv; [done|]. inversion Hv; subst. inversion Hp; subst. simpl.
  match goal with H : Forall2 _ _ _, H' : Forall _ _ |- _ => specialize (IH _ H' H) end.
  assert (0 ≤ y * off l) by (apply Z.mul_nonneg_nonneg; lia). lia.
Qed.

Lemma read_element : reads [].
Proof.
  intros L bs p b ix s Hd HL Hr Hb He Hbound Hspan Hptr. simpl in He, Hptr, Hspan.
  pose proof (reached_nonneg L ix b Hr) as Hb0.
  pose proof Hr as (Hlen & Hv & Hpos'). assert (Z.to_nat L = length levels) as HLN.
  { pose proof (f_equal length Hd) as Hl. rewrite length_drop in Hl. simpl in Hl. lia. }
  rewrite HLN, (take_ge levels), (take_ge ix) in * by lia.
  assert (p < length bs)%nat as Hp by (by eapply lookup_lt_Some).
  unfold source_bound in Hbound. simpl in Hbound.
  cbn [Populate length]. rewrite (proj2 (Z.eqb_eq L (zlen ix))) by lia.
  destruct (Hposition ix s Hv) as (orig & Ho & Hf).
  unfold populate_element. apply wp_bind. unfold wp at 1. rewrite Ho. apply wp_bind. unfold wp at 1. rewrite Hf.
  rewrite <- Hpos'. rewrite length_take in Hptr. wp_steps.
  eapply wp_at; [apply zget_Some; split; [lia|]|].
  { rewrite Hptr. replace (Z.to_nat (Z.of_nat (p `min` length bs))) with p by lia. by rewrite He, list_lookup_fmap, Hb. }
  wp_steps. apply wp_upd; [lia|]. wp_steps. apply wp_int32.
  { rewrite Hptr. unfold is_int32, int32_min, int32_max in *. lia. }
  wp_steps. split; simpl; [rewrite Hptr, length_take; lia|done].
Qed.

(** One of the indices of a level: the [j]-th that is stored. *)
Lemma read_index L l ls bs p b ix dest j c (s : Decoder T) : reads ls → 0 ≤ L →
  drop (Z.to_nat L) levels = l :: ls → reached L ix b → bs !! p = Some b →
  encodes src ls (L + 1) (stored src l ls bs) (dim_metadata_ fc) data → source_bound (l :: ls) bs →
  b + span_of (l :: ls) < zlen dest → stored_indices src l ls b !! j = Some c →
  read ls (stored src l ls (take p bs) ++ take j (sub_blocks src l ls b)) (take j (sub_blocks src l ls b)) dest s →
  wp (Populate fc data (length ls) (zset L c ix) (L + 1) (zlen (stored src l ls (take p bs)) + Z.of_nat j))
    (λ _, read ls (stored src l ls (take p bs) ++ take (S j) (sub_blocks src l ls b)) (take (S j) (sub_blocks src l ls b)) dest)
    (λ _, False) s.
Proof.
  intros Hread HL Hd Hr Hb He Hbound Hspan Hj [Hptr Hdest].
  assert (levels !! Z.to_nat L = Some l) as Hl by (by rewrite <- (Nat.add_0_r (Z.to_nat L)), <- lookup_drop, Hd).
  pose proof (lookup_lt_Some _ _ _ Hl) as HLN.
  assert (drop (Z.to_nat (L + 1)) levels = ls) as Hd'.
  { rewrite (drop_S _ _ _ Hl) in Hd. simplify_eq. f_equal. lia. }
  pose proof (Forall_lookup_1 _ _ _ _ Hpos Hl) as [Hd0 Ho0].
  assert (0 ≤ c < dim l) as Hc by (eapply stored_indices_range, list_elem_of_lookup_2; exact Hj).
  destruct (reached_next L l ls ix b c HL Hd Hr Hc) as [_ Hr'].
  set (q := length (stored src l ls (take p bs))).
  assert (sub_blocks src l ls b !! j = Some (b + c * off l)) as Hsub.
  { unfold sub_blocks. by rewrite list_lookup_fmap, Hj. }
  pose proof (lookup_lt_Some _ _ _ Hsub) as Hjl.
  pose proof (stored_at l ls bs p b Hb) as Hst.
  assert (stored src l ls bs !! (q + j)%nat = Some (b + c * off l)) as Hq.
  { rewrite Hst, lookup_app_r by (unfold q; lia). rewrite lookup_app_l by (unfold q; lia).
    by replace (q + j - length _)%nat with j by (unfold q; lia). }
  assert (∀ n, (n ≤ length (sub_blocks src l ls b))%nat → take (q + n) (stored src l ls bs) =
    stored src l ls (take p bs) ++ take n (sub_blocks src l ls b)) as Htake.
  { intros n Hn. rewrite Hst. unfold q. rewrite take_app_add. by rewrite take_app_le by lia. }
  assert (0 ≤ span_of ls) as Hsp.
  { assert (Forall (λ l, 0 < dim l ∧ 0 ≤ off l) ls) as Hp by (rewrite <- Hd'; by apply Forall_drop).
    clear - Hp. induction Hp as [|l ls Hl Hls IH]; simpl; [lia|]. nia. }
  assert (0 < volume_of ls) as Hv.
  { assert (Forall (λ l, 0 < dim l ∧ 0 ≤ off l) ls) as Hp by (rewrite <- Hd'; by apply Forall_drop).
    clear - Hp. induction Hp as [|l ls Hl Hls IH]; simpl; [lia|]. nia. }
  fold q. rewrite <- Nat2Z.inj_add.
  eapply wp_post; [|apply (Hread (L + 1) (stored src l ls bs) (q + j)%nat (b + c * off l)); try done; [lia| | |]].
  - intros _ s' [Hptr' Hdest']. split.
    + rewrite Hptr'. replace (S (q + j)) with (q + S j)%nat by lia. by rewrite Htake by lia.
    + rewrite Hdest', Hdest, <- write_all_app. f_equal. rewrite (take_S_r _ _ _ Hsub), leaves_app. done.
  - unfold source_bound in *. cbn [volume_of foldr] in Hbound. fold (volume_of ls) in Hbound.
    rewrite Z.mul_assoc in Hbound. etrans; [|exact Hbound]. apply Z.mul_le_mono_nonneg_r; [lia|]. apply stored_bound. lia.
  - rewrite Hdest, write_all_length. cbn [span_of foldr] in Hspan. fold (span_of ls) in Hspan.
    assert (off l * c ≤ off l * (dim l - 1)) by (apply Z.mul_le_mono_nonneg_l; lia). lia.
  - rewrite Hptr. by rewrite Htake by lia.
Qed.

(** *** A level of the traversal *)

Section level.
Context (l : level) (ls : list level) (L : Z) (bs : list Z) (p : nat) (b : Z) (ix : list Z) (s : Decoder T).
Hypothesis IH : reads ls.
Hypothesis Hd : drop (Z.to_nat L) levels = l :: ls.
Hypothesis HL : 0 ≤ L ≤ N.
Hypothesis Hr : reached L ix b.
Hypothesis Hb : bs !! p = Some b.
Hypothesis He : encodes src (l :: ls) L bs (dim_metadata_ fc) data.
Hypothesis Hbound : source_bound (l :: ls) bs.
Hypothesis Hspan : b + span_of (l :: ls) < zlen (dest_data s).
Hypothesis Hptr : src_data_ptr s = zlen (leaves src (l :: ls) (take p bs)).

Lemma level_lookup : zget levels L = Some l.
Proof.
  apply zget_Some. split; [lia|]. by rewrite <- (Nat.add_0_r (Z.to_nat L)), <- lookup_drop, Hd.
Qed.

Lemma level_lookup_format f : fmt l = f → zget (format_ fc) L = Some f.
Proof. intros <-. by rewrite Hfmt, zget_fmap, level_lookup. Qed.

(** The level is one of those of the traversal and the blocks fit an [int]. *)
Lemma level_bounds :
  0 ≤ L < N ∧ zlen ix = N ∧ 0 < dim l ∧ (p < length bs)%nat ∧ zlen bs * dim l ≤ int32_max ∧
  zlen bs ≤ int32_max.
Proof.
  pose proof level_lookup as Hl. pose proof (zget_range _ _ _ Hl) as HLN.
  pose proof (Forall_drop _ (Z.to_nat L) levels Hpos) as Hpl. rewrite Hd in Hpl.
  apply Forall_cons in Hpl as [[Hd0 Ho0] Hpl].
  assert (0 < volume_of ls) as Hv.
  { clear - Hpl. induction Hpl as [|l ls Hl Hls IH]; simpl; [lia|]. nia. }
  pose proof (lookup_lt_Some _ _ _ Hb) as Hp. pose proof Hr as (Hlen & _).
  unfold source_bound in Hbound. cbn [volume_of foldr] in Hbound. fold (volume_of ls) in Hbound.
  assert (zlen bs * dim l ≤ int32_max) by (clear - Hbound Hd0 Hv; nia).
  split_and!; [lia|lia|done|done|done|done|clear - Hd0 H0; nia].
Qed.

(** What has been read after [j] of the indices below [b]. *)
Definition level_read (j : nat) : Decoder T → Prop :=
  read ls (stored src l ls (take p bs) ++ take j (sub_blocks src l ls b)) (take j (sub_blocks src l ls b))
    (dest_data s).

Lemma level_read_0 : level_read 0 s.
Proof. unfold level_read. rewrite take_0, app_nil_r. split; [exact Hptr|]. by rewrite leaves_nil. Qed.

Lemma level_read_all s' : level_read (length (stored_indices src l ls b)) s' →
  read (l :: ls) (take (S p) bs) [b] (dest_data s) s'.
Proof.
  intros [H1 H2]. rewrite (take_ge (sub_blocks src l ls b)) in H1, H2 by (rewrite sub_blocks_length; done).
  split; simpl; [|by rewrite stored_one]. rewrite (take_S_r _ _ _ Hb), stored_app, stored_one. done.
Qed.

Lemma level_read_next {A} (done : list A) c s' :
  stored_indices src l ls b !! length done = Some c → level_read (length done) s' → ∀ x,
  wp (Populate fc data (length ls) (zset L c ix) (L + 1) (zlen (stored src l ls (take p bs)) + zlen done))
    (λ _, level_read (length (done ++ [x]))) (λ _, False) s'.
Proof.
  intros Hj Hinv x. rewrite length_app. cbn [length]. rewrite Nat.add_1_r. destruct He as (_ & _ & He').
  by apply (read_index L l ls bs p b ix (dest_data s) (length done) c s' IH (proj1 HL) Hd).
Qed.

Lemma level_dense : fmt l = kTfLiteDimDense →
  wp (Populate fc data (S (length ls)) ix L (Z.of_nat p)) (λ _, read (l :: ls) (take (S p) bs) [b] (dest_data s))
    (λ _, False) s.
Proof.
  intros Hf. pose proof level_bounds as (HLN & Hlen & Hd0 & Hp & Hbd & Hbs). destruct He as (Hm1 & _ & _).
  unfold level_encoding in Hm1. rewrite Hf in Hm1. cbn [fst] in Hm1.
  cbn [Populate]. rewrite (proj2 (Z.eqb_neq L (zlen ix))) by lia. wp_steps.
  eapply wp_at; [exact Hm1|]. wp_steps. eapply wp_at; [reflexivity|]. wp_steps.
  eapply wp_at; [exact (level_lookup_format _ Hf)|]. simpl.
  assert (stored_indices src l ls b = range 0 (dim l)) as HJ by (unfold stored_indices; by rewrite Hf).
  eapply wp_post; [|apply (wp_for_each (λ done s', level_read (length done) s')); [apply level_read_0|]]; simpl.
  { intros [] s' Hinv. apply level_read_all. by rewrite HJ. }
  intros done i todo s' Heq Hinv. destruct (range_split _ _ _ _ Heq) as [Hi Hid].
  assert (stored_indices src l ls b !! length done = Some i) as Hj by (rewrite HJ, Heq; apply lookup_split).
  assert (zlen (stored src l ls (take p bs)) = Z.of_nat p * dim l) as Hq.
  { rewrite dense_length by (done || lia). rewrite length_take. do 2 f_equal. lia. }
  assert ((Z.of_nat p + 1) * dim l ≤ zlen bs * dim l) as Hpd by (apply Z.mul_le_mono_nonneg_r; lia).
  assert (0 ≤ Z.of_nat p * dim l) as Hpd0 by (apply Z.mul_nonneg_nonneg; lia).
  wp_steps. apply wp_upd; [lia|]. wp_steps.
  apply wp_int32; [unfold is_int32, int32_min, int32_max in *; lia|]. wp_steps.
  apply wp_int32; [unfold is_int32, int32_min, int32_max in *; lia|]. wp_steps.
  pose proof (level_read_next done i s' Hj Hinv i) as Hstep. rewrite Hq, <- Hi in Hstep. exact Hstep.
Qed.

Lemma segment_at n : (n ≤ length bs)%nat →
  zget (segments src l ls bs) (Z.of_nat n) = Some (zlen (indices src l ls (take n bs))).
Proof. intros Hn. apply zget_Some. split; [lia|]. rewrite Nat2Z.id. by apply segments_lookup. Qed.

(** The entry of the index array for the [n]-th index below [b]. *)
Lemma index_at n : (n < length (stored_indices src l ls b))%nat →
  ∃ c, stored_indices src l ls b !! n = Some c ∧
    zget (indices src l ls bs) (zlen (indices src l ls (take p bs)) + Z.of_nat n) = Some c ∧
    zlen (indices src l ls bs) ≤ int32_max.
Proof.
  intros Hn. destruct (lookup_lt_is_Some_2 _ _ Hn) as [c Hj]. exists c. split; [done|].
  pose proof level_bounds as (_ & _ & Hd0 & _ & Hbd & _). split.
  - apply zget_Some. split; [lia|].
    rewrite (indices_at l ls bs p b Hb), lookup_app_r by lia. rewrite lookup_app_l by lia.
    by replace (Z.to_nat _ - _)%nat with n by lia.
  - rewrite <- stored_length. etrans; [apply stored_bound; lia|done].
Qed.

Lemma level_sparse : fmt l = kTfLiteDimSparseCSR →
  wp (Populate fc data (S (length ls)) ix L (Z.of_nat p)) (λ _, read (l :: ls) (take (S p) bs) [b] (dest_data s))
    (λ _, False) s.
Proof.
  intros Hf. pose proof level_bounds as (HLN & Hlen & Hd0 & Hp & Hbd & Hbs). destruct He as (Hm1 & Hm2 & _).
  unfold level_encoding in Hm1, Hm2. rewrite Hf in Hm1, Hm2. cbn [fst snd] in Hm1, Hm2.
  pose proof (segments_length src l ls bs) as Hsl. pose proof segment_at as Hseg.
  revert Hm1 Hsl Hseg. generalize (segments src l ls bs). intros segs Hm1 Hsl Hseg.
  set (first := zlen (indices src l ls (take p bs))). set (J := stored_indices src l ls b).
  assert (zlen (indices src l ls (take (S p) bs)) = first + zlen J) as Hlast.
  { rewrite (take_S_r _ _ _ Hb), indices_app, indices_one, length_app. unfold first, J. lia. }
  cbn [Populate]. rewrite (proj2 (Z.eqb_neq L (zlen ix))) by lia. wp_steps.
  eapply wp_at; [exact Hm1|]. wp_steps. eapply wp_at; [exact (Hseg 0%nat ltac:(lia))|]. wp_steps.
  eapply wp_at; [exact (level_lookup_format _ Hf)|]. simpl. wp_steps.
  apply wp_int32; [unfold is_int32, int32_min, int32_max in *; lia|]. wp_steps.
  rewrite u64_id by (unfold is_size, size_max, int32_max in *; lia).
  rewrite (proj2 (Z.ltb_lt (Z.of_nat p + 1) (zlen segs))) by lia. wp_steps. eapply wp_at; [exact Hm2|]. wp_steps.
  eapply wp_at; [exact (Hseg p ltac:(lia))|]. wp_steps.
  eapply wp_at; [replace (Z.of_nat p + 1) with (Z.of_nat (S p)) by lia; exact (Hseg (S p) ltac:(lia))|].
  fold first. rewrite Hlast.
  eapply wp_post; [|apply (wp_for_each (λ done s', level_read (length done) s')); [apply level_read_0|]]; simpl.
  { intros [] s' Hinv. apply level_read_all. rewrite range_length in Hinv.
    by replace (Z.to_nat (first + zlen J - first)) with (length J) in Hinv by lia. }
  intros done i todo s' Heq Hinv.
  assert (range first (first + zlen J) !! length done = Some i) as Hi by (rewrite Heq; apply lookup_split).
  unfold range in Hi. apply lookup_seqZ in Hi as [-> Hi].
  destruct (index_at (length done)) as (c & Hj & Hc & Hib); [fold J; lia|].
  pose proof (zget_range _ _ _ Hc) as Hcl. fold first in Hc, Hcl.
  rewrite u64_id by (unfold is_size, size_max, int32_max in *; lia).
  rewrite (proj2 (Z.ltb_lt _ _)) by lia. rewrite (proj2 (Z.ltb_lt L _)) by lia. cbn [andb].
  wp_steps. eapply wp_at; [exact Hc|]. wp_steps. apply wp_upd; [lia|].
  pose proof (level_read_next done c s' Hj Hinv (first + zlen done)) as Hstep.
  rewrite stored_length in Hstep. exact Hstep.
Qed.
End level.

Lemma populate_spec ls : reads ls.
Proof.
  induction ls as [|l ls IH]; [apply read_element|].
  intros L bs p b ix s Hd HL Hr Hb He Hbound Hspan Hptr. simpl length.
  destruct (fmt l) eqn:Hf; [by apply level_dense|by apply level_sparse].
Qed.
End decoding.
