(* ===== verification/SparsityLayout.v ===== *)
(** * The layout of a blocked tensor

    How the dimensions of a tensor and their blocks make up the levels of the
    traversal: sizes, offsets, and the one-to-one relation between the indices
    of the levels and the positions of the dense data. *)

From S2P Require Import Prelude TensorLayout SparsityFormat SparseBlocks SparsityEncoding SparsityDecoding.

(** ** Configurations *)

Section configuration.
Context (shape traversal : list Z) (formats : list TfLiteDimensionType) (block_size block_map : list Z).
Abbreviation rank := (zlen shape).
Abbreviation nb := (zlen block_map).
Abbreviation N := (rank + nb).

Record valid_config : Prop := {
  config_rank : shape ≠ [];
  config_dims : Forall (λ d, 0 < d) shape;
  config_size : N * volume shape ≤ int32_max;
  config_formats : (length shape ≤ length formats)%nat;
  config_blocks : length block_size = length block_map;
  config_sorted : StronglySorted Z.lt block_map;
  config_mapped : ∀ j d b, zget block_map j = Some d → zget block_size j = Some b →
    0 < b ∧ ∃ x, zget shape d = Some x ∧ (b | x);
  config_original : take (length shape) traversal ≡ₚ range 0 rank;
  config_inner : drop (length shape) traversal ≡ₚ range rank N
}.

(** The size of the blocks of a dimension, 1 if it has none. *)
Definition block_of (d : Z) : Z :=
  match list_find (λ e, e = d) block_map with Some (j, _) => vat 1 block_size (Z.of_nat j) | None => 1 end.

(** The expanded dimensions: those of the tensor, then those of the blocks. *)
Definition dim_of (e : Z) : Z := if e <? rank then vat 1 shape e / block_of e else vat 1 block_size (e - rank).
Definition off_of (e : Z) : Z := if e <? rank then stride shape e * block_of e else stride shape (vat 0 block_map (e - rank)).
Definition fmt_of (i : Z) : TfLiteDimensionType :=
  if i <? rank then vat kTfLiteDimDense formats (vat 0 traversal i) else kTfLiteDimDense.

Definition level_of (i : Z) : level :=
  {| fmt := fmt_of i; dim := dim_of (vat 0 traversal i); off := off_of (vat 0 traversal i) |}.

Definition config_levels : list level := level_of <$> range 0 N.

Hypothesis Hwf : valid_config.

Lemma dims_pos : Forall (λ d, 0 < d) shape.
Proof. apply Hwf. Qed.

Lemma mapped_nodup : NoDup block_map.
Proof.
  assert (StronglySorted Z.lt block_map) as Hs by apply Hwf. clear - Hs.
  induction Hs as [|x l Hs IH Hx]; constructor; [|done]. intros Hin. rewrite Forall_forall in Hx. specialize (Hx x Hin). lia.
Qed.

Lemma mapped_block j d : zget block_map j = Some d → ∃ b x, zget block_size j = Some b ∧ block_of d = b ∧ 0 < b ∧
  zget shape d = Some x ∧ (b | x).
Proof.
  intros Hj. pose proof (zget_range _ _ _ Hj) as Hr. pose proof (config_blocks Hwf) as Hlen.
  destruct (zget_is_Some block_size j) as [b Hb]; [lia|].
  destruct (config_mapped Hwf j d b Hj Hb) as (Hpos & x & Hx & Hdiv). exists b, x. split_and!; try done.
  unfold block_of. apply zget_Some in Hj as [Hj0 Hj].
  destruct (list_find (λ e, e = d) block_map) as [[i e]|] eqn:Hf.
  - apply list_find_Some in Hf as (Hi & -> & _). assert (i = Z.to_nat j) as -> by (by eapply NoDup_lookup; [apply mapped_nodup|..]).
    rewrite Z2Nat.id by done. unfold vat. by rewrite Hb.
  - exfalso. apply list_find_None in Hf. rewrite Forall_lookup in Hf. by apply (Hf (Z.to_nat j) d).
Qed.

Lemma unmapped_block d : (d ∉ block_map) → block_of d = 1.
Proof.
  intros Hd. unfold block_of. destruct (list_find (λ e, e = d) block_map) as [[i e]|] eqn:Hf; [|done].
  apply list_find_Some in Hf as (Hi & -> & _). exfalso. apply Hd. by eapply list_elem_of_lookup_2.
Qed.

(** A dimension splits into its blocked size and its block. *)
Lemma dim_split d x : zget shape d = Some x → 0 < block_of d ∧ x = dim_of d * block_of d ∧ 0 < dim_of d.
Proof.
  intros Hx. pose proof (zget_range _ _ _ Hx) as Hr.
  assert (0 < x) as Hx0 by (apply zget_elem in Hx; pose proof dims_pos as Hp; rewrite Forall_forall in Hp; auto).
  unfold dim_of. rewrite (proj2 (Z.ltb_lt _ _)) by lia. unfold vat. rewrite Hx. simpl.
  destruct (decide (d ∈ block_map)) as [Hd|Hd].
  - apply list_elem_of_lookup in Hd as [j Hj].
    destruct (mapped_block (Z.of_nat j) d) as (b & x' & Hb & Hbd & Hb0 & Hx' & [q ->]).
    { apply zget_Some. split; [lia|]. by rewrite Nat2Z.id. }
    simplify_eq. rewrite Z.div_mul by lia. split_and!; [done|done|nia].
  - rewrite (unmapped_block d Hd), Z.div_1_r. lia.
Qed.

Lemma traversal_length : zlen traversal = N.
Proof.
  pose proof (Permutation_length (config_original Hwf)) as H1. pose proof (Permutation_length (config_inner Hwf)) as H2.
  rewrite range_length, length_take in H1. rewrite range_length, length_drop in H2. lia.
Qed.

Lemma traversal_perm : traversal ≡ₚ range 0 N.
Proof.
  rewrite <- (take_drop (length shape) traversal), (config_original Hwf), (config_inner Hwf).
  by rewrite <- range_app by lia.
Qed.

Lemma traversal_original i e : zget traversal i = Some e → i < rank → 0 ≤ e < rank.
Proof.
  intros He Hi. apply zget_Some in He as [Hi0 He]. apply elem_of_range. rewrite <- (config_original Hwf).
  apply list_elem_of_lookup. exists (Z.to_nat i). by rewrite lookup_take_lt by lia.
Qed.

Lemma traversal_inner i e : zget traversal i = Some e → rank ≤ i → rank ≤ e < N.
Proof.
  intros He Hi. apply zget_Some in He as [Hi0 He]. apply elem_of_range. rewrite <- (config_inner Hwf).
  apply list_elem_of_lookup. exists (Z.to_nat i - length shape)%nat. rewrite lookup_drop.
  by replace (length shape + (Z.to_nat i - length shape))%nat with (Z.to_nat i) by lia.
Qed.

Lemma traversal_nodup : NoDup traversal.
Proof. rewrite traversal_perm. unfold range. apply NoDup_seqZ. Qed.

(** ** The levels *)

Lemma expanded_bounds e : 0 ≤ e < N → 0 < dim_of e ∧ 0 < off_of e ∧ off_of e * dim_of e ≤ volume shape ∧
  dim_of e ≤ volume shape ∧ off_of e ≤ volume shape.
Proof.
  intros He. enough (0 < dim_of e ∧ 0 < off_of e ∧ off_of e * dim_of e ≤ volume shape) by nia.
  destruct (decide (e < rank)) as [Hr|Hr].
  - destruct (zget_is_Some shape e) as [x Hx]; [lia|]. destruct (dim_split e x Hx) as (Hb & Hxe & Hd).
    destruct (stride_bound shape e x dims_pos Hx) as [Hs Hsx].
    unfold off_of. rewrite (proj2 (Z.ltb_lt e _)) by lia. split_and!; [done|nia|]. rewrite Hxe in Hsx. lia.
  - destruct (zget_is_Some block_map (e - rank)) as [d Hd]; [lia|].
    destruct (mapped_block _ d Hd) as (b & x & Hb & Hbd & Hb0 & Hx & [q Hq]).
    destruct (stride_bound shape d x dims_pos Hx) as [Hs Hsx].
    assert (0 < x) as Hx0 by (apply zget_elem in Hx; pose proof dims_pos as Hp; rewrite Forall_forall in Hp; auto).
    unfold off_of, dim_of. rewrite !(proj2 (Z.ltb_ge e _)) by lia. unfold vat. rewrite Hd, Hb. simpl.
    assert (b ≤ x) as Hbx by (apply Z.divide_pos_le; [done|by exists q]). split_and!; [done|done|].
    assert (stride shape d * b ≤ stride shape d * x) by (apply Z.mul_le_mono_nonneg_l; lia). lia.
Qed.

Lemma config_levels_length : length config_levels = Z.to_nat N.
Proof. unfold config_levels. by rewrite length_fmap, range_length, Z.sub_0_r. Qed.

Lemma config_level i : 0 ≤ i < N → zget config_levels i = Some (level_of i).
Proof.
  intros Hi. unfold config_levels. rewrite zget_fmap. unfold zget, range. rewrite (proj2 (Z.leb_le 0 i)) by lia.
  rewrite lookup_seqZ_lt by lia. simpl. do 2 f_equal. lia.
Qed.

Lemma level_elem l : l ∈ config_levels → ∃ i, 0 ≤ i < N ∧ l = level_of i ∧ 0 ≤ vat 0 traversal i < N.
Proof.
  unfold config_levels. intros (i & -> & Hi%elem_of_range)%list_elem_of_fmap. exists i. split_and!; [lia|lia|done| |];
    (assert (vat 0 traversal i ∈ range 0 N) as Hr%elem_of_range; [|lia]);
    rewrite <- traversal_perm; (eapply zget_elem, vat_zget); rewrite traversal_length; lia.
Qed.

Lemma volume_fits : 0 < volume shape ≤ int32_max.
Proof.
  pose proof (volume_pos shape dims_pos). pose proof (config_size Hwf). pose proof (config_rank Hwf).
  assert (1 ≤ N) by (destruct shape; [done|simpl; lia]). nia.
Qed.


Lemma levels_bounds : Forall (λ l, 0 < dim l ∧ 0 ≤ off l ∧ off l * dim l ≤ int32_max) config_levels.
Proof.
  apply Forall_forall. intros l (i & Hi & -> & Hr)%level_elem. simpl.
  destruct (expanded_bounds _ Hr) as (H1 & H2 & H3 & _). pose proof volume_fits. split_and!; lia.
Qed.

Lemma levels_dims l : l ∈ config_levels → dim l ≤ int32_max.
Proof.
  intros (i & Hi & -> & Hr)%level_elem. destruct (expanded_bounds _ Hr) as (_ & _ & _ & Hd & _).
  pose proof volume_fits. simpl. lia.
Qed.

Lemma levels_offsets : offsets_of config_levels ≤ int32_max.
Proof.
  etrans; [|apply Hwf]. enough (∀ ls, (∀ l, l ∈ ls → off l ≤ volume shape) → offsets_of ls ≤ zlen ls * volume shape) as Hls.
  { etrans; [apply Hls|by rewrite config_levels_length, Z2Nat.id by lia].
    intros l (i & Hi & -> & Hr)%level_elem. by destruct (expanded_bounds _ Hr) as (_ & _ & _ & _ & ?). }
  induction ls as [|l ls IH]; intros Hl; cbn [offsets_of foldr length]; [lia|]. fold (offsets_of ls).
  assert (off l ≤ volume shape) by (apply Hl; by left).
  assert (offsets_of ls ≤ zlen ls * volume shape) by (apply IH; intros l' ?; apply Hl; by right). lia.
Qed.

(** *** The number of elements *)

Lemma mapped_range d : d ∈ block_map → d ∈ range 0 rank.
Proof.
  intros [j Hj]%list_elem_of_lookup. destruct (mapped_block (Z.of_nat j) d) as (b & x & _ & _ & _ & Hx & _).
  { apply zget_Some. split; [lia|]. by rewrite Nat2Z.id. }
  apply zget_range in Hx. apply elem_of_range. lia.
Qed.

(** A sum over the expanded dimensions, in two parts. *)
Lemma expanded_parts {A} (f : Z → A) : f <$> range 0 N = (f <$> range 0 rank) ++ ((λ j, f (rank + j)) <$> range 0 nb).
Proof. rewrite (range_app 0 rank N) by lia. rewrite fmap_app, (range_from rank nb), <- list_fmap_compose by lia. done. Qed.

Lemma levels_volume : volume_of config_levels = volume shape.
Proof.
  assert (volume_of config_levels = volume (dim <$> config_levels)) as ->.
  { unfold volume_of, volume. induction config_levels as [|l ls IH]; [done|]. simpl. by rewrite IH. }
  unfold config_levels. rewrite <- list_fmap_compose.
  assert ((dim ∘ level_of) <$> range 0 N = dim_of <$> ((λ i, vat 0 traversal i) <$> range 0 N)) as -> by (by rewrite <- list_fmap_compose).
  rewrite <- traversal_length, vat_range. rewrite (volume_perm _ _ (fmap_Permutation dim_of _ _ traversal_perm)).
  rewrite expanded_parts, volume_app.
  rewrite (volume_ext (λ j, dim_of (rank + j)) (vat 1 block_size)).
  2: { intros j Hj%elem_of_range. unfold dim_of. rewrite (proj2 (Z.ltb_ge _ _)) by lia. f_equal. lia. }
  assert (volume (vat 1 block_size <$> range 0 nb) = volume (block_of <$> range 0 rank)) as ->.
  { rewrite (volume_part block_of (range 0 rank) block_map); [|unfold range; apply NoDup_seqZ|apply mapped_nodup|apply mapped_range|].
    - rewrite <- (vat_range 0 block_map) at 2. rewrite <- list_fmap_compose. apply volume_ext. intros j Hj%elem_of_range. simpl.
      destruct (mapped_block j (vat 0 block_map j)) as (b & x & Hb & -> & _); [apply vat_zget; lia|]. unfold vat. by rewrite Hb.
    - intros d _ Hd. by apply unmapped_block. }
  rewrite <- volume_mul. rewrite <- (vat_range 1 shape) at 2. apply volume_ext. intros d Hd%elem_of_range.
  destruct (zget_is_Some shape d) as [x Hx]; [lia|]. destruct (dim_split d x Hx) as (_ & Hxd & _). unfold vat. by rewrite Hx.
Qed.

(** *** Every position is reached *)

Lemma position_sum (v : Z → Z) :
  position config_levels (v <$> traversal) = total ((λ e, v e * off_of e) <$> range 0 N).
Proof.
  rewrite <- traversal_perm. unfold config_levels. rewrite <- (vat_range 0 traversal) at 1 2.
  rewrite traversal_length, <- !list_fmap_compose.
  induction (range 0 N) as [|i l IH]; [done|]. rewrite !fmap_cons, total_cons, <- IH. done.
Qed.

Lemma flat_parts orig : (∀ d, 0 ≤ d < rank → 0 ≤ orig d) →
  total ((λ e, (if e <? rank then orig e / block_of e
                else let d := vat 0 block_map (e - rank) in orig d mod block_of d) * off_of e) <$> range 0 N) = flat shape orig.
Proof.
  intros Hor. rewrite expanded_parts, total_app.
  rewrite (total_ext _ (λ d, (orig d - orig d mod block_of d) * stride shape d) (range 0 rank)).
  2: { intros d Hd%elem_of_range. rewrite (proj2 (Z.ltb_lt _ _)) by lia. unfold off_of. rewrite (proj2 (Z.ltb_lt _ _)) by lia.
       destruct (zget_is_Some shape d) as [x Hx]; [lia|]. destruct (dim_split d x Hx) as (Hb & _).
       pose proof (Z.div_mod (orig d) (block_of d) ltac:(lia)) as Hdm. replace (orig d - orig d mod block_of d) with (block_of d * (orig d / block_of d)) by lia. lia. }
  rewrite (total_ext _ (λ j, (λ d, (orig d mod block_of d) * stride shape d) (vat 0 block_map j)) (range 0 nb)).
  2: { intros j Hj%elem_of_range. rewrite (proj2 (Z.ltb_ge _ _)) by lia. unfold off_of. rewrite (proj2 (Z.ltb_ge _ _)) by lia.
       cbv zeta. by replace (rank + j - rank) with j by lia. }
  assert (total ((λ j, (λ d, (orig d mod block_of d) * stride shape d) (vat 0 block_map j)) <$> range 0 nb) =
    total ((λ d, (orig d mod block_of d) * stride shape d) <$> range 0 rank)) as ->.
  { rewrite (total_part _ (range 0 rank) block_map); [|unfold range; apply NoDup_seqZ|apply mapped_nodup|apply mapped_range|].
    - rewrite <- (vat_range 0 block_map) at 2. by rewrite <- list_fmap_compose.
    - intros d _ Hd. rewrite unmapped_block by done. by rewrite Z.mod_1_r. }
  rewrite <- total_sum. apply total_ext. intros d _. lia.
Qed.

Lemma position_onto y : 0 ≤ y < volume shape → ∃ ix, valid_indices config_levels ix ∧ position config_levels ix = y.
Proof.
  intros Hy. destruct (flat_digits shape y dims_pos Hy) as [Hf Hr]. set (orig := vat 0 (digits shape y)) in *.
  set (v := λ e, if e <? rank then orig e / block_of e
                 else let d := vat 0 block_map (e - rank) in orig d mod block_of d).
  exists (v <$> traversal). split.
  - unfold valid_indices, config_levels. rewrite <- (vat_range 0 traversal), traversal_length, <- list_fmap_compose.
    apply Forall2_fmap, Forall_Forall2_diag, Forall_forall. intros i Hi%elem_of_range. cbn [dim level_of compose].
    assert (0 ≤ vat 0 traversal i < N) as He.
    { apply elem_of_range. rewrite <- traversal_perm. eapply zget_elem, vat_zget. rewrite traversal_length. lia. }
    unfold v. destruct (Z.ltb_spec (vat 0 traversal i) rank) as [Hlt|Hge].
    + destruct (zget_is_Some shape (vat 0 traversal i)) as [x Hx]; [lia|]. destruct (dim_split _ x Hx) as (Hb & Hxd & Hd).
      specialize (Hr _ x Hx). split; [apply Z.div_pos; lia|]. apply Z.div_lt_upper_bound; lia.
    + set (j := vat 0 traversal i - rank) in *. destruct (mapped_block j (vat 0 block_map j)) as (b & x & Hb & Hbd & Hb0 & _).
      { apply vat_zget. lia. }
      cbv zeta. rewrite Hbd. unfold dim_of. rewrite (proj2 (Z.ltb_ge _ _)) by lia. fold j.
      assert (vat 1 block_size j = b) as -> by (unfold vat; by rewrite Hb). apply Z.mod_pos_bound. lia.
  - rewrite position_sum. unfold v. rewrite flat_parts; [done|]. intros d Hd.
    destruct (zget_is_Some shape d) as [x Hx]; [lia|]. specialize (Hr d x Hx). lia.
Qed.
End configuration.
