(* ===== verification/SparsityProofs.v ===== *)
(** * The sparse format is correct

    For a valid configuration the converter stores exactly the blocks of
    [SparseBlocks], and converting back, with the same converter or with one
    built from the stored parameters, restores the tensor. *)

From S2P Require Import Prelude TensorLayout SparsityFormat SparseBlocks SparsityEncoding SparsityDecoding SparsityLayout.

Section proofs.
Context {T : Type} `{Scalar T}.
Context (shape traversal : list Z) (formats : list TfLiteDimensionType) (block_size block_map : list Z).
Hypothesis Hwf : valid_config shape traversal formats block_size block_map.

Abbreviation rank := (zlen shape).
Abbreviation nb := (zlen block_map).
Abbreviation N := (rank + nb).
Abbreviation dim_of := (SparsityLayout.dim_of shape block_size block_map).
Abbreviation off_of := (SparsityLayout.off_of shape block_size block_map).
Abbreviation fmt_of := (SparsityLayout.fmt_of shape traversal formats).
Abbreviation block_of := (SparsityLayout.block_of block_size block_map).
Abbreviation levels := (config_levels shape traversal formats block_size block_map).

(** ** Construction *)

(** The converter of a configuration, with the results of a conversion. *)
Definition converter (metadata : list (list Z)) (data : list T) : FormatConverter T :=
  {| dense_shape_ := shape; blocked_shape_ := dim_of <$> range 0 rank; dense_size_ := volume shape;
     traversal_order_ := traversal; format_ := fmt_of <$> range 0 N; block_size_ := block_size;
     block_map_ := block_map; dim_metadata_ := metadata; data_ := data |}.

(** The number of blocked dimensions before [i]. *)
Definition blocks_before (i : Z) : Z := zlen (filter (λ d, d < i) block_map).

Lemma blocks_before_step i : blocks_before (i + 1) = blocks_before i + (if decide (i ∈ block_map) then 1 else 0).
Proof.
  unfold blocks_before. pose proof (mapped_nodup _ _ _ _ _ Hwf) as Hnd. clear - Hnd.
  induction Hnd as [|d l Hd Hnd IH]; [done|]. rewrite !filter_cons.
  destruct (decide (d < i)), (decide (d < i + 1)); try lia; cbn [length].
  - rewrite (decide_ext (i ∈ d :: l) (i ∈ l)) by (rewrite elem_of_cons; split; [intros [->|]; [lia|done]|by right]). lia.
  - assert (d = i) as -> by lia. rewrite decide_True by (by left). rewrite decide_False in IH by done. lia.
  - rewrite (decide_ext (i ∈ d :: l) (i ∈ l)) by (rewrite elem_of_cons; split; [intros [->|]; [lia|done]|by right]). lia.
Qed.

(** The next block is the one of dimension [i], if it has one. *)
Lemma next_block_is i : 0 ≤ i → (i ∈ block_map → zget block_map (blocks_before i) = Some i) ∧
  (∀ d, zget block_map (blocks_before i) = Some d → i ≤ d).
Proof.
  intros Hi. unfold blocks_before. pose proof (config_sorted _ _ _ _ _ Hwf) as Hs. clear - Hs.
  assert (∃ l1 l2, block_map = l1 ++ l2 ∧ Forall (λ d, d < i) l1 ∧ Forall (λ d, i ≤ d) l2 ∧ StronglySorted Z.lt l2) as (l1 & l2 & -> & H1 & H2 & Hs2).
  { induction Hs as [|d l Hs IH Hd]; [exists [], []; split_and!; constructor|]. destruct (decide (d < i)) as [Hdi|Hdi].
    - destruct IH as (l1 & l2 & -> & H1 & H2 & Hs2). exists (d :: l1), l2. split_and!; [done|by constructor|done|done].
    - exists [], (d :: l). split_and!; [done|constructor| |by constructor]. constructor; [lia|].
      eapply Forall_impl; [exact Hd|]. simpl. lia. }
  assert (filter (λ d, d < i) (l1 ++ l2) = l1) as ->.
  { rewrite Forall_forall in H1, H2. rewrite filter_app, filter_all, filter_none, app_nil_r; [done| |].
    - intros d Hd. specialize (H2 d Hd). lia.
    - intros d Hd. by apply H1. }
  assert (∀ n, zget (l1 ++ l2) (zlen l1) = n → head l2 = n) as Hget.
  { intros n <-. unfold zget. rewrite (proj2 (Z.leb_le 0 _)), Nat2Z.id, lookup_app_r, Nat.sub_diag by lia. by destruct l2. }
  split.
  - intros Hin. assert (i ∈ l2) as Hin2.
    { apply elem_of_app in Hin as [Hin|]; [|done]. rewrite Forall_forall in H1. specialize (H1 i Hin). lia. }
    destruct l2 as [|d l2]; [by apply elem_of_nil in Hin2|].
    assert (d = i) as ->.
    { apply elem_of_cons in Hin2 as [->|Hin2]; [done|]. inversion Hs2 as [|? ? _ Hd]; subst.
      rewrite Forall_forall in Hd. apply Forall_cons in H2 as [H2 _]. specialize (Hd i Hin2). lia. }
    unfold zget. rewrite (proj2 (Z.leb_le 0 _)), Nat2Z.id, lookup_app_r, Nat.sub_diag by lia. done.
  - intros d Hd. apply Hget in Hd. destruct l2 as [|e l2]; simplify_eq/=. by apply Forall_cons in H2 as [? _].
Qed.

Lemma wp_is_blocked {S} i (Q : bool → S → Prop) E s : 0 ≤ i → Q (bool_decide (i ∈ block_map)) s →
  wp (is_blocked block_map (blocks_before i) i) Q E s.
Proof.
  intros Hi HQ. destruct (next_block_is i Hi) as [Hin Hle]. unfold is_blocked.
  assert (0 ≤ blocks_before i) as H0 by (unfold blocks_before; lia).
  destruct (Z.ltb_spec (blocks_before i) nb) as [Hlt|Hge].
  - destruct (zget_is_Some block_map (blocks_before i)) as [d Hd]; [lia|]. wp_steps. eapply wp_at; [exact Hd|]. wp_steps.
    replace (d =? i) with (bool_decide (i ∈ block_map)); [done|]. specialize (Hle d Hd).
    destruct (decide (i ∈ block_map)) as [Hi'|Hi'].
    + rewrite bool_decide_eq_true_2 by done. symmetry. apply Z.eqb_eq. rewrite Hin in Hd by done. by simplify_eq.
    + rewrite bool_decide_eq_false_2 by done. symmetry. apply Z.eqb_neq. intros ->. apply Hi'. by eapply zget_elem.
  - wp_steps. rewrite bool_decide_eq_false_2 in HQ; [done|]. intros Hi'. apply Hin, zget_range in Hi'. lia.
Qed.

Lemma shape_lookup i : 0 ≤ i < rank → ∃ x, zget shape i = Some x ∧ 0 < x ≤ int32_max ∧ 0 < block_of i ∧
  x = dim_of i * block_of i ∧ 0 < dim_of i.
Proof.
  intros Hi. destruct (zget_is_Some shape i Hi) as [x Hx]. exists x.
  destruct (dim_split _ _ _ _ _ Hwf i x Hx) as (Hb & Hxd & Hd).
  destruct (stride_bound shape i x (dims_pos _ _ _ _ _ Hwf) Hx) as [Hs Hsx].
  pose proof (volume_fits _ _ _ _ _ Hwf). assert (0 < x) by nia. assert (x ≤ volume shape) by nia.
  split_and!; [done|lia|lia|done|done|done].
Qed.

Lemma block_lookup i : i ∈ block_map → 0 ≤ i → zget block_size (blocks_before i) = Some (block_of i).
Proof.
  intros Hi Hi0. destruct (next_block_is i Hi0) as [Hin _]. specialize (Hin Hi).
  destruct (mapped_block _ _ _ _ _ Hwf _ _ Hin) as (b & x & Hb & -> & _). done.
Qed.

Lemma wp_block_division {S} i x (Q : Z → S → Prop) E s : zget shape i = Some x → i ∈ block_map → Q (dim_of i) s →
  wp (div32 x (block_of i)) Q E s.
Proof.
  intros Hx Hi HQ. destruct (shape_lookup i (zget_range _ _ _ Hx)) as (x' & Hx' & Hr & Hb & Hxd & Hd). assert (x' = x) as -> by congruence.
  assert (Z.quot x (block_of i) = dim_of i) as Hq.
  { rewrite Hxd at 1. apply Z.quot_mul. lia. }
  apply wp_div32; rewrite ?Hq; [lia| |done]. unfold is_int32, int32_min, int32_max in *. nia.
Qed.

Lemma formats_app : fmt_of <$> range 0 N = (fmt_of <$> range 0 rank) ++ replicate (length block_map) kTfLiteDimDense.
Proof.
  rewrite (range_app 0 rank N), fmap_app by lia. f_equal. apply list_eq. intros j. rewrite list_lookup_fmap. unfold range.
  destruct (decide (j < length block_map)%nat) as [Hj|Hj].
  - rewrite lookup_seqZ_lt by lia. simpl. rewrite (proj2 (lookup_replicate _ _ _ _)) by done.
    unfold SparsityLayout.fmt_of. by rewrite (proj2 (Z.ltb_ge _ _)) by lia.
  - rewrite !(proj2 (lookup_ge_None _ _)); [done|rewrite length_replicate; lia|rewrite length_seqZ; lia].
Qed.

Lemma traversal_at i : 0 ≤ i < N → zget traversal i = Some (vat 0 traversal i).
Proof. intros Hi. apply vat_zget. by rewrite (traversal_length _ _ _ _ _ Hwf). Qed.

Lemma take_snoc_zget {A} (l : list A) i x : zget l i = Some x →
  take (Z.to_nat (i + 1)) l = take (Z.to_nat i) l ++ [x].
Proof.
  intros [Hi Hx]%zget_Some. replace (Z.to_nat (i + 1)) with (S (Z.to_nat i)) by lia. by apply take_S_r.
Qed.

Lemma volume_snoc l x : volume (l ++ [x]) = volume l * x.
Proof. rewrite volume_app. unfold volume at 2. simpl. lia. Qed.

Lemma volume_take n : 0 < volume (take n shape) ≤ volume shape.
Proof.
  pose proof (dims_pos _ _ _ _ _ Hwf) as Hd. pose proof (volume_pos _ (Forall_take _ n _ Hd)).
  pose proof (volume_pos _ (Forall_drop _ n _ Hd)). rewrite <- (take_drop n shape) at 3. rewrite volume_app. nia.
Qed.

Lemma construct {S} (s : S) :
  DenseToSparseConverter shape traversal formats block_size block_map s = Done (converter [] []) s.
Proof.
  enough (wp (DenseToSparseConverter shape traversal formats block_size block_map)
    (λ fc s', fc = converter [] [] ∧ s' = s) (λ _, False) s) as (? & ? & -> & -> & ->)%wp_no_error; [done|].
  unfold DenseToSparseConverter. wp_steps.
  apply wp_fold_pure with (I := λ done b, SparsityFormat.formats b = fmt_of <$> range 0 (zlen done) ∧
    blocked b = dim_of <$> range 0 (zlen done) ∧ next_block b = blocks_before (zlen done) ∧
    total_size b = volume (take (length done) shape)).
  - split_and!; [done|done| |done]. unfold blocks_before. simpl. rewrite filter_none; [done|].
    intros d Hd. apply (mapped_range _ _ _ _ _ Hwf), elem_of_range in Hd. lia.
  - intros done i todo b Heq (Hf & Hb & Hn & Ht). destruct (range_split _ _ _ _ Heq) as [-> Hlt].
    destruct (shape_lookup (zlen done)) as (x & Hx & Hxr & Hb0 & Hxd & Hd0); [lia|].
    assert (0 ≤ vat 0 traversal (zlen done) < rank) as Htr.
    { eapply (traversal_original _ _ _ _ _ Hwf); [apply traversal_at; lia|lia]. }
    assert (0 ≤ zlen done) as Hd by lia.
    unfold block_dimension. wp_steps. eapply wp_at; [apply traversal_at; lia|]. wp_steps.
    eapply wp_at; [apply (vat_zget kTfLiteDimDense); pose proof (config_formats _ _ _ _ _ Hwf); lia|]. wp_steps.
    eapply wp_at; [exact Hx|]. wp_steps. rewrite Hn. apply wp_is_blocked; [done|]. wp_steps.
    apply (wp_post _ (λ size s', s' = s ∧ size = dim_of (zlen done))).
    + intros size s' [-> ->]. wp_steps. rewrite !length_app. cbn [length].
      replace (Z.of_nat (length done + 1)) with (zlen done + 1) by lia.
      split; [done|]. split_and!.
      * rewrite Hf, range_snoc, fmap_app by lia. f_equal. simpl. f_equal. unfold SparsityLayout.fmt_of. by rewrite (proj2 (Z.ltb_lt _ _)) by lia.
      * rewrite Hb, range_snoc, fmap_app by lia. done.
      * rewrite blocks_before_step, ?Hn. destruct (decide (zlen done ∈ block_map)) as [Hin|Hin];
          [rewrite bool_decide_eq_true_2 by done|rewrite bool_decide_eq_false_2 by done]; simpl; lia.
      * rewrite Ht. pose proof (take_snoc_zget shape _ x Hx) as Hsn. rewrite Nat2Z.id in Hsn.
        replace (Z.to_nat (zlen done + 1)) with (length done + 1)%nat in Hsn by lia. rewrite Hsn, volume_snoc.
        apply u64_id. rewrite <- volume_snoc, <- Hsn. pose proof (volume_take (length done + 1)). pose proof (volume_fits _ _ _ _ _ Hwf).
        unfold is_size, size_max, int32_max in *. lia.
    + destruct (decide (zlen done ∈ block_map)) as [Hin|Hin].
      * rewrite bool_decide_eq_true_2 by done. wp_steps. eapply wp_at; [by apply block_lookup|].
        by apply wp_block_division.
      * rewrite bool_decide_eq_false_2 by done. wp_steps. split; [done|].
        rewrite (unmapped_block _ _ _ Hin) in Hxd. lia.
  - intros b (Hf & Hb & Hn & Ht). rewrite range_length in Hf, Hb, Ht. replace (Z.of_nat (Z.to_nat (rank - 0))) with rank in * by lia.
    wp_steps. split; [|done]. unfold converter. rewrite formats_app, Hf, Hb, Ht. rewrite take_ge by lia. done.
Qed.

(** ** Preparation *)

Section prepare.
Context {S : Type} (m : list (list Z)) (data : list T) (s : S).
Abbreviation fc := (converter m data).

Lemma expanded_length : num_expanded_dims fc = N.
Proof. done. Qed.

Lemma zget_range_fmap {A} (f : Z → A) n i : 0 ≤ i < n → zget (f <$> range 0 n) i = Some (f i).
Proof.
  intros Hi. rewrite zget_fmap. unfold zget, range. rewrite (proj2 (Z.leb_le 0 i)) by lia.
  rewrite lookup_seqZ_lt by lia. simpl. do 2 f_equal. lia.
Qed.

Lemma expanded_shape_spec : get_expanded_shape fc s = Done (dim_of <$> range 0 N) s.
Proof.
  enough (wp (get_expanded_shape fc) (λ v s', v = dim_of <$> range 0 N ∧ s' = s) (λ _, False) s) as (? & ? & -> & -> & ->)%wp_no_error; [done|].
  unfold get_expanded_shape. rewrite expanded_length. apply (wp_map_m _ dim_of); [|done]. intros i Hi%elem_of_range. unfold at_, deref. simpl.
  unfold num_original_dims. simpl. destruct (Z.ltb_spec i rank).
  - by rewrite zget_range_fmap by lia.
  - unfold SparsityLayout.dim_of. rewrite (proj2 (Z.ltb_ge i rank)) by lia.
    rewrite (vat_zget 1); [done|]. rewrite (config_blocks _ _ _ _ _ Hwf). lia.
Qed.

Lemma reverse_range_split a n done i todo : reverse (range a n) = done ++ i :: todo → a ≤ i < n ∧ i = n - 1 - zlen done.
Proof.
  intros Heq. assert (range a n = reverse todo ++ i :: reverse done) as Hr.
  { rewrite <- (reverse_involutive (range a n)), Heq, reverse_app, reverse_cons, <- app_assoc. done. }
  assert (i ∈ range a n) as Hi%elem_of_range by (rewrite Hr; in_list).
  assert (range a n !! length (reverse todo) = Some i) as Hk by (rewrite Hr; apply lookup_split).
  unfold range in Hk. apply lookup_seqZ in Hk as [Hk _].
  pose proof (f_equal length Hr) as Hlen. rewrite length_app, range_length in Hlen. cbn [length] in Hlen.
  rewrite !length_reverse in *. lia.
Qed.

Lemma stride_fits d : 0 ≤ d < rank → 0 < stride shape d ≤ int32_max.
Proof.
  intros Hd. destruct (shape_lookup d Hd) as (x & Hx & Hr & _).
  destruct (stride_bound shape d x (dims_pos _ _ _ _ _ Hwf) Hx). pose proof (volume_fits _ _ _ _ _ Hwf). nia.
Qed.

Lemma shape_offset_spec : get_shape_offset fc s = Done (stride shape <$> range 0 rank) s.
Proof.
  enough (wp (get_shape_offset fc) (λ v s', v = stride shape <$> range 0 rank ∧ s' = s) (λ _, False) s) as (? & ? & -> & -> & ->)%wp_no_error; [done|].
  pose proof (config_rank _ _ _ _ _ Hwf) as Hne. assert (0 < rank) as Hr0 by (destruct shape; [done|simpl; lia]).
  unfold get_shape_offset, num_original_dims. cbn [dense_shape_ converter]. apply wp_bind, wp_upd; [rewrite length_replicate; lia|].
  apply wp_fold_pure with (I := λ done v, length v = length shape ∧
    ∀ d, rank - 1 - zlen done ≤ d < rank → zget v d = Some (stride shape d)).
  - split; [rewrite zset_length, length_replicate; lia|]. simpl. intros d Hd. assert (d = rank - 1) as -> by lia.
    rewrite stride_last by done. apply zget_zset_eq. rewrite length_replicate. lia.
  - intros done i todo v Heq [Hlen Hv]. apply reverse_range_split in Heq as [Hi ->].
    destruct (shape_lookup (rank - 1 - zlen done)) as (x & Hx & Hxr & _); [lia|].
    wp_steps. eapply wp_at; [apply Hv; lia|]. wp_steps. eapply wp_at; [exact Hx|]. wp_steps.
    assert (stride shape (rank - 1 - zlen done) * x = stride shape (rank - 1 - zlen done - 1)) as Hst.
    { rewrite (stride_step shape (rank - 1 - zlen done) x Hx). lia. }
    rewrite Hst. pose proof (stride_fits (rank - 1 - zlen done - 1) ltac:(lia)).
    apply wp_int32; [unfold is_int32, int32_min, int32_max in *; lia|]. apply wp_upd; [lia|].
    split; [done|]. split; [by rewrite zset_length|]. rewrite length_app. cbn [length]. intros d Hd.
    destruct (decide (d = rank - 1 - zlen done - 1)) as [->|Hd'].
    + apply zget_zset_eq. lia.
    + rewrite zget_zset_ne by lia. apply Hv. lia.
  - intros v [Hlen Hv]. split; [|done]. apply list_eq. intros i.
    destruct (decide (i < length shape)%nat) as [Hi|Hi].
    + assert (zget v (Z.of_nat i) = Some (stride shape (Z.of_nat i))) as Hvi.
      { apply Hv. rewrite length_reverse, range_length. lia. }
      rewrite <- (zget_range_fmap (stride shape) rank (Z.of_nat i)) in Hvi by lia.
      unfold zget in Hvi. rewrite !(proj2 (Z.leb_le 0 _)), !Nat2Z.id in Hvi by lia. done.
    + rewrite !(proj2 (lookup_ge_None _ _)); [done|rewrite length_fmap, range_length; lia|lia].
Qed.

(** Blocks that have been handled after [j] steps. *)
Definition partial_offset (j e : Z) : Z :=
  if e <? rank then stride shape e * (if decide (e ∈ take (Z.to_nat j) block_map) then block_of e else 1)
  else if e - rank <? j then stride shape (vat 0 block_map (e - rank)) else 0.

Lemma wp_known_list {A} (v : list A) (f : Z → A) n i (Q : A → S → Prop) E s' :
  v = f <$> range 0 n → 0 ≤ i < n → Q (f i) s' → wp (at_ v i) Q E s'.
Proof. intros -> Hi HQ. eapply wp_at; [by apply zget_range_fmap|done]. Qed.

Lemma zset_range_fmap {A} (f g : Z → A) n i : 0 ≤ i < n → (∀ j, 0 ≤ j < n → j ≠ i → g j = f j) →
  zset i (g i) (f <$> range 0 n) = g <$> range 0 n.
Proof.
  intros Hi Hfg. apply list_eq. intros j. destruct (decide (j < Z.to_nat n)%nat) as [Hj|Hj].
  - assert (∀ h : Z → A, (h <$> range 0 n) !! j = Some (h (Z.of_nat j))) as Hl.
    { intros h. pose proof (zget_range_fmap h n (Z.of_nat j) ltac:(lia)) as Hz. unfold zget in Hz.
      by rewrite (proj2 (Z.leb_le 0 _)), Nat2Z.id in Hz by lia. }
    rewrite Hl. unfold zset. destruct (decide (j = Z.to_nat i)) as [->|Hne].
    + rewrite list_lookup_insert_eq by (rewrite length_fmap, range_length; lia). by rewrite Z2Nat.id by lia.
    + rewrite list_lookup_insert_ne by done. rewrite Hl. f_equal. symmetry. apply Hfg; lia.
  - rewrite !(proj2 (lookup_ge_None _ _)); [done|rewrite length_fmap, range_length; lia|rewrite zset_length, length_fmap, range_length; lia].
Qed.

Lemma shape_offset_extended :
  (stride shape <$> range 0 rank) ++ replicate (Z.to_nat nb) 0 = partial_offset 0 <$> range 0 N.
Proof.
  rewrite (expanded_parts shape block_map (partial_offset 0)). f_equal.
  - apply list_fmap_ext. intros i d Hd%list_elem_of_lookup_2%elem_of_range. unfold partial_offset.
    rewrite (proj2 (Z.ltb_lt _ _)) by lia. rewrite decide_False by apply not_elem_of_nil. lia.
  - apply list_eq. intros j. rewrite list_lookup_fmap. unfold range. destruct (decide (j < length block_map)%nat) as [Hj|Hj].
    + rewrite lookup_seqZ_lt by lia. simpl. rewrite (proj2 (lookup_replicate _ _ _ _)) by (split; [done|lia]).
      unfold partial_offset. rewrite (proj2 (Z.ltb_ge _ rank)) by lia. by rewrite (proj2 (Z.ltb_ge _ 0)) by lia.
    + rewrite !(proj2 (lookup_ge_None _ _)); [done|rewrite length_seqZ; lia|rewrite length_replicate; lia].
Qed.

Lemma partial_offset_all e : 0 ≤ e < N → partial_offset nb e = off_of e.
Proof.
  intros He. unfold partial_offset, SparsityLayout.off_of. destruct (Z.ltb_spec e rank).
  - rewrite take_ge by lia. destruct (decide (e ∈ block_map)) as [Hin|Hin]; [done|]. by rewrite (unmapped_block _ _ _ Hin).
  - by rewrite (proj2 (Z.ltb_lt _ _)) by lia.
Qed.

Lemma expanded_offset_spec :
  get_expanded_shape_offset fc (stride shape <$> range 0 rank) s = Done (off_of <$> range 0 N) s.
Proof.
  enough (wp (get_expanded_shape_offset fc (stride shape <$> range 0 rank)) (λ v s', v = off_of <$> range 0 N ∧ s' = s) (λ _, False) s)
    as (? & ? & -> & -> & ->)%wp_no_error; [done|].
  unfold get_expanded_shape_offset, num_block_dims, num_original_dims. cbn [dense_shape_ block_map_ block_size_ converter].
  apply wp_fold_pure with (I := λ done v, v = partial_offset (zlen done) <$> range 0 N).
  - apply shape_offset_extended.
  - intros done j todo v Heq ->. destruct (range_split _ _ _ _ Heq) as [-> Hj].
    destruct (zget_is_Some block_map (zlen done)) as [d Hd]; [lia|].
    destruct (mapped_block _ _ _ _ _ Hwf _ d Hd) as (b & x & Hb & Hbd & Hb0 & Hx & _).
    assert (0 ≤ d < rank) as Hdr by (by eapply zget_range).
    assert (take (Z.to_nat (zlen done + 1)) block_map = take (Z.to_nat (zlen done)) block_map ++ [d]) as Htake by (by apply take_snoc_zget).
    assert (d ∉ take (Z.to_nat (zlen done)) block_map) as Hnew.
    { pose proof (mapped_nodup _ _ _ _ _ Hwf) as Hnd. apply zget_Some in Hd as [_ Hd]. rewrite <- (take_drop_middle _ _ _ Hd) in Hnd.
      apply NoDup_app in Hnd as (_ & Hnd & _). intros Hin. apply (Hnd d Hin). by left. }
    assert (∀ e, e ≠ d → (e ∈ take (Z.to_nat (zlen done + 1)) block_map ↔ e ∈ take (Z.to_nat (zlen done)) block_map)) as Hother.
    { intros e He. rewrite Htake, elem_of_app, list_elem_of_singleton. tauto. }
    set (mid := λ e, if e =? rank + zlen done then stride shape d else partial_offset (zlen done) e).
    wp_steps. eapply wp_at; [exact Hd|]. wp_steps. eapply wp_known_list; [done|done|]. wp_steps.
    apply wp_upd; [rewrite length_fmap, range_length; lia|]. wp_steps.
    assert (zset (rank + zlen done) (stride shape d) (partial_offset (zlen done) <$> range 0 N) = mid <$> range 0 N) as ->.
    { rewrite <- (zset_range_fmap (partial_offset (zlen done)) mid N (rank + zlen done)); [by unfold mid; rewrite Z.eqb_refl|lia|].
      intros e He Hne. unfold mid. by rewrite (proj2 (Z.eqb_neq _ _)) by lia. }
    assert (mid d = stride shape d) as Hmid.
    { unfold mid. rewrite (proj2 (Z.eqb_neq _ _)) by lia. unfold partial_offset. rewrite (proj2 (Z.ltb_lt _ _)) by lia.
      rewrite decide_False by done. lia. }
    eapply wp_known_list; [done|lia|]. rewrite Hmid. wp_steps. eapply wp_at; [exact Hb|]. wp_steps.
    assert (stride shape d * b = partial_offset (zlen done + 1) d) as Hfin.
    { unfold partial_offset. rewrite (proj2 (Z.ltb_lt d _)) by lia. rewrite decide_True by (rewrite Htake; in_list). by rewrite Hbd. }
    apply wp_int32.
    { destruct (expanded_bounds _ _ _ _ _ Hwf d ltac:(lia)) as (_ & _ & _ & _ & Ho). unfold SparsityLayout.off_of in Ho.
      rewrite (proj2 (Z.ltb_lt d _)) in Ho by lia. rewrite Hbd in Ho. pose proof (volume_fits _ _ _ _ _ Hwf).
      pose proof (stride_fits d Hdr). assert (0 ≤ stride shape d * b) by (apply Z.mul_nonneg_nonneg; lia).
      unfold is_int32, int32_min, int32_max in *. lia. }
    apply wp_upd; [rewrite length_fmap, range_length; lia|]. split; [done|]. rewrite length_app. cbn [length].
    replace (Z.of_nat (length done + 1)) with (zlen done + 1) by lia. rewrite Hfin. apply zset_range_fmap; [lia|].
    intros e He Hne. unfold mid, partial_offset. destruct (Z.eqb_spec e (rank + zlen done)) as [->|Hne'].
    + rewrite (proj2 (Z.ltb_ge _ rank)) by lia. rewrite (proj2 (Z.ltb_lt _ (zlen done + 1))) by lia.
      replace (rank + zlen done - rank) with (zlen done) by lia. unfold vat. by rewrite Hd.
    + destruct (Z.ltb_spec e rank); [by rewrite (decide_ext _ _ _ _ (Hother e Hne))|].
      destruct (Z.ltb_spec (e - rank) (zlen done)); [by rewrite (proj2 (Z.ltb_lt _ (zlen done + 1))) by lia|].
      by rewrite (proj2 (Z.ltb_ge _ (zlen done + 1))) by lia.
  - intros v ->. split; [|done]. rewrite range_length. replace (Z.of_nat (Z.to_nat (nb - 0))) with nb by lia.
    apply list_fmap_ext. intros i e He%list_elem_of_lookup_2%elem_of_range. apply partial_offset_all. lia.
Qed.

Lemma in_order_spec (f : Z → Z) : in_traversal_order fc (f <$> range 0 N) s =
  Done ((λ i, f (vat 0 traversal i)) <$> range 0 N) s.
Proof.
  enough (wp (in_traversal_order fc (f <$> range 0 N)) (λ v s', v = (λ i, f (vat 0 traversal i)) <$> range 0 N ∧ s' = s) (λ _, False) s)
    as (? & ? & -> & -> & ->)%wp_no_error; [done|].
  unfold in_traversal_order. rewrite expanded_length. apply (wp_map_m _ (λ i, f (vat 0 traversal i))); [|done].
  intros i Hi%elem_of_range. unfold at_, deref, mbind, M_bind. cbn [traversal_order_ converter]. rewrite traversal_at by lia. simpl.
  rewrite zget_range_fmap; [done|]. apply elem_of_range. rewrite <- (traversal_perm _ _ _ _ _ Hwf).
  eapply zget_elem, traversal_at. lia.
Qed.

Abbreviation dims := (dim <$> levels).

Lemma level_format_at i : 0 ≤ i < N → zget (format_ fc) i = Some (fmt_of i).
Proof. intros Hi. by apply zget_range_fmap. Qed.

Lemma dims_at i : 0 ≤ i < N → zget dims i = Some (dim_of (vat 0 traversal i)).
Proof. intros Hi. rewrite zget_fmap. by rewrite (config_level shape traversal formats block_size block_map i Hi). Qed.

Lemma levels_drop i : 0 ≤ i < N → drop (Z.to_nat i) levels =
  level_of shape traversal formats block_size block_map i :: drop (Z.to_nat (i + 1)) levels.
Proof.
  intros Hi. pose proof (config_level shape traversal formats block_size block_map i Hi) as Hl.
  apply zget_Some in Hl as [_ Hl]. rewrite (drop_S _ _ _ Hl). do 2 f_equal. lia.
Qed.

Lemma levels_positive n : Forall (λ l, 0 < dim l) (drop n levels).
Proof.
  apply Forall_drop. eapply Forall_impl; [apply (levels_bounds _ _ _ _ _ Hwf)|]. simpl. tauto.
Qed.

Lemma volume_suffix n : volume_of (drop n levels) ≤ volume shape.
Proof.
  rewrite <- (levels_volume _ _ _ _ _ Hwf). pose proof (levels_positive 0) as Hp. rewrite drop_0 in Hp.
  generalize dependent levels. clear. intros ls Hp. revert n. induction Hp as [|l ls Hl Hls IH]; intros n; [by rewrite drop_nil|].
  assert (0 < volume_of ls) by (clear - Hls; induction Hls as [|l ls Hl Hls IH]; simpl; nia).
  destruct n as [|n]; [done|]. simpl. etrans; [apply IH|]. nia.
Qed.

Definition inner_at (i : Z) : Z * Z := next_compressed (drop (Z.to_nat (i + 1)) levels) (i + 1).

Lemma compressed_dims_spec : ∃ inner num, get_compressed_dims fc dims s = Done (inner, num) s ∧
  ∀ i, 0 ≤ i < N → zget inner i = Some (inner_at i).1 ∧ (fmt_of i = kTfLiteDimSparseCSR → zget num i = Some (inner_at i).2).
Proof.
  enough (wp (get_compressed_dims fc dims) (λ r s', s' = s ∧ ∀ i, 0 ≤ i < N → zget r.1 i = Some (inner_at i).1 ∧
    (fmt_of i = kTfLiteDimSparseCSR → zget r.2 i = Some (inner_at i).2)) (λ _, False) s) as ([inner num] & ? & Hrun & -> & Hr)%wp_no_error;
    [by exists inner, num|].
  unfold get_compressed_dims. rewrite expanded_length. apply wp_bind.
  apply wp_fold_pure with (I := λ done st, let '(inner, num, i, c) := st in
    length inner = length done ∧ length num = length done ∧
    (i, c) = next_compressed (drop (Z.to_nat (N - zlen done)) levels) (N - zlen done) ∧
    ∀ i, N - zlen done ≤ i < N → zget inner (i - (N - zlen done)) = Some (inner_at i).1 ∧
      (fmt_of i = kTfLiteDimSparseCSR → zget num (i - (N - zlen done)) = Some (inner_at i).2)).
  - split_and!; [done|done| |].
    + rewrite drop_ge; [done|]. rewrite config_levels_length. simpl. lia.
    + simpl. intros i Hi. lia.
  - intros done i todo [[[inner num] mr] c] Heq (Hl1 & Hl2 & Hnext & Hall). apply reverse_range_split in Heq as [Hi Hid].
    replace (N - zlen done) with (i + 1) in * by lia.
    assert (N - zlen (done ++ [i]) = i) as Hnd by (rewrite length_app; simpl; lia). rewrite Hnd.
    assert (∀ (inner' : list Z) x y, (∀ j, i + 1 ≤ j < N → zget inner' (j - (i + 1)) = Some (y j)) →
      x = y i → ∀ j, i ≤ j < N → zget (x :: inner') (j - i) = Some (y j)) as Hcons.
    { intros inner' x y Hy -> j Hj. destruct (decide (j = i)) as [->|Hji].
      - by rewrite Z.sub_diag.
      - specialize (Hy j ltac:(lia)). apply zget_Some in Hy as [? Hy]. apply zget_Some. split; [lia|].
        by replace (Z.to_nat (j - i)) with (Datatypes.S (Z.to_nat (j - (i + 1)))) by lia. }
    unfold compressed_dim. wp_steps. eapply wp_at; [apply level_format_at; lia|]. wp_steps.
    rewrite (levels_drop i) by lia. cbn [next_compressed]. cbn [fmt level_of].
    assert (inner_at i = (mr, c)) as Hin by (unfold inner_at; by rewrite <- Hnext).
    destruct (fmt_of i) eqn:Hf.
    + wp_steps. eapply wp_at; [apply dims_at; lia|]. wp_steps.
      assert (0 < c * dim_of (vat 0 traversal i) ≤ int32_max) as Hc.
      { pose proof (next_compressed_count (drop (Z.to_nat i) levels) i (levels_positive _)) as Hcount.
        rewrite (levels_drop i) in Hcount at 1 2 by lia. cbn [next_compressed] in Hcount. cbn [fmt dim level_of] in Hcount.
        rewrite Hf, <- Hnext in Hcount. simpl in Hcount. pose proof (volume_suffix (Z.to_nat i)). pose proof (volume_fits _ _ _ _ _ Hwf). lia. }
      apply wp_int32; [unfold is_int32, int32_min, int32_max in *; lia|]. wp_steps. split; [done|]. rewrite length_app. simpl.
      rewrite <- Hnext. split_and!; [lia|lia|done|].
      intros j Hj. split.
      * apply (Hcons inner mr (λ j, (inner_at j).1)); [intros; by apply Hall|by rewrite Hin|done].
      * destruct (decide (j = i)) as [->|Hji]; [by rewrite Hf|]. intros Hfj. destruct (Hall j ltac:(lia)) as [_ Hn].
        specialize (Hn Hfj). apply zget_Some in Hn as [? Hn]. apply zget_Some. split; [lia|].
        by replace (Z.to_nat (j - i)) with (Datatypes.S (Z.to_nat (j - (i + 1)))) by lia.
    + wp_steps. split; [done|]. rewrite length_app. simpl. split_and!; [lia|lia|done|].
      intros j Hj. split.
      * apply (Hcons inner mr (λ j, (inner_at j).1)); [intros; by apply Hall|by rewrite Hin|done].
      * destruct (decide (j = i)) as [->|Hji]; [rewrite Z.sub_diag, Hin; done|]. intros Hfj. destruct (Hall j ltac:(lia)) as [_ Hn].
        specialize (Hn Hfj). apply zget_Some in Hn as [? Hn]. apply zget_Some. split; [lia|].
        by replace (Z.to_nat (j - i)) with (Datatypes.S (Z.to_nat (j - (i + 1)))) by lia.
  - intros [[[inner num] mr] c] (_ & _ & _ & Hall). wp_steps. split; [done|]. rewrite length_reverse, range_length in Hall.
    replace (N - Z.of_nat (Z.to_nat (N - 0))) with 0 in Hall by lia. intros i Hi. specialize (Hall i Hi).
    by rewrite Z.sub_0_r in Hall.
Qed.

Lemma metadata_spec src : get_metadata fc dims s = Done (encoded_metadata src levels []) s.
Proof.
  enough (wp (get_metadata fc dims) (λ v s', v = encoded_metadata src levels [] ∧ s' = s) (λ _, False) s)
    as (? & ? & -> & -> & ->)%wp_no_error; [done|].
  unfold get_metadata. rewrite expanded_length. apply wp_bind.
  apply (wp_map_m _ (λ i, match fmt_of i with kTfLiteDimDense => [[dim_of (vat 0 traversal i)]; []] | kTfLiteDimSparseCSR => [[0]; []] end)).
  - intros i Hi%elem_of_range. unfold at_, deref, mbind, M_bind. rewrite level_format_at by lia. simpl.
    destruct (fmt_of i); [|done]. by rewrite dims_at by lia.
  - wp_steps. split; [|done]. unfold config_levels. induction (range 0 N) as [|i l IH]; [done|].
    rewrite !fmap_cons. cbn [concat encoded_metadata]. rewrite IH. unfold level_encoding. cbn [fmt dim level_of].
    by destruct (fmt_of i).
Qed.

Lemma sparse_dims_spec : ∃ sd, get_sparse_dims fc s = Done sd s ∧
  ∀ K, K ∈ sd ↔ ∃ l, zget levels K = Some l ∧ fmt l = kTfLiteDimSparseCSR.
Proof.
  enough (wp (get_sparse_dims fc) (λ sd s', s' = s ∧ ∀ K, K ∈ sd ↔ 0 ≤ K < N ∧ fmt_of K = kTfLiteDimSparseCSR) (λ _, False) s)
    as (sd & ? & Hrun & -> & Hsd)%wp_no_error.
  { exists sd. split; [done|]. intros K. rewrite Hsd. split.
    - intros [HK Hf]. eexists. split; [by apply config_level|done].
    - intros (l & Hl & Hf). assert (0 ≤ K < N) as HK.
      { apply zget_range in Hl. rewrite config_levels_length in Hl. lia. }
      rewrite config_level in Hl by done. simplify_eq. done. }
  unfold get_sparse_dims. rewrite expanded_length.
  apply wp_fold_pure with (I := λ done sd, ∀ K, K ∈ sd ↔ K ∈ done ∧ fmt_of K = kTfLiteDimSparseCSR).
  - intros K. rewrite elem_of_nil. tauto.
  - intros done i todo sd Heq Hsd. destruct (range_split _ _ _ _ Heq) as [Hi Hlt].
    wp_steps. eapply wp_at; [apply level_format_at; lia|]. wp_steps. split; [done|]. intros K.
    destruct (decide (fmt_of i = kTfLiteDimSparseCSR)) as [Hf|Hf]; rewrite ?elem_of_app, Hsd, ?list_elem_of_singleton.
    + split; [intros [?| ->]; tauto|intros [[?| ->] ?]; tauto].
    + split; [tauto|]. intros [[?| ->] ?]; tauto.
  - intros sd Hsd. split; [done|]. intros K. by rewrite Hsd, elem_of_range.
Qed.
End prepare.

(** ** The place of an element *)

Lemma position_range ix : zlen ix = N →
  position levels ix = total ((λ i, vat 0 ix i * off_of (vat 0 traversal i)) <$> range 0 N).
Proof.
  intros Hlen. rewrite <- (vat_range 0 ix) at 1. rewrite Hlen. unfold config_levels.
  induction (range 0 N) as [|i l IH]; [done|]. rewrite !fmap_cons, total_cons, <- IH. done.
Qed.

Lemma valid_at ix i : valid_indices levels ix → 0 ≤ i < N →
  zget ix i = Some (vat 0 ix i) ∧ 0 ≤ vat 0 ix i < dim_of (vat 0 traversal i).
Proof.
  intros Hv Hi. pose proof (Forall2_length _ _ _ Hv) as Hlen. rewrite config_levels_length in Hlen.
  assert (zget ix i = Some (vat 0 ix i)) as Hx by (apply vat_zget; lia). split; [done|].
  pose proof (config_level shape traversal formats block_size block_map i Hi) as Hl.
  apply zget_Some in Hx as [_ Hx]. apply zget_Some in Hl as [_ Hl]. by apply (Forall2_lookup_lr _ _ _ _ _ _ Hv Hl Hx).
Qed.

Section place.
Context (metadata : list (list Z)) (data : list T) (ix : list Z) (s : Decoder T).
Abbreviation fc := (converter metadata data).
Hypothesis Hvalid : valid_indices levels ix.

Lemma valid_length : zlen ix = N.
Proof. pose proof (Forall2_length _ _ _ Hvalid) as Hlen. rewrite config_levels_length in Hlen. lia. Qed.

Definition weight (i : Z) : Z := vat 0 ix i * off_of (vat 0 traversal i).

(** The indices of the original dimensions. *)
Lemma outer_indices (Q : list Z → Decoder T → Prop) E :
  (∀ orig, length orig = length shape → (∀ d, 0 ≤ d < rank → 0 ≤ vat 0 orig d < dim_of d) →
     total ((λ d, vat 0 orig d * off_of d) <$> range 0 rank) = total (weight <$> range 0 rank) → Q orig s) →
  wp (fold_m (range 0 rank) (replicate (length shape) 0) (λ orig_idx i,
    orig_dim ← at_ traversal i; x ← at_ ix i; upd orig_idx orig_dim x)) Q E s.
Proof.
  intros HQ. apply wp_fold_pure with (I := λ done orig, length orig = length shape ∧
    (∀ d, 0 ≤ d < rank → 0 ≤ vat 0 orig d < dim_of d) ∧
    (∀ d, (d ∉ take (length done) traversal) → vat 0 orig d = 0) ∧
    total ((λ d, vat 0 orig d * off_of d) <$> range 0 rank) = total (weight <$> range 0 (zlen done))).
  - split_and!.
    + apply length_replicate.
    + intros d Hd. rewrite vat_replicate. destruct (expanded_bounds _ _ _ _ _ Hwf d ltac:(lia)). lia.
    + intros d _. apply vat_replicate.
    + cbn [length]. rewrite (range_nil 0 (Z.of_nat 0)) by lia. apply total_fmap_zero. intros d _. rewrite vat_replicate. lia.
  - intros done i todo orig Heq (Hlen & Hb & Hz & Ht). destruct (range_split _ _ _ _ Heq) as [-> Hi].
    pose proof (traversal_at (zlen done) ltac:(lia)) as Htr.
    pose proof (traversal_original _ _ _ _ _ Hwf _ _ Htr Hi) as Hd. set (d := vat 0 traversal (zlen done)) in *.
    destruct (valid_at ix (zlen done) Hvalid ltac:(lia)) as [Hx Hxr]. fold d in Hxr.
    assert (take (length done + 1) traversal = take (length done) traversal ++ [d]) as Htake.
    { pose proof (take_snoc_zget traversal _ d Htr) as Hsn. rewrite Nat2Z.id in Hsn.
      by replace (Z.to_nat (zlen done + 1)) with (length done + 1)%nat in Hsn by lia. }
    wp_steps. eapply wp_at; [exact Htr|]. wp_steps. eapply wp_at; [exact Hx|]. apply wp_upd; [lia|].
    split; [done|]. rewrite length_app. cbn [length]. split_and!.
    + by rewrite zset_length.
    + intros d' Hd'. destruct (decide (d' = d)) as [->|Hne]; [rewrite vat_zset_eq; [done|lia]|].
      rewrite vat_zset_ne by lia. by apply Hb.
    + intros d' Hd'. rewrite Htake, elem_of_app, list_elem_of_singleton in Hd'. rewrite vat_zset_ne; [|lia|intros ->; tauto].
      apply Hz. tauto.
    + assert (vat 0 orig d = 0) as Hd0.
      { apply Hz. pose proof (traversal_nodup _ _ _ _ _ Hwf) as Hnd.
        pose proof Htr as [_ Hl]%zget_Some. rewrite Nat2Z.id in Hl. rewrite <- (take_drop_middle _ _ _ Hl) in Hnd.
        apply NoDup_app in Hnd as (_ & Hnd & _). intros Hin. apply (Hnd _ Hin). by left. }
      rewrite (total_change _ (λ d', vat 0 orig d' * off_of d') _ d); [|unfold range; apply NoDup_seqZ|apply elem_of_range; lia|].
      * rewrite Ht, Hd0, vat_zset_eq by lia. replace (Z.of_nat (length done + 1)) with (zlen done + 1) by lia.
        rewrite range_snoc, fmap_app, total_app by lia.
        assert (total (weight <$> [zlen done]) = vat 0 ix (zlen done) * off_of d) as ->; [|lia].
        cbn [fmap list_fmap total foldr]. apply Z.add_0_r.
      * intros d' Hd'. by rewrite vat_zset_ne by lia.
  - intros orig (Hlen & Hb & _ & Ht). apply HQ; [done|done|]. rewrite Ht, range_length. by replace (Z.of_nat (Z.to_nat (rank - 0))) with rank by lia.
Qed.

Definition refined (n : Z) : list Z := (λ i, vat 0 block_map (vat 0 traversal i - rank)) <$> range rank (rank + n).
Definition refined_weight (n : Z) (d : Z) : Z := stride shape d * (if decide (d ∈ refined n) then 1 else block_of d).

Lemma refined_snoc n : 0 ≤ n → refined (n + 1) = refined n ++ [vat 0 block_map (vat 0 traversal (rank + n) - rank)].
Proof. intros Hn. unfold refined. rewrite Z.add_assoc, range_snoc, fmap_app by lia. done. Qed.

(** The dimension that is refined next. *)
Lemma refined_next n : 0 ≤ n < nb → ∃ e d b, zget traversal (rank + n) = Some e ∧ zget block_map (e - rank) = Some d ∧
  zget block_size (e - rank) = Some b ∧ vat 0 traversal (rank + n) = e ∧ vat 0 block_map (e - rank) = d ∧
  0 ≤ d < rank ∧ block_of d = b ∧ dim_of e = b ∧ off_of e = stride shape d ∧ (d ∉ refined n) ∧ rank ≤ e < N.
Proof.
  intros Hn. pose proof (traversal_at (rank + n) ltac:(lia)) as Htr.
  pose proof (traversal_inner _ _ _ _ _ Hwf _ _ Htr ltac:(lia)) as He. set (e := vat 0 traversal (rank + n)) in *.
  destruct (zget_is_Some block_map (e - rank)) as [d Hd]; [lia|].
  destruct (mapped_block _ _ _ _ _ Hwf _ d Hd) as (b & x & Hb & Hbd & Hb0 & Hx & _).
  exists e, d, b. split_and!; try done; try (by eapply zget_range); try lia.
  - unfold vat. by rewrite Hd.
  - unfold SparsityLayout.dim_of. rewrite (proj2 (Z.ltb_ge _ _)) by lia. unfold vat. by rewrite Hb.
  - unfold SparsityLayout.off_of. rewrite (proj2 (Z.ltb_ge _ _)) by lia. unfold vat. by rewrite Hd.
  - unfold refined. intros (i & Hdi & Hi%elem_of_range)%list_elem_of_fmap.
    pose proof (traversal_at i ltac:(lia)) as Htri. pose proof (traversal_inner _ _ _ _ _ Hwf _ _ Htri ltac:(lia)) as Hei.
    set (e' := vat 0 traversal i) in *.
    assert (zget block_map (e' - rank) = Some d) as Hd' by (rewrite Hdi; apply vat_zget; lia).
    assert (e' = e) as Hee.
    { apply zget_Some in Hd as [? Hd], Hd' as [? Hd']. pose proof (NoDup_lookup _ _ _ _ (mapped_nodup _ _ _ _ _ Hwf) Hd Hd'). lia. }
    apply zget_Some in Htr as [? Htr], Htri as [? Htri]. rewrite Hee in Htri.
    pose proof (NoDup_lookup _ _ _ _ (traversal_nodup _ _ _ _ _ Hwf) Htr Htri). lia.
Qed.

(** What the loop over the refined dimensions keeps after [k] of them. *)
Definition refined_inv (k : Z) (orig : list Z) : Prop :=
  length orig = length shape ∧
  (∀ d, 0 ≤ d < rank → 0 ≤ vat 0 orig d < dim_of d * (if decide (d ∈ refined k) then block_of d else 1)) ∧
  total ((λ d, vat 0 orig d * refined_weight k d) <$> range 0 rank) = total (weight <$> range 0 (rank + k)).

Lemma refined_inv_0 orig : length orig = length shape → (∀ d, 0 ≤ d < rank → 0 ≤ vat 0 orig d < dim_of d) →
  total ((λ d, vat 0 orig d * off_of d) <$> range 0 rank) = total (weight <$> range 0 rank) → refined_inv 0 orig.
Proof.
  intros Hlen Hb Ht. split_and!; [done| |].
  - intros d Hd. unfold refined. rewrite (range_nil rank) by lia.
    rewrite decide_False by apply not_elem_of_nil. rewrite Z.mul_1_r. by apply Hb.
  - rewrite Z.add_0_r, <- Ht. apply total_ext. intros d Hd%elem_of_range. unfold refined_weight, refined.
    rewrite (range_nil rank) by lia. rewrite decide_False by apply not_elem_of_nil. unfold SparsityLayout.off_of.
    by rewrite (proj2 (Z.ltb_lt _ _)) by lia.
Qed.

(** Refining the dimension [d] by its block. *)
Lemma refined_inv_next k orig e d b x : 0 ≤ k < nb → refined_inv k orig →
  vat 0 traversal (rank + k) = e → vat 0 block_map (e - rank) = d → 0 ≤ d < rank → block_of d = b →
  off_of e = stride shape d → (d ∉ refined k) → 0 < b → vat 0 ix (rank + k) = x → 0 ≤ x < b →
  refined_inv (k + 1) (zset d (vat 0 orig d * b + x) orig).
Proof.
  intros Hk (Hlen & Hb & Ht) Hve Hvd Hdr Hbd Hoe Hnew Hb0 Hx Hxr.
  assert (∀ d', d' ∈ refined (k + 1) ↔ d' ∈ refined k ∨ d' = d) as Href.
  { intros d'. by rewrite refined_snoc, Hve, Hvd, elem_of_app, list_elem_of_singleton by lia. }
  assert (∀ d', d' ≠ d → ∀ A (u v : A), (if decide (d' ∈ refined (k + 1)) then u else v) =
    (if decide (d' ∈ refined k) then u else v)) as Hother.
  { intros d' Hne A u v. apply decide_ext. rewrite Href. tauto. }
  pose proof (Hb d Hdr) as Hod. rewrite decide_False, Z.mul_1_r in Hod by done. split_and!.
  - by rewrite zset_length.
  - intros d' Hd'. destruct (decide (d' = d)) as [->|Hne].
    + rewrite vat_zset_eq by lia. rewrite decide_True by (apply Href; by right). rewrite Hbd.
      assert ((vat 0 orig d + 1) * b ≤ dim_of d * b) by (apply Z.mul_le_mono_nonneg_r; lia).
      assert (0 ≤ vat 0 orig d * b) by (apply Z.mul_nonneg_nonneg; lia). lia.
    + rewrite vat_zset_ne by lia. specialize (Hb d' Hd'). by rewrite Hother.
  - rewrite (total_change _ (λ d, vat 0 orig d * refined_weight k d) _ d);
      [|unfold range; apply NoDup_seqZ|apply elem_of_range; lia|].
    + rewrite Ht, vat_zset_eq by lia. unfold refined_weight. rewrite decide_False by done.
      rewrite decide_True by (apply Href; by right).
      rewrite Z.add_assoc, range_snoc, fmap_app, total_app by lia.
      assert (total (weight <$> [rank + k]) = x * stride shape d) as ->; [|rewrite Hbd; lia].
      cbn [fmap list_fmap total foldr]. unfold weight. rewrite Hve, Hoe, Hx. apply Z.add_0_r.
    + intros d' Hd'. rewrite vat_zset_ne by lia. unfold refined_weight. by rewrite Hother.
Qed.

(** In the end every blocked dimension was refined. *)
Lemma all_refined d : d ∈ block_map → d ∈ refined nb.
Proof.
  intros [j Hj]%list_elem_of_lookup. pose proof (lookup_lt_Some _ _ _ Hj) as Hjl.
  assert (rank + Z.of_nat j ∈ drop (length shape) traversal) as Hin.
  { rewrite (config_inner _ _ _ _ _ Hwf). apply elem_of_range. lia. }
  apply list_elem_of_lookup in Hin as [n Hn]. rewrite lookup_drop in Hn. pose proof (lookup_lt_Some _ _ _ Hn) as Hnl.
  pose proof (traversal_length _ _ _ _ _ Hwf) as Htl.
  unfold refined. apply list_elem_of_fmap. exists (rank + Z.of_nat n). split; [|apply elem_of_range; lia].
  assert (vat 0 traversal (rank + Z.of_nat n) = rank + Z.of_nat j) as ->.
  { unfold vat, zget. rewrite (proj2 (Z.leb_le _ _)) by lia.
    replace (Z.to_nat (rank + Z.of_nat n)) with (length shape + n)%nat by lia. by rewrite Hn. }
  replace (rank + Z.of_nat j - rank) with (Z.of_nat j) by lia. unfold vat, zget.
  rewrite (proj2 (Z.leb_le _ _)), Nat2Z.id by lia. by rewrite Hj.
Qed.

Lemma refined_inv_end orig : refined_inv nb orig →
  length orig = length shape ∧ (∀ d x, zget shape d = Some x → 0 ≤ vat 0 orig d < x) ∧
  flat shape (vat 0 orig) = position levels ix.
Proof.
  intros (Hlen & Hb & Ht). split_and!; [done| |].
  - intros d x Hx. assert (0 ≤ d < rank) as Hd by (by eapply zget_range).
    destruct (shape_lookup d Hd) as (x' & Hx' & _ & _ & Hs & _). specialize (Hb d Hd).
    assert (x' = x) as -> by congruence. destruct (decide (d ∈ refined nb)) as [|Hn]; [lia|].
    rewrite (unmapped_block _ _ d) in Hs by (intros Hin; by apply Hn, all_refined). lia.
  - rewrite (position_range ix valid_length). fold weight.
    replace N with (rank + nb) by lia. rewrite <- Ht.
    apply total_ext. intros d _. unfold refined_weight. destruct (decide (d ∈ refined nb)) as [|Hn]; [lia|].
    rewrite (unmapped_block _ _ d) by (intros Hin; by apply Hn, all_refined). lia.
Qed.

Lemma original_index_spec : ∃ orig, original_index fc ix s = Done orig s ∧ length orig = length shape ∧
  (∀ d x, zget shape d = Some x → 0 ≤ vat 0 orig d < x) ∧ flat shape (vat 0 orig) = position levels ix.
Proof.
  enough (wp (original_index fc ix) (λ orig s', s' = s ∧ length orig = length shape ∧
    (∀ d x, zget shape d = Some x → 0 ≤ vat 0 orig d < x) ∧ flat shape (vat 0 orig) = position levels ix) (λ _, False) s)
    as (orig & ? & Hrun & -> & Ho)%wp_no_error; [by exists orig|].
  unfold original_index. cbn [dense_shape_ traversal_order_ block_map_ block_size_ converter]. apply wp_bind, outer_indices.
  intros orig0 Hlen0 Hb0 Ht0. rewrite valid_length.
  apply wp_fold_pure with (I := λ done, refined_inv (zlen done)).
  - by apply refined_inv_0.
  - intros done i todo orig Heq Hinv. pose proof Hinv as (Hlen & Hb & Ht).
    assert (i = rank + zlen done ∧ zlen done < nb) as [-> Hi].
    { assert (range rank N !! length done = Some i) as Hk by (rewrite Heq; apply lookup_split).
      unfold range in Hk. apply lookup_seqZ in Hk. lia. }
    destruct (refined_next (zlen done) ltac:(lia)) as (e & d & b & Htr & Hd & Hbs & Hve & Hvd & Hdr & Hbd & Hde & Hoe & Hnew & He).
    destruct (valid_at ix (rank + zlen done) Hvalid ltac:(lia)) as [Hx Hxr]. rewrite Hve, Hde in Hxr.
    pose proof (Hb d Hdr) as Hod. rewrite decide_False, Z.mul_1_r in Hod by done.
    destruct (shape_lookup d Hdr) as (xd & Hxd & Hxdr & Hbd0 & Hsplit & Hdim). rewrite Hbd in Hsplit, Hbd0.
    assert (0 ≤ vat 0 orig d * b) as Hm0 by (apply Z.mul_nonneg_nonneg; lia).
    assert ((vat 0 orig d + 1) * b ≤ dim_of d * b) as Hm1 by (apply Z.mul_le_mono_nonneg_r; lia).
    wp_steps. eapply wp_at; [exact Htr|]. wp_steps. apply wp_int32.
    { pose proof (config_size _ _ _ _ _ Hwf). pose proof (volume_fits _ _ _ _ _ Hwf). unfold is_int32, int32_min, int32_max in *. nia. }
    wp_steps. eapply wp_at; [exact Hd|]. wp_steps. eapply wp_at; [apply (vat_zget 0); lia|]. wp_steps.
    eapply wp_at; [exact Hbs|]. wp_steps. apply wp_int32; [unfold is_int32, int32_min, int32_max in *; lia|]. wp_steps.
    eapply wp_at; [exact Hx|]. wp_steps. apply wp_int32; [unfold is_int32, int32_min, int32_max in *; lia|]. apply wp_upd; [lia|].
    split; [done|]. rewrite length_app, Nat2Z.inj_add. by apply (refined_inv_next _ _ e d b); (done || lia).
  - intros orig Hinv. rewrite range_length in Hinv. split; [done|]. apply refined_inv_end.
    by replace (Z.of_nat (Z.to_nat (N - rank))) with nb in Hinv by lia.
Qed.

Lemma flattened_spec orig : length orig = length shape → (∀ d x, zget shape d = Some x → 0 ≤ vat 0 orig d < x) →
  GetFlattenedIndex orig shape s = Done (flat shape (vat 0 orig)) s.
Proof.
  intros Hlen Hb. pose proof (flat_bound shape (vat 0 orig) Hb) as Hfl. pose proof (volume_fits _ _ _ _ _ Hwf) as Hv.
  set (f := λ d, vat 0 orig d * stride shape d).
  assert (∀ a b, 0 ≤ a → b ≤ rank → 0 ≤ total (f <$> range a b)) as Hnn.
  { intros a b Ha Hbr. apply total_nonneg. intros y (d & -> & Hd%elem_of_range)%list_elem_of_fmap. unfold f.
    destruct (shape_lookup d ltac:(lia)) as (x & Hx & _). specialize (Hb d x Hx). pose proof (stride_fits d ltac:(lia)).
    apply Z.mul_nonneg_nonneg; lia. }
  enough (wp (GetFlattenedIndex orig shape) (λ r s', s' = s ∧ r = flat shape (vat 0 orig)) (λ _, False) s)
    as (? & ? & -> & -> & ->)%wp_no_error; [done|].
  unfold GetFlattenedIndex. apply wp_bind. apply wp_fold_pure with (I := λ done st,
    st.1 = total (f <$> range (rank - zlen done) rank) ∧ st.2 = volume (drop (Z.to_nat (rank - zlen done)) shape)).
  - simpl. rewrite range_nil by lia. by rewrite drop_ge by lia.
  - intros done i todo [index sub] Heq [Hi Hs]. apply reverse_range_split in Heq as [Hir Hid]. simpl in Hi, Hs.
    replace (rank - zlen done) with (i + 1) in * by lia.
    destruct (shape_lookup i ltac:(lia)) as (x & Hx & Hxr & _). pose proof (Hb i x Hx) as Hbi.
    destruct (stride_bound shape i x (dims_pos _ _ _ _ _ Hwf) Hx) as [Hst Hstx]. fold (stride shape i) in Hs.
    assert (vat 0 orig i * stride shape i ≤ x * stride shape i) by (apply Z.mul_le_mono_nonneg_r; lia).
    assert (0 ≤ vat 0 orig i * stride shape i) by (apply Z.mul_nonneg_nonneg; lia).
    wp_steps. eapply wp_at; [apply (vat_zget 0); lia|]. wp_steps. rewrite Hs.
    apply wp_int32; [unfold is_int32, int32_min, int32_max in *; lia|]. wp_steps. eapply wp_at; [exact Hx|]. wp_steps.
    apply wp_int32; [unfold is_int32, int32_min, int32_max in *; lia|]. wp_steps.
    rewrite length_app. cbn [length]. replace (rank - Z.of_nat (length done + 1)) with i by lia.
    split; [done|]. split.
    + rewrite (range_cons i) by lia. rewrite fmap_cons, total_cons, <- Hi.
      change (vat 0 orig i * stride shape i) with (f i). rewrite (Z.add_comm (f i)). apply u64_id.
      assert (total (f <$> range 0 rank) = total (f <$> range 0 i) + (f i + index)) as Htot.
      { rewrite (range_app 0 i rank), fmap_app, total_app by lia. rewrite (range_cons i) by lia. by rewrite fmap_cons, total_cons, Hi. }
      pose proof (Hnn 0 i ltac:(lia) ltac:(lia)). pose proof (Hnn (i + 1) rank ltac:(lia) ltac:(lia)).
      unfold flat in Hfl. fold f in Hfl. unfold is_size, size_max, int32_max in *. assert (0 ≤ f i) by done. lia.
    + rewrite <- (stride_step shape i x Hx) || rewrite Z.mul_comm, <- (stride_step shape i x Hx).
      unfold stride. do 2 f_equal. lia.
  - intros [index sub] [Hi Hs]. wp_steps. split; [done|]. simpl in Hi. rewrite Hi, length_reverse, range_length.
    by replace (rank - Z.of_nat (Z.to_nat (rank - 0))) with 0 by lia.
Qed.
End place.

(** ** The conversions *)

Lemma position_bound ix : valid_indices levels ix → 0 ≤ position levels ix < volume shape.
Proof.
  intros Hv. destruct (original_index_spec [] [] ix {| src_data_ptr := 0; dest_data := [] |} Hv) as (orig & _ & _ & Hb & <-).
  by apply flat_bound.
Qed.

Lemma span_bound : span_of levels < volume shape.
Proof.
  assert (∀ ls, span_of ls = position ls ((λ l, dim l - 1) <$> ls)) as ->.
  { induction ls as [|l ls IH]; [done|]. cbn [span_of foldr]. fold (span_of ls). rewrite IH. rewrite fmap_cons. cbn [position]. lia. }
  apply position_bound. unfold valid_indices. apply Forall2_fmap_r, Forall_Forall2_diag.
  eapply Forall_impl; [apply (levels_bounds _ _ _ _ _ Hwf)|]. intros l (? & ? & ?). simpl. lia.
Qed.

Lemma levels_forward : Forall (λ l, 0 < dim l ∧ 0 ≤ off l) levels.
Proof. eapply Forall_impl; [apply (levels_bounds _ _ _ _ _ Hwf)|]. simpl. tauto. Qed.

Lemma levels_nonempty : levels ≠ [].
Proof.
  intros Hl. pose proof (f_equal length Hl) as Hlen. rewrite config_levels_length in Hlen. simpl in Hlen.
  pose proof (config_rank _ _ _ _ _ Hwf). assert (0 < rank) by (destruct shape; [done|simpl; lia]). lia.
Qed.

Lemma levels_of_range {A} (f : level → A) (g : Z → A) :
  (∀ i, f (level_of shape traversal formats block_size block_map i) = g i) → f <$> levels = g <$> range 0 N.
Proof. intros Hfg. unfold config_levels. rewrite <- list_fmap_compose. apply list_fmap_ext. intros. apply Hfg. Qed.

Section conversion.
Context (src : list T).
Hypothesis Hsrc : zlen src = volume shape.
Abbreviation metadata := (encoded_metadata src levels [0]).
Abbreviation data := (encoded_data src levels [0]).

Lemma DenseToSparse_spec : DenseToSparse src (converter [] []) = Done () (converter metadata data).
Proof.
  set (fc := converter [] [] : FormatConverter T).
  destruct (compressed_dims_spec (S := FormatConverter T) [] [] fc) as (inner & num & Hcd & Hinner).
  destruct (sparse_dims_spec (S := FormatConverter T) [] [] fc) as (sd & Hsd & Hsparse).
  assert (dim <$> levels = (λ i, dim_of (vat 0 traversal i)) <$> range 0 N) as Hdims by (by apply levels_of_range).
  assert (off <$> levels = (λ i, off_of (vat 0 traversal i)) <$> range 0 N) as Hoffs by (by apply levels_of_range).
  assert (fmt <$> levels = fmt_of <$> range 0 N) as Hfmts by (by apply levels_of_range).
  set (k := {| level_format := fmt_of <$> range 0 N; level_dims := dim <$> levels; dst_ordered_offset := off <$> levels;
              inner_compressed_dim := inner; num_segments_of_next_compressed_dim := num; num_dims := N;
              dst_sparse_dims := sd |}).
  pose proof (volume_fits _ _ _ _ _ Hwf) as Hv.
  assert (zlen levels = N) as Hlen by (rewrite config_levels_length; lia).
  destruct (encode_loop_spec k src levels) as (e & Hrun & Hm & Hd).
  - done.
  - done.
  - done.
  - by rewrite Hlen.
  - exact Hsparse.
  - intros K l Hl Hf. assert (0 ≤ K < N) as HK by (rewrite <- Hlen; by eapply zget_range).
    rewrite config_level in Hl by done. simplify_eq. cbn [fmt level_of] in Hf.
    destruct (Hinner K HK) as [H1 H2]. specialize (H2 Hf). unfold inner_at in H1, H2.
    by destruct (next_compressed (drop (Z.to_nat (K + 1)) levels) (K + 1)).
  - apply (levels_bounds _ _ _ _ _ Hwf).
  - apply (levels_offsets _ _ _ _ _ Hwf).
  - lia.
  - apply levels_nonempty.
  - intros l Hl. by apply (levels_dims _ _ _ _ _ Hwf).
  - rewrite Hsrc. apply span_bound.
  - rewrite (levels_volume _ _ _ _ _ Hwf). lia.
  - unfold DenseToSparse, mbind, M_bind, get. fold fc.
    rewrite (expanded_shape_spec [] [] fc : get_expanded_shape fc fc = _).
    rewrite (shape_offset_spec [] [] fc : get_shape_offset fc fc = _).
    rewrite (expanded_offset_spec [] [] fc : get_expanded_shape_offset fc _ fc = _).
    rewrite (in_order_spec [] [] fc off_of : in_traversal_order fc _ fc = _).
    rewrite (in_order_spec [] [] fc dim_of : in_traversal_order fc _ fc = _).
    rewrite <- Hdims, <- Hoffs.
    rewrite (Hcd : get_compressed_dims fc _ fc = _).
    rewrite (metadata_spec [] [] fc src : get_metadata fc _ fc = _).
    rewrite (Hsd : get_sparse_dims fc fc = _).
    unfold with_locals, modify. change (num_expanded_dims fc) with N. change (format_ fc) with (fmt_of <$> range 0 N).
    fold k. change (data_ fc) with (@nil T). unfold start in Hrun. rewrite Hlen in Hrun.
    replace (length levels) with (Z.to_nat N) in Hrun by lia. rewrite Hrun, Hm, Hd. done.
Qed.

(** Equal, or two zeros. *)
Definition same_value (x y : T) : Prop := x = y ∨ IsZero x = true ∧ y = zero_value.

Abbreviation written := (write_all src (leaves src levels [0])).

Lemma leaf_range b : b ∈ leaves src levels [0] → 0 ≤ b < volume shape.
Proof.
  pose proof span_bound. pose proof levels_forward.
  intros (b0 & ->%list_elem_of_singleton & Hb)%leaves_range; [lia|done].
Qed.

Lemma written_lookup dest i : (length src ≤ length dest)%nat →
  written dest !! i = if decide (Z.of_nat i ∈ leaves src levels [0]) then Some (element src (Z.of_nat i)) else dest !! i.
Proof.
  intros Hd. pose proof (write_all_lookup src (leaves src levels [0]) dest (Z.of_nat i)) as Hw.
  unfold zget in Hw. rewrite !(proj2 (Z.leb_le 0 _)), !Nat2Z.id in Hw by lia. apply Hw.
  intros b Hb%leaf_range. lia.
Qed.

Lemma run_populate_writes {S} dest (s : S) : (length src ≤ length dest)%nat →
  run_populate (converter metadata []) data dest s = Done (written dest) s.
Proof.
  intros Hlen. set (s0 := {| src_data_ptr := 0; dest_data := dest |} : Decoder T).
  pose proof (volume_fits _ _ _ _ _ Hwf) as Hv. pose proof span_bound as Hspan.
  assert (zlen levels = N) as HN by (rewrite config_levels_length; lia).
  destruct (wp_no_error (Populate (converter metadata []) data (length levels) (replicate (length levels) 0) 0 0)
    (λ _ s', dest_data s' = written dest) s0) as ([] & s' & Hrun & Hdest).
  { eapply wp_post; [|apply (populate_spec src (converter metadata []) data levels) with (bs := [0]) (p := 0%nat) (b := 0); try done].
    - intros _ s' [_ ->]. done.
    - symmetry. by apply levels_of_range.
    - apply levels_forward.
    - intros ix s1 Hix. destruct (original_index_spec metadata [] ix s1 Hix) as (orig & Ho & Hol & Hob & Hof).
      exists orig. split; [done|]. rewrite <- Hof. by apply flattened_spec.
    - lia.
    - unfold reached. rewrite length_replicate. split_and!; [done|constructor|done].
    - by apply (encodes_app src levels 0 [0] []).
    - unfold source_bound. simpl. rewrite (levels_volume _ _ _ _ _ Hwf). lia.
    - simpl. lia.
    - simpl. by rewrite leaves_nil. }
  unfold run_populate, mbind, M_bind, with_locals. cbn [traversal_order_ converter].
  pose proof (traversal_length _ _ _ _ _ Hwf). replace (length traversal) with (length levels) by lia.
  fold s0. by rewrite Hrun, Hdest.
Qed.

(** An element that is not stored is zero. *)
Lemma unstored_zero i x : src !! i = Some x → (Z.of_nat i ∉ leaves src levels [0]) → IsZero x = true.
Proof.
  intros Hx Hout. pose proof (lookup_lt_Some _ _ _ Hx). destruct (IsZero x) eqn:Hz; [done|]. exfalso. apply Hout.
  destruct (position_onto _ _ _ _ _ Hwf (Z.of_nat i)) as (ix & Hix & Hp); [lia|].
  rewrite <- (Z.add_0_l (Z.of_nat i)), <- Hp. apply nonzero_stored; [done|by left|].
  unfold element, vat, zget. by rewrite Hp, Z.add_0_l, (proj2 (Z.leb_le 0 _)), Nat2Z.id, Hx by lia.
Qed.

Lemma run_populate_spec {S} (s : S) (rest : list T) : ∃ dest,
  run_populate (converter metadata []) data (replicate (Z.to_nat (volume shape)) zero_value ++ rest) s = Done (dest ++ rest) s ∧
  Forall2 same_value src dest.
Proof.
  set (zeros := replicate (Z.to_nat (volume shape)) zero_value).
  assert (length zeros = length src) as Hzl by (unfold zeros; rewrite length_replicate; lia).
  exists (take (length src) (written (zeros ++ rest))). split.
  - rewrite run_populate_writes by (rewrite length_app; lia). f_equal.
    rewrite <- (take_drop (length src) (written (zeros ++ rest))) at 1. f_equal. apply list_eq. intros i.
    rewrite lookup_drop, written_lookup by (rewrite length_app; lia).
    rewrite decide_False by (intros Hb%leaf_range; lia). rewrite <- Hzl. by rewrite lookup_app_r, Nat.add_comm, Nat.add_sub by lia.
  - apply Forall2_lookup. intros i. destruct (src !! i) as [x|] eqn:Hx.
    + pose proof (lookup_lt_Some _ _ _ Hx) as Hi. rewrite lookup_take_lt, written_lookup by (rewrite ?length_app; lia).
      assert (element src (Z.of_nat i) = x) as ->.
      { unfold element, vat, zget. by rewrite (proj2 (Z.leb_le 0 _)), Nat2Z.id, Hx by lia. }
      assert ((zeros ++ rest) !! i = Some zero_value) as ->.
      { rewrite lookup_app_l by lia. apply lookup_replicate. split; [done|lia]. }
      destruct (decide (Z.of_nat i ∈ leaves src levels [0])) as [Hin|Hout]; apply Some_Forall2; [by left|].
      right. split; [|done]. by eapply unstored_zero.
    + rewrite (proj2 (lookup_ge_None _ _)); [constructor|]. apply lookup_ge_None in Hx. rewrite length_take. lia.
Qed.

Lemma SparseToDense_spec : ∃ dest,
  SparseToDense data (converter metadata data) = Done () (converter metadata dest) ∧ Forall2 same_value src dest.
Proof.
  destruct (run_populate_spec (converter metadata data) []) as (dest & Hrun & Hsame). rewrite !app_nil_r in Hrun.
  exists dest. split; [|done]. unfold SparseToDense, mbind, M_bind, get. cbn [dense_size_ converter].
  assert (run_populate (converter metadata data) data = run_populate (S := FormatConverter T) (converter metadata []) data) as -> by done.
  by rewrite Hrun.
Qed.

Lemma SparseToDense_into_spec dest0 : length dest0 = length src → ∃ dest,
  SparseToDense_into data (zlen src) dest0 (converter metadata []) = Done dest (converter metadata []) ∧ Forall2 same_value src dest.
Proof.
  intros Hlen. destruct (run_populate_spec (converter metadata []) []) as (dest & Hrun & Hsame). rewrite !app_nil_r in Hrun.
  exists dest. split; [|done]. unfold SparseToDense_into, mbind, M_bind, get, ensure. cbn [dense_size_ converter].
  rewrite <- Hsrc, Z.eqb_refl, decide_True by lia. rewrite drop_ge, app_nil_r by lia. unfold mret, M_ret.
  by rewrite Hsrc, Hrun.
Qed.

(** *** The parameters of a stored tensor *)

Definition level_parameters (l : level) (e : list Z * list Z) : TfLiteDimensionMetadata :=
  match fmt l with
  | kTfLiteDimDense => {| format := kTfLiteDimDense; dense_size := dim l; array_segments := None; array_indices := None |}
  | kTfLiteDimSparseCSR => {| format := kTfLiteDimSparseCSR; dense_size := 0; array_segments := Some e.1; array_indices := Some e.2 |}
  end.

Fixpoint stored_parameters (ls : list level) (bs : list Z) : list TfLiteDimensionMetadata :=
  match ls with
  | [] => []
  | l :: ls' => level_parameters l (level_encoding src l ls' bs) :: stored_parameters ls' (stored src l ls' bs)
  end.

Definition parameter_metadata (p : TfLiteDimensionMetadata) : list (list Z) :=
  match format p with
  | kTfLiteDimDense => [[dense_size p]; []]
  | kTfLiteDimSparseCSR => [TfLiteIntArrayToVector (array_segments p); TfLiteIntArrayToVector (array_indices p)]
  end.

Lemma parameters_metadata ls bs : concat (parameter_metadata <$> stored_parameters ls bs) = encoded_metadata src ls bs.
Proof.
  revert bs. induction ls as [|l ls IH]; intros bs; [done|]. cbn [stored_parameters encoded_metadata].
  rewrite fmap_cons. cbn [concat]. rewrite IH. unfold level_parameters, level_encoding, parameter_metadata. by destruct (fmt l).
Qed.

Lemma parameters_format ls bs : format <$> stored_parameters ls bs = fmt <$> ls.
Proof.
  revert bs. induction ls as [|l ls IH]; intros bs; [done|]. cbn [stored_parameters]. rewrite !fmap_cons, IH.
  f_equal. unfold level_parameters. by destruct (fmt l).
Qed.

Lemma parameters_length ls bs : length (stored_parameters ls bs) = length ls.
Proof. rewrite <- (length_fmap format), parameters_format. apply length_fmap. Qed.

Lemma parameters_dense ls bs i l : zget ls i = Some l → fmt l = kTfLiteDimDense →
  zget (dense_size <$> stored_parameters ls bs) i = Some (dim l).
Proof.
  intros [Hi Hl]%zget_Some Hf. rewrite zget_fmap. unfold zget. rewrite (proj2 (Z.leb_le 0 i)) by done.
  remember (Z.to_nat i) as n. clear Heqn Hi i. revert n bs Hl. induction ls as [|l' ls IH]; intros [|n] bs Hl; simplify_eq/=.
  - unfold level_parameters. by rewrite Hf.
  - by apply IH.
Qed.

Lemma product_u64 : foldl (λ s d, u64 (s * d)) 1 shape = volume shape.
Proof.
  enough (∀ n, (n ≤ length shape)%nat → foldl (λ s d, u64 (s * d)) 1 (take n shape) = volume (take n shape)) as Hn.
  { specialize (Hn (length shape) ltac:(lia)). by rewrite take_ge in Hn by lia. }
  induction n as [|n IH]; intros Hn; [done|]. destruct (lookup_lt_is_Some_2 shape n) as [x Hx]; [lia|].
  rewrite (take_S_r _ _ _ Hx), foldl_app, IH, volume_snoc by lia. simpl. apply u64_id. rewrite <- volume_snoc, <- (take_S_r _ _ _ Hx).
  pose proof (volume_take (S n)). pose proof (volume_fits _ _ _ _ _ Hwf). unfold is_size, size_max, int32_max in *. lia.
Qed.

Lemma blocks_before_all : blocks_before rank = nb.
Proof.
  unfold blocks_before. rewrite filter_all; [done|]. intros d Hd.
  apply (mapped_range _ _ _ _ _ Hwf), elem_of_range in Hd. lia.
Qed.

(** The blocks that are known before dimension [i]. *)
Definition known_blocks (i : Z) : list Z :=
  take (Z.to_nat (blocks_before i)) block_size ++ replicate (Z.to_nat (nb - blocks_before i)) 0.

Lemma known_blocks_step i x : 0 ≤ i → zget block_size (blocks_before i) = Some x → blocks_before i < nb → 
  blocks_before (i + 1) = blocks_before i + 1 → zset (blocks_before i) x (known_blocks i) = known_blocks (i + 1).
Proof.
  intros Hi Hx Hlt Hs. unfold known_blocks. rewrite Hs. apply zget_Some in Hx as [H0 Hx].
  pose proof (lookup_lt_Some _ _ _ Hx) as Hl. replace (Z.to_nat (blocks_before i + 1)) with (S (Z.to_nat (blocks_before i))) by lia.
  rewrite (take_S_r _ _ _ Hx), <- app_assoc. unfold zset.
  assert (length (take (Z.to_nat (blocks_before i)) block_size) = Z.to_nat (blocks_before i)) as Ht by (rewrite length_take; lia).
  rewrite insert_app_r_alt, Ht, Nat.sub_diag by lia. f_equal.
  replace (Z.to_nat (nb - blocks_before i)) with (S (Z.to_nat (nb - (blocks_before i + 1)))) by lia. done.
Qed.

Definition self_inverse_blocks : Prop := ∀ j, 0 ≤ j < nb → vat 0 traversal (vat 0 traversal (rank + j)) = rank + j.

Lemma divide_dimension_spec {S} blk i (s : S) : self_inverse_blocks → 0 ≤ i < rank →
  divide_dimension shape traversal (dense_size <$> stored_parameters levels [0]) block_map (blk, known_blocks i, blocks_before i) i s =
  Done (blk ++ [dim_of i], known_blocks (i + 1), blocks_before (i + 1)) s.
Proof.
  intros Hinv Hi. destruct (shape_lookup i Hi) as (x & Hx & Hxr & Hb0 & Hxd & Hd0).
  enough (wp (divide_dimension shape traversal (dense_size <$> stored_parameters levels [0]) block_map (blk, known_blocks i, blocks_before i) i)
    (λ r s', r = (blk ++ [dim_of i], known_blocks (i + 1), blocks_before (i + 1)) ∧ s' = s) (λ _, False) s) as (? & ? & -> & -> & ->)%wp_no_error; [done|].
  unfold divide_dimension. wp_steps. eapply wp_at; [exact Hx|]. wp_steps. apply wp_is_blocked; [lia|].
  pose proof (blocks_before_step i) as Hstep. destruct (decide (i ∈ block_map)) as [Hin|Hout].
  - rewrite bool_decide_eq_true_2 by done. pose proof (block_lookup i Hin ltac:(lia)) as Hb.
    pose proof (config_blocks _ _ _ _ _ Hwf) as Hlen. pose proof (zget_range _ _ _ Hb) as Hbr.
    pose proof (traversal_length _ _ _ _ _ Hwf) as Htl.
    assert (zget traversal (rank + blocks_before i) = Some (vat 0 traversal (rank + blocks_before i))) as Ht by (apply traversal_at; lia).
    rewrite (proj2 (Z.ltb_lt _ _)) by lia. wp_steps. eapply wp_at; [exact Ht|]. wp_steps.
    pose proof (traversal_inner _ _ _ _ _ Hwf _ _ Ht ltac:(lia)) as Hr. set (e := vat 0 traversal (rank + blocks_before i)) in *.
    assert (vat 0 traversal e = rank + blocks_before i) as He by (apply Hinv; lia).
    eapply wp_at.
    { apply parameters_dense; [apply config_level; lia|]. simpl. unfold SparsityLayout.fmt_of. by rewrite (proj2 (Z.ltb_ge _ _)) by lia. }
    wp_steps. rewrite He. assert (dim_of (rank + blocks_before i) = block_of i) as ->.
    { unfold SparsityLayout.dim_of. rewrite (proj2 (Z.ltb_ge _ _)) by lia. replace (rank + blocks_before i - rank) with (blocks_before i) by lia.
      unfold vat. by rewrite Hb. }
    apply wp_upd.
    { unfold known_blocks. rewrite length_app, length_take, length_replicate. lia. }
    wp_steps. apply wp_block_division; [done|done|]. wp_steps. split; [|done].
    rewrite known_blocks_step by (done || lia). do 2 f_equal. lia.
  - rewrite bool_decide_eq_false_2 by done. wp_steps. split; [|done]. rewrite (unmapped_block _ _ _ Hout), Z.mul_1_r in Hxd.
    unfold known_blocks. rewrite Hstep, Z.add_0_r. by subst x.
Qed.

Lemma SparsityConverter_spec {S} sp (s : S) : self_inverse_blocks → TfLiteIntArrayToVector (traversal_order sp) = traversal →
  TfLiteIntArrayToVector (SparsityFormat.block_map sp) = block_map → dim_metadata sp = stored_parameters levels [0] →
  SparsityConverter shape sp s = Done (converter metadata []) s.
Proof.
  intros Hinv Ht Hb Hd.
  enough (wp (SparsityConverter shape sp) (λ fc s', fc = converter metadata [] ∧ s' = s) (λ _, False) s)
    as (? & ? & -> & -> & ->)%wp_no_error; [done|].
  unfold SparsityConverter. rewrite Ht, Hb, Hd. unfold InitSparseToDenseConverter. set (ps := stored_parameters levels [0]).
  pose (p0 := {| format := kTfLiteDimDense; dense_size := 0; array_segments := None; array_indices := None |}).
  apply wp_bind. apply (wp_map_m _ (λ i, parameter_metadata (vat p0 ps i))).
  { intros i Hi%elem_of_range. rewrite length_fmap in Hi. unfold mbind, M_bind, at_, deref.
    rewrite !zget_fmap, (vat_zget p0) by lia. simpl. unfold level_metadata, parameter_metadata, mbind, M_bind, at_, deref.
    rewrite !zget_fmap, (vat_zget p0) by lia. simpl. by destruct (format (vat p0 ps i)). }
  apply wp_bind. apply wp_fold_pure with (I := λ done st, st = (dim_of <$> range 0 (zlen done), known_blocks (zlen done), blocks_before (zlen done))).
  - assert (blocks_before 0 = 0) as Hb0; [|unfold known_blocks; change (zlen (@nil Z)) with 0; by rewrite Hb0, Z.sub_0_r, Nat2Z.id].
    unfold blocks_before. rewrite filter_none; [done|]. intros d Hdin. apply (mapped_range _ _ _ _ _ Hwf), elem_of_range in Hdin. lia.
  - intros done i todo st Heq ->. destruct (range_split _ _ _ _ Heq) as [-> Hlt].
    unfold wp. rewrite divide_dimension_spec by (done || lia). split; [done|]. rewrite length_app. cbn [length].
    replace (Z.of_nat (length done + 1)) with (zlen done + 1) by lia. by rewrite range_snoc, fmap_app by lia.
  - intros st ->. rewrite range_length. replace (Z.of_nat (Z.to_nat (rank - 0))) with rank by lia. wp_steps. split; [|done].
    unfold converter. rewrite product_u64. unfold known_blocks. rewrite blocks_before_all, Z.sub_diag, app_nil_r.
    rewrite take_ge by (rewrite (config_blocks _ _ _ _ _ Hwf); lia).
    assert ((λ i, parameter_metadata (vat p0 ps i)) <$> range 0 (zlen (format <$> ps)) = parameter_metadata <$> ps) as ->.
    { rewrite length_fmap. rewrite <- (vat_range p0 ps) at 2. by rewrite <- list_fmap_compose. }
    unfold ps. rewrite (parameters_metadata levels [0]), (parameters_format levels [0]).
    by rewrite (levels_of_range fmt fmt_of).
Qed.
End conversion.
End proofs.

(** ** The properties of the converter *)

(** C7: for every valid configuration (sizes positive, blocks dividing their
    dimensions, the traversal a permutation of the dimensions of the tensor
    followed by one of those of the blocks, offsets within [int]) and every
    tensor of that shape, the constructor and [DenseToSparse] run without a fault
    or an error, and store what the format prescribes: for each level in the order
    of the traversal its size, if it is dense, or the segments and the ascending
    indices of the sub-blocks with a nonzero, if it is compressed, and the
    elements of the blocks that are left. The specification computes each level
    from the blocks of the level before it; the code keeps one coordinate, pushes
    what it meets and erases what turned out to be empty. *)
Theorem DenseToSparse_encodes {T} `{Scalar T} shape traversal formats block_size block_map (src : list T) :
  valid_config shape traversal formats block_size block_map → zlen src = volume shape →
  let levels := config_levels shape traversal formats block_size block_map in
  ∃ fc fc', DenseToSparseConverter shape traversal formats block_size block_map tt = Done fc tt ∧
    DenseToSparse src fc = Done () fc' ∧
    dim_metadata_ fc' = encoded_metadata src levels [0] ∧ data_ fc' = encoded_data src levels [0].
Proof.
  intros Hwf Hsrc levels. do 2 eexists. split; [by apply construct|]. split; [by apply DenseToSparse_spec|]. done.
Qed.

(** C9: converting a tensor to the sparse format and back restores it, element
    by element, up to the zeros that are not stored (of a floating-point type they
    come back as the positive zero), whatever the order of the traversal, the
    formats of the levels and the blocks. *)
Theorem sparse_roundtrip {T} `{Scalar T} shape traversal formats block_size block_map (src : list T) :
  valid_config shape traversal formats block_size block_map → zlen src = volume shape →
  ∃ fc fc' fc'', DenseToSparseConverter shape traversal formats block_size block_map tt = Done fc tt ∧
    DenseToSparse src fc = Done () fc' ∧ SparseToDense (data_ fc') fc' = Done () fc'' ∧
    Forall2 same_value src (data_ fc'').
Proof.
  intros Hwf Hsrc. destruct (SparseToDense_spec shape traversal formats block_size block_map Hwf src Hsrc) as (dest & Hrun & Hsame).
  do 3 eexists. split; [by apply construct|]. split; [by apply DenseToSparse_spec|]. split; [exact Hrun|done].
Qed.

(** *** A blocked matrix

    The 4 by 4 matrix of the unit tests, in 2 by 2 blocks: both blocks of the
    first row of blocks have a nonzero, in the second row the last one. *)

Definition block_matrix : list Z := [1; 0; 2; 3; 0; 4; 0; 0; 0; 0; 5; 0; 0; 0; 0; 6].

Lemma block_config : valid_config [4; 4] [0; 1; 2; 3] [kTfLiteDimDense; kTfLiteDimSparseCSR] [2; 2] [0; 1].
Proof.
  constructor; try by vm_compute.
  - repeat constructor.
  - repeat constructor.
  - intros j d b Hd Hb. assert (j = 0 ∨ j = 1) as [-> | ->].
    { apply zget_range in Hd. simpl in Hd. lia. }
    all: vm_compute in Hd, Hb; simplify_eq; split; [lia|]; exists 4; split; [done|]; by exists 2.
Qed.

Lemma DenseToSparse_encodes_witness :
  ∃ fc fc', DenseToSparseConverter [4; 4] [0; 1; 2; 3] [kTfLiteDimDense; kTfLiteDimSparseCSR] [2; 2] [0; 1] tt = Done fc tt ∧
    DenseToSparse block_matrix fc = Done () fc' ∧
    dim_metadata_ fc' = [[2]; []; [0; 2; 3]; [0; 1; 1]; [2]; []; [2]; []] ∧
    data_ fc' = [1; 0; 0; 4; 2; 3; 0; 0; 5; 0; 0; 6].
Proof.
  exact (DenseToSparse_encodes [4; 4] [0; 1; 2; 3] [kTfLiteDimDense; kTfLiteDimSparseCSR] [2; 2] [0; 1] block_matrix block_config eq_refl).
Defined.

Lemma sparse_roundtrip_witness :
  ∃ fc fc' fc'', DenseToSparseConverter [4; 4] [0; 1; 2; 3] [kTfLiteDimDense; kTfLiteDimSparseCSR] [2; 2] [0; 1] tt = Done fc tt ∧
    DenseToSparse block_matrix fc = Done () fc' ∧ SparseToDense (data_ fc') fc' = Done () fc'' ∧
    Forall2 same_value block_matrix (data_ fc'').
Proof.
  exact (sparse_roundtrip [4; 4] [0; 1; 2; 3] [kTfLiteDimDense; kTfLiteDimSparseCSR] [2; 2] [0; 1] block_matrix block_config eq_refl).
Defined.

(** The converter for the stored parameters takes the size of block [j] from the
    level [traversal_order[rank + j]], where it should look for the level that
    traverses block [j]. The two agree if the order of the blocks is its own
    inverse ([self_inverse_blocks]); for a cycle of three blocks it takes the size
    of another one, and the tensor is not restored. *)
Definition rebuilt {T} `{Scalar T} shape traversal formats block_size block_map (src : list T) : M unit (list T) :=
  fc ← DenseToSparseConverter shape traversal formats block_size block_map;
  fc ← with_locals (DenseToSparse src) fc;
  let ls := config_levels shape traversal formats block_size block_map in
  c ← SparsityConverter shape {| traversal_order := Some traversal; SparsityFormat.block_map := Some block_map;
                                 dim_metadata := stored_parameters src ls [0] |};
  fc ← with_locals (SparseToDense (data_ fc)) c;
  mret (data_ fc).

Example block_cycle : rebuilt [4; 2; 2] [0; 1; 2; 5; 3; 4] (replicate 3 kTfLiteDimDense) [2; 1; 1] [0; 1; 2] (range 0 16) tt =
  Done [0; 0; 2; 0; 8; 0; 10; 0; 11; 0; 14; 0; 15; 0; 0; 0] tt.
Proof. vm_compute. reflexivity. Qed.

Example block_swap : rebuilt [4; 2; 2] [0; 1; 2; 4; 3; 5] (replicate 3 kTfLiteDimDense) [2; 1; 1] [0; 1; 2] (range 0 16) tt =
  Done (range 0 16) tt.
Proof. vm_compute. reflexivity. Qed.
