(* ===== verification/SparseWeights.v ===== *)
(** * Sparse weights, from the converter to the runtime

    The converter of models encodes a constant tensor in blocks
    ([src/tflite/converter/transforms/dense_to_sparse_pass.cc]), the exporter
    writes the parameters into the model with the narrowest integers
    ([src/tflite/converter/flatbuffer_export.cc]), the runtime reads them back
    ([src/tflite/core/interpreter_builder.cc]) and [Densify] restores the dense
    tensor ([src/tflite/kernels/internal/reference/densify.h]). *)

From S2P Require Import Prelude SparsityFormat.

(** ** The encoding *)

Definition PopulateEncodingParams {S} (block_size : list Z) :
    M S (list Z * list TfLiteDimensionType * list Z * list Z) :=
  let dims_count := zlen block_size in
  format ← upd (replicate (length block_size) kTfLiteDimDense) (dims_count - 1) kTfLiteDimSparseCSR;
  '(traversal_order, format, b_map, b_size, _) ←
    fold_m (range 0 dims_count) (range 0 dims_count, format, [], [], 0) (λ st i,
      let '(traversal_order, format, b_map, b_size, block_rank) := st in
      b ← at_ block_size i;
      if b =? 1 then mret st
      else mret (traversal_order ++ [block_rank + dims_count], format ++ [kTfLiteDimDense],
                 b_map ++ [i], b_size ++ [b], block_rank + 1));
  mret (traversal_order, format, b_map, b_size).

(** The attributes of the operation; the vector of the dimensions is filled with
    null attributes first. *)
Record DimensionMetadataAttr := {
  attr_format : TfLiteDimensionType;
  attr_dense_size : Z;
  attr_segments : list Z;
  attr_indices : list Z
}.

Record SparsityParameterAttr := {
  attr_traversal_order : list Z;
  attr_block_map : list Z;
  attr_dim_metadata : list (option DimensionMetadataAttr)
}.

Definition dimension_attr {S} (format : list TfLiteDimensionType) (metadata : list (list Z)) (i : Z) :
    M S DimensionMetadataAttr :=
  f ← at_ format i;
  match f with
  | kTfLiteDimDense =>
      m ← at_ metadata (2 * i);
      d ← at_ m 0;
      mret {| attr_format := kTfLiteDimDense; attr_dense_size := d; attr_segments := []; attr_indices := [] |}
  | kTfLiteDimSparseCSR =>
      s ← at_ metadata (2 * i);
      x ← at_ metadata (2 * i + 1);
      mret {| attr_format := kTfLiteDimSparseCSR; attr_dense_size := 0; attr_segments := s; attr_indices := x |}
  end.

(** [shape] is the one of the type of the constant. *)
Definition BuildSparsityParameterAttribute {S T} `{Scalar T} (shape block_size : list Z) (dense_buffer : list T) :
    M S (list T * SparsityParameterAttr) :=
  '(traversal_order, format, b_map, b_size) ← PopulateEncodingParams block_size;
  fc ← DenseToSparseConverter shape traversal_order format b_size b_map;
  fc ← with_locals (DenseToSparse dense_buffer) fc;
  let metadata := dim_metadata_ fc in
  dim_metadata ← fold_m (range 0 (zlen metadata / 2)) (replicate (length traversal_order) None) (λ dims i,
    a ← dimension_attr format metadata i; upd dims i (Some a));
  mret (data_ fc, {| attr_traversal_order := traversal_order; attr_block_map := b_map; attr_dim_metadata := dim_metadata |}).

(** ** The tables of the model

    A union has a type and a pointer to a table; the table has a pointer to its
    values, which are read at the width of the type. *)

Inductive SparseIndexVector := NONE | Int32Vector | Uint16Vector | Uint8Vector.

Record IndexVector := { values : option (list Z) }.

Record SparseIndexVectorUnion := { vector_type : SparseIndexVector; vector_table : option IndexVector }.

Definition no_vector : SparseIndexVectorUnion := {| vector_type := NONE; vector_table := None |}.

Record DimensionMetadata := {
  fb_format : Z;
  fb_dense_size : Z;
  fb_array_segments : SparseIndexVectorUnion;
  fb_array_indices : SparseIndexVectorUnion
}.

Record SparsityParameters := {
  fb_traversal_order : option (list Z);
  fb_block_map : option (list Z);
  fb_dim_metadata : option (list DimensionMetadata)
}.

Definition DimensionType_DENSE : Z := 0.
Definition DimensionType_SPARSE_CSR : Z := 1.

(** *** Writing them *)

Definition create_vector (type : SparseIndexVector) (v : list Z) : SparseIndexVectorUnion :=
  {| vector_type := type; vector_table := Some {| values := Some v |} |}.

Definition uint8_max : Z := 255.
Definition uint16_max : Z := 65535.
Definition narrow8 (z : Z) : Z := z mod 2 ^ 8.
Definition narrow16 (z : Z) : Z := z mod 2 ^ 16.

(** The narrowest vector for the largest value. *)
Definition narrowest_vector (max : Z) (v : list Z) : SparseIndexVectorUnion :=
  if max <=? uint8_max then create_vector Uint8Vector (narrow8 <$> v)
  else if max <=? uint16_max then create_vector Uint16Vector (narrow16 <$> v)
  else create_vector Int32Vector v.

Definition max_of_indices (v : list Z) : Z := foldl (λ m x, if m <? x then x else m) 0 v.

Definition export_dimension {S} (dim_metadata : DimensionMetadataAttr) : M S DimensionMetadata :=
  match attr_format dim_metadata with
  | kTfLiteDimDense =>
      mret {| fb_format := DimensionType_DENSE; fb_dense_size := attr_dense_size dim_metadata;
              fb_array_segments := no_vector; fb_array_indices := no_vector |}
  | kTfLiteDimSparseCSR =>
      let vector_segments := attr_segments dim_metadata in
      let vector_indices := attr_indices dim_metadata in
      max_of_segments ← at_ vector_segments (zlen vector_segments - 1);
      mret {| fb_format := DimensionType_SPARSE_CSR; fb_dense_size := 0;
              fb_array_segments := narrowest_vector max_of_segments vector_segments;
              fb_array_indices := narrowest_vector (max_of_indices vector_indices) vector_indices |}
  end.

Definition BuildSparsityParameters {S} (s_attr : SparsityParameterAttr) : M S SparsityParameters :=
  let dim_size := zlen (attr_dim_metadata s_attr) in
  fb_dim_metadata ← map_m (λ i, a ← at_ (attr_dim_metadata s_attr) i; a ← deref a; export_dimension a) (range 0 dim_size);
  traversal_order ← map_m (λ i, at_ (attr_traversal_order s_attr) i) (range 0 dim_size);
  mret {| fb_traversal_order := Some traversal_order; fb_block_map := Some (attr_block_map s_attr);
          fb_dim_metadata := Some fb_dim_metadata |}.

(** *** Reading them

    The state is the object that the pointer of the caller is set to, null at
    first: an error leaves it with the dimensions read so far. *)

Definition Copy {S} (v : IndexVector) : M S (list Z) :=
  match values v with Some l => mret l | None => fail end.

(** [array_..._as_...()]: the table of a union. *)
Definition copy_vector {S} (u : SparseIndexVectorUnion) : M S (list Z) :=
  match vector_type u with
  | NONE => fail
  | Int32Vector | Uint16Vector | Uint8Vector => t ← deref (vector_table u); Copy t
  end.

Definition empty_metadata : TfLiteDimensionMetadata :=
  {| format := kTfLiteDimDense; dense_size := 0; array_segments := None; array_indices := None |}.

Definition has_table (u : SparseIndexVectorUnion) : bool := bool_decide (is_Some (vector_table u)).

Definition update_dimension (i : Z) (f : TfLiteDimensionMetadata → TfLiteDimensionMetadata) : M (option TfLiteSparsity) unit :=
  s ← get;
  sp ← deref s;
  d ← at_ (dim_metadata sp) i;
  put (Some {| traversal_order := traversal_order sp; block_map := block_map sp; dim_metadata := zset i (f d) (dim_metadata sp) |}).

Definition ParseSparseIndexVector (src : DimensionMetadata) (i : Z) : M (option TfLiteSparsity) unit :=
  ensure (has_table (fb_array_segments src) && has_table (fb_array_indices src));;
  s ← copy_vector (fb_array_segments src);
  update_dimension i (λ d, {| format := format d; dense_size := dense_size d; array_segments := Some s; array_indices := array_indices d |});;
  x ← copy_vector (fb_array_indices src);
  update_dimension i (λ d, {| format := format d; dense_size := dense_size d; array_segments := array_segments d; array_indices := Some x |}).

Definition parse_dimension (src : list DimensionMetadata) (i : Z) : M (option TfLiteSparsity) unit :=
  src_metadata ← at_ src i;
  let f := fb_format src_metadata in
  ensure ((f =? DimensionType_DENSE) || (f =? DimensionType_SPARSE_CSR));;
  if f =? DimensionType_DENSE then
    update_dimension i (λ d, {| format := kTfLiteDimDense; dense_size := fb_dense_size src_metadata;
                                array_segments := array_segments d; array_indices := array_indices d |})
  else
    update_dimension i (λ d, {| format := kTfLiteDimSparseCSR; dense_size := dense_size d;
                                array_segments := array_segments d; array_indices := array_indices d |});;
    ParseSparseIndexVector src_metadata i.

Definition ParseSparsity (src_sparsity : option SparsityParameters) : M (option TfLiteSparsity) unit :=
  match src_sparsity with
  | None => mret ()
  | Some src =>
      match fb_traversal_order src, fb_dim_metadata src with
      | Some order, Some dims =>
          put (Some {| traversal_order := Some order; block_map := fb_block_map src;
                       dim_metadata := replicate (length dims) empty_metadata |});;
          for_each (range 0 (zlen dims)) (parse_dimension dims)
      | _, _ => fail
      end
  end.

(** ** The dense tensor again *)

Definition FlatSize {S} (shape : list Z) : M S Z := fold_m shape 1 (λ buffer_size d, int32 (buffer_size * d)).

(** The result of a call on a local object. *)
Definition call_on {S L A} (l : L) (m : M L A) : M S A := λ s,
  match m l with Done a _ => Done a s | Error _ => Error s | Undefined => Undefined end.

(** The status of [SparseToDense] is not looked at: if it fails the output is
    what it was. *)
Definition Densify {S T} `{Scalar T} (sparsity : TfLiteSparsity) (output_shape : list Z) (input_data output_data : list T) :
    M S (list T) :=
  converter ← SparsityConverter output_shape sparsity;
  size ← FlatSize output_shape;
  dest ← call_on converter (try_m (SparseToDense_into input_data (u64 size) output_data));
  mret (default output_data dest).

Module Tests.
Definition output_of {S A} (m : M S A) (s : S) : option A := match m s with Done a _ => Some a | _ => None end.

Definition pipeline (shape block_size src : list Z) : M unit (list Z) :=
  '(data, attr) ← BuildSparsityParameterAttribute shape block_size src;
  fb ← BuildSparsityParameters attr;
  sp ← with_locals (ParseSparsity (Some fb)) None;
  sp ← deref sp;
  Densify sp shape data (replicate (length src) 7).

Example restored : pipeline [4; 4] [1; 2] [1; 0; 2; 3; 0; 4; 0; 0; 0; 0; 5; 0; 0; 0; 0; 6] tt =
  Done [1; 0; 2; 3; 0; 4; 0; 0; 0; 0; 5; 0; 0; 0; 0; 6] tt.
Proof. vm_compute. reflexivity. Qed.
End Tests.
