(* ===== verification/SparseWeightsProofs.v ===== *)
(** * Sparse weights survive the model file

    What the exporter writes is what the runtime reads, and the weights that the
    converter compressed are restored by [Densify]. *)

From S2P Require Import Prelude TensorLayout SparsityFormat SparseBlocks SparsityLayout SparsityProofs SparseWeights.

(** ** Reading *)

(** What a union and a dimension of the model mean. *)
Definition read_vector (u : SparseIndexVectorUnion) : option (list Z) :=
  match vector_type u with NONE => None | _ => t ← vector_table u; values t end.

Definition read_dimension (d : DimensionMetadata) : option TfLiteDimensionMetadata :=
  if fb_format d =? DimensionType_DENSE then
    Some {| format := kTfLiteDimDense; dense_size := fb_dense_size d; array_segments := None; array_indices := None |}
  else if fb_format d =? DimensionType_SPARSE_CSR then
    s ← read_vector (fb_array_segments d); x ← read_vector (fb_array_indices d);
    Some {| format := kTfLiteDimSparseCSR; dense_size := 0; array_segments := Some s; array_indices := Some x |}
  else None.

Section reading.
Context (order : option (list Z)) (blocks : option (list Z)).

Definition read_so_far (ds : list TfLiteDimensionMetadata) : option TfLiteSparsity :=
  Some {| traversal_order := order; block_map := blocks; dim_metadata := ds |}.

Lemma update_dimension_run i f ds d : zget ds i = Some d →
  update_dimension i f (read_so_far ds) = Done () (read_so_far (zset i (f d) ds)).
Proof. intros Hd. unfold update_dimension, mbind, M_bind, get, put, at_, deref. simpl. by rewrite Hd. Qed.

Lemma copy_vector_run {S} u (s : S) : has_table u = true →
  copy_vector u s = match read_vector u with Some l => Done l s | None => Error s end.
Proof.
  unfold has_table, copy_vector, read_vector. intros [v Hv]%bool_decide_eq_true. rewrite Hv. unfold Copy.
  unfold mbind, M_bind, option_bind, deref. by destruct (vector_type u); simpl; destruct (values v).
Qed.

Lemma read_vector_table u l : read_vector u = Some l → has_table u = true.
Proof. unfold read_vector, has_table. intros Hr. apply bool_decide_eq_true. destruct (vector_type u), (vector_table u); done. Qed.

Lemma parse_vectors_run d i ds m : zget ds i = Some m → array_segments m = None → array_indices m = None →
  match (s ← read_vector (fb_array_segments d); x ← read_vector (fb_array_indices d); Some (s, x)) with
  | Some (s, x) => ParseSparseIndexVector d i (read_so_far ds) = Done () (read_so_far
      (zset i {| format := format m; dense_size := dense_size m; array_segments := Some s; array_indices := Some x |} ds))
  | None => ∃ x, ParseSparseIndexVector d i (read_so_far ds) = Error (read_so_far (zset i x ds))
  end.
Proof.
  intros Hm Hs Hx. pose proof (zget_range _ _ _ Hm) as Hr. unfold ParseSparseIndexVector, mbind, M_bind, option_bind, ensure.
  destruct (has_table (fb_array_segments d)) eqn:H1, (has_table (fb_array_indices d)) eqn:H2; simpl.
  2-4: destruct (read_vector (fb_array_segments d)) as [s|] eqn:E1; [|by exists m; rewrite zset_same].
  2-4: destruct (read_vector (fb_array_indices d)) as [x|] eqn:E2; [|by exists m; rewrite zset_same].
  2-4: apply read_vector_table in E1, E2; congruence.
  rewrite copy_vector_run by done. destruct (read_vector (fb_array_segments d)) as [s|]; [|by exists m; rewrite zset_same].
  rewrite (update_dimension_run i _ ds m Hm), copy_vector_run by done.
  destruct (read_vector (fb_array_indices d)) as [x|]; [|by eexists].
  erewrite update_dimension_run by (apply zget_zset_eq; lia). by rewrite zset_twice.
Qed.

Lemma parse_dimension_run dims i d ds : zget dims i = Some d → zget ds i = Some empty_metadata →
  match read_dimension d with
  | Some r => parse_dimension dims i (read_so_far ds) = Done () (read_so_far (zset i r ds))
  | None => ∃ x, parse_dimension dims i (read_so_far ds) = Error (read_so_far (zset i x ds))
  end.
Proof.
  intros Hd He. pose proof (zget_range _ _ _ He) as Hr. unfold parse_dimension, read_dimension, mbind, M_bind, at_, deref.
  rewrite Hd. simpl. destruct (fb_format d =? DimensionType_DENSE); simpl; [by rewrite (update_dimension_run i _ ds _ He)|].
  destruct (fb_format d =? DimensionType_SPARSE_CSR); simpl; [|by exists empty_metadata; rewrite zset_same].
  pose (m := {| format := kTfLiteDimSparseCSR; dense_size := 0; array_segments := None; array_indices := None |}).
  pose proof (parse_vectors_run d i (zset i m ds) m (zget_zset_eq ds i m Hr) eq_refl eq_refl) as Hp.
  rewrite (update_dimension_run i _ ds _ He : _ = Done () (read_so_far (zset i m ds))).
  unfold mbind, option_bind in *. destruct (read_vector (fb_array_segments d)) as [s|].
  - destruct (read_vector (fb_array_indices d)) as [x|].
    + rewrite Hp. by rewrite zset_twice.
    + destruct Hp as [x ->]. exists x. by rewrite zset_twice.
  - destruct Hp as [x ->]. exists x. by rewrite zset_twice.
Qed.

(** The dimensions after the first ones. *)
Lemma parse_dimensions_run dims todo done ds : dims = done ++ todo → length ds = length done →
  match mapM read_dimension todo with
  | Some rs => for_each (range (zlen done) (zlen dims)) (parse_dimension dims)
      (read_so_far (ds ++ replicate (length todo) empty_metadata)) = Done () (read_so_far (ds ++ rs))
  | None => ∃ n d rs x, todo !! n = Some d ∧ read_dimension d = None ∧ mapM read_dimension (take n todo) = Some rs ∧
      for_each (range (zlen done) (zlen dims)) (parse_dimension dims)
        (read_so_far (ds ++ replicate (length todo) empty_metadata)) =
      Error (read_so_far (ds ++ rs ++ x :: replicate (length todo - n - 1) empty_metadata))
  end.
Proof.
  revert done ds. induction todo as [|d todo IH]; intros done ds -> Hlen.
  - rewrite app_nil_r, range_nil by lia. done.
  - pose proof (parse_dimension_run (done ++ d :: todo) (zlen done) d (ds ++ replicate (S (length todo)) empty_metadata)) as Hstep.
    assert (zget (done ++ d :: todo) (zlen done) = Some d) as Hd.
    { apply zget_Some. split; [lia|]. by rewrite Nat2Z.id, lookup_app_r, Nat.sub_diag by lia. }
    assert (∀ x, zset (zlen done) x (ds ++ replicate (S (length todo)) empty_metadata) = (ds ++ [x]) ++ replicate (length todo) empty_metadata) as Hz.
    { intros x. unfold zset. rewrite Nat2Z.id, <- Hlen, insert_app_r_alt, Nat.sub_diag by lia. by rewrite <- app_assoc. }
    specialize (Hstep Hd). rewrite range_cons by (rewrite length_app; simpl; lia).
    specialize (IH (done ++ [d])). cbn [mapM for_each length]. unfold mbind, M_bind, option_bind.
    assert (zget (ds ++ replicate (S (length todo)) empty_metadata) (zlen done) = Some empty_metadata) as He.
    { apply zget_Some. split; [lia|]. by rewrite Nat2Z.id, lookup_app_r, Hlen, Nat.sub_diag by lia. }
    specialize (Hstep He). destruct (read_dimension d) as [r|] eqn:Hr.
    + rewrite Hstep, Hz. specialize (IH (ds ++ [r]) ltac:(by rewrite <- app_assoc) ltac:(by rewrite !length_app, Hlen)).
      rewrite length_app in IH. replace (Z.of_nat (length done + length [d])) with (zlen done + 1) in IH by (simpl; lia).
      destruct (mapM read_dimension todo) as [rs|].
      * rewrite IH. simpl. by rewrite <- app_assoc.
      * destruct IH as (n & d' & rs & x & H1 & H2 & H3 & H4). exists (S n), d', (r :: rs), x.
        split_and!; [done|done|apply mapM_Some; constructor; [done|by apply mapM_Some]|]. rewrite H4. rewrite <- app_assoc. do 3 f_equal.
    + destruct Hstep as [x Hx]. exists 0%nat, d, [], x. split_and!; [done|done|done|]. rewrite Hx, Hz, <- app_assoc. simpl. by rewrite Nat.sub_0_r.
Qed.
End reading.

(** [ParseSparsity] never faults, on whatever the model holds: without
    parameters it succeeds and leaves the pointer null; with the traversal order
    or the dimensions missing it fails with the pointer null; otherwise it reads
    every dimension as the format prescribes (a dense size, or the segments and
    indices at the width of their vectors), and it fails exactly if one of them is
    malformed (an unknown format, a vector of no type, without table or without
    values), leaving the dimensions before the first such one read, and the ones
    after it empty. *)
Theorem ParseSparsity_reads (src : option SparsityParameters) :
  match src with
  | None => ParseSparsity None None = Done () None
  | Some p =>
      match fb_traversal_order p, fb_dim_metadata p with
      | Some order, Some dims =>
          match mapM read_dimension dims with
          | Some ds => ParseSparsity (Some p) None = Done () (read_so_far (Some order) (fb_block_map p) ds)
          | None => ∃ n d ds x, dims !! n = Some d ∧ read_dimension d = None ∧
              mapM read_dimension (take n dims) = Some ds ∧
              ParseSparsity (Some p) None = Error (read_so_far (Some order) (fb_block_map p)
                (ds ++ x :: replicate (length dims - n - 1) empty_metadata))
          end
      | _, _ => ParseSparsity (Some p) None = Error None
      end
  end.
Proof.
  destruct src as [p|]; [|done]. unfold ParseSparsity.
  destruct (fb_traversal_order p) as [order|]; [|done]. destruct (fb_dim_metadata p) as [dims|]; [|done].
  exact (parse_dimensions_run (Some order) (fb_block_map p) dims dims [] [] eq_refl eq_refl).
Qed.

(** ** Writing *)

(** The parameters of the runtime for a dimension of the attribute. *)
Definition runtime_metadata (a : DimensionMetadataAttr) : TfLiteDimensionMetadata :=
  match attr_format a with
  | kTfLiteDimDense => {| format := kTfLiteDimDense; dense_size := attr_dense_size a; array_segments := None; array_indices := None |}
  | kTfLiteDimSparseCSR =>
      {| format := kTfLiteDimSparseCSR; dense_size := 0; array_segments := Some (attr_segments a); array_indices := Some (attr_indices a) |}
  end.

(** The last segment is the largest one, and nothing is negative. *)
Definition exportable (a : DimensionMetadataAttr) : Prop :=
  attr_format a = kTfLiteDimSparseCSR → Forall (λ x, 0 ≤ x) (attr_indices a) ∧
    ∃ m, last (attr_segments a) = Some m ∧ Forall (λ x, 0 ≤ x ≤ m) (attr_segments a).

Lemma fmap_id_Forall (f : Z → Z) l : Forall (λ x, f x = x) l → f <$> l = l.
Proof. intros Hf. induction Hf as [|x l Hx Hf IH]; [done|]. rewrite fmap_cons. by rewrite Hx, IH. Qed.

Lemma read_narrowest max v : Forall (λ x, 0 ≤ x ≤ max) v → read_vector (narrowest_vector max v) = Some v.
Proof.
  intros Hv. unfold narrowest_vector, uint8_max, uint16_max.
  destruct (Z.leb_spec max 255); [|destruct (Z.leb_spec max 65535); [|done]].
  - change (Some (narrow8 <$> v) = Some v). f_equal. apply fmap_id_Forall. eapply Forall_impl; [exact Hv|].
    intros x Hx. simpl in Hx. apply Z.mod_small. lia.
  - change (Some (narrow16 <$> v) = Some v). f_equal. apply fmap_id_Forall. eapply Forall_impl; [exact Hv|].
    intros x Hx. simpl in Hx. apply Z.mod_small. lia.
Qed.

Lemma max_of_indices_bound v : Forall (λ x, 0 ≤ x) v → Forall (λ x, 0 ≤ x ≤ max_of_indices v) v.
Proof.
  intros Hv. assert (∀ l m, m ≤ foldl (λ m x, if m <? x then x else m) m l ∧
    ∀ x, x ∈ l → x ≤ foldl (λ m x, if m <? x then x else m) m l) as Hmax.
  { induction l as [|y l IH]; intros m; simpl; [split; [lia|intros x ?%elem_of_nil; done]|].
    destruct (IH (if m <? y then y else m)) as [H1 H2]. destruct (Z.ltb_spec m y); (split; [lia|]);
      intros x [->|Hx]%elem_of_cons; auto; lia. }
  apply Forall_forall. intros x Hx. rewrite Forall_forall in Hv. split; [by apply Hv|]. by apply Hmax.
Qed.

Lemma export_dimension_run {S} a (s : S) : exportable a →
  ∃ d, export_dimension a s = Done d s ∧ read_dimension d = Some (runtime_metadata a).
Proof.
  intros Ha. unfold exportable, export_dimension, runtime_metadata in *. destruct (attr_format a); [by eexists|].
  destruct (Ha eq_refl) as (Hi & m & Hlast & Hs). unfold mbind, M_bind, at_, deref.
  assert (zget (attr_segments a) (zlen (attr_segments a) - 1) = Some m) as ->.
  { assert (attr_segments a ≠ []) by (intros He; by rewrite He in Hlast). rewrite last_lookup in Hlast.
    destruct (attr_segments a) as [|x l]; [done|]. apply zget_Some. split; [cbn [length]; lia|].
    rewrite <- Hlast. f_equal. cbn [length]. lia. }
  eexists. split; [done|]. unfold read_dimension. cbn [fb_format fb_array_segments fb_array_indices]. simpl.
  by rewrite !read_narrowest by (by try apply max_of_indices_bound).
Qed.

Lemma map_m_exists {S A B} (f : A → M S B) (P : A → B → Prop) l (s : S) :
  (∀ x, x ∈ l → ∃ y, f x s = Done y s ∧ P x y) → ∃ ys, map_m f l s = Done ys s ∧ Forall2 P l ys.
Proof.
  induction l as [|x l IH]; intros Hf; [by exists []|].
  destruct (Hf x) as (y & Hy & HP); [by left|]. destruct IH as (ys & Hys & HPs); [intros; apply Hf; by right|].
  exists (y :: ys). split; [|by constructor]. simpl. unfold mbind, M_bind. by rewrite Hy, Hys.
Qed.

Lemma export_run {S} order blocks dims (s : S) : length order = length dims → Forall exportable dims →
  ∃ fb_dims, BuildSparsityParameters {| attr_traversal_order := order; attr_block_map := blocks; attr_dim_metadata := Some <$> dims |} s =
    Done {| fb_traversal_order := Some order; fb_block_map := Some blocks; fb_dim_metadata := Some fb_dims |} s ∧
    mapM read_dimension fb_dims = Some (runtime_metadata <$> dims).
Proof.
  intros Hlen Hdims. unfold BuildSparsityParameters. cbn [attr_dim_metadata attr_traversal_order attr_block_map]. rewrite length_fmap.
  destruct (map_m_exists (λ i, a ← at_ (Some <$> dims) i; a ← deref a; export_dimension a)
    (λ i d, ∃ a, zget dims i = Some a ∧ read_dimension d = Some (runtime_metadata a)) (range 0 (zlen dims)) s) as (ds & Hds & Hread).
  { intros i Hi%elem_of_range. destruct (zget_is_Some dims i) as [a Ha]; [lia|].
    destruct (export_dimension_run a s) as (d & Hd & Hr).
    { rewrite Forall_forall in Hdims. apply Hdims. by eapply zget_elem. }
    exists d. split; [|by exists a]. unfold mbind, M_bind, at_, deref. rewrite zget_fmap, Ha. simpl. exact Hd. }
  exists ds. split.
  - unfold mbind, M_bind in *. rewrite Hds. enough (map_m (S := S) (λ i, at_ order i) (range 0 (zlen dims)) s = Done order s) as -> by done.
    enough (wp (S := S) (map_m (λ i, at_ order i) (range 0 (zlen dims))) (λ v s', v = order ∧ s' = s) (λ _, False) s)
      as (? & ? & -> & -> & ->)%wp_no_error; [done|].
    apply (wp_map_m _ (vat 0 order)).
    + intros i Hi%elem_of_range. unfold at_, deref. by rewrite (vat_zget 0) by lia.
    + split; [|done]. rewrite <- Hlen. apply vat_range.
  - apply mapM_Some. apply Forall2_flip. rewrite Forall2_fmap_l. apply Forall2_same_length_lookup.
    pose proof (Forall2_length _ _ _ Hread) as Hl. rewrite range_length in Hl. split; [lia|].
    intros i a d Ha Hd. assert (range 0 (zlen dims) !! i = Some (Z.of_nat i)) as Hi.
    { unfold range. rewrite lookup_seqZ_lt; [done|]. apply lookup_lt_Some in Ha. lia. }
    destruct (Forall2_lookup_lr _ _ _ _ _ _ Hread Hi Hd) as (a' & Ha' & Hr). apply zget_Some in Ha' as [_ Ha'].
    rewrite Nat2Z.id in Ha'. by simplify_eq.
Qed.

(** C31: the parameters written by the exporter are read back by the runtime
    exactly: every dimension with its format, its size, or its segments and
    indices, although they are stored at 8 or 16 bits where the largest index, and
    the last segment, fit. The last segment has to be the largest one and nothing
    negative, which holds of what the format converter computes. *)
Theorem sparsity_parameters_roundtrip order blocks dims :
  length order = length dims → Forall exportable dims →
  ∃ fb, BuildSparsityParameters {| attr_traversal_order := order; attr_block_map := blocks; attr_dim_metadata := Some <$> dims |} tt = Done fb tt ∧
    ParseSparsity (Some fb) None = Done ()
      (Some {| traversal_order := Some order; block_map := Some blocks; dim_metadata := runtime_metadata <$> dims |}).
Proof.
  intros Hlen Hdims. destruct (export_run order blocks dims tt Hlen Hdims) as (ds & Hb & Hr). eexists. split; [exact Hb|].
  pose proof (parse_dimensions_run (Some order) (Some blocks) ds ds [] [] eq_refl eq_refl) as Hp. by rewrite Hr in Hp.
Qed.

(** ** The attributes of the stored levels *)

Definition parameter_attr (p : TfLiteDimensionMetadata) : DimensionMetadataAttr :=
  {| attr_format := format p; attr_dense_size := dense_size p;
     attr_segments := TfLiteIntArrayToVector (array_segments p); attr_indices := TfLiteIntArrayToVector (array_indices p) |}.

Section stored.
Context {T : Type} `{Scalar T} (src : list T).

Lemma stored_parameters_elem ls bs p : p ∈ stored_parameters src ls bs →
  ∃ l ls' bs', l ∈ ls ∧ p = level_parameters l (level_encoding src l ls' bs').
Proof.
  revert bs. induction ls as [|l ls IH]; intros bs; [by intros ?%elem_of_nil|].
  intros [->|Hp]%elem_of_cons; [exists l, ls, bs; split; [by left|done]|].
  apply IH in Hp as (l' & ls' & bs' & Hl & ->). exists l', ls', bs'. split; [by right|done].
Qed.

Lemma runtime_parameter ls bs p : p ∈ stored_parameters src ls bs → runtime_metadata (parameter_attr p) = p.
Proof.
  intros (l & ls' & bs' & _ & ->)%stored_parameters_elem. unfold level_parameters, level_encoding.
  by destruct (fmt l) eqn:Hf.
Qed.

Lemma indices_nonneg l ls bs : Forall (λ x, 0 ≤ x) (indices src l ls bs).
Proof.
  apply Forall_forall. intros x Hx. unfold indices in Hx. apply concat_elem in Hx as (v & Hv & Hx).
  apply list_elem_of_fmap in Hv as (b & -> & _). apply stored_indices_range in Hx. lia.
Qed.

(** The segments grow up to the number of indices. *)
Lemma segments_bounds l ls bs : last (segments src l ls bs) = Some (zlen (indices src l ls bs)) ∧
  Forall (λ x, 0 ≤ x ≤ zlen (indices src l ls bs)) (segments src l ls bs).
Proof.
  split.
  - rewrite last_lookup, segments_length. simpl. by rewrite segments_lookup, take_ge by lia.
  - unfold segments. apply Forall_fmap, Forall_forall. intros n _. simpl.
    pose proof (indices_app src l ls (take n bs) (drop n bs)) as Hi. rewrite take_drop in Hi. rewrite Hi, length_app. lia.
Qed.

Lemma parameter_exportable ls bs p : p ∈ stored_parameters src ls bs → exportable (parameter_attr p).
Proof.
  intros (l & ls' & bs' & _ & ->)%stored_parameters_elem. unfold exportable, level_parameters, level_encoding.
  destruct (fmt l) eqn:Hf; [done|]. intros _. simpl. split; [apply indices_nonneg|].
  exists (zlen (indices src l ls' bs')). apply segments_bounds.
Qed.

Lemma parameters_lookup ls bs i p : zget (stored_parameters src ls bs) i = Some p →
  zget (encoded_metadata src ls bs) (2 * i) = Some (vat [] (parameter_metadata p) 0) ∧
  zget (encoded_metadata src ls bs) (2 * i + 1) = Some (vat [] (parameter_metadata p) 1).
Proof.
  intros [Hi Hp]%zget_Some. unfold zget. rewrite !(proj2 (Z.leb_le 0 _)) by lia.
  replace (Z.to_nat (2 * i + 1)) with (S (2 * Z.to_nat i)) by lia. replace (Z.to_nat (2 * i)) with (2 * Z.to_nat i)%nat by lia.
  remember (Z.to_nat i) as n. clear Heqn Hi i. revert n bs Hp. induction ls as [|l ls IH]; intros n bs Hp; [done|].
  destruct n as [|n]; cbn [stored_parameters encoded_metadata] in *.
  - simpl in Hp. simplify_eq. unfold level_parameters, level_encoding, parameter_metadata. by destruct (fmt l).
  - replace (2 * S n)%nat with (S (S (2 * n))) by lia. by apply IH.
Qed.

Lemma encoded_length ls bs : zlen (encoded_metadata src ls bs) = 2 * zlen ls.
Proof.
  revert bs. induction ls as [|l ls IH]; intros bs; [done|]. cbn [encoded_metadata length].
  specialize (IH (stored src l ls bs)). lia.
Qed.
End stored.

(** ** The encoding of weights *)

Section weights.
Context {T : Type} `{Scalar T} (shape block_size : list Z).

(** The dimensions that are divided into blocks. *)
Definition divided (n : Z) : list Z := filter (λ i, vat 1 block_size i ≠ 1) (range 0 n).

Abbreviation dims_count := (zlen block_size).
Abbreviation b_map := (divided dims_count).
Abbreviation b_size := (vat 1 block_size <$> b_map).
Abbreviation order := (range 0 (dims_count + zlen b_map)).

Definition row_formats : list TfLiteDimensionType :=
  <[Nat.pred (length block_size) := kTfLiteDimSparseCSR]> (replicate (length block_size) kTfLiteDimDense).
Definition weight_formats : list TfLiteDimensionType := row_formats ++ replicate (length b_map) kTfLiteDimDense.

Lemma divided_snoc n : 0 ≤ n → divided (n + 1) = divided n ++ (if decide (vat 1 block_size n ≠ 1) then [n] else []).
Proof. intros Hn. unfold divided. rewrite range_snoc, filter_app by done. f_equal. Qed.

Lemma PopulateEncodingParams_spec {S} (s : S) : block_size ≠ [] →
  PopulateEncodingParams block_size s = Done (order, weight_formats, b_map, b_size) s.
Proof.
  intros Hne. assert (0 < dims_count) as Hpos by (destruct block_size; [done|simpl; lia]).
  enough (wp (PopulateEncodingParams block_size) (λ r s', r = (order, weight_formats, b_map, b_size) ∧ s' = s) (λ _, False) s)
    as (? & ? & -> & -> & ->)%wp_no_error; [done|].
  unfold PopulateEncodingParams. apply wp_bind. apply wp_upd; [rewrite length_replicate; lia|].
  apply wp_bind. apply wp_fold_pure with (I := λ done st,
    st = (range 0 (dims_count + zlen (divided (zlen done))), row_formats ++ replicate (length (divided (zlen done))) kTfLiteDimDense,
          divided (zlen done), vat 1 block_size <$> divided (zlen done), zlen (divided (zlen done)))).
  - assert (divided (zlen (@nil Z)) = []) as -> by done. rewrite app_nil_r, Z.add_0_r.
    unfold row_formats, zset. by replace (Z.to_nat (dims_count - 1)) with (Nat.pred (length block_size)) by lia.
  - intros done i todo st Heq ->. destruct (range_split _ _ _ _ Heq) as [-> Hlt].
    wp_steps. eapply wp_at; [apply (vat_zget 1); lia|]. rewrite length_app. cbn [length].
    replace (Z.of_nat (length done + 1)) with (zlen done + 1) by lia. rewrite divided_snoc by lia.
    destruct (Z.eqb_spec (vat 1 block_size (zlen done)) 1) as [H1|H1]; wp_steps; (split; [done|]).
    + rewrite decide_False by (by intros ?). by rewrite app_nil_r.
    + rewrite decide_True by done. rewrite fmap_app, !length_app. cbn [length fmap list_fmap].
      replace (Z.of_nat (length (divided (zlen done)) + 1)) with (zlen (divided (zlen done)) + 1) by lia.
      rewrite Z.add_assoc, range_snoc by lia. rewrite replicate_add, app_assoc. simpl. by rewrite (Z.add_comm dims_count (zlen _)).
  - intros st ->. rewrite range_length. replace (Z.of_nat (Z.to_nat (dims_count - 0))) with dims_count by lia. by wp_steps.
Qed.

(** Positive dimensions, and blocks that divide them. *)
Record valid_blocks : Prop := {
  blocks_rank : shape ≠ [];
  blocks_divide : Forall2 (λ b x, 0 < b ∧ 0 < x ∧ (b | x)) block_size shape;
  blocks_size : 2 * zlen shape * volume shape ≤ int32_max
}.

Hypothesis Hwf : valid_blocks.

Lemma same_rank : length block_size = length shape.
Proof. eapply Forall2_length, Hwf. Qed.

Lemma shape_positive : Forall (λ d, 0 < d) shape.
Proof. pose proof (blocks_divide Hwf) as Hd. clear Hwf. induction Hd as [|b x bs xs Hbx Hd IH]; constructor; naive_solver. Qed.

Lemma divided_elem n i : i ∈ divided n ↔ 0 ≤ i < n ∧ vat 1 block_size i ≠ 1.
Proof. unfold divided. rewrite list_elem_of_filter, elem_of_range. tauto. Qed.

Lemma divided_length n : 0 ≤ n → zlen (divided n) ≤ n.
Proof. intros Hn. unfold divided. etrans; [apply inj_le, length_filter|]. rewrite range_length. lia. Qed.

Lemma weight_config : valid_config shape order weight_formats b_size b_map.
Proof.
  pose proof same_rank as Hrank. pose proof (blocks_rank Hwf) as Hne. pose proof shape_positive as Hpos.
  pose proof (divided_length dims_count ltac:(lia)) as Hdl. pose proof (volume_pos _ Hpos) as Hv.
  assert (order = range 0 (zlen shape) ++ range (zlen shape) (zlen shape + zlen b_map)) as Horder.
  { rewrite Hrank. apply range_app; lia. }
  assert (length (range 0 (zlen shape)) = length shape) as Hlen by (rewrite range_length; lia).
  constructor; try done.
  - pose proof (blocks_size Hwf). etrans; [|done]. apply Z.mul_le_mono_nonneg_r; lia.
  - unfold weight_formats, row_formats. rewrite length_app, length_insert, length_replicate. lia.
  - by rewrite length_fmap.
  - apply StronglySorted_filter, range_lt.
  - intros j d b Hj Hb. rewrite zget_fmap, Hj in Hb. simplify_eq/=. apply zget_elem, divided_elem in Hj as [Hd _].
    destruct (zget_is_Some block_size d) as [b Hb]; [lia|]. destruct (zget_is_Some shape d) as [x Hx]; [lia|].
    pose proof Hx as [_ Hx']%zget_Some. pose proof Hb as [_ Hb']%zget_Some.
    destruct (Forall2_lookup_lr _ _ _ _ _ _ (blocks_divide Hwf) Hb' Hx') as (H1 & _ & H2).
    unfold vat. rewrite Hb. simpl. eauto.
  - by rewrite Horder, take_app_length'.
  - by rewrite Horder, drop_app_length'.
Qed.

Lemma order_at i : 0 ≤ i < dims_count + zlen b_map → vat 0 order i = i.
Proof.
  intros Hi. unfold vat, zget, range. rewrite (proj2 (Z.leb_le 0 i)) by lia. rewrite lookup_seqZ_lt by lia. simpl. lia.
Qed.

Lemma order_self_inverse : self_inverse_blocks shape order b_map.
Proof. intros j Hj. pose proof same_rank. by rewrite !order_at by (rewrite ?order_at; lia). Qed.

Abbreviation levels := (config_levels shape order weight_formats b_size b_map).

(** The formats of the levels are those of the dimensions. *)
Lemma weight_format_at i : 0 ≤ i < zlen shape + zlen b_map → zget weight_formats i = Some (fmt_of shape order weight_formats i).
Proof.
  intros Hi. pose proof same_rank as Hrank. unfold fmt_of. rewrite order_at by lia. unfold weight_formats.
  assert (length row_formats = length shape) as Hl by (unfold row_formats; rewrite length_insert, length_replicate; lia).
  destruct (Z.ltb_spec i (zlen shape)).
  - apply vat_zget. rewrite length_app. lia.
  - apply zget_Some. split; [lia|]. rewrite lookup_app_r by lia. apply lookup_replicate. split; [done|lia].
Qed.

Section compressed.
Context (src : list T).
Hypothesis Hsrc : zlen src = volume shape.
Abbreviation parameters := (stored_parameters src levels [0]).

Lemma expanded_count : length levels = (length shape + length b_map)%nat.
Proof. rewrite config_levels_length. lia. Qed.

Lemma dimension_attr_run {S} i p (s : S) : zget parameters i = Some p →
  dimension_attr weight_formats (encoded_metadata src levels [0]) i s = Done (parameter_attr p) s.
Proof.
  intros Hp. pose proof (zget_range _ _ _ Hp) as Hi. rewrite parameters_length, expanded_count in Hi.
  destruct (parameters_lookup src levels [0] i p Hp) as [H1 H2].
  unfold dimension_attr, mbind, M_bind, at_, deref. rewrite weight_format_at by lia.
  assert (format p = fmt_of shape order weight_formats i) as Hf.
  { pose proof (f_equal (λ v, zget v i) (parameters_format src levels [0])) as Hf. simpl in Hf.
    rewrite !zget_fmap, Hp, config_level in Hf by lia. by simplify_eq/=. }
  assert (p ∈ parameters) as (l & ls' & bs' & _ & Hpl)%stored_parameters_elem by (by eapply zget_elem).
  simpl. rewrite <- Hf, H1, H2. rewrite Hpl. unfold level_parameters, parameter_metadata, parameter_attr. by destruct (fmt l).
Qed.

Lemma attributes_run {W} (s : W) :
  fold_m (range 0 (zlen (encoded_metadata src levels [0]) / 2)) (replicate (length order) None) (λ dims i,
    a ← dimension_attr weight_formats (encoded_metadata src levels [0]) i; upd dims i (Some a)) s =
  Done (Some <$> (parameter_attr <$> parameters)) s.
Proof.
  rewrite encoded_length. rewrite (Z.mul_comm 2), Z.div_mul by lia. pose proof same_rank as Hrank.
  replace (length order) with (length levels) by (rewrite range_length, expanded_count; lia).
  pose proof (parameters_length src levels [0]) as Hpl. rewrite <- Hpl.
  enough (wp (S := W) (fold_m (range 0 (zlen parameters)) (replicate (length parameters) None) (λ dims i,
      a ← dimension_attr weight_formats (encoded_metadata src levels [0]) i; upd dims i (Some a)))
    (λ r s', r = Some <$> (parameter_attr <$> parameters) ∧ s' = s) (λ _, False) s) as (? & ? & -> & -> & ->)%wp_no_error; [done|].
  apply wp_fold_pure with (I := λ done dims,
    dims = (Some <$> (parameter_attr <$> take (length done) parameters)) ++ replicate (length parameters - length done) None).
  - by rewrite Nat.sub_0_r.
  - intros done i todo dims Heq ->. destruct (range_split _ _ _ _ Heq) as [-> Hlt].
    destruct (zget_is_Some parameters (zlen done)) as [p Hp]; [lia|]. pose proof Hp as [_ Hp']%zget_Some. rewrite Nat2Z.id in Hp'.
    apply wp_bind. unfold wp at 1. rewrite (dimension_attr_run _ _ _ Hp). apply wp_upd.
    { rewrite length_app, !length_fmap, length_take, length_replicate. lia. }
    split; [done|]. rewrite length_app. cbn [length]. rewrite Nat.add_1_r, (take_S_r _ _ _ Hp'), !fmap_app, <- app_assoc.
    unfold zset. rewrite Nat2Z.id, insert_app_r_alt by (rewrite !length_fmap, length_take; lia).
    rewrite !length_fmap, length_take, Nat.min_l, Nat.sub_diag by lia.
    by replace (length parameters - length done)%nat with (S (length parameters - S (length done)))%nat by lia.
  - intros dims ->. rewrite range_length. replace (Z.to_nat (zlen parameters - 0)) with (length parameters) by lia.
    split; [|done]. by rewrite take_ge, Nat.sub_diag, app_nil_r by lia.
Qed.

Lemma BuildSparsityParameterAttribute_spec {S} (s : S) :
  BuildSparsityParameterAttribute shape block_size src s =
  Done (encoded_data src levels [0], {| attr_traversal_order := order; attr_block_map := b_map;
          attr_dim_metadata := Some <$> (parameter_attr <$> parameters) |}) s.
Proof.
  assert (block_size ≠ []) as Hne.
  { intros He. pose proof same_rank as Hrank. rewrite He in Hrank. pose proof (blocks_rank Hwf). by destruct shape. }
  unfold BuildSparsityParameterAttribute, mbind, M_bind, with_locals. rewrite PopulateEncodingParams_spec by done.
  rewrite (construct _ _ _ _ _ weight_config). rewrite (DenseToSparse_spec _ _ _ _ _ weight_config src Hsrc).
  cbn [dim_metadata_ data_ converter]. pose proof (attributes_run s) as Ha. unfold mbind, M_bind in Ha. by rewrite Ha.
Qed.

Lemma FlatSize_spec {S} (s : S) : FlatSize shape s = Done (volume shape) s.
Proof.
  pose proof (volume_fits _ _ _ _ _ weight_config) as Hv.
  enough (wp (S := S) (FlatSize shape) (λ r s', r = volume shape ∧ s' = s) (λ _, False) s) as (? & ? & -> & -> & ->)%wp_no_error; [done|].
  apply wp_fold_pure with (I := λ done r, r = volume done).
  - done.
  - intros done d todo r Heq ->. rewrite <- volume_snoc.
    assert (0 < volume (done ++ [d]) ≤ volume shape) as Hd.
    { assert (take (length (done ++ [d])) shape = done ++ [d]) as <-; [|apply (volume_take _ _ _ _ _ weight_config)].
      rewrite Heq. replace (done ++ d :: todo) with ((done ++ [d]) ++ todo) by (by rewrite <- app_assoc). apply take_app_length. }
    apply wp_int32; [unfold is_int32, int32_min, int32_max in *; lia|]. done.
  - by intros r ->.
Qed.

(** The parameters as the runtime has read them. *)
Definition stored_sparsity : TfLiteSparsity :=
  {| traversal_order := Some order; block_map := Some b_map; dim_metadata := parameters |}.

Lemma weights_read {S} (s : S) : ∃ fb,
  BuildSparsityParameters {| attr_traversal_order := order; attr_block_map := b_map;
    attr_dim_metadata := Some <$> (parameter_attr <$> parameters) |} s = Done fb s ∧
  ParseSparsity (Some fb) None = Done () (Some stored_sparsity).
Proof.
  pose proof same_rank as Hrank. destruct (export_run order b_map (parameter_attr <$> parameters) s) as (ds & Hb & Hr).
  - rewrite length_fmap, parameters_length, expanded_count, range_length. lia.
  - apply Forall_fmap, Forall_forall. intros p Hp. by eapply parameter_exportable.
  - eexists. split; [exact Hb|].
    pose proof (parse_dimensions_run (Some order) (Some b_map) ds ds [] [] eq_refl eq_refl) as Hp. rewrite Hr in Hp.
    assert (runtime_metadata <$> (parameter_attr <$> parameters) = parameters) as Hid.
    { rewrite <- list_fmap_compose. apply list_eq. intros i. rewrite list_lookup_fmap.
      destruct (parameters !! i) as [p|] eqn:Hi; [|done]. simpl. f_equal. eapply runtime_parameter. by eapply list_elem_of_lookup_2. }
    rewrite Hid in Hp. exact Hp.
Qed.

Lemma Densify_spec {S} output (s : S) : length output = length src → ∃ dest,
  Densify stored_sparsity shape (encoded_data src levels [0]) output s = Done dest s ∧ Forall2 same_value src dest.
Proof.
  intros Hout. destruct (SparseToDense_into_spec _ _ _ _ _ weight_config src Hsrc output Hout) as (dest & Hrun & Hsame).
  exists dest. split; [|done]. unfold Densify, mbind, M_bind.
  rewrite (SparsityConverter_spec _ _ _ _ _ weight_config src) by (apply order_self_inverse || done).
  rewrite FlatSize_spec. pose proof (volume_fits _ _ _ _ _ weight_config).
  rewrite u64_id by (unfold is_size, size_max, int32_max in *; lia). rewrite <- Hsrc.
  unfold call_on, try_m. by rewrite Hrun.
Qed.
End compressed.
End weights.

(** C8: a constant compressed by the converter is restored by the runtime: for
    every shape and every supported block (one size per dimension, dividing it),
    [BuildSparsityParameterAttribute] encodes the constant, the exporter writes
    the parameters, the interpreter reads them, and [Densify] of the stored
    elements, into whatever buffer of the right size, gives the elements of the
    constant, zeros that were not stored becoming the zero of the type. No step
    faults or fails, and no [int] overflows as long as twice the rank times the
    number of elements fits. *)
Theorem sparse_weight_restored {T} `{Scalar T} shape block_size (src output : list T) :
  valid_blocks shape block_size → zlen src = volume shape → length output = length src →
  ∃ data attr fb sp dest,
    BuildSparsityParameterAttribute shape block_size src tt = Done (data, attr) tt ∧
    BuildSparsityParameters attr tt = Done fb tt ∧
    ParseSparsity (Some fb) None = Done () (Some sp) ∧
    Densify sp shape data output tt = Done dest tt ∧ Forall2 same_value src dest.
Proof.
  intros Hwf Hsrc Hout. destruct (weights_read shape block_size Hwf src tt) as (fb & Hb & Hp).
  destruct (Densify_spec shape block_size Hwf src Hsrc output tt Hout) as (dest & Hd & Hsame).
  do 5 eexists. split; [by apply BuildSparsityParameterAttribute_spec|]. split; [exact Hb|]. split; [exact Hp|]. split; [exact Hd|done].
Qed.

(** *** Witnesses *)

(** A level with an index that needs 16 bits. *)
Definition wide_level : DimensionMetadataAttr :=
  {| attr_format := kTfLiteDimSparseCSR; attr_dense_size := 0; attr_segments := [0; 2; 3]; attr_indices := [7; 300; 12] |}.
Definition dense_level : DimensionMetadataAttr :=
  {| attr_format := kTfLiteDimDense; attr_dense_size := 2; attr_segments := []; attr_indices := [] |}.

Lemma sparsity_parameters_roundtrip_witness : ∃ fb,
  BuildSparsityParameters {| attr_traversal_order := [0; 1]; attr_block_map := []; attr_dim_metadata := Some <$> [dense_level; wide_level] |} tt = Done fb tt ∧
  ParseSparsity (Some fb) None = Done () (Some {| traversal_order := Some [0; 1]; block_map := Some []; dim_metadata :=
    [{| format := kTfLiteDimDense; dense_size := 2; array_segments := None; array_indices := None |};
     {| format := kTfLiteDimSparseCSR; dense_size := 0; array_segments := Some [0; 2; 3]; array_indices := Some [7; 300; 12] |}] |}).
Proof.
  apply (sparsity_parameters_roundtrip [0; 1] [] [dense_level; wide_level]); [done|].
  constructor; [by intros ?|]. constructor; [|constructor]. intros _. cbn [attr_indices attr_segments wide_level].
  split; [|exists 3; split; [done|]]; repeat (constructor; [lia|]); constructor.
Defined.

Lemma block_matrix_valid : valid_blocks [4; 4] [1; 2].
Proof.
  constructor; [done| |done]. repeat constructor; try done; [by exists 4|by exists 2].
Qed.

Lemma sparse_weight_restored_witness : ∃ data attr fb sp dest,
  BuildSparsityParameterAttribute [4; 4] [1; 2] block_matrix tt = Done (data, attr) tt ∧
  BuildSparsityParameters attr tt = Done fb tt ∧
  ParseSparsity (Some fb) None = Done () (Some sp) ∧
  Densify sp [4; 4] data (replicate 16 9) tt = Done dest tt ∧ Forall2 same_value block_matrix dest.
Proof. exact (sparse_weight_restored [4; 4] [1; 2] block_matrix (replicate 16 9) block_matrix_valid eq_refl eq_refl). Defined.

(** Only the last segment decides on the width of the segments: a larger one
    before it would be cut. *)
Example unsorted_segments_cut : 
  (λ u, read_vector u) <$> (match export_dimension (S := unit) {| attr_format := kTfLiteDimSparseCSR; attr_dense_size := 0;
      attr_segments := [0; 300; 1]; attr_indices := [] |} tt with Done d _ => Some (fb_array_segments d) | _ => None end) =
  Some (Some [0; 44; 1]).
Proof. done. Qed.
